(* ===== verification/_CoqProject ===== *)
-Q . S2P
Prelude.v
GoStrings.v
GoTime.v
WorkflowTypes.v
Dag.v
DagCycle.v
DagTopo.v
Template.v
TemplateCache.v
JsonPath.v
GoPath.v
ExprEngine.v
WalState.v
Effects.v
Helpers.v
Compound.v
CompoundProofs.v
DagScheduler.v
DagSchedulerInv.v
DagSchedulerProofs.v
DagRun.v
Sequential.v
SequentialProofs.v
SequentialWal.v
Interpreter.v
WalFile.v
WalDurability.v
WalCompaction.v
Errors.v
Idempotency.v
IdempotencyProofs.v
FileLock.v
GoText.v
GoFloat.v
AuditRecorder.v
Executor.v
Policy.v
PolicyExecutor.v
Resume.v
AuditChain.v
AuditChainProofs.v
StructuredOutput.v
TaskQueue.v
LruCache.v
CircuitBreaker.v
QuotaStore.v
LlmRouter.v
LlmRouterProofs.v
Cron.v
Scheduler.v
Pipeline.v
PipelineProofs.v
NetGuard.v
PathGuard.v
GoPathProofs.v
Webhook.v
WebhookProofs.v
HealthMonitor.v
Watermark.v
WatermarkProofs.v
AtomicWrite.v
Secrets.v
SecretsStoreProofs.v
VectorIndex.v
SessionMemory.v
SessionManager.v
SessionManagerProofs.v
Analysis.v
Agents.v
AgentBreaker.v
AgentClient.v
SelfUpdate.v
NodeParams.v
Execute.v
Condition.v
Connector.v
HttpRequest.v
StrUtil.v
CallNode.v
