(* ===== verification/Prelude.v ===== *)
(** * aflare: a verification development for the workflow engine and the
    services around it

    aflare runs workflows: lists of steps, each of which calls a node (an HTTP
    request, an LLM, a shell command, ...) or nests steps inside an [if],
    [loop], [parallel], [map], [reduce] or [saga].  This library models the
    engine (src/internal/workflow) and the services that keep state around it
    (scheduler, queue, caches, router, webhook server, policy, audit, secrets,
    memory, external agents) and proves what makes them correct.  Nodes, files, clocks, JSON,
    YAML, cryptography and goroutine scheduling are outside of the code; they
    enter as records of operations ([Host], [Env], [ChainEnv], [CryptoEnv],
    [MemEnv], ...), with what is relied on of them stated as classes
    ([GoRuntime], [WalWorld], [CryptoLaws], [RangeLaws], ...) or as named
    hypotheses, each of them with an instance at which a witness applies it.

    ** How the program fits together

    A workflow (types.go) whose steps declare [depends_on] runs on the DAG
    scheduler (executor_dag.go over the graph of dag.go), any other one on the
    sequential executor (executor_seq.go, executor_seq_step.go); both are
    entered through [ExecuteWorkflow] (executor.go).  Both evaluate templates
    such as "{{step.a}} {{var.x}}" with the expression engine (expression*.go),
    run compound steps with the executors of executor_loop.go,
    executor_parallel.go, executor_map.go, executor_reduce.go,
    executor_saga.go, which call [executeSubStep] and [ExecuteWorkflow] again
    on nested steps, recover from failures with [applyErrorRecovery], and
    persist progress as checkpoints or in a write-ahead log
    (executor_state.go, wal.go).  A resumable step that fails pauses the run
    (resume.go).  Around them, the configurable executor
    (executor_executor.go) reserves an idempotency key (idempotency.go),
    records the run in the audit chain (executor_audit.go, history) and runs
    under a policy (policy_executor.go, policy).  Runs are started by cron
    (scheduler), by webhooks (webhook), by the daemon's queue (taskqueue) and
    by pipelines (pipeline.go).  LLM calls go through the router with its
    breakers and quotas (nodes) and a response cache (cache); templates read
    secrets (secrets), agents keep their memory in sessions (memory), and
    outbound addresses and file paths pass the guards of httpclient and
    nodes/core.

    ** Files: foundations

    - Prelude: results and errors, 64-bit integers, tactics, the hint database
      [aflare], list lemmas.
    - GoStrings, GoText, GoTime, GoFloat, GoPath, GoPathProofs: the parts of
      Go's strings, strconv, utf8, time, float64, path/filepath and limited
      readers that the sources use, on byte strings and 64-bit integers.
    - Effects: the state-and-panic monad [M], contexts, the environment
      [Env], the predicate [yields] on what a computation returns and the
      equivalence [≡ₘ] of computations.

    ** Files: the engine

    - WorkflowTypes: types.go; kind predicates, getters with their clamps, the
      backoff delay with its overflow guard, [normalizeStepIDs].
    - Dag, DagCycle, DagTopo: dag.go; graph construction, three-colour cycle
      detection, Kahn's batches, input resolution.  [DagTopo] states the
      specification of docs/tla as a step relation and proves the refinement.
    - Template, TemplateCache: expression_parse.go and the LRU cache of
      expression.go.  JsonPath: the JSON paths of expression_eval.go.
      ExprEngine: expression.go, expression_eval.go, expression_types.go.
    - Helpers: executor_helpers.go, executor_preview.go and the retry loop.
    - Compound, CompoundProofs: the compound steps and error recovery, written
      over a record [Rec] of the two recursive entry points.
    - DagScheduler: executor_dag.go; DagSchedulerInv its invariant and the
      preservation by every operation, DagSchedulerProofs the main loop and
      fresh and restored schedulers, DagRun the theorems on whole runs.
    - Sequential: executor_seq.go, executor_seq_step.go and [PauseWorkflow];
      SequentialProofs the rows of a run, SequentialWal crash and resume over
      the class [WalWorld].
    - Interpreter: [ExecuteWorkflow] and the knot of nested workflows.
    - WalState: snapshots, delta records and their replay (executor_state.go).
      WalFile, WalDurability, WalCompaction: wal.go, from the
      bytes of a frame to crashes, torn tails and compaction.
    - Pipeline, PipelineProofs: pipeline.go with the goroutines of a batch.
    - Analysis: analysis.go, the checks before a run, with a matcher of the
      references to parameters.

    ** Files: control of runs

    - Errors: errors/codes.go.  Idempotency, IdempotencyProofs, FileLock:
      idempotency.go, both stores behind the class [IdempotencyStore], and the
      sentinel lock as interleaved system calls.
    - Executor: executor_executor.go, proved against that
      class.  Resume: resume.go.  Policy, PolicyExecutor: policy/engine.go and
      policy_executor.go.
    - AuditRecorder: executor_audit.go.  AuditChain, AuditChainProofs: the
      signed chain of history.
    - StructuredOutput: nodes/structured_output.go, the output contracts.

    ** Files: services

    - TaskQueue: taskqueue/queue.go.  LruCache: cache/cache.go.
    - CircuitBreaker, QuotaStore, LlmRouter, LlmRouterProofs: the LLM router
      of nodes/llm_router.go, router_*.go.
    - Cron, Scheduler, HealthMonitor: scheduler.
    - NetGuard, PathGuard: httpclient/client.go, nodes/core/security.go.
    - Webhook, WebhookProofs: webhook/webhook.go.
    - Watermark, WatermarkProofs: watermark/watermark.go.
    - AtomicWrite: fsutil/fsutil.go.  Secrets, SecretsStoreProofs:
      secrets/secrets.go.
    - Agents, AgentBreaker, AgentClient: agentx; the registry and command
      lines of external agents, their circuit breakers, and the delegations,
      written as trees of questions to the environment ([prog]) whose traces
      the theorems speak about.
    - VectorIndex, SessionMemory, SessionManager, SessionManagerProofs: the
      sessions of memory.
    - SelfUpdate: meta/version.go and autoupgrade/engine.go, from
      the choice of an asset to the exchange of the executable.
    - StrUtil: strutil/truncate.go.

    ** Files: nodes

    - NodeParams: nodes/core/params.go.
    - Execute: nodes/execute.go; whitelist, word splitting, arguments, the
      redaction of logs and the order of audit line and process.
    - Condition: nodes/condition.go, with the pool of regexp goroutines as a
      step relation.
    - Connector: connector; validation of specs, credentials, the registry and
      its file.
    - HttpRequest: nodes/http_request.go and http_request_ratelimit.go, with
      the retries as a trace of attempts.
    - CallNode: nodes/call.go, the recursion of workflows that call workflows.

    ** How the code is modelled

    Pure functions are functions; objects with a lock are records passed
    explicitly, one function per method; fallible code returns [result], an
    [option error] or a sum; code that calls nodes is a computation in [M W]
    for a world [W] of any type, in which Go's panics are values.  Shared
    pointers (tasks, cache elements, sessions) are addresses into a store.
    Map iteration order is a parameter that is only assumed to visit every key
    once.  In the engine a goroutine runs as a whole when its result is
    delivered, and the environment chooses the order of delivery
    ([env_arrival], [env_recv]); in the services the goroutines are
    interleaved by step relations ([daemon_step], [sched_step],
    [batch_step], [server_step], [mem_step], [breaker_run],
    [pool_step]).  Disks have a durable and a
    volatile part, and every system call can fail; a store promises to give
    back the records that its encoding does ([rc_storable], [is_storable]:
    valid UTF-8 for JSON), and the theorems ask this of the records of the run
    only.  Years are integers; what is said of the search for a next run ends
    before [last_year], where the time package wraps.  Errors are their
    messages, without the quoted names where these play no role.

    Fuel: [dispatchReady] gets the number of steps, the scheduler's loop twice
    that plus one, [knot] the nesting depth of the workflow, the parsers and
    the extraction of shards the length of their text, Kahn's loops one round
    per stage, the polls of a remote agent the number that fits into its
    timeout, the search for the next run 402 rounds of its outermost loop,
    the exchange sort one round per result; [run_terminates],
    [run_workflow_total], [pipeline_finishes], [checkAndRunTasks_returns] and
    the lemmas next to the other definitions show that it is enough.

    ** What is proved

    - Scheduling: dependencies before dependents, no step twice, restored
      steps never, all steps on success, inputs independent of timing,
      termination (DagRun); the graph and its batches (DagCycle, DagTopo); the
      same for the stages of a pipeline (PipelineProofs).
    - Durability: log replay gives the last save, a crash between steps loses
      nothing that was appended, a file with any faults replays a prefix that
      holds all that was synced, compaction keeps the state unless its own read
      of the log breaks off; the secrets file is the old or the new one after
      any crash; a self-update leaves the old executable, its backup or the
      verified new one, and until it succeeds a power failure leaves the old.
    - Exclusion: a key runs its workflow at most once, a task ID runs or waits
      once, a date of a schedule is run once, one holder of the file lock.
    - Evidence: a changed audit log is noticed or exhibits a collision;
      webhook requests are authentic and not replayed.
    - Guards: policies decide what their reading says, outbound connections go
      to validated addresses, written paths stay in the base directory, output
      contracts are exact, session files stay in their directory, a shell
      command starts only after its audit line unless the process has no home
      directory and so no log, a connector fixes the origin,
      the methods and the credential of a request, SQLite connectors only read.
    - Bounds: sessions, limiters, breakers and the regexp pool are bounded;
      retries and their delays are exact; a truncated text is the longest
      valid part of its text within the budget.
    - Equivalence and refinement: bytecode and AST evaluation, the pointer LRU
      and a list, the secrets store and a flat map, IP tests and CIDR blocks,
      the vector index and a map, the matchers of references and of escape
      sequences and their grammars.
    - Round trips: watermarks, secrets files, evicted sessions, quotas.
    - Compound steps: saga rollback in reverse order, map and reduce against
      their specifications, failure thresholds, honest error recovery.
    - Behaviours that contradict the sources' comments are theorems too, next
      to the model they are about.

    ** What is not modelled

    Traces, telemetry, metrics, logging, terminal and web user interfaces:
    nothing else depends on them.  Other node implementations, LLM clients,
    MCP and HTTP servers other than the webhook server: calls to outside services
    with little state of their own; nodes are parameters of the engine.  The
    workflow generator: prompts and keyword heuristics.  Of the modelled
    packages: the streaming sink, files of schedules, saved run records and
    bundles, the YAML form of watermarks, the file of external agents, the
    workflow parser, embedders, the on-disk memory of
    fs_store.go and persistent_store.go, the ticker and the git merge of
    autoupgrade, and the Windows branch of execute.go. *)

From stdpp Require Export base numbers list gmap strings pretty sets sorting.
From Stdlib Require Export ZArith Lia.

#[export] Set Default Goal Selector "!".
#[export] Set Default Proof Using "Type".

Declare Scope aflare_scope.
Delimit Scope aflare_scope with aflare.
#[global] Open Scope aflare_scope.

(** Go's [error] values are represented by their message, the string that
    [Error()] returns; a Go [(T, error)] result whose value is not used when
    the error is set is [result T]. *)
Abbreviation error := string.

Inductive result (A : Type) : Type :=
  | Ok (a : A)
  | Err (e : error).
Arguments Ok {A} a.
Arguments Err {A} e.

#[export] Instance result_ret : MRet result := fun A a => Ok a.
#[export] Instance result_bind : MBind result := fun A B f r =>
  match r with Ok a => f a | Err e => Err e end.

#[export] Instance result_eq_dec `{EqDecision A} : EqDecision (result A).
Proof. solve_decision. Defined.

Lemma Ok_inj {A} (a b : A) : Ok a = Ok b -> a = b.
Proof. congruence. Qed.

Definition is_ok {A} (r : result A) : bool :=
  match r with Ok _ => true | Err _ => false end.

(** [fmt.Errorf("...: %w", err)]: prefix an error's message. *)
Definition wrap_err {A} (prefix : string) (r : result A) : result A :=
  match r with Ok a => Ok a | Err e => Err (prefix +:+ e) end.

(** Go's [int] and [time.Duration] are 64-bit two's complement. *)
Definition int64_min : Z := - 2 ^ 63.
Definition int64_max : Z := 2 ^ 63 - 1.
Definition in_int64 (z : Z) : bool := ((int64_min <=? z) && (z <=? int64_max))%Z.
Definition wrap64 (z : Z) : Z := ((z + 2 ^ 63) mod 2 ^ 64 - 2 ^ 63)%Z.

Lemma in_int64_spec z : in_int64 z = true <-> (int64_min <= z <= int64_max)%Z.
Proof. unfold in_int64. rewrite andb_true_iff, !Z.leb_le. done. Qed.

Lemma wrap64_id z : (int64_min <= z <= int64_max)%Z -> wrap64 z = z.
Proof.
  unfold wrap64, int64_min, int64_max. intros H.
  rewrite Z.mod_small; lia.
Qed.

#[global] Arguments String.append !s1 s2 / : simpl nomatch.

(** ** Lists *)

Lemma list_filter_all {A} (P : A -> Prop) `{!forall x, Decision (P x)} (l : list A) :
  Forall P l -> filter P l = l.
Proof.
  induction 1 as [|x l Hx _ IH]; [done|]. by rewrite filter_cons_True, IH.
Qed.

Lemma list_filter_none {A} (P : A -> Prop) `{!forall x, Decision (P x)} (l : list A) :
  Forall (fun x => ~ P x) l -> filter P l = [].
Proof. induction 1 as [|x l Hx _ IH]; [done|]. by rewrite filter_cons_False. Qed.

(** ** Tactics *)

(** Destruct the scrutinee of a [match] or [if] in the goal or a hypothesis
    and simplify the equations it leaves. *)
Ltac break_match :=
  match goal with
  | |- context [match ?x with _ => _ end] => destruct x eqn:?
  | H : context [match ?x with _ => _ end] |- _ => destruct x eqn:?
  end.

(** Discharge the first conjunct by computation and keep the rest. *)
Ltac split_done := split; [done|].

Ltac crush := repeat (simplify_eq/=; try break_match); try done; eauto.

Create HintDb aflare discriminated.
