(* ===== verification/GoStrings.v ===== *)
(** * The part of Go's [strings] and [strconv] the engine uses

    A Go string is a sequence of bytes, represented by [string] (a sequence of
    8-bit [ascii] characters).  [TrimSpace] is written out for every rune with
    Unicode's White_Space property, in its UTF-8 encoding. *)

From S2P Require Import Prelude.
From Stdlib Require Import Ascii.

#[local] Open Scope string_scope.

(** ** Bytes *)

Definition byte_of (n : N) : ascii := ascii_of_N n.

Definition ascii_space (c : ascii) : bool :=
  let n := N_of_ascii c in ((9 <=? n) && (n <=? 13) || (n =? 32))%N.

(** UTF-8 encodings of the non-ASCII White_Space runes: U+0085, U+00A0 (two
    bytes), U+1680, U+2000..U+200A, U+2028, U+2029, U+202F, U+205F, U+3000
    (three bytes). *)
Definition space2 (c1 c2 : ascii) : bool :=
  let n1 := N_of_ascii c1 in let n2 := N_of_ascii c2 in
  ((n1 =? 0xC2) && ((n2 =? 0x85) || (n2 =? 0xA0)))%N.

Definition space3 (c1 c2 c3 : ascii) : bool :=
  let n1 := N_of_ascii c1 in let n2 := N_of_ascii c2 in
  let n3 := N_of_ascii c3 in
  ((n1 =? 0xE1) && (n2 =? 0x9A) && (n3 =? 0x80)
   || (n1 =? 0xE2) && (n2 =? 0x80)
      && ((0x80 <=? n3) && (n3 <=? 0x8A) || (n3 =? 0xA8) || (n3 =? 0xA9)
          || (n3 =? 0xAF))
   || (n1 =? 0xE2) && (n2 =? 0x81) && (n3 =? 0x9F)
   || (n1 =? 0xE3) && (n2 =? 0x80) && (n3 =? 0x80))%N.

(** ** strings *)

Fixpoint string_rev_app (s acc : string) : string :=
  match s with
  | "" => acc
  | String c s' => string_rev_app s' (String c acc)
  end.
Definition string_rev (s : string) : string := string_rev_app s "".

(** Strip the white space a string starts with; with [rev] the string is read
    backwards, so the bytes of a rune come in the opposite order. *)
Fixpoint trim_lead (rev : bool) (s : string) : string :=
  match s with
  | "" => ""
  | String c1 s1 =>
      if ascii_space c1 then trim_lead rev s1 else
      match s1 with
      | "" => s
      | String c2 s2 =>
          if (if rev then space2 c2 c1 else space2 c1 c2)
          then trim_lead rev s2 else
          match s2 with
          | "" => s
          | String c3 s3 =>
              if (if rev then space3 c3 c2 c1 else space3 c1 c2 c3)
              then trim_lead rev s3 else s
          end
      end
  end.

Definition TrimSpace (s : string) : string :=
  string_rev (trim_lead true (string_rev (trim_lead false s))).

Definition HasPrefix (s p : string) : bool := String.prefix p s.
Definition HasSuffix (s p : string) : bool :=
  String.prefix (string_rev p) (string_rev s).

(** [s[n:]] and [s[:n]] for [0 <= n <= len(s)]. *)
Fixpoint str_drop (n : nat) (s : string) : string :=
  match n, s with
  | O, _ => s
  | _, "" => ""
  | S n', String _ s' => str_drop n' s'
  end.
Fixpoint str_take (n : nat) (s : string) : string :=
  match n, s with
  | O, _ | _, "" => ""
  | S n', String c s' => String c (str_take n' s')
  end.

Definition TrimPrefix (s p : string) : string :=
  if HasPrefix s p then str_drop (String.length p) s else s.

(** [strings.Index]: the first position at which [sub] occurs ([None] for
    Go's -1). *)
Fixpoint Index (s sub : string) : option nat :=
  if String.prefix sub s then Some 0 else
  match s with
  | "" => None
  | String _ s' => S <$> Index s' sub
  end.

Definition Contains (s sub : string) : bool :=
  match Index s sub with Some _ => true | None => false end.

(** [strings.SplitN(s, sep, 2)] for a non-empty [sep]: the text before and
    after the first occurrence, or [s] alone. *)
Definition SplitN2 (s sep : string) : string * option string :=
  match Index s sep with
  | None => (s, None)
  | Some i => (str_take i s, Some (str_drop (i + String.length sep) s))
  end.

(** [strings.Split(s, sep)] for a non-empty [sep]; every round consumes at
    least one byte, so [S (length s)] rounds are enough. *)
Fixpoint split_go (fuel : nat) (s sep : string) : list string :=
  match fuel with
  | O => [s]
  | S fuel' =>
      match SplitN2 s sep with
      | (s1, None) => [s1]
      | (s1, Some s2) => s1 :: split_go fuel' s2 sep
      end
  end.
Definition Split (s sep : string) : list string :=
  split_go (S (String.length s)) s sep.

(** [strings.Join]. *)
Fixpoint Join (parts : list string) (sep : string) : string :=
  match parts with
  | [] => ""
  | [p] => p
  | p :: ps => p +:+ sep +:+ Join ps sep
  end.

Definition newline : string := String (ascii_of_nat 10) "".

(** The separator ["\n---\n"] between the outputs of several steps. *)
Definition part_sep : string := newline +:+ "---" +:+ newline.

(** ** strconv *)

Definition Itoa (z : Z) : string := pretty z.

Definition digit_val (c : ascii) : option N :=
  let n := N_of_ascii c in
  if ((48 <=? n) && (n <=? 57))%N then Some (n - 48)%N else None.

Fixpoint parse_digits (acc : N) (s : string) : option N :=
  match s with
  | "" => Some acc
  | String c s' =>
      match digit_val c with
      | Some d => parse_digits (acc * 10 + d) s'
      | None => None
      end
  end.

(** [strconv.Atoi]: an optional sign and at least one decimal digit, in the
    range of a 64-bit [int]; [None] is a non-nil error. *)
Definition Atoi (s : string) : option Z :=
  match s with
  | "" => None
  | String c r =>
      if decide (c = "-"%char) then
        if decide (r = "") then None else
        n ← parse_digits 0 r;
        if in_int64 (- Z.of_N n) then Some (- Z.of_N n)%Z else None
      else if decide (c = "+"%char) then
        if decide (r = "") then None else
        n ← parse_digits 0 r;
        if in_int64 (Z.of_N n) then Some (Z.of_N n) else None
      else
        n ← parse_digits 0 s;
        if in_int64 (Z.of_N n) then Some (Z.of_N n) else None
  end.

(** ** Lemmas *)

Lemma string_app_nil_r (s : string) : s +:+ "" = s.
Proof. induction s as [|c s IH]; simpl; [done | by rewrite IH]. Qed.

Lemma string_app_assoc (s1 s2 s3 : string) :
  (s1 +:+ s2) +:+ s3 = s1 +:+ (s2 +:+ s3).
Proof. induction s1 as [|c s1 IH]; simpl; [done | by rewrite IH]. Qed.

Lemma string_length_app (s1 s2 : string) :
  String.length (s1 +:+ s2) = String.length s1 + String.length s2.
Proof. induction s1 as [|c s1 IH]; simpl; [done | by rewrite IH]. Qed.

Lemma string_app_inj_l (s t1 t2 : string) : s +:+ t1 = s +:+ t2 -> t1 = t2.
Proof. induction s as [|c s IH]; simpl; [done|]. intros [=]. auto. Qed.

Lemma string_app_same_length (a b c d : string) : String.length a = String.length c ->
  a +:+ b = c +:+ d -> a = c /\ b = d.
Proof.
  revert c. induction a as [|x a IH]; intros [|y c]; cbn; intros Hl; try discriminate; [done|].
  injection Hl as Hl. intros [= -> H]. by destruct (IH c Hl H) as [-> ->].
Qed.

Lemma string_app_inj_r (t s1 s2 : string) : s1 +:+ t = s2 +:+ t -> s1 = s2.
Proof.
  intros H. apply string_app_same_length in H; [tauto|].
  apply (f_equal String.length) in H. rewrite !string_length_app in H. lia.
Qed.

Lemma str_take_drop n s : str_take n s +:+ str_drop n s = s.
Proof.
  revert n. induction s as [|c s IH]; intros [|n]; simpl; try done.
  by rewrite IH.
Qed.

Lemma str_drop_app s1 s2 : str_drop (String.length s1) (s1 +:+ s2) = s2.
Proof. induction s1 as [|c s1 IH]; simpl; [by destruct s2 | done]. Qed.

Lemma str_take_app s1 s2 : str_take (String.length s1) (s1 +:+ s2) = s1.
Proof. induction s1 as [|c s1 IH]; simpl; [by destruct s2 | by rewrite IH]. Qed.

Lemma length_str_drop n s :
  String.length (str_drop n s) = String.length s - n.
Proof. revert n. induction s as [|c s IH]; intros [|n]; simpl; auto. Qed.

Lemma prefix_app p s : String.prefix p s = true <-> exists t, s = p +:+ t.
Proof.
  revert s. induction p as [|c p IH]; intros s.
  - split; [by exists s | by destruct s].
  - destruct s as [|c' s]; simpl.
    + split; [done | by intros [t ?]].
    + destruct (ascii_dec c c') as [->|Hne].
      * rewrite IH. split; intros [t Ht]; exists t; [by subst | by injection Ht].
      * split; [done | by intros [t [=]]].
Qed.

Lemma Index_Some s sub i :
  Index s sub = Some i ->
  exists t, str_drop i s = sub +:+ t /\ i <= String.length s.
Proof.
  revert i. induction s as [|c s IH]; intros i; cbn [Index].
  - destruct (String.prefix sub "") eqn:E; [|done]. intros [= <-].
    apply prefix_app in E as [t Ht]. exists t. split; [done|lia].
  - destruct (String.prefix sub (String c s)) eqn:E.
    + intros [= <-]. apply prefix_app in E as [t Ht]. exists t. simpl.
      split; [done|lia].
    + destruct (Index s sub) as [j|] eqn:Ej; simpl; [|done]. intros [= <-].
      destruct (IH j eq_refl) as (t & Ht & Hj). exists t. simpl.
      split; [done|lia].
Qed.

Lemma Index_Some_eq s sub i :
  Index s sub = Some i ->
  s = str_take i s +:+ sub +:+ str_drop (i + String.length sub) s.
Proof.
  intros H. destruct (Index_Some _ _ _ H) as (t & Ht & _).
  rewrite <- (str_take_drop i s) at 1. f_equal. rewrite Ht. f_equal.
  clear H. revert s Ht. induction i as [|i IH]; intros s Ht; simpl in *.
  - subst s. by rewrite str_drop_app.
  - destruct s as [|c s]; [|by apply IH].
    destruct sub as [|c sub]; [|done]. by destruct t.
Qed.

Lemma Index_unfold s sub :
  Index s sub =
  if String.prefix sub s then Some 0
  else match s with "" => None | String _ s' => S <$> Index s' sub end.
Proof. by destruct s. Qed.

Lemma Contains_app pre sub post : Contains (pre +:+ sub +:+ post) sub = true.
Proof.
  unfold Contains. induction pre as [|c pre IH].
  - rewrite Index_unfold. simpl.
    assert (String.prefix sub (sub +:+ post) = true) as -> by (apply prefix_app; eauto).
    done.
  - rewrite Index_unfold. destruct (String.prefix sub _); [done|]. simpl.
    by destruct (Index (pre +:+ _) sub).
Qed.

(** *** [Itoa] and [Atoi] *)

Lemma digit_val_pretty (n : N) :
  (n < 10)%N -> digit_val (pretty_N_char n) = Some n.
Proof.
  intros H. unfold digit_val.
  rewrite <- (N2Nat.id n). assert (N.to_nat n < 10)%nat as Hn by lia.
  revert Hn. generalize (N.to_nat n) as k. clear.
  do 10 (intros [|k]; [reflexivity|revert k]). lia.
Qed.

Lemma parse_digits_pretty_go x s :
  parse_digits 0 (pretty_N_go x s) = parse_digits x s.
Proof.
  revert s. induction (N.lt_wf_0 x) as [x _ IH]; intros s.
  destruct (decide (x = 0)%N) as [->|Hx]; [by rewrite pretty_N_go_0|].
  rewrite pretty_N_go_step by lia.
  rewrite IH by (apply N.div_lt; lia). cbn [parse_digits].
  rewrite digit_val_pretty by (apply N.mod_lt; lia).
  f_equal. rewrite (N.mul_comm _ 10). symmetry. apply N.div_mod. lia.
Qed.

Lemma parse_digits_pretty (x : N) : parse_digits 0 (pretty x) = Some x.
Proof.
  unfold pretty, pretty_N. case_decide as E; [by subst|].
  by rewrite parse_digits_pretty_go.
Qed.

Lemma pretty_N_not_empty (x : N) : pretty x <> "".
Proof.
  intros H. pose proof (parse_digits_pretty x) as P. rewrite H in P.
  simpl in P. assert (x = 0%N) as -> by congruence. done.
Qed.

(** A decimal numeral starts with a digit, so neither sign branch applies. *)
Lemma pretty_N_head (x : N) :
  exists c r d, pretty x = String c r /\ digit_val c = Some d.
Proof.
  destruct (pretty x) as [|c r] eqn:E; [by apply pretty_N_not_empty in E|].
  pose proof (parse_digits_pretty x) as P. rewrite E in P. simpl in P.
  destruct (digit_val c) as [d|] eqn:Ed; [by eauto|done].
Qed.

Lemma Atoi_pretty_N (n : N) :
  in_int64 (Z.of_N n) = true -> Atoi (pretty n) = Some (Z.of_N n).
Proof.
  intros Hn. pose proof (parse_digits_pretty n) as P.
  destruct (pretty_N_head n) as (c & r & d & E & Hd).
  rewrite E in P |- *. unfold Atoi.
  destruct (decide (c = "-"%char)) as [->|_]; [done|].
  destruct (decide (c = "+"%char)) as [->|_]; [done|].
  rewrite P. simpl. by rewrite Hn.
Qed.

Lemma Atoi_Itoa z : in_int64 z = true -> Atoi (Itoa z) = Some z.
Proof.
  intros Hz. destruct z as [|p|p]; [done|by apply (Atoi_pretty_N (N.pos p))|].
  change (Itoa (Z.neg p)) with (String "-"%char (pretty (N.pos p))).
  unfold Atoi. destruct (decide ("-"%char = "-"%char)) as [_|]; [|done].
  destruct (decide _) as [E|_]; [by apply pretty_N_not_empty in E|].
  rewrite parse_digits_pretty. cbn [mbind option_bind]. change (- Z.of_N (N.pos p))%Z with (Z.neg p).
  by rewrite Hz.
Qed.

Lemma Itoa_inj z1 z2 : Itoa z1 = Itoa z2 -> z1 = z2.
Proof. apply pretty_Z_inj. Qed.

Lemma HasPrefix_cons c p d s :
  HasPrefix (String d s) (String c p) = bool_decide (c = d) && HasPrefix s p.
Proof.
  unfold HasPrefix. cbn [String.prefix]. destruct (ascii_dec c d) as [->|Hne].
  - by rewrite (bool_decide_eq_true_2 (d = d)).
  - by rewrite (bool_decide_eq_false_2 (c = d)).
Qed.

Lemma HasPrefix_app p s : HasPrefix (p +:+ s) p = true.
Proof. apply prefix_app. by exists s. Qed.

Lemma string_rev_app_spec s : forall acc, string_rev_app s acc = string_rev s +:+ acc.
Proof.
  unfold string_rev. induction s as [|c s IH]; intros acc; [done|]. cbn [string_rev_app].
  rewrite IH, (IH (String c "")), string_app_assoc. done.
Qed.

Lemma string_rev_app_distr s t : string_rev (s +:+ t) = string_rev t +:+ string_rev s.
Proof.
  induction s as [|c s IH]; cbn [String.append]; [by rewrite string_app_nil_r|].
  unfold string_rev at 1 3. cbn [string_rev_app]. rewrite !string_rev_app_spec, IH.
  by rewrite string_app_assoc.
Qed.

Lemma string_rev_involutive s : string_rev (string_rev s) = s.
Proof.
  induction s as [|c s IH]; [done|]. unfold string_rev at 2. cbn [string_rev_app].
  rewrite string_rev_app_spec, string_rev_app_distr, IH. done.
Qed.

Lemma TrimPrefix_app p s : TrimPrefix (p +:+ s) p = s.
Proof. unfold TrimPrefix. rewrite HasPrefix_app. apply str_drop_app. Qed.

Lemma Atoi_in_int64 s z : Atoi s = Some z -> in_int64 z = true.
Proof.
  destruct s as [|c r]; [done|]. unfold Atoi.
  assert (forall (o : option N) (f : N -> Z), (n ← o; if in_int64 (f n) then Some (f n) else None) = Some z ->
    in_int64 z = true) as H.
  { intros [n|] f; [|done]. cbn. destruct (in_int64 (f n)) eqn:E; [|done]. by intros [= <-]. }
  repeat case_decide; try done; apply H.
Qed.
