(* ===== verification/GoTime.v ===== *)
(** * Durations: the part of Go's [time] package the engine uses

    A [time.Duration] is a 64-bit count of nanoseconds, here a [Z].
    [ParseDuration] follows the standard library's definition, the float64
    arithmetic of the fractional part included (IEEE 754 binary64 as
    [SpecFloat] defines it: 53 bits of precision, [emax] 1024). *)

From S2P Require Import Prelude GoStrings.
From Stdlib Require Import Ascii SpecFloat.

#[local] Open Scope Z_scope.

(** ** float64 *)

Abbreviation float64 := spec_float.
Definition f64_of_Z (z : Z) : float64 := binary_normalize 53 1024 z 0 false.
Definition f64_mul : float64 -> float64 -> float64 := SFmul 53 1024.
Definition f64_div : float64 -> float64 -> float64 := SFdiv 53 1024.
Definition f64_add : float64 -> float64 -> float64 := SFadd 53 1024.

(** Conversion of a float in range to an integer: truncation toward zero. *)
Definition f64_trunc (f : float64) : Z :=
  match f with
  | S754_finite sgn m e =>
      let a := if 0 <=? e then Z.pos m * 2 ^ e else Z.pos m / 2 ^ (- e) in
      if sgn then - a else a
  | _ => 0
  end.

(** ** Units *)

Definition Nanosecond : Z := 1.
Definition Microsecond : Z := 1000 * Nanosecond.
Definition Millisecond : Z := 1000 * Microsecond.
Definition Second : Z := 1000 * Millisecond.
Definition Minute : Z := 60 * Second.
Definition Hour : Z := 60 * Minute.

(** The unit names; the two three-byte spellings are U+00B5 and U+03BC
    followed by "s". *)
Definition unit_of (u : string) : option Z :=
  if decide (u = "ns"%string) then Some Nanosecond
  else if decide (u = "us"%string) then Some Microsecond
  else if decide (u = String (byte_of 0xC2) (String (byte_of 0xB5) "s"))
       then Some Microsecond
  else if decide (u = String (byte_of 0xCE) (String (byte_of 0xBC) "s"))
       then Some Microsecond
  else if decide (u = "ms"%string) then Some Millisecond
  else if decide (u = "s"%string) then Some Second
  else if decide (u = "m"%string) then Some Minute
  else if decide (u = "h"%string) then Some Hour
  else None.

(** ** ParseDuration *)

(** [leadingInt]: the digits a string starts with, [None] on overflow. *)
Fixpoint leadingInt (x : Z) (s : string) : option (Z * string) :=
  match s with
  | EmptyString => Some (x, s)
  | String c s' =>
      match digit_val c with
      | None => Some (x, s)
      | Some d =>
          if 2 ^ 63 / 10 <? x then None else
          let x' := x * 10 + Z.of_N d in
          if 2 ^ 63 <? x' then None else leadingInt x' s'
      end
  end.

(** [leadingFraction]: once the digits overflow, the rest are skipped. *)
Fixpoint leadingFraction (x : Z) (scale : float64) (overflow : bool)
    (s : string) : Z * float64 * string :=
  match s with
  | EmptyString => (x, scale, s)
  | String c s' =>
      match digit_val c with
      | None => (x, scale, s)
      | Some d =>
          if overflow then leadingFraction x scale true s' else
          if (2 ^ 63 - 1) / 10 <? x then leadingFraction x scale true s' else
          let y := x * 10 + Z.of_N d in
          if 2 ^ 63 <? y then leadingFraction x scale true s'
          else leadingFraction y (f64_mul scale (f64_of_Z 10)) false s'
      end
  end.

Definition dot_or_digit (c : ascii) : bool :=
  bool_decide (c = "."%char) ||
  match digit_val c with Some _ => true | None => false end.

(** The unit: everything up to the next dot or digit. *)
Fixpoint span_unit (s : string) : string * string :=
  match s with
  | EmptyString => (EmptyString, EmptyString)
  | String c s' =>
      if dot_or_digit c then (EmptyString, s)
      else let '(u, r) := span_unit s' in (String c u, r)
  end.

(** One "<number><unit>" group: its value in nanoseconds and the rest. *)
Definition parse_group (s : string) : option (Z * string) :=
  match s with
  | EmptyString => None
  | String c0 _ =>
      if negb (dot_or_digit c0) then None else
      '(v, s1) ← leadingInt 0 s;
      let pre := bool_decide (String.length s1 <> String.length s) in
      let '(f, scale, s2, post) :=
        match s1 with
        | String c1 s1' =>
            if decide (c1 = "."%char) then
              let '(f, scale, s2) := leadingFraction 0 (f64_of_Z 1) false s1' in
              (f, scale, s2, bool_decide (String.length s2 <> String.length s1'))
            else (0, f64_of_Z 1, s1, false)
        | EmptyString => (0, f64_of_Z 1, s1, false)
        end in
      if negb pre && negb post then None else
      let '(u, s3) := span_unit s2 in
      if decide (u = EmptyString) then None else
      unit ← unit_of u;
      if 2 ^ 63 / unit <? v then None else
      let v1 := v * unit in
      if 0 <? f then
        let v2 := v1 + f64_trunc (f64_mul (f64_of_Z f)
                                     (f64_div (f64_of_Z unit) scale)) in
        if 2 ^ 63 <? v2 then None else Some (v2, s3)
      else Some (v1, s3)
  end.

(** The groups of a duration, summed in a 64-bit unsigned integer; each consumes at least one byte, so
    [S (length s)] rounds are enough. *)
Fixpoint parse_groups (fuel : nat) (d : Z) (s : string) : option Z :=
  match s with
  | EmptyString => Some d
  | _ =>
      match fuel with
      | O => None
      | S fuel' =>
          '(v, s') ← parse_group s;
          let d' := (d + v) mod 2 ^ 64 in
          if 2 ^ 63 <? d' then None else parse_groups fuel' d' s'
      end
  end.

Definition ParseDuration (s0 : string) : option Z :=
  let '(neg, s) :=
    match s0 with
    | String c s' =>
        if decide (c = "-"%char) then (true, s')
        else if decide (c = "+"%char) then (false, s') else (false, s0)
    | EmptyString => (false, s0)
    end in
  if decide (s = "0"%string) then Some 0 else
  if decide (s = EmptyString) then None else
  d ← parse_groups (S (String.length s)) 0 s;
  if neg : bool then Some (- d)
  else if 2 ^ 63 - 1 <? d then None else Some d.

(** ** Lemmas *)

Example ParseDuration_1h30m : ParseDuration "1h30m" = Some (90 * Minute).
Proof. reflexivity. Qed.
Example ParseDuration_frac : ParseDuration "-1.5s" = Some (-1500000000).
Proof. vm_compute. reflexivity. Qed.
Example ParseDuration_bad : ParseDuration "10" = None.
Proof. reflexivity. Qed.

Lemma unit_of_pos u z : unit_of u = Some z -> 0 < z.
Proof.
  unfold unit_of. repeat case_decide; intros [= <-]; reflexivity.
Qed.

Lemma leadingInt_nonneg s : forall x v r,
  0 <= x -> leadingInt x s = Some (v, r) -> 0 <= v.
Proof.
  induction s as [|c s IH]; intros x v r Hx; cbn [leadingInt]; intros H.
  - simplify_eq. done.
  - destruct (digit_val c) as [d|]; [|by simplify_eq].
    destruct (_ <? x); [done|]. destruct (_ <? _); [done|].
    eapply IH; [|exact H]. lia.
Qed.

(** Whatever a duration's text, the value read fits a 64-bit integer. *)
Lemma parse_groups_le fuel : forall d s v,
  d <= 2 ^ 63 -> parse_groups fuel d s = Some v -> v <= 2 ^ 63.
Proof.
  induction fuel as [|fuel IH]; intros d s v Hd H;
    destruct s as [|c s]; cbn [parse_groups] in H; simplify_eq; try done.
  destruct (parse_group (String c s)) as [[v' s']|]; cbn [mbind option_bind] in H; [|done].
  destruct (2 ^ 63 <? (d + v') mod 2 ^ 64) eqn:E; [done|].
  eapply IH; [|exact H]. apply Z.ltb_ge in E. done.
Qed.

(** ** Instants

    An instant is its distance from the epoch in nanoseconds. *)

(** [Time.Sub], which saturates. *)
Definition Sub (t u : Z) : Z := Z.max int64_min (Z.min int64_max (t - u)).
(** [Time.Unix]. *)
Definition Unix (t : Z) : Z := t / Second.

(** The instants that nanoseconds since the epoch can count, up to 2262. *)
Definition on_clock (t : Z) : Prop := 0 <= t <= int64_max.
Lemma Sub_exact t u : on_clock t -> on_clock u -> Sub t u = t - u.
Proof. unfold on_clock, Sub, int64_max, int64_min. lia. Qed.
