(* ===== verification/WorkflowTypes.v ===== *)
(** * The workflow data model (src/internal/workflow/types.go)

    The structs of types.go as records, one field per Go field that the
    executors read (the fields of [WorkflowStep] keep the source's names with
    the prefix [ws_]; a nil pointer is [None], a nil or empty Go map is the
    empty [gmap]), and the getters that turn declared values into effective
    ones. *)

From S2P Require Import Prelude GoStrings GoTime.
From Stdlib Require Import Ascii SpecFloat.

#[local] Open Scope Z_scope.

(** ** Limits (executor.go) *)

Definition MaxSteps : Z := 1000.
Definition MaxParallel : Z := 50.
Definition MaxRetry : Z := 10.
Definition MaxStepTimeout : Z := 30 * Minute.
Definition MaxRetryDelay : Z := 5 * Minute.
Definition MaxIfDepth : Z := 20.

(** ** Configuration records *)

Record ScheduleConfig := mkScheduleConfig {
  sched_Cron : string;
  sched_Enabled : bool
}.

Record InputField := mkInputField {
  if_Name : string;
  if_Type : string;
  if_Required : bool;
  if_Default : string
}.

Record BackoffConfig := mkBackoffConfig {
  bo_Exponential : bool;
  bo_Base : string;
  bo_MaxDelay : string;
  bo_Jitter : bool
}.

Record LoopConfig := mkLoopConfig {
  loop_Items : string;
  loop_SplitBy : string;
  loop_Var : string;
  loop_Concurrency : Z;
  loop_StopOnError : option bool;
  loop_MaxIterations : Z
}.

Record Step := mkStep {
  st_Node : string;
  st_Params : gmap string string;
  st_Condition : string;
  st_Retry : Z;
  st_Delay : string
}.

Record StepInput := mkStepInput { si_parts : list string }.

(** The records that hold sub-workflows take the type of steps as a
    parameter; [WorkflowStep] below ties the knot. *)
Record IfConfig (step : Type) := mkIfConfig {
  if_Condition : string;
  if_Then : list step;
  if_Else : list step
}.
Arguments mkIfConfig {step}.
Arguments if_Condition {step}.
Arguments if_Then {step}.
Arguments if_Else {step}.

Record MapConfig (step : Type) := mkMapConfig {
  map_Over : string;
  map_Steps : list step;
  map_SplitBy : string;
  map_Concurrency : Z;
  map_StopOnError : option bool;
  map_MaxIterations : Z;
  map_Backpressure : string;
  map_QueueSize : Z
}.
Arguments mkMapConfig {step}.
Arguments map_Over {step}.
Arguments map_Steps {step}.
Arguments map_SplitBy {step}.
Arguments map_Concurrency {step}.
Arguments map_StopOnError {step}.
Arguments map_MaxIterations {step}.
Arguments map_Backpressure {step}.
Arguments map_QueueSize {step}.

Record ReduceConfig (step : Type) := mkReduceConfig {
  red_Over : string;
  red_Initial : string;
  red_Steps : list step;
  red_SplitBy : string;
  red_MaxIterations : Z
}.
Arguments mkReduceConfig {step}.
Arguments red_Over {step}.
Arguments red_Initial {step}.
Arguments red_Steps {step}.
Arguments red_SplitBy {step}.
Arguments red_MaxIterations {step}.

Record SagaStep (step : Type) := mkSagaStep {
  sg_Forward : step;
  sg_Compensate : option step
}.
Arguments mkSagaStep {step}.
Arguments sg_Forward {step}.
Arguments sg_Compensate {step}.

Record SagaConfig (step : Type) := mkSagaConfig {
  sg_Steps : list (SagaStep step)
}.
Arguments mkSagaConfig {step}.
Arguments sg_Steps {step}.

Unset Elimination Schemes.
Inductive WorkflowStep := mkWorkflowStep {
  ws_Node : string;
  ws_Name : string;
  ws_ID : string;
  ws_Params : gmap string string;
  ws_Condition : string;
  ws_Retry : Z;
  ws_Delay : string;
  ws_Backoff : option BackoffConfig;
  ws_Parallel : list Step;
  ws_ContinueOnError : bool;
  ws_Fallback : string;
  ws_OnError : option Step;
  ws_Loop : option LoopConfig;
  ws_MaxFailures : Z;
  ws_If : option (IfConfig WorkflowStep);
  ws_Map : option (MapConfig WorkflowStep);
  ws_Input : option StepInput;
  ws_Reduce : option (ReduceConfig WorkflowStep);
  ws_Saga : option (SagaConfig WorkflowStep);
  ws_CaptureError : list WorkflowStep;
  ws_OutputStrategy : string;
  ws_DependsOn : list string;
  ws_Resumable : bool;
  ws_Timeout : string;
  ws_ResumeOn : string;
  ws_WebhookToken : string;
  ws_OutputSchema : string;
  ws_PreviewInput : bool
}.
Set Elimination Schemes.

Record Workflow := mkWorkflow {
  wf_Name : string;
  wf_Description : string;
  wf_Vars : gmap string string;
  wf_Steps : list WorkflowStep;
  wf_Output : string;
  wf_InputSchema : list InputField;
  wf_MaxConcurrency : Z;
  wf_Schedule : option ScheduleConfig
}.

(** A step that runs one node; every other field has Go's zero value. *)
Definition node_step (node name : string) : WorkflowStep :=
  mkWorkflowStep node name "" ∅ "" 0 "" None [] false "" None None 0 None None
    None None None [] "" [] false "" "" "" "" false.

(** ** Kind predicates *)

Definition IsParallel (s : WorkflowStep) : bool :=
  match ws_Parallel s with [] => false | _ => true end.
Definition IsLoop (s : WorkflowStep) : bool := bool_decide (is_Some (ws_Loop s)).
Definition IsIf (s : WorkflowStep) : bool := bool_decide (is_Some (ws_If s)).
Definition IsMap (s : WorkflowStep) : bool := bool_decide (is_Some (ws_Map s)).
Definition IsReduce (s : WorkflowStep) : bool :=
  bool_decide (is_Some (ws_Reduce s)).
Definition IsSaga (s : WorkflowStep) : bool := bool_decide (is_Some (ws_Saga s)).
Definition HasCaptureError (s : WorkflowStep) : bool :=
  match ws_CaptureError s with [] => false | _ => true end.
Definition IsResumable (s : WorkflowStep) : bool := ws_Resumable s.

(** [StepInput.Parts]: nil when the step declares no override. *)
Definition Parts (si : option StepInput) : list string :=
  match si with None => [] | Some i => si_parts i end.

(** ** [UnmarshalYAML] of a step input

    A yaml.v3 node as the method inspects it: its kind, its scalar value and
    its children; [line] is the source line, used in the error text. *)
Inductive yaml_kind := ScalarNode | SequenceNode | OtherNode.

Inductive yaml_node := mkYaml {
  yn_Kind : yaml_kind;
  yn_Value : string;
  yn_Content : list yaml_node;
  yn_Line : Z
}.

Fixpoint scalar_items (items : list yaml_node) : result (list string) :=
  match items with
  | [] => Ok []
  | item :: rest =>
      match yn_Kind item with
      | ScalarNode =>
          match scalar_items rest with
          | Ok vs => Ok (yn_Value item :: vs)
          | Err e => Err e
          end
      | _ => Err ("input list items must be strings (line "
                    +:+ Itoa (yn_Line item) +:+ ")")
      end
  end.

Definition UnmarshalYAML (node : yaml_node) : result StepInput :=
  match yn_Kind node with
  | ScalarNode => Ok (mkStepInput [yn_Value node])
  | SequenceNode =>
      match scalar_items (yn_Content node) with
      | Ok parts => Ok (mkStepInput parts)
      | Err e => Err e
      end
  | OtherNode => Err ("input must be a string or a list of strings (line "
                        +:+ Itoa (yn_Line node) +:+ ")")
  end.

(** ** [normalizeStepIDs]: promote the [id:] alias to [name:], recursively *)

Fixpoint normalizeStepID (s : WorkflowStep) : WorkflowStep :=
  let nm := if decide (ws_Name s = ""%string /\ ws_ID s <> ""%string)
            then ws_ID s else ws_Name s in
  match s with
  | mkWorkflowStep node _ id params cond retry delay backoff par coe fb oe loop
      mf ifc mapc input red saga cap os deps res tmo ro tok osch prev =>
      mkWorkflowStep node nm id params cond retry delay backoff par coe fb oe
        loop mf
        match ifc with
        | Some c => Some (mkIfConfig (if_Condition c)
                            (map normalizeStepID (if_Then c))
                            (map normalizeStepID (if_Else c)))
        | None => None
        end
        match mapc with
        | Some c => Some (mkMapConfig (map_Over c)
                            (map normalizeStepID (map_Steps c)) (map_SplitBy c)
                            (map_Concurrency c) (map_StopOnError c)
                            (map_MaxIterations c) (map_Backpressure c)
                            (map_QueueSize c))
        | None => None
        end
        input
        match red with
        | Some c => Some (mkReduceConfig (red_Over c) (red_Initial c)
                            (map normalizeStepID (red_Steps c)) (red_SplitBy c)
                            (red_MaxIterations c))
        | None => None
        end
        match saga with
        | Some c =>
            Some (mkSagaConfig
                    (map (fun sg => mkSagaStep (normalizeStepID (sg_Forward sg))
                            match sg_Compensate sg with
                            | Some cs => Some (normalizeStepID cs)
                            | None => None
                            end)
                       (sg_Steps c)))
        | None => None
        end
        (map normalizeStepID cap) os deps res tmo ro tok osch prev
  end.

Definition normalizeStepIDs (steps : list WorkflowStep) : list WorkflowStep :=
  map normalizeStepID steps.

(** ** Nesting depth

    The executors recurse through the sub-workflows of a step; the depth of
    the nesting bounds that recursion. *)
Definition step_children (s : WorkflowStep) : list WorkflowStep :=
  (match ws_If s with Some c => if_Then c ++ if_Else c | None => [] end) ++
  (match ws_Map s with Some c => map_Steps c | None => [] end) ++
  (match ws_Reduce s with Some c => red_Steps c | None => [] end) ++
  (match ws_Saga s with
   | Some c => flat_map (fun sg => sg_Forward sg ::
                 match sg_Compensate sg with Some cs => [cs] | None => [] end)
                 (sg_Steps c)
   | None => []
   end) ++
  ws_CaptureError s.

Fixpoint step_depth (s : WorkflowStep) : nat :=
  let list_depth := foldr (fun a n => Nat.max (step_depth a) n) 0%nat in
  match s with
  | mkWorkflowStep _ _ _ _ _ _ _ _ _ _ _ _ _ _ ifc mapc _ red saga cap _ _ _ _
      _ _ _ _ =>
      let d_if := match ifc with
        | Some c => Nat.max (list_depth (if_Then c)) (list_depth (if_Else c))
        | None => 0%nat
        end in
      let d_map := match mapc with
        | Some c => list_depth (map_Steps c) | None => 0%nat end in
      let d_red := match red with
        | Some c => list_depth (red_Steps c) | None => 0%nat end in
      let d_saga := match saga with
        | Some c =>
            foldr (fun sg n =>
                     Nat.max (step_depth (sg_Forward sg))
                       (Nat.max match sg_Compensate sg with
                                | Some cs => step_depth cs
                                | None => 0%nat
                                end n))
              0%nat (sg_Steps c)
        | None => 0%nat
        end in
      S (Nat.max d_if (Nat.max d_map (Nat.max d_red
          (Nat.max d_saga (list_depth cap)))))
  end.

Definition steps_depth (l : list WorkflowStep) : nat :=
  foldr (fun a n => Nat.max (step_depth a) n) 0%nat l.

(** ** Getters *)

Definition default_newline (sep : string) : string :=
  if decide (sep = ""%string) then newline else sep.

Definition clamp_concurrency (c : Z) : Z :=
  if c <=? 0 then 1 else if MaxParallel <? c then MaxParallel else c.

Definition clamp_iterations (m : Z) : Z :=
  if m <=? 0 then 100 else if 10000 <? m then 10000 else m.

Module LoopConfigGet.
Definition GetSplitBy (l : LoopConfig) : string := default_newline (loop_SplitBy l).
Definition GetVar (l : LoopConfig) : string :=
  if decide (loop_Var l = ""%string) then "item"%string else loop_Var l.
Definition GetConcurrency (l : LoopConfig) : Z :=
  clamp_concurrency (loop_Concurrency l).
Definition GetStopOnError (l : LoopConfig) : bool :=
  match loop_StopOnError l with None => true | Some b => b end.
Definition GetMaxIterations (l : LoopConfig) : Z :=
  clamp_iterations (loop_MaxIterations l).
End LoopConfigGet.

Module MapConfigGet.
Section get.
Context {step : Type}.
Implicit Types m : MapConfig step.
Definition GetSplitBy m : string := default_newline (map_SplitBy m).
Definition GetConcurrency m : Z := clamp_concurrency (map_Concurrency m).
Definition GetStopOnError m : bool :=
  match map_StopOnError m with None => true | Some b => b end.
Definition GetMaxIterations m : Z := clamp_iterations (map_MaxIterations m).
Definition GetBackpressure m : string :=
  if decide (map_Backpressure m = "drop"%string) then "drop" else "block".
Definition GetQueueSize m : Z :=
  let concurrency := GetConcurrency m in
  if concurrency <=? 1 then 1 else
  if map_QueueSize m <=? 0 then
    let n := concurrency * 2 in if 1000 <? n then 1000 else n
  else if 1000 <? map_QueueSize m then 1000 else map_QueueSize m.
End get.
End MapConfigGet.

Module ReduceConfigGet.
Section get.
Context {step : Type}.
Implicit Types r : ReduceConfig step.
Definition GetSplitBy r : string := default_newline (red_SplitBy r).
Definition GetMaxIterations r : Z := clamp_iterations (red_MaxIterations r).
End get.
End ReduceConfigGet.

(** [params._timeout] as a positive duration, 0 when absent or malformed. *)
Definition params_timeout (params : gmap string string) : Z :=
  match params !! "_timeout"%string with
  | Some t =>
      match ParseDuration t with
      | Some d => if 0 <? d then d else 0
      | None => 0
      end
  | None => 0
  end.

Definition declared_retry (r : Z) : Z := if r <? 0 then 0 else r.

Definition declared_delay (d : string) : Z :=
  if decide (d = ""%string) then 1 * Second else
  match ParseDuration d with Some v => v | None => 1 * Second end.

Module StepGet.
Definition GetTimeout (s : Step) : Z := params_timeout (st_Params s).
Definition GetRetryCount (s : Step) : Z := declared_retry (st_Retry s).
Definition GetRetryDelay (s : Step) : Z := declared_delay (st_Delay s).
End StepGet.

Definition GetTimeout (s : WorkflowStep) : Z := params_timeout (ws_Params s).
Definition GetRetryCount (s : WorkflowStep) : Z := declared_retry (ws_Retry s).
Definition GetRetryDelay (s : WorkflowStep) : Z := declared_delay (ws_Delay s).

Definition GetResumeTimeout (s : WorkflowStep) : Z :=
  if decide (ws_Timeout s = ""%string) then 0 else
  match ParseDuration (ws_Timeout s) with
  | Some d => if 0 <? d then d else 0
  | None => 0
  end.

(** A duration setting, when it parses and is positive, capped at
    [MaxRetryDelay]; the default otherwise. *)
Definition capped_setting (setting : string) (default : Z) : Z :=
  if decide (setting = ""%string) then default else
  match ParseDuration setting with
  | Some d =>
      if 0 <? d then (if MaxRetryDelay <? d then MaxRetryDelay else d)
      else default
  | None => default
  end.

(** The doubling loop [for i := 1; i < attempt; i++]; [n] is the number of
    rounds left and [delay] a 64-bit duration. *)
Fixpoint backoff_loop (n : nat) (maxDelay delay : Z) : Z :=
  match n with
  | O => delay
  | S n' =>
      if maxDelay / 2 <? delay then maxDelay else
      let delay' := wrap64 (delay * 2) in
      if maxDelay <? delay' then maxDelay
      else backoff_loop n' maxDelay delay'
  end.

(** [0.75 + 0.25*r] times the delay, as a float64 product truncated. *)
Definition jittered (delay : Z) (r : float64) : Z :=
  let f075 := binary_normalize 53 1024 3 (-2) false in
  let f025 := binary_normalize 53 1024 1 (-2) false in
  f64_trunc (f64_mul (f64_of_Z delay) (f64_add f075 (f64_mul f025 r))).

(** [GetBackoffDelay]; [rand] is the value [pseudoRand()] draws. *)
Definition GetBackoffDelay (s : WorkflowStep) (attempt : Z) (rand : float64) : Z :=
  let baseDelay := GetRetryDelay s in
  match ws_Backoff s with
  | None => baseDelay
  | Some b =>
      if negb (bo_Exponential b) || (attempt <=? 1) then baseDelay else
      let baseDelay := capped_setting (bo_Base b) baseDelay in
      let maxDelay := capped_setting (bo_MaxDelay b) MaxRetryDelay in
      let delay := backoff_loop (Z.to_nat (attempt - 1)) maxDelay baseDelay in
      if bo_Jitter b && (0 <? delay) then jittered delay rand else delay
  end.

(** ** Lemmas: nesting *)

Lemma foldr_max_le {A} (d : A -> nat) l a :
  In a l -> (d a <= foldr (fun a n => Nat.max (d a) n) 0%nat l)%nat.
Proof. induction l as [|b l IH]; simpl; [done|]. intros [->|H]; [lia|]. specialize (IH H). lia. Qed.

Lemma foldr_max_saga (l : list (SagaStep WorkflowStep)) c :
  In c (flat_map (fun sg => sg_Forward sg ::
          match sg_Compensate sg with Some cs => [cs] | None => [] end) l) ->
  (step_depth c <=
   foldr (fun sg n => Nat.max (step_depth (sg_Forward sg))
            (Nat.max match sg_Compensate sg with
                     | Some cs => step_depth cs | None => 0%nat end n)) 0%nat l)%nat.
Proof.
  induction l as [|[f [cs|]] l IH]; simpl; intros H; [done| |].
  - destruct H as [->|[->|H]]; [lia|lia|]. specialize (IH H). lia.
  - destruct H as [->|H]; [lia|]. specialize (IH H). lia.
Qed.

Lemma step_children_depth s c :
  In c (step_children s) -> (step_depth c < step_depth s)%nat.
Proof.
  destruct s as [? ? ? ? ? ? ? ? ? ? ? ? ? ? ifc mapc ? red saga cap].
  unfold step_children. rewrite !in_app_iff. cbn -[foldr].
  intros [H|[H|[H|[H|H]]]].
  - destruct ifc as [i|]; [|done].
    apply in_app_iff in H as [H|H]; apply (foldr_max_le step_depth) in H; lia.
  - destruct mapc as [m|]; [|done]. apply (foldr_max_le step_depth) in H. lia.
  - destruct red as [r|]; [|done]. apply (foldr_max_le step_depth) in H. lia.
  - destruct saga as [g|]; [|done]. apply foldr_max_saga in H. lia.
  - apply (foldr_max_le step_depth) in H. lia.
Qed.

(** Induction on a step through all the steps nested in it. *)
Lemma WorkflowStep_nested_ind (P : WorkflowStep -> Prop) :
  (forall s, (forall c, In c (step_children s) -> P c) -> P s) -> forall s, P s.
Proof.
  intros IH s. remember (step_depth s) as n eqn:E.
  revert s E. induction (Nat.lt_wf_0 n) as [n _ IHn]. intros s ->.
  apply IH. intros c Hc. eapply IHn; [|done]. by apply step_children_depth.
Qed.

(** Every step, at any depth, whose [id:] is set has a name. *)
Inductive ids_promoted : WorkflowStep -> Prop :=
  | ids_promoted_intro s :
      (ws_ID s <> ""%string -> ws_Name s <> ""%string) ->
      (forall c, In c (step_children s) -> ids_promoted c) ->
      ids_promoted s.

Lemma flat_map_map {A B C} (f : A -> B) (g : B -> list C) l :
  flat_map g (map f l) = flat_map (fun a => g (f a)) l.
Proof. induction l as [|a l IH]; simpl; [done|by rewrite IH]. Qed.

Lemma map_flat_map {A B C} (f : B -> C) (g : A -> list B) l :
  map f (flat_map g l) = flat_map (fun a => map f (g a)) l.
Proof. induction l as [|a l IH]; simpl; [done|by rewrite map_app, IH]. Qed.

Lemma step_children_normalize s :
  step_children (normalizeStepID s) = map normalizeStepID (step_children s).
Proof.
  destruct s as [? ? ? ? ? ? ? ? ? ? ? ? ? ? ifc mapc ? red saga cap].
  unfold step_children. cbn -[flat_map]. rewrite !map_app.
  f_equal; [by destruct ifc; cbn; rewrite ?map_app|].
  f_equal; [by destruct mapc|]. f_equal; [by destruct red|]. f_equal.
  destruct saga as [g|]; [|done]. cbn [sg_Steps].
  rewrite flat_map_map, map_flat_map. apply flat_map_ext.
  by intros [f [cs|]].
Qed.

Lemma normalize_promotes s : ids_promoted (normalizeStepID s).
Proof.
  induction s as [s IH] using WorkflowStep_nested_ind. constructor.
  - destruct s. cbn. case_decide as E; naive_solver.
  - rewrite step_children_normalize. intros c Hc.
    apply in_map_iff in Hc as (c' & <- & Hc'). by apply IH.
Qed.

Lemma map_normalize_idem l :
  (forall c, In c l -> normalizeStepID (normalizeStepID c) = normalizeStepID c) ->
  map normalizeStepID (map normalizeStepID l) = map normalizeStepID l.
Proof. intros H. rewrite map_map. apply map_ext_in, H. Qed.

Lemma normalize_idem s : normalizeStepID (normalizeStepID s) = normalizeStepID s.
Proof.
  induction s as [s IH] using WorkflowStep_nested_ind.
  destruct s as [node nm id ? ? ? ? ? ? ? ? ? ? ? ifc mapc ? red saga cap].
  unfold step_children in IH. cbn -[flat_map] in IH.
  setoid_rewrite in_app_iff in IH. setoid_rewrite in_app_iff in IH.
  setoid_rewrite in_app_iff in IH. setoid_rewrite in_app_iff in IH.
  cbn. f_equal.
  - repeat case_decide; naive_solver.
  - destruct ifc as [c|]; [|done]. cbn. do 2 f_equal; apply map_normalize_idem;
      intros c' Hc'; apply IH; left; apply in_app_iff; auto.
  - destruct mapc as [c|]; [|done]. cbn. do 2 f_equal. apply map_normalize_idem; auto.
  - destruct red as [c|]; [|done]. cbn. do 2 f_equal. apply map_normalize_idem; auto.
  - destruct saga as [c|]; [|done]. cbn. do 2 f_equal. rewrite map_map.
    apply map_ext_in. intros [f cs] Hsg. cbn. f_equal.
    + apply IH. do 3 right. left. apply in_flat_map. exists (mkSagaStep f cs).
      cbn. auto.
    + destruct cs as [cs|]; [|done]. f_equal. apply IH. do 3 right. left.
      apply in_flat_map. exists (mkSagaStep f (Some cs)). cbn. auto.
  - apply map_normalize_idem. intros c Hc. apply IH. by do 4 right.
Qed.

(** [normalizeStepIDs] reaches every nested sub-workflow: after it, no
    step at any depth has an [id:] without a name, and it changes nothing when
    run a second time. *)
Theorem normalizeStepIDs_correct (steps : list WorkflowStep) :
  Forall ids_promoted (normalizeStepIDs steps) /\
  normalizeStepIDs (normalizeStepIDs steps) = normalizeStepIDs steps.
Proof.
  split.
  - apply Forall_map, Forall_forall. intros s _. apply normalize_promotes.
  - apply map_normalize_idem. intros c _. apply normalize_idem.
Qed.

(** ** Lemmas: retry delays *)

Lemma capped_setting_range setting d :
  0 <= d -> 0 <= capped_setting setting d <= Z.max MaxRetryDelay d.
Proof.
  intros Hd. unfold capped_setting.
  assert (0 < MaxRetryDelay) by reflexivity.
  case_decide; [lia|]. destruct (ParseDuration _) as [v|]; [|lia].
  destruct (0 <? v) eqn:E1; [|lia]. apply Z.ltb_lt in E1.
  destruct (MaxRetryDelay <? v) eqn:E2; [lia|]. apply Z.ltb_ge in E2. lia.
Qed.

Lemma capped_setting_max setting :
  0 < capped_setting setting MaxRetryDelay <= MaxRetryDelay.
Proof.
  unfold capped_setting. assert (0 < MaxRetryDelay) by reflexivity.
  case_decide; [lia|]. destruct (ParseDuration _) as [v|]; [|lia].
  destruct (0 <? v) eqn:E1; [|lia]. apply Z.ltb_lt in E1.
  destruct (MaxRetryDelay <? v) eqn:E2; [lia|]. apply Z.ltb_ge in E2. lia.
Qed.

(** The loop computes the capped power, and its 64-bit product never wraps. *)
Lemma backoff_loop_spec n : forall maxDelay delay,
  0 <= maxDelay <= MaxRetryDelay -> 0 <= delay ->
  backoff_loop n maxDelay delay =
  if decide (n = 0%nat) then delay else Z.min (delay * 2 ^ Z.of_nat n) maxDelay.
Proof.
  assert (MaxRetryDelay = 300000000000) as HM by reflexivity.
  induction n as [|n IH]; intros maxDelay delay Hmax Hd; [done|].
  cbn [backoff_loop]. rewrite decide_False by done.
  assert (1 <= 2 ^ Z.of_nat n) by (change 1 with (2 ^ 0); apply Z.pow_le_mono_r; lia).
  rewrite Nat2Z.inj_succ, Z.pow_succ_r by lia.
  assert (maxDelay mod 2 < 2) by (apply Z.mod_pos_bound; lia).
  pose proof (Z.div_mod maxDelay 2 ltac:(lia)).
  destruct (maxDelay / 2 <? delay) eqn:E.
  { apply Z.ltb_lt in E. nia. }
  apply Z.ltb_ge in E.
  assert (0 <= maxDelay mod 2) by (apply Z.mod_pos_bound; lia).
  rewrite wrap64_id by (unfold int64_min, int64_max; lia).
  destruct (maxDelay <? delay * 2) eqn:E2; [apply Z.ltb_lt in E2; lia|].
  rewrite IH by lia. case_decide as Hn; [subst n; simpl in *; lia|]. nia.
Qed.

(** exponential backoff without jitter: from the second retry on, the
    delay is the base doubled once per earlier attempt, capped by the
    configured maximum, itself at most [MaxRetryDelay]; the 64-bit
    multiplication never wraps. *)
Theorem GetBackoffDelay_exponential (s : WorkflowStep) (b : BackoffConfig)
    (attempt : Z) (rand : float64) :
  ws_Backoff s = Some b -> bo_Exponential b = true -> bo_Jitter b = false ->
  2 <= attempt -> 0 <= GetRetryDelay s ->
  GetBackoffDelay s attempt rand =
    Z.min (capped_setting (bo_Base b) (GetRetryDelay s) * 2 ^ (attempt - 1))
          (capped_setting (bo_MaxDelay b) MaxRetryDelay)
  /\ 0 <= GetBackoffDelay s attempt rand <= MaxRetryDelay.
Proof.
  intros Hb Hexp Hjit Hatt Hdelay. unfold GetBackoffDelay.
  rewrite Hb, Hexp, Hjit. cbn [negb orb andb].
  destruct (attempt <=? 1) eqn:E; [apply Z.leb_le in E; lia|].
  pose proof (capped_setting_max (bo_MaxDelay b)) as Hm.
  pose proof (capped_setting_range (bo_Base b) _ Hdelay) as Hbase.
  rewrite backoff_loop_spec by lia.
  rewrite decide_False by lia. rewrite Z2Nat.id by lia.
  split_done.
  assert (0 <= 2 ^ (attempt - 1)) by (apply Z.pow_nonneg; lia). nia.
Qed.

Definition backoff_step : WorkflowStep :=
  mkWorkflowStep "http_request" "" "" ∅ "" 5 "10s"
    (Some (mkBackoffConfig true "" "1m" false)) [] false "" None None 0 None None
    None None None [] "" [] false "" "" "" "" false.

Lemma GetBackoffDelay_exponential_witness :
  GetBackoffDelay backoff_step 3 S754_nan = 40 * Second /\
  GetBackoffDelay backoff_step 4 S754_nan = 60 * Second /\
  0 <= GetBackoffDelay backoff_step 4 S754_nan <= MaxRetryDelay.
Proof.
  split; [reflexivity|]. split; [reflexivity|].
  apply (GetBackoffDelay_exponential backoff_step
           (mkBackoffConfig true "" "1m" false) 4 S754_nan); try reflexivity; lia || discriminate.
Defined.

(** without exponential backoff, and before the second retry with it, the
    declared delay is used as it is: a step may wait longer than
    [MaxRetryDelay] between attempts. *)
Theorem GetBackoffDelay_first_uncapped (s : WorkflowStep) (rand : float64) :
  GetBackoffDelay s 1 rand = GetRetryDelay s /\
  exists s', MaxRetryDelay < GetBackoffDelay s' 1 rand.
Proof.
  split.
  - unfold GetBackoffDelay. destruct (ws_Backoff s) as [b|]; [|done].
    by rewrite orb_true_r.
  - exists (mkWorkflowStep "n" "" "" ∅ "" 5 "1h" None [] false "" None None 0 None
      None None None None [] "" [] false "" "" "" "" false). reflexivity.
Qed.

(** the clamped settings of compound steps: concurrency is between 1 and
    [MaxParallel], iterations between 1 and 10000, and the work queue of a
    concurrent map holds between 1 and 1000 items. *)
Theorem compound_settings_bounds (l : LoopConfig) (m : MapConfig WorkflowStep)
    (r : ReduceConfig WorkflowStep) :
  1 <= LoopConfigGet.GetConcurrency l <= MaxParallel /\
  1 <= MapConfigGet.GetConcurrency m <= MaxParallel /\
  1 <= LoopConfigGet.GetMaxIterations l <= 10000 /\
  1 <= MapConfigGet.GetMaxIterations m <= 10000 /\
  1 <= ReduceConfigGet.GetMaxIterations r <= 10000 /\
  1 <= MapConfigGet.GetQueueSize m <= 1000.
Proof.
  unfold LoopConfigGet.GetConcurrency, LoopConfigGet.GetMaxIterations,
    ReduceConfigGet.GetMaxIterations, MapConfigGet.GetMaxIterations,
    MapConfigGet.GetQueueSize, MapConfigGet.GetConcurrency, clamp_concurrency,
    clamp_iterations, MaxParallel.
  repeat case_match; lia.
Qed.
