(* ===== verification/Dag.v ===== *)
(** * The step dependency graph (src/internal/workflow/dag.go)

    [depGraph] with its two adjacency arrays, its construction from
    [depends_on], three-colour cycle detection, Kahn's layered topological
    order, and the input a step receives from its dependencies.  A Go map is
    ranged over in an unspecified order: [range i s] is the order in which the
    adjacency set [s] of node [i] is visited, an argument of every definition
    that ranges over one, constrained only to list each element once. *)

From S2P Require Import Prelude GoStrings WorkflowTypes.
From Stdlib Require Import Ascii.

#[local] Open Scope string_scope.
#[local] Open Scope nat_scope.

(** ** Data *)

Record depGraph := mkDepGraph {
  nodeCount : nat;
  deps : list (gset nat);
  dependents : list (gset nat)
}.

Definition deps_of (g : depGraph) (i : nat) : gset nat := default ∅ (deps g !! i).
Definition dependents_of (g : depGraph) (i : nat) : gset nat :=
  default ∅ (dependents g !! i).

(** The errors of the package, as data; [dag_error_text] is their message,
    with [quote] standing for [%q] (strconv.Quote, whose Unicode tables are not
    modelled). *)
Inductive dag_error :=
  | ETargetNotFound (i : nat) (name dep : string)
  | ESelfDependency (i : nat) (name : string)
  | ECycle (path : list nat)
  | EStalled.

Definition itoa_nat (i : nat) : string := Itoa (Z.of_nat i).

Definition dag_error_text (quote : string -> string) (e : dag_error) : error :=
  match e with
  | ETargetNotFound i name dep =>
      "step " +:+ itoa_nat (S i) +:+ " (" +:+ quote name +:+ ") depends_on "
        +:+ quote dep +:+ ": target step not found"
  | ESelfDependency i name =>
      "step " +:+ itoa_nat (S i) +:+ " (" +:+ quote name +:+ ") depends_on itself"
  | ECycle path =>
      "dependency cycle detected: " +:+ Join (map (fun v => itoa_nat (S v)) path) " → "
  | EStalled =>
      "topological sort stalled: unreachable steps remain (possible undetected cycle)"
  end.

(** [sort.Ints]. *)
Definition sort_ints (l : list nat) : list nat := merge_sort le l.

(** ** Construction *)

Definition empty_graph (n : nat) : depGraph :=
  mkDepGraph n (replicate n ∅) (replicate n ∅).

(** [g.deps[i][d] = true; g.dependents[d][i] = true]. *)
Definition add_edge (i d : nat) (g : depGraph) : depGraph :=
  mkDepGraph (nodeCount g)
    (alter (fun s => {[d]} ∪ s) i (deps g))
    (alter (fun s => {[i]} ∪ s) d (dependents g)).

Fixpoint name_index (i : nat) (m : gmap string nat) (steps : list WorkflowStep)
    : gmap string nat :=
  match steps with
  | [] => m
  | s :: rest =>
      name_index (S i) (if decide (ws_Name s = "") then m else <[ws_Name s := i]> m)
        rest
  end.
Definition nameToIdx (steps : list WorkflowStep) : gmap string nat :=
  name_index 0 ∅ steps.

Definition resolveStepRef (ref : string) (names : gmap string nat) (count : nat)
    : option nat :=
  match names !! ref with
  | Some idx => Some idx
  | None =>
      match Atoi ref with
      | Some num =>
          let idx := (num - 1)%Z in
          if ((0 <=? idx) && (idx <? Z.of_nat count))%Z
          then Some (Z.to_nat idx) else None
      | None => None
      end
  end.

(** The inner loop over one step's [DependsOn]. *)
Fixpoint add_deps (i : nat) (name : string) (refs : list string)
    (names : gmap string nat) (g : depGraph) : depGraph + dag_error :=
  match refs with
  | [] => inl g
  | ref :: rest =>
      let dep := TrimSpace ref in
      if decide (dep = "") then add_deps i name rest names g else
      match resolveStepRef dep names (nodeCount g) with
      | None => inr (ETargetNotFound i name dep)
      | Some depIdx =>
          if decide (depIdx = i) then inr (ESelfDependency i name)
          else add_deps i name rest names (add_edge i depIdx g)
      end
  end.

Fixpoint add_all_deps (i : nat) (steps : list WorkflowStep)
    (names : gmap string nat) (g : depGraph) : depGraph + dag_error :=
  match steps with
  | [] => inl g
  | s :: rest =>
      match add_deps i (ws_Name s) (ws_DependsOn s) names g with
      | inl g' => add_all_deps (S i) rest names g'
      | inr e => inr e
      end
  end.

(** ** Cycle detection *)

Inductive colour := white | gray | black.
#[export] Instance colour_eq_dec : EqDecision colour.
Proof. solve_decision. Defined.

Definition colour_of (color : list colour) (i : nat) : colour :=
  default white (color !! i).

(** Outcome of a search: the new colours, or a cycle; [NoFuel] is never
    reached with the fuel [detectCycle] gives. *)
Inductive dfs_result :=
  | Finished (color : list colour)
  | FoundCycle (cyc : list nat)
  | NoFuel.

(** [append(path[start:], dep)] where [start] is the first position of [dep]
    in [path] (0 when it does not occur). *)
Definition cycle_from (path : list nat) (dep : nat) : list nat :=
  match list_find (eq dep) path with
  | Some (start, _) => drop start path ++ [dep]
  | None => path ++ [dep]
  end.

Section cycle.
Context (range : nat -> gset nat -> list nat).

(** The loop over the dependencies of the node on top of the stack; [rec]
    is the recursive call. *)
Fixpoint dfs_loop (rec : list colour -> nat -> list nat -> dfs_result)
    (i : nat) (path : list nat) (ds : list nat) (color : list colour)
    : dfs_result :=
  match ds with
  | [] => Finished (<[i := black]> color)
  | dep :: ds' =>
      match colour_of color dep with
      | gray => FoundCycle (cycle_from path dep)
      | white =>
          match rec color dep path with
          | Finished color' => dfs_loop rec i path ds' color'
          | other => other
          end
      | black => dfs_loop rec i path ds' color
      end
  end.

Fixpoint dfs (fuel : nat) (g : depGraph) (color : list colour) (i : nat)
    (path : list nat) : dfs_result :=
  match fuel with
  | O => NoFuel
  | S fuel' =>
      dfs_loop (dfs fuel' g) i (path ++ [i]) (range i (deps_of g i))
        (<[i := gray]> color)
  end.

Fixpoint detect_loop (g : depGraph) (todo : list nat) (color : list colour)
    : option (list nat) :=
  match todo with
  | [] => None
  | i :: rest =>
      match colour_of color i with
      | white =>
          match dfs (nodeCount g) g color i [] with
          | Finished color' => detect_loop g rest color'
          | FoundCycle cyc => Some cyc
          | NoFuel => Some []
          end
      | _ => detect_loop g rest color
      end
  end.

Definition detectCycle (g : depGraph) : option (list nat) :=
  detect_loop g (seq 0 (nodeCount g)) (replicate (nodeCount g) white).

Definition buildDepGraph (steps : list WorkflowStep) : depGraph + dag_error :=
  match add_all_deps 0 steps (nameToIdx steps) (empty_graph (length steps)) with
  | inr e => inr e
  | inl g =>
      match detectCycle g with
      | Some cyc => inr (ECycle cyc)
      | None => inl g
      end
  end.

(** ** Layered topological order (Kahn) *)

(** [inDegree[dep]--]. *)
Definition dec_at (d : nat) (inDegree : list Z) : list Z :=
  alter Z.pred d inDegree.

Definition remove_node (g : depGraph) (inDegree : list Z) (i : nat) : list Z :=
  foldl (fun a d => dec_at d a) inDegree (range i (dependents_of g i)).

(** One pass of the collecting loop: the nodes of in-degree 0, marked -1. *)
Definition collect_batch (inDegree : list Z) (n : nat) : list nat :=
  filter (fun i => inDegree !! i = Some 0%Z) (seq 0 n).
Definition mark_batch (inDegree : list Z) (batch : list nat) : list Z :=
  foldl (fun a i => <[i := (-1)%Z]> a) inDegree batch.

Fixpoint topo_loop (fuel : nat) (g : depGraph) (inDegree : list Z)
    (batches : list (list nat)) (processed : nat)
    : list (list nat) + dag_error :=
  if decide (processed < nodeCount g) then
    match fuel with
    | O => inr EStalled
    | S fuel' =>
        let batch := collect_batch inDegree (nodeCount g) in
        if decide (batch = []) then inr EStalled else
        topo_loop fuel' g
          (foldl (remove_node g) (mark_batch inDegree batch) batch)
          (batches ++ [batch]) (processed + length batch)
    end
  else inl batches.

Definition topoBatches (g : depGraph) : list (list nat) + dag_error :=
  topo_loop (nodeCount g) g
    (map (fun i => Z.of_nat (size (deps_of g i))) (seq 0 (nodeCount g))) [] 0.

(** ** Input of a step *)

(** The insertion sort of [resolveInput]: each element moves left past the
    larger ones of the sorted prefix (kept reversed). *)
Fixpoint sift (x : nat) (sorted_rev : list nat) : list nat :=
  match sorted_rev with
  | [] => [x]
  | y :: r => if x <? y then y :: sift x r else x :: sorted_rev
  end.
Definition insertion_sort (l : list nat) : list nat :=
  reverse (foldl (fun acc x => sift x acc) [] l).

Definition resolveInput (g : depGraph) (idx : nat) (outputs : gmap nat string)
    (initialInput : string) : string :=
  let ds := range idx (deps_of g idx) in
  match ds with
  | [] => initialInput
  | [d] => default initialInput (outputs !! d)
  | _ =>
      match omap (fun d => outputs !! d) (insertion_sort ds) with
      | [] => initialInput
      | parts => Join parts part_sep
      end
  end.
End cycle.

(** [hasDAGDeclarations]. *)
Definition hasDAGDeclarations (steps : list WorkflowStep) : bool :=
  existsb (fun s => match ws_DependsOn s with [] => false | _ => true end) steps.
