(* ===== verification/DagCycle.v ===== *)
(** * The dependency graph is what [depends_on] declares, and it is acyclic

    Correctness of [buildDepGraph] and [detectCycle] (src/internal/workflow/
    dag.go): the edges of the graph, soundness and completeness of the
    three-colour search whatever order Go's maps are ranged in. *)

From S2P Require Import Prelude GoStrings WorkflowTypes Dag.

(** [before g d i]: step [i] waits for step [d]. *)
Definition before (g : depGraph) (d i : nat) : Prop := d ∈ deps_of g i.
Definition acyclic (g : depGraph) : Prop := forall i, ~ tc (before g) i i.

Record graph_wf (g : depGraph) : Prop := mkGraphWf {
  wf_deps_len : length (deps g) = nodeCount g;
  wf_dependents_len : length (dependents g) = nodeCount g;
  wf_range : forall i d, before g d i -> d < nodeCount g /\ i < nodeCount g;
  wf_inverse : forall i d, before g d i <-> i ∈ dependents_of g d;
  wf_irrefl : forall i, ~ before g i i
}.

(** A path of the graph against the direction of the data: every element
    waits for the next one. *)
Definition chain (g : depGraph) (p : list nat) : Prop :=
  forall k a b, p !! k = Some a -> p !! S k = Some b -> before g b a.
Definition is_cycle (g : depGraph) (c : list nat) : Prop :=
  exists v l, c = v :: l ++ [v] /\ chain g c.

(** ** Lists *)

Lemma chain_app_last g p a b :
  chain g (p ++ [a]) -> before g b a -> chain g ((p ++ [a]) ++ [b]).
Proof.
  intros Hc Hb k x y Hx Hy.
  assert (S k < length (p ++ [a]) \/ S k = length (p ++ [a])) as [Hk|Hk].
  { apply lookup_lt_Some in Hy. rewrite length_app in Hy. simpl in Hy. lia. }
  - rewrite lookup_app_l in Hx by lia. rewrite lookup_app_l in Hy by lia. eauto.
  - rewrite length_app in Hk. simpl in Hk. assert (k = length p) as -> by lia.
    rewrite lookup_app_l in Hx by (rewrite length_app; simpl; lia).
    rewrite list_lookup_middle in Hx by done.
    rewrite list_lookup_middle in Hy by (rewrite length_app; simpl; lia).
    by simplify_eq.
Qed.

Lemma chain_drop g p n : chain g p -> chain g (drop n p).
Proof.
  intros Hc k a b. rewrite !lookup_drop. replace (n + S k) with (S (n + k)) by lia.
  apply Hc.
Qed.

Lemma chain_tc g p a b :
  chain g (a :: p ++ [b]) -> tc (before g) b a.
Proof.
  revert a. induction p as [|c p IH]; intros a Hc.
  - apply tc_once. exact (Hc 0 a b eq_refl eq_refl).
  - eapply tc_r; [apply (IH c)|exact (Hc 0 a c eq_refl eq_refl)].
    intros k x y Hx Hy. exact (Hc (S k) x y Hx Hy).
Qed.

Lemma is_cycle_not_acyclic g c : is_cycle g c -> ~ acyclic g.
Proof. intros (v & l & -> & Hc) Hac. by apply (Hac v), (chain_tc g l). Qed.

Lemma Acc_no_cycle {A} (R : A -> A -> Prop) x : Acc R x -> ~ tc R x x.
Proof.
  intros Hacc. induction Hacc as [x _ IH]. intros Hc.
  assert (R x x \/ exists y, tc R x y /\ R y x) as [Hx|(y & Hxy & Hyx)].
  { clear IH. revert Hc. generalize x at 2 4 6. intros z Hc.
    induction Hc as [x z Hxz|x y z Hxy Hyz IHt]; [by left|right].
    destruct IHt as [H|(w & H1 & H2)]; [by exists y; eauto using tc_once|].
    exists w. split; [by eapply tc_l|done]. }
  - by apply (IH x Hx), tc_once.
  - apply (IH y Hyx). by eapply tc_l.
Qed.

Lemma cycle_from_spec g p dep :
  chain g (p ++ [dep]) -> dep ∈ p -> is_cycle g (cycle_from p dep).
Proof.
  intros Hc Hin. unfold cycle_from.
  destruct (list_find_elem_of (eq dep) p dep Hin eq_refl) as [[k v] Hf].
  rewrite Hf. apply list_find_Some in Hf as (Hk & <- & _).
  exists dep, (drop (S k) p). split; [by rewrite (drop_S _ _ _ Hk)|].
  apply (chain_drop _ _ k) in Hc. rewrite drop_app_le in Hc; [done|].
  apply lookup_lt_Some in Hk. lia.
Qed.

(** ** Colours *)

Lemma colour_of_insert_eq color i c :
  i < length color -> colour_of (<[i:=c]> color) i = c.
Proof. intros H. unfold colour_of. by rewrite list_lookup_insert_eq. Qed.

Lemma colour_of_insert_ne color i j c :
  i <> j -> colour_of (<[i:=c]> color) j = colour_of color j.
Proof. intros H. unfold colour_of. by rewrite list_lookup_insert_ne. Qed.

Definition whites (color : list colour) : nat :=
  length (filter (fun c => c = white) color).

Lemma whites_cons c color :
  whites (c :: color) = (if decide (c = white) then 1 else 0) + whites color.
Proof. unfold whites. rewrite filter_cons. by case_decide. Qed.

Lemma whites_insert color i c :
  c <> white -> whites (<[i:=c]> color) <= whites color.
Proof.
  intros Hc. revert i. induction color as [|d color IH]; intros [|i]; simpl;
    rewrite ?whites_cons; try done.
  - rewrite decide_False by done. lia.
  - specialize (IH i). lia.
Qed.

Lemma whites_insert_white color i c :
  c <> white -> color !! i = Some white -> whites (<[i:=c]> color) < whites color.
Proof.
  intros Hc. revert i. induction color as [|d color IH]; intros [|i] Hi;
    simpl in *; rewrite ?whites_cons; try done.
  - simplify_eq. rewrite decide_False, decide_True by done. lia.
  - specialize (IH i Hi). lia.
Qed.

Lemma colour_of_white_lookup color i :
  i < length color -> colour_of color i = white -> color !! i = Some white.
Proof.
  intros Hi Hw. destruct (lookup_lt_is_Some_2 color i Hi) as [c Hc].
  unfold colour_of in Hw. rewrite Hc in Hw. simpl in Hw. by subst.
Qed.

(** ** The search *)

Section search.
Context (range : nat -> gset nat -> list nat).
Context (range_perm : forall i s, range i s ≡ₚ elements s).
Context (g : depGraph) (Hwf : graph_wf g).

Lemma range_elem i s d : d ∈ range i s <-> d ∈ s.
Proof using range_perm. rewrite range_perm. apply elem_of_elements. Qed.

(** The invariant of the search: black nodes are not on a cycle, gray nodes
    are the ones on the stack. *)
Record search_inv (path : list nat) (color : list colour) : Prop := {
  si_len : length color = nodeCount g;
  si_black : forall j, colour_of color j = black -> Acc (before g) j;
  si_gray : forall j, colour_of color j = gray <-> j ∈ path
}.

Record search_post (path : list nat) (color color' : list colour) : Prop := {
  sp_inv : search_inv path color';
  sp_black : forall j, colour_of color j = black -> colour_of color' j = black;
  sp_white : whites color' <= whites color
}.

Definition dfs_ok (path : list nat) (color : list colour) (i : nat)
    (r : dfs_result) : Prop :=
  match r with
  | Finished color' => search_post path color color' /\ colour_of color' i = black
  | FoundCycle c => is_cycle g c
  | NoFuel => False
  end.

Lemma search_inv_push path color i :
  i < nodeCount g -> colour_of color i = white -> search_inv path color ->
  search_inv (path ++ [i]) (<[i:=gray]> color).
Proof using Type.
  intros Hi Hw [Hlen Hb Hg]. split; [by rewrite length_insert| |].
  - intros j Hj. destruct (decide (i = j)) as [<-|Hne].
    + rewrite colour_of_insert_eq in Hj by lia. done.
    + rewrite colour_of_insert_ne in Hj by done. auto.
  - intros j. rewrite elem_of_app, list_elem_of_singleton.
    destruct (decide (i = j)) as [<-|Hne].
    + rewrite colour_of_insert_eq by lia. tauto.
    + rewrite colour_of_insert_ne by done. rewrite Hg. naive_solver.
Qed.

Lemma search_inv_pop path color i :
  i < nodeCount g -> i ∉ path -> search_inv (path ++ [i]) color ->
  (forall d, before g d i -> colour_of color d = black) ->
  search_inv path (<[i:=black]> color).
Proof using Type.
  intros Hi Hnin [Hlen Hb Hg] Hdeps. split; [by rewrite length_insert| |].
  - intros j Hj. destruct (decide (i = j)) as [<-|Hne].
    + constructor. auto.
    + rewrite colour_of_insert_ne in Hj by done. auto.
  - intros j. destruct (decide (i = j)) as [<-|Hne].
    + rewrite colour_of_insert_eq by lia. naive_solver.
    + rewrite colour_of_insert_ne by done.
      rewrite Hg, elem_of_app, list_elem_of_singleton. naive_solver.
Qed.

(** The loop over the dependencies, given that the recursive call is
    right. *)
Lemma dfs_loop_spec rec fuel i path ds color :
  (forall color d path, d < nodeCount g -> colour_of color d = white ->
     search_inv path color -> chain g (path ++ [d]) -> whites color <= fuel ->
     dfs_ok path color d (rec color d path)) ->
  i < nodeCount g -> i ∉ path -> chain g (path ++ [i]) ->
  search_inv (path ++ [i]) color -> whites color <= fuel ->
  (forall d, d ∈ ds -> before g d i) ->
  (forall d, before g d i -> d ∈ ds \/ colour_of color d = black) ->
  match dfs_loop rec i (path ++ [i]) ds color with
  | Finished color' =>
      search_inv path color' /\ colour_of color' i = black /\
      whites color' <= whites color /\
      forall j, j <> i -> colour_of color j = black -> colour_of color' j = black
  | FoundCycle c => is_cycle g c
  | NoFuel => False
  end.
Proof using Hwf.
  intros Hrec Hi Hnin Hch. revert color.
  induction ds as [|d ds IH]; intros color Hinv Hfuel Hds Hcov; cbn [dfs_loop].
  - split; [|split; [|split]].
    + apply search_inv_pop; try done. intros d Hd.
      destruct (Hcov d Hd) as [H|H]; [by apply elem_of_nil in H|done].
    + apply colour_of_insert_eq. by rewrite (si_len _ _ Hinv).
    + by apply whites_insert.
    + intros j Hj Hb. by rewrite colour_of_insert_ne.
  - assert (before g d i) as Hd by (apply Hds; left).
    assert (chain g ((path ++ [i]) ++ [d])) as Hch' by (by apply chain_app_last).
    assert (d < nodeCount g) as Hdn by apply (wf_range _ Hwf _ _ Hd).
    assert (forall x, x ∈ ds -> before g x i) as Hds'
      by (intros x Hx; apply Hds; by right).
    assert (forall color', colour_of color' d = black ->
      (forall x, colour_of color x = black -> colour_of color' x = black) ->
      forall x, before g x i -> x ∈ ds \/ colour_of color' x = black) as Hcov'.
    { intros color' Hb Hmono x Hx.
      destruct (Hcov x Hx) as [[->|?]%elem_of_cons|?]; auto. }
    destruct (colour_of color d) eqn:Ecol.
    + specialize (Hrec color d (path ++ [i]) Hdn Ecol Hinv Hch' Hfuel).
      destruct (rec color d (path ++ [i])) as [color'|c|]; [|exact Hrec|exact Hrec].
      destruct Hrec as [[Hinv' Hblack Hwh] Hdb].
      specialize (IH color' Hinv' ltac:(lia) Hds' (Hcov' color' Hdb Hblack)).
      destruct (dfs_loop rec i (path ++ [i]) ds color') as [color''|c|]; [|exact IH|exact IH].
      destruct IH as (? & ? & ? & Hkeep).
      split_done. split_done. split; [lia|auto].
    + apply cycle_from_spec; [done|]. by apply (si_gray _ _ Hinv).
    + by apply IH, Hcov'.
Qed.

Lemma dfs_spec fuel : forall color i path,
  i < nodeCount g -> colour_of color i = white -> search_inv path color ->
  chain g (path ++ [i]) -> whites color <= fuel ->
  dfs_ok path color i (dfs range fuel g color i path).
Proof using Hwf range_perm.
  induction fuel as [|fuel IH]; intros color i path Hi Hw Hinv Hch Hfuel.
  - assert (color !! i = Some white) as Hl.
    { apply colour_of_white_lookup; [|done]. by rewrite (si_len _ _ Hinv). }
    pose proof (whites_insert_white color i gray ltac:(done) Hl). lia.
  - assert (color !! i = Some white) as Hl.
    { apply colour_of_white_lookup; [|done]. by rewrite (si_len _ _ Hinv). }
    pose proof (whites_insert_white color i gray ltac:(done) Hl) as Hlt.
    assert (i ∉ path) as Hnin.
    { intros Hin. apply (si_gray _ _ Hinv) in Hin. congruence. }
    cbn [dfs]. eapply (dfs_loop_spec _ fuel i path (range i (deps_of g i))) in IH;
      [|done|done|done|by apply search_inv_push|lia| |].
    + unfold dfs_ok. destruct (dfs_loop _ _ _ _ _); [|done|done].
      destruct IH as (Hinv' & Hb & Hle & Hkeep). split; [|done].
      split; [done| |lia]. intros j Hj. apply Hkeep; [congruence|].
      rewrite colour_of_insert_ne; [done|congruence].
    + intros d Hd. by apply range_elem in Hd.
    + intros d Hd. left. by apply range_elem.
Qed.

Lemma detect_loop_spec todo color :
  search_inv [] color -> (forall i, i ∈ todo -> i < nodeCount g) ->
  (forall i, i < nodeCount g -> i ∈ todo \/ colour_of color i = black) ->
  match detect_loop range g todo color with
  | Some c => is_cycle g c
  | None => forall i, i < nodeCount g -> Acc (before g) i
  end.
Proof using Hwf range_perm.
  revert color. induction todo as [|i todo IH]; intros color Hinv Htodo Hcov;
    cbn [detect_loop].
  - intros i Hi. destruct (Hcov i Hi) as [H|H]; [by apply elem_of_nil in H|].
    by apply (si_black _ _ Hinv).
  - assert (i < nodeCount g) as Hi by (apply Htodo; left).
    assert (forall color', colour_of color' i = black ->
      (forall j, colour_of color j = black -> colour_of color' j = black) ->
      forall j, j < nodeCount g -> j ∈ todo \/ colour_of color' j = black) as Hstep.
    { intros color' Hb Hmono j Hj.
      destruct (Hcov j Hj) as [[->|?]%elem_of_cons|?]; auto. }
    destruct (colour_of color i) eqn:Ecol.
    + pose proof (dfs_spec (nodeCount g) color i [] Hi Ecol Hinv) as Hdfs.
      destruct (dfs range (nodeCount g) g color i []) as [color'|c|].
      * destruct Hdfs as [[Hinv' Hblack Hwh] Hb].
        { intros k a b Ha Hb. by destruct k. }
        { rewrite <- (si_len _ _ Hinv). apply length_filter. }
        apply IH; [done| |by apply Hstep]. intros j Hj. apply Htodo. by right.
      * apply Hdfs; [intros k a b Ha Hb; by destruct k|].
        rewrite <- (si_len _ _ Hinv). apply length_filter.
      * destruct Hdfs; [intros k a b Ha Hb; by destruct k|].
        rewrite <- (si_len _ _ Hinv). apply length_filter.
    + apply (si_gray _ _ Hinv) in Ecol. by apply elem_of_nil in Ecol.
    + apply IH; [done| |by apply Hstep]. intros j Hj. apply Htodo. by right.
Qed.

Lemma search_inv_init : search_inv [] (replicate (nodeCount g) white).
Proof using Type.
  split; [by rewrite length_replicate| |];
    intros j; unfold colour_of; destruct (replicate _ _ !! j) eqn:E; simpl;
    try apply lookup_replicate in E as [-> _]; try done;
    split; try done; intros Hin; by apply elem_of_nil in Hin.
Qed.

Lemma detectCycle_spec :
  match detectCycle range g with
  | Some c => is_cycle g c
  | None => forall i, Acc (before g) i
  end.
Proof using Hwf range_perm.
  assert (forall i, i ∈ seq 0 (nodeCount g) -> i < nodeCount g) as Hlt.
  { intros i Hi. apply elem_of_seq in Hi. lia. }
  pose proof (detect_loop_spec _ _ search_inv_init Hlt) as H.
  unfold detectCycle. destruct (detect_loop _ _ _ _).
  - apply H. intros i Hi. left. apply elem_of_seq. lia.
  - intros i. constructor. intros d Hd. apply H.
    + intros j Hj. left. apply elem_of_seq. lia.
    + apply (wf_range _ Hwf _ _ Hd).
Qed.
End search.

(** ** Construction *)

(** Step [i] declares step [d] as a dependency. *)
Definition refers (names : gmap string nat) (n : nat) (refs : list string) (d : nat)
    : Prop :=
  exists ref, ref ∈ refs /\ TrimSpace ref <> "" /\
    resolveStepRef (TrimSpace ref) names n = Some d.
Definition declared (steps : list WorkflowStep) (i d : nat) : Prop :=
  exists s, steps !! i = Some s /\
    refers (nameToIdx steps) (length steps) (ws_DependsOn s) d.

Lemma before_add_edge g i d d' i' :
  i < length (deps g) ->
  before (add_edge i d g) d' i' <-> before g d' i' \/ (d' = d /\ i' = i).
Proof.
  intros Hi. unfold before, deps_of, add_edge. simpl.
  destruct (decide (i = i')) as [<-|Hne].
  - rewrite list_lookup_alter_eq.
    destruct (lookup_lt_is_Some_2 (deps g) i Hi) as [s ->]. simpl. set_solver.
  - rewrite list_lookup_alter_ne by done. naive_solver.
Qed.

Lemma dependents_add_edge g i d d' i' :
  d < length (dependents g) ->
  i' ∈ dependents_of (add_edge i d g) d' <->
  i' ∈ dependents_of g d' \/ (d' = d /\ i' = i).
Proof.
  intros Hd. unfold dependents_of, add_edge. simpl.
  destruct (decide (d = d')) as [<-|Hne].
  - rewrite list_lookup_alter_eq.
    destruct (lookup_lt_is_Some_2 (dependents g) d Hd) as [s ->]. simpl. set_solver.
  - rewrite list_lookup_alter_ne by done. naive_solver.
Qed.

Lemma add_edge_wf g i d :
  graph_wf g -> i < nodeCount g -> d < nodeCount g -> d <> i ->
  graph_wf (add_edge i d g).
Proof.
  intros [Hl1 Hl2 Hr Hinv Hirr] Hi Hd Hne. split; simpl.
  - by rewrite length_alter.
  - by rewrite length_alter.
  - intros i' d'. rewrite before_add_edge by lia. naive_solver.
  - intros i' d'. rewrite before_add_edge, dependents_add_edge by lia. naive_solver.
  - intros i'. rewrite before_add_edge by lia. naive_solver.
Qed.

Lemma empty_graph_wf n : graph_wf (empty_graph n).
Proof.
  assert (forall i, default ∅ (replicate n (∅ : gset nat) !! i) = ∅) as He.
  { intros i. destruct (replicate n _ !! i) eqn:E; [|done].
    by apply lookup_replicate in E as [-> _]. }
  unfold empty_graph. split; simpl; try (by rewrite length_replicate);
    unfold before, deps_of, dependents_of; simpl; intros; rewrite ?He; set_solver.
Qed.

Lemma resolveStepRef_lt ref names n d :
  (forall k v, names !! k = Some v -> v < n) ->
  resolveStepRef ref names n = Some d -> d < n.
Proof.
  intros Hn. unfold resolveStepRef.
  destruct (names !! ref) as [v|] eqn:E; [intros [= <-]; eauto|].
  destruct (Atoi ref) as [z|]; [|done]. destruct (_ && _) eqn:Eb; [|done].
  intros [= <-]. apply andb_true_iff in Eb as [?%Z.leb_le ?%Z.ltb_lt]. lia.
Qed.

Lemma name_index_lt steps : forall i m k v,
  (forall k v, m !! k = Some v -> v < i + length steps) ->
  name_index i m steps !! k = Some v -> v < i + length steps.
Proof.
  induction steps as [|s steps IH]; intros i m k v Hm; cbn [name_index length];
    [by apply Hm|].
  intros H. apply IH in H; [lia|]. intros k' v'. case_decide; intros H'.
  - apply Hm in H'. simpl in H'. lia.
  - apply lookup_insert_Some in H' as [[_ <-]|[_ H']]; [lia|].
    apply Hm in H'. simpl in H'. lia.
Qed.

Lemma nameToIdx_lt steps k v : nameToIdx steps !! k = Some v -> v < length steps.
Proof. intros H. by apply name_index_lt in H. Qed.

Definition ref_error (names : gmap string nat) (n i : nat) (s : WorkflowStep)
    (e : dag_error) : Prop :=
  exists ref, ref ∈ ws_DependsOn s /\ TrimSpace ref <> "" /\
    (e = ETargetNotFound i (ws_Name s) (TrimSpace ref) /\
       resolveStepRef (TrimSpace ref) names n = None \/
     e = ESelfDependency i (ws_Name s) /\
       resolveStepRef (TrimSpace ref) names n = Some i).

Section build.
Context (names : gmap string nat) (n : nat).
Context (Hnames : forall k v, names !! k = Some v -> v < n).

Lemma add_deps_spec i s refs g :
  graph_wf g -> nodeCount g = n -> i < n ->
  (forall r, r ∈ refs -> r ∈ ws_DependsOn s) ->
  match add_deps i (ws_Name s) refs names g with
  | inl g' => graph_wf g' /\ nodeCount g' = n /\
      (forall d j, before g' d j <-> before g d j \/ (j = i /\ refers names n refs d))
  | inr e => ref_error names n i s e
  end.
Proof using Hnames.
  revert g. induction refs as [|ref refs IH]; intros g Hwf Hn Hi Hrefs;
    cbn [add_deps].
  { split_done. split_done. intros d j. split; [by left|].
    intros [?|[_ (r & Hr & _)]]; [done|by apply elem_of_nil in Hr]. }
  assert (ref ∈ ws_DependsOn s) as Href by (apply Hrefs; left).
  assert (forall r, r ∈ refs -> r ∈ ws_DependsOn s) as Hrefs'
    by (intros r Hr; apply Hrefs; by right).
  case_decide as Et.
  - specialize (IH g Hwf Hn Hi Hrefs').
    destruct (add_deps _ _ refs _ g) as [g'|e]; [|done].
    destruct IH as (Hwf' & Hn' & Hb). split_done. split_done.
    intros d j. rewrite Hb. unfold refers. set_solver.
  - rewrite Hn. destruct (resolveStepRef (TrimSpace ref) names n) as [d|] eqn:Er.
    2:{ exists ref. naive_solver. }
    case_decide as Ed; [subst d; exists ref; naive_solver|].
    pose proof (resolveStepRef_lt _ _ _ _ Hnames Er) as Hd.
    specialize (IH (add_edge i d g)).
    destruct (add_deps _ _ refs _ (add_edge i d g)) as [g'|e]; cycle 1.
    { apply IH; [apply add_edge_wf; congruence|done|done|done]. }
    destruct IH as (Hwf' & Hn' & Hb);
      [apply add_edge_wf; congruence|done|done|done|].
    split_done. split_done. intros d' j. rewrite Hb.
    rewrite before_add_edge by (rewrite (wf_deps_len _ Hwf); lia).
    unfold refers. setoid_rewrite elem_of_cons. naive_solver.
Qed.

Lemma add_all_deps_spec steps : forall i g,
  graph_wf g -> nodeCount g = n -> i + length steps <= n ->
  match add_all_deps i steps names g with
  | inl g' => graph_wf g' /\ nodeCount g' = n /\
      (forall d j, before g' d j <-> before g d j \/
         exists k s, j = i + k /\ steps !! k = Some s /\
           refers names n (ws_DependsOn s) d)
  | inr e => exists k s, steps !! k = Some s /\ ref_error names n (i + k) s e
  end.
Proof using Hnames.
  induction steps as [|s steps IH]; intros i g Hwf Hn Hlen; cbn [add_all_deps].
  { split_done. split_done. intros d j. split; [by left|].
    intros [?|(k & s & _ & Hs & _)]; [done|]. by destruct k. }
  simpl in Hlen. pose proof (add_deps_spec i s (ws_DependsOn s) g Hwf Hn
    ltac:(lia) ltac:(done)) as Hs.
  destruct (add_deps _ _ _ _ g) as [g'|e].
  2:{ exists 0, s. by rewrite Nat.add_0_r. }
  destruct Hs as (Hwf' & Hn' & Hb).
  specialize (IH (S i) g' Hwf' Hn' ltac:(lia)).
  destruct (add_all_deps (S i) steps names g') as [g''|e].
  - destruct IH as (Hwf'' & Hn'' & Hb'). split_done. split_done.
    intros d j. rewrite Hb', Hb. split.
    + intros [[?|[-> ?]]|(k & s' & -> & Hk & Hr)]; [by left| |].
      * right. exists 0, s. by rewrite Nat.add_0_r.
      * right. exists (S k), s'. split; [lia|done].
    + intros [?|(k & s' & -> & Hk & Hr)]; [by left; left|].
      destruct k as [|k]; simpl in Hk.
      * simplify_eq. left. right. by rewrite Nat.add_0_r.
      * right. exists k, s'. split; [lia|done].
  - destruct IH as (k & s' & Hk & He). exists (S k), s'.
    by replace (i + S k) with (S i + k) by lia.
Qed.
End build.

(** What each outcome of [buildDepGraph] says of the declarations: the edges of
    a graph are exactly the resolved references (both adjacency arrays agree)
    and form no cycle; an error names an unresolvable reference, a
    self-reference, or a closed chain of declared dependencies. *)
Definition build_outcome (steps : list WorkflowStep) (r : depGraph + dag_error) : Prop :=
  match r with
  | inl g =>
      graph_wf g /\ nodeCount g = length steps /\
      (forall i d, before g d i <-> declared steps i d) /\ acyclic g
  | inr (ETargetNotFound i name dep) =>
      exists s ref, steps !! i = Some s /\ name = ws_Name s /\
        ref ∈ ws_DependsOn s /\ dep = TrimSpace ref /\ dep <> "" /\
        resolveStepRef dep (nameToIdx steps) (length steps) = None
  | inr (ESelfDependency i name) => declared steps i i
  | inr (ECycle c) =>
      exists v l, c = v :: l ++ [v] /\
        forall k a b, c !! k = Some a -> c !! S k = Some b -> declared steps a b
  | inr EStalled => False
  end.

Lemma buildDepGraph_spec (range : nat -> gset nat -> list nat) steps :
  (forall i s, range i s ≡ₚ elements s) ->
  build_outcome steps (buildDepGraph range steps).
Proof.
  intros range_perm. unfold build_outcome, buildDepGraph.
  pose proof (add_all_deps_spec (nameToIdx steps) (length steps) (nameToIdx_lt steps)
    steps 0 (empty_graph (length steps)) (empty_graph_wf _) eq_refl ltac:(lia)) as H.
  destruct (add_all_deps 0 steps _ _) as [g|e].
  - destruct H as (Hwf & Hn & Hb).
    assert (forall i d, before g d i <-> declared steps i d) as Hdecl.
    { intros i d. rewrite Hb. unfold declared. split.
      - intros [He|(k & s & -> & ?)]; [|by exists s].
        apply (wf_range _ (empty_graph_wf (length steps))) in He as He'.
        unfold before, deps_of, empty_graph in He. simpl in He.
        destruct (replicate _ _ !! i) eqn:E; simpl in He;
          [apply lookup_replicate in E as [-> _]|]; set_solver.
      - intros (s & Hs & Hr). right. by exists i, s. }
    pose proof (detectCycle_spec range range_perm g Hwf) as Hc.
    destruct (detectCycle range g) as [c|].
    + destruct Hc as (v & l & -> & Hc). exists v, l. split_done.
      intros k a b Ha Hb'. apply Hdecl. eapply Hc; eauto.
    + split_done. split_done. split_done.
      intros i. by apply Acc_no_cycle.
  - destruct H as (k & s & Hs & ref & Href & Hne & [[-> Hr]|[-> Hr]]).
    + exists s, ref. done.
    + exists s. split_done. exists ref. done.
Qed.

(** C5: [buildDepGraph] is decided by the declarations alone, whatever order
    its maps are ranged in: its graph has exactly the resolved [depends_on]
    references as edges and no cycle, and each error it returns is justified. *)
Theorem buildDepGraph_correct (range : nat -> gset nat -> list nat)
    (range_perm : forall i s, range i s ≡ₚ elements s)
    (steps : list WorkflowStep) :
  build_outcome steps (buildDepGraph range steps).
Proof. by apply buildDepGraph_spec. Qed.

Definition dep_step (name : string) (ds : list string) : WorkflowStep :=
  mkWorkflowStep "http_request" name "" ∅ "" 0 "" None [] false "" None None 0 None
    None None None None [] "" ds false "" "" "" "" false.

(** A diamond: "b" and "c" wait for "a", "d" for both (once by number). *)
Definition diamond : list WorkflowStep :=
  [dep_step "a" []; dep_step "b" ["a"]; dep_step "c" ["a"]; dep_step "d" ["b"; "3"]].

Lemma buildDepGraph_correct_witness :
  exists g, buildDepGraph (fun _ s => elements s) diamond = inl g /\
    nodeCount g = 4 /\ acyclic g.
Proof.
  pose proof (buildDepGraph_correct (fun _ s => elements s) ltac:(done) diamond) as H.
  destruct (buildDepGraph (fun _ s => elements s) diamond) as [g|e] eqn:E;
    [|by vm_compute in E].
  exists g. destruct H as (_ & Hn & _ & Hac). done.
Defined.
