(* ===== verification/DagTopo.v ===== *)
(** * Layered scheduling of the graph implements its TLA+ specification

    The specification of docs/tla/DagScheduler.tla as a step relation
    ([PickBatch] adds the whole [Ready] set), its invariants [SafeBatch],
    [NoDoubleExec] and [AllScheduled] by rule induction, and the refinement:
    [topoBatches] (src/internal/workflow/dag.go) performs a complete run of the
    specification.  The input a step is given does not depend on the order in
    which Go ranges over maps. *)

From S2P Require Import Prelude GoStrings WorkflowTypes Dag DagCycle.
From Stdlib Require Import Ascii.

(** ** The specification *)

Definition steps_of (g : depGraph) : gset nat := list_to_set (seq 0 (nodeCount g)).

Definition Ready (g : depGraph) (done : gset nat) : gset nat :=
  filter (fun i => (i ∉ done) /\ (deps_of g i ⊆ done)) (steps_of g).

Record tla_state := mkTla { tla_done : gset nat; tla_batches : list (gset nat) }.
Definition tla_init : tla_state := mkTla ∅ [].

Inductive PickBatch (g : depGraph) : tla_state -> tla_state -> Prop :=
  | pick_batch done batches :
      Ready g done <> ∅ ->
      PickBatch g (mkTla done batches)
        (mkTla (done ∪ Ready g done) (batches ++ [Ready g done])).

Definition SafeBatch (g : depGraph) (batches : list (gset nat)) : Prop :=
  forall b s i d, batches !! b = Some s -> i ∈ s -> d ∈ deps_of g i ->
    exists c t, c < b /\ batches !! c = Some t /\ d ∈ t.

Definition NoDoubleExec (batches : list (gset nat)) : Prop :=
  forall b1 b2 s t i, batches !! b1 = Some s -> batches !! b2 = Some t ->
    i ∈ s -> i ∈ t -> b1 = b2.

Record tla_inv (g : depGraph) (st : tla_state) : Prop := {
  ti_done : tla_done st = ⋃ tla_batches st;
  ti_safe : SafeBatch g (tla_batches st);
  ti_once : NoDoubleExec (tla_batches st);
  ti_closed : forall i d, i ∈ tla_done st -> d ∈ deps_of g i -> d ∈ tla_done st;
  ti_range : tla_done st ⊆ steps_of g
}.

Lemma elem_of_Ready g done i :
  i ∈ Ready g done <-> i < nodeCount g /\ (i ∉ done) /\ (deps_of g i ⊆ done).
Proof.
  unfold Ready, steps_of.
  rewrite elem_of_filter, elem_of_list_to_set, elem_of_seq. naive_solver lia.
Qed.

Lemma lookup_snoc_Some {A} (l : list A) x k y :
  (l ++ [x]) !! k = Some y ->
  (k < length l /\ l !! k = Some y) \/ (k = length l /\ y = x).
Proof.
  intros H. apply lookup_app_Some in H as [H|[Hk H]].
  - left. split; [by eapply lookup_lt_Some|done].
  - right. apply list_lookup_singleton_Some in H as [??]. split; [lia|done].
Qed.

(** [PickBatch] preserves the invariants. *)
Lemma PickBatch_inv g st st' : tla_inv g st -> PickBatch g st st' -> tla_inv g st'.
Proof.
  intros [Hd Hs Ho Hc Hr] Hp. destruct Hp as [done batches Hne]; simpl in *.
  assert (forall c t i, batches !! c = Some t -> i ∈ t -> i ∈ done) as Hin.
  { intros c t i Hct Hi. rewrite Hd. apply elem_of_union_list.
    exists t. split; [by eapply list_elem_of_lookup_2|done]. }
  split; simpl.
  - rewrite union_list_app_L. simpl. set_solver.
  - intros b s i d Hb Hi Hdep.
    apply lookup_snoc_Some in Hb as [[Hlt Hb]|[-> ->]].
    + destruct (Hs b s i d Hb Hi Hdep) as (c & t & ? & ? & ?).
      exists c, t. rewrite lookup_app_l by lia. done.
    + apply elem_of_Ready in Hi as (_ & _ & Hsub). apply Hsub in Hdep.
      rewrite Hd in Hdep. apply elem_of_union_list in Hdep as (t & Ht & Hdt).
      apply list_elem_of_lookup in Ht as [c Hct].
      exists c, t. pose proof (lookup_lt_Some _ _ _ Hct).
      rewrite lookup_app_l by lia. done.
  - intros b1 b2 s t i H1 H2 Hi1 Hi2.
    apply lookup_snoc_Some in H1 as [[Hl1 H1]|[-> ->]];
      apply lookup_snoc_Some in H2 as [[Hl2 H2]|[-> ->]]; [by eauto| | |done].
    + apply elem_of_Ready in Hi2 as (_ & Hnin & _). by apply (Hin b1 s) in Hi1.
    + apply elem_of_Ready in Hi1 as (_ & Hnin & _). by apply (Hin b2 t) in Hi2.
  - intros i d [Hi|Hi]%elem_of_union Hdep; [by apply elem_of_union_l, (Hc i)|].
    apply elem_of_Ready in Hi as (_ & _ & Hsub). apply elem_of_union_l, Hsub, Hdep.
  - intros i [Hi|Hi]%elem_of_union; [by apply Hr|].
    apply elem_of_Ready in Hi as (Hlt & _). unfold steps_of.
    apply elem_of_list_to_set, elem_of_seq. lia.
Qed.

Lemma tla_reachable_inv g st : rtc (PickBatch g) tla_init st -> tla_inv g st.
Proof.
  intros H. remember tla_init as st0 eqn:E.
  assert (tla_inv g st0) as Hinv.
  { subst st0. split; simpl; try done; unfold SafeBatch, NoDoubleExec; set_solver. }
  clear E. induction H as [|st0 st1 st2 H1 H2 IH]; [done|].
  by eapply IH, PickBatch_inv.
Qed.


Lemma acyclic_Acc g : graph_wf g -> acyclic g -> forall i, Acc (before g) i.
Proof.
  intros Hwf Hac. pose proof (detectCycle_spec (fun _ s => elements s)
    ltac:(done) g Hwf) as H.
  destruct (detectCycle _ g); [|done]. by apply is_cycle_not_acyclic in H.
Qed.

Lemma elem_of_steps_of g i : i ∈ steps_of g <-> i < nodeCount g.
Proof. unfold steps_of. rewrite elem_of_list_to_set, elem_of_seq. lia. Qed.

Lemma size_steps_of g : size (steps_of g) = nodeCount g.
Proof.
  unfold steps_of. rewrite size_list_to_set by apply NoDup_seq.
  by rewrite length_seq.
Qed.

(** An acyclic graph always has a ready step until every step is done. *)
Lemma Ready_progress g done i :
  graph_wf g -> Acc (before g) i -> i < nodeCount g -> i ∉ done ->
  Ready g done <> ∅.
Proof.
  intros Hwf Hacc. induction Hacc as [i _ IH]. intros Hi Hnin.
  destruct (decide (deps_of g i ⊆ done)) as [Hsub|Hsub].
  - intros He. apply (not_elem_of_empty (C:=gset nat) i). rewrite <- He.
    by apply elem_of_Ready.
  - assert (exists d, d ∈ deps_of g i /\ d ∉ done) as (d & Hd & Hdn).
    { clear IH Hnin. destruct (set_choose_or_empty (deps_of g i ∖ done)) as [[d Hd]|He].
      - exists d. set_solver.
      - destruct Hsub. intros x Hx. destruct (decide (x ∈ done)) as [|Hn]; [done|].
        apply (elem_of_equiv_empty (deps_of g i ∖ done)) with x in He.
        destruct He. by apply elem_of_difference. }
    apply (IH d); [done| |done]. apply (wf_range _ Hwf i d Hd).
Qed.

(** ** [topoBatches] *)

Section topo.
Context (range : nat -> gset nat -> list nat).
Context (range_perm : forall i s, range i s ≡ₚ elements s).
Context (g : depGraph) (Hwf : graph_wf g).
Implicit Types (a : list Z) (bs : list nat) (done : gset nat).

Lemma mark_batch_lookup bs : forall a i,
  mark_batch a bs !! i =
  if decide (i ∈ bs) then (fun _ => (-1)%Z) <$> a !! i else a !! i.
Proof using Type.
  unfold mark_batch. induction bs as [|b bs IH]; intros a i; cbn [foldl].
  - by rewrite decide_False by apply not_elem_of_nil.
  - rewrite IH. destruct (decide (b = i)) as [->|Hne].
    + rewrite (decide_True (P:=i ∈ i :: bs)) by left.
      destruct (decide (i < length a)) as [Hlt|Hge].
      * rewrite list_lookup_insert_eq by done.
        destruct (lookup_lt_is_Some_2 a i Hlt) as [z ->]. by case_decide.
      * rewrite list_insert_ge by lia. rewrite lookup_ge_None_2 by lia.
        by case_decide.
    + rewrite list_lookup_insert_ne by done.
      destruct (decide (i ∈ bs)) as [Hin|Hnin].
      * by rewrite decide_True by (by right).
      * rewrite decide_False; [done|]. rewrite not_elem_of_cons. done.
Qed.

Lemma foldl_dec_lookup ds : forall a i, NoDup ds ->
  foldl (fun a d => dec_at d a) a ds !! i =
  (fun z => if decide (i ∈ ds) then Z.pred z else z) <$> a !! i.
Proof using range_perm Hwf.
  induction ds as [|d ds IH]; intros a i Hnd; cbn [foldl].
  - destruct (a !! i); [|done]. cbn [fmap option_fmap option_map].
    by rewrite decide_False by apply not_elem_of_nil.
  - apply NoDup_cons in Hnd as [Hd Hnd]. rewrite IH by done. unfold dec_at.
    destruct (decide (d = i)) as [->|Hne].
    + rewrite list_lookup_alter_eq. destruct (a !! i); simpl; [|done].
      rewrite decide_False by done. by rewrite decide_True by left.
    + rewrite list_lookup_alter_ne by done. destruct (a !! i); simpl; [|done].
      repeat case_decide; set_solver.
Qed.

Lemma remove_node_lookup a b i :
  remove_node range g a b !! i =
  (fun z => if decide (b ∈ deps_of g i) then Z.pred z else z) <$> a !! i.
Proof using range_perm Hwf.
  unfold remove_node. rewrite foldl_dec_lookup.
  2:{ rewrite range_perm. apply NoDup_elements. }
  destruct (a !! i); simpl; [|done]. f_equal.
  assert (i ∈ range b (dependents_of g b) <-> b ∈ deps_of g i) as Hiff.
  { rewrite range_elem by done. symmetry. apply (wf_inverse _ Hwf). }
  repeat case_decide; tauto.
Qed.

Lemma foldl_remove_lookup bs : forall a i,
  foldl (remove_node range g) a bs !! i =
  (fun z => z - Z.of_nat (length (filter (fun b => b ∈ deps_of g i) bs)))%Z
    <$> a !! i.
Proof using range_perm Hwf.
  induction bs as [|b bs IH]; intros a i; simpl.
  - destruct (a !! i); simpl; [|done]. f_equal. lia.
  - rewrite IH, remove_node_lookup, filter_cons.
    destruct (a !! i); simpl; [|done]. f_equal. case_decide; simpl; lia.
Qed.

(** The in-degree array counts the dependencies that are not done. *)
Record kahn_inv (done : gset nat) (a : list Z) : Prop := {
  ki_len : length a = nodeCount g;
  ki_val : forall i, i < nodeCount g ->
    a !! i = Some (if decide (i ∈ done) then (-1)%Z
                   else Z.of_nat (size (deps_of g i ∖ done)));
  ki_closed : forall i, i ∈ done -> deps_of g i ⊆ done;
  ki_range : done ⊆ steps_of g
}.

Lemma collect_batch_Ready done a :
  kahn_inv done a -> list_to_set (collect_batch a (nodeCount g)) = Ready g done.
Proof using range_perm Hwf.
  intros [_ Hval _ _]. apply set_eq. intros i. unfold collect_batch.
  rewrite elem_of_list_to_set, list_elem_of_filter, elem_of_seq, elem_of_Ready.
  split.
  - intros [Hz Hi]. assert (i < nodeCount g) as Hlt by lia.
    rewrite Hval in Hz by done. case_decide as Hin; [done|].
    split_done. split_done. injection Hz as Hz.
    assert (size (deps_of g i ∖ done) = 0) as Hs by lia.
    apply size_empty_inv in Hs. set_solver.
  - intros (Hlt & Hnin & Hsub). split; [|lia]. rewrite Hval by done.
    rewrite decide_False by done. do 2 f_equal.
    replace (deps_of g i ∖ done) with (∅ : gset nat) by set_solver.
    by rewrite size_empty.
Qed.

Lemma NoDup_collect a n : NoDup (collect_batch a n).
Proof using Type. apply NoDup_filter, NoDup_seq. Qed.

Lemma length_filter_deps bs i : NoDup bs ->
  length (filter (fun b => b ∈ deps_of g i) bs)
  = size (deps_of g i ∩ list_to_set bs).
Proof using Type.
  intros Hnd. rewrite <- (size_list_to_set (C:=gset nat)) by by apply NoDup_filter.
  f_equal. apply set_eq. intros x.
  rewrite elem_of_intersection, !elem_of_list_to_set, list_elem_of_filter. done.
Qed.

Lemma length_mark_batch bs : forall a, length (mark_batch a bs) = length a.
Proof using Type.
  unfold mark_batch. induction bs as [|b bs IH]; intros a; simpl; [done|].
  by rewrite IH, length_insert.
Qed.

Lemma length_foldl_remove bs : forall a,
  length (foldl (remove_node range g) a bs) = length a.
Proof using Type.
  induction bs as [|b bs IH]; intros a; simpl; [done|]. rewrite IH.
  unfold remove_node. generalize (range b (dependents_of g b)). intros ds.
  revert a. induction ds as [|d ds IHd]; intros a; simpl; [done|].
  rewrite IHd. apply length_alter.
Qed.

Lemma kahn_step done a :
  kahn_inv done a ->
  let batch := collect_batch a (nodeCount g) in
  kahn_inv (done ∪ Ready g done)
    (foldl (remove_node range g) (mark_batch a batch) batch).
Proof using range_perm Hwf.
  intros Hinv batch. pose proof (collect_batch_Ready _ _ Hinv) as HR.
  fold batch in HR. destruct Hinv as [Hlen Hval Hclosed Hrange].
  assert (forall i, i ∈ batch <-> i ∈ Ready g done) as Hbatch.
  { intros i. rewrite <- HR. by rewrite elem_of_list_to_set. }
  assert (Ready g done ## done) as Hdisj.
  { intros x Hx. apply elem_of_Ready in Hx. tauto. }
  assert (forall i, i < nodeCount g ->
    (i ∈ done \/ i ∈ Ready g done) ->
    length (filter (fun b => b ∈ deps_of g i) batch) = 0) as Hzero.
  { intros i Hi Hd. rewrite length_filter_deps by apply NoDup_collect.
    rewrite HR. assert (deps_of g i ⊆ done) as Hsub.
    { destruct Hd as [Hd|Hd]; [by apply Hclosed|apply elem_of_Ready in Hd; tauto]. }
    replace (deps_of g i ∩ Ready g done) with (∅ : gset nat);
      [by rewrite size_empty|].
    set_solver. }
  split.
  - by rewrite length_foldl_remove, length_mark_batch.
  - intros i Hi. rewrite foldl_remove_lookup, mark_batch_lookup, (Hval i Hi).
    destruct (decide (i ∈ done)) as [Hid|Hid].
    + rewrite (Hzero i Hi (or_introl Hid)).
      rewrite (decide_True (P:=i ∈ done ∪ _)) by set_solver.
      case_decide; reflexivity.
    + destruct (decide (i ∈ batch)) as [Hib|Hib].
      * apply Hbatch in Hib. rewrite (Hzero i Hi (or_intror Hib)).
        rewrite decide_True by set_solver. reflexivity.
      * assert (i ∉ Ready g done) by (by rewrite <- Hbatch).
        rewrite decide_False by set_solver. simpl. f_equal.
        rewrite length_filter_deps by apply NoDup_collect. rewrite HR.
        replace (deps_of g i ∖ (done ∪ Ready g done))
          with ((deps_of g i ∖ done) ∖ (deps_of g i ∩ Ready g done)) by set_solver.
        assert (deps_of g i ∩ Ready g done ⊆ deps_of g i ∖ done) as Hsub
          by set_solver.
        rewrite (size_difference (deps_of g i ∖ done)) by done. apply subseteq_size in Hsub. lia.
  - intros i [Hi|Hi]%elem_of_union; [by apply Hclosed in Hi; set_solver|].
    apply elem_of_Ready in Hi. set_solver.
  - intros i [Hi|Hi]%elem_of_union; [by apply Hrange|].
    apply elem_of_Ready in Hi. apply elem_of_steps_of. tauto.
Qed.

Lemma kahn_init :
  kahn_inv ∅ (map (fun i => Z.of_nat (size (deps_of g i))) (seq 0 (nodeCount g))).
Proof using Type.
  split.
  - by rewrite length_map, length_seq.
  - intros i Hi. rewrite list_lookup_fmap, lookup_seq_lt by done. simpl.
    by rewrite difference_empty_L.
  - intros i Hi. by apply not_elem_of_empty in Hi.
  - intros i Hi. by apply not_elem_of_empty in Hi.
Qed.

Lemma all_done done : done ⊆ steps_of g -> nodeCount g <= size done -> done = steps_of g.
Proof using Type.
  intros Hsub Hsz. apply set_eq. intros i. split; [apply Hsub|]. intros Hi.
  assert (steps_of g ∖ done = ∅) as He.
  { apply leibniz_equiv, size_empty_iff. rewrite size_difference by exact Hsub.
    rewrite size_steps_of. lia. }
  destruct (decide (i ∈ done)) as [|Hn]; [assumption|].
  assert (i ∈ steps_of g ∖ done) as H by (by apply elem_of_difference).
  rewrite He in H. by apply not_elem_of_empty in H.
Qed.

Lemma topo_loop_spec fuel : forall ds a batches,
  (forall i, Acc (before g) i) -> kahn_inv ds a ->
  nodeCount g - size ds <= fuel -> Forall (@NoDup nat) batches ->
  rtc (PickBatch g) tla_init (mkTla ds (list_to_set <$> batches)) ->
  exists out, topo_loop range fuel g a batches (size ds) = inl out /\
    Forall (@NoDup nat) out /\
    rtc (PickBatch g) tla_init (mkTla (steps_of g) (list_to_set <$> out)).
Proof using range_perm Hwf.
  assert (forall ds a batches, kahn_inv ds a -> nodeCount g <= size ds ->
    rtc (PickBatch g) tla_init (mkTla ds (list_to_set <$> batches)) ->
    rtc (PickBatch g) tla_init (mkTla (steps_of g) (list_to_set <$> batches))) as Hend.
  { intros ds a batches Hinv Hsz. by rewrite (all_done ds) by
      (try apply (ki_range _ _ Hinv); done). }
  induction fuel as [|fuel IH]; intros ds a batches Hacc Hinv Hfuel Hnd Hrun;
    cbn [topo_loop]; (case_decide as Hlt; [|exists batches; split_done;
      split_done; apply (Hend ds a); [done|lia|done]]); [lia|].
  set (batch := collect_batch a (nodeCount g)).
  pose proof (collect_batch_Ready _ _ Hinv) as HR. fold batch in HR.
  assert (exists i, i < nodeCount g /\ i ∉ ds) as (i & Hi & Hnin).
  { destruct (set_choose_or_empty (steps_of g ∖ ds)) as [[i Hin]|He].
    - exists i. apply elem_of_difference in Hin as [Hin ?].
      by rewrite elem_of_steps_of in Hin.
    - exfalso. apply size_empty_iff in He.
      rewrite size_difference in He by apply (ki_range _ _ Hinv).
      rewrite size_steps_of in He. lia. }
  pose proof (Ready_progress g ds i Hwf (Hacc i) Hi Hnin) as Hready.
  rewrite decide_False.
  2:{ intros He. rewrite He in HR. simpl in HR. congruence. }
  assert (size ds + length batch = size (ds ∪ Ready g ds)) as Hsize.
  { rewrite size_union; [|intros x Hx Hx'; apply elem_of_Ready in Hx'; tauto].
    rewrite <- HR, size_list_to_set by apply NoDup_collect. done. }
  rewrite Hsize. apply IH; try done.
  - by apply kahn_step.
  - assert (0 < length batch); [|lia].
    destruct batch; [|simpl; lia]. simpl in HR. congruence.
  - apply Forall_app. split_done. constructor; [apply NoDup_collect|done].
  - rewrite fmap_app. cbn [fmap list_fmap]. rewrite HR.
    eapply rtc_r; [exact Hrun|by constructor].
Qed.
End topo.

Lemma topoBatches_run (range : nat -> gset nat -> list nat) g :
  (forall i s, range i s ≡ₚ elements s) -> graph_wf g -> acyclic g ->
  exists bs, topoBatches range g = inl bs /\ Forall (@NoDup nat) bs /\
    rtc (PickBatch g) tla_init (mkTla (steps_of g) (list_to_set <$> bs)).
Proof.
  intros Hperm Hwf Hac. unfold topoBatches.
  pose proof (topo_loop_spec range Hperm g Hwf (nodeCount g) ∅ _ []
    (acyclic_Acc g Hwf Hac) (kahn_init g)) as H.
  rewrite size_empty in H. apply H; [lia|done|done].
Qed.

(** C6: on every acyclic graph [topoBatches] succeeds, and its batches are a
    complete run of the TLA+ specification: each batch is the whole ready set,
    and the run ends with every step done. *)
Theorem topoBatches_refines_tla (range : nat -> gset nat -> list nat)
    (range_perm : forall i s, range i s ≡ₚ elements s) (g : depGraph) :
  graph_wf g -> acyclic g ->
  exists bs, topoBatches range g = inl bs /\ Forall (@NoDup nat) bs /\
    rtc (PickBatch g) tla_init (mkTla (steps_of g) (list_to_set <$> bs)).
Proof. by apply topoBatches_run. Qed.

(** The runs of the specification are schedules: what the TLA+ theorem states,
    and that a complete run executes every step exactly once. *)
Lemma NoDoubleExec_concat bs :
  NoDoubleExec (list_to_set <$> bs) -> Forall (@NoDup nat) bs -> NoDup (concat bs).
Proof.
  intros Hno Hnd. induction Hnd as [|b bs Hb Hnd IH]; simpl; [constructor|].
  apply NoDup_app. split_done. split.
  - intros i Hi Hc. apply list_elem_of_In, in_concat in Hc as (c & Hc & Hic).
    apply list_elem_of_In in Hc, Hic. apply list_elem_of_lookup in Hc as [k Hk].
    assert (0 = S k) as [=]. apply (Hno 0 (S k) (list_to_set b) (list_to_set c) i).
    + done.
    + by rewrite list_lookup_fmap; simpl; rewrite Hk.
    + by apply elem_of_list_to_set.
    + by apply elem_of_list_to_set.
  - apply IH. intros b1 b2 s t i H1 H2 Hs Ht.
    assert (S b1 = S b2) as [=]; [|done]. by apply (Hno (S b1) (S b2) s t i).
Qed.

(** the batches [topoBatches] computes for an acyclic graph contain every
    step exactly once, and every dependency of a step is in a strictly earlier
    batch. *)
Theorem topoBatches_schedule (range : nat -> gset nat -> list nat)
    (range_perm : forall i s, range i s ≡ₚ elements s) (g : depGraph) bs :
  graph_wf g -> acyclic g -> topoBatches range g = inl bs ->
  concat bs ≡ₚ seq 0 (nodeCount g) /\
  forall b batch i d, bs !! b = Some batch -> i ∈ batch -> d ∈ deps_of g i ->
    exists c batch', c < b /\ bs !! c = Some batch' /\ d ∈ batch'.
Proof.
  intros Hwf Hac Hbs.
  destruct (topoBatches_run range g range_perm Hwf Hac) as (bs' & Hbs' & Hnd & Hrun).
  assert (bs' = bs) as -> by congruence.
  apply tla_reachable_inv in Hrun as [Hd Hsafe Hno _ _]. simpl in *. split.
  - apply NoDup_Permutation; [by apply NoDoubleExec_concat|apply NoDup_seq|].
    intros i. transitivity (i ∈ steps_of g).
    2:{ rewrite elem_of_steps_of, elem_of_seq. lia. }
    rewrite Hd, elem_of_union_list. setoid_rewrite list_elem_of_fmap.
    rewrite list_elem_of_In, in_concat. setoid_rewrite <- list_elem_of_In.
    split.
    + intros (b & Hb & Hi). exists (list_to_set b). split; [by exists b|].
      by apply elem_of_list_to_set.
    + intros (s & (b & -> & Hb) & Hi). exists b. split_done.
      by apply elem_of_list_to_set in Hi.
  - intros b batch i d Hb Hi Hdep.
    destruct (Hsafe b (list_to_set batch) i d) as (c & t & Hc & Ht & Hdt).
    + by rewrite list_lookup_fmap, Hb.
    + by apply elem_of_list_to_set.
    + done.
    + rewrite list_lookup_fmap in Ht. destruct (bs !! c) as [batch'|] eqn:Ec; [|done].
      simpl in Ht. injection Ht as <-. exists c, batch'. split_done. split_done.
      by apply elem_of_list_to_set in Hdt.
Qed.

Definition order_elems (i : nat) (s : gset nat) : list nat := elements s.
Lemma order_elems_perm i s : order_elems i s ≡ₚ elements s.
Proof. done. Qed.

(** The graph of the diamond workflow. *)
Definition diamond_graph : depGraph :=
  mkDepGraph 4 [∅; {[0]}; {[0]}; {[1; 2]}] [{[1; 2]}; {[3]}; {[3]}; ∅].

Lemma diamond_graph_built : buildDepGraph order_elems diamond = inl diamond_graph.
Proof. vm_compute. reflexivity. Qed.

Lemma diamond_graph_ok : graph_wf diamond_graph /\ acyclic diamond_graph.
Proof.
  pose proof (buildDepGraph_spec order_elems diamond order_elems_perm) as H.
  rewrite diamond_graph_built in H. destruct H; tauto.
Qed.

Lemma topoBatches_refines_tla_witness :
  topoBatches order_elems diamond_graph = inl [[0]; [1; 2]; [3]] /\
  exists bs, topoBatches order_elems diamond_graph = inl bs /\ Forall (@NoDup nat) bs /\
    rtc (PickBatch diamond_graph) tla_init
      (mkTla (steps_of diamond_graph) (list_to_set <$> bs)).
Proof.
  split; [vm_compute; reflexivity|].
  apply (topoBatches_refines_tla order_elems order_elems_perm);
    apply diamond_graph_ok.
Defined.

Lemma topoBatches_schedule_witness :
  concat [[0]; [1; 2]; [3]] ≡ₚ seq 0 (nodeCount diamond_graph).
Proof.
  apply (topoBatches_schedule order_elems order_elems_perm diamond_graph);
    [apply diamond_graph_ok|apply diamond_graph_ok|vm_compute; reflexivity].
Defined.

(** ** Input of a step *)

Lemma sift_perm x l : sift x l ≡ₚ x :: l.
Proof.
  induction l as [|y l IH]; simpl; [done|]. destruct (x <? y); [|done].
  rewrite IH. apply Permutation_swap.
Qed.

Lemma sift_sorted x l : Sorted ge l -> Sorted ge (sift x l).
Proof.
  induction l as [|y l IH]; intros Hs; simpl; [by repeat constructor|].
  apply Sorted_inv in Hs as [Hs Hhd].
  destruct (Nat.ltb_spec x y) as [Hlt|Hge].
  - constructor; [by apply IH|].
    destruct l as [|z l]; simpl; [constructor; lia|].
    apply HdRel_inv in Hhd. destruct (x <? z); constructor; lia.
  - constructor; [by constructor|]. constructor. lia.
Qed.

Lemma foldl_sift l : forall acc, Sorted ge acc ->
  Sorted ge (foldl (fun a x => sift x a) acc l) /\
  foldl (fun a x => sift x a) acc l ≡ₚ acc ++ l.
Proof.
  induction l as [|x l IH]; intros acc Hacc; simpl.
  - by rewrite app_nil_r.
  - destruct (IH (sift x acc) (sift_sorted x acc Hacc)) as [Hs Hp].
    split_done. rewrite Hp, sift_perm. by rewrite <- Permutation_middle.
Qed.

Lemma reverse_ge_le l : StronglySorted ge l -> StronglySorted le (reverse l).
Proof.
  induction 1 as [|x l Hs IH Hall]; [constructor|].
  rewrite reverse_cons. clear Hs.
  assert (forall y, y ∈ reverse l -> y <= x) as Hle.
  { intros y Hy. rewrite elem_of_reverse in Hy. rewrite Forall_forall in Hall.
    by apply Hall in Hy. }
  clear Hall. induction IH as [|y r Hr IHr Hy]; simpl; [by repeat constructor|].
  constructor; [apply IHr; intros z Hz; apply Hle; by right|].
  apply Forall_app. split_done. constructor; [|done]. apply Hle. left.
Qed.

Lemma insertion_sort_eq l : insertion_sort l = sort_ints l.
Proof.
  destruct (foldl_sift l [] ltac:(constructor)) as [Hs Hp].
  apply (StronglySorted_unique le).
  - apply reverse_ge_le, Sorted_StronglySorted; [|done]. intros x y z. lia.
  - apply StronglySorted_merge_sort; apply _.
  - unfold insertion_sort, sort_ints. rewrite reverse_Permutation, Hp. simpl.
    by rewrite merge_sort_Permutation.
Qed.

Lemma sort_ints_perm l1 l2 : l1 ≡ₚ l2 -> sort_ints l1 = sort_ints l2.
Proof.
  intros H. apply (StronglySorted_unique le).
  - apply StronglySorted_merge_sort; apply _.
  - apply StronglySorted_merge_sort; apply _.
  - unfold sort_ints. by rewrite !merge_sort_Permutation.
Qed.

(** The input of a step as the documentation describes it: the initial input
    for a root step, otherwise the outputs of its dependencies in index order,
    joined by "\n---\n"; the initial input again when none has an output. *)
Definition input_spec (g : depGraph) (idx : nat) (outputs : gmap nat string)
    (initialInput : string) : string :=
  match omap (fun d => outputs !! d) (sort_ints (elements (deps_of g idx))) with
  | [] => initialInput
  | parts => Join parts part_sep
  end.

Lemma resolveInput_spec (range : nat -> gset nat -> list nat) g idx outputs initialInput :
  (forall i s, range i s ≡ₚ elements s) ->
  resolveInput range g idx outputs initialInput = input_spec g idx outputs initialInput.
Proof.
  intros range_perm. unfold resolveInput, input_spec.
  rewrite insertion_sort_eq.
  rewrite <- (sort_ints_perm _ _ (range_perm idx (deps_of g idx))).
  destruct (range idx (deps_of g idx)) as [|d [|d' ds]]; [done| |done].
  cbn. by destruct (outputs !! d).
Qed.

(** the input of a DAG step is the documented function of its dependencies'
    outputs, in index order, whatever order the dependency map is ranged in. *)
Theorem resolveInput_deterministic (range : nat -> gset nat -> list nat)
    (range_perm : forall i s, range i s ≡ₚ elements s)
    (g : depGraph) (idx : nat) (outputs : gmap nat string) (initialInput : string) :
  resolveInput range g idx outputs initialInput
  = input_spec g idx outputs initialInput.
Proof. by apply resolveInput_spec. Qed.

Lemma resolveInput_deterministic_witness :
  resolveInput order_elems diamond_graph 3 {[1 := "x"; 2 := "y"]} "start"
  = "x" +:+ part_sep +:+ "y".
Proof.
  rewrite (resolveInput_deterministic order_elems order_elems_perm).
  vm_compute. reflexivity.
Defined.
