(* ===== verification/Template.v ===== *)
(** * Templates: parsing and compilation of [{{...}}] expressions
    (src/internal/workflow/expression_types.go, expression_parse.go)

    [parseTemplate] scans a string once and compiles each expression to a flat
    instruction; [compileExpr] builds the AST that the instructions replaced
    and that the reference of a jsonpath expression still uses. *)

From S2P Require Import Prelude GoStrings.
From Stdlib Require Import Ascii.

#[local] Open Scope string_scope.
#[local] Open Scope nat_scope.

(** ** Data *)

Inductive exprNode :=
  | bareNameExpr (name : string) (known : bool)
  | inputExpr (known : bool)
  | stepExpr (name : string) (known : bool)
  | varExpr (name : string) (known : bool)
  | envExpr (name : string) (known : bool)
  | fileExpr (name : string) (known : bool)
  | loopExpr (name : string) (known : bool)
  | secretExpr (name : string) (known : bool)
  | jsonpathExpr (ref : exprNode) (path : string) (known : bool)
  | unknownExpr (inner : string) (known : bool).

Definition knownPrefix (n : exprNode) : bool :=
  match n with
  | bareNameExpr _ k | inputExpr k | stepExpr _ k | varExpr _ k | envExpr _ k
  | fileExpr _ k | loopExpr _ k | secretExpr _ k | jsonpathExpr _ _ k
  | unknownExpr _ k => k
  end.

Inductive opcode :=
  | opLiteral | opInput | opStep | opVar | opEnv | opFile | opLoop | opSecret
  | opBareName | opJSONPath | opUnknown.
#[export] Instance opcode_eq_dec : EqDecision opcode.
Proof. solve_decision. Defined.

Record instruction := mkInstr {
  op : opcode;
  strArg : string;
  strArg2 : string;
  known : bool;
  fullMatch : string;
  inner : string;
  refNode : option exprNode
}.

Record compiledTemplate := mkTemplate {
  literal : string;
  hasExpr : bool;
  instrs : list instruction
}.

(** ** Compilation of one expression *)

Definition isKnownExpressionPrefix (expr : string) : bool :=
  match SplitN2 expr "." with
  | (_, None) => bool_decide (expr = "input")
  | (p, Some _) =>
      bool_decide (TrimSpace p ∈
        ["step"; "var"; "env"; "file"; "input"; "loop"; "secret"])
  end.

(** The split of [inner] at the first ".jsonpath:", when it is not at the
    start. *)
Definition jsonpath_split (inner : string) : option (string * string) :=
  match Index inner ".jsonpath:" with
  | Some (S i) =>
      Some (str_take (S i) inner,
            str_drop (S i + String.length ".jsonpath:") inner)
  | _ => None
  end.

(** The reference part is shorter than the expression, so [S (length inner)]
    rounds are enough ([compileExpr_eq] below). *)
Fixpoint compileExpr_go (fuel : nat) (inner : string) : exprNode :=
  let known := isKnownExpressionPrefix inner in
  match fuel with
  | O => unknownExpr inner known
  | S fuel' =>
      match jsonpath_split inner with
      | Some (refPart, jsonPath) =>
          jsonpathExpr (compileExpr_go fuel' refPart) jsonPath known
      | None =>
          match SplitN2 inner "." with
          | (_, None) => bareNameExpr inner known
          | (p, Some n) =>
              let prefix := TrimSpace p in
              let name := TrimSpace n in
              if decide (prefix = "input") then inputExpr known
              else if decide (prefix = "step") then stepExpr name known
              else if decide (prefix = "var") then varExpr name known
              else if decide (prefix = "env") then envExpr name known
              else if decide (prefix = "file") then fileExpr name known
              else if decide (prefix = "loop") then loopExpr name known
              else if decide (prefix = "secret") then secretExpr name known
              else unknownExpr inner known
          end
      end
  end.
Definition compileExpr (inner : string) : exprNode :=
  compileExpr_go (S (String.length inner)) inner.

(** An instruction with its operands; [fullMatch] and [inner] are filled in
    by [parseTemplate]. *)
Definition instr_of (o : opcode) (a1 a2 : string) (k : bool) (r : option exprNode)
    : instruction := mkInstr o a1 a2 k "" "" r.

Definition compileExprToInstr (inner : string) : instruction :=
  let known := isKnownExpressionPrefix inner in
  match jsonpath_split inner with
  | Some (refPart, jsonPath) =>
      instr_of opJSONPath refPart jsonPath known (Some (compileExpr refPart))
  | None =>
      match SplitN2 inner "." with
      | (_, None) => instr_of opBareName inner "" known None
      | (p, Some n) =>
          let prefix := TrimSpace p in
          let name := TrimSpace n in
          if decide (prefix = "input") then instr_of opInput "" "" known None
          else if decide (prefix = "step") then instr_of opStep name "" known None
          else if decide (prefix = "var") then instr_of opVar name "" known None
          else if decide (prefix = "env") then instr_of opEnv name "" known None
          else if decide (prefix = "file") then instr_of opFile name "" known None
          else if decide (prefix = "loop") then instr_of opLoop name "" known None
          else if decide (prefix = "secret") then instr_of opSecret name "" known None
          else instr_of opUnknown "" "" known None
      end
  end.

(** ** Scanning *)

Definition lbrace : ascii := "{"%char.
Definition rbrace : ascii := "}"%char.

(** The longest prefix without a closing brace, and the rest. *)
Fixpoint span_content (s : string) : string * string :=
  match s with
  | "" => ("", "")
  | String c s' =>
      if decide (c = rbrace) then ("", s)
      else let '(u, r) := span_content s' in (String c u, r)
  end.

(** An expression at the start of [s]: its content and the text after it. *)
Definition match_expr (s : string) : option (string * string) :=
  match s with
  | String c1 (String c2 r) =>
      if decide (c1 = lbrace /\ c2 = lbrace) then
        let '(content, rest) := span_content r in
        match content, rest with
        | String _ _, String d1 (String d2 rest') =>
            if decide (d1 = rbrace /\ d2 = rbrace) then Some (content, rest') else None
        | _, _ => None
        end
      else None
  | _ => None
  end.

Definition literal_instr (s : string) : instruction :=
  mkInstr opLiteral s "" false "" "" None.
Definition flushLit (lit : string) : list instruction :=
  if decide (lit = "") then [] else [literal_instr lit].

Definition expr_instr (content : string) : instruction :=
  let inner := TrimSpace content in
  let ins := compileExprToInstr inner in
  mkInstr (op ins) (strArg ins) (strArg2 ins) (known ins)
    ("{{" +:+ content +:+ "}}") inner (refNode ins).

(** The scanning loop; every round consumes at least one byte, so
    [length s] rounds are enough. *)
Fixpoint parse_loop (fuel : nat) (s lit : string) : list instruction :=
  match s with
  | "" => flushLit lit
  | String c s' =>
      match fuel with
      | O => flushLit (lit +:+ s)
      | S fuel' =>
          match match_expr s with
          | Some (content, rest) =>
              flushLit lit ++ expr_instr content :: parse_loop fuel' rest ""
          | None => parse_loop fuel' s' (lit +:+ String c "")
          end
      end
  end.

Definition parseTemplate (s : string) : compiledTemplate :=
  if negb (Contains s "{{") then mkTemplate s false [] else
  let code := parse_loop (String.length s) s "" in
  if existsb (fun i => bool_decide (op i <> opLiteral)) code
  then mkTemplate "" true code
  else mkTemplate s false [].

(** ** Lemmas *)

Lemma jsonpath_split_shorter inner refPart path :
  jsonpath_split inner = Some (refPart, path) ->
  inner = refPart +:+ ".jsonpath:" +:+ path /\
  String.length refPart < String.length inner.
Proof.
  unfold jsonpath_split. destruct (Index inner ".jsonpath:") as [[|i]|] eqn:E; try done.
  intros [= <- <-]. pose proof (Index_Some_eq _ _ _ E) as Heq. split; [exact Heq|].
  rewrite Heq at 2. rewrite !string_length_app. simpl. lia.
Qed.

Lemma compileExpr_go_fuel n : forall fuel inner,
  String.length inner < n -> String.length inner < fuel ->
  compileExpr_go fuel inner = compileExpr_go n inner.
Proof.
  induction n as [|n IH]; intros [|fuel] inner Hn Hf; try lia.
  cbn [compileExpr_go]. destruct (jsonpath_split inner) as [[r p]|] eqn:E; [|done].
  apply jsonpath_split_shorter in E as [_ Hlt]. rewrite (IH fuel); [done|lia|lia].
Qed.

(** The fuel is enough: [compileExpr] satisfies the source's recursion. *)
Lemma compileExpr_jsonpath inner refPart path :
  jsonpath_split inner = Some (refPart, path) ->
  compileExpr inner
  = jsonpathExpr (compileExpr refPart) path (isKnownExpressionPrefix inner).
Proof.
  intros E. unfold compileExpr. cbn [compileExpr_go]. rewrite E.
  apply jsonpath_split_shorter in E as [_ Hlt].
  by rewrite (compileExpr_go_fuel (S (String.length refPart))) by lia.
Qed.

(** No closing brace. *)
Fixpoint brace_free (s : string) : bool :=
  match s with
  | "" => true
  | String c s' => bool_decide (c <> rbrace) && brace_free s'
  end.

Lemma span_content_spec s u r :
  span_content s = (u, r) -> s = u +:+ r /\ brace_free u = true.
Proof.
  revert u r. induction s as [|c s IH]; intros u r; cbn [span_content].
  - by intros [= <- <-].
  - case_decide as Hc; [by intros [= <- <-]|].
    destruct (span_content s) as [u' r'] eqn:E. intros [= <- <-].
    destruct (IH u' r' eq_refl) as [-> Hb]. simpl.
    by rewrite Hb, bool_decide_eq_true_2.
Qed.

Lemma span_content_app content rest :
  brace_free content = true ->
  span_content (content +:+ String rbrace rest) = (content, String rbrace rest).
Proof.
  induction content as [|c content IH]; intros Hb; simpl; [done|].
  simpl in Hb. apply andb_true_iff in Hb as [Hc%bool_decide_eq_true_1 Hb].
  rewrite decide_False by done. by rewrite IH.
Qed.

(** [s] starts with "{{content}}". *)
Lemma match_expr_Some s content rest :
  match_expr s = Some (content, rest) <->
  s = "{{" +:+ content +:+ "}}" +:+ rest /\ content <> "" /\ brace_free content = true.
Proof.
  split.
  - destruct s as [|c1 [|c2 s]]; cbn [match_expr]; try done.
    case_decide as H; [|done]. destruct H as [-> ->].
    destruct (span_content s) as [u r] eqn:E.
    apply span_content_spec in E as [-> Hb].
    destruct u as [|a u]; [done|]. destruct r as [|d1 [|d2 r]]; try done.
    case_decide as H; [|done]. destruct H as [-> ->]. by intros [= <- <-].
  - intros (-> & Hne & Hb).
    change ("{{" +:+ content +:+ "}}" +:+ rest)
      with (String lbrace (String lbrace (content +:+ String rbrace (String rbrace rest)))).
    cbn [match_expr]. rewrite decide_True by done.
    rewrite span_content_app by done. destruct content as [|a content]; [done|].
    by rewrite decide_True.
Qed.

(** [match_expr] sees every match of the pattern at the start of a string. *)
Definition instr_source (i : instruction) : string :=
  if decide (op i = opLiteral) then strArg i else fullMatch i.
Definition code_source (code : list instruction) : string :=
  foldr (fun i s => instr_source i +:+ s) "" code.

Lemma expr_instr_op content : op (expr_instr content) <> opLiteral.
Proof.
  unfold expr_instr. cbn [op]. unfold compileExprToInstr.
  destruct (jsonpath_split _) as [[? ?]|]; [done|].
  destruct (SplitN2 _ _) as [p [n|]]; [|done]. by repeat case_decide.
Qed.

Lemma expr_instr_source content :
  instr_source (expr_instr content) = "{{" +:+ content +:+ "}}".
Proof. unfold instr_source. by rewrite decide_False by apply expr_instr_op. Qed.

Lemma code_source_app c1 c2 :
  code_source (c1 ++ c2) = code_source c1 +:+ code_source c2.
Proof.
  induction c1 as [|i c1 IH]; simpl; [done|]. by rewrite IH, string_app_assoc.
Qed.

Lemma flushLit_source lit : code_source (flushLit lit) = lit.
Proof. unfold flushLit. case_decide; [done|]. simpl. apply string_app_nil_r. Qed.

Lemma parse_loop_source fuel : forall s lit,
  code_source (parse_loop fuel s lit) = lit +:+ s.
Proof.
  induction fuel as [|fuel IH]; intros [|c s] lit; cbn [parse_loop];
    rewrite ?flushLit_source, ?string_app_nil_r; try done.
  destruct (match_expr (String c s)) as [[content rest]|] eqn:E.
  - apply match_expr_Some in E as (-> & _ & _).
    rewrite code_source_app, flushLit_source. f_equal.
    change (instr_source (expr_instr content) +:+ code_source (parse_loop fuel rest "")
            = "{{" +:+ content +:+ "}}" +:+ rest).
    rewrite expr_instr_source, IH. simpl. by rewrite string_app_assoc.
  - rewrite IH, string_app_assoc. done.
Qed.

(** A match of the pattern [\{\{([^}]+)\}\}] in [s]. *)
Definition pattern_matches (s : string) : Prop :=
  exists pre content post, s = pre +:+ "{{" +:+ content +:+ "}}" +:+ post /\
    content <> "" /\ brace_free content = true.

Definition is_expr (i : instruction) : bool := bool_decide (op i <> opLiteral).

Lemma existsb_flushLit lit : existsb is_expr (flushLit lit) = false.
Proof. unfold flushLit. by case_decide. Qed.

Lemma is_expr_instr content : is_expr (expr_instr content) = true.
Proof. apply bool_decide_eq_true_2, expr_instr_op. Qed.

Lemma parse_loop_expr fuel : forall s lit,
  String.length s <= fuel ->
  existsb is_expr (parse_loop fuel s lit) = true <-> pattern_matches s.
Proof.
  induction fuel as [|fuel IH]; intros [|c s] lit Hf; simpl in Hf; try lia;
    cbn [parse_loop]; rewrite ?existsb_flushLit.
  1,2: split_done; intros (pre & content & post & H & _);
    destruct pre; discriminate.
  destruct (match_expr (String c s)) as [[content rest]|] eqn:E.
  - apply match_expr_Some in E as (-> & ? & ?).
    rewrite existsb_app. cbn [existsb]. rewrite is_expr_instr, orb_true_r.
    split; [intros _|done]. by exists "", content, rest.
  - rewrite IH by lia. split.
    + intros (pre & content & post & -> & H). by exists (String c pre), content, post.
    + intros (pre & content & post & Heq & Hne & Hb). destruct pre as [|c' pre].
      * assert (match_expr (String c s) = Some (content, post)) as H; [|congruence].
        by apply match_expr_Some.
      * exists pre, content, post. by injection Heq.
Qed.

Lemma pattern_matches_contains s : pattern_matches s -> Contains s "{{" = true.
Proof.
  intros (pre & content & post & -> & _). apply Contains_app.
Qed.

Lemma parse_loop_shape fuel : forall s lit i,
  In i (parse_loop fuel s lit) ->
  (exists l, i = literal_instr l /\ l <> "") \/
  (exists content, i = expr_instr content /\ content <> "" /\ brace_free content = true).
Proof.
  assert (forall lit i, In i (flushLit lit) ->
    exists l, i = literal_instr l /\ l <> "") as Hflush.
  { intros lit i. unfold flushLit. case_decide; [done|].
    intros [<-|[]]. by exists lit. }
  induction fuel as [|fuel IH]; intros [|c s] lit i; cbn [parse_loop]; try by eauto.
  destruct (match_expr (String c s)) as [[content rest]|] eqn:E; [|apply IH].
  apply match_expr_Some in E as (_ & ? & ?). rewrite in_app_iff.
  intros [Hin|[<-|Hin]]; [by eauto|by right; exists content|by eapply IH].
Qed.

Lemma parseTemplate_cases s :
  (pattern_matches s /\
   parseTemplate s = mkTemplate "" true (parse_loop (String.length s) s "")) \/
  (~ pattern_matches s /\ parseTemplate s = mkTemplate s false []).
Proof.
  unfold parseTemplate. destruct (Contains s "{{") eqn:Ec; cbn [negb].
  2:{ right. split; [|done]. intros H%pattern_matches_contains. congruence. }
  change (existsb (fun i => bool_decide (op i <> opLiteral))) with (existsb is_expr).
  pose proof (parse_loop_expr (String.length s) s "" ltac:(lia)) as Hex.
  destruct (existsb is_expr _); [left|right]; (split; [|done]); [tauto|].
  intros H%Hex. done.
Qed.

(** [parseTemplate] loses nothing and finds every expression: the template
    has expressions exactly when the pattern [\{\{([^}]+)\}\}] occurs in the
    text; the instructions, in order, spell the text; each is a non-empty
    literal or the compiled form of a braced content without "}". *)
Theorem parseTemplate_lossless (s : string) :
  let t := parseTemplate s in
  (hasExpr t = true <-> pattern_matches s) /\
  (if hasExpr t then code_source (instrs t) = s else literal t = s) /\
  forall i, In i (instrs t) ->
    (exists l, i = literal_instr l /\ l <> "") \/
    (exists content, i = expr_instr content /\ content <> "" /\
       brace_free content = true).
Proof.
  cbv zeta. destruct (parseTemplate_cases s) as [[Hp ->]|[Hp ->]]; cbn [hasExpr instrs literal].
  - split; [tauto|]. split; [apply parse_loop_source|]. apply parse_loop_shape.
  - split; [by split|]. split_done. by intros i [].
Qed.
