(* ===== verification/TemplateCache.v ===== *)
(** * The bounded cache of compiled templates
    (templateLRU in src/internal/workflow/expression.go, compileTemplate in
    expression_parse.go)

    [lru_items] is the map from a key to its list element (the entry's value is
    kept with it), [lru_order] the keys in list order, most recently used
    first.  Each operation runs under the cache's mutex, so it is one atomic
    step. *)

From S2P Require Import Prelude GoStrings Template.

#[local] Open Scope nat_scope.

(** ** Definitions *)

Record templateLRU := mkLRU {
  lru_items : gmap string compiledTemplate;
  lru_order : list string;
  lru_cap : Z
}.

Definition templateCacheCap : Z := 10000.

Definition newTemplateLRU (cap : Z) : templateLRU :=
  mkLRU ∅ [] (if (cap <=? 0)%Z then 1%Z else cap).

(** [container/list]'s MoveToFront on the element of [key]. *)
Definition MoveToFront (key : string) (order : list string) : list string :=
  key :: filter (fun k => k <> key) order.

Definition load (key : string) (c : templateLRU)
    : option compiledTemplate * templateLRU :=
  match lru_items c !! key with
  | None => (None, c)
  | Some v =>
      (Some v, mkLRU (lru_items c) (MoveToFront key (lru_order c)) (lru_cap c))
  end.

Definition loadOrStore (key : string) (value : compiledTemplate) (c : templateLRU)
    : compiledTemplate * templateLRU :=
  match lru_items c !! key with
  | Some v => (v, mkLRU (lru_items c) (MoveToFront key (lru_order c)) (lru_cap c))
  | None =>
      let order := key :: lru_order c in
      let items := <[key := value]> (lru_items c) in
      if (lru_cap c <? Z.of_nat (length order))%Z then
        match last order with
        | Some oldest =>
            (value, mkLRU (delete oldest items) (removelast order) (lru_cap c))
        | None => (value, mkLRU items order (lru_cap c))
        end
      else (value, mkLRU items order (lru_cap c))
  end.

Definition compileTemplate (expr : string) (c : templateLRU)
    : compiledTemplate * templateLRU :=
  match load expr c with
  | (Some v, c') => (v, c')
  | (None, c') => loadOrStore expr (parseTemplate expr) c'
  end.

(** ** The invariant *)

Record lru_inv (c : templateLRU) : Prop := {
  li_nodup : NoDup (lru_order c);
  li_dom : forall k, k ∈ lru_order c <-> is_Some (lru_items c !! k);
  li_cap : (1 <= lru_cap c)%Z;
  li_bound : (Z.of_nat (length (lru_order c)) <= lru_cap c)%Z
}.

(** Every cached template is the parse of its key. *)
Definition coherent (c : templateLRU) : Prop :=
  forall k v, lru_items c !! k = Some v -> v = parseTemplate k.

Lemma newTemplateLRU_inv cap :
  lru_inv (newTemplateLRU cap) /\ coherent (newTemplateLRU cap).
Proof.
  unfold newTemplateLRU. destruct (Z.leb_spec cap 0).
  all: split; [split; simpl; try lia; [constructor|]|by intros k v].
  all: intros k; rewrite elem_of_nil, lookup_empty; by split; [|intros []].
Qed.

Lemma elem_of_MoveToFront key order k :
  key ∈ order -> k ∈ MoveToFront key order <-> k ∈ order.
Proof.
  intros Hin. unfold MoveToFront. rewrite elem_of_cons, list_elem_of_filter.
  destruct (decide (k = key)); naive_solver.
Qed.

Lemma length_MoveToFront key order :
  NoDup order -> key ∈ order -> length (MoveToFront key order) = length order.
Proof.
  intros Hnd Hin. apply Permutation_length, NoDup_Permutation.
  - constructor; [|by apply NoDup_filter]. rewrite list_elem_of_filter. tauto.
  - done.
  - intros k. by apply elem_of_MoveToFront.
Qed.

Lemma move_inv c key :
  lru_inv c -> is_Some (lru_items c !! key) ->
  lru_inv (mkLRU (lru_items c) (MoveToFront key (lru_order c)) (lru_cap c)).
Proof.
  intros [Hnd Hdom Hcap Hb] Hk. apply Hdom in Hk as Hin. split; cbn [lru_order lru_items lru_cap].
  - constructor; [|by apply NoDup_filter]. rewrite list_elem_of_filter. tauto.
  - intros k. rewrite <- Hdom. by apply elem_of_MoveToFront.
  - done.
  - by rewrite length_MoveToFront.
Qed.

Lemma last_removelast {A} (x : A) l :
  exists y, last (x :: l) = Some y /\ x :: l = removelast (x :: l) ++ [y].
Proof.
  revert x. induction l as [|z l IH]; intros x; [by exists x|].
  destruct (IH z) as (y & Hl & He). exists y. split_done.
  change (x :: z :: l = x :: (removelast (z :: l) ++ [y])). by f_equal.
Qed.

Lemma filter_all {A} (P : A -> Prop) `{!forall x, Decision (P x)} (l : list A) :
  (forall x, x ∈ l -> P x) -> filter P l = l.
Proof.
  induction l as [|x l IH]; intros Hall; [done|]. rewrite filter_cons_True by (apply Hall; left).
  f_equal. apply IH. intros y Hy. apply Hall. by right.
Qed.

Lemma load_inv c key : lru_inv c -> lru_inv (load key c).2.
Proof.
  intros Hinv. unfold load. destruct (lru_items c !! key) eqn:E; [|done].
  by apply move_inv.
Qed.

(** Storing a fresh key: it is the most recent one, and when the cache was
    full exactly the least recently used key leaves. *)
Lemma store_fresh c key value :
  lru_inv c -> lru_items c !! key = None ->
  let r := loadOrStore key value c in
  r.1 = value /\ lru_inv r.2 /\
  lru_order r.2 = take (Z.to_nat (lru_cap c)) (key :: lru_order c) /\
  (forall k v, lru_items r.2 !! k = Some v ->
     (k = key /\ v = value) \/ lru_items c !! k = Some v).
Proof.
  intros [Hnd Hdom Hcap Hb] Hnone. unfold loadOrStore. rewrite Hnone.
  assert (key ∉ lru_order c) as Hnin.
  { rewrite Hdom, Hnone. by intros []. }
  destruct (last_removelast key (lru_order c)) as (oldest & Hlast & Heq).
  assert (NoDup (key :: lru_order c)) as Hnd' by (by constructor).
  destruct (Z.ltb_spec (lru_cap c) (Z.of_nat (length (key :: lru_order c)))) as [Hlt|Hge].
  - rewrite Hlast. cbn [fst snd lru_items lru_order lru_cap].
    remember (removelast (key :: lru_order c)) as ro eqn:Er.
    assert (length ro = length (lru_order c)) as Hlen.
    { apply (f_equal length) in Heq. rewrite length_app in Heq. simpl in Heq. lia. }
    rewrite Heq in Hnd'. apply NoDup_app in Hnd' as (Hndr & Hdisj & _).
    split_done. split; [|split].
    + split; simpl; [done| |done|simpl in Hlt; lia].
      intros k. destruct (decide (k = oldest)) as [->|Hne].
      * rewrite lookup_delete_eq. split; [|by intros []].
        intros Hin. destruct (Hdisj oldest Hin). left.
      * rewrite lookup_delete_ne by done.
        transitivity (k ∈ key :: lru_order c).
        { rewrite Heq, elem_of_app, list_elem_of_singleton. naive_solver. }
        rewrite elem_of_cons, Hdom. destruct (decide (key = k)) as [->|Hk].
        -- rewrite lookup_insert_eq. naive_solver.
        -- rewrite lookup_insert_ne by done. naive_solver.
    + rewrite Heq, take_app_length'; [done|]. simpl in Hlt. lia.
    + intros k v H. apply lookup_delete_Some in H as [_ H].
      apply lookup_insert_Some in H. naive_solver.
  - cbn [fst snd lru_items lru_order lru_cap]. split_done. split; [|split].
    + split; simpl; [done| |done|done].
      intros k. rewrite elem_of_cons, Hdom. destruct (decide (key = k)) as [->|Hk].
      * rewrite lookup_insert_eq. naive_solver.
      * rewrite lookup_insert_ne by done. naive_solver.
    + rewrite take_ge; [done|]. simpl in *. lia.
    + intros k v H. apply lookup_insert_Some in H. naive_solver.
Qed.

Lemma compileTemplate_spec (expr : string) (c : templateLRU) :
  lru_inv c -> coherent c ->
  let r := compileTemplate expr c in
  r.1 = parseTemplate expr /\ lru_inv r.2 /\ coherent r.2 /\
  lru_order r.2 =
    take (Z.to_nat (lru_cap c)) (expr :: filter (fun k => k <> expr) (lru_order c)).
Proof.
  intros Hinv Hcoh. unfold compileTemplate, load.
  destruct (lru_items c !! expr) as [v|] eqn:E.
  - cbn [fst snd]. split; [by apply Hcoh|]. split; [by apply move_inv|].
    split_done. cbn [lru_order]. symmetry. apply take_ge.
    destruct Hinv as [Hnd Hdom Hcap Hb].
    change (expr :: filter _ _) with (MoveToFront expr (lru_order c)).
    rewrite length_MoveToFront; [lia|done|]. apply Hdom. by eexists.
  - destruct (store_fresh c expr (parseTemplate expr) Hinv E) as (H1 & H2 & H3 & H4).
    split_done. split_done. split.
    + intros k v Hk. destruct (H4 k v Hk) as [[-> ->]|H]; [done|by apply Hcoh].
    + rewrite H3. do 2 f_equal. symmetry. apply filter_all.
      intros k Hk ->. apply (li_dom _ Hinv) in Hk. rewrite E in Hk. by destruct Hk.
Qed.

(** the template cache is bounded and transparent: from any reachable
    cache, [compileTemplate] returns exactly [parseTemplate] of its argument,
    keeps the invariant (no duplicate keys, list and map agree, at most [cap]
    entries), puts the key first, and evicts only the least recently used key,
    only when the cache is full. *)
Theorem compileTemplate_transparent (expr : string) (c : templateLRU) :
  lru_inv c -> coherent c ->
  let r := compileTemplate expr c in
  r.1 = parseTemplate expr /\ lru_inv r.2 /\ coherent r.2 /\
  lru_order r.2 =
    take (Z.to_nat (lru_cap c)) (expr :: filter (fun k => k <> expr) (lru_order c)).
Proof. apply compileTemplate_spec. Qed.

(** A cache for two templates, after three: the first was evicted. *)
Definition small_cache : templateLRU :=
  (compileTemplate "c" (compileTemplate "b"
    (compileTemplate "a" (newTemplateLRU 2)).2).2).2.

Lemma compileTemplate_transparent_witness :
  lru_order small_cache = ["c"; "b"] /\
  (compileTemplate "x{{var.a}}" (newTemplateLRU 2)).1 = parseTemplate "x{{var.a}}".
Proof.
  split; [vm_compute; reflexivity|].
  exact (proj1 (compileTemplate_transparent "x{{var.a}}" (newTemplateLRU 2)
    (proj1 (newTemplateLRU_inv 2)) (proj2 (newTemplateLRU_inv 2)))).
Defined.
