(* ===== verification/JsonPath.v ===== *)
(** * JSONPath extraction (src/internal/workflow/expression_eval.go)

    A decoded JSON document is a [json]; an object is the list of its fields
    in the order in which Go ranges over the decoded map (unspecified, so the
    theorems hold for every order).  Decoding, encoding and the decimal form
    of a non-integral number ([encoding/json], [strconv.FormatFloat]) are the
    operations of [json_codec]. *)

From S2P Require Import Prelude GoStrings GoTime.
From Stdlib Require Import Ascii SpecFloat.

#[local] Open Scope string_scope.
#[local] Open Scope nat_scope.

(** ** Data *)

Unset Elimination Schemes.
Inductive json :=
  | JNull
  | JBool (b : bool)
  | JNum (f : float64)
  | JStr (s : string)
  | JArr (l : list json)
  | JObj (l : list (string * json)).
Set Elimination Schemes.

Record json_codec := mkCodec {
  json_Unmarshal : string -> result json;
  json_Marshal : json -> result string;
  FormatFloat : float64 -> string
}.

Inductive segment :=
  | SField (name : string)
  | SIndex (n : Z)
  | SWild.

Definition maxExprFileSize : Z := (10 * 1024 * 1024)%Z.
Definition maxJSONPathDepth : nat := 10.
Definition maxRecursiveDepth : nat := 1000.

(** ** Path segments *)

Definition dot : ascii := "."%char.
Definition lbracket : ascii := "["%char.
Definition rbracket : ascii := "]"%char.

(** Split before the first byte that satisfies [stop]. *)
Fixpoint span_until (stop : ascii -> bool) (s : string) : string * string :=
  match s with
  | "" => ("", "")
  | String c s' =>
      if stop c then ("", s)
      else let '(u, r) := span_until stop s' in (String c u, r)
  end.

Definition is_dot_or_lbracket (c : ascii) : bool :=
  bool_decide (c = dot) || bool_decide (c = lbracket).
Definition is_rbracket (c : ascii) : bool := bool_decide (c = rbracket).

Definition skip_byte (c : ascii) (s : string) : string :=
  match s with
  | String c' s' => if decide (c' = c) then s' else s
  | "" => s
  end.

(** The loop over the bracket expressions at the start of [s]. *)
Fixpoint read_brackets (fuel : nat) (s : string) : result (list segment * string) :=
  match s with
  | String c s1 =>
      if decide (c = lbracket) then
        match fuel with
        | O => Ok ([], s)
        | S fuel' =>
            let wild := match s1 with
                        | String c1 _ => bool_decide (c1 = "*"%char)
                        | "" => false
                        end in
            if wild then
              match read_brackets fuel' (skip_byte rbracket (str_drop 1 s1)) with
              | Ok (segs, rest) => Ok (SWild :: segs, rest)
              | Err e => Err e
              end
            else
              let '(numStr, r) := span_until is_rbracket s1 in
              let r' := skip_byte rbracket r in
              if decide (numStr = "") then Err "empty array index in path" else
              match Atoi numStr with
              | None => Err ("invalid array index '" +:+ numStr +:+ "' in path")
              | Some n =>
                  match read_brackets fuel' r' with
                  | Ok (segs, rest) => Ok (SIndex n :: segs, rest)
                  | Err e => Err e
                  end
              end
        end
      else Ok ([], s)
  | "" => Ok ([], s)
  end.

(** One round reads a field name, brackets and a dot, at least one byte. *)
Fixpoint parse_segments (fuel : nat) (path : string) : result (list segment) :=
  match path with
  | "" => Ok []
  | _ =>
      match fuel with
      | O => Ok []
      | S fuel' =>
          let '(name, r) := span_until is_dot_or_lbracket path in
          let field := if decide (name = "") then [] else [SField name] in
          match read_brackets (String.length r) r with
          | Err e => Err e
          | Ok (brackets, rest) =>
              match parse_segments fuel' (skip_byte dot rest) with
              | Ok segs => Ok (field ++ brackets ++ segs)%list
              | Err e => Err e
              end
          end
      end
  end.
Definition parsePathSegments (path : string) : result (list segment) :=
  parse_segments (String.length path) path.

(** ** Navigation *)

Definition obj_get (l : list (string * json)) (k : string) : option json :=
  snd <$> find (fun kv => bool_decide (kv.1 = k)) l.

Fixpoint walk (field : string) (v : json) (d : nat) : list json :=
  if maxRecursiveDepth <? d then [] else
  match v with
  | JObj l =>
      (match obj_get l field with Some fv => [fv] | None => [] end) ++
      flat_map (fun kv => walk field kv.2 (S d)) l
  | JArr l => flat_map (fun x => walk field x (S d)) l
  | _ => []
  end.
Definition recursiveFind (data : json) (field : string) (depth : nat) : list json :=
  if maxRecursiveDepth <? depth then [] else walk field data depth.

Fixpoint follow (current : json) (segs : list segment) : result json :=
  match segs with
  | [] => Ok current
  | SField s :: rest =>
      match current with
      | JObj m =>
          match obj_get m s with
          | Some v => follow v rest
          | None => Err ("field '" +:+ s +:+ "' not found")
          end
      | _ => Err ("cannot access field '" +:+ s +:+ "' on non-object")
      end
  | SIndex n :: rest =>
      match current with
      | JArr arr =>
          if ((n <? 0) || (Z.of_nat (length arr) <=? n))%Z
          then Err ("array index " +:+ Itoa n +:+ " out of bounds (len "
                      +:+ Itoa (Z.of_nat (length arr)) +:+ ")")
          else match arr !! Z.to_nat n with
               | Some v => follow v rest
               | None => Err ""
               end
      | _ => Err "cannot index non-array"
      end
  | SWild :: _ =>
      match current with
      | JArr arr => Ok (JArr arr)
      | _ => Err "cannot wildcard non-array"
      end
  end.

(** The successful values of a list of results. *)
Definition successes (l : list (result json)) : list json :=
  omap (fun r => match r with Ok v => Some v | Err _ => None end) l.

(** [fuel] counts down from [maxJSONPathDepth + 1] as [depth] counts up, so
    running out of it is the source's depth check. *)
Fixpoint evalJSONPathDepth (fuel : nat) (data : json) (path : string) (depth : nat)
    : result json :=
  match fuel with
  | O => Err "jsonpath recursion depth exceeded"
  | S fuel' =>
      if decide (path = "$" \/ path = "") then Ok data else
      if HasPrefix path "$.." then
        if 2 <=? depth then Err "multiple recursive descent segments not supported" else
        let field := TrimPrefix path "$.." in
        let '(name, rest) := span_until is_dot_or_lbracket field in
        let results := recursiveFind data name 0 in
        match rest with
        | String _ _ =>
            match results with
            | [] => Err ("recursive descent found no matches for '" +:+ name +:+ "'")
            | [r] => evalJSONPathDepth fuel' r ("$" +:+ rest) (S depth)
            | _ => Ok (JArr (successes
                     (map (fun r => evalJSONPathDepth fuel' r ("$" +:+ rest) (S depth))
                        results)))
            end
        | "" =>
            match results with
            | [] => Err ("recursive descent found no matches for '" +:+ name +:+ "'")
            | [r] => Ok r
            | _ => Ok (JArr results)
            end
        end
      else
        let path := TrimPrefix path "$." in
        if decide (path = "") then Ok data else
        match parsePathSegments path with
        | Ok segs => follow data segs
        | Err e => Err e
        end
  end.

Definition evalJSONPath (data : json) (path : string) : result json :=
  evalJSONPathDepth (S maxJSONPathDepth) data path 0.

(** ** Results as text *)

(** [int64(v)]; out of range the conversion is implementation-specific, the
    minimum on amd64. *)
Definition f64_to_int64 (f : float64) : Z :=
  match f with
  | S754_finite _ _ _ | S754_zero _ =>
      let z := f64_trunc f in if in_int64 z then z else int64_min
  | _ => int64_min
  end.

Section text.
Context (codec : json_codec).

Fixpoint jsonPathResultToString (v : json) : result string :=
  match v with
  | JStr s => Ok s
  | JNum f =>
      if SFeqb f (f64_of_Z (f64_to_int64 f))
      then Ok (Itoa (f64_to_int64 f)) else Ok (FormatFloat codec f)
  | JBool b => Ok (if b then "true" else "false")
  | JNull => Ok ""
  | JArr l =>
      Ok (Join (map (fun item => match jsonPathResultToString item with
                                 | Ok s => s | Err _ => "" end) l) newline)
  | JObj _ =>
      wrap_err "failed to marshal jsonpath result: " (json_Marshal codec v)
  end.

Definition extractJSONPath (jsonStr path0 : string) : result string :=
  let path := TrimSpace path0 in
  if decide (path = "" \/ path = "$") then Ok jsonStr else
  if (maxExprFileSize <? Z.of_nat (String.length jsonStr))%Z then
    Err ("JSON input too large for jsonpath (max "
           +:+ Itoa maxExprFileSize +:+ " bytes)") else
  if 1024 <? String.length path then
    Err "jsonpath too long (max 1024 chars)" else
  match wrap_err "invalid JSON for jsonpath: " (json_Unmarshal codec jsonStr) with
  | Err e => Err e
  | Ok data =>
      match evalJSONPath data path with
      | Err e => Err e
      | Ok r => jsonPathResultToString r
      end
  end.
End text.

(** ** Paths as text *)

Definition segment_text (g : segment) : string :=
  match g with
  | SField name => "." +:+ name
  | SIndex n => "[" +:+ Itoa n +:+ "]"
  | SWild => "[*]"
  end.
Definition path_text (segs : list segment) : string :=
  fold_right (fun g s => segment_text g +:+ s) "" segs.

Fixpoint string_forall (p : ascii -> bool) (s : string) : bool :=
  match s with
  | "" => true
  | String c s' => p c && string_forall p s'
  end.
Definition plain_name : string -> bool :=
  string_forall (fun c => negb (is_dot_or_lbracket c)).

(** A field name that needs no quoting; an index that fits an [int]. *)
Definition segment_ok (g : segment) : Prop :=
  match g with
  | SField name => name <> "" /\ plain_name name = true
  | SIndex n => in_int64 n = true
  | SWild => True
  end.

Definition starts_plain (s : string) : Prop :=
  match s with "" => True | String c _ => is_dot_or_lbracket c = true end.

Lemma span_until_app stop u r :
  string_forall (fun c => negb (stop c)) u = true ->
  match r with "" => True | String c _ => stop c = true end ->
  span_until stop (u +:+ r) = (u, r).
Proof.
  intros Hu Hr. induction u as [|c u IH]; simpl in *.
  - destruct r as [|c r]; [done|]. simpl. by rewrite Hr.
  - apply andb_true_iff in Hu as [Hc%negb_true_iff Hu]. by rewrite Hc, IH.
Qed.

Lemma path_text_starts segs : starts_plain (path_text segs).
Proof. by destruct segs as [|[]]. Qed.

Lemma string_forall_impl (p q : ascii -> bool) s :
  (forall c, p c = true -> q c = true) -> string_forall p s = true -> string_forall q s = true.
Proof.
  intros Hpq. induction s as [|c s IH]; [done|]. simpl.
  intros [Hc Hs]%andb_true_iff. by rewrite (Hpq c), IH.
Qed.

Definition is_digit (c : ascii) : bool :=
  match digit_val c with Some _ => true | None => false end.

Lemma parse_digits_forall acc s n :
  parse_digits acc s = Some n -> string_forall is_digit s = true.
Proof.
  revert acc. induction s as [|c s IH]; intros acc; [done|]. simpl. unfold is_digit.
  destruct (digit_val c); [|done]. apply IH.
Qed.

Definition number_byte (c : ascii) : bool :=
  is_digit c || bool_decide (c = "-"%char) || bool_decide (c = "+"%char).

Lemma Atoi_bytes s z :
  Atoi s = Some z -> s <> "" /\ string_forall number_byte s = true.
Proof.
  unfold Atoi. destruct s as [|c s]; [done|].
  assert (forall n t, parse_digits 0 t = Some n -> string_forall number_byte t = true) as Hd.
  { intros n t Ht%parse_digits_forall. revert Ht. apply string_forall_impl.
    unfold number_byte. by intros c' ->. }
  intros H. split_done. repeat case_decide; subst; simplify_option_eq; eauto.
  by apply (Hd H2 (String c s)).
Qed.

Lemma number_byte_plain c : number_byte c = true -> negb (is_rbracket c) = true.
Proof. destruct c as [[] [] [] [] [] [] [] []]; by vm_compute. Qed.

Definition is_bracket (g : segment) : bool :=
  match g with SField _ => false | _ => true end.

(** Bracket expressions are read back, up to the first other byte. *)
Lemma read_brackets_text bs r fuel :
  Forall segment_ok bs -> forallb is_bracket bs = true ->
  match r with "" => True | String c _ => c <> lbracket end ->
  length bs <= fuel ->
  read_brackets fuel (path_text bs +:+ r) = Ok (bs, r).
Proof.
  intros Hok. revert fuel. induction Hok as [|g bs Hg Hbs IH]; intros fuel Hb Hr Hf.
  - destruct r as [|c r]; [by destruct fuel|].
    destruct fuel; cbn; by rewrite decide_False.
  - cbn [forallb] in Hb. apply andb_true_iff in Hb as [Hg' Hb].
    destruct fuel as [|fuel]; [simpl in Hf; lia|]. simpl in Hf.
    specialize (IH fuel Hb Hr ltac:(lia)).
    destruct g as [|n|]; [done| |].
    + destruct (Atoi_bytes (Itoa n) n) as [Hne Hall]; [by apply Atoi_Itoa|].
      assert (span_until is_rbracket (Itoa n +:+ "]" +:+ path_text bs +:+ r)
              = (Itoa n, "]" +:+ path_text bs +:+ r)) as Hspan.
      { apply span_until_app; [|done]. revert Hall.
        apply string_forall_impl, number_byte_plain. }
      cbn [path_text fold_right segment_text]. fold (path_text bs).
      rewrite !string_app_assoc. cbn [read_brackets String.append].
      rewrite decide_True by done.
      assert (match Itoa n +:+ "]" +:+ path_text bs +:+ r with
              | "" => false | String c1 _ => bool_decide (c1 = "*"%char) end = false) as Hw.
      { destruct (Itoa n) as [|c s]; [done|]. simpl in *.
        apply andb_true_iff in Hall as [Hc _].
        apply bool_decide_eq_false_2. by intros ->. }
      cbn [String.append] in Hw, Hspan. rewrite Hw, Hspan, decide_False by done.
      rewrite Atoi_Itoa by done. cbn [skip_byte]. rewrite decide_True by done. by rewrite IH.
    + change (path_text (SWild :: bs) +:+ r) with ("[*]" +:+ (path_text bs +:+ r)).
      cbn [String.append read_brackets]. rewrite decide_True by done.
      rewrite bool_decide_eq_true_2 by done. cbn [str_drop skip_byte].
      rewrite decide_True by done. by rewrite IH.
Qed.

(** The leading brackets of a path and the rest, which starts with a field. *)
Lemma split_brackets segs :
  Forall segment_ok segs ->
  exists bs segs', segs = (bs ++ segs')%list /\ forallb is_bracket bs = true /\
    Forall segment_ok bs /\ length bs <= String.length (path_text segs) /\
    (segs' = [] \/ exists name segs'', segs' = SField name :: segs'' /\
       name <> "" /\ plain_name name = true /\ Forall segment_ok segs'' /\
       String.length (name +:+ path_text segs'') < String.length (path_text segs)).
Proof.
  induction 1 as [|g segs Hg Hsegs IH].
  - exists [], []. repeat split; auto.
  - destruct IH as (bs & segs' & -> & Hb & Hbs & Hlen & Hrest).
    destruct (is_bracket g) eqn:Eg.
    + assert (1 <= String.length (segment_text g)) by (destruct g; simpl; lia).
      exists (g :: bs), segs'. cbn [forallb path_text fold_right app length].
      rewrite Eg, string_length_app. fold (path_text (bs ++ segs')).
      split_and!; auto; try lia.
      destruct Hrest as [->|(name & segs'' & -> & H1 & H2 & H3 & H4)]; [auto|].
      right. exists name, segs''. split_and!; auto. lia.
    + destruct g as [name| |]; try done. destruct Hg as [Hne Hn].
      exists [], (SField name :: bs ++ segs')%list. split_and!; auto; try (simpl; lia).
      right. exists name, (bs ++ segs')%list. split_and!; auto.
Qed.

Definition field_seg (name : string) : list segment :=
  if decide (name = "") then [] else [SField name].

Lemma path_text_app l1 l2 : path_text (l1 ++ l2) = path_text l1 +:+ path_text l2.
Proof.
  induction l1 as [|g l1 IH]; [done|]. cbn. fold (path_text (l1 ++ l2)).
  fold (path_text l1). by rewrite IH, string_app_assoc.
Qed.

Lemma parse_segments_text fuel : forall name segs,
  plain_name name = true -> Forall segment_ok segs ->
  String.length (name +:+ path_text segs) <= fuel ->
  parse_segments fuel (name +:+ path_text segs) = Ok (field_seg name ++ segs)%list.
Proof.
  induction fuel as [|fuel IH]; intros name segs Hn Hok Hf.
  - destruct name; [|simpl in Hf; lia]. destruct segs as [|[]]; simpl in Hf; [done|lia..].
  - assert (span_until is_dot_or_lbracket (name +:+ path_text segs) = (name, path_text segs))
      as Hspan by (apply span_until_app; [done|apply path_text_starts]).
    rewrite string_length_app in Hf.
    destruct (split_brackets segs Hok) as (bs & segs' & -> & Hb & Hbs & Hlen & Hrest).
    assert (read_brackets (String.length (path_text (bs ++ segs'))) (path_text (bs ++ segs'))
            = Ok (bs, path_text segs')) as Hread.
    { rewrite path_text_app at 2. apply read_brackets_text; auto.
      by destruct Hrest as [->|(name' & segs'' & -> & _)]. }
    destruct (name +:+ path_text (bs ++ segs')) as [|c p] eqn:Ep.
    { destruct name; [|done]. cbn [String.append] in Ep.
      rewrite Ep in Hread. injection Hread as <- Hs.
      destruct Hrest as [->|(name' & segs'' & -> & _)]; done. }
    cbn [parse_segments]. rewrite Hspan, Hread. fold (field_seg name).
    destruct Hrest as [->|(name' & segs'' & -> & Hne & Hn' & Hok' & Hlt)].
    + by destruct fuel; cbn; rewrite ?app_nil_r.
    + change (path_text (SField name' :: segs''))
        with (String "."%char name' +:+ path_text segs'').
      cbn [String.append skip_byte]. rewrite decide_True by done.
      rewrite IH by (auto; lia). unfold field_seg at 2. by rewrite decide_False.
Qed.

(** ** Properties *)

(** The textual form of a path is read back exactly: for segments
    that start with a field, and whose field names contain no dot or bracket
    and whose indices fit an [int], evaluating the path "$.f[0]..." visits the
    document field by field and index by index, for every document. *)
Theorem evalJSONPath_follows data name segs :
  segment_ok (SField name) -> Forall segment_ok segs ->
  evalJSONPath data ("$" +:+ path_text (SField name :: segs))
  = follow data (SField name :: segs).
Proof.
  intros [Hne Hn] Hok.
  change ("$" +:+ path_text (SField name :: segs)) with ("$." +:+ (name +:+ path_text segs)).
  unfold evalJSONPath. cbn [evalJSONPathDepth]. rewrite decide_False by (by intros []).
  assert (HasPrefix ("$." +:+ (name +:+ path_text segs)) "$.." = false) as ->.
  { destruct name as [|c name]; [done|]. cbn [String.append]. rewrite !HasPrefix_cons.
    cbn in Hn. apply andb_true_iff in Hn as [Hc _].
    rewrite (bool_decide_eq_false_2 ("."%char = c)); [by rewrite ?andb_false_r|].
    by intros <-. }
  rewrite TrimPrefix_app.
  rewrite decide_False by (by destruct name). unfold parsePathSegments.
  rewrite parse_segments_text by auto. unfold field_seg. by rewrite decide_False.
Qed.

Lemma evalJSONPath_follows_witness :
  evalJSONPath (JObj [("a", JArr [JStr "x"; JObj [("b", JBool true)]])])
    ("$" +:+ path_text [SField "a"; SIndex 1; SField "b"]) = Ok (JBool true).
Proof.
  rewrite evalJSONPath_follows; [done|done|]. repeat constructor; done.
Defined.

(** [occurs field v k x]: following [k] object or array edges down from [v]
    reaches an object whose field [field] holds [x]. *)
Inductive occurs (field : string) : json -> nat -> json -> Prop :=
  | occurs_here l x : obj_get l field = Some x -> occurs field (JObj l) 0 x
  | occurs_obj l key v k x : (key, v) ∈ l -> occurs field v k x -> occurs field (JObj l) (S k) x
  | occurs_arr l v k x : v ∈ l -> occurs field v k x -> occurs field (JArr l) (S k) x.

Lemma json_nested_ind (P : json -> Prop) :
  P JNull -> (forall b, P (JBool b)) -> (forall f, P (JNum f)) -> (forall s, P (JStr s)) ->
  (forall l, Forall P l -> P (JArr l)) -> (forall l, Forall (fun kv => P kv.2) l -> P (JObj l)) ->
  forall v, P v.
Proof.
  intros Hn Hb Hf Hs Ha Ho. fix IH 1. intros [|b|f|t|l|l].
  1-4: auto.
  - apply Ha. induction l as [|v l IHl]; constructor; [apply IH|apply IHl].
  - apply Ho. induction l as [|[k v] l IHl]; constructor; [apply IH|apply IHl].
Qed.

Lemma walk_over field v d : maxRecursiveDepth < d -> walk field v d = [].
Proof. intros H%Nat.ltb_lt. destruct v; cbn [walk]; by rewrite H. Qed.

Lemma walk_spec field v : forall d x,
  x ∈ walk field v d <-> exists k, occurs field v k x /\ d + k <= maxRecursiveDepth.
Proof.
  induction v as [| | | |l IH|l IH] using json_nested_ind; intros d x; cbn [walk];
    destruct (Nat.ltb_spec maxRecursiveDepth d) as [Ed|Ed];
    try (split; [by intros H%elem_of_nil|intros (k & H & _); inversion H]; fail).
  all: try (split; [by intros H%elem_of_nil|intros (k & _ & H); lia]).
  - rewrite list_elem_of_In, in_flat_map. rewrite Forall_forall in IH. split.
    + intros (v & Hv%list_elem_of_In & Hx%list_elem_of_In).
      apply IH in Hx as (k & Hk & Hle); [|done].
      exists (S k). split; [by eapply occurs_arr|lia].
    + intros (k & Hk & Hle). inversion Hk as [| |? v k' ? Hv Hk']; subst.
      exists v. rewrite <- !list_elem_of_In. split_done.
      apply IH; [done|]. exists k'. split; [done|lia].
  - rewrite elem_of_app, (list_elem_of_In (flat_map _ _)), in_flat_map.
    rewrite Forall_forall in IH. split.
    + intros [Hx|([key v] & Hv%list_elem_of_In & Hx%list_elem_of_In)].
      * exists 0. split; [|lia]. constructor. destruct (obj_get l field); set_solver.
      * apply (IH (key, v) Hv) in Hx as (k & Hk & Hle).
        exists (S k). split; [by eapply occurs_obj|lia].
    + intros (k & Hk & Hle). inversion Hk as [? ? Hg|? key v k' ? Hv Hk'|]; subst.
      * left. rewrite Hg. set_solver.
      * right. exists (key, v). rewrite <- !list_elem_of_In. split_done.
        apply (IH (key, v) Hv). exists k'. split; [done|lia].
Qed.

(** Recursive descent is sound and complete up to its depth limit: the
    values [recursiveFind] returns for a field are exactly those the field
    holds in some object at most [maxRecursiveDepth] levels below the root. *)
Theorem recursiveFind_spec data field x :
  x ∈ recursiveFind data field 0 <->
  exists k, occurs field data k x /\ k <= maxRecursiveDepth.
Proof. apply (walk_spec field data 0 x). Qed.

Lemma root_index_fails l n fuel depth :
  in_int64 n = true ->
  evalJSONPathDepth (S fuel) (JArr l) ("$" +:+ path_text [SIndex n]) depth
  = Err "cannot access field '$' on non-object".
Proof.
  intros Hi.
  assert (parsePathSegments ("$" +:+ path_text [SIndex n]) = Ok [SField "$"; SIndex n]) as Hp
    by (apply (parse_segments_text _ "$"); auto).
  assert (exists r, "$" +:+ path_text [SIndex n] = String "$"%char (String "["%char r))
    as [r Hr] by (by eexists).
  rewrite Hr in Hp |- *. cbn [evalJSONPathDepth]. rewrite decide_False by (by intros []).
  unfold TrimPrefix. rewrite !HasPrefix_cons.
  change (bool_decide ("."%char = "["%char)) with false. rewrite !andb_false_l, !andb_false_r.
  rewrite decide_False by done. by rewrite Hp.
Qed.

(** An index directly after a recursive descent is never applied: for
    "$..name[n]" the rest "[n]" is read again with the root marker in front,
    "$[n]", whose marker is then looked up as a field, so the expression
    fails even when the one match is an array that has the index. *)
Theorem descent_index_fails data name l n :
  plain_name name = true -> in_int64 n = true -> recursiveFind data name 0 = [JArr l] ->
  evalJSONPath data ("$.." +:+ (name +:+ path_text [SIndex n]))
  = Err "cannot access field '$' on non-object".
Proof.
  intros Hn Hi Hf. unfold evalJSONPath. change maxJSONPathDepth with (S 9). generalize 9 as fuel. intros fuel.
  cbn [evalJSONPathDepth]. rewrite decide_False by (by intros []).
  rewrite HasPrefix_app, TrimPrefix_app. cbn [Nat.leb].
  rewrite span_until_app by done. rewrite Hf.
  change (path_text [SIndex n]) with (String "["%char ((Itoa n +:+ "]") +:+ "")).
  by apply (root_index_fails l n fuel 1).
Qed.

Lemma descent_index_fails_witness :
  evalJSONPath (JObj [("a", JObj [("b", JArr [JStr "x"])])]) "$..b[0]"
  = Err "cannot access field '$' on non-object".
Proof.
  apply (descent_index_fails _ "b" [JStr "x"] 0); vm_compute; reflexivity.
Defined.
