(* ===== verification/GoPath.v ===== *)
(** * Go's path/filepath on Unix, as far as file expressions use it

    A path is a string; [clean_elems] are the elements of its lexically
    shortest equivalent ([filepath.Clean]), and [IsAbs] tells whether it is
    rooted. *)

From S2P Require Import Prelude GoStrings.
From Stdlib Require Import Ascii.

#[local] Open Scope string_scope.
#[local] Open Scope nat_scope.

Definition IsAbs (p : string) : bool := HasPrefix p "/".

(** One element applied to the elements before it, the last one first: empty
    elements and "." vanish, ".." removes the element before it, is dropped at
    the root and is kept at the start of a relative path. *)
Definition clean_step (rooted : bool) (st : list string) (el : string) : list string :=
  if decide (el = "" \/ el = ".") then st
  else if decide (el = "..") then
    match st with
    | [] => if rooted then [] else [".."]
    | d :: st' => if decide (d = "..") then ".." :: st else st'
    end
  else el :: st.
Definition clean_elems (p : string) : list string :=
  reverse (fold_left (clean_step (IsAbs p)) (Split p "/") []).

Definition Clean (p : string) : string :=
  let body := Join (clean_elems p) "/" in
  if IsAbs p then "/" +:+ body else if decide (body = "") then "." else body.

(** [filepath.Join] of two non-empty elements. *)
Definition JoinPath (dir name : string) : string := Clean (dir +:+ "/" +:+ name).

(** [filepath.Abs]; [wd] is what [os.Getwd] answers. *)
Definition Abs (wd : result string) (p : string) : result string :=
  if IsAbs p then Ok (Clean p) else d ← wd; Ok (JoinPath d p).

Fixpoint strip_common (b t : list string) : list string * list string :=
  match b, t with
  | x :: b', y :: t' => if decide (x = y) then strip_common b' t' else (b, t)
  | _, _ => (b, t)
  end.

(** [filepath.Rel]. *)
Definition Rel (base targ : string) : result string :=
  let fail := Err ("Rel: can't make " +:+ targ +:+ " relative to " +:+ base) in
  let be := clean_elems base in
  let te := clean_elems targ in
  if negb (Bool.eqb (IsAbs base) (IsAbs targ)) then fail else
  if decide (be = te) then Ok "." else
  let te := if decide (te = []) then (if IsAbs targ then [] else ["."]) else te in
  let '(b, t) := strip_common be te in
  match b, t with
  | [], _ => Ok (Join t "/")
  | up :: _, _ :: _ =>
      if decide (up = "..") then fail else Ok (Join (map (fun _ => "..") b ++ t)%list "/")
  | _, [] => Ok (Join (map (fun _ => "..") b) "/")
  end.

(** ** Lemmas *)

Lemma strip_common_nil b t b' t' :
  strip_common b t = (b', t') -> exists l, b = (l ++ b')%list /\ t = (l ++ t')%list.
Proof.
  revert t. induction b as [|x b IH]; intros t; simpl.
  - intros [= <- <-]. by exists [].
  - destruct t as [|y t]; [intros [= <- <-]; by exists []|].
    case_decide as E; [subst y|intros [= <- <-]; by exists []].
    intros (l & -> & ->)%IH. by exists (x :: l).
Qed.

Lemma Join_prefix x l sep : HasPrefix (Join (x :: l) sep) x = true.
Proof.
  destruct l as [|y l]; cbn [Join].
  - rewrite <- (string_app_nil_r x) at 1. apply HasPrefix_app.
  - apply HasPrefix_app.
Qed.

(** A relative path that does not start with ".." leads down. *)
Lemma Rel_inside base targ rel :
  Rel base targ = Ok rel -> HasPrefix rel ".." = false -> IsAbs base = true ->
  IsAbs targ = true /\ exists rest, clean_elems targ = (clean_elems base ++ rest)%list.
Proof.
  unfold Rel. intros H Hup Hb. rewrite Hb in H.
  destruct (IsAbs targ); [|done]. split_done. cbn [negb Bool.eqb] in H.
  case_decide as E; [exists []; by rewrite app_nil_r|].
  assert ((if decide (clean_elems targ = []) then [] else clean_elems targ)
          = clean_elems targ) as Ht by (by case_decide).
  rewrite Ht in H. destruct (strip_common (clean_elems base) (clean_elems targ))
    as [b t] eqn:Es. apply strip_common_nil in Es as (l & Hbl & Htl).
  destruct b as [|x b].
  - exists t. by rewrite Htl, Hbl, app_nil_r.
  - exfalso. destruct t as [|y t]; [|destruct (decide (x = "..")); [done|]];
      apply Ok_inj in H.
    all: rewrite <- H in Hup; cbn [map app] in Hup; by rewrite (Join_prefix "..") in Hup.
Qed.

(** No parent reference survives in a cleaned absolute path. *)
Lemma clean_abs_no_up p : IsAbs p = true -> ".." ∉ clean_elems p.
Proof.
  intros Hp. unfold clean_elems. rewrite Hp, elem_of_reverse.
  assert (".." ∉ @nil string) as Hn by apply not_elem_of_nil.
  revert Hn. generalize (@nil string) as st. generalize (Split p "/") as l.
  induction l as [|el l IH]; intros st Hst; [done|]. cbn [fold_left]. apply IH.
  unfold clean_step. repeat case_decide; try done.
  - destruct st as [|d st']; [done|]. case_decide; set_solver.
  - set_solver.
Qed.
