(* ===== verification/ExprEngine.v ===== *)
(** * The expression engine
    (src/internal/workflow/expression.go, expression_types.go,
    expression_eval.go)

    The engine's mutable maps are finite maps in a record; every method that
    changes the engine returns the new one.  What an expression asks of the
    operating system and of the packages outside the repository is a [Host]. *)

From S2P Require Import Prelude GoStrings GoPath Template TemplateCache JsonPath.
From Stdlib Require Import Ascii.

#[local] Open Scope string_scope.
#[local] Open Scope nat_scope.

(** ** The host *)

Record Host := mkHost {
  LookupEnv : string -> option string;
  Getwd : result string;
  EvalSymlinks : string -> result string;
  StatSize : string -> result Z;
  ReadFile : string -> result string;
  Quote : string -> string;            (* the verb %q *)
  codec : json_codec
}.

(** ** State *)

Record ExpressionEngine := mkEngine {
  stepOutputs : gmap string string;
  stepNames : gmap Z string;
  variables : gmap string string;
  loopVars : option (gmap string string);
  secretGetter : option (string -> string -> result string)
}.

Definition NewExpressionEngine : ExpressionEngine := mkEngine ∅ ∅ ∅ None None.

Definition idx_key (i : Z) : string := "idx:" +:+ Itoa i.
Definition name_key (name : string) : string := "name:" +:+ name.

(** A step is stored by name when the name is not empty and not a number. *)
Definition stored_by_name (stepName : string) : bool :=
  bool_decide (stepName <> "") && bool_decide (Atoi stepName = None).

Definition SetStepOutput (stepIndex : Z) (stepName output : string)
    (e : ExpressionEngine) : ExpressionEngine :=
  let outs := <[idx_key stepIndex := output]> (stepOutputs e) in
  let outs := if stored_by_name stepName
              then <[name_key stepName := output]> outs else outs in
  mkEngine outs (<[stepIndex := stepName]> (stepNames e)) (variables e)
    (loopVars e) (secretGetter e).

Definition SetVariable (name value : string) (e : ExpressionEngine) : ExpressionEngine :=
  mkEngine (stepOutputs e) (stepNames e) (<[name := value]> (variables e))
    (loopVars e) (secretGetter e).

Definition GetVariable (name : string) (e : ExpressionEngine) : option string :=
  variables e !! name.

(** The copies share nothing with the engine they are taken from; values of
    [gmap] never do. *)
Definition SnapshotVars (e : ExpressionEngine) : gmap string string := variables e.
Definition snapshot (e : ExpressionEngine) : ExpressionEngine :=
  mkEngine (stepOutputs e) (stepNames e) (variables e) (loopVars e) (secretGetter e).

Definition WithOutput (name value : string) (e : ExpressionEngine) : ExpressionEngine :=
  let s := snapshot e in
  mkEngine (<[name_key name := value]> (stepOutputs s)) (stepNames s) (variables s)
    (loopVars s) (secretGetter s).

Definition with_loop_vars (lv : option (gmap string string)) (e : ExpressionEngine)
    : ExpressionEngine :=
  mkEngine (stepOutputs e) (stepNames e) (variables e) lv (secretGetter e).

Definition SetLoopVars (item : string) (index count : Z) (e : ExpressionEngine)
    : ExpressionEngine :=
  let m := default ∅ (loopVars e) in
  with_loop_vars (Some (<["count" := Itoa count]> (<["index" := Itoa index]>
    (<["item" := item]> m)))) e.

Definition ClearLoopVars (e : ExpressionEngine) : ExpressionEngine := with_loop_vars None e.

Definition SetReduceVars (acc item : string) (index count : Z) (e : ExpressionEngine)
    : ExpressionEngine :=
  let m := default ∅ (loopVars e) in
  with_loop_vars (Some (<["count" := Itoa count]> (<["index" := Itoa index]>
    (<["item" := item]> (<["acc" := acc]> m))))) e.

Definition SetSecretGetter (getter : option (string -> string -> result string))
    (e : ExpressionEngine) : ExpressionEngine :=
  mkEngine (stepOutputs e) (stepNames e) (variables e) (loopVars e) getter.

(** ** Resolvers *)

(** [strings.ToUpper] as far as a comparison with ASCII text can tell: the
    letters a to z, and U+0131 and U+017F, whose upper case is I and S. *)
Fixpoint ToUpper (s : string) : string :=
  match s with
  | "" => ""
  | String c s1 =>
      let n := N_of_ascii c in
      match s1 with
      | String c1 s2 =>
          if decide (n = 196%N /\ N_of_ascii c1 = 177%N) then String "I"%char (ToUpper s2)
          else if decide (n = 197%N /\ N_of_ascii c1 = 191%N) then String "S"%char (ToUpper s2)
          else if ((97 <=? n) && (n <=? 122))%N
          then String (ascii_of_N (n - 32)) (ToUpper s1) else String c (ToUpper s1)
      | "" => if ((97 <=? n) && (n <=? 122))%N then String (ascii_of_N (n - 32)) "" else s
      end
  end.

Definition allowedEnvVars : list string :=
  ["PATH"; "HOME"; "USER"; "LOGNAME"; "SHELL"; "LANG"; "LC_ALL"; "TERM"; "PWD";
   "AFLARE_LANG"; "AFLARE_SAFE_MODE"].

Definition isAllowedEnvVar (name : string) : bool :=
  if bool_decide (ToUpper name ∈ allowedEnvVars) then true
  else HasPrefix (ToUpper name) "AFLARE_".

(** A parameter's slot in the batch evaluation: its value, or the range of the
    shared buffer that holds it. *)
Record vecSlot := mkSlot { slot_literal : string; slot_start : nat; slot_end : nat }.

(** The order of [sort.Strings]. *)
Definition string_leb (a b : string) : Prop := String.leb a b = true.
#[export] Instance string_leb_dec : RelDecision string_leb :=
  fun a b => bool_eq_dec (String.leb a b) true.

Section host.
Context (h : Host).

Definition evalEnvVar (name : string) : result string :=
  if negb (isAllowedEnvVar name) then
    Err ("access to environment variable " +:+ Quote h name +:+ " is not allowed")
  else match LookupEnv h name with
       | Some v => Ok v
       | None => Err ("environment variable not found: " +:+ name)
       end.

Definition validateExprFilePath (name : string) : result string :=
  if decide (name = "") then Err "empty file path" else
  if IsAbs name then Err "absolute paths not allowed" else
  cwd ← wrap_err "failed to get working directory: " (Getwd h);
  let absPath := JoinPath cwd name in
  resolved ← wrap_err "failed to resolve path: " (EvalSymlinks h absPath);
  match Rel cwd resolved with
  | Err _ => Err "path outside working directory"
  | Ok rel =>
      if HasPrefix rel ".." then Err "path outside working directory"
      else Ok resolved
  end.

Definition evalFileContents (name : string) : result string :=
  safePath ← wrap_err "file path validation failed: " (validateExprFilePath name);
  size ← wrap_err ("failed to stat file '" +:+ name +:+ "': ") (StatSize h safePath);
  if (maxExprFileSize <? size)%Z then
    Err ("file '" +:+ name +:+ "' too large (max " +:+ Itoa maxExprFileSize +:+ " bytes)")
  else wrap_err ("failed to read file '" +:+ name +:+ "': ") (ReadFile h safePath).

Definition evalSecretRef (e : ExpressionEngine) (name : string) : result string :=
  match secretGetter e with
  | None => Err "secrets not available - use 'aflare secrets add' to store secrets first"
  | Some getter =>
      match SplitN2 name "." with
      | (_, None) => Err "secret expression requires format: secret.GROUP.KEY"
      | (group, Some key) => getter (TrimSpace group) (TrimSpace key)
      end
  end.

Definition evalStepRef (e : ExpressionEngine) (name : string) : result string :=
  match stepOutputs e !! ("idx:" +:+ name) with
  | Some output => Ok output
  | None =>
      match stepOutputs e !! name_key name with
      | Some output => Ok output
      | None =>
          match stepOutputs e !! name with
          | Some output => Ok output
          | None => Err ("step reference not found: " +:+ name)
          end
      end
  end.

Definition evalVar (e : ExpressionEngine) (name : string) : result string :=
  match variables e !! name with
  | Some v => Ok v
  | None => Err ("variable not found: " +:+ name)
  end.

Definition evalLoopVar (e : ExpressionEngine) (name : string) : result string :=
  match loopVars e with
  | None => Err "not in a loop context"
  | Some m => match m !! name with
              | Some v => Ok v
              | None => Err ("loop variable not found: " +:+ name)
              end
  end.

Definition evalBareName (e : ExpressionEngine) (name input : string) : result string :=
  match variables e !! name with
  | Some v => Ok v
  | None => if decide (name = "input") then Ok input
            else Err ("unknown expression: " +:+ name)
  end.

(** The AST's [eval] methods. *)
Fixpoint eval (n : exprNode) (e : ExpressionEngine) (input : string) : result string :=
  match n with
  | bareNameExpr name _ => evalBareName e name input
  | inputExpr _ => Ok input
  | stepExpr name _ => evalStepRef e name
  | varExpr name _ => evalVar e name
  | envExpr name _ => evalEnvVar name
  | fileExpr name _ => evalFileContents name
  | loopExpr name _ => evalLoopVar e name
  | secretExpr name _ => evalSecretRef e name
  | jsonpathExpr ref path _ =>
      refValue ← eval ref e input; extractJSONPath (codec h) refValue path
  | unknownExpr inner _ => Err ("unknown expression: " +:+ inner)
  end.

Definition resolveInstr (e : ExpressionEngine) (ins : instruction) (input : string)
    : result string :=
  match op ins with
  | opLiteral => Ok (strArg ins)
  | opInput => Ok input
  | opStep => evalStepRef e (strArg ins)
  | opVar => evalVar e (strArg ins)
  | opEnv => evalEnvVar (strArg ins)
  | opFile => evalFileContents (strArg ins)
  | opLoop => evalLoopVar e (strArg ins)
  | opSecret => evalSecretRef e (strArg ins)
  | opBareName => evalBareName e (strArg ins) input
  | opJSONPath =>
      match refNode ins with
      | Some ref => rv ← eval ref e input; extractJSONPath (codec h) rv (strArg2 ins)
      | None => Err "nil reference"      (* a nil dereference in the source *)
      end
  | opUnknown => Err ("unknown expression: " +:+ inner ins)
  end.

(** ** Evaluation *)

Definition setFirstExprError (ins : instruction) (firstErr : option error) (err : error)
    : option error :=
  match known ins, firstErr with
  | true, None => Some ("expression '{{" +:+ inner ins +:+ "}}': " +:+ err)
  | _, _ => firstErr
  end.

(** The loop over the instructions; [buf] and [firstErr] are its state. *)
Definition eval_instr (e : ExpressionEngine) (input : string)
    (st : string * option error) (ins : instruction) : string * option error :=
  let '(buf, firstErr) := st in
  match resolveInstr e ins input with
  | Err err => (buf +:+ fullMatch ins, setFirstExprError ins firstErr err)
  | Ok v => (buf +:+ v, firstErr)
  end.

(** [Evaluate] after the template has been looked up or compiled. *)
Definition eval_template (e : ExpressionEngine) (tmpl : compiledTemplate) (input : string)
    : string * option error :=
  if negb (hasExpr tmpl) then (literal tmpl, None)
  else fold_left (eval_instr e input) (instrs tmpl) ("", None).

(** [Evaluate], with the template cache it goes through. *)
Definition EvaluateCached (e : ExpressionEngine) (expr input : string) (c : templateLRU)
    : (string * option error) * templateLRU :=
  if decide (expr = "") then (("", None), c) else
  let '(tmpl, c') := compileTemplate expr c in
  (eval_template e tmpl input, c').

(** [Evaluate] without the cache, which only saves the compilation
    ([EvaluateCached_spec] below). *)
Definition Evaluate (e : ExpressionEngine) (expr input : string) : string * option error :=
  if decide (expr = "") then ("", None)
  else eval_template e (parseTemplate expr) input.

Section params.
(** The order in which Go ranges over a map of parameters. *)
Context (range : gmap string string -> list (string * string)).

Fixpoint eval_params (e : ExpressionEngine) (input : string)
    (l : list (string * string)) (acc : gmap string string)
    : result (gmap string string) :=
  match l with
  | [] => Ok acc
  | (k, v) :: l' =>
      match Evaluate e v input with
      | (_, Some err) => Err ("failed to evaluate param " +:+ Quote h k +:+ ": " +:+ err)
      | (evaluated, None) => eval_params e input l' (<[k := evaluated]> acc)
      end
  end.
Definition EvaluateParams (e : ExpressionEngine) (params : gmap string string)
    (input : string) : result (gmap string string) :=
  eval_params e input (range params) ∅.
End params.

(** *** Batch evaluation *)

Definition evaluateInto (e : ExpressionEngine) (tmpl : compiledTemplate) (input : string)
    (buf : string) : string * option error :=
  if negb (hasExpr tmpl) then (buf +:+ literal tmpl, None)
  else fold_left (eval_instr e input) (instrs tmpl) (buf, None).

(** One round of the loop over the sorted keys: the slot of the key, the
    shared buffer and the parameter's error. *)
Definition vec_param (e : ExpressionEngine) (input value buf : string)
    : vecSlot * string * option error :=
  let tmpl := parseTemplate value in
  if negb (hasExpr tmpl) then (mkSlot (literal tmpl) 0 0, buf, None)
  else match instrs tmpl with
       | [ins] =>
           match resolveInstr e ins input with
           | Err err => (mkSlot (fullMatch ins) 0 0, buf, setFirstExprError ins None err)
           | Ok v => (mkSlot v 0 0, buf, None)
           end
       | _ =>
           let '(buf', err) := evaluateInto e tmpl input buf in
           (mkSlot "" (String.length buf) (String.length buf'), buf', err)
       end.

Fixpoint vec_loop (e : ExpressionEngine) (input : string) (params : gmap string string)
    (keys : list string) (buf : string) (firstErr : option error)
    : list (string * vecSlot) * string * option error :=
  match keys with
  | [] => ([], buf, firstErr)
  | key :: keys' =>
      let '(slot, buf', paramErr) :=
        vec_param e input (default "" (params !! key)) buf in
      let firstErr' :=
        match paramErr, firstErr with
        | Some pe, None => Some ("param " +:+ Quote h key +:+ ": " +:+ pe)
        | _, _ => firstErr
        end in
      let '(slots, bufEnd, err) := vec_loop e input params keys' buf' firstErr' in
      ((key, slot) :: slots, bufEnd, err)
  end.

(** [buf[start:end]]. *)
Definition str_slice (s : string) (i j : nat) : string := str_take (j - i) (str_drop i s).

Definition slot_value (buf : string) (s : vecSlot) : string :=
  if decide (slot_literal s <> "") then slot_literal s
  else str_slice buf (slot_start s) (slot_end s).

Definition EvaluateParamsVectorized (e : ExpressionEngine) (params : gmap string string)
    (input : string) : gmap string string * option error :=
  if decide (params = ∅) then (∅, None) else
  let keys := merge_sort string_leb (map fst (map_to_list params)) in
  let '(slots, buf, firstErr) := vec_loop e input params keys "" None in
  (fold_left (fun m ks => <[ks.1 := slot_value buf ks.2]> m) slots ∅, firstErr).
End host.

(** ** Lemmas *)

Section proofs.
Context (h : Host).

(** *** Templates as text *)

(** An expression resolved through the AST, or left as it is written. *)
Definition subst_expr (e : ExpressionEngine) (input : string)
    (st : string * option error) (content : string) : string * option error :=
  let '(buf, firstErr) := st in
  let node := compileExpr (TrimSpace content) in
  match eval h node e input with
  | Ok v => (buf +:+ v, firstErr)
  | Err err =>
      (buf +:+ "{{" +:+ content +:+ "}}",
       match knownPrefix node, firstErr with
       | true, None => Some ("expression '{{" +:+ TrimSpace content +:+ "}}': " +:+ err)
       | _, _ => firstErr
       end)
  end.

(** The reference semantics: from left to right, replace every match of the
    pattern "{{" ([^}]+) "}}" and copy the other bytes. *)
Fixpoint substitute (fuel : nat) (e : ExpressionEngine) (input s : string)
    (st : string * option error) : string * option error :=
  match s, fuel with
  | "", _ => st
  | _, O => (st.1 +:+ s, st.2)
  | String c s', S fuel' =>
      match match_expr s with
      | Some (content, rest) =>
          substitute fuel' e input rest (subst_expr e input st content)
      | None => substitute fuel' e input s' (st.1 +:+ String c "", st.2)
      end
  end.

Lemma resolve_expr e content input :
  resolveInstr h e (expr_instr content) input
    = eval h (compileExpr (TrimSpace content)) e input /\
  known (expr_instr content) = knownPrefix (compileExpr (TrimSpace content)).
Proof.
  unfold expr_instr, resolveInstr. cbn [op strArg strArg2 refNode inner known].
  generalize (TrimSpace content) as s. intros s. unfold compileExprToInstr.
  destruct (jsonpath_split s) as [[refPart path]|] eqn:E.
  - by rewrite (compileExpr_jsonpath _ _ _ E).
  - unfold compileExpr. cbn [compileExpr_go]. rewrite E.
    destruct (SplitN2 s ".") as [p [n|]]; [|done]. by repeat case_decide.
Qed.

Lemma eval_instr_expr e input st content :
  eval_instr h e input st (expr_instr content) = subst_expr e input st content.
Proof.
  destruct st as [buf fe]. destruct (resolve_expr e content input) as [Hr Hk].
  unfold eval_instr, subst_expr. rewrite Hr.
  destruct (eval h _ e input) as [v|err]; [done|].
  unfold setFirstExprError. by rewrite Hk.
Qed.

Lemma fold_flush e input lit st l :
  fold_left (eval_instr h e input) (flushLit lit ++ l) st
  = fold_left (eval_instr h e input) l (st.1 +:+ lit, st.2).
Proof.
  destruct st as [buf fe]. unfold flushLit. case_decide as E; cbn [fst snd app fold_left].
  - subst. by rewrite string_app_nil_r.
  - done.
Qed.

Lemma fold_parse_loop fuel e input : forall s lit st,
  fold_left (eval_instr h e input) (parse_loop fuel s lit) st
  = substitute fuel e input s (st.1 +:+ lit, st.2).
Proof.
  induction fuel as [|fuel IH]; intros [|c s] lit st; cbn [parse_loop substitute];
    try (rewrite <- (app_nil_r (flushLit _)), fold_flush; cbn [fold_left fst snd];
         by rewrite ?string_app_assoc).
  destruct (match_expr (String c s)) as [[content rest]|].
  - rewrite fold_flush. cbn [fold_left]. rewrite eval_instr_expr, IH, string_app_nil_r.
    by destruct (subst_expr _ _ _ _).
  - rewrite IH. cbn [fst snd]. by rewrite string_app_assoc.
Qed.

Lemma substitute_none fuel e input : forall s st,
  String.length s <= fuel -> ~ pattern_matches s ->
  substitute fuel e input s st = (st.1 +:+ s, st.2).
Proof.
  induction fuel as [|fuel IH]; intros [|c s] st Hf Hp; simpl in Hf; try lia;
    cbn [substitute]; try (by rewrite string_app_nil_r; destruct st).
  destruct (match_expr (String c s)) as [[content rest]|] eqn:E.
  - apply match_expr_Some in E as (Heq & Hne & Hb). exfalso. apply Hp.
    by exists "", content, rest.
  - rewrite IH; [|lia|].
    + cbn [fst snd]. by rewrite string_app_assoc.
    + intros (pre & content & post & -> & H). apply Hp.
      by exists (String c pre), content, post.
Qed.

Lemma Evaluate_substitute e s input :
  Evaluate h e s input = substitute (String.length s) e input s ("", None).
Proof.
  unfold Evaluate. case_decide as E; [by subst|]. unfold eval_template.
  destruct (parseTemplate_cases s) as [[Hp ->]|[Hp ->]]; cbn [hasExpr negb instrs literal].
  - by rewrite fold_parse_loop.
  - by rewrite substitute_none by (done || lia).
Qed.

(** *** Batch evaluation *)

Lemma fold_buf e input l : forall a b err,
  fold_left (eval_instr h e input) l (a +:+ b, err)
  = (a +:+ (fold_left (eval_instr h e input) l (b, err)).1,
     (fold_left (eval_instr h e input) l (b, err)).2).
Proof.
  induction l as [|ins l IH]; intros a b err; [done|]. cbn [fold_left].
  unfold eval_instr at 2 4 6. destruct (resolveInstr h e ins input);
    rewrite string_app_assoc; apply IH.
Qed.

Lemma str_slice_app a b c :
  str_slice (a +:+ b +:+ c) (String.length a) (String.length (a +:+ b)) = b.
Proof.
  unfold str_slice. rewrite str_drop_app, string_length_app.
  replace (_ + _ - _) with (String.length b) by lia. apply str_take_app.
Qed.

Lemma slot_value_literal buf v : slot_value buf (mkSlot v 0 0) = v.
Proof.
  unfold slot_value. cbn. case_decide as E; [done|].
  destruct v; [|by destruct E]. unfold str_slice. by destruct buf.
Qed.

Lemma eval_template_eq e v input :
  eval_template h e (parseTemplate v) input = Evaluate h e v input.
Proof. unfold Evaluate. case_decide as E; [by subst|done]. Qed.

Lemma vec_param_spec e input v buf slot buf' perr :
  vec_param h e input v buf = (slot, buf', perr) ->
  (exists ext, buf' = buf +:+ ext) /\
  (forall ext, slot_value (buf' +:+ ext) slot = (Evaluate h e v input).1) /\
  perr = (Evaluate h e v input).2.
Proof.
  rewrite <- eval_template_eq. unfold vec_param, eval_template, evaluateInto.
  destruct (hasExpr (parseTemplate v)); cbn [negb].
  2:{ intros [= <- <- <-]. split; [exists ""; by rewrite string_app_nil_r|].
      split; [|done]. intros ext. by rewrite slot_value_literal. }
  assert (forall l, (let '(b, err) := fold_left (eval_instr h e input) l (buf, None) in
      (mkSlot "" (String.length buf) (String.length b), b, err)) = (slot, buf', perr) ->
    (exists ext, buf' = buf +:+ ext) /\
    (forall ext, slot_value (buf' +:+ ext) slot
       = (fold_left (eval_instr h e input) l ("", None)).1) /\
    perr = (fold_left (eval_instr h e input) l ("", None)).2) as Hmulti.
  { intros l. rewrite <- (string_app_nil_r buf) at 1. rewrite fold_buf.
    intros [= <- <- <-]. split; [by eexists|]. split; [|done]. intros ext.
    unfold slot_value. cbn [slot_literal slot_start slot_end].
    rewrite decide_False by (intros H; by apply H).
    by rewrite string_app_assoc, str_slice_app. }
  destruct (instrs (parseTemplate v)) as [|ins [|ins' l]]; [apply Hmulti| |apply Hmulti].
  cbn [fold_left eval_instr]. destruct (resolveInstr h e ins input) as [x|err];
    intros [= <- <- <-]; (split; [exists ""; by rewrite string_app_nil_r|]);
    (split; [|done]); intros ext; by rewrite slot_value_literal.
Qed.

(** The error of a parameter, as the batch reports it. *)
Definition param_error (e : ExpressionEngine) (input : string)
    (params : gmap string string) (key : string) : option error :=
  (fun pe => "param " +:+ Quote h key +:+ ": " +:+ pe) <$>
  (Evaluate h e (default "" (params !! key)) input).2.

Lemma vec_loop_spec e input params keys : forall buf fe slots bufEnd err,
  vec_loop h e input params keys buf fe = (slots, bufEnd, err) ->
  (exists ext, bufEnd = buf +:+ ext) /\ map fst slots = keys /\
  (forall ext, Forall (fun ks => slot_value (bufEnd +:+ ext) ks.2
     = (Evaluate h e (default "" (params !! ks.1)) input).1) slots) /\
  err = (match fe with Some _ => fe
         | None => head (omap (param_error e input params) keys) end).
Proof.
  induction keys as [|key keys IH]; intros buf fe slots bufEnd err; cbn [vec_loop].
  - intros [= <- <- <-]. split; [exists ""; by rewrite string_app_nil_r|].
    split_done. split; [constructor|]. by destruct fe.
  - destruct (vec_param h e input _ buf) as [[slot buf'] perr] eqn:Ep.
    destruct (vec_param_spec _ _ _ _ _ _ _ Ep) as ([ext1 ->] & Hval & ->).
    destruct (vec_loop h e input params keys _ _) as [[slots' bufE] err'] eqn:El.
    destruct (IH _ _ _ _ _ El) as ([ext2 ->] & Hk & Hvals & Herr).
    intros [= <- <- <-]. split; [eexists; by rewrite string_app_assoc|].
    split; [cbn; by rewrite Hk|]. split.
    + intros ext. constructor; [|apply Hvals]. cbn. rewrite string_app_assoc. apply Hval.
    + subst err'. cbn [omap list_omap]. unfold param_error at 2.
      destruct (Evaluate h e (default "" (params !! key)) input) as [x [pe|]]; by destruct fe.
Qed.

(** Insertions of values that are a function [f] of the key. *)
Lemma lookup_fold_insert {X} (key val : X -> string) (f : string -> string) l :
  (forall x, x ∈ l -> val x = f (key x)) -> forall (m : gmap string string) k,
  fold_left (fun m x => <[key x := val x]> m) l m !! k
  = if decide (k ∈ map key l) then Some (f k) else m !! k.
Proof.
  induction l as [|x l IH]; intros Hf m k.
  - cbn. by rewrite decide_False by apply not_elem_of_nil.
  - cbn [fold_left map]. rewrite IH by (intros; apply Hf; by right).
    rewrite (Hf x) by left.
    destruct (decide (k ∈ map key l)); [by rewrite decide_True by by right|].
    destruct (decide (k = key x)) as [->|Hne].
    + rewrite decide_True by left. by rewrite lookup_insert_eq.
    + rewrite decide_False by (rewrite elem_of_cons; tauto). by rewrite lookup_insert_ne.
Qed.

Lemma vectorized_spec e params input :
  (EvaluateParamsVectorized h e params input).1
    = (fun v => (Evaluate h e v input).1) <$> params /\
  ((EvaluateParamsVectorized h e params input).2 = None <->
   map_Forall (fun _ v => (Evaluate h e v input).2 = None) params).
Proof.
  unfold EvaluateParamsVectorized. case_decide as E.
  { subst. split; [by rewrite fmap_empty|]. split; [intros _; apply map_Forall_empty|done]. }
  set (keys := merge_sort string_leb (map fst (map_to_list params))).
  destruct (vec_loop h e input params keys "" None) as [[slots buf] err] eqn:El.
  destruct (vec_loop_spec _ _ _ _ _ _ _ _ _ El) as (_ & Hk & Hvals & ->). cbn [fst snd].
  assert (forall k, k ∈ keys <-> is_Some (params !! k)) as Hin.
  { intros k. unfold keys. rewrite merge_sort_Permutation.
    rewrite <- elem_of_dom, elem_of_dom. split.
    - intros ([k' v] & -> & Hv%elem_of_map_to_list)%list_elem_of_fmap. by eexists.
    - intros [v Hv]. apply list_elem_of_fmap. exists (k, v).
      split_done. by apply elem_of_map_to_list. }
  split.
  - apply map_eq. intros k. specialize (Hvals ""). rewrite Forall_forall in Hvals.
    rewrite (lookup_fold_insert fst (fun ks => slot_value buf ks.2)
      (fun k => (Evaluate h e (default "" (params !! k)) input).1)).
    + rewrite lookup_fmap, Hk, lookup_empty. destruct (params !! k) as [v|] eqn:Ev.
      * rewrite decide_True by (apply Hin; by rewrite Ev). by cbn.
      * rewrite decide_False; [done|]. rewrite Hin, Ev. by intros [].
    + intros ks Hks. specialize (Hvals ks Hks). by rewrite string_app_nil_r in Hvals.
  - transitivity (Forall (fun k => param_error e input params k = None) keys).
    + clear. induction keys as [|k keys IH]; [split; [constructor|done]|].
      cbn [omap list_omap]. rewrite Forall_cons. destruct (param_error e input params k).
      * cbn. split; [done|by intros []].
      * rewrite <- IH. tauto.
    + rewrite Forall_forall. unfold param_error. split.
      * intros H k v Hkv. specialize (H k (proj2 (Hin k) ltac:(by rewrite Hkv))).
        rewrite Hkv in H. cbn in H. by apply fmap_None in H.
      * intros H k [v Hkv]%Hin. rewrite Hkv. cbn. rewrite (H k v Hkv). done.
Qed.

Section ranged.
Context (range : gmap string string -> list (string * string))
  (range_perm : forall m, range m ≡ₚ map_to_list m).

Lemma eval_params_spec e input l : forall acc m,
  eval_params h e input l acc = Ok m <->
  Forall (fun kv => (Evaluate h e kv.2 input).2 = None) l /\
  m = fold_left (fun m kv => <[kv.1 := (Evaluate h e kv.2 input).1]> m) l acc.
Proof.
  induction l as [|[k v] l IH]; intros acc m; cbn [eval_params fold_left].
  - split; [intros [= <-]; by split|by intros [_ ->]].
  - rewrite Forall_cons. cbn [fst snd].
    destruct (Evaluate h e v input) as [x [err|]]; cbn [fst snd].
    + split; [done|by intros [[] _]].
    + rewrite IH. tauto.
Qed.

Lemma EvaluateParams_spec e params input m :
  EvaluateParams h range e params input = Ok m <->
  map_Forall (fun _ v => (Evaluate h e v input).2 = None) params /\
  m = (fun v => (Evaluate h e v input).1) <$> params.
Proof using range_perm.
  unfold EvaluateParams. rewrite eval_params_spec.
  assert (forall k v, (k, v) ∈ range params <-> params !! k = Some v) as Hin.
  { intros k v. by rewrite range_perm, elem_of_map_to_list. }
  assert (fold_left (fun m kv => <[kv.1 := (Evaluate h e kv.2 input).1]> m)
    (range params) (∅ : gmap string string)
    = (fun v => (Evaluate h e v input).1) <$> params) as ->.
  { apply map_eq. intros k. rewrite (lookup_fold_insert fst
      (fun kv : string * string => (Evaluate h e kv.2 input).1)
      (fun k => (Evaluate h e (default "" (params !! k)) input).1)).
    - rewrite lookup_fmap, lookup_empty. destruct (params !! k) as [v|] eqn:Ev; cbn.
      + rewrite decide_True; [done|]. apply list_elem_of_fmap. exists (k, v).
        split_done. by apply Hin.
      + rewrite decide_False; [done|]. intros ([k' v] & -> & Hv%Hin)%list_elem_of_fmap.
        cbn in Ev. congruence.
    - intros [k' v] Hkv%Hin. cbn. by rewrite Hkv. }
  rewrite map_Forall_to_list, <- range_perm.
  assert (Forall (fun kv => (Evaluate h e kv.2 input).2 = None) (range params) <->
    Forall (uncurry (fun (_ : string) v => (Evaluate h e v input).2 = None)) (range params))
    as ->; [|done].
  apply Forall_iff. by intros [].
Qed.
End ranged.
End proofs.

(** *** Step outputs *)

(** The keys an engine stores outputs under; indices are [int] values. *)
Definition engine_wf (e : ExpressionEngine) : Prop :=
  forall k, is_Some (stepOutputs e !! k) ->
    (exists i, k = idx_key i /\ in_int64 i = true) \/ (exists n, k = name_key n).

Lemma NewExpressionEngine_wf : engine_wf NewExpressionEngine.
Proof. intros k [v Hv]. cbn [NewExpressionEngine stepOutputs] in Hv. by rewrite lookup_empty in Hv. Qed.

Lemma SetStepOutput_wf i n o e :
  in_int64 i = true -> engine_wf e -> engine_wf (SetStepOutput i n o e).
Proof.
  intros Hi Hwf k. unfold SetStepOutput. cbn [stepOutputs].
  destruct (stored_by_name n); rewrite ?lookup_insert_is_Some; intros Hk.
  - destruct Hk as [<-|[_ [<-|[_ Hk]]]]; [right; by exists n|left; by exists i|by apply Hwf].
  - destruct Hk as [<-|[_ Hk]]; [left; by exists i|by apply Hwf].
Qed.

Lemma WithOutput_wf n o e : engine_wf e -> engine_wf (WithOutput n o e).
Proof.
  intros Hwf k. unfold WithOutput. cbn [stepOutputs snapshot].
  rewrite lookup_insert_is_Some. intros [<-|[_ Hk]]; [right; by exists n|by apply Hwf].
Qed.

Lemma idx_key_lookup e r :
  engine_wf e -> Atoi r = None -> stepOutputs e !! ("idx:" +:+ r) = None.
Proof.
  intros Hwf Hr. destruct (stepOutputs e !! ("idx:" +:+ r)) as [v|] eqn:E; [|done].
  destruct (Hwf ("idx:" +:+ r)) as [(i & Hi & Hin)|(n & Hn)]; [by rewrite E| |done].
  injection Hi as ->. by rewrite Atoi_Itoa in Hr.
Qed.

Lemma lookup_SetStepOutput i n o e k :
  stepOutputs (SetStepOutput i n o e) !! k
  = if stored_by_name n && bool_decide (k = name_key n) then Some o
    else if bool_decide (k = idx_key i) then Some o else stepOutputs e !! k.
Proof.
  unfold SetStepOutput. cbn [stepOutputs].
  destruct (stored_by_name n); cbn [andb]; repeat case_bool_decide; subst;
    rewrite ?lookup_insert_eq; try done; rewrite ?lookup_insert_ne by done;
    rewrite ?lookup_insert_eq; try done; by rewrite ?lookup_insert_ne.
Qed.

Lemma evalStepRef_set i n o e r :
  engine_wf e -> HasPrefix r "idx:" = false -> HasPrefix r "name:" = false ->
  evalStepRef (SetStepOutput i n o e) r
  = if decide (r = Itoa i \/ (stored_by_name n = true /\ r = n)) then Ok o
    else evalStepRef e r.
Proof.
  intros Hwf Hi Hn. unfold evalStepRef. rewrite !lookup_SetStepOutput.
  assert (bool_decide ("idx:" +:+ r = name_key n) = false) as ->
    by (by apply bool_decide_eq_false_2).
  assert (bool_decide (name_key r = idx_key i) = false) as ->
    by (by apply bool_decide_eq_false_2).
  assert (bool_decide (r = name_key n) = false) as ->.
  { apply bool_decide_eq_false_2. intros ->. unfold name_key in Hn.
    by rewrite HasPrefix_app in Hn. }
  assert (bool_decide (r = idx_key i) = false) as ->.
  { apply bool_decide_eq_false_2. intros ->. unfold idx_key in Hi.
    by rewrite HasPrefix_app in Hi. }
  rewrite !andb_false_r. unfold idx_key.
  destruct (decide (r = Itoa i)) as [->|Hri].
  { rewrite bool_decide_eq_true_2 by done. by rewrite decide_True by by left. }
  rewrite (bool_decide_eq_false_2 ("idx:" +:+ r = _)) by (by intros [= ?]).
  destruct (stored_by_name n) eqn:En; cbn [andb].
  - destruct (decide (r = n)) as [->|Hrn].
    + unfold stored_by_name in En. apply andb_true_iff in En as [_ En%bool_decide_eq_true_1].
      rewrite idx_key_lookup by done. rewrite bool_decide_eq_true_2 by done.
      by rewrite decide_True by by right.
    + rewrite (bool_decide_eq_false_2 (name_key r = _)) by (by intros [= ?]).
      by rewrite decide_False by naive_solver.
  - by rewrite decide_False by naive_solver.
Qed.

(** ** Properties *)

(** The bytecode evaluator implements the textual semantics through the
    AST: evaluating a template gives exactly the text and the first error of
    replacing, from left to right, every match of [\{\{([^}]+)\}\}] by the
    value of its AST node, a match whose node fails staying verbatim and
    being reported only for a known prefix. *)
Theorem Evaluate_refines_ast (h : Host) (e : ExpressionEngine) (s input : string) :
  Evaluate h e s input = substitute h (String.length s) e input s ("", None).
Proof. apply Evaluate_substitute. Qed.

(** The template cache is invisible to evaluation and keeps its
    invariants: with any coherent cache, [EvaluateCached] gives the result of
    evaluating the freshly parsed template. *)
Theorem EvaluateCached_spec (h : Host) (e : ExpressionEngine) (s input : string)
    (c : templateLRU) :
  lru_inv c -> coherent c ->
  (EvaluateCached h e s input c).1 = Evaluate h e s input /\
  lru_inv (EvaluateCached h e s input c).2 /\ coherent (EvaluateCached h e s input c).2.
Proof.
  intros Hi Hc. unfold EvaluateCached, Evaluate. case_decide; [done|].
  destruct (compileTemplate_spec s c Hi Hc) as (H1 & H2 & H3 & _).
  destruct (compileTemplate s c) as [t c']. cbn in *. by rewrite H1.
Qed.

(** A host without files, environment or JSON, and an engine with one step
    and one variable. *)
Definition empty_host : Host :=
  mkHost (fun _ => None) (Err "no cwd") (fun _ => Err "no file") (fun _ => Err "no file")
    (fun _ => Err "no file") (fun s => s)
    (mkCodec (fun _ => Err "no json") (fun _ => Err "no json") (fun _ => "")).
Definition demo_engine : ExpressionEngine :=
  SetVariable "who" "world" (SetStepOutput 0 "greet" "hello" NewExpressionEngine).

Lemma EvaluateCached_spec_witness :
  (EvaluateCached empty_host demo_engine "{{step.greet}} {{who}}{{.x}}" "" (newTemplateLRU 2)).1
  = ("hello world{{.x}}", None).
Proof.
  rewrite (proj1 (EvaluateCached_spec empty_host demo_engine "{{step.greet}} {{who}}{{.x}}" ""
    (newTemplateLRU 2) (proj1 (newTemplateLRU_inv 2)) (proj2 (newTemplateLRU_inv 2)))).
  vm_compute. reflexivity.
Defined.

(** Batch evaluation agrees with parameter-by-parameter evaluation:
    whatever order Go ranges over the map, [EvaluateParams] succeeds with a
    map exactly when [EvaluateParamsVectorized] returns that map without an
    error; with errors the batch still returns every parameter's text. *)
Theorem EvaluateParamsVectorized_equiv (h : Host)
    (range : gmap string string -> list (string * string))
    (range_perm : forall m, range m ≡ₚ map_to_list m)
    (e : ExpressionEngine) (params m : gmap string string) (input : string) :
  (EvaluateParams h range e params input = Ok m <->
   EvaluateParamsVectorized h e params input = (m, None)) /\
  (EvaluateParamsVectorized h e params input).1
    = (fun v => (Evaluate h e v input).1) <$> params.
Proof.
  destruct (vectorized_spec h e params input) as [Hv He]. split; [|done].
  rewrite EvaluateParams_spec by done. rewrite <- He.
  destruct (EvaluateParamsVectorized h e params input) as [m' err]. cbn in *. subst.
  split; [by intros [-> ->]|by intros [= <- ->]].
Qed.

Lemma EvaluateParamsVectorized_equiv_witness :
  EvaluateParams empty_host map_to_list demo_engine
    {["a" := "{{step.0}}"; "b" := "{{who}}-{{who}}"]} "" = Ok {["a" := "hello"; "b" := "world-world"]}.
Proof.
  apply (EvaluateParamsVectorized_equiv empty_host map_to_list (fun m => Permutation_refl _)).
  vm_compute. reflexivity.
Defined.

(** Step references read what was stored: after [SetStepOutput], a
    reference to the step's index or to its (non-numeric) name gives the new
    output, and every other reference gives what it gave before. *)
Theorem step_reference_roundtrip (i : Z) (n o r : string) (e : ExpressionEngine) :
  engine_wf e -> HasPrefix r "idx:" = false -> HasPrefix r "name:" = false ->
  evalStepRef (SetStepOutput i n o e) r
  = if decide (r = Itoa i \/ (stored_by_name n = true /\ r = n)) then Ok o
    else evalStepRef e r.
Proof. apply evalStepRef_set. Qed.

Lemma step_reference_roundtrip_witness :
  evalStepRef (SetStepOutput 3 "fetch" "out" NewExpressionEngine) "fetch" = Ok "out".
Proof.
  rewrite (step_reference_roundtrip 3 "fetch" "out" "fetch" NewExpressionEngine
    NewExpressionEngine_wf eq_refl eq_refl).
  vm_compute. reflexivity.
Defined.

(** A file expression never reads outside the working directory: when
    [evalFileContents] returns text, the text was read from a path whose
    size passed the limit and whose elements extend those of the working
    directory without any parent reference. *)
Theorem file_expression_confined (h : Host) (name text cwd : string) :
  Getwd h = Ok cwd -> IsAbs cwd = true -> evalFileContents h name = Ok text ->
  exists p rest size, ReadFile h p = Ok text /\ StatSize h p = Ok size /\
    (size <= maxExprFileSize)%Z /\ IsAbs p = true /\
    clean_elems p = (clean_elems cwd ++ rest)%list /\ ".." ∉ rest.
Proof.
  intros Hcwd Habs. unfold evalFileContents, validateExprFilePath. rewrite Hcwd.
  case_decide; [done|]. destruct (IsAbs name); [done|]. cbn [wrap_err mbind result_bind].
  destruct (EvalSymlinks h (JoinPath cwd name)) as [p|]; [|done]. cbn [wrap_err mbind result_bind].
  destruct (Rel cwd p) as [rel|] eqn:Er; [|done].
  destruct (HasPrefix rel "..") eqn:Eu; [done|]. cbn [wrap_err mbind result_bind].
  destruct (StatSize h p) as [size|] eqn:Es; [|done]. cbn [wrap_err mbind result_bind].
  destruct (Z.ltb_spec maxExprFileSize size); [done|].
  destruct (ReadFile h p) as [t|] eqn:Et; [|done]. intros [= ->].
  destruct (Rel_inside _ _ _ Er Eu Habs) as (Hp & rest & Hrest).
  exists p, rest, size. split_and!; auto. pose proof (clean_abs_no_up p Hp) as Hno.
  rewrite Hrest in Hno. set_solver.
Qed.

(** A host with one file, reached through a symbolic link. *)
Definition file_host : Host :=
  mkHost (fun _ => None) (Ok "/work/dir")
    (fun p => if decide (p = "/work/dir/link") then Ok "/work/dir/data/a.txt" else Err "no file")
    (fun _ => Ok 5%Z) (fun _ => Ok "hello") (fun s => s) (codec empty_host).

Lemma file_expression_confined_witness :
  evalFileContents file_host "x/../link" = Ok "hello" /\
  exists p rest size, ReadFile file_host p = Ok "hello" /\ StatSize file_host p = Ok size /\
    (size <= maxExprFileSize)%Z /\ IsAbs p = true /\
    clean_elems p = (clean_elems "/work/dir" ++ rest)%list /\ ".." ∉ rest.
Proof.
  split; [vm_compute; reflexivity|].
  apply (file_expression_confined file_host "x/../link" "hello" "/work/dir");
    vm_compute; reflexivity.
Defined.
