(* ===== verification/WalState.v ===== *)
(** * Persisted workflow state (src/internal/workflow/executor_state.go)

    The snapshot of a run, the delta records that the write-ahead log holds
    and the fold that recovers the latest state from them.  The log is the
    sequence of records that reached it; a save whose append fails leaves the
    log as it was. Timestamps are not modelled. *)

From S2P Require Import Prelude GoStrings WorkflowTypes ExprEngine.
From Stdlib Require Import Ascii.

#[local] Open Scope string_scope.
#[local] Open Scope Z_scope.

Record WorkflowState := mkState {
  ss_WorkflowName : string;
  ss_StepIndex : Z;
  ss_Data : string;
  ss_StepOutputs : gmap Z string;
  ss_Variables : gmap string string;
  ss_DAGMode : bool;
  ss_StepNames : list string
}.

Record WALRecord := mkRecord {
  rec_StepIndex : Z;
  rec_StepName : string;
  rec_NodeName : string;
  rec_Data : string;
  rec_StepOutputs : gmap Z string;
  rec_Variables : gmap string string;
  rec_IsDelta : bool
}.

(** ** Snapshots *)

(** The step index a key of [stepOutputs] stands for. *)
Definition output_index (key : string) : option Z :=
  if HasPrefix key "idx:" then Atoi (TrimPrefix key "idx:") else None.

Definition indexed_outputs (outs : list (string * string)) : gmap Z string :=
  fold_left (fun m kv => match output_index kv.1 with
                         | Some idx => <[idx := kv.2]> m
                         | None => m
                         end) outs ∅.

Definition SaveCurrentState (range : gmap string string -> list (string * string))
    (wf : Workflow) (stepIndex : Z) (data : string) (engine : ExpressionEngine)
    : WorkflowState :=
  mkState (wf_Name wf) stepIndex data (indexed_outputs (range (stepOutputs engine)))
    (variables engine) false [].

(** The name of a step by index; "" out of range. *)
Definition step_name_at (wf : Workflow) (idx : Z) : string :=
  if (0 <=? idx) && (idx <? Z.of_nat (length (wf_Steps wf)))
  then match wf_Steps wf !! Z.to_nat idx with Some s => ws_Name s | None => "" end
  else "".

(** [outs] is the order in which the map of outputs is ranged over. *)
Definition RestoreState (outs : list (Z * string)) (state : WorkflowState) (wf : Workflow)
    (engine : ExpressionEngine) : ExpressionEngine * string :=
  let engine := fold_left (fun e io => SetStepOutput io.1 (step_name_at wf io.1) io.2 e)
                  outs engine in
  (mkEngine (stepOutputs engine) (stepNames engine)
     (ss_Variables state ∪ variables engine) (loopVars engine) (secretGetter engine),
   ss_Data state).

Definition clampStep (idx totalSteps : Z) : Z :=
  if idx <? 0 then 0 else if totalSteps <? idx then totalSteps else idx.

(** ** Delta records *)

Definition diff_map {K} `{Countable K} (prev cur : gmap K string) : gmap K string :=
  filter (fun kv => prev !! kv.1 <> Some kv.2) cur.
Definition diffStepOutputs (prev cur : gmap Z string) : gmap Z string := diff_map prev cur.
Definition diffVariables (prev cur : gmap string string) : gmap string string :=
  diff_map prev cur.

Record WALStateManager := mkManager {
  mgr_wf : Workflow;
  persisted : option WorkflowState
}.

Definition NewWALStateManager (wf : Workflow) (resumed : option WorkflowState)
    : WALStateManager := mkManager wf resumed.

Definition step_at (wf : Workflow) (idx : Z) : option WorkflowStep :=
  if (0 <=? idx) && (idx <? Z.of_nat (length (wf_Steps wf)))
  then wf_Steps wf !! Z.to_nat idx else None.

(** The record [Save] appends for [state]. *)
Definition save_record (m : WALStateManager) (state : WorkflowState) : WALRecord :=
  let st := step_at (mgr_wf m) (ss_StepIndex state) in
  let '(outs, vars, delta) :=
    match persisted m with
    | None => (ss_StepOutputs state, ss_Variables state, false)
    | Some p => (diffStepOutputs (ss_StepOutputs p) (ss_StepOutputs state),
                 diffVariables (ss_Variables p) (ss_Variables state), true)
    end in
  mkRecord (ss_StepIndex state)
    (match st with Some s => ws_Name s | None => "" end)
    (match st with Some s => ws_Node s | None => "" end)
    (ss_Data state) outs vars delta.

(** The manager after [Save]: the baseline moves to the new state whether or
    not the record reached the log. *)
Definition saved_manager (m : WALStateManager) (state : WorkflowState) : WALStateManager :=
  mkManager (mgr_wf m) (Some state).

(** [Save]: [appendErr] is what [wal.Append] returns; after an append that
    succeeded [MaybeCompact] may rewrite the log, and its error is the error
    of the save. *)
Definition Save (MaybeCompact : list WALRecord -> list WALRecord * option error)
    (m : WALStateManager) (state : WorkflowState) (appendErr : option error)
    (log : list WALRecord) : WALStateManager * list WALRecord * option error :=
  let rec := save_record m state in
  match appendErr with
  | Some e => (saved_manager m state, log, Some e)
  | None => let '(log, err) := MaybeCompact (log ++ [rec])%list in (saved_manager m state, log, err)
  end.

(** ** Recovery *)

(** The callback of [LoadStateWAL]. *)
Definition replay_step (latest : option WorkflowState) (r : WALRecord)
    : option WorkflowState :=
  match latest with
  | Some st =>
      if rec_IsDelta r then
        Some (mkState (ss_WorkflowName st) (rec_StepIndex r) (rec_Data r)
                (rec_StepOutputs r ∪ ss_StepOutputs st)
                (rec_Variables r ∪ ss_Variables st) (ss_DAGMode st) (ss_StepNames st))
      else Some (mkState "" (rec_StepIndex r) (rec_Data r) (rec_StepOutputs r)
                   (rec_Variables r) false [])
  | None => Some (mkState "" (rec_StepIndex r) (rec_Data r) (rec_StepOutputs r)
                    (rec_Variables r) false [])
  end.
Definition LoadStateWAL (log : list WALRecord) : option WorkflowState :=
  fold_left replay_step log None.

(** ** The concurrency limiter *)

Definition maxConcurrencySlots : Z := 2 ^ 20.

(** [None] is the nil limiter, which limits nothing. *)
Definition NewConcurrencyLimiter (max : Z) : result (option Z) :=
  if max <=? 0 then Ok None
  else if maxConcurrencySlots <? max then
    Err ("concurrency limit too large (max " +:+ Itoa maxConcurrencySlots +:+ ")")
  else Ok (Some max).

(** ** Lemmas *)

Lemma lookup_indexed_outputs outs i :
  NoDup (map fst outs) ->
  (forall k v, (k, v) ∈ outs -> (exists j, k = idx_key j /\ in_int64 j = true) \/
                                 (exists n, k = name_key n)) ->
  in_int64 i = true -> forall m : gmap Z string,
  fold_left (fun m kv => match output_index kv.1 with
                         | Some idx => <[idx := kv.2]> m
                         | None => m
                         end) outs m !! i
  = match (list_to_map outs : gmap string string) !! idx_key i with
    | Some v => Some v
    | None => m !! i
    end.
Proof.
  intros Hnd Hwf Hi. induction outs as [|[k v] outs IH]; intros m; [done|].
  cbn [map fst] in Hnd. apply NoDup_cons in Hnd as [Hk Hnd].
  cbn [fold_left]. rewrite IH by (auto; intros; eapply Hwf; by right).
  cbn [list_to_map foldr fst snd uncurry].
  destruct (Hwf k v ltac:(by left)) as [(j & -> & Hj)|(n & ->)].
  - assert (output_index (idx_key j) = Some j) as ->.
    { unfold output_index, idx_key. by rewrite HasPrefix_app, TrimPrefix_app, Atoi_Itoa. }
    destruct (decide (i = j)) as [->|Hne].
    + rewrite (lookup_insert_eq m). change (foldr _ ∅ outs) with
        (list_to_map outs : gmap string string). rewrite lookup_insert_eq.
      by rewrite (not_elem_of_list_to_map_1 _ _ Hk).
    + rewrite (lookup_insert_ne m) by done. rewrite lookup_insert_ne; [done|].
      unfold idx_key. intros H. injection H as H. by apply Itoa_inj in H.
  - assert (output_index (name_key n) = None) as -> by done.
    by rewrite lookup_insert_ne.
Qed.

Lemma SaveCurrentState_outputs range wf i data e k :
  (forall m, range m ≡ₚ map_to_list m) -> engine_wf e -> in_int64 k = true ->
  ss_StepOutputs (SaveCurrentState range wf i data e) !! k = stepOutputs e !! idx_key k.
Proof.
  intros Hr Hwf Hk. cbn [ss_StepOutputs SaveCurrentState]. unfold indexed_outputs.
  assert (NoDup (map fst (range (stepOutputs e)))) as Hnd.
  { rewrite Hr. apply NoDup_fst_map_to_list. }
  rewrite lookup_indexed_outputs; [|done| |done].
  - rewrite lookup_empty.
    assert ((list_to_map (range (stepOutputs e)) : gmap string string) = stepOutputs e) as ->.
    { rewrite (list_to_map_proper _ (map_to_list (stepOutputs e))); [|done|apply Hr].
      apply list_to_map_to_list. }
    by destruct (stepOutputs e !! idx_key k).
  - intros k' v Hkv. apply Hwf. rewrite Hr in Hkv. apply elem_of_map_to_list in Hkv. by eexists.
Qed.

(** Snapshots are indexed by machine integers. *)
Lemma indexed_outputs_int64 outs k : forall m : gmap Z string,
  (is_Some (m !! k) -> in_int64 k = true) ->
  is_Some (fold_left (fun m kv => match output_index kv.1 with
                                  | Some idx => <[idx := kv.2]> m
                                  | None => m
                                  end) outs m !! k) -> in_int64 k = true.
Proof.
  induction outs as [|[key v] outs IH]; intros m Hm; [done|]. cbn [fold_left fst snd].
  apply IH. destruct (output_index key) as [idx|] eqn:E; [|done].
  rewrite lookup_insert_is_Some. intros [<-|[_ ?]]; [|auto].
  unfold output_index in E. destruct (HasPrefix key "idx:"); [|done]. by apply Atoi_in_int64 in E.
Qed.

Lemma SaveCurrentState_int64 range wf i data e k :
  is_Some (ss_StepOutputs (SaveCurrentState range wf i data e) !! k) -> in_int64 k = true.
Proof. apply indexed_outputs_int64. rewrite lookup_empty. by intros [? ?]. Qed.

(** What recovery needs of a state; the log does not keep the name. *)
Definition payload (st : WorkflowState) : Z * string * gmap Z string * gmap string string :=
  (ss_StepIndex st, ss_Data st, ss_StepOutputs st, ss_Variables st).

(** No output or variable disappears between two saves. *)
Definition grows (p q : WorkflowState) : Prop :=
  dom (ss_StepOutputs p) ⊆ dom (ss_StepOutputs q) /\
  dom (ss_Variables p) ⊆ dom (ss_Variables q).

(** The manager's baseline is what the log recovers. *)
Definition synced (m : WALStateManager) (log : list WALRecord) : Prop :=
  payload <$> persisted m = payload <$> LoadStateWAL log.

Lemma lookup_diff_map {K} `{Countable K} (prev cur : gmap K string) k :
  diff_map prev cur !! k
  = v ← cur !! k; if decide (prev !! k = Some v) then None else Some v.
Proof.
  unfold diff_map. rewrite map_lookup_filter. destruct (cur !! k) as [v|]; [|done]. cbn.
  destruct (decide (prev !! k = Some v)) as [E|E].
  - rewrite option_guard_False; [done|]. intros Hn. by apply Hn.
  - by rewrite option_guard_True.
Qed.

Lemma diff_map_merge {K} `{Countable K} (prev cur : gmap K string) :
  dom prev ⊆ dom cur -> diff_map prev cur ∪ prev = cur.
Proof.
  intros Hd. apply map_eq. intros k. rewrite lookup_union, lookup_diff_map.
  destruct (cur !! k) as [v|] eqn:E; cbn.
  - case_decide as Ep; [by rewrite Ep|]. by destruct (prev !! k).
  - assert (k ∉ dom prev) as Hk%not_elem_of_dom; [|by rewrite Hk].
    intros Hk%Hd. by apply elem_of_dom in Hk as [? ?]; simplify_eq.
Qed.

Lemma LoadStateWAL_app log r :
  LoadStateWAL (log ++ [r]) = replay_step (LoadStateWAL log) r.
Proof. unfold LoadStateWAL. by rewrite fold_left_app. Qed.

Lemma append_synced m log st :
  synced m log -> (forall p, persisted m = Some p -> grows p st) ->
  payload <$> LoadStateWAL (log ++ [save_record m st]) = Some (payload st).
Proof.
  intros Hs Hg. rewrite LoadStateWAL_app. unfold synced in Hs. unfold save_record.
    destruct (persisted m) as [p|], (LoadStateWAL log) as [q|]; try done; cbn.
    cbn in Hs. injection Hs as H1 H2 H3 H4. destruct (Hg p eq_refl) as [Hg1 Hg2].
    unfold payload. cbn. rewrite <- H3, <- H4. unfold diffStepOutputs, diffVariables.
    by rewrite !diff_map_merge.
Qed.

(** Compaction keeps what recovery finds in a log (WalCompaction). *)
Definition compacts (MaybeCompact : list WALRecord -> list WALRecord * option error) : Prop :=
  forall log, LoadStateWAL (MaybeCompact log).1 = LoadStateWAL log.
Section saves.
Context (MaybeCompact : list WALRecord -> list WALRecord * option error).
Context (Hcompact : compacts MaybeCompact).

Lemma Save_synced m log st :
  synced m log -> (forall p, persisted m = Some p -> grows p st) ->
  let '(m', log', _) := Save MaybeCompact m st None log in
  synced m' log' /\ payload <$> LoadStateWAL log' = Some (payload st).
Proof using Hcompact.
  intros Hs Hg. unfold Save. pose proof (append_synced m log st Hs Hg) as Hl.
  specialize (Hcompact (log ++ [save_record m st])%list).
  destruct (MaybeCompact _) as [log' err]. cbn [fst] in Hcompact. rewrite <- Hcompact in Hl.
  split; [|done]. unfold synced. by rewrite Hl.
Qed.

(** Consecutive saves, all of whose appends succeed. *)
Fixpoint saves (m : WALStateManager) (log : list WALRecord) (sts : list WorkflowState)
    : WALStateManager * list WALRecord :=
  match sts with
  | [] => (m, log)
  | st :: rest => let '(m', log', _) := Save MaybeCompact m st None log in saves m' log' rest
  end.

(** The states of a run only grow, starting from the baseline. *)
Fixpoint growing (base : option WorkflowState) (sts : list WorkflowState) : Prop :=
  match sts with
  | [] => True
  | st :: rest => (forall p, base = Some p -> grows p st) /\ growing (Some st) rest
  end.

Lemma saves_synced sts : forall m log,
  synced m log -> growing (persisted m) sts ->
  let '(m', log') := saves m log sts in
  synced m' log' /\
  payload <$> LoadStateWAL log' = match last sts with
                                  | Some st => Some (payload st)
                                  | None => payload <$> LoadStateWAL log
                                  end.
Proof using Hcompact.
  induction sts as [|st sts IH]; intros m log Hs Hg; [done|].
  cbn [saves growing] in *. destruct Hg as [Hg Hrest].
  pose proof (Save_synced m log st Hs Hg) as HS.
  destruct (Save MaybeCompact m st None log) as [[m' log'] e] eqn:ES.
  assert (persisted m' = Some st) as Hm by (unfold Save in ES; destruct (MaybeCompact _); by injection ES as <- <- <-).
  destruct HS as [Hs' Hl']. specialize (IH m' log' Hs'). rewrite Hm in IH.
  specialize (IH Hrest). destruct (saves m' log' sts) as [m'' log''].
  destruct IH as [IH1 IH2]. split_done. rewrite IH2.
  rewrite last_cons. destruct (last sts); [done|]. by rewrite Hl'.
Qed.
End saves.

Lemma fold_restore_outputs wf outs : forall e k,
  NoDup (map fst outs) ->
  stepOutputs (fold_left (fun e io => SetStepOutput io.1 (step_name_at wf io.1) io.2 e) outs e)
    !! idx_key k
  = match (list_to_map outs : gmap Z string) !! k with
    | Some v => Some v
    | None => stepOutputs e !! idx_key k
    end.
Proof.
  induction outs as [|[j v] outs IH]; intros e k Hnd; [done|].
  cbn [map fst] in Hnd. apply NoDup_cons in Hnd as [Hj Hnd].
  cbn [fold_left list_to_map foldr fst snd uncurry]. rewrite IH by done.
  change (foldr _ ∅ outs) with (list_to_map outs : gmap Z string).
  rewrite lookup_SetStepOutput.
  rewrite (bool_decide_eq_false_2 (idx_key k = name_key _)) by done. rewrite andb_false_r.
  destruct (decide (k = j)) as [->|Hne].
  - rewrite lookup_insert_eq, bool_decide_eq_true_2 by done.
    by rewrite (not_elem_of_list_to_map_1 _ _ Hj).
  - rewrite lookup_insert_ne by done. rewrite bool_decide_eq_false_2; [done|].
    unfold idx_key. intros H. injection H as H. by apply Itoa_inj in H.
Qed.

Lemma restore_variables wf outs : forall e,
  variables (fold_left (fun e io => SetStepOutput io.1 (step_name_at wf io.1) io.2 e) outs e)
  = variables e.
Proof. induction outs as [|io outs IH]; intros e; [done|]. cbn. by rewrite IH. Qed.

(** ** Properties *)

(** Crash recovery gives back the last saved state: along any run whose
    outputs and variables only grow, if every append reached the log and
    compactions keep what it recovers, then folding the log's snapshot and
    deltas yields exactly the index, data, outputs and variables of the last
    save; the manager's baseline stays the recovered state, so saves after a
    resume stay incremental. *)
Theorem wal_recovers_last_save MaybeCompact (wf : Workflow) (log : list WALRecord)
    (sts : list WorkflowState) :
  compacts MaybeCompact -> growing (LoadStateWAL log) sts ->
  let '(m', log') := saves MaybeCompact (NewWALStateManager wf (LoadStateWAL log)) log sts in
  synced m' log' /\
  payload <$> LoadStateWAL log' = match last sts with
                                  | Some st => Some (payload st)
                                  | None => payload <$> LoadStateWAL log
                                  end.
Proof. intros Hc Hg. by apply saves_synced. Qed.

(** A compaction of logs of two records: one full snapshot of their state. *)
Definition snapshot_record (st : WorkflowState) : WALRecord :=
  mkRecord (ss_StepIndex st) "" "" (ss_Data st) (ss_StepOutputs st) (ss_Variables st) false.
Definition compact_two (log : list WALRecord) : list WALRecord * option error :=
  match LoadStateWAL log with
  | Some st => if decide (2 <= length log)%nat then ([snapshot_record st], None) else (log, None)
  | None => (log, None)
  end.

Lemma replay_plain st r : (ss_WorkflowName st = "" /\ ss_DAGMode st = false /\ ss_StepNames st = []) ->
  forall st', replay_step (Some st) r = Some st' ->
  ss_WorkflowName st' = "" /\ ss_DAGMode st' = false /\ ss_StepNames st' = [].
Proof. intros H st'. cbn. destruct (rec_IsDelta r); intros [= <-]; done. Qed.
Lemma snapshot_record_load log st : LoadStateWAL log = Some st -> LoadStateWAL [snapshot_record st] = Some st.
Proof.
  assert (forall l o, (forall st, o = Some st -> ss_WorkflowName st = "" /\ ss_DAGMode st = false /\ ss_StepNames st = []) ->
    forall st, fold_left replay_step l o = Some st ->
    ss_WorkflowName st = "" /\ ss_DAGMode st = false /\ ss_StepNames st = []) as H.
  { induction l as [|r l IH]; intros o Ho st' H; [by apply Ho|]. apply IH in H; [done|].
    destruct o as [p|]; [intros q; by apply replay_plain, Ho|]. by intros q [= <-]. }
  intros Hst. apply H in Hst; [|done]. destruct st, Hst as (? & ? & ?). cbn in *. by subst.
Qed.
Lemma compact_two_compacts : compacts compact_two.
Proof.
  intros log. unfold compact_two. destruct (LoadStateWAL log) as [st|] eqn:E; [|done].
  case_decide; [|done]. by apply (snapshot_record_load log).
Qed.

Definition run_states : list WorkflowState :=
  [mkState "w" 0 "a" {[0 := "a"]} {["v" := "1"]} false [];
   mkState "w" 1 "b" {[0 := "a"; 1 := "b"]} {["v" := "2"]} false [];
   mkState "w" 2 "c" {[0 := "a"; 1 := "b"; 2 := "c"]} {["v" := "2"]} false []].

Lemma wal_recovers_last_save_witness :
  payload <$> LoadStateWAL (saves compact_two
      (NewWALStateManager (mkWorkflow "w" "" ∅ [] "" [] 0 None) None) [] run_states).2
  = Some (2, "c", {[0 := "a"; 1 := "b"; 2 := "c"]}, {["v" := "2"]}).
Proof.
  pose proof (wal_recovers_last_save compact_two (mkWorkflow "w" "" ∅ [] "" [] 0 None) [] run_states) as H.
  change (LoadStateWAL []) with (@None WorkflowState) in H.
  assert (growing None run_states) as Hg.
  { unfold run_states, growing, grows. split_and!; try done; intros p Hp;
      injection Hp as <-; split; set_solver. }
  specialize (H compact_two_compacts Hg).
  rewrite (surjective_pairing (saves _ _ [] run_states)) in H.
  exact (proj2 H).
Defined.

(** A failed append loses data for good: the baseline advances although
    the record did not reach the log, so an output that was new in the failed
    save is absent from every later delta, and recovery after a later
    successful save still sees the old value. *)
Theorem failed_append_loses_output MaybeCompact (m : WALStateManager) (log : list WALRecord)
    (p st st2 : WorkflowState) (err : error) (k : Z) (v : string) :
  compacts MaybeCompact ->
  persisted m = Some p -> synced m log ->
  ss_StepOutputs st !! k = Some v -> ss_StepOutputs st2 !! k = Some v ->
  let '(m1, log1, _) := Save MaybeCompact m st (Some err) log in
  let '(_, log2, _) := Save MaybeCompact m1 st2 None log1 in
  exists r, LoadStateWAL log2 = Some r /\ ss_StepOutputs r !! k = ss_StepOutputs p !! k.
Proof.
  intros Hc Hp Hs Hst Hst2. unfold Save. specialize (Hc (log ++ [save_record (saved_manager m st) st2])%list).
  destruct (MaybeCompact _) as [log2 e2]. cbn [fst] in Hc. rewrite Hc, LoadStateWAL_app.
  unfold synced in Hs. rewrite Hp in Hs. destruct (LoadStateWAL log) as [q|]; [|done].
  injection Hs as _ _ H3 _. unfold replay_step, save_record. cbn.
  eexists. split_done. cbn. rewrite lookup_union. unfold diffStepOutputs.
  rewrite lookup_diff_map, Hst2. cbn. rewrite decide_True by done. rewrite H3.
  by destruct (ss_StepOutputs q !! k).
Qed.

Lemma failed_append_loses_output_witness :
  let s0 := mkState "w" 0 "a" {[0 := "a"]} ∅ false [] in
  let s1 := mkState "w" 1 "b" {[0 := "a"; 1 := "b"]} ∅ false [] in
  let s2 := mkState "w" 2 "c" {[0 := "a"; 1 := "b"; 2 := "c"]} ∅ false [] in
  let wf := mkWorkflow "w" "" ∅ [] "" [] 0 None in
  let '(m0, log0) := saves compact_two (NewWALStateManager wf None) [] [s0] in
  let '(m1, log1, _) := Save compact_two m0 s1 (Some "disk full") log0 in
  let '(_, log2, _) := Save compact_two m1 s2 None log1 in
  exists r, LoadStateWAL log2 = Some r /\ ss_StepOutputs r !! 1 = None.
Proof.
  intros s0 s1 s2 wf.
  exact (failed_append_loses_output compact_two (mkManager wf (Some s0)) [save_record (mkManager wf None) s0]
    s0 s1 s2 "disk full" 1 "b" compact_two_compacts eq_refl eq_refl eq_refl eq_refl).
Defined.

(** A checkpoint round trip preserves what steps can refer to by index
    and all variables: restoring the saved state into an engine gives, for
    every step index, the output the saved engine had (or, where it had none,
    what the target engine had), and every saved variable. *)
Theorem checkpoint_roundtrip (range : gmap string string -> list (string * string))
    (range_perm : forall m, range m ≡ₚ map_to_list m)
    (wf : Workflow) (i k : Z) (data name : string) (e e0 : ExpressionEngine)
    (outs : list (Z * string)) :
  let st := SaveCurrentState range wf i data e in
  engine_wf e -> in_int64 k = true -> outs ≡ₚ map_to_list (ss_StepOutputs st) ->
  let '(e', data') := RestoreState outs st wf e0 in
  data' = data /\
  stepOutputs e' !! idx_key k =
    match stepOutputs e !! idx_key k with
    | Some v => Some v
    | None => stepOutputs e0 !! idx_key k
    end /\
  variables e' !! name =
    match variables e !! name with Some v => Some v | None => variables e0 !! name end.
Proof.
  intros st Hwf Hk Houts. unfold RestoreState. cbn [stepOutputs variables].
  assert (NoDup (map fst outs)) as Hnd by (rewrite Houts; apply NoDup_fst_map_to_list).
  split_done. split.
  - rewrite fold_restore_outputs by done.
    rewrite (list_to_map_proper _ (map_to_list (ss_StepOutputs st))) by done.
    rewrite list_to_map_to_list. unfold st. by rewrite SaveCurrentState_outputs.
  - rewrite lookup_union, restore_variables. unfold st. cbn [ss_Variables SaveCurrentState].
    by destruct (variables e !! name), (variables e0 !! name).
Qed.

Lemma checkpoint_roundtrip_witness :
  let wf := mkWorkflow "w" "" ∅ [] "" [] 0 None in
  let st := SaveCurrentState map_to_list wf 0 "hello" demo_engine in
  stepOutputs (RestoreState (map_to_list (ss_StepOutputs st)) st wf NewExpressionEngine).1
    !! idx_key 0 = Some "hello".
Proof.
  intros wf st.
  pose proof (checkpoint_roundtrip map_to_list (fun m => Permutation_refl _) wf 0 0 "hello" "who"
    demo_engine NewExpressionEngine (map_to_list (ss_StepOutputs st))
    (SetStepOutput_wf 0 "greet" "hello" _ eq_refl NewExpressionEngine_wf) eq_refl
    (Permutation_refl _)) as H.
  fold st in H. rewrite (surjective_pairing (RestoreState _ st wf NewExpressionEngine)) in H.
  destruct H as (_ & H & _). etransitivity; [exact H|]. vm_compute. reflexivity.
Defined.
