(* ===== verification/Effects.v ===== *)
(** * Effects of the executors

    Executing a node changes the world; the executors thread a world of any
    type [W] through a small state monad whose results are a value or a panic
    ([recover] is Go's deferred [recover()]).  Computations are compared
    pointwise, [m ≡ₘ m'], and the monad's operations respect that. *)

From S2P Require Import Prelude GoStrings GoTime WorkflowTypes JsonPath ExprEngine.

#[local] Open Scope string_scope.

Inductive outcome (A : Type) :=
  | Ret (a : A)
  | Panic (msg : string).
Arguments Ret {A} a.
Arguments Panic {A} msg.

Definition M (W A : Type) : Type := W -> W * outcome A.

#[export] Instance M_ret W : MRet (M W) := fun A a w => (w, Ret a).
#[export] Instance M_bind W : MBind (M W) := fun A B k m w =>
  match m w with
  | (w', Ret a) => k a w'
  | (w', Panic msg) => (w', Panic msg)
  end.

Definition value {A} (r : outcome A) : option A :=
  match r with Ret a => Some a | Panic _ => None end.

Definition throw {W A} (msg : string) : M W A := fun w => (w, Panic msg).

Definition recover {W A} (m : M W A) (handler : string -> M W A) : M W A := fun w =>
  match m w with
  | (w', Panic msg) => handler msg w'
  | r => r
  end.

(** [defer k; m]. *)
Definition deferring {W A} (m : M W A) (k : M W unit) : M W A := fun w =>
  match m w with
  | (w', r) => match k w' with
               | (w'', Ret _) => (w'', r)
               | (w'', Panic msg) => (w'', Panic msg)
               end
  end.

Definition meq {W A} (m1 m2 : M W A) : Prop := forall w, m1 w = m2 w.
Infix "≡ₘ" := meq (at level 70, no associativity) : aflare_scope.

#[export] Instance meq_equiv W A : Equivalence (@meq W A).
Proof.
  split; [by intros m w|by intros m1 m2 H w|].
  intros m1 m2 m3 H1 H2 w. by rewrite H1.
Qed.

Lemma bind_ext {W A B} (m1 m2 : M W A) (k1 k2 : A -> M W B) :
  m1 ≡ₘ m2 -> (forall a, k1 a ≡ₘ k2 a) -> (m1 ≫= k1) ≡ₘ (m2 ≫= k2).
Proof.
  intros Hm Hk w. unfold mbind, M_bind. rewrite Hm.
  destruct (m2 w) as [w' [a|msg]]; [apply Hk|done].
Qed.

Lemma recover_ext {W A} (m1 m2 : M W A) h :
  m1 ≡ₘ m2 -> recover m1 h ≡ₘ recover m2 h.
Proof. intros Hm w. unfold recover. by rewrite Hm. Qed.

Lemma deferring_ext {W A} (m1 m2 : M W A) k :
  m1 ≡ₘ m2 -> deferring m1 k ≡ₘ deferring m2 k.
Proof. intros Hm w. unfold deferring. by rewrite Hm. Qed.

Lemma bind_ret {W A B} (a : A) (k : A -> M W B) : (mret a ≫= k) ≡ₘ k a.
Proof. by intros w. Qed.

Lemma bind_assoc {W A B C} (m : M W A) (k : A -> M W B) (k' : B -> M W C) :
  ((m ≫= k) ≫= k') ≡ₘ (m ≫= (fun a => k a ≫= k')).
Proof. intros w. unfold mbind, M_bind. by destruct (m w) as [w' [a|msg]]. Qed.

(** What a computation's value satisfies when it does not panic. *)
Definition yields {W A} (m : M W A) (Q : A -> Prop) : Prop :=
  forall w w' a, m w = (w', Ret a) -> Q a.

Lemma yields_ret {W A} (a : A) (Q : A -> Prop) : Q a -> yields (W:=W) (mret a) Q.
Proof. by intros HQ w w' a' [= _ <-]. Qed.

Lemma yields_bind {W A B} (m : M W A) (k : A -> M W B) Q Q' :
  yields m Q -> (forall a, Q a -> yields (k a) Q') -> yields (m ≫= k) Q'.
Proof.
  intros Hm Hk w w' b. unfold mbind, M_bind. destruct (m w) as [w1 [a|msg]] eqn:E; [|done].
  by apply Hk, (Hm w w1).
Qed.

Lemma yields_mono {W A} (m : M W A) (Q Q' : A -> Prop) :
  yields m Q -> (forall a, Q a -> Q' a) -> yields m Q'.
Proof. intros Hm HQ w w' a H. by eapply HQ, Hm. Qed.

Lemma yields_any {W A} (m : M W A) : yields m (fun _ => True).
Proof. done. Qed.

Lemma yields_at {W A} (m : M W A) (Q : A -> Prop) w :
  yields m Q -> match (m w).2 with Ret a => Q a | Panic _ => True end.
Proof. intros Hm. destruct (m w) as [w' [a|msg]] eqn:E; [|done]. by apply (Hm w w'). Qed.

(** The continuations need agree only on what the first computation yields. *)
Lemma bind_ext_yields {W A B} (m : M W A) (k1 k2 : A -> M W B) Q :
  yields m Q -> (forall a, Q a -> k1 a ≡ₘ k2 a) -> (m ≫= k1) ≡ₘ (m ≫= k2).
Proof.
  intros Hm Hk w. unfold mbind, M_bind. destruct (m w) as [w' [a|msg]] eqn:E; [|done].
  by apply Hk, (Hm w w').
Qed.

#[export] Hint Resolve bind_ext recover_ext deferring_ext : aflare.

(** ** Contexts

    A [context.Context] as the executors use it: the values they put into it
    and the timeouts they derive it with, outermost last; whether it is done
    is for the environment to say. *)
Record Ctx := mkCtx {
  ctx_ifDepth : option Z;
  ctx_ifInput : option string;
  ctx_checkpoint : option (string * string);
  ctx_timeouts : list Z
}.

Definition Background : Ctx := mkCtx None None None [].
Definition WithTimeout (c : Ctx) (d : Z) : Ctx :=
  mkCtx (ctx_ifDepth c) (ctx_ifInput c) (ctx_checkpoint c) (d :: ctx_timeouts c).
Definition WithIfDepth (c : Ctx) (n : Z) : Ctx :=
  mkCtx (Some n) (ctx_ifInput c) (ctx_checkpoint c) (ctx_timeouts c).
Definition WithIfInput (c : Ctx) (s : string) : Ctx :=
  mkCtx (ctx_ifDepth c) (Some s) (ctx_checkpoint c) (ctx_timeouts c).
Definition WithStepCheckpoint (c : Ctx) (statePath step : string) : Ctx :=
  mkCtx (ctx_ifDepth c) (ctx_ifInput c) (Some (statePath, step)) (ctx_timeouts c).

(** A step's context: with a timeout when one is set, else only cancelled. *)
Definition step_context (c : Ctx) (timeout : Z) : Ctx :=
  if (0 <? timeout)%Z then WithTimeout c timeout else c.

(** ** The environment

    What the executors call but the workflow package does not define: nodes,
    the clock, the limiter's channel, the scheduler of goroutines, JSON and
    regular expressions.  [Execute] returns an output even with an error. *)
Definition node (W : Type) : Type :=
  Ctx -> string -> gmap string string -> M W (string * option error).

Record Env (W : Type) := mkEnv {
  env_host : Host;
  (** the order of a range over a map of strings *)
  env_range : gmap string string -> list (string * string);
  (** the order of a range over an adjacency set of the dependency graph *)
  env_range_set : nat -> gset nat -> list nat;
  (** [reg.Get] *)
  env_Get : string -> option (node W);
  (** [select] on [time.After(d)] and [ctx.Done()]: [None] when the delay
      passed, else [ctx.Err()] *)
  env_wait : Ctx -> Z -> M W (option error);
  (** [pseudoRand] *)
  env_rand : M W float64;
  (** [ConcurrencyLimiter.Acquire] and [Release] of a limiter with that many
      slots *)
  env_Acquire : Z -> Ctx -> M W (option error);
  env_Release : Z -> M W unit;
  env_IsShuttingDown : M W bool;
  (** the order in which [n] goroutines run and deliver their results *)
  env_arrival : nat -> M W (list nat);
  (** the items of [n] that a queue of that size admits in drop mode, in the
      order the workers take them *)
  env_admitted : nat -> Z -> M W (list nat);
  (** which of the workers in flight delivers its result next *)
  env_recv : list nat -> M W nat;
  (** [nodes.SafeRegexMatch pattern input] *)
  env_SafeRegexMatch : string -> string -> result bool;
  (** [nodes.ValidateJSONAgainstSchema output schema] *)
  env_ValidateSchema : string -> string -> option error;
  (** [strconv.ParseFloat(s, 64)] *)
  env_ParseFloat : string -> option float64;
  (** [json.Unmarshal] into a slice of raw messages *)
  env_raw_array : string -> option (list string);
  (** [sm.GetSecret] of the secret manager, its own errors included *)
  env_GetSecret : string -> string -> result string
}.
Arguments env_host {W}.
Arguments env_range {W}.
Arguments env_range_set {W}.
Arguments env_Get {W}.
Arguments env_wait {W}.
Arguments env_rand {W}.
Arguments env_Acquire {W}.
Arguments env_Release {W}.
Arguments env_IsShuttingDown {W}.
Arguments env_arrival {W}.
Arguments env_admitted {W}.
Arguments env_recv {W}.
Arguments env_SafeRegexMatch {W}.
Arguments env_ValidateSchema {W}.
Arguments env_ParseFloat {W}.
Arguments env_raw_array {W}.
Arguments env_GetSecret {W}.

(** ** Results *)

Record StepResult := mkResult {
  sr_StepIndex : Z;
  sr_NodeName : string;
  sr_Input : string;
  sr_Output : string;
  sr_Error : option error
}.

(** What a compound step returns: its sub-results, its output and its error. *)
Definition stepOut : Type := list StepResult * string * option error.

(** Run a computation for each element, threading an accumulator. *)
Fixpoint foldM {W A B} (f : B -> A -> M W B) (b : B) (l : list A) : M W B :=
  match l with
  | [] => mret b
  | a :: l' => b' ← f b a; foldM f b' l'
  end.

Fixpoint mapM {W A B} (f : A -> M W B) (l : list A) : M W (list B) :=
  match l with
  | [] => mret []
  | a :: l' => b ← f a; bs ← mapM f l'; mret (b :: bs)
  end.

Lemma mapM_ext {W A B} (f g : A -> M W B) l :
  (forall a, a ∈ l -> f a ≡ₘ g a) -> mapM f l ≡ₘ mapM g l.
Proof.
  induction l as [|a l IH]; intros H; [by intros w|]. cbn [mapM].
  apply bind_ext; [apply H; by left|]. intros b. apply bind_ext; [|by intros bs w].
  apply IH. intros a' Ha'. apply H. by right.
Qed.

Lemma foldM_ext {W A B} (f g : B -> A -> M W B) l : forall b,
  (forall b a, a ∈ l -> f b a ≡ₘ g b a) -> foldM f b l ≡ₘ foldM g b l.
Proof.
  induction l as [|a l IH]; intros b H; [by intros w|]. cbn [foldM].
  apply bind_ext; [apply H; by left|]. intros b'. apply IH.
  intros b'' a' Ha'. apply H. by right.
Qed.

(** An environment in which delays always pass, every slot is free, goroutines
    finish in the order they start and nothing shuts down, for a given
    registry of nodes. *)
Definition quiet_env {W} (h : Host) (get : string -> option (node W)) : Env W :=
  mkEnv W h map_to_list (fun _ s => elements s) get
    (fun _ _ => mret None) (mret (SpecFloat.S754_zero false))
    (fun _ _ => mret None) (fun _ => mret tt) (mret false)
    (fun n => mret (seq 0 n)) (fun n _ => mret (seq 0 n))
    (fun l => mret (default 0%nat (head l)))
    (fun _ _ => Err "no regex") (fun _ _ => None) (fun _ => None) (fun _ => None)
    (fun _ _ => Err "no secrets").
