(* ===== verification/Helpers.v ===== *)
(** * Helpers shared by the executors
    (src/internal/workflow/executor_helpers.go, executor_parallel.go,
    executor_map.go, executor_preview.go)

    Input overrides, conditions, output strategies, item lists, bounded
    previews and the retry loop. *)

From S2P Require Import Prelude GoStrings GoTime WorkflowTypes JsonPath ExprEngine Effects.
From Stdlib Require Import Ascii SpecFloat.

#[local] Open Scope string_scope.
#[local] Open Scope Z_scope.

Section helpers.
Context {W : Type} (env : Env W).
Let h : Host := env_host env.

(** ** Step input *)

Fixpoint render_parts (parts : list string) (defaultInput : string)
    (engine : ExpressionEngine) : result (list string) :=
  match parts with
  | [] => Ok []
  | part :: rest =>
      match Evaluate h engine part defaultInput with
      | (_, Some err) => Err ("step input evaluation failed: " +:+ err)
      | (value, None) =>
          match render_parts rest defaultInput engine with
          | Ok vs => Ok (value :: vs)
          | Err e => Err e
          end
      end
  end.

Definition ResolveStepInput (wStep : WorkflowStep) (defaultInput : string)
    (engine : ExpressionEngine) : result string :=
  match Parts (ws_Input wStep) with
  | [] => Ok defaultInput
  | parts =>
      match render_parts parts defaultInput engine with
      | Ok rendered => Ok (Join rendered part_sep)
      | Err e => Err e
      end
  end.

(** ** Conditions *)

Definition compareNumeric (op input value : string) : bool :=
  match env_ParseFloat env (TrimSpace input), env_ParseFloat env (TrimSpace value) with
  | Some a, Some b =>
      if decide (op = "gt") then SFltb b a
      else if decide (op = "lt") then SFltb a b
      else if decide (op = "gte") then SFleb b a
      else if decide (op = "lte") then SFleb a b
      else false
  | _, _ => false
  end.

(** The switch on the operator. *)
Definition condition_op (op value input : string) : result bool :=
  if decide (op = "true") then Ok true
  else if decide (op = "false") then Ok false
  else if decide (op = "contains") then Ok (Contains input value)
  else if decide (op = "equals") then Ok (bool_decide (input = value))
  else if decide (op = "starts_with") then Ok (HasPrefix input value)
  else if decide (op = "ends_with") then Ok (HasSuffix input value)
  else if decide (op = "regex") then
    wrap_err "regex evaluation failed: " (env_SafeRegexMatch env value input)
  else if decide (op = "empty") then Ok (bool_decide (input = ""))
  else if decide (op = "not_empty") then Ok (bool_decide (input <> ""))
  else if decide (op = "ne") then Ok (bool_decide (input <> value))
  else if decide (op ∈ ["gt"; "lt"; "gte"; "lte"]) then Ok (compareNumeric op input value)
  else Err ("unknown condition operator: " +:+ op).

Definition evaluateCondition (cond input : string) (engine : ExpressionEngine)
    : result bool :=
  if decide (cond = "") then Ok true else
  match Evaluate h engine cond input with
  | (_, Some err) => Err ("failed to evaluate condition expression: " +:+ err)
  | (evaluated, None) =>
      let negate := HasPrefix evaluated "not " in
      let evaluated := if negate then TrimPrefix evaluated "not " else evaluated in
      let '(op, value) :=
        match SplitN2 evaluated ":" with
        | (p, Some v) => (TrimSpace p, TrimSpace v)
        | (p, None) => (TrimSpace evaluated, "")
        end in
      result ← condition_op op value input;
      Ok (if negate then negb result else result)
  end.

(** ** Output strategies *)

(** The first of the longest parts, [best] so far. *)
Fixpoint pick_longest (best : string) (parts : list string) : string :=
  match parts with
  | [] => best
  | p :: ps =>
      pick_longest (if (String.length best <? String.length p)%nat then p else best) ps
  end.
Fixpoint pick_shortest (best : string) (parts : list string) : string :=
  match parts with
  | [] => best
  | p :: ps =>
      pick_shortest (if (String.length p <? String.length best)%nat then p else best) ps
  end.

(** A part as a JSON array element: verbatim when it is JSON, else as a
    JSON string. *)
Definition json_element (p : string) : string :=
  match json_Unmarshal (codec h) p with
  | Ok _ => p
  | Err _ => match json_Marshal (codec h) (JStr p) with Ok b => b | Err _ => "" end
  end.

Definition applyOutputStrategy (output strategy : string) : string :=
  if decide (strategy = "" \/ strategy = "join") then output else
  let parts := Split output part_sep in
  if decide (strategy = "first") then default "" (head parts)
  else if decide (strategy = "last") then default "" (last parts)
  else if decide (strategy = "longest") then pick_longest "" parts
  else if decide (strategy = "shortest") then
    match parts with [] => "" | p :: ps => pick_shortest p ps end
  else if decide (strategy = "json_array") then
    "[" +:+ Join (map json_element parts) "," +:+ "]"
  else output.

(** ** Item lists *)

Definition non_blank (s : string) : Prop := TrimSpace s <> "".
#[global] Instance non_blank_dec s : Decision (non_blank s) := _.

(** A raw JSON element: a JSON string is unquoted ([null] unmarshals into
    the empty string), anything else stays as it is. *)
Definition raw_item (r : string) : string :=
  match json_Unmarshal (codec h) r with
  | Ok (JStr s) => s
  | Ok JNull => ""
  | _ => r
  end.

Definition resolveMapItems (over0 splitBy : string) : list string :=
  let over := TrimSpace over0 in
  if decide (over = "") then [] else
  let split := filter non_blank (Split over splitBy) in
  if HasPrefix over "[" then
    match env_raw_array env over with
    | Some raw => map raw_item raw
    | None => split
    end
  else split.

(** ** Retries *)

(** How the attempts of a node ended: with its last result, or because the
    context was done during a delay. *)
Inductive retried :=
  | Attempted (output : string) (err : option error) (attempts : Z)
  | Interrupted (output : string) (ctxErr : error) (attempts : Z).

(** [left] attempts remain and [attempt] is the number of the next one;
    [run] executes the node once and [delay] gives the pause after an
    attempt. *)
Fixpoint retry_loop (run : M W (string * option error)) (delay : Z -> M W Z)
    (ctx : Ctx) (left : nat) (attempt : Z) : M W retried :=
  match left with
  | O => mret (Attempted "" None (attempt - 1))
  | S left' =>
      '(output, execErr) ← run;
      match execErr, left' with
      | None, _ => mret (Attempted output None attempt)
      | Some e, O => mret (Attempted output (Some e) attempt)
      | Some e, S _ =>
          d ← delay attempt;
          w ← env_wait env ctx d;
          match w with
          | Some ctxErr => mret (Interrupted output ctxErr attempt)
          | None => retry_loop run delay ctx left' (attempt + 1)
          end
      end
  end.

Definition retry_result (r : retried) : string * option error :=
  match r with
  | Attempted output err _ => (output, err)
  | Interrupted output ctxErr _ => (output, Some ctxErr)
  end.

Definition executeWithRetry (ctx : Ctx) (nd : node W) (input : string)
    (params : gmap string string) (retryCount retryDelay timeout : Z)
    : M W (string * option error) :=
  let retryCount := if MaxRetry <? retryCount then MaxRetry else retryCount in
  let retryDelay := if MaxRetryDelay <? retryDelay then MaxRetryDelay else retryDelay in
  let timeout := if MaxStepTimeout <? timeout then MaxStepTimeout else timeout in
  r ← retry_loop (nd (step_context ctx timeout) input params) (fun _ => mret retryDelay)
        ctx (Z.to_nat (retryCount + 1)) 1;
  mret (retry_result r).
End helpers.

(** ** Bounded previews *)

Definition PreviewMaxBytes : Z := 16 * 1024.
Definition previewHeadBytes : nat := 512.
Definition previewTailBytes : nat := 256.

(** [utf8.RuneStart]: not a continuation byte. *)
Definition RuneStart (c : ascii) : bool :=
  negb (N.land (N_of_ascii c) 192 =? 128)%N.

Fixpoint trim_start (s : string) : string :=
  match s with
  | String c s' => if RuneStart c then s else trim_start s'
  | "" => ""
  end.
Definition trim_end (s : string) : string := string_rev (trim_start (string_rev s)).

Definition nl : ascii := ascii_of_nat 10.

(** [strings.LastIndexByte]. *)
Fixpoint last_index (c : ascii) (s : string) : option nat :=
  match s with
  | "" => None
  | String d s' =>
      match last_index c s' with
      | Some i => Some (S i)
      | None => if decide (d = c) then Some 0%nat else None
      end
  end.

(** [strings.Trim(s, "\n")]. *)
Fixpoint trim_newlines_start (s : string) : string :=
  match s with
  | String c s' => if decide (c = nl) then trim_newlines_start s' else s
  | "" => ""
  end.
Definition trim_newlines (s : string) : string :=
  string_rev (trim_newlines_start (string_rev (trim_newlines_start s))).

Definition cutOnBoundary (s : string) (n : nat) (fromStart : bool) : string :=
  if ((n =? 0) || (String.length s <=? n))%nat then s else
  let cut := if fromStart then str_take n s else str_drop (String.length s - n) s in
  let cut := trim_end (trim_start cut) in
  let cut :=
    if fromStart then
      match last_index nl cut with
      | Some i => if (n / 2 <=? i)%nat then str_take i cut else cut
      | None => cut
      end
    else
      match Index cut newline with
      | Some i => if (n / 2 <=? String.length cut - i - 1)%nat
                  then str_drop (i + 1) cut else cut
      | None => cut
      end in
  trim_newlines cut.

(** UTF-8 of the em dash and the ellipsis of the header and footer texts. *)
Definition BoundedPreview (s : string) (maxBytes0 : Z) : string :=
  let maxBytes := if maxBytes0 <=? 0 then PreviewMaxBytes else maxBytes0 in
  let len := Z.of_nat (String.length s) in
  if len <=? maxBytes then s else
  let head := cutOnBoundary s previewHeadBytes true in
  let tail := cutOnBoundary s previewTailBytes false in
  let omitted := len - Z.of_nat (String.length head) - Z.of_nat (String.length tail) in
  "[aflare bounded preview — full payload: " +:+ Itoa len +:+ " bytes (string), "
    +:+ Itoa omitted +:+ " bytes elided]" +:+ newline +:+ head +:+ newline +:+ "[… "
    +:+ Itoa omitted +:+ " bytes omitted …]" +:+ newline +:+ tail +:+ newline
    +:+ "[preview only: the full payload is preserved in workflow state and is passed unchanged to non-preview steps]"
    +:+ newline.

(** ** Properties of the executors' helpers *)

(** ** Retries *)

Section retry.
Context {W : Type} (env : Env W) (calls : W -> Z).

(** [calls] counts executions of the node, and waiting executes nothing. *)
Definition counts_run (run : M W (string * option error)) : Prop :=
  forall w, calls (run w).1 = calls w + 1.
Definition counts_wait : Prop := forall c d w, calls (env_wait env c d w).1 = calls w.

(** How the count after a retry loop relates to what it returned, when
    [left] attempts were allowed from count [n]. *)
Definition retry_count_ok (n left : Z) (r : outcome retried) (n' : Z) : Prop :=
  n + 1 <= n' <= n + left /\
  match r with
  | Ret (Attempted _ (Some _) _) => n' = n + left
  | _ => True
  end.

Lemma retry_loop_calls run delay ctx left : forall attempt w,
  counts_run run -> counts_wait -> (forall a w, calls (delay a w).1 = calls w) ->
  (0 < left)%nat ->
  let '(w', r) := retry_loop env run delay ctx left attempt w in
  retry_count_ok (calls w) (Z.of_nat left) r (calls w').
Proof.
  induction left as [|left IH]; intros attempt w Hrun Hwait Hdelay Hl; [lia|].
  cbn [retry_loop]. unfold mbind, M_bind.
  specialize (Hrun w) as Hr. destruct (run w) as [w1 [[out err]|msg]]; cbn in Hr;
    [|split; [lia|done]].
  destruct err as [e|]; [|cbn; split; [lia|done]].
  destruct left as [|left]; [cbn; split; lia|].
  specialize (Hdelay attempt w1) as Hd. destruct (delay attempt w1) as [w2 [d|msg]]; cbn in Hd;
    [|cbn; split; [lia|done]].
  specialize (Hwait ctx d w2) as Hw.
  destruct (env_wait env ctx d w2) as [w3 [[ce|]|msg]]; cbn in Hw;
    try (cbn; split; [lia|done]).
  specialize (IH (attempt + 1) w3 Hrun Hwait Hdelay ltac:(lia)).
  destruct (retry_loop env run delay ctx (S left) (attempt + 1) w3) as [w4 r].
  destruct IH as [H1 H2]. split; [lia|]. destruct r as [[? [?|] ?|]|]; try done. lia.
Qed.

Lemma retry_not_interrupted run delay ctx left : forall attempt w w' o ce a,
  (forall c d w, (env_wait env c d w).2 = Ret None) ->
  retry_loop env run delay ctx left attempt w <> (w', Ret (Interrupted o ce a)).
Proof.
  induction left as [|left IH]; intros attempt w w' o ce a Hnever; cbn [retry_loop]; [done|].
  unfold mbind, M_bind. destruct (run w) as [w1 [[out [err|]]|]]; [|by intros [=]|by intros [=]].
  destruct left as [|left]; [by intros [=]|].
  destruct (delay attempt w1) as [w2 [d|]]; [|by intros [=]].
  specialize (Hnever ctx d w2) as Hw. destruct (env_wait env ctx d w2) as [w3 r]. cbn in Hw.
  subst r. by apply IH.
Qed.
End retry.

(** Retries are bounded and exhaustive: a node run with retries is
    executed at least once and at most [min retryCount MaxRetry + 1] times,
    whatever it returns; and when no delay is interrupted, a failure is only
    reported after all of those attempts were made. *)
Theorem executeWithRetry_attempts {W} (env : Env W) (calls : W -> Z) (nd : node W)
    (ctx : Ctx) (input : string) (params : gmap string string)
    (retryCount retryDelay timeout : Z) (w : W) :
  (forall c i p w, calls (nd c i p w).1 = calls w + 1) ->
  (forall c d w, calls (env_wait env c d w).1 = calls w) ->
  0 <= retryCount ->
  let max := Z.min retryCount MaxRetry + 1 in
  let '(w', r) := executeWithRetry env ctx nd input params retryCount retryDelay timeout w in
  calls w + 1 <= calls w' <= calls w + max /\
  ((forall c d w, (env_wait env c d w).2 = Ret None) ->
   forall out e, r = Ret (out, Some e) -> calls w' = calls w + max).
Proof.
  intros Hnode Hwait Hr max. unfold executeWithRetry.
  set (rc := if MaxRetry <? retryCount then MaxRetry else retryCount).
  assert (max = Z.of_nat (Z.to_nat (rc + 1))) as Hmax.
  { unfold max, rc. destruct (Z.ltb_spec MaxRetry retryCount); unfold MaxRetry in *; lia. }
  assert (0 <= rc) as Hrc by (unfold rc; destruct (MaxRetry <? retryCount); [done|lia]).
  assert ((0 < Z.to_nat (rc + 1))%nat) as Hpos by lia.
  set (run := nd (step_context ctx _) input params).
  set (delay := fun _ : Z => mret _).
  pose proof (retry_loop_calls env calls run delay ctx _ 1 w (fun w => Hnode _ _ _ w) Hwait
    (fun _ _ => eq_refl) Hpos) as HL.
  unfold mbind, M_bind. 
  destruct (retry_loop env run delay ctx (Z.to_nat (rc + 1)) 1 w) as [w' [r|msg]] eqn:E;
    destruct HL as [H1 H2]; [|split; [lia|by intros _ out e [=]]].
  cbn [mret M_ret]. split; [lia|]. intros Hnever out e Hres.
  destruct r as [o [e'|] a|o ce a]; cbn in Hres; [lia|done|].
  by apply (retry_not_interrupted env run delay ctx _ 1 w w' o ce a) in E.
Qed.

(** A node that fails until its third execution; the world counts them. *)
Definition flaky_node : node Z := fun _ _ _ w =>
  (w + 1, Ret (if w <? 2 then ("", Some "flaky") else ("ok", None))).

Lemma executeWithRetry_attempts_witness :
  let '(w', r) := executeWithRetry (quiet_env empty_host (fun _ => Some flaky_node))
                    Background flaky_node "" ∅ 1 0 0 0 in
  w' = 2 /\ r = Ret ("", Some "flaky").
Proof.
  pose proof (executeWithRetry_attempts (quiet_env empty_host (fun _ => Some flaky_node))
    (fun w => w) flaky_node Background "" ∅ 1 0 0 0 (fun _ _ _ _ => eq_refl)
    (fun _ _ _ => eq_refl) ltac:(lia)) as H.
  destruct (executeWithRetry _ _ _ _ _ _ _ _ _) as [w' r] eqn:E.
  vm_compute in E. injection E as <- <-. destruct H as [_ H].
  split; [|done]. exact (H (fun _ _ _ => eq_refl) _ _ eq_refl).
Defined.

(** ** Joining and splitting outputs *)

(** In [p] followed by the separator, the separator first occurs after [p]. *)
Definition clean_part (sep p : string) : Prop :=
  Index (p +:+ sep) sep = Some (String.length p).

Lemma prefix_of_app sub a r :
  String.prefix sub (a +:+ r) = true -> (String.length sub <= String.length a)%nat ->
  String.prefix sub a = true.
Proof.
  revert a. induction sub as [|c sub IH]; intros a H Hl; [by destruct a|].
  destruct a as [|d a]; [simpl in Hl; lia|]. cbn [String.append] in H.
  pose proof (HasPrefix_cons c sub d (a +:+ r)) as H1.
  pose proof (HasPrefix_cons c sub d a) as H2. unfold HasPrefix in *.
  rewrite H1 in H. rewrite H2. apply andb_true_iff in H as [-> H].
  simpl in Hl. by rewrite (IH a) by (done || lia).
Qed.

Lemma clean_part_app sep p r :
  clean_part sep p -> Index (p +:+ sep +:+ r) sep = Some (String.length p).
Proof.
  unfold clean_part. induction p as [|c p IH]; intros H; rewrite Index_unfold in H |- *.
  - cbn [String.append]. change (String.prefix sep (sep +:+ r)) with (HasPrefix (sep +:+ r) sep).
    by rewrite HasPrefix_app.
  - cbn [String.append] in *.
    destruct (String.prefix sep (String c (p +:+ sep))) eqn:E; [done|].
    destruct (String.prefix sep (String c (p +:+ sep +:+ r))) eqn:E'.
    + rewrite <- string_app_assoc in E'.
      apply (prefix_of_app sep (String c (p +:+ sep)) r) in E'; [congruence|].
      cbn. rewrite string_length_app. lia.
    + destruct (Index (p +:+ sep) sep) as [i|] eqn:Ei; [|done].
      injection H as ->. by rewrite IH.
Qed.

Lemma clean_part_none sep p : sep <> "" -> clean_part sep p -> Index p sep = None.
Proof.
  intros Hs. unfold clean_part. induction p as [|c p IH]; intros H; rewrite Index_unfold.
  - by destruct sep.
  - rewrite Index_unfold in H. cbn [String.append] in H.
    destruct (String.prefix sep (String c (p +:+ sep))) eqn:E; [done|].
    destruct (String.prefix sep (String c p)) eqn:E'.
    + assert (String.prefix sep (String c p +:+ sep) = true) as Hp;
        [|change (String c p +:+ sep) with (String c (p +:+ sep)) in Hp; congruence].
      apply prefix_app in E' as [t ->]. apply prefix_app. exists (t +:+ sep).
      by rewrite string_app_assoc.
    + destruct (Index (p +:+ sep) sep) as [i|] eqn:Ei; [|done]. injection H as ->.
      by rewrite IH.
Qed.

Lemma split_go_join sep parts : sep <> "" -> Forall (clean_part sep) parts -> parts <> [] ->
  forall fuel, (String.length (Join parts sep) < fuel)%nat ->
  split_go fuel (Join parts sep) sep = parts.
Proof.
  intros Hsep Hc. induction Hc as [|p parts Hp Hps IH]; intros Hne fuel Hf; [done|].
  destruct fuel as [|fuel]; [lia|]. cbn [split_go]. unfold SplitN2.
  destruct parts as [|q parts].
  - cbn [Join]. by rewrite clean_part_none.
  - change (Join (p :: q :: parts) sep) with (p +:+ sep +:+ Join (q :: parts) sep) in *.
    rewrite clean_part_app by done. rewrite str_take_app. f_equal.
    rewrite <- string_length_app, <- string_app_assoc, str_drop_app.
    apply IH; [done|]. rewrite !string_length_app in Hf.
    assert (0 < String.length sep)%nat by (destruct sep; [done|cbn; lia]). lia.
Qed.

Lemma Split_Join sep parts :
  sep <> "" -> Forall (clean_part sep) parts -> parts <> [] ->
  Split (Join parts sep) sep = parts.
Proof. intros. unfold Split. apply split_go_join; auto. Qed.

(** Output strategies recover the individual outputs: joining outputs
    that do not interfere with the separator and applying a strategy gives
    the first, the last, or a JSON array with one element per output. *)
Theorem applyOutputStrategy_joined {W} (env : Env W) (p : string) (ps : list string) :
  Forall (clean_part part_sep) (p :: ps) ->
  let joined := Join (p :: ps) part_sep in
  applyOutputStrategy env joined "first" = p /\
  applyOutputStrategy env joined "last" = default p (last ps) /\
  applyOutputStrategy env joined "json_array"
    = "[" +:+ Join (map (json_element env) (p :: ps)) "," +:+ "]".
Proof.
  intros Hc joined. unfold applyOutputStrategy. unfold joined.
  rewrite Split_Join by done. split_done. split; [|done]. cbn.
  destruct (last ps) eqn:E; rewrite last_cons, E; done.
Qed.

Lemma applyOutputStrategy_joined_witness :
  applyOutputStrategy (quiet_env (W := unit) empty_host (fun _ => None))
    (Join ["a"; "b"; "c"] part_sep) "last" = "c".
Proof.
  apply (applyOutputStrategy_joined (quiet_env (W := unit) empty_host (fun _ => None)) "a" ["b"; "c"]).
  repeat constructor.
Defined.

(** An output that contains the separator is indistinguishable from two
    outputs: the JSON array of a single output [a ++ sep ++ b] has the two
    elements [a] and [b]. *)
Theorem json_array_splits_output {W} (env : Env W) (a b : string) :
  Forall (clean_part part_sep) [a; b] ->
  applyOutputStrategy env (Join [a +:+ part_sep +:+ b] part_sep) "json_array"
  = "[" +:+ Join [json_element env a; json_element env b] "," +:+ "]".
Proof.
  intros Hc. unfold applyOutputStrategy.
  change (Join [a +:+ part_sep +:+ b] part_sep) with (Join [a; b] part_sep).
  by rewrite Split_Join.
Qed.

Lemma json_array_splits_output_witness :
  applyOutputStrategy (quiet_env (W := unit) empty_host (fun _ => None))
    (Join ["x" +:+ part_sep +:+ "y"] part_sep) "json_array" = "[,]".
Proof.
  rewrite (json_array_splits_output (quiet_env (W := unit) empty_host (fun _ => None)) "x" "y");
    [vm_compute; reflexivity|repeat constructor].
Defined.

(** ** Previews *)

(** [t] is a contiguous part of [s]. *)
Definition infix_of (t s : string) : Prop := exists pre post, s = pre +:+ t +:+ post.

Lemma infix_refl s : infix_of s s.
Proof. exists "", "". by rewrite string_app_nil_r. Qed.

Lemma infix_trans a b c : infix_of a b -> infix_of b c -> infix_of a c.
Proof.
  intros (p1 & q1 & ->) (p2 & q2 & ->). exists (p2 +:+ p1), (q1 +:+ q2).
  by rewrite !string_app_assoc.
Qed.

Lemma infix_length t s : infix_of t s -> (String.length t <= String.length s)%nat.
Proof. intros (p & q & ->). rewrite !string_length_app. lia. Qed.

Lemma infix_take n s : infix_of (str_take n s) s.
Proof. exists "", (str_drop n s). cbn. by rewrite str_take_drop. Qed.
Lemma infix_drop n s : infix_of (str_drop n s) s.
Proof. exists (str_take n s), "". by rewrite string_app_nil_r, str_take_drop. Qed.

Lemma infix_rev t s : infix_of t s -> infix_of (string_rev t) (string_rev s).
Proof.
  intros (p & q & ->). rewrite !string_rev_app_distr.
  exists (string_rev q), (string_rev p). by rewrite string_app_assoc.
Qed.

(** Dropping leading bytes, and by reversal trailing ones. *)
Definition drops_leading (f : string -> string) : Prop := forall s, infix_of (f s) s.

Lemma infix_both (f g : string -> string) s :
  drops_leading f -> drops_leading g ->
  infix_of (string_rev (g (string_rev (f s)))) s.
Proof.
  intros Hf Hg. apply (infix_trans _ (f s)); [|apply Hf].
  rewrite <- (string_rev_involutive (f s)) at 2. apply infix_rev, Hg.
Qed.

Lemma infix_cons t c s : infix_of t s -> infix_of t (String c s).
Proof. intros (p & q & ->). by exists (String c p), q. Qed.

Lemma trim_start_infix : drops_leading trim_start.
Proof.
  intros s. induction s as [|c s IH]; cbn; [apply infix_refl|].
  destruct (RuneStart c); [apply infix_refl|by apply infix_cons].
Qed.
Lemma trim_newlines_start_infix : drops_leading trim_newlines_start.
Proof.
  intros s. induction s as [|c s IH]; cbn; [apply infix_refl|].
  case_decide; [by apply infix_cons|apply infix_refl].
Qed.

#[local] Hint Resolve infix_refl infix_take infix_drop trim_start_infix
  trim_newlines_start_infix : core.

Lemma length_str_take n s : (String.length (str_take n s) <= n)%nat.
Proof. revert s. induction n as [|n IH]; intros [|c s]; cbn; try lia. specialize (IH s). lia. Qed.

Lemma cutOnBoundary_infix s n b : infix_of (cutOnBoundary s n b) s.
Proof.
  unfold cutOnBoundary. destruct (_ || _); [done|].
  set (cut := if b then str_take n s else str_drop (String.length s - n) s).
  assert (infix_of cut s) as Hcut by (unfold cut; by destruct b).
  set (cut2 := trim_end (trim_start cut)).
  assert (infix_of cut2 s) as Hcut2.
  { eapply infix_trans; [|exact Hcut]. by apply infix_both. }
  eapply infix_trans; [by apply infix_both|]. eapply infix_trans; [|exact Hcut2].
  destruct b; [destruct (last_index nl cut2)|destruct (Index cut2 newline)]; try done;
    by case_match.
Qed.

Lemma cutOnBoundary_length s n b :
  (0 < n)%nat -> (n < String.length s)%nat -> (String.length (cutOnBoundary s n b) <= n)%nat.
Proof.
  intros Hn Hs. unfold cutOnBoundary.
  rewrite (proj2 (Nat.eqb_neq n 0)) by lia. rewrite (proj2 (Nat.leb_gt _ _)) by lia. cbn [orb].
  set (cut := if b then str_take n s else str_drop (String.length s - n) s).
  assert (String.length cut <= n)%nat as Hcut.
  { unfold cut. destruct b; [apply length_str_take|]. rewrite length_str_drop. lia. }
  etransitivity; [|exact Hcut]. apply infix_length.
  eapply infix_trans; [by apply infix_both|].
  apply (infix_trans _ (trim_end (trim_start cut))); [|by apply infix_both].
  destruct b; [destruct (last_index nl _)|destruct (Index _ newline)]; try done;
    by case_match.
Qed.

(** Previews are bounded and honest: a value within the limit is passed
    unchanged; a larger one is replaced by a text built from two samples that
    are contiguous parts of it, of at most 512 and 256 bytes, and the number
    of bytes it reports as elided is the size not shown. *)
Theorem BoundedPreview_bounded (s : string) (maxBytes : Z) :
  let limit := if maxBytes <=? 0 then PreviewMaxBytes else maxBytes in
  let len := Z.of_nat (String.length s) in
  (len <= limit -> BoundedPreview s maxBytes = s) /\
  (512 < len -> limit < len ->
   exists head tail before middle after,
     infix_of head s /\ infix_of tail s /\
     (String.length head <= 512)%nat /\ (String.length tail <= 256)%nat /\
     BoundedPreview s maxBytes
     = before +:+ Itoa len +:+ " bytes (string), "
         +:+ Itoa (len - Z.of_nat (String.length head) - Z.of_nat (String.length tail))
         +:+ " bytes elided]" +:+ newline +:+ head +:+ middle +:+ tail +:+ after).
Proof.
  intros limit len. unfold BoundedPreview. fold limit. fold len. split.
  - intros H. by rewrite (proj2 (Z.leb_le _ _) H).
  - intros H512 Hlim. rewrite (proj2 (Z.leb_gt _ _) Hlim).
    set (hd := cutOnBoundary s previewHeadBytes true).
    set (tl := cutOnBoundary s previewTailBytes false).
    set (omitted := len - Z.of_nat (String.length hd) - Z.of_nat (String.length tl)).
    exists hd, tl, "[aflare bounded preview — full payload: ".
    exists (newline +:+ "[… " +:+ Itoa omitted +:+ " bytes omitted …]" +:+ newline).
    exists (newline +:+ "[preview only: the full payload is preserved in workflow state and is passed unchanged to non-preview steps]" +:+ newline).
    split_and!.
    + apply cutOnBoundary_infix.
    + apply cutOnBoundary_infix.
    + apply cutOnBoundary_length; unfold previewHeadBytes; lia.
    + apply cutOnBoundary_length; unfold previewTailBytes; lia.
    + fold omitted. by rewrite !(string_app_assoc _ _ (tl +:+ _)).
Qed.

Definition newline_free (s : string) : bool := string_forall (fun c => bool_decide (c <> nl)) s.

Lemma last_index_free s : newline_free s = true -> last_index nl s = None.
Proof.
  induction s as [|c s IH]; [done|]. cbn.
  intros [Hc%bool_decide_eq_true_1 Hs]%andb_true_iff. rewrite (IH Hs). by rewrite decide_False.
Qed.

Lemma string_forall_app p s t :
  string_forall p (s +:+ t) = string_forall p s && string_forall p t.
Proof. induction s as [|c s IH]; [done|]. cbn. by rewrite IH, andb_assoc. Qed.

Lemma trim_newlines_ends c mid d :
  c <> nl -> d <> nl -> trim_newlines (String c (mid +:+ String d "")) = String c (mid +:+ String d "").
Proof.
  intros Hc Hd. unfold trim_newlines. cbn [trim_newlines_start].
  rewrite decide_False by done.
  assert (string_rev (String c (mid +:+ String d "")) = String d (string_rev (String c mid))) as Hr.
  { change (String c (mid +:+ String d "")) with (String c mid +:+ String d "").
    by rewrite string_rev_app_distr. }
  rewrite Hr. cbn [trim_newlines_start]. rewrite decide_False by done.
  rewrite <- Hr. apply string_rev_involutive.
Qed.

(** A sample that ends on a complete multi-byte character is cut in the
    middle of it: the trailing continuation byte is dropped although the
    character was complete, and its lead byte is left dangling, an invalid
    UTF-8 sequence. *)
Theorem cutOnBoundary_dangling_lead (first : ascii) (a rest : string) (lead cont : ascii) :
  RuneStart first = true -> newline_free (String first a) = true ->
  RuneStart lead = true -> lead <> nl -> RuneStart cont = false -> rest <> "" ->
  let sample := String first a +:+ String lead (String cont "") in
  cutOnBoundary (sample +:+ rest) (String.length sample) true
  = String first a +:+ String lead "".
Proof.
  intros Hf Hfree Hl Hln Hc Hrest sample. unfold cutOnBoundary.
  assert (String.length sample <> 0%nat) as Hn0 by (cbn; lia).
  assert (String.length sample < String.length (sample +:+ rest))%nat as Hlt.
  { rewrite string_length_app. destruct rest; [done|cbn; lia]. }
  rewrite (proj2 (Nat.eqb_neq _ _) Hn0), (proj2 (Nat.leb_gt _ _) Hlt). cbn [orb].
  rewrite str_take_app.
  assert (trim_end (trim_start sample) = String first a +:+ String lead "") as ->.
  { assert (trim_start sample = sample) as -> by (unfold sample; cbn; by rewrite Hf).
    unfold trim_end.
    assert (string_rev sample = String cont (String lead (string_rev (String first a)))) as ->
      by (unfold sample; by rewrite string_rev_app_distr).
    cbn [trim_start]. rewrite Hc, Hl.
    assert (String lead (string_rev (String first a))
            = string_rev (String first a +:+ String lead "")) as ->
      by (by rewrite string_rev_app_distr).
    apply string_rev_involutive. }
  rewrite last_index_free.
  - cbn [String.append]. apply trim_newlines_ends; [|done].
    cbn in Hfree. apply andb_true_iff in Hfree as [H _]. by apply bool_decide_eq_true_1 in H.
  - unfold newline_free in *. rewrite string_forall_app, Hfree. cbn.
    by rewrite bool_decide_eq_true_2.
Qed.

Lemma cutOnBoundary_dangling_lead_witness :
  cutOnBoundary ("caf" +:+ String (ascii_of_nat 195) (String (ascii_of_nat 169) " au lait")) 5 true
  = "caf" +:+ String (ascii_of_nat 195) "".
Proof.
  apply (cutOnBoundary_dangling_lead "c"%char "af" " au lait" (ascii_of_nat 195) (ascii_of_nat 169));
    done.
Defined.
