(* ===== verification/Compound.v ===== *)
(** * Compound steps and error recovery
    (src/internal/workflow/executor_helpers.go, executor_dag.go
    [applyErrorRecovery], executor_loop.go, executor_parallel.go,
    executor_map.go, executor_map_backpressure.go, executor_reduce.go,
    executor_saga.go)

    The executors of one step call each other through sub-workflows; each is
    written here over the recursive calls it makes, a [Rec], and
    [Interpreter] ties the knot.  Goroutines of one step run one after the
    other in an order the environment chooses, each of them as a whole;
    messages to the terminal UI, telemetry, logs and durations are left out. *)

From S2P Require Import Prelude GoStrings GoTime WorkflowTypes JsonPath ExprEngine Effects Helpers.

#[local] Open Scope string_scope.
#[local] Open Scope Z_scope.

(** What [ExecuteWorkflow] returns: output, step results, error. *)
Definition wfOut : Type := string * list StepResult * option error.

(** The recursive calls: [executeSubStep], which also returns the engine it
    was given, and [ExecuteWorkflow].  The last argument of the former is the
    global limiter's number of slots. *)
Record Rec (W : Type) := mkRec {
  rec_sub : Ctx -> Z -> WorkflowStep -> string -> ExpressionEngine -> option Z ->
            M W (ExpressionEngine * stepOut);
  rec_wf : Ctx -> Workflow -> M W wfOut
}.
Arguments mkRec {W}.
Arguments rec_sub {W}.
Arguments rec_wf {W}.

(** A fresh engine that inherits variables. *)
Definition engine_with_vars (vars : gmap string string) : ExpressionEngine :=
  mkEngine ∅ ∅ vars None None.

Definition is_err (r : StepResult) : bool :=
  match sr_Error r with Some _ => true | None => false end.

Section compound.
Context {W : Type} (env : Env W) (R : Rec W).
Let h : Host := env_host env.

Definition evalParams (engine : ExpressionEngine) (params : gmap string string)
    (input : string) : result (gmap string string) :=
  EvaluateParams h (env_range env) engine params input.

(** Run [m] in a slot of the limiter, if there is one; [fail] is the result
    when no slot could be had. *)
Definition with_slot {A} (lim : option Z) (ctx : Ctx) (fail : error -> A) (m : M W A) : M W A :=
  match lim with
  | None => m
  | Some slots =>
      err ← env_Acquire env slots ctx;
      match err with
      | Some e => mret (fail e)
      | None => deferring m (env_Release env slots)
      end
  end.

(** ** if *)

Definition executeIfBranch (ctx : Ctx) (stepIndex : Z) (ifCfg : IfConfig WorkflowStep)
    (input : string) (engine : ExpressionEngine) : M W stepOut :=
  let depth := default 0 (ctx_ifDepth ctx) in
  if MaxIfDepth <=? depth then
    mret ([], "", Some ("maximum if/else nesting depth (" +:+ Itoa MaxIfDepth +:+ ") exceeded"))
  else
    match evaluateCondition env (if_Condition ifCfg) input engine with
    | Err e => mret ([], "", Some ("if condition evaluation failed: " +:+ e))
    | Ok pass =>
        let branchSteps := if pass then if_Then ifCfg else if_Else ifCfg in
        let subWf := mkWorkflow ("if-branch-" +:+ Itoa stepIndex) "" (SnapshotVars engine)
                       branchSteps "" [] 0 None in
        let childCtx := WithIfInput (WithIfDepth ctx (depth + 1)) input in
        '(output, subResults, err) ← rec_wf R childCtx subWf;
        match err with
        | Some e => mret (subResults, "", Some e)
        | None => mret (subResults, output, None)
        end
    end.

(** ** capture_error *)

Fixpoint capture_loop (ctx : Ctx) (idx : Z) (steps : list WorkflowStep) (data : string)
    (engine : ExpressionEngine) (lim : option Z) : M W (string * option error) :=
  match steps with
  | [] => mret (data, None)
  | sub :: rest =>
      '(engine', (_, out, err)) ← rec_sub R ctx idx sub data engine lim;
      match err with
      | Some e =>
          mret ("", Some ("capture_error branch step " +:+ Itoa idx +:+ " failed: " +:+ e))
      | None => capture_loop ctx (idx + 1) rest out engine' lim
      end
  end.

Definition executeCaptureErrorBranch (ctx : Ctx) (steps : list WorkflowStep) (errMsg : string)
    (parentVars : gmap string string) (lim : option Z) : M W (string * option error) :=
  match steps with
  | [] => mret (errMsg, None)
  | _ => capture_loop ctx 0 steps errMsg
           (SetVariable "error" errMsg (engine_with_vars parentVars)) lim
  end.

(** ** Error recovery *)

Record recovery := mkRecovery {
  rv_output : string;
  rv_recoveries : list string;
  rv_abort : option error;
  rv_trace : option error
}.

Definition recovered (out how : string) : recovery := mkRecovery out [how] None None.

(** [continue_on_error], the last primitive, or none at all. *)
Definition recover_continue (wStep : WorkflowStep) (output execErr : string) : recovery :=
  if ws_ContinueOnError wStep
  then mkRecovery "" ["continue_on_error"] None (Some execErr)
  else mkRecovery output [] (Some execErr) (Some execErr).

Definition recover_on_error (ctx : Ctx) (wStep : WorkflowStep) (output execErr : string)
    (engine : ExpressionEngine) (input : string) : M W recovery :=
  let otherwise := recover_continue wStep output execErr in
  match ws_OnError wStep with
  | None => mret otherwise
  | Some errStep =>
      match evalParams engine (st_Params errStep) input, env_Get env (st_Node errStep) with
      | Ok errParams, Some errNode =>
          '(errOut, err) ← errNode ctx input errParams;
          match err with
          | None => mret (recovered errOut "on_error")
          | Some _ => mret otherwise
          end
      | _, _ => mret otherwise
      end
  end.

Definition recover_fallback (ctx : Ctx) (wStep : WorkflowStep) (output execErr : string)
    (engine : ExpressionEngine) (input : string) : M W recovery :=
  if decide (ws_Fallback wStep <> "") then
    match Evaluate h engine (ws_Fallback wStep) input with
    | (fallbackVal, None) => mret (recovered fallbackVal "fallback")
    | (_, Some _) => recover_on_error ctx wStep output execErr engine input
    end
  else recover_on_error ctx wStep output execErr engine input.

Definition applyErrorRecovery (ctx : Ctx) (wStep : WorkflowStep) (output execErr : string)
    (engine : ExpressionEngine) (input : string) (lim : option Z) : M W recovery :=
  if HasCaptureError wStep then
    '(branchOut, bErr) ← executeCaptureErrorBranch ctx (ws_CaptureError wStep) execErr
                           (SnapshotVars engine) lim;
    match bErr with
    | None => mret (recovered branchOut "capture_error")
    | Some _ => recover_fallback ctx wStep output execErr engine input
    end
  else recover_fallback ctx wStep output execErr engine input.

(** ** loop *)

Record iterEval := mkIterEval {
  ie_item : string;
  ie_params : gmap string string;
  ie_err : option error
}.

(** The evaluation of the parameters for every item, on the engine that
    carries the item in its loop variables. *)
Fixpoint eval_iterations (wStep : WorkflowStep) (var input : string) (count idx : Z)
    (items : list string) (engine : ExpressionEngine) : list iterEval * ExpressionEngine :=
  match items with
  | [] => ([], engine)
  | item :: rest =>
      let engine := SetLoopVars item idx count engine in
      let ie := match evalParams engine (ws_Params wStep) input with
                | Ok params => mkIterEval item (<[var := item]> params) None
                | Err e => mkIterEval item {[var := item]} (Some e)
                end in
      let '(ies, engine') := eval_iterations wStep var input count (idx + 1) rest engine in
      (ie :: ies, engine')
  end.

(** One iteration: the node with retries, unless the parameters failed. *)
Definition run_iteration (ctx : Ctx) (wStep : WorkflowStep) (nd : node W) (ie : iterEval)
    : M W (string * option error) :=
  match ie_err ie with
  | Some e => mret ("", Some e)
  | None => executeWithRetry env ctx nd (ie_item ie) (ie_params ie) (GetRetryCount wStep)
              (GetRetryDelay wStep) (GetTimeout wStep)
  end.

Definition loop_result (stepIndex idx : Z) (wStep : WorkflowStep) (item : string)
    (r : string * option error) : StepResult :=
  mkResult (stepIndex * MaxParallel + idx) (ws_Node wStep) item r.1 r.2.

Definition loop_failure (idx : Z) (e : error) : error :=
  "loop iteration " +:+ Itoa (idx + 1) +:+ " failed: " +:+ e.

(** Process the results of the iterations in order: the step results, the
    outputs of the successful ones, and the failure that stops the loop. *)
Fixpoint loop_collect (stopOnError : bool) (mk : Z -> string -> string * option error -> StepResult)
    (idx : Z) (rs : list (string * (string * option error)))
    (results : list StepResult) (outputs : list string)
    : list StepResult * list string * option error :=
  match rs with
  | [] => (results, outputs, None)
  | (item, r) :: rest =>
      let results := (results ++ [mk idx item r])%list in
      match r.2 with
      | Some e =>
          if stopOnError then (results, outputs, Some (loop_failure idx e))
          else loop_collect stopOnError mk (idx + 1) rest results outputs
      | None => loop_collect stopOnError mk (idx + 1) rest results (outputs ++ [r.1])%list
      end
  end.

(** The sequential loop, which does not start an iteration after a failure
    that stops it. *)
Fixpoint loop_seq (ctx : Ctx) (stepIndex : Z) (wStep : WorkflowStep) (nd : node W)
    (stopOnError : bool) (idx : Z) (ies : list iterEval)
    (results : list StepResult) (outputs : list string)
    : M W (list StepResult * list string * option error) :=
  match ies with
  | [] => mret (results, outputs, None)
  | ie :: rest =>
      r ← run_iteration ctx wStep nd ie;
      let results := (results ++ [loop_result stepIndex idx wStep (ie_item ie) r])%list in
      match r.2 with
      | Some e =>
          if stopOnError then mret (results, outputs, Some (loop_failure idx e))
          else loop_seq ctx stepIndex wStep nd stopOnError (idx + 1) rest results outputs
      | None =>
          loop_seq ctx stepIndex wStep nd stopOnError (idx + 1) rest results
            (outputs ++ [r.1])%list
      end
  end.

(** Goroutines [run j] for the jobs [order], which fill the slots of
    [results]. *)
Definition run_workers {A} (order : list nat) (results : list A) (run : nat -> M W A)
    : M W (list A) :=
  foldM (fun rs j => r ← run j; mret (<[j := r]> rs)) results order.

Definition loop_concurrent (ctx : Ctx) (wStep : WorkflowStep) (nd : node W)
    (ies : list iterEval) (lim : option Z) : M W (list (string * (string * option error))) :=
  order ← env_arrival env (length ies);
  rs ← run_workers order (replicate (length ies) ("", None)) (fun j =>
    match ies !! j with
    | None => mret ("", None)
    | Some ie =>
        recover (with_slot lim ctx (fun e => ("", Some e)) (run_iteration ctx wStep nd ie))
          (fun msg => mret ("", Some ("loop iteration panicked: " +:+ msg)))
    end);
  mret (zip (map ie_item ies) rs).

Definition executeLoopStep (ctx : Ctx) (stepIndex : Z) (wStep : WorkflowStep)
    (loopCfg : LoopConfig) (input : string) (engine : ExpressionEngine) (lim : option Z)
    : M W (ExpressionEngine * stepOut) :=
  match Evaluate h engine (loop_Items loopCfg) input with
  | (_, Some e) => mret (engine, ([], "", Some ("failed to evaluate loop items: " +:+ e)))
  | (itemsStr, None) =>
      let items := filter non_blank (Split itemsStr (LoopConfigGet.GetSplitBy loopCfg)) in
      let count := Z.of_nat (length items) in
      let maxIter := LoopConfigGet.GetMaxIterations loopCfg in
      if maxIter <? count then
        mret (engine, ([], "", Some ("loop items (" +:+ Itoa count
          +:+ ") exceed max_iterations (" +:+ Itoa maxIter +:+ ")")))
      else if decide (items = []) then mret (engine, ([], "", None))
      else match env_Get env (ws_Node wStep) with
      | None => mret (engine, ([], "",
                  Some ("node '" +:+ ws_Node wStep +:+ "' not found in registry")))
      | Some nd =>
          let '(ies, engine) := eval_iterations wStep (LoopConfigGet.GetVar loopCfg) input
                                  count 0 items engine in
          let engine := ClearLoopVars engine in
          let stopOnError := LoopConfigGet.GetStopOnError loopCfg in
          '(results, outputs, err) ←
            (if LoopConfigGet.GetConcurrency loopCfg <=? 1
             then loop_seq ctx stepIndex wStep nd stopOnError 0 ies [] []
             else rs ← loop_concurrent ctx wStep nd ies lim;
                  mret (loop_collect stopOnError
                          (fun idx => loop_result stepIndex idx wStep) 0 rs [] []));
          match err with
          | Some e => mret (engine, (results, "", Some e))
          | None => mret (engine, (results, Join outputs part_sep, None))
          end
      end
  end.

(** ** parallel *)

Record parallelPreEval := mkPreEval {
  pe_nodeName : string;
  pe_evaluatedParams : gmap string string;
  pe_paramsErr : option error;
  pe_condPass : bool;
  pe_condErr : option error;
  pe_hasCond : bool
}.

Definition pre_evaluate (input : string) (engine : ExpressionEngine) (step : Step)
    : parallelPreEval :=
  let hasCond := bool_decide (st_Condition step <> "") in
  let '(condPass, condErr) :=
    if hasCond then match evaluateCondition env (st_Condition step) input engine with
                    | Ok b => (b, None)
                    | Err e => (false, Some e)
                    end
    else (false, None) in
  let '(params, paramsErr) :=
    match condErr with
    | None => if negb hasCond || condPass then
                match evalParams engine (st_Params step) input with
                | Ok m => (m, None)
                | Err e => (∅, Some e)
                end
              else (∅, None)
    | Some _ => (∅, None)
    end in
  mkPreEval (st_Node step) params paramsErr condPass condErr hasCond.

Definition preEvaluateParallelSteps (wStep : WorkflowStep) (input : string)
    (engine : ExpressionEngine) : list parallelPreEval :=
  map (pre_evaluate input engine) (ws_Parallel wStep).

Record parallelResult := mkParallelResult {
  pr_stepIndex : Z;
  pr_nodeName : string;
  pr_output : string;
  pr_err : option error
}.

Definition runParallelSubStep (ctx : Ctx) (stepIndex j : Z) (step : Step)
    (pe : parallelPreEval) (input : string) (lim : option Z) : M W parallelResult :=
  let idx := stepIndex * MaxParallel + j in
  let name := pe_nodeName pe in
  with_slot lim ctx (fun e => mkParallelResult idx name "" (Some e))
    (match pe_condErr pe with
     | Some e => mret (mkParallelResult idx name "" (Some ("condition evaluation failed: " +:+ e)))
     | None =>
         if pe_hasCond pe && negb (pe_condPass pe) then mret (mkParallelResult idx name "" None) else
         match pe_paramsErr pe with
         | Some e => mret (mkParallelResult idx name "" (Some e))
         | None =>
             match env_Get env name with
             | None => mret (mkParallelResult idx name ""
                         (Some ("node '" +:+ name +:+ "' not found in registry")))
             | Some nd =>
                 let retryCount := StepGet.GetRetryCount step in
                 let retryCount := if MaxRetry <? retryCount then MaxRetry else retryCount in
                 let retryDelay := StepGet.GetRetryDelay step in
                 let retryDelay := if MaxRetryDelay <? retryDelay then MaxRetryDelay
                                   else retryDelay in
                 r ← retry_loop env (nd (step_context ctx (StepGet.GetTimeout step)) input
                                       (pe_evaluatedParams pe))
                       (fun _ => mret retryDelay) ctx (Z.to_nat (retryCount + 1)) 1;
                 let '(output, err) := retry_result r in
                 mret (mkParallelResult idx name output err)
             end
         end
     end).

(** The results of the channel, in the order they arrive. *)
Definition collectParallelResults (rs : list parallelResult) (input : string)
    : list StepResult * list string * option error :=
  (map (fun r => mkResult (pr_stepIndex r) (pr_nodeName r) input (pr_output r) (pr_err r)) rs,
   omap (fun r => match pr_err r with None => Some (pr_output r) | Some _ => None end) rs,
   head (omap pr_err rs)).

(** The outputs joined; a separator only once the text is not empty. *)
Definition join_outputs (outputs : list string) : string :=
  fold_left (fun final out =>
    (if decide (final <> "") then final +:+ part_sep else final) +:+ out) outputs "".

Definition finalizeParallelOutput (stepResults : list StepResult) (outputs : list string)
    (firstErr : option error) (wStep : WorkflowStep) : stepOut :=
  let ok := (stepResults, join_outputs outputs, None) in
  match firstErr with
  | None => ok
  | Some e =>
      let maxFailures := if ws_MaxFailures wStep <? 0 then 0 else ws_MaxFailures wStep in
      let failureCount := Z.of_nat (length (filter (fun r => is_err r = true) stepResults)) in
      if maxFailures <? failureCount then
        (stepResults, "", Some ("parallel step failed: " +:+ Itoa failureCount +:+ "/"
           +:+ Itoa (Z.of_nat (length (ws_Parallel wStep)))
           +:+ " sub-steps failed (max_failures: " +:+ Itoa maxFailures +:+ "): " +:+ e))
      else ok
  end.

Definition executeParallelStep (ctx : Ctx) (stepIndex : Z) (wStep : WorkflowStep)
    (input : string) (engine : ExpressionEngine) (lim : option Z) : M W stepOut :=
  let n := length (ws_Parallel wStep) in
  if MaxParallel <? Z.of_nat n then
    mret ([], "", Some ("too many parallel steps (" +:+ Itoa (Z.of_nat n) +:+ ", max "
                          +:+ Itoa MaxParallel +:+ ")"))
  else
    let preEvals := preEvaluateParallelSteps wStep input engine in
    order ← env_arrival env n;
    rs ← mapM (fun j =>
      match ws_Parallel wStep !! j, preEvals !! j with
      | Some step, Some pe =>
          recover (runParallelSubStep ctx stepIndex (Z.of_nat j) step pe input lim)
            (fun msg => mret (mkParallelResult (stepIndex * MaxParallel + Z.of_nat j)
               (pe_nodeName pe) "" (Some ("parallel step panicked: " +:+ msg))))
      | _, _ => mret (mkParallelResult 0 "" "" None)
      end) order;
    let '(stepResults, outputs, firstErr) := collectParallelResults rs input in
    mret (finalizeParallelOutput stepResults outputs firstErr wStep).
End compound.

Section nested.
Context {W : Type} (env : Env W) (R : Rec W).
Let h : Host := env_host env.

(** The sub-workflow of one iteration: the steps in order, each on the
    output of the one before it; the data reached and the failure. *)
Fixpoint run_steps (ctx : Ctx) (idx : Z) (steps : list WorkflowStep) (data : string)
    (engine : ExpressionEngine) (lim : option Z) : M W (string * option error) :=
  match steps with
  | [] => mret (data, None)
  | sub :: rest =>
      '(engine', (_, out, err)) ← rec_sub R ctx idx sub data engine lim;
      match err with
      | Some e => mret (data, Some e)
      | None => run_steps ctx idx rest out engine' lim
      end
  end.

(** ** map *)

(** [runOne]; a panic is logged and leaves the zero result. *)
Definition runOne (ctx : Ctx) (stepIndex : Z) (cfg : MapConfig WorkflowStep)
    (parentVars : gmap string string) (count : Z) (lim : option Z) (idx : Z) (item : string)
    : M W (string * option error) :=
  recover
    ('(data, err) ← run_steps ctx (stepIndex * MaxParallel + idx) (map_Steps cfg) item
                      (SetLoopVars item idx count (engine_with_vars parentVars)) lim;
     match err with
     | Some e => mret ("", Some e)
     | None => mret (data, None)
     end)
    (fun _ => mret ("", None)).

Definition map_result (stepIndex idx : Z) (item : string) (r : string * option error)
    : StepResult := mkResult (stepIndex * MaxParallel + idx) "map" item r.1 r.2.

Definition map_failure (idx : Z) (e : error) : error :=
  "map iteration " +:+ Itoa (idx + 1) +:+ " failed: " +:+ e.

Fixpoint map_seq (run : Z -> string -> M W (string * option error)) (stepIndex : Z)
    (stopOnError : bool) (idx : Z) (items : list string)
    (results : list StepResult) (outputs : list string)
    : M W (list StepResult * list string * option error) :=
  match items with
  | [] => mret (results, outputs, None)
  | item :: rest =>
      r ← run idx item;
      let results := (results ++ [map_result stepIndex idx item r])%list in
      match r.2 with
      | Some e =>
          if stopOnError then mret (results, outputs, Some (map_failure idx e))
          else map_seq run stepIndex stopOnError (idx + 1) rest results (outputs ++ [""])%list
      | None => map_seq run stepIndex stopOnError (idx + 1) rest results (outputs ++ [r.1])%list
      end
  end.

(** The in-order processing after the workers are done. *)
Fixpoint map_collect (stepIndex : Z) (stopOnError : bool) (idx : Z)
    (rs : list (string * (string * option error)))
    (results : list StepResult) (outputs : list string)
    : list StepResult * list string * option error :=
  match rs with
  | [] => (results, outputs, None)
  | (item, r) :: rest =>
      let results := (results ++ [map_result stepIndex idx item r])%list in
      match r.2 with
      | Some e =>
          if stopOnError then (results, outputs, Some (map_failure idx e))
          else map_collect stepIndex stopOnError (idx + 1) rest results (outputs ++ [""])%list
      | None => map_collect stepIndex stopOnError (idx + 1) rest results (outputs ++ [r.1])%list
      end
  end.

(** The worker pool: the items the queue of the pool admits ([submit]
    always does in block mode), in the order the workers take them; an item
    that was not admitted keeps the zero result. *)
Definition map_concurrent (ctx : Ctx) (run : Z -> string -> M W (string * option error))
    (cfg : MapConfig WorkflowStep) (items : list string) (lim : option Z)
    : M W (list (string * (string * option error))) :=
  let n := length items in
  order ← (if decide (MapConfigGet.GetBackpressure cfg = "drop")
           then env_admitted env n (MapConfigGet.GetQueueSize cfg) else env_arrival env n);
  rs ← run_workers order (replicate n ("", None)) (fun j =>
    match items !! j with
    | None => mret ("", None)
    | Some item => with_slot env lim ctx (fun e => ("", Some e)) (run (Z.of_nat j) item)
    end);
  mret (zip items rs).

Definition executeMapStep (ctx : Ctx) (stepIndex : Z) (wStep : WorkflowStep)
    (cfg : MapConfig WorkflowStep) (input : string) (parentEngine : ExpressionEngine)
    (lim : option Z) : M W stepOut :=
  match Evaluate h parentEngine (map_Over cfg) input with
  | (_, Some e) => mret ([], "", Some ("map: failed to evaluate `over`: " +:+ e))
  | (overStr, None) =>
      let items := resolveMapItems env overStr (MapConfigGet.GetSplitBy cfg) in
      let count := Z.of_nat (length items) in
      let maxIter := MapConfigGet.GetMaxIterations cfg in
      if maxIter <? count then
        mret ([], "", Some ("map: items (" +:+ Itoa count +:+ ") exceed max_iterations ("
                              +:+ Itoa maxIter +:+ ")"))
      else if decide (items = []) then mret ([], "", None)
      else
        let run := runOne ctx stepIndex cfg (SnapshotVars parentEngine) count lim in
        let stopOnError := MapConfigGet.GetStopOnError cfg in
        '(results, outputs, err) ←
          (if MapConfigGet.GetConcurrency cfg <=? 1
           then map_seq run stepIndex stopOnError 0 items [] []
           else rs ← map_concurrent ctx run cfg items lim;
                mret (map_collect stepIndex stopOnError 0 rs [] []));
        match err with
        | Some e => mret (results, "", Some e)
        | None =>
            let strategy := if decide (ws_OutputStrategy wStep = "") then "json_array"
                            else ws_OutputStrategy wStep in
            mret (results, applyOutputStrategy env (Join outputs part_sep) strategy, None)
        end
  end.

(** ** reduce *)

Definition reduce_result (stepIndex idx : Z) (item out : string) (err : option error)
    : StepResult := mkResult (stepIndex * MaxParallel + idx) "reduce" item out err.

Fixpoint reduce_loop (ctx : Ctx) (stepIndex : Z) (cfg : ReduceConfig WorkflowStep)
    (parentVars : gmap string string) (count : Z) (lim : option Z) (idx : Z)
    (items : list string) (acc : string) (results : list StepResult) : M W stepOut :=
  match items with
  | [] => mret (results, acc, None)
  | item :: rest =>
      '(data, err) ← run_steps ctx (stepIndex * MaxParallel + idx) (red_Steps cfg) item
                       (SetReduceVars acc item idx count (engine_with_vars parentVars)) lim;
      let results := (results ++ [reduce_result stepIndex idx item data err])%list in
      match err with
      | Some e => mret (results, "", Some ("reduce iteration " +:+ Itoa (idx + 1)
                                             +:+ " failed: " +:+ e))
      | None => reduce_loop ctx stepIndex cfg parentVars count lim (idx + 1) rest data results
      end
  end.

Definition executeReduceStep (ctx : Ctx) (stepIndex : Z) (cfg : ReduceConfig WorkflowStep)
    (input : string) (parentEngine : ExpressionEngine) (lim : option Z) : M W stepOut :=
  match Evaluate h parentEngine (red_Over cfg) input with
  | (_, Some e) => mret ([], "", Some ("reduce: failed to evaluate `over`: " +:+ e))
  | (overStr, None) =>
      let items := resolveMapItems env overStr (ReduceConfigGet.GetSplitBy cfg) in
      let count := Z.of_nat (length items) in
      let maxIter := ReduceConfigGet.GetMaxIterations cfg in
      if maxIter <? count then
        mret ([], "", Some ("reduce: items (" +:+ Itoa count +:+ ") exceed max_iterations ("
                              +:+ Itoa maxIter +:+ ")"))
      else
        match Evaluate h parentEngine (red_Initial cfg) input with
        | (_, Some e) => mret ([], "", Some ("reduce: failed to evaluate `initial`: " +:+ e))
        | (acc, None) =>
            if decide (items = []) then mret ([], acc, None)
            else reduce_loop ctx stepIndex cfg (SnapshotVars parentEngine) count lim 0 items acc []
        end
  end.

(** ** saga *)

Record sagaCompletedStep := mkCompleted { sc_idx : nat; sc_output : string }.

(** The compensation loop; [completed] is in the order of the forward
    steps and is walked from its end. *)
Fixpoint compensate_loop (ctx : Ctx) (stepIndex : Z) (rev_completed : list sagaCompletedStep)
    (sagaSteps : list (SagaStep WorkflowStep)) (parentVars : gmap string string)
    (triggerErr : string) (lim : option Z) (results : list StepResult)
    : M W (list StepResult) :=
  match rev_completed with
  | [] => mret results
  | c :: rest =>
      match sagaSteps !! sc_idx c ≫= sg_Compensate with
      | None => compensate_loop ctx stepIndex rest sagaSteps parentVars triggerErr lim results
      | Some comp =>
          '(_, (compSub, _, _)) ←
            rec_sub R ctx (stepIndex * MaxParallel + Z.of_nat (sc_idx c)) comp (sc_output c)
              (SetVariable "error" triggerErr (engine_with_vars parentVars)) lim;
          compensate_loop ctx stepIndex rest sagaSteps parentVars triggerErr lim
            (results ++ compSub)%list
      end
  end.

Definition compensateSaga (ctx : Ctx) (stepIndex : Z) (completed : list sagaCompletedStep)
    (sagaSteps : list (SagaStep WorkflowStep)) (parentVars : gmap string string)
    (triggerErr : string) (lim : option Z) (results : list StepResult)
    : M W (list StepResult) :=
  compensate_loop ctx stepIndex (reverse completed) sagaSteps parentVars triggerErr lim results.

Definition last_output (completed : list sagaCompletedStep) : string :=
  match last completed with Some c => sc_output c | None => "" end.

Fixpoint saga_loop (ctx : Ctx) (stepIndex : Z) (all : list (SagaStep WorkflowStep))
    (parentVars : gmap string string) (lim : option Z) (idx : nat)
    (todo : list (SagaStep WorkflowStep)) (data : string)
    (completed : list sagaCompletedStep) (results : list StepResult) : M W stepOut :=
  match todo with
  | [] => mret (results, data, None)
  | sg :: rest =>
      '(_, (subResults, out, fwdErr)) ←
        rec_sub R ctx (stepIndex * MaxParallel + Z.of_nat idx) (sg_Forward sg) data
          (engine_with_vars parentVars) lim;
      let results := (results ++ subResults)%list in
      match fwdErr with
      | Some e =>
          results ← compensateSaga ctx stepIndex completed all parentVars e lim results;
          mret (results, last_output completed,
                Some ("saga forward step " +:+ Itoa (Z.of_nat idx) +:+ " failed: " +:+ e))
      | None =>
          saga_loop ctx stepIndex all parentVars lim (S idx) rest out
            (completed ++ [mkCompleted idx out])%list results
      end
  end.

Definition executeSagaStep (ctx : Ctx) (stepIndex : Z) (cfg : SagaConfig WorkflowStep)
    (input : string) (parentEngine : ExpressionEngine) (lim : option Z) : M W stepOut :=
  saga_loop ctx stepIndex (sg_Steps cfg) (SnapshotVars parentEngine) lim 0 (sg_Steps cfg)
    input [] [].

(** ** executeSubStep *)

(** A plain node, after the compound kinds were excluded. *)
Definition executeSubNode (ctx : Ctx) (baseIdx : Z) (subStep : WorkflowStep)
    (input : string) (engine : ExpressionEngine) (lim : option Z)
    : M W (ExpressionEngine * stepOut) :=
  match evalParams env engine (ws_Params subStep) input with
  | Err e => mret (engine, ([], "", Some ("sub-step param eval failed: " +:+ e)))
  | Ok evaluatedParams =>
      match env_Get env (ws_Node subStep) with
      | None => mret (engine, ([], "",
                  Some ("node '" +:+ ws_Node subStep +:+ "' not found in registry")))
      | Some nd =>
          let retryCount := GetRetryCount subStep in
          let retryCount := if MaxRetry <? retryCount then MaxRetry else retryCount in
          let stepTimeout := GetTimeout subStep in
          let stepTimeout := if MaxStepTimeout <? stepTimeout then MaxStepTimeout
                             else stepTimeout in
          '(output, execErr) ← executeWithRetry env ctx nd input evaluatedParams retryCount
                                 (GetRetryDelay subStep) stepTimeout;
          rv ← match execErr with
               | Some e => applyErrorRecovery env R ctx subStep output e engine input lim
               | None => mret (mkRecovery output [] None None)
               end;
          let sr := mkResult baseIdx (ws_Node subStep) input (rv_output rv) (rv_trace rv) in
          match rv_abort rv with
          | Some e => mret (engine, ([sr], "",
                        Some ("sub-step node '" +:+ ws_Node subStep +:+ "' failed: " +:+ e)))
          | None => mret (SetStepOutput baseIdx (ws_Name subStep) (rv_output rv) engine,
                          ([sr], rv_output rv, None))
          end
      end
  end.

Definition executeSubStep (ctx : Ctx) (baseIdx : Z) (subStep : WorkflowStep)
    (input : string) (engine : ExpressionEngine) (lim : option Z)
    : M W (ExpressionEngine * stepOut) :=
  let keep := fun r : stepOut => mret (engine, r) in
  match ws_If subStep with
  | Some ifCfg => r ← executeIfBranch env R ctx baseIdx ifCfg input engine; keep r
  | None =>
  match ws_Loop subStep with
  | Some loopCfg => executeLoopStep env ctx baseIdx subStep loopCfg input engine lim
  | None =>
  if IsParallel subStep then
    r ← executeParallelStep env ctx baseIdx subStep input engine lim; keep r
  else
  match ws_Map subStep with
  | Some cfg => r ← executeMapStep ctx baseIdx subStep cfg input engine lim; keep r
  | None =>
  match ws_Reduce subStep with
  | Some cfg => r ← executeReduceStep ctx baseIdx cfg input engine lim; keep r
  | None =>
  match ws_Saga subStep with
  | Some cfg => r ← executeSagaStep ctx baseIdx cfg input engine lim; keep r
  | None =>
      match (match ws_Input subStep with
             | Some _ => ResolveStepInput env subStep input engine
             | None => Ok input
             end) with
      | Err e => keep ([], "", Some ("sub-step input eval failed: " +:+ e))
      | Ok input =>
          match evaluateCondition env (ws_Condition subStep) input engine with
          | Err e => keep ([], "", Some ("sub-step condition failed: " +:+ e))
          | Ok false => keep ([], "", None)
          | Ok true => executeSubNode ctx baseIdx subStep input engine lim
          end
      end
  end end end end end.
End nested.
