(* ===== verification/CompoundProofs.v ===== *)
(** * Properties of compound steps and error recovery *)

From S2P Require Import Prelude GoStrings GoTime WorkflowTypes JsonPath ExprEngine Effects Helpers.
From S2P Require Import Compound.

#[local] Open Scope string_scope.
#[local] Open Scope Z_scope.

(** ** Sagas *)

(** A call of [executeSubStep]: index, step, input and {{var.error}}. *)
Record call := mkCall {
  c_idx : Z;
  c_step : WorkflowStep;
  c_input : string;
  c_error : option string
}.

(** Sub-steps that record their call and answer with any function [f] of the
    calls so far. *)
Definition scripted (f : list call -> call -> stepOut) : Rec (list call) :=
  mkRec (fun ctx idx step input engine lim log =>
           let c := mkCall idx step input (variables engine !! "error") in
           ((log ++ [c])%list, Ret (engine, f log c)))
        (fun ctx wf log => (log, Ret ("", [], None))).

Section saga.
Context (f : list call -> call -> stepOut) (ctx : Ctx) (stepIndex : Z)
  (vars : gmap string string) (lim : option Z).

Definition sub_index (j : nat) : Z := stepIndex * MaxParallel + Z.of_nat j.

(** The call of forward step [j] and of the compensation of a completed
    step. *)
Definition forward_call (j : nat) (sg : SagaStep WorkflowStep) (input : string) : call :=
  mkCall (sub_index j) (sg_Forward sg) input (vars !! "error").
Definition compensation_call (steps : list (SagaStep WorkflowStep)) (err : string)
    (c : sagaCompletedStep) : option call :=
  comp ← steps !! sc_idx c ≫= sg_Compensate;
  Some (mkCall (sub_index (sc_idx c)) comp (sc_output c) (Some err)).

(** [forward_run j todo input log completed log' data]: the forward steps of
    [todo], from position [j], all succeed, each on the output of the one
    before; they append their calls to the log. *)
Inductive forward_run : nat -> list (SagaStep WorkflowStep) -> string -> list call ->
    list sagaCompletedStep -> list call -> string -> Prop :=
  | fwd_nil j data log : forward_run j [] data log [] log data
  | fwd_cons j sg todo input log res out completed log' data :
      f log (forward_call j sg input) = (res, out, None) ->
      forward_run (S j) todo out (log ++ [forward_call j sg input]) completed log' data ->
      forward_run j (sg :: todo) input log (mkCompleted j out :: completed) log' data.

Lemma compensate_calls steps err : forall rev_completed results log,
  exists results',
    compensate_loop (scripted f) ctx stepIndex rev_completed steps vars err lim results log
    = ((log ++ omap (compensation_call steps err) rev_completed)%list, Ret results').
Proof.
  induction rev_completed as [|c rest IH]; intros results log; cbn [compensate_loop omap list_omap].
  - exists results. by rewrite app_nil_r.
  - unfold compensation_call at 1.
    destruct (steps !! sc_idx c ≫= sg_Compensate) as [comp|]; cbn [mbind option_bind].
    + unfold mbind at 1, M_bind. cbn [rec_sub scripted].
      destruct (f log _) as [[compSub o] e].
      destruct (IH (results ++ compSub)%list
        (log ++ [mkCall (sub_index (sc_idx c)) comp (sc_output c) (Some err)])%list)
        as [results' HIH].
      exists results'. unfold sub_index in *. cbn [variables SetVariable engine_with_vars].
      rewrite lookup_insert_eq, HIH. by rewrite <- app_assoc.
    + apply IH.
Qed.

(** What a saga does: it commits after all forward steps, or the first
    failing one triggers the compensations in reverse order. *)
Inductive saga_outcome (steps : list (SagaStep WorkflowStep)) (input : string)
    : list call -> string -> option error -> Prop :=
  | saga_commits completed log data :
      forward_run 0 steps input [] completed log data ->
      saga_outcome steps input log data None
  | saga_aborts before sg after completed log data res out e :
      steps = (before ++ sg :: after)%list ->
      forward_run 0 before input [] completed log data ->
      f log (forward_call (length before) sg data) = (res, out, Some e) ->
      saga_outcome steps input
        (log ++ [forward_call (length before) sg data]
           ++ omap (compensation_call steps e) (reverse completed))
        (last_output completed)
        (Some ("saga forward step " +:+ Itoa (Z.of_nat (length before)) +:+ " failed: " +:+ e)).

Lemma forward_run_snoc j todo input log completed log' data sg res out :
  forward_run j todo input log completed log' data ->
  f log' (forward_call (j + length todo) sg data) = (res, out, None) ->
  forward_run j (todo ++ [sg]) input log (completed ++ [mkCompleted (j + length todo) out])
    (log' ++ [forward_call (j + length todo) sg data]) out.
Proof.
  induction 1 as [j data log|j sg' todo input log res' out' completed log' data Hf Hrun IH];
    intros Hlast; cbn [length app] in *.
  - rewrite Nat.add_0_r in *. econstructor; [done|constructor].
  - econstructor; [done|]. replace (j + S (length todo))%nat with (S j + length todo)%nat in * by lia.
    by apply IH.
Qed.

Lemma saga_loop_outcome todo : forall before completed log data results input,
  forward_run 0 before input [] completed log data ->
  let steps := (before ++ todo)%list in
  exists log' results' out err,
    saga_loop (scripted f) ctx stepIndex steps vars lim (length before) todo data completed
      results log = (log', Ret (results', out, err)) /\
    saga_outcome steps input log' out err.
Proof.
  induction todo as [|sg todo IH]; intros before completed log data results input Hrun steps;
    unfold steps; cbn [saga_loop].
  - exists log, results, data, None. split_done. rewrite app_nil_r.
    econstructor. exact Hrun.
  - unfold mbind, M_bind. cbn [rec_sub scripted variables engine_with_vars].
    fold (sub_index (length before)). fold (forward_call (length before) sg data).
    destruct (f log (forward_call (length before) sg data)) as [[res out] [e|]] eqn:Ef.
    + destruct (compensate_calls (before ++ sg :: todo) e (reverse completed)
        (results ++ res) (log ++ [forward_call (length before) sg data])) as [results' Hc].
      unfold compensateSaga. rewrite Hc. eexists _, results', _, _. split; [reflexivity|].
      rewrite <- app_assoc. econstructor; done.
    + specialize (IH (before ++ [sg])%list (completed ++ [mkCompleted (length before) out])%list
        (log ++ [forward_call (length before) sg data])%list out (results ++ res)%list input).
      rewrite length_app in IH. cbn [length] in IH. rewrite Nat.add_1_r in IH.
      rewrite <- app_assoc in IH. apply IH. by apply (forward_run_snoc 0 _ _ [] _ _ _ _ res).
Qed.
End saga.

(** C10: A saga commits or rolls back: however its sub-steps behave, either
    every forward step succeeds in order, each on the output of the one
    before, and the last output is returned; or the first failing forward
    step is followed by the compensations of exactly the completed steps that
    declare one, in reverse order, each on its forward step's output and with
    the failure in {{var.error}}, regardless of how the compensations
    themselves end, and the saga reports the failure and the last completed
    output. *)
Theorem executeSagaStep_atomic (f : list call -> call -> stepOut) (ctx : Ctx) (stepIndex : Z)
    (cfg : SagaConfig WorkflowStep) (input : string) (engine : ExpressionEngine) (lim : option Z) :
  exists log results out err,
    executeSagaStep (scripted f) ctx stepIndex cfg input engine lim []
      = (log, Ret (results, out, err)) /\
    saga_outcome f stepIndex (variables engine) (sg_Steps cfg) input log out err.
Proof.
  apply (saga_loop_outcome f ctx stepIndex (variables engine) lim (sg_Steps cfg) [] [] [] input []).
  constructor.
Qed.

(** ** Error recovery *)

(** The ways a recovery can end for a step that failed with [execErr] and
    left [output]. *)
Inductive recovery_ok (wStep : WorkflowStep) (output execErr : string) : recovery -> Prop :=
  | rv_full out how :
      how = "capture_error" /\ HasCaptureError wStep = true \/
      how = "fallback" /\ ws_Fallback wStep <> "" \/
      how = "on_error" /\ is_Some (ws_OnError wStep) ->
      recovery_ok wStep output execErr (mkRecovery out [how] None None)
  | rv_continue :
      ws_ContinueOnError wStep = true ->
      recovery_ok wStep output execErr
        (mkRecovery "" ["continue_on_error"] None (Some execErr))
  | rv_fail :
      ws_ContinueOnError wStep = false ->
      recovery_ok wStep output execErr (mkRecovery output [] (Some execErr) (Some execErr)).
#[local] Hint Constructors recovery_ok : core.

Section recovery.
Context {W : Type} (env : Env W) (R : Rec W) (ctx : Ctx) (wStep : WorkflowStep)
  (output execErr : string) (engine : ExpressionEngine) (input : string).

Lemma recover_continue_ok :
  recovery_ok wStep output execErr (recover_continue wStep output execErr).
Proof. unfold recover_continue. destruct (ws_ContinueOnError wStep) eqn:E; auto. Qed.

Lemma recover_on_error_ok w w' rv :
  recover_on_error env ctx wStep output execErr engine input w = (w', Ret rv) ->
  recovery_ok wStep output execErr rv.
Proof.
  unfold recover_on_error. pose proof recover_continue_ok as Hc.
  destruct (ws_OnError wStep) as [es|] eqn:E; [|intros [= <- <-]; done].
  destruct (evalParams env engine (st_Params es) input); [|intros [= <- <-]; done].
  destruct (env_Get env (st_Node es)) as [nd|]; [|intros [= <- <-]; done].
  unfold mbind, M_bind. destruct (nd ctx input a w) as [w1 [[o [e|]]|]]; [| |done];
    intros [= <- <-]; [done|]. constructor. right. right. by rewrite E.
Qed.

Lemma recover_fallback_ok w w' rv :
  recover_fallback env ctx wStep output execErr engine input w = (w', Ret rv) ->
  recovery_ok wStep output execErr rv.
Proof.
  unfold recover_fallback. case_decide; [|apply recover_on_error_ok].
  destruct (Evaluate _ engine (ws_Fallback wStep) input) as [v [e|]];
    [apply recover_on_error_ok|]. intros [= <- <-]. constructor. auto.
Qed.
End recovery.

(** Error recovery is all or nothing and keeps failures visible: a
    failed step either recovers through a primitive it declares, with no
    error left; or continues with an empty output while the trace keeps the
    original error; or aborts the workflow with the original error and the
    node's output untouched, and then it did not declare continue_on_error. *)
Theorem applyErrorRecovery_sound {W} (env : Env W) (R : Rec W) (ctx : Ctx) (wStep : WorkflowStep)
    (output execErr : string) (engine : ExpressionEngine) (input : string) (lim : option Z)
    (w w' : W) (rv : recovery) :
  applyErrorRecovery env R ctx wStep output execErr engine input lim w = (w', Ret rv) ->
  recovery_ok wStep output execErr rv.
Proof.
  unfold applyErrorRecovery. destruct (HasCaptureError wStep) eqn:E; [|apply recover_fallback_ok].
  unfold mbind, M_bind.
  destruct (executeCaptureErrorBranch _ _ _ _ _ _ w) as [w1 [[out [e|]]|]]; [| |done].
  - apply recover_fallback_ok.
  - intros [= <- <-]. constructor. auto.
Qed.

(** A step whose fallback is a literal. *)
Definition fallback_step : WorkflowStep :=
  mkWorkflowStep "n" "s" "" ∅ "" 0 "" None [] false "plan B" None None 0 None None
    None None None [] "" [] false "" "" "" "" false.

Lemma applyErrorRecovery_sound_witness :
  recovery_ok fallback_step "" "boom" (mkRecovery "plan B" ["fallback"] None None).
Proof.
  apply (applyErrorRecovery_sound (quiet_env (W := list call) empty_host (fun _ => None))
    (scripted (fun _ _ => ([], "", None))) Background fallback_step "" "boom"
    NewExpressionEngine "" None [] []).
  vm_compute. reflexivity.
Defined.

(** ** Reduce *)

Section reduce.
Context {W : Type} (R : Rec W) (ctx : Ctx) (stepIndex : Z)
  (cfg : ReduceConfig WorkflowStep) (vars : gmap string string) (count : Z) (lim : option Z)
  (g : string -> string -> Z -> string).

(** The sub-workflow of an iteration succeeds with a function of the
    accumulator, the item and the index. *)
Definition iterates_as : Prop := forall acc item idx w, exists w',
  run_steps R ctx (stepIndex * MaxParallel + idx) (red_Steps cfg) item
    (SetReduceVars acc item idx count (engine_with_vars vars)) lim w
  = (w', Ret (g acc item idx, None)).

(** The left fold that counts its elements. *)
Fixpoint fold_indexed (idx : Z) (items : list string) (acc : string) : string :=
  match items with
  | [] => acc
  | item :: rest => fold_indexed (idx + 1) rest (g acc item idx)
  end.

Lemma reduce_loop_fold items : iterates_as -> forall idx acc results w,
  exists w' results',
    reduce_loop R ctx stepIndex cfg vars count lim idx items acc results w
    = (w', Ret ((results ++ results')%list, fold_indexed idx items acc, None)) /\
    map sr_Input results' = items /\ Forall (fun r => sr_Error r = None) results'.
Proof.
  intros Hg. induction items as [|item items IH]; intros idx acc results w;
    cbn [reduce_loop fold_indexed].
  - exists w, []. by rewrite app_nil_r.
  - destruct (Hg acc item idx w) as [w1 H1]. unfold mbind, M_bind. rewrite H1.
    destruct (IH (idx + 1) (g acc item idx)
      (results ++ [reduce_result stepIndex idx item (g acc item idx) None])%list w1)
      as (w2 & results' & H2 & Hin & Hok).
    rewrite H2. exists w2. eexists (_ :: results'). rewrite <- app_assoc.
    split; [reflexivity|]. split; [cbn; by rewrite Hin|]. by constructor.
Qed.
End reduce.

(** Reduce is the left fold of its sub-workflow: when the list and the
    initial value evaluate, the list is within its limit, and each iteration
    turns accumulator, item and index into [g acc item idx], the step's output
    is the fold of [g] over the items from the initial value, with one
    successful result per item, in order. *)
Theorem executeReduceStep_folds {W} (env : Env W) (R : Rec W) (ctx : Ctx) (stepIndex : Z)
    (cfg : ReduceConfig WorkflowStep) (input over initial : string) (engine : ExpressionEngine)
    (lim : option Z) (g : string -> string -> Z -> string) (w : W) :
  let items := resolveMapItems env over (ReduceConfigGet.GetSplitBy cfg) in
  let count := Z.of_nat (length items) in
  Evaluate (env_host env) engine (red_Over cfg) input = (over, None) ->
  Evaluate (env_host env) engine (red_Initial cfg) input = (initial, None) ->
  count <= ReduceConfigGet.GetMaxIterations cfg ->
  iterates_as R ctx stepIndex cfg (variables engine) count lim g ->
  exists w' results,
    executeReduceStep env R ctx stepIndex cfg input engine lim w
    = (w', Ret (results, fold_indexed g 0 items initial, None)) /\
    map sr_Input results = items /\ Forall (fun r => sr_Error r = None) results.
Proof.
  intros items count Hover Hinit Hmax Hg. unfold executeReduceStep. rewrite Hover. cbn zeta.
  fold items. fold count. destruct (Z.ltb_spec (ReduceConfigGet.GetMaxIterations cfg) count); [lia|].
  rewrite Hinit. case_decide as Hitems.
  - exists w, []. by rewrite Hitems.
  - destruct (reduce_loop_fold R ctx stepIndex cfg (variables engine) count lim g items Hg 0
      initial [] w) as (w' & results & H1 & H2).
    exists w', results. split; [exact H1|exact H2].
Qed.

Definition concat_reduce : ReduceConfig WorkflowStep :=
  mkReduceConfig "b" "a" [node_step "n" "s"] "" 0.

Lemma executeReduceStep_folds_witness :
  exists w' results,
    executeReduceStep (quiet_env (W := list call) empty_host (fun _ => None))
      (scripted (fun _ c => ([], c_input c +:+ "!", None))) Background 0 concat_reduce ""
      NewExpressionEngine None []
    = (w', Ret (results, "b!", None)) /\
    map sr_Input results = ["b"] /\ Forall (fun r => sr_Error r = None) results.
Proof.
  apply (executeReduceStep_folds (quiet_env (W := list call) empty_host (fun _ => None))
    (scripted (fun _ c => ([], c_input c +:+ "!", None))) Background 0 concat_reduce "" "b" "a"
    NewExpressionEngine None (fun _ item _ => item +:+ "!") []);
    [vm_compute; reflexivity..|vm_compute; discriminate|].
  intros acc item idx w. eexists. reflexivity.
Defined.

(** ** Map *)

Lemma run_workers_results {W A} (run : nat -> M W A) (g : nat -> A) order :
  (forall j w, j ∈ order -> exists w', run j w = (w', Ret (g j))) ->
  forall rs w, exists w',
    run_workers order rs run w
    = (w', Ret (fold_left (fun rs j => <[j := g j]> rs) order rs)).
Proof.
  unfold run_workers. induction order as [|j order IH]; intros Hg rs w; [by exists w|].
  destruct (Hg j w ltac:(by left)) as [w1 H1]. cbn [foldM fold_left].
  destruct (IH (fun j w Hj => Hg j w ltac:(by right)) (<[j := g j]> rs) w1) as [w2 H2].
  exists w2. unfold mbind, M_bind. rewrite H1. cbn. exact H2.
Qed.

Lemma fold_inserts {A} (g : nat -> A) order : forall rs j,
  (j < length rs)%nat ->
  fold_left (fun rs j => <[j := g j]> rs) order rs !! j
  = if decide (j ∈ order) then Some (g j) else rs !! j.
Proof.
  induction order as [|i order IH]; intros rs j Hj; cbn [fold_left].
  - by rewrite decide_False by apply not_elem_of_nil.
  - rewrite IH by (by rewrite length_insert).
    destruct (decide (j ∈ order)); [by rewrite decide_True by by right|].
    destruct (decide (j = i)) as [->|Hne].
    + rewrite decide_True by left. by apply list_lookup_insert_eq.
    + rewrite decide_False by (rewrite elem_of_cons; tauto). by apply list_lookup_insert_ne.
Qed.

Lemma fold_inserts_length {A} (g : nat -> A) order : forall rs,
  length (fold_left (fun rs j => <[j := g j]> rs) order rs) = length rs.
Proof. induction order as [|i order IH]; intros rs; [done|]. cbn. by rewrite IH, length_insert. Qed.

(** Whatever order the workers run in, each slot gets its own result. *)
Lemma fold_inserts_perm {A} (g : nat -> A) order n x :
  order ≡ₚ seq 0 n ->
  fold_left (fun rs j => <[j := g j]> rs) order (replicate n x) = map g (seq 0 n).
Proof.
  intros Hp. apply list_eq. intros j. destruct (decide (j < n)%nat) as [Hj|Hj].
  - rewrite fold_inserts by (by rewrite length_replicate).
    rewrite decide_True by (rewrite Hp, elem_of_seq; lia).
    change (map g (seq 0 n)) with (g <$> seq 0 n). rewrite list_lookup_fmap.
    by rewrite lookup_seq_lt.
  - rewrite !lookup_ge_None_2; [done| |].
    + rewrite length_map, length_seq. lia.
    + rewrite fold_inserts_length, length_replicate. lia.
Qed.

Section mapping.
Context {W : Type} (env : Env W) (stepIndex : Z)
  (g : Z -> string -> string * option error).

(** Each item with what its iteration answers. *)
Fixpoint answers (idx : Z) (items : list string) : list (string * (string * option error)) :=
  match items with
  | [] => []
  | item :: rest => (item, g idx item) :: answers (idx + 1) rest
  end.

Fixpoint result_rows (idx : Z) (rs : list (string * (string * option error)))
    : list StepResult :=
  match rs with
  | [] => []
  | (item, r) :: rest => map_result stepIndex idx item r :: result_rows (idx + 1) rest
  end.

(** The output an item contributes: none when its iteration failed. *)
Definition contribution (a : string * (string * option error)) : string :=
  match a.2.2 with Some _ => "" | None => a.2.1 end.

(** The position and error of the first failed iteration. *)
Fixpoint first_failure (rs : list (string * (string * option error))) : option (nat * error) :=
  match rs with
  | [] => None
  | (_, (_, Some e)) :: _ => Some (0%nat, e)
  | _ :: rest => (fun ke => (S ke.1, ke.2)) <$> first_failure rest
  end.

(** The in-order processing: stop at the first failure if so configured,
    else one row and one contribution per item. *)
Definition map_spec (stopOnError : bool) (idx : Z) (rs : list (string * (string * option error)))
    : list StepResult * list string * option error :=
  match (if stopOnError then first_failure rs else None) with
  | Some (k, e) =>
      (result_rows idx (take (S k) rs), map contribution (take k rs),
       Some (map_failure (idx + Z.of_nat k) e))
  | None => (result_rows idx rs, map contribution rs, None)
  end.

Definition prepend (results : list StepResult) (outputs : list string)
    (r : list StepResult * list string * option error)
    : list StepResult * list string * option error :=
  let '(results', outputs', err) := r in
  ((results ++ results')%list, (outputs ++ outputs')%list, err).

Lemma map_collect_spec stopOnError rs : forall idx results outputs,
  map_collect stepIndex stopOnError idx rs results outputs
  = prepend results outputs (map_spec stopOnError idx rs).
Proof.
  induction rs as [|[item [out [e|]]] rs IH]; intros idx results outputs; cbn [map_collect snd fst].
  - unfold map_spec, prepend. destruct stopOnError; cbn; by rewrite !app_nil_r.
  - unfold map_spec. destruct stopOnError eqn:Es; cbn [first_failure].
    + cbn. rewrite !app_nil_r, Z.add_0_r. done.
    + rewrite IH. unfold map_spec. try rewrite Es. cbn. by rewrite <- !app_assoc.
  - rewrite IH. unfold map_spec. cbn [first_failure].
    destruct (if stopOnError then first_failure rs else None) as [[k e]|] eqn:Ek;
      destruct stopOnError; try done; cbn in Ek |- *; try rewrite Ek; cbn;
      rewrite <- !app_assoc; try done.
    by replace (idx + 1 + Z.of_nat k) with (idx + Z.of_nat (S k)) by lia.
Qed.

Lemma map_seq_spec stopOnError run items :
  (forall idx item w, exists w', run idx item w = (w', Ret (g idx item))) ->
  forall idx results outputs w, exists w',
    map_seq (W := W) run stepIndex stopOnError idx items results outputs w
    = (w', Ret (prepend results outputs (map_spec stopOnError idx (answers idx items)))).
Proof.
  intros Hrun. induction items as [|item items IH]; intros idx results outputs w;
    rewrite <- map_collect_spec; cbn [map_seq answers map_collect]; [by exists w|].
  destruct (Hrun idx item w) as [w1 H1]. unfold mbind, M_bind. rewrite H1.
  destruct (g idx item) as [out [e|]]; cbn [fst snd].
  - destruct stopOnError; [by exists w1|].
    destruct (IH (idx + 1) (results ++ [map_result stepIndex idx item (out, Some e)])%list
      (outputs ++ [""])%list w1) as [w2 H2].
    exists w2. rewrite H2. by rewrite map_collect_spec.
  - destruct (IH (idx + 1) (results ++ [map_result stepIndex idx item (out, None)])%list
      (outputs ++ [out])%list w1) as [w2 H2].
    exists w2. rewrite H2. by rewrite map_collect_spec.
Qed.

Lemma answers_zip items : forall idx,
  zip items (imap (fun j item => g (idx + Z.of_nat j) item) items) = answers idx items.
Proof.
  induction items as [|item items IH]; intros idx; [done|]. cbn. rewrite Z.add_0_r. f_equal.
  rewrite <- IH. f_equal. apply imap_ext. intros j x _. cbn. f_equal. lia.
Qed.
End mapping.

(** The limiter always grants and takes back a slot. *)
Definition slots_granted {W} (env : Env W) : Prop :=
  (forall n ctx w, exists w', env_Acquire env n ctx w = (w', Ret None)) /\
  (forall n w, exists w', env_Release env n w = (w', Ret tt)).

Lemma with_slot_granted {W A} (env : Env W) lim ctx fail (m : M W A) a :
  slots_granted env -> (forall w, exists w', m w = (w', Ret a)) ->
  forall w, exists w', with_slot env lim ctx fail m w = (w', Ret a).
Proof.
  intros [Ha Hr] Hm w. unfold with_slot. destruct lim as [n|]; [|apply Hm].
  destruct (Ha n ctx w) as [w1 H1]. unfold mbind, M_bind. rewrite H1.
  destruct (Hm w1) as [w2 H2]. destruct (Hr n w2) as [w3 H3].
  exists w3. unfold deferring. by rewrite H2, H3.
Qed.

Lemma map_concurrent_answers {W} (env : Env W) ctx cfg items lim g
    (run : Z -> string -> M W (string * option error)) :
  slots_granted env -> MapConfigGet.GetBackpressure cfg <> "drop" ->
  (forall n w, exists w' order, env_arrival env n w = (w', Ret order) /\ order ≡ₚ seq 0 n) ->
  (forall idx item w, exists w', run idx item w = (w', Ret (g idx item))) ->
  forall w, exists w',
    map_concurrent env ctx run cfg items lim w = (w', Ret (answers g 0 items)).
Proof.
  intros Hslots Hblock Harr Hrun w. unfold map_concurrent. rewrite decide_False by done.
  destruct (Harr (length items) w) as (w1 & order & H1 & Hperm).
  unfold mbind, M_bind. rewrite H1.
  pose (g' := fun j => match items !! j with
                       | Some item => g (Z.of_nat j) item | None => ("", None) end).
  match goal with |- context [run_workers order _ ?f] => set (body := f) end.
  destruct (run_workers_results body g' order) with (rs := replicate (length items) ("", @None error))
    (w := w1) as [w2 H2].
  { intros j w' Hj. unfold body, g'. destruct (items !! j) as [item|]; [|by exists w'].
    apply with_slot_granted; auto. }
  exists w2. rewrite H2. unfold mret, M_ret. do 2 f_equal. rewrite fold_inserts_perm by done.
  rewrite <- answers_zip. f_equal. apply list_eq. intros j.
  change (map g' (seq 0 (length items))) with (g' <$> seq 0 (length items)).
  rewrite list_lookup_fmap, list_lookup_imap. destruct (items !! j) as [item|] eqn:E.
  - rewrite lookup_seq_lt by (by eapply lookup_lt_Some). cbn. unfold g'. by rewrite E.
  - by rewrite lookup_seq_ge by (by apply lookup_ge_None).
Qed.

(** Concurrency does not change the result of a map: if each iteration's
    answer is a function [g] of its index and item, then in block mode, at any
    concurrency and in any order the workers finish, the map returns the
    in-order processing of those answers: rows and contributions by position,
    the first failure by position if it stops on errors. *)
Theorem executeMapStep_concurrency {W} (env : Env W) (R : Rec W) (ctx : Ctx) (stepIndex : Z)
    (wStep : WorkflowStep) (cfg : MapConfig WorkflowStep) (input over : string)
    (engine : ExpressionEngine) (lim : option Z) (g : Z -> string -> string * option error) (w : W) :
  let items := resolveMapItems env over (MapConfigGet.GetSplitBy cfg) in
  let count := Z.of_nat (length items) in
  Evaluate (env_host env) engine (map_Over cfg) input = (over, None) ->
  items <> [] -> count <= MapConfigGet.GetMaxIterations cfg ->
  slots_granted env -> MapConfigGet.GetBackpressure cfg <> "drop" ->
  (forall n w, exists w' order, env_arrival env n w = (w', Ret order) /\ order ≡ₚ seq 0 n) ->
  (forall idx item w, exists w',
     runOne R ctx stepIndex cfg (variables engine) count lim idx item w = (w', Ret (g idx item))) ->
  exists w', executeMapStep env R ctx stepIndex wStep cfg input engine lim w
    = (w', Ret match map_spec stepIndex (MapConfigGet.GetStopOnError cfg) 0 (answers g 0 items) with
               | (results, _, Some e) => (results, "", Some e)
               | (results, outputs, None) =>
                   (results, applyOutputStrategy env (Join outputs part_sep)
                      (if decide (ws_OutputStrategy wStep = "") then "json_array"
                       else ws_OutputStrategy wStep), None)
               end).
Proof.
  intros items count Hover Hne Hmax Hslots Hblock Harr Hrun. unfold executeMapStep.
  rewrite Hover. cbn zeta. fold items. fold count.
  destruct (Z.ltb_spec (MapConfigGet.GetMaxIterations cfg) count); [lia|].
  rewrite decide_False by done.
  set (run := runOne R ctx stepIndex cfg (SnapshotVars engine) count lim).
  set (body := if _ <=? 1 then _ else _).
  assert (exists w', body w = (w', Ret (map_spec stepIndex (MapConfigGet.GetStopOnError cfg) 0
      (answers g 0 items)))) as [w1 H1].
  { unfold body. destruct (MapConfigGet.GetConcurrency cfg <=? 1).
    - destruct (map_seq_spec stepIndex g (MapConfigGet.GetStopOnError cfg) run items Hrun 0 [] [] w)
        as [w1 H1]. exists w1. rewrite H1. unfold prepend. by destruct (map_spec _ _ _ _) as [[? ?] ?].
    - destruct (map_concurrent_answers env ctx cfg items lim g run Hslots Hblock Harr Hrun w)
        as [w1 H1]. exists w1. unfold mbind, M_bind. rewrite H1. rewrite map_collect_spec.
      unfold prepend. by destruct (map_spec _ _ _ _) as [[? ?] ?]. }
  exists w1. unfold mbind at 1, M_bind. rewrite H1.
  by destruct (map_spec _ _ _ _) as [[results outputs] [e|]].
Qed.

Definition shout_map (concurrency : Z) : MapConfig WorkflowStep :=
  mkMapConfig "{{input}}" [node_step "n" "s"] "," concurrency None 0 "" 0.

Lemma executeMapStep_concurrency_witness :
  exists w', executeMapStep (quiet_env (W := list call) empty_host (fun _ => None))
      (scripted (fun _ c => ([], c_input c +:+ "!", None))) Background 0
      (node_step "" "") (shout_map 4) "a,b" NewExpressionEngine None []
    = (w', Ret ([mkResult 0 "map" "a" "a!" None; mkResult 1 "map" "b" "b!" None], "[,]", None)).
Proof.
  apply (executeMapStep_concurrency (quiet_env (W := list call) empty_host (fun _ => None))
    (scripted (fun _ c => ([], c_input c +:+ "!", None))) Background 0 (node_step "" "")
    (shout_map 4) "a,b" "a,b" NewExpressionEngine None (fun _ item => (item +:+ "!", None)) []);
    [vm_compute; reflexivity|done|vm_compute; discriminate| |done| |].
  - split; intros; eexists; reflexivity.
  - intros n w. exists w, (seq 0 n). split; [reflexivity|done].
  - intros idx item w. eexists. reflexivity.
Defined.

(** A panic inside a map iteration is swallowed: the iteration counts as
    a success with an empty output, so a map over one item whose sub-workflow
    panics returns no error even when it stops on errors. *)
Theorem map_swallows_panic {W} (env : Env W) (R : Rec W) (ctx : Ctx) (stepIndex : Z)
    (wStep : WorkflowStep) (cfg : MapConfig WorkflowStep) (input over item msg : string)
    (engine : ExpressionEngine) (lim : option Z) (w w' : W) :
  Evaluate (env_host env) engine (map_Over cfg) input = (over, None) ->
  resolveMapItems env over (MapConfigGet.GetSplitBy cfg) = [item] ->
  MapConfigGet.GetStopOnError cfg = true -> MapConfigGet.GetConcurrency cfg = 1 ->
  ws_OutputStrategy wStep = "join" ->
  run_steps R ctx (stepIndex * MaxParallel) (map_Steps cfg) item
    (SetLoopVars item 0 1 (engine_with_vars (variables engine))) lim w = (w', Panic msg) ->
  executeMapStep env R ctx stepIndex wStep cfg input engine lim w
  = (w', Ret ([map_result stepIndex 0 item ("", None)], "", None)).
Proof.
  intros Hover Hitems Hstop Hconc Hstrat Hpanic. unfold executeMapStep.
  rewrite Hover, Hitems, Hconc, Hstop. cbn zeta.
  destruct (Z.ltb_spec (MapConfigGet.GetMaxIterations cfg) (Z.of_nat (length [item]))) as [Hlt|_].
  { unfold MapConfigGet.GetMaxIterations, clamp_iterations in Hlt. cbn in Hlt.
    destruct (Z.leb_spec (map_MaxIterations cfg) 0), (Z.ltb_spec 10000 (map_MaxIterations cfg)); lia. }
  assert (runOne R ctx stepIndex cfg (SnapshotVars engine) (Z.of_nat (length [item])) lim 0 item w
          = (w', Ret ("", None))) as Hrun.
  { unfold runOne, recover, mbind, M_bind. rewrite Z.add_0_r.
    change (Z.of_nat (length [item])) with 1. unfold SnapshotVars. by rewrite Hpanic. }
  rewrite decide_False by done. cbn [map_seq Z.leb Z.compare Pos.compare Pos.compare_cont].
  unfold mbind, M_bind. rewrite Hrun. cbn [fst snd app mret M_ret].
  rewrite decide_False by (by rewrite Hstrat). by rewrite Hstrat.
Qed.

Definition panicking : Rec unit :=
  mkRec (fun _ _ _ _ _ _ w => (w, Panic "nil map")) (fun _ _ w => (w, Panic "nil map")).

Lemma map_swallows_panic_witness :
  executeMapStep (quiet_env (W := unit) empty_host (fun _ => None)) panicking Background 0
    (mkWorkflowStep "" "" "" ∅ "" 0 "" None [] false "" None None 0 None None
       None None None [] "join" [] false "" "" "" "" false) (shout_map 1) "a"
    NewExpressionEngine None tt
  = (tt, Ret ([mkResult 0 "map" "a" "" None], "", None)).
Proof.
  apply (map_swallows_panic (quiet_env (W := unit) empty_host (fun _ => None)) panicking Background 0
    (mkWorkflowStep "" "" "" ∅ "" 0 "" None [] false "" None None 0 None None
       None None None [] "join" [] false "" "" "" "" false) (shout_map 1) "a" "a" "a" "nil map"
    NewExpressionEngine None tt tt); vm_compute; reflexivity.
Defined.

(** ** Parallel *)

(** The failed sub-steps among the results of a parallel step. *)
Definition failures (rs : list parallelResult) : nat :=
  length (filter (fun r => is_Some (pr_err r)) rs).

Lemma failures_collected rs input :
  length (filter (fun r => is_err r = true) (collectParallelResults rs input).1.1) = failures rs.
Proof.
  unfold failures, collectParallelResults. cbn [fst].
  induction rs as [|r rs IH]; [done|]. cbn [map]. rewrite !filter_cons.
  destruct (pr_err r) as [e|] eqn:E.
  - rewrite !decide_True; [cbn; by rewrite IH|done|done].
  - rewrite !decide_False; [exact IH|by intros []|done].
Qed.

Lemma first_error_none rs : head (omap pr_err rs) = None <-> failures rs = 0%nat.
Proof.
  unfold failures. induction rs as [|r rs IH]; [done|]. cbn [omap list_omap]. rewrite filter_cons.
  destruct (pr_err r) as [e|] eqn:E.
  - rewrite decide_True by done. cbn. split; done.
  - rewrite decide_False by (by intros []). exact IH.
Qed.

(** The failure threshold of a parallel step is exact: in whatever order
    the sub-steps' results arrive, the step fails if and only if more of them
    failed than max_failures allows (a negative limit allowing none); the
    results of all sub-steps are returned either way, and otherwise the output
    is the joined outputs of the successful ones. *)
Theorem parallel_threshold_exact (wStep : WorkflowStep) (rs : list parallelResult) (input : string) :
  let '(results, outputs, firstErr) := collectParallelResults rs input in
  let '(results', out, err) := finalizeParallelOutput results outputs firstErr wStep in
  results' = results /\ length results = length rs /\
  (err <> None <-> Z.max 0 (ws_MaxFailures wStep) < Z.of_nat (failures rs)) /\
  (err = None -> out = join_outputs (map pr_output (filter (fun r => pr_err r = None) rs))).
Proof.
  pose proof (failures_collected rs input) as Hf. pose proof (first_error_none rs) as Hn.
  assert (omap (fun r => match pr_err r with None => Some (pr_output r) | Some _ => None end) rs
          = map pr_output (filter (fun r => pr_err r = None) rs)) as Hout.
  { clear. induction rs as [|r rs IH]; [done|]. cbn [omap list_omap]. rewrite filter_cons.
    destruct (pr_err r); [by rewrite decide_False|]. rewrite decide_True by done. cbn. by rewrite IH. }
  unfold collectParallelResults in *. cbn [fst snd] in Hf. unfold finalizeParallelOutput.
  rewrite Hf, Hout. destruct (head (omap pr_err rs)) as [e|].
  - assert (failures rs <> 0%nat) as Hnz by (intros H0; by apply Hn in H0).
    assert ((if ws_MaxFailures wStep <? 0 then 0 else ws_MaxFailures wStep)
            = Z.max 0 (ws_MaxFailures wStep)) as ->
      by (destruct (Z.ltb_spec (ws_MaxFailures wStep) 0); lia).
    destruct (Z.ltb_spec (Z.max 0 (ws_MaxFailures wStep)) (Z.of_nat (failures rs)));
      split_done; (split; [by rewrite length_map|]); (split; [|done]); split; try done; lia.
  - assert (failures rs = 0%nat) as -> by (by apply Hn).
    split_done. split; [by rewrite length_map|]. split; [|done]. split; [done|lia].
Qed.

(** ** Loops *)

Lemma eval_iterations_engine {W} (env : Env W) wStep var input count items : forall idx engine,
  let '(_, engine') := eval_iterations env wStep var input count idx items engine in
  stepOutputs engine' = stepOutputs engine /\ variables engine' = variables engine.
Proof.
  induction items as [|item items IH]; intros idx engine; [done|]. cbn [eval_iterations].
  specialize (IH (idx + 1) (SetLoopVars item idx count engine)).
  by destruct (eval_iterations _ _ _ _ _ _ items _) as [ies engine'].
Qed.

(** A loop step leaves no loop context behind: once it has run its
    iterations the engine it was given has no loop variables, also when it
    was nested in a map or reduce iteration whose {{loop.item}} later steps
    still refer to; step outputs and variables are untouched. *)
Theorem executeLoopStep_clears_loop_vars {W} (env : Env W) (ctx : Ctx) (stepIndex : Z)
    (wStep : WorkflowStep) (cfg : LoopConfig) (input itemsStr : string) (engine engine' : ExpressionEngine)
    (lim : option Z) (nd : node W) (w w' : W) (r : stepOut) :
  let items := filter non_blank (Split itemsStr (LoopConfigGet.GetSplitBy cfg)) in
  Evaluate (env_host env) engine (loop_Items cfg) input = (itemsStr, None) ->
  items <> [] -> Z.of_nat (length items) <= LoopConfigGet.GetMaxIterations cfg ->
  env_Get env (ws_Node wStep) = Some nd ->
  executeLoopStep env ctx stepIndex wStep cfg input engine lim w = (w', Ret (engine', r)) ->
  loopVars engine' = None /\ stepOutputs engine' = stepOutputs engine /\
  variables engine' = variables engine.
Proof.
  intros items Hev Hne Hmax Hget. unfold executeLoopStep. rewrite Hev. cbn zeta. fold items.
  destruct (Z.ltb_spec (LoopConfigGet.GetMaxIterations cfg) (Z.of_nat (length items))); [lia|].
  rewrite decide_False by done. rewrite Hget.
  pose proof (eval_iterations_engine env wStep (LoopConfigGet.GetVar cfg) input
    (Z.of_nat (length items)) items 0 engine) as He.
  destruct (eval_iterations _ _ _ _ _ _ items engine) as [ies engine1].
  unfold mbind at 1, M_bind.
  match goal with |- context [match ?body w with _ => _ end] =>
    destruct (body w) as [w1 [[[results outputs] [e|]]|]] end;
    intros [= <- <-]; subst; done.
Qed.

Lemma executeLoopStep_clears_loop_vars_witness :
  let engine := SetLoopVars "outer" 0 1 NewExpressionEngine in
  let cfg := mkLoopConfig "x,y" "," "" 0 None 0 in
  exists w' engine' r,
    executeLoopStep (quiet_env empty_host (fun _ => Some flaky_node)) Background 0
      (node_step "n" "s") cfg "" engine None 5 = (w', Ret (engine', r)) /\
    loopVars engine' = None.
Proof.
  intros engine cfg. do 3 eexists. split; [vm_compute; reflexivity|].
  eapply (executeLoopStep_clears_loop_vars (quiet_env empty_host (fun _ => Some flaky_node))
    Background 0 (node_step "n" "s") cfg "" "x,y" engine _ None flaky_node 5);
    [vm_compute; reflexivity|vm_compute; discriminate|vm_compute; discriminate
    |reflexivity|vm_compute; reflexivity].
Defined.
