(* ===== verification/DagScheduler.v ===== *)
(** * The dynamic ready-queue scheduler
    (src/internal/workflow/executor_dag.go)

    The scheduler's state is owned by one goroutine; its methods are functions
    on the state.  A worker goroutine is an index in [ds_inflight]: it runs as
    a whole when the scheduler receives its result, and the environment
    chooses which of the workers in flight delivers next.  Trace timelines,
    telemetry and the terminal UI are left out. *)

From S2P Require Import Prelude GoStrings GoTime WorkflowTypes Dag ExprEngine WalState Effects.
From S2P Require Import Helpers Compound.

#[local] Open Scope string_scope.
#[local] Open Scope Z_scope.

(** ** Data *)

Record dagPreparedStep := mkPrepared {
  ps_input : string;
  ps_evaluatedParams : gmap string string;
  ps_evalErr : option error;
  ps_skipped : bool
}.

Record dagExecResult := mkExecResult {
  er_output : string;
  er_err : option error;
  er_attempts : Z
}.

Record dagScheduler := mkScheduler {
  ds_engine : ExpressionEngine;
  ds_resolver : gmap nat string;
  ds_pending : list Z;
  ds_readyQueue : list nat;
  ds_dispatchSeq : list nat;
  ds_results : gmap nat dagExecResult;
  ds_prepared : gmap nat dagPreparedStep;
  ds_finalized : gset nat;
  ds_completedOK : gset nat;
  ds_inflight : list nat;
  ds_processPos : nat;
  ds_aborted : bool;
  ds_firstAbortErr : option error;
  ds_allResults : list StepResult;
  ds_lastOutput : string
}.

(** Persistence of checkpoints (executor_state.go, which does the file I/O):
    [saveCheckpoint] and [loadCheckpoint], the latter's error telling a
    missing file from a corrupt one only in the log. *)
Record Checkpoints (W : Type) := mkCheckpoints {
  cp_save : string -> WorkflowState -> M W (option error);
  cp_load : string -> M W (result (option WorkflowState))
}.
Arguments cp_save {W}.
Arguments cp_load {W}.

Section scheduler.
Context {W : Type} (env : Env W) (cps : Checkpoints W) (R : Rec W).
Let h : Host := env_host env.
Let range := env_range_set env.

(** ** One step *)

(** The parameters of a compound step are evaluated by its own executor. *)
Definition is_compound (s : WorkflowStep) : bool :=
  IsIf s || IsLoop s || IsParallel s || IsMap s || IsReduce s || IsSaga s.

Definition prepareDAGStep (stepIdx : nat) (wStep : WorkflowStep) (graph : depGraph)
    (resolver : gmap nat string) (initialInput : string) (engine : ExpressionEngine)
    : dagPreparedStep :=
  let input := resolveInput range graph stepIdx resolver initialInput in
  match (match ws_Input wStep with
         | Some _ => ResolveStepInput env wStep input engine
         | None => Ok input
         end) with
  | Err e => mkPrepared input ∅ (Some e) false
  | Ok input =>
      match evaluateCondition env (ws_Condition wStep) input engine with
      | Err e => mkPrepared input ∅ (Some ("condition evaluation failed: " +:+ e)) false
      | Ok false => mkPrepared input ∅ None true
      | Ok true =>
          if is_compound wStep then mkPrepared input ∅ None false else
          match evalParams env engine (ws_Params wStep) input with
          | Err e => mkPrepared input ∅ (Some e) false
          | Ok params => mkPrepared input params None false
          end
      end
  end.

Definition dag_result (r : stepOut) : dagExecResult :=
  let '(_, output, err) := r in mkExecResult output err 1.

(** [executeDAGStep]: compound steps run on an engine of their own. *)
Definition executeDAGStep (ctx : Ctx) (wStep : WorkflowStep) (input : string)
    (params : gmap string string) : M W dagExecResult :=
  let fresh := NewExpressionEngine in
  match ws_If wStep with
  | Some ifCfg =>
      match evaluateCondition env (if_Condition ifCfg) input fresh with
      | Err e => mret (mkExecResult "" (Some ("if condition failed: " +:+ e)) 1)
      | Ok pass =>
          let branchSteps := if pass then if_Then ifCfg else if_Else ifCfg in
          '(output, _, err) ←
            rec_wf R ctx (mkWorkflow "dag-if-branch" "" ∅ branchSteps "" [] 0 None);
          mret (mkExecResult output err 1)
      end
  | None =>
  match ws_Loop wStep with
  | Some cfg =>
      '(_, r) ← executeLoopStep env ctx 0 wStep cfg input fresh None; mret (dag_result r)
  | None =>
  if IsParallel wStep then
    r ← executeParallelStep env ctx 0 wStep input fresh None; mret (dag_result r)
  else
  match ws_Map wStep with
  | Some cfg => r ← executeMapStep env R ctx 0 wStep cfg input fresh None; mret (dag_result r)
  | None =>
  match ws_Reduce wStep with
  | Some cfg => r ← executeReduceStep env R ctx 0 cfg input fresh None; mret (dag_result r)
  | None =>
  match ws_Saga wStep with
  | Some cfg => r ← executeSagaStep R ctx 0 cfg input fresh None; mret (dag_result r)
  | None =>
      match env_Get env (ws_Node wStep) with
      | None => mret (mkExecResult ""
                  (Some ("node '" +:+ ws_Node wStep +:+ "' not found in registry")) 1)
      | Some nd =>
          let retryCount := GetRetryCount wStep in
          let retryCount := if MaxRetry <? retryCount then MaxRetry else retryCount in
          let stepTimeout := GetTimeout wStep in
          let stepTimeout := if MaxStepTimeout <? stepTimeout then MaxStepTimeout
                             else stepTimeout in
          r ← retry_loop env (nd (step_context ctx stepTimeout) input params)
                (fun attempt => rnd ← env_rand env; mret (GetBackoffDelay wStep attempt rnd))
                ctx (Z.to_nat (retryCount + 1)) 1;
          match r with
          | Attempted output err attempts => mret (mkExecResult output err attempts)
          | Interrupted output ctxErr attempts =>
              mret (mkExecResult output (Some ctxErr) attempts)
          end
      end
  end end end end end.

(** The worker goroutine that [dispatchDAGStep] spawns. *)
Definition dispatchDAGStep (otelCtx timeoutCtx : Ctx) (wStep : WorkflowStep)
    (ps : dagPreparedStep) (lim : option Z) : M W dagExecResult :=
  recover
    (with_slot env lim timeoutCtx (fun e => mkExecResult "" (Some e) 1)
       (executeDAGStep otelCtx wStep (ps_input ps) (ps_evaluatedParams ps)))
    (fun msg => mret (mkExecResult "" (Some ("step panicked: " +:+ msg)) 1)).

(** ** The scheduler *)

(** What does not change during a run. *)
Record dagConfig := mkDagConfig {
  dc_wf : Workflow;
  dc_graph : depGraph;
  dc_otelCtx : Ctx;
  dc_timeoutCtx : Ctx;
  dc_limiter : option Z;
  dc_initialInput : string;
  dc_statePath : string
}.
Context (cfg : dagConfig).

Definition step_of (i : nat) : WorkflowStep :=
  default (node_step "" "") (wf_Steps (dc_wf cfg) !! i).

Definition newDAGScheduler (engine : ExpressionEngine) : dagScheduler :=
  let n := length (wf_Steps (dc_wf cfg)) in
  let pending := map (fun i => Z.of_nat (size (deps_of (dc_graph cfg) i))) (seq 0 n) in
  mkScheduler engine ∅ pending
    (filter (fun i => pending !! i = Some 0) (seq 0 n))
    [] ∅ ∅ ∅ ∅ [] 0 false None [] "".

(** [pending[d]--], enqueueing [d] when it reaches zero. *)
Definition credit (s : list Z * list nat) (d : nat) : list Z * list nat :=
  let '(pending, ready) := s in
  let p := default 0 (pending !! d) - 1 in
  (<[d := p]> pending, if decide (p = 0) then (ready ++ [d])%list else ready).

Definition propagateDeps (idx : nat) (s : dagScheduler) : dagScheduler :=
  let '(pending, ready) :=
    fold_left credit (sort_ints (range idx (dependents_of (dc_graph cfg) idx)))
      (ds_pending s, ds_readyQueue s) in
  mkScheduler (ds_engine s) (ds_resolver s) pending ready (ds_dispatchSeq s) (ds_results s)
    (ds_prepared s) (ds_finalized s) (ds_completedOK s) (ds_inflight s) (ds_processPos s)
    (ds_aborted s) (ds_firstAbortErr s) (ds_allResults s) (ds_lastOutput s).

Definition finalize (idx : nat) (output : string) (s : dagScheduler) : dagScheduler :=
  propagateDeps idx
    (mkScheduler (SetStepOutput (Z.of_nat idx) (ws_Name (step_of idx)) output (ds_engine s))
       (<[idx := output]> (ds_resolver s)) (ds_pending s) (ds_readyQueue s) (ds_dispatchSeq s)
       (ds_results s) (ds_prepared s) ({[idx]} ∪ ds_finalized s) ({[idx]} ∪ ds_completedOK s)
       (ds_inflight s) (ds_processPos s) (ds_aborted s) (ds_firstAbortErr s) (ds_allResults s)
       (ds_lastOutput s)).

(** The dispatch of one step [idx] taken from the queue, whose rest is
    [ready]. *)
Definition dispatch_one (idx : nat) (ready : list nat) (s : dagScheduler) : dagScheduler :=
  let ps := prepareDAGStep idx (step_of idx) (dc_graph cfg) (ds_resolver s)
              (dc_initialInput cfg) (ds_engine s) in
  let worker := negb (ps_skipped ps) && bool_decide (ps_evalErr ps = None) in
  let s' := mkScheduler (ds_engine s) (ds_resolver s) (ds_pending s) ready
              (ds_dispatchSeq s ++ [idx]) (ds_results s) (<[idx := ps]> (ds_prepared s))
              (ds_finalized s) (ds_completedOK s)
              (if worker then ds_inflight s ++ [idx] else ds_inflight s)
              (ds_processPos s) (ds_aborted s) (ds_firstAbortErr s) (ds_allResults s)
              (ds_lastOutput s) in
  match ps_evalErr ps with
  | Some _ => s'
  | None => if ps_skipped ps then finalize idx "" s' else s'
  end.

(** Phase 1.  Every round dispatches one step, so the number of steps is
    enough fuel. *)
Fixpoint dispatchReady (fuel : nat) (s : dagScheduler) : M W dagScheduler :=
  match ds_readyQueue s, fuel with
  | [], _ | _, O => mret s
  | idx :: ready, S fuel' =>
      if ds_aborted s then mret s else
      down ← env_IsShuttingDown env;
      if (down : bool) then mret s else dispatchReady fuel' (dispatch_one idx ready s)
  end.

Definition step_ctx (idx : nat) : Ctx :=
  if decide (dc_statePath cfg = "") then dc_otelCtx cfg
  else WithStepCheckpoint (dc_otelCtx cfg) (dc_statePath cfg) (ws_Name (step_of idx)).

(** A received result is stored, and finalizes its step when it is a success
    and the run is not aborted. *)
Definition receive (idx : nat) (res : dagExecResult) (s : dagScheduler) : dagScheduler :=
  let s' := mkScheduler (ds_engine s) (ds_resolver s) (ds_pending s) (ds_readyQueue s)
              (ds_dispatchSeq s) (<[idx := res]> (ds_results s)) (ds_prepared s)
              (ds_finalized s) (ds_completedOK s) (filter (fun j => j <> idx) (ds_inflight s))
              (ds_processPos s) (ds_aborted s) (ds_firstAbortErr s) (ds_allResults s)
              (ds_lastOutput s) in
  match er_err res with
  | None => if ds_aborted s then s' else finalize idx (er_output res) s'
  | Some _ => s'
  end.

(** Phase 2: [true] when a result was received. *)
Definition awaitNextResult (s : dagScheduler) : M W (bool * dagScheduler) :=
  match ds_dispatchSeq s !! ds_processPos s with
  | None => mret (false, s)
  | Some want =>
      let no_worker := match ds_prepared s !! want with
                       | Some ps => ps_skipped ps || bool_decide (is_Some (ps_evalErr ps))
                       | None => false
                       end in
      if no_worker || bool_decide (is_Some (ds_results s !! want)) then mret (false, s) else
      idx ← env_recv env (ds_inflight s);
      res ← dispatchDAGStep (step_ctx idx) (dc_timeoutCtx cfg) (step_of idx)
              (default (mkPrepared "" ∅ None false) (ds_prepared s !! idx)) (dc_limiter cfg);
      mret (true, receive idx res s)
  end.

(** [processDAGStepResult]: the step's output, the error its result keeps,
    the error that aborts, and the step's result. *)
Definition processDAGStepResult (stepIdx : nat) (ps : dagPreparedStep)
    (res : option dagExecResult) (engine : ExpressionEngine)
    : M W (string * option error * option error) :=
  match ps_evalErr ps with
  | Some e => mret ("", Some e, Some e)
  | None =>
      if ps_skipped ps then mret ("", None, None) else
      let r := default (mkExecResult "" None 0) res in
      match er_err r with
      | None => mret (er_output r, None, None)
      | Some e =>
          rv ← applyErrorRecovery env R (dc_timeoutCtx cfg) (step_of stepIdx) (er_output r) e
                 engine (ps_input ps) None;
          mret (rv_output rv, rv_trace rv, rv_abort rv)
      end
  end.

Definition dagState (s : dagScheduler) : WorkflowState :=
  mkState (wf_Name (dc_wf cfg)) (-1) (ds_lastOutput s)
    (list_to_map (omap (fun idx => out ← stepOutputs (ds_engine s) !! idx_key (Z.of_nat idx);
                                   Some (Z.of_nat idx, out))
                    (elements (ds_completedOK s))))
    (variables (ds_engine s)) true (map ws_Name (wf_Steps (dc_wf cfg))).

Definition saveCheckpointState (s : dagScheduler) : M W unit :=
  if decide (dc_statePath cfg = "") then mret tt
  else _ ← cp_save cps (dc_statePath cfg) (dagState s); mret tt.

(** The writes of [processDAGStepResult] and the bookkeeping of
    [processNextResult] up to the abort check. *)
Definition record_result (want : nat) (ps : dagPreparedStep) (output : string)
    (resultErr : option error) (s : dagScheduler) : dagScheduler :=
  mkScheduler (SetStepOutput (Z.of_nat want) (ws_Name (step_of want)) output (ds_engine s))
    (<[want := output]> (ds_resolver s)) (ds_pending s) (ds_readyQueue s) (ds_dispatchSeq s)
    (delete want (ds_results s)) (ds_prepared s) (ds_finalized s) (ds_completedOK s)
    (ds_inflight s) (S (ds_processPos s)) (ds_aborted s) (ds_firstAbortErr s)
    (ds_allResults s ++ [mkResult (Z.of_nat want) (ws_Node (step_of want)) (ps_input ps)
                           output resultErr])
    (if decide (resultErr = None /\ output <> "") then output else ds_lastOutput s).

Definition abort_with (e : error) (s : dagScheduler) : dagScheduler :=
  mkScheduler (ds_engine s) (ds_resolver s) (ds_pending s) [] (ds_dispatchSeq s)
    (ds_results s) (ds_prepared s) (ds_finalized s) (ds_completedOK s) (ds_inflight s)
    (ds_processPos s) true (Some e) (ds_allResults s) (ds_lastOutput s).

Definition mark_ok (idx : nat) (s : dagScheduler) : dagScheduler :=
  mkScheduler (ds_engine s) (ds_resolver s) (ds_pending s) (ds_readyQueue s)
    (ds_dispatchSeq s) (ds_results s) (ds_prepared s) (ds_finalized s)
    ({[idx]} ∪ ds_completedOK s) (ds_inflight s) (ds_processPos s) (ds_aborted s)
    (ds_firstAbortErr s) (ds_allResults s) (ds_lastOutput s).

(** Phase 3. *)
Definition processNextResult (s : dagScheduler) : M W dagScheduler :=
  match ds_dispatchSeq s !! ds_processPos s with
  | None => mret s
  | Some want =>
      let ps := default (mkPrepared "" ∅ None false) (ds_prepared s !! want) in
      '(output, resultErr, abortErr) ←
        processDAGStepResult want ps (ds_results s !! want) (ds_engine s);
      let s1 := record_result want ps output resultErr s in
      match abortErr, ds_firstAbortErr s with
      | Some e, None => mret (abort_with e s1)
      | _, _ =>
          if ds_aborted s then mret s1 else
          let s2 := if decide (want ∈ ds_finalized s) then s1 else propagateDeps want s1 in
          match resultErr with
          | Some _ => mret s2
          | None => let s3 := mark_ok want s2 in _ ← saveCheckpointState s3; mret s3
          end
      end
  end.

(** The main loop, [stuck] when it runs out of fuel.  Every round receives a
    result or processes a step, so [run]'s twice the number of steps plus one
    is enough. *)
Fixpoint run_loop (stuck : M W dagScheduler) (fuel : nat) (s : dagScheduler)
    : M W dagScheduler :=
  match fuel with
  | O => stuck
  | S fuel' =>
      if decide (ds_processPos s < length (ds_dispatchSeq s) \/ ds_readyQueue s <> [])%nat then
        s ← dispatchReady (length (wf_Steps (dc_wf cfg))) s;
        if decide (length (ds_dispatchSeq s) <= ds_processPos s)%nat then mret s else
        '(received, s) ← awaitNextResult s;
        if (received : bool) then run_loop stuck fuel' s
        else s ← processNextResult s; run_loop stuck fuel' s
      else mret s
  end.

Definition run (s : dagScheduler) : M W dagScheduler :=
  run_loop (throw "out of fuel") (2 * length (wf_Steps (dc_wf cfg)) + 1) s.

(** ** Resume *)

Definition dagCheckpointCompatible (state : WorkflowState) : bool :=
  bool_decide (ss_StepNames state = map ws_Name (wf_Steps (dc_wf cfg))).

(** [credit] for the dependents that were not restored themselves. *)
Definition credit_resumed (resumed : gset nat) (s : list Z * list nat) (idx : nat)
    : list Z * list nat :=
  fold_left credit
    (filter (fun d => d ∉ resumed) (sort_ints (range idx (dependents_of (dc_graph cfg) idx)))) s.

(** [order] is the order in which the map of restored steps is ranged
    over. *)
Definition applyResumed (order : list nat) (resumed : gset nat) (s : dagScheduler)
    : dagScheduler :=
  if decide (resumed = ∅) then s else
  let pending := fold_left (fun p i => <[i := 0]> p) order (ds_pending s) in
  let kept := filter (fun i => i ∉ resumed) (ds_readyQueue s) in
  let '(pending, ready) := fold_left (credit_resumed resumed) order (pending, kept) in
  mkScheduler (ds_engine s) (ds_resolver s) pending (sort_ints ready) (ds_dispatchSeq s)
    (ds_results s) (ds_prepared s) (ds_finalized s) (ds_completedOK s) (ds_inflight s)
    (ds_processPos s) (ds_aborted s) (ds_firstAbortErr s) (ds_allResults s) (ds_lastOutput s).

(** The restored steps: outputs of valid indices, in the order of a range. *)
Definition resumed_outputs (state : WorkflowState) : list (nat * string) :=
  omap (fun io => if decide (0 <= io.1 < Z.of_nat (length (wf_Steps (dc_wf cfg))))
                  then Some (Z.to_nat io.1, io.2) else None)
    (map_to_list (ss_StepOutputs state)).

Definition resume_from (state : WorkflowState) (s : dagScheduler) : dagScheduler :=
  let outs := resumed_outputs state in
  let resumed : gset nat := list_to_set (map fst outs) in
  let engine := fold_left (fun e io => SetStepOutput (Z.of_nat io.1) (ws_Name (step_of io.1)) io.2 e)
                  outs (ds_engine s) in
  let engine := mkEngine (stepOutputs engine) (stepNames engine)
                  (ss_Variables state ∪ variables engine) (loopVars engine)
                  (secretGetter engine) in
  let s := applyResumed (map fst outs) resumed
    (mkScheduler engine (list_to_map outs ∪ ds_resolver s) (ds_pending s) (ds_readyQueue s)
       (ds_dispatchSeq s) (ds_results s) (ds_prepared s) (ds_finalized s) (ds_completedOK s)
       (ds_inflight s) (ds_processPos s) (ds_aborted s) (ds_firstAbortErr s) (ds_allResults s)
       (ds_lastOutput s)) in
  mkScheduler (ds_engine s) (ds_resolver s) (ds_pending s) (ds_readyQueue s)
    (ds_dispatchSeq s) (ds_results s) (ds_prepared s) (ds_finalized s) (ds_completedOK s)
    (ds_inflight s) (ds_processPos s) (ds_aborted s) (ds_firstAbortErr s)
    (ds_allResults s ++ map (fun idx => mkResult (Z.of_nat idx) (ws_Node (step_of idx)) ""
       (default "" ((list_to_map outs : gmap nat string) !! idx)) None)
       (sort_ints (elements resumed)))
    (ss_Data state).

(** The resume block of [executeWorkflowDAG]: a checkpoint that cannot be
    read, was written by the sequential path or belongs to another list of
    steps is ignored. *)
Definition resume_dag (s : dagScheduler) : M W dagScheduler :=
  if decide (dc_statePath cfg = "") then mret s else
  r ← cp_load cps (dc_statePath cfg);
  mret match r with
       | Ok (Some state) =>
           if ss_DAGMode state && dagCheckpointCompatible state then resume_from state s else s
       | _ => s
       end.
End scheduler.

(** ** The whole workflow *)

Definition dag_engine {W} (env : Env W) (wf : Workflow) : ExpressionEngine :=
  SetSecretGetter (Some (env_GetSecret env)) (engine_with_vars (wf_Vars wf)).

(** [wf.Output] evaluated over the last output, which it falls back to. *)
Definition final_output (h : Host) (engine : ExpressionEngine) (wf : Workflow) (last : string)
    : string :=
  if decide (wf_Output wf = "") then last else
  match Evaluate h engine (wf_Output wf) last with
  | (evaluated, None) => evaluated
  | (_, Some _) => last
  end.

Definition too_many_steps (wf : Workflow) : error :=
  "workflow has too many steps (" +:+ Itoa (Z.of_nat (length (wf_Steps wf))) +:+ ", max "
    +:+ Itoa MaxSteps +:+ ")".

(** [validateInputSchema] accepts every workflow. *)
Definition executeWorkflowDAG {W} (env : Env W) (cps : Checkpoints W) (R : Rec W) (ctx : Ctx)
    (wf : Workflow) (timeout : Z) (statePath : string) : M W wfOut :=
  let h := env_host env in
  if MaxSteps <? Z.of_nat (length (wf_Steps wf)) then mret ("", [], Some (too_many_steps wf)) else
  match buildDepGraph (env_range_set env) (wf_Steps wf) with
  | inr e => mret ("", [], Some ("DAG build failed: " +:+ dag_error_text (Quote h) e))
  | inl graph =>
  match topoBatches (env_range_set env) graph with
  | inr e => mret ("", [], Some ("DAG scheduling failed: " +:+ dag_error_text (Quote h) e))
  | inl _ =>
  match NewConcurrencyLimiter (wf_MaxConcurrency wf) with
  | Err e => mret ("", [], Some e)
  | Ok limiter =>
      let timeoutCtx := WithTimeout ctx timeout in
      let cfg := mkDagConfig wf graph timeoutCtx timeoutCtx limiter
                   (default "" (ctx_ifInput ctx)) statePath in
      sched ← resume_dag env cps cfg (newDAGScheduler cfg (dag_engine env wf));
      sched ← run env cps R cfg sched;
      mret match ds_firstAbortErr sched with
           | Some e =>
               ("", ds_allResults sched,
                Some ("DAG step " +:+ Itoa (Z.of_nat (ds_processPos sched) - 1) +:+ " failed: "
                        +:+ e))
           | None => (final_output h (ds_engine sched) wf (ds_lastOutput sched),
                      ds_allResults sched, None)
           end
  end end end.
