(* ===== verification/DagSchedulerInv.v ===== *)
(** * The scheduler's invariant

    [queue_inv] relates the dependency counters and the ready queue to the set
    of steps that have completed; [sched_inv] adds the bookkeeping of
    dispatched, received and processed steps.  Every phase of the main loop
    preserves it. *)

From S2P Require Import Prelude GoStrings WorkflowTypes Dag DagCycle DagTopo ExprEngine WalState.
From S2P Require Import Effects Helpers Compound DagScheduler.

#[local] Open Scope Z_scope.

(** ** Crediting dependents *)

Lemma credit_fold l : forall pending ready,
  NoDup l -> (forall d, d ∈ l -> (d < length pending)%nat) ->
  let '(pending', ready') := fold_left credit l (pending, ready) in
  length pending' = length pending /\
  (forall d, pending' !! d = (fun p => if decide (d ∈ l) then p - 1 else p) <$> pending !! d) /\
  ready' = (ready ++ filter (fun d => pending !! d = Some 1) l)%list.
Proof.
  induction l as [|x l IH]; intros pending ready Hnd Hlt; cbn [fold_left].
  - split_done. split; [|by rewrite app_nil_r].
    intros d. destruct (pending !! d); [|done]. cbn. by rewrite decide_False by apply not_elem_of_nil.
  - apply NoDup_cons in Hnd as [Hx Hnd]. unfold credit at 2.
    destruct (lookup_lt_is_Some_2 pending x) as [p Hp]; [apply Hlt; left|].
    rewrite Hp. cbn [default from_option id].
    specialize (IH (<[x := p - 1]> pending)
      (if decide (p - 1 = 0) then (ready ++ [x])%list else ready) Hnd).
    rewrite length_insert in IH. specialize (IH (fun d Hd => Hlt d ltac:(by right))).
    destruct (fold_left credit l _) as [pending' ready']. destruct IH as (H1 & H2 & H3).
    split_done. split.
    + intros d. rewrite H2. destruct (decide (d = x)) as [->|Hne].
      * rewrite list_lookup_insert_eq by (apply Hlt; left). rewrite Hp. cbn.
        rewrite decide_False by done. by rewrite decide_True by left.
      * rewrite list_lookup_insert_ne by done. destruct (pending !! d); [|done]. cbn.
        f_equal. destruct (decide (d ∈ l)).
        -- by rewrite decide_True by by right.
        -- by rewrite decide_False by (rewrite elem_of_cons; tauto).
    + rewrite H3. rewrite filter_cons.
      assert (filter (fun d => <[x := p - 1]> pending !! d = Some 1) l
              = filter (fun d => pending !! d = Some 1) l) as ->.
      { clear -Hx. induction l as [|y l IH]; [done|]. rewrite !filter_cons.
        apply not_elem_of_cons in Hx as [Hxy Hx]. rewrite list_lookup_insert_ne by done.
        by rewrite IH. }
      destruct (decide (p - 1 = 0)).
      * rewrite decide_True by (rewrite Hp; f_equal; lia). by rewrite <- app_assoc.
      * rewrite decide_False; [done|]. rewrite Hp. intros [= ?]. lia.
Qed.

Lemma size_minus_one (X : gset nat) P idx :
  idx ∈ X -> idx ∉ P -> size (X ∖ P) = S (size (X ∖ ({[idx]} ∪ P))).
Proof.
  intros HX HP. assert (X ∖ P ≡ {[idx]} ∪ (X ∖ ({[idx]} ∪ P))) as Heq.
  { intros j. destruct (decide (j = idx)); set_solver. }
  rewrite Heq, size_union by set_solver. by rewrite size_singleton.
Qed.

Lemma minus_size_zero (X Y : gset nat) : size (X ∖ Y) = 0%nat <-> X ⊆ Y.
Proof.
  split.
  - intros H%size_empty_inv x Hx. destruct (decide (x ∈ Y)) as [|Hn]; [done|].
    exfalso. apply (not_elem_of_empty (C:=gset nat) x), H. by apply elem_of_difference.
  - intros H. apply size_empty_iff. set_solver.
Qed.

Lemma minus_other (X P : gset nat) idx : idx ∉ X -> X ∖ ({[idx]} ∪ P) = X ∖ P.
Proof. intros H. apply set_eq. intros j. destruct (decide (j = idx)); set_solver. Qed.

Lemma sub_singleton_union (X P : gset nat) idx : X ⊆ P -> X ⊆ {[idx]} ∪ P.
Proof. set_solver. Qed.
Lemma sub_singleton_inv (X P : gset nat) idx : idx ∉ X -> X ⊆ {[idx]} ∪ P -> X ⊆ P.
Proof. set_solver. Qed.

Section queue.
Context (g : depGraph) (g_wf : graph_wf g) (RS : gset nat).
Let n := nodeCount g.

(** [P] are the completed steps, [D] the dispatched ones and [RS] those
    restored from a checkpoint. *)
Record queue_inv (P D : gset nat) (pending : list Z) (ready : list nat) : Prop := {
  q_len : length pending = n;
  q_pending : forall i p, i ∉ RS -> pending !! i = Some p ->
    p = Z.of_nat (size (deps_of g i ∖ P));
  q_resumed : forall i p, i ∈ RS -> pending !! i = Some p -> p <= 0;
  q_nodup : NoDup ready;
  q_ready : forall i, i ∈ ready <->
    ((i < n)%nat /\ (i ∉ RS) /\ (i ∉ D) /\ deps_of g i ⊆ P)
}.

Lemma queue_inv_proper P P' D D' pending ready :
  P ≡ P' -> D ≡ D' -> queue_inv P D pending ready -> queue_inv P' D' pending ready.
Proof. by intros ->%leibniz_equiv ->%leibniz_equiv. Qed.

(** The completion of [idx] is propagated exactly once. *)
Lemma queue_propagate P D pending ready idx l :
  idx ∉ P -> (forall i, i ∈ D -> deps_of g i ⊆ P) -> NoDup l ->
  (forall d, d ∈ l -> idx ∈ deps_of g d) ->
  (forall d, d ∉ RS -> idx ∈ deps_of g d -> d ∈ l) ->
  queue_inv P D pending ready ->
  let '(pending', ready') := fold_left credit l (pending, ready) in
  queue_inv ({[idx]} ∪ P) D pending' ready'.
Proof using g_wf.
  intros Hidx HD Hndl Hmem Hall [Hlen Hpend Hres Hnd Hready].
  assert (forall d, d ∈ l -> (d < length pending)%nat) as Hlt.
  { intros d Hd%Hmem. rewrite Hlen. by apply (wf_range _ g_wf) in Hd as [_ ?]. }
  pose proof (credit_fold l pending ready Hndl Hlt) as HF.
  destruct (fold_left credit l (pending, ready)) as [pending' ready'].
  destruct HF as (H1 & H2 & ->).
  assert (forall d, d ∈ filter (fun d => pending !! d = Some 1) l ->
    (d ∉ RS) /\ idx ∈ deps_of g d /\ deps_of g d ⊆ {[idx]} ∪ P) as Hnew.
  { intros d [Hp Hd]%list_elem_of_filter. apply Hmem in Hd. destruct (decide (d ∈ RS)) as [Hr|Hr].
    - specialize (Hres d 1 Hr Hp). lia.
    - split_done. split_done. specialize (Hpend d 1 Hr Hp).
      rewrite (size_minus_one _ P idx) in Hpend by done.
      apply minus_size_zero. lia. }
  split.
  - by rewrite H1.
  - intros i p Hi. rewrite H2. destruct (pending !! i) as [q|] eqn:Eq; [|done]. cbn.
    intros [= <-]. specialize (Hpend i q Hi Eq). case_decide as Hil.
    + apply Hmem in Hil. rewrite (size_minus_one _ P idx) in Hpend by done. lia.
    + subst q. rewrite minus_other; [done|]. intros Hin. by apply Hil, Hall.
  - intros i p Hi. rewrite H2. destruct (pending !! i) as [q|] eqn:Eq; [|done]. cbn.
    intros [= <-]. specialize (Hres i q Hi Eq). case_decide; lia.
  - apply NoDup_app. split_done. split; [|by apply NoDup_filter].
    intros d Hd Hd'. destruct (Hnew d Hd') as (_ & Hin & _). apply Hready in Hd as (_ & _ & _ & Hsub).
    by apply Hidx, Hsub.
  - intros i. rewrite elem_of_app, Hready. split.
    + intros [(Ha & Hb & Hc & Hd)|Hi]; [split_and!; auto using sub_singleton_union|].
      destruct (Hnew i Hi) as (Ha & Hb & Hc). split_and!; try done.
      * by apply (wf_range _ g_wf) in Hb as [_ ?].
      * intros HiD. by apply Hidx, (HD i HiD).
    + intros (Ha & Hb & Hc & Hd). destruct (decide (idx ∈ deps_of g i)) as [Hin|Hin].
      * right. apply list_elem_of_filter. split; [|by apply Hall].
        destruct (lookup_lt_is_Some_2 pending i) as [p Hp]; [by rewrite Hlen|].
        rewrite Hp. f_equal. rewrite (Hpend i p Hb Hp), (size_minus_one _ P idx) by done.
        by rewrite (proj2 (minus_size_zero (deps_of g i) ({[idx]} ∪ P)) Hd).
      * left. split_and!; try done. by eapply sub_singleton_inv.
Qed.
End queue.

(** ** The scheduler *)

Lemma take_S_lookup {A} (l : list A) k x :
  l !! k = Some x -> take (S k) l = (take k l ++ [x])%list.
Proof. apply take_S_r. Qed.

Lemma NoDup_drop_not_take {A} (l : list A) k x :
  NoDup l -> l !! k = Some x -> (x ∉ take k l) /\ (x ∉ drop (S k) l).
Proof.
  intros Hnd Hk. pose proof (take_drop_middle l k x Hk) as Heq.
  rewrite <- Heq in Hnd. apply NoDup_app in Hnd as (_ & H1 & H2).
  apply NoDup_cons in H2 as [H2 _]. split; [|done].
  intros Hin. apply (H1 x Hin). left.
Qed.

(** Only the outputs of the dependencies matter for a step's input. *)
Lemma resolveInput_ext range g idx o1 o2 init :
  (forall i s, range i s ≡ₚ elements s) ->
  (forall d, d ∈ deps_of g idx -> o1 !! d = o2 !! d) ->
  resolveInput range g idx o1 init = resolveInput range g idx o2 init.
Proof.
  intros Hr Ho. unfold resolveInput.
  assert (forall d, d ∈ range idx (deps_of g idx) -> o1 !! d = o2 !! d) as Hd.
  { intros d. rewrite Hr, elem_of_elements. apply Ho. }
  assert (omap (fun d => o1 !! d) (insertion_sort (range idx (deps_of g idx)))
          = omap (fun d => o2 !! d) (insertion_sort (range idx (deps_of g idx)))) as Hom.
  { rewrite insertion_sort_eq. assert (forall d, d ∈ sort_ints (range idx (deps_of g idx)) ->
      o1 !! d = o2 !! d) as Hd'.
    { intros d. unfold sort_ints. rewrite merge_sort_Permutation. apply Hd. }
    induction (sort_ints (range idx (deps_of g idx))) as [|x l IH]; [done|]. cbn.
    rewrite (Hd' x) by left. rewrite IH; [done|]. intros d Hdl. apply Hd'. by right. }
  destruct (range idx (deps_of g idx)) as [|d [|d' l]]; [done| |by rewrite Hom].
  by rewrite (Hd d) by left.
Qed.

Section inv.
Context {W : Type} (env : Env W) (cfg : dagConfig).
Context (range_perm : forall i s, env_range_set env i s ≡ₚ elements s).
Let g := dc_graph cfg.
Let n := nodeCount g.
Context (g_wf : graph_wf g) (g_n : n = length (wf_Steps (dc_wf cfg))).
Context (RS : gset nat) (base : list Z).

Definition processed (s : dagScheduler) : list nat := take (ds_processPos s) (ds_dispatchSeq s).

(** The steps whose completion has been propagated (until an abort) and
    whose output is available. *)
Definition completed (s : dagScheduler) : gset nat :=
  RS ∪ ds_finalized s ∪ list_to_set (processed s).

(** A worker was started for step [j]. *)
Definition has_worker (s : dagScheduler) (j : nat) : Prop :=
  exists ps, ds_prepared s !! j = Some ps /\ ps_skipped ps = false /\ ps_evalErr ps = None.

(** The value a step finalized before its turn has in the resolver. *)
Definition early_value (s : dagScheduler) (j : nat) (ps : dagPreparedStep) (v : option string)
    : Prop :=
  ps_evalErr ps = None /\
  if ps_skipped ps then v = Some ""%string
  else exists r, ds_results s !! j = Some r /\ er_err r = None /\ v = Some (er_output r).

(** The input step [i] gets from the outputs of its dependencies. *)
Definition dep_input (s : dagScheduler) (i : nat) : string :=
  resolveInput (env_range_set env) g i (ds_resolver s) (dc_initialInput cfg).

Record sched_inv (s : dagScheduler) : Prop := {
  si_nodup : NoDup (ds_dispatchSeq s);
  si_lt : forall i, i ∈ ds_dispatchSeq s -> (i < n)%nat;
  si_fresh : forall i, i ∈ ds_dispatchSeq s -> i ∉ RS;
  si_pos : (ds_processPos s <= length (ds_dispatchSeq s))%nat;
  si_fin : forall i, i ∈ ds_finalized s -> i ∈ ds_dispatchSeq s;
  si_ok : forall i, i ∈ ds_completedOK s -> i ∈ ds_dispatchSeq s;
  si_deps : forall i, i ∈ ds_dispatchSeq s -> deps_of g i ⊆ completed s;
  si_prep : forall i, i ∈ ds_dispatchSeq s -> is_Some (ds_prepared s !! i);
  si_queue : ds_aborted s = false ->
    queue_inv g RS (completed s) (list_to_set (ds_dispatchSeq s)) (ds_pending s) (ds_readyQueue s);
  si_abort_ready : ds_aborted s = true -> ds_readyQueue s = [];
  si_abort_err : ds_aborted s = bool_decide (is_Some (ds_firstAbortErr s));
  si_res : forall j, is_Some (ds_results s !! j) -> j ∈ ds_dispatchSeq s;
  si_infl_nodup : NoDup (ds_inflight s);
  si_infl : forall j, j ∈ ds_inflight s <->
    (j ∈ drop (ds_processPos s) (ds_dispatchSeq s) /\ has_worker s j /\ ds_results s !! j = None);
  si_infl_fin : forall j, j ∈ ds_inflight s -> j ∉ ds_finalized s;
  si_resolver : forall i, i ∈ completed s -> is_Some (ds_resolver s !! i);
  si_topo : forall k i d, ds_dispatchSeq s !! k = Some i -> d ∈ deps_of g i ->
    d ∈ RS \/ d ∈ take k (ds_dispatchSeq s);
  si_fin_val : forall j, j ∈ ds_finalized s -> j ∈ drop (ds_processPos s) (ds_dispatchSeq s) ->
    exists ps, ds_prepared s !! j = Some ps /\ early_value s j ps (ds_resolver s !! j);
  si_input : forall i ps, i ∈ ds_dispatchSeq s -> ds_prepared s !! i = Some ps ->
    ws_Input (step_of cfg i) = None -> ps_input ps = dep_input s i;
  si_rows : map sr_StepIndex (ds_allResults s) = (base ++ map Z.of_nat (processed s))%list
}.

Lemma dep_input_insert s s' i j v :
  ds_resolver s' = <[j := v]> (ds_resolver s) ->
  (j ∈ deps_of g i -> ds_resolver s !! j = Some v) -> dep_input s' i = dep_input s i.
Proof using range_perm.
  intros Hr Hj. unfold dep_input. apply resolveInput_ext; [done|].
  intros d Hd. rewrite Hr. destruct (decide (d = j)) as [->|Hne].
  - rewrite lookup_insert_eq. symmetry. auto.
  - by rewrite lookup_insert_ne.
Qed.

Lemma elem_of_completed s i :
  i ∈ completed s <-> (i ∈ RS \/ i ∈ ds_finalized s \/ i ∈ processed s).
Proof. unfold completed. rewrite !elem_of_union, elem_of_list_to_set. tauto. Qed.

(** [propagateDeps] changes only the counters and the queue. *)
Lemma propagateDeps_eq idx s :
  exists pending ready,
    fold_left credit (sort_ints (env_range_set env idx (dependents_of g idx)))
      (ds_pending s, ds_readyQueue s) = (pending, ready) /\
    propagateDeps env cfg idx s
    = mkScheduler (ds_engine s) (ds_resolver s) pending ready (ds_dispatchSeq s) (ds_results s)
        (ds_prepared s) (ds_finalized s) (ds_completedOK s) (ds_inflight s) (ds_processPos s)
        (ds_aborted s) (ds_firstAbortErr s) (ds_allResults s) (ds_lastOutput s).
Proof.
  unfold propagateDeps. fold g. destruct (fold_left credit _ _) as [pending ready].
  by exists pending, ready.
Qed.

Lemma propagate_queue s idx P D :
  idx ∉ P -> (forall i, i ∈ D -> deps_of g i ⊆ P) ->
  queue_inv g RS P D (ds_pending s) (ds_readyQueue s) ->
  queue_inv g RS ({[idx]} ∪ P) D (ds_pending (propagateDeps env cfg idx s))
    (ds_readyQueue (propagateDeps env cfg idx s)).
Proof using g_wf range_perm.
  intros Hidx HD Hq. destruct (propagateDeps_eq idx s) as (pending & ready & Hf & ->).
  cbn [ds_pending ds_readyQueue].
  pose proof (queue_propagate g g_wf RS P D (ds_pending s) (ds_readyQueue s) idx
    (sort_ints (env_range_set env idx (dependents_of g idx))) Hidx HD) as HP.
  rewrite Hf in HP.
  assert (forall d, d ∈ sort_ints (env_range_set env idx (dependents_of g idx))
    <-> idx ∈ deps_of g d) as Hmem.
  { intros d. unfold sort_ints. rewrite merge_sort_Permutation, range_perm, elem_of_elements.
    symmetry. apply (wf_inverse _ g_wf). }
  apply HP; [|by intros d Hd%Hmem|by intros d _ Hd%Hmem|done].
  unfold sort_ints. rewrite merge_sort_Permutation, range_perm. apply NoDup_elements.
Qed.

Lemma finalize_inv s idx out :
  sched_inv s -> ds_aborted s = false -> idx ∈ ds_dispatchSeq s -> idx ∉ completed s ->
  idx ∉ ds_inflight s ->
  (exists ps, ds_prepared s !! idx = Some ps /\ early_value s idx ps (Some out)) ->
  sched_inv (finalize env cfg idx out s).
Proof using g_wf range_perm.
  intros [] Hab Hseq Hnc Hni Hval. unfold finalize.
  set (s1 := mkScheduler (SetStepOutput _ _ _ _) _ _ _ _ _ _ _ _ _ _ _ _ _ _).
  assert (forall i, i ∈ {[idx]} ∪ completed s <-> i ∈ completed s1) as Hcomp.
  { intros i. rewrite elem_of_union, !elem_of_completed, elem_of_singleton.
    unfold processed, s1. cbn. rewrite elem_of_union, elem_of_singleton. tauto. }
  assert (forall i, i ∈ list_to_set (C:=gset nat) (ds_dispatchSeq s) ->
    deps_of g i ⊆ completed s) as HD.
  { intros i Hi%elem_of_list_to_set. by apply si_deps0. }
  pose proof (propagate_queue s1 idx (completed s) (list_to_set (ds_dispatchSeq s)) Hnc HD
    (si_queue0 Hab)) as Hq.
  destruct (propagateDeps_eq idx s1) as (pending & ready & _ & Heq).
  rewrite Heq in Hq |- *. cbn [ds_pending ds_readyQueue] in Hq.
  split; unfold has_worker in *; cbn; try done.
  - intros i [->%elem_of_singleton|Hi]%elem_of_union; auto.
  - intros i [->%elem_of_singleton|Hi]%elem_of_union; auto.
  - intros i Hi x Hx. apply (Hcomp x). apply elem_of_union. right. by apply (si_deps0 i).
  - intros _. eapply queue_inv_proper; [|done|exact Hq]. intros i. apply Hcomp.
  - intros Ht. congruence.
  - intros j Hj [->%elem_of_singleton|Hf]%elem_of_union; [done|by apply (si_infl_fin0 j)].
  - intros i Hi. destruct (decide (i = idx)) as [->|Hne]; [by rewrite lookup_insert_eq|].
    rewrite lookup_insert_ne by done. apply si_resolver0. apply (Hcomp i) in Hi.
    apply elem_of_union in Hi as [?%elem_of_singleton|?]; [done|done].
  - unfold early_value. cbn. intros j Hj Hd. destruct (decide (j = idx)) as [->|Hne].
    + by rewrite lookup_insert_eq.
    + rewrite lookup_insert_ne by done. apply si_fin_val0; [|done].
      apply elem_of_union in Hj as [?%elem_of_singleton|?]; done.
  - intros i ps Hi Hp Hin. rewrite (si_input0 i ps Hi Hp Hin). symmetry.
    eapply dep_input_insert; [reflexivity|]. intros Hd. destruct Hnc. by apply (si_deps0 i).
Qed.

(** A step enters the dispatch sequence. *)
Definition dispatched_state (idx : nat) (ready : list nat) (ps : dagPreparedStep)
    (s : dagScheduler) : dagScheduler :=
  mkScheduler (ds_engine s) (ds_resolver s) (ds_pending s) ready (ds_dispatchSeq s ++ [idx])
    (ds_results s) (<[idx := ps]> (ds_prepared s)) (ds_finalized s) (ds_completedOK s)
    (if negb (ps_skipped ps) && bool_decide (ps_evalErr ps = None)
     then ds_inflight s ++ [idx] else ds_inflight s)
    (ds_processPos s) (ds_aborted s) (ds_firstAbortErr s) (ds_allResults s) (ds_lastOutput s).

(** What the invariant says of the step at the head of the queue. *)
Lemma next_ready s idx ready :
  sched_inv s -> ds_aborted s = false -> ds_readyQueue s = idx :: ready ->
  (idx < n)%nat /\ (idx ∉ RS) /\ (idx ∉ ds_dispatchSeq s) /\ (deps_of g idx ⊆ completed s) /\
  (idx ∉ completed s) /\ (idx ∉ ds_inflight s) /\ ds_results s !! idx = None.
Proof.
  intros [] Hab Hr. destruct (si_queue0 Hab) as [_ _ _ _ Hready]. rewrite Hr in Hready.
  destruct (proj1 (Hready idx) ltac:(left)) as (Hlt & HnRS & HnD & Hdeps).
  rewrite elem_of_list_to_set in HnD. split_and!; try done.
  - rewrite elem_of_completed. intros [?|[?%si_fin0|Hp]]; try done.
    exact (HnD (subseteq_take _ _ _ Hp)).
  - intros [Hi _]%si_infl0. exact (HnD (subseteq_drop _ _ _ Hi)).
  - destruct (ds_results s !! idx) eqn:Er; [|done]. exfalso. apply HnD, si_res0. by rewrite Er.
Qed.

(** Taking the head of the queue. *)
Lemma queue_dequeue P seq pending idx ready :
  queue_inv g RS P (list_to_set seq) pending (idx :: ready) ->
  queue_inv g RS P (list_to_set (seq ++ [idx])) pending ready.
Proof.
  intros [Hlen Hpend Hresm [Hidx Hnd]%NoDup_cons Hready]. split; try done.
  intros i. specialize (Hready i).
  rewrite elem_of_cons in Hready. rewrite elem_of_list_to_set in Hready |- *.
  rewrite elem_of_app, list_elem_of_singleton. split.
  - intros Hi. destruct (proj1 Hready (or_intror Hi)) as (H1 & H2 & H3 & H4).
    split_and!; try done. by intros [?| ->].
  - intros (H1 & H2 & H3 & H4). destruct (proj2 Hready) as [->|Hi]; [split_and!; tauto|tauto|done].
Qed.

Lemma dispatched_inflight s idx ready ps j :
  sched_inv s -> idx ∉ ds_dispatchSeq s -> ds_results s !! idx = None -> idx ∉ ds_inflight s ->
  let s' := dispatched_state idx ready ps s in
  j ∈ ds_inflight s' <->
  (j ∈ drop (ds_processPos s') (ds_dispatchSeq s') /\ has_worker s' j /\ ds_results s' !! j = None).
Proof.
  intros [] HnD Hres Hni. cbn. rewrite drop_app_le by done.
  rewrite elem_of_app, list_elem_of_singleton. unfold has_worker. cbn.
  destruct (decide (j = idx)) as [->|Hne].
  - rewrite lookup_insert_eq, Hres.
    destruct (ps_skipped ps) eqn:Es, (ps_evalErr ps) as [e|] eqn:Ee; cbn;
      rewrite ?elem_of_app, ?list_elem_of_singleton; try split_done.
    all: try (intros (_ & (ps' & [= <-] & H1 & H2) & _); congruence).
    split; [intros _|by right]. split; [by right|]. split; [|done]. by exists ps.
  - rewrite lookup_insert_ne by done.
    assert (j ∈ (if negb (ps_skipped ps) && bool_decide (ps_evalErr ps = None)
      then ds_inflight s ++ [idx] else ds_inflight s)%list <-> j ∈ ds_inflight s) as ->.
    { destruct (_ && _); [|done]. rewrite elem_of_app, list_elem_of_singleton. naive_solver. }
    rewrite si_infl0. unfold has_worker. naive_solver.
Qed.

(** Appending a step whose dependencies are completed keeps the order. *)
Lemma dispatched_topo s idx :
  sched_inv s -> deps_of g idx ⊆ completed s ->
  forall k i d, (ds_dispatchSeq s ++ [idx]) !! k = Some i -> d ∈ deps_of g i ->
    d ∈ RS \/ d ∈ take k (ds_dispatchSeq s ++ [idx]).
Proof using g_n.
  intros [] Hdeps k i d. rewrite lookup_app_Some, list_lookup_singleton_Some.
  intros [Hk|(Hk & Hz & <-)] Hd.
  - rewrite take_app_le by (apply lookup_lt_Some in Hk; lia). by apply (si_topo0 k i).
  - rewrite take_app_le, take_ge by lia.
    apply Hdeps, elem_of_completed in Hd as [?|[?%si_fin0|Hp]]; auto.
    right. exact (subseteq_take _ _ _ Hp).
Qed.

Lemma dispatched_inv s idx ready ps :
  sched_inv s -> ds_aborted s = false -> ds_readyQueue s = idx :: ready ->
  (ws_Input (step_of cfg idx) = None -> ps_input ps = dep_input s idx) ->
  sched_inv (dispatched_state idx ready ps s) /\
  (idx ∉ completed (dispatched_state idx ready ps s)) /\ idx ∉ ds_inflight s.
Proof using g_wf g_n range_perm.
  intros Hinv Hab Hr Hpin.
  destruct (next_ready s idx ready Hinv Hab Hr) as (Hlt & HnRS & HnD & Hdeps & Hnc & Hni & Hres).
  pose proof Hinv as [].
  assert (take (ds_processPos s) (ds_dispatchSeq s ++ [idx]) = processed s) as Htake
    by (unfold processed; by rewrite take_app_le).
  assert (completed (dispatched_state idx ready ps s) = completed s) as Hcomp
    by (unfold completed, processed at 1; cbn; by rewrite Htake).
  split; [|by rewrite Hcomp].
  split; cbn -[completed]; rewrite ?Hcomp; try done.
  4,5,6,11: rewrite ?length_app; cbn; first [lia|intros i Hi; apply elem_of_app; left; auto].
  2,3,4: intros i [Hi| ->%list_elem_of_singleton]%elem_of_app; auto.
  - apply NoDup_app. split_done. split; [|apply NoDup_singleton].
    by intros x Hx ->%list_elem_of_singleton.
  - intros i [Hi| ->%list_elem_of_singleton]%elem_of_app; [|by rewrite lookup_insert_eq].
    rewrite lookup_insert_ne by (by intros ->). auto.
  - intros _. apply queue_dequeue. rewrite <- Hr. auto.
  - intros Ht. congruence.
  - destruct (_ && _); [|done]. apply NoDup_app. split_done.
    split; [|apply NoDup_singleton]. by intros x Hx ->%list_elem_of_singleton.
  - intros j. by apply (dispatched_inflight s idx ready).
  - intros j. destruct (_ && _); [|apply si_infl_fin0].
    rewrite elem_of_app, list_elem_of_singleton. intros [Hj| ->]; [by apply si_infl_fin0|].
    intros Hf%si_fin0. done.
  - by apply dispatched_topo.
  - unfold early_value. cbn. intros j Hj. specialize (si_fin0 j Hj). rewrite drop_app_le by done.
    rewrite elem_of_app, list_elem_of_singleton. intros [Hd| ->]; [|done].
    rewrite lookup_insert_ne by (by intros <-). by apply si_fin_val0.
  - intros i ps' [Hi| ->%list_elem_of_singleton]%elem_of_app.
    + rewrite lookup_insert_ne by (by intros <-). by apply si_input0.
    + rewrite lookup_insert_eq. intros [= <-]. exact Hpin.
  - unfold processed. cbn. by rewrite Htake.
Qed.

Lemma dispatch_one_inv s idx ready :
  sched_inv s -> ds_aborted s = false -> ds_readyQueue s = idx :: ready ->
  sched_inv (dispatch_one env cfg idx ready s).
Proof using g_wf g_n range_perm.
  intros Hinv Hab Hr. unfold dispatch_one.
  set (ps := prepareDAGStep _ _ _ _ _ _ _).
  assert (ws_Input (step_of cfg idx) = None -> ps_input ps = dep_input s idx) as Hpin.
  { intros Hin. unfold ps, prepareDAGStep, dep_input, g. rewrite Hin.
    repeat case_match; done. }
  destruct (dispatched_inv s idx ready ps Hinv Hab Hr Hpin) as (Hi & Hnc & Hni).
  change (mkScheduler _ _ _ ready _ _ _ _ _ _ _ _ _ _ _) with (dispatched_state idx ready ps s).
  destruct (ps_evalErr ps) eqn:Ee; [done|]. destruct (ps_skipped ps) eqn:Es; [|done].
  apply finalize_inv; try done.
  - cbn. apply elem_of_app. right. by apply list_elem_of_singleton.
  - cbn. by rewrite Es.
  - exists ps. cbn. rewrite lookup_insert_eq. split_done. split_done. by rewrite Es.
Qed.

(** A result is stored. *)
Definition stored_state (idx : nat) (res : dagExecResult) (s : dagScheduler) : dagScheduler :=
  mkScheduler (ds_engine s) (ds_resolver s) (ds_pending s) (ds_readyQueue s)
    (ds_dispatchSeq s) (<[idx := res]> (ds_results s)) (ds_prepared s) (ds_finalized s)
    (ds_completedOK s) (filter (fun j => j <> idx) (ds_inflight s)) (ds_processPos s)
    (ds_aborted s) (ds_firstAbortErr s) (ds_allResults s) (ds_lastOutput s).

Lemma stored_inv s idx res :
  sched_inv s -> idx ∈ ds_inflight s -> sched_inv (stored_state idx res s).
Proof using Type.
  intros [] Hin. pose proof (proj1 (si_infl0 idx) Hin) as (Hdrop & Hw & Hnone).
  split; cbn; try done.
  - intros j. destruct (decide (j = idx)) as [->|Hne].
    + intros _. exact (subseteq_drop _ _ _ Hdrop).
    + rewrite lookup_insert_ne by done. auto.
  - by apply NoDup_filter.
  - intros j. rewrite list_elem_of_filter, si_infl0. unfold has_worker. cbn.
    destruct (decide (j = idx)) as [->|Hne].
    + rewrite lookup_insert_eq. naive_solver.
    + rewrite lookup_insert_ne by done. naive_solver.
  - intros j [_ Hj]%list_elem_of_filter. auto.
  - unfold early_value. cbn. intros j Hj Hd.
    rewrite lookup_insert_ne by (intros <-; by apply (si_infl_fin0 idx)). by apply si_fin_val0.
Qed.

Lemma receive_inv s idx res :
  sched_inv s -> idx ∈ ds_inflight s -> sched_inv (receive env cfg idx res s).
Proof using g_wf range_perm.
  intros Hinv Hin. unfold receive.
  change (mkScheduler _ _ _ _ _ (<[idx := res]> _) _ _ _ _ _ _ _ _ _) with (stored_state idx res s).
  pose proof (stored_inv s idx res Hinv Hin) as Hs. destruct Hinv.
  destruct (er_err res) eqn:Eres; [done|]. destruct (ds_aborted s) eqn:Hab; [done|].
  pose proof (proj1 (si_infl0 idx) Hin) as (Hdrop & Hw & Hnone).
  apply finalize_inv; try done; cbn.
  - exact (subseteq_drop _ _ _ Hdrop).
  - rewrite elem_of_completed. cbn. intros [Hr|[Hf|Hp]].
    + by apply (si_fresh0 idx); [exact (subseteq_drop _ _ _ Hdrop)|].
    + by apply (si_infl_fin0 idx).
    + unfold processed in Hp. cbn in Hp. revert Hdrop Hp. clear -si_nodup0.
      rewrite <- (take_drop (ds_processPos s) (ds_dispatchSeq s)) in si_nodup0.
      apply NoDup_app in si_nodup0 as (_ & H & _). intros Hd Ht. by apply (H idx).
  - by intros [? _]%list_elem_of_filter.
  - destruct Hw as (ps & Hps & Hsk & Hev). exists ps. split_done. split_done.
    rewrite Hsk. exists res. cbn. by rewrite lookup_insert_eq.
Qed.

(** The step at the processing position is recorded; what happens to the
    counters, the queue and the abort flag is left open. *)
Definition recorded_state (want : nat) (ps : dagPreparedStep) (output : string)
    (resultErr : option error) (pending : list Z) (ready : list nat) (ok : gset nat)
    (aborted : bool) (abortErr : option error) (s : dagScheduler) : dagScheduler :=
  let s1 := record_result cfg want ps output resultErr s in
  mkScheduler (ds_engine s1) (ds_resolver s1) pending ready (ds_dispatchSeq s1)
    (ds_results s1) (ds_prepared s1) (ds_finalized s1) ok (ds_inflight s1)
    (ds_processPos s1) aborted abortErr (ds_allResults s1) (ds_lastOutput s1).

Lemma recorded_inv s want ps output resultErr pending ready ok aborted abortErr :
  sched_inv s -> ds_dispatchSeq s !! ds_processPos s = Some want -> want ∉ ds_inflight s ->
  (aborted = false -> queue_inv g RS ({[want]} ∪ completed s) (list_to_set (ds_dispatchSeq s))
                        pending ready) ->
  (aborted = true -> ready = []) -> aborted = bool_decide (is_Some abortErr) ->
  (forall i, i ∈ ok -> i ∈ ds_dispatchSeq s) ->
  (want ∈ ds_finalized s -> ds_resolver s !! want = Some output) ->
  sched_inv (recorded_state want ps output resultErr pending ready ok aborted abortErr s).
Proof using g_n range_perm.
  intros [] Hwant Hni Hq Hready Herr Hok Hout.
  destruct (NoDup_drop_not_take _ _ _ si_nodup0 Hwant) as [Hnt Hnd'].
  assert (want ∈ ds_dispatchSeq s) as Hseq by (by apply list_elem_of_lookup_2 in Hwant).
  assert (take (S (ds_processPos s)) (ds_dispatchSeq s) = (processed s ++ [want])%list) as Htake
    by (by apply take_S_lookup).
  set (s' := recorded_state _ _ _ _ _ _ _ _ _ _).
  assert (forall i, i ∈ completed s' <-> i ∈ {[want]} ∪ completed s) as Hcomp.
  { intros i. rewrite elem_of_union, elem_of_singleton, !elem_of_completed.
    unfold processed at 1. cbn -[take]. rewrite Htake.
    rewrite elem_of_app, list_elem_of_singleton. tauto. }
  split; cbn -[completed take drop]; try done.
  - apply lookup_lt_Some in Hwant. lia.
  - intros i Hi x Hx. apply Hcomp, elem_of_union. right. by apply (si_deps0 i).
  - intros Hab. eapply queue_inv_proper; [|done|by apply Hq]. intros i. symmetry. apply Hcomp.
  - intros j. rewrite lookup_delete_is_Some. intros [_ ?]. auto.
  - intros j. rewrite si_infl0. unfold has_worker. cbn -[take drop].
    rewrite (drop_S _ want _ Hwant), elem_of_cons. split.
    + intros ([->|Hj] & Hw & Hr).
      { exfalso. apply Hni, si_infl0. split_and!; try done.
        rewrite (drop_S _ want _ Hwant). left. }
      split_and!; try done. rewrite lookup_delete_None. by right.
    + intros (Hj & Hw & Hr). split_and!; [by right|done|].
      rewrite lookup_delete_ne in Hr; [done|]. by intros <-.
  - intros i Hi. apply Hcomp, elem_of_union in Hi. rewrite elem_of_singleton in Hi.
    destruct (decide (i = want)) as [->|Hne].
    + by rewrite lookup_insert_eq.
    + rewrite lookup_insert_ne by done. apply si_resolver0. tauto.
  - unfold early_value. cbn -[take drop]. intros j Hj Hd.
    assert (j <> want) by (by intros ->). rewrite lookup_insert_ne by done.
    rewrite lookup_delete_ne by done. apply si_fin_val0; [done|].
    rewrite (drop_S _ want _ Hwant). by right.
  - intros i ps' Hi Hp Hin. rewrite (si_input0 i ps' Hi Hp Hin). symmetry.
    eapply dep_input_insert; [reflexivity|]. intros Hd.
    apply (si_deps0 i Hi), elem_of_completed in Hd as [Hr|[Hf|Hp']]; [|by apply Hout|done].
    by apply (si_fresh0 want) in Hr.
  - unfold processed. cbn -[take]. rewrite Htake, !map_app, si_rows0. cbn.
    by rewrite <- app_assoc.
Qed.

(** The states in which [processNextResult] can leave the scheduler. *)
Definition processed_state (want : nat) (ps : dagPreparedStep) (output : string)
    (resultErr abortErr : option error) (s : dagScheduler) : dagScheduler :=
  let s1 := record_result cfg want ps output resultErr s in
  match abortErr, ds_firstAbortErr s with
  | Some e, None => abort_with e s1
  | _, _ =>
      if ds_aborted s then s1 else
      let s2 := if decide (want ∈ ds_finalized s) then s1 else propagateDeps env cfg want s1 in
      match resultErr with
      | Some _ => s2
      | None => mark_ok want s2
      end
  end.

(** The dependents of a recorded step are released, now or earlier. *)
Lemma recorded_release s want ps output resultErr :
  sched_inv s -> ds_aborted s = false -> ds_firstAbortErr s = None ->
  want ∈ ds_dispatchSeq s -> want ∉ processed s ->
  let s1 := record_result cfg want ps output resultErr s in
  exists pending ready,
    (if decide (want ∈ ds_finalized s) then s1 else propagateDeps env cfg want s1)
    = recorded_state want ps output resultErr pending ready (ds_completedOK s) false None s /\
    queue_inv g RS ({[want]} ∪ completed s) (list_to_set (ds_dispatchSeq s)) pending ready.
Proof using g_wf range_perm.
  intros [] Hab Hfirst Hseq Hnt s1.
  assert (s1 = recorded_state want ps output resultErr (ds_pending s) (ds_readyQueue s)
    (ds_completedOK s) false None s) as Hs1 by (unfold recorded_state; by rewrite <- Hfirst, <- Hab).
  case_decide as Hf.
  - exists (ds_pending s), (ds_readyQueue s). split_done.
    eapply queue_inv_proper; [|done|by apply si_queue0]. intros i.
    rewrite elem_of_union, elem_of_singleton. split; [by right|].
    intros [->|?]; [|done]. apply elem_of_completed. tauto.
  - assert (want ∉ completed s) as Hnc.
    { rewrite elem_of_completed. intros [?|[?|?]]; [by apply (si_fresh0 want)|done|done]. }
    assert (forall i, i ∈ list_to_set (C:=gset nat) (ds_dispatchSeq s) ->
      deps_of g i ⊆ completed s) as HD by (intros i Hi%elem_of_list_to_set; by apply si_deps0).
    pose proof (propagate_queue s1 want (completed s) (list_to_set (ds_dispatchSeq s))
      Hnc HD (si_queue0 Hab)) as Hq.
    destruct (propagateDeps_eq want s1) as (pending & ready & _ & Heq). rewrite Heq in Hq |- *.
    exists pending, ready. split; [|exact Hq]. by rewrite Hs1.
Qed.

Lemma processed_inv s want ps output resultErr abortErr :
  sched_inv s -> ds_dispatchSeq s !! ds_processPos s = Some want -> want ∉ ds_inflight s ->
  (want ∈ ds_finalized s -> ds_resolver s !! want = Some output) ->
  sched_inv (processed_state want ps output resultErr abortErr s).
Proof using g_wf g_n range_perm.
  intros Hinv Hwant Hni Hout. pose proof Hinv as [].
  assert (want ∈ ds_dispatchSeq s) as Hseq by (by apply list_elem_of_lookup_2 in Hwant).
  destruct (NoDup_drop_not_take _ _ _ si_nodup0 Hwant) as [Hnt _].
  unfold processed_state. set (s1 := record_result cfg want ps output resultErr s).
  assert (s1 = recorded_state want ps output resultErr (ds_pending s) (ds_readyQueue s)
    (ds_completedOK s) (ds_aborted s) (ds_firstAbortErr s) s) as Hs1 by reflexivity.
  destruct (ds_aborted s) eqn:Hab.
  { assert (is_Some (ds_firstAbortErr s)) as [e0 He0]
      by (by apply (bool_decide_eq_true_1 _); rewrite <- si_abort_err0).
    rewrite He0. assert (sched_inv s1); [|by destruct abortErr].
    rewrite Hs1, He0. apply recorded_inv; try done. }
  assert (ds_firstAbortErr s = None) as Hfirst.
  { destruct (ds_firstAbortErr s); [|done]. symmetry in si_abort_err0.
    by rewrite bool_decide_eq_false in si_abort_err0; destruct si_abort_err0. }
  rewrite Hfirst. destruct abortErr as [e|].
  { change (abort_with e s1) with (recorded_state want ps output resultErr (ds_pending s) []
      (ds_completedOK s) true (Some e) s). apply recorded_inv; try done. }
  destruct (recorded_release s want ps output resultErr Hinv Hab Hfirst Hseq Hnt)
    as (pending & ready & Hs2 & Hq). fold s1 in Hs2. rewrite Hs2. destruct resultErr.
  - by apply recorded_inv.
  - change (mark_ok _ _) with (recorded_state want ps output None pending ready
      ({[want]} ∪ ds_completedOK s) false None s).
    apply recorded_inv; try done. intros i [->%elem_of_singleton|?]%elem_of_union; auto.
Qed.
End inv.
