(* ===== verification/DagSchedulerProofs.v ===== *)
(** * Correctness of the scheduler

    The main loop keeps [sched_inv], ends within its fuel, and at its end has
    run every step that the abort and shutdown rules let it run.  The
    invariant holds of a fresh scheduler and of one restored from a
    checkpoint. *)

From S2P Require Import Prelude GoStrings GoTime WorkflowTypes Dag DagCycle DagTopo ExprEngine.
From S2P Require Import WalState Effects Helpers Compound DagScheduler DagSchedulerInv.

#[local] Open Scope nat_scope.

Lemma NoDup_bounded_length (l : list nat) n :
  NoDup l -> (forall i, i ∈ l -> i < n) -> length l <= n.
Proof.
  intros Hnd Hlt. rewrite <- (length_seq n 0) at 1.
  apply submseteq_length, NoDup_submseteq; [done|].
  intros i Hi. apply elem_of_seq. specialize (Hlt i Hi). lia.
Qed.

Section loop.
Context {W : Type} (env : Env W) (cps : Checkpoints W) (R : Rec W) (cfg : dagConfig).
Context (range_perm : forall i s, env_range_set env i s ≡ₚ elements s).
Context (recv_valid : forall l, l <> [] -> yields (env_recv env l) (fun i => i ∈ l)).
Let g := dc_graph cfg.
Let n := nodeCount g.
Context (g_wf : graph_wf g) (g_n : n = length (wf_Steps (dc_wf cfg))).
Context (RS : gset nat) (base : list Z).
Abbreviation inv := (sched_inv env cfg RS base).

(** The rounds the main loop still has to go, at most. *)
Definition rounds_left (s : dagScheduler) : nat :=
  2 * (n - length (ds_dispatchSeq s)) + length (ds_inflight s)
    + (length (ds_dispatchSeq s) - ds_processPos s).

(** Nothing asks the process to stop. *)
Definition never_down : Prop := yields (env_IsShuttingDown env) (fun b => b = false).

Lemma dispatched_bound s : inv s -> length (ds_dispatchSeq s) <= n.
Proof using g_n. intros []. by apply NoDup_bounded_length. Qed.

Lemma finalize_shape idx out s :
  let s' := finalize env cfg idx out s in
  ds_dispatchSeq s' = ds_dispatchSeq s /\ ds_inflight s' = ds_inflight s /\
  ds_processPos s' = ds_processPos s /\ ds_aborted s' = ds_aborted s.
Proof.
  unfold finalize. set (s1 := mkScheduler _ _ _ _ _ _ _ _ _ _ _ _ _ _ _).
  by destruct (propagateDeps_eq env cfg idx s1) as (? & ? & _ & ->).
Qed.

Lemma dispatch_one_shape idx ready s :
  let s' := dispatch_one env cfg idx ready s in
  ds_dispatchSeq s' = (ds_dispatchSeq s ++ [idx])%list /\
  length (ds_inflight s') <= S (length (ds_inflight s)) /\
  ds_processPos s' = ds_processPos s /\ ds_aborted s' = ds_aborted s.
Proof.
  unfold dispatch_one. set (ps := prepareDAGStep _ _ _ _ _ _ _).
  set (s1 := mkScheduler _ _ _ _ _ _ _ _ _ _ _ _ _ _ _).
  assert (length (ds_inflight s1) <= S (length (ds_inflight s))) as Hl.
  { unfold s1. cbn. clear. destruct (_ && _); rewrite ?length_app; cbn; lia. }
  destruct (ps_evalErr ps); [done|]. destruct (ps_skipped ps); [|done].
  destruct (finalize_shape idx "" s1) as (-> & -> & -> & ->). done.
Qed.

Lemma ready_bound s idx ready :
  inv s -> ds_aborted s = false -> ds_readyQueue s = idx :: ready ->
  length (ds_dispatchSeq s) < n.
Proof using g_n.
  intros [] Hab Hr. destruct (si_queue Hab) as [_ _ _ _ Hq].
  destruct (proj1 (Hq idx)) as (Hlt & _ & Hnew & _); [rewrite Hr; by left|].
  assert (length (idx :: ds_dispatchSeq s) <= n); [|cbn in *; lia].
  apply NoDup_bounded_length.
  - apply NoDup_cons. split; [|done]. by rewrite elem_of_list_to_set in Hnew.
  - by intros i [->|?]%elem_of_cons; [|apply si_lt].
Qed.

Lemma dispatch_one_rounds s idx ready :
  inv s -> ds_aborted s = false -> ds_readyQueue s = idx :: ready ->
  rounds_left (dispatch_one env cfg idx ready s) <= rounds_left s.
Proof using g_n.
  intros Hinv Hab Hr. pose proof (ready_bound s idx ready Hinv Hab Hr).
  destruct (dispatch_one_shape idx ready s) as (H1 & H2 & H3 & _).
  destruct Hinv. unfold rounds_left. rewrite H1, H3, length_app. cbn. lia.
Qed.

(** Phase 1 drains the queue unless the run aborts or shuts down. *)
Lemma dispatchReady_spec fuel : forall s,
  inv s -> n <= fuel + length (ds_dispatchSeq s) ->
  yields (dispatchReady env cfg fuel s) (fun s' =>
    inv s' /\ rounds_left s' <= rounds_left s /\ (never_down -> ds_readyQueue s' = []) /\
    (ds_aborted s = true -> s' = s)).
Proof using g_n g_wf range_perm.
  induction fuel as [|fuel IH]; intros s Hinv Hfuel; cbn [dispatchReady].
  - assert (ds_readyQueue s = []) as Hr.
    { destruct (ds_aborted s) eqn:Hab; [by apply (si_abort_ready _ _ _ _ _ Hinv)|].
      destruct (ds_readyQueue s) as [|idx ready] eqn:Hr; [done|].
      pose proof (ready_bound s idx ready Hinv Hab Hr). lia. }
    rewrite Hr. by apply yields_ret.
  - destruct (ds_readyQueue s) as [|idx ready] eqn:Hr; [by apply yields_ret|].
    destruct (ds_aborted s) eqn:Hab.
    { pose proof (si_abort_ready _ _ _ _ _ Hinv Hab). congruence. }
    intros w w' s'. unfold mbind, M_bind.
    destruct (env_IsShuttingDown env w) as [w1 [down|msg]] eqn:Hdown; [|done].
    destruct down.
    { intros [= _ <-]. split_and!; try done. intros Hnd. by apply Hnd in Hdown. }
    intros Hs'. destruct (dispatch_one_shape idx ready s) as (H1 & _).
    destruct (IH (dispatch_one env cfg idx ready s)
      (dispatch_one_inv env cfg range_perm g_wf g_n RS base s idx ready Hinv Hab Hr)) with w1 w' s'
      as (Hi & Hle & Hrd & _); [rewrite H1, length_app; cbn; lia|done|].
    pose proof (dispatch_one_rounds s idx ready Hinv Hab Hr). split_and!; try done. lia.
Qed.

(** The number of steps is enough fuel for phase 1. *)
Lemma dispatchReady_fuel k fuel : forall s,
  inv s -> n <= fuel + length (ds_dispatchSeq s) ->
  dispatchReady env cfg (fuel + k) s ≡ₘ dispatchReady env cfg fuel s.
Proof using g_n g_wf range_perm.
  induction fuel as [|fuel IH]; intros s Hinv Hfuel w.
  - assert (ds_readyQueue s = []) as Hr.
    { destruct (ds_aborted s) eqn:Hab; [by apply (si_abort_ready _ _ _ _ _ Hinv)|].
      destruct (ds_readyQueue s) as [|idx ready] eqn:Hr; [done|].
      pose proof (ready_bound s idx ready Hinv Hab Hr). lia. }
    destruct k; cbn; by rewrite Hr.
  - cbn. destruct (ds_readyQueue s) as [|idx ready] eqn:Hr; [done|].
    destruct (ds_aborted s) eqn:Hab; [done|].
    apply bind_ext; [done|]. intros []; [done|]. intros w1. apply IH.
    + by apply dispatch_one_inv.
    + destruct (dispatch_one_shape idx ready s) as (-> & _). rewrite length_app. cbn. lia.
Qed.

Lemma receive_shape idx res s :
  let s' := receive env cfg idx res s in
  ds_dispatchSeq s' = ds_dispatchSeq s /\
  ds_inflight s' = filter (fun j => j <> idx) (ds_inflight s) /\
  ds_processPos s' = ds_processPos s /\ ds_aborted s' = ds_aborted s.
Proof.
  unfold receive. set (s1 := mkScheduler _ _ _ _ _ _ _ _ _ _ _ _ _ _ _).
  destruct (er_err res); [done|]. destruct (ds_aborted s) eqn:E; [done|].
  by destruct (finalize_shape idx (er_output res) s1) as (-> & -> & -> & ->).
Qed.

(** Phase 2 receives a result, or the step to process needs none. *)
Lemma awaitNextResult_spec s want :
  inv s -> ds_dispatchSeq s !! ds_processPos s = Some want ->
  yields (awaitNextResult env R cfg s) (fun r =>
    if r.1 : bool then
      inv r.2 /\ rounds_left r.2 < rounds_left s /\
      ds_dispatchSeq r.2 = ds_dispatchSeq s /\ ds_aborted r.2 = ds_aborted s
    else r.2 = s /\ want ∉ ds_inflight s).
Proof using g_n g_wf range_perm recv_valid.
  intros Hinv Hwant. unfold awaitNextResult. rewrite Hwant. pose proof Hinv as [].
  assert (want ∈ drop (ds_processPos s) (ds_dispatchSeq s)) as Hdrop.
  { rewrite (drop_S _ want _ Hwant). by left. }
  destruct (si_prep want) as [ps Hps]; [exact (subseteq_drop _ _ _ Hdrop)|].
  rewrite Hps. destruct (_ || _) eqn:Ew.
  { apply yields_ret. split_done. rewrite si_infl. unfold has_worker. rewrite Hps.
    intros (_ & (ps' & [= <-] & H1 & H2) & H3). rewrite H1, H2, H3 in Ew.
    by rewrite !bool_decide_eq_false_2 in Ew by (by intros [? ?]). }
  apply orb_false_iff in Ew as [[Hsk Hev]%orb_false_iff Hres].
  apply bool_decide_eq_false in Hev, Hres. apply eq_None_not_Some in Hev, Hres.
  assert (want ∈ ds_inflight s) as Hin.
  { apply si_infl. split_and!; try done. by exists ps. }
  eapply yields_bind; [apply recv_valid; by destruct (ds_inflight s); [apply not_elem_of_nil in Hin|]|].
  intros idx Hidx. eapply yields_bind; [apply yields_any|]. intros res _.
  apply yields_ret. cbn [fst snd]. destruct (receive_shape idx res s) as (H1 & H2 & H3 & H4).
  split_and!; try done; [by apply receive_inv|].
  unfold rounds_left. rewrite H1, H2, H3.
  pose proof (length_filter_lt (fun j => j <> idx) (ds_inflight s) idx Hidx ltac:(by intros ?)).
  lia.
Qed.

(** The output a finalized step is processed with is the one its dependents
    already saw. *)
Lemma processDAGStepResult_early s want :
  inv s -> ds_dispatchSeq s !! ds_processPos s = Some want ->
  yields (processDAGStepResult env R cfg want
            (default (mkPrepared "" ∅ None false) (ds_prepared s !! want))
            (ds_results s !! want) (ds_engine s))
    (fun r => want ∈ ds_finalized s -> ds_resolver s !! want = Some r.1.1).
Proof.
  intros [] Hwant w w' r Hr Hfin.
  destruct (si_fin_val want Hfin) as (ps & Hps & Hev & Hval).
  { rewrite (drop_S _ want _ Hwant). by left. }
  unfold processDAGStepResult in Hr. rewrite Hps in Hr. cbn in Hr. rewrite Hev in Hr.
  destruct (ps_skipped ps); [injection Hr as _ <-; done|].
  destruct Hval as (er & Her & Herr & Hval). rewrite Her in Hr. cbn in Hr. rewrite Herr in Hr.
  injection Hr as _ <-. done.
Qed.

Lemma processed_shape want ps output resultErr abortErr s :
  let s' := processed_state env cfg want ps output resultErr abortErr s in
  ds_dispatchSeq s' = ds_dispatchSeq s /\ ds_inflight s' = ds_inflight s /\
  ds_processPos s' = S (ds_processPos s) /\ (ds_aborted s = true -> ds_aborted s' = true).
Proof.
  unfold processed_state. set (s1 := record_result cfg want ps output resultErr s).
  destruct (propagateDeps_eq env cfg want s1) as (? & ? & _ & ->).
  repeat case_match; done.
Qed.

Lemma processNextResult_spec s want :
  inv s -> ds_dispatchSeq s !! ds_processPos s = Some want -> want ∉ ds_inflight s ->
  yields (processNextResult env cps R cfg s) (fun s' =>
    inv s' /\ rounds_left s' < rounds_left s /\ ds_dispatchSeq s' = ds_dispatchSeq s /\
    (ds_aborted s = true -> ds_aborted s' = true)).
Proof using g_n g_wf range_perm.
  intros Hinv Hwant Hni. unfold processNextResult. rewrite Hwant.
  eapply yields_bind; [by apply processDAGStepResult_early|].
  intros [[output resultErr] abortErr] Hout. cbn [fst] in Hout.
  set (ps := default _ _).
  eapply (yields_mono _ (fun s' => s' = processed_state env cfg want ps output resultErr abortErr s)).
  - unfold processed_state. destruct abortErr, (ds_firstAbortErr s), (ds_aborted s), resultErr;
      try (by apply yields_ret);
      (eapply yields_bind; [apply yields_any|intros _ _; by apply yields_ret]).
  - intros s' ->.
    pose proof (processed_shape want ps output resultErr abortErr s) as (H1 & H2 & H3 & H4).
    split; [by apply processed_inv|]. split; [|done].
    unfold rounds_left. rewrite H1, H2, H3. apply lookup_lt_Some in Hwant. lia.
Qed.

(** One round of the main loop. *)
Lemma round_spec s :
  inv s ->
  yields (dispatchReady env cfg (length (wf_Steps (dc_wf cfg))) s) (fun s' =>
    inv s' /\ rounds_left s' <= rounds_left s /\ (never_down -> ds_readyQueue s' = []) /\
    (ds_aborted s = true -> s' = s)).
Proof using g_n g_wf range_perm. intros Hinv. apply dispatchReady_spec; [done|]. lia. Qed.

Lemma lookup_pos s :
  ~ length (ds_dispatchSeq s) <= ds_processPos s ->
  exists want, ds_dispatchSeq s !! ds_processPos s = Some want.
Proof. intros H. apply lookup_lt_is_Some_2. by apply Nat.nle_gt. Qed.

Definition settled (s : dagScheduler) : Prop :=
  inv s /\ ds_processPos s = length (ds_dispatchSeq s) /\ (never_down -> ds_readyQueue s = []).

Lemma run_loop_spec fuel : forall s,
  inv s -> yields (run_loop env cps R cfg (throw "out of fuel") fuel s) settled.
Proof using g_n g_wf range_perm recv_valid.
  induction fuel as [|fuel IH]; intros s Hinv; cbn [run_loop]; [by intros w w' s'|].
  case_decide as Hgo.
  - eapply yields_bind; [by apply round_spec|]. intros s1 (Hi1 & _ & Hr1 & _).
    case_decide as Hpos.
    { apply yields_ret. split_and!; try done. destruct Hi1. lia. }
    destruct (lookup_pos s1 Hpos) as [want Hwant].
    eapply yields_bind; [by apply awaitNextResult_spec|]. intros [[] s2]; cbn [fst snd].
    + intros (Hi2 & _). by apply IH.
    + intros [-> Hni]. eapply yields_bind; [by apply (processNextResult_spec _ want)|].
      intros s3 (Hi3 & _). by apply IH.
  - apply yields_ret. split_and!; try done.
    + destruct Hinv. lia.
    + intros _. destruct (ds_readyQueue s); [done|]. destruct Hgo. by right.
Qed.

(** More fuel changes nothing and what happens without fuel is never seen. *)
Lemma run_loop_fuel stuck stuck' k fuel : forall s,
  inv s -> rounds_left s < fuel ->
  run_loop env cps R cfg stuck' (fuel + k) s ≡ₘ run_loop env cps R cfg stuck fuel s.
Proof using g_n g_wf range_perm recv_valid.
  induction fuel as [|fuel IH]; intros s Hinv Hfuel; [lia|]. cbn [run_loop Nat.add].
  case_decide as Hgo; [|done].
  eapply bind_ext_yields; [by apply round_spec|]. intros s1 (Hi1 & Hle & _).
  case_decide as Hpos; [done|]. destruct (lookup_pos s1 Hpos) as [want Hwant].
  eapply bind_ext_yields; [by apply awaitNextResult_spec|]. intros [[] s2]; cbn [fst snd].
  - intros (Hi2 & Hlt & _). apply IH; [done|lia].
  - intros [-> Hni]. eapply bind_ext_yields; [by apply (processNextResult_spec _ want)|].
    intros s3 (Hi3 & Hlt & _). apply IH; [done|lia].
Qed.

(** An aborted run dispatches nothing more. *)
Lemma run_loop_aborted fuel : forall s,
  inv s -> ds_aborted s = true ->
  yields (run_loop env cps R cfg (throw "out of fuel") fuel s)
    (fun s' => ds_dispatchSeq s' = ds_dispatchSeq s).
Proof using g_n g_wf range_perm recv_valid.
  induction fuel as [|fuel IH]; intros s Hinv Hab; cbn [run_loop]; [by intros w w' s'|].
  case_decide as Hgo; [|by apply yields_ret].
  eapply yields_bind; [by apply round_spec|]. intros s1 (Hi1 & _ & _ & Hs1).
  rewrite (Hs1 Hab) in *. case_decide as Hpos; [by apply yields_ret|].
  destruct (lookup_pos s Hpos) as [want Hwant].
  eapply yields_bind; [by apply awaitNextResult_spec|]. intros [[] s2]; cbn [fst snd].
  - intros (Hi2 & _ & Heq & Hab2). rewrite <- Heq. apply IH; [done|congruence].
  - intros [-> Hni]. eapply yields_bind; [by apply (processNextResult_spec _ want)|].
    intros s3 (Hi3 & _ & Heq & Hab3). rewrite <- Heq. apply IH; [done|auto].
Qed.

(** Without an abort or a shutdown nothing is left out. *)
Lemma settled_complete s :
  acyclic g -> settled s -> never_down -> ds_aborted s = false ->
  forall i, i < n -> i ∈ RS \/ i ∈ ds_dispatchSeq s.
Proof using g_n g_wf.
  intros Hac (Hinv & Hpos & Hr) Hnd Hab i Hi. pose proof Hinv as [].
  destruct (decide (i ∈ completed RS s)) as [Hc|Hc].
  { apply elem_of_completed in Hc as [?|[?%si_fin|Hp]]; auto.
    right. exact (subseteq_take _ _ _ Hp). }
  exfalso. pose proof (Ready_progress g (completed RS s) i g_wf (acyclic_Acc g g_wf Hac i) Hi Hc) as Hne.
  apply set_choose_L in Hne as [j Hj]. apply elem_of_Ready in Hj as (Hjn & Hjc & Hjd).
  destruct (si_queue Hab) as [_ _ _ _ Hq].
  assert (j ∈ ds_readyQueue s) as Hjr; [|rewrite (Hr Hnd) in Hjr; by apply not_elem_of_nil in Hjr].
  apply Hq. split_and!; try done.
  - intros HjR. apply Hjc, elem_of_completed. auto.
  - rewrite elem_of_list_to_set. intros Hjs. apply Hjc, elem_of_completed. right. right.
    unfold processed. by rewrite Hpos, take_ge.
Qed.
End loop.

(** ** Where a run of the scheduler starts, and what it delivers

    The invariant holds of a fresh scheduler and of one restored from a
    checkpoint, so the lemmas on the main loop apply to every run; the
    theorems on whole DAG workflows follow. *)

(** ** The initial queue *)

Lemma NoDup_omap_inj {A B} (f : A -> option B) (l : list A) :
  NoDup l -> (forall x y b, f x = Some b -> f y = Some b -> x = y) -> NoDup (omap f l).
Proof.
  intros Hnd Hinj. induction Hnd as [|x l Hx Hnd IH]; [constructor|]. cbn.
  destruct (f x) as [b|] eqn:Hb; [|done]. apply NoDup_cons. split; [|done].
  intros (y & Hy & Hyb)%list_elem_of_omap. by rewrite (Hinj x y b) in Hx.
Qed.

Lemma fold_zero_lookup order (p : list Z) i :
  fold_left (fun p i => <[i := 0%Z]> p) order p !! i
  = (fun z => if decide (i ∈ order) then 0%Z else z) <$> p !! i.
Proof.
  revert p. induction order as [|x order IH]; intros p; cbn [fold_left].
  - destruct (p !! i); [|done]. cbn. by rewrite decide_False by apply not_elem_of_nil.
  - rewrite IH. destruct (decide (i = x)) as [->|Hne].
    + destruct (p !! x) as [z|] eqn:Hz.
      * rewrite list_lookup_insert_eq by (by eapply lookup_lt_Some). cbn.
        f_equal. destruct (decide (x ∈ x :: order)) as [|Hn]; [by case_decide|].
        destruct Hn. by left.
      * rewrite list_insert_ge by (by apply lookup_ge_None). by rewrite Hz.
    + rewrite list_lookup_insert_ne by done. destruct (p !! i); [|done]. cbn. f_equal.
      destruct (decide (i ∈ order)).
      * by rewrite decide_True by by right.
      * by rewrite decide_False by (rewrite elem_of_cons; tauto).
Qed.

Lemma fold_zero_length order (p : list Z) :
  length (fold_left (fun p i => <[i := 0%Z]> p) order p) = length p.
Proof.
  revert p. induction order as [|x order IH]; intros p; cbn [fold_left]; [done|].
  by rewrite IH, length_insert.
Qed.

Section start.
Context {W : Type} (env : Env W) (cfg : dagConfig).
Context (range_perm : forall i s, env_range_set env i s ≡ₚ elements s).
Let g := dc_graph cfg.
Let n := nodeCount g.
Context (g_wf : graph_wf g) (g_n : n = length (wf_Steps (dc_wf cfg))).

Lemma fresh_pending engine i p :
  ds_pending (newDAGScheduler cfg engine) !! i = Some p ->
  i < n /\ p = Z.of_nat (size (deps_of g i)).
Proof using g_n.
  cbn. rewrite list_lookup_fmap_Some. intros (j & -> & [-> Hj]%lookup_seq). split; [|done].
  rewrite g_n. lia.
Qed.

Lemma fresh_ready engine i :
  i ∈ ds_readyQueue (newDAGScheduler cfg engine) <-> i < n /\ deps_of g i ⊆ (∅ : gset nat).
Proof using g_n.
  cbn. rewrite list_elem_of_filter, elem_of_seq, <- g_n. split.
  - intros [Hp Hi]. split; [lia|].
    rewrite list_lookup_fmap, lookup_seq_lt in Hp by lia. cbn in Hp.
    apply minus_size_zero. rewrite difference_empty_L. injection Hp as Hp. unfold g. lia.
  - intros [Hi Hd]. split; [|lia]. rewrite list_lookup_fmap, lookup_seq_lt by lia. cbn.
    apply minus_size_zero in Hd. rewrite difference_empty_L in Hd. f_equal. unfold g in Hd. lia.
Qed.

(** The counters and the queue when the steps of [RS] are left out. *)
Lemma queue_start RS order engine :
  (forall i, i ∈ order <-> i ∈ RS) ->
  queue_inv g RS ∅ ∅
    (fold_left (fun p i => <[i := 0%Z]> p) order (ds_pending (newDAGScheduler cfg engine)))
    (filter (fun i => i ∉ RS) (ds_readyQueue (newDAGScheduler cfg engine))).
Proof using g_n.
  intros Horder. split.
  - rewrite fold_zero_length. cbn. by rewrite length_map, length_seq.
  - intros i p Hi. rewrite fold_zero_lookup.
    destruct (ds_pending _ !! i) as [z|] eqn:Hz; [|done]. cbn [fmap option_fmap option_map].
    rewrite decide_False by (by rewrite Horder). intros [= <-].
    apply fresh_pending in Hz as [_ ->]. by rewrite difference_empty_L.
  - intros i p Hi. rewrite fold_zero_lookup. destruct (ds_pending _ !! i); [|done].
    cbn [fmap option_fmap option_map]. rewrite decide_True by (by rewrite Horder). intros [= <-]. lia.
  - apply NoDup_filter. apply NoDup_filter, NoDup_seq.
  - intros i. rewrite list_elem_of_filter, fresh_ready. split.
    + intros (H1 & H2 & H3). split_and!; [done|done|apply not_elem_of_empty|done].
    + intros (H1 & H2 & _ & H3). done.
Qed.

(** A scheduler that has not dispatched anything yet. *)
Lemma start_inv RS base s :
  ds_dispatchSeq s = [] -> ds_results s = ∅ -> ds_finalized s = ∅ -> ds_completedOK s = ∅ ->
  ds_inflight s = [] -> ds_processPos s = 0 -> ds_aborted s = false ->
  ds_firstAbortErr s = None -> queue_inv g RS RS ∅ (ds_pending s) (ds_readyQueue s) ->
  (forall i, i ∈ RS -> is_Some (ds_resolver s !! i)) ->
  map sr_StepIndex (ds_allResults s) = base -> sched_inv env cfg RS base s.
Proof.
  intros Hs Hr Hf Hc Hi Hp Ha He Hq Hres Hrows.
  assert (completed RS s ≡ RS) as Hcomp.
  { intros i. rewrite elem_of_completed, Hf. unfold processed. rewrite Hs, take_nil.
    rewrite elem_of_nil. pose proof (not_elem_of_empty (C:=gset nat) i). tauto. }
  split; rewrite ?Hs, ?Hr, ?Hf, ?Hc, ?Hi, ?Hp, ?Ha, ?He; try done; try apply NoDup_nil_2;
    try (intros ? ?%not_elem_of_nil; done);
    try (intros ? ?%(not_elem_of_empty (C:=gset nat)); done);
    try (intros ? ? ?%not_elem_of_nil; done).
  - intros _. eapply queue_inv_proper; [symmetry; exact Hcomp|done|exact Hq].
  - intros j. rewrite lookup_empty. by intros [? ?].
  - intros j. rewrite drop_nil, elem_of_nil. tauto.
  - intros i Hic. apply Hres. by apply Hcomp.
  - unfold processed. by rewrite Hs, take_nil, app_nil_r.
Qed.

Lemma fresh_inv engine : sched_inv env cfg ∅ [] (newDAGScheduler cfg engine).
Proof using g_n.
  apply start_inv; try done.
  pose proof (queue_start ∅ [] engine) as Hq. cbn [fold_left] in Hq.
  rewrite list_filter_all in Hq.
  - apply Hq. intros i. rewrite elem_of_nil. split; [done|apply not_elem_of_empty].
  - apply Forall_forall. intros i _. apply not_elem_of_empty.
Qed.

(** The credits of restored steps. *)
Lemma queue_resume RS l : forall P pending ready,
  NoDup l -> (forall i, i ∈ l -> i ∉ P) -> queue_inv g RS P ∅ pending ready ->
  let '(pending', ready') := fold_left (credit_resumed env cfg RS) l (pending, ready) in
  queue_inv g RS (list_to_set l ∪ P) ∅ pending' ready'.
Proof using g_wf range_perm.
  induction l as [|x l IH]; intros P pending ready Hnd HP Hq; cbn [fold_left].
  - eapply queue_inv_proper; [|done|exact Hq]. cbn. by rewrite (left_id_L ∅ (∪)).
  - apply NoDup_cons in Hnd as [Hx Hnd]. unfold credit_resumed at 2.
    set (ds := sort_ints _).
    assert (forall d, d ∈ ds <-> x ∈ deps_of g d) as Hds.
    { intros d. unfold ds, sort_ints. rewrite merge_sort_Permutation, range_perm, elem_of_elements.
      symmetry. apply (wf_inverse _ g_wf). }
    pose proof (queue_propagate g g_wf RS P ∅ pending ready x (filter (fun d => d ∉ RS) ds)) as HQ.
    destruct (fold_left credit _ _) as [pending1 ready1].
    assert (queue_inv g RS ({[x]} ∪ P) ∅ pending1 ready1) as Hq1.
    { apply HQ; try done.
      - apply HP. by left.
      - apply NoDup_filter. unfold ds, sort_ints. rewrite merge_sort_Permutation, range_perm.
        apply NoDup_elements.
      - intros d [_ Hd]%list_elem_of_filter. by apply Hds.
      - intros d Hd Hdx. apply list_elem_of_filter. split_done. by apply Hds. }
    specialize (IH ({[x]} ∪ P) pending1 ready1 Hnd).
    destruct (fold_left (credit_resumed env cfg RS) l _) as [pending2 ready2].
    eapply queue_inv_proper; [|done|apply IH; [|done]].
    + intros i. rewrite list_to_set_cons, !elem_of_union. tauto.
    + intros i Hi. rewrite elem_of_union, elem_of_singleton. intros [->|HiP]; [done|].
      by apply (HP i); [right|].
Qed.

Lemma queue_sort RS P D pending ready :
  queue_inv g RS P D pending ready -> queue_inv g RS P D pending (sort_ints ready).
Proof.
  intros []. unfold sort_ints. split; try done.
  - by rewrite merge_sort_Permutation.
  - intros i. by rewrite merge_sort_Permutation.
Qed.

(** ** Restored steps *)

Definition restored (state : WorkflowState) : gset nat :=
  list_to_set (map fst (resumed_outputs cfg state)).

Definition restored_rows (state : WorkflowState) : list Z :=
  map Z.of_nat (sort_ints (elements (restored state))).

Lemma resumed_outputs_fst state :
  map fst (resumed_outputs cfg state)
  = omap (fun i => if decide (0 <= i < Z.of_nat (length (wf_Steps (dc_wf cfg))))%Z
                   then Some (Z.to_nat i) else None) (map fst (map_to_list (ss_StepOutputs state))).
Proof.
  unfold resumed_outputs. induction (map_to_list (ss_StepOutputs state)) as [|[i o] l IH]; [done|].
  cbn. case_decide; cbn; by rewrite IH.
Qed.

Lemma resumed_outputs_nodup state : NoDup (map fst (resumed_outputs cfg state)).
Proof using Type.
  rewrite resumed_outputs_fst. apply NoDup_omap_inj; [apply NoDup_fst_map_to_list|].
  intros x y b Hx Hy. clear g_n. repeat case_decide; simplify_eq. lia.
Qed.

Lemma restored_spec state i :
  i ∈ restored state <->
  i < length (wf_Steps (dc_wf cfg)) /\ is_Some (ss_StepOutputs state !! Z.of_nat i).
Proof using Type.
  clear g_n.     unfold restored. rewrite elem_of_list_to_set, resumed_outputs_fst, list_elem_of_omap. split.
  - intros (z & Hz & Hi). case_decide; [|done]. injection Hi as <-.
    rewrite Z2Nat.id by lia. split; [lia|].
    apply list_elem_of_fmap in Hz as ([k o] & -> & Hz%elem_of_map_to_list). by exists o.
  - intros [Hi [o Ho]]. exists (Z.of_nat i). split.
    + apply list_elem_of_fmap. exists (Z.of_nat i, o). split_done. by apply elem_of_map_to_list.
    + rewrite decide_True by lia. by rewrite Nat2Z.id.
Qed.

(** What [applyResumed] does to the counters and the queue. *)
Lemma applyResumed_spec order RS engine s :
  NoDup order -> (forall i, i ∈ order <-> i ∈ RS) ->
  ds_pending s = ds_pending (newDAGScheduler cfg engine) ->
  ds_readyQueue s = ds_readyQueue (newDAGScheduler cfg engine) ->
  exists pending ready,
    applyResumed env cfg order RS s
    = mkScheduler (ds_engine s) (ds_resolver s) pending ready (ds_dispatchSeq s)
        (ds_results s) (ds_prepared s) (ds_finalized s) (ds_completedOK s) (ds_inflight s)
        (ds_processPos s) (ds_aborted s) (ds_firstAbortErr s) (ds_allResults s)
        (ds_lastOutput s) /\
    queue_inv g RS RS ∅ pending ready.
Proof using g_n g_wf range_perm.
  intros Hnd Horder Hpend Hready.
  pose proof (queue_start RS order engine Horder) as Hq. unfold applyResumed.
  case_decide as HRS.
  - exists (ds_pending s), (ds_readyQueue s). split; [by destruct s|]. rewrite Hpend, Hready.
    assert (order = []) as ->.
    { apply elem_of_nil_inv. intros i Hi%Horder. rewrite HRS in Hi.
      by apply not_elem_of_empty in Hi. }
    cbn [fold_left] in Hq. rewrite list_filter_all in Hq; [by rewrite HRS in Hq |- *|].
    apply Forall_forall. intros i _. rewrite HRS. apply not_elem_of_empty.
  - rewrite Hpend, Hready.
    pose proof (queue_resume RS order ∅ _ _ Hnd (fun i _ => not_elem_of_empty i) Hq) as Hq'.
    destruct (fold_left (credit_resumed _ _ _) _ _) as [pending ready].
    exists pending, (sort_ints ready). split_done. apply queue_sort.
    eapply queue_inv_proper; [|done|exact Hq'].
    intros i. rewrite (right_id_L ∅ (∪)), elem_of_list_to_set. apply Horder.
Qed.

Lemma resumed_inv state engine :
  sched_inv env cfg (restored state) (restored_rows state)
    (resume_from env cfg state (newDAGScheduler cfg engine)).
Proof using g_n g_wf range_perm.
  unfold resume_from. fold (restored state).
  match goal with |- context [applyResumed _ _ _ _ ?s] => set (s1 := s) end.
  destruct (applyResumed_spec (map fst (resumed_outputs cfg state)) (restored state) engine s1)
    as (pending & ready & -> & Hq); try done.
  - apply resumed_outputs_nodup.
  - intros i. unfold restored. by rewrite elem_of_list_to_set.
  - apply start_inv; try done.
    + intros i Hi. unfold restored in Hi. rewrite elem_of_list_to_set in Hi. cbn.
      rewrite (right_id_L ∅ (∪)).
      destruct ((list_to_map (resumed_outputs cfg state) : gmap nat string) !! i) eqn:E; [done|].
      apply not_elem_of_list_to_map_2 in E. done.
    + cbn [ds_allResults]. unfold restored_rows. cbn [newDAGScheduler s1 ds_allResults app].
      rewrite map_map. done.
Qed.
End start.
