(* ===== verification/DagRun.v ===== *)
(** * Runs of DAG workflows

    The promises of the Go runtime that the scheduler relies on, and what the
    scheduler and [executeWorkflowDAG] then deliver: every step at most once
    and after its dependencies, termination, completeness, inputs that do not
    depend on timing, and what a checkpoint written after a resume holds. *)

From S2P Require Import Prelude GoStrings GoTime WorkflowTypes Dag DagCycle DagTopo ExprEngine.
From S2P Require Import WalState Effects Helpers Compound DagScheduler DagSchedulerInv.
From S2P Require Import DagSchedulerProofs.

#[local] Open Scope string_scope.
#[local] Open Scope nat_scope.

(** A range over a map visits every key once, and a channel delivers only what
    a worker in flight sends. *)
Class GoRuntime {W} (env : Env W) : Prop := {
  rt_range : forall i s, env_range_set env i s ≡ₚ elements s;
  rt_recv : forall l, l <> [] -> yields (env_recv env l) (fun i => i ∈ l)
}.

#[export] Instance quiet_runtime {W} h (get : string -> option (node W)) :
  GoRuntime (quiet_env h get).
Proof.
  split_done. intros [|x l] Hl; [done|]. apply yields_ret. by left.
Qed.

Section run.
Context {W : Type} (env : Env W) (cps : Checkpoints W) (R : Rec W) (cfg : dagConfig).
Context `{!GoRuntime env}.
Let steps := wf_Steps (dc_wf cfg).
Context (built : buildDepGraph (env_range_set env) steps = inl (dc_graph cfg)).

Lemma built_graph :
  graph_wf (dc_graph cfg) /\ nodeCount (dc_graph cfg) = length steps /\
  (forall i d, before (dc_graph cfg) d i <-> declared steps i d) /\ acyclic (dc_graph cfg).
Proof using GoRuntime0 built.
  pose proof (buildDepGraph_spec (env_range_set env) steps rt_range) as H.
  by rewrite built in H.
Qed.

(** The scheduler at the start of a run, restored from a checkpoint or
    not; the steps that were restored and their rows. *)
Definition start (engine : ExpressionEngine) (cp : option WorkflowState) : dagScheduler :=
  let s := newDAGScheduler cfg engine in
  match cp with Some state => resume_from env cfg state s | None => s end.
Definition start_set (cp : option WorkflowState) : gset nat :=
  match cp with Some state => restored cfg state | None => ∅ end.
Definition start_rows (cp : option WorkflowState) : list Z :=
  match cp with Some state => restored_rows cfg state | None => [] end.

Lemma start_sched_inv engine cp :
  sched_inv env cfg (start_set cp) (start_rows cp) (start engine cp).
Proof using GoRuntime0 built.
  destruct built_graph as (Hwf & Hn & _). destruct cp as [state|].
  - apply resumed_inv; [apply rt_range|done|done].
  - by apply fresh_inv.
Qed.

Lemma start_shape engine cp :
  ds_dispatchSeq (start engine cp) = [] /\ ds_inflight (start engine cp) = [].
Proof.
  destruct cp as [state|]; [|done]. unfold start, resume_from, applyResumed.
  case_decide; [done|]. by destruct (fold_left _ _ _).
Qed.

Lemma run_settled engine cp :
  yields (run env cps R cfg (start engine cp))
    (settled env cfg (start_set cp) (start_rows cp)).
Proof using GoRuntime0 built.
  destruct built_graph as (Hwf & Hn & _).
  apply run_loop_spec; [apply rt_range|apply rt_recv|done|done|apply start_sched_inv].
Qed.

Lemma run_fuel_enough engine cp stuck k :
  run_loop env cps R cfg stuck (2 * length steps + 1 + k) (start engine cp)
  ≡ₘ run env cps R cfg (start engine cp).
Proof using GoRuntime0 built.
  destruct built_graph as (Hwf & Hn & _).
  apply (run_loop_fuel env cps R cfg rt_range rt_recv Hwf Hn (start_set cp) (start_rows cp));
    [apply start_sched_inv|].
  unfold rounds_left. destruct (start_shape engine cp) as [-> ->]. cbn [length].
  rewrite Hn. unfold steps. lia.
Qed.
End run.

Lemma declared_topo {W} (env : Env W) cfg RS base s k i d :
  (forall i d, before (dc_graph cfg) d i <-> declared (wf_Steps (dc_wf cfg)) i d) ->
  sched_inv env cfg RS base s -> ds_dispatchSeq s !! k = Some i ->
  declared (wf_Steps (dc_wf cfg)) i d -> d ∈ RS \/ d ∈ take k (ds_dispatchSeq s).
Proof. intros Hdecl [] Hk Hd. apply (si_topo k i d Hk). by apply Hdecl. Qed.

(** C1: in a run of the scheduler, fresh or restored from a checkpoint, every
    step is dispatched at most once, never a restored one, and only after every
    step it declares a dependency on was dispatched or restored; the results
    are the restored rows followed by one row per dispatched step, in dispatch
    order. *)
Theorem run_schedule {W} (env : Env W) (cps : Checkpoints W) (R : Rec W) (cfg : dagConfig)
    (engine : ExpressionEngine) (cp : option WorkflowState) :
  GoRuntime env ->
  buildDepGraph (env_range_set env) (wf_Steps (dc_wf cfg)) = inl (dc_graph cfg) ->
  yields (run env cps R cfg (start env cfg engine cp)) (fun s =>
    NoDup (ds_dispatchSeq s) /\
    (forall i, i ∈ ds_dispatchSeq s ->
       i < length (wf_Steps (dc_wf cfg)) /\ i ∉ start_set cfg cp) /\
    (forall k i d, ds_dispatchSeq s !! k = Some i -> declared (wf_Steps (dc_wf cfg)) i d ->
       d ∈ start_set cfg cp \/ d ∈ take k (ds_dispatchSeq s)) /\
    map sr_StepIndex (ds_allResults s)
    = (start_rows cfg cp ++ map Z.of_nat (ds_dispatchSeq s))%list).
Proof.
  intros Hrt Hb. destruct (built_graph env cfg Hb) as (Hwf & Hn & Hdecl & _).
  eapply yields_mono; [by apply run_settled|]. intros s (Hinv & Hpos & _).
  split_and!.
  - apply Hinv.
  - intros i Hi. rewrite <- Hn. split; [by apply Hinv|by apply (si_fresh _ _ _ _ _ Hinv)].
  - intros k i d. by apply (declared_topo env cfg _ (start_rows cfg cp)).
  - rewrite (si_rows _ _ _ _ _ Hinv). unfold processed. by rewrite Hpos, take_ge.
Qed.

(** The diamond workflow with nodes that append a mark to their input,
    in a world that logs the checkpoints that are saved. *)
Definition log_node : node (list WorkflowState) :=
  fun _ input _ => mret (input +:+ "!", None).
Definition log_env : Env (list WorkflowState) := quiet_env empty_host (fun _ => Some log_node).
Definition log_checkpoints : Checkpoints (list WorkflowState) :=
  mkCheckpoints _ (fun _ st log => (log ++ [st], Ret None)%list)
    (fun _ => mret (Ok (Some (mkState "demo" (-1) "a" {[0%Z := "a"]} ∅ true ["a"; "b"; "c"; "d"])))).
Definition no_rec : Rec (list WorkflowState) :=
  mkRec (fun _ _ _ _ _ _ => throw "no sub-step") (fun _ _ => throw "no sub-workflow").
Definition diamond_wf : Workflow := mkWorkflow "demo" "" ∅ diamond "" [] 0 None.
Definition diamond_cfg : dagConfig :=
  mkDagConfig diamond_wf diamond_graph Background Background None "start" "cp".
Definition after_root : WorkflowState :=
  mkState "demo" (-1) "a" {[0%Z := "a"]} ∅ true (map ws_Name diamond).

Lemma run_schedule_witness :
  match (run log_env log_checkpoints no_rec diamond_cfg
           (start log_env diamond_cfg NewExpressionEngine (Some after_root)) []).2 with
  | Ret s => ds_dispatchSeq s = [1; 2; 3] /\
             map sr_StepIndex (ds_allResults s) = map Z.of_nat [0; 1; 2; 3]
  | Panic _ => False
  end.
Proof.
  pose proof (yields_at _ _ [] (run_schedule log_env log_checkpoints no_rec diamond_cfg
    NewExpressionEngine (Some after_root) _ diamond_graph_built)) as H.
  assert (ds_dispatchSeq <$> value (run log_env log_checkpoints no_rec diamond_cfg
           (start log_env diamond_cfg NewExpressionEngine (Some after_root)) []).2
          = Some [1; 2; 3]) as Hs by (vm_compute; reflexivity).
  destruct (run _ _ _ _ _ _).2 as [s|msg]; [|discriminate].
  injection Hs as Hs. destruct H as (_ & _ & _ & Hrows). split; [exact Hs|].
  rewrite Hrows, Hs. vm_compute. reflexivity.
Defined.

(** C3: the main loop of the scheduler ends within twice the number of steps
    plus one rounds: more fuel changes nothing, and what would happen without
    fuel is never observed. *)
Theorem run_terminates {W} (env : Env W) (cps : Checkpoints W) (R : Rec W) (cfg : dagConfig)
    (engine : ExpressionEngine) (cp : option WorkflowState) (stuck : M W dagScheduler) (k : nat) :
  GoRuntime env ->
  buildDepGraph (env_range_set env) (wf_Steps (dc_wf cfg)) = inl (dc_graph cfg) ->
  run_loop env cps R cfg stuck (2 * length (wf_Steps (dc_wf cfg)) + 1 + k)
    (start env cfg engine cp)
  ≡ₘ run env cps R cfg (start env cfg engine cp).
Proof. intros Hrt Hb. by apply run_fuel_enough. Qed.

Lemma run_terminates_witness :
  run_loop log_env log_checkpoints no_rec diamond_cfg (throw "diverges") 100
    (start log_env diamond_cfg NewExpressionEngine None)
  ≡ₘ run log_env log_checkpoints no_rec diamond_cfg
       (start log_env diamond_cfg NewExpressionEngine None).
Proof.
  exact (run_terminates log_env log_checkpoints no_rec diamond_cfg NewExpressionEngine None
    (throw "diverges") 91 _ diamond_graph_built).
Defined.

(** C4: the input a step was dispatched with, when it has no [input:] of its
    own, is the documented function of the final outputs of its declared
    dependencies: it does not depend on the order in which workers finish. *)
Theorem run_inputs {W} (env : Env W) (cps : Checkpoints W) (R : Rec W) (cfg : dagConfig)
    (engine : ExpressionEngine) (cp : option WorkflowState) :
  GoRuntime env ->
  buildDepGraph (env_range_set env) (wf_Steps (dc_wf cfg)) = inl (dc_graph cfg) ->
  yields (run env cps R cfg (start env cfg engine cp)) (fun s =>
    forall i, i ∈ ds_dispatchSeq s -> ws_Input (step_of cfg i) = None ->
    exists ps, ds_prepared s !! i = Some ps /\
      ps_input ps = input_spec (dc_graph cfg) i (ds_resolver s) (dc_initialInput cfg) /\
      forall d, declared (wf_Steps (dc_wf cfg)) i d -> is_Some (ds_resolver s !! d)).
Proof.
  intros Hrt Hb. destruct (built_graph env cfg Hb) as (Hwf & Hn & Hdecl & _).
  eapply yields_mono; [by apply run_settled|]. intros s (Hinv & _) i Hi Hnone.
  destruct (si_prep _ _ _ _ _ Hinv i Hi) as [ps Hps]. exists ps. split_done. split.
  - rewrite (si_input _ _ _ _ _ Hinv i ps Hi Hps Hnone). apply resolveInput_spec, rt_range.
  - intros d Hd. apply (si_resolver _ _ _ _ _ Hinv), (si_deps _ _ _ _ _ Hinv i Hi).
    by apply Hdecl.
Qed.

Lemma run_inputs_witness :
  match (run log_env log_checkpoints no_rec diamond_cfg
           (start log_env diamond_cfg NewExpressionEngine None) []).2 with
  | Ret s => exists ps, ds_prepared s !! 3 = Some ps /\
      ps_input ps = "start!!" +:+ part_sep +:+ "start!!"
  | Panic _ => False
  end.
Proof.
  pose proof (yields_at _ _ [] (run_inputs log_env log_checkpoints no_rec diamond_cfg
    NewExpressionEngine None _ diamond_graph_built)) as H.
  assert ((fun s => (bool_decide (3 ∈ ds_dispatchSeq s),
             input_spec diamond_graph 3 (ds_resolver s) "start"))
          <$> value (run log_env log_checkpoints no_rec diamond_cfg
                       (start log_env diamond_cfg NewExpressionEngine None) []).2
          = Some (true, "start!!" +:+ part_sep +:+ "start!!")) as Hs by (vm_compute; reflexivity).
  destruct (run _ _ _ _ _ _).2 as [s|msg]; [|discriminate].
  injection Hs as Hin Hs. destruct (H 3) as (ps & Hps & Hi & _).
  - exact (bool_decide_eq_true_1 _ Hin).
  - reflexivity.
  - exists ps. split; [exact Hps|]. rewrite Hi. exact Hs.
Defined.

(** ** Whole workflows *)

Lemma resume_dag_start {W} (env : Env W) (cps : Checkpoints W) cfg engine :
  yields (resume_dag env cps cfg (newDAGScheduler cfg engine))
    (fun s => exists cp, s = start env cfg engine cp).
Proof.
  unfold resume_dag. case_decide; [apply yields_ret; by exists None|].
  eapply yields_bind; [apply yields_any|]. intros r _. apply yields_ret.
  destruct r as [[state|]|]; [|by exists None|by exists None].
  destruct (_ && _); [by exists (Some state)|by exists None].
Qed.

Lemma start_rows_elem cfg cp z :
  z ∈ start_rows cfg cp <-> exists i, z = Z.of_nat i /\ i ∈ start_set cfg cp.
Proof.
  destruct cp as [state|]; cbn.
  - unfold restored_rows. rewrite list_elem_of_fmap. unfold sort_ints.
    setoid_rewrite merge_sort_Permutation. by setoid_rewrite elem_of_elements.
  - rewrite elem_of_nil. split_done. by intros (i & _ & ?%not_elem_of_empty).
Qed.

Lemma start_rows_nodup cfg cp : NoDup (start_rows cfg cp).
Proof.
  destruct cp as [state|]; [|constructor]. apply NoDup_fmap_2; [apply _|].
  unfold sort_ints. rewrite merge_sort_Permutation. apply NoDup_elements.
Qed.

Lemma start_set_lt cfg cp i : i ∈ start_set cfg cp -> i < length (wf_Steps (dc_wf cfg)).
Proof.
  destruct cp as [state|]; [|by intros ?%not_elem_of_empty]. by intros [? _]%restored_spec.
Qed.

(** One row per step. *)
Lemma settled_rows {W} (env : Env W) cfg cp s :
  graph_wf (dc_graph cfg) -> acyclic (dc_graph cfg) ->
  nodeCount (dc_graph cfg) = length (wf_Steps (dc_wf cfg)) ->
  settled env cfg (start_set cfg cp) (start_rows cfg cp) s -> never_down env ->
  ds_aborted s = false ->
  map sr_StepIndex (ds_allResults s) ≡ₚ map Z.of_nat (seq 0 (length (wf_Steps (dc_wf cfg)))).
Proof.
  intros Hwf Hac Hn Hs Hnd Hab.
  pose proof (settled_complete env cfg Hwf Hn _ _ s Hac Hs Hnd Hab) as Hall.
  destruct Hs as (Hinv & Hpos & _). rewrite (si_rows _ _ _ _ _ Hinv). unfold processed.
  rewrite Hpos, take_ge by done.
  apply NoDup_Permutation.
  - apply NoDup_app. split; [apply start_rows_nodup|]. split.
    + intros z (i & -> & Hi)%start_rows_elem (j & Hj & Hs)%list_elem_of_fmap.
      apply Nat2Z.inj in Hj as <-. by apply (si_fresh _ _ _ _ _ Hinv i).
    + apply NoDup_fmap_2; [apply _|apply Hinv].
  - apply NoDup_fmap_2; [apply _|apply NoDup_seq].
  - intros z. rewrite elem_of_app, start_rows_elem, !list_elem_of_fmap.
    setoid_rewrite elem_of_seq. split.
    + intros [(i & -> & Hi%start_set_lt)|(i & -> & Hi%(si_lt _ _ _ _ _ Hinv))]; exists i; split; try done; lia.
    + intros (i & -> & _ & Hi). destruct (Hall i) as [?|?]; [lia|left|right]; eauto.
Qed.

(** C2: a DAG workflow that reports success, with no shutdown under way, has
    run or restored every step: its results hold exactly one row per step. *)
Theorem executeWorkflowDAG_complete {W} (env : Env W) (cps : Checkpoints W) (R : Rec W) (ctx : Ctx)
    (wf : Workflow) (timeout : Z) (statePath : string) :
  GoRuntime env -> never_down env ->
  yields (executeWorkflowDAG env cps R ctx wf timeout statePath) (fun r =>
    r.2 = None ->
    map sr_StepIndex r.1.2 ≡ₚ map Z.of_nat (seq 0 (length (wf_Steps wf)))).
Proof.
  intros Hrt Hnd. unfold executeWorkflowDAG.
  destruct (_ <? _)%Z; [by apply yields_ret|].
  destruct (buildDepGraph _ _) as [graph|e] eqn:Hb; [|by apply yields_ret].
  destruct (topoBatches _ _); [|by apply yields_ret].
  destruct (NewConcurrencyLimiter _) as [lim|e]; [|by apply yields_ret].
  set (cfg := mkDagConfig _ _ _ _ _ _ _).
  eapply yields_bind; [apply resume_dag_start|]. intros s0 [cp ->].
  destruct (built_graph env cfg Hb) as (Hwf & Hn & _ & Hac).
  eapply yields_bind; [by apply (run_settled env cps R cfg)|]. intros s Hs. apply yields_ret.
  destruct (ds_firstAbortErr s) eqn:He; [done|]. intros _. cbn [fst snd].
  apply (settled_rows env cfg cp s Hwf Hac Hn Hs Hnd). destruct Hs as [Hinv _].
  rewrite (si_abort_err _ _ _ _ _ Hinv), He. by apply bool_decide_eq_false_2; intros [? ?].
Qed.

Lemma executeWorkflowDAG_complete_witness :
  match (executeWorkflowDAG log_env log_checkpoints no_rec Background diamond_wf 60 "" []).2 with
  | Ret r => r.2 = None /\ map sr_StepIndex r.1.2 ≡ₚ map Z.of_nat [0; 1; 2; 3]
  | Panic _ => False
  end.
Proof.
  assert (never_down log_env) as Hnd by (intros w w' b Hb; injection Hb as _ <-; reflexivity).
  pose proof (yields_at _ _ [] (executeWorkflowDAG_complete log_env log_checkpoints no_rec
    Background diamond_wf 60 "" _ Hnd)) as H.
  assert (snd <$> value (executeWorkflowDAG log_env log_checkpoints no_rec Background
            diamond_wf 60 "" []).2 = Some None) as Hs by (vm_compute; reflexivity).
  destruct (executeWorkflowDAG _ _ _ _ _ _ _ _).2 as [r|msg]; [|discriminate].
  injection Hs as Hs. split; [exact Hs|exact (H Hs)].
Defined.

(** ** Checkpoints *)

Lemma dagState_outputs cfg s i :
  is_Some (ss_StepOutputs (dagState cfg s) !! Z.of_nat i) -> i ∈ ds_completedOK s.
Proof.
  cbn. set (l := omap _ _). intros [o Ho%elem_of_list_to_map_2].
  apply list_elem_of_omap in Ho as (j & Hj & Hl). apply elem_of_elements in Hj.
  destruct (stepOutputs _ !! _); [|done]. injection Hl as Hz _.
  apply Nat2Z.inj in Hz. by subst.
Qed.

(** the checkpoint of a run that was itself restored from a checkpoint
    holds none of the restored steps, so that a second resume runs them
    again. *)
Theorem resumed_checkpoint_forgets {W} (env : Env W) (cps : Checkpoints W) (R : Rec W)
    (cfg : dagConfig) (engine : ExpressionEngine) (state : WorkflowState) :
  GoRuntime env ->
  buildDepGraph (env_range_set env) (wf_Steps (dc_wf cfg)) = inl (dc_graph cfg) ->
  yields (run env cps R cfg (start env cfg engine (Some state))) (fun s =>
    forall i, i < length (wf_Steps (dc_wf cfg)) ->
    is_Some (ss_StepOutputs state !! Z.of_nat i) ->
    ss_StepOutputs (dagState cfg s) !! Z.of_nat i = None).
Proof.
  intros Hrt Hb. eapply yields_mono; [by apply run_settled|].
  intros s (Hinv & _) i Hi Hst. apply eq_None_not_Some. intros Hs%dagState_outputs.
  apply (si_fresh _ _ _ _ _ Hinv i); [by apply (si_ok _ _ _ _ _ Hinv)|].
  by apply restored_spec.
Qed.

(** The diamond restored after its root: the first checkpoint of the resumed
    run no longer holds the root. *)
Lemma resumed_checkpoint_forgets_witness :
  (fun st => (ss_StepOutputs st !! 0%Z, ss_StepOutputs st !! 1%Z)) <$>
    head (run log_env log_checkpoints no_rec diamond_cfg
            (start log_env diamond_cfg NewExpressionEngine (Some after_root)) []).1
  = Some (None, Some "a!") /\
  match (run log_env log_checkpoints no_rec diamond_cfg
           (start log_env diamond_cfg NewExpressionEngine (Some after_root)) []).2 with
  | Ret s => ss_StepOutputs (dagState diamond_cfg s) !! 0%Z = None
  | Panic _ => False
  end.
Proof.
  split; [vm_compute; reflexivity|].
  pose proof (yields_at _ _ [] (resumed_checkpoint_forgets log_env log_checkpoints no_rec diamond_cfg
    NewExpressionEngine after_root _ diamond_graph_built)) as H.
  assert (bool_decide (is_Some (value (run log_env log_checkpoints no_rec diamond_cfg
           (start log_env diamond_cfg NewExpressionEngine (Some after_root)) []).2)) = true)
    as Hs by (vm_compute; reflexivity).
  destruct (run _ _ _ _ _ _).2 as [s|msg]; [|discriminate].
  apply (H 0); [cbn; lia|]. exists "a". reflexivity.
Defined.
