(* ===== verification/Sequential.v ===== *)
(** * The sequential executor
    (src/internal/workflow/executor_seq.go, executor_seq_step.go and the pause
    of resume.go)

    The loop over the steps in declaration order, with checkpoints, the
    write-ahead log and the pause of a resumable step.  Files are reached only
    through a [Store]; traces, telemetry, progress and the terminal UI are left
    out. *)

From S2P Require Import Prelude GoStrings GoTime WorkflowTypes Dag ExprEngine WalState Effects.
From S2P Require Import Helpers Compound DagScheduler.

#[local] Open Scope string_scope.
#[local] Open Scope Z_scope.

(** ** Paused runs *)

Record ErrWorkflowPaused := mkPaused {
  pa_RunID : string;
  pa_StepIndex : Z;
  pa_StepName : string;
  pa_WorkflowName : string;
  pa_Message : string
}.

(** [ErrWorkflowPaused.Error]. *)
Definition paused_text (p : ErrWorkflowPaused) : error :=
  "workflow paused at step " +:+ Itoa (pa_StepIndex p + 1) +:+ " (" +:+ pa_StepName p +:+ "): "
    +:+ pa_Message p +:+ " (run-id: " +:+ pa_RunID p +:+ ")".

Record RunMeta := mkRunMeta {
  rm_RunID : string;
  rm_WorkflowName : string;
  rm_WorkflowPath : string;
  rm_Status : string;
  rm_PausedStep : Z;
  rm_StepName : string;
  rm_ResumeOn : string;
  rm_SafeMode : bool
}.

(** The errors of the sequential path: [errors.As] tells a pause from a
    failure. *)
Inductive seq_error :=
  | Failed (e : error)
  | Paused (p : ErrWorkflowPaused).

Definition seq_error_text (e : seq_error) : error :=
  match e with Failed e => e | Paused p => paused_text p end.

(** The files of a run: checkpoints, the write-ahead log ([NewWAL], the replay
    of [LoadStateWAL], [Append], [MaybeCompact], [Close]) and the directory of a paused run
    ([newRunID], [MkdirAll], the best-effort copies, [SaveRunMeta]). *)
Record Store (W : Type) := mkStore {
  st_cps : Checkpoints W;
  wal_open : string -> M W (option error);
  wal_load : string -> M W (result (option WorkflowState));
  wal_append : string -> WALRecord -> M W (option error);
  wal_compact : string -> M W (option error);
  wal_close : string -> M W unit;
  run_newID : M W string;
  run_mkdir : string -> M W (option error);
  run_copy_workflow : string -> string -> M W unit;
  run_copy_wal : string -> string -> M W unit;
  run_save_meta : RunMeta -> M W (option error)
}.
Arguments st_cps {W}.
Arguments wal_open {W}.
Arguments wal_load {W}.
Arguments wal_append {W}.
Arguments wal_compact {W}.
Arguments wal_close {W}.
Arguments run_newID {W}.
Arguments run_mkdir {W}.
Arguments run_copy_workflow {W}.
Arguments run_copy_wal {W}.
Arguments run_save_meta {W}.

(** A store without files, in which every operation succeeds. *)
Definition no_files {W} : Store W :=
  mkStore _ (mkCheckpoints _ (fun _ _ => mret None) (fun _ => mret (Ok None)))
    (fun _ => mret None) (fun _ => mret (Ok None)) (fun _ _ => mret None) (fun _ => mret None)
    (fun _ => mret tt) (mret "run-1") (fun _ => mret None) (fun _ _ => mret tt) (fun _ _ => mret tt)
    (fun _ => mret None).

Definition when {W} (b : bool) (m : M W unit) : M W unit := if b then m else mret tt.

Definition PauseWorkflow {W} (store : Store W) (wfPath : string) (wf : Workflow) (stepIndex : Z)
    (stepName resumeOn message sourceWALPath : string) (safeMode : bool)
    : M W (result ErrWorkflowPaused) :=
  runID ← run_newID store;
  err ← run_mkdir store runID;
  match err with
  | Some e => mret (Err ("failed to create run dir: " +:+ e))
  | None =>
      _ ← when (bool_decide (wfPath <> "")) (run_copy_workflow store wfPath runID);
      _ ← when (bool_decide (sourceWALPath <> "")) (run_copy_wal store sourceWALPath runID);
      err ← run_save_meta store (mkRunMeta runID (wf_Name wf) wfPath "paused" stepIndex stepName
                                   resumeOn safeMode);
      match err with
      | Some e => mret (Err ("failed to save run meta: " +:+ e))
      | None => mret (Ok (mkPaused runID stepIndex stepName (wf_Name wf) message))
      end
  end.

(** ** State *)

Record seqExecState := mkSeqState {
  sq_engine : ExpressionEngine;
  sq_results : list StepResult;
  sq_data : string;
  sq_wal : bool;
  sq_walState : option WALStateManager
}.

(** What does not change during a run. *)
Record seqConfig := mkSeqConfig {
  sc_wf : Workflow;
  sc_timeoutCtx : Ctx;
  sc_limiter : option Z;
  sc_walPath : string;
  sc_statePath : string;
  sc_wfPath : string;
  sc_safeMode : bool
}.

Definition set_data (data : string) (s : seqExecState) : seqExecState :=
  mkSeqState (sq_engine s) (sq_results s) data (sq_wal s) (sq_walState s).
Definition set_engine (engine : ExpressionEngine) (s : seqExecState) : seqExecState :=
  mkSeqState engine (sq_results s) (sq_data s) (sq_wal s) (sq_walState s).
Definition add_results (rows : list StepResult) (s : seqExecState) : seqExecState :=
  mkSeqState (sq_engine s) (sq_results s ++ rows) (sq_data s) (sq_wal s) (sq_walState s).
Definition set_walState (m : option WALStateManager) (s : seqExecState) : seqExecState :=
  mkSeqState (sq_engine s) (sq_results s) (sq_data s) (sq_wal s) m.

Section sequential.
Context {W : Type} (env : Env W) (store : Store W) (R : Rec W) (cfg : seqConfig).
Let h : Host := env_host env.
Let wf : Workflow := sc_wf cfg.

Definition sq_SetStepOutput (i : Z) (name output : string) (s : seqExecState) : seqExecState :=
  set_engine (SetStepOutput i name output (sq_engine s)) s.

(** [WALStateManager.Save] on the log of the run: the record is appended, and
    when that succeeded the log is compacted if it has grown. *)
Definition wal_save (m : WALStateManager) (state : WorkflowState) : M W (WALStateManager * option error) :=
  err ← wal_append store (sc_walPath cfg) (save_record m state);
  err ← match err with
        | Some e => mret (Some e)
        | None => wal_compact store (sc_walPath cfg)
        end;
  mret (saved_manager m state, err).

(** The [saveCP] closure: the log when there is one, else the checkpoint
    file when there is one; failures are only logged. *)
Definition saveCP (stepIndex : Z) (s : seqExecState) : M W seqExecState :=
  let state := SaveCurrentState (env_range env) wf stepIndex (sq_data s) (sq_engine s) in
  match sq_walState s with
  | Some m =>
      '(m, _) ← wal_save m state; mret (set_walState (Some m) s)
  | None =>
      if decide (sc_statePath cfg = "") then mret s
      else _ ← cp_save (st_cps store) (sc_statePath cfg) state; mret s
  end.

(** [initResumeState]: the state and the step to start from. *)
Definition resume_at (state : WorkflowState) (s : seqExecState) : seqExecState * Z :=
  let '(engine, data) := RestoreState (map_to_list (ss_StepOutputs state)) state wf (sq_engine s) in
  (set_data data (set_engine engine s),
   clampStep (ss_StepIndex state + 1) (Z.of_nat (length (wf_Steps wf)))).

Definition initResumeState (s : seqExecState) : M W (seqExecState * Z) :=
  opened ← (if decide (sc_walPath cfg = "") then mret false
            else err ← wal_open store (sc_walPath cfg); mret (bool_decide (err = None)));
  if (opened : bool) then
    r ← wal_load store (sc_walPath cfg);
    let s := mkSeqState (sq_engine s) (sq_results s) (sq_data s) true (sq_walState s) in
    match r with
    | Ok (Some state) =>
        let '(s, from) := resume_at state s in
        mret (set_walState (Some (NewWALStateManager wf (Some state))) s, from)
    | _ => mret (set_walState (Some (NewWALStateManager wf None)) s, 0)
    end
  else if decide (sc_statePath cfg = "") then mret (s, 0)
  else
    r ← cp_load (st_cps store) (sc_statePath cfg);
    match r with
    | Ok (Some state) => mret (resume_at state s)
    | _ => mret (s, 0)
    end.

(** ** Compound steps *)

(** What every case of [handleCompoundStep] does with its result;
    [strategy] for the kinds that apply the output strategy. *)
Definition finish_compound (i : Z) (wStep : WorkflowStep) (strategy : bool) (r : stepOut)
    (s : seqExecState) : M W (seqExecState * option seq_error) :=
  let '(rows, output, err) := r in
  let s := add_results rows s in
  match err with
  | Some e => mret (s, Some (Failed e))
  | None =>
      let data := if strategy then applyOutputStrategy env output (ws_OutputStrategy wStep)
                  else output in
      s ← saveCP i (sq_SetStepOutput i (ws_Name wStep) output (set_data data s));
      mret (s, None)
  end.

(** [None] when the step is not compound. *)
Definition handleCompoundStep (i : Z) (wStep : WorkflowStep) (s : seqExecState)
    : option (M W (seqExecState * option seq_error)) :=
  let ctx := sc_timeoutCtx cfg in
  let lim := sc_limiter cfg in
  let data := sq_data s in
  let engine := sq_engine s in
  match ws_If wStep with
  | Some c => Some (r ← executeIfBranch env R ctx i c data engine;
                    finish_compound i wStep false r s)
  | None =>
  match ws_Loop wStep with
  | Some c => Some ('(engine, r) ← executeLoopStep env ctx i wStep c data engine lim;
                    finish_compound i wStep true r (set_engine engine s))
  | None =>
  match ws_Map wStep with
  | Some c => Some (r ← executeMapStep env R ctx i wStep c data engine lim;
                    finish_compound i wStep false r s)
  | None =>
  match ws_Reduce wStep with
  | Some c => Some (r ← executeReduceStep env R ctx i c data engine lim;
                    finish_compound i wStep false r s)
  | None =>
  if IsParallel wStep then
    Some (r ← executeParallelStep env ctx i wStep data engine lim;
          finish_compound i wStep true r s)
  else
  match ws_Saga wStep with
  | Some c => Some (r ← executeSagaStep R ctx i c data engine lim;
                    finish_compound i wStep false r s)
  | None => None
  end end end end end.

(** ** Conditions *)

(** [None] when the step has to run. *)
Definition handleStepCondition (i : Z) (wStep : WorkflowStep) (s : seqExecState)
    : option (seqExecState * option seq_error) :=
  if decide (ws_Condition wStep = "") then None else
  match evaluateCondition env (ws_Condition wStep) (sq_data s) (sq_engine s) with
  | Err e =>
      Some (add_results [mkResult i (ws_Node wStep) (sq_data s) ""
                           (Some ("condition evaluation failed: " +:+ e))] s,
            Some (Failed e))
  | Ok false =>
      Some (add_results [mkResult i (ws_Node wStep) (sq_data s) "" None]
              (sq_SetStepOutput i (ws_Node wStep) "" s), None)
  | Ok true => None
  end.

(** ** Regular steps *)

Definition recordStepError (i : Z) (wStep : WorkflowStep) (e : error) (s : seqExecState)
    : seqExecState * option seq_error :=
  (add_results [mkResult i (ws_Node wStep) (sq_data s) "" (Some e)] s, Some (Failed e)).

Definition step_failed (i : Z) (wStep : WorkflowStep) (e : error) : seq_error :=
  Failed ("step " +:+ Itoa (i + 1) +:+ " (" +:+ ws_Node wStep +:+ ") failed: " +:+ e).

Definition handleStepFailure (i : Z) (wStep : WorkflowStep) (execErr : error)
    (s : seqExecState) : M W (seqExecState * option seq_error) :=
  if IsResumable wStep then
    _ ← when (sq_wal s) (wal_close store (sc_walPath cfg));
    let s := if sq_wal s
             then mkSeqState (sq_engine s) (sq_results s) (sq_data s) false None else s in
    s ← (if 0 <? i then saveCP (i - 1) s else mret s);
    let resumeOn := if decide (ws_ResumeOn wStep = "") then "manual" else ws_ResumeOn wStep in
    r ← PauseWorkflow store (sc_wfPath cfg) wf i (ws_Name wStep) resumeOn execErr
          (sc_walPath cfg) (sc_safeMode cfg);
    match r with
    | Err _ => mret (s, Some (step_failed i wStep execErr))
    | Ok paused => mret (s, Some (Paused paused))
    end
  else mret (s, Some (step_failed i wStep execErr)).

Definition regular_timeout (wStep : WorkflowStep) : Z :=
  let stepTimeout := GetTimeout wStep in
  if IsResumable wStep then
    let rt := GetResumeTimeout wStep in
    if 0 <? rt then rt else stepTimeout
  else if MaxStepTimeout <? stepTimeout then MaxStepTimeout else stepTimeout.

(** [executeNode]. *)
Definition executeNode (ctx : Ctx) (wStep : WorkflowStep) (nd : node W)
    (params : gmap string string) (input : string) : M W (string * option error) :=
  let ctx := if decide (sc_statePath cfg = "") then ctx
             else WithStepCheckpoint ctx (sc_statePath cfg) (ws_Name wStep) in
  nd ctx input params.

(** One attempt: the node, then the output contract. *)
Definition attempt_node (wStep : WorkflowStep) (nd : node W) (params : gmap string string)
    (input : string) : M W (string * option error) :=
  '(output, execErr) ←
    executeNode (step_context (sc_timeoutCtx cfg) (regular_timeout wStep)) wStep nd params input;
  match execErr with
  | None =>
      if decide (ws_OutputSchema wStep = "") then mret (output, None) else
      match env_ValidateSchema env output (ws_OutputSchema wStep) with
      | Some verr => mret (output, Some ("output contract violated: " +:+ verr))
      | None => mret (output, None)
      end
  | Some e => mret (output, Some e)
  end.

(** The step after its attempts: recovery, the engine, the row, and either
    the failure or the next data. *)
Definition finish_regular (i : Z) (wStep : WorkflowStep) (output : string)
    (execErr : option error) (s : seqExecState) : M W (seqExecState * option seq_error) :=
  rv ← match execErr with
       | Some e => applyErrorRecovery env R (sc_timeoutCtx cfg) wStep output e (sq_engine s)
                     (sq_data s) (sc_limiter cfg)
       | None => mret (mkRecovery output [] None None)
       end;
  let s := add_results [mkResult i (ws_Node wStep) (sq_data s) (rv_output rv) (rv_trace rv)]
             (sq_SetStepOutput i (ws_Name wStep) (rv_output rv) s) in
  match rv_abort rv with
  | Some e => handleStepFailure i wStep e s
  | None => s ← saveCP i (set_data (rv_output rv) s); mret (s, None)
  end.

Definition executeRegularStep (i : Z) (wStep : WorkflowStep) (s : seqExecState)
    : M W (seqExecState * option seq_error) :=
  match evalParams env (sq_engine s) (ws_Params wStep) (sq_data s) with
  | Err e => mret (recordStepError i wStep ("expression evaluation failed: " +:+ e) s)
  | Ok params =>
      match env_Get env (ws_Node wStep) with
      | None => mret (recordStepError i wStep
                  ("node '" +:+ ws_Node wStep +:+ "' not found in registry") s)
      | Some nd =>
          let retryCount := GetRetryCount wStep in
          let retryCount := if MaxRetry <? retryCount then MaxRetry else retryCount in
          let stepInput := if ws_PreviewInput wStep
                           then BoundedPreview (sq_data s) PreviewMaxBytes else sq_data s in
          r ← retry_loop env (attempt_node wStep nd params stepInput)
                (fun attempt => rnd ← env_rand env; mret (GetBackoffDelay wStep attempt rnd))
                (sc_timeoutCtx cfg) (Z.to_nat (retryCount + 1)) 1;
          match r with
          | Interrupted _ _ _ =>
              mret (s, Some (Failed "workflow timed out during retry delay"))
          | Attempted output execErr _ => finish_regular i wStep output execErr s
          end
      end
  end.

(** ** The loop over the steps *)

Definition seq_step (i : Z) (wStep : WorkflowStep) (s0 : seqExecState)
    : M W (seqExecState * option seq_error) :=
  match (match ws_Input wStep with
         | Some _ => ResolveStepInput env wStep (sq_data s0) (sq_engine s0)
         | None => Ok (sq_data s0)
         end) with
  | Err e =>
      mret (s0, Some (Failed ("step " +:+ Itoa i +:+ " (" +:+ ws_Node wStep
                               +:+ ") input evaluation failed: " +:+ e)))
  | Ok data =>
      let s := set_data data s0 in
      match handleCompoundStep i wStep s with
      | Some m => m
      | None =>
          match handleStepCondition i wStep s with
          | Some (s, Some e) => mret (s, Some e)
          | Some (s, None) =>
              mret (match ws_Input wStep with
                    | Some _ => set_data (sq_data s0) s
                    | None => s
                    end, None)
          | None => executeRegularStep i wStep s
          end
      end
  end.

Fixpoint seq_loop (i from : Z) (steps : list WorkflowStep) (s : seqExecState)
    : M W (seqExecState * option seq_error) :=
  match steps with
  | [] => mret (s, None)
  | wStep :: rest =>
      if i <? from then seq_loop (i + 1) from rest s else
      down ← env_IsShuttingDown env;
      if (down : bool) then mret (s, None) else
      '(s, err) ← seq_step i wStep s;
      match err with
      | Some e => mret (s, Some e)
      | None => seq_loop (i + 1) from rest s
      end
  end.
End sequential.

(** ** The whole workflow *)

Definition seqOut : Type := string * list StepResult * option seq_error.

(** [executeWorkflowSequential] with [initExecState]; the log is closed at the
    end unless a pause already closed it. *)
Definition executeWorkflowSequential {W} (env : Env W) (store : Store W) (R : Rec W) (ctx : Ctx)
    (wf : Workflow) (statePath walPath wfPath : string) (safeMode : bool) (timeout : Z)
    : M W seqOut :=
  if MaxSteps <? Z.of_nat (length (wf_Steps wf)) then
    mret ("", [], Some (Failed (too_many_steps wf)))
  else
  match NewConcurrencyLimiter (wf_MaxConcurrency wf) with
  | Err e => mret ("", [], Some (Failed e))
  | Ok limiter =>
      let cfg := mkSeqConfig wf (WithTimeout ctx timeout) limiter walPath statePath wfPath
                   safeMode in
      '(s, from) ← initResumeState store cfg
                     (mkSeqState (dag_engine env wf) [] (default "" (ctx_ifInput ctx)) false None);
      '(s, err) ← seq_loop env store R cfg 0 from (wf_Steps wf) s;
      _ ← when (sq_wal s) (wal_close store walPath);
      mret match err with
           | Some e => ("", sq_results s, Some e)
           | None => (final_output (env_host env) (sq_engine s) wf (sq_data s), sq_results s, None)
           end
  end.
