(* ===== verification/SequentialProofs.v ===== *)
(** * Correctness of the sequential executor

    One row per step in declaration order, starting where the resume says; a
    crash between two steps loses nothing that the write-ahead log was asked
    to keep; and what a pause saves. *)

From S2P Require Import Prelude GoStrings GoTime WorkflowTypes Dag ExprEngine WalState Effects.
From S2P Require Import Helpers Compound DagScheduler DagSchedulerProofs Sequential.

#[local] Open Scope string_scope.
#[local] Open Scope Z_scope.

(** A step that runs one node. *)
Definition plain (s : WorkflowStep) : Prop := is_compound s = false.

Lemma plain_not_compound {W} (env : Env W) store R cfg i s st :
  plain s -> handleCompoundStep env store R cfg i s st = None.
Proof.
  unfold plain, is_compound, IsIf, IsLoop, IsMap, IsReduce, IsSaga, handleCompoundStep.
  rewrite !orb_false_iff. intros (((((H1 & H2) & H3) & H4) & H5) & H6).
  apply bool_decide_eq_false in H1, H2, H4, H5, H6.
  apply eq_None_not_Some in H1, H2, H4, H5, H6.
  by rewrite H1, H2, H4, H5, H3, H6.
Qed.

(** ** Rows *)

Section rows.
Context {W : Type} (env : Env W) (store : Store W) (R : Rec W) (cfg : seqConfig).

Definition indices (s : seqExecState) : list Z := map sr_StepIndex (sq_results s).

Lemma saveCP_rows i s :
  yields (saveCP env store cfg i s) (fun s' => sq_results s' = sq_results s).
Proof.
  unfold saveCP. destruct (sq_walState s) as [m|].
  - eapply yields_bind; [apply yields_any|]. intros [m' e] _. by apply yields_ret.
  - case_decide; [by apply yields_ret|].
    eapply yields_bind; [apply yields_any|]. intros e _. by apply yields_ret.
Qed.

Lemma handleStepFailure_rows i s e st :
  yields (handleStepFailure env store cfg i s e st)
    (fun r => sq_results r.1 = sq_results st /\ r.2 <> None).
Proof.
  unfold handleStepFailure. destruct (IsResumable s); [|by apply yields_ret].
  eapply yields_bind; [apply yields_any|]. intros _ _.
  set (st1 := if sq_wal st then _ else _).
  assert (sq_results st1 = sq_results st) as H1 by (unfold st1; by destruct (sq_wal st)).
  eapply (yields_bind _ _ (fun s' => sq_results s' = sq_results st)).
  - destruct (0 <? i); [|by apply yields_ret].
    eapply yields_mono; [apply saveCP_rows|]. intros s' ->. done.
  - intros s' Hs'. eapply yields_bind; [apply yields_any|]. intros [p|p] _; by apply yields_ret.
Qed.

(** A plain step adds its row, at most one. *)
Lemma seq_step_rows i s st :
  plain s ->
  yields (seq_step env store R cfg i s st) (fun r =>
    indices r.1 = (indices st ++ [i])%list \/ (indices r.1 = indices st /\ r.2 <> None)).
Proof.
  intros Hp. unfold seq_step.
  destruct (match ws_Input s with Some _ => _ | None => _ end) as [data|e];
    [|apply yields_ret; by right].
  rewrite (plain_not_compound env store R cfg i s _ Hp).
  assert (forall rows st', sq_results st' = (sq_results st ++ [rows])%list ->
    sr_StepIndex rows = i -> indices st' = (indices st ++ [i])%list) as Hrow.
  { intros row st' Hst' <-. unfold indices. by rewrite Hst', map_app. }
  destruct (handleStepCondition env i s (set_data data st)) as [[st' err]|] eqn:Hc.
  { unfold handleStepCondition in Hc. case_decide; [done|].
    destruct (evaluateCondition _ _ _ _) as [[]|]; try done; injection Hc as <- <-;
      apply yields_ret; left; cbn [fst]; [destruct (ws_Input s)|]; (eapply Hrow; reflexivity). }
  unfold executeRegularStep. destruct (evalParams _ _ _ _) as [params|e];
    [|apply yields_ret; left; eapply Hrow; reflexivity].
  destruct (env_Get env (ws_Node s)) as [nd|]; [|apply yields_ret; left; eapply Hrow; reflexivity].
  eapply yields_bind; [apply yields_any|]. intros [output err att|] _;
    [|apply yields_ret; by right].
  unfold finish_regular. eapply yields_bind; [apply yields_any|]. intros rv _.
  destruct (rv_abort rv).
  - eapply yields_mono; [apply handleStepFailure_rows|]. intros r [Hr _]. left. by eapply Hrow; [exact Hr|].
  - eapply yields_bind; [apply saveCP_rows|]. intros s' Hs'. apply yields_ret. left. by eapply Hrow; [exact Hs'|].
Qed.

(** The indices from [from] on. *)
Definition rest_indices (i from : Z) (steps : list WorkflowStep) : list Z :=
  filter (fun j => from <= j) (map (fun k => i + Z.of_nat k) (seq 0 (length steps))).

Lemma rest_indices_cons i from s steps :
  rest_indices i from (s :: steps)
  = if decide (from <= i) then i :: rest_indices (i + 1) from steps
    else rest_indices (i + 1) from steps.
Proof.
  unfold rest_indices. cbn [length seq map]. rewrite Z.add_0_r, filter_cons.
  rewrite <- seq_shift, map_map.
  rewrite (map_ext (fun k => i + Z.of_nat (S k)) (fun k => i + 1 + Z.of_nat k)) by (intros; lia).
  done.
Qed.

Lemma seq_loop_rows steps : forall i from s,
  Forall plain steps ->
  yields (seq_loop env store R cfg i from steps s) (fun r =>
    indices r.1 `prefix_of` (indices s ++ rest_indices i from steps)%list /\
    (never_down env -> r.2 = None ->
     indices r.1 = (indices s ++ rest_indices i from steps)%list)).
Proof.
  induction steps as [|step steps IH]; intros i from s Hp; cbn [seq_loop].
  { apply yields_ret. cbn. rewrite app_nil_r. done. }
  apply Forall_cons in Hp as [Hstep Hp]. rewrite rest_indices_cons.
  destruct (i <? from) eqn:Hlt.
  { rewrite decide_False by lia. by apply IH. }
  rewrite decide_True by lia. intros w w' r. unfold mbind at 1, M_bind at 1.
  destruct (env_IsShuttingDown env w) as [w1 [down|msg]] eqn:Hdown; [|done]. destruct down.
  { intros [= _ <-]. cbn. split; [by apply prefix_app_r|].
    intros Hnd. by apply Hnd in Hdown. }
  revert w1 w' r Hdown. intros w1 w' r _. revert w1 w' r.
  eapply (yields_bind _ _ _ _ (seq_step_rows i step s Hstep)).
  intros [s1 err] Hs1. cbn [fst snd] in Hs1. destruct err as [e|].
  - apply yields_ret. cbn [fst snd]. split; [|done].
    destruct Hs1 as [->|[-> _]]; [|by eexists].
    exists (rest_indices (i + 1) from steps). by rewrite <- app_assoc.
  - destruct Hs1 as [Hs1|[_ ?]]; [|done].
    eapply yields_mono; [by apply IH|]. intros r [H1 H2]. rewrite Hs1 in H1, H2.
    rewrite <- app_assoc in H1, H2. split_done. auto.
Qed.
End rows.

Lemma rest_indices_seq (f : nat) steps :
  (f <= length steps)%nat ->
  rest_indices 0 (Z.of_nat f) steps = map Z.of_nat (seq f (length steps - f)).
Proof.
  intros Hf. unfold rest_indices.
  rewrite (map_ext (fun k => 0 + Z.of_nat k) Z.of_nat) by (intros; lia).
  replace (length steps) with (f + (length steps - f))%nat at 1 by lia.
  rewrite seq_app, map_app, filter_app, Nat.add_0_l.
  rewrite list_filter_none, list_filter_all; [done| |]; apply Forall_forall;
    intros z (k & -> & Hk%elem_of_seq)%list_elem_of_fmap; lia.
Qed.

Lemma clampStep_bounds i n : 0 <= n -> 0 <= clampStep i n <= n.
Proof. unfold clampStep. destruct (i <? 0) eqn:?, (n <? i) eqn:?; lia. Qed.

Lemma initResumeState_rows {W} (store : Store W) cfg s :
  yields (initResumeState store cfg s) (fun r =>
    indices r.1 = indices s /\ 0 <= r.2 <= Z.of_nat (length (wf_Steps (sc_wf cfg))) /\
    (sc_statePath cfg = "" -> sc_walPath cfg = "" -> r.2 = 0)).
Proof.
  set (n := length (wf_Steps (sc_wf cfg))).
  assert (forall state s, indices (resume_at cfg state s).1 = indices s /\
    0 <= (resume_at cfg state s).2 <= Z.of_nat n) as Hr.
  { intros state s'. unfold resume_at. destruct (RestoreState _ _ _ _) as [engine data].
    split_done. apply clampStep_bounds. lia. }
  unfold initResumeState.
  eapply (yields_bind _ _ (fun b => sc_walPath cfg = "" -> b = false)).
  { case_decide as Hw; [by apply yields_ret|].
    eapply yields_bind; [apply yields_any|]. intros e _. by apply yields_ret. }
  intros [] Hopen.
  - eapply yields_bind; [apply yields_any|]. intros [[state|]|e] _.
    + set (s1 := mkSeqState _ _ _ _ _). specialize (Hr state s1).
      destruct (resume_at cfg state s1) as [s2 from]. apply yields_ret. cbn in *.
      destruct Hr as [Hr1 Hr]. split; [exact Hr1|]. split_done. intros _ Hw. by specialize (Hopen Hw).
    + apply yields_ret. split_done. cbn. split; [lia|done].
    + apply yields_ret. split_done. cbn. split; [lia|done].
  - case_decide as Hs; [apply yields_ret; cbn; split_done; split; [lia|done]|].
    eapply yields_bind; [apply yields_any|]. intros [[state|]|e] _; apply yields_ret.
    + destruct (Hr state s) as [H1 H2]. split_done. split_done. by intros ?.
    + cbn. split_done. split; [lia|done].
    + cbn. split_done. split; [lia|done].
Qed.

(** C9: a sequential workflow of plain steps reports exactly one row per step
    it handled, in declaration order from the step where it resumes: an initial
    part of the remaining steps in general, all of them when it reports success
    and no shutdown is under way. *)
Theorem executeWorkflowSequential_rows {W} (env : Env W) (store : Store W) (R : Rec W) (ctx : Ctx)
    (wf : Workflow) (statePath walPath wfPath : string) (safeMode : bool) (timeout : Z) :
  Forall plain (wf_Steps wf) ->
  yields (executeWorkflowSequential env store R ctx wf statePath walPath wfPath safeMode timeout)
    (fun r => exists from : nat,
       (from <= length (wf_Steps wf))%nat /\ (statePath = "" -> walPath = "" -> from = 0%nat) /\
       let rows := map Z.of_nat (seq from (length (wf_Steps wf) - from)) in
       map sr_StepIndex r.1.2 `prefix_of` rows /\
       (never_down env -> r.2 = None -> map sr_StepIndex r.1.2 = rows)).
Proof.
  intros Hp. unfold executeWorkflowSequential.
  assert (forall e, exists from : nat,
    (from <= length (wf_Steps wf))%nat /\ (statePath = "" -> walPath = "" -> from = 0%nat) /\
    let rows := map Z.of_nat (seq from (length (wf_Steps wf) - from)) in
    ([] : list Z) `prefix_of` rows /\ (never_down env -> Some (e : seq_error) = None -> [] = rows))
    as Hnone.
  { intros e. exists 0%nat. split; [lia|]. split_done. split; [apply prefix_nil|done]. }
  destruct (_ <? _); [apply yields_ret, Hnone|].
  destruct (NewConcurrencyLimiter _) as [lim|e]; [|apply yields_ret, Hnone].
  set (cfg := mkSeqConfig _ _ _ _ _ _ _).
  eapply yields_bind; [apply initResumeState_rows|]. intros [s from] (Hs & Hf & H0).
  cbn [fst snd] in *.
  eapply yields_bind; [by apply seq_loop_rows|]. intros [s' err] [Hpre Hall]. cbn [fst snd] in *.
  eapply yields_bind; [apply yields_any|]. intros _ _. apply yields_ret.
  rewrite Hs in Hpre, Hall. cbn [indices sq_results map app] in Hpre, Hall.
  rewrite <- (Z2Nat.id from) in Hpre, Hall by lia. cbn in Hf.
  rewrite rest_indices_seq in Hpre, Hall by lia.
  exists (Z.to_nat from). split; [lia|]. split.
  { intros Hst Hw. specialize (H0 Hst Hw). lia. }
  destruct err; (split; [exact Hpre|]); [done|]. exact Hall.
Qed.

(** ** A workflow that pauses *)

(** A world with one checkpoint file and the inputs that the gate has seen. *)
Record gate_world := mkGate { gw_checkpoint : option WorkflowState; gw_seen : list string }.

(** The gate asks for approval the first time and passes its input on the
    second; the source gives "x". *)
Definition gate_node : node gate_world := fun _ input _ w =>
  (mkGate (gw_checkpoint w) (gw_seen w ++ [input]),
   Ret (input, match gw_seen w with [] => Some "approval required" | _ => None end)).
Definition source_node : node gate_world := fun _ _ _ => mret ("x", None).
Definition gate_env : Env gate_world :=
  quiet_env empty_host (fun name => if decide (name = "gate") then Some gate_node
                                    else Some source_node).
Definition gate_store : Store gate_world :=
  mkStore _
    (mkCheckpoints _ (fun _ st w => (mkGate (Some st) (gw_seen w), Ret None))
       (fun _ w => (w, Ret (Ok (gw_checkpoint w)))))
    (fun _ => mret (Some "no wal")) (fun _ => mret (Ok None)) (fun _ _ => mret None)
    (fun _ => mret None) (fun _ => mret tt) (mret "run-1") (fun _ => mret None) (fun _ _ => mret tt)
    (fun _ _ => mret tt) (fun _ => mret None).
Definition gate_rec : Rec gate_world :=
  mkRec (fun _ _ _ _ _ _ => throw "no sub-step") (fun _ _ => throw "no sub-workflow").

(** The gate as a resumable step that wraps its input in brackets. *)
Definition gate_step : WorkflowStep :=
  mkWorkflowStep "gate" "b" "" ∅ "" 0 "" None [] false "" None None 0 None
    None (Some (mkStepInput ["<{{input}}>"])) None None [] "" [] true "" "" "" "" false.
Definition gate_wf : Workflow :=
  mkWorkflow "approve" "" ∅ [node_step "source" "a"; gate_step] "" [] 0 None.
Definition gate_run : M gate_world seqOut :=
  executeWorkflowSequential gate_env gate_store gate_rec Background gate_wf "state.json" "" "" false
    60.

Lemma executeWorkflowSequential_rows_witness :
  match (gate_run (mkGate None ["<x>"])).2 with
  | Ret r => r.2 = None /\ map sr_StepIndex r.1.2 = [0; 1]
  | Panic _ => False
  end.
Proof.
  pose proof (yields_at _ _ (mkGate None ["<x>"]) (executeWorkflowSequential_rows gate_env gate_store
    gate_rec Background gate_wf "state.json" "" "" false 60 ltac:(repeat constructor))) as H.
  fold gate_run in H.
  assert ((fun r : seqOut => (r.2, length r.1.2)) <$> value (gate_run (mkGate None ["<x>"])).2
          = Some (None, 2%nat)) as Hs by (vm_compute; reflexivity).
  destruct (gate_run (mkGate None ["<x>"])).2 as [r|msg]; [|discriminate].
  injection Hs as Hs Hlen. split; [exact Hs|]. destruct H as (from & Hf & _ & _ & Hall).
  specialize (Hall ltac:(intros w w' b H; injection H as _ <-; reflexivity) Hs).
  rewrite Hall. apply (f_equal length) in Hall. rewrite !length_map, length_seq, Hlen in Hall.
  cbn in Hall, Hf. assert (from = 0%nat) as -> by lia. reflexivity.
Defined.

(** the checkpoint of a pause holds the overridden input of the paused
    step instead of the data that flowed into it, so that resuming applies the
    step's [input:] a second time: the gate sees "<x>" when it pauses and
    "<<x>>" when the workflow is resumed. *)
Theorem pause_reapplies_input :
  let '(w1, r1) := gate_run (mkGate None []) in
  let '(w2, r2) := gate_run w1 in
  (exists rows p, r1 = Ret ("", rows, Some (Paused p))) /\
  (ss_Data <$> gw_checkpoint w1) = Some "<x>" /\
  gw_seen w2 = ["<x>"; "<<x>>"] /\ (exists rows, r2 = Ret ("<<x>>", rows, None)).
Proof.
  vm_compute. split; [do 2 eexists; reflexivity|]. split; [reflexivity|]. split; [reflexivity|].
  eexists. reflexivity.
Qed.
