(* ===== verification/SequentialWal.v ===== *)
(** * Crash and resume with the write-ahead log

    A world in which every record that is appended gets into the log: after
    any number of steps of a sequential run, a crash and a restart from the log
    continue with the same data, variables and step outputs, at the step after
    the last one that ran.  (What a lost record costs is proved in WalState,
    [failed_append_loses_output].) *)

From S2P Require Import Prelude GoStrings GoTime WorkflowTypes Dag ExprEngine WalState Effects.
From S2P Require Import Helpers Compound DagScheduler Sequential SequentialProofs.

#[local] Open Scope string_scope.
#[local] Open Scope Z_scope.

(** A computation that does not write the log; a log that was damaged stays
    damaged. *)
Definition keeps {W A} (log : W -> list WALRecord) (intact : W -> Prop) (m : M W A) : Prop :=
  forall w w' a, m w = (w', Ret a) -> log w' = log w /\ (intact w' -> intact w).

Lemma keeps_ret {W A} (log : W -> list WALRecord) intact (a : A) : keeps log intact (mret a).
Proof. by intros w w' a' [= <- _]. Qed.

Lemma keeps_bind {W A B} (log : W -> list WALRecord) intact (m : M W A) (k : A -> M W B) :
  keeps log intact m -> (forall a, keeps log intact (k a)) -> keeps log intact (m ≫= k).
Proof.
  intros Hm Hk w w' b. unfold mbind, M_bind. destruct (m w) as [w1 [a|msg]] eqn:E; [|done].
  intros H. destruct (Hk a _ _ _ H) as [-> ?], (Hm _ _ _ E) as [-> ?]. auto.
Qed.

(** The promises of the world.  [intact] tells that so far every operation on
    the log at [path] did its work: the log could be opened and read, every
    record that was appended is in it, whatever [Append] reported, and what a
    compaction left, whether it succeeded or failed, recovers the same state.
    Nothing else writes the log. *)
Class WalWorld {W} (env : Env W) (store : Store W) (R : Rec W) (path : string)
    (log : W -> list WALRecord) (intact : W -> Prop) : Prop := {
  ww_range : forall m, env_range env m ≡ₚ map_to_list m;
  ww_open : forall w w' e, wal_open store path w = (w', Ret e) -> intact w' ->
    intact w /\ e = None /\ log w' = log w;
  ww_load : forall w w' r, wal_load store path w = (w', Ret r) -> intact w' ->
    intact w /\ r = Ok (LoadStateWAL (log w)) /\ log w' = log w;
  ww_append : forall r w w' e, wal_append store path r w = (w', Ret e) -> intact w' ->
    intact w /\ log w' = (log w ++ [r])%list;
  ww_compact : forall w w' e, wal_compact store path w = (w', Ret e) -> intact w' ->
    intact w /\ LoadStateWAL (log w') = LoadStateWAL (log w);
  ww_checkpoint : forall p st, keeps log intact (cp_save (st_cps store) p st);
  ww_restore : forall p, keeps log intact (cp_load (st_cps store) p);
  ww_node : forall name nd ctx input params,
    env_Get env name = Some nd -> keeps log intact (nd ctx input params);
  ww_wait : forall ctx d, keeps log intact (env_wait env ctx d);
  ww_rand : keeps log intact (env_rand env);
  ww_down : keeps log intact (env_IsShuttingDown env);
  ww_sub : forall ctx i s input engine lim, keeps log intact (rec_sub R ctx i s input engine lim)
}.

Section wal.
Context {W : Type} (env : Env W) (store : Store W) (R : Rec W) (cfg : seqConfig).
Context (log : W -> list WALRecord) (intact : W -> Prop).
Context `{!WalWorld env store R (sc_walPath cfg) log intact}.
Let wf : Workflow := sc_wf cfg.

Lemma retry_loop_keeps run delay ctx left : forall attempt,
  keeps log intact run -> (forall a, keeps log intact (delay a)) ->
  keeps log intact (retry_loop env run delay ctx left attempt).
Proof using WalWorld0.
  induction left as [|left IH]; intros attempt Hrun Hdelay; cbn [retry_loop]; [apply keeps_ret|].
  apply keeps_bind; [done|]. intros [output [e|]]; [|apply keeps_ret].
  destruct left as [|left']; [apply keeps_ret|]. apply keeps_bind; [done|]. intros d.
  apply keeps_bind; [apply ww_wait|]. intros [c|]; [apply keeps_ret|]. by apply IH.
Qed.

Lemma capture_loop_keeps ctx lim steps : forall idx data engine,
  keeps log intact (capture_loop R ctx idx steps data engine lim).
Proof using WalWorld0.
  induction steps as [|s steps IH]; intros idx data engine; cbn [capture_loop]; [apply keeps_ret|].
  apply keeps_bind; [apply ww_sub|]. intros [engine' [[rows out] [e|]]]; [apply keeps_ret|apply IH].
Qed.

Lemma recover_fallback_keeps ctx s output e engine input :
  keeps log intact (recover_fallback env ctx s output e engine input).
Proof using WalWorld0.
  assert (keeps log intact (recover_on_error env ctx s output e engine input)) as H.
  { unfold recover_on_error. destruct (ws_OnError s) as [errStep|]; [|apply keeps_ret].
    destruct (evalParams _ _ _ _); [|apply keeps_ret].
    destruct (env_Get env (st_Node errStep)) eqn:Hn; [|apply keeps_ret].
    apply keeps_bind; [by eapply ww_node|]. intros [out [e'|]]; apply keeps_ret. }
  unfold recover_fallback. case_decide; [|done].
  destruct (Evaluate _ _ _ _) as [v [err|]]; [done|apply keeps_ret].
Qed.

Lemma applyErrorRecovery_keeps ctx s output e engine input lim :
  keeps log intact (applyErrorRecovery env R ctx s output e engine input lim).
Proof using WalWorld0.
  unfold applyErrorRecovery. destruct (HasCaptureError s); [|apply recover_fallback_keeps].
  apply keeps_bind.
  - unfold executeCaptureErrorBranch. destruct (ws_CaptureError s); [apply keeps_ret|].
    apply capture_loop_keeps.
  - intros [out [b|]]; [apply recover_fallback_keeps|apply keeps_ret].
Qed.

Lemma attempt_node_keeps s nd params input :
  env_Get env (ws_Node s) = Some nd -> keeps log intact (attempt_node env cfg s nd params input).
Proof using WalWorld0.
  intros Hn. unfold attempt_node, executeNode. apply keeps_bind; [by eapply ww_node|].
  intros [out [e|]]; [apply keeps_ret|]. repeat case_match; apply keeps_ret.
Qed.

(** The state [st] that the log recovers, seen from the running state [s]:
    it is at most that of the step before [i], has the data and variables of
    [s] and the outputs of the steps up to its own index. *)
Record recovers (i : Z) (st : WorkflowState) (s : seqExecState) : Prop := {
  rc_index : ss_StepIndex st < i;
  rc_data : ss_Data st = sq_data s;
  rc_vars : ss_Variables st ⊆ variables (sq_engine s);
  rc_outputs : forall j, j <= ss_StepIndex st -> in_int64 j = true ->
    ss_StepOutputs st !! j = stepOutputs (sq_engine s) !! idx_key j;
  rc_dom : forall j, is_Some (ss_StepOutputs st !! j) ->
    in_int64 j = true /\ is_Some (stepOutputs (sq_engine s) !! idx_key j)
}.

Record wal_inv (i : Z) (s : seqExecState) (w : W) : Prop := {
  wi_mgr : exists m, sq_walState s = Some m /\ synced m (log w);
  wi_engine : engine_wf (sq_engine s);
  wi_log : forall st, LoadStateWAL (log w) = Some st -> recovers i st s
}.

Lemma stepOutputs_set_other i j name o e :
  i <> j -> stepOutputs (SetStepOutput i name o e) !! idx_key j = stepOutputs e !! idx_key j.
Proof.
  intros Hne. rewrite lookup_SetStepOutput.
  rewrite (bool_decide_eq_false_2 (idx_key j = name_key _)) by done. rewrite andb_false_r.
  rewrite bool_decide_eq_false_2; [done|]. unfold idx_key. intros H. injection H as H.
  by apply Itoa_inj in H.
Qed.

Lemma stepOutputs_set_dom i j name o e :
  is_Some (stepOutputs e !! idx_key j) ->
  is_Some (stepOutputs (SetStepOutput i name o e) !! idx_key j).
Proof. intros H. rewrite lookup_SetStepOutput. by repeat case_match. Qed.

(** The saves. *)
Lemma wal_save_log m state w w' m' e :
  wal_save store cfg m state w = (w', Ret (m', e)) -> intact w' ->
  intact w /\ m' = saved_manager m state /\
  LoadStateWAL (log w') = LoadStateWAL (log w ++ [save_record m state])%list.
Proof using WalWorld0.
  unfold wal_save, mbind, M_bind.
  destruct (wal_append store (sc_walPath cfg) (save_record m state) w) as [w1 [err|]] eqn:Ea; [|done].
  destruct err as [err|].
  - intros [= <- <- _] Hi. by destruct (ww_append _ _ _ _ Ea Hi) as [? ->].
  - destruct (wal_compact store (sc_walPath cfg) w1) as [w2 [err|]] eqn:Ec; [|done].
    intros [= <- <- _] Hi. destruct (ww_compact _ _ _ Ec Hi) as [Hi1 ->]. by destruct (ww_append _ _ _ _ Ea Hi1) as [? ->].
Qed.
Lemma saveCP_intact i s w w' s' : saveCP env store cfg i s w = (w', Ret s') -> intact w' -> intact w.
Proof using WalWorld0.
  unfold saveCP. destruct (sq_walState s) as [m|].
  - unfold mbind, M_bind. destruct (wal_save _ _ _ _ w) as [w1 [[m' e]|]] eqn:Es; [|done].
    intros [= <- _] Hi. by destruct (wal_save_log _ _ _ _ _ _ Es Hi) as [? _].
  - case_decide; [by intros [= <- _]|]. unfold mbind, M_bind.
    destruct (cp_save _ _ _ w) as [w1 [e|]] eqn:Es; [|done]. intros [= <- _]. by destruct (ww_checkpoint _ _ _ _ _ Es) as [_ ?].
Qed.

(** The save at the end of step [i]. *)
Lemma saveCP_inv i s s0 w w' s' :
  in_int64 i = true -> wal_inv i s0 w ->
  engine_wf (sq_engine s) -> sq_walState s = sq_walState s0 ->
  variables (sq_engine s0) ⊆ variables (sq_engine s) ->
  (forall j, is_Some (stepOutputs (sq_engine s0) !! idx_key j) ->
     is_Some (stepOutputs (sq_engine s) !! idx_key j)) ->
  saveCP env store cfg i s w = (w', Ret s') -> intact w' ->
  wal_inv (i + 1) s' w' /\ ss_StepIndex <$> LoadStateWAL (log w') = Some i.
Proof using WalWorld0.
  intros Hi [(m & Hm & Hsync) _ Hlog] Hwf Hws Hvars Hdom. unfold saveCP. rewrite Hws, Hm.
  set (state := SaveCurrentState _ _ _ _ _). unfold mbind, M_bind.
  destruct (wal_save store cfg m state w) as [w1 [[m' e]|]] eqn:Ea; [|done].
  intros [= <- <-] Hint. apply wal_save_log in Ea as (_ & -> & Hw1); [|done].
  assert (forall j, in_int64 j = true ->
    ss_StepOutputs state !! j = stepOutputs (sq_engine s) !! idx_key j) as Houts.
  { intros j Hj. by apply SaveCurrentState_outputs; [apply ww_range| |]. }
  assert (forall p, persisted m = Some p -> grows p state) as Hg.
  { intros p Hp. unfold synced in Hsync. rewrite Hp in Hsync.
    destruct (LoadStateWAL (log w)) as [q|] eqn:Eq; [|done]. cbn in Hsync.
    injection Hsync as _ _ H3 H4. destruct (Hlog q eq_refl) as [_ _ Hv _ Hd]. split.
    - rewrite H3. intros j Hj%elem_of_dom. destruct (Hd j Hj) as [Hj64 Hj'].
      apply elem_of_dom. rewrite Houts by done. auto.
    - rewrite H4. cbn. apply subseteq_dom. by etransitivity. }
  pose proof (append_synced m (log w) state Hsync Hg) as Hp. rewrite <- Hw1 in Hp. split.
  2: { destruct (LoadStateWAL (log w1)); [|done]. cbn in Hp |- *. by injection Hp as -> _ _ _. }
  split.
  - exists (saved_manager m state). split_done. unfold synced. by rewrite Hp.
  - done.
  - intros st Hst. rewrite Hst in Hp. cbn in Hp. injection Hp as H1 H2 H3 H4.
    change (ss_StepOutputs st = ss_StepOutputs state) in H3. split.
    + rewrite H1. cbn. lia.
    + rewrite H2. done.
    + rewrite H4. done.
    + intros j _ Hj. rewrite H3. by apply Houts.
    + intros j Hj. rewrite H3 in Hj. pose proof (SaveCurrentState_int64 _ _ _ _ _ _ Hj) as Hj64.
      split_done. by rewrite (Houts j Hj64) in Hj.
Qed.

Lemma wal_inv_world i s w w' : log w' = log w -> wal_inv i s w -> wal_inv i s w'.
Proof. intros Hl [H1 H2 H3]. split; rewrite ?Hl; done. Qed.

Lemma skip_inv i name s s' w :
  in_int64 i = true -> wal_inv i s w -> sq_walState s' = sq_walState s ->
  sq_engine s' = SetStepOutput i name "" (sq_engine s) -> sq_data s' = sq_data s ->
  wal_inv (i + 1) s' w.
Proof.
  intros Hi [H1 H2 H3] Hw He Hd. split; rewrite ?Hw, ?He; [done|by apply SetStepOutput_wf|].
  intros st Hst. destruct (H3 st Hst) as [R1 R2 R3 R4 R5].
  split; rewrite ?He, ?Hd; try done; [lia| |].
  - intros j Hj Hj64. rewrite stepOutputs_set_other by lia. auto.
  - intros j Hj. destruct (R5 j Hj). split_done. by apply stepOutputs_set_dom.
Qed.

(** Steps either run, and are saved, or are skipped and pass the data on. *)
Lemma seq_step_inv i step s w w' s' :
  in_int64 i = true -> plain step ->
  seq_step env store R cfg i step s w = (w', Ret (s', None)) -> intact w' ->
  intact w /\ (wal_inv i s w -> wal_inv (i + 1) s' w' /\
  (ss_StepIndex <$> LoadStateWAL (log w') = Some i \/ ws_Condition step <> "")).
Proof using WalWorld0.
  intros Hi Hp. unfold seq_step.
  destruct (match ws_Input step with Some _ => _ | None => _ end) as [data|e] eqn:Ein; [|done].
  rewrite (plain_not_compound env store R cfg i step _ Hp).
  destruct (handleStepCondition env i step (set_data data s)) as [[s1 err]|] eqn:Hc.
  { unfold handleStepCondition in Hc. case_decide as Hcond; [done|].
    destruct (evaluateCondition _ _ _ _) as [[]|]; try done; injection Hc as <- <-; [|done].
    intros [= <- <-] Hint. split_done. intros Hinv. split; [|by right]. apply (skip_inv i (ws_Node step) s); try done;
      destruct (ws_Input step); try done. by injection Ein as <-. }
  unfold executeRegularStep. destruct (evalParams _ _ _ _) as [params|e]; [|done].
  destruct (env_Get env (ws_Node step)) as [nd|] eqn:Hn; [|done].
  unfold mbind at 1, M_bind at 1.
  destruct (retry_loop _ _ _ _ _ _ w) as [w1 [r|]] eqn:Er; [|done].
  apply retry_loop_keeps in Er as [Er Hint1];
    [|by apply attempt_node_keeps|intros a; apply keeps_bind; [apply ww_rand|intros; apply keeps_ret]].
  destruct r as [output err att|]; [|done].
  unfold finish_regular. unfold mbind at 1, M_bind at 1.
  match goal with |- context [match ?m w1 with _ => _ end] =>
    assert (keeps log intact m) as Hk by (destruct err; [apply applyErrorRecovery_keeps|apply keeps_ret]);
    destruct (m w1) as [w2 [rv|]] eqn:Erv; [|done] end.
  apply Hk in Erv as [Erv Hint2]. destruct (rv_abort rv) as [e|].
  { intros Hf. apply handleStepFailure_rows in Hf as [_ Hf]. done. }
  unfold mbind, M_bind. destruct (saveCP _ _ _ _ _ w2) as [w3 [s3|]] eqn:Es; [|done].
  intros [= <- <-] Hint. split; [by apply Hint1, Hint2; eapply saveCP_intact|]. intros Hinv.
  apply (saveCP_inv i _ s) in Es as [H1 H2]; [by auto|done| | |done|done| |exact Hint].
  - apply (wal_inv_world _ _ w); [congruence|done].
  - cbn. apply SetStepOutput_wf; [done|apply Hinv].
  - intros j. cbn. apply stepOutputs_set_dom.
Qed.

Lemma wal_inv_mono i k s w : i <= k -> wal_inv i s w -> wal_inv k s w.
Proof.
  intros Hik [H1 H2 H3]. split; [done|done|]. intros st Hst. destruct (H3 st Hst).
  split; try done. lia.
Qed.

(** [unconditional] runs leave no step out. *)
Definition unconditional (s : WorkflowStep) : Prop := ws_Condition s = "".

Lemma seq_loop_inv from steps : forall i s w w' s',
  0 <= i -> i + Z.of_nat (length steps) <= MaxSteps -> Forall plain steps ->
  seq_loop env store R cfg i from steps s w = (w', Ret (s', None)) -> intact w' ->
  intact w /\ (wal_inv (Z.max i from) s w ->
  wal_inv (Z.max (i + Z.of_nat (length steps)) from) s' w' /\
  (Forall unconditional steps -> yields (env_IsShuttingDown env) (fun b => b = false) ->
   from < i + Z.of_nat (length steps) -> (0 < length steps)%nat ->
   ss_StepIndex <$> LoadStateWAL (log w') = Some (i + Z.of_nat (length steps) - 1))).
Proof using WalWorld0.
  induction steps as [|step steps IH]; intros i s w w' s' Hi Hlen Hp; cbn [seq_loop].
  { intros [= <- <-] Hint. cbn. rewrite Z.add_0_r. split_done. intros Hinv. split; [done|lia]. }
  apply Forall_cons in Hp as [Hstep Hp]. cbn [length] in *.
  replace (i + Z.of_nat (S (length steps))) with (i + 1 + Z.of_nat (length steps)) in * by lia.
  destruct (i <? from) eqn:Hlt.
  - intros Hrun Hint. destruct (IH (i + 1) s w w' s') as [H0 H1]; try done; [lia|]. split_done. intros Hinv.
    destruct H1 as [H1 H2]. { eapply wal_inv_mono; [|exact Hinv]. lia. }
    split_done. intros [_ Hu]%Forall_cons Hd Hf _. destruct steps; [cbn in *; lia|].
    apply H2; try done. cbn. lia.
  - unfold mbind at 1, M_bind at 1.
    destruct (env_IsShuttingDown env w) as [w1 [down|]] eqn:Ed; [|done].
    destruct (ww_down _ _ _ Ed) as [Hw1 Hint1]. destruct down.
    { intros [= <- <-] Hint. split; [auto|]. intros Hinv. split.
      - apply (wal_inv_world _ _ w); [done|]. eapply wal_inv_mono; [|exact Hinv]. lia.
      - intros _ Hd. by apply Hd in Ed. }
    unfold mbind at 1, M_bind at 1.
    destruct (seq_step env store R cfg i step s w1) as [w2 [[s2 [e|]]|]] eqn:Es; [done| |done].
    assert (in_int64 i = true) as Hi64.
    { apply in_int64_spec. unfold MaxSteps in Hlen. unfold int64_min, int64_max. lia. }
    intros Hrun Hint. destruct (IH (i + 1) s2 w2 w' s') as [Hint2 H2]; try done; [lia|].
    apply seq_step_inv in Es as [Hint3 Es]; [|done..]. split; [auto|]. intros Hinv.
    destruct Es as [Hs Hlast].
    { apply (wal_inv_world _ _ w); [done|]. eapply wal_inv_mono; [|exact Hinv]. lia. }
    destruct H2 as [H1 H2]. { eapply wal_inv_mono; [|exact Hs]. lia. }
    split_done. intros [Hc Hu]%Forall_cons Hd Hf _. destruct steps as [|st2 steps].
    + cbn in Hrun. injection Hrun as <- <-. destruct Hlast as [->|Hne]; [|done].
      f_equal. cbn. lia.
    + apply H2; try done; cbn; lia.
Qed.

Lemma fold_restore_wf outs : forall e,
  (forall io, io ∈ outs -> in_int64 io.1 = true) -> engine_wf e ->
  engine_wf (fold_left (fun e io => SetStepOutput io.1 (step_name_at wf io.1) io.2 e) outs e).
Proof.
  induction outs as [|io outs IH]; intros e Hin He; [done|]. cbn [fold_left]. apply IH.
  - intros io' Hio. apply Hin. by right.
  - apply SetStepOutput_wf; [apply Hin; by left|done].
Qed.

(** The step indices in the log are machine integers, as Go's types have it. *)
Definition typed_log (l : list WALRecord) : Prop :=
  forall st j, LoadStateWAL l = Some st -> is_Some (ss_StepOutputs st !! j) -> in_int64 j = true.

(** A log that is intact in the end was opened. *)
Lemma initResumeState_opened s0 w w' p :
  sc_walPath cfg <> "" -> initResumeState store cfg s0 w = (w', Ret p) -> intact w' ->
  exists w1, wal_open store (sc_walPath cfg) w = (w1, Ret None).
Proof using WalWorld0.
  intros Hpath. unfold initResumeState. destruct (decide (sc_walPath cfg = "")) as [?|_]; [done|]. unfold mbind, M_bind, mret, M_ret.
  destruct (wal_open store (sc_walPath cfg) w) as [w1 [[e|]|]] eqn:Eo; [|by intros _ _; exists w1|done].
  rewrite bool_decide_eq_false_2 by done. intros Hrun Hint. exfalso.
  assert (intact w1) as Hi; [|by destruct (ww_open _ _ _ Eo Hi) as (_ & ? & _)].
  case_decide; [by injection Hrun as <- _|].
  destruct (cp_load _ _ w1) as [w2 [r|]] eqn:El; [|done]. destruct (ww_restore _ _ _ _ El) as [_ El'].
  by destruct r as [[st|]|]; injection Hrun as <- _; apply El'.
Qed.

(** The state and index that [initResumeState] gives. *)
Lemma initResumeState_wal s0 w w' s from :
  sc_walPath cfg <> "" -> stepOutputs (sq_engine s0) = ∅ -> typed_log (log w) ->
  initResumeState store cfg s0 w = (w', Ret (s, from)) -> intact w' ->
  intact w /\ log w' = log w /\ (exists m, sq_walState s = Some m /\ synced m (log w)) /\
  engine_wf (sq_engine s) /\
  match LoadStateWAL (log w) with
  | None => from = 0
  | Some st =>
      from = clampStep (ss_StepIndex st + 1) (Z.of_nat (length (wf_Steps wf))) /\
      ss_Data st = sq_data s /\ ss_Variables st ⊆ variables (sq_engine s) /\
      (forall j, stepOutputs (sq_engine s) !! idx_key j = ss_StepOutputs st !! j)
  end.
Proof using WalWorld0.
  intros Hpath Hempty Htyped Hrun Hint.
  destruct (initResumeState_opened _ _ _ _ Hpath Hrun Hint) as [w1 Eo]. revert Hrun. unfold initResumeState.
  assert (engine_wf (sq_engine s0)) as Hwf.
  { intros k Hk. rewrite Hempty, lookup_empty in Hk. by destruct Hk. }
  destruct (decide (sc_walPath cfg = "")) as [?|_]; [done|]. unfold mbind, M_bind, mret, M_ret.
  rewrite Eo, bool_decide_eq_true_2 by done.
  destruct (wal_load store (sc_walPath cfg) w1) as [w2 [r|]] eqn:El; [|done].
  intros Hrun. assert (w' = w2) as -> by (by destruct r as [[st|]|]; [destruct (resume_at _ _)| |]; injection Hrun as <- _ _).
  destruct (ww_load _ _ _ El Hint) as (Hi1 & -> & Hw2). destruct (ww_open _ _ _ Eo Hi1) as (Hi0 & _ & Hw1).
  split_done. rewrite Hw1 in Hw2, Hrun. split_done. revert Hrun.
  destruct (LoadStateWAL (log w)) as [st|] eqn:Est.
  - unfold resume_at. destruct (RestoreState _ _ _ _) as [engine data] eqn:Er.
    intros [= <- <-]. unfold RestoreState in Er. cbn in Er. injection Er as <- <-.
    cbn [sq_engine sq_walState sq_data set_engine set_data set_walState stepOutputs variables].
    split; [|split].
    + exists (NewWALStateManager wf (Some st)). split_done. unfold synced. by rewrite Est.
    + apply (fold_restore_wf (map_to_list (ss_StepOutputs st)) (sq_engine s0)); [|done].
      intros [j o] Hj%elem_of_map_to_list. by apply (Htyped st j Est); eexists.
    + split_done. split_done. split; [apply map_union_subseteq_l|].
      intros j. rewrite fold_restore_outputs by apply NoDup_fst_map_to_list.
      rewrite list_to_map_to_list, Hempty, lookup_empty. by destruct (ss_StepOutputs st !! j).
  - intros [= <- <-]. split_and!; try done. exists (NewWALStateManager wf None).
    split_done. unfold synced. by rewrite Est.
Qed.

Lemma initResumeState_inv s0 w w' s from :
  sc_walPath cfg <> "" -> stepOutputs (sq_engine s0) = ∅ -> typed_log (log w) ->
  initResumeState store cfg s0 w = (w', Ret (s, from)) -> intact w' ->
  exists i, wal_inv i s w' /\ from <= i /\
    (from < i -> from = Z.of_nat (length (wf_Steps wf))).
Proof using WalWorld0.
  intros Hpath Hempty Htyped Hinit Hint.
  destruct (initResumeState_wal s0 w w' s from Hpath Hempty Htyped Hinit Hint)
    as (_ & Hw & Hm & Hwf & Hst).
  destruct (LoadStateWAL (log w)) as [st|] eqn:Est.
  - destruct Hst as (Hfrom & Hd & Hv & Ho). exists (Z.max from (ss_StepIndex st + 1)).
    split; [|split; [lia|]].
    + split; [by rewrite Hw|done|]. rewrite Hw, Est. intros st' [= <-]. split; try done.
      * lia.
      * intros j Hj. split; [by apply (Htyped st)|]. by rewrite Ho.
    + unfold clampStep in Hfrom. destruct (ss_StepIndex st + 1 <? 0) eqn:?,
        (Z.of_nat (length (wf_Steps wf)) <? ss_StepIndex st + 1) eqn:?; lia.
  - exists from. split; [|lia]. split; [by rewrite Hw|done|]. rewrite Hw, Est. done.
Qed.

Lemma initResumeState_intact s0 w w' p :
  sc_walPath cfg <> "" -> initResumeState store cfg s0 w = (w', Ret p) -> intact w' -> intact w.
Proof using WalWorld0.
  intros Hpath Hrun Hint. destruct (initResumeState_opened _ _ _ _ Hpath Hrun Hint) as [w1 Eo].
  revert Hrun. unfold initResumeState. destruct (decide (sc_walPath cfg = "")) as [?|_]; [done|]. unfold mbind, M_bind, mret, M_ret.
  rewrite Eo, bool_decide_eq_true_2 by done.
  destruct (wal_load store (sc_walPath cfg) w1) as [w2 [r|]] eqn:El; [|done].
  intros Hrun. assert (w' = w2) as -> by (by destruct r as [[st|]|]; [destruct (resume_at _ _)| |]; injection Hrun as <- _).
  destruct (ww_load _ _ _ El Hint) as (Hi1 & _). by destruct (ww_open _ _ _ Eo Hi1) as (? & _).
Qed.
(** A run that begins behind the last step does nothing. *)
Lemma seq_loop_skipped from l : forall i s w w' s', i + Z.of_nat (length l) <= from ->
  seq_loop env store R cfg i from l s w = (w', Ret (s', None)) -> w' = w /\ s' = s.
Proof using Type.
  induction l as [|x l IH]; intros j s w w' s' Hj; cbn [seq_loop length] in *.
  - by intros [= <- <-].
  - assert ((j <? from) = true) as -> by lia. apply IH. lia.
Qed.

(** The running state after a prefix of the workflow, and the restart. *)
Lemma crash_resume s0 m w0 w1 s1 from w2 s2 w3 s3 from3 :
  sc_walPath cfg <> "" -> stepOutputs (sq_engine s0) = ∅ -> typed_log (log w0) ->
  Z.of_nat (length (wf_Steps wf)) <= MaxSteps -> Forall plain (wf_Steps wf) ->
  initResumeState store cfg s0 w0 = (w1, Ret (s1, from)) ->
  seq_loop env store R cfg 0 from (take m (wf_Steps wf)) s1 w1 = (w2, Ret (s2, None)) ->
  initResumeState store cfg s0 w2 = (w3, Ret (s3, from3)) -> intact w3 ->
  match LoadStateWAL (log w2) with
  | None => from3 = 0
  | Some st =>
      from3 = clampStep (ss_StepIndex st + 1) (Z.of_nat (length (wf_Steps wf))) /\
      sq_data s3 = sq_data s2 /\
      (forall name v, ss_Variables st !! name = Some v ->
         variables (sq_engine s3) !! name = Some v /\ variables (sq_engine s2) !! name = Some v) /\
      (forall j, j <= ss_StepIndex st -> in_int64 j = true ->
         stepOutputs (sq_engine s3) !! idx_key j = stepOutputs (sq_engine s2) !! idx_key j)
  end /\
  (Forall unconditional (wf_Steps wf) -> yields (env_IsShuttingDown env) (fun b => b = false) ->
   from < Z.of_nat (length (take m (wf_Steps wf))) ->
   from3 = Z.of_nat (length (take m (wf_Steps wf))) /\ sq_data s3 = sq_data s2).
Proof using WalWorld0.
  intros Hpath Hempty Htyped Hlen Hp Hinit Hrun Hagain Hint3. unfold wf in *. set (steps := wf_Steps (sc_wf cfg)) in *.
  assert (length (take m steps) <= length steps)%nat as Hle by (rewrite length_take; lia).
  assert (0 + Z.of_nat (length (take m steps)) <= MaxSteps) as Hlen'
    by lia.
  pose proof (initResumeState_intact _ _ _ _ Hpath Hagain Hint3) as Hint2.
  destruct (seq_loop_inv from (take m steps) 0 s1 w1 w2 s2) as [Hint1 Hloop];
    [lia|done|by apply Forall_take|done..|].
  destruct (initResumeState_inv s0 w0 w1 s1 from Hpath Hempty Htyped Hinit Hint1)
    as (i & Hinv & Hi & Hend).
  unfold wf in Hend. fold steps in Hend.
  pose proof (initResumeState_rows store cfg s0 _ _ _ Hinit) as (_ & Hfrom & _). cbn in Hfrom. fold steps in Hfrom.
  assert (exists k, wal_inv k s2 w2) as [k Hinv2].
  { destruct (decide (from < i)) as [Hlt|Hge].
    - apply seq_loop_skipped in Hrun as [-> ->]; [by exists i|lia].
    - replace i with from in Hinv by lia. destruct Hloop as [H1 _]; [|by eexists].
      eapply wal_inv_mono; [|exact Hinv]. lia. }
  assert (typed_log (log w2)) as Htyped2.
  { intros st j Hst Hj. by apply (wi_log _ _ _ Hinv2 st Hst). }
  destruct (initResumeState_wal s0 w2 w3 s3 from3 Hpath Hempty Htyped2 Hagain Hint3) as (_ & _ & _ & _ & Hst).
  split.
  - destruct (LoadStateWAL (log w2)) as [st|] eqn:Est; [|done].
    destruct Hst as (Hf & Hd & Hv & Ho). destruct (wi_log _ _ _ Hinv2 st Est) as [_ R2 R3 R4 _].
    split_done. split; [congruence|]. split.
    + intros name v Hn. split; [by apply (lookup_weaken (ss_Variables st))|].
      by apply (lookup_weaken (ss_Variables st)).
    + intros j Hj Hj64. by rewrite Ho, R4.
  - intros Hu Hd Hf. assert (from = i) as <-.
    { destruct (decide (from < i)) as [Hlt%Hend|]; lia. }
    destruct Hloop as [_ Hlast]; [eapply wal_inv_mono; [|exact Hinv]; lia|].
    specialize (Hlast ltac:(by apply Forall_take) Hd ltac:(lia) ltac:(lia)).
    destruct (LoadStateWAL (log w2)) as [st|] eqn:Est; [|done]. destruct Hst as (Hf3 & Hd3 & _).
    cbn [fmap option_fmap option_map] in Hlast. apply (inj Some) in Hlast.
    split; [|rewrite <- (rc_data _ _ _ (wi_log _ _ _ Hinv2 st Est)); congruence].
    rewrite Hf3, Hlast. change (wf_Steps wf) with steps. unfold clampStep. repeat case_match; lia.
Qed.
End wal.

(** C7: a sequential workflow of plain steps (no branches, loops, parallel
    steps, maps, reductions or sagas) with a write-ahead log survives a crash
    between any two steps, as long as every append put its record into the log
    ([intact]; compactions may succeed or fail): running the first [m] steps
    without an error (from wherever the log said) and restarting continues with
    the same data and the same saved variables and outputs; when no step is
    conditional, exactly at step [m], so no completed step runs again. *)
Theorem wal_crash_resume {W} (env : Env W) (store : Store W) (R : Rec W) (cfg : seqConfig)
    (log : W -> list WALRecord) (intact : W -> Prop) (s0 : seqExecState) (m : nat)
    (w0 w1 w2 w3 : W) (s1 s2 s3 : seqExecState) (from from3 : Z) :
  WalWorld env store R (sc_walPath cfg) log intact ->
  sc_walPath cfg <> "" -> stepOutputs (sq_engine s0) = ∅ -> typed_log (log w0) ->
  Z.of_nat (length (wf_Steps (sc_wf cfg))) <= MaxSteps -> Forall plain (wf_Steps (sc_wf cfg)) ->
  initResumeState store cfg s0 w0 = (w1, Ret (s1, from)) ->
  seq_loop env store R cfg 0 from (take m (wf_Steps (sc_wf cfg))) s1 w1 = (w2, Ret (s2, None)) ->
  initResumeState store cfg s0 w2 = (w3, Ret (s3, from3)) -> intact w3 ->
  match LoadStateWAL (log w2) with
  | None => from3 = 0
  | Some st =>
      from3 = clampStep (ss_StepIndex st + 1) (Z.of_nat (length (wf_Steps (sc_wf cfg)))) /\
      sq_data s3 = sq_data s2 /\
      (forall name v, ss_Variables st !! name = Some v ->
         variables (sq_engine s3) !! name = Some v /\ variables (sq_engine s2) !! name = Some v) /\
      (forall j, j <= ss_StepIndex st -> in_int64 j = true ->
         stepOutputs (sq_engine s3) !! idx_key j = stepOutputs (sq_engine s2) !! idx_key j)
  end /\
  (Forall unconditional (wf_Steps (sc_wf cfg)) ->
   yields (env_IsShuttingDown env) (fun b => b = false) ->
   from < Z.of_nat (length (take m (wf_Steps (sc_wf cfg)))) ->
   from3 = Z.of_nat (length (take m (wf_Steps (sc_wf cfg)))) /\ sq_data s3 = sq_data s2).
Proof. intros HW. by eapply crash_resume. Qed.

(** A world that is a log of which a workflow of two steps is run.  The log
    keeps records of at most [log_room] bytes of data; a larger one is refused
    or, here, dropped silently; compaction fails at logs of one record. *)
Record log_world := mkLog { lw_log : list WALRecord; lw_intact : bool }.
Definition log_room : nat := 16.
Definition log_append (r : WALRecord) (w : log_world) : log_world :=
  if (String.length (rec_Data r) <=? log_room)%nat then mkLog (lw_log w ++ [r]) (lw_intact w)
  else mkLog (lw_log w) false.
Definition log_store : Store log_world :=
  mkStore _ (mkCheckpoints _ (fun _ _ => mret None) (fun _ => mret (Ok None)))
    (fun _ => mret None) (fun _ w => (w, Ret (Ok (LoadStateWAL (lw_log w)))))
    (fun _ r w => (log_append r w, Ret None))
    (fun _ w => (mkLog (compact_two (lw_log w)).1 (lw_intact w),
                 Ret (match lw_log w with [_] => Some "no space left on device" | _ => None end)))
    (fun _ => mret tt)
    (mret "run-1") (fun _ => mret None) (fun _ _ => mret tt) (fun _ _ => mret tt)
    (fun _ => mret None).
Definition bang_node : node log_world := fun _ input _ => mret (input +:+ "!", None).
Definition wal_env : Env log_world := quiet_env empty_host (fun _ => Some bang_node).
Definition wal_rec : Rec log_world :=
  mkRec (fun _ _ _ _ _ _ => throw "no sub-step") (fun _ _ => throw "no sub-workflow").
Definition wal_cfg : seqConfig :=
  mkSeqConfig (mkWorkflow "w" "" ∅ [node_step "bang" "a"; node_step "bang" "b"; node_step "bang" "c"] "" [] 0 None)
    Background None "wal.log" "" "" false.
Definition wal_start : seqExecState := mkSeqState NewExpressionEngine [] "hi" false None.

#[export] Instance wal_env_world : WalWorld wal_env log_store wal_rec "wal.log" lw_log (fun w => lw_intact w = true).
Proof.
  split; try done; try (by intros; apply keeps_ret).
  - by intros w w' e [= <- <-].
  - by intros w w' e [= <- <-].
  - intros r w w' e [= <- <-]. unfold log_append. by destruct (_ <=? _)%nat.
  - intros w w' e [= <- <-] Hi. split_done. apply compact_two_compacts.
  - intros name nd ctx input params [= <-]. apply keeps_ret.
Qed.

(** Crash after the second of three steps, when the log was compacted: the
    restart begins at the third one with the second one's output. *)
Definition reached {A} (r : log_world * outcome (seqExecState * A)) : seqExecState :=
  match r.2 with Ret p => p.1 | Panic _ => wal_start end.
Definition first_init := initResumeState log_store wal_cfg wal_start (mkLog [] true).
Definition first_run :=
  seq_loop wal_env log_store wal_rec wal_cfg 0 0 (take 2 (wf_Steps (sc_wf wal_cfg)))
    (reached first_init) first_init.1.
Definition second_init := initResumeState log_store wal_cfg wal_start first_run.1.

Lemma wal_crash_resume_witness :
  length (lw_log first_run.1) = 1%nat /\
  second_init = (second_init.1, Ret (reached second_init, 2)) /\
  sq_data (reached first_run) = "hi!!" /\ sq_data (reached second_init) = "hi!!".
Proof.
  assert (first_init = (first_init.1, Ret (reached first_init, 0))) as E1
    by (vm_compute; reflexivity).
  assert (first_run = (first_run.1, Ret (reached first_run, None))) as E2
    by (vm_compute; reflexivity).
  assert (second_init = (second_init.1, Ret (reached second_init, 2))) as E3
    by (vm_compute; reflexivity).
  assert (sq_data (reached first_run) = "hi!!") as E4 by (vm_compute; reflexivity).
  split; [vm_compute; reflexivity|]. split; [exact E3|]. split; [exact E4|]. rewrite <- E4.
  apply (wal_crash_resume wal_env log_store wal_rec wal_cfg lw_log (fun w => lw_intact w = true) wal_start 2
    (mkLog [] true) _ _ _ _ _ _ 0 2
    _ ltac:(discriminate) eq_refl ltac:(intros st j H; discriminate H) ltac:(vm_compute; discriminate)
    ltac:(repeat constructor) E1 E2 E3).
  - vm_compute. reflexivity.
  - repeat constructor.
  - intros w w' b H. injection H as _ <-. reflexivity.
  - vm_compute. reflexivity.
Defined.
