(* ===== verification/Interpreter.v ===== *)
(** * Nested workflows
    (ExecuteWorkflow of src/internal/workflow/executor.go, and the recursion
    of the executors through it and [executeSubStep])

    The executors of compound steps call [executeSubStep] and
    [ExecuteWorkflow], which call them again on the steps nested inside.
    [knot] ties that recursion with a fuel; the nesting depth of a workflow is
    enough, because every call goes to steps one level deeper. *)

From S2P Require Import Prelude GoStrings GoTime WorkflowTypes Dag ExprEngine WalState Effects.
From S2P Require Import Helpers Compound DagScheduler Sequential.

#[local] Open Scope string_scope.
#[local] Open Scope Z_scope.

Definition DefaultWorkflowTimeout : Z := 5 * Minute.

(** [ExecuteWorkflow], by way of [ExecuteWorkflowWithTrace]. *)
Definition ExecuteWorkflow {W} (env : Env W) (store : Store W) (R : Rec W) (ctx : Ctx)
    (wf : Workflow) : M W wfOut :=
  if hasDAGDeclarations (wf_Steps wf)
  then executeWorkflowDAG env (st_cps store) R ctx wf DefaultWorkflowTimeout ""
  else
    '(output, results, err) ←
      executeWorkflowSequential env store R ctx wf "" "" "" false DefaultWorkflowTimeout;
    mret (output, results, seq_error_text <$> err).

(** [bottom] answers the calls nested deeper than the fuel. *)
Fixpoint knot {W} (env : Env W) (store : Store W) (bottom : Rec W) (fuel : nat) : Rec W :=
  match fuel with
  | O => bottom
  | S fuel' =>
      let R := knot env store bottom fuel' in
      mkRec (executeSubStep env R) (ExecuteWorkflow env store R)
  end.

Definition stuck_rec {W} : Rec W :=
  mkRec (fun _ _ _ _ _ _ => throw "nested too deeply") (fun _ _ => throw "nested too deeply").

(** The program: enough fuel for the nesting of the workflow. *)
Definition run_workflow {W} (env : Env W) (store : Store W) (ctx : Ctx) (wf : Workflow)
    : M W wfOut :=
  ExecuteWorkflow env store (knot env store stuck_rec (steps_depth (wf_Steps wf))) ctx wf.

(** ** The executors call only nested steps *)

(** Two recursions agree on the steps that satisfy [P] and on the workflows
    whose steps satisfy [Q]. *)
Record agree {W} (P : WorkflowStep -> Prop) (Q : list WorkflowStep -> Prop) (R1 R2 : Rec W)
    : Prop := {
  ag_sub : forall ctx idx s input engine lim, P s ->
    rec_sub R1 ctx idx s input engine lim ≡ₘ rec_sub R2 ctx idx s input engine lim;
  ag_wf : forall ctx wf, Q (wf_Steps wf) -> rec_wf R1 ctx wf ≡ₘ rec_wf R2 ctx wf
}.

Section ext.
Context {W : Type} (env : Env W).
Context (P : WorkflowStep -> Prop) (Q : list WorkflowStep -> Prop) (R1 R2 : Rec W).
Context (HR : agree P Q R1 R2).

Lemma with_slot_ext {A} lim ctx (fail : error -> A) m1 m2 :
  m1 ≡ₘ m2 -> with_slot env lim ctx fail m1 ≡ₘ with_slot env lim ctx fail m2.
Proof.
  intros Hm. unfold with_slot. destruct lim; [|done].
  apply bind_ext; [done|]. intros [e|]; [done|]. by apply deferring_ext.
Qed.

Lemma executeIfBranch_ext ctx i c input engine :
  Q (if_Then c) -> Q (if_Else c) ->
  executeIfBranch env R1 ctx i c input engine ≡ₘ executeIfBranch env R2 ctx i c input engine.
Proof using HR.
  intros Ht He. unfold executeIfBranch.
  destruct (_ <=? _); [done|]. destruct (evaluateCondition _ _ _ _) as [pass|e]; [|done].
  apply bind_ext; [|done]. apply (ag_wf _ _ _ _ HR). by destruct pass.
Qed.

Lemma capture_loop_ext ctx lim steps : forall idx data engine,
  Forall P steps ->
  capture_loop R1 ctx idx steps data engine lim ≡ₘ capture_loop R2 ctx idx steps data engine lim.
Proof using HR.
  induction steps as [|s steps IH]; intros idx data engine HP; [done|]. cbn [capture_loop].
  apply Forall_cons in HP as [Hs HP].
  apply bind_ext; [by apply (ag_sub _ _ _ _ HR)|]. intros [engine' [[rows out] err]].
  destruct err; [done|]. by apply IH.
Qed.

Lemma applyErrorRecovery_ext ctx s output e engine input lim :
  Forall P (ws_CaptureError s) ->
  applyErrorRecovery env R1 ctx s output e engine input lim
  ≡ₘ applyErrorRecovery env R2 ctx s output e engine input lim.
Proof using HR.
  intros HP. unfold applyErrorRecovery. destruct (HasCaptureError s); [|done].
  apply bind_ext; [|done]. unfold executeCaptureErrorBranch.
  destruct (ws_CaptureError s); [done|]. by apply capture_loop_ext.
Qed.

Lemma run_steps_ext ctx idx lim steps : forall data engine,
  Forall P steps ->
  run_steps R1 ctx idx steps data engine lim ≡ₘ run_steps R2 ctx idx steps data engine lim.
Proof using HR.
  induction steps as [|s steps IH]; intros data engine HP; [done|]. cbn [run_steps].
  apply Forall_cons in HP as [Hs HP].
  apply bind_ext; [by apply (ag_sub _ _ _ _ HR)|]. intros [engine' [[rows out] err]].
  destruct err; [done|]. by apply IH.
Qed.

Lemma runOne_ext ctx i c vars count lim idx item :
  Forall P (map_Steps c) ->
  runOne R1 ctx i c vars count lim idx item ≡ₘ runOne R2 ctx i c vars count lim idx item.
Proof using HR.
  intros HP. unfold runOne. apply recover_ext, bind_ext; [by apply run_steps_ext|done].
Qed.

Lemma map_seq_ext (run1 run2 : Z -> string -> M W (string * option error)) i stop items :
  (forall idx item, run1 idx item ≡ₘ run2 idx item) ->
  forall idx results outputs,
  map_seq run1 i stop idx items results outputs ≡ₘ map_seq run2 i stop idx items results outputs.
Proof.
  intros Hrun. induction items as [|item items IH]; intros idx results outputs; [done|].
  cbn [map_seq]. apply bind_ext; [done|]. intros [out [e|]]; cbn; [destruct stop|]; auto.
  done.
Qed.

Lemma map_concurrent_ext ctx (run1 run2 : Z -> string -> M W (string * option error)) c items lim :
  (forall idx item, run1 idx item ≡ₘ run2 idx item) ->
  map_concurrent env ctx run1 c items lim ≡ₘ map_concurrent env ctx run2 c items lim.
Proof.
  intros Hrun. unfold map_concurrent. apply bind_ext; [done|]. intros order.
  apply bind_ext; [|done]. unfold run_workers. apply foldM_ext. intros rs j _.
  apply bind_ext; [|done]. destruct (items !! j); [|done]. by apply with_slot_ext.
Qed.

Lemma executeMapStep_ext ctx i s c input engine lim :
  Forall P (map_Steps c) ->
  executeMapStep env R1 ctx i s c input engine lim ≡ₘ executeMapStep env R2 ctx i s c input engine lim.
Proof using HR.
  intros HP. unfold executeMapStep. destruct (Evaluate _ _ _ _) as [over [e|]]; [done|].
  destruct (_ <? _); [done|]. case_decide; [done|]. apply bind_ext; [|done].
  destruct (_ <=? _).
  - apply map_seq_ext. intros idx item. by apply runOne_ext.
  - apply bind_ext; [|done]. apply map_concurrent_ext. intros idx item. by apply runOne_ext.
Qed.

Lemma reduce_loop_ext ctx i c vars count lim items :
  Forall P (red_Steps c) -> forall idx acc results,
  reduce_loop R1 ctx i c vars count lim idx items acc results
  ≡ₘ reduce_loop R2 ctx i c vars count lim idx items acc results.
Proof using HR.
  intros HP. induction items as [|item items IH]; intros idx acc results; [done|].
  cbn [reduce_loop]. apply bind_ext; [by apply run_steps_ext|].
  intros [data [e|]]; [done|]. apply IH.
Qed.

Lemma executeReduceStep_ext ctx i c input engine lim :
  Forall P (red_Steps c) ->
  executeReduceStep env R1 ctx i c input engine lim ≡ₘ executeReduceStep env R2 ctx i c input engine lim.
Proof using HR.
  intros HP. unfold executeReduceStep. destruct (Evaluate _ _ _ _) as [over [e|]]; [done|].
  destruct (_ <? _); [done|]. destruct (Evaluate _ _ _ _) as [acc [e|]]; [done|].
  case_decide; [done|]. by apply reduce_loop_ext.
Qed.

(** The steps of a saga, forward and compensating. *)
Definition saga_steps (all : list (SagaStep WorkflowStep)) : list WorkflowStep :=
  flat_map (fun sg => sg_Forward sg ::
              match sg_Compensate sg with Some cs => [cs] | None => [] end) all.

Lemma saga_steps_elem all sg s :
  sg ∈ all -> s = sg_Forward sg \/ sg_Compensate sg = Some s -> s ∈ saga_steps all.
Proof.
  intros Hin Hs. apply list_elem_of_In, in_flat_map. exists sg.
  split; [by apply list_elem_of_In|].
  destruct Hs as [->|Hs]; [by left|]. rewrite Hs. right. by left.
Qed.

Lemma compensate_loop_ext ctx i all vars e lim l : Forall P (saga_steps all) -> forall results,
  compensate_loop R1 ctx i l all vars e lim results ≡ₘ compensate_loop R2 ctx i l all vars e lim results.
Proof using HR.
  intros HP. induction l as [|c l IH]; intros results; [done|]. cbn [compensate_loop].
  destruct (all !! sc_idx c) as [sg|] eqn:Hsg; [|apply IH]. cbn.
  destruct (sg_Compensate sg) as [comp|] eqn:Hc; [|apply IH].
  apply bind_ext; [|by intros [? [[? ?] ?]]].
  apply (ag_sub _ _ _ _ HR). rewrite Forall_forall in HP. apply HP, (saga_steps_elem all sg); auto.
  by apply list_elem_of_lookup_2 in Hsg.
Qed.

Lemma saga_loop_ext ctx i all vars lim todo : Forall P (saga_steps all) -> todo ⊆ all ->
  forall idx data completed results,
  saga_loop R1 ctx i all vars lim idx todo data completed results
  ≡ₘ saga_loop R2 ctx i all vars lim idx todo data completed results.
Proof using HR.
  intros HP. induction todo as [|sg todo IH]; intros Hsub idx data completed results; [done|].
  cbn [saga_loop]. apply bind_ext.
  - apply (ag_sub _ _ _ _ HR). rewrite Forall_forall in HP. apply HP, (saga_steps_elem all sg); auto.
    apply Hsub. by left.
  - intros [? [[rows out] [e|]]].
    + apply bind_ext; [|done]. by apply compensate_loop_ext.
    + apply IH. intros x Hx. apply Hsub. by right.
Qed.

Lemma executeSagaStep_ext ctx i c input engine lim :
  Forall P (saga_steps (sg_Steps c)) ->
  executeSagaStep R1 ctx i c input engine lim ≡ₘ executeSagaStep R2 ctx i c input engine lim.
Proof using HR. intros HP. by apply saga_loop_ext. Qed.

(** The calls that the executors make for a step [s] are covered. *)
Record nested (s : WorkflowStep) : Prop := {
  n_then : forall c, ws_If s = Some c -> Q (if_Then c);
  n_else : forall c, ws_If s = Some c -> Q (if_Else c);
  n_map : forall c, ws_Map s = Some c -> Forall P (map_Steps c);
  n_reduce : forall c, ws_Reduce s = Some c -> Forall P (red_Steps c);
  n_saga : forall c, ws_Saga s = Some c -> Forall P (saga_steps (sg_Steps c));
  n_capture : Forall P (ws_CaptureError s)
}.

Lemma executeSubNode_ext ctx i s input engine lim :
  nested s ->
  executeSubNode env R1 ctx i s input engine lim ≡ₘ executeSubNode env R2 ctx i s input engine lim.
Proof using HR.
  intros HP. unfold executeSubNode. destruct (evalParams _ _ _ _); [|done].
  destruct (env_Get _ _); [|done]. apply bind_ext; [done|]. intros [output [e|]]; [|done].
  apply bind_ext; [|done]. apply applyErrorRecovery_ext. by apply n_capture.
Qed.

Lemma executeSubStep_ext ctx i s input engine lim :
  nested s ->
  executeSubStep env R1 ctx i s input engine lim ≡ₘ executeSubStep env R2 ctx i s input engine lim.
Proof using HR.
  intros HN. pose proof HN as [Ht He Hm Hr Hs _].
  unfold executeSubStep.
  destruct (ws_If s) as [c|]; [apply bind_ext; [by apply executeIfBranch_ext; auto|done]|].
  destruct (ws_Loop s) as [c|]; [done|]. destruct (IsParallel s); [done|].
  destruct (ws_Map s) as [c|]; [apply bind_ext; [by apply executeMapStep_ext; auto|done]|].
  destruct (ws_Reduce s) as [c|]; [apply bind_ext; [by apply executeReduceStep_ext; auto|done]|].
  destruct (ws_Saga s) as [c|]; [apply bind_ext; [by apply executeSagaStep_ext; auto|done]|].
  repeat (case_match; try done); by apply executeSubNode_ext.
Qed.

(** ** DAG workflows *)

Lemma executeDAGStep_ext ctx s input params :
  nested s ->
  executeDAGStep env R1 ctx s input params ≡ₘ executeDAGStep env R2 ctx s input params.
Proof using HR.
  intros HN. pose proof HN as [Ht He Hm Hr Hs _].
  unfold executeDAGStep.
  destruct (ws_If s) as [c|].
  { destruct (evaluateCondition _ _ _ _) as [pass|]; [|done]. apply bind_ext; [|done].
    apply (ag_wf _ _ _ _ HR). destruct pass; cbn; [by apply Ht|by apply He]. }
  destruct (ws_Loop s) as [c|]; [done|]. destruct (IsParallel s); [done|].
  destruct (ws_Map s) as [c|]; [apply bind_ext; [by apply executeMapStep_ext; auto|done]|].
  destruct (ws_Reduce s) as [c|]; [apply bind_ext; [by apply executeReduceStep_ext; auto|done]|].
  destruct (ws_Saga s) as [c|]; [apply bind_ext; [by apply executeSagaStep_ext; auto|done]|].
  done.
Qed.

Section dag.
Context (cps : Checkpoints W) (cfg : dagConfig).
Context (Hsteps : Forall nested (wf_Steps (dc_wf cfg))).

Lemma step_of_children i : nested (step_of cfg i).
Proof using Hsteps.
  unfold step_of. destruct (wf_Steps (dc_wf cfg) !! i) as [s|] eqn:E; [|by split; try done; constructor].
  by apply (Forall_lookup_1 _ _ _ _ Hsteps E).
Qed.

Lemma awaitNextResult_ext s :
  awaitNextResult env R1 cfg s ≡ₘ awaitNextResult env R2 cfg s.
Proof using HR Hsteps.
  unfold awaitNextResult. destruct (ds_dispatchSeq s !! ds_processPos s) as [want|]; [|done].
  destruct (_ || _); [done|]. apply bind_ext; [done|]. intros idx. apply bind_ext; [|done].
  unfold dispatchDAGStep. apply recover_ext, with_slot_ext, executeDAGStep_ext, step_of_children.
Qed.

Lemma processNextResult_ext s :
  processNextResult env cps R1 cfg s ≡ₘ processNextResult env cps R2 cfg s.
Proof using HR Hsteps.
  unfold processNextResult. destruct (ds_dispatchSeq s !! ds_processPos s) as [want|]; [|done].
  apply bind_ext; [|done]. unfold processDAGStepResult. repeat case_match; try done.
  apply bind_ext; [|done]. apply applyErrorRecovery_ext.
  apply n_capture, step_of_children.
Qed.

Lemma run_loop_ext stuck fuel : forall s,
  run_loop env cps R1 cfg stuck fuel s ≡ₘ run_loop env cps R2 cfg stuck fuel s.
Proof using HR Hsteps.
  induction fuel as [|fuel IH]; intros s; [done|]. cbn [run_loop]. case_decide; [|done].
  apply bind_ext; [done|]. intros s1. case_decide; [done|].
  apply bind_ext; [apply awaitNextResult_ext|]. intros [[] s2]; [apply IH|].
  apply bind_ext; [apply processNextResult_ext|]. intros s3. apply IH.
Qed.
End dag.

Lemma executeWorkflowDAG_ext cps ctx wf timeout statePath :
  Forall nested (wf_Steps wf) ->
  executeWorkflowDAG env cps R1 ctx wf timeout statePath
  ≡ₘ executeWorkflowDAG env cps R2 ctx wf timeout statePath.
Proof using HR.
  intros HP. unfold executeWorkflowDAG. destruct (_ <? _); [done|].
  destruct (buildDepGraph _ _); [|done]. destruct (topoBatches _ _); [|done].
  destruct (NewConcurrencyLimiter _); [|done].
  apply bind_ext; [done|]. intros s0. apply bind_ext; [|done]. by apply run_loop_ext.
Qed.

(** ** Sequential workflows *)

Lemma executeRegularStep_ext store cfg i s st :
  nested s ->
  executeRegularStep env store R1 cfg i s st ≡ₘ executeRegularStep env store R2 cfg i s st.
Proof using HR.
  intros HP. unfold executeRegularStep. destruct (evalParams _ _ _ _); [|done].
  destruct (env_Get _ _); [|done]. apply bind_ext; [done|]. intros [output err ?|]; [|done].
  unfold finish_regular. apply bind_ext; [|done]. destruct err; [|done].
  apply applyErrorRecovery_ext. by apply n_capture.
Qed.

Lemma seq_step_ext store cfg i s st :
  nested s ->
  seq_step env store R1 cfg i s st ≡ₘ seq_step env store R2 cfg i s st.
Proof using HR.
  intros HN. pose proof HN as [Ht He Hm Hr Hs _].
  unfold seq_step. destruct (match ws_Input s with Some _ => _ | None => _ end) as [data|e]; [|done].
  unfold handleCompoundStep.
  destruct (ws_If s) as [c|]; [apply bind_ext; [by apply executeIfBranch_ext; auto|done]|].
  destruct (ws_Loop s) as [c|]; [done|].
  destruct (ws_Map s) as [c|]; [apply bind_ext; [by apply executeMapStep_ext; auto|done]|].
  destruct (ws_Reduce s) as [c|]; [apply bind_ext; [by apply executeReduceStep_ext; auto|done]|].
  destruct (IsParallel s); [done|].
  destruct (ws_Saga s) as [c|]; [apply bind_ext; [by apply executeSagaStep_ext; auto|done]|].
  destruct (handleStepCondition _ _ _ _) as [[? [?|]]|]; [done|done|].
  by apply executeRegularStep_ext.
Qed.

Lemma seq_loop_ext store cfg from steps : Forall nested steps ->
  forall i st,
  seq_loop env store R1 cfg i from steps st ≡ₘ seq_loop env store R2 cfg i from steps st.
Proof using HR.
  induction 1 as [|s steps Hs _ IH]; intros i st; [done|]. cbn [seq_loop].
  destruct (_ <? _); [apply IH|]. apply bind_ext; [done|]. intros []; [done|].
  apply bind_ext; [by apply seq_step_ext|]. intros [st' [e|]]; [done|]. apply IH.
Qed.

Lemma ExecuteWorkflow_ext store ctx wf :
  Forall nested (wf_Steps wf) ->
  ExecuteWorkflow env store R1 ctx wf ≡ₘ ExecuteWorkflow env store R2 ctx wf.
Proof using HR.
  intros HP. unfold ExecuteWorkflow. destruct (hasDAGDeclarations _).
  - by apply executeWorkflowDAG_ext.
  - apply bind_ext; [|done]. unfold executeWorkflowSequential.
    destruct (_ <? _); [done|]. destruct (NewConcurrencyLimiter _); [|done].
    apply bind_ext; [done|]. intros [s from]. apply bind_ext; [|done]. by apply seq_loop_ext.
Qed.
End ext.

(** ** Enough fuel *)

Lemma steps_below d l :
  Forall (fun s => step_depth s < d)%nat l -> (0 < d)%nat -> (steps_depth l < d)%nat.
Proof.
  unfold steps_depth. induction 1 as [|s l Hs _ IH]; cbn [foldr]; [lia|]. lia.
Qed.

Lemma nested_below d s :
  (step_depth s < S d)%nat ->
  nested (fun c => step_depth c < d)%nat (fun l => steps_depth l < d)%nat s.
Proof.
  intros Hs. pose proof (fun c Hc => Nat.lt_le_trans _ _ d (step_children_depth s c Hc)
    ltac:(lia)) as Hc.
  assert (Forall (fun c => step_depth c < d)%nat (step_children s)) as HP.
  { apply Forall_forall. intros c ?%list_elem_of_In. auto. }
  assert (0 < d)%nat as Hd by (destruct s; cbn in Hs; lia).
  unfold step_children in HP. rewrite !Forall_app in HP. destruct HP as (H1 & H2 & H3 & H4 & H5).
  split; try done; intros c E; rewrite E in *; try done;
    apply Forall_app in H1 as [? ?]; by apply steps_below.
Qed.

Lemma steps_nested d l :
  (steps_depth l < S d)%nat ->
  Forall (nested (fun c => step_depth c < d)%nat (fun l => steps_depth l < d)%nat) l.
Proof.
  intros Hl. apply Forall_forall. intros s Hs%list_elem_of_In. apply nested_below.
  apply (foldr_max_le step_depth) in Hs. unfold steps_depth in Hl. lia.
Qed.

(** The fuel only has to exceed the depth of what is called. *)
Lemma knot_agree {W} (env : Env W) (store : Store W) (b1 b2 : Rec W) k fuel :
  agree (fun s => step_depth s < fuel)%nat (fun l => steps_depth l < fuel)%nat
    (knot env store b1 fuel) (knot env store b2 (fuel + k)).
Proof.
  induction fuel as [|fuel IH]; [split; intros; lia|]. split; cbn [knot Nat.add rec_sub rec_wf].
  - intros ctx idx s input engine lim Hs. by eapply executeSubStep_ext, nested_below.
  - intros ctx wf Hwf. by eapply ExecuteWorkflow_ext, steps_nested.
Qed.

(** C8: the interpreter of nested workflows is total: the nesting depth of a
    workflow is enough fuel, more changes nothing, and what answers the calls
    beyond the fuel is never asked. *)
Theorem run_workflow_total {W} (env : Env W) (store : Store W) (ctx : Ctx) (wf : Workflow)
    (bottom : Rec W) (k : nat) :
  ExecuteWorkflow env store (knot env store bottom (steps_depth (wf_Steps wf) + k)) ctx wf
  ≡ₘ run_workflow env store ctx wf.
Proof.
  intros w. symmetry. revert w. apply (ExecuteWorkflow_ext _ _ _ _ _ (knot_agree env store _ _ k _)).
  apply steps_nested. lia.
Qed.
