(* ===== verification/WalFile.v ===== *)
(** * The write-ahead log file (src/internal/workflow/wal.go)

    The byte format of the log, the buffered writer it goes through, replay
    and compaction.  The file is a list of bytes with the length of its
    prefix that has reached the disk; what a crash leaves is some prefix of
    the file at least that long.  Every system call can fail: [sys n] is the
    fault of the [n]-th call, with the number of bytes it still moved.
    Encoding records as JSON is a parameter ([RecordCodec]).  The periodic
    syncer only calls [Sync]. *)

From S2P Require Import Prelude GoStrings WorkflowTypes ExprEngine WalState.
From Stdlib Require Import Ascii.

#[local] Open Scope string_scope.
#[local] Open Scope Z_scope.

Abbreviation bytes := (list ascii).

(** ** encoding/binary and hash/crc32 *)

Definition byte_val (c : ascii) : Z := Z.of_N (N_of_ascii c).
Definition to_byte (z : Z) : ascii := ascii_of_N (Z.to_N (Z.land z 255)).

Definition PutUint32 (v : Z) : bytes :=
  [to_byte v; to_byte (Z.shiftr v 8); to_byte (Z.shiftr v 16); to_byte (Z.shiftr v 24)].
Definition Uint32 (b : bytes) : Z :=
  match b with
  | [b0; b1; b2; b3] =>
      Z.lor (byte_val b0) (Z.lor (Z.shiftl (byte_val b1) 8)
        (Z.lor (Z.shiftl (byte_val b2) 16) (Z.shiftl (byte_val b3) 24)))
  | _ => 0
  end.

(** One bit, then one byte, of the reflected IEEE polynomial. *)
Definition crc_bit (c : Z) : Z :=
  if Z.odd c then Z.lxor (Z.shiftr c 1) 0xEDB88320 else Z.shiftr c 1.
Definition crc_byte (c : Z) (b : ascii) : Z :=
  Nat.iter 8 crc_bit (Z.lxor c (byte_val b)).
Definition ChecksumIEEE (data : bytes) : Z :=
  Z.lxor (fold_left crc_byte data 0xFFFFFFFF) 0xFFFFFFFF.

Example crc_check_value :
  ChecksumIEEE (String.list_ascii_of_string "123456789") = 0xCBF43926.
Proof. vm_compute. reflexivity. Qed.

(** ** Records, frames and options *)

(** A [WALRecord] as it is stored: the fields that [Append] stamps and the
    payload the state manager supplies. *)
Record LoggedRecord := mkLogged {
  lr_Seq : Z;
  lr_Timestamp : Z;
  lr_rec : WALRecord
}.

Definition walCRCLen : nat := 4.
Definition walLenFieldLen : nat := 4.
Definition walMaxRecordSize : Z := 64 * 1024 * 1024.
Definition defaultWALCompactionThreshold : Z := 2 ^ 20.
Definition max_uint32 : Z := 2 ^ 32 - 1.
Definition bufio_size : nat := 64 * 1024.

Definition walFrameLen (dataLen : Z) : result Z :=
  if max_uint32 <? dataLen then
    Err ("wal: record too large (" +:+ Itoa dataLen +:+ " bytes, max " +:+ Itoa max_uint32 +:+ ")")
  else Ok dataLen.

Definition frame (data : bytes) : bytes :=
  PutUint32 (Z.of_nat (length data)) ++ data ++ PutUint32 (ChecksumIEEE data).

Record WALOptions := mkWALOptions {
  CompactionThreshold : Z;
  SyncEveryWrite : bool
}.

(** [json.Marshal] and [json.Unmarshal] at [WALRecord].  The record comes
    back when its strings are valid UTF-8 ([rc_storable]); an encoding is
    never empty. *)
Class RecordCodec := {
  rc_Marshal : LoggedRecord -> result bytes;
  rc_Unmarshal : bytes -> option LoggedRecord;
  rc_storable : LoggedRecord -> Prop
}.
Class RecordCodecLaws `{RecordCodec} := {
  rc_roundtrip : forall r data,
    rc_storable r -> rc_Marshal r = Ok data -> rc_Unmarshal data = Some r;
  rc_nonempty : forall r data, rc_Marshal r = Ok data -> data <> []
}.

(** ** The disk and the log *)

(** [fl_synced] bytes of [fl_data] are on stable storage. *)
Record File := mkFile {
  fl_data : bytes;
  fl_synced : nat
}.

Record Disk := mkDisk {
  dk_log : option File;      (* the file at [w.path] *)
  dk_tmp : option File;      (* the file at [w.path + ".tmp"] *)
  dk_calls : nat             (* system calls made so far *)
}.

(** [bufio.Writer]: the buffered bytes and the sticky error. *)
Record Writer := mkWriter {
  bw_buf : bytes;
  bw_err : option error
}.

(** [w_open] tells whether [w.file] is open. *)
Record WAL := mkWAL {
  w_seq : Z;
  w_bytes : Z;
  w_writer : Writer;
  w_open : bool;
  w_opts : WALOptions
}.

Definition errClosed : error := "file already closed".

(** ** Replay *)

(** [io.ReadFull] of [n] bytes: the bytes and the rest, or nothing when the
    readable bytes end first. *)
Definition read_full (n : nat) (b : bytes) : option (bytes * bytes) :=
  if decide (n <= length b)%nat then Some (take n b, drop n b) else None.

Section wal.
Context `{RecordCodec}.

(** The complete records at the front of [b], and whether the loop stopped
    while reading a length field. *)
Fixpoint replay_loop (fuel : nat) (b : bytes) : list LoggedRecord * bool :=
  match fuel with
  | O => ([], false)
  | S fuel' =>
      match read_full walLenFieldLen b with
      | None => ([], true)
      | Some (lenBuf, b) =>
          let recLen := Uint32 lenBuf in
          if (recLen =? 0) || (walMaxRecordSize <? recLen) then ([], false) else
          match read_full (Z.to_nat recLen) b with
          | None => ([], false)
          | Some (data, b) =>
              match read_full walCRCLen b with
              | None => ([], false)
              | Some (crcBuf, b) =>
                  if negb (ChecksumIEEE data =? Uint32 crcBuf) then ([], false) else
                  match rc_Unmarshal data with
                  | None => ([], false)
                  | Some rec =>
                      let '(recs, at_len) := replay_loop fuel' b in (rec :: recs, at_len)
                  end
              end
          end
      end
  end.

Definition replay_bytes (b : bytes) : list LoggedRecord * bool :=
  replay_loop (S (length b)) b.
Definition records_of (b : bytes) : list LoggedRecord := (replay_bytes b).1.

(** ** System calls *)

Variable sys : nat -> option (nat * error).

Definition tick (d : Disk) : Disk := mkDisk (dk_log d) (dk_tmp d) (S (dk_calls d)).
Definition log_data (d : Disk) : bytes :=
  match dk_log d with Some f => fl_data f | None => [] end.

(** A write at the end of a file, possibly only of a part. *)
Definition append_file (p : bytes) (f : option File) : option File :=
  let f := default (mkFile [] 0) f in Some (mkFile (fl_data f ++ p)%list (fl_synced f)).

(** [os.File.Write] on the log and on the snapshot file: the number of bytes
    written and the error. *)
Definition write_log (w_open : bool) (p : bytes) (d : Disk) : nat * option error * Disk :=
  if w_open then
    let put q := mkDisk (append_file q (dk_log d)) (dk_tmp d) (S (dk_calls d)) in
    match sys (dk_calls d) with
    | None => (length p, None, put p)
    | Some (k, e) => (Nat.min k (length p), Some e, put (take k p))
    end
  else (0%nat, Some errClosed, d).
Definition write_tmp (p : bytes) (d : Disk) : nat * option error * Disk :=
  let put q := mkDisk (dk_log d) (append_file q (dk_tmp d)) (S (dk_calls d)) in
  match sys (dk_calls d) with
  | None => (length p, None, put p)
  | Some (k, e) => (Nat.min k (length p), Some e, put (take k p))
  end.

Definition file_sync (f : File) : File := mkFile (fl_data f) (length (fl_data f)).

Definition sync_log (d : Disk) : option error * Disk :=
  match sys (dk_calls d) with
  | None => (None, mkDisk (file_sync <$> dk_log d) (dk_tmp d) (S (dk_calls d)))
  | Some (_, e) => (Some e, tick d)
  end.

(** A call that changes no contents: open, stat, close. *)
Definition plain_call (d : Disk) : option error * Disk :=
  (match sys (dk_calls d) with None => None | Some (_, e) => Some e end, tick d).

(** ** bufio.Writer *)

Section bufio.
Context (wr : bytes -> Disk -> nat * option error * Disk).

Definition buf_flush (b : Writer) (d : Disk) : Writer * option error * Disk :=
  match bw_err b with
  | Some e => (b, Some e, d)
  | None =>
      if decide (bw_buf b = []) then (b, None, d) else
      let '(k, err, d) := wr (bw_buf b) d in
      match err with
      | None => (mkWriter [] None, None, d)
      | Some e => (mkWriter (drop k (bw_buf b)) (Some e), Some e, d)
      end
  end.

(** A write larger than the empty buffer bypasses it. *)
Definition direct_write (p : bytes) (d : Disk) : Writer * option error * Disk :=
  let '(_, err, d) := wr p d in (mkWriter [] err, err, d).

Definition buf_write (p : bytes) (b : Writer) (d : Disk) : Writer * option error * Disk :=
  match bw_err b with
  | Some e => (b, Some e, d)
  | None =>
      let avail := (bufio_size - length (bw_buf b))%nat in
      if decide (length p <= avail)%nat then (mkWriter (bw_buf b ++ p) None, None, d) else
      if decide (bw_buf b = []) then direct_write p d else
      let '(b, err, d) := buf_flush (mkWriter (bw_buf b ++ take avail p) None) d in
      match err with
      | Some e => (b, Some e, d)
      | None =>
          let p := drop avail p in
          if decide (length p <= bufio_size)%nat then (mkWriter p None, None, d)
          else direct_write p d
      end
  end.

(** [length][json][crc32], each through the buffer; [stage] names the part
    whose write failed. *)
Definition write_frame (stage : string -> string) (data : bytes) (b : Writer) (d : Disk)
    : Writer * option error * Disk :=
  match buf_write (PutUint32 (Z.of_nat (length data))) b d with
  | (b, Some e, d) => (b, Some (stage "len" +:+ e), d)
  | (b, None, d) =>
      match buf_write data b d with
      | (b, Some e, d) => (b, Some (stage "data" +:+ e), d)
      | (b, None, d) =>
          match buf_write (PutUint32 (ChecksumIEEE data)) b d with
          | (b, Some e, d) => (b, Some (stage "crc" +:+ e), d)
          | (b, None, d) => (b, None, d)
          end
      end
  end.
End bufio.

(** ** Appending *)

Definition set_seq (seq : Z) (w : WAL) : WAL :=
  mkWAL seq (w_bytes w) (w_writer w) (w_open w) (w_opts w).
Definition add_bytes (n : Z) (w : WAL) : WAL :=
  mkWAL (w_seq w) (w_bytes w + n) (w_writer w) (w_open w) (w_opts w).
Definition set_writer (b : Writer) (w : WAL) : WAL :=
  mkWAL (w_seq w) (w_bytes w) b (w_open w) (w_opts w).
Definition closed_wal (w : WAL) : WAL :=
  mkWAL (w_seq w) (w_bytes w) (w_writer w) false (w_opts w).

(** [w.writer.Flush()] and [w.file.Sync()]. *)
Definition flush_log (w : WAL) (d : Disk) : WAL * option error * Disk :=
  let '(b, err, d) := buf_flush (write_log (w_open w)) (w_writer w) d in
  (set_writer b w, err, d).
Definition file_Sync (w : WAL) (d : Disk) : option error * Disk :=
  if w_open w then sync_log d else (Some errClosed, d).

Definition Flush (w : WAL) (d : Disk) : WAL * option error * Disk :=
  let '(w, err, d) := flush_log w d in (w, String.append "wal: flush: " <$> err, d).

Definition Sync (w : WAL) (d : Disk) : WAL * option error * Disk :=
  match flush_log w d with
  | (w, Some e, d) => (w, Some ("wal: flush: " +:+ e), d)
  | (w, None, d) =>
      let '(err, d) := file_Sync w d in (w, String.append "wal: sync: " <$> err, d)
  end.

(** The zero time is 0; [now] is [time.Now()]. *)
Definition stamp (seq now : Z) (r : LoggedRecord) : LoggedRecord :=
  mkLogged seq (if lr_Timestamp r =? 0 then now else lr_Timestamp r) (lr_rec r).

Definition append_stage (part : string) : string := "wal: write " +:+ part +:+ ": ".

Definition Append (now : Z) (r : LoggedRecord) (w : WAL) (d : Disk)
    : WAL * option error * Disk :=
  let w := set_seq (w_seq w + 1) w in
  match rc_Marshal (stamp (w_seq w) now r) with
  | Err e => (set_seq (w_seq w - 1) w, Some ("wal: marshal: " +:+ e), d)
  | Ok data =>
      match walFrameLen (Z.of_nat (length data)) with
      | Err e => (set_seq (w_seq w - 1) w, Some e, d)
      | Ok _ =>
          match write_frame (write_log (w_open w)) append_stage data (w_writer w) d with
          | (b, Some e, d) => (set_writer b w, Some e, d)
          | (b, None, d) =>
              let w := add_bytes (Z.of_nat (walLenFieldLen + length data + walCRCLen))
                         (set_writer b w) in
              if SyncEveryWrite (w_opts w) then Sync w d else (w, None, d)
          end
      end
  end.

(** ** Opening, closing and replaying *)

(** [ReplayWAL] with a callback that never fails: the records it is called
    with and the error.  A read fault hides the bytes from its offset on. *)
Definition ReplayWAL (d : Disk) : list LoggedRecord * option error * Disk :=
  match dk_log d with
  | None => ([], None, tick d)
  | Some f =>
      match plain_call d with
      | (Some e, d) => ([], Some ("wal: open for replay: " +:+ e), d)
      | (None, d) =>
          match sys (dk_calls d) with
          | None => (records_of (fl_data f), None, tick d)
          | Some (k, e) =>
              let '(recs, at_len) := replay_bytes (take k (fl_data f)) in
              (recs, if at_len then Some ("wal: read len: " +:+ e) else None, tick d)
          end
      end
  end.

Definition max_seq (seq : Z) (r : LoggedRecord) : Z :=
  if seq <? lr_Seq r then lr_Seq r else seq.

Definition recoverSeq (w : WAL) (d : Disk) : WAL * option error * Disk :=
  match plain_call d with
  | (Some e, d) => (w, Some ("wal: stat: " +:+ e), d)
  | (None, d) =>
      let '(recs, err, d) := ReplayWAL d in
      (mkWAL (fold_left max_seq recs (w_seq w)) (Z.of_nat (length (log_data d))) (w_writer w)
         (w_open w) (w_opts w), err, d)
  end.

Definition Close (w : WAL) (d : Disk) : WAL * option error * Disk :=
  match flush_log w d with
  | (w, Some e, d) => (closed_wal w, Some ("wal: flush on close: " +:+ e), tick d)
  | (w, None, d) =>
      match file_Sync w d with
      | (Some e, d) => (closed_wal w, Some ("wal: sync on close: " +:+ e), tick d)
      | (None, d) => let '(err, d) := plain_call d in (closed_wal w, err, d)
      end
  end.

Definition open_options (o : WALOptions) : WALOptions :=
  mkWALOptions (if CompactionThreshold o <=? 0 then defaultWALCompactionThreshold
                else CompactionThreshold o) (SyncEveryWrite o).

Definition NewWAL (opts : WALOptions) (d : Disk) : result WAL * Disk :=
  match plain_call d with
  | (Some e, d) => (Err ("wal: create dir: " +:+ e), d)
  | (None, d) =>
      match plain_call d with
      | (Some e, d) => (Err ("wal: open: " +:+ e), d)
      | (None, d) =>
          let d := mkDisk (Some (default (mkFile [] 0) (dk_log d))) (dk_tmp d) (dk_calls d) in
          match recoverSeq (mkWAL 0 0 (mkWriter [] None) true (open_options opts)) d with
          | (w, Some e, d) => let '(_, _, d) := Close w d in (Err e, d)
          | (w, None, d) => (Ok w, d)
          end
      end
  end.

(** ** Compaction *)

(** The callback of [Compact]: fold a record into the merged snapshot. *)
Definition merge_record (merged : option LoggedRecord) (r : LoggedRecord)
    : option LoggedRecord :=
  let p := lr_rec r in
  match merged with
  | Some m =>
      if rec_IsDelta p then
        Some (mkLogged (lr_Seq r) (lr_Timestamp r)
          (mkRecord (rec_StepIndex p) (rec_StepName p) (rec_NodeName p) (rec_Data p)
             (rec_StepOutputs p ∪ rec_StepOutputs (lr_rec m))
             (rec_Variables p ∪ rec_Variables (lr_rec m)) (rec_IsDelta (lr_rec m))))
      else Some (mkLogged (lr_Seq r) (lr_Timestamp r)
          (mkRecord (rec_StepIndex p) (rec_StepName p) (rec_NodeName p) (rec_Data p)
             (rec_StepOutputs p) (rec_Variables p) false))
  | None => Some (mkLogged (lr_Seq r) (lr_Timestamp r)
          (mkRecord (rec_StepIndex p) (rec_StepName p) (rec_NodeName p) (rec_Data p)
             (rec_StepOutputs p) (rec_Variables p) false))
  end.
Definition merged_snapshot (recs : list LoggedRecord) : option LoggedRecord :=
  fold_left merge_record recs None.

Definition set_tmp (t : option File) (d : Disk) : Disk := mkDisk (dk_log d) t (dk_calls d).
Definition snap_stage (part : string) : string := "wal: compact write " +:+ part +:+ ": ".

(** The snapshot record, through its own buffer. *)
Definition write_snapshot (merged : option LoggedRecord) (d : Disk)
    : Writer * option error * Disk :=
  let b := mkWriter [] None in
  match merged with
  | None => (b, None, d)
  | Some m =>
      match rc_Marshal m with
      | Err e => (b, Some ("wal: compact marshal: " +:+ e), tick d)
      | Ok data =>
          match walFrameLen (Z.of_nat (length data)) with
          | Err e => (b, Some ("wal: compact: " +:+ e), tick d)
          | Ok _ => write_frame write_tmp snap_stage data b d
          end
      end
  end.

(** Flush, sync and close the snapshot file. *)
Definition seal_snapshot (b : Writer) (d : Disk) : option error * Disk :=
  match buf_flush write_tmp b d with
  | (_, Some e, d) => (Some ("wal: compact snap flush: " +:+ e), tick d)
  | (_, None, d) =>
      match plain_call d with
      | (Some e, d) => (Some ("wal: compact snap sync: " +:+ e), tick d)
      | (None, d) =>
          let d := set_tmp (file_sync <$> dk_tmp d) d in
          match plain_call d with
          | (Some e, d) => (Some ("wal: compact snap close: " +:+ e), d)
          | (None, d) => (None, d)
          end
      end
  end.

(** Rename the snapshot over the log and reopen it. *)
Definition install_snapshot (merged : option LoggedRecord) (w : WAL) (d : Disk)
    : WAL * option error * Disk :=
  match plain_call d with
  | (Some e, d) => (w, Some ("wal: compact rename: " +:+ e), d)
  | (None, d) =>
      let d := mkDisk (dk_tmp d) None (dk_calls d) in
      match plain_call d with
      | (Some e, d) => (w, Some ("wal: compact reopen: " +:+ e), d)
      | (None, d) =>
          (mkWAL (match merged with Some m => lr_Seq m | None => w_seq w end) 0
             (mkWriter [] None) true (w_opts w), None, d)
      end
  end.

(** From closing the write handle on. *)
Definition replace_log (merged : option LoggedRecord) (w : WAL) (d : Disk)
    : WAL * option error * Disk :=
  if negb (w_open w) then (w, Some ("wal: compact close: " +:+ errClosed), d) else
  match plain_call d with
  | (Some e, d) => (closed_wal w, Some ("wal: compact close: " +:+ e), d)
  | (None, d) =>
      let w := closed_wal w in
      match plain_call d with
      | (Some e, d) => (w, Some ("wal: compact create tmp: " +:+ e), d)
      | (None, d) =>
          match write_snapshot merged (set_tmp (Some (mkFile [] 0)) d) with
          | (_, Some e, d) => (w, Some e, d)
          | (b, None, d) =>
              match seal_snapshot b d with
              | (Some e, d) => (w, Some e, d)
              | (None, d) => install_snapshot merged w d
              end
          end
      end
  end.

Definition Compact (w : WAL) (d : Disk) : WAL * option error * Disk :=
  match flush_log w d with
  | (w, Some e, d) => (w, Some ("wal: compact flush: " +:+ e), d)
  | (w, None, d) =>
      match ReplayWAL d with
      | (_, Some e, d) => (w, Some ("wal: compact replay: " +:+ e), d)
      | (recs, None, d) => replace_log (merged_snapshot recs) w d
      end
  end.

Definition MaybeCompact (w : WAL) (d : Disk) : WAL * option error * Disk :=
  if CompactionThreshold (w_opts w) <=? w_bytes w then Compact w d else (w, None, d).
End wal.

(** ** Properties of the write-ahead log file

    What replay gives back from a whole log and from a torn one, what a
    crash can lose, that compaction keeps the state, and what reopening a
    torn log loses. *)

#[local] Opaque bufio_size.

(** ** Integers and checksums *)

Lemma byte_val_to_byte z : byte_val (to_byte z) = z mod 256.
Proof.
  unfold byte_val, to_byte. change 255 with (Z.ones 8). rewrite Z.land_ones by lia.
  change (2 ^ 8) with 256. pose proof (Z.mod_pos_bound z 256 ltac:(lia)).
  rewrite N_ascii_embedding; lia.
Qed.

Lemma testbit_above a n i : 0 <= a < 2 ^ n -> n <= i -> Z.testbit a i = false.
Proof.
  intros Ha Hi. destruct (decide (a = 0)) as [->|]; [apply Z.bits_0|].
  assert (0 < n) by (destruct (Z.le_gt_cases n 0); [|done];
    assert (2 ^ n <= 1) by (destruct (decide (n = 0)) as [->|]; [done|];
      rewrite Z.pow_neg_r; lia); lia).
  apply Z.bits_above_log2; [lia|]. apply Z.log2_lt_pow2; [lia|].
  apply Z.lt_le_trans with (2 ^ n); [lia|]. apply Z.pow_le_mono_r; lia.
Qed.

Lemma lor_shiftl_add a b n :
  0 <= n -> 0 <= a < 2 ^ n -> Z.lor a (Z.shiftl b n) = a + b * 2 ^ n.
Proof.
  intros Hn Ha. rewrite <- Z.shiftl_mul_pow2 by done.
  assert (Z.land a (Z.shiftl b n) = 0) as H0.
  { apply Z.bits_inj'. intros i Hi. rewrite Z.land_spec, Z.bits_0, Z.shiftl_spec by done.
    destruct (decide (i < n)).
    - rewrite (Z.testbit_neg_r b) by lia. apply andb_false_r.
    - rewrite (testbit_above a n) by lia. done. }
  rewrite (Z.add_nocarry_lxor _ _ H0). symmetry. by apply Z.lxor_lor.
Qed.

Lemma Uint32_PutUint32 v : 0 <= v < 2 ^ 32 -> Uint32 (PutUint32 v) = v.
Proof.
  intros Hv. unfold Uint32, PutUint32. rewrite !byte_val_to_byte, !Z.shiftr_div_pow2 by lia.
  assert (forall x, Z.shiftl x 24 = Z.shiftl (Z.shiftl x 8) 16) as ->
    by (intros; by rewrite Z.shiftl_shiftl).
  rewrite <- Z.shiftl_lor.
  assert (forall x, Z.shiftl x 16 = Z.shiftl (Z.shiftl x 8) 8) as ->
    by (intros; by rewrite Z.shiftl_shiftl).
  rewrite <- Z.shiftl_lor.
  assert (forall x, 0 <= x mod 256 < 2 ^ 8) as Hb by (intros; by apply Z.mod_pos_bound).
  rewrite !lor_shiftl_add by (auto || done).
  change (2 ^ 8) with 256. change (2 ^ 16) with 65536. change (2 ^ 24) with 16777216.
  change (2 ^ 32) with 4294967296 in Hv.
  Z.to_euclidean_division_equations. lia.
Qed.

(** Values of a [uint32]. *)
Definition u32 (z : Z) : Prop := 0 <= z < 2 ^ 32.

Lemma u32_lxor a b : u32 a -> u32 b -> u32 (Z.lxor a b).
Proof.
  unfold u32. intros Ha Hb.
  assert (0 <= Z.lxor a b) by (apply Z.lxor_nonneg; lia). split; [done|].
  assert (Z.lxor a b = Z.lxor a b mod 2 ^ 32) as ->; [|by apply Z.mod_pos_bound].
  apply Z.bits_inj'. intros i Hi. destruct (decide (i < 32)).
  - by rewrite Z.mod_pow2_bits_low.
  - rewrite Z.mod_pow2_bits_high, Z.lxor_spec by lia.
    by rewrite !(testbit_above _ 32) by (lia || done).
Qed.

Lemma u32_shiftr a : u32 a -> u32 (Z.shiftr a 1).
Proof.
  unfold u32. rewrite Z.shiftr_div_pow2 by lia. change (2 ^ 1) with 2.
  intros ?. split; Z.to_euclidean_division_equations; lia.
Qed.

Lemma u32_crc_bit c : u32 c -> u32 (crc_bit c).
Proof.
  intros Hc. unfold crc_bit. case_match; [|by apply u32_shiftr].
  apply u32_lxor; [by apply u32_shiftr|done].
Qed.

Lemma u32_crc_byte c b : u32 c -> u32 (crc_byte c b).
Proof.
  intros Hc. unfold crc_byte. assert (u32 (Z.lxor c (byte_val b))) as H.
  { apply u32_lxor; [done|]. unfold byte_val, u32. pose proof (N_ascii_bounded b). lia. }
  revert H. generalize (Z.lxor c (byte_val b)), 8%nat. intros z n Hz.
  induction n as [|n IH]; [done|]. cbn [Nat.iter]. by apply u32_crc_bit.
Qed.

Lemma u32_checksum data : u32 (ChecksumIEEE data).
Proof.
  unfold ChecksumIEEE. apply u32_lxor; [|done].
  assert (u32 0xFFFFFFFF) as H by done. revert H. generalize 0xFFFFFFFF.
  induction data as [|b data IH]; intros c Hc; [done|]. cbn [fold_left].
  by apply IH, u32_crc_byte.
Qed.

(** ** Frames *)

Lemma length_frame data : length (frame data) = (8 + length data)%nat.
Proof. unfold frame. rewrite !length_app. cbn. lia. Qed.

Lemma read_full_app n a b : length a = n -> read_full n (a ++ b) = Some (a, b).
Proof.
  intros <-. unfold read_full. rewrite decide_True by (rewrite length_app; lia).
  by rewrite take_app_length, drop_app_length.
Qed.

Lemma read_full_Some n b x y : read_full n b = Some (x, y) -> b = (x ++ y)%list /\ length x = n.
Proof.
  unfold read_full. case_decide; [|done]. intros [= <- <-]. split; [by rewrite take_drop|].
  rewrite length_take. lia.
Qed.

Lemma read_full_short n b : (length b < n)%nat -> read_full n b = None.
Proof. intros. unfold read_full. by rewrite decide_False by lia. Qed.

Section replay.
Context `{RecordCodec}.

(** More fuel than bytes changes nothing. *)
Lemma replay_fuel n : forall b fuel, (length b <= n)%nat -> (length b < fuel)%nat ->
  replay_loop fuel b = replay_bytes b.
Proof.
  induction n as [n IH] using lt_wf_ind. intros b fuel Hn Hf.
  destruct fuel as [|fuel]; [lia|]. unfold replay_bytes. cbn [replay_loop].
  destruct (read_full walLenFieldLen b) as [[l b1]|] eqn:E1; [|done].
  apply read_full_Some in E1 as [-> Hl]. unfold walLenFieldLen in Hl.
  rewrite length_app in *. case_match; [done|].
  destruct (read_full (Z.to_nat _) b1) as [[data b2]|] eqn:E2; [|done].
  apply read_full_Some in E2 as [-> Hd]. rewrite length_app in *.
  destruct (read_full walCRCLen b2) as [[crc b3]|] eqn:E3; [|done].
  apply read_full_Some in E3 as [-> Hc]. rewrite length_app in *.
  case_match; [done|]. case_match; [|done].
  rewrite !(IH (length b3) ltac:(lia) b3) by lia. done.
Qed.

(** A record that replay reads back from its frame. *)
Definition readable (r : LoggedRecord) (data : bytes) : Prop :=
  rc_Unmarshal data = Some r /\ data <> [] /\ Z.of_nat (length data) <= walMaxRecordSize.

Lemma readable_len r data : readable r data ->
  Uint32 (PutUint32 (Z.of_nat (length data))) = Z.of_nat (length data).
Proof.
  intros (_ & _ & Hl). apply Uint32_PutUint32. unfold walMaxRecordSize in Hl. lia.
Qed.

Lemma readable_bound r data : readable r data ->
  (Z.of_nat (length data) =? 0) || (walMaxRecordSize <? Z.of_nat (length data)) = false.
Proof.
  intros (_ & Hne & Hl). destruct data; [done|]. cbn [length].
  apply orb_false_intro; [apply Z.eqb_neq; lia|]. apply Z.ltb_ge. exact Hl.
Qed.

Lemma replay_frame r data b : readable r data ->
  replay_bytes (frame data ++ b) = (r :: (replay_bytes b).1, (replay_bytes b).2).
Proof.
  intros Hr. pose proof (readable_len _ _ Hr) as Hlen. pose proof (readable_bound _ _ Hr) as Hb.
  destruct Hr as (Hu & Hne & Hl). unfold replay_bytes at 1. cbn [replay_loop].
  unfold frame. rewrite <- !app_assoc, read_full_app by done. rewrite Hlen, Hb.
  rewrite Nat2Z.id, read_full_app by done. rewrite read_full_app by done.
  rewrite Uint32_PutUint32 by apply u32_checksum. rewrite Z.eqb_refl. cbn [negb]. rewrite Hu.
  rewrite (replay_fuel (length b)); [by destruct (replay_bytes b)|done|].
  rewrite !length_app. lia.
Qed.

(** The bytes of a log. *)
Definition log_bytes (datas : list bytes) : bytes := concat (map frame datas).

Lemma log_bytes_snoc datas data : log_bytes (datas ++ [data]) = (log_bytes datas ++ frame data)%list.
Proof. unfold log_bytes. rewrite map_app, concat_app. cbn. by rewrite app_nil_r. Qed.

Lemma replay_log rs datas b : Forall2 readable rs datas ->
  records_of (log_bytes datas ++ b) = (rs ++ records_of b)%list.
Proof.
  unfold records_of. induction 1 as [|r data rs datas Hr _ IH]; [done|].
  unfold log_bytes in *. cbn [map concat]. rewrite <- app_assoc, (replay_frame r) by done.
  cbn [fst app]. f_equal. exact IH.
Qed.

(** A torn frame holds no record. *)
Lemma replay_torn r data t u : readable r data -> u <> [] -> frame data = (t ++ u)%list ->
  records_of t = [].
Proof.
  intros Hr Hu Hf. assert (length t < 8 + length data)%nat as Hlt.
  { rewrite <- length_frame, Hf, length_app. destruct u; [done|]. cbn. lia. }
  unfold records_of, replay_bytes. cbn [replay_loop].
  destruct (decide (length t < 4)%nat).
  { by rewrite read_full_short. }
  assert (exists t', t = (PutUint32 (Z.of_nat (length data)) ++ t')%list) as [t' ->].
  { exists (drop 4 t). rewrite <- (take_drop 4 t) at 1. f_equal.
    assert (take 4 (frame data) = take 4 (t ++ u)) as Ht by (by rewrite Hf).
    rewrite take_app_le in Ht by lia. by rewrite <- Ht. }
  rewrite length_app in Hlt. cbn [length PutUint32] in Hlt.
  rewrite read_full_app by done. rewrite (readable_len _ _ Hr), (readable_bound _ _ Hr).
  rewrite Nat2Z.id. destruct (read_full (length data) t') as [[x y]|] eqn:E; [|done].
  apply read_full_Some in E as [-> Hx]. rewrite length_app in Hlt.
  by rewrite read_full_short by (unfold walCRCLen; lia).
Qed.

(** A prefix of a log holds a prefix of its records, and every record whose
    frame is whole. *)
Lemma replay_prefix rs datas p : Forall2 readable rs datas -> p `prefix_of` log_bytes datas ->
  exists k, records_of p = take k rs /\
    forall j, (j <= length datas)%nat -> log_bytes (take j datas) `prefix_of` p -> (j <= k)%nat.
Proof.
  intros HF. revert p. induction HF as [|r data rs datas Hr HF IH]; intros p Hp.
  { apply prefix_nil_inv in Hp as ->. exists 0%nat. split; [done|]. cbn. lia. }
  change (log_bytes (data :: datas)) with (frame data ++ log_bytes datas)%list in Hp.
  destruct (prefix_weak_total p (frame data) _ Hp ltac:(by exists (log_bytes datas)))
    as [[u Hu]|[p' ->]].
  - destruct (decide (u = [])) as [->|Hne].
    { exists 1%nat. rewrite app_nil_r in Hu. subst p. split.
      - rewrite <- (app_nil_r (frame data)). unfold records_of. by rewrite (replay_frame r).
      - intros [|[|j]] Hj Hp'; [lia..|]. exfalso. apply prefix_length in Hp'.
        destruct datas as [|d datas]; [cbn in Hj; lia|].
        cbn [take] in Hp'. unfold log_bytes in Hp'. cbn [map concat] in Hp'.
        rewrite !length_app, length_frame, (length_frame d) in Hp'. lia. }
    exists 0%nat. split; [by eapply replay_torn|]. intros [|j] _ Hp'; [lia|]. exfalso.
    apply prefix_length in Hp'. cbn [take] in Hp'. unfold log_bytes in Hp'.
    cbn [map concat] in Hp'. rewrite length_app, Hu, length_app in Hp'.
    destruct u; [done|]. cbn [length] in Hp'. lia.
  - apply prefix_app_inv in Hp. destruct (IH p' Hp) as (k & Hk & Hj). exists (S k). split.
    + unfold records_of in *. rewrite (replay_frame r) by done. cbn [fst take]. f_equal.
      exact Hk.
    + intros [|j] Hle Hp'; [lia|]. cbn [take] in Hp'.
      change (log_bytes (data :: take j datas)) with (frame data ++ log_bytes (take j datas))%list
        in Hp'. apply prefix_app_inv in Hp'. cbn in Hle. specialize (Hj j ltac:(lia) Hp'). lia.
Qed.
End replay.

(** ** The buffered writer *)

Lemma take_min_length {A} k (l : list A) : take (Nat.min k (length l)) l = take k l.
Proof.
  destruct (Nat.min_spec k (length l)) as [[_ ->]|[? ->]]; [done|].
  by rewrite firstn_all, take_ge.
Qed.

(** A buffered writer over [wr] for the file whose contents are [cur]; a
    write leaves [keep] alone. *)
Section bufio.
Context {X : Type} (wr : bytes -> Disk -> nat * option error * Disk).
Context (cur : Disk -> bytes) (keep : Disk -> X).

(** A write appends a prefix of its argument, all of it when it reports no
    error. *)
Definition write_spec : Prop := forall p d k err d', wr p d = (k, err, d') ->
  cur d' = (cur d ++ take k p)%list /\ (k <= length p)%nat /\
  (err = None -> k = length p) /\ keep d' = keep d.
Context (wr_ok : write_spec).

(** [hist] is everything handed to the writer: until an error sticks, the
    file followed by the buffer; in any case the file is a prefix of it. *)
Record stream_inv (hist : bytes) (b : Writer) (d : Disk) : Prop := {
  st_exact : bw_err b = None -> (cur d ++ bw_buf b)%list = hist;
  st_prefix : cur d `prefix_of` hist
}.

Lemma buf_flush_inv hist b d b' err d' :
  buf_flush wr b d = (b', err, d') -> stream_inv hist b d ->
  stream_inv hist b' d' /\ err = bw_err b' /\ keep d' = keep d /\
  (err = None -> bw_buf b' = []).
Proof using wr_ok.
  unfold buf_flush. intros Hf Hinv. pose proof Hinv as [Hex Hpre].
  destruct (bw_err b) as [e|] eqn:Ee; [simplify_eq; by rewrite Ee|].
  case_decide as Hb; [simplify_eq; by rewrite Ee|].
  destruct (wr (bw_buf b) d) as [[k er] d1] eqn:Ew.
  apply wr_ok in Ew as (Hd & Hk & Hall & Hs). specialize (Hex eq_refl).
  destruct er as [e|]; simplify_eq; cbn.
  - split_and!; try done. split; [done|]. rewrite Hd. apply list.prefix_app.
    exists (drop k (bw_buf b)). by rewrite take_drop.
  - rewrite Hall, firstn_all in Hd by done. split_and!; try done. split; cbn.
    + intros _. by rewrite app_nil_r, Hd.
    + by rewrite Hd.
Qed.

Lemma direct_write_inv hist p d b' err d' :
  direct_write wr p d = (b', err, d') -> cur d = hist ->
  stream_inv (hist ++ p) b' d' /\ err = bw_err b' /\ keep d' = keep d.
Proof using wr_ok.
  unfold direct_write. destruct (wr p d) as [[k er] d1] eqn:Ew.
  apply wr_ok in Ew as (Hd & Hk & Hall & Hs). intros [= <- <- <-] Hh. cbn.
  split_and!; try done. split; cbn.
  - intros ->. by rewrite app_nil_r, Hd, Hall, firstn_all, Hh.
  - rewrite Hd, Hh. apply list.prefix_app. exists (drop k p). by rewrite take_drop.
Qed.

Lemma stream_inv_weaken hist p b d :
  stream_inv hist b d -> bw_err b <> None -> stream_inv (hist ++ p) b d.
Proof. intros [Hex Hpre] Hne. split; [done|]. by apply prefix_app_r. Qed.

Lemma buf_write_inv hist p b d b' err d' :
  buf_write wr p b d = (b', err, d') -> stream_inv hist b d ->
  stream_inv (hist ++ p) b' d' /\ err = bw_err b' /\ keep d' = keep d.
Proof using wr_ok.
  unfold buf_write. intros Hw Hinv. destruct (bw_err b) as [e|] eqn:Ee.
  { simplify_eq. rewrite Ee. split_and!; try done. apply stream_inv_weaken; [done|congruence]. }
  destruct (st_exact _ _ _ Hinv Ee).
  case_decide as Hfit.
  { simplify_eq. split_and!; try done. split; cbn; rewrite ?app_assoc; [done|].
    rewrite <- app_assoc. by apply prefix_app_r. }
  case_decide as Hb.
  { rewrite Hb, app_nil_r. by apply direct_write_inv. }
  set (avail := (bufio_size - length (bw_buf b))%nat) in *.
  destruct (buf_flush _ _ _) as [[b1 er] d1] eqn:Ef.
  apply (buf_flush_inv ((cur d ++ bw_buf b) ++ take avail p)) in Ef
    as (Hinv1 & -> & Hs & Hnil).
  2:{ split; cbn; [by rewrite app_assoc|]. rewrite <- app_assoc. by apply prefix_app_r. }
  assert (((cur d ++ bw_buf b) ++ p)%list
    = (((cur d ++ bw_buf b) ++ take avail p) ++ drop avail p)%list) as ->
    by (by rewrite <- (app_assoc _ (take _ _)), take_drop).
  destruct (bw_err b1) as [e|] eqn:E1.
  { simplify_eq. rewrite E1. split_and!; try done. apply stream_inv_weaken; [done|congruence]. }
  pose proof (st_exact _ _ _ Hinv1 E1) as Hx. rewrite Hnil, app_nil_r in Hx by done.
  case_decide as Hd.
  - simplify_eq. split_and!; try done. split; cbn; rewrite Hx; [done|]. by apply prefix_app_r.
  - apply (direct_write_inv _ _ _ _ _ _ Hw) in Hx as (? & ? & ?). split_and!; try done.
    congruence.
Qed.

Lemma write_frame_inv stage hist data b d b' err d' :
  write_frame wr stage data b d = (b', err, d') -> stream_inv hist b d ->
  stream_inv (hist ++ frame data) b' d' /\ (err = None <-> bw_err b' = None) /\
  keep d' = keep d.
Proof using wr_ok.
  unfold write_frame, frame. rewrite !app_assoc. intros Hw Hinv.
  destruct (buf_write _ (PutUint32 (Z.of_nat _)) b d) as [[b1 e1] d1] eqn:E1.
  apply (buf_write_inv hist) in E1 as (H1 & -> & S1); [|done].
  destruct (bw_err b1) as [e|] eqn:Eb1.
  { simplify_eq. rewrite Eb1. split_and!; try done. rewrite <- app_assoc.
    apply stream_inv_weaken; [done|congruence]. }
  destruct (buf_write _ data b1 d1) as [[b2 e2] d2] eqn:E2.
  eapply buf_write_inv in E2 as (H2 & -> & S2); [|exact H1].
  destruct (bw_err b2) as [e|] eqn:Eb2.
  { simplify_eq. rewrite Eb2. split_and!; try done; [|congruence].
    apply stream_inv_weaken; [done|congruence]. }
  destruct (buf_write _ (PutUint32 (ChecksumIEEE data)) b2 d2) as [[b3 e3] d3] eqn:E3.
  eapply buf_write_inv in E3 as (H3 & -> & S3); [|exact H2].
  destruct (bw_err b3) eqn:Eb3; simplify_eq; rewrite Eb3; split_and!; try done; congruence.
Qed.
(** The file only grows. *)
Lemma wr_grows p d k err d' : wr p d = (k, err, d') -> cur d `prefix_of` cur d'.
Proof using wr_ok. intros (-> & _)%wr_ok. by eexists. Qed.

Lemma buf_flush_grows b d b' err d' : buf_flush wr b d = (b', err, d') -> cur d `prefix_of` cur d'.
Proof using wr_ok.
  unfold buf_flush. intros. repeat case_match; simplify_eq; try done; by eapply wr_grows.
Qed.

Lemma buf_write_grows p b d b' err d' :
  buf_write wr p b d = (b', err, d') -> cur d `prefix_of` cur d'.
Proof using wr_ok.
  unfold buf_write, direct_write. intros.
  repeat case_match; simplify_eq; try done; try (by eapply wr_grows);
    try (by eapply buf_flush_grows).
  etrans; [by eapply buf_flush_grows|by eapply wr_grows].
Qed.

Lemma write_frame_grows stage data b d b' err d' :
  write_frame wr stage data b d = (b', err, d') -> cur d `prefix_of` cur d'.
Proof using wr_ok.
  unfold write_frame. intros. repeat case_match; simplify_eq;
    repeat match goal with E : buf_write _ _ _ _ = _ |- _ => apply buf_write_grows in E end;
    repeat (etrans; [eassumption|]); done.
Qed.
End bufio.
