(* ===== verification/WalDurability.v ===== *)
(** * Durability of the write-ahead log

    A log opened clean and driven by appends, flushes and syncs under any
    faults; compaction; reopening after a crash. *)

From S2P Require Import Prelude GoStrings WorkflowTypes ExprEngine WalState WalFile.
From Stdlib Require Import Ascii.

#[local] Open Scope string_scope.
#[local] Open Scope Z_scope.
#[local] Opaque bufio_size.

Definition synced (d : Disk) : nat := match dk_log d with Some f => fl_synced f | None => 0 end.

(** What can be found on the disk after a crash. *)
Definition crash_image (d : Disk) (img : bytes) : Prop :=
  take (synced d) (log_data d) `prefix_of` img /\ img `prefix_of` log_data d.

Section durable.
Context `{HC : RecordCodec, HL : !RecordCodecLaws}.
Context (sys : nat -> option (nat * error)).

Lemma write_log_ok o : write_spec (write_log sys o) log_data synced.
Proof.
  intros p d k err d'. unfold write_log, log_data, synced. destruct o.
  - destruct (sys (dk_calls d)) as [[k' e]|]; intros [= <- <- <-]; cbn.
    + rewrite take_min_length. destruct (dk_log d); cbn; split_and!; (done || lia).
    + rewrite firstn_all. by destruct (dk_log d).
  - intros [= <- <- <-]. cbn. rewrite app_nil_r. split_and!; try done. lia.
Qed.

Abbreviation log_inv := (stream_inv log_data).

Lemma flush_log_inv hist w d w' err d' :
  flush_log sys w d = (w', err, d') -> log_inv hist (w_writer w) d ->
  log_inv hist (w_writer w') d' /\ synced d' = synced d /\
  w_opts w' = w_opts w /\ w_open w' = w_open w /\ w_seq w' = w_seq w /\
  (err = None -> log_data d' = hist /\ bw_buf (w_writer w') = [] /\ bw_err (w_writer w') = None).
Proof.
  unfold flush_log. destruct (buf_flush _ _ _) as [[b e] d1] eqn:Ef. intros [= <- <- <-] Hinv.
  eapply buf_flush_inv in Ef as (Hi & -> & Hs & Hnil); [|apply write_log_ok|done]. cbn.
  split_and!; try done. intros He. split; [|auto].
  pose proof (st_exact _ _ _ _ Hi He) as Hx. by rewrite Hnil, app_nil_r in Hx.
Qed.

Lemma sync_log_spec d err d' : sync_log sys d = (err, d') ->
  log_data d' = log_data d /\ (synced d' = synced d \/ synced d' = length (log_data d)) /\
  (err = None -> synced d' = length (log_data d)).
Proof.
  unfold sync_log, log_data, synced. destruct d as [[f|] t c]; cbn [dk_log dk_calls];
    destruct (sys c) as [[k e]|]; intros [= <- <-]; cbn;
    split_and!; first [done|by left|by right].
Qed.

Lemma Sync_inv hist w d w' err d' :
  Sync sys w d = (w', err, d') -> log_inv hist (w_writer w) d ->
  (synced d <= length (log_data d))%nat -> 
  log_inv hist (w_writer w') d' /\ (synced d <= synced d' <= length (log_data d'))%nat /\
  w_opts w' = w_opts w /\ (err = None -> synced d' = length hist).
Proof.
  unfold Sync. intros HS Hinv Hle. destruct (flush_log sys w d) as [[w1 e1] d1] eqn:Ef.
  assert (length (log_data d) <= length (log_data d1))%nat as Hmono.
  { unfold flush_log in Ef. destruct (buf_flush _ _ _) as [[b e] d2] eqn:Eb.
    injection Ef as <- <- <-. eapply prefix_length, buf_flush_grows; [apply write_log_ok|done]. }
  eapply flush_log_inv in Ef as (Hi & Hs & Ho & Hop & _ & Hok); [|done].
  destruct e1 as [e|]; [simplify_eq; rewrite Hs, Ho; split_and!; (done || lia)|].
  destruct (Hok eq_refl) as (Hd & Hnil & Herr). unfold file_Sync in HS. rewrite Hop in HS.
  destruct (w_open w).
  - destruct (sync_log sys d1) as [er d2] eqn:Es. simplify_eq.
    apply sync_log_spec in Es as (Hd2 & Hs2 & Hn2). split_and!; try done.
    + split; rewrite Hd2; [by intros _; rewrite Hnil, app_nil_r|done].
    + destruct Hs2 as [->| ->]; lia.
    + destruct Hs2 as [->| ->]; rewrite Hd2; lia.
    + intros He. apply Hn2. by destruct er.
  - simplify_eq. split_and!; try done; lia.
Qed.

(** ** Runs of the log *)

Inductive wal_op :=
  | OpAppend (now : Z) (r : LoggedRecord)
  | OpFlush
  | OpSync.

(** A run with the records that were handed to the writer and the number of
    those that an operation has reported durable. *)
Record wal_run := mkRun {
  rn_wal : WAL;
  rn_disk : Disk;
  rn_records : list LoggedRecord;
  rn_acked : nat
}.

(** The record [Append] encodes, when it can be encoded. *)
Definition appended (now : Z) (r : LoggedRecord) (w : WAL) : list (LoggedRecord * bytes) :=
  let r := stamp (w_seq w + 1) now r in
  match rc_Marshal r with
  | Ok data => match walFrameLen (Z.of_nat (length data)) with Ok _ => [(r, data)] | Err _ => [] end
  | Err _ => []
  end.

Definition wal_step (s : wal_run) (o : wal_op) : wal_run :=
  match o with
  | OpAppend now r =>
      let '(w, err, d) := Append sys now r (rn_wal s) (rn_disk s) in
      let rs := (rn_records s ++ map fst (appended now r (rn_wal s)))%list in
      mkRun w d rs (if bool_decide (err = None) && SyncEveryWrite (w_opts w) then length rs
                    else rn_acked s)
  | OpFlush =>
      let '(w, _, d) := Flush sys (rn_wal s) (rn_disk s) in
      mkRun w d (rn_records s) (rn_acked s)
  | OpSync =>
      let '(w, err, d) := Sync sys (rn_wal s) (rn_disk s) in
      mkRun w d (rn_records s)
        (if bool_decide (err = None) then length (rn_records s) else rn_acked s)
  end.

Definition wal_ops (ops : list wal_op) (s : wal_run) : wal_run := fold_left wal_step ops s.

(** A record that survives encoding and stays under the size that replay
    accepts. *)
Definition loggable (r : LoggedRecord) : Prop :=
  rc_storable r /\ forall data, rc_Marshal r = Ok data -> Z.of_nat (length data) <= walMaxRecordSize.

Lemma loggable_readable r data : loggable r -> rc_Marshal r = Ok data -> readable r data.
Proof using HL. intros [Hs Hl] Hm. split_and!; [by eapply rc_roundtrip|by eapply rc_nonempty|auto]. Qed.

Record run_inv (datas : list bytes) (s : wal_run) : Prop := {
  ri_read : Forall2 readable (rn_records s) datas;
  ri_stream : log_inv (log_bytes datas) (w_writer (rn_wal s)) (rn_disk s);
  ri_acked : (rn_acked s <= length datas)%nat;
  ri_synced : (length (log_bytes (take (rn_acked s) datas)) <= synced (rn_disk s))%nat;
  ri_bound : (synced (rn_disk s) <= length (log_data (rn_disk s)))%nat
}.

Lemma log_bytes_prefix j datas : log_bytes (take j datas) `prefix_of` log_bytes datas.
Proof.
  unfold log_bytes. rewrite <- (take_drop j datas) at 2. rewrite map_app, concat_app.
  by eexists.
Qed.

(** ** Every crash image *)

Lemma run_inv_crash datas s img :
  run_inv datas s -> crash_image (rn_disk s) img ->
  exists k, records_of img = take k (rn_records s) /\ (rn_acked s <= k)%nat.
Proof.
  intros [] [Hlo Hhi].
  assert (log_data (rn_disk s) `prefix_of` log_bytes datas) as Hp by apply ri_stream0.
  destruct (replay_prefix _ _ img ri_read0) as (k & Hk & Hj); [by etrans|].
  exists k. split_done. apply Hj; [done|]. etrans; [|exact Hlo].
  destruct (prefix_weak_total (log_bytes (take (rn_acked s) datas))
    (take (synced (rn_disk s)) (log_data (rn_disk s))) (log_bytes datas)) as [?|Hpre]; [..|done|].
  - apply log_bytes_prefix.
  - etrans; [|exact Hp]. eexists. by rewrite take_drop.
  - apply prefix_length in Hpre as Hl. rewrite length_take in Hl.
    assert (take (synced (rn_disk s)) (log_data (rn_disk s))
      = log_bytes (take (rn_acked s) datas)) as ->; [|done].
    symmetry. apply prefix_length_eq in Hpre; [done|]. rewrite length_take. lia.
Qed.

(** A frame has been handed to the writer. *)
Lemma frame_inv datas r data s b err d :
  run_inv datas s -> readable r data ->
  write_frame (write_log sys (w_open (rn_wal s))) append_stage data (w_writer (rn_wal s))
    (rn_disk s) = (b, err, d) ->
  Forall2 readable (rn_records s ++ [r]) (datas ++ [data]) /\
  log_inv (log_bytes (datas ++ [data])) b d /\ synced d = synced (rn_disk s) /\
  (synced d <= length (log_data d))%nat /\
  (length (log_bytes (take (rn_acked s) (datas ++ [data]))) <= synced d)%nat.
Proof.
  intros [] Hr Hw. pose proof (write_frame_grows _ _ _ (write_log_ok _) _ _ _ _ _ _ _ Hw) as Hg.
  eapply write_frame_inv in Hw as (Hi & _ & Hs); [|apply write_log_ok|done].
  apply prefix_length in Hg. rewrite log_bytes_snoc. split_and!; try done.
  - by apply Forall2_app; [|constructor].
  - lia.
  - rewrite take_app_le by done. lia.
Qed.

Lemma wal_step_appended s now r :
  rn_records (wal_step s (OpAppend now r))
  = (rn_records s ++ map fst (appended now r (rn_wal s)))%list.
Proof. cbn. by destruct (Append _ _ _ _ _) as [[??]?]. Qed.

Lemma OpAppend_inv datas s now r :
  run_inv datas s -> Forall loggable (rn_records (wal_step s (OpAppend now r))) ->
  exists datas', run_inv datas' (wal_step s (OpAppend now r)).
Proof using HL.
  rewrite wal_step_appended. intros Hinv Hlog. pose proof Hinv as []. cbn [wal_step].
  revert Hlog. unfold Append, appended. cbn [set_seq w_seq].
  destruct (rc_Marshal _) as [data|e] eqn:Em.
  2:{ intros _. exists datas. cbn. rewrite app_nil_r. by split. }
  destruct (walFrameLen _) as [n|e].
  2:{ intros _. exists datas. cbn. rewrite app_nil_r. by split. }
  cbn [map fst set_seq w_open w_writer w_opts]. set (r' := stamp _ now r) in *.
  rewrite Forall_app, Forall_singleton. intros [_ Hlog].
  assert (readable r' data) as Hrd by (by apply loggable_readable).
  destruct (write_frame _ _ _ _ _) as [[b err] d] eqn:Ew.
  eapply frame_inv in Ew as (HF & Hi & Hs & Hb & Ha); [|done..]. exists (datas ++ [data])%list.
  assert (rn_acked s <= length (datas ++ [data]))%nat by (rewrite length_app; lia).
  destruct err as [e|]; [cbn; by split|].
  set (w2 := add_bytes _ _). change (w_opts w2) with (w_opts (rn_wal s)).
  destruct (SyncEveryWrite (w_opts (rn_wal s))) eqn:ES.
  2:{ change (w_opts w2) with (w_opts (rn_wal s)). rewrite ES, andb_false_r. by split. }
  destruct (Sync _ _ _) as [[w3 e2] d2] eqn:Esy.
  eapply Sync_inv in Esy as (Hi2 & Hb2 & Ho & Hn); [|exact Hi|exact Hb].
  pose proof (Forall2_length _ _ _ HF) as Hlen.
  rewrite Ho. change (w_opts w2) with (w_opts (rn_wal s)). rewrite ES. case_bool_decide as He; cbn [andb].
  - split; cbn [rn_records rn_wal rn_disk rn_acked]; try done; try lia.
    rewrite Hlen, firstn_all, Hn by done. done.
  - split; cbn [rn_records rn_wal rn_disk rn_acked]; try done; lia.
Qed.

Lemma OpSync_inv datas s : run_inv datas s -> run_inv datas (wal_step s OpSync).
Proof.
  intros []. cbn [wal_step]. destruct (Sync _ _ _) as [[w e] d] eqn:Es.
  eapply Sync_inv in Es as (Hi & Hb & _ & Hn); [|done..].
  pose proof (Forall2_length _ _ _ ri_read0) as Hlen.
  case_bool_decide as He; split; cbn [rn_records rn_wal rn_disk rn_acked]; try done; try lia.
  rewrite Hlen, firstn_all, Hn by done. done.
Qed.

Lemma OpFlush_inv datas s : run_inv datas s -> run_inv datas (wal_step s OpFlush).
Proof.
  intros []. cbn [wal_step]. unfold Flush. destruct (flush_log _ _ _) as [[w e] d] eqn:Ef.
  assert (length (log_data (rn_disk s)) <= length (log_data d))%nat.
  { unfold flush_log in Ef. destruct (buf_flush _ _ _) as [[b e2] d2] eqn:Eb.
    injection Ef as <- <- <-. eapply prefix_length, buf_flush_grows; [apply write_log_ok|done]. }
  eapply flush_log_inv in Ef as (Hi & Hs & _); [|done].
  split; cbn [rn_records rn_wal rn_disk rn_acked]; try done; lia.
Qed.

(** Records are only added. *)
Lemma wal_step_records s o : rn_records s `prefix_of` rn_records (wal_step s o).
Proof.
  destruct o as [now r| |]; cbn.
  - destruct (Append _ _ _ _ _) as [[??]?]. cbn. by eexists.
  - by destruct (Flush _ _ _) as [[??]?].
  - by destruct (Sync _ _ _) as [[??]?].
Qed.

Lemma wal_ops_records ops : forall s, rn_records s `prefix_of` rn_records (wal_ops ops s).
Proof.
  induction ops as [|o ops IH]; intros s; [done|]. cbn. etrans; [apply (wal_step_records s o)|].
  apply IH.
Qed.

Lemma wal_ops_inv ops : forall datas s,
  run_inv datas s -> Forall loggable (rn_records (wal_ops ops s)) ->
  exists datas', run_inv datas' (wal_ops ops s).
Proof using HL.
  induction ops as [|o ops IH]; intros datas s Hinv Hlog; [by exists datas|].
  cbn [wal_ops fold_left] in *.
  assert (exists datas', run_inv datas' (wal_step s o)) as (datas' & Hinv').
  { destruct o as [now r| |].
    - apply (OpAppend_inv datas); [done|].
      destruct (wal_ops_records ops (wal_step s (OpAppend now r))) as [l Hl].
      unfold wal_ops in Hl. rewrite Hl in Hlog. by apply Forall_app in Hlog as [? _].
    - exists datas. by apply OpFlush_inv.
    - exists datas. by apply OpSync_inv. }
  by apply (IH datas').
Qed.

(** ** Opening a clean log *)

(** A log that holds the records [rs] and nothing else, all of it durable. *)
Definition clean_log (rs : list LoggedRecord) (d : Disk) : Prop :=
  exists datas, Forall2 readable rs datas /\ log_data d = log_bytes datas /\
    synced d = length (log_data d).

Lemma plain_call_disk d err d' : plain_call sys d = (err, d') ->
  dk_log d' = dk_log d /\ dk_tmp d' = dk_tmp d.
Proof. unfold plain_call. by intros [= <- <-]. Qed.

Lemma ReplayWAL_disk d recs err d' : ReplayWAL sys d = (recs, err, d') ->
  dk_log d' = dk_log d /\ dk_tmp d' = dk_tmp d.
Proof. unfold ReplayWAL, plain_call. intros. repeat case_match; by simplify_eq. Qed.

Lemma recoverSeq_spec w d w' err d' : recoverSeq sys w d = (w', err, d') ->
  dk_log d' = dk_log d /\ w_writer w' = w_writer w /\ w_open w' = w_open w /\ w_opts w' = w_opts w.
Proof.
  unfold recoverSeq. destruct (plain_call sys d) as [e1 d1] eqn:E1.
  apply plain_call_disk in E1 as [H1 _]. destruct e1; [intros [= <- <- <-]; auto|].
  destruct (ReplayWAL sys d1) as [[recs e2] d2] eqn:E2. apply ReplayWAL_disk in E2 as [H2 _].
  intros [= <- <- <-]. cbn. rewrite H2. auto.
Qed.

Lemma NewWAL_spec opts d w d' : NewWAL sys opts d = (Ok w, d') ->
  log_data d' = log_data d /\ synced d' = synced d /\ w_writer w = mkWriter [] None /\
  w_open w = true /\ w_opts w = open_options opts.
Proof.
  unfold NewWAL. destruct (plain_call sys d) as [e1 d1] eqn:E1.
  apply plain_call_disk in E1 as [H1 _]. destruct e1; [done|].
  destruct (plain_call sys d1) as [e2 d2] eqn:E2.
  apply plain_call_disk in E2 as [H2 _]. destruct e2; [done|].
  destruct (recoverSeq sys _ _) as [[w1 e3] d3] eqn:E3.
  apply recoverSeq_spec in E3 as (H3 & Hw & Ho & Hop).
  destruct e3; [by destruct (Close _ _ _) as [[??]?]|]. intros [= <- <-].
  unfold log_data, synced. rewrite H3. cbn. rewrite H2, H1.
  destruct (dk_log d); split_and!; done.
Qed.

Lemma opened_inv opts rs d w d' : clean_log rs d -> NewWAL sys opts d = (Ok w, d') ->
  exists datas, run_inv datas (mkRun w d' rs (length rs)).
Proof.
  intros (datas & HF & Hd & Hs) (Hd' & Hs' & Hw & _)%NewWAL_spec. exists datas.
  pose proof (Forall2_length _ _ _ HF) as Hl.
  split; cbn [rn_records rn_wal rn_disk rn_acked]; rewrite ?Hl, ?firstn_all, ?Hw; try done.
  - split; cbn [bw_buf]; rewrite Hd', ?app_nil_r, Hd; done.
  - rewrite Hs', Hs, Hd. done.
  - rewrite Hs', Hs, Hd'. done.
Qed.

(** C11: whatever faults the file system has and wherever the process or the
    machine crashes, a log that was opened clean replays a prefix of the
    records that were handed to it, in order, and no record is lost once an
    [Append] that syncs, or a [Sync], has reported success after it. *)
Theorem wal_file_durable opts rs d w d' ops img :
  clean_log rs d -> NewWAL sys opts d = (Ok w, d') ->
  let s := wal_ops ops (mkRun w d' rs (length rs)) in
  Forall loggable (rn_records s) -> crash_image (rn_disk s) img ->
  exists k, records_of img = take k (rn_records s) /\ (rn_acked s <= k)%nat.
Proof using HL.
  intros Hc Hn s Hl Hi. destruct (opened_inv _ _ _ _ _ Hc Hn) as (datas & Hinv).
  destruct (wal_ops_inv ops _ _ Hinv Hl) as (datas' & Hinv'). by eapply run_inv_crash.
Qed.
End durable.
