(* ===== verification/WalCompaction.v ===== *)
(** * Compaction and reopening of the write-ahead log

    Compaction replaces the log by one snapshot and does not change the state
    that recovery finds, whichever system call fails, but for one: when reading
    the log for the snapshot breaks off, the records behind the fault are
    dropped, and no error is reported.  Reopening a log whose
    last record was torn by a crash appends after the torn bytes. *)

From S2P Require Import Prelude GoStrings WorkflowTypes ExprEngine WalState WalFile.
From S2P Require Import WalDurability.
From Stdlib Require Import Ascii.

#[local] Open Scope string_scope.
#[local] Open Scope Z_scope.
#[local] Opaque bufio_size.

(** ** Merging records *)

Lemma fold_snoc {A B} (f : A -> B -> A) l x a :
  fold_left f (l ++ [x]) a = f (fold_left f l a) x.
Proof. by rewrite fold_left_app. Qed.

Lemma merged_full recs m : merged_snapshot recs = Some m -> rec_IsDelta (lr_rec m) = false.
Proof.
  revert m. induction recs as [|r recs IH] using rev_ind; intros m; [done|].
  unfold merged_snapshot in *. rewrite fold_snoc. unfold merge_record at 1.
  destruct (fold_left _ recs None) as [m0|]; [|by intros [= <-]].
  destruct (rec_IsDelta (lr_rec r)); intros [= <-]; cbn; auto.
Qed.

(** The snapshot loads the state that the records load. *)
Lemma merged_load recs :
  LoadStateWAL (map lr_rec recs)
  = LoadStateWAL (match merged_snapshot recs with Some m => [lr_rec m] | None => [] end).
Proof.
  unfold LoadStateWAL, merged_snapshot.
  induction recs as [|r recs IH] using rev_ind; [done|].
  rewrite map_app. cbn [map]. rewrite !fold_snoc, IH. destruct (fold_left merge_record recs None) as [m|]; [|done].
  cbn. destruct (rec_IsDelta (lr_rec r)); done.
Qed.

Section compaction.
Context `{HC : RecordCodec, HL : !RecordCodecLaws}.
Context (sys : nat -> option (nat * error)).

(** The state that recovery reads from a log. *)
Definition load_bytes (b : bytes) : option WorkflowState := LoadStateWAL (map lr_rec (records_of b)).

Definition tmp_data (d : Disk) : bytes :=
  match dk_tmp d with Some f => fl_data f | None => [] end.

Lemma write_tmp_ok : write_spec (write_tmp sys) tmp_data dk_log.
Proof.
  intros p d k err d'. unfold write_tmp, tmp_data.
  destruct (sys (dk_calls d)) as [[k' e]|]; intros [= <- <- <-]; cbn.
  - rewrite take_min_length. destruct (dk_tmp d); cbn; split_and!; (done || lia).
  - rewrite firstn_all. by destruct (dk_tmp d).
Qed.

(** The bytes of a snapshot. *)
Definition snapshot_bytes (merged : option LoggedRecord) (p : bytes) : Prop :=
  match merged with
  | None => p = []
  | Some m => exists data, rc_Marshal m = Ok data /\ p = frame data
  end.

Lemma write_snapshot_spec merged d b err d' :
  tmp_data d = [] -> write_snapshot sys merged d = (b, err, d') ->
  dk_log d' = dk_log d /\
  (err = None -> exists p, snapshot_bytes merged p /\ stream_inv tmp_data p b d' /\ bw_err b = None).
Proof.
  intros Ht. unfold write_snapshot, snapshot_bytes. destruct merged as [m|].
  2:{ intros [= <- <- <-]. split_done. intros _. exists []. split_and!; try done.
      split; cbn; by rewrite Ht. }
  destruct (rc_Marshal m) as [data|e]; [|intros [= <- <- <-]; done].
  destruct (walFrameLen _) as [n|e]; [|intros [= <- <- <-]; done].
  intros Hw. eapply (write_frame_inv _ _ _ write_tmp_ok _ []) in Hw as (Hi & He & Hk).
  2:{ split; cbn; by rewrite Ht. }
  split_done. intros ->. exists (frame data). split_and!; [by exists data|done|by apply He].
Qed.

Lemma seal_snapshot_spec p b d err d' :
  stream_inv tmp_data p b d -> bw_err b = None -> seal_snapshot sys b d = (err, d') ->
  dk_log d' = dk_log d /\
  (err = None -> tmp_data d' = p /\ (p = [] \/ dk_tmp d' = Some (mkFile p (length p)))).
Proof.
  intros Hi Hb. unfold seal_snapshot. destruct (buf_flush _ _ _) as [[b1 e1] d1] eqn:Ef.
  eapply buf_flush_inv in Ef as (Hi1 & -> & Hk & Hnil); [|apply write_tmp_ok|done].
  destruct (bw_err b1) eqn:Eb1; [intros [= <- <-]; done|].
  pose proof (st_exact _ _ _ _ Hi1 Eb1) as Hx. rewrite Hnil, app_nil_r in Hx by done.
  destruct (plain_call sys d1) as [e2 d2] eqn:E2. apply plain_call_disk in E2 as [L2 T2].
  destruct e2; [intros [= <- <-]; cbn; split; congruence|].
  destruct (plain_call sys _) as [e3 d3] eqn:E3. apply plain_call_disk in E3 as [L3 T3].
  cbn in L3, T3. destruct e3; intros [= <- <-]; (split; [congruence|]); [done|intros _].
  unfold tmp_data in *. rewrite T3, T2. destruct (dk_tmp d1) as [f|]; cbn; subst; auto.
Qed.

(** What [Compact] leaves in the log: the old records or the snapshot. *)
Lemma replace_log_spec merged w d w' err d' :
  replace_log sys merged w d = (w', err, d') ->
  dk_log d' = dk_log d \/
  exists p, snapshot_bytes merged p /\ log_data d' = p /\
    (err = None -> w_writer w' = mkWriter [] None /\ w_open w' = true).
Proof.
  unfold replace_log. destruct (negb (w_open w)); [intros [= <- <- <-]; by left|].
  destruct (plain_call sys d) as [e1 d1] eqn:E1. apply plain_call_disk in E1 as [L1 _].
  destruct e1; [intros [= <- <- <-]; by left|].
  destruct (plain_call sys d1) as [e2 d2] eqn:E2. apply plain_call_disk in E2 as [L2 _].
  destruct e2; [intros [= <- <- <-]; left; congruence|].
  destruct (write_snapshot _ _ _) as [[b e3] d3] eqn:E3.
  apply write_snapshot_spec in E3 as [L3 H3]; [|done]. cbn in L3.
  destruct e3; [intros [= <- <- <-]; left; congruence|].
  destruct (H3 eq_refl) as (p & Hp & Hi & Hb).
  destruct (seal_snapshot _ _ _) as [e4 d4] eqn:E4.
  eapply seal_snapshot_spec in E4 as [L4 H4]; [|done..].
  destruct e4; [intros [= <- <- <-]; left; congruence|].
  destruct (H4 eq_refl) as [Ht _]. unfold install_snapshot.
  destruct (plain_call sys d4) as [e5 d5] eqn:E5. apply plain_call_disk in E5 as [L5 T5].
  destruct e5; [intros [= <- <- <-]; left; congruence|].
  destruct (plain_call sys _) as [e6 d6] eqn:E6. apply plain_call_disk in E6 as [L6 _].
  cbn in L6. right. exists p. split_done.
  assert (log_data d6 = p).
  { unfold log_data. rewrite L6, T5. exact Ht. }
  by destruct e6; simplify_eq.
Qed.

Lemma snapshot_load merged p :
  snapshot_bytes merged p -> (forall m, merged = Some m -> loggable m) ->
  load_bytes p = LoadStateWAL (match merged with Some m => [lr_rec m] | None => [] end).
Proof using HL.
  unfold snapshot_bytes, load_bytes. destruct merged as [m|]; [|by intros -> _].
  intros (data & Hm & ->) Hl. rewrite <- (app_nil_r (frame data)).
  unfold records_of. rewrite (replay_frame m); [done|]. by apply loggable_readable; auto.
Qed.

(** The replay that [Compact] makes gives the records of the log, or of its
    first [k] bytes when reading failed there. *)
Lemma ReplayWAL_records d recs err d' : ReplayWAL sys d = (recs, err, d') ->
  err <> None \/ recs = records_of (log_data d) \/
  exists k e, sys (S (dk_calls d)) = Some (k, e) /\ recs = records_of (take k (log_data d)).
Proof.
  unfold ReplayWAL, log_data. destruct (dk_log d) as [f|].
  2:{ intros [= <- <- <-]. right; by left. }
  destruct (plain_call sys d) as [e1 d1] eqn:E1. destruct e1; [intros [= <- <- <-]; by left|].
  assert (dk_calls d1 = S (dk_calls d)) as -> by (unfold plain_call in E1; by injection E1 as _ <-).
  destruct (sys (S (dk_calls d))) as [[k e]|]; [|intros [= <- <- <-]; right; by left].
  destruct (replay_bytes _) as [recs' at_len] eqn:Er. intros [= <- <- <-]. right; right.
  exists k, e. split; [done|]. unfold records_of. by rewrite Er.
Qed.

(** The states that a compaction can leave. *)
Lemma Compact_load w d w' err d' :
  let d1 := (flush_log sys w d).2 in
  (forall k m, merged_snapshot (records_of (take k (log_data d1))) = Some m -> loggable m) ->
  Compact sys w d = (w', err, d') ->
  load_bytes (log_data d') = load_bytes (log_data d1) \/
  exists k e, sys (S (dk_calls d1)) = Some (k, e) /\
    load_bytes (log_data d') = load_bytes (take k (log_data d1)).
Proof using HL.
  cbv zeta. unfold Compact. destruct (flush_log sys w d) as [[w1 e1] d1]. cbn [snd]. intros Hl.
  destruct e1; [intros [= <- <- <-]; by left|].
  destruct (ReplayWAL sys d1) as [[recs e2] d2] eqn:Er. pose proof (ReplayWAL_disk _ _ _ _ _ Er) as [L2 _].
  destruct e2 as [e2|]; [intros [= <- <- <-]; left; unfold log_data; by rewrite L2|].
  intros HC'. apply replace_log_spec in HC' as [L|(p & Hp & -> & _)].
  { left. unfold log_data. by rewrite L, L2. }
  apply ReplayWAL_records in Er as [?|[->|(k & e & Hk & ->)]]; [done|left|right].
  - rewrite (snapshot_load _ _ Hp); [unfold load_bytes; by rewrite <- merged_load|].
    intros m Hm. apply (Hl (length (log_data d1))). by rewrite firstn_all.
  - exists k, e. split; [done|]. rewrite (snapshot_load _ _ Hp (Hl k)). unfold load_bytes. by rewrite <- merged_load.
Qed.

(** C38: compaction does not change the state that recovery finds in the log,
    whichever of its system calls fail and wherever: the flush before it only
    adds bytes to the log, and then the log holds its records or one snapshot
    that loads the same state.  There is one exception: when the read of the
    log itself failed after [k] bytes, the log may load what those bytes load.
    The snapshots are not larger than what replay accepts and come back from
    the codec. *)
Theorem Compact_keeps_state w d w' err d' :
  let d1 := (flush_log sys w d).2 in
  (forall k m, merged_snapshot (records_of (take k (log_data d1))) = Some m -> loggable m) ->
  Compact sys w d = (w', err, d') ->
  log_data d `prefix_of` log_data d1 /\
  (load_bytes (log_data d') = load_bytes (log_data d1) \/
   exists k e, sys (S (dk_calls d1)) = Some (k, e) /\
     load_bytes (log_data d') = load_bytes (take k (log_data d1))).
Proof using HL.
  intros d1 Hl HC'. split; [|by eapply Compact_load]. unfold d1, flush_log.
  destruct (buf_flush _ _ _) as [[b e] d2] eqn:Ef. cbn. by eapply buf_flush_grows, Ef; apply write_log_ok.
Qed.

(** ** Appending after a torn record *)

Lemma records_short n t :
  (0 < n)%nat -> Z.of_nat n <= walMaxRecordSize -> (length t < n + 4)%nat ->
  records_of (PutUint32 (Z.of_nat n) ++ t) = [].
Proof.
  intros Hn Hm Ht. unfold records_of, replay_bytes. cbn [replay_loop].
  rewrite read_full_app by done. rewrite Uint32_PutUint32 by (unfold walMaxRecordSize in Hm; lia).
  assert ((Z.of_nat n =? 0) || (walMaxRecordSize <? Z.of_nat n) = false) as ->.
  { apply orb_false_intro; [apply Z.eqb_neq; lia|by apply Z.ltb_ge]. }
  rewrite Nat2Z.id. destruct (read_full n t) as [[x y]|] eqn:E; [|done].
  apply read_full_Some in E as [-> Hx]. rewrite length_app in Ht.
  by rewrite read_full_short by (unfold walCRCLen; lia).
Qed.

(** the log does not recover from its own torn tails: when a crash left the
    length field and some bytes of a record, a reopened log appends behind
    them, and a record that is acknowledged as synced, and not longer than
    the missing part, is invisible to every later replay. *)
Theorem append_after_torn_tail_lost opts rs datas r0 data0 t u d w d1 now r w' d' :
  Forall2 readable rs datas -> readable r0 data0 ->
  frame data0 = (t ++ u)%list -> (4 <= length t)%nat ->
  log_data d = (log_bytes datas ++ t)%list -> (synced d <= length (log_data d))%nat ->
  SyncEveryWrite opts = true -> NewWAL sys opts d = (Ok w, d1) ->
  (forall data, rc_Marshal (stamp (w_seq w + 1) now r) = Ok data ->
     (length (frame data) < length u)%nat) ->
  Append sys now r w d1 = (w', None, d') ->
  synced d' = length (log_data d') /\ records_of (log_data d') = rs.
Proof using HL.
  intros HF Hr0 Hfr Ht Hd Hle Hsync Hn Hlen Ha.
  apply NewWAL_spec in Hn as (Hd1 & Hs1 & Hw & Hop & Hopts).
  unfold Append in Ha. cbn [set_seq w_seq w_open w_writer w_opts] in Ha.
  destruct (rc_Marshal _) as [data|e] eqn:Em; [|done]. specialize (Hlen data eq_refl).
  destruct (walFrameLen _) as [n|e]; [|done].
  destruct (write_frame _ _ _ _ _) as [[b e1] d2] eqn:Ew.
  pose proof (prefix_length _ _ (write_frame_grows _ _ _ (write_log_ok _ _) _ _ _ _ _ _ _ Ew)) as Hg.
  eapply (write_frame_inv _ _ _ (write_log_ok sys _) _ (log_data d1)) in Ew as (Hi & He & Hs2).
  2:{ cbn. rewrite Hw. split; cbn; by rewrite ?app_nil_r. }
  destruct e1; [done|]. revert Ha. set (w2 := add_bytes _ _).
  assert (SyncEveryWrite (w_opts w2) = true) as -> by (cbn; by rewrite Hopts). intros Ha.
  eapply Sync_inv in Ha as (Hi2 & Hb2 & _ & Hn2); [|exact Hi|rewrite Hs2, Hs1; rewrite Hd1 in Hg; lia].
  specialize (Hn2 eq_refl).
  assert (log_data d' = (log_data d1 ++ frame data)%list) as Hd'.
  { apply prefix_length_eq; [apply Hi2|]. lia. }
  split; [by rewrite Hn2, Hd'|]. rewrite Hd', Hd1, Hd, <- app_assoc.
  rewrite (replay_log rs datas) by done. rewrite <- (app_nil_r rs) at 2. f_equal.
  rewrite <- (take_drop 4 t), <- app_assoc.
  assert (take 4 t = PutUint32 (Z.of_nat (length data0))) as ->.
  { apply (f_equal (take 4)) in Hfr. rewrite take_app_le in Hfr by done. by rewrite <- Hfr. }
  apply (f_equal length) in Hfr. rewrite length_frame, length_app in Hfr.
  destruct Hr0 as (_ & Hne & Hmax). apply records_short; [|done|].
  - destruct data0; [done|]. cbn. lia.
  - rewrite length_app, length_drop. lia.
Qed.
End compaction.

(** ** A sample codec and log *)

#[export] Instance WALRecord_eq_dec : EqDecision WALRecord.
Proof. solve_decision. Defined.
#[export] Instance LoggedRecord_eq_dec : EqDecision LoggedRecord.
Proof. solve_decision. Defined.

Definition rec_a : LoggedRecord :=
  mkLogged 1 7 (mkRecord 0 "a" "n" "x" {[0 := "x"]} {["v" := "1"]} false).
Definition rec_b : LoggedRecord :=
  mkLogged 2 8 (mkRecord 1 "b" "n" "y" {[1 := "y"]} ∅ true).
Definition rec_ab : LoggedRecord :=
  mkLogged 2 8 (mkRecord 1 "b" "n" "y" {[0 := "x"; 1 := "y"]} {["v" := "1"]} false).

Definition data_a : bytes := String.list_ascii_of_string "{a}".
Definition data_b : bytes := String.list_ascii_of_string "{b, a delta record of some length}".
Definition sample_table : list (LoggedRecord * bytes) :=
  [(rec_a, data_a); (rec_b, data_b); (rec_ab, String.list_ascii_of_string "{a+b}")].

#[local] Instance sample_codec : RecordCodec := {
  rc_Marshal r := match filter (fun x => x.1 = r) sample_table with
                  | (_, data) :: _ => Ok data
                  | [] => Err "unsupported"
                  end;
  rc_Unmarshal b := match filter (fun x => x.2 = b) sample_table with
                    | (r, _) :: _ => Some r
                    | [] => None
                    end;
  rc_storable _ := True
}.

Lemma sample_marshal r data : rc_Marshal r = Ok data -> (r, data) ∈ sample_table.
Proof.
  cbn [rc_Marshal sample_codec].
  destruct (filter _ sample_table) as [|[r' data'] l] eqn:Ef; [done|]. intros [= <-].
  assert ((r', data') ∈ filter (fun x => x.1 = r) sample_table) as Hin
    by (rewrite Ef; left).
  by apply list_elem_of_filter in Hin as [<- Hin].
Qed.

#[local] Instance sample_laws : RecordCodecLaws.
Proof.
  assert (Forall (fun x => rc_Unmarshal x.2 = Some x.1 /\ x.2 <> []) sample_table) as HF.
  { repeat constructor; try done; vm_compute; reflexivity. }
  rewrite Forall_forall in HF. split.
  - intros r data _ Hm%sample_marshal. exact (proj1 (HF _ Hm)).
  - intros r data Hm%sample_marshal. exact (proj2 (HF _ Hm)).
Qed.

Lemma sample_loggable r : loggable r.
Proof.
  split; [done|]. intros data Hm%sample_marshal.
  assert (Forall (fun x => Z.of_nat (length x.2) <= walMaxRecordSize) sample_table) as HF
    by (repeat constructor; vm_compute; done).
  rewrite Forall_forall in HF. exact (HF _ Hm).
Qed.

Definition fresh_disk : Disk := mkDisk None None 0.
Definition sync_opts : WALOptions := mkWALOptions 0 true.
Definition no_faults (n : nat) : option (nat * error) := None.
Definition opened_log : WAL * Disk :=
  match NewWAL no_faults sync_opts fresh_disk with
  | (Ok w, d) => (w, d)
  | (Err _, d) => (mkWAL 0 0 (mkWriter [] None) false sync_opts, d)
  end.

(** Five calls succeed; the second write of the log fails after 9 bytes. *)
Definition second_write_fails (n : nat) : option (nat * error) :=
  if decide (n = 7)%nat then Some (9%nat, "no space left on device") else None.

Lemma wal_file_durable_witness :
  let s := wal_ops second_write_fails [OpAppend 7 rec_a; OpAppend 8 rec_b]
             (mkRun opened_log.1 opened_log.2 [] 0) in
  rn_records s = [rec_a; rec_b] /\ rn_acked s = 1%nat /\
  exists k, records_of (log_data (rn_disk s)) = take k [rec_a; rec_b] /\ (1 <= k)%nat.
Proof.
  set (s := wal_ops _ _ _). assert (rn_records s = [rec_a; rec_b]) as Hr by (vm_compute; reflexivity).
  split; [done|]. split; [vm_compute; reflexivity|].
  destruct (wal_file_durable second_write_fails sync_opts [] fresh_disk opened_log.1 opened_log.2
    [OpAppend 7 rec_a; OpAppend 8 rec_b] (log_data (rn_disk s))) as (k & Hk & Hle).
  - exists []. by split_and!.
  - vm_compute. reflexivity.
  - apply Forall_forall. intros r _. apply sample_loggable.
  - split; [|done]. eexists. by rewrite take_drop.
  - exists k. split; [by rewrite <- Hr|]. exact Hle.
Defined.

(** A log of two records on an otherwise empty disk. *)
Definition two_records : bytes := log_bytes [data_a; data_b].
Definition two_disk : Disk := mkDisk (Some (mkFile two_records (length two_records))) None 0.
Definition two_wal : WAL := mkWAL 2 0 (mkWriter [] None) true sync_opts.

(** Compaction without faults, and with the disk full when the snapshot is
    written. *)
Definition snapshot_fails (n : nat) : option (nat * error) :=
  if decide (n = 4)%nat then Some (3%nat, "no space left on device") else None.
Lemma Compact_keeps_state_witness :
  (let '(_, err, d) := Compact no_faults two_wal two_disk in
   err = None /\ (length (log_data d) < length two_records)%nat /\
   load_bytes (log_data d) = load_bytes two_records) /\
  (let '(_, err, d) := Compact snapshot_fails two_wal two_disk in
   err <> None /\ load_bytes (log_data d) = load_bytes two_records).
Proof.
  split.
  - destruct (Compact no_faults two_wal two_disk) as [[w err] d] eqn:EC.
    assert (err = None /\ (length (log_data d) < length two_records)%nat) as [He Hl].
    { assert (err = (Compact no_faults two_wal two_disk).1.2) as -> by (by rewrite EC).
      assert (d = (Compact no_faults two_wal two_disk).2) as -> by (by rewrite EC).
      split; [vm_compute; reflexivity|]. vm_compute. lia. }
    split; [done|]. split; [done|].
    destruct (Compact_keeps_state no_faults two_wal two_disk w err d (fun _ m _ => sample_loggable m) EC)
      as [_ [H|(k & e & H & _)]]; [exact H|discriminate H].
  - destruct (Compact snapshot_fails two_wal two_disk) as [[w err] d] eqn:EC. split.
    + assert (err = (Compact snapshot_fails two_wal two_disk).1.2) as -> by (by rewrite EC).
      vm_compute. discriminate.
    + destruct (Compact_keeps_state snapshot_fails two_wal two_disk w err d (fun _ m _ => sample_loggable m) EC)
        as [_ [H|(k & e & H & _)]]; [exact H|vm_compute in H; discriminate H].
Defined.

(** The read for the snapshot fails in the middle of the second record. *)
Definition read_fails (n : nat) : option (nat * error) :=
  if decide (n = 1)%nat then Some ((length (frame data_a) + 6)%nat, "input/output error") else None.

(** a read fault while the log is compacted loses records silently:
    [ReplayWAL] takes a fault behind a length field for the torn end of the
    log, so [Compact] reports success and replaces the log by a snapshot of the
    records before the fault; here the second of two synced records is gone. *)
Theorem compaction_read_fault_drops :
  let '(_, err, d) := Compact read_fails two_wal two_disk in
  err = None /\ ss_Data <$> load_bytes two_records = Some "y" /\
  ss_Data <$> load_bytes (log_data d) = Some "x" /\ synced d = length (log_data d).
Proof. vm_compute. split_and!; reflexivity. Qed.

(** The second record was torn after five bytes. *)
Definition torn_bytes : bytes := take 5 (frame data_b).
Definition torn_disk : Disk := mkDisk (Some (mkFile torn_bytes 5)) None 0.
Definition torn_log : WAL * Disk :=
  match NewWAL no_faults sync_opts torn_disk with
  | (Ok w, d) => (w, d)
  | (Err _, d) => (mkWAL 0 0 (mkWriter [] None) false sync_opts, d)
  end.

Lemma append_after_torn_tail_lost_witness :
  let '(_, err, d) := Append no_faults 7 rec_a torn_log.1 torn_log.2 in
  err = None /\ synced d = length (log_data d) /\ records_of (log_data d) = [].
Proof.
  destruct (Append no_faults 7 rec_a torn_log.1 torn_log.2) as [[w err] d] eqn:EA.
  assert (err = None) as ->.
  { assert (err = (Append no_faults 7 rec_a torn_log.1 torn_log.2).1.2) as -> by (by rewrite EA).
    vm_compute. reflexivity. }
  split; [done|].
  refine (append_after_torn_tail_lost no_faults sync_opts [] [] rec_b
    data_b torn_bytes (drop 5 (frame data_b))
    torn_disk torn_log.1 torn_log.2 7 rec_a w d _ _ _ _ _ _ _ _ _ EA).
  - constructor.
  - split_and!; [vm_compute; reflexivity|done|vm_compute; done].
  - unfold torn_bytes. by rewrite take_drop.
  - vm_compute. lia.
  - reflexivity.
  - vm_compute. lia.
  - reflexivity.
  - vm_compute. reflexivity.
  - intros data Hm. assert (stamp (w_seq torn_log.1 + 1) 7 rec_a = rec_a) as Hst
      by (vm_compute; reflexivity). rewrite Hst in Hm.
    assert (rc_Marshal rec_a = Ok data_a) as Ha by (vm_compute; reflexivity).
    rewrite Ha in Hm. injection Hm as <-. vm_compute. lia.
Defined.
