(* ===== verification/Errors.v ===== *)
(** * Structured errors (src/internal/errors/codes.go)

    Error values with their chain of causes, and what errors.Is and errors.As
    of the standard library find in it.  Two errors without structure are the
    same value when their texts agree. *)

From S2P Require Import Prelude GoStrings.

#[local] Open Scope string_scope.

Inductive goerr :=
  | EText (msg : string)
  | EWrapped (prefix : string) (cause : goerr)
  | EError (code message step : string) (cause : option goerr).

Definition CodePolicyDenied : string := "POLICY_DENIED".
Definition CodePolicyApprovalRequired : string := "POLICY_APPROVAL_REQUIRED".
Definition CodePolicyApprovalDenied : string := "POLICY_APPROVAL_DENIED".
Definition CodeIdempotencyConflict : string := "IDEMPOTENCY_CONFLICT".
Definition CodeIdempotencyInternal : string := "IDEMPOTENCY_INTERNAL".

(** [Error()]. *)
Fixpoint Error_text (e : goerr) : string :=
  match e with
  | EText m => m
  | EWrapped p c => p +:+ Error_text c
  | EError code m step cause =>
      let tail := match cause with Some c => ": " +:+ Error_text c | None => "" end in
      if decide (step = "") then "[" +:+ code +:+ "] " +:+ m +:+ tail
      else "[" +:+ code +:+ "] step " +:+ step +:+ ": " +:+ m +:+ tail
  end.

Definition Unwrap (e : goerr) : option goerr :=
  match e with EText _ => None | EWrapped _ c => Some c | EError _ _ _ c => c end.

(** The values errors.Is and errors.As look at: the error and its causes. *)
Fixpoint chain (e : goerr) : list goerr :=
  e :: match e with
       | EText _ => []
       | EWrapped _ c => chain c
       | EError _ _ _ cause => match cause with Some c => chain c | None => [] end
       end.

Definition code_of (e : goerr) : option string :=
  match e with EError code _ _ _ => Some code | _ => None end.

(** The method [Is] of [*Error], and [==] for the other errors. *)
Definition is_match (e target : goerr) : Prop :=
  match code_of target with
  | Some code => code_of e = Some code
  | None => e = target
  end.
#[export] Instance goerr_eq_dec : EqDecision goerr.
Proof.
  refine (fix go e1 e2 : Decision (e1 = e2) :=
    match e1, e2 with
    | EText a, EText b => cast_if (decide (a = b))
    | EWrapped a c, EWrapped b d => cast_if_and (decide (a = b)) (go c d)
    | EError a1 a2 a3 (Some c), EError b1 b2 b3 (Some d) =>
        cast_if_and4 (decide (a1 = b1)) (decide (a2 = b2)) (decide (a3 = b3)) (go c d)
    | EError a1 a2 a3 None, EError b1 b2 b3 None =>
        cast_if_and3 (decide (a1 = b1)) (decide (a2 = b2)) (decide (a3 = b3))
    | _, _ => right _
    end); clear go; abstract congruence.
Defined.
#[export] Instance is_match_dec e t : Decision (is_match e t).
Proof. unfold is_match. destruct (code_of t); apply _. Defined.

(** errors.Is and errors.As at [*Error]. *)
Definition errors_Is (e target : goerr) : bool :=
  bool_decide (Exists (fun x => is_match x target) (chain e)).
Definition errors_As (e : goerr) : option goerr :=
  head (filter (fun x => is_Some (code_of x)) (chain e)).

Definition New (code message : string) : goerr := EError code message "" None.

Definition Wrap (cause : option goerr) (code message : string) : goerr :=
  match cause with
  | None => New code message
  | Some c =>
      match errors_As c with
      | Some e => if decide (code_of e = Some code) then e else EError code message "" (Some c)
      | None => EError code message "" (Some c)
      end
  end.

Definition WithStep (err : option goerr) (step : string) : option goerr :=
  match err with
  | None => None
  | Some e => match errors_As e with
              | Some (EError code m _ cause) => Some (EError code m step cause)
              | _ => None
              end
  end.

Definition IsCode (err : goerr) (code : string) : bool :=
  match errors_As err with Some e => bool_decide (code_of e = Some code) | None => false end.
Definition GetCode (err : goerr) : string :=
  match errors_As err with Some e => default "" (code_of e) | None => "" end.

(** One round of [UnwrapAll]; the loop makes one per link of the chain. *)
Fixpoint unwrap_loop (fuel : nat) (err : goerr) : goerr :=
  match fuel with
  | O => err
  | S fuel' =>
      match errors_As err with
      | Some (EError _ _ _ (Some c)) => unwrap_loop fuel' c
      | _ => err
      end
  end.
Definition UnwrapAll (err : goerr) : goerr := unwrap_loop (length (chain err)) err.

(** ** Properties *)

Lemma goerr_chain_ind (P : goerr -> Prop) :
  (forall m, P (EText m)) -> (forall p c, P c -> P (EWrapped p c)) ->
  (forall k m s, P (EError k m s None)) ->
  (forall k m s c, P c -> P (EError k m s (Some c))) -> forall e, P e.
Proof.
  intros H1 H2 H3 H4. fix IH 1. intros [m|p c|k m s [c|]].
  - apply H1.
  - apply H2, IH.
  - apply H4, IH.
  - apply H3.
Qed.

Lemma errors_As_in_chain e x : errors_As e = Some x -> x ∈ chain e /\ is_Some (code_of x).
Proof.
  unfold errors_As. destruct (filter _ (chain e)) as [|y l] eqn:Ef; [done|]. intros [= <-].
  assert (y ∈ filter (fun x => is_Some (code_of x)) (chain e)) as H by (rewrite Ef; left).
  apply list_elem_of_filter in H as [??]. done.
Qed.

(** The chain of an error in the chain is a part of it. *)
Lemma chain_sub e x : x ∈ chain e -> chain x ⊆ chain e.
Proof.
  induction e as [m|p c IH|k m s|k m s c IH] using goerr_chain_ind; cbn;
    intros [->|Hx]%elem_of_cons; try done; try (by apply elem_of_nil in Hx);
    intros y Hy; right; by apply (IH Hx).
Qed.

(** All structured errors of a chain are reachable from the first one. *)
Lemma errors_As_structured e x y :
  errors_As e = Some x -> y ∈ chain e -> is_Some (code_of y) -> y ∈ chain x.
Proof.
  induction e as [m|p c IH|k m s|k m s c IH] using goerr_chain_ind.
  1,2: unfold errors_As; cbn [chain]; rewrite filter_cons_False by (by intros []).
  - done.
  - intros Ha [->|Hy]%elem_of_cons Hs; [by destruct Hs|]. by apply IH.
  - unfold errors_As. cbn [chain]. rewrite filter_cons_True by done. by intros [= <-].
  - unfold errors_As. cbn [chain]. rewrite filter_cons_True by done. by intros [= <-].
Qed.

Lemma errors_Is_code e t code : code_of t = Some code ->
  errors_Is e t = true <-> exists x, x ∈ chain e /\ code_of x = Some code.
Proof.
  intros Ht. unfold errors_Is. rewrite bool_decide_eq_true, Exists_exists.
  unfold is_match. rewrite Ht. done.
Qed.

Lemma Wrap_code c code m : GetCode (Wrap (Some c) code m) = code.
Proof.
  unfold Wrap. destruct (errors_As c) as [e|] eqn:Ea; [|done].
  case_decide as Hc; [|done]. unfold GetCode.
  destruct e as [| |k' m' s' c']; [done..|]. by simplify_eq/=.
Qed.

(** wrapping an error gives it the new code and hides no code of its chain
    from errors.Is, also when [Wrap] returns the cause itself. *)
Theorem Wrap_codes c code m t k : code_of t = Some k ->
  GetCode (Wrap (Some c) code m) = code /\
  errors_Is (Wrap (Some c) code m) t = errors_Is c t || bool_decide (k = code).
Proof.
  intros Ht. split; [apply Wrap_code|].
  apply eq_true_iff_eq. rewrite orb_true_iff, bool_decide_eq_true.
  rewrite !(errors_Is_code _ _ _ Ht). unfold Wrap.
  assert ((exists x, x ∈ chain (EError code m "" (Some c)) /\ code_of x = Some k) <->
    (exists x, x ∈ chain c /\ code_of x = Some k) \/ k = code) as Hnew.
  { cbn [chain]. setoid_rewrite elem_of_cons. split.
    - intros (x & [->|Hx] & Hk); [right; by injection Hk|eauto].
    - intros [(x & Hx & Hk)| ->]; [exists x; auto|]. eexists. by split; [left|]. }
  destruct (errors_As c) as [e|] eqn:Ea; [|done]. case_decide as Hc; [|done].
  destruct (errors_As_in_chain _ _ Ea) as [Hin Hs]. split.
  - intros (x & Hx & Hk). left. exists x. split; [by apply (chain_sub c e)|done].
  - intros [(x & Hx & Hk)| ->].
    + exists x. split; [|done]. eapply errors_As_structured; [done..|]. by rewrite Hk.
    + exists e. split; [|done]. destruct e; by left.
Qed.

Lemma Wrap_codes_witness :
  GetCode (Wrap (Some (EWrapped "read: " (New CodePolicyDenied "no"))) CodePolicyDenied "x")
    = CodePolicyDenied /\
  errors_Is (Wrap (Some (EWrapped "read: " (New CodePolicyDenied "no"))) CodePolicyDenied "x")
    (New CodePolicyDenied "") = true.
Proof.
  destruct (Wrap_codes (EWrapped "read: " (New CodePolicyDenied "no")) CodePolicyDenied "x"
    (New CodePolicyDenied "") CodePolicyDenied eq_refl) as [H1 H2].
  split; [exact H1|]. rewrite H2. vm_compute. reflexivity.
Defined.

(** [IsCode] only looks at the first structured error: a code further down
    the chain is found by errors.Is but not by [IsCode]. *)
Theorem IsCode_first_only c m code m' : c <> code ->
  let err := Wrap (Some (New c m)) code m' in
  errors_Is err (New c "") = true /\ IsCode err c = false.
Proof.
  intros Hne err.
  assert (err = EError code m' "" (Some (New c m))) as ->.
  { unfold err, Wrap. change (errors_As (New c m)) with (Some (New c m)).
    cbv beta iota. rewrite decide_False; [done|]. cbn. congruence. }
  split.
  - apply (errors_Is_code _ (New c "") c); [done|]. exists (New c m). cbn. split; [|done].
    right. left.
  - change (IsCode _ c) with (bool_decide (Some code = Some c)).
    rewrite bool_decide_eq_false. congruence.
Qed.

Lemma chain_shorter e x : x ∈ chain e -> length (chain x) <= length (chain e).
Proof.
  induction e as [m|p c IH|k m s|k m s c IH] using goerr_chain_ind; cbn [chain];
    intros [->|Hx]%elem_of_cons; cbn [length chain]; try lia;
    try (by apply elem_of_nil in Hx); specialize (IH Hx); lia.
Qed.

(** [UnwrapAll] stops, and only where the innermost structured error has no
    cause left: the length of the chain is enough rounds. *)
Theorem UnwrapAll_innermost err code m s c :
  errors_As (UnwrapAll err) <> Some (EError code m s (Some c)).
Proof.
  unfold UnwrapAll. generalize (Nat.le_refl (length (chain err))).
  generalize (length (chain err)) at 2 3. intros fuel. revert err.
  induction fuel as [|fuel IH]; intros err Hle.
  { destruct err as [|?|? ? ? []]; cbn in Hle; lia. }
  cbn [unwrap_loop]. destruct (errors_As err) as [x|] eqn:Ea; [|congruence].
  destruct x as [| |k' m' s' [c'|]]; try congruence.
  apply IH. apply errors_As_in_chain in Ea as [Hin _]. apply chain_shorter in Hin.
  cbn in Hin. lia.
Qed.
