(* ===== verification/Idempotency.v ===== *)
(** * Idempotency ledgers (src/internal/workflow/idempotency.go)

    The records, their tamper-evidence MAC, and the two stores.  HMAC-SHA256,
    the hash that names a record's file, JSON and the file system are
    parameters; [now] is the clock at the call.  Every system call of the file
    store can fail ([io n] is the fault of the [n]-th call); acquiring the
    cross-process lock is one such call here and has its own model in
    FileLock. *)

From S2P Require Import Prelude GoStrings Errors.
From Stdlib Require Import Ascii.

#[local] Open Scope string_scope.
#[local] Open Scope Z_scope.

Definition idempotencyStatusInProgress : string := "in_progress".
Definition idempotencyStatusCompleted : string := "completed".
Definition idempotencyStatusFailed : string := "failed".

Definition ErrIdempotencyHit : goerr :=
  New CodeIdempotencyConflict "workflow skipped: idempotency key already completed".
Definition ErrIdempotencyInProgress : goerr :=
  New CodeIdempotencyConflict "workflow skipped: idempotency key has an in-progress run".
Definition ErrIdempotencyLockTimeout : goerr :=
  New CodeIdempotencyInternal "idempotency: timed out acquiring cross-process lock".

Definition hour_ns : Z := 3600 * 10 ^ 9.
Definition defaultIdempotencyTTL : Z := 7 * 24 * hour_ns.

(** Times are nanoseconds; the zero time is 0. *)
Record IdempotencyRecord := mkIdem {
  ir_Key : string;
  ir_RunID : string;
  ir_WorkflowPath : string;
  ir_Status : string;
  ir_FinalOutput : string;
  ir_Error : string;
  ir_CreatedAt : Z;
  ir_UpdatedAt : Z;
  ir_HMAC : string
}.
Definition zero_record : IdempotencyRecord := mkIdem "" "" "" "" "" "" 0 0 "".

Definition nul : string := String (ascii_of_nat 0) "".

(** What [signRecord] feeds to the MAC: every field but the MAC itself. *)
Definition sign_text (r : IdempotencyRecord) : string :=
  ir_Key r +:+ nul +:+ ir_RunID r +:+ nul +:+ ir_WorkflowPath r +:+ nul +:+ ir_Status r +:+ nul +:+
  ir_FinalOutput r +:+ nul +:+ ir_Error r +:+ nul +:+ Itoa (ir_CreatedAt r) +:+ nul +:+
  Itoa (ir_UpdatedAt r).

(** The keyed MAC in hex, and the key of the environment when there is one. *)
Record MacEnv := mkMacEnv {
  me_mac : string -> string -> string;
  me_key : option string
}.

Definition signRecord (me : MacEnv) (r : IdempotencyRecord) : string :=
  match me_key me with None => "" | Some k => me_mac me k (sign_text r) end.
Definition verifyRecord (me : MacEnv) (r : IdempotencyRecord) : bool :=
  match me_key me with
  | None => true
  | Some _ => if decide (ir_HMAC r = "") then false else bool_decide (ir_HMAC r = signRecord me r)
  end.
Definition set_hmac (h : string) (r : IdempotencyRecord) : IdempotencyRecord :=
  mkIdem (ir_Key r) (ir_RunID r) (ir_WorkflowPath r) (ir_Status r) (ir_FinalOutput r) (ir_Error r)
    (ir_CreatedAt r) (ir_UpdatedAt r) h.
Definition signed (me : MacEnv) (r : IdempotencyRecord) : IdempotencyRecord :=
  set_hmac (signRecord me r) r.

(** [time.Since], which saturates. *)
Definition since (now t : Z) : Z := Z.max int64_min (Z.min int64_max (now - t)).
Definition expired (ttl now : Z) (r : IdempotencyRecord) : bool :=
  (0 <? ttl) && (ttl <? since now (ir_UpdatedAt r)).

Definition stamp_times (now : Z) (r : IdempotencyRecord) : IdempotencyRecord :=
  mkIdem (ir_Key r) (ir_RunID r) (ir_WorkflowPath r) (ir_Status r) (ir_FinalOutput r) (ir_Error r)
    (if ir_CreatedAt r =? 0 then now else ir_CreatedAt r)
    (if ir_UpdatedAt r =? 0 then now else ir_UpdatedAt r) (ir_HMAC r).
Definition placeholder (key runID : string) (now : Z) : IdempotencyRecord :=
  mkIdem key runID "" idempotencyStatusInProgress "" "" now now "".

Definition errEmptyKey : goerr := New CodeIdempotencyInternal "idempotency: empty key".
Definition wrapI (e : goerr) (msg : string) : goerr := Wrap (Some e) CodeIdempotencyInternal msg.

Definition checked : Type := IdempotencyRecord * bool * option goerr.
Definition missing : checked := (zero_record, false, None).

(** ** MemoryIdempotencyStore *)

Record MemoryStore := mkMem {
  ms_recs : gmap string IdempotencyRecord;
  ms_ttl : Z
}.
Definition NewMemoryIdempotencyStore (ttl : Z) : MemoryStore :=
  mkMem ∅ (if ttl <? 0 then 0 else ttl).

Section memory.
Context (me : MacEnv).

Definition mem_Check (now : Z) (key : string) (s : MemoryStore) : checked * MemoryStore :=
  let dropped := mkMem (delete key (ms_recs s)) (ms_ttl s) in
  match ms_recs s !! key with
  | None => (missing, s)
  | Some r =>
      if expired (ms_ttl s) now r then (missing, dropped)
      else if negb (verifyRecord me r) then (missing, dropped)
      else ((r, true, None), s)
  end.

Definition mem_Record (now : Z) (r : IdempotencyRecord) (s : MemoryStore)
    : option goerr * MemoryStore :=
  if decide (ir_Key r = "") then (Some errEmptyKey, s) else
  (None, mkMem (<[ir_Key r := signed me (stamp_times now r)]> (ms_recs s)) (ms_ttl s)).

Definition mem_claim (now : Z) (key runID : string) (s : MemoryStore) : checked * MemoryStore :=
  let r := signed me (placeholder key runID now) in
  ((r, true, None), mkMem (<[key := r]> (ms_recs s)) (ms_ttl s)).

Definition mem_Reserve (now : Z) (key runID : string) (s : MemoryStore) : checked * MemoryStore :=
  if decide (key = "") then ((zero_record, false, Some errEmptyKey), s) else
  match ms_recs s !! key with
  | None => mem_claim now key runID s
  | Some r =>
      let dropped := mkMem (delete key (ms_recs s)) (ms_ttl s) in
      if expired (ms_ttl s) now r then mem_claim now key runID dropped
      else if negb (verifyRecord me r) then mem_claim now key runID dropped
      else if decide (ir_Status r = idempotencyStatusCompleted) then ((r, false, None), s)
      else if decide (ir_Status r = idempotencyStatusInProgress)
      then ((r, false, Some ErrIdempotencyInProgress), s)
      else mem_claim now key runID s
  end.

Definition mem_Clear (key : string) (s : MemoryStore) : option goerr * MemoryStore :=
  (None, mkMem (delete key (ms_recs s)) (ms_ttl s)).
End memory.

(** ** FileIdempotencyStore *)

(** The directory: record files by the hash of their key, temporary files
    (never read), and the number of system calls so far. *)
Record FileStore := mkFS {
  fs_files : gmap string string;
  fs_tmps : list string;
  fs_ttl : Z;
  fs_calls : nat
}.

Definition NewFileIdempotencyStore (ttl : Z) : FileStore :=
  mkFS ∅ [] (if ttl <=? 0 then defaultIdempotencyTTL else ttl) 0.

Record FileEnv := mkFileEnv {
  fe_hash : string -> string;
  fe_Marshal : IdempotencyRecord -> result string;
  fe_Unmarshal : string -> result IdempotencyRecord;
  fe_io : nat -> option goerr
}.

Section file.
Context (me : MacEnv) (fe : FileEnv).

Definition fs_call (s : FileStore) : option goerr * FileStore :=
  (fe_io fe (fs_calls s),
   mkFS (fs_files s) (fs_tmps s) (fs_ttl s) (S (fs_calls s))).

Definition set_files (f : gmap string string) (s : FileStore) : FileStore :=
  mkFS f (fs_tmps s) (fs_ttl s) (fs_calls s).
Definition set_tmps (t : list string) (s : FileStore) : FileStore :=
  mkFS (fs_files s) t (fs_ttl s) (fs_calls s).

(** [os.Remove] of a record file, errors ignored. *)
Definition remove_file (key : string) (s : FileStore) : option goerr * FileStore :=
  match fs_call s with
  | (None, s) => (None, set_files (delete (fe_hash fe key) (fs_files s)) s)
  | (Some e, s) => (Some e, s)
  end.
(** [os.Remove] of the temporary file, errors ignored. *)
Definition remove_tmp (s : FileStore) : FileStore :=
  match fs_call s with
  | (None, s) => set_tmps (tail (fs_tmps s)) s
  | (Some _, s) => s
  end.

Definition readLocked (key : string) (s : FileStore) : checked * FileStore :=
  match fs_files s !! fe_hash fe key with
  | None => (missing, (fs_call s).2)
  | Some data =>
      match fs_call s with
      | (Some e, s) => ((zero_record, false, Some (wrapI e "idempotency: read")), s)
      | (None, s) =>
          if decide (data = "") then (missing, s) else
          match fe_Unmarshal fe data with
          | Err e => ((zero_record, false, Some (wrapI (EText e) "idempotency: parse")), s)
          | Ok r => if verifyRecord me r then ((r, true, None), s) else (missing, s)
          end
      end
  end.

(** Write the temporary file, sync, close and rename it. *)
Definition write_tmp_file (key data : string) (s : FileStore) : option goerr * FileStore :=
  match fs_call s with
  | (Some e, s) => (Some (wrapI e "idempotency: write tmp"), s)
  | (None, s) =>
      let s := set_tmps (fe_hash fe key :: fs_tmps s) s in
      match fs_call s with
      | (Some e, s) => (Some (wrapI e "idempotency: write tmp"), remove_tmp s)
      | (None, s) =>
      match fs_call s with
      | (Some e, s) => (Some (wrapI e "idempotency: fsync tmp"), remove_tmp s)
      | (None, s) =>
      match fs_call s with
      | (Some e, s) => (Some (wrapI e "idempotency: close tmp"), remove_tmp s)
      | (None, s) =>
      match fs_call s with
      | (Some e, s) => (Some (wrapI e "idempotency: rename"), remove_tmp s)
      | (None, s) =>
          (None, set_files (<[fe_hash fe key := data]> (fs_files s)) (set_tmps (tail (fs_tmps s)) s))
      end end end end
  end.

Definition writeLocked (now : Z) (key : string) (r : IdempotencyRecord) (s : FileStore)
    : option goerr * FileStore :=
  match fe_Marshal fe (signed me (stamp_times now r)) with
  | Err e => (Some (wrapI (EText e) "idempotency: marshal"), s)
  | Ok data => write_tmp_file key data s
  end.

Definition file_Check (now : Z) (key : string) (s : FileStore) : checked * FileStore :=
  match readLocked key s with
  | ((_, _, Some e), s) => ((zero_record, false, Some e), s)
  | ((_, false, None), s) => (missing, s)
  | ((r, true, None), s) =>
      if expired (fs_ttl s) now r then (missing, (remove_file key s).2) else ((r, true, None), s)
  end.

Definition file_Record (now : Z) (r : IdempotencyRecord) (s : FileStore)
    : option goerr * FileStore :=
  if decide (ir_Key r = "") then (Some errEmptyKey, s) else
  match fs_call s with
  | (Some e, s) => (Some (wrapI e "idempotency: mkdir"), s)
  | (None, s) => writeLocked now (ir_Key r) r s
  end.

Definition file_claim (now : Z) (key runID : string) (s : FileStore) : checked * FileStore :=
  let r := placeholder key runID now in
  match writeLocked now key r s with
  | (Some e, s) => ((zero_record, false, Some e), s)
  | (None, s) => ((r, true, None), s)
  end.

Definition file_Reserve (now : Z) (key runID : string) (s : FileStore) : checked * FileStore :=
  if decide (key = "") then ((zero_record, false, Some errEmptyKey), s) else
  match fs_call s with
  | (Some e, s) => ((zero_record, false, Some (wrapI e "idempotency: mkdir")), s)
  | (None, s) =>
  match fs_call s with
  | (Some e, s) => ((zero_record, false, Some (wrapI e "idempotency: lock")), s)
  | (None, s) =>
  match readLocked key s with
  | ((_, _, Some e), s) => ((zero_record, false, Some (wrapI e "idempotency: read")), s)
  | ((_, false, None), s) => file_claim now key runID s
  | ((r, true, None), s) =>
      if expired (fs_ttl s) now r then file_claim now key runID (remove_file key s).2
      else if decide (ir_Status r = idempotencyStatusCompleted) then ((r, false, None), s)
      else if decide (ir_Status r = idempotencyStatusInProgress)
      then ((r, false, Some ErrIdempotencyInProgress), s)
      else file_claim now key runID s
  end end end.

(** A file that is not there is no error. *)
Definition file_Clear (key : string) (s : FileStore) : option goerr * FileStore :=
  match fs_files s !! fe_hash fe key with
  | None => (None, (fs_call s).2)
  | Some _ => match remove_file key s with
              | (Some e, s) => (Some (wrapI e "idempotency: clear"), s)
              | (None, s) => (None, s)
              end
  end.
End file.

(** ** newRunID *)

Definition hex_digit (n : N) : ascii :=
  if (n <? 10)%N then ascii_of_N (48 + n) else ascii_of_N (87 + n).
Definition hex_byte (b : Z) : string :=
  String (hex_digit (Z.to_N (Z.shiftr b 4))) (String (hex_digit (Z.to_N (Z.land b 15))) "").
Definition hex (bs : list Z) : string := String.concat "" (map hex_byte bs).

(** The UUID of 16 random bytes with its version and variant bits; [now] is
    only used when reading them fails. *)
Definition newRunID (random : option (list Z)) (now_hex : string) : string :=
  match random with
  | None => "run-" +:+ now_hex
  | Some b =>
      let b := alter (fun x => Z.lor (Z.land x 0x0f) 0x40) 6%nat b in
      let b := alter (fun x => Z.lor (Z.land x 0x3f) 0x80) 8%nat b in
      hex (take 4 b) +:+ "-" +:+ hex (take 2 (drop 4 b)) +:+ "-" +:+ hex (take 2 (drop 6 b)) +:+ "-"
      +:+ hex (take 2 (drop 8 b)) +:+ "-" +:+ hex (drop 10 b)
  end.
