(* ===== verification/IdempotencyProofs.v ===== *)
(** * What the idempotency stores promise

    The interface of a store with its laws, the two implementations as
    instances, and exclusion proved against the interface. *)

From S2P Require Import Prelude GoStrings Errors Idempotency.
From Stdlib Require Import Ascii.

#[local] Open Scope string_scope.
#[local] Open Scope Z_scope.

(** ** The interface *)

Class IdempotencyStore (S : Type) := {
  is_Check : Z -> string -> S -> checked * S;
  is_Record : Z -> IdempotencyRecord -> S -> option goerr * S;
  is_Reserve : Z -> string -> string -> S -> checked * S;
  is_Clear : string -> S -> option goerr * S;
  (* the trusted record of a key, expired or not *)
  is_raw : S -> string -> option IdempotencyRecord;
  is_ttl : S -> Z;
  (* records that the store can give back *)
  is_storable : IdempotencyRecord -> Prop
}.

Section interface.
Context {S : Type} `{IdempotencyStore S}.

Definition visible (s : S) (now : Z) (k : string) : option IdempotencyRecord :=
  match is_raw s k with
  | Some r => if expired (is_ttl s) now r then None else Some r
  | None => None
  end.

(** Everything is kept but possibly an expired record of [k]. *)
Definition reaps (now : Z) (k : string) (s s' : S) : Prop :=
  is_ttl s' = is_ttl s /\ (forall k', k' <> k -> is_raw s' k' = is_raw s k') /\
  (is_raw s' k = is_raw s k \/ is_raw s' k = None /\ visible s now k = None).

(** The record of [k] becomes [r]. *)
Definition stores (k : string) (r : IdempotencyRecord) (s s' : S) : Prop :=
  is_ttl s' = is_ttl s /\ (forall k', k' <> k -> is_raw s' k' = is_raw s k') /\
  is_raw s' k = Some r.

(** A run of the key is under way or has completed. *)
Definition taken (r : IdempotencyRecord) : Prop :=
  ir_Status r = idempotencyStatusCompleted \/ ir_Status r = idempotencyStatusInProgress.

(** What [Check] answers. *)
Definition check_post (now : Z) (k : string) (s : S) (r : IdempotencyRecord) (found : bool)
    (err : option goerr) (s' : S) : Prop :=
  reaps now k s s' /\
  match err, found with
  | None, true => visible s now k = Some r
  | None, false => visible s now k = None
  | Some _, _ => found = false
  end.

(** What [Reserve] does: the caller owns the run and the placeholder is
    stored, or the completed record is returned, or nothing is claimed. *)
Definition reserve_post (now : Z) (k run : string) (s : S) (r : IdempotencyRecord) (ok : bool)
    (err : option goerr) (s' : S) : Prop :=
  match ok, err with
  | true, None => (forall r0, visible s now k = Some r0 -> ~ taken r0) /\
      exists h, stores k (set_hmac h (placeholder k run now)) s s'
  | false, None => visible s now k = Some r /\ ir_Status r = idempotencyStatusCompleted /\
      reaps now k s s'
  | false, Some e => reaps now k s s' /\
      (e = ErrIdempotencyInProgress -> ir_Status r = idempotencyStatusInProgress ->
       visible s now k = Some r)
  | true, Some _ => False
  end.
End interface.

Class IdempotencyLaws (S : Type) `{IdempotencyStore S} := {
  law_Check : forall now k s r found err s',
    is_Check now k s = ((r, found, err), s') ->
    check_post now k s r found err s';
  law_Record : forall now r s err s',
    is_Record now r s = (err, s') -> is_storable (stamp_times now r) ->
    match err with
    | None => exists h, stores (ir_Key r) (set_hmac h (stamp_times now r)) s s'
    | Some _ => is_ttl s' = is_ttl s /\ forall k, is_raw s' k = is_raw s k
    end;
  law_Reserve : forall now k run s r ok err s',
    is_Reserve now k run s = ((r, ok, err), s') -> is_storable (placeholder k run now) ->
    reserve_post now k run s r ok err s';
  law_Clear : forall k s err s',
    is_Clear k s = (err, s') ->
    is_ttl s' = is_ttl s /\ (forall k', k' <> k -> is_raw s' k' = is_raw s k') /\
    match err with None => is_raw s' k = None | Some _ => is_raw s' k = is_raw s k end
}.

(** ** The memory store *)

Section memory.
Context (me : MacEnv).

Definition mem_raw (s : MemoryStore) (k : string) : option IdempotencyRecord :=
  r ← ms_recs s !! k; if verifyRecord me r then Some r else None.

Instance MemoryStore_ops : IdempotencyStore MemoryStore := {
  is_Check := mem_Check me; is_Record := mem_Record me; is_Reserve := mem_Reserve me;
  is_Clear := mem_Clear; is_raw := mem_raw; is_ttl := ms_ttl; is_storable _ := True
}.

Context (mac_nonempty : forall k t, me_mac me k t <> "").

Lemma sign_text_hmac h r : sign_text (set_hmac h r) = sign_text r.
Proof. done. Qed.

Lemma verify_signed r : verifyRecord me (signed me r) = true.
Proof using mac_nonempty.
  unfold verifyRecord, signed, signRecord. destruct (me_key me) as [k|] eqn:Ek; [|done].
  cbn [ir_HMAC set_hmac]. rewrite decide_False by apply mac_nonempty.
  rewrite sign_text_hmac. by apply bool_decide_eq_true.
Qed.

Lemma mem_raw_insert k k' r s : mem_raw (mkMem (<[k := signed me r]> (ms_recs s)) (ms_ttl s)) k'
  = if decide (k' = k) then Some (signed me r) else mem_raw s k'.
Proof using mac_nonempty.
  unfold mem_raw. cbn. case_decide as Hk.
  - subst. rewrite lookup_insert_eq. cbn. by rewrite verify_signed.
  - by rewrite lookup_insert_ne.
Qed.

Lemma mem_raw_delete k k' s : mem_raw (mkMem (delete k (ms_recs s)) (ms_ttl s)) k'
  = if decide (k' = k) then None else mem_raw s k'.
Proof.
  unfold mem_raw. cbn. case_decide as Hk; [by subst; rewrite lookup_delete_eq|].
  by rewrite lookup_delete_ne.
Qed.

Lemma visible_mem s now k : visible s now k =
  match ms_recs s !! k with
  | Some r => if expired (ms_ttl s) now r || negb (verifyRecord me r) then None else Some r
  | None => None
  end.
Proof.
  unfold visible. cbn. unfold mem_raw. destruct (ms_recs s !! k) as [r|]; [|done]. cbn.
  destruct (verifyRecord me r); cbn; [by rewrite orb_false_r|by rewrite orb_true_r].
Qed.

Lemma reaps_refl now k (s : MemoryStore) : reaps now k s s.
Proof. split_and!; auto. Qed.

Lemma reaps_delete now k s :
  visible s now k = None -> reaps now k s (mkMem (delete k (ms_recs s)) (ms_ttl s)).
Proof.
  intros Hv. split_and!; [done| |].
  - intros k' Hne. cbn. by rewrite mem_raw_delete, decide_False.
  - right. cbn. by rewrite mem_raw_delete, decide_True.
Qed.

Lemma mem_Check_law now k s r found err s' :
  mem_Check me now k s = ((r, found, err), s') ->
  check_post now k s r found err s'.
Proof.
  unfold mem_Check. pose proof (visible_mem s now k) as Hv.
  destruct (ms_recs s !! k) as [r0|].
  2:{ intros [= <- <- <- <-]. split; [apply reaps_refl|done]. }
  destruct (expired _ _ _); [intros [= <- <- <- <-]; split; [by apply reaps_delete|done]|].
  destruct (verifyRecord me r0); intros [= <- <- <- <-]; cbn [orb negb] in Hv.
  - split; [apply reaps_refl|done].
  - split; [by apply reaps_delete|done].
Qed.

Lemma mem_claim_stores now k run s s0 :
  ms_ttl s0 = ms_ttl s -> (forall k', k' <> k -> mem_raw s0 k' = mem_raw s k') ->
  stores k (signed me (placeholder k run now)) s (mem_claim me now k run s0).2.
Proof using mac_nonempty.
  intros Ht Hr. split_and!; [done| |]; cbn.
  - intros k' Hne. rewrite mem_raw_insert, decide_False by done. auto.
  - by rewrite mem_raw_insert, decide_True.
Qed.

Lemma mem_Reserve_law now k run s r ok err s' :
  mem_Reserve me now k run s = ((r, ok, err), s') ->
  reserve_post now k run s r ok err s'.
Proof using mac_nonempty.
  unfold mem_Reserve. case_decide as Hk.
  { intros [= <- <- <- <-]. split; [apply reaps_refl|done]. }
  pose proof (visible_mem s now k) as Hv.
  assert (forall s0, ms_ttl s0 = ms_ttl s -> (forall k', k' <> k -> mem_raw s0 k' = mem_raw s k') ->
    exists h, stores k (set_hmac h (placeholder k run now)) s (mem_claim me now k run s0).2) as Hcl.
  { intros s0 H1 H2. exists (signRecord me (placeholder k run now)). by apply mem_claim_stores. }
  assert (forall k', k' <> k -> mem_raw (mkMem (delete k (ms_recs s)) (ms_ttl s)) k' = mem_raw s k')
    as Hdel by (intros; by rewrite mem_raw_delete, decide_False).
  destruct (ms_recs s !! k) as [r0|].
  2:{ intros [= <- <- <- <-]. split; [by intros r1; rewrite Hv|]. by apply Hcl. }
  destruct (expired _ _ _).
  { intros [= <- <- <- <-]. split; [by intros r1; rewrite Hv|]. by apply (Hcl (mkMem _ _)). }
  destruct (verifyRecord me r0); cbn [negb orb] in *.
  2:{ intros [= <- <- <- <-]. split; [by intros r1; rewrite Hv|]. by apply (Hcl (mkMem _ _)). }
  case_decide as Hc; [intros [= <- <- <- <-]; split_and!; auto using reaps_refl|].
  case_decide as Hp; [intros [= <- <- <- <-]; split; auto using reaps_refl|].
  intros [= <- <- <- <-]. split; [|by apply Hcl]. rewrite Hv. intros r1 [= <-] [?|?]; done.
Qed.

#[export] Instance MemoryStore_laws : IdempotencyLaws MemoryStore.
Proof using mac_nonempty.
  split.
  - apply mem_Check_law.
  - cbn. unfold mem_Record. intros now r s err s'. case_decide; intros [= <- <-] _; [done|].
    exists (signRecord me (stamp_times now r)). split_and!; [done| |]; cbn.
    + intros k' Hne. by rewrite mem_raw_insert, decide_False.
    + by rewrite mem_raw_insert, decide_True.
  - intros now k run s r ok err s' Hres _. by apply mem_Reserve_law in Hres.
  - cbn. unfold mem_Clear. intros k s err s' [= <- <-]. split_and!; [done| |].
    + intros k' Hne. by rewrite mem_raw_delete, decide_False.
    + by rewrite mem_raw_delete, decide_True.
Qed.
End memory.

(** ** The file store *)

Section file.
Context (me : MacEnv) (fe : FileEnv) (P : IdempotencyRecord -> Prop).

Definition file_raw (s : FileStore) (k : string) : option IdempotencyRecord :=
  data ← fs_files s !! fe_hash fe k;
  if decide (data = "") then None else
  match fe_Unmarshal fe data with
  | Ok r => if verifyRecord me r then Some r else None
  | Err _ => None
  end.

Instance FileStore_ops : IdempotencyStore FileStore := {
  is_Check := file_Check me fe; is_Record := file_Record me fe; is_Reserve := file_Reserve me fe;
  is_Clear := file_Clear fe; is_raw := file_raw; is_ttl := fs_ttl; is_storable := P
}.

Context (mac_nonempty : forall k t, me_mac me k t <> "").
Context (hash_inj : forall k k', fe_hash fe k = fe_hash fe k' -> k = k').
Context (codec : forall r data, P r -> fe_Marshal fe (signed me r) = Ok data ->
  data <> "" /\ fe_Unmarshal fe data = Ok (signed me r)).

(** The record files and the time to live are the same. *)
Definition same_files (s s' : FileStore) : Prop :=
  fs_files s' = fs_files s /\ fs_ttl s' = fs_ttl s.

Lemma same_files_raw s s' k : same_files s s' -> file_raw s' k = file_raw s k.
Proof. intros [H1 H2]. unfold file_raw. by rewrite H1. Qed.

Lemma fs_call_same s err s' : fs_call fe s = (err, s') -> same_files s s'.
Proof. by intros [= <- <-]. Qed.

Lemma remove_tmp_same s : same_files s (remove_tmp fe s).
Proof. unfold remove_tmp, fs_call. by destruct (fe_io fe _). Qed.

Lemma readLocked_spec k s r found err s' :
  readLocked me fe k s = ((r, found, err), s') ->
  same_files s s' /\
  match err, found with
  | None, true => file_raw s k = Some r
  | None, false => file_raw s k = None
  | Some _, _ => found = false
  end.
Proof.
  unfold readLocked, file_raw. destruct (fs_files s !! fe_hash fe k) as [data|]; cbn.
  2:{ by intros [= <- <- <- <-]. }
  destruct (fe_io fe (fs_calls s)); [by intros [= <- <- <- <-]|].
  case_decide; [by intros [= <- <- <- <-]|].
  destruct (fe_Unmarshal fe data) as [r0|e]; [|by intros [= <- <- <- <-]].
  destruct (verifyRecord me r0); by intros [= <- <- <- <-].
Qed.

(** A write succeeds as a whole or leaves the record files alone. *)
Lemma write_tmp_file_spec k data s err s' :
  write_tmp_file fe k data s = (err, s') ->
  fs_ttl s' = fs_ttl s /\
  fs_files s' = match err with None => <[fe_hash fe k := data]> (fs_files s) | Some _ => fs_files s end.
Proof.
  unfold write_tmp_file.
  destruct (fs_call fe s) as [e1 s1] eqn:E1. apply fs_call_same in E1 as [F1 T1].
  destruct e1; [intros [= <- <-]; done|].
  destruct (fs_call fe _) as [e2 s2] eqn:E2. apply fs_call_same in E2 as [F2 T2].
  destruct e2.
  { destruct (remove_tmp_same s2) as [? ?]. intros [= <- <-]. cbn in *. split; congruence. }
  destruct (fs_call fe s2) as [e3 s3] eqn:E3. apply fs_call_same in E3 as [F3 T3].
  destruct e3.
  { destruct (remove_tmp_same s3) as [? ?]. intros [= <- <-]. cbn in *. split; congruence. }
  destruct (fs_call fe s3) as [e4 s4] eqn:E4. apply fs_call_same in E4 as [F4 T4].
  destruct e4.
  { destruct (remove_tmp_same s4) as [? ?]. intros [= <- <-]. cbn in *. split; congruence. }
  destruct (fs_call fe s4) as [e5 s5] eqn:E5. apply fs_call_same in E5 as [F5 T5].
  destruct e5.
  { destruct (remove_tmp_same s5) as [? ?]. intros [= <- <-]. cbn in *. split; congruence. }
  intros [= <- <-]. cbn in *. split; congruence.
Qed.

Lemma writeLocked_spec now k r s err s' :
  writeLocked me fe now k r s = (err, s') -> P (stamp_times now r) ->
  match err with
  | None => stores k (signed me (stamp_times now r)) s s'
  | Some _ => same_files s s'
  end.
Proof using mac_nonempty hash_inj codec.
  unfold writeLocked. intros Hw HP.
  destruct (fe_Marshal fe _) as [data|e] eqn:Em; [|by injection Hw as <- <-].
  apply codec in Em as [Hne Hu]; [|done].
  apply write_tmp_file_spec in Hw as [Ht Hf]. destruct err; [done|].
  split_and!; [done| |]; cbn; unfold file_raw; rewrite Hf.
  - intros k' Hk. rewrite lookup_insert_ne; [done|]. intros Heq. by apply Hk, hash_inj.
  - rewrite lookup_insert_eq. cbn. rewrite decide_False by done.
    by rewrite Hu, verify_signed.
Qed.

Lemma remove_file_spec k s err s' : remove_file fe k s = (err, s') ->
  fs_ttl s' = fs_ttl s /\ (forall k', k' <> k -> file_raw s' k' = file_raw s k') /\
  file_raw s' k = match err with None => None | Some _ => file_raw s k end.
Proof using hash_inj.
  unfold remove_file. destruct (fs_call fe s) as [e s1] eqn:E1.
  apply fs_call_same in E1 as [F1 T1].
  destruct e; intros [= <- <-]; unfold file_raw; cbn; rewrite F1; [done|].
  split_and!; [done| |by rewrite lookup_delete_eq].
  intros k' Hk. rewrite lookup_delete_ne; [done|]. intros Heq. by apply Hk, hash_inj.
Qed.

Lemma visible_file s now k : visible s now k =
  match file_raw s k with Some r => if expired (fs_ttl s) now r then None else Some r | None => None end.
Proof. done. Qed.

Lemma same_reaps now k s s' : same_files s s' -> reaps now k s s'.
Proof.
  intros H. split_and!; [apply H| |left]; cbn; intros; by apply same_files_raw.
Qed.

Lemma remove_reaps now k s s1 : same_files s s1 -> visible s now k = None ->
  reaps now k s (remove_file fe k s1).2.
Proof using hash_inj.
  intros Hs Hv. destruct (remove_file fe k s1) as [e s2] eqn:Er.
  apply remove_file_spec in Er as (Ht & Ho & Hk). destruct Hs as [HF HT]. cbn.
  split_and!; cbn; [congruence| |].
  - intros k' Hne. rewrite Ho by done. by apply same_files_raw.
  - rewrite Hk. destruct e; [left; by apply same_files_raw|by right].
Qed.

Lemma file_Check_law now k s r found err s' :
  file_Check me fe now k s = ((r, found, err), s') ->
  check_post now k s r found err s'.
Proof using hash_inj.
  unfold file_Check. destruct (readLocked me fe k s) as [[[r0 f0] e0] s0] eqn:Er.
  apply readLocked_spec in Er as [Hs Hr]. unfold check_post. rewrite visible_file.
  destruct e0; [destruct f0; intros [= <- <- <- <-]; (split; [by apply same_reaps|done])|].
  destruct f0; rewrite Hr.
  2:{ intros [= <- <- <- <-]. split; [by apply same_reaps|done]. }
  rewrite (proj2 Hs). destruct (expired _ _ _) eqn:Ex; intros [= <- <- <- <-].
  - split; [|done]. apply remove_reaps; [done|]. by rewrite visible_file, Hr, Ex.
  - split; [by apply same_reaps|done].
Qed.

(** What claiming a key does, whatever was visible. *)
Lemma file_claim_spec now k run s s0 r ok err s' :
  file_claim me fe now k run s0 = ((r, ok, err), s') -> P (placeholder k run now) ->
  reaps now k s s0 ->
  match ok, err with
  | true, None => exists h, stores k (set_hmac h (placeholder k run now)) s s'
  | false, Some _ => reaps now k s s' /\ r = zero_record
  | _, _ => False
  end.
Proof using mac_nonempty hash_inj codec.
  assert (stamp_times now (placeholder k run now) = placeholder k run now) as Hst
    by (unfold stamp_times, placeholder; cbn; by destruct (now =? 0)).
  unfold file_claim. intros Hc HP Hre.
  destruct (writeLocked me fe now k _ s0) as [e s1] eqn:Ew.
  apply writeLocked_spec in Ew; [|by rewrite Hst]. rewrite Hst in Ew.
  destruct Hre as (Ht & Ho & Hk). destruct e; injection Hc as <- <- <- <-.
  - split; [|done]. destruct Ew as [HF HT]. split_and!; cbn in *; [congruence| |].
    + intros k' Hne. rewrite <- Ho by done. by apply same_files_raw.
    + by rewrite (same_files_raw s0 s1).
  - exists (signRecord me (placeholder k run now)). destruct Ew as (Ht1 & Ho1 & Hk1).
    split_and!; cbn in *; [congruence| |done]. intros k' Hne. by rewrite Ho1, Ho.
Qed.

Lemma file_Reserve_law now k run s r ok err s' :
  file_Reserve me fe now k run s = ((r, ok, err), s') -> P (placeholder k run now) ->
  reserve_post now k run s r ok err s'.
Proof using mac_nonempty hash_inj codec.
  unfold file_Reserve. intros Hres HP.
  case_decide; [injection Hres as <- <- <- <-; split; [by apply same_reaps|done]|].
  destruct (fs_call fe s) as [e1 s1] eqn:E1. apply fs_call_same in E1 as S1.
  destruct e1; [injection Hres as <- <- <- <-; split; [by apply same_reaps|done]|].
  destruct (fs_call fe s1) as [e2 s2] eqn:E2. apply fs_call_same in E2 as S2.
  assert (same_files s s2) as S02 by (destruct S1, S2; split; congruence).
  destruct e2; [injection Hres as <- <- <- <-; split; [by apply same_reaps|done]|].
  destruct (readLocked me fe k s2) as [[[r3 f3] e3] s3] eqn:E3.
  apply readLocked_spec in E3 as [S3 Hr].
  assert (same_files s s3) as S03 by (destruct S02, S3; split; congruence).
  assert (visible s now k = match file_raw s2 k with
    | Some r => if expired (fs_ttl s) now r then None else Some r | None => None end) as Hv
    by (by rewrite visible_file, (same_files_raw s s2)).
  destruct e3; [subst f3; injection Hres as <- <- <- <-; split; [by apply same_reaps|done]|].
  assert (forall s4, reaps now k s s4 -> visible s now k = None \/
      (exists r0, visible s now k = Some r0 /\ ~ taken r0) ->
    file_claim me fe now k run s4 = ((r, ok, err), s') ->
    reserve_post now k run s r ok err s') as Hclaim.
  { intros s4 Hre Hnt Hc. apply (file_claim_spec _ _ _ s) in Hc; [|done..].
    unfold reserve_post. destruct ok, err; try done.
    - split; [|done]. intros r0 Hr0. destruct Hnt as [Hn|(r1 & Hr1 & Hn)]; congruence.
    - destruct Hc as [Hc ->]. by split. }
  destruct f3; rewrite Hr in Hv.
  2:{ apply (Hclaim s3); [by apply same_reaps|by left|done]. }
  rewrite (proj2 S03) in Hres. destruct (expired (fs_ttl s) now r3) eqn:Ex.
  { eapply Hclaim; [|by left|exact Hres]. by apply remove_reaps. }
  case_decide as Hc; [injection Hres as <- <- <- <-; split_and!; auto; by apply same_reaps|].
  case_decide as Hp; [injection Hres as <- <- <- <-; split; auto; by apply same_reaps|].
  apply (Hclaim s3); [by apply same_reaps| |done]. right. exists r3. split; [done|].
  intros [?|?]; done.
Qed.

#[export] Instance FileStore_laws : IdempotencyLaws FileStore.
Proof using mac_nonempty hash_inj codec.
  split.
  - apply file_Check_law.
  - cbn. unfold file_Record. intros now r s err s' Hr HP.
    case_decide; [by injection Hr as <- <-|].
    destruct (fs_call fe s) as [e1 s1] eqn:E1. apply fs_call_same in E1 as S1.
    destruct e1.
    { injection Hr as <- <-. split; [apply S1|]. intros k. by apply same_files_raw. }
    apply writeLocked_spec in Hr; [|done]. destruct err.
    + destruct S1, Hr as [??]. split; [congruence|]. intros k. unfold file_raw. congruence.
    + exists (signRecord me (stamp_times now r)). destruct Hr as (H1 & H2 & H3), S1 as [HF HT].
      split_and!; cbn in *; [congruence| |done]. intros k Hne. rewrite H2 by done.
      by apply same_files_raw.
  - apply file_Reserve_law.
  - cbn. unfold file_Clear. intros k s err s' Hc.
    destruct (fs_files s !! fe_hash fe k) eqn:El.
    + destruct (remove_file fe k s) as [e s1] eqn:Er.
      apply remove_file_spec in Er as (H1 & H2 & H3). by destruct e; injection Hc as <- <-.
    + injection Hc as <- <-. split_and!; try done. unfold file_raw. cbn. by rewrite El.
Qed.
End file.

(** ** One owner per key *)

(** Calls on a store by any number of callers, in the order in which the
    store's lock admits them. *)
Inductive idem_event :=
  | EvCheck (now : Z) (k : string)
  | EvReserve (now : Z) (k run : string)
  | EvRecord (now : Z) (r : IdempotencyRecord)
  | EvClear (k : string).

Section exclusion.
Context {S : Type} `{HS : IdempotencyStore S, HL : !IdempotencyLaws S}.

(** The state after an event, and whether it claimed a key. *)
Definition idem_step (s : S) (e : idem_event) : bool * S :=
  match e with
  | EvCheck now k => (false, (is_Check now k s).2)
  | EvReserve now k run => let '(r, ok, err, s') := is_Reserve now k run s in (ok, s')
  | EvRecord now r => (false, (is_Record now r s).2)
  | EvClear k => (false, (is_Clear k s).2)
  end.

(** The claims that the events obtain. *)
Fixpoint idem_run (s : S) (evs : list idem_event) : list bool :=
  match evs with
  | [] => []
  | e :: evs => let '(ok, s') := idem_step s e in ok :: idem_run s' evs
  end.

(** Events between [t0] and the expiry of a record of [t0] that do not give
    the key [k] free: no [Clear] and no [Record] of a failed run. *)
Definition keeps_key (k : string) (t0 ttl : Z) (e : idem_event) : Prop :=
  let in_time now := t0 <= now /\ (0 < ttl -> now - t0 <= ttl) in
  match e with
  | EvCheck now _ => in_time now
  | EvReserve now k' run => in_time now /\ is_storable (placeholder k' run now)
  | EvRecord now r => in_time now /\ is_storable (stamp_times now r) /\
      (ir_Key r = k -> taken r /\ t0 <= ir_UpdatedAt (stamp_times now r))
  | EvClear k' => k' <> k
  end.

(** The key is taken by a record that is younger than [t0]. *)
Definition held (k : string) (t0 ttl : Z) (s : S) : Prop :=
  is_ttl s = ttl /\ exists r, is_raw s k = Some r /\ taken r /\ t0 <= ir_UpdatedAt r.

Lemma not_expired ttl t0 now r :
  t0 <= ir_UpdatedAt r -> (0 < ttl -> now - t0 <= ttl) -> expired ttl now r = false.
Proof.
  intros H1 H2. unfold expired, since. apply andb_false_iff.
  destruct (Z.ltb_spec 0 ttl); [right|by left]. apply Z.ltb_ge. specialize (H2 ltac:(lia)).
  unfold int64_min. lia.
Qed.

Lemma held_visible k t0 ttl s now : held k t0 ttl s -> (0 < ttl -> now - t0 <= ttl) ->
  exists r, is_raw s k = Some r /\ visible s now k = Some r /\ taken r /\ t0 <= ir_UpdatedAt r.
Proof.
  intros [Ht (r & Hr & Htk & Hu)] Hn. exists r. split_and!; try done. unfold visible.
  rewrite Hr, Ht. by rewrite (not_expired ttl t0).
Qed.

Lemma held_reaps k t0 ttl s s' now k' :
  held k t0 ttl s -> (0 < ttl -> now - t0 <= ttl) -> reaps now k' s s' -> held k t0 ttl s'.
Proof.
  intros Hh Hn (Ht & Ho & Hk). destruct (held_visible _ _ _ _ now Hh Hn) as (r & Hr & Hv & Htk & Hu).
  split; [destruct Hh; congruence|]. exists r. split_and!; try done.
  destruct (decide (k = k')) as [->|Hne]; [|by rewrite Ho].
  destruct Hk as [->|[_ Hnone]]; [done|congruence].
Qed.

Lemma keeps_key_step k t0 ttl s e :
  held k t0 ttl s -> keeps_key k t0 ttl e ->
  held k t0 ttl (idem_step s e).2 /\
  (forall now run, e = EvReserve now k run -> (idem_step s e).1 = false).
Proof using HL.
  intros Hh He. destruct e as [now k'|now k' run|now r|k']; cbn in *.
  - destruct (is_Check now k' s) as [[[r f] er] s'] eqn:E. apply law_Check in E as [Hre _].
    split; [|done]. by eapply held_reaps; [|apply He|].
  - destruct He as [[Hlo Hhi] Hst].
    destruct (is_Reserve now k' run s) as [[[r ok] er] s'] eqn:E.
    apply law_Reserve in E; [|done]. unfold reserve_post in E.
    assert (k' = k -> ok = false) as Hno.
    { intros ->. destruct (held_visible _ _ _ _ now Hh Hhi) as (r0 & _ & Hv & Htk & _).
      destruct ok, er; try done. destruct E as [E _]. by apply E in Hv. }
    split; [|by intros ? ? [= <- <- <-]; apply Hno].
    destruct ok, er as [g|]; try done.
    + destruct E as [_ (h & Ht & Ho & _)].
      assert (k <> k') as Hne by (intros <-; by specialize (Hno eq_refl)).
      destruct Hh as [Htt (r0 & Hr0 & ?)]. split; [cbn; congruence|].
      exists r0. by rewrite Ho.
    + destruct E as [Hre _]. by eapply held_reaps.
    + destruct E as (_ & _ & Hre). by eapply held_reaps.
  - destruct He as (_ & Hst & Hk). split; [|done].
    destruct (is_Record now r s) as [er s'] eqn:E. apply law_Record in E; [|done].
    destruct Hh as [Htt (r0 & Hr0 & Htk & Hu)]. cbn. destruct er as [g|].
    + destruct E as [Ht Ho]. split; [congruence|]. exists r0. by rewrite Ho.
    + destruct E as (h & Ht & Ho & Hs). split; [congruence|].
      destruct (decide (ir_Key r = k)) as [<-|Hne].
      * destruct (Hk eq_refl) as [Ht' Hu']. by eexists.
      * exists r0. by rewrite Ho by done.
  - split; [|done]. destruct (is_Clear k' s) as [er s'] eqn:E.
    apply law_Clear in E as (Ht & Ho & _). destruct Hh as [Htt (r0 & Hr0 & ?)].
    split; [cbn; congruence|]. exists r0. cbn. by rewrite Ho.
Qed.

Lemma held_run k t0 ttl evs : forall s, held k t0 ttl s -> Forall (keeps_key k t0 ttl) evs ->
  Forall2 (fun e ok => forall now run, e = EvReserve now k run -> ok = false) evs (idem_run s evs).
Proof using HL.
  induction evs as [|e evs IH]; intros s Hh HF; cbn; [constructor|].
  apply Forall_cons in HF as [He HF]. destruct (idem_step s e) as [ok s'] eqn:Es.
  destruct (keeps_key_step _ _ _ _ _ Hh He) as [Hh' Hno]. rewrite Es in Hh', Hno.
  constructor; [exact Hno|]. by apply IH.
Qed.
End exclusion.

(** C13: the ledger admits one run per key: after a successful [Reserve], no
    other [Reserve] of that key succeeds, in any interleaving of calls by any
    callers, until the record expires, is cleared, or a failed run is
    recorded.  Proved against the interface, so it holds of both stores. *)
Theorem reserve_exclusive {S : Type} `{IdempotencyLaws S} (s s1 : S) now k run r evs :
  is_Reserve now k run s = ((r, true, None), s1) -> is_storable (placeholder k run now) ->
  Forall (keeps_key k now (is_ttl s)) evs ->
  Forall2 (fun e ok => forall t run', e = EvReserve t k run' -> ok = false)
    evs (idem_run s1 evs).
Proof.
  intros Hr Hst HF. apply law_Reserve in Hr as [_ (h & Ht & _ & Hs)]; [|done].
  apply (held_run k now (is_ttl s)); [|done]. split; [done|]. eexists. split_and!; [done| |].
  - by right.
  - cbn. lia.
Qed.

(** A MAC for examples: the text itself. *)
Definition demo_mac : MacEnv := mkMacEnv (fun k t => "mac:" +:+ k +:+ t) (Some "secret").

Lemma demo_mac_nonempty k t : me_mac demo_mac k t <> "".
Proof. done. Qed.

Definition demo_events : list idem_event :=
  [EvReserve 6 "pay-1" "run-b"; EvReserve 7 "pay-2" "run-c";
   EvRecord 8 (mkIdem "pay-1" "run-a" "wf" idempotencyStatusCompleted "ok" "" 8 8 "");
   EvReserve 90 "pay-1" "run-d"].
Definition demo_claimed : MemoryStore :=
  (mem_Reserve demo_mac 5 "pay-1" "run-a" (NewMemoryIdempotencyStore 100)).2.

Lemma reserve_exclusive_witness :
  let store := MemoryStore_ops demo_mac in
  idem_run demo_claimed demo_events = [false; true; false; false] /\
  Forall2 (fun e ok => forall t run', e = EvReserve t "pay-1" run' -> ok = false)
    demo_events (idem_run demo_claimed demo_events).
Proof.
  intros store. split; [vm_compute; reflexivity|].
  refine (@reserve_exclusive MemoryStore store (MemoryStore_laws demo_mac demo_mac_nonempty)
    (NewMemoryIdempotencyStore 100) demo_claimed 5 "pay-1" "run-a"
    (signed demo_mac (placeholder "pay-1" "run-a" 5)) demo_events _ I _).
  - vm_compute. reflexivity.
  - repeat constructor; cbn; try lia; try done; by left.
Defined.

(** ** Two behaviours that break the promise *)

(** the errors of a cache hit and of a rejected duplicate cannot be told
    apart: errors.Is finds [ErrIdempotencyHit] in both, although the caller
    of a hit has an output and the caller of a rejection has none. *)
Theorem idempotency_errors_confused :
  errors_Is ErrIdempotencyInProgress ErrIdempotencyHit = true /\
  errors_Is ErrIdempotencyHit ErrIdempotencyInProgress = true /\
  ErrIdempotencyInProgress <> ErrIdempotencyHit.
Proof. split_and!; [vm_compute; reflexivity..|discriminate]. Qed.

Lemma unreadable_reserve me fe k now run s rec ok err s' :
  file_raw me fe s k = None -> file_Reserve me fe now k run s = ((rec, ok, err), s') ->
  ok = true \/ err <> None.
Proof.
  intros Hraw. unfold file_Reserve.
  case_decide; [intros [= <- <- <- <-]; by right|].
  destruct (fs_call fe s) as [e1 s1] eqn:E1. apply fs_call_same in E1 as S1.
  destruct e1; [intros [= <- <- <- <-]; by right|].
  destruct (fs_call fe s1) as [e2 s2] eqn:E2. apply fs_call_same in E2 as S2.
  destruct e2; [intros [= <- <- <- <-]; by right|].
  destruct (readLocked me fe k s2) as [[[r3 f3] e3] s3] eqn:E3.
  apply readLocked_spec in E3 as [_ Hr].
  destruct e3; [subst f3; intros [= <- <- <- <-]; by right|].
  rewrite (same_files_raw me fe s1 s2), (same_files_raw me fe s s1), Hraw in Hr by done.
  destruct f3; [done|]. unfold file_claim.
  destruct (writeLocked _ _ _ _ _ _) as [[e|] s4]; intros [= <- <- <- <-]; [by right|by left].
Qed.

(** a completed run is executed again when its record does not survive JSON:
    with a MAC key configured, a record whose text is changed by the
    encoding (invalid UTF-8 in the final output becomes U+FFFD) no longer
    verifies, so after it was recorded without an error [Check] does not find
    it and the next [Reserve] of its key succeeds unless the disk fails. *)
Theorem unstable_record_reexecutes me fe s r data r' key now s1 :
  me_key me = Some key -> ir_HMAC r' = signRecord me (stamp_times now r) ->
  signRecord me r' <> signRecord me (stamp_times now r) ->
  fe_Marshal fe (signed me (stamp_times now r)) = Ok data -> fe_Unmarshal fe data = Ok r' ->
  file_Record me fe now r s = (None, s1) ->
  (forall t, (file_Check me fe t (ir_Key r) s1).1.1.2 = false) /\
  (forall t run rec ok err s2, file_Reserve me fe t (ir_Key r) run s1 = ((rec, ok, err), s2) ->
     ok = true \/ err <> None).
Proof.
  intros Hkey Hmac Hneq Hm Hu Hrec.
  unfold file_Record in Hrec. destruct (decide (ir_Key r = "")) as [|Hk]; [done|].
  destruct (fs_call fe s) as [e0 s0] eqn:E0. destruct e0; [done|].
  unfold writeLocked in Hrec. rewrite Hm in Hrec. apply write_tmp_file_spec in Hrec as [_ Hf].
  assert (file_raw me fe s1 (ir_Key r) = None) as Hraw.
  { unfold file_raw. rewrite Hf, lookup_insert_eq. cbn. case_decide; [done|].
    rewrite Hu. unfold verifyRecord. rewrite Hkey. case_decide; [done|].
    rewrite bool_decide_eq_false_2; [done|]. congruence. }
  split; [|intros; by eapply unreadable_reserve].
  intros t. unfold file_Check.
  destruct (readLocked me fe (ir_Key r) s1) as [[[r3 f3] e3] s3] eqn:E3.
  apply readLocked_spec in E3 as [_ Hr].
  destruct e3; [by subst f3|]. destruct f3; [congruence|done].
Qed.

(** A sample directory: decoding replaces the output "bad" byte by "?". *)
Definition paid (out : string) : IdempotencyRecord :=
  mkIdem "pay-1" "run-a" "wf" idempotencyStatusCompleted out "" 8 8 "".
Definition lossy_env : FileEnv := mkFileEnv (fun k => k) (fun r => Ok (sign_text r))
  (fun _ => Ok (set_hmac (signRecord demo_mac (paid "bad")) (paid "?"))) (fun _ => None).

Lemma unstable_record_reexecutes_witness :
  let s1 := (file_Record demo_mac lossy_env 8 (paid "bad") (NewFileIdempotencyStore 0)).2 in
  (file_Check demo_mac lossy_env 9 "pay-1" s1).1.1.2 = false /\
  (file_Reserve demo_mac lossy_env 9 "pay-1" "run-b" s1).1.1.2 = true.
Proof.
  intros s1. split; [|vm_compute; reflexivity].
  refine (proj1 (unstable_record_reexecutes demo_mac lossy_env (NewFileIdempotencyStore 0)
    (paid "bad") (sign_text (paid "bad")) _ "secret" 8 s1 eq_refl _ _ _ eq_refl _) 9).
  - vm_compute. reflexivity.
  - vm_compute. discriminate.
  - vm_compute. reflexivity.
  - vm_compute. reflexivity.
Defined.
