(* ===== verification/FileLock.v ===== *)
(** * The cross-process lock (acquireCrossProcessLock of
    src/internal/workflow/idempotency.go, lockAuditLog of
    src/internal/history/history_append.go)

    Processes that share a directory take turns through a sentinel file that
    is created exclusively, removed on release, and reclaimed when it is old.
    Each process is a small machine whose steps are single system calls;
    events interleave them with the clock and with crashes.  Between taking
    and releasing the lock a process does what [Reserve] does: it reads
    whether the key is taken and, if it is not, claims it. *)

From S2P Require Import Prelude.

#[local] Open Scope Z_scope.

(** Where a process is; [dl] is its deadline, [t] when it made the sentinel. *)
Inductive proc :=
  | PIdle                    (* has not called yet *)
  | PTry (dl : Z)            (* about to create the sentinel *)
  | PExists (dl : Z)         (* the sentinel was there; about to look at its age *)
  | PStale (dl : Z)          (* it was old; about to remove it *)
  | PRead (t : Z)            (* holds the lock; about to read the record *)
  | PClaim (t : Z)           (* holds the lock; the key was free *)
  | PRelease (t : Z) (won : bool)
  | PDone (won : bool)
  | PGone.                   (* timed out, failed or crashed *)

#[export] Instance proc_eq_dec : EqDecision proc.
Proof. solve_decision. Defined.

Record lockState := mkLock {
  lk_now : Z;
  lk_file : option Z;        (* the sentinel with its modification time *)
  lk_taken : bool;           (* the key has an in-progress record *)
  lk_procs : list proc
}.

Definition crossProcessLockTimeout : Z := 5 * 10 ^ 9.
Definition crossProcessLockStale : Z := 30 * 10 ^ 9.

(** The poll loop gives up after the deadline. *)
Definition retry (dl now : Z) : proc := if dl <? now then PGone else PTry dl.

(** The next system call of a process; [ok] tells whether the call works where
    it can fail: creating the sentinel for another reason than its existence,
    looking at its age, removing it, reading and writing the record. *)
Definition proc_step (ok : bool) (p : proc) (now : Z) (file : option Z) (taken : bool)
    : proc * option Z * bool :=
  match p with
  | PIdle => (PTry (now + crossProcessLockTimeout), file, taken)
  | PTry dl =>
      if negb ok then (PGone, file, taken)
      else match file with
           | None => (PRead now, Some now, taken)
           | Some _ => (PExists dl, file, taken)
           end
  | PExists dl =>
      match file with
      | Some m => if ok && (crossProcessLockStale <? now - m) then (PStale dl, file, taken)
                  else (retry dl now, file, taken)
      | None => (retry dl now, file, taken)
      end
  | PStale dl => if ok then (PTry dl, None, taken) else (retry dl now, file, taken)
  | PRead t => (if negb ok || taken then PRelease t false else PClaim t, file, taken)
  | PClaim t => if ok then (PRelease t true, file, true) else (PRelease t false, file, taken)
  | PRelease _ won => (PDone won, if ok then None else file, taken)
  | PDone _ | PGone => (p, file, taken)
  end.

Inductive lock_event :=
  | LStep (i : nat) (ok : bool)
  | LTick (d : Z)
  | LCrash (i : nat).

(** A crashed process never comes back and leaves its sentinel behind. *)
Definition lock_step (s : lockState) (e : lock_event) : lockState :=
  match e with
  | LStep i ok =>
      match lk_procs s !! i with
      | None => s
      | Some p =>
          let '(p', file, taken) := proc_step ok p (lk_now s) (lk_file s) (lk_taken s) in
          mkLock (lk_now s) file taken (<[i := p']> (lk_procs s))
      end
  | LTick d => mkLock (lk_now s + Z.max 0 d) (lk_file s) (lk_taken s) (lk_procs s)
  | LCrash i => mkLock (lk_now s) (lk_file s) (lk_taken s) (<[i := PGone]> (lk_procs s))
  end.

Definition lock_start (now : Z) (n : nat) : lockState :=
  mkLock now None false (replicate n PIdle).

(** ** Exclusion *)

Definition holding (p : proc) : option Z :=
  match p with PRead t | PClaim t | PRelease t _ => Some t | _ => None end.
Definition won (p : proc) : bool :=
  match p with PRelease _ true | PDone true => true | _ => false end.

(** Nobody holds the lock for longer than the age at which it is reclaimed. *)
Definition timely (s : lockState) : Prop :=
  forall i p t, lk_procs s !! i = Some p -> holding p = Some t ->
    lk_now s - t <= crossProcessLockStale.

(** A crash, and a release that fails, leave a sentinel without an owner. *)
Definition orphans (s : lockState) (e : lock_event) : bool :=
  match e with
  | LCrash _ => true
  | LStep i ok =>
      match lk_procs s !! i with Some (PRelease _ _) => negb ok | _ => false end
  | LTick _ => false
  end.

(** Every state of the run is timely and no sentinel is orphaned. *)
Fixpoint timely_run (s : lockState) (evs : list lock_event) : Prop :=
  timely s /\
  match evs with
  | [] => True
  | e :: evs => orphans s e = false /\ timely_run (lock_step s e) evs
  end.

Record lock_inv (s : lockState) : Prop := {
  li_one : forall i j p q ti tj, lk_procs s !! i = Some p -> lk_procs s !! j = Some q ->
    holding p = Some ti -> holding q = Some tj -> i = j;
  li_file : forall m, lk_file s = Some m <->
    exists i p, lk_procs s !! i = Some p /\ holding p = Some m;
  li_fresh : forall i dl, lk_procs s !! i <> Some (PStale dl);
  li_claim : forall i t, lk_procs s !! i = Some (PClaim t) -> lk_taken s = false;
  li_taken : forall i p, lk_procs s !! i = Some p -> won p = true -> lk_taken s = true;
  li_won : forall i j p q, lk_procs s !! i = Some p -> lk_procs s !! j = Some q ->
    won p = true -> won q = true -> i = j
}.

Lemma lock_start_inv now n : lock_inv (lock_start now n).
Proof.
  assert (forall i p, lk_procs (lock_start now n) !! i = Some p ->
    p = PIdle) as Hp
    by (intros i p [-> _]%lookup_replicate; done).
  split.
  - intros i j p q ti tj ->%Hp. done.
  - intros m. cbn. split; [done|]. by intros (i & p & ->%Hp & ?).
  - by intros i dl ?%Hp.
  - by intros i t ?%Hp.
  - by intros i p ->%Hp.
  - by intros i j p q ->%Hp.
Qed.

(** The process at [i] takes a step to [p'] with the file and the record as
    given; the others stay where they are. *)
Lemma lookup_step {A} (l : list A) i x y : l !! i = Some x -> forall j,
  <[i := y]> l !! j = if decide (j = i) then Some y else l !! j.
Proof.
  intros Hi j. case_decide as Hj; [subst|by rewrite list_lookup_insert_ne].
  apply list_lookup_insert_eq. by eapply lookup_lt_Some.
Qed.

Ltac at_step Hi :=
  repeat match goal with
  | H : _ !! _ = _ |- _ => rewrite (lookup_step _ _ _ _ Hi) in H
  | |- context [<[_ := _]> _ !! _] => rewrite (lookup_step _ _ _ _ Hi)
  end; repeat case_decide; simplify_eq.

(** A step that neither takes nor gives up the lock, and claims nothing. *)
Lemma lock_inv_quiet s i p p' : lock_inv s -> lk_procs s !! i = Some p ->
  holding p' = holding p -> won p' = won p -> (forall dl, p' <> PStale dl) ->
  (forall t, p' = PClaim t -> lk_taken s = false) ->
  lock_inv (mkLock (lk_now s) (lk_file s) (lk_taken s) (<[i := p']> (lk_procs s))).
Proof.
  intros [H1 H2 H3 H4 H5 H6] Hi Hh Hw Hs Hc. split; cbn.
  - intros a b x y ta tb Ha Hb. at_step Hi; try rewrite Hh; eauto.
  - intros m. rewrite H2. split; intros (a & x & Ha & Hx).
    + destruct (decide (a = i)) as [->|]; [exists i, p'|exists a, x];
        at_step Hi; by rewrite ?Hh.
    + at_step Hi; [exists i, p|exists a, x]; by rewrite <- ?Hh.
  - intros a dl Ha. at_step Hi; [by eapply Hs|by eapply H3].
  - intros a t Ha. at_step Hi; eauto.
  - intros a x Ha. at_step Hi; [rewrite Hw|]; eauto.
  - intros a b x y Ha Hb. at_step Hi; rewrite ?Hw; eauto.
Qed.

Lemma lock_inv_create s i dl : lock_inv s -> lk_procs s !! i = Some (PTry dl) -> lk_file s = None ->
  lock_inv (mkLock (lk_now s) (Some (lk_now s)) (lk_taken s) (<[i := PRead (lk_now s)]> (lk_procs s))).
Proof.
  intros [H1 H2 H3 H4 H5 H6] Hi Hf.
  assert (forall a x m, lk_procs s !! a = Some x -> holding x = Some m -> False) as Hno.
  { intros a x m Ha Hx. enough (lk_file s = Some m) by congruence. apply H2. eauto. }
  split; cbn.
  - intros a b x y ta tb Ha Hb Hx Hy. at_step Hi; auto; exfalso; eauto using Hno.
  - intros m. split.
    + intros [= <-]. exists i, (PRead (lk_now s)). by at_step Hi.
    + intros (a & x & Ha & Hx). at_step Hi; cbn in *; [congruence|]. by destruct (Hno _ _ m Ha).
  - intros a d Ha. at_step Hi. by eapply H3.
  - intros a t Ha. at_step Hi. eauto.
  - intros a x Ha Hx. at_step Hi; eauto.
  - intros a b x y Ha Hb Hx Hy. at_step Hi; try done; eauto.
Qed.

Lemma lock_inv_claim s i t : lock_inv s -> lk_procs s !! i = Some (PClaim t) ->
  lock_inv (mkLock (lk_now s) (lk_file s) true (<[i := PRelease t true]> (lk_procs s))).
Proof.
  intros [H1 H2 H3 H4 H5 H6] Hi. pose proof (H4 _ _ Hi) as Hfree.
  assert (forall a x, lk_procs s !! a = Some x -> won x = true -> False) as Hno.
  { intros a x Ha Hx. specialize (H5 _ _ Ha Hx). congruence. }
  split; cbn.
  - intros a b x y ta tb Ha Hb Hx Hy. at_step Hi; auto;
      (eapply H1; [eassumption|eassumption|..]; first [eassumption|done]).
  - intros m. rewrite H2. split; intros (a & x & Ha & Hx).
    + destruct (decide (a = i)) as [->|]; [exists i, (PRelease t true)|exists a, x]; by at_step Hi.
    + at_step Hi; [exists i, (PClaim t)|exists a, x]; done.
  - intros a d Ha. at_step Hi. by eapply H3.
  - intros a u Ha. at_step Hi. by destruct (H1 a i (PClaim u) (PClaim t) u t).
  - done.
  - intros a b x y Ha Hb Hx Hy. at_step Hi; auto; exfalso; eauto using Hno.
Qed.

Lemma lock_inv_release s i t w : lock_inv s -> lk_procs s !! i = Some (PRelease t w) ->
  lock_inv (mkLock (lk_now s) None (lk_taken s) (<[i := PDone w]> (lk_procs s))).
Proof.
  intros [H1 H2 H3 H4 H5 H6] Hi.
  assert (forall a x m, lk_procs s !! a = Some x -> holding x = Some m -> a = i) as Hme.
  { intros a x m Ha Hx. by apply (H1 a i x (PRelease t w) m t). }
  assert (won (PDone w) = won (PRelease t w)) as Hw by by destruct w.
  split; cbn -[won].
  - intros a b x y ta tb Ha Hb Hx Hy. at_step Hi; try done. exfalso; eauto using Hme.
  - intros m. split; [done|]. intros (a & x & Ha & Hx). at_step Hi; try done; exfalso; eauto using Hme.
  - intros a d Ha. at_step Hi. by eapply H3.
  - intros a u Ha. at_step Hi. eauto.
  - intros a x Ha. at_step Hi; rewrite ?Hw; eauto.
  - intros a b x y Ha Hb. at_step Hi; rewrite ?Hw; eauto.
Qed.

Lemma lock_inv_step s i ok p : lock_inv s -> timely s -> lk_procs s !! i = Some p ->
  orphans s (LStep i ok) = false -> lock_inv (lock_step s (LStep i ok)).
Proof.
  intros Hinv Ht Hi Ho. cbn in Ho |- *. rewrite Hi in Ho |- *.
  assert (forall dl, lock_inv (mkLock (lk_now s) (lk_file s) (lk_taken s)
    (<[i := retry dl (lk_now s)]> (lk_procs s))) \/ holding p <> None \/ won p = true) as Hretry.
  { intros dl. destruct (holding p) eqn:Hh; [by right; left|].
    destruct (won p) eqn:Hw; [by right; right|]. left.
    unfold retry. destruct (dl <? lk_now s);
      apply (lock_inv_quiet s i p); rewrite ?Hh, ?Hw; done. }
  destruct p as [|dl|dl|dl|t|t|t w|w|]; cbn.
  - by eapply lock_inv_quiet.
  - destruct ok; cbn; [|by eapply lock_inv_quiet]. destruct (lk_file s) eqn:Hf; cbn.
    + rewrite <- Hf. by eapply lock_inv_quiet.
    + by eapply lock_inv_create.
  - destruct (Hretry dl) as [Hr|[?|?]]; [|done|done].
    destruct (lk_file s) as [m|] eqn:Hf; [|done].
    apply (li_file _ Hinv) in Hf as (j & q & Hq & Hm). specialize (Ht _ _ _ Hq Hm).
    rewrite (proj2 (Z.ltb_ge _ _)) by lia. by rewrite andb_false_r.
  - by apply (li_fresh _ Hinv) in Hi.
  - apply (lock_inv_quiet s i (PRead t)); try done; by destruct ok, (lk_taken s).
  - destruct ok; [by apply lock_inv_claim|by eapply lock_inv_quiet].
  - destruct ok; [by eapply lock_inv_release|done].
  - by eapply lock_inv_quiet.
  - by eapply lock_inv_quiet.
Qed.

Lemma lock_inv_run evs : forall s, lock_inv s -> timely_run s evs ->
  lock_inv (foldl lock_step s evs).
Proof.
  induction evs as [|e evs IH]; intros s Hinv; [done|]. intros (Ht & Ho & Hr).
  apply IH; [|done]. destruct e as [i ok|d|i]; [| |done].
  - destruct (lk_procs s !! i) as [p|] eqn:Hi; [by eapply lock_inv_step|]. cbn. by rewrite Hi.
  - destruct Hinv. by split.
Qed.

(** C39: as long as no sentinel is orphaned and nobody holds the lock for longer than the
    age at which sentinels are reclaimed, at most one of the processes that
    reserve the same key wins, whatever the interleaving of their system
    calls and however many of them fail. *)
Theorem lock_exclusive (now : Z) (n : nat) (evs : list lock_event) (i j : nat) (p q : proc) :
  timely_run (lock_start now n) evs ->
  lk_procs (foldl lock_step (lock_start now n) evs) !! i = Some p ->
  lk_procs (foldl lock_step (lock_start now n) evs) !! j = Some q ->
  won p = true -> won q = true -> i = j.
Proof.
  intros Hr. apply (li_won _ (lock_inv_run _ _ (lock_start_inv now n) Hr)).
Qed.

Definition lock_example : list lock_event :=
  [LStep 0 true; LStep 1 true; LStep 0 true; LStep 1 true; LTick 1000; LStep 0 true; LStep 1 true;
   LStep 0 true; LStep 0 true; LStep 1 true; LStep 1 true].

(** Whether a state is timely, by looking at every process. *)
Definition timelyb (s : lockState) : bool :=
  forallb (fun p => match holding p with
    | Some t => lk_now s - t <=? crossProcessLockStale | None => true end) (lk_procs s).

Lemma timelyb_timely s : timelyb s = true -> timely s.
Proof.
  intros Hb i p t Hi Hh. unfold timelyb in Hb. rewrite forallb_forall in Hb.
  specialize (Hb p). rewrite Hh in Hb. apply Z.leb_le, Hb.
  apply list_elem_of_In. by eapply list_elem_of_lookup_2.
Qed.

Lemma lock_exclusive_witness :
  lk_procs (foldl lock_step (lock_start 0 2) lock_example) = [PDone true; PRelease 1000 false] /\
  (forall j q, lk_procs (foldl lock_step (lock_start 0 2) lock_example) !! j = Some q ->
    won q = true -> 0%nat = j).
Proof.
  split; [vm_compute; reflexivity|]. intros j q Hj Hq.
  apply (lock_exclusive 0 2 lock_example 0 j (PDone true) q); try done.
  repeat (split; [by apply timelyb_timely; vm_compute|]; split; [done|]).
  by split; [apply timelyb_timely; vm_compute|].
Defined.

(** reclaiming is not exclusive: after a holder crashed, two processes that
    both saw the old sentinel can both enter.  The second removes the
    sentinel that the first has just created, both find the key free, and
    both win. *)
Theorem stale_lock_two_winners :
  lk_procs (foldl lock_step (lock_start 0 3)
    [LStep 0 true; LStep 0 true; LCrash 0; LTick (31 * 10 ^ 9);
     LStep 1 true; LStep 2 true; LStep 1 true; LStep 2 true; LStep 1 true; LStep 2 true;
     LStep 1 true; LStep 1 true; LStep 1 true;
     LStep 2 true; LStep 2 true; LStep 2 true;
     LStep 1 true; LStep 2 true])
  = [PGone; PRelease (31 * 10 ^ 9) true; PRelease (31 * 10 ^ 9) true].
Proof. vm_compute. reflexivity. Qed.
