(* ===== verification/GoText.v ===== *)
(** * More of Go's strings and unicode/utf8

    Lower case, replacement, UTF-8 validity and what they need; the lemmas say
    when a text contains another.  At the end, bodies of responses that are
    read up to a limit. *)

From S2P Require Import Prelude GoStrings Helpers.
From Stdlib Require Import Ascii.

#[local] Open Scope string_scope.

(** ** Lower case *)

Fixpoint str_forall (p : ascii -> bool) (s : string) : bool :=
  match s with "" => true | String c s => p c && str_forall p s end.
Fixpoint str_map (f : ascii -> ascii) (s : string) : string :=
  match s with "" => "" | String c s => String (f c) (str_map f s) end.

Definition is_ascii (c : ascii) : bool := (N_of_ascii c <? 128)%N.
Definition lower_byte (c : ascii) : ascii :=
  let n := N_of_ascii c in
  if ((65 <=? n) && (n <=? 90))%N then ascii_of_N (n + 32) else c.

(** [strings.ToLower]; [unicode_lower] is its result on texts that are not
    ASCII, which depends on Unicode's tables. *)
Definition ToLower (unicode_lower : string -> string) (s : string) : string :=
  if str_forall is_ascii s then str_map lower_byte s else unicode_lower s.

(** [strings.ReplaceAll(s, old, new)] for a non-empty [old]. *)
Definition ReplaceAll (s old new : string) : string := Join (Split s old) new.

(** ** UTF-8 *)

(** The ranges of the continuation bytes that a first byte asks for. *)
Definition utf8_start (c : ascii) : option (list (N * N)) :=
  let n := N_of_ascii c in
  let cont := (128, 191)%N in
  (if n <? 128 then Some []
   else if n <? 194 then None
   else if n <? 224 then Some [cont]
   else if n =? 224 then Some [(160, 191); cont]
   else if n =? 237 then Some [(128, 159); cont]
   else if n <? 240 then Some [cont; cont]
   else if n =? 240 then Some [(144, 191); cont; cont]
   else if n <? 244 then Some [cont; cont; cont]
   else if n =? 244 then Some [(128, 143); cont; cont]
   else None)%N.

Fixpoint utf8_from (pending : list (N * N)) (s : string) : bool :=
  match s, pending with
  | "", [] => true
  | "", _ :: _ => false
  | String c s, [] => match utf8_start c with Some p => utf8_from p s | None => false end
  | String c s, (lo, hi) :: p =>
      ((lo <=? N_of_ascii c) && (N_of_ascii c <=? hi))%N && utf8_from p s
  end.

(** [utf8.ValidString]. *)
Definition ValidString (s : string) : bool := utf8_from [] s.

Definition cont_range (r : N * N) : Prop := (128 <= r.1 /\ r.2 <= 191)%N.

Lemma utf8_start_ranges c p : utf8_start c = Some p -> Forall cont_range p.
Proof.
  unfold utf8_start. intros H. repeat case_match; simplify_eq;
    repeat constructor; cbn; lia.
Qed.

(** A first byte of a longer sequence must be followed by a continuation. *)
Lemma utf8_dangling a lead d rest : (192 <= N_of_ascii lead)%N -> (N_of_ascii d < 128)%N ->
  forall p, Forall cont_range p -> utf8_from p (a +:+ String lead (String d rest)) = false.
Proof.
  intros Hl Hd. induction a as [|c a IH]; intros p Hp; cbn.
  - destruct p as [|[lo hi] p].
    + destruct (utf8_start lead) as [q|] eqn:Eq; [|done].
      pose proof (utf8_start_ranges _ _ Eq) as Hq. destruct q as [|[lo hi] q].
      * unfold utf8_start in Eq. by rewrite (proj2 (N.ltb_ge _ _)) in Eq by lia; repeat case_match.
      * apply Forall_cons in Hq as [[Hlo _] _]. cbn in Hlo.
        by rewrite (proj2 (N.leb_gt _ _)) by lia.
    + apply Forall_cons in Hp as [[_ Hhi] _]. cbn in Hhi.
      rewrite (proj2 (N.leb_gt (N_of_ascii lead) hi)) by lia. by rewrite andb_false_r.
  - destruct p as [|[lo hi] p].
    + destruct (utf8_start c) as [q|] eqn:Eq; [|done]. by eapply IH, utf8_start_ranges.
    + apply Forall_cons in Hp as [_ Hp]. rewrite IH by done. by rewrite andb_false_r.
Qed.

(** ** Containing *)

Definition occurs_in (v s : string) : Prop := exists a b, s = a +:+ v +:+ b.

Lemma Contains_spec s v : Contains s v = true <-> occurs_in v s.
Proof.
  split.
  - unfold Contains. destruct (Index s v) as [i|] eqn:E; [|done]. intros _.
    exists (str_take i s), (str_drop (i + String.length v) s). by apply Index_Some_eq.
  - intros (a & b & ->). apply Contains_app.
Qed.

Fixpoint str_has (c : ascii) (s : string) : bool :=
  match s with "" => false | String d s => bool_decide (c = d) || str_has c s end.

Lemma str_has_app c s t : str_has c (s +:+ t) = str_has c s || str_has c t.
Proof. induction s as [|d s IH]; cbn; [done|]. by rewrite IH, orb_assoc. Qed.

Lemma str_forall_app p s t : str_forall p (s +:+ t) = str_forall p s && str_forall p t.
Proof. induction s as [|c s IH]; [done|]. cbn. rewrite <- andb_assoc, <- IH. done. Qed.
Lemma str_forall_has (p : ascii -> bool) c s : str_forall p s = true -> p c = false -> str_has c s = false.
Proof.
  intros Hs Hc. induction s as [|d s IH]; [done|]. cbn [str_has str_forall] in *.
  apply andb_true_iff in Hs as [Hd Hs].
  rewrite (IH Hs), orb_false_r. apply bool_decide_eq_false. congruence.
Qed.

(** Two ways to cut the same text: one of the first halves is longer. *)
Lemma app_cut (a b c d : string) : a +:+ b = c +:+ d ->
  (exists m, c = a +:+ m /\ b = m +:+ d) \/ (exists m, a = c +:+ m /\ d = m +:+ b).
Proof.
  revert c. induction a as [|x a IH]; intros c H; [left; by exists c|].
  destruct c as [|y c]; [right; by exists (String x a)|].
  injection H as <- H. destruct (IH c H) as [(m & -> & ->)|(m & -> & ->)]; [left|right]; by exists m.
Qed.

(** A text without the byte [c] occurs on one side of it. *)
Lemma occurs_split v c s t : str_has c v = false -> occurs_in v (s +:+ String c t) ->
  occurs_in v s \/ occurs_in v t.
Proof.
  intros Hc (a & b & H). destruct (app_cut _ _ _ _ H) as [(m & -> & Hm)|(m & -> & Hm)].
  - destruct m as [|x m]; cbn in Hm.
    + destruct v as [|x v]; [left; exists s, ""; by rewrite !string_app_nil_r|]. injection Hm as -> Hm. cbn in Hc.
      by rewrite bool_decide_eq_true_2 in Hc.
    + injection Hm as <- ->. right. by exists m, b.
  - destruct (app_cut _ _ _ _ Hm) as [(k & -> & Hk)|(k & -> & Hk)].
    + left. by exists a, k.
    + destruct k as [|x k]; cbn in Hk; [left; exists a, ""; by rewrite !string_app_nil_r|].
      injection Hk as <- _. rewrite str_has_app in Hc. cbn in Hc.
      rewrite bool_decide_eq_true_2, orb_true_r in Hc by done. done.
Qed.

Lemma occurs_app_l v s t : occurs_in v s -> occurs_in v (s +:+ t).
Proof. intros (a & b & ->). exists a, (b +:+ t). by rewrite !string_app_assoc. Qed.
Lemma occurs_app_r v s t : occurs_in v t -> occurs_in v (s +:+ t).
Proof. intros (a & b & ->). exists (s +:+ a), b. by rewrite !string_app_assoc. Qed.

(** The pieces of a split are pieces of the text, and the separator is gone. *)
Lemma split_go_pieces fuel s sep p : p ∈ split_go fuel s sep -> forall v, occurs_in v p -> occurs_in v s.
Proof.
  revert s. induction fuel as [|fuel IH]; intros s Hp v Hv; cbn in Hp.
  - by apply list_elem_of_singleton in Hp as ->.
  - unfold SplitN2 in Hp. destruct (Index s sep) as [i|] eqn:E; [|by apply list_elem_of_singleton in Hp as ->].
    rewrite (Index_Some_eq _ _ _ E). apply elem_of_cons in Hp as [->|Hp].
    + by apply occurs_app_l.
    + apply occurs_app_r, occurs_app_r. by eapply IH.
Qed.

Lemma Index_take s sep i : sep <> "" -> Index s sep = Some i -> Index (str_take i s) sep = None.
Proof.
  intros Hsep. revert i. induction s as [|c s IH]; intros i; rewrite Index_unfold.
  - destruct sep as [|x sep]; [done|]. done.
  - destruct (String.prefix sep (String c s)) eqn:Ep; [intros [= <-]|].
    { by destruct sep. }
    destruct (Index s sep) as [j|] eqn:Ej; [|done]. intros [= <-]. cbn [str_take].
    rewrite Index_unfold. destruct (String.prefix sep (String c (str_take j s))) eqn:Eq.
    + exfalso. apply prefix_app in Eq as [t Ht].
      enough (String.prefix sep (String c s) = true) by congruence.
      apply prefix_app. exists (t +:+ str_drop j s). rewrite <- string_app_assoc, <- Ht. cbn.
      by rewrite str_take_drop.
    + cbn. by rewrite IH.
Qed.

Lemma split_go_clean fuel s sep p : sep <> "" -> String.length s < fuel ->
  p ∈ split_go fuel s sep -> Contains p sep = false.
Proof.
  intros Hsep. revert s. induction fuel as [|fuel IH]; intros s Hf Hp; [lia|]. cbn in Hp.
  unfold SplitN2 in Hp. destruct (Index s sep) as [i|] eqn:E.
  - apply elem_of_cons in Hp as [->|Hp].
    + unfold Contains. by rewrite Index_take.
    + eapply IH; [|exact Hp]. rewrite length_str_drop. pose proof (Index_Some_eq _ _ _ E) as Hs.
      apply (f_equal String.length) in Hs. rewrite !string_length_app in Hs.
      destruct sep; [done|]. cbn in *. lia.
  - apply list_elem_of_singleton in Hp as ->. unfold Contains. by rewrite E.
Qed.

Lemma Split_pieces s sep p v : p ∈ Split s sep -> occurs_in v p -> occurs_in v s.
Proof. intros Hp. by apply (split_go_pieces _ _ _ _ Hp). Qed.
Lemma Split_clean s sep p : sep <> "" -> p ∈ Split s sep -> ~ occurs_in sep p.
Proof.
  intros Hsep Hp Ho. apply Contains_spec in Ho.
  by rewrite (split_go_clean _ _ _ _ Hsep (Nat.lt_succ_diag_r _) Hp) in Ho.
Qed.

(** ** Splitting at a byte *)

Fixpoint split_char (c : ascii) (s : string) : list string :=
  match s with
  | "" => [""]
  | String d s =>
      match split_char c s with
      | p :: ps => if decide (d = c) then "" :: p :: ps else String d p :: ps
      | [] => []
      end
  end.

Lemma split_char_cons c s : exists p ps, split_char c s = p :: ps.
Proof.
  induction s as [|d s (p & ps & IH)]; cbn; [by eexists _, _|]. rewrite IH. case_decide; by eexists _, _.
Qed.

Lemma Index_char c d s : Index (String d s) (String c "") =
  if decide (d = c) then Some 0 else S <$> Index s (String c "").
Proof.
  rewrite Index_unfold. cbn [String.prefix]. destruct (ascii_dec c d) as [->|Hne].
  - rewrite decide_True by done. by destruct s.
  - by rewrite decide_False by congruence.
Qed.

Lemma split_go_char fuel c s : String.length s < fuel ->
  split_go fuel s (String c "") = split_char c s.
Proof.
  revert s. induction fuel as [|fuel IH]; intros s Hf; [lia|]. cbn [split_go].
  assert (forall s, String.length s < fuel + 1 ->
    match SplitN2 s (String c "") with
    | (s1, None) => [s1]
    | (s1, Some s2) => s1 :: split_go fuel s2 (String c "")
    end = split_char c s) as Hgo; [|apply Hgo; lia].
  clear s Hf. intros s. induction s as [|d s IHs]; intros Hf; [done|]. cbn [split_char].
  unfold SplitN2. rewrite Index_char. case_decide as Hd.
  - subst. cbn. rewrite IH by (cbn in Hf; lia).
    destruct (split_char_cons c s) as (p & ps & ->). done.
  - specialize (IHs ltac:(cbn in Hf; lia)). unfold SplitN2 in IHs.
    destruct (Index s (String c "")) as [i|]; cbn -[Index split_go] in *; rewrite <- IHs; done.
Qed.

Lemma Split_char c s : Split s (String c "") = split_char c s.
Proof. apply split_go_char. lia. Qed.

Lemma split_char_app c s t : split_char c (s +:+ String c t) = (split_char c s ++ split_char c t)%list.
Proof.
  induction s as [|d s IH]; cbn.
  - destruct (split_char_cons c t) as (p & ps & ->). by rewrite decide_True.
  - rewrite IH. destruct (split_char_cons c s) as (p & ps & ->). cbn. by case_decide.
Qed.

Lemma split_char_none c s : str_has c s = false -> split_char c s = [s].
Proof.
  induction s as [|d s IH]; cbn; [done|]. intros [Hd Hs]%orb_false_iff. rewrite IH by done.
  apply bool_decide_eq_false in Hd. by rewrite decide_False by congruence.
Qed.

Lemma split_char_clean c s p : p ∈ split_char c s -> str_has c p = false.
Proof.
  revert p. induction s as [|d s IH]; cbn; intros p.
  { by intros ->%list_elem_of_singleton. }
  destruct (split_char_cons c s) as (q & qs & E). rewrite E in IH |- *. case_decide as Hd.
  - intros [->|Hp]%elem_of_cons; [done|]. by apply IH.
  - intros [->|Hp]%elem_of_cons; [|apply IH; by right]. cbn.
    rewrite bool_decide_eq_false_2 by congruence. apply IH. by left.
Qed.

(** ** Fields *)

(** The first word and the rest: everything up to the next white space. *)
Fixpoint span_word (s : string) : string * string :=
  match s with
  | EmptyString => ("", "")
  | String c s' =>
      if decide (trim_lead false s = s)
      then let '(w, r) := span_word s' in (String c w, r)
      else ("", s)
  end.
Fixpoint fields_go (fuel : nat) (s : string) : list string :=
  match fuel with
  | O => []
  | S fuel =>
      match trim_lead false s with
      | EmptyString => []
      | t => let '(w, r) := span_word t in w :: fields_go fuel r
      end
  end.
(** [strings.Fields]; every round consumes a byte. *)
Definition Fields (s : string) : list string := fields_go (String.length s) s.

(** ** net.SplitHostPort

    The port is what follows the last colon; a host in brackets may contain
    colons itself. *)
Fixpoint last_index (c : ascii) (s : string) : option nat :=
  match s with
  | "" => None
  | String d s' =>
      match last_index c s' with
      | Some i => Some (S i)
      | None => if decide (d = c) then Some 0 else None
      end
  end.
Definition SplitHostPort (hostport : string) : option (string * string) :=
  match last_index ":"%char hostport with
  | None => None
  | Some i =>
      let port := str_drop (S i) hostport in
      if HasPrefix hostport "[" then
        match Index hostport "]" with
        | None => None
        | Some e =>
            if decide (S e = i) then
              if str_has "["%char (str_drop 1 hostport) || str_has "]"%char (str_drop (S e) hostport) then None
              else Some (str_take (e - 1) (str_drop 1 hostport), port)
            else None
        end
      else
        let host := str_take i hostport in
        if str_has ":"%char host || str_has "["%char hostport || str_has "]"%char hostport then None
        else Some (host, port)
  end.

Example SplitHostPort_v4 : SplitHostPort "192.0.2.1:80" = Some ("192.0.2.1", "80").
Proof. reflexivity. Qed.
Example SplitHostPort_v6 : SplitHostPort "[::1]:80" = Some ("::1", "80").
Proof. reflexivity. Qed.
Example SplitHostPort_bare_v6 : SplitHostPort "::1" = None.
Proof. reflexivity. Qed.

(** ** Responses that are read up to a limit (io.LimitReader over the body of an
    http.Response, as the clients of meta and nodes use it) *)

(** The status of a response, the bytes that were read of its body, and the
    error that ended the reading early. *)
Record http_response := mkResponse { rp_Status : Z; rp_Body : string; rp_Err : option error }.

Definition limit_bytes (max : Z) (s : string) : string :=
  if (max <? Z.of_nat (String.length s))%Z then str_take (Z.to_nat max) s else s.

(** The error of a limited reader: it does not read past its limit. *)
Definition read_error (max : Z) (r : http_response) : option error :=
  if (Z.of_nat (String.length (rp_Body r)) <? max)%Z then rp_Err r else None.
