(* ===== verification/GoFloat.v ===== *)
(** * The order of float64 values

    [SFcompare] on values that are not NaN is a total preorder: it compares
    ranks (class and sign, exponent, mantissa) lexicographically. *)

From S2P Require Import Prelude GoStrings GoTime.
From Stdlib Require Import SpecFloat.

#[local] Open Scope Z_scope.

Definition f64_is_nan (f : float64) : bool := match f with S754_nan => true | _ => false end.

Definition f64_rank (f : float64) : Z * Z * Z :=
  match f with
  | S754_infinity true => (-2, 0, 0)
  | S754_finite true m e => (-1, - e, - Z.pos m)
  | S754_zero _ | S754_nan => (0, 0, 0)
  | S754_finite false m e => (1, e, Z.pos m)
  | S754_infinity false => (2, 0, 0)
  end.
Definition rank_compare (p q : Z * Z * Z) : comparison :=
  let '(a, b, c) := p in
  let '(a', b', c') := q in
  match a ?= a' with Eq => match b ?= b' with Eq => c ?= c' | o => o end | o => o end.

Lemma SFcompare_rank a b : f64_is_nan a = false -> f64_is_nan b = false ->
  SFcompare a b = Some (rank_compare (f64_rank a) (f64_rank b)).
Proof.
  destruct a as [|[]| |[] m e], b as [|[]| |[] m' e']; try done; intros _ _; cbn; f_equal.
  rewrite (Z.compare_antisym (- e') (- e)), Z.compare_opp.
  destruct (e ?= e'); cbn; [|done..]. by rewrite Z.compare_opp, (Z.compare_antisym (Z.pos m)).
Qed.

Lemma rank_compare_refl p : rank_compare p p = Eq.
Proof. destruct p as [[a b] c]. cbn. by rewrite !Z.compare_refl. Qed.
Lemma rank_compare_antisym p q : rank_compare q p = CompOpp (rank_compare p q).
Proof.
  destruct p as [[a b] c], q as [[a' b'] c']. cbn. rewrite (Z.compare_antisym a a'). destruct (a ?= a'); cbn; [|done..].
  rewrite (Z.compare_antisym b b'). destruct (b ?= b'); cbn; [|done..]. apply Z.compare_antisym.
Qed.
Lemma rank_compare_le p q r : rank_compare p q <> Gt -> rank_compare q r <> Gt ->
  rank_compare p r <> Gt /\ (rank_compare p r = Eq -> rank_compare p q = Eq /\ rank_compare q r = Eq).
Proof.
  destruct p as [[a b] c], q as [[a' b'] c'], r as [[a'' b''] c'']. cbn. intros H1 H2.
  destruct (Z.compare_spec a a'), (Z.compare_spec a' a''), (Z.compare_spec a a''); try done; try lia.
  destruct (Z.compare_spec b b'), (Z.compare_spec b' b''), (Z.compare_spec b b''); try done; try lia.
  destruct (Z.compare_spec c c'), (Z.compare_spec c' c''), (Z.compare_spec c c''); try done; try lia.
Qed.

Lemma SFleb_not_nan a b : SFleb a b = true -> f64_is_nan a = false /\ f64_is_nan b = false.
Proof. destruct a as [|[]| |[]], b as [|[]| |[]]; done. Qed.
Lemma SFltb_rank a b : f64_is_nan a = false -> f64_is_nan b = false ->
  SFltb a b = match rank_compare (f64_rank a) (f64_rank b) with Lt => true | _ => false end.
Proof. intros Ha Hb. unfold SFltb. by rewrite SFcompare_rank. Qed.
Lemma SFeqb_rank a b : f64_is_nan a = false -> f64_is_nan b = false ->
  SFeqb a b = match rank_compare (f64_rank a) (f64_rank b) with Eq => true | _ => false end.
Proof. intros Ha Hb. unfold SFeqb. by rewrite SFcompare_rank. Qed.

(** ** Sorting by a relation that is transitive on part of its domain *)

Lemma Sorted_strong_on {A} (R : A -> A -> Prop) (P : A -> Prop) l :
  (forall x y z, P x -> P y -> P z -> R x y -> R y z -> R x z) -> Forall P l -> Sorted R l -> StronglySorted R l.
Proof.
  intros Ht. induction l as [|x l IH]; intros HP HS; [constructor|].
  apply Forall_cons in HP as [Px Pl]. apply Sorted_inv in HS as [HS Hh]. pose proof (IH Pl HS) as IHl. constructor; [done|].
  destruct Hh as [|y l Hxy]; [constructor|]. apply StronglySorted_inv in IHl as [_ Hy]. constructor; [done|].
  apply Forall_cons in Pl as [Py Pl]. rewrite Forall_forall in Hy, Pl |- *. intros z Hz. eauto.
Qed.

(** ** Multiplication by a finite number *)

Lemma shr_1_nonneg rs : 0 <= shr_m rs -> 0 <= shr_m (shr_1 rs).
Proof. destruct rs as [m r s]. cbn. destruct m as [|[]|]; cbn; lia. Qed.
Lemma shr_iter_nonneg p rs : 0 <= shr_m rs -> 0 <= shr_m (iter_pos shr_1 p rs).
Proof. revert rs. induction p as [p IH|p IH|]; intros rs H; cbn; auto using shr_1_nonneg. Qed.
Lemma shr_nonneg rs e n : 0 <= shr_m rs -> 0 <= shr_m (shr rs e n).1.
Proof. intros H. unfold shr. destruct n as [|n|n]; cbn; auto using shr_iter_nonneg. Qed.
Lemma shr_fexp_nonneg m e l : 0 <= m -> 0 <= shr_m (shr_fexp 53 1024 m e l).1.
Proof. intros H. unfold shr_fexp. apply shr_nonneg. by destruct l as [|[]]. Qed.
Lemma round_not_nan sx m e l : 0 <= m -> f64_is_nan (binary_round_aux 53 1024 sx m e l) = false.
Proof.
  intros H. unfold binary_round_aux. destruct (shr_fexp 53 1024 m e l) as [mrs e'] eqn:E1.
  assert (0 <= shr_m mrs) as H1 by (pose proof (shr_fexp_nonneg m e l H) as Hs; by rewrite E1 in Hs).
  match goal with |- context [shr_fexp 53 1024 ?a ?b ?c] => destruct (shr_fexp 53 1024 a b c) as [mrs' e''] eqn:E2;
    assert (0 <= shr_m mrs') as H2 end.
  { match type of E2 with shr_fexp _ _ ?a ?b ?c = _ => pose proof (shr_fexp_nonneg a b c) as Hs; rewrite E2 in Hs; apply Hs end.
    destruct (shr_r mrs), (shr_s mrs); unfold round_nearest_even; cbn; repeat case_match; lia. }
  destruct (shr_m mrs') as [|p|p]; [done| |lia]. by case_match.
Qed.
Lemma f64_mul_not_nan a s m e : f64_is_nan a = false -> f64_is_nan (f64_mul a (S754_finite s m e)) = false.
Proof. destruct a; try done. intros _. cbn. apply round_not_nan. lia. Qed.

(** ** Integers *)

(** The value of a finite number is the integer [n]. *)
Definition f64_is_int (f : float64) (n : Z) : Prop :=
  match f with
  | S754_zero _ => n = 0
  | S754_finite s m e => n * 2 ^ Z.max 0 (- e) = cond_Zopp s (Z.pos m * 2 ^ Z.max 0 e)
  | _ => False
  end.

Lemma digits2_size p : digits2_pos p = Pos.size p.
Proof. induction p as [p IH|p IH|]; cbn; by rewrite ?IH. Qed.
Lemma digits2_spec p : 2 ^ (Z.pos (digits2_pos p) - 1) <= Z.pos p < 2 ^ Z.pos (digits2_pos p).
Proof.
  rewrite digits2_size. split.
  - pose proof (Pos.size_le p) as H. apply Pos2Z.pos_le_pos in H. rewrite Pos2Z.inj_pow in H.
    replace (Z.pos (Pos.size p)) with (Z.pos (Pos.size p) - 1 + 1) in H by lia. rewrite Z.pow_add_r in H by lia.
    change (Z.pos p~0) with (2 * Z.pos p) in H. lia.
  - pose proof (Pos.size_gt p) as H. apply Pos2Z.pos_lt_pos in H. by rewrite Pos2Z.inj_pow in H.
Qed.
Lemma digits2_unique p d : 0 < d -> 2 ^ (d - 1) <= Z.pos p < 2 ^ d -> Z.pos (digits2_pos p) = d.
Proof.
  intros Hd H. pose proof (digits2_spec p) as H'.
  assert (~ Z.pos (digits2_pos p) <= d - 1) by (intros Hl; apply (Z.pow_le_mono_r 2) in Hl; lia).
  assert (~ d <= Z.pos (digits2_pos p) - 1) by (intros Hl; apply (Z.pow_le_mono_r 2) in Hl; lia). lia.
Qed.
Lemma digits2_shift p q k : 0 <= k -> Z.pos q = Z.pos p * 2 ^ k -> Z.pos (digits2_pos q) = Z.pos (digits2_pos p) + k.
Proof.
  intros Hk E. pose proof (digits2_spec p) as H. apply digits2_unique; [lia|]. rewrite E.
  replace (Z.pos (digits2_pos p) + k - 1) with ((Z.pos (digits2_pos p) - 1) + k) by lia.
  rewrite !Z.pow_add_r by lia. assert (0 < 2 ^ k) by lia. nia.
Qed.
Lemma iter_xO d m : Z.pos (Pos.iter xO m d) = Z.pos m * 2 ^ Z.pos d.
Proof.
  induction d as [|d IH] using Pos.peano_ind; [cbn; lia|]. rewrite Pos.iter_succ.
  change (Z.pos (Pos.iter xO m d)~0) with (2 * Z.pos (Pos.iter xO m d)). rewrite IH, Pos2Z.inj_succ, Z.pow_succ_r; lia.
Qed.

(** Shifting out zeros is exact. *)
Lemma shr_1_even m q : m = 2 * q -> shr_1 (Build_shr_record m false false) = Build_shr_record q false false.
Proof. intros ->. by destruct q. Qed.
Lemma shr_iter_exact n : forall m q, m = q * 2 ^ Z.pos n ->
  iter_pos shr_1 n (Build_shr_record m false false) = Build_shr_record q false false.
Proof.
  induction n as [n IH|n IH|]; intros m q E; cbn [iter_pos].
  - rewrite (shr_1_even m (q * 2 ^ Z.pos n * 2 ^ Z.pos n)).
    + rewrite (IH _ (q * 2 ^ Z.pos n)) by done. by apply IH.
    + rewrite E. replace (Z.pos n~1) with (Z.pos n + Z.pos n + 1) by lia. rewrite !Z.pow_add_r by lia. lia.
  - rewrite (IH m (q * 2 ^ Z.pos n)); [by apply IH|]. rewrite E. replace (Z.pos n~0) with (Z.pos n + Z.pos n) by lia. rewrite Z.pow_add_r by lia. lia.
  - apply shr_1_even. rewrite E. change (2 ^ 1) with 2. lia.
Qed.

Lemma fexp_at e : -1021 <= e -> fexp 53 1024 e = e - 53.
Proof. intros H. unfold fexp, emin. lia. Qed.

(** A mantissa of 53 digits is not rounded. *)
Lemma round_aux_exact sx m e p k : Z.pos (digits2_pos m) = 53 -> -1000 <= e -> e <= 971 -> 0 <= k -> Z.pos p = Z.pos m * 2 ^ k ->
  binary_round_aux 53 1024 sx (Z.pos p) (e - k) loc_Exact = S754_finite sx m e.
Proof.
  intros Hd He Hmax Hk Hp. pose proof (digits2_shift m p k Hk Hp) as Hdp.
  assert (shr_fexp 53 1024 (Z.pos p) (e - k) loc_Exact = (Build_shr_record (Z.pos m) false false, e)) as E1.
  { unfold shr_fexp. cbn [Zdigits2 shr_record_of_loc]. rewrite Hdp, Hd, fexp_at by lia.
    replace (53 + k + (e - k) - 53 - (e - k)) with k by lia. destruct k as [|k|]; [|cbn [shr]|lia].
    - rewrite Z.mul_1_r in Hp. by rewrite Hp, Z.sub_0_r.
    - rewrite (shr_iter_exact k _ (Z.pos m)) by done. f_equal. lia. }
  unfold binary_round_aux. rewrite E1. cbn [shr_m loc_of_shr_record round_nearest_even].
  assert (shr_fexp 53 1024 (Z.pos m) e loc_Exact = (Build_shr_record (Z.pos m) false false, e)) as ->.
  { unfold shr_fexp. cbn [Zdigits2 shr_record_of_loc]. rewrite Hd, fexp_at by lia. by replace (53 + e - 53 - e) with 0 by lia. }
  cbn [shr_m]. by rewrite (proj2 (Z.leb_le _ _)) by (change (1024 - 53) with 971; lia).
Qed.
Lemma binary_round_exact sx p m e : Z.pos (digits2_pos m) = 53 -> e <= 971 ->
  Z.pos p * 2 ^ Z.max 0 (- e) = Z.pos m * 2 ^ Z.max 0 e -> binary_round 53 1024 sx p 0 = S754_finite sx m e.
Proof.
  intros Hd Hmax Hp. unfold binary_round. rewrite Z.add_0_r.
  assert (Z.pos (digits2_pos p) = 53 + e) as Hdp.
  { destruct (Z.le_ge_cases 0 e).
    - rewrite (Z.max_l 0 (- e)), (Z.max_r 0 e), Z.mul_1_r in Hp by lia. rewrite (digits2_shift m p e); lia.
    - rewrite (Z.max_r 0 (- e)), (Z.max_l 0 e), Z.mul_1_r in Hp by lia.
      pose proof (digits2_shift p m (- e) ltac:(lia) (eq_sym Hp)). lia. }
  rewrite Hdp, fexp_at by lia. replace (53 + e - 53) with e by lia. unfold shl_align.
  destruct (e - 0) as [|n|n] eqn:En.
  - assert (e = 0) as -> by lia. apply (round_aux_exact sx m 0 p 0); [done|lia..|].
    change (2 ^ Z.max 0 (- 0)) with 1 in Hp. change (2 ^ Z.max 0 0) with 1 in Hp. change (2 ^ 0) with 1. lia.
  - replace 0 with (e - e) by lia. apply round_aux_exact; [done|lia..|]. rewrite (Z.max_l 0 (- e)), (Z.max_r 0 e) in Hp by lia. lia.
  - replace e with (e - 0) at 1 by lia. apply round_aux_exact; [done|lia..|].
    rewrite iter_xO. rewrite (Z.max_r 0 (- e)), (Z.max_l 0 e) in Hp by lia. replace (Z.pos n) with (- e) by lia. lia.
Qed.

Definition is_float64 (f : float64) : Prop := valid_binary 53 1024 f = true.

(** A float64 that is an integer has a mantissa of 53 digits. *)
Lemma int_digits s m e n : is_float64 (S754_finite s m e) -> f64_is_int (S754_finite s m e) n ->
  Z.pos (digits2_pos m) = 53 /\ e <= 971.
Proof.
  unfold is_float64. cbn. unfold bounded, canonical_mantissa. intros [Hc%Z.eqb_eq He%Z.leb_le]%andb_prop Hn.
  split; [|lia]. unfold fexp, emin in Hc. destruct (Z.le_ge_cases (-1021) (Z.pos (digits2_pos m) + e)); [lia|].
  exfalso. assert (e = -1074) as -> by lia. pose proof (digits2_spec m) as [_ Hm].
  assert (2 ^ Z.pos (digits2_pos m) <= 2 ^ 53) by (apply Z.pow_le_mono_r; lia).
  rewrite (Z.max_r 0 (- -1074)), (Z.max_l 0 (-1074)), Z.mul_1_r in Hn by lia.
  assert (2 ^ 53 < 2 ^ (- -1074)) by (apply Z.pow_lt_mono_r; lia). destruct s; cbn in Hn; nia.
Qed.

(** An integer that is a float64 is converted to it. *)
Lemma f64_of_int f n : is_float64 f -> f64_is_int f n -> SFeqb f (f64_of_Z n) = true.
Proof.
  destruct f as [s| | |s m e]; [intros _ ->; done|done|done|]. intros Hf Hn.
  destruct (int_digits _ _ _ _ Hf Hn) as [Hd He]. cbn in Hn.
  assert (f64_of_Z n = S754_finite s m e) as ->.
  { unfold f64_of_Z, binary_normalize. assert (0 < 2 ^ Z.max 0 (- e)) by lia. assert (0 < 2 ^ Z.max 0 e) by lia.
    destruct n as [|p|p], s; cbn [cond_Zopp] in Hn; try nia; apply binary_round_exact; try done; lia. }
  rewrite SFeqb_rank, rank_compare_refl; done.
Qed.
(** Below 2^53 nothing is rounded. *)
Lemma f64_of_small n : 0 < Z.abs n < 2 ^ 53 -> exists m e, f64_of_Z n = S754_finite (n <? 0) m e /\
  f64_is_int (S754_finite (n <? 0) m e) n.
Proof.
  intros Hn.
  assert (forall p s, Z.pos p < 2 ^ 53 -> exists m e, binary_round 53 1024 s p 0 = S754_finite s m e /\
    Z.pos p * 2 ^ Z.max 0 (- e) = Z.pos m * 2 ^ Z.max 0 e) as H.
  { intros p s Hp. pose proof (digits2_spec p) as [Hl _]. set (d := Z.pos (digits2_pos p)) in *.
    assert (d <= 53) by (destruct (Z.le_gt_cases d 53); [done|]; assert (2 ^ 53 <= 2 ^ (d - 1)) by (apply Z.pow_le_mono_r; lia); lia).
    assert (exists m, Z.pos m = Z.pos p * 2 ^ (53 - d)) as [m Hm].
    { exists (Z.to_pos (Z.pos p * 2 ^ (53 - d))). rewrite Z2Pos.id; [done|]. assert (0 < 2 ^ (53 - d)) by lia. lia. }
    assert (Z.pos p * 2 ^ Z.max 0 (- (d - 53)) = Z.pos m * 2 ^ Z.max 0 (d - 53)) as He.
    { rewrite (Z.max_r 0 (- (d - 53))), (Z.max_l 0 (d - 53)), Z.mul_1_r, Hm by lia. f_equal. f_equal. lia. }
    exists m, (d - 53). split; [|done]. apply binary_round_exact; [|lia|done].
    rewrite (digits2_shift p m (53 - d)) by (done || lia). fold d. lia. }
  destruct n as [|p|p]; [lia| |].
  - destruct (H p false) as (m & e & E1 & E2); [lia|]. exists m, e. split; [done|]. cbn [f64_is_int cond_Zopp]. done.
  - destruct (H p true) as (m & e & E1 & E2); [lia|]. exists m, e. split; [done|]. cbn [f64_is_int cond_Zopp Z.ltb Z.compare].
    change (Z.neg p) with (- Z.pos p). lia.
Qed.

Lemma SFeqb_finite s m e s' m' e' : SFeqb (S754_finite s m e) (S754_finite s' m' e') = true ->
  S754_finite s m e = S754_finite s' m' e'.
Proof.
  rewrite SFeqb_rank by done. intros He. destruct s, s'; cbn in He; try done.
  - destruct (Z.compare_spec (- e) (- e')), (Z.compare_spec (- Z.pos m) (- Z.pos m')); try (cbn in He; discriminate He). f_equal; lia.
  - destruct (Z.compare_spec e e'), (Pos.compare_spec m m'); try (cbn in He; discriminate He). by subst.
Qed.
(** What truncation gives of a number that is not an integer is not equal to it. *)
Lemma f64_trunc_int f : is_float64 f -> SFeqb f (f64_of_Z (f64_trunc f)) = true ->
  match f with S754_zero _ | S754_finite _ _ _ => True | _ => False end -> f64_is_int f (f64_trunc f).
Proof.
  destruct f as [s| | |s m e]; [done|done|done|]. intros Hf He _. cbn [f64_trunc] in *.
  destruct (Z.leb_spec 0 e) as [Hp|Hp].
  { cbn. rewrite (Z.max_l 0 (- e)), (Z.max_r 0 e), Z.mul_1_r by lia. by destruct s. }
  unfold is_float64 in Hf. cbn in Hf. unfold bounded, canonical_mantissa in Hf. apply andb_prop in Hf as [Hc%Z.eqb_eq _].
  unfold fexp, emin in Hc. assert (Z.pos (digits2_pos m) <= 53) as Hd by lia. pose proof (digits2_spec m) as [_ Hm].
  assert (2 ^ Z.pos (digits2_pos m) <= 2 ^ 53) by (apply Z.pow_le_mono_r; lia).
  set (a := Z.pos m / 2 ^ (- e)) in *. assert (0 < 2 ^ (- e)) by lia.
  assert (0 <= a < 2 ^ 53) as Ha.
  { split; [apply Z.div_pos; lia|]. apply Z.div_lt_upper_bound; [lia|]. nia. }
  destruct (decide (a = 0)) as [E0|Hne].
  { rewrite E0 in He. by destruct s. }
  destruct (f64_of_small (if s then - a else a)) as (m' & e' & E & Hi); [destruct s; lia|].
  rewrite E in He. assert (((if s then - a else a) <? 0) = s) as Hs by (destruct s; lia). rewrite Hs in *.
  by rewrite (SFeqb_finite _ _ _ _ _ _ He).
Qed.
