(* ===== verification/AuditRecorder.v ===== *)
(** * Audit records of a run
    (src/internal/workflow/executor_audit.go, [SanitizeParams] of
    src/internal/history/history.go)

    The recorder turns a run into records of the audit log: start, one per
    step, completion, and the two idempotency outcomes.  Appending to the log,
    the secret manager, SHA-256 and JSON are operations of [auditEnv]; the log
    itself is modelled in AuditChain. *)

From S2P Require Import Prelude GoStrings GoTime GoText JsonPath WorkflowTypes Effects Helpers.
From S2P Require Import Errors Idempotency.
From Stdlib Require Import Ascii.

#[local] Open Scope string_scope.
#[local] Open Scope Z_scope.

Definition auditActionStep : string := "workflow_step".
Definition auditActionFailed : string := "workflow_failed".
Definition auditActionIdempotentHit : string := "workflow_idempotent_hit".
Definition auditActionIdempotentRejected : string := "workflow_idempotent_rejected".
Definition AuditActionWorkflowStart : string := "workflow_start".
Definition AuditActionWorkflowEnd : string := "workflow_end".

Definition auditMaxFieldLen : nat := 500.
Definition auditSecretRedacted : string := "[REDACTED]".

(** The fields of a record that the recorder fills in. *)
Record auditEntry := mkEntry {
  ae_Action : string;
  ae_Resource : string;
  ae_Success : bool;
  ae_Detail : string
}.

(** What a detail holds; the encoder sorts the fields. *)
Inductive dval :=
  | DStr (s : string)
  | DInt (n : Z)
  | DNum (f : float64)
  | DObj (l : list (string * json)).
Definition detail : Type := list (string * dval).

(** [au_append]: [history.AppendAuditLog]; [au_vars]: the values of the secret
    manager, in the order of its map; [au_totals]: the cost, rounded, and the
    tokens of the run's trace, when there is one; [au_duration]: how long a
    step took, as text. *)
Record auditEnv (W : Type) := mkAuditEnv {
  au_append : auditEntry -> M W (option error);
  au_vars : M W (option (list string));
  au_totals : M W (option (float64 * Z));
  au_duration : StepResult -> string;
  au_sha256_hex : string -> string;
  au_Marshal : detail -> result string;
  au_lower : string -> string
}.
Arguments au_append {W}.
Arguments au_vars {W}.
Arguments au_totals {W}.
Arguments au_duration {W}.
Arguments au_sha256_hex {W}.
Arguments au_Marshal {W}.
Arguments au_lower {W}.

(** ** Sanitizing *)

Definition sensitiveKeywords : list string := ["key"; "token"; "secret"; "password"].
Definition isSensitiveKey (lower : string -> string) (key : string) : bool :=
  existsb (Contains (ToLower lower key)) sensitiveKeywords.

Fixpoint sanitize_value (lower : string -> string) (v : json) : json :=
  match v with
  | JObj l => JObj (map (fun '(k, v) =>
      (k, if isSensitiveKey lower k then JStr "***" else sanitize_value lower v)) l)
  | _ => v
  end.
Definition SanitizeParams (lower : string -> string) (params : list (string * json))
    : list (string * json) :=
  map (fun '(k, v) => (k, if isSensitiveKey lower k then JStr "***" else sanitize_value lower v))
    params.

(** ** Redaction and truncation *)

Definition longer (s t : string) : Prop := (String.length t <= String.length s)%nat.
#[export] Instance longer_dec s t : Decision (longer s t).
Proof. unfold longer. apply _. Defined.

(** The values that are long enough to redact. *)
Definition auditLoadSecretValues {W} (ae : auditEnv W) : M W (list string) :=
  v ← au_vars ae;
  mret match v with
       | None => []
       | Some l => filter (fun s => 4 <= String.length s)%nat l
       end.

(** [sort.Slice] by decreasing length. *)
Definition redaction_order (l : list string) : list string := merge_sort longer l.

Definition redact (values : list string) (s : string) : string :=
  fold_left (fun s v => if Contains s v then ReplaceAll s v auditSecretRedacted else s) values s.

(** [truncateAudit]: cut at 500 bytes and back up over continuation bytes. *)
Definition truncateAudit (s : string) : string :=
  if (String.length s <=? auditMaxFieldLen)%nat then s
  else trim_end (str_take auditMaxFieldLen s) +:+ "...".

(** ** The recorder *)

Record auditRecorder := mkRecorder {
  ar_enabled : bool;
  ar_dir : string;
  ar_workflowName : string;
  ar_steps : list WorkflowStep;
  ar_secretValues : list string;
  ar_secretsLoaded : bool
}.

Definition newAuditRecorder (enabled : bool) (dir : string) (wf : Workflow) : auditRecorder :=
  mkRecorder enabled dir (wf_Name wf) (wf_Steps wf) [] false.

Section recorder.
Context {W : Type} (ae : auditEnv W).

Definition redactSecrets (ar : auditRecorder) (s : string) : M W (string * auditRecorder) :=
  if decide (s = "") then mret (s, ar) else
  ar ← (if ar_secretsLoaded ar then mret ar else
        l ← auditLoadSecretValues ae;
        mret (mkRecorder (ar_enabled ar) (ar_dir ar) (ar_workflowName ar) (ar_steps ar)
                (redaction_order l) true));
  mret (redact (ar_secretValues ar) s, ar).

(** Failures and panics of the log are swallowed. *)
Definition appendLog (e : auditEntry) : M W unit :=
  recover (_ ← au_append ae e; mret tt) (fun _ => mret tt).

(** [b, _ := json.Marshal(d)]. *)
Definition marshalled (d : detail) : string :=
  match au_Marshal ae d with Ok b => b | Err _ => "" end.

Definition workflowDetail (ar : auditRecorder) (phase errMsg : string)
    (totals : option (float64 * Z)) : M W (string * auditRecorder) :=
  let d := [("workflow", DStr (ar_workflowName ar));
            ("steps", DInt (Z.of_nat (length (ar_steps ar)))); ("phase", DStr phase)] in
  '(d, ar) ← (if decide (errMsg = "") then mret (d, ar) else
              '(e, ar) ← redactSecrets ar errMsg; mret ((d ++ [("error", DStr e)])%list, ar));
  let d := match totals with
           | None => d
           | Some (cost, tokens) => (d ++ [("cost_usd", DNum cost); ("total_tokens", DInt tokens)])%list
           end in
  mret (marshalled d, ar).

Definition recordStart (ar : auditRecorder) : M W auditRecorder :=
  if negb (ar_enabled ar) then mret ar else
  '(d, ar) ← workflowDetail ar "started" "" None;
  _ ← appendLog (mkEntry AuditActionWorkflowStart (ar_workflowName ar) true d);
  mret ar.

(** The declared step that a result belongs to, when the node agrees. *)
Definition attributed (ar : auditRecorder) (r : StepResult) : option WorkflowStep :=
  if 0 <=? sr_StepIndex r then
    s ← ar_steps ar !! Z.to_nat (sr_StepIndex r);
    if decide (ws_Node s = sr_NodeName r) then Some s else None
  else None.

Fixpoint redact_params (ar : auditRecorder) (l : list (string * json))
    : M W (list (string * json) * auditRecorder) :=
  match l with
  | [] => mret ([], ar)
  | (k, JStr s) :: l =>
      '(s, ar) ← redactSecrets ar s; '(l, ar) ← redact_params ar l; mret ((k, JStr s) :: l, ar)
  | kv :: l => '(l, ar) ← redact_params ar l; mret (kv :: l, ar)
  end.

Definition attribution (ar : auditRecorder) (r : StepResult) : M W (detail * auditRecorder) :=
  match attributed ar r with
  | None => mret ([], ar)
  | Some s =>
      let named := if decide (ws_Name s = "") then [] else [("step_name", DStr (ws_Name s))] in
      if decide (ws_Params s = ∅) then mret (named, ar) else
      let params := SanitizeParams (au_lower ae)
                      (map (fun '(k, v) => (k, JStr v)) (map_to_list (ws_Params s))) in
      '(params, ar) ← redact_params ar params;
      mret ((named ++ [("params", DObj params)])%list, ar)
  end.

Definition appendStep (ar : auditRecorder) (r : StepResult) : M W auditRecorder :=
  '(i, ar) ← redactSecrets ar (sr_Input r);
  '(o, ar) ← redactSecrets ar (sr_Output r);
  '(st, ar) ← match sr_Error r with
              | None => mret ([("status", DStr "success")], ar)
              | Some e => '(e, ar) ← redactSecrets ar e;
                          mret ([("status", DStr "failed"); ("error", DStr e)], ar)
              end;
  '(extra, ar) ← attribution ar r;
  let d := ([("step_index", DInt (sr_StepIndex r)); ("node_name", DStr (sr_NodeName r));
             ("input", DStr (truncateAudit i)); ("output", DStr (truncateAudit o));
             ("duration", DStr (au_duration ae r))] ++ st ++ extra)%list in
  match au_Marshal ae d with
  | Err _ => mret ar
  | Ok data =>
      _ ← appendLog (mkEntry auditActionStep (sr_NodeName r) (bool_decide (sr_Error r = None)) data);
      mret ar
  end.

Definition recordCompletion (ar : auditRecorder) (results : list StepResult)
    (runErr : option error) : M W auditRecorder :=
  if negb (ar_enabled ar) then mret ar else
  ar ← foldM appendStep ar results;
  totals ← au_totals ae;
  match runErr with
  | Some e =>
      '(d, ar) ← workflowDetail ar "failed" e totals;
      _ ← appendLog (mkEntry auditActionFailed (ar_workflowName ar) false d);
      mret ar
  | None =>
      '(d, ar) ← workflowDetail ar "completed" "" totals;
      _ ← appendLog (mkEntry AuditActionWorkflowEnd (ar_workflowName ar) true d);
      mret ar
  end.

Definition idempotencyKeyPrefix (key : string) : string := str_take 16 (au_sha256_hex ae key).

Definition idempotencyDetail (ar : auditRecorder) (r : IdempotencyRecord) (phase : string)
    : M W (string * auditRecorder) :=
  '(o, ar) ← redactSecrets ar (ir_FinalOutput r);
  let d := [("workflow", DStr (ar_workflowName ar)); ("phase", DStr phase);
            ("idempotency_key", DStr (idempotencyKeyPrefix (ir_Key r)));
            ("run_id", DStr (ir_RunID r)); ("status", DStr (ir_Status r));
            ("final_output", DStr (truncateAudit o))] in
  if decide (ir_Error r = "") then mret (marshalled d, ar) else
  '(e, ar) ← redactSecrets ar (ir_Error r);
  mret (marshalled (d ++ [("error", DStr e)])%list, ar).

Definition recordIdempotencyHit (ar : auditRecorder) (r : IdempotencyRecord) : M W auditRecorder :=
  if negb (ar_enabled ar) then mret ar else
  '(d, ar) ← idempotencyDetail ar r "cache_hit";
  _ ← appendLog (mkEntry auditActionIdempotentHit (ar_workflowName ar) true d);
  mret ar.

Definition recordIdempotencyRejected (ar : auditRecorder) (r : IdempotencyRecord)
    : M W auditRecorder :=
  if negb (ar_enabled ar) then mret ar else
  '(d, ar) ← idempotencyDetail ar r "rejected_concurrent";
  _ ← appendLog (mkEntry auditActionIdempotentRejected (ar_workflowName ar) false d);
  mret ar.
End recorder.

(** ** Nothing secret is left *)

(** Values that the marker cannot recreate. *)
Definition redactable (v : string) : Prop :=
  v <> "" /\ str_has "["%char v = false /\ str_has "]"%char v = false /\ ~ occurs_in v "REDACTED".

Lemma Join_free v parts : redactable v -> Forall (fun p => ~ occurs_in v p) parts ->
  ~ occurs_in v (Join parts auditSecretRedacted).
Proof.
  intros (Hne & Hl & Hr & Hm) HF. induction parts as [|p parts IH].
  - intros (a & b & H). destruct a; [|done]. by destruct v.
  - apply Forall_cons in HF as [Hp HF]. specialize (IH HF). cbn [Join].
    destruct parts as [|q parts]; [done|]. intros Ho.
    apply (occurs_split v "["%char p) in Ho as [?|Ho]; [done| |done].
    by apply (occurs_split v "]"%char "REDACTED") in Ho as [?|?].
Qed.

Lemma ReplaceAll_keeps v u s : redactable v -> ~ occurs_in v s ->
  ~ occurs_in v (ReplaceAll s u auditSecretRedacted).
Proof.
  intros Hv Hs. apply Join_free; [done|]. apply Forall_forall. intros p Hp Ho.
  by eapply Hs, Split_pieces.
Qed.

Lemma ReplaceAll_removes v s : redactable v ->
  ~ occurs_in v (ReplaceAll s v auditSecretRedacted).
Proof.
  intros Hv. apply Join_free; [done|]. apply Forall_forall. intros p Hp.
  eapply Split_clean; [apply Hv|done].
Qed.

Lemma redact_keeps v values : forall s, redactable v -> ~ occurs_in v s ->
  ~ occurs_in v (redact values s).
Proof.
  induction values as [|u values IH]; intros s Hv Hs; [done|]. cbn.
  apply IH; [done|]. destruct (Contains s u); [by apply ReplaceAll_keeps|done].
Qed.

(** redaction leaves no trace: a secret value that contains no bracket and is
    no part of the marker does not occur in the redacted text, whatever the
    other secrets and their order. *)
Theorem redact_no_leak (values : list string) (s v : string) :
  v ∈ values -> redactable v -> ~ occurs_in v (redact values s).
Proof.
  intros Hin Hv. revert s. induction values as [|u values IH]; intros s; [by apply elem_of_nil in Hin|].
  apply elem_of_cons in Hin as [<-|Hin]; cbn; [|by apply IH].
  apply redact_keeps; [done|]. destruct (Contains s v) eqn:E; [by apply ReplaceAll_removes|].
  intros Ho%Contains_spec. congruence.
Qed.

Lemma redact_no_leak_witness :
  redact ["ghp_short_tail"; "ghp_short"] "a ghp_short_tail b ghp_short" = "a [REDACTED] b [REDACTED]" /\
  ~ occurs_in "ghp_short" (redact ["ghp_short_tail"; "ghp_short"] "a ghp_short_tail b ghp_short").
Proof.
  split; [vm_compute; reflexivity|]. apply redact_no_leak; [by right; left|].
  split_and!; [done|done|done|]. intros Ho%Contains_spec. by vm_compute in Ho.
Defined.

(** ** Truncation *)

Lemma trim_start_app a lead cs : str_forall (fun c => negb (RuneStart c)) cs = true ->
  RuneStart lead = true -> trim_start (cs +:+ String lead a) = String lead a.
Proof.
  intros Hcs Hl. induction cs as [|c cs IH]; cbn; [by rewrite Hl|].
  cbn in Hcs. apply andb_prop in Hcs as [Hc Hcs]. apply negb_true_iff in Hc. rewrite Hc. by apply IH.
Qed.

Lemma str_forall_rev p s : forall acc, str_forall p (string_rev_app s acc) = str_forall p s && str_forall p acc.
Proof.
  induction s as [|c s IH]; intros acc; cbn; [done|]. rewrite IH. cbn.
  rewrite andb_assoc. f_equal. apply andb_comm.
Qed.

(** a field whose 500-byte cut falls behind a byte of a longer character is
    recorded as invalid UTF-8, although the cut may fall exactly between two
    characters: the continuation bytes are dropped and their first byte is
    kept in front of the dots. *)
Theorem truncateAudit_dangling (s a cs : string) (lead : ascii) :
  (auditMaxFieldLen < String.length s)%nat ->
  str_take auditMaxFieldLen s = a +:+ String lead cs ->
  (192 <= N_of_ascii lead)%N -> str_forall (fun c => negb (RuneStart c)) cs = true ->
  truncateAudit s = a +:+ String lead "..." /\ ValidString (truncateAudit s) = false.
Proof.
  intros Hlen Hcut Hl Hcs. unfold truncateAudit. rewrite (proj2 (Nat.leb_gt _ _) Hlen), Hcut.
  assert (RuneStart lead = true) as Hrs.
  { unfold RuneStart. apply negb_true_iff, N.eqb_neq. intros E.
    assert (N.testbit (N.land (N_of_ascii lead) 192) 6 = false) as E6 by by rewrite E.
    rewrite N.land_spec, andb_true_r in E6. pose proof (N_ascii_bounded lead).
    apply N.testbit_false in E6. change (2 ^ 6)%N with 64%N in E6.
    assert (N_of_ascii lead / 64 = 3)%N as E3 by (symmetry; apply (N.div_unique _ _ _ (N_of_ascii lead - 192)); lia).
    by rewrite E3 in E6. }
  assert (trim_end (a +:+ String lead cs) = a +:+ String lead "") as ->.
  { unfold trim_end. rewrite string_rev_app_distr.
    replace (string_rev (String lead cs)) with (string_rev cs +:+ string_rev (String lead ""))
      by (rewrite <- string_rev_app_distr; done).
    rewrite string_app_assoc. change (string_rev (String lead "") +:+ string_rev a)
      with (String lead (string_rev a)).
    rewrite trim_start_app; [| |done].
    - change (String lead (string_rev a)) with (string_rev (String lead "") +:+ string_rev a).
      rewrite <- string_rev_app_distr. apply string_rev_involutive.
    - unfold string_rev. rewrite str_forall_rev. by rewrite Hcs. }
  rewrite string_app_assoc. split; [done|]. by apply utf8_dangling.
Qed.

Fixpoint str_repeat (n : nat) (s : string) : string :=
  match n with O => "" | S n => s +:+ str_repeat n s end.
Definition chinese : string :=
  String (ascii_of_nat 228) (String (ascii_of_nat 184) (String (ascii_of_nat 173) "")).

(** 300 characters of three bytes behind two of one: the cut falls between two
    characters. *)
Lemma truncateAudit_dangling_witness :
  let s := "ab" +:+ str_repeat 300 chinese in
  ValidString s = true /\ ValidString (str_take auditMaxFieldLen s) = true /\
  ValidString (truncateAudit s) = false.
Proof.
  intros s. split; [vm_compute; reflexivity|]. split; [vm_compute; reflexivity|].
  eapply (truncateAudit_dangling s ("ab" +:+ str_repeat 165 chinese) (str_drop 1 chinese)
    (ascii_of_nat 228)); vm_compute; try reflexivity; [lia|discriminate].
Defined.

Lemma length_trim_start s : (String.length (trim_start s) <= String.length s)%nat.
Proof. induction s as [|c s IH]; cbn; [done|]. destruct (RuneStart c); cbn; lia. Qed.
Lemma length_rev_app s : forall acc,
  String.length (string_rev_app s acc) = (String.length s + String.length acc)%nat.
Proof. induction s as [|c s IH]; intros acc; cbn; [done|]. rewrite IH. cbn. lia. Qed.

(** A recorded field has at most 503 bytes. *)
Lemma truncateAudit_bounded s : (String.length (truncateAudit s) <= auditMaxFieldLen + 3)%nat.
Proof.
  unfold truncateAudit. destruct (Nat.leb_spec (String.length s) auditMaxFieldLen); [lia|].
  rewrite string_length_app. set (cut := str_take auditMaxFieldLen s).
  pose proof (length_str_take auditMaxFieldLen s : (String.length cut <= _)%nat) as Hc.
  pose proof (length_trim_start (string_rev cut)) as Ht.
  unfold trim_end, string_rev in *. rewrite length_rev_app in Ht |- *. cbn [String.length] in *. lia.
Qed.

(** ** The trail of a run *)

#[local] Open Scope list_scope.

Definition summary (e : auditEntry) : string * string * bool :=
  (ae_Action e, ae_Resource e, ae_Success e).

(** A log that works: every append is kept, nothing else touches it, and the
    details can be encoded. *)
Class AuditWorld {W} (ae : auditEnv W) (log : W -> list auditEntry) := {
  aw_append : forall e w, exists w', au_append ae e w = (w', Ret None) /\ log w' = log w ++ [e];
  aw_vars : forall w, exists w' v, au_vars ae w = (w', Ret v) /\ log w' = log w;
  aw_totals : forall w, exists w' v, au_totals ae w = (w', Ret v) /\ log w' = log w;
  aw_Marshal : forall d, exists b, au_Marshal ae d = Ok b
}.

Section trail.
Context {W : Type} (ae : auditEnv W) (log : W -> list auditEntry) `{HA : !AuditWorld ae log}.

(** [m] returns, appending records with these summaries, and its result
    satisfies [Q]. *)
Definition writes {A} (m : M W A) (es : list (string * string * bool)) (Q : A -> Prop) : Prop :=
  forall w, exists w' a, m w = (w', Ret a) /\ summary <$> log w' = (summary <$> log w) ++ es /\ Q a.

Lemma writes_ret {A} (a : A) (Q : A -> Prop) : Q a -> writes (mret a) [] Q.
Proof. intros HQ w. exists w, a. by rewrite app_nil_r. Qed.

Lemma writes_bind {A B} (m : M W A) (k : A -> M W B) es1 es2 Q1 Q2 :
  writes m es1 Q1 -> (forall a, Q1 a -> writes (k a) es2 Q2) -> writes (m ≫= k) (es1 ++ es2) Q2.
Proof.
  intros Hm Hk w. destruct (Hm w) as (w1 & a & E1 & L1 & HQ). destruct (Hk a HQ w1) as (w2 & b & E2 & L2 & HQ2).
  exists w2, b. split_and!; [|by rewrite L2, L1, (assoc_L (++))|done].
  unfold mbind, M_bind. by rewrite E1.
Qed.

Lemma writes_bind_quiet {A B} (m : M W A) (k : A -> M W B) es Q1 Q2 :
  writes m [] Q1 -> (forall a, Q1 a -> writes (k a) es Q2) -> writes (m ≫= k) es Q2.
Proof. apply (writes_bind m k [] es). Qed.

Lemma writes_mono {A} (m : M W A) es (Q Q' : A -> Prop) :
  writes m es Q -> (forall a, Q a -> Q' a) -> writes m es Q'.
Proof. intros Hm HQ w. destruct (Hm w) as (w' & a & ? & ? & ?). exists w', a. auto. Qed.

Lemma writes_append e : writes (appendLog ae e) [summary e] (fun _ => True).
Proof using HA.
  intros w. destruct (aw_append e w) as (w' & E & L). exists w', tt. split_and!; [|by rewrite L, fmap_app|done].
  unfold appendLog, recover, mbind, M_bind. by rewrite E.
Qed.

(** The part of a recorder that decides what is written. *)
Definition same_run (ar ar' : auditRecorder) : Prop :=
  ar_enabled ar' = ar_enabled ar /\ ar_workflowName ar' = ar_workflowName ar /\
  ar_steps ar' = ar_steps ar.

#[local] Instance same_run_preorder : PreOrder same_run.
Proof. split; [by intros ar|]. intros a b c (?&?&?) (?&?&?). split_and!; congruence. Qed.

Lemma writes_redact ar s : writes (redactSecrets ae ar s) [] (fun p => same_run ar p.2).
Proof using HA.
  unfold redactSecrets. case_decide; [by apply writes_ret|].
  eapply (writes_bind_quiet _ _ _ (fun ar' => same_run ar ar')); [|intros; by apply writes_ret].
  destruct (ar_secretsLoaded ar); [by apply writes_ret|].
  eapply (writes_bind_quiet _ _ _ (fun _ => True)); [|intros; by apply writes_ret].
  intros w. destruct (aw_vars w) as (w' & v & E & L).
  exists w'. unfold auditLoadSecretValues, mbind, M_bind. rewrite E. eexists. split_and!; [done| |done].
  by rewrite L, app_nil_r.
Qed.

Lemma writes_detail ar phase msg totals :
  writes (workflowDetail ae ar phase msg totals) [] (fun p => same_run ar p.2).
Proof using HA.
  unfold workflowDetail. eapply (writes_bind_quiet _ _ _ (fun p => same_run ar p.2)).
  - case_decide; [by apply writes_ret|].
    eapply writes_bind_quiet; [apply writes_redact|]. intros [e ar'] H'. by apply writes_ret.
  - intros [d ar'] H'. by apply writes_ret.
Qed.

Lemma writes_redact_params l : forall ar,
  writes (redact_params ae ar l) [] (fun p => same_run ar p.2).
Proof using HA.
  induction l as [|[k v] l IH]; intros ar; [by apply writes_ret|].
  assert (writes ('(l, ar) ← redact_params ae ar l; mret ((k, v) :: l, ar)) []
    (fun p => same_run ar p.2)) as Hskip.
  { eapply writes_bind_quiet; [apply IH|]. intros [l' ar'] H'. by apply writes_ret. }
  destruct v; try exact Hskip.
  eapply writes_bind_quiet; [apply writes_redact|]. intros [s' ar1] H1.
  eapply writes_bind_quiet; [apply IH|]. intros [l' ar2] H2. apply writes_ret. by trans ar1.
Qed.

Lemma writes_attribution ar r : writes (attribution ae ar r) [] (fun p => same_run ar p.2).
Proof using HA.
  unfold attribution. destruct (attributed ar r); [|by apply writes_ret].
  case_decide; [by apply writes_ret|].
  eapply writes_bind_quiet; [apply writes_redact_params|]. intros [l' ar'] H'. by apply writes_ret.
Qed.

Definition step_summary (r : StepResult) : string * string * bool :=
  (auditActionStep, sr_NodeName r, bool_decide (sr_Error r = None)).

Lemma writes_step ar r : writes (appendStep ae ar r) [step_summary r] (same_run ar).
Proof using HA.
  unfold appendStep.
  eapply writes_bind_quiet; [apply writes_redact|]. intros [i ar1] H1.
  eapply writes_bind_quiet; [apply writes_redact|]. intros [o ar2] H2.
  eapply (writes_bind_quiet _ _ _ (fun p => same_run ar2 p.2)).
  { destruct (sr_Error r); [|by apply writes_ret].
    eapply writes_bind_quiet; [apply writes_redact|]. intros [e ar'] H'. by apply writes_ret. }
  intros [st ar3] H3. eapply writes_bind_quiet; [apply writes_attribution|]. intros [ex ar4] H4.
  match goal with |- context [au_Marshal ae ?d] => destruct (aw_Marshal d) as [b ->] end.
  eapply (writes_bind _ _ [_] []); [apply writes_append|]. intros _ _. apply writes_ret.
  cbn in *. by trans ar1; [|trans ar2; [|trans ar3]].
Qed.

Lemma writes_steps results : forall ar,
  writes (foldM (appendStep ae) ar results) (step_summary <$> results) (same_run ar).
Proof using HA.
  induction results as [|r results IH]; intros ar; [by apply writes_ret|].
  eapply (writes_bind _ _ [_]); [apply writes_step|]. intros ar1 H1.
  eapply writes_mono; [apply IH|]. intros ar2 H2. by trans ar1.
Qed.

(** The closing record of a run. *)
Definition end_summary (ar : auditRecorder) (err : option error) : string * string * bool :=
  match err with
  | Some _ => (auditActionFailed, ar_workflowName ar, false)
  | None => (AuditActionWorkflowEnd, ar_workflowName ar, true)
  end.

Lemma writes_completion ar results err : ar_enabled ar = true ->
  writes (recordCompletion ae ar results err)
    ((step_summary <$> results) ++ [end_summary ar err]) (same_run ar).
Proof using HA.
  intros Hen. unfold recordCompletion. rewrite Hen. cbn [negb].
  eapply writes_bind; [apply writes_steps|]. intros ar1 H1.
  eapply (writes_bind_quiet _ _ _ (fun _ => True)).
  { intros w. destruct (aw_totals w) as (w' & v & E & L). exists w', v. by rewrite L, app_nil_r. }
  intros totals _. assert (end_summary ar err = end_summary ar1 err) as ->
    by (destruct H1 as (_ & Hn & _); unfold end_summary; by rewrite Hn).
  destruct err as [e|]; (eapply writes_bind_quiet; [apply writes_detail|]); intros [d ar2] H2;
    assert (ar_workflowName ar1 = ar_workflowName ar2) as Hn2 by (symmetry; apply H2);
    unfold end_summary; rewrite Hn2; (eapply (writes_bind _ _ [_] []); [apply writes_append|]);
    intros _ _; apply writes_ret; by trans ar1.
Qed.
End trail.

(** with a working log, the records of an audited run are one per step result,
    in order and with its outcome, followed by exactly one closing record
    that says whether the run failed. *)
Theorem recordCompletion_trail {W} (ae : auditEnv W) (log : W -> list auditEntry)
    `{!AuditWorld ae log} (ar : auditRecorder) (results : list StepResult) (err : option error) (w : W) :
  ar_enabled ar = true ->
  exists w' ar', recordCompletion ae ar results err w = (w', Ret ar') /\
    summary <$> log w' = (summary <$> log w) ++ (step_summary <$> results) ++ [end_summary ar err].
Proof.
  intros Hen. destruct (writes_completion ae log ar results err Hen w) as (w' & ar' & E & L & _). eauto.
Qed.

Definition demo_audit : auditEnv (list auditEntry) :=
  mkAuditEnv _ (fun e l => (l ++ [e], Ret None)) (mret None) (mret None) (fun _ => "1s")
    (fun s => s) (fun _ => Ok "{}") (fun s => s).

Lemma recordCompletion_trail_witness :
  let ar := mkRecorder true "" "wf" [] [] false in
  let rs := [mkResult 0 "http" "in" "out" None; mkResult 1 "shell" "out" "" (Some "boom")] in
  exists w' ar', recordCompletion demo_audit ar rs (Some "boom") [] = (w', Ret ar') /\
    summary <$> w' = [("workflow_step", "http", true); ("workflow_step", "shell", false);
                      ("workflow_failed", "wf", false)].
Proof.
  intros ar rs. unshelve eapply (recordCompletion_trail demo_audit (fun l => l) ar rs (Some "boom") []).
  - split.
    + intros e w. by exists (w ++ [e]).
    + intros w. by exists w, None.
    + intros w. by exists w, None.
    + intros d. by exists "{}".
  - reflexivity.
Defined.
