(* ===== verification/Executor.v ===== *)
(** * The configurable executor
    (Executor of src/internal/workflow/executor.go and
    src/internal/workflow/executor_executor.go)

    [ExecuteWithTrace] admits a run through the idempotency ledger, records it
    in the audit log, runs it on the DAG scheduler or the sequential executor,
    and records its outcome in the ledger.  The ledger is any
    [IdempotencyStore]; before each of its calls, other callers may have used
    it ([xe_others]).  Metrics, progress callbacks and the wait group of
    [Shutdown] are left out: no result depends on them. *)

From S2P Require Import Prelude GoStrings GoTime WorkflowTypes Dag ExprEngine WalState Effects.
From S2P Require Import Helpers Compound DagScheduler Sequential Interpreter Errors Idempotency.
From S2P Require Import IdempotencyProofs AuditRecorder.
From Stdlib Require Import Ascii.

#[local] Open Scope string_scope.
#[local] Open Scope Z_scope.

(** ** Options *)

Record Executor := mkExecutor {
  ex_statePath : string;
  ex_walPath : string;
  ex_timeout : Z;
  ex_auditEnabled : bool;
  ex_auditDir : string;
  ex_key : string;
  ex_hasStore : bool;       (* idempotencyStore is not nil *)
  ex_wfPath : string;
  ex_safeMode : bool
}.

Definition NewExecutor : Executor :=
  mkExecutor "" "" DefaultWorkflowTimeout false "" "" false "" false.
Definition WithCheckpoint (path : string) (e : Executor) : Executor :=
  mkExecutor path (ex_walPath e) (ex_timeout e) (ex_auditEnabled e) (ex_auditDir e) (ex_key e)
    (ex_hasStore e) (ex_wfPath e) (ex_safeMode e).
Definition WithWAL (path : string) (e : Executor) : Executor :=
  mkExecutor (ex_statePath e) path (ex_timeout e) (ex_auditEnabled e) (ex_auditDir e) (ex_key e)
    (ex_hasStore e) (ex_wfPath e) (ex_safeMode e).
Definition WithTimeout (d : Z) (e : Executor) : Executor :=
  mkExecutor (ex_statePath e) (ex_walPath e) d (ex_auditEnabled e) (ex_auditDir e) (ex_key e)
    (ex_hasStore e) (ex_wfPath e) (ex_safeMode e).
Definition WithAuditLog (enabled : bool) (dir : string) (e : Executor) : Executor :=
  mkExecutor (ex_statePath e) (ex_walPath e) (ex_timeout e) enabled dir (ex_key e)
    (ex_hasStore e) (ex_wfPath e) (ex_safeMode e).
(** The default file store is made when there is none yet. *)
Definition WithIdempotencyKey (key : string) (e : Executor) : Executor :=
  mkExecutor (ex_statePath e) (ex_walPath e) (ex_timeout e) (ex_auditEnabled e) (ex_auditDir e) key
    true (ex_wfPath e) (ex_safeMode e).
Definition WithIdempotencyStore (present : bool) (e : Executor) : Executor :=
  mkExecutor (ex_statePath e) (ex_walPath e) (ex_timeout e) (ex_auditEnabled e) (ex_auditDir e)
    (ex_key e) present (ex_wfPath e) (ex_safeMode e).
Definition WithWorkflowPath (path : string) (e : Executor) : Executor :=
  mkExecutor (ex_statePath e) (ex_walPath e) (ex_timeout e) (ex_auditEnabled e) (ex_auditDir e)
    (ex_key e) (ex_hasStore e) path (ex_safeMode e).
Definition WithSafeMode (mode : bool) (e : Executor) : Executor :=
  mkExecutor (ex_statePath e) (ex_walPath e) (ex_timeout e) (ex_auditEnabled e) (ex_auditDir e)
    (ex_key e) (ex_hasStore e) (ex_wfPath e) mode.

(** ** Execution *)

(** An error of the ledger or of the run. *)
Inductive exec_error :=
  | LedgerError (e : goerr)
  | RunError (e : seq_error).

(** What the executor itself writes into the trace. *)
Record exec_trace := mkTrace {
  tr_RunID : string;
  tr_IdempotencyHit : bool
}.
Definition execOut : Type := string * list StepResult * exec_trace * option exec_error.

Record ExecEnv (W : Type) := mkExecEnv {
  xe_now : M W Z;
  xe_newRunID : M W string;
  xe_SetHistoryDir : string -> M W unit;
  xe_others : M W (list idem_event)
}.
Arguments xe_now {W}.
Arguments xe_newRunID {W}.
Arguments xe_SetHistoryDir {W}.
Arguments xe_others {W}.

(** The run itself: the log takes precedence over the checkpoint, and the DAG
    scheduler does not use it. *)
Definition executor_run {W} (env : Env W) (store : Store W) (e : Executor) (ctx : Ctx)
    (wf : Workflow) : M W seqOut :=
  let R := knot env store stuck_rec (steps_depth (wf_Steps wf)) in
  let statePath := if decide (ex_walPath e = "") then ex_statePath e else "" in
  if hasDAGDeclarations (wf_Steps wf)
  then
    '(output, results, err) ←
      executeWorkflowDAG env (st_cps store) R ctx wf (ex_timeout e) statePath;
    mret (output, results, Failed <$> err)
  else
    executeWorkflowSequential env store R ctx wf statePath (ex_walPath e) (ex_wfPath e)
      (ex_safeMode e) (ex_timeout e).

Section executor.
Context {W S : Type} `{HS : IdempotencyStore S}.
Context (xe : ExecEnv W) (ae : auditEnv W) (env : Env W) (store : Store W).

Definition lift {A} (m : M W A) : M (W * S) A := fun ws =>
  let '(w, r) := m ws.1 in ((w, ws.2), r).

(** A call of the ledger, after those of the other callers. *)
Definition ledger_call {A} (f : Z -> S -> A * S) : M (W * S) A := fun ws =>
  match lift (xe_others xe) ws with
  | (ws, Panic p) => (ws, Panic p)
  | (ws, Ret evs) =>
      let s := fold_left (fun s e => (idem_step s e).2) evs ws.2 in
      match lift (xe_now xe) (ws.1, s) with
      | (ws, Panic p) => (ws, Panic p)
      | (ws, Ret now) => let '(a, s) := f now ws.2 in ((ws.1, s), Ret a)
      end
  end.

(** The answer to a trigger before anything runs. *)
Inductive admission :=
  | Refused (out : execOut)
  | Granted (runID : string) (reserved : bool) (ar : auditRecorder).

Definition hit (ar : auditRecorder) (r : IdempotencyRecord) : M (W * S) admission :=
  _ ← lift (recordIdempotencyHit ae ar r);
  mret (Refused (ir_FinalOutput r, [], mkTrace (ir_RunID r) true,
                 Some (LedgerError ErrIdempotencyHit))).

(** [logged]: whether the rejection is recorded in the audit log. *)
Definition rejected (logged : bool) (ar : auditRecorder) (r : IdempotencyRecord) (err : goerr)
    : M (W * S) admission :=
  _ ← (if logged then lift (recordIdempotencyRejected ae ar r) else mret ar);
  mret (Refused ("", [], mkTrace (ir_RunID r) false, Some (LedgerError err))).

(** [Reserve] and what its answer means. *)
Definition reserve (ar : auditRecorder) (key : string) : M (W * S) admission :=
  runID ← lift (xe_newRunID xe);
  '(r, ok, err) ← ledger_call (fun now => is_Reserve now key runID);
  match err with
  | Some e =>
      if decide (ir_Status r = idempotencyStatusCompleted) then hit ar r
      else rejected (bool_decide (ir_Status r = idempotencyStatusInProgress)) ar r e
  | None =>
      if negb ok then
        if decide (ir_Status r = idempotencyStatusCompleted) then hit ar r
        else rejected true ar r ErrIdempotencyInProgress
      else mret (Granted runID true ar)
  end.

Definition ask_ledger (e : Executor) (ar : auditRecorder) : M (W * S) admission :=
  let key := ex_key e in
  if bool_decide (key = "") || negb (ex_hasStore e) then mret (Granted "" false ar) else
  '(r, found, err) ← ledger_call (fun now => is_Check now key);
  match err, found with
  | None, true =>
      if decide (ir_Status r = idempotencyStatusCompleted) then hit ar r
      else if decide (ir_Status r = idempotencyStatusInProgress)
      then rejected true ar r ErrIdempotencyInProgress
      else reserve ar key
  | _, _ => reserve ar key
  end.

(** The record of a finished run. *)
Definition outcome_record (key runID name out : string) (err : option error) (now : Z)
    : IdempotencyRecord :=
  mkIdem key runID name
    (match err with Some _ => idempotencyStatusFailed | None => idempotencyStatusCompleted end)
    out (default "" err) now now "".

Definition ExecuteWithTrace (e : Executor) (ctx : Ctx) (wf : Workflow) : M (W * S) execOut :=
  let ar := newAuditRecorder (ex_auditEnabled e) (ex_auditDir e) wf in
  _ ← lift (when (ex_auditEnabled e && negb (bool_decide (ex_auditDir e = "")))
              (xe_SetHistoryDir xe (ex_auditDir e)));
  adm ← ask_ledger e ar;
  match adm with
  | Refused out => mret out
  | Granted runID reserved ar =>
      ar ← lift (recordStart ae ar);
      '(out, results, err) ← lift (executor_run env store e ctx wf);
      let errText := seq_error_text <$> err in
      ar ← lift (recordCompletion ae ar results errText);
      _ ← (if reserved then
             now ← lift (xe_now xe);
             ledger_call (fun t =>
               is_Record t (outcome_record (ex_key e) runID (wf_Name wf) out errText now))
           else mret None);
      mret (out, results, mkTrace runID false, RunError <$> err)
  end.

Definition Execute (e : Executor) (ctx : Ctx) (wf : Workflow)
    : M (W * S) (string * list StepResult * option exec_error) :=
  '(out, results, _, err) ← ExecuteWithTrace e ctx wf;
  mret (out, results, err).
End executor.
Arguments admission : clear implicits.

(** ** What the idempotency key guarantees of a run

    Proved against the interface of the ledger, with other callers using it
    between any two of the executor's own calls. *)

(** ** Computations over the ledger *)

Section triples.
Context {W S : Type} `{HS : IdempotencyStore S, HL : !IdempotencyLaws S}.

(** From a ledger that satisfies [P], a value that is returned satisfies [Q]
    with the ledger left behind. *)
Definition triple {A} (P : S -> Prop) (m : M (W * S) A) (Q : A -> S -> Prop) : Prop :=
  forall w s w' s' a, P s -> m (w, s) = ((w', s'), Ret a) -> Q a s'.

Lemma triple_ret {A} (P : S -> Prop) (a : A) (Q : A -> S -> Prop) :
  (forall s, P s -> Q a s) -> triple P (mret a) Q.
Proof. intros HQ w s w' s' a' HP [= <- <- <-]. auto. Qed.

Lemma triple_bind {A B} (P : S -> Prop) (m : M (W * S) A) (k : A -> M (W * S) B) Q Q' :
  triple P m Q -> (forall a, triple (Q a) (k a) Q') -> triple P (m ≫= k) Q'.
Proof.
  intros Hm Hk w s w' s' b HP. unfold mbind, M_bind.
  destruct (m (w, s)) as [[w1 s1] [a|msg]] eqn:E; [|done].
  intros Hb. eapply Hk; [by eapply Hm|done].
Qed.

Lemma triple_lift {A} (P : S -> Prop) (m : M W A) Q :
  yields m Q -> triple P (lift m) (fun a s => P s /\ Q a).
Proof.
  intros Hm w s w' s' a HP. unfold lift. cbn. destruct (m w) as [w1 r] eqn:E.
  intros [= <- <- ->]. split; [done|]. by eapply Hm.
Qed.

Lemma triple_lift_any {A} (P : S -> Prop) (m : M W A) : triple P (lift m) (fun _ s => P s).
Proof. intros w s w' s' a HP E. by eapply (triple_lift P m (fun _ => True)). Qed.

Lemma triple_mono {A} (P : S -> Prop) (m : M (W * S) A) (Q Q' : A -> S -> Prop) :
  triple P m Q -> (forall a s, Q a s -> Q' a s) -> triple P m Q'.
Proof. intros Hm HQ w s w' s' a HP E. by eapply HQ, Hm. Qed.

(** A fact about the value so far, with the ledger. *)
Lemma triple_fact {A} (P P' : S -> Prop) (fact : Prop) (m : M (W * S) A) Q :
  (forall s, P s -> fact /\ P' s) -> (fact -> triple P' m Q) -> triple P m Q.
Proof. intros HP Hm w s w' s' a Hs E. destruct (HP s Hs) as [Hf Hs']. by eapply Hm. Qed.

(** A call of the ledger sees the clock and what others left. *)
Lemma triple_call {A} (xe : ExecEnv W) (P : S -> Prop) (E : idem_event -> Prop) (T : Z -> Prop)
    (f : Z -> S -> A * S) (Q : A -> S -> Prop) :
  yields (xe_others xe) (Forall E) -> yields (xe_now xe) T ->
  (forall s e, P s -> E e -> P (idem_step s e).2) ->
  (forall now s, P s -> T now -> Q (f now s).1 (f now s).2) ->
  triple P (ledger_call xe f) Q.
Proof.
  intros Ho Hn Hstep Hf w s w' s' a HP. unfold ledger_call, lift. cbn.
  destruct (xe_others xe w) as [w1 [evs|msg]] eqn:Eo; [|done]. cbn.
  specialize (Ho _ _ _ Eo).
  assert (P (fold_left (fun s e => (idem_step s e).2) evs s)) as HP'.
  { clear Eo. revert s HP. induction evs as [|e evs IH]; intros s HP; [done|].
    apply Forall_cons in Ho as [He Ho]. cbn. by apply IH; [|apply Hstep]. }
  destruct (xe_now xe w1) as [w2 [now|msg]] eqn:En; [|done]. cbn.
  specialize (Hf now _ HP' (Hn _ _ _ En)).
  destruct (f now _) as [a' s2] eqn:Ef. intros [= <- <- <-]. exact Hf.
Qed.

(** Returned values and final worlds do not depend on [m2]'s continuation
    when the first computation never gets there. *)
Lemma bind_ext_triple {A B} (P : S -> Prop) (m : M (W * S) A) (k1 k2 : A -> M (W * S) B) Q w s :
  triple P m Q -> P s -> (forall a w s, Q a s -> k1 a (w, s) = k2 a (w, s)) ->
  (m ≫= k1) (w, s) = (m ≫= k2) (w, s).
Proof.
  intros Hm HP Hk. unfold mbind, M_bind.
  destruct (m (w, s)) as [[w1 s1] [a|msg]] eqn:E; [|done]. eapply Hk, Hm; done.
Qed.
End triples.

(** ** Triggers of a key that is taken *)

Section taken_key.
Context {W S : Type} `{HS : IdempotencyStore S, HL : !IdempotencyLaws S}.
Context (xe : ExecEnv W) (ae : auditEnv W) (k : string) (t0 ttl : Z).

Definition in_time (now : Z) : Prop := t0 <= now /\ (0 < ttl -> now - t0 <= ttl).

(** The clock is before the expiry of a record of [t0], the other callers do
    not give the key free, and the ledger can store the key with the run ids
    that are made. *)
Record quiet_world : Prop := {
  qw_others : yields (xe_others xe) (Forall (keeps_key k t0 ttl));
  qw_now : yields (xe_now xe) in_time;
  qw_runs : yields (xe_newRunID xe) (fun run => forall now, is_storable (placeholder k run now))
}.
Context (HQ : quiet_world).

Definition refuses (adm : admission) : Prop :=
  exists out tr g, adm = Refused (out, [], tr, Some (LedgerError g)).

Lemma triple_hit (P : S -> Prop) ar r : triple P (hit ae ar r) (fun adm s => P s /\ refuses adm).
Proof.
  eapply triple_bind; [apply triple_lift_any|]. intros a. apply triple_ret. cbn. intros s HP.
  split; [done|]. by repeat eexists.
Qed.

Lemma triple_rejected (P : S -> Prop) logged ar r g :
  triple P (rejected ae logged ar r g) (fun adm s => P s /\ refuses adm).
Proof.
  eapply (triple_bind _ _ _ (fun _ s => P s)).
  - destruct logged; [apply triple_lift_any|by apply triple_ret].
  - intros a. apply triple_ret. intros s HP. split; [done|]. by repeat eexists.
Qed.

Lemma held_call {A} (f : Z -> S -> A * S) (Q : A -> S -> Prop) :
  (forall now s, held k t0 ttl s -> in_time now -> Q (f now s).1 (f now s).2) ->
  triple (held k t0 ttl) (ledger_call xe f) Q.
Proof using HL HQ.
  apply (triple_call xe _ (keeps_key k t0 ttl) in_time);
    [apply HQ|apply HQ|]. intros s e Hh He. by apply keeps_key_step.
Qed.

Lemma reserve_held ar :
  triple (held k t0 ttl) (reserve xe ae ar k) (fun adm s => held k t0 ttl s /\ refuses adm).
Proof using HL HQ.
  eapply triple_bind; [apply triple_lift, HQ|]. intros runID.
  apply (triple_fact _ (held k t0 ttl) (forall now, is_storable (placeholder k runID now)));
    [by intros s [? ?]|]. intros Hrun.
  eapply (triple_bind _ _ _ (fun a s => held k t0 ttl s /\ a.1.2 = false)).
  - apply held_call. intros now s Hh [Hlo Hhi].
    pose proof (keeps_key_step k t0 ttl s (EvReserve now k runID) Hh) as Hs.
    destruct Hs as [Hh' Hno]; [by split|].
    specialize (Hno now runID eq_refl). cbn in Hh', Hno.
    destruct (is_Reserve now k runID s) as [[[r ok] er] s']. done.
  - intros [[r ok] er].
    apply (triple_fact _ (held k t0 ttl) (ok = false)); [by intros s [? ?]|]. intros ->.
    destruct er as [g|]; cbn [negb]; case_decide; (apply triple_hit || apply triple_rejected).
Qed.

Lemma admit_held e ar : ex_key e = k -> k <> "" -> ex_hasStore e = true ->
  triple (held k t0 ttl) (ask_ledger xe ae e ar) (fun adm s => held k t0 ttl s /\ refuses adm).
Proof using HL HQ.
  intros Hk Hne Hs. unfold ask_ledger. rewrite Hk, Hs, bool_decide_eq_false_2 by done. cbn [orb negb].
  eapply (triple_bind _ _ _ (fun _ s => held k t0 ttl s)).
  - apply held_call. intros now s Hh Ht.
    by apply (keeps_key_step k t0 ttl s (EvCheck now k) Hh).
  - intros [[r found] er]. destruct er; [apply reserve_held|].
    destruct found; [|apply reserve_held]. repeat case_decide;
      (apply triple_hit || apply triple_rejected || apply reserve_held).
Qed.
End taken_key.

(** ** Running once *)

Section once.
Context {W S : Type} `{HS : IdempotencyStore S, HL : !IdempotencyLaws S}.
Context (xe : ExecEnv W) (ae : auditEnv W).

(** A trigger of a taken key returns the same for every registry of nodes and
    every store of files: it runs nothing. *)
Lemma taken_runs_nothing k t0 ttl (env1 env2 : Env W) (store1 store2 : Store W) e ctx wf w s :
  quiet_world (S:=S) xe k t0 ttl -> ex_key e = k -> k <> "" -> ex_hasStore e = true ->
  held k t0 ttl s ->
  ExecuteWithTrace xe ae env1 store1 e ctx wf (w, s) = ExecuteWithTrace xe ae env2 store2 e ctx wf (w, s).
Proof using HL.
  intros HQ Hk Hne Hs Hh. unfold ExecuteWithTrace.
  eapply (bind_ext_triple (held k t0 ttl)); [apply triple_lift_any|done|].
  cbn. intros _ w1 s1 Hh1.
  eapply (bind_ext_triple (held k t0 ttl)); [by apply admit_held|done|].
  by intros adm w2 s2 [_ (out & tr & g & ->)].
Qed.

Lemma taken_refused k t0 ttl (env : Env W) (store : Store W) e ctx wf :
  quiet_world (S:=S) xe k t0 ttl -> ex_key e = k -> k <> "" -> ex_hasStore e = true ->
  triple (held k t0 ttl) (ExecuteWithTrace xe ae env store e ctx wf)
    (fun out s => held k t0 ttl s /\ out.1.1.2 = [] /\ exists g, out.2 = Some (LedgerError g)).
Proof using HL.
  intros HQ Hk Hne Hs. unfold ExecuteWithTrace.
  eapply triple_bind; [apply triple_lift_any|]. intros ?.
  eapply triple_bind; [by apply admit_held|]. intros adm w2 s2 w3 s3 res [Hh (out & tr & g & ->)].
  intros [= <- <- <-]. eauto.
Qed.

(** Nobody changes the time to live. *)
Lemma keeps_ttl k t0 ttl (s : S) e : keeps_key k t0 ttl e -> is_ttl (idem_step s e).2 = is_ttl s.
Proof using HL.
  destruct e as [now k'|now k' run|now r|k']; intros He; cbn in *.
  - destruct (is_Check now k' s) as [[[r f] er] s'] eqn:E. by apply law_Check in E as [[E _] _].
  - destruct (is_Reserve now k' run s) as [[[r ok] er] s'] eqn:E.
    apply law_Reserve in E; [|apply He]. unfold reserve_post in E.
    destruct ok, er; [done|by destruct E as (_ & h & E & _)|by destruct E as [[E _] _]|
      by destruct E as (_ & _ & E & _)].
  - destruct (is_Record now r s) as [er s'] eqn:E. apply law_Record in E; [|apply He].
    destruct er; [by destruct E as [E _]|by destruct E as (h & E & _)].
  - destruct (is_Clear k' s) as [er s'] eqn:E. by apply law_Clear in E as (E & _).
Qed.

(** A trigger that is admitted holds the key. *)
Definition claimed k t0 ttl (adm : admission) (s : S) : Prop :=
  match adm with
  | Refused out => exists g, out.2 = Some (LedgerError g)
  | Granted _ reserved _ => reserved = true /\ held k t0 ttl s
  end.

(** The ledger can store the record of a run that returned [out]. *)
Definition storable_outcome (k : string) (wf : Workflow) (out : execOut) : Prop :=
  forall t now, is_storable (stamp_times t
    (outcome_record k (tr_RunID out.1.2) (wf_Name wf) out.1.1.1 None now)).

Lemma refused_claimed {P : S -> Prop} {m : M (W * S) admission} k t0 ttl :
  triple P m (fun adm s => P s /\ refuses adm) -> triple P m (claimed k t0 ttl).
Proof.
  intros Hm. eapply triple_mono; [exact Hm|]. intros adm s [_ (out & tr & g & ->)]. by exists g.
Qed.

Ltac refused := apply refused_claimed; (apply triple_hit || apply triple_rejected).

Lemma ttl_call {A} k t0 ttl (f : Z -> S -> A * S) Q : quiet_world (S:=S) xe k t0 ttl ->
  (forall now s, is_ttl s = ttl -> in_time t0 ttl now -> Q (f now s).1 (f now s).2) ->
  triple (fun s => is_ttl s = ttl) (ledger_call xe f) Q.
Proof using HL.
  intros HQ. apply (triple_call xe _ (keeps_key k t0 ttl) (in_time t0 ttl)); [apply HQ|apply HQ|].
  intros s e <-. apply keeps_ttl.
Qed.

Lemma reserve_claims k t0 ttl ar : quiet_world (S:=S) xe k t0 ttl ->
  triple (fun s => is_ttl s = ttl) (reserve xe ae ar k) (claimed k t0 ttl).
Proof using HL.
  intros HQ. eapply triple_bind; [apply triple_lift, HQ|]. intros runID.
  apply (triple_fact _ (fun s => is_ttl s = ttl) (forall now, is_storable (placeholder k runID now)));
    [by intros s [? ?]|]. intros Hrun.
  eapply (triple_bind _ _ _ (fun a s => a.2 = None -> a.1.2 = true -> held k t0 ttl s)).
  - apply (ttl_call k t0); [done|]. intros now s Ht [Hlo Hhi].
    destruct (is_Reserve now k runID s) as [[[r ok] er] s'] eqn:E. cbn. intros -> ->.
    apply law_Reserve in E as [_ (h & Ht' & _ & Hr)]; [|done].
    split; [congruence|]. eexists. split_and!; [done|by right|cbn; lia].
  - intros [[r ok] er]. cbn [fst snd]. destruct er as [g|]; [|destruct ok; cbn [negb]].
    + case_decide; refused.
    + apply triple_ret. intros s Hh. split; auto.
    + case_decide; refused.
Qed.

Lemma admit_claims k t0 ttl e ar : quiet_world (S:=S) xe k t0 ttl ->
  ex_key e = k -> k <> "" -> ex_hasStore e = true ->
  triple (fun s => is_ttl s = ttl) (ask_ledger xe ae e ar) (claimed k t0 ttl).
Proof using HL.
  intros HQ Hk Hne Hs. unfold ask_ledger. rewrite Hk, Hs, bool_decide_eq_false_2 by done. cbn [orb negb].
  eapply (triple_bind _ _ _ (fun _ s => is_ttl s = ttl)).
  - apply (ttl_call k t0); [done|]. intros now s Ht Hin.
    rewrite <- Ht. exact (keeps_ttl k t0 ttl s (EvCheck now k) Hin).
  - intros [[r found] er]. destruct er; [by apply reserve_claims|].
    destruct found; [|by apply reserve_claims].
    repeat case_decide; first [by apply reserve_claims|refused].
Qed.

(** A run that returns no error leaves its key taken: by the completed record,
    or by the placeholder when that could not be written. *)
Lemma success_holds k t0 ttl (env : Env W) (store : Store W) e ctx wf :
  quiet_world (S:=S) xe k t0 ttl -> ex_key e = k -> k <> "" -> ex_hasStore e = true ->
  triple (fun s => is_ttl s = ttl) (ExecuteWithTrace xe ae env store e ctx wf)
    (fun out s => out.2 = None -> storable_outcome k wf out -> held k t0 ttl s).
Proof using HL.
  intros HQ Hk Hne Hs. unfold ExecuteWithTrace.
  eapply triple_bind; [apply triple_lift_any|]. intros ?.
  eapply triple_bind; [by apply admit_claims|]. intros [out|runID reserved ar].
  { apply triple_ret. intros s [g Hg] Hnone. congruence. }
  apply (triple_fact _ (held k t0 ttl) (reserved = true)); [by intros s [? ?]|]. intros ->.
  eapply triple_bind; [apply triple_lift_any|]. intros ar1.
  eapply triple_bind; [apply triple_lift_any|]. intros [[out results] err].
  eapply triple_bind; [apply triple_lift_any|]. intros ar2.
  eapply (triple_bind _ _ _ (fun _ s => err = None ->
      storable_outcome k wf (out, results, mkTrace runID false, None) -> held k t0 ttl s));
    [|intros ?; apply triple_ret; intros s Hx Hy Hz; apply Hx; [by destruct err|exact Hz]].
  eapply triple_bind; [apply triple_lift; apply HQ|]. intros now.
  apply (triple_fact _ (held k t0 ttl) (in_time t0 ttl now)); [by intros s [? ?]|]. intros Hnow.
  apply (held_call xe k t0 ttl HQ). intros t s Hh Ht Hnone Hst. subst err.
  refine (proj1 (keeps_key_step k t0 ttl s
    (EvRecord t (outcome_record (ex_key e) runID (wf_Name wf) out None now)) Hh _)).
  split_and!; [apply Ht|apply Ht|rewrite Hk; apply Hst|].
  intros _. split; [by left|]. unfold in_time in *. cbn. destruct (now =? 0); lia.
Qed.
End once.

(** C12: an idempotency key runs its workflow at most once: when a trigger returned
    without an error, every later trigger of the key before the record
    expires runs nothing, returns no step results and an error of the ledger,
    whatever other callers do with the ledger meanwhile short of giving the
    key free (clearing it, or recording a failed run of it).  The ledger must
    be able to store the key with the run ids that are made, and the record of
    the outcome; for the file store that is text that JSON gives back, valid
    UTF-8.  That a trigger runs nothing is stated as independence of the nodes
    and files: with any others it would behave the same. *)
Theorem executed_once {W S : Type} `{IdempotencyLaws S} (xe : ExecEnv W) (ae : auditEnv W)
    (env env' : Env W) (store store' : Store W) (e e2 : Executor) ctx ctx2 wf wf2
    (t0 : Z) (evs : list idem_event) w s w1 s1 out results tr w2 :
  quiet_world (S:=S) xe (ex_key e) t0 (is_ttl s) ->
  ex_key e <> "" -> ex_hasStore e = true -> ex_key e2 = ex_key e -> ex_hasStore e2 = true ->
  ExecuteWithTrace xe ae env store e ctx wf (w, s) = ((w1, s1), Ret (out, results, tr, None)) ->
  storable_outcome (ex_key e) wf (out, results, tr, None) ->
  Forall (keeps_key (ex_key e) t0 (is_ttl s)) evs ->
  let s2 := fold_left (fun s e => (idem_step s e).2) evs s1 in
  ExecuteWithTrace xe ae env store e2 ctx2 wf2 (w2, s2)
  = ExecuteWithTrace xe ae env' store' e2 ctx2 wf2 (w2, s2) /\
  forall ws out2 results2 tr2 err2,
    ExecuteWithTrace xe ae env store e2 ctx2 wf2 (w2, s2) = (ws, Ret (out2, results2, tr2, err2)) ->
    results2 = [] /\ exists g, err2 = Some (LedgerError g).
Proof.
  intros HQ Hne Hs Hk2 Hs2 Hrun Hst Hevs s2.
  assert (held (ex_key e) t0 (is_ttl s) s2) as Hh2.
  { pose proof (success_holds xe ae (ex_key e) t0 (is_ttl s) env store e ctx wf HQ eq_refl Hne Hs
      _ _ _ _ _ eq_refl Hrun eq_refl Hst) as Hh.
    subst s2. clear Hrun. revert s1 Hh. induction evs as [|ev evs IH]; intros s1 Hh; [done|].
    apply Forall_cons in Hevs as [He Hevs]. cbn. apply IH; [done|]. by apply keeps_key_step. }
  split; [by apply (taken_runs_nothing xe ae (ex_key e) t0 (is_ttl s))|].
  intros [w3 s3] out2 results2 tr2 err2 Hrun2.
  by apply (taken_refused xe ae (ex_key e) t0 (is_ttl s) env store e2 ctx2 wf2 HQ Hk2 Hne Hs2
    _ _ _ _ _ Hh2) in Hrun2 as (_ & Hr & Hg).
Qed.

(** A node that counts the transfers it makes, and a workflow of one step. *)
Definition pay_node : node Z := fun _ input _ w => (w + 1, Ret ("paid", None)).
Definition pay_env : Env Z := quiet_env empty_host (fun _ => Some pay_node).
Definition pay_wf : Workflow := mkWorkflow "pay" "" ∅ [node_step "pay" "a"] "" [] 0 None.
Definition pay_exec : Executor := WithIdempotencyKey "transfer-42" NewExecutor.
Definition pay_world : ExecEnv Z :=
  mkExecEnv _ (mret 10) (mret "run-1") (fun _ => mret tt) (mret []).
Definition silent_audit : auditEnv Z :=
  mkAuditEnv _ (fun _ => mret None) (mret None) (mret None) (fun _ => "1s")
    (fun s => s) (fun _ => Ok "{}") (fun s => s).

(** A file store: a directory whose files hold records whose text has only
    ASCII bytes; any other byte becomes a question mark, as JSON replaces what
    is not valid UTF-8. *)
#[export] Instance IdempotencyRecord_eq_dec : EqDecision IdempotencyRecord.
Proof. solve_decision. Defined.
Definition record_fields (r : IdempotencyRecord) :=
  (ir_Key r, ir_RunID r, ir_WorkflowPath r, ir_Status r, ir_FinalOutput r, ir_Error r,
   ir_CreatedAt r, ir_UpdatedAt r, ir_HMAC r).
Definition record_of_fields (f : string * string * string * string * string * string * Z * Z * string) :=
  let '(a, b, c, d, e, g, x, y, h) := f in mkIdem a b c d e g x y h.
#[export] Instance IdempotencyRecord_countable : Countable IdempotencyRecord :=
  inj_countable' record_fields record_of_fields (fun r => ltac:(by destruct r)).

Fixpoint ascii_only (s : string) : string :=
  match s with
  | "" => ""
  | String c s => String (if (N_of_ascii c <? 128)%N then c else "?"%char) (ascii_only s)
  end.
Definition clean_record (r : IdempotencyRecord) : IdempotencyRecord :=
  mkIdem (ascii_only (ir_Key r)) (ascii_only (ir_RunID r)) (ascii_only (ir_WorkflowPath r))
    (ascii_only (ir_Status r)) (ascii_only (ir_FinalOutput r)) (ascii_only (ir_Error r))
    (ir_CreatedAt r) (ir_UpdatedAt r) (ascii_only (ir_HMAC r)).
Fixpoint bits (p : positive) : string :=
  match p with xH => "1" | xO p => String "0" (bits p) | xI p => String "1" (bits p) end.
Fixpoint of_bits (s : string) : option positive :=
  match s with
  | "1" => Some xH
  | String "0" s => xO <$> of_bits s
  | String "1" s => xI <$> of_bits s
  | _ => None
  end.
Lemma of_bits_bits p : of_bits (bits p) = Some p.
Proof. induction p as [p IH|p IH|]; cbn; [|by rewrite IH|done]. rewrite IH. by destruct p. Qed.

Definition pay_files : FileEnv := mkFileEnv (fun k => k)
  (fun r => Ok (bits (encode (clean_record r))))
  (fun data => match p ← of_bits data; decode p with Some r => Ok r | None => Err "invalid character" end)
  (fun _ => None).
(** Every field is ASCII, the MAC included. *)
Definition ascii_record (r : IdempotencyRecord) : Prop :=
  clean_record (signed demo_mac r) = signed demo_mac r.

Lemma pay_codec r data : ascii_record r -> fe_Marshal pay_files (signed demo_mac r) = Ok data ->
  data <> "" /\ fe_Unmarshal pay_files data = Ok (signed demo_mac r).
Proof.
  intros Hr. unfold pay_files. cbn [fe_Marshal fe_Unmarshal]. rewrite Hr. intros [= <-]. split.
  - by destruct (encode _).
  - rewrite of_bits_bits. cbn [mbind option_bind]. by rewrite decode_encode.
Qed.
Lemma ascii_only_app s t : ascii_only (s +:+ t) = ascii_only s +:+ ascii_only t.
Proof. induction s as [|c s IH]; [done|]. cbn. by rewrite IH. Qed.
Lemma ascii_only_parse s : forall acc n, parse_digits acc s = Some n -> ascii_only s = s.
Proof.
  induction s as [|c s IH]; intros acc n; [done|]. cbn. unfold digit_val.
  destruct (_ && _)%N eqn:E; [|done]. intros H. rewrite (IH _ _ H).
  replace (N_of_ascii c <? 128)%N with true; [done|]. apply andb_prop in E as [_ E%N.leb_le]. symmetry. apply N.ltb_lt. lia.
Qed.
Lemma ascii_only_digits n : ascii_only (Itoa n) = Itoa n.
Proof.
  assert (forall p, ascii_only (pretty (N.pos p)) = pretty (N.pos p)) as H
    by (intros p; eapply ascii_only_parse, parse_digits_pretty).
  destruct n as [|p|p]; [done|exact (H p)|].
  change (Itoa (Z.neg p)) with (String "-"%char (pretty (N.pos p))). cbn [ascii_only]. by rewrite H.
Qed.
Lemma ascii_record_fields a b c d e g x y :
  ascii_only a = a -> ascii_only b = b -> ascii_only c = c -> ascii_only d = d -> ascii_only e = e ->
  ascii_only g = g -> ascii_record (mkIdem a b c d e g x y "").
Proof.
  intros Ha Hb Hc Hd He Hg. unfold ascii_record, clean_record, signed.
  cbn [set_hmac ir_Key ir_RunID ir_WorkflowPath ir_Status ir_FinalOutput ir_Error ir_CreatedAt ir_UpdatedAt ir_HMAC].
  rewrite Ha, Hb, Hc, Hd, He, Hg. f_equal. cbn [signRecord me_key me_mac demo_mac]. unfold sign_text.
  cbn [ir_Key ir_RunID ir_WorkflowPath ir_Status ir_FinalOutput ir_Error ir_CreatedAt ir_UpdatedAt].
  by rewrite !ascii_only_app, !ascii_only_digits, Ha, Hb, Hc, Hd, He, Hg.
Qed.

Definition pay_ledger : IdempotencyStore FileStore := FileStore_ops demo_mac pay_files ascii_record.
Definition pay_run :=
  @ExecuteWithTrace Z FileStore pay_ledger pay_world silent_audit pay_env
    no_files pay_exec Background pay_wf.

(** Two triggers of the same key on the file store: one transfer, and the
    second one is answered from the ledger. *)
Definition first_pay := pay_run (0, NewFileIdempotencyStore 100).
Definition second_pay := pay_run first_pay.1.

Lemma executed_once_witness :
  first_pay.1.1 = 1 /\ second_pay.1.1 = 1 /\
  second_pay.2 = Ret ("paid", [], mkTrace "run-1" true, Some (LedgerError ErrIdempotencyHit)) /\
  forall env' store', second_pay =
    @ExecuteWithTrace Z FileStore pay_ledger pay_world silent_audit env' store'
      pay_exec Background pay_wf first_pay.1.
Proof.
  split; [vm_compute; reflexivity|]. split; [vm_compute; reflexivity|]. split; [vm_compute; reflexivity|].
  intros env' store'. unfold second_pay.
  assert (first_pay.2 = Ret ("paid", [mkResult 0 "pay" "" "paid" None], mkTrace "run-1" false, None)) as Hr
    by (vm_compute; reflexivity).
  destruct first_pay as [[w1 s1] r] eqn:Hrun. cbn [fst snd] in Hr |- *. rewrite Hr in Hrun.
  apply (@executed_once Z FileStore pay_ledger
    (FileStore_laws demo_mac pay_files ascii_record demo_mac_nonempty (fun _ _ H => H) pay_codec)
    pay_world silent_audit pay_env env' no_files store'
    pay_exec pay_exec Background Background pay_wf pay_wf 5 [] 0 (NewFileIdempotencyStore 100)
    w1 s1 "paid" [mkResult 0 "pay" "" "paid" None] (mkTrace "run-1" false) w1).
  - split; [by apply yields_ret|apply yields_ret; split; cbn; lia|apply yields_ret; intros now].
    by apply ascii_record_fields.
  - discriminate.
  - reflexivity.
  - reflexivity.
  - reflexivity.
  - exact Hrun.
  - intros t now. by apply ascii_record_fields.
  - constructor.
Defined.
