(* ===== verification/Policy.v ===== *)
(** * The policy engine (src/internal/policy/engine.go)

    Rules, the evaluation of an action against them, and [Check] with its
    human approval.  Approval is a computation of the outside world; YAML, the
    file system and Unicode's lower case are parameters. *)

From S2P Require Import Prelude GoStrings GoText GoPath Effects Errors.
From Stdlib Require Import Ascii.

#[local] Open Scope string_scope.

Inductive Decision := DecisionAllowed | DecisionDenied | DecisionApproval.

(** Actions are strings; the constants of the source. *)
Definition ActionFileRead : string := "filesystem:read".
Definition ActionFileWrite : string := "filesystem:write".
Definition ActionFileDelete : string := "filesystem:delete".
Definition ActionNetworkHTTP : string := "network:http".
Definition ActionShellExec : string := "shell:exec".
Definition ActionFinancial : string := "financial:transfer".

Record FilesystemPolicy := mkFilesystem { fp_Read : string; fp_Write : string; fp_Delete : string }.
Record NetworkPolicy := mkNetwork {
  np_Outbound : string; np_Allowlist : list string; np_Denylist : list string }.
Record ShellPolicy := mkShell {
  sp_Enabled : bool; sp_ApprovalRequired : bool; sp_Allowlist : list string;
  sp_Denylist : list string }.
Record FinancialPolicy := mkFinancial {
  fin_Transfer : string; fin_MaxAmount : string; fin_ApprovalThreshold : string }.
Record Policy := mkPolicy {
  p_Filesystem : FilesystemPolicy;
  p_Network : NetworkPolicy;
  p_Shell : ShellPolicy;
  p_Financial : FinancialPolicy
}.

Definition DefaultPolicy : Policy :=
  mkPolicy (mkFilesystem "allowed" "allowed" "approval") (mkNetwork "allowed" [] [])
    (mkShell true false [] []) (mkFinancial "approval_required" "" "").
Definition StrictPolicy : Policy :=
  mkPolicy (mkFilesystem "allowed" "approval" "denied")
    (mkNetwork "allowlist" ["api.github.com"; "api.openai.com"; "api.anthropic.com"] [])
    (mkShell false false [] []) (mkFinancial "approval_required" "" "100 USD").

(** ** Text *)

(** Unicode's lower case of texts that are not ASCII, and the verb %q. *)
Record TextEnv := mkTextEnv {
  te_lower : string -> string;
  te_Quote : string -> string
}.

Section engine.
Context (te : TextEnv).

Definition matchDomain (host pattern : string) : bool :=
  let host := ToLower (te_lower te) host in
  let pattern := ToLower (te_lower te) pattern in
  if decide (pattern = "*") then true
  else if HasPrefix pattern "*." then
    HasSuffix host (str_drop 1 pattern) || bool_decide (host = str_drop 2 pattern)
  else bool_decide (host = pattern).

(** ** Evaluation: allowed, needs approval, error *)

Definition evaluation : Type := bool * bool * option goerr.
Definition deny (msg : string) : evaluation := (false, false, Some (New CodePolicyDenied msg)).

Definition parseRule (rule : string) : evaluation :=
  if decide (rule = "allowed") then (true, false, None)
  else if decide (rule = "denied") then (false, false, None)
  else if decide (rule = "approval" \/ rule = "approval_required") then (true, true, None)
  else deny ("unknown policy rule: " +:+ rule).

Definition evaluateFilesystem (p : Policy) (action : string) : evaluation :=
  let f := p_Filesystem p in
  if decide (action = ActionFileRead) then parseRule (fp_Read f)
  else if decide (action = ActionFileWrite) then parseRule (fp_Write f)
  else if decide (action = ActionFileDelete) then parseRule (fp_Delete f)
  else deny ("unknown filesystem action: " +:+ action).

Definition evaluateNetwork (p : Policy) (details : string) : evaluation :=
  let n := p_Network p in
  let rule := np_Outbound n in
  if decide (rule = "denied") then (false, false, None)
  else if decide (rule = "allowed") then
    if existsb (matchDomain details) (np_Denylist n)
    then deny ("network access to " +:+ details +:+ " is blocked by denylist")
    else (true, false, None)
  else if decide (rule = "allowlist") then
    if existsb (matchDomain details) (np_Allowlist n) then (true, false, None)
    else deny ("network access to " +:+ details +:+ " is not in allowlist")
  else deny ("unknown network policy: " +:+ rule).

Definition command_name (details : string) : string := default "" (head (Fields details)).

Definition evaluateShell (p : Policy) (details : string) : evaluation :=
  let sh := p_Shell p in
  if negb (sp_Enabled sh) then deny "shell execution is disabled by policy" else
  let cmdName := command_name details in
  if existsb (fun b => bool_decide (cmdName = b) || HasPrefix details b) (sp_Denylist sh)
  then deny ("shell command " +:+ te_Quote te cmdName +:+ " is blocked by denylist")
  else if negb (bool_decide (sp_Allowlist sh = [])) &&
          negb (existsb (fun a => bool_decide (cmdName = a)) (sp_Allowlist sh))
  then deny ("shell command " +:+ te_Quote te cmdName +:+ " is not in allowlist")
  else (true, sp_ApprovalRequired sh, None).

Definition evaluateFinancial (p : Policy) : evaluation :=
  parseRule (ReplaceAll (fin_Transfer (p_Financial p)) "approval_required" "approval").

Definition evaluate (p : Policy) (action details : string) : evaluation :=
  if HasPrefix action "filesystem:" then evaluateFilesystem p action
  else if HasPrefix action "network:" then evaluateNetwork p details
  else if HasPrefix action "shell:" then evaluateShell p details
  else if HasPrefix action "financial:" then evaluateFinancial p
  else deny ("unknown action: " +:+ action).

(** ** Engines *)

Definition HumanApprovalFunc (W : Type) : Type :=
  Ctx -> string -> string -> M W (bool * option goerr).

Record Engine (W : Type) := mkPEngine {
  pe_policy : Policy;
  pe_approval : option (HumanApprovalFunc W)
}.
Arguments mkPEngine {W}.
Arguments pe_policy {W}.
Arguments pe_approval {W}.

Definition NewEngine {W} (p : option Policy) (approval : option (HumanApprovalFunc W)) : Engine W :=
  mkPEngine (default DefaultPolicy p) approval.

Definition Check {W} (e : Engine W) (ctx : Ctx) (action details : string)
    : M W (Decision * option goerr) :=
  match evaluate (pe_policy e) action details with
  | (_, _, Some err) => mret (DecisionDenied, Some err)
  | (false, _, None) =>
      mret (DecisionDenied,
        Some (New CodePolicyDenied ("policy denies " +:+ action +:+ ": " +:+ details)))
  | (true, true, None) =>
      match pe_approval e with
      | None =>
          mret (DecisionDenied, Some (New CodePolicyApprovalRequired
            ("policy requires approval for " +:+ action +:+ " but no approval function configured")))
      | Some approval =>
          '(approved, err) ← approval ctx action details;
          mret match err with
               | Some e => (DecisionDenied, Some (Wrap (Some e) CodePolicyDenied "approval check failed"))
               | None =>
                   if negb approved then
                     (DecisionDenied, Some (New CodePolicyApprovalDenied
                       ("human approval denied for " +:+ action +:+ ": " +:+ details)))
                   else (DecisionApproval, None)
               end
      end
  | (true, false, None) => mret (DecisionAllowed, None)
  end.
End engine.
Arguments mkPEngine {W}.
Arguments pe_policy {W}.
Arguments pe_approval {W}.

(** ** Loading *)

Definition CodeWorkflowParseError : string := "WF_PARSE".

(** [filepath.Abs], [filepath.EvalSymlinks] ([None] when the file does not
    exist), [os.ReadFile] and the YAML decoder. *)
Record PolicyFiles := mkPolicyFiles {
  pf_Abs : string -> result string;
  pf_EvalSymlinks : string -> result (option string);
  pf_ReadFile : string -> result string;
  pf_Unmarshal : string -> result Policy
}.

Definition policy_error (msg : string) : goerr := New CodeWorkflowParseError msg.
Definition policy_wrap (e msg : string) : goerr :=
  Wrap (Some (EText e)) CodeWorkflowParseError msg.

Definition validatePolicyPath (pf : PolicyFiles) (path : string) : string + goerr :=
  if decide (path = "") then inr (policy_error "empty policy path")
  else if str_has (ascii_of_nat 0) path then inr (policy_error "policy path contains null byte")
  else match pf_Abs pf path with
  | Err e => inr (policy_wrap e "failed to resolve policy path")
  | Ok absPath =>
      match pf_EvalSymlinks pf absPath with
      | Err e => inr (policy_wrap e "failed to resolve policy path")
      | Ok None =>
          let cleaned := Clean absPath in
          if negb (IsAbs cleaned)
          then inr (policy_error ("policy path must be absolute after resolution: " +:+ path))
          else inl cleaned
      | Ok (Some resolved) => inl resolved
      end
  end.

Definition LoadPolicy (pf : PolicyFiles) (path : string) : Policy + goerr :=
  match validatePolicyPath pf path with
  | inr e => inr e
  | inl safePath =>
      match pf_ReadFile pf safePath with
      | Err e => inr (policy_wrap e "failed to read policy file")
      | Ok data =>
          match pf_Unmarshal pf data with
          | Err e => inr (policy_wrap e "failed to parse policy YAML")
          | Ok p => inl p
          end
      end
  end.

(** ** What a policy permits *)

(** A rule of the file and transfer policies, and whether it asks a human. *)
Inductive rule_grants : string -> bool -> Prop :=
  | grants_allowed : rule_grants "allowed" false
  | grants_approval : rule_grants "approval" true
  | grants_required : rule_grants "approval_required" true.

Inductive permitted (te : TextEnv) (p : Policy) : string -> string -> bool -> Prop :=
  | permit_read details b : rule_grants (fp_Read (p_Filesystem p)) b ->
      permitted te p ActionFileRead details b
  | permit_write details b : rule_grants (fp_Write (p_Filesystem p)) b ->
      permitted te p ActionFileWrite details b
  | permit_delete details b : rule_grants (fp_Delete (p_Filesystem p)) b ->
      permitted te p ActionFileDelete details b
  | permit_open_network action host : HasPrefix action "network:" = true ->
      np_Outbound (p_Network p) = "allowed" ->
      (forall d, d ∈ np_Denylist (p_Network p) -> matchDomain te host d = false) ->
      permitted te p action host false
  | permit_listed_host action host d : HasPrefix action "network:" = true ->
      np_Outbound (p_Network p) = "allowlist" ->
      d ∈ np_Allowlist (p_Network p) -> matchDomain te host d = true ->
      permitted te p action host false
  | permit_shell action cmd : HasPrefix action "shell:" = true ->
      sp_Enabled (p_Shell p) = true ->
      (forall d, d ∈ sp_Denylist (p_Shell p) -> command_name cmd <> d /\ HasPrefix cmd d = false) ->
      (sp_Allowlist (p_Shell p) = [] \/ command_name cmd ∈ sp_Allowlist (p_Shell p)) ->
      permitted te p action cmd (sp_ApprovalRequired (p_Shell p))
  | permit_transfer action details b : HasPrefix action "financial:" = true ->
      rule_grants (ReplaceAll (fin_Transfer (p_Financial p)) "approval_required" "approval") b ->
      permitted te p action details b.

Lemma parseRule_grants rule b : parseRule rule = (true, b, None) <-> rule_grants rule b.
Proof.
  unfold parseRule, deny. split.
  - intros H. repeat case_decide; simplify_eq; try constructor. by destruct H2 as [->| ->]; constructor.
  - by intros [].
Qed.

Lemma existsb_none {A} (f : A -> bool) l : existsb f l = false <-> forall x, x ∈ l -> f x = false.
Proof.
  rewrite <- not_true_iff_false, existsb_exists. split.
  - intros H x Hx. apply not_true_iff_false. intros Hf. apply H. exists x. by rewrite <- list_elem_of_In.
  - intros H (x & Hx & Hf). apply list_elem_of_In in Hx. by rewrite H in Hf.
Qed.

Lemma prefix_nil s : String.prefix "" s = true.
Proof. by destruct s. Qed.

Ltac by_prefix :=
  repeat match goal with
  | H : HasPrefix ?a _ = true |- _ =>
      unfold HasPrefix in H; apply prefix_app in H as [? ->]
  end.

Section specification.
Context (te : TextEnv).

Lemma evaluate_grants p action details b :
  evaluate te p action details = (true, b, None) -> permitted te p action details b.
Proof.
  unfold evaluate. destruct (HasPrefix action "filesystem:") eqn:Ef.
  { unfold evaluateFilesystem. repeat case_decide; subst; try done;
      intros Hg%parseRule_grants; by constructor. }
  destruct (HasPrefix action "network:") eqn:En.
  { unfold evaluateNetwork. repeat case_decide; try done.
    - destruct (existsb _ _) eqn:E; [done|]. intros [= <-].
      constructor; [done|done|]. by apply existsb_none.
    - destruct (existsb _ _) eqn:E; [|done]. intros [= <-].
      apply existsb_exists in E as (d & Hd%list_elem_of_In & Hm). by eapply permit_listed_host. }
  destruct (HasPrefix action "shell:") eqn:Es.
  { unfold evaluateShell. destruct (sp_Enabled (p_Shell p)) eqn:Een; [|done]. cbn [negb].
    destruct (existsb _ _) eqn:E; [done|]. destruct (_ && _) eqn:Ea; [done|]. intros [= <-].
    constructor; [done|done| |].
    - intros d Hd. rewrite existsb_none in E. specialize (E d Hd).
      apply orb_false_iff in E as [E1 E2]. by apply bool_decide_eq_false in E1.
    - apply andb_false_iff in Ea as [Ea|Ea]; apply negb_false_iff in Ea.
      + left. by apply bool_decide_eq_true in Ea.
      + right. apply existsb_exists in Ea as (a & Ha%list_elem_of_In & Hm).
        apply bool_decide_eq_true in Hm. by subst. }
  destruct (HasPrefix action "financial:") eqn:Ei; [|done].
  intros H%parseRule_grants. by constructor.
Qed.

Lemma permitted_evaluate p action details b :
  permitted te p action details b -> evaluate te p action details = (true, b, None).
Proof.
  intros [d r H|d r H|d r H|a host Ha Ho Hd|a host d Ha Ho Hd Hm|a cmd Ha Hen Hd Hal|a d r Ha H];
    by_prefix; cbn -[ReplaceAll]; rewrite ?prefix_nil;
    try (apply parseRule_grants in H; exact H).
  - unfold evaluateNetwork. rewrite Ho, (proj2 (existsb_none _ _) Hd).
    repeat case_decide; done || discriminate.
  - unfold evaluateNetwork. rewrite Ho.
    rewrite (proj2 (existsb_exists _ _) (ex_intro _ d (conj (proj1 (list_elem_of_In _ _) Hd) Hm))).
    repeat case_decide; done || discriminate.
  - unfold evaluateShell. rewrite Hen. cbn [negb].
    rewrite (proj2 (existsb_none _ _)).
    2:{ intros d Hx. destruct (Hd d Hx) as [Hn ->]. by rewrite bool_decide_eq_false_2. }
    destruct Hal as [Hal|Hal].
    + by rewrite bool_decide_eq_true_2.
    + rewrite (proj2 (existsb_exists _ _)); [by rewrite andb_false_r|].
      exists (command_name cmd). rewrite <- list_elem_of_In. by rewrite bool_decide_eq_true_2.
Qed.
End specification.

Create HintDb policy_db.
Definition policy_codes : list string :=
  [CodePolicyDenied; CodePolicyApprovalRequired; CodePolicyApprovalDenied].

(** An evaluation that fails carries the code of a denial. *)
Definition denial_coded (e : evaluation) : Prop := forall g, e.2 = Some g -> GetCode g = CodePolicyDenied.
Lemma denial_coded_deny msg : denial_coded (deny msg).
Proof. by intros g [= <-]. Qed.
Lemma denial_coded_pass a b : denial_coded (a, b, None).
Proof. by intros g [=]. Qed.
Lemma denial_coded_if (b : bool) e1 e2 : denial_coded e1 -> denial_coded e2 -> denial_coded (if b then e1 else e2).
Proof. by destruct b. Qed.
Lemma denial_coded_decide P (d : stdpp.base.Decision P) e1 e2 :
  denial_coded e1 -> denial_coded e2 -> denial_coded (if decide P then e1 else e2).
Proof. by destruct (decide P). Qed.
#[local] Hint Resolve denial_coded_deny denial_coded_pass denial_coded_if denial_coded_decide : policy_db.
Lemma parseRule_coded r : denial_coded (parseRule r).
Proof. unfold parseRule. auto 10 with policy_db. Qed.
#[local] Hint Resolve parseRule_coded : policy_db.

Lemma evaluate_error_code te p action details b1 b2 g :
  evaluate te p action details = (b1, b2, Some g) -> GetCode g = CodePolicyDenied.
Proof.
  intros H. assert (denial_coded (evaluate te p action details)) as Hd; [|apply Hd; by rewrite H].
  unfold evaluate, evaluateFilesystem, evaluateNetwork, evaluateShell, evaluateFinancial.
  repeat first [apply denial_coded_if|apply denial_coded_decide]; auto with policy_db.
Qed.

(** C17: [Check] decides exactly what the policy says: it allows what is permitted
    outright, allows with approval what is permitted with approval when the
    human was asked and agreed, and denies everything else, unknown rules
    and unknown actions included, always with an error that carries one of
    the policy codes. *)
Theorem Check_decision {W} (te : TextEnv) (e : Engine W) ctx action details w w' dec err :
  Check te e ctx action details w = (w', Ret (dec, err)) ->
  (dec = DecisionAllowed <-> permitted te (pe_policy e) action details false) /\
  (dec = DecisionApproval <-> permitted te (pe_policy e) action details true /\
     exists f, pe_approval e = Some f /\ f ctx action details w = (w', Ret (true, None))) /\
  match dec with
  | DecisionDenied => exists g, err = Some g /\ GetCode g ∈ policy_codes
  | _ => err = None
  end.
Proof.
  unfold Check. intros H.
  assert (forall b, permitted te (pe_policy e) action details b <->
    evaluate te (pe_policy e) action details = (true, b, None)) as Hp.
  { intros b. split; [apply permitted_evaluate|apply evaluate_grants]. }
  rewrite !Hp. clear Hp.
  destruct (evaluate _ _ _ _) as [[ok ask] [g|]] eqn:E.
  - assert (dec = DecisionDenied /\ err = Some g) as [-> ->] by (destruct ok, ask; by injection H).
    split_and!; [naive_solver|naive_solver|]. exists g. split; [done|]. rewrite (evaluate_error_code _ _ _ _ _ _ _ E). by left.
  - destruct ok.
    2:{ injection H as <- <- <-. split_and!; [naive_solver|naive_solver|].
        eexists. split; [done|]. by left. }
    destruct ask; [|injection H as <- <- <-; split_and!; naive_solver].
    destruct (pe_approval e) as [f|] eqn:Ef.
    + unfold mbind, M_bind in H. destruct (f ctx action details w) as [w1 [[ok er]|msg]] eqn:Efw; [|done].
      destruct er as [g|]; [|destruct ok]; injection H as <- <- <-.
      * split_and!; [naive_solver| |].
        2:{ exists (Wrap (Some g) CodePolicyDenied "approval check failed"). rewrite Wrap_code. by split; [|left]. }
        split; [done|]. intros (_ & f' & [= <-] & Hf). congruence.
      * split_and!; [naive_solver| |done]. split; [|done]. intros _. split; [done|]. by exists f.
      * split_and!; [naive_solver| |eexists; split; [done|by right; right; left]].
        split; [done|]. intros (_ & f' & [= <-] & Hf). congruence.
    + injection H as <- <- <-. split_and!; [naive_solver|naive_solver|].
      eexists. split; [done|]. by right; left.
Qed.

Definition ascii_text : TextEnv := mkTextEnv (fun s => s) (fun s => s).

Lemma Check_decision_witness :
  let e := mkPEngine StrictPolicy (Some (fun _ _ _ w => (S w, Ret (true, None)))) in
  Check ascii_text e Background ActionFileWrite "report.txt" 0%nat = (1%nat, Ret (DecisionApproval, None)) /\
  permitted ascii_text StrictPolicy ActionFileWrite "report.txt" true.
Proof.
  intros e. assert (Check ascii_text e Background ActionFileWrite "report.txt" 0%nat
    = (1%nat, Ret (DecisionApproval, None))) as H by (vm_compute; reflexivity).
  split; [exact H|]. pose proof (Check_decision ascii_text e Background ActionFileWrite "report.txt"
    0%nat 1%nat DecisionApproval None H) as (_ & [Ha _] & _). by destruct (Ha eq_refl).
Defined.
