(* ===== verification/PolicyExecutor.v ===== *)
(** * Policy checks on workflows (src/internal/workflow/policy_executor.go)

    [ValidateWorkflow] checks the steps of a workflow against a policy engine
    before a run.  The theorems say which steps are checked, and which are
    not. *)

From S2P Require Import Prelude GoStrings GoText GoTime WorkflowTypes ExprEngine WalState Effects.
From S2P Require Import Compound DagScheduler Sequential Interpreter Errors Policy.
From Stdlib Require Import Ascii.

#[local] Open Scope string_scope.

Definition llmProviderNodes : list string :=
  ["openai"; "anthropic"; "gemini"; "glm"; "kimi"; "qwen"; "deepseek"; "mistral"; "yi"; "baichuan";
   "internlm"; "minimax"; "xverse"; "mimo"; "coze"; "ima"; "ascend"; "cambricon"; "hygon";
   "ollama"; "fastgpt"; "llm_router"].
Definition isLLMProviderNode (name : string) : bool := bool_decide (name ∈ llmProviderNodes).

(** The action of a node, what it is checked with, and the prefix of the
    error. *)
Definition node_action (node : string) (params : gmap string string)
    : option (string * string * string) :=
  let param k := default "" (params !! k) in
  if decide (node ∈ ["shell"; "exec"; "execute"]) then
    Some (ActionShellExec, param "command", "shell execution not allowed: ")
  else if decide (node ∈ ["http_request"; "fetch_url"]) then
    Some (ActionNetworkHTTP, param "url", "network access not allowed: ")
  else if isLLMProviderNode node then
    Some (ActionNetworkHTTP, param "endpoint",
      "LLM provider endpoint not allowed by network policy: ")
  else if decide (node ∈ ["file_write"; "file_save"]) then
    Some (ActionFileWrite, node, "file write not allowed: ")
  else if decide (node = "file_delete") then
    Some (ActionFileDelete, node, "file delete not allowed: ")
  else if decide (node ∈ ["transfer"; "payment"]) then
    Some (ActionFinancial, node, "financial operation not allowed: ")
  else None.

Section validation.
Context {W : Type} (te : TextEnv) (e : Engine W) (ctx : Ctx).

Definition validate_node (node : string) (params : gmap string string) : M W (option goerr) :=
  match node_action node params with
  | None => mret None
  | Some (action, details, msg) =>
      '(_, err) ← Check te e ctx action details;
      mret (EWrapped msg <$> err)
  end.

(** The first error of a list of checks. *)
Definition first_error {A} (check : A -> M W (option goerr)) : list A -> M W (option goerr) :=
  fix go l :=
    match l with
    | [] => mret None
    | a :: l => err ← check a; match err with Some g => mret (Some g) | None => go l end
    end.

(** One check after another. *)
Definition and_then (m k : M W (option goerr)) : M W (option goerr) :=
  err ← m; match err with Some g => mret (Some g) | None => k end.

(** A step of a parallel block is checked as a step with that node and those
    parameters and nothing else. *)
Fixpoint validateStep (s : WorkflowStep) : M W (option goerr) :=
  match s with
  | mkWorkflowStep node _ _ params _ _ _ _ par _ _ _ _ _ ifc _ _ _ saga _ _ _ _ _ _ _ _ _ =>
      and_then (validate_node node params)
     (and_then (first_error (fun p => validate_node (st_Node p) (st_Params p)) par)
     (and_then match saga with
               | None => mret None
               | Some c => first_error (fun sg =>
                   and_then (validateStep (sg_Forward sg))
                     match sg_Compensate sg with
                     | None => mret None | Some cs => validateStep cs
                     end) (sg_Steps c)
               end
       match ifc with
       | None => mret None
       | Some c => and_then (first_error validateStep (if_Then c))
                            (first_error validateStep (if_Else c))
       end))
  end.

Fixpoint validate_from (i : Z) (steps : list WorkflowStep) : M W (option goerr) :=
  match steps with
  | [] => mret None
  | s :: steps =>
      err ← validateStep s;
      match err with
      | Some g => mret (Some (EWrapped ("policy violation in step " +:+ Itoa (i + 1) +:+ " (" +:+
                                        ws_Node s +:+ "): ") g))
      | None => validate_from (i + 1) steps
      end
  end.
End validation.

(** No engine allows everything. *)
Definition ValidateWorkflow {W} (te : TextEnv) (engine : option (Engine W)) (ctx : Ctx)
    (wf : Workflow) : M W (option goerr) :=
  match engine with
  | None => mret None
  | Some e => validate_from te e ctx 0 (wf_Steps wf)
  end.

(** ** What is checked *)

(** The nodes that validation looks at, in its order. *)
Fixpoint visited (s : WorkflowStep) : list (string * gmap string string) :=
  match s with
  | mkWorkflowStep node _ _ params _ _ _ _ par _ _ _ _ _ ifc _ _ _ saga _ _ _ _ _ _ _ _ _ =>
      (node, params) ::
      flat_map (fun p => [(st_Node p, st_Params p)]) par ++
      match saga with
      | None => []
      | Some c => flat_map (fun sg => visited (sg_Forward sg) ++
          match sg_Compensate sg with None => [] | Some cs => visited cs end)%list (sg_Steps c)
      end ++
      match ifc with
      | None => []
      | Some c => flat_map visited (if_Then c) ++ flat_map visited (if_Else c)
      end
  end%list.

Section checked.
Context {W : Type} (te : TextEnv) (e : Engine W) (ctx : Ctx).

(** A node that passes: no action, or one that the policy permits. *)
Definition passes (n : string * gmap string string) : Prop :=
  forall action details msg, node_action n.1 n.2 = Some (action, details, msg) ->
    exists b, permitted te (pe_policy e) action details b.
(** A node that passes without asking anybody. *)
Definition passes_freely (n : string * gmap string string) : Prop :=
  forall action details msg, node_action n.1 n.2 = Some (action, details, msg) ->
    permitted te (pe_policy e) action details false.

(** [m] finds no error only if all [ns] pass, and finds none if they pass
    freely. *)
Record sound_check (m : M W (option goerr)) (ns : list (string * gmap string string)) : Prop := {
  sc_sound : forall w w', m w = (w', Ret None) -> Forall passes ns;
  sc_complete : Forall passes_freely ns -> forall w, m w = (w, Ret None)
}.

Lemma check_nil : sound_check (mret None) [].
Proof. split; [by constructor|done]. Qed.

Lemma check_and m k ns ns' : sound_check m ns -> sound_check k ns' ->
  sound_check (and_then m k) (ns ++ ns').
Proof.
  intros [Sm Cm] [Sk Ck]. split.
  - intros w w'. unfold and_then, mbind, M_bind.
    destruct (m w) as [w1 [[g|]|msg]] eqn:E; [done| |done]. intros Hk.
    apply Forall_app. split; [by eapply Sm|by eapply Sk].
  - intros [H1 H2]%Forall_app w. unfold and_then, mbind, M_bind. rewrite Cm by done. by apply Ck.
Qed.

Lemma check_list {A} (check : A -> M W (option goerr)) (f : A -> list (string * gmap string string)) l :
  (forall a, In a l -> sound_check (check a) (f a)) -> sound_check (first_error check l) (flat_map f l).
Proof.
  induction l as [|a l IH]; intros Hl; [apply check_nil|].
  apply (check_and (check a) (first_error check l)); [apply Hl; by left|].
  apply IH. intros x Hx. apply Hl. by right.
Qed.

Lemma check_node node params : sound_check (validate_node te e ctx node params) [(node, params)].
Proof.
  unfold validate_node. split.
  - intros w w' H. apply Forall_singleton. intros action details msg Ha. cbn in Ha. rewrite Ha in H.
    unfold mbind, M_bind in H.
    destruct (Check te e ctx action details w) as [w1 [[dec [g|]]|m]] eqn:E; [done| |done].
    unfold Check in E. destruct (evaluate _ _ _ _) as [[ok ask] [g|]] eqn:Ee.
    { by destruct ok, ask. }
    destruct ok; [|done]. exists ask. by apply evaluate_grants.
  - intros Hp w. rewrite Forall_singleton in Hp. unfold passes_freely in Hp. cbn in Hp.
    destruct (node_action node params) as [[[a d] msg]|]; [|done].
    specialize (Hp a d msg eq_refl). apply permitted_evaluate in Hp.
    unfold mbind, M_bind, Check. by rewrite Hp.
Qed.

Lemma check_step s : sound_check (validateStep te e ctx s) (visited s).
Proof.
  induction s as [s IH] using WorkflowStep_nested_ind.
  destruct s as [node ? ? params ? ? ? ? par ? ? ? ? ? ifc mapc ? red saga cap].
  cbn [validateStep visited].
  apply (check_and _ _ [_]); [apply check_node|].
  apply check_and.
  { apply check_list. intros p _. apply check_node. }
  apply check_and.
  - destruct saga as [c|]; [|apply check_nil]. apply check_list. intros sg Hsg.
    apply check_and.
    + apply IH. unfold step_children. rewrite !in_app_iff. do 3 right. left. cbn.
      apply in_flat_map. exists sg. split; [done|by left].
    + destruct (sg_Compensate sg) as [cs|] eqn:Ec; [|apply check_nil].
      apply IH. unfold step_children. rewrite !in_app_iff. do 3 right. left. cbn.
      apply in_flat_map. exists sg. split; [done|]. rewrite Ec. by right; left.
  - destruct ifc as [c|]; [|apply check_nil].
    apply check_and; apply check_list; intros x Hx; apply IH; unfold step_children;
      rewrite !in_app_iff; left; apply in_app_iff; auto.
Qed.
End checked.

Section workflow.
Context {W : Type} (te : TextEnv) (e : Engine W) (ctx : Ctx).

Lemma check_from steps : forall i,
  sound_check te e (validate_from te e ctx i steps) (flat_map visited steps).
Proof.
  induction steps as [|s steps IH]; intros i; [apply check_nil|]. cbn [validate_from flat_map].
  destruct (check_step te e ctx s) as [Ss Cs]. destruct (IH (i + 1)%Z) as [Sk Ck]. split.
  - intros w w'. unfold mbind, M_bind.
    destruct (validateStep te e ctx s w) as [w1 [[g|]|msg]] eqn:E; [done| |done]. intros Hk.
    apply Forall_app. split; [by eapply Ss|by eapply Sk].
  - intros [H1 H2]%Forall_app w. unfold mbind, M_bind. rewrite Cs by done. by apply Ck.
Qed.
End workflow.

(** C16: validation is exact on the steps it visits: top-level steps, parallel
    steps, both sides of a saga step and both branches of an if, nested as
    deep as they are.  It succeeds only if the policy permits each of them,
    and it does succeed when the policy permits them all without approval,
    then without asking anyone. *)
Theorem ValidateWorkflow_exact {W} (te : TextEnv) (e : Engine W) (ctx : Ctx) (wf : Workflow) (w : W) :
  (forall w', ValidateWorkflow te (Some e) ctx wf w = (w', Ret None) ->
     Forall (passes te e) (flat_map visited (wf_Steps wf))) /\
  (Forall (passes_freely te e) (flat_map visited (wf_Steps wf)) ->
     ValidateWorkflow te (Some e) ctx wf w = (w, Ret None)).
Proof.
  destruct (check_from te e ctx (wf_Steps wf) 0) as [Hs Hc]. split; [|intros H; by apply Hc].
  intros w'. apply Hs.
Qed.

(** ** What is not checked *)

Definition shell_step : WorkflowStep :=
  mkWorkflowStep "execute" "rm" "" {["command" := "rm -rf /"]} "" 0 "" None [] false "" None None 0
    None None None None None [] "" [] false "" "" "" "" false.
Definition map_over (steps : list WorkflowStep) : WorkflowStep :=
  mkWorkflowStep "" "each" "" ∅ "" 0 "" None [] false "" None None 0
    None (Some (mkMapConfig "a" steps "" 0 None 0 "" 0)) None None None [] "" [] false "" "" "" "" false.
Definition smuggled (s : WorkflowStep) : Workflow := mkWorkflow "w" "" ∅ [s] "" [] 0 None.

(** A shell node that counts its runs. *)
Definition counting_shell : Env Z :=
  quiet_env empty_host (fun n => if decide (n = "execute")
    then Some (fun _ _ _ w => ((w + 1)%Z, Ret ("done", None))) else None).

(** the strict policy, which disables the shell, refuses a shell step at the
    top level but accepts the same step inside a map, and the accepted
    workflow runs it. *)
Theorem strict_policy_misses_map :
  let e := NewEngine (Some StrictPolicy) None in
  (exists g, ValidateWorkflow ascii_text (Some e) Background (smuggled shell_step) 0%Z
     = (0%Z, Ret (Some g)) /\ GetCode g = CodePolicyDenied) /\
  ValidateWorkflow ascii_text (Some e) Background (smuggled (map_over [shell_step])) 0%Z
    = (0%Z, Ret None) /\
  (run_workflow counting_shell no_files Background (smuggled (map_over [shell_step])) 0%Z).1 = 1%Z.
Proof.
  intros e. split; [eexists; split; vm_compute; reflexivity|].
  split; vm_compute; reflexivity.
Qed.

(** *** Hosts and URLs *)

Lemma lower_byte_keeps c x : (N_of_ascii x < 65)%N -> lower_byte c = x <-> c = x.
Proof.
  intros Hx. unfold lower_byte.
  destruct ((65 <=? N_of_ascii c) && (N_of_ascii c <=? 90))%N eqn:E; [|done].
  apply andb_prop in E as [H1%N.leb_le H2%N.leb_le]. split; intros <-; [|lia].
  rewrite N_ascii_embedding in Hx by lia. lia.
Qed.

Lemma str_has_lower x s : (N_of_ascii x < 65)%N -> str_has x (str_map lower_byte s) = str_has x s.
Proof.
  intros Hx. induction s as [|c s IH]; cbn; [done|]. rewrite IH. f_equal.
  apply bool_decide_ext. rewrite !(eq_comm x). by apply lower_byte_keeps.
Qed.

(** A domain without wildcard, and a text with a slash. *)
Definition plain_domain (d : string) : bool :=
  str_forall is_ascii d && negb (str_has "/"%char d) && negb (HasPrefix d "*").
Definition is_url (u : string) : bool := str_forall is_ascii u && str_has "/"%char u.

Lemma url_never_matches te url d : is_url url = true -> plain_domain d = true ->
  matchDomain te url d = false.
Proof.
  unfold is_url, plain_domain, matchDomain, ToLower. intros [Hu Hs]%andb_prop [[Ha Hd]%andb_prop Hw]%andb_prop.
  rewrite Hu, Ha. apply negb_true_iff in Hd, Hw.
  assert (HasPrefix (str_map lower_byte d) "*" = false) as Hw'.
  { destruct d as [|c d]; [done|]. cbn [str_map]. rewrite HasPrefix_cons in Hw |- *.
    apply andb_false_iff in Hw as [Hw|Hw]; [|by unfold HasPrefix in Hw; rewrite prefix_nil in Hw].
    apply bool_decide_eq_false in Hw. rewrite bool_decide_eq_false_2; [done|]. intros E. apply Hw.
    symmetry. by apply lower_byte_keeps. }
  rewrite decide_False; [|by intros E; rewrite E in Hw'].
  destruct (HasPrefix (str_map lower_byte d) "*.") eqn:E.
  { unfold HasPrefix in E. apply prefix_app in E as [t Ht]. by rewrite Ht in Hw'. }
  apply bool_decide_eq_false. intros Heq.
  assert (str_has "/"%char (str_map lower_byte url) = str_has "/"%char (str_map lower_byte d)) as Hh
    by by rewrite Heq.
  rewrite !str_has_lower in Hh by done. congruence.
Qed.

(** the network rules are matched against the whole URL of a request: a
    denylist of domains blocks no URL at all, and an allowlist of domains
    admits none. *)
Theorem url_rules_ineffective {W} (te : TextEnv) (e : Engine W) ctx url (w : W) :
  is_url url = true ->
  (np_Outbound (p_Network (pe_policy e)) = "allowed" ->
   forallb plain_domain (np_Denylist (p_Network (pe_policy e))) = true ->
   validate_node te e ctx "http_request" {["url" := url]} w = (w, Ret None)) /\
  (np_Outbound (p_Network (pe_policy e)) = "allowlist" ->
   forallb plain_domain (np_Allowlist (p_Network (pe_policy e))) = true ->
   exists g, validate_node te e ctx "http_request" {["url" := url]} w = (w, Ret (Some g))).
Proof.
  intros Hurl.
  assert (forall l, forallb plain_domain l = true -> existsb (matchDomain te url) l = false) as Hno.
  { intros l Hl. apply existsb_none. intros d Hd. apply url_never_matches; [done|].
    rewrite forallb_forall in Hl. by apply Hl, list_elem_of_In. }
  assert (node_action "http_request" {["url" := url]}
    = Some (ActionNetworkHTTP, url, "network access not allowed: ")) as Hact.
  { unfold node_action. rewrite lookup_singleton_eq. cbn. reflexivity. }
  unfold validate_node. rewrite Hact. unfold Check, mbind, M_bind.
  change (evaluate te (pe_policy e) ActionNetworkHTTP url) with (evaluateNetwork te (pe_policy e) url).
  unfold evaluateNetwork. split; intros Ho Hl; rewrite Ho, (Hno _ Hl);
    repeat (rewrite decide_True by done || rewrite decide_False by discriminate); [done|by eexists].
Qed.

Definition no_evil : Policy :=
  mkPolicy (p_Filesystem DefaultPolicy) (mkNetwork "allowed" [] ["evil.com"]) (p_Shell DefaultPolicy)
    (p_Financial DefaultPolicy).

Lemma url_rules_ineffective_witness :
  matchDomain ascii_text "evil.com" "evil.com" = true /\
  validate_node ascii_text (NewEngine (Some no_evil) None) Background "http_request"
    {["url" := "https://evil.com/steal"]} tt = (tt, Ret None).
Proof.
  split; [reflexivity|].
  by apply (url_rules_ineffective ascii_text (NewEngine (Some no_evil) None) Background
    "https://evil.com/steal" tt).
Defined.

Lemma ValidateWorkflow_exact_witness :
  let e := NewEngine (Some DefaultPolicy) None in
  ValidateWorkflow ascii_text (Some e) Background (smuggled shell_step) tt = (tt, Ret None) /\
  Forall (passes ascii_text e) (flat_map visited (wf_Steps (smuggled shell_step))).
Proof.
  intros e. assert (ValidateWorkflow ascii_text (Some e) Background (smuggled shell_step) tt
    = (tt, Ret None)) as H by (vm_compute; reflexivity).
  split; [exact H|]. exact (proj1 (ValidateWorkflow_exact ascii_text e Background (smuggled shell_step) tt) tt H).
Defined.
