(* ===== verification/Resume.v ===== *)
(** * Resuming paused runs (src/internal/workflow/resume.go)

    The table of runs under the data directory and [ResumeWorkflowWith], which
    checks the policy, runs the executor on the run's own log, and moves the
    run through its states paused, resumed, completed and failed. *)

From S2P Require Import Prelude GoStrings GoTime GoPath WorkflowTypes ExprEngine WalState Effects.
From S2P Require Import Compound DagScheduler Sequential Interpreter.
From S2P Require Import Errors Idempotency IdempotencyProofs AuditRecorder Executor Policy PolicyExecutor.

#[local] Open Scope string_scope.
#[local] Open Scope Z_scope.

(** ** Paths *)

Section paths.
Context (DataDir : string).

Definition RunsDir : string := JoinPath DataDir "runs".
Definition RunDir (runID : string) : string := JoinPath RunsDir runID.
Definition WALPath (runID : string) : string := JoinPath (RunDir runID) "wal.log".
Definition MetaPath (runID : string) : string := JoinPath (RunDir runID) "meta.json".
Definition WorkflowPath (runID : string) : string := JoinPath (RunDir runID) "workflow.yaml".
End paths.

(** ** The table of runs *)

(** [os.ReadFile] and the JSON decoder on a meta file, the parser of workflow
    files, [os.Stat], and the entries of the directory with whether they are
    directories ([None] when it does not exist); writing a meta file is
    [run_save_meta] of the store. *)
Record RunFiles (W : Type) := mkRunFiles {
  rf_DataDir : string;
  rf_load : string -> M W (result RunMeta);
  rf_parse : string -> M W (result Workflow);
  rf_exists : string -> M W bool;
  rf_entries : M W (result (option (list (string * bool))))
}.
Arguments rf_DataDir {W}.
Arguments rf_load {W}.
Arguments rf_parse {W}.
Arguments rf_exists {W}.
Arguments rf_entries {W}.

Definition set_status (status : string) (m : RunMeta) : RunMeta :=
  mkRunMeta (rm_RunID m) (rm_WorkflowName m) (rm_WorkflowPath m) status (rm_PausedStep m)
    (rm_StepName m) (rm_ResumeOn m) (rm_SafeMode m).

Section table.
Context {W : Type} (rf : RunFiles W) (store : Store W).

Definition LoadRunMeta (runID : string) : M W (result RunMeta) := rf_load rf runID.

Definition UpdateRunMetaStatus (runID status : string) : M W (option error) :=
  m ← LoadRunMeta runID;
  match m with
  | Err e => mret (Some e)
  | Ok m => run_save_meta store (set_status status m)
  end.

Fixpoint paused_runs (entries : list (string * bool)) : M W (list RunMeta) :=
  match entries with
  | [] => mret []
  | (name, dir) :: entries =>
      if negb dir then paused_runs entries else
      m ← LoadRunMeta name;
      rest ← paused_runs entries;
      mret match m with
           | Err _ => rest
           | Ok m => if decide (rm_Status m = "paused") then m :: rest else rest
           end
  end.
Definition ListPausedRuns : M W (result (list RunMeta)) :=
  es ← rf_entries rf;
  match es with
  | Err e => mret (Err e)
  | Ok None => mret (Ok [])
  | Ok (Some es) => l ← paused_runs es; mret (Ok l)
  end.
End table.

(** ** Resuming *)

Inductive resume_error :=
  | NotLoaded (e : error)
  | NotPaused (status : string)
  | NotParsed (e : error)
  | BlockedByPolicy (e : goerr)
  | ExecError (e : exec_error).

Definition resume_timeout : Z := 7 * 24 * 3600 * 10 ^ 9.

Section resume.
Context {W S : Type} `{HS : IdempotencyStore S}.
Context (xe : ExecEnv W) (ae : auditEnv W) (env : Env W) (store : Store W) (te : TextEnv)
  (rf : RunFiles W).

(** The workflow file that the run recorded, else the copy made when it
    paused. *)
Definition parse_run (runID : string) (m : RunMeta) : M W (result Workflow) :=
  wf ← rf_parse rf (rm_WorkflowPath m);
  match wf with
  | Ok wf => mret (Ok wf)
  | Err _ => rf_parse rf (WorkflowPath (rf_DataDir rf) runID)
  end.

(** The path that a second pause copies the workflow from. *)
Definition resume_path (runID : string) (m : RunMeta) : M W string :=
  if decide (rm_WorkflowPath m = "") then
    there ← rf_exists rf (WorkflowPath (rf_DataDir rf) runID);
    mret (if there : bool then WorkflowPath (rf_DataDir rf) runID else "")
  else mret (rm_WorkflowPath m).

(** The executor of the resumed run: the caller's, or one that audits. *)
Definition resume_executor (base : option Executor) (runID : string) (m : RunMeta) : M W Executor :=
  let e := default (WithAuditLog true "" NewExecutor) base in
  let e := WithTimeout resume_timeout (WithWAL (WALPath (rf_DataDir rf) runID) e) in
  path ← resume_path runID m;
  mret (WithSafeMode (rm_SafeMode m) (if decide (path = "") then e else WithWorkflowPath path e)).

Definition resume_engine (m : RunMeta) : Engine W :=
  NewEngine (Some (if rm_SafeMode m then StrictPolicy else DefaultPolicy)) None.

(** The state a run is left in. *)
Definition final_status (err : option exec_error) : string :=
  match err with
  | None => "completed"
  | Some (RunError (Paused _)) => "paused"
  | Some _ => "failed"
  end.

Definition ResumeWorkflowWith (ctx : Ctx) (runID : string) (base : option Executor)
    : M (W * S) (string * list StepResult * option resume_error) :=
  m ← lift (LoadRunMeta rf runID);
  match m with
  | Err e => mret ("", [], Some (NotLoaded e))
  | Ok m =>
      if decide (rm_Status m <> "paused") then mret ("", [], Some (NotPaused (rm_Status m))) else
      _ ← lift (UpdateRunMetaStatus rf store runID "resumed");
      wf ← lift (parse_run runID m);
      match wf with
      | Err e => mret ("", [], Some (NotParsed e))
      | Ok wf =>
          exec ← lift (resume_executor base runID m);
          verr ← lift (ValidateWorkflow te (Some (resume_engine m)) ctx wf);
          match verr with
          | Some g =>
              _ ← lift (UpdateRunMetaStatus rf store runID "paused");
              mret ("", [], Some (BlockedByPolicy g))
          | None =>
              '(out, results, _, err) ← ExecuteWithTrace xe ae env store exec ctx wf;
              _ ← lift (UpdateRunMetaStatus rf store runID (final_status err));
              mret (out, results, ExecError <$> err)
          end
      end
  end.

Definition ResumeWorkflow (ctx : Ctx) (runID : string) := ResumeWorkflowWith ctx runID None.
End resume.

(** ** The states of a run *)

Section states.
Context {W S : Type} `{HS : IdempotencyStore S}.
Context (xe : ExecEnv W) (ae : auditEnv W) (env : Env W) (store : Store W) (te : TextEnv)
  (rf : RunFiles W) (table : W -> gmap string RunMeta).

(** The files behave like a table of runs. *)
Class RunTable := {
  rt_load : forall id m w, table w !! id = Some m ->
    exists w', rf_load rf id w = (w', Ret (Ok m)) /\ table w' = table w;
  rt_missing : forall id w, table w !! id = None ->
    exists w' e, rf_load rf id w = (w', Ret (Err e)) /\ table w' = table w;
  rt_save : forall m w, exists w', run_save_meta store m w = (w', Ret None) /\
    table w' = <[rm_RunID m := m]> (table w);
  rt_parse : forall p w, table (rf_parse rf p w).1 = table w
}.
Context `{HR : !RunTable}.

Definition has_run (runID : string) (status : string) (w : W) : Prop :=
  exists m, table w !! runID = Some m /\ rm_RunID m = runID /\ rm_Status m = status.

Lemma update_status runID status status' w : has_run runID status w ->
  exists w', UpdateRunMetaStatus rf store runID status' w = (w', Ret None) /\ has_run runID status' w'.
Proof using HR.
  intros (m & Hm & Hid & _). destruct (rt_load _ _ _ Hm) as (w1 & E1 & T1).
  destruct (rt_save (set_status status' m) w1) as (w2 & E2 & T2). exists w2.
  unfold UpdateRunMetaStatus, LoadRunMeta, mbind, M_bind. rewrite E1. split; [done|].
  exists (set_status status' m). rewrite T2. cbn. rewrite Hid, lookup_insert_eq. done.
Qed.

(** A step of a resumption that leaves the table alone. *)
Lemma lift_keeps {A} (m : M W A) ws ws' r runID status :
  (forall w, table (m w).1 = table w) -> lift (S:=S) m ws = (ws', r) ->
  has_run runID status ws.1 -> has_run runID status ws'.1.
Proof.
  intros Hm. unfold lift. specialize (Hm ws.1). destruct (m ws.1) as [w1 r1]. intros [= <- <-].
  unfold has_run. cbn in *. by rewrite Hm.
Qed.

Lemma parse_run_keeps runID m w : table (parse_run rf runID m w).1 = table w.
Proof using HR.
  unfold parse_run, mbind, M_bind. pose proof (rt_parse (rm_WorkflowPath m) w) as H1.
  destruct (rf_parse rf (rm_WorkflowPath m) w) as [w1 [[wf|e]|msg]]; cbn in *; [done| |done].
  by rewrite rt_parse.
Qed.

(** What an error means for the run. *)
Definition resumed_status (err : option resume_error) : string :=
  match err with
  | None => "completed"
  | Some (ExecError e) => final_status (Some e)
  | Some (BlockedByPolicy _) => "paused"
  | Some _ => "resumed"
  end.

Lemma bind_returns {X A B} (m : M X A) (k : A -> M X B) x x' b :
  (m ≫= k) x = (x', Ret b) -> exists x1 a, m x = (x1, Ret a) /\ k a x1 = (x', Ret b).
Proof. unfold mbind, M_bind. destruct (m x) as [x1 [a|msg]] eqn:E; [|done]. eauto. Qed.

(** An update sets the status of the entry, if it is there afterwards. *)
Lemma updated_status runID status ws ws' r m :
  lift (S:=S) (UpdateRunMetaStatus rf store runID status) ws = (ws', r) ->
  table ws'.1 !! runID = Some m -> rm_RunID m = runID -> rm_Status m = status.
Proof using HR.
  unfold lift, UpdateRunMetaStatus, LoadRunMeta, mbind, M_bind.
  destruct (table ws.1 !! runID) as [m1|] eqn:E.
  - destruct (rt_load _ _ _ E) as (w1 & E1 & T1).
    destruct (rt_save (set_status status m1) w1) as (w2 & E2 & T2). rewrite E1, E2.
    intros [= <- <-] Hm Hid. cbn in Hm. rewrite T2, T1 in Hm. cbn in Hm.
    destruct (decide (rm_RunID m1 = runID)) as [Heq|Hne].
    + rewrite Heq, lookup_insert_eq in Hm. by injection Hm as <-.
    + rewrite lookup_insert_ne, E in Hm by done. congruence.
  - destruct (rt_missing _ _ E) as (w1 & e & E1 & T1). rewrite E1. intros [= <- <-] Hm.
    cbn in Hm. congruence.
Qed.

Lemma lift_update runID status status' ws ws' r : has_run runID status ws.1 ->
  lift (S:=S) (UpdateRunMetaStatus rf store runID status') ws = (ws', r) -> has_run runID status' ws'.1.
Proof using HR.
  intros Hrun. destruct (update_status _ _ status' _ Hrun) as (w1 & E1 & H1).
  unfold lift. rewrite E1. by intros [= <- <-].
Qed.

Lemma resume_status_inv ctx runID base ws ws' out results err :
  has_run runID "paused" ws.1 ->
  ResumeWorkflowWith xe ae env store te rf ctx runID base ws = (ws', Ret (out, results, err)) ->
  (forall m, table ws'.1 !! runID = Some m -> rm_RunID m = runID ->
     rm_Status m = resumed_status err) /\
  match err with
  | Some (NotLoaded _) | Some (NotPaused _) => False
  | Some (NotParsed _) => has_run runID "resumed" ws'.1
  | _ => True
  end.
Proof using HR.
  intros Hp. unfold ResumeWorkflowWith. intros (ws1 & m & E1 & H)%bind_returns.
  destruct Hp as (m0 & Hm0 & Hid & Hst). destruct (rt_load _ _ _ Hm0) as (w1 & El & T1).
  unfold lift, LoadRunMeta in E1. rewrite El in E1. injection E1 as <- <-.
  rewrite decide_False in H by (by intros []).
  apply bind_returns in H as (ws2 & ? & E2 & H).
  assert (has_run runID "resumed" ws2.1) as H2.
  { eapply lift_update; [|exact E2]. exists m0. cbn. rewrite T1. done. }
  apply bind_returns in H as (ws3 & wf & E3 & H).
  eapply lift_keeps in E3; [|apply parse_run_keeps|exact H2].
  destruct wf as [wf|e].
  2:{ injection H as <- <- <- <-. split; [|done]. destruct E3 as (m & Hm & _ & Hs).
      intros m' Hm' _. cbn. congruence. }
  apply bind_returns in H as (ws4 & exec & E4 & H).
  apply bind_returns in H as (ws5 & verr & E5 & H). destruct verr as [g|].
  - apply bind_returns in H as (ws6 & ? & E6 & H). injection H as <- <- <- <-. split; [|done].
    intros m. by apply (updated_status _ _ _ _ _ _ E6).
  - apply bind_returns in H as (ws6 & [[[o rs] tr] er] & E6 & H).
    apply bind_returns in H as (ws7 & ? & E7 & H). injection H as <- <- <- <-.
    split; [|by destruct er as [[]|]].
    replace (resumed_status (ExecError <$> er)) with (final_status er) by (by destruct er).
    intros m. by apply (updated_status _ _ _ _ _ _ E7).
Qed.
End states.

(** a resumed run ends in the state that its outcome says: completed, failed,
    paused again when the workflow paused or the policy blocked it, and
    resumed when its workflow cannot be read any more; provided that the run
    did not remove its own entry. *)
Theorem resume_status {W S : Type} `{IdempotencyStore S} (xe : ExecEnv W) (ae : auditEnv W)
    (env : Env W) (store : Store W) (te : TextEnv) (rf : RunFiles W) (table : W -> gmap string RunMeta)
    `{!RunTable store rf table} ctx runID base ws ws' out results err m :
  has_run table runID "paused" ws.1 ->
  ResumeWorkflowWith xe ae env store te rf ctx runID base ws = (ws', Ret (out, results, err)) ->
  table ws'.1 !! runID = Some m -> rm_RunID m = runID ->
  rm_Status m = resumed_status err.
Proof.
  intros Hp Hr. apply (resume_status_inv xe ae env store te rf table) in Hr as [Hs _]; [apply Hs|exact Hp].
Qed.

(** a run whose workflow file cannot be read when it is resumed is lost: it
    stays in the state resumed, and every later attempt, also once the file is
    back, is refused because the run is not paused. *)
Theorem unreadable_run_stranded {W S : Type} `{IdempotencyStore S} (xe : ExecEnv W) (ae : auditEnv W)
    (env : Env W) (store : Store W) (te : TextEnv) (rf : RunFiles W) (table : W -> gmap string RunMeta)
    `{!RunTable store rf table} ctx runID base base2 ws ws' out results e w2 s2 :
  has_run table runID "paused" ws.1 ->
  ResumeWorkflowWith xe ae env store te rf ctx runID base ws
    = (ws', Ret (out, results, Some (NotParsed e))) ->
  table w2 = table ws'.1 ->
  exists ws2, ResumeWorkflowWith xe ae env store te rf ctx runID base2 (w2, s2)
    = (ws2, Ret ("", [], Some (NotPaused "resumed"))).
Proof.
  intros Hp Hr Hsame. apply (resume_status_inv xe ae env store te rf table) in Hr
    as [_ (m & Hm & Hid & Hst)]; [|exact Hp]. rewrite <- Hsame in Hm.
  destruct (rt_load store rf table _ _ _ Hm) as (w1 & El & _). exists (w1, s2).
  unfold ResumeWorkflowWith, mbind, M_bind, lift, LoadRunMeta. cbn [fst snd]. rewrite El. cbn in Hst |- *.
  rewrite decide_True by (rewrite Hst; done). by rewrite Hst.
Qed.

(** ** A table of runs *)

(** The runs, the number of runs made so far, and the workflow file. *)
Record run_world := mkRuns {
  rw_table : gmap string RunMeta;
  rw_next : nat;
  rw_file : option Workflow
}.
Definition save_run (m : RunMeta) (w : run_world) : run_world :=
  mkRuns (<[rm_RunID m := m]> (rw_table w)) (rw_next w) (rw_file w).

Definition runs_store : Store run_world :=
  mkStore _ (mkCheckpoints _ (fun _ _ => mret None) (fun _ => mret (Ok None)))
    (fun _ => mret None) (fun _ => mret (Ok None)) (fun _ _ => mret None) (fun _ => mret None)
    (fun _ => mret tt)
    (fun w => (mkRuns (rw_table w) (S (rw_next w)) (rw_file w),
               Ret ("run-" +:+ Itoa (Z.of_nat (rw_next w)))))
    (fun _ => mret None) (fun _ _ => mret tt) (fun _ _ => mret tt)
    (fun m w => (save_run m w, Ret None)).
Definition runs_files : RunFiles run_world :=
  mkRunFiles _ "/data"
    (fun id w => (w, Ret match rw_table w !! id with Some m => Ok m | None => Err "no such run" end))
    (fun _ w => (w, Ret match rw_file w with Some wf => Ok wf | None => Err "no such file" end))
    (fun _ => mret false)
    (fun w => (w, Ret (Ok (Some (map (fun p => (p.1, true)) (map_to_list (rw_table w))))))).

#[export] Instance runs_table : RunTable runs_store runs_files rw_table.
Proof.
  split; try done.
  - intros id m w Hm. exists w. cbn. by rewrite Hm.
  - intros id w Hm. exists w. cbn. rewrite Hm. by eexists.
  - intros m w. by exists (save_run m w).
Qed.

(** The approval never comes. *)
Definition waiting_env : Env run_world :=
  quiet_env empty_host (fun _ => Some (fun _ _ _ => mret ("", Some "approval required"))).
Definition approve_wf : Workflow :=
  mkWorkflow "approve" "" ∅
    [mkWorkflowStep "gate" "b" "" ∅ "" 0 "" None [] false "" None None 0 None None
       None None None [] "" [] true "" "" "" "" false] "" [] 0 None.
Definition runs_env : ExecEnv run_world :=
  mkExecEnv _ (mret 10) (mret "run-x") (fun _ => mret tt) (mret []).
Definition runs_audit : auditEnv run_world :=
  mkAuditEnv _ (fun _ => mret None) (mret None) (mret None) (fun _ => "1s")
    (fun s => s) (fun _ => Ok "{}") (fun s => s).
Definition paused_run (id : string) : RunMeta := mkRunMeta id "approve" "wf.yaml" "paused" 0 "b" "" false.
Definition one_paused (file : option Workflow) : run_world :=
  mkRuns {["run-0" := paused_run "run-0"]} 1 file.

Definition resume_demo (runID : string) :=
  @ResumeWorkflowWith run_world MemoryStore (MemoryStore_ops demo_mac) runs_env runs_audit waiting_env
    runs_store ascii_text runs_files Background runID None.

(** a run that pauses a second time is paused twice: the pause makes a new
    run, and the resumption marks the old one as paused again, so both can be
    resumed and the rest of the workflow can be run once for each. *)
Theorem second_pause_forks :
  let after := resume_demo "run-0" (one_paused (Some approve_wf), NewMemoryIdempotencyStore 100) in
  (exists p rs, after.2 = Ret ("", rs, Some (ExecError (RunError (Paused p))))) /\
  match (ListPausedRuns runs_files after.1.1).2 with
  | Ret (Ok l) => map rm_RunID l ≡ₚ ["run-0"; "run-1"]
  | _ => False
  end.
Proof.
  intros after. split; [eexists; eexists; vm_compute; reflexivity|].
  vm_compute. first [reflexivity|apply Permutation_swap].
Qed.

Lemma resume_status_witness :
  let after := resume_demo "run-0" (one_paused (Some approve_wf), NewMemoryIdempotencyStore 100) in
  option_map rm_Status (rw_table after.1.1 !! "run-0") = Some "paused".
Proof.
  intros after.
  assert (exists m out rs err, rw_table after.1.1 !! "run-0" = Some m /\ rm_RunID m = "run-0" /\
    after.2 = Ret (out, rs, err) /\ resumed_status err = "paused") as (m & out & rs & err & Hm & Hid & Ha & Hs).
  { do 4 eexists. split; [vm_compute; reflexivity|]. split; [vm_compute; reflexivity|].
    split; [vm_compute; reflexivity|]. vm_compute. reflexivity. }
  rewrite Hm. cbn. f_equal. rewrite <- Hs.
  apply (@resume_status run_world MemoryStore (MemoryStore_ops demo_mac) runs_env runs_audit waiting_env
    runs_store ascii_text runs_files rw_table runs_table Background "run-0" None
    (one_paused (Some approve_wf), NewMemoryIdempotencyStore 100) after.1 out rs err m); try done.
  - by exists (paused_run "run-0").
  - fold (resume_demo "run-0"). fold after. rewrite <- Ha. by destruct after.
Defined.

(** The file is back, but the run is not paused any more. *)
Lemma unreadable_run_stranded_witness :
  let after := resume_demo "run-0" (one_paused None, NewMemoryIdempotencyStore 100) in
  exists ws2, resume_demo "run-0"
    (mkRuns (rw_table after.1.1) 1 (Some approve_wf), NewMemoryIdempotencyStore 100)
  = (ws2, Ret ("", [], Some (NotPaused "resumed"))).
Proof.
  intros after.
  apply (@unreadable_run_stranded run_world MemoryStore (MemoryStore_ops demo_mac) runs_env runs_audit
    waiting_env runs_store ascii_text runs_files rw_table runs_table Background "run-0" None None
    (one_paused None, NewMemoryIdempotencyStore 100) after.1 "" [] "no such file"); try done.
  by exists (paused_run "run-0").
Defined.
