(* ===== verification/AuditChain.v ===== *)
(** * The audit hash chain (src/internal/history: history_append.go,
    history_keys.go, history_verify.go)

    Appending to the log, choosing the signing key, and verification.  HMAC,
    PBKDF2, random keys, JSON and the clock are parameters; every system call
    can fail, and a failing write may leave part of the line behind.  The
    cross-process lock is one call here; it is the machine of FileLock. *)

From S2P Require Import Prelude GoStrings GoText GoPath.
From Stdlib Require Import Ascii.

#[local] Open Scope string_scope.
#[local] Open Scope nat_scope.

(** Timestamps are nanoseconds; the zero time is 0. *)
Record AuditLog := mkAudit {
  al_ID : string;
  al_Timestamp : Z;
  al_Action : string;
  al_User : string;
  al_Resource : string;
  al_Detail : string;
  al_Success : bool;
  al_IP : string;
  al_UserAgent : string;
  al_PrevHash : string;
  al_CurrHash : string;
  al_MACAlgo : string
}.

Definition auditZeroHash : string :=
  "0000000000000000000000000000000000000000000000000000000000000000".
Definition auditDefaultKey : string := "aflare-default-audit-hmac-key-v1".
Definition auditMACSHA256 : string := "sha256".
Definition auditMACSM3 : string := "sm3".
Definition ErrAuditKeyUnavailable : error :=
  "audit chain key unavailable: the existing audit log was signed with a key that is not currently configured (set AFLARE_SECRETS_PASSWORD / AFLARE_AUDIT_HMAC_KEY, or archive and restart the chain)".

(** The trailing window, and the longest line that the scanner of verification
    accepts. *)
Definition tail_window : Z := 8192.
Definition max_line : Z := 1024 * 1024 - 1.

(** The algorithms: HMAC in hex by algorithm name, key and text; PBKDF2; the
    JSON of a record; lower case outside ASCII; the verb %q. *)
Record ChainEnv := mkChainEnv {
  ce_hmac : string -> string -> string -> string;
  ce_derive : string -> string;
  ce_Marshal : AuditLog -> result string;
  ce_Unmarshal : string -> result AuditLog;
  ce_lower : string -> string;
  ce_Quote : string -> string
}.

(** The environment variables, empty when they are not set. *)
Record AuditVars := mkVars {
  av_key : string;
  av_password : string;
  av_algo : string
}.

(** The history directory: the log and the key file. *)
Record AuditDir := mkDir {
  ad_log : option string;
  ad_keyfile : option string
}.

(** The system calls of an append. *)
Inductive aop :=
  | OpMkdir | OpLock | OpOpenTail | OpReadTail | OpReread | OpReadLast | OpReadKey | OpRandom
  | OpWriteKey | OpRenameKey | OpOpenAppend | OpWrite.

(** What the outside does during one append: the failures, how much a failing
    write leaves, the random key in hex, and the clock. *)
Record AuditIO := mkIO {
  io_fault : aop -> option error;
  io_torn : nat;
  io_random : string;
  io_now : Z
}.

Section chain.
Context (ce : ChainEnv) (vars : AuditVars).

(** ** Hashes *)

Definition resolveAuditMACAlgo (value : string) : result string :=
  let v := ToLower (ce_lower ce) (TrimSpace value) in
  if decide (v = "" \/ v = auditMACSHA256) then Ok auditMACSHA256
  else if decide (v = auditMACSM3) then Ok auditMACSM3
  else Err ("invalid AFLARE_AUDIT_HMAC_ALGO value " +:+ ce_Quote ce value +:+ " (want " +:+
            ce_Quote ce auditMACSHA256 +:+ " or " +:+ ce_Quote ce auditMACSM3 +:+ ")").

Definition set_curr (h : string) (e : AuditLog) : AuditLog :=
  mkAudit (al_ID e) (al_Timestamp e) (al_Action e) (al_User e) (al_Resource e) (al_Detail e)
    (al_Success e) (al_IP e) (al_UserAgent e) (al_PrevHash e) h (al_MACAlgo e).

(** The name of the algorithm of a record, when it is a known one. *)
Definition record_algo (e : AuditLog) : option string :=
  if decide (al_MACAlgo e = "" \/ al_MACAlgo e = auditMACSHA256) then Some auditMACSHA256
  else if decide (al_MACAlgo e = auditMACSM3) then Some auditMACSM3 else None.

Definition computeAuditHash (secret : string) (e : AuditLog) : result string :=
  if decide (al_CurrHash e <> "") then
    Err "entry must not have CurrHash set when computing hash"
  else match record_algo e with
  | None => Err ("unknown audit MAC algorithm " +:+ ce_Quote ce (al_MACAlgo e))
  | Some algo =>
      match ce_Marshal ce e with
      | Err err => Err ("failed to marshal entry for hashing: " +:+ err)
      | Ok data => Ok (ce_hmac ce algo secret (al_PrevHash e +:+ data))
      end
  end.

(** The last non-empty line, trimmed. *)
Definition last_line (content : string) : option string :=
  last (filter (fun l => l <> "") (map TrimSpace (Split content newline))).

Definition lastHashFromTail (content : string) : result string :=
  match last_line content with
  | None => Ok auditZeroHash
  | Some line =>
      match ce_Unmarshal ce line with
      | Err e => Err ("failed to parse last audit log line: " +:+ e)
      | Ok e => Ok (if decide (al_CurrHash e = "") then auditZeroHash else al_CurrHash e)
      end
  end.

(** The last 8 KiB of a text. *)
Definition tail_of (content : string) : string :=
  str_drop (Z.to_nat (Z.of_nat (String.length content) - tail_window)) content.

Definition readLastAuditHash (io : AuditIO) (log : option string) : result string :=
  match log with
  | None => Ok auditZeroHash
  | Some content =>
      match io_fault io OpOpenTail with
      | Some e => Err e
      | None =>
          if decide (content = "") then Ok auditZeroHash else
          match io_fault io OpReadTail with
          | Some e => Err ("failed to read tail of audit log: " +:+ e)
          | None =>
              match lastHashFromTail (tail_of content) with
              | Ok h => Ok h
              | Err _ =>
                  match io_fault io OpReread with
                  | Some e => Err ("failed to reread audit log: " +:+ e)
                  | None =>
                      match lastHashFromTail content with
                      | Ok h => Ok h
                      | Err e => Err ("failed to parse last audit log line (torn tail? back up the file and truncate to the last complete record): " +:+ e)
                      end
                  end
              end
          end
      end
  end.

(** ** Keys *)

(** [None]: there is no key file. *)
Definition readAuditKeyFile (io : AuditIO) (d : AuditDir) : result (option string) :=
  match ad_keyfile d with
  | None => Ok None
  | Some data =>
      match io_fault io OpReadKey with
      | Some e => Err ("failed to read audit key file: " +:+ e)
      | None => if decide (TrimSpace data = "") then Err "audit key file is empty"
                else Ok (Some (TrimSpace data))
      end
  end.

Definition ensureAuditKeyFile (io : AuditIO) (d : AuditDir) : result string * AuditDir :=
  match readAuditKeyFile io d with
  | Err e => (Err e, d)
  | Ok (Some key) => (Ok key, d)
  | Ok None =>
      match io_fault io OpRandom with
      | Some e => (Err ("failed to generate audit key: " +:+ e), d)
      | None =>
          match io_fault io OpWriteKey with
          | Some e => (Err ("failed to write audit key file: " +:+ e), d)
          | None =>
              match io_fault io OpRenameKey with
              | Some e => (Err ("failed to finalize audit key file: " +:+ e), d)
              | None => (Ok (io_random io), mkDir (ad_log d) (Some (io_random io)))
              end
          end
      end
  end.

(** [add]: no empty key and no key twice. *)
Definition add_key (keys : list string) (k : string) : list string :=
  if decide (k = "" \/ k ∈ keys) then keys else (keys ++ [k])%list.

Definition auditKeyCandidates (io : AuditIO) (d : AuditDir) : list string :=
  let c := add_key [] (av_key vars) in
  let c := if decide (av_password vars = "") then c
           else add_key c (ce_derive ce (av_password vars)) in
  let c := match readAuditKeyFile io d with Ok (Some k) => add_key c k | _ => c end in
  add_key c auditDefaultKey.

Definition lastAuditRecord (io : AuditIO) (log : option string) : option AuditLog :=
  match log with
  | None => None
  | Some content =>
      match io_fault io OpReadLast with
      | Some _ => None
      | None =>
          match last_line (tail_of content) with
          | None => None
          | Some line => match ce_Unmarshal ce line with Ok e => Some e | Err _ => None end
          end
      end
  end.

(** The first candidate that verifies the record. *)
Definition signing_key (e : AuditLog) (keys : list string) : option string :=
  head (filter (fun k => computeAuditHash k (set_curr "" e) = Ok (al_CurrHash e)) keys).

Definition chainContinuityKey (io : AuditIO) (d : AuditDir) : result (option string) :=
  match lastAuditRecord io (ad_log d) with
  | None => Ok None
  | Some e =>
      if decide (al_CurrHash e = "") then Ok None else
      match signing_key e (auditKeyCandidates io d) with
      | Some k => Ok (Some k)
      | None => Err ErrAuditKeyUnavailable
      end
  end.

Definition auditKeyForAppend (io : AuditIO) (d : AuditDir) : result string * AuditDir :=
  if decide (av_key vars <> "") then (Ok (av_key vars), d) else
  match chainContinuityKey io d with
  | Err e => (Err e, d)
  | Ok (Some k) => (Ok k, d)
  | Ok None =>
      if decide (av_password vars <> "") then (Ok (ce_derive ce (av_password vars)), d) else
      match readAuditKeyFile io d with
      | Err e => (Err e, d)
      | Ok (Some k) => (Ok k, d)
      | Ok None =>
          if decide (default "" (ad_log d) = "") then ensureAuditKeyFile io d
          else (Ok auditDefaultKey, d)
      end
  end.

(** ** Appending *)

(** The record with its id, time, algorithm and link. *)
Definition stamped (io : AuditIO) (algo prev : string) (e : AuditLog) : AuditLog :=
  mkAudit (if decide (al_ID e = "") then Itoa (io_now io) else al_ID e)
    (if decide (al_Timestamp e = 0%Z) then io_now io else al_Timestamp e)
    (al_Action e) (al_User e) (al_Resource e) (al_Detail e) (al_Success e) (al_IP e)
    (al_UserAgent e) prev "" (if decide (algo = auditMACSM3) then auditMACSM3 else "").

(** The write at the end of the log. *)
Definition append_line (io : AuditIO) (line : string) (d : AuditDir) : option error * AuditDir :=
  let old := default "" (ad_log d) in
  match io_fault io OpOpenAppend with
  | Some e => (Some ("failed to open audit log file: " +:+ e), d)
  | None =>
      match io_fault io OpWrite with
      | Some e => (Some ("failed to write audit log: " +:+ e),
                   mkDir (Some (old +:+ str_take (io_torn io) (line +:+ newline))) (ad_keyfile d))
      | None => (None, mkDir (Some (old +:+ line +:+ newline)) (ad_keyfile d))
      end
  end.

Definition AppendAuditLog (io : AuditIO) (e : AuditLog) (d : AuditDir) : option error * AuditDir :=
  match io_fault io OpMkdir with
  | Some err => (Some ("failed to create history directory: " +:+ err), d)
  | None =>
  match resolveAuditMACAlgo (av_algo vars) with
  | Err err => (Some ("failed to select audit MAC algorithm: " +:+ err), d)
  | Ok algo =>
  match io_fault io OpLock with
  | Some err => (Some err, d)
  | None =>
  match readLastAuditHash io (ad_log d) with
  | Err err => (Some ("failed to read previous audit hash: " +:+ err), d)
  | Ok prev =>
  match auditKeyForAppend io d with
  | (Err err, d) => (Some ("failed to resolve audit HMAC key: " +:+ err), d)
  | (Ok key, d) =>
      let e := stamped io algo prev e in
      match computeAuditHash key e with
      | Err err => (Some ("failed to compute audit hash: " +:+ err), d)
      | Ok h =>
          match ce_Marshal ce (set_curr h e) with
          | Err err => (Some ("failed to marshal audit log: " +:+ err), d)
          | Ok data => append_line io data d
          end
      end
  end end end end end.

(** ** Verification *)

Inductive verdict :=
  | Valid
  | Mismatch (line : nat)
  | Broken (line : nat) (err : error).   (* the same for every key *)

(** One line per call of the scanner. *)
Fixpoint verify_lines (secret : string) (prev : string) (n : nat) (lines : list string) : verdict :=
  match lines with
  | [] => Valid
  | raw :: lines =>
      if (max_line <? Z.of_nat (String.length raw))%Z then
        Broken n "failed to read audit log: bufio.Scanner: token too long" else
      let n := S n in
      let line := TrimSpace raw in
      if decide (line = "") then verify_lines secret prev n lines else
      match ce_Unmarshal ce line with
      | Err e => Broken n ("line " +:+ Itoa (Z.of_nat n) +:+ ": failed to parse record: " +:+ e)
      | Ok e =>
          if decide (al_PrevHash e = "" /\ al_CurrHash e = "") then
            Broken n ("line " +:+ Itoa (Z.of_nat n) +:+
                      ": incompatible format (missing prev_hash/curr_hash fields)")
          else if decide (al_PrevHash e <> prev) then Mismatch n else
          match computeAuditHash secret (set_curr "" e) with
          | Err err => Broken n ("line " +:+ Itoa (Z.of_nat n) +:+ ": " +:+ err)
          | Ok h => if decide (h <> al_CurrHash e) then Mismatch n
                    else verify_lines secret (al_CurrHash e) n lines
          end
      end
  end.
Definition verifyAuditLines (content secret : string) : verdict :=
  verify_lines secret auditZeroHash 0 (Split content newline).

Fixpoint try_keys (content : string) (first : option nat) (keys : list string)
    : bool * nat * option error :=
  match keys with
  | [] => match first with
          | Some line => (false, line, None)
          | None => (false, 0, Some "no audit HMAC key candidates available")
          end
  | k :: keys =>
      match verifyAuditLines content k with
      | Valid => (true, 0, None)
      | Broken line err => (false, line, Some err)
      | Mismatch line => try_keys content (Some (default line first)) keys
      end
  end.

(** [valid], [brokenAtLine] and [err] for the log of the directory. *)
Definition VerifyAuditChain (io : AuditIO) (d : AuditDir) : bool * nat * option error :=
  match ad_log d with
  | None => (true, 0, None)
  | Some content => try_keys content None (auditKeyCandidates io d)
  end.

(** [configured], [keyFileExists], [usingDefaultKey]. *)
Definition AuditKeyStatus (io : AuditIO) (d : AuditDir) : bool * bool * bool :=
  if decide (av_key vars <> "" \/ av_password vars <> "") then (true, false, false) else
  match readAuditKeyFile io d with
  | Ok (Some _) => (true, true, false)
  | _ => if decide (default "" (ad_log d) <> "") then (false, false, true) else (false, false, false)
  end.
End chain.
