(* ===== verification/AuditChainProofs.v ===== *)
(** * What the audit chain guarantees

    Appending keeps the chain valid; two valid logs with the same last hash
    are the same log, or exhibit a collision of the MAC; and what verification
    does not notice: a missing tail, a log signed with the public default
    key, and a change of key behind a long record. *)

From S2P Require Import Prelude GoStrings GoText AuditChain.
From Stdlib Require Import Ascii.

#[local] Open Scope string_scope.
#[local] Open Scope list_scope.
#[local] Open Scope nat_scope.

Definition nl : ascii := ascii_of_nat 10.

Section proofs.
Context (ce : ChainEnv) (vars : AuditVars).

(** ** Signed chains of records *)

Fixpoint signed_chain (k prev : string) (es : list AuditLog) : Prop :=
  match es with
  | [] => True
  | e :: es => al_PrevHash e = prev /\
      computeAuditHash ce k (set_curr "" e) = Ok (al_CurrHash e) /\
      signed_chain k (al_CurrHash e) es
  end.

Fixpoint last_hash (prev : string) (es : list AuditLog) : string :=
  match es with [] => prev | e :: es => last_hash (al_CurrHash e) es end.

Lemma last_hash_app prev es es' : last_hash prev (es ++ es') = last_hash (last_hash prev es) es'.
Proof. revert prev. induction es as [|e es IH]; intros prev; cbn; auto. Qed.

Lemma signed_chain_app k prev es es' :
  signed_chain k prev (es ++ es') <-> signed_chain k prev es /\ signed_chain k (last_hash prev es) es'.
Proof.
  revert prev. induction es as [|e es IH]; intros prev; cbn; [tauto|]. rewrite IH. tauto.
Qed.

(** ** Lines *)

(** The lines that count. *)
Definition record_lines (lines : list string) : list string :=
  filter (fun l => l <> "") (map TrimSpace lines).

(** What verification establishes of the lines it reads. *)
Lemma verify_lines_sound k lines : forall prev n,
  verify_lines ce k prev n lines = Valid ->
  exists es, Forall2 (fun l e => ce_Unmarshal ce l = Ok e) (record_lines lines) es /\
    signed_chain k prev es.
Proof.
  induction lines as [|raw lines IH]; intros prev n; cbn [verify_lines].
  { intros _. exists []. split; [constructor|done]. }
  destruct (_ <? _)%Z; [done|]. unfold record_lines. cbn [map].
  case_decide as Ht.
  { intros H. apply IH in H as (es & HF & Hc). exists es. rewrite filter_cons_False by tauto. done. }
  destruct (ce_Unmarshal ce (TrimSpace raw)) as [e|err] eqn:Eu; [|done].
  case_decide; [done|]. case_decide as Hp; [done|].
  destruct (computeAuditHash ce k (set_curr "" e)) as [h|err] eqn:Eh; [|done].
  case_decide as Hh; [done|]. intros Hv. apply IH in Hv as (es & HF & Hc).
  exists (e :: es). rewrite filter_cons_True by done. split; [by constructor|].
  cbn. subst. done.
Qed.

(** Whether a line is broken does not depend on the key. *)
Lemma verify_lines_not_broken k k' lines : forall prev n,
  verify_lines ce k prev n lines = Valid ->
  forall line err, verify_lines ce k' prev n lines <> Broken line err.
Proof.
  induction lines as [|raw lines IH]; intros prev n; cbn [verify_lines]; [done|].
  destruct (_ <? _)%Z; [done|]. case_decide; [apply IH|].
  destruct (ce_Unmarshal ce (TrimSpace raw)) as [e|err]; [|done].
  case_decide; [done|]. case_decide; [done|]. unfold computeAuditHash.
  case_decide; [done|]. destruct (record_algo _); [|done]. destruct (ce_Marshal ce _); [|done].
  case_decide; [done|]. intros Hv line err.
  case_decide; [done|]. by apply IH.
Qed.

Lemma try_keys_valid content k keys : verifyAuditLines ce content k = Valid -> k ∈ keys ->
  forall first, try_keys ce content first keys = (true, 0, None).
Proof.
  intros Hv. induction keys as [|k' keys IH]; intros Hin first; [by apply elem_of_nil in Hin|].
  cbn [try_keys]. destruct (verifyAuditLines ce content k') as [|line|line err] eqn:E; [done| |].
  - apply IH. apply elem_of_cons in Hin as [->|]; [congruence|done].
  - by apply (verify_lines_not_broken k k' _ _ _ Hv) in E.
Qed.

Lemma default_key_candidate io d : auditDefaultKey ∈ auditKeyCandidates ce vars io d.
Proof.
  unfold auditKeyCandidates. set (c := match readAuditKeyFile io d with Ok (Some k) => _ | _ => _ end).
  unfold add_key. case_decide as H; [by destruct H|]. apply elem_of_app. right. by left.
Qed.

(** ** Same last hash, same log *)

(** The text whose MAC, under this algorithm, is the hash of the record. *)
Definition signed_as (e : AuditLog) (algo text : string) : Prop :=
  record_algo e = Some algo /\ exists data, ce_Marshal ce (set_curr "" e) = Ok data /\ text = al_PrevHash e +:+ data.

(** The last records in which two logs differ have different texts with the
    same MAC; or the first log ends with the second, and the text of the record
    before that has the MAC that starts a chain.  Both are read off the logs:
    whoever changed one has found them. *)
Definition mac_collision (k : string) (es1 es2 : list AuditLog) : Prop :=
  exists before1 e1 before2 e2 after a1 t1 a2 t2,
    es1 = before1 ++ e1 :: after /\ es2 = before2 ++ e2 :: after /\
    signed_as e1 a1 t1 /\ signed_as e2 a2 t2 /\ t1 <> t2 /\ ce_hmac ce a1 k t1 = ce_hmac ce a2 k t2.
Definition zero_mac (k : string) (es1 es2 : list AuditLog) : Prop :=
  exists before e a t, es1 = before ++ e :: es2 /\ signed_as e a t /\ ce_hmac ce a k t = auditZeroHash.

(** A record is encoded faithfully when its hash is cleared. *)
Definition reencodes (e : AuditLog) : Prop :=
  forall data, ce_Marshal ce (set_curr "" e) = Ok data -> ce_Unmarshal ce data = Ok (set_curr "" e).

Context (Hlen : forall a k t, String.length (ce_hmac ce a k t) = 64).

Lemma computeAuditHash_mac k e h : computeAuditHash ce k (set_curr "" e) = Ok h ->
  exists algo text, signed_as e algo text /\ h = ce_hmac ce algo k text.
Proof.
  unfold computeAuditHash, signed_as. case_decide; [done|]. change (record_algo (set_curr "" e)) with (record_algo e).
  destruct (record_algo e) as [algo|]; [|done].
  destruct (ce_Marshal ce (set_curr "" e)) as [data|err]; [|done]. intros [= <-]. by eauto 8.
Qed.

Lemma set_curr_inj e1 e2 : set_curr "" e1 = set_curr "" e2 -> al_CurrHash e1 = al_CurrHash e2 -> e1 = e2.
Proof. destruct e1, e2. unfold set_curr. cbn. intros [=] ->. by subst. Qed.

Lemma hash_length k es : forall prev, String.length prev = 64 -> signed_chain k prev es ->
  String.length (last_hash prev es) = 64.
Proof using Hlen.
  induction es as [|e es IH]; intros prev Hp; [done|]. intros (_ & Hh & Hc). apply IH; [|done].
  apply computeAuditHash_mac in Hh as (a & t & _ & ->). apply Hlen.
Qed.

(** Two signed records with the same hash are equal. *)
Lemma same_hash_same_record k e1 e2 : reencodes e1 -> reencodes e2 ->
  computeAuditHash ce k (set_curr "" e1) = Ok (al_CurrHash e1) ->
  computeAuditHash ce k (set_curr "" e2) = Ok (al_CurrHash e2) ->
  String.length (al_PrevHash e1) = String.length (al_PrevHash e2) ->
  al_CurrHash e1 = al_CurrHash e2 -> e1 = e2 \/
  exists a1 t1 a2 t2, signed_as e1 a1 t1 /\ signed_as e2 a2 t2 /\ t1 <> t2 /\ ce_hmac ce a1 k t1 = ce_hmac ce a2 k t2.
Proof.
  intros R1 R2 H1 H2 Hl Heq. apply computeAuditHash_mac in H1 as (a1 & t1 & T1 & E1).
  apply computeAuditHash_mac in H2 as (a2 & t2 & T2 & E2). destruct (decide (t1 = t2)) as [Ht|Ht].
  - left. destruct T1 as (_ & d1 & M1 & ->), T2 as (_ & d2 & M2 & ->).
    apply string_app_same_length in Ht as [_ ->]; [|done].
    apply R1 in M1. apply R2 in M2. apply set_curr_inj; [congruence|done].
  - right. exists a1, t1, a2, t2. split_and!; [done..|congruence].
Qed.

Lemma zero_hash k es e : signed_chain k auditZeroHash (es ++ [e]) ->
  last_hash auditZeroHash (es ++ [e]) = auditZeroHash ->
  exists a t, signed_as e a t /\ ce_hmac ce a k t = auditZeroHash.
Proof.
  rewrite last_hash_app. cbn [last_hash]. intros [_ (_ & Hh & _)]%signed_chain_app Hl.
  apply computeAuditHash_mac in Hh as (a & t & Ht & E). exists a, t. split; [done|congruence].
Qed.

Lemma mac_collision_snoc k es1 es2 e : mac_collision k es1 es2 -> mac_collision k (es1 ++ [e]) (es2 ++ [e]).
Proof.
  intros (b1 & e1 & b2 & e2 & after & a1 & t1 & a2 & t2 & -> & -> & H).
  exists b1, e1, b2, e2, (after ++ [e]), a1, t1, a2, t2. by rewrite <-!app_assoc.
Qed.
Lemma zero_mac_snoc k es1 es2 e : zero_mac k es1 es2 -> zero_mac k (es1 ++ [e]) (es2 ++ [e]).
Proof. intros (b & e1 & a & t & -> & H). exists b, e1, a, t. by rewrite <-app_assoc. Qed.

Lemma same_hash_same_chain k es1 : forall es2,
  Forall reencodes es1 -> Forall reencodes es2 ->
  signed_chain k auditZeroHash es1 -> signed_chain k auditZeroHash es2 ->
  last_hash auditZeroHash es1 = last_hash auditZeroHash es2 ->
  es1 = es2 \/ mac_collision k es1 es2 \/ zero_mac k es1 es2 \/ zero_mac k es2 es1.
Proof using Hlen.
  induction es1 as [|e1 es1 IH] using rev_ind; intros es2 R1 R2 S1 S2 Hl;
    (induction es2 as [|e2 es2 _] using rev_ind; [|]).
  - by left.
  - right; right; right. destruct (zero_hash k es2 e2 S2 ltac:(done)) as (a & t & H). by exists es2, e2, a, t.
  - right; right; left. destruct (zero_hash k es1 e1 S1 ltac:(done)) as (a & t & H). by exists es1, e1, a, t.
  - apply Forall_app in R1 as [R1 R1e]. apply Forall_app in R2 as [R2 R2e].
    rewrite Forall_singleton in R1e, R2e.
    apply signed_chain_app in S1 as [S1 (P1 & H1 & _)]. apply signed_chain_app in S2 as [S2 (P2 & H2 & _)].
    rewrite !last_hash_app in Hl. cbn in Hl.
    assert (String.length (al_PrevHash e1) = String.length (al_PrevHash e2)) as Hp
      by (rewrite P1, P2, !(hash_length k); done).
    destruct (same_hash_same_record k e1 e2 R1e R2e H1 H2 Hp Hl) as [->|(a1 & t1 & a2 & t2 & H)].
    + destruct (IH es2 R1 R2 S1 S2 ltac:(congruence)) as [->|[?|[?|?]]]; [by left| | |]; right.
      * left. by apply mac_collision_snoc.
      * right; left. by apply zero_mac_snoc.
      * right; right. by apply zero_mac_snoc.
    + right; left. by exists es1, e1, es2, e2, [], a1, t1, a2, t2.
Qed.
End proofs.

(** The records of a log, read line by line. *)
Definition log_entries (ce : ChainEnv) (content : string) : list AuditLog :=
  omap (fun l => match ce_Unmarshal ce l with Ok e => Some e | Err _ => None end)
    (record_lines (Split content newline)).

Lemma verified_entries ce content k : verifyAuditLines ce content k = Valid ->
  signed_chain ce k auditZeroHash (log_entries ce content).
Proof.
  intros (es & HF & Hc)%verify_lines_sound.
  enough (log_entries ce content = es) as -> by done. unfold log_entries. clear Hc.
  induction HF as [|l e ls es Hl _ IH]; [done|]. cbn. by rewrite Hl, IH.
Qed.

(** C14: two logs that verify under the same key and end with the same hash hold
    the same records, unless the last records in which they differ are a
    collision of the MAC, or one log is the end of the other and the record
    before it has a MAC of all zeros.  So changing, inserting, removing or
    reordering records changes the last hash, or exhibits such texts. *)
Theorem tamper_evident (ce : ChainEnv) (k c1 c2 : string) :
  (forall a k t, String.length (ce_hmac ce a k t) = 64) ->
  (forall l e, ce_Unmarshal ce l = Ok e -> reencodes ce e) ->
  verifyAuditLines ce c1 k = Valid -> verifyAuditLines ce c2 k = Valid ->
  last_hash auditZeroHash (log_entries ce c1) = last_hash auditZeroHash (log_entries ce c2) ->
  let es1 := log_entries ce c1 in let es2 := log_entries ce c2 in
  es1 = es2 \/ mac_collision ce k es1 es2 \/ zero_mac ce k es1 es2 \/ zero_mac ce k es2 es1.
Proof.
  intros Hlen Hre H1%verified_entries H2%verified_entries Hl.
  assert (forall c, Forall (reencodes ce) (log_entries ce c)) as HF.
  { intros c. apply Forall_forall. intros e He. unfold log_entries in He.
    apply list_elem_of_omap in He as (l & _ & He). destruct (ce_Unmarshal ce l) as [e'|] eqn:E; [|done].
    injection He as <-. by eapply Hre. }
  by apply same_hash_same_chain.
Qed.

(** ** Logs as text *)

Section text.
Context (ce : ChainEnv) (vars : AuditVars).

(** A record is written as this line. *)
Record encoded (e : AuditLog) (data : string) : Prop := {
  en_marshal : ce_Marshal ce e = Ok data;
  en_unmarshal : ce_Unmarshal ce data = Ok e;
  en_trimmed : TrimSpace data = data;
  en_nonempty : data <> "";
  en_one_line : str_has nl data = false;
  en_short : (Z.of_nat (String.length data) <= max_line)%Z
}.

Definition log_text (datas : list string) : string :=
  foldr (fun d t => d +:+ newline +:+ t) "" datas.

(** A log of records that are signed with the key. *)
Definition audit_log (k : string) (es : list AuditLog) (content : string) : Prop :=
  signed_chain ce k auditZeroHash es /\
  exists datas, Forall2 encoded es datas /\ content = log_text datas.

Lemma log_text_app ds ds' : log_text (ds ++ ds') = log_text ds +:+ log_text ds'.
Proof.
  induction ds as [|d ds IH]; [done|].
  change (log_text ((d :: ds) ++ ds')) with (d +:+ newline +:+ log_text (ds ++ ds')).
  change (log_text (d :: ds)) with (d +:+ newline +:+ log_text ds).
  by rewrite IH, !string_app_assoc.
Qed.

Lemma split_log_text datas : Forall (fun d => str_has nl d = false) datas ->
  split_char nl (log_text datas) = datas ++ [""].
Proof.
  induction 1 as [|d ds Hd _ IH]; [done|].
  change (log_text (d :: ds)) with (d +:+ String nl (log_text ds)).
  by rewrite split_char_app, split_char_none, IH.
Qed.

Lemma encoded_one_line es datas : Forall2 encoded es datas ->
  Forall (fun d => str_has nl d = false) datas.
Proof. induction 1; constructor; [by eapply en_one_line|done]. Qed.

Lemma verify_encoded k es datas : Forall2 encoded es datas -> forall prev n,
  prev <> "" -> signed_chain ce k prev es -> (forall e, e ∈ es -> al_CurrHash e <> "") ->
  verify_lines ce k prev n (datas ++ [""]) = Valid.
Proof.
  induction 1 as [|e d es ds He _ IH]; intros prev n Hp Hs Hne; [done|].
  destruct Hs as (Hprev & Hh & Hs). destruct He as [Hm Hu Ht Hnil Hnl Hle]. cbn [app verify_lines].
  rewrite (proj2 (Z.ltb_ge _ _)) by done. rewrite Ht, decide_False, Hu by done.
  rewrite decide_False by (intros [Hx _]; congruence).
  rewrite decide_False by (intros Hx; congruence).
  rewrite Hh, decide_False by (intros Hx; congruence).
  assert (al_CurrHash e <> "") as Hc by (apply Hne; left).
  apply IH; [done|done|]. intros e' He'. apply Hne. by right.
Qed.

Lemma audit_log_valid k es content : audit_log k es content ->
  (forall e, e ∈ es -> al_CurrHash e <> "") -> verifyAuditLines ce content k = Valid.
Proof.
  intros (Hs & datas & HF & ->) Hne. unfold verifyAuditLines.
  change newline with (String nl ""). rewrite Split_char, split_log_text by (by eapply encoded_one_line).
  by eapply verify_encoded.
Qed.

(** the public default key verifies everywhere: a log that anybody signed with
    the key in the source is accepted in every installation, also one whose
    own key is set in the environment. *)
Theorem forged_log_accepted (es : list AuditLog) (content : string) (io : AuditIO)
    (keyfile : option string) :
  audit_log auditDefaultKey es content -> (forall e, e ∈ es -> al_CurrHash e <> "") ->
  VerifyAuditChain ce vars io (mkDir (Some content) keyfile) = (true, 0, None).
Proof.
  intros Hl Hne. unfold VerifyAuditChain. cbn [ad_log].
  eapply try_keys_valid; [by eapply audit_log_valid|]. apply default_key_candidate.
Qed.

(** a log that lost its last records still verifies: nothing says how many
    there were. *)
Theorem truncated_log_accepted (k : string) (es lost : list AuditLog) (content : string)
    (io : AuditIO) (keyfile : option string) :
  audit_log k (es ++ lost) content -> (forall e, e ∈ es -> al_CurrHash e <> "") ->
  k ∈ auditKeyCandidates ce vars io (mkDir None keyfile) ->
  exists kept rest, content = kept +:+ rest /\ audit_log k es kept /\
    VerifyAuditChain ce vars io (mkDir (Some kept) keyfile) = (true, 0, None).
Proof.
  intros (Hs & datas & HF & ->) Hne Hk. apply Forall2_app_inv_l in HF as (d1 & d2 & H1 & H2 & ->).
  apply signed_chain_app in Hs as [Hs _]. exists (log_text d1), (log_text d2).
  assert (audit_log k es (log_text d1)) as Hkept by (split; [done|by exists d1]).
  split_and!; [apply log_text_app|done|]. unfold VerifyAuditChain. cbn [ad_log].
  eapply try_keys_valid; [by eapply audit_log_valid|]. done.
Qed.
End text.

(** ** Appending *)

Lemma str_drop_app_le n s t : n <= String.length s -> str_drop n (s +:+ t) = str_drop n s +:+ t.
Proof.
  revert n. induction s as [|c s IH]; intros [|n] Hn; cbn in *; try done; [lia|]. apply IH. lia.
Qed.
Lemma str_drop_all n s : String.length s <= n -> str_drop n s = "".
Proof. revert n. induction s as [|c s IH]; intros [|n] Hn; cbn in *; try done; [lia|]. apply IH. lia. Qed.

(** Whole lines: nothing, or a text that ends with a newline. *)
Definition whole_lines (s : string) : Prop := s = "" \/ exists t, s = t +:+ String nl "".

Lemma whole_lines_drop n s : whole_lines s -> whole_lines (str_drop n s).
Proof.
  intros [->|[t ->]]; [left; by destruct n|].
  destruct (decide (n <= String.length t)) as [Hle|Hgt].
  - right. exists (str_drop n t). by apply str_drop_app_le.
  - left. apply str_drop_all. rewrite string_length_app. cbn. lia.
Qed.

Lemma whole_lines_text ds : whole_lines (log_text ds).
Proof.
  induction ds as [|d ds IH]; [by left|]. right.
  change (log_text (d :: ds)) with (d +:+ String nl (log_text ds)).
  destruct IH as [->|[t ->]]; [by exists d|]. exists (d +:+ String nl t). by rewrite string_app_assoc.
Qed.

Lemma last_line_whole s data : whole_lines s -> TrimSpace data = data -> data <> "" ->
  str_has nl data = false -> last_line (s +:+ data +:+ newline) = Some data.
Proof.
  intros Hs Ht Hne Hnl. unfold last_line. change newline with (String nl "").
  assert (split_char nl (data +:+ String nl "") = [data; ""]) as Hd
    by (by rewrite split_char_app, split_char_none).
  assert (exists ps, split_char nl (s +:+ data +:+ String nl "") = ps ++ [data; ""]) as [ps Hps].
  { destruct Hs as [->|[t ->]]; [by exists []|]. exists (split_char nl t).
    rewrite string_app_assoc. cbn. by rewrite split_char_app, Hd. }
  rewrite Split_char, Hps, map_app, filter_app, last_app. cbn [map].
  rewrite Ht, filter_cons_True by done. by rewrite filter_cons_False by (by intros []).
Qed.

Section append.
Context (ce : ChainEnv) (vars : AuditVars).

(** The whole file and, when the last record fits, the window end with it. *)
Lemma last_line_text ds data : TrimSpace data = data -> data <> "" -> str_has nl data = false ->
  last_line (log_text (ds ++ [data])) = Some data /\
  ((Z.of_nat (String.length data) < tail_window)%Z ->
   last_line (tail_of (log_text (ds ++ [data]))) = Some data).
Proof.
  intros Ht Hne Hnl. rewrite log_text_app. change (log_text [data]) with (data +:+ newline).
  split; [apply last_line_whole; auto using whole_lines_text|]. intros Hw. unfold tail_of.
  rewrite str_drop_app_le.
  - apply last_line_whole; auto using whole_lines_drop, whole_lines_text.
  - rewrite !string_length_app. cbn. unfold tail_window in *. lia.
Qed.

(** The hash that the next record links to. *)
Lemma readLastAuditHash_log k es content io : (forall op, io_fault io op = None) ->
  audit_log ce k es content -> (forall e, e ∈ es -> al_CurrHash e <> "") ->
  ((Z.of_nat (String.length (default "" (last_line content))) < tail_window)%Z \/
   exists err, lastHashFromTail ce (tail_of content) = Err err) ->
  readLastAuditHash ce io (Some content) = Ok (last_hash auditZeroHash es).
Proof.
  intros Hio (Hs & datas & HF & ->) Hne Hwin. unfold readLastAuditHash. rewrite !Hio.
  destruct es as [|e es _] using rev_ind.
  { apply Forall2_nil_inv_l in HF as ->. done. }
  apply Forall2_app_inv_l in HF as (d1 & d2 & H1 & H2 & ->).
  apply Forall2_cons_inv_l in H2 as (data & ? & [Hm Hu Ht Hnil Hnl Hle] & ->%Forall2_nil_inv_l & ->).
  rewrite last_hash_app. cbn [last_hash].
  destruct (last_line_text d1 data Ht Hnil Hnl) as [Hl Htl].
  assert (al_CurrHash e <> "") as Hc by (apply Hne; apply elem_of_app; right; by left).
  assert (forall s, last_line s = Some data -> lastHashFromTail ce s = Ok (al_CurrHash e)) as Hh.
  { intros s Hsl. unfold lastHashFromTail. rewrite Hsl, Hu. by rewrite decide_False. }
  rewrite decide_False.
  2:{ rewrite log_text_app. change (log_text [data]) with (data +:+ newline). intros E.
      apply (f_equal String.length) in E. rewrite !string_length_app in E. cbn in E. lia. }
  rewrite Hl in Hwin. cbn in Hwin. destruct Hwin as [Hfit|[err Herr]].
  - by rewrite (Hh _ (Htl Hfit)).
  - by rewrite Herr, (Hh _ Hl).
Qed.
End append.

(** appending extends the chain: to a log of records signed with the key that
    is chosen for the new one, [AppendAuditLog] adds one line, and the longer
    log is again a chain under that key, so that it verifies wherever the key
    is a candidate.  The last record fits in the window of 8 KiB, or the
    window does not parse and the whole file is read. *)
Theorem append_extends_chain (ce : ChainEnv) (vars : AuditVars) (io : AuditIO) (d d1 : AuditDir)
    (k algo h data : string) (es : list AuditLog) (e : AuditLog) (content : string) :
  (forall op, io_fault io op = None) -> ad_log d = Some content ->
  resolveAuditMACAlgo ce (av_algo vars) = Ok algo ->
  auditKeyForAppend ce vars io d = (Ok k, d1) -> ad_log d1 = ad_log d ->
  audit_log ce k es content -> (forall x, x ∈ es -> al_CurrHash x <> "") ->
  ((Z.of_nat (String.length (default "" (last_line content))) < tail_window)%Z \/
   exists err, lastHashFromTail ce (tail_of content) = Err err) ->
  let new := stamped io algo (last_hash auditZeroHash es) e in
  computeAuditHash ce k new = Ok h -> h <> "" -> encoded ce (set_curr h new) data ->
  let d' := mkDir (Some (content +:+ data +:+ newline)) (ad_keyfile d1) in
  AppendAuditLog ce vars io e d = (None, d') /\
  audit_log ce k (es ++ [set_curr h new]) (content +:+ data +:+ newline) /\
  (k ∈ auditKeyCandidates ce vars io d' -> VerifyAuditChain ce vars io d' = (true, 0, None)).
Proof.
  intros Hio Hlog Halgo Hkey Hsame Hch Hne Hwin new Hh Hh0 Henc d'.
  assert (audit_log ce k (es ++ [set_curr h new]) (content +:+ data +:+ newline)) as Hnew.
  { destruct Hch as (Hs & datas & HF & ->). split.
    - apply signed_chain_app. split; [done|]. cbn. done.
    - exists (datas ++ [data]). split; [by apply Forall2_app; [|constructor; [|constructor]]|].
      by rewrite log_text_app. }
  split_and!; [|done|].
  - unfold AppendAuditLog. rewrite !Hio, Halgo, Hlog.
    rewrite (readLastAuditHash_log ce k es content io) by done. rewrite Hkey.
    fold new. rewrite Hh, (en_marshal _ _ _ Henc). unfold append_line. rewrite !Hio, Hsame, Hlog. done.
  - intros Hk. unfold VerifyAuditChain, d'. cbn [ad_log].
    eapply try_keys_valid; [|exact Hk]. eapply audit_log_valid; [done|].
    intros x [Hx|Hx%list_elem_of_singleton]%elem_of_app; [by apply Hne|by subst].
Qed.

(** ** A small installation *)

(** Records with an id and a detail, separated by bars; a MAC that keeps the
    first 64 bytes of key and text. *)
Definition demo_marshal (e : AuditLog) : result string :=
  Ok (Join [al_ID e; al_PrevHash e; al_CurrHash e; al_MACAlgo e; al_Detail e] "|").
Definition demo_unmarshal (s : string) : result AuditLog :=
  match Split s "|" with
  | [id; prev; curr; algo; detail] =>
      Ok (mkAudit id 1 "" "" "" detail true "" "" prev curr algo)
  | _ => Err "unexpected end of JSON input"
  end.
Definition no_bar (c : ascii) : ascii := if decide (c = "|"%char) then "."%char else c.
Definition demo_chain : ChainEnv :=
  mkChainEnv (fun a k t => str_map no_bar (str_take 64 (k +:+ string_rev t +:+ auditZeroHash))) (fun p => "pw-" +:+ p)
    demo_marshal demo_unmarshal (fun s => s) (fun s => s).

Lemma demo_reencodes l e : ce_Unmarshal demo_chain l = Ok e -> reencodes demo_chain e.
Proof.
  cbn. unfold demo_unmarshal. destruct (Split l "|") as [|id [|prev [|curr [|algo [|detail []]]]]] eqn:E;
    try done. intros [= <-] data. cbn. intros [= <-].
  assert (forall p, p ∈ [id; prev; curr; algo; detail] -> str_has "|"%char p = false) as Hc.
  { intros p Hp. rewrite <- E, Split_char in Hp. by eapply split_char_clean. }
  unfold demo_unmarshal. rewrite Split_char.
  change (id +:+ _) with (id +:+ String "|" (prev +:+ String "|" ("" +:+ String "|" (algo +:+ String "|" detail)))).
  rewrite !split_char_app, !split_char_none; first [done|apply Hc; set_solver].
Qed.

Lemma demo_hmac_length a k t : String.length (ce_hmac demo_chain a k t) = 64.
Proof.
  cbn [ce_hmac demo_chain].
  assert (forall n s, n <= String.length s -> String.length (str_take n s) = n) as Htake.
  { intros n s. revert n. induction s as [|c s IH]; intros [|n] Hn; cbn in *; try lia. by rewrite IH by lia. }
  assert (forall s, String.length (str_map no_bar s) = String.length s) as Hmap
    by (induction s as [|c s IH]; cbn; [done|by rewrite IH]).
  rewrite Hmap. apply Htake. rewrite !string_length_app. change (String.length auditZeroHash) with 64. lia.
Qed.

Definition demo_vars (key password : string) : AuditVars := mkVars key password "".
Definition demo_io (now : Z) : AuditIO := mkIO (fun _ => None) 0 "random-key" now.
Definition demo_event (id detail : string) : AuditLog :=
  mkAudit id 1 "" "" "" detail true "" "" "" "" "".

(** Append records one after another. *)
Definition append_all (vars : AuditVars) (es : list AuditLog) (d : AuditDir) : AuditDir :=
  fold_left (fun d e => (AppendAuditLog demo_chain vars (demo_io 7) e d).2) es d.

Fixpoint repeat_char (n : nat) (c : ascii) : string :=
  match n with O => "" | S n => String c (repeat_char n c) end.
Definition long_detail : string := repeat_char (Z.to_nat 8300) "x"%char.

(** a record longer than the window of 8 KiB makes the chain unverifiable: the
    key of the chain is looked up in the window only, so behind a long record
    an append with a password in the environment signs with the derived key
    instead of the chain's, and verification breaks at that line for good.
    Behind a short record the same append keeps the chain's key. *)
Theorem long_record_switches_key :
  let start := append_all (demo_vars "" "") [demo_event "1" "a"] (mkDir None None) in
  let vars := demo_vars "" "secret" in
  let io := demo_io 7 in
  let short := append_all vars [demo_event "2" "b"; demo_event "3" "c"] start in
  let long := append_all vars [demo_event "2" long_detail; demo_event "3" "c"] start in
  VerifyAuditChain demo_chain vars io short = (true, 0, None) /\
  (AppendAuditLog demo_chain vars io (demo_event "3" "c")
     (append_all vars [demo_event "2" long_detail] start)).1 = None /\
  VerifyAuditChain demo_chain vars io long = (false, 1, None).
Proof. split_and!; vm_compute; reflexivity. Qed.

(** A log of two records signed with a key, its records and its lines. *)
Definition two_records (key : string) : AuditDir :=
  append_all (demo_vars key "") [demo_event "1" "login"; demo_event "2" "transfer"] (mkDir None None).
Definition demo_text (key : string) : string := default "" (ad_log (two_records key)).
Definition demo_lines (key : string) : list string := record_lines (Split (demo_text key) newline).

Ltac by_computing :=
  repeat match goal with
  | |- Forall2 _ _ _ => constructor
  | |- encoded _ _ _ => constructor
  | |- _ /\ _ => split
  | |- True => exact I
  | _ => vm_compute; (reflexivity || discriminate)
  end.

Lemma demo_log_ok : audit_log demo_chain auditDefaultKey
  (log_entries demo_chain (demo_text auditDefaultKey)) (demo_text auditDefaultKey).
Proof.
  split; [vm_compute; by_computing|]. exists (demo_lines auditDefaultKey).
  split; [|vm_compute; reflexivity].
  set (es := log_entries _ _). set (ds := demo_lines _). vm_compute in es, ds. subst es ds. by_computing.
Defined.

Lemma demo_hashes_set e :
  e ∈ log_entries demo_chain (demo_text auditDefaultKey) -> al_CurrHash e <> "".
Proof.
  set (es := log_entries _ _). vm_compute in es. subst es.
  intros [->|[->|[]%elem_of_nil]%elem_of_cons]%elem_of_cons; discriminate.
Defined.

(** Signed by nobody who knows the installation's key. *)
Lemma forged_log_accepted_witness :
  VerifyAuditChain demo_chain (demo_vars "own-key" "secret") (demo_io 9)
    (mkDir (Some (demo_text auditDefaultKey)) (Some "file-key")) = (true, 0, None).
Proof.
  apply (forged_log_accepted demo_chain (demo_vars "own-key" "secret")
    (log_entries demo_chain (demo_text auditDefaultKey))); [exact demo_log_ok|exact demo_hashes_set].
Defined.

Lemma tamper_evident_witness :
  let log := demo_text auditDefaultKey in let es := log_entries demo_chain log in
  newline +:+ log <> log /\ length es = 2 /\
  let es1 := log_entries demo_chain (newline +:+ log) in
  (es1 = es \/ mac_collision demo_chain auditDefaultKey es1 es \/
   zero_mac demo_chain auditDefaultKey es1 es \/ zero_mac demo_chain auditDefaultKey es es1).
Proof.
  intros log es. split; [vm_compute; discriminate|]. split; [vm_compute; reflexivity|].
  apply (tamper_evident demo_chain auditDefaultKey);
    [exact demo_hmac_length|exact demo_reencodes|vm_compute; reflexivity..].
Defined.

Lemma truncated_log_accepted_witness :
  exists kept rest, demo_text auditDefaultKey = kept +:+ rest /\
    audit_log demo_chain auditDefaultKey
      (take 1 (log_entries demo_chain (demo_text auditDefaultKey))) kept /\
    VerifyAuditChain demo_chain (demo_vars "own-key" "") (demo_io 9) (mkDir (Some kept) None)
    = (true, 0, None).
Proof.
  apply (truncated_log_accepted demo_chain (demo_vars "own-key" "") auditDefaultKey
    (take 1 (log_entries demo_chain (demo_text auditDefaultKey)))
    (drop 1 (log_entries demo_chain (demo_text auditDefaultKey)))
    (demo_text auditDefaultKey) (demo_io 9) None).
  - rewrite take_drop. exact demo_log_ok.
  - intros e He. apply demo_hashes_set. rewrite <- (take_drop 1). apply elem_of_app. by left.
  - vm_compute. right. by left.
Defined.

(** A third record behind the two. *)
Definition third_record : AuditLog :=
  stamped (demo_io 7) "sha256"
    (last_hash auditZeroHash (log_entries demo_chain (demo_text auditDefaultKey)))
    (demo_event "3" "logout").
Definition third_hash : string :=
  match computeAuditHash demo_chain auditDefaultKey third_record with Ok h => h | Err _ => "" end.
Definition third_line : string :=
  match demo_marshal (set_curr third_hash third_record) with Ok s => s | Err _ => "" end.

Lemma third_encoded : encoded demo_chain (set_curr third_hash third_record) third_line.
Proof. constructor; vm_compute; (reflexivity || discriminate). Defined.

Lemma append_extends_chain_witness :
  let d := two_records auditDefaultKey in
  let d' := append_all (demo_vars auditDefaultKey "") [demo_event "3" "logout"] d in
  VerifyAuditChain demo_chain (demo_vars auditDefaultKey "") (demo_io 7) d' = (true, 0, None).
Proof.
  intros d d'.
  destruct (append_extends_chain demo_chain (demo_vars auditDefaultKey "") (demo_io 7) d d
    auditDefaultKey "sha256" third_hash third_line
    (log_entries demo_chain (demo_text auditDefaultKey)) (demo_event "3" "logout")
    (demo_text auditDefaultKey) (fun _ => eq_refl) ltac:(vm_compute; reflexivity)
    ltac:(vm_compute; reflexivity) ltac:(vm_compute; reflexivity) eq_refl demo_log_ok demo_hashes_set
    ltac:(left; vm_compute; reflexivity) ltac:(vm_compute; reflexivity) ltac:(vm_compute; discriminate)
    third_encoded) as (Ha & _ & Hv).
  unfold d', append_all. cbn [fold_left]. rewrite Ha. apply Hv. vm_compute. by left.
Defined.
