(* ===== verification/StructuredOutput.v ===== *)
(** * Structured output and output contracts
    (src/internal/nodes/structured_output.go)

    Extraction of a JSON object from a model's answer, validation against a
    schema (a subset of JSON Schema draft-07), the retry loop around the
    model, and [ValidateJSONAgainstSchema], the check that the executors make
    of a step's output.  A violation carries what its message prints; JSON
    itself and the model are parameters. *)

From S2P Require Import Prelude GoStrings GoTime GoFloat GoText JsonPath Effects.
From Stdlib Require Import Ascii SpecFloat.

#[local] Open Scope string_scope.
#[local] Open Scope Z_scope.

Definition schema : Type := list (string * json).

Inductive violation :=
  | VType (path t got : string)
  | VEnum (path : string)
  | VMissing (path name : string)
  | VAdditional (path key : string)
  | VBound (path keyword : string).

(** ** Values *)

Definition goTypeName (v : json) : string :=
  match v with
  | JNull => "null" | JBool _ => "boolean" | JNum _ => "number" | JStr _ => "string"
  | JArr _ => "array" | JObj _ => "object"
  end.

(** A number without fraction, as far as int64 reaches. *)
Definition is_integer (f : float64) : bool := SFeqb f (f64_of_Z (f64_to_int64 f)).

Definition type_matches (v : json) (t : string) : bool :=
  match v with
  | JNull => bool_decide (t = "null")
  | JBool _ => bool_decide (t = "boolean")
  | JNum f => bool_decide (t = "number") || (bool_decide (t = "integer") && is_integer f)
  | JStr _ => bool_decide (t = "string")
  | JArr _ => bool_decide (t = "array")
  | JObj _ => bool_decide (t = "object")
  end.

(** A field that is missing in [b] reads as null. *)
Fixpoint valuesEqual (a b : json) : bool :=
  match a with
  | JNum x => match b with JNum y => SFeqb x y | _ => false end
  | JStr x => match b with JStr y => bool_decide (x = y) | _ => false end
  | JBool x => match b with JBool y => Bool.eqb x y | _ => false end
  | JNull => match b with JNull => true | _ => false end
  | JArr la =>
      match b with
      | JArr lb =>
          (fix go (la lb : list json) : bool :=
             match la, lb with
             | [], [] => true
             | x :: la, y :: lb => valuesEqual x y && go la lb
             | _, _ => false
             end) la lb
      | _ => false
      end
  | JObj la =>
      match b with
      | JObj lb =>
          Nat.eqb (length la) (length lb) &&
          forallb (fun kv => valuesEqual kv.2 (default JNull (obj_get lb kv.1))) la
      | _ => false
      end
  end.

(** ** Reading a schema *)

Definition str_keyword (s : schema) (key : string) : option string :=
  match obj_get s key with Some (JStr t) => Some t | _ => None end.
Definition arr_keyword (s : schema) (key : string) : option (list json) :=
  match obj_get s key with Some (JArr l) => Some l | _ => None end.
Definition obj_keyword (s : schema) (key : string) : option schema :=
  match obj_get s key with Some (JObj l) => Some l | _ => None end.
Definition numFromSchema (s : schema) (key : string) : option float64 :=
  match obj_get s key with Some (JNum f) => Some f | _ => None end.
(** [int(n)]. *)
Definition intFromSchema (s : schema) (key : string) : option Z :=
  f64_to_int64 <$> numFromSchema s key.

Definition joinPath (base key : string) : string :=
  if decide (base = "") then "/" +:+ key else base +:+ "/" +:+ key.
Definition pathDesc (path : string) : string := if decide (path = "") then "root" else path.

(** ** Validation *)

Definition orelse (a b : option violation) : option violation :=
  match a with Some v => Some v | None => b end.
Definition fails_when (c : bool) (v : violation) : option violation := if c then Some v else None.

Definition validateType (v : json) (t path : string) : option violation :=
  fails_when (negb (type_matches v t)) (VType (pathDesc path) t (goTypeName v)).

(** An integer or number keyword that is set and violated. *)
Definition int_bound (s : schema) (key path : string) (bad : Z -> bool) : option violation :=
  match intFromSchema s key with
  | Some n => fails_when (bad n) (VBound (pathDesc path) key)
  | None => None
  end.
Definition num_bound (s : schema) (key path : string) (bad : float64 -> bool) : option violation :=
  match numFromSchema s key with
  | Some n => fails_when (bad n) (VBound (pathDesc path) key)
  | None => None
  end.

Definition validateString (x : string) (s : schema) (path : string) : option violation :=
  let len := Z.of_nat (String.length x) in
  orelse (int_bound s "minLength" path (fun n => len <? n))
         (int_bound s "maxLength" path (fun n => n <? len)).

Definition validateNumber (x : float64) (s : schema) (path : string) : option violation :=
  orelse (num_bound s "minimum" path (fun v => SFltb x v))
 (orelse (num_bound s "maximum" path (fun v => SFltb v x))
 (orelse (num_bound s "exclusiveMinimum" path (fun v => SFleb x v))
         (num_bound s "exclusiveMaximum" path (fun v => SFleb v x)))).

(** The first required property that is missing. *)
Fixpoint check_required (obj : list (string * json)) (path : string) (req : list json)
    : option violation :=
  match req with
  | [] => None
  | r :: req =>
      let name := match r with JStr n => n | _ => "" end in
      if decide (name = "") then check_required obj path req
      else match obj_get obj name with
           | Some _ => check_required obj path req
           | None => Some (VMissing (pathDesc path) name)
           end
  end.

Definition first_violation {A} (f : A -> option violation) : list A -> option violation :=
  fix go l := match l with [] => None | a :: l => orelse (f a) (go l) end.

Definition array_bounds (l : list json) (s : schema) (path : string) : option violation :=
  let len := Z.of_nat (length l) in
  orelse (int_bound s "minItems" path (fun n => len <? n))
         (int_bound s "maxItems" path (fun n => n <? len)).

Definition property_schema (s : schema) (k : string) : option schema :=
  match obj_keyword s "properties" with Some props => obj_keyword props k | None => None end.

Fixpoint validateAgainstSchema (v : json) (s : schema) (path : string) : option violation :=
  orelse match str_keyword s "type" with Some t => validateType v t path | None => None end
 (orelse match arr_keyword s "enum" with
         | Some enum => fails_when (negb (existsb (valuesEqual v) enum)) (VEnum (pathDesc path))
         | None => None
         end
  match v with
  | JObj obj =>
      orelse match arr_keyword s "required" with
             | Some req => check_required obj path req | None => None end
        (first_violation (fun kv =>
           match property_schema s kv.1 with
           | Some sub => validateAgainstSchema kv.2 sub (joinPath path kv.1)
           | None =>
               match obj_get s "additionalProperties" with
               | Some (JBool false) => Some (VAdditional (pathDesc path) kv.1)
               | Some (JObj sub) => validateAgainstSchema kv.2 sub (joinPath path kv.1)
               | _ => None
               end
           end) obj)
  | JArr l =>
      orelse match obj_keyword s "items" with
             | Some items =>
                 (fix go (i : Z) (l : list json) : option violation :=
                    match l with
                    | [] => None
                    | x :: l => orelse (validateAgainstSchema x items (path +:+ "/" +:+ Itoa i))
                                       (go (i + 1) l)
                    end) 0 l
             | None => None
             end
        (array_bounds l s path)
  | JStr x => validateString x s path
  | JNum x => validateNumber x s path
  | JBool _ | JNull => None
  end).

(** ** Extraction *)

Definition fence : string := "```".
Definition backslash : ascii := "\"%char.
Definition quote : ascii := ascii_of_nat 34.

Definition TrimSuffix (s suf : string) : string :=
  if HasSuffix s suf then str_take (String.length s - String.length suf) s else s.

(** The answer without its code fence. *)
Definition strip_fence (s : string) : string :=
  if HasPrefix s fence then
    let s := match Index s newline with Some i => str_drop (i + 1) s | None => s end in
    TrimSpace (TrimSuffix (TrimSpace s) fence)
  else s.

(** The state of the brace scanner. *)
Record scan := mkScan { sc_depth : Z; sc_inStr : bool; sc_escape : bool }.
Definition scan_start : scan := mkScan 0 false false.

(** One byte: the next state, and whether an object is complete. *)
Definition scan_byte (st : scan) (c : ascii) : scan * bool :=
  if sc_escape st then (mkScan (sc_depth st) (sc_inStr st) false, false)
  else if bool_decide (c = backslash) && sc_inStr st then (mkScan (sc_depth st) true true, false)
  else if decide (c = quote) then (mkScan (sc_depth st) (negb (sc_inStr st)) false, false)
  else if sc_inStr st then (st, false)
  else if decide (c = "{"%char) then (mkScan (sc_depth st + 1) false false, false)
  else if decide (c = "}"%char) then
    (mkScan (sc_depth st - 1) false false, bool_decide (sc_depth st - 1 = 0))
  else (st, false).

(** The text up to the byte that completes the object. *)
Fixpoint scan_object (st : scan) (s : string) : option string :=
  match s with
  | "" => None
  | String c s =>
      let '(st, complete) := scan_byte st c in
      if complete then Some (String c "") else String c <$> scan_object st s
  end.

Definition extractJSON (s : string) : result string :=
  let s := TrimSpace s in
  if decide (s = "") then Err "empty response" else
  let s := strip_fence s in
  match Index s "{" with
  | None => Err "no JSON object found in response"
  | Some start =>
      match scan_object scan_start (str_drop start s) with
      | Some obj => Ok obj
      | None => Err "unbalanced JSON object in response"
      end
  end.

(** ** Contracts of steps, and the node *)

Section node.
Context (codec : json_codec) (Quote : string -> string) (render : violation -> string).

Definition validateRootSchema (s : schema) : option error :=
  let t := default "" (str_keyword s "type") in
  if decide (t = "object") then None
  else Some ("root schema must have " +:+ Quote "type" +:+ ":" +:+ Quote "object" +:+ ", got " +:+ Quote t).

(** [json.Unmarshal] into a map: null gives a nil map. *)
Definition decode_schema (text : string) : result schema :=
  match json_Unmarshal codec text with
  | Err e => Err e
  | Ok (JObj l) => Ok l
  | Ok JNull => Ok []
  | Ok _ => Err "json: cannot unmarshal into map"
  end.

Definition ValidateJSONAgainstSchema (output schemaJSON : string) : option error :=
  match decode_schema schemaJSON with
  | Err e => Some ("invalid output_schema (must be a JSON Schema object): " +:+ e)
  | Ok s =>
      match validateRootSchema s with
      | Some e => Some ("invalid output_schema: " +:+ e)
      | None =>
          match extractJSON output with
          | Err e => Some ("output is not a JSON object: " +:+ e)
          | Ok text =>
              match json_Unmarshal codec text with
              | Err e => Some ("output is not valid JSON: " +:+ e)
              | Ok v => render <$> validateAgainstSchema v s ""
              end
          end
      end
  end.

(** One answer of the model: the validated value or what is fed back. *)
Definition judge (s : schema) (raw : string) : json + error :=
  match extractJSON raw with
  | Err e => inr ("could not extract JSON from response: " +:+ e)
  | Ok text =>
      match json_Unmarshal codec text with
      | Err e => inr ("response is not valid JSON: " +:+ e)
      | Ok v => match validateAgainstSchema v s "" with
                | Some viol => inr (render viol)
                | None => inl v
                end
      end
  end.

Definition feedback (input err : string) : string :=
  input +:+ newline +:+ newline +:+ "Your previous output failed validation:" +:+ newline +:+ err +:+
  newline +:+ newline +:+ "Please return ONLY a corrected JSON object that conforms to the schema.".

(** [llm] calls the model with a user message; [marshal] is the compact or the
    indented encoder. *)
Context {W : Type} (llm : string -> M W (string * option error)) (marshal : json -> result string).

Fixpoint attempts (s : schema) (input : string) (maxRetries : Z) (lastErr : option error)
    (tries : nat) : M W (string * option error) :=
  match tries with
  | O => mret ("", Some ("structured_output: failed after " +:+ Itoa maxRetries +:+ " retries: " +:+
                         default "" lastErr))
  | S tries =>
      let msg := match lastErr with Some e => feedback input e | None => input end in
      '(raw, err) ← llm msg;
      match err with
      | Some e => mret ("", Some ("structured_output: LLM call failed: " +:+ e))
      | None =>
          match judge s raw with
          | inr e => attempts s input maxRetries (Some e) tries
          | inl v =>
              mret match marshal v with
                   | Ok out => (out, None)
                   | Err e => ("", Some ("structured_output: failed to marshal validated output: " +:+ e))
                   end
          end
      end
  end.

(** [max_retries], between 0 and 5. *)
Definition max_retries (params : gmap string string) : Z :=
  let text := match params !! "max_retries" with Some v => if decide (v = "") then "2" else v | None => "2" end in
  Z.max 0 (Z.min 5 (default 2 (Atoi text))).

Definition structured_Execute (input : string) (params : gmap string string)
    : M W (string * option error) :=
  let schemaStr := TrimSpace (default "" (params !! "schema")) in
  if decide (schemaStr = "") then
    mret ("", Some ("structured_output: " +:+ Quote "schema" +:+ " param is required"))
  else match decode_schema schemaStr with
  | Err e => mret ("", Some ("structured_output: schema must be valid JSON: " +:+ e))
  | Ok s =>
      match validateRootSchema s with
      | Some e => mret ("", Some ("structured_output: invalid schema: " +:+ e))
      | None =>
          let maxRetries := max_retries params in
          attempts s input maxRetries None (Z.to_nat (maxRetries + 1))
      end
  end.
End node.

(** ** Conformance *)

(** A schema that a part of a value must satisfy. *)
Inductive part (s : schema) : json -> schema -> json -> Prop :=
  | part_property obj k v sub : (k, v) ∈ obj -> property_schema s k = Some sub ->
      part s (JObj obj) sub v
  | part_additional obj k v sub : (k, v) ∈ obj -> property_schema s k = None ->
      obj_get s "additionalProperties" = Some (JObj sub) -> part s (JObj obj) sub v
  | part_item l v sub : v ∈ l -> obj_keyword s "items" = Some sub -> part s (JArr l) sub v.

(** The types by name; an integer is a number whose value is one of int64. *)
Inductive has_type : json -> string -> Prop :=
  | type_null : has_type JNull "null"
  | type_boolean b : has_type (JBool b) "boolean"
  | type_number f : has_type (JNum f) "number"
  | type_integer f n : f64_is_int f n -> in_int64 n = true -> has_type (JNum f) "integer"
  | type_string x : has_type (JStr x) "string"
  | type_array l : has_type (JArr l) "array"
  | type_object l : has_type (JObj l) "object".

(** Equality of JSON values, whose objects have each key once: the fields of
    one are those of the other.  With [lax], a field that the other object
    does not have equals null. *)
Inductive equals (lax : bool) : json -> json -> Prop :=
  | equals_null : equals lax JNull JNull
  | equals_bool b : equals lax (JBool b) (JBool b)
  | equals_num x y : SFeqb x y = true -> equals lax (JNum x) (JNum y)
  | equals_str x : equals lax (JStr x) (JStr x)
  | equals_arr la lb : Forall2 (equals lax) la lb -> equals lax (JArr la) (JArr lb)
  | equals_obj la lb : length la = length lb ->
      (forall k v w, (k, v) ∈ la -> obj_get lb k = Some w -> equals lax v w) ->
      (forall k v, (k, v) ∈ la -> obj_get lb k = None -> lax = true /\ v = JNull) ->
      equals lax (JObj la) (JObj lb).

(** No field of an object is null. *)
Inductive null_free : json -> Prop :=
  | null_free_null : null_free JNull
  | null_free_bool b : null_free (JBool b)
  | null_free_num f : null_free (JNum f)
  | null_free_str x : null_free (JStr x)
  | null_free_arr l : (forall v, v ∈ l -> null_free v) -> null_free (JArr l)
  | null_free_obj l : (forall k v, (k, v) ∈ l -> v <> JNull) -> (forall k v, (k, v) ∈ l -> null_free v) ->
      null_free (JObj l).

(** The numbers are float64 values, as they are decoded. *)
Inductive decoded : json -> Prop :=
  | decoded_null : decoded JNull
  | decoded_bool b : decoded (JBool b)
  | decoded_num f : is_float64 f -> decoded (JNum f)
  | decoded_str x : decoded (JStr x)
  | decoded_arr l : (forall v, v ∈ l -> decoded v) -> decoded (JArr l)
  | decoded_obj l : (forall k v, (k, v) ∈ l -> decoded v) -> decoded (JObj l).

(** The conditions on a value itself. *)
Record fits (lax : bool) (s : schema) (v : json) : Prop := {
  fits_type : forall t, str_keyword s "type" = Some t -> has_type v t;
  fits_enum : forall l, arr_keyword s "enum" = Some l -> exists c, c ∈ l /\ equals lax v c;
  fits_required : forall obj req name, v = JObj obj -> arr_keyword s "required" = Some req ->
    JStr name ∈ req -> name <> "" -> is_Some (obj_get obj name);
  fits_closed : forall obj k w, v = JObj obj -> (k, w) ∈ obj -> property_schema s k = None ->
    obj_get s "additionalProperties" <> Some (JBool false);
  fits_items : forall l n, v = JArr l ->
    (intFromSchema s "minItems" = Some n -> n <= Z.of_nat (length l)) /\
    (intFromSchema s "maxItems" = Some n -> Z.of_nat (length l) <= n);
  fits_length : forall x n, v = JStr x ->
    (intFromSchema s "minLength" = Some n -> n <= Z.of_nat (String.length x)) /\
    (intFromSchema s "maxLength" = Some n -> Z.of_nat (String.length x) <= n);
  fits_range : forall x b, v = JNum x ->
    (numFromSchema s "minimum" = Some b -> SFltb x b = false) /\
    (numFromSchema s "maximum" = Some b -> SFltb b x = false) /\
    (numFromSchema s "exclusiveMinimum" = Some b -> SFleb x b = false) /\
    (numFromSchema s "exclusiveMaximum" = Some b -> SFleb b x = false)
}.

Inductive conforms (lax : bool) : schema -> json -> Prop :=
  | conforms_intro s v : fits lax s v -> (forall sub w, part s v sub w -> conforms lax sub w) -> conforms lax s v.

Lemma type_matches_spec v t : decoded v -> type_matches v t = true <-> has_type v t.
Proof.
  intros Hd. destruct v as [|b|f|x|l|l]; cbn [type_matches]; rewrite ?bool_decide_eq_true;
    try (split; [intros ->; constructor|by inversion 1]).
  rewrite orb_true_iff, andb_true_iff, !bool_decide_eq_true. inversion Hd as [| |f' Hf| | |]; subst. split.
  - intros [->|[-> Hi]]; [constructor|]. unfold is_integer, f64_to_int64 in Hi.
    destruct f as [s|s| |s m e]; [by apply (type_integer _ 0)|by destruct s|done|].
    destruct (in_int64 (f64_trunc _)) eqn:Hr; [by eapply type_integer; [apply f64_trunc_int|]|].
    exfalso. assert (f64_of_Z int64_min = S754_finite true 4503599627370496 11) as E by (vm_compute; reflexivity).
    rewrite E in Hi. rewrite (SFeqb_finite _ _ _ _ _ _ Hi) in Hr. vm_compute in Hr. discriminate.
  - inversion 1 as [| |f' |f' n Hn Hr| | |]; subst; [by left|right]. split; [done|].
    unfold is_integer, f64_to_int64. destruct f as [s|s| |s m e]; [by destruct s|done|done|].
    assert (f64_trunc (S754_finite s m e) = n) as ->; [|rewrite Hr; by apply f64_of_int].
    cbn in Hn |- *. destruct (Z.leb_spec 0 e).
    + rewrite (Z.max_l 0 (- e)), (Z.max_r 0 e), Z.mul_1_r in Hn by lia. by destruct s.
    + rewrite (Z.max_r 0 (- e)), (Z.max_l 0 e), Z.mul_1_r in Hn by lia. assert (0 < 2 ^ (- e)) by lia.
      destruct s; cbn in Hn.
      * replace (Z.pos m) with (- n * 2 ^ (- e)) by lia. rewrite Z.div_mul by lia. lia.
      * rewrite <- Hn. by rewrite Z.div_mul by lia.
Qed.

Lemma valuesEqual_spec a : forall b, valuesEqual a b = true <-> equals true a b.
Proof.
  induction a as [|x|x|x|la IH|la IH] using json_nested_ind; intros b; cbn [valuesEqual].
  - destruct b; try (split; [done|by inversion 1]). split; [constructor|done].
  - destruct b; try (split; [done|by inversion 1]). rewrite eqb_true_iff. split; [intros ->; constructor|by inversion 1].
  - destruct b; try (split; [done|by inversion 1]). split; [by constructor|by inversion 1].
  - destruct b; try (split; [done|by inversion 1]). rewrite bool_decide_eq_true. split; [intros ->; constructor|by inversion 1].
  - destruct b as [| | | |lb|]; try (split; [done|by inversion 1]).
    transitivity (Forall2 (equals true) la lb); [|split; [by constructor|by inversion 1]].
    revert lb. induction IH as [|x la Hx _ IHl]; intros [|y lb]; try (split; [done|by inversion 1]).
    rewrite andb_true_iff, Hx, IHl, Forall2_cons. done.
  - destruct b as [| | | | |lb]; try (split; [done|by inversion 1]).
    rewrite andb_true_iff, Nat.eqb_eq, forallb_forall. rewrite Forall_forall in IH. split.
    + intros [Hl H]. constructor; [done| |].
      * intros k v w Hin Hw. specialize (H (k, v) (proj1 (list_elem_of_In _ _) Hin)). cbn in H. rewrite Hw in H.
        by apply (IH _ Hin) in H.
      * intros k v Hin Hw. specialize (H (k, v) (proj1 (list_elem_of_In _ _) Hin)). cbn in H. rewrite Hw in H.
        split; [done|]. apply (IH _ Hin) in H. cbn in H. by inversion H.
    + inversion 1 as [| | | | |la' lb' Hl H1 H2]; subst. split; [done|]. intros [k v] Hin%list_elem_of_In. cbn.
      apply (IH _ Hin). cbn. destruct (obj_get lb k) as [w|] eqn:Ew; [by apply (H1 k)|].
      destruct (H2 k v Hin Ew) as [_ ->]. constructor.
Qed.

(** Without null fields there is one equality. *)
Lemma equals_null_free v : null_free v -> forall c, equals true v c <-> equals false v c.
Proof.
  induction v as [|x|x|x|l IH|l IH] using json_nested_ind; intros Hn c; try (split; inversion 1; subst; by constructor).
  - inversion Hn as [| | | |l' H|]; subst. split; inversion 1 as [| | | |la lb HF|]; subst; constructor.
    + induction HF as [|x y la lb Hx HF IHF]; constructor; rewrite Forall_cons in IH.
      * apply IH; [apply H; left|done].
      * apply IHF; [apply IH|by constructor; intros; apply H; right| |by constructor]. intros v Hv. apply H. by right.
    + induction HF as [|x y la lb Hx HF IHF]; constructor; rewrite Forall_cons in IH.
      * apply IH; [apply H; left|done].
      * apply IHF; [apply IH|by constructor; intros; apply H; right| |by constructor]. intros v Hv. apply H. by right.
  - inversion Hn as [| | | | |l' H1 H2]; subst. rewrite Forall_forall in IH.
    split; inversion 1 as [| | | | |la lb Hl G1 G2]; subst; (constructor; [done| |]).
    + intros k v w Hin Hw. apply (IH (k, v) Hin); [by apply (H2 k)|by apply (G1 k)].
    + intros k v Hin Hw. destruct (G2 k v Hin Hw) as [_ ->]. by apply H1 in Hin.
    + intros k v w Hin Hw. apply (IH (k, v) Hin); [by apply (H2 k)|by apply (G1 k)].
    + intros k v Hin Hw. by destruct (G2 k v Hin Hw).
Qed.
Lemma part_null_free s v sub w : part s v sub w -> null_free v -> null_free w.
Proof. by destruct 1; inversion 1; eauto. Qed.
Lemma conforms_null_free s v : null_free v -> conforms true s v <-> conforms false s v.
Proof.
  assert (forall lax lax' : bool, (forall v, null_free v -> forall c, equals lax v c -> equals lax' v c) ->
    forall s v, conforms lax s v -> null_free v -> conforms lax' s v) as H.
  { intros lax lax' He. induction 1 as [s' v' [] Hp IH]. intros Hn. constructor.
    - split; try done. intros l Hl. destruct (fits_enum0 l Hl) as (c & Hc & Hv). exists c. auto.
    - intros sub w Hw. apply IH; [done|]. by eapply part_null_free. }
  intros Hn. split; intros Hc; (eapply H; [|exact Hc|done]); intros w Hw c; by apply equals_null_free.
Qed.

Lemma orelse_None a b : orelse a b = None <-> a = None /\ b = None.
Proof. destruct a; cbn; naive_solver. Qed.
Lemma fails_when_None c v : fails_when c v = None <-> c = false.
Proof. by destruct c. Qed.
Lemma first_violation_None {A} (f : A -> option violation) l :
  first_violation f l = None <-> forall a, a ∈ l -> f a = None.
Proof.
  induction l as [|a l IH]; cbn.
  - split; [by intros _ a Ha%elem_of_nil|done].
  - rewrite orelse_None, IH. setoid_rewrite elem_of_cons. naive_solver.
Qed.

Lemma int_bound_None s key path bad :
  int_bound s key path bad = None <-> forall n, intFromSchema s key = Some n -> bad n = false.
Proof. unfold int_bound. destruct (intFromSchema s key); [rewrite fails_when_None|]; naive_solver. Qed.
Lemma num_bound_None s key path bad :
  num_bound s key path bad = None <-> forall n, numFromSchema s key = Some n -> bad n = false.
Proof. unfold num_bound. destruct (numFromSchema s key); [rewrite fails_when_None|]; naive_solver. Qed.

Lemma check_required_None obj path req :
  check_required obj path req = None <->
  forall name, JStr name ∈ req -> name <> "" -> is_Some (obj_get obj name).
Proof.
  induction req as [|r req IH]; cbn [check_required].
  { split; [by intros _ name Hn%elem_of_nil|done]. }
  setoid_rewrite elem_of_cons. case_decide as Hn.
  - rewrite IH. split; [|naive_solver]. intros H name [<-|Hin] Hne; [done|by apply H].
  - destruct r; try done. destruct (obj_get obj s) as [x|] eqn:E.
    + rewrite IH. split; [|naive_solver]. intros H name [[= ->]|Hin] Hne; [by rewrite E|by apply H].
    + split; [done|]. intros H. specialize (H s (or_introl eq_refl) Hn). rewrite E in H. by destruct H.
Qed.

Lemma type_None s v path : decoded v ->
  match str_keyword s "type" with Some t => validateType v t path | None => None end = None <->
  forall t, str_keyword s "type" = Some t -> has_type v t.
Proof.
  intros Hd. destruct (str_keyword s "type") as [t|]; [|naive_solver].
  unfold validateType. rewrite fails_when_None, negb_false_iff, (type_matches_spec v t Hd). naive_solver.
Qed.

Lemma enum_None s v path :
  match arr_keyword s "enum" with
  | Some enum => fails_when (negb (existsb (valuesEqual v) enum)) (VEnum (pathDesc path))
  | None => None
  end = None <->
  forall l, arr_keyword s "enum" = Some l -> exists c, c ∈ l /\ equals true v c.
Proof.
  destruct (arr_keyword s "enum") as [l|]; [|naive_solver].
  rewrite fails_when_None, negb_false_iff, existsb_exists. setoid_rewrite <- valuesEqual_spec. split.
  - intros (c & Hc%list_elem_of_In & Hv) l' [= <-]. eauto.
  - intros H. destruct (H l eq_refl) as (c & Hc & Hv). exists c. by rewrite <- list_elem_of_In.
Qed.

Lemma conforms_iff lax s v : conforms lax s v <-> fits lax s v /\ forall sub w, part s v sub w -> conforms lax sub w.
Proof. split; [by intros [s' v' Hf Hp]|]. intros [Hf Hp]. by constructor. Qed.

(** The items of an array, whatever their positions. *)
Lemma items_None items path l : Forall (fun v => forall s path, validateAgainstSchema v s path = None <-> conforms true s v) l ->
  forall i, (fix go (i : Z) (l : list json) : option violation :=
     match l with
     | [] => None
     | x :: l => orelse (validateAgainstSchema x items (path +:+ "/" +:+ Itoa i)) (go (i + 1) l)
     end) i l = None <-> forall x, x ∈ l -> conforms true items x.
Proof.
  induction 1 as [|x l Hx _ IH]; intros i.
  - split; [by intros _ x Hx%elem_of_nil|done].
  - rewrite orelse_None, Hx, IH. setoid_rewrite elem_of_cons. naive_solver.
Qed.

(** The fields of an object. *)
Lemma fields_None s path obj :
  Forall (fun kv => forall s path, validateAgainstSchema kv.2 s path = None <-> conforms true s kv.2) obj ->
  first_violation (fun kv =>
    match property_schema s kv.1 with
    | Some sub => validateAgainstSchema kv.2 sub (joinPath path kv.1)
    | None =>
        match obj_get s "additionalProperties" with
        | Some (JBool false) => Some (VAdditional (pathDesc path) kv.1)
        | Some (JObj sub) => validateAgainstSchema kv.2 sub (joinPath path kv.1)
        | _ => None
        end
    end) obj = None <->
  (forall k w, (k, w) ∈ obj -> property_schema s k = None ->
     obj_get s "additionalProperties" <> Some (JBool false)) /\
  (forall sub w, part s (JObj obj) sub w -> conforms true sub w).
Proof.
  rewrite Forall_forall, first_violation_None. intros IH. split.
  - intros H. split.
    + intros k w Hin Hp Ha. specialize (H _ Hin). cbn in H. by rewrite Hp, Ha in H.
    + intros sub w Hpart. inversion Hpart as [obj' k v sub' Hin Hp|obj' k v sub' Hin Hp Ha|]; subst;
        specialize (H _ Hin); cbn in H; rewrite Hp, ?Ha in H; by apply (IH _ Hin) in H.
  - intros [Hc Hp] [k w] Hin. cbn. destruct (property_schema s k) as [sub|] eqn:E.
    + apply (IH _ Hin), Hp. by eapply part_property.
    + specialize (Hc k w Hin E). destruct (obj_get s "additionalProperties") as [[|[]| | | |sub]|] eqn:Ea; try done.
      apply (IH _ Hin), Hp. by eapply part_additional.
Qed.

Ltac no_parts := intros ? ? Hpart; inversion Hpart.

Lemma validate_conforms v : decoded v -> forall s path, validateAgainstSchema v s path = None <-> conforms true s v.
Proof.
  induction v as [|b|f|t|l IH|l IH] using json_nested_ind; intros Hd s path; cbn [validateAgainstSchema];
    rewrite !orelse_None, (type_None s _ path Hd), enum_None, conforms_iff.
  - split; [|intros [[] _]; auto]. intros (Ht & He & _). split; [by split|no_parts].
  - split; [|intros [[] _]; auto]. intros (Ht & He & _). split; [by split|no_parts].
  - unfold validateNumber. rewrite !orelse_None, !num_bound_None. split.
    + intros (Ht & He & H1 & H2 & H3 & H4). split; [split; try done|no_parts].
      intros x b [= <-]. auto.
    + intros [[Ht He _ _ _ _ Hr] _]. split_and!; auto; intros n Hn; by apply (Hr f n eq_refl).
  - unfold validateString. rewrite orelse_None, !int_bound_None. split.
    + intros (Ht & He & H1 & H2). split; [split; try done|no_parts].
      intros x n [= <-]. split; intros Hn; [apply H1 in Hn|apply H2 in Hn]; apply Z.ltb_ge in Hn; lia.
    + intros [[Ht He _ _ _ Hl _] _]. split_and!; auto; intros n Hn; apply Z.ltb_ge;
        by apply (Hl t n eq_refl).
  - assert (Forall (fun v => forall s path, validateAgainstSchema v s path = None <-> conforms true s v) l) as IH'.
    { inversion Hd as [| | | |l' Hl|]; subst. rewrite Forall_forall in IH |- *. auto. }
    unfold array_bounds. rewrite !orelse_None, !int_bound_None.
    assert (match obj_keyword s "items" with
            | Some items => _ | None => None end = None <->
            forall sub w, part s (JArr l) sub w -> conforms true sub w) as ->.
    { destruct (obj_keyword s "items") as [items|] eqn:E.
      - rewrite (items_None items path l IH' 0). split.
        + intros H sub w Hp. inversion Hp as [| |l' v sub' Hin Hi]; subst. rewrite E in Hi.
          injection Hi as <-. by apply H.
        + intros H x Hx. apply H. by constructor.
      - split; [|done]. intros _ sub w Hp. inversion Hp; subst. congruence. }
    split.
    + intros (Ht & He & Hp & H1 & H2). split; [split; try done|done].
      intros l' n [= <-]. split; intros Hn; [apply H1 in Hn|apply H2 in Hn]; apply Z.ltb_ge in Hn; lia.
    + intros [[Ht He _ _ Hl _ _] Hp]. split_and!; auto; intros n Hn; apply Z.ltb_ge;
        by apply (Hl l n eq_refl).
  - assert (Forall (fun kv => forall s path, validateAgainstSchema kv.2 s path = None <-> conforms true s kv.2) l) as IH'.
    { inversion Hd as [| | | | |l' Hl]; subst. rewrite Forall_forall in IH |- *. intros [k v] Hin. apply (IH _ Hin). by apply (Hl k). }
    rewrite (fields_None s path l IH').
    assert (match arr_keyword s "required" with
            | Some req => check_required l path req | None => None end = None <->
            forall req name, arr_keyword s "required" = Some req -> JStr name ∈ req -> name <> "" ->
              is_Some (obj_get l name)) as ->.
    { destruct (arr_keyword s "required"); [rewrite check_required_None|]; naive_solver. }
    split.
    + intros (Ht & He & Hr & Hc & Hp). split; [split; try done|done].
      * intros obj req name [= <-]. apply Hr.
      * intros obj k w [= <-]. apply Hc.
    + intros [[Ht He Hr Hc _ _ _] Hp]. split_and!; auto.
      * intros req name. by apply Hr.
      * intros k w. by apply (Hc l).
Qed.

(** ** The object of an answer *)

(** Texts with balanced braces, those inside of string literals not counted;
    [literal] is a string literal after its opening quote. *)
Definition plain (c : ascii) : Prop := c <> quote /\ c <> "{"%char /\ c <> "}"%char.
Inductive literal : string -> Prop :=
  | literal_close : literal (String quote "")
  | literal_escape c t : literal t -> literal (String backslash (String c t))
  | literal_char c t : c <> quote -> c <> backslash -> literal t -> literal (String c t).
Inductive balanced : string -> Prop :=
  | balanced_nil : balanced ""
  | balanced_char c t : plain c -> balanced t -> balanced (String c t)
  | balanced_string l t : literal l -> balanced t -> balanced (String quote (l +:+ t))
  | balanced_object b t : balanced b -> balanced t -> balanced (String "{" (b +:+ String "}" t)).
Definition object_text (obj : string) : Prop := exists b, balanced b /\ obj = String "{" (b +:+ "}").

(** The answer behind the line that opens a code fence. *)
Definition answer_text (t u : string) : Prop :=
  (exists tag, t = fence +:+ tag +:+ newline +:+ u /\ str_has (ascii_of_nat 10) tag = false) \/
  ((forall tag rest, t <> fence +:+ tag +:+ newline +:+ rest) /\ u = t).
(** The first object of an answer: it begins at the first opening brace. *)
Definition first_object (output obj : string) : Prop :=
  exists u before after, answer_text (TrimSpace output) u /\ u = before +:+ obj +:+ after /\
    str_has "{" before = false /\ object_text obj.

Lemma scan_object_prefix s : forall st r, scan_object st s = Some r -> exists rest, s = r +:+ rest.
Proof.
  induction s as [|c s IH]; intros st r; cbn; [done|]. destruct (scan_byte st c) as [st' []].
  - intros [= <-]. by exists s.
  - destruct (scan_object st' s) as [r'|] eqn:E; [|done]. intros [= <-].
    apply IH in E as [rest ->]. by exists rest.
Qed.

Lemma scan_object_app obj rest : forall st, scan_object st obj = Some obj ->
  scan_object st (obj +:+ rest) = Some obj.
Proof.
  induction obj as [|c obj IH]; intros st; cbn; [done|]. destruct (scan_byte st c) as [st' []].
  - intros [= <-]. done.
  - destruct (scan_object st' obj) as [r|] eqn:E; [|done]. cbn. intros [= ->]. by rewrite IH.
Qed.

(** The scanner byte by byte. *)
Lemma scan_pass st st' c s : scan_byte st c = (st', false) -> scan_object st (String c s) = String c <$> scan_object st' s.
Proof. intros H. cbn [scan_object]. by rewrite H. Qed.
Lemma byte_plain d c : plain c -> scan_byte (mkScan d false false) c = (mkScan d false false, false).
Proof.
  intros (Hq & Ho & Hc). cbn [scan_byte sc_escape sc_inStr sc_depth]. by rewrite andb_false_r, !decide_False by done.
Qed.
Lemma byte_char d c : c <> quote -> c <> backslash -> scan_byte (mkScan d true false) c = (mkScan d true false, false).
Proof.
  intros Hq Hb. cbn [scan_byte sc_escape sc_inStr sc_depth]. by rewrite bool_decide_eq_false_2, decide_False by done.
Qed.

Lemma scan_literal l : literal l -> forall d rest, scan_object (mkScan d true false) (l +:+ rest) =
  (fun r => l +:+ r) <$> scan_object (mkScan d false false) rest.
Proof.
  induction 1 as [|c t _ IH|c t Hq Hb _ IH]; intros d rest; cbn [String.append].
  - by erewrite scan_pass by reflexivity.
  - do 2 erewrite scan_pass by reflexivity. rewrite IH. by destruct (scan_object _ rest).
  - erewrite scan_pass by (by apply byte_char). rewrite IH. by destruct (scan_object _ rest).
Qed.
Lemma scan_balanced b : balanced b -> forall d rest, 1 <= d -> scan_object (mkScan d false false) (b +:+ rest) =
  (fun r => b +:+ r) <$> scan_object (mkScan d false false) rest.
Proof.
  induction 1 as [|c t Hc _ IH|l t Hl _ IH|b t _ IHb _ IH]; intros d rest Hd; cbn [String.append].
  - by destruct (scan_object _ rest).
  - erewrite scan_pass by (by apply byte_plain). rewrite IH by done. by destruct (scan_object _ rest).
  - erewrite scan_pass by reflexivity. cbn [sc_depth negb]. rewrite string_app_assoc, scan_literal, IH by done.
    destruct (scan_object _ rest); [|done]. cbn. by rewrite string_app_assoc.
  - erewrite scan_pass by reflexivity. rewrite string_app_assoc. cbn [sc_depth]. rewrite IHb by lia. cbn [String.append].
    rewrite (scan_pass _ (mkScan d false false) "}").
    2:{ cbn. replace (d + 1 - 1) with d by lia. by rewrite (bool_decide_eq_false_2 (d = 0)) by lia. }
    rewrite IH by done. destruct (scan_object _ rest) as [r|]; [|done]. cbn. by rewrite string_app_assoc.
Qed.

(** What closes [n] objects and one more. *)
Fixpoint closes (n : nat) (r : string) : Prop :=
  exists b, balanced b /\ match n with
  | O => r = b +:+ "}"
  | S n => exists r', r = b +:+ String "}" r' /\ closes n r'
  end.
Lemma closes_prefix n r (f : string -> string) : closes n r -> (forall b t, f (b +:+ t) = f b +:+ t) ->
  (forall b, balanced b -> balanced (f b)) -> closes n (f r).
Proof.
  intros Hc Hf Hb. destruct n as [|n]; destruct Hc as (b & Hbal & H).
  - exists (f b). split; [by apply Hb|]. by rewrite H, Hf.
  - destruct H as (r' & -> & Hr). exists (f b). split; [by apply Hb|]. exists r'. by rewrite Hf.
Qed.
Lemma closes_open n r : closes (S n) r -> closes n (String "{" r).
Proof.
  intros (b & Hb & r' & -> & Hr). apply (closes_prefix n r' (fun t => String "{" (b +:+ String "}" t)) Hr).
  - intros x t. cbn. by rewrite string_app_assoc.
  - intros x Hx. by constructor.
Qed.
Lemma scan_closes s : forall d r n, d = Z.of_nat (S n) ->
  (scan_object (mkScan d false false) s = Some r -> closes n r) /\
  (scan_object (mkScan d true false) s = Some r -> exists l r', literal l /\ r = l +:+ r' /\ closes n r') /\
  (scan_object (mkScan d true true) s = Some r -> exists c l r', literal l /\ r = String c (l +:+ r') /\ closes n r').
Proof.
  induction s as [|c s IH]; intros d r n Hd; [done|]. cbn [scan_object]. split_and!.
  - cbn [scan_byte sc_escape sc_inStr sc_depth]. rewrite andb_false_r. case_decide as Hq; [|case_decide as Ho; [|case_decide as Hc]].
    + cbn [negb]. intros (r1 & H & ->)%fmap_Some. destruct (IH d r1 n Hd) as (_ & H2 & _).
      destruct (H2 H) as (l & r' & Hl & -> & Hr). subst c.
      apply (closes_prefix n r' (fun t => String quote (l +:+ t)) Hr); [intros; cbn; by rewrite string_app_assoc|by constructor].
    + intros (r1 & H & ->)%fmap_Some. destruct (IH (d + 1) r1 (S n) ltac:(lia)) as (H1 & _). subst c. apply closes_open. auto.
    + subst c. case_bool_decide as H0.
      * assert (n = O) as -> by lia. intros [= <-]. exists "". by split; [constructor|].
      * destruct n as [|n]; [lia|]. intros (r1 & H & ->)%fmap_Some. destruct (IH (d - 1) r1 n ltac:(lia)) as (H1 & _).
        exists "". split; [constructor|]. exists r1. auto.
    + intros (r1 & H & ->)%fmap_Some. destruct (IH d r1 n Hd) as (H1 & _).
      apply (closes_prefix n r1 (String c)); [by apply H1|done|]. intros b Hb. by constructor.
  - cbn [scan_byte sc_escape sc_inStr sc_depth]. rewrite andb_true_r. case_bool_decide as Hb; [|case_decide as Hq].
    + intros (r1 & H & ->)%fmap_Some. destruct (IH d r1 n Hd) as (_ & _ & H3). destruct (H3 H) as (c' & l & r' & Hl & -> & Hr).
      subst c. exists (String backslash (String c' l)), r'. split_and!; [by constructor|done|done].
    + cbn [negb]. intros (r1 & H & ->)%fmap_Some. destruct (IH d r1 n Hd) as (H1 & _). subst c.
      exists (String quote ""), r1. split_and!; [constructor|done|by apply H1].
    + intros (r1 & H & ->)%fmap_Some. destruct (IH d r1 n Hd) as (_ & H2 & _). destruct (H2 H) as (l & r' & Hl & -> & Hr).
      exists (String c l), r'. split_and!; [by constructor|done|done].
  - cbn [scan_byte sc_escape sc_inStr sc_depth]. intros (r1 & H & ->)%fmap_Some. destruct (IH d r1 n Hd) as (_ & H2 & _).
    destruct (H2 H) as (l & r' & Hl & -> & Hr). by exists c, l, r'.
Qed.

(** The scanner finds the object that a text begins with. *)
Lemma scan_object_spec s r : scan_object scan_start (String "{" s) = Some r <->
  object_text r /\ exists rest, String "{" s = r +:+ rest.
Proof.
  split.
  - intros H. pose proof (scan_object_prefix _ _ _ H) as Hp. split; [|exact Hp]. cbn in H.
    apply fmap_Some in H as (r1 & H & ->). destruct (scan_closes s 1 r1 O eq_refl) as (H1 & _).
    destruct (H1 H) as (b & Hb & ->). by exists b.
  - intros [(b & Hb & ->) (rest & E)]. cbn in E. injection E as ->. unfold scan_start.
    rewrite (scan_pass _ (mkScan 1 false false)) by reflexivity.
    rewrite string_app_assoc, scan_balanced by (done || lia). reflexivity.
Qed.

(** *** What stands around it *)

Definition no_braces (s : string) : Prop := str_has "{" s = false /\ str_has "}" s = false.
Lemma no_braces_app a b : no_braces (a +:+ b) <-> no_braces a /\ no_braces b.
Proof. unfold no_braces. rewrite !str_has_app, !orb_false_iff. tauto. Qed.
Lemma no_braces_cons c s : c <> "{"%char -> c <> "}"%char -> no_braces s -> no_braces (String c s).
Proof. intros H1 H2 [H3 H4]. split; cbn; by rewrite bool_decide_eq_false_2 by done. Qed.

Lemma space_no_brace c : ascii_space c = true -> c <> "{"%char /\ c <> "}"%char.
Proof. intros H. split; intros ->; by vm_compute in H. Qed.
Lemma space2_no_brace c1 c2 : space2 c1 c2 = true -> (c1 <> "{"%char /\ c1 <> "}"%char) /\ c2 <> "{"%char /\ c2 <> "}"%char.
Proof.
  unfold space2. intros H. split_and!; intros ->; cbn in H; [done|done|..]; rewrite andb_false_r in H; done.
Qed.
Lemma space3_no_brace c1 c2 c3 : space3 c1 c2 c3 = true ->
  (c1 <> "{"%char /\ c1 <> "}"%char) /\ (c2 <> "{"%char /\ c2 <> "}"%char) /\ c3 <> "{"%char /\ c3 <> "}"%char.
Proof.
  unfold space3. intros H. split_and!; intros ->; cbn in H; rewrite ?andb_false_r, ?orb_false_r, ?andb_false_r in H; done.
Qed.
Lemma trim_lead_removes rev s : exists a, s = a +:+ trim_lead rev s /\ no_braces a.
Proof.
  remember (String.length s) as n eqn:En. revert s En. induction n as [n IH] using lt_wf_ind. intros s ->.
  assert (exists a, s = a +:+ s /\ no_braces a) as Hs by (by exists "").
  destruct s as [|c1 s1]; [by exists ""|]. cbn [trim_lead]. destruct (ascii_space c1) eqn:E1.
  { destruct (IH (String.length s1) ltac:(cbn; lia) s1 eq_refl) as (a & E & Ha). apply space_no_brace in E1 as [? ?].
    exists (String c1 a). split; [cbn; by rewrite <- E|by apply no_braces_cons]. }
  destruct s1 as [|c2 s2]; [done|]. destruct (if rev then space2 c2 c1 else space2 c1 c2) eqn:E2.
  { destruct (IH (String.length s2) ltac:(cbn; lia) s2 eq_refl) as (a & E & Ha).
    assert ((c1 <> "{"%char /\ c1 <> "}"%char) /\ c2 <> "{"%char /\ c2 <> "}"%char) as [[? ?] [? ?]]
      by (destruct rev; apply space2_no_brace in E2; tauto).
    exists (String c1 (String c2 a)). split; [cbn; by rewrite <- E|by repeat apply no_braces_cons]. }
  destruct s2 as [|c3 s3]; [done|]. destruct (if rev then space3 c3 c2 c1 else space3 c1 c2 c3) eqn:E3; [|done].
  destruct (IH (String.length s3) ltac:(cbn; lia) s3 eq_refl) as (a & E & Ha).
  assert ((c1 <> "{"%char /\ c1 <> "}"%char) /\ (c2 <> "{"%char /\ c2 <> "}"%char) /\ c3 <> "{"%char /\ c3 <> "}"%char) as ([? ?] & [? ?] & ? & ?)
    by (destruct rev; apply space3_no_brace in E3; tauto).
  exists (String c1 (String c2 (String c3 a))). split; [cbn; by rewrite <- E|by repeat apply no_braces_cons].
Qed.
Lemma no_braces_rev s : no_braces s -> no_braces (string_rev s).
Proof.
  induction s as [|c s IH]; [done|]. change (String c s) with (String c "" +:+ s). rewrite string_rev_app_distr, !no_braces_app.
  intros [H1 H2]. split; [by apply IH|exact H1].
Qed.
Definition around (v u : string) : Prop := exists a b, u = a +:+ v +:+ b /\ no_braces a /\ no_braces b.
Lemma around_refl u : around u u.
Proof. exists "", "". by rewrite string_app_nil_r. Qed.
Lemma around_trans v w u : around v w -> around w u -> around v u.
Proof.
  intros (a & b & -> & Ha & Hb) (a' & b' & -> & Ha' & Hb'). exists (a' +:+ a), (b +:+ b').
  rewrite !no_braces_app, !string_app_assoc. auto.
Qed.
Lemma TrimSpace_around s : around (TrimSpace s) s.
Proof.
  unfold TrimSpace. set (t := trim_lead false s). destruct (trim_lead_removes false s) as (a & E & Ha).
  destruct (trim_lead_removes true (string_rev t)) as (b & E2 & Hb). fold t in E.
  exists a, (string_rev b). split_and!; [|done|by apply no_braces_rev].
  rewrite <- string_rev_app_distr, <- E2, string_rev_involutive. exact E.
Qed.
Lemma TrimSuffix_around s : around (TrimSuffix s fence) s.
Proof.
  unfold TrimSuffix. destruct (HasSuffix s fence) eqn:E; [|apply around_refl].
  unfold HasSuffix in E. apply prefix_app in E as [t Et]. exists "", fence. split_and!; [|done|done]. cbn [String.append].
  assert (s = string_rev t +:+ fence) as ->.
  { rewrite <- (string_rev_involutive s), Et, string_rev_app_distr. f_equal. }
  rewrite string_length_app, Nat.add_sub. by rewrite str_take_app.
Qed.

(** A text cut at a byte that one side of a join does not have. *)
Lemma join_right c a y p z : str_has c a = false -> a +:+ y = p +:+ String c z ->
  exists p', p = a +:+ p' /\ y = p' +:+ String c z.
Proof.
  revert p. induction a as [|d a IH]; intros p; cbn; [by exists p|].
  intros [Hd%bool_decide_eq_false Ha]%orb_false_iff H. destruct p as [|e p]; cbn in H; [congruence|].
  injection H as -> H. destruct (IH p Ha H) as (p' & -> & ->). by exists p'.
Qed.
Lemma join_left c v b p z : str_has c b = false -> v +:+ b = p +:+ String c z ->
  exists z', v = p +:+ String c z' /\ z = z' +:+ b.
Proof.
  intros Hb. revert v. induction p as [|d p IH]; intros [|e v] H; cbn in H.
  - subst b. cbn in Hb. by rewrite bool_decide_eq_true_2 in Hb.
  - injection H as -> H. by exists v.
  - subst b. cbn [str_has] in Hb. apply orb_false_iff in Hb as [_ Hb]. rewrite str_has_app in Hb. cbn in Hb.
    by rewrite (bool_decide_eq_true_2 (c = c)), orb_true_r in Hb.
  - injection H as -> H. destruct (IH v H) as (z' & -> & ->). by exists z'.
Qed.
(** The first place of a byte. *)
Lemma Index_byte c s i : Index s (String c "") = Some i <->
  exists p z, s = p +:+ String c z /\ str_has c p = false /\ i = String.length p.
Proof.
  revert i. induction s as [|d s IH]; intros i.
  { split; [done|]. intros (p & z & E & _). by destruct p. }
  rewrite Index_unfold. cbn [String.prefix]. destruct (ascii_dec c d) as [<-|Hd].
  - replace (String.prefix "" s) with true by (by destruct s). split.
    + intros [= <-]. by exists "", s.
    + intros ([|e p] & z & E & Hp & ->); [done|]. injection E as <- E. cbn in Hp. by rewrite bool_decide_eq_true_2 in Hp.
  - rewrite fmap_Some. setoid_rewrite IH. split.
    + intros (k & (p & z & -> & Hp & ->) & ->). exists (String d p), z. cbn. by rewrite bool_decide_eq_false_2.
    + intros ([|e p] & z & E & Hp & ->); [by injection E as -> _|]. injection E as _ E2. cbn in Hp. apply orb_false_iff in Hp as [_ Hp].
      exists (String.length p). split; [by exists p, z; subst|done].
Qed.
Lemma Index_byte_None c s : Index s (String c "") = None -> str_has c s = false.
Proof.
  induction s as [|d s IH]; [done|]. rewrite Index_unfold. cbn [String.prefix]. destruct (ascii_dec c d) as [<-|Hd].
  - by replace (String.prefix "" s) with true by (by destruct s).
  - intros H%fmap_None. cbn. by rewrite bool_decide_eq_false_2, IH.
Qed.

Lemma strip_fence_spec t : exists u, answer_text t u /\ around (strip_fence t) u.
Proof.
  unfold strip_fence. destruct (HasPrefix t fence) eqn:E.
  2:{ exists t. split; [right; split; [|done]|apply around_refl]. intros tag rest ->. by rewrite HasPrefix_app in E. }
  assert (forall u, around (TrimSpace (TrimSuffix (TrimSpace u) fence)) u) as Ha.
  { intros u. eapply around_trans; [apply TrimSpace_around|].
    eapply around_trans; [apply TrimSuffix_around|apply TrimSpace_around]. }
  destruct (Index t newline) as [i|] eqn:Ei.
  - exists (str_drop (i + 1) t). split; [|apply Ha]. left.
    unfold newline in Ei. apply Index_byte in Ei as (p & z & -> & Hp & ->). unfold HasPrefix in E. apply prefix_app in E as [x Ex].
    destruct (join_right (ascii_of_nat 10) fence x p z) as (tag & -> & ->); [done|by rewrite Ex|]. exists tag.
    replace (String.length (fence +:+ tag) + 1)%nat with (String.length ((fence +:+ tag) +:+ newline))
      by (rewrite string_length_app; done).
    change (String (ascii_of_nat 10) z) with (newline +:+ z). rewrite !string_app_assoc.
    rewrite <- (string_app_assoc fence tag), <- (string_app_assoc (fence +:+ tag) newline z), str_drop_app, !string_app_assoc.
    split; [done|]. by rewrite str_has_app in Hp.
  - exists t. split; [|apply Ha]. right. split; [|done]. intros tag rest ->. apply Index_byte_None in Ei.
    rewrite !str_has_app in Ei. cbn [str_has newline] in Ei. by rewrite bool_decide_eq_true_2, !orb_true_r in Ei.
Qed.
Lemma answer_text_det t u u' : answer_text t u -> answer_text t u' -> u = u'.
Proof.
  intros [(tag & -> & Ht)|[Hn ->]] [(tag' & E & Ht')|[Hn' ->]]; try done; try (by exfalso; eapply Hn, E).
  - apply (inj (String.append fence)) in E. unfold newline in E.
    change (tag +:+ String (ascii_of_nat 10) u = tag' +:+ String (ascii_of_nat 10) u') in E.
    destruct (join_right _ _ _ _ _ Ht E) as ([|c p] & -> & E2); cbn in E2; [by injection E2|].
    injection E2 as <- _. rewrite str_has_app in Ht'. cbn [str_has] in Ht'.
    by rewrite bool_decide_eq_true_2, orb_true_r in Ht'.
  - by exfalso; eapply Hn'.
Qed.

(** [extractJSON] returns the first object of the answer, if it has one. *)
Lemma extractJSON_spec output obj : extractJSON output = Ok obj <-> first_object output obj.
Proof.
  unfold extractJSON, first_object. set (t := TrimSpace output).
  destruct (strip_fence_spec t) as (u & Hu & a & b & Eu & [Ha _] & [_ Hb]).
  transitivity (exists before after, u = before +:+ obj +:+ after /\ str_has "{" before = false /\ object_text obj).
  2:{ split; [intros (before & after & H); by exists u, before, after|]. intros (u' & before & after & Hu' & H). rewrite (answer_text_det _ _ _ Hu Hu'). eauto. }
  case_decide as Ht.
  { split; [done|]. intros (before & after & E & _ & (bb & _ & ->)). rewrite Ht in Hu.
    assert (u = "") as -> by (destruct Hu as [(tag & H & _)|[_ ->]]; done). by destruct before. }
  split.
  - destruct (Index (strip_fence t) "{") as [i|] eqn:Ei; [|done].
    apply Index_byte in Ei as (p & z & Ez & Hp & ->). rewrite Ez in *. rewrite str_drop_app.
    destruct (scan_object _ _) as [r|] eqn:Es; [|done]. intros [= ->].
    apply scan_object_spec in Es as [Ho (rest & Er)]. exists (a +:+ p), (rest +:+ b). split_and!; [|by rewrite str_has_app, Ha|done].
    rewrite Eu, Er, !string_app_assoc. done.
  - intros (before & after & E & Hbefore & Ho). pose proof Ho as (bb & Hbb & Eo). rewrite Eu, Eo in E.
    cbn [String.append] in E. destruct (join_right _ _ _ _ _ Ha E) as (p & -> & E2).
    assert (strip_fence t +:+ b = (p +:+ String "{" bb) +:+ String "}" after) as E3.
    { by rewrite E2, !string_app_assoc. }
    destruct (join_left _ _ _ _ _ Hb E3) as (z' & Ev & ->).
    assert (strip_fence t = p +:+ String "{" (bb +:+ String "}" z')) as -> by (rewrite Ev, !string_app_assoc; done).
    rewrite str_has_app, Ha in Hbefore. rewrite (proj2 (Index_byte "{" _ (String.length p))) by eauto.
    rewrite str_drop_app, (proj2 (scan_object_spec (bb +:+ String "}" z') obj)); [done|]. split; [done|].
    exists z'. rewrite Eo. cbn. by rewrite string_app_assoc.
Qed.

(** A conforming value of a root schema is an object. *)
Lemma object_type v : has_type v "object" -> exists obj, v = JObj obj.
Proof. inversion 1. eauto. Qed.

(** C21: the check of a step's output contract accepts an output exactly when
    the schema declares an object and the first object of the output -- the
    first text with balanced braces, string literals apart, of the output or of
    what stands behind the line that opens its code fence -- decodes to an
    object that conforms to the schema: the declared types, enumerations,
    required and additional properties, lengths and ranges hold of the object
    and, through its properties and items, of everything the schema describes
    inside it.  In an enumeration a field that a listed object does not have
    counts as null ([equals true]); for values without null fields this is
    equality.  The numbers of the decoder are float64 values. *)
Theorem ValidateJSONAgainstSchema_contract (codec : json_codec) (Quote : string -> string)
    (render : violation -> string) (output schemaJSON : string) :
  (forall text v, json_Unmarshal codec text = Ok v -> decoded v) ->
  (ValidateJSONAgainstSchema codec Quote render output schemaJSON = None <->
   exists s text obj, decode_schema codec schemaJSON = Ok s /\ str_keyword s "type" = Some "object" /\
     first_object output text /\ json_Unmarshal codec text = Ok (JObj obj) /\ conforms true s (JObj obj)) /\
  (forall s v, null_free v -> conforms true s v <-> conforms false s v).
Proof.
  intros Hdec. split; [|exact conforms_null_free]. setoid_rewrite <- extractJSON_spec.
  unfold ValidateJSONAgainstSchema. destruct (decode_schema codec schemaJSON) as [s|e];
    [|split; [done|by intros (? & ? & ? & ? & _)]].
  unfold validateRootSchema. case_decide as Ht.
  2:{ split; [done|]. intros (s' & text & obj & [= <-] & Hs & _). by rewrite Hs in Ht. }
  assert (str_keyword s "type" = Some "object") as Hs by (by destruct (str_keyword s "type"); cbn in Ht; subst).
  destruct (extractJSON output) as [text|e];
    [|split; [done|by intros (? & ? & ? & _ & _ & ? & _)]].
  destruct (json_Unmarshal codec text) as [v|e] eqn:Ev;
    [|split; [done|intros (? & ? & ? & _ & _ & [= <-] & Hv & _); congruence]].
  pose proof (Hdec _ _ Ev) as Hv. split.
  - intros H%fmap_None. apply validate_conforms in H; [|done].
    pose proof (proj1 (conforms_iff _ _ _) H) as [Hf _]. pose proof (fits_type _ _ _ Hf _ Hs) as Ho.
    apply object_type in Ho as [obj ->]. exists s, text, obj. done.
  - intros (s' & text' & obj & [= <-] & _ & [= <-] & Hv' & Hc). rewrite Ev in Hv'. injection Hv' as ->.
    apply fmap_None. by apply validate_conforms.
Qed.

(** *** The node *)

Section node_proofs.
Context (codec : json_codec) (Quote : string -> string) (render : violation -> string).
Context {W : Type} (llm : string -> M W (string * option error)) (marshal : json -> result string).

Context (Hdec : forall text v, json_Unmarshal codec text = Ok v -> decoded v).

Lemma judge_conforms s raw v : judge codec render s raw = inl v -> conforms true s v.
Proof using Hdec.
  unfold judge. destruct (extractJSON raw); [|done]. destruct (json_Unmarshal codec a) as [v'|] eqn:Ev; [|done].
  destruct (validateAgainstSchema v' s "") eqn:E; [done|]. intros [= <-]. apply validate_conforms in E; eauto.
Qed.

Lemma attempts_conform s input mr tries : forall lastErr,
  yields (attempts codec render llm marshal s input mr lastErr tries)
    (fun r => r.2 = None -> exists v, conforms true s v /\ marshal v = Ok r.1).
Proof using Hdec.
  induction tries as [|tries IH]; intros lastErr; cbn [attempts]; [by apply yields_ret|].
  eapply yields_bind; [apply yields_any|]. intros [raw err] _. destruct err; [by apply yields_ret|].
  destruct (judge codec render s raw) as [v|e] eqn:Ej; [|apply IH]. apply yields_ret.
  destruct (marshal v) as [out|e] eqn:Em; cbn; [|done]. intros _. exists v.
  split; [by eapply judge_conforms|done].
Qed.

(** Each call of the model counts one. *)
Lemma attempts_calls (calls : W -> nat) s input mr tries :
  (forall msg w, calls (llm msg w).1 = S (calls w)) ->
  forall lastErr w, (calls (attempts codec render llm marshal s input mr lastErr tries w).1
    <= calls w + tries)%nat.
Proof using Type.
  intros Hc. induction tries as [|tries IH]; intros lastErr w; cbn [attempts]; [cbn; lia|].
  unfold mbind, M_bind. set (msg := match lastErr with Some e => _ | None => _ end).
  specialize (Hc msg w). destruct (llm msg w) as [w1 [[raw err]|p]]; cbn in Hc |- *; [|lia].
  destruct err; cbn; [lia|]. destruct (judge codec render s raw); [cbn; lia|].
  etrans; [apply IH|]. lia.
Qed.
End node_proofs.

(** whatever the model answers, the structured_output node returns without an
    error only the encoding of a value that conforms to its schema, and it
    asks the model at most six times. *)
Theorem structured_Execute_conforms {W} (codec : json_codec) (Quote : string -> string)
    (render : violation -> string) (llm : string -> M W (string * option error))
    (marshal : json -> result string) (calls : W -> nat) input params w w' out :
  (forall text v, json_Unmarshal codec text = Ok v -> decoded v) ->
  (forall msg w, calls (llm msg w).1 = S (calls w)) ->
  structured_Execute codec Quote render llm marshal input params w = (w', Ret (out, None)) ->
  (exists s v, decode_schema codec (TrimSpace (default "" (params !! "schema"))) = Ok s /\
     conforms true s v /\ marshal v = Ok out) /\
  (calls w' <= calls w + 6)%nat.
Proof.
  intros Hdec Hc. unfold structured_Execute. case_decide; [done|].
  destruct (decode_schema codec _) as [s|e]; [|done]. destruct (validateRootSchema Quote s); [done|].
  intros Hr. split.
  - apply attempts_conform in Hr; [|done]. destruct (Hr eq_refl) as (v & Hv & Hm). by exists s, v.
  - pose proof (attempts_calls codec render llm marshal calls s input (max_retries params)
      (Z.to_nat (max_retries params + 1)) Hc None w) as Hn.
    rewrite Hr in Hn. cbn in Hn. unfold max_retries in Hn. lia.
Qed.

(** a field with the value null equals a field of another name: an enumeration
    that lists one object accepts another one. *)
Theorem enum_null_fields_confused (a b path : string) :
  validateAgainstSchema (JObj [(a, JNull)]) [("enum", JArr [JObj [(b, JNull)]])] path = None.
Proof.
  assert (valuesEqual (JObj [(a, JNull)]) (JObj [(b, JNull)]) = true) as Heq.
  { cbn. unfold obj_get. cbn. destruct (decide (b = a)) as [->|Hne].
    - by rewrite bool_decide_eq_true_2.
    - by rewrite bool_decide_eq_false_2. }
  cbn [validateAgainstSchema]. apply orelse_None. split; [reflexivity|].
  apply orelse_None. split; [|reflexivity].
  change (fails_when (negb (valuesEqual (JObj [(a, JNull)]) (JObj [(b, JNull)]) || false))
    (VEnum (pathDesc path)) = None). by rewrite Heq.
Qed.

(** *** Extraction *)

(** an object is found in the text around it: with prose without an opening
    brace before it, and anything behind it, [extractJSON] returns exactly the
    object, strings with braces and escaped quotes included. *)
Theorem extractJSON_unwraps (prose body rest : string) :
  let obj := String "{" body in
  let answer := prose +:+ obj +:+ rest in
  scan_object scan_start obj = Some obj -> str_has "{" prose = false ->
  TrimSpace answer = answer -> HasPrefix answer fence = false ->
  extractJSON answer = Ok obj.
Proof.
  intros obj answer Hs Hp Ht Hf. unfold extractJSON. rewrite Ht.
  rewrite decide_False by (unfold answer, obj; by destruct prose).
  unfold strip_fence. rewrite Hf. unfold answer, obj in *. cbn [String.append] in *.
  rewrite (proj2 (Index_byte "{" _ (String.length prose))) by eauto. rewrite str_drop_app.
  change (String "{" (body +:+ rest)) with (String "{" body +:+ rest).
  by rewrite (scan_object_app _ rest _ Hs).
Qed.

Definition quoted (s : string) : string := String quote (s +:+ String quote "").
Definition tricky : string := quoted "a" +:+ ":" +:+ quoted ("}" +:+ String backslash (String quote "{")) +:+ "}".

Lemma extractJSON_unwraps_witness :
  extractJSON ("Here it is: {" +:+ tricky +:+ " - done }") = Ok ("{" +:+ tricky).
Proof. apply (extractJSON_unwraps "Here it is: " tricky " - done }"); vm_compute; reflexivity. Defined.

(** A model that answers with a wrong and then a right object; the codec knows
    just these texts. *)
Definition age_schema : schema :=
  [("type", JStr "object"); ("required", JArr [JStr "age"]);
   ("properties", JObj [("age", JObj [("type", JStr "integer"); ("minimum", JNum (f64_of_Z 0))])])].
Definition age_codec : json_codec :=
  mkCodec (fun s => if decide (s = "S") then Ok (JObj age_schema)
                    else if decide (s = "{}") then Ok (JObj [])
                    else if decide (s = "{age}") then Ok (JObj [("age", JNum (f64_of_Z 42))])
                    else Err "invalid character")
    (fun _ => Ok "json") (fun _ => "").
Definition slow_learner : string -> M nat (string * option error) := fun _ n =>
  (S n, Ret (if decide (n = 0%nat) then "{}" else "{age}", None)).

Lemma age_decoded text v : json_Unmarshal age_codec text = Ok v -> decoded v.
Proof.
  cbn. case_decide; [intros [= <-]|case_decide; [intros [= <-]|case_decide; [intros [= <-]|done]]].
  - repeat first [constructor | intros ? ? [[= -> ->]|Hin]%elem_of_cons | intros ? [->|Hin]%elem_of_cons
                 | by apply elem_of_nil in Hin | revert Hin; intros [[= -> ->]|Hin]%elem_of_cons ].
  - constructor. by intros k v Hin%elem_of_nil.
  - constructor. intros k v [[= -> ->]|Hin]%elem_of_cons; [by constructor|by apply elem_of_nil in Hin].
Qed.

Lemma structured_Execute_conforms_witness :
  (exists s v, decode_schema age_codec
       (TrimSpace (default "" (({["schema" := "S"]} : gmap string string) !! "schema"))) = Ok s /\
     conforms true s v /\ json_Marshal age_codec v = Ok "json") /\ (2 <= 0 + 6)%nat.
Proof.
  apply (structured_Execute_conforms age_codec (fun s => s) (fun _ => "bad") slow_learner
    (json_Marshal age_codec) (fun n => n) "how old?" {["schema" := "S"]} 0%nat 2%nat "json");
    [exact age_decoded|done|vm_compute; reflexivity].
Defined.

Lemma ValidateJSONAgainstSchema_contract_witness :
  let fenced := "```json" +:+ newline +:+ "The answer: {age} ok" +:+ newline +:+ "```" in
  ValidateJSONAgainstSchema age_codec (fun s => s) (fun _ => "bad") fenced "S" = None /\
  (exists s text obj, decode_schema age_codec "S" = Ok s /\ str_keyword s "type" = Some "object" /\
     first_object fenced text /\ json_Unmarshal age_codec text = Ok (JObj obj) /\ conforms true s (JObj obj)) /\
  ~ exists s text obj, decode_schema age_codec "S" = Ok s /\ str_keyword s "type" = Some "object" /\
     first_object "{} {age}" text /\ json_Unmarshal age_codec text = Ok (JObj obj) /\ conforms true s (JObj obj).
Proof.
  intros fenced. assert (ValidateJSONAgainstSchema age_codec (fun s => s) (fun _ => "bad") fenced "S" = None) as E
    by (vm_compute; reflexivity). split_and!; [exact E| |].
  - apply (ValidateJSONAgainstSchema_contract age_codec (fun s => s) (fun _ => "bad") fenced "S" age_decoded). exact E.
  - intros H. apply (ValidateJSONAgainstSchema_contract age_codec (fun s => s) (fun _ => "bad") "{} {age}" "S" age_decoded) in H.
    vm_compute in H. discriminate.
Defined.
