(* ===== verification/TaskQueue.v ===== *)
(** * The task queue of the agent daemon (src/internal/taskqueue/queue.go)

    Tasks are shared pointers: the queue, the status table and the goroutine
    that executes a task all point to the same object.  [q_heap] holds the
    objects by address, so a status set through one pointer is seen through
    the others.  Each method runs under the queue's mutex and is one atomic
    step; [Dequeue] is the critical section [take] and the wait on the channel
    [notEmpty], of which [q_token] says whether it holds its one element.
    [daemon_step] interleaves callers of [Enqueue], the worker of [Run] and
    the goroutines that it starts. *)

From S2P Require Import Prelude GoStrings.

#[local] Open Scope string_scope.
#[local] Open Scope Z_scope.

(** ** Definitions *)

Definition StatusPending : string := "pending".
Definition StatusRunning : string := "running".
Definition StatusDone : string := "done".
Definition StatusFailed : string := "failed".
Definition maxStatusEntries : Z := 10000.

(** [tk_ReplyTo] is the channel for the result, if the caller gave one. *)
Record Task := mkTask {
  tk_ID : string;
  tk_Source : string;
  tk_Message : string;
  tk_CreatedAt : Z;
  tk_Status : string;
  tk_Error : string;
  tk_StartedAt : Z;
  tk_DoneAt : Z;
  tk_ReplyTo : option nat
}.
Definition zero_task : Task := mkTask "" "" "" 0 "" "" 0 0 None.

Record TaskResult := mkTaskResult { tr_Response : string; tr_Error : option error }.

Record Queue := mkQueue {
  q_heap : gmap nat Task;
  q_queue : list nat;
  q_active : gset string;
  q_token : bool;
  q_maxSize : Z;
  q_statuses : gmap string nat
}.

Definition NewQueue (maxSize : Z) : Queue := mkQueue ∅ [] ∅ false maxSize ∅.

Definition deref (q : Queue) (p : nat) : Task := default zero_task (q_heap q !! p).
Definition id_of (q : Queue) (p : nat) : string := tk_ID (deref q p).

Definition set_pending (now : Z) (t : Task) : Task :=
  mkTask (tk_ID t) (tk_Source t) (tk_Message t) now StatusPending (tk_Error t)
    (tk_StartedAt t) (tk_DoneAt t) (tk_ReplyTo t).
Definition set_running (now : Z) (t : Task) : Task :=
  mkTask (tk_ID t) (tk_Source t) (tk_Message t) (tk_CreatedAt t) StatusRunning (tk_Error t)
    now (tk_DoneAt t) (tk_ReplyTo t).
Definition set_done (now : Z) (t : Task) : Task :=
  mkTask (tk_ID t) (tk_Source t) (tk_Message t) (tk_CreatedAt t) StatusDone (tk_Error t)
    (tk_StartedAt t) now (tk_ReplyTo t).
Definition set_failed (msg : string) (now : Z) (t : Task) : Task :=
  mkTask (tk_ID t) (tk_Source t) (tk_Message t) (tk_CreatedAt t) StatusFailed msg
    (tk_StartedAt t) now (tk_ReplyTo t).

(** The oldest task makes room when the queue is full. *)
Definition make_room (q : Queue) : Queue :=
  if (0 <? q_maxSize q) && (q_maxSize q <=? Z.of_nat (length (q_queue q))) then
    match q_queue q with
    | [] => q
    | dropped :: rest =>
        mkQueue (q_heap q) rest (q_active q) (q_token q) (q_maxSize q)
          (delete (id_of q dropped) (q_statuses q))
    end
  else q.

Definition queued (q : Queue) (id : string) : bool :=
  existsb (fun p => String.eqb (id_of q p) id) (q_queue q).

(** [p] is the pointer that the caller passes. *)
Definition Enqueue (now : Z) (p : nat) (q : Queue) : option error * Queue :=
  let id := id_of q p in
  if bool_decide (id ∈ q_active q) then (None, q) else
  if queued q id then (None, q) else
  let q1 := make_room q in
  (None, mkQueue (alter (set_pending now) p (q_heap q1)) (q_queue q1 ++ [p])%list (q_active q1)
           true (q_maxSize q1) (<[id := p]> (q_statuses q1))).

(** The critical section of [Dequeue]. *)
Definition take (now : Z) (q : Queue) : option (nat * Queue) :=
  match q_queue q with
  | [] => None
  | p :: rest =>
      Some (p, mkQueue (alter (set_running now) p (q_heap q)) rest ({[id_of q p]} ∪ q_active q)
                 (q_token q) (q_maxSize q) (q_statuses q))
  end.

Definition finished (t : Task) : bool :=
  String.eqb (tk_Status t) StatusDone || String.eqb (tk_Status t) StatusFailed.

Definition table_full (s : gmap string nat) : bool := maxStatusEntries <? Z.of_nat (size s).

(** The range over the status table, in the order [ids]. *)
Fixpoint prune_loop (q : Queue) (ids : list string) (s : gmap string nat) : gmap string nat :=
  match ids with
  | [] => s
  | id :: ids' =>
      let s' := match s !! id with
        | Some p => if finished (deref q p) then delete id s else s
        | None => s
        end in
      if table_full s' then prune_loop q ids' s' else s'
  end.

Section order.
(** The order in which Go ranges over the table. *)
Context (order : gmap string nat -> list string).

Definition pruneStatuses (q : Queue) : Queue :=
  if table_full (q_statuses q) then
    mkQueue (q_heap q) (q_queue q) (q_active q) (q_token q) (q_maxSize q)
      (prune_loop q (order (q_statuses q)) (q_statuses q))
  else q.

(** [Done] and [Failed] differ in the fields they set. *)
Definition finish (f : Task -> Task) (id : string) (q : Queue) : Queue :=
  pruneStatuses (mkQueue
    (match q_statuses q !! id with Some p => alter f p (q_heap q) | None => q_heap q end)
    (q_queue q) (q_active q ∖ {[id]}) (q_token q) (q_maxSize q) (q_statuses q)).

Definition Done (now : Z) (id : string) (q : Queue) : Queue := finish (set_done now) id q.
Definition Failed (now : Z) (id msg : string) (q : Queue) : Queue := finish (set_failed msg now) id q.
End order.

Definition Status (q : Queue) (id : string) : string :=
  match q_statuses q !! id with Some p => tk_Status (deref q p) | None => "" end.

Definition count_status (st : string) (q : Queue) : Z :=
  map_fold (fun _ p n => if decide (tk_Status (deref q p) = st) then n + 1 else n) 0 (q_statuses q).
Definition StatusSummary (q : Queue) : list (string * Z) :=
  (fun st => (st, count_status st q)) <$> [StatusPending; StatusRunning; StatusDone; StatusFailed].

Definition Size (q : Queue) : Z := Z.of_nat (length (q_queue q)).
Definition ActiveCount (q : Queue) : Z := Z.of_nat (size (q_active q)).

(** ** The daemon *)

(** Where the loop of [Run] is: about to look at the queue, blocked on the
    channel and the context, or returned. *)
Inductive worker := WLook | WWait | WStopped.
#[export] Instance worker_eq_dec : EqDecision worker.
Proof. solve_decision. Defined.

(** [dm_running] are the tasks whose goroutine has not returned from the
    handler, [dm_accepted] and [dm_taken] the tasks that [Enqueue] appended and
    [Dequeue] returned so far. *)
Record daemon := mkDaemon {
  dm_queue : Queue;
  dm_worker : worker;
  dm_running : list nat;
  dm_next : nat;
  dm_accepted : list nat;
  dm_taken : list nat
}.

Inductive daemon_event :=
  | EvEnqueue (now : Z) (t : Task)
  | EvWorker (now : Z)
  | EvCancel
  | EvFinish (now : Z) (i : nat) (r : TaskResult).

Definition allocate (p : nat) (t : Task) (q : Queue) : Queue :=
  mkQueue (<[p := t]> (q_heap q)) (q_queue q) (q_active q) (q_token q) (q_maxSize q) (q_statuses q).

Definition take_token (q : Queue) : Queue :=
  mkQueue (q_heap q) (q_queue q) (q_active q) false (q_maxSize q) (q_statuses q).

(** The end of a task's goroutine. *)
Definition complete (order : gmap string nat -> list string) (now : Z) (id : string) (r : TaskResult)
    (q : Queue) : Queue :=
  match tr_Error r with
  | Some msg => Failed order now id msg q
  | None => Done order now id q
  end.

Definition daemon_step (order : gmap string nat -> list string) (d : daemon) (e : daemon_event)
    : daemon :=
  let q := dm_queue d in
  match e with
  | EvEnqueue now t =>
      let p := dm_next d in
      let q' := (Enqueue now p (allocate p t q)).2 in
      mkDaemon q' (dm_worker d) (dm_running d) (S p)
        (if decide (p ∈ q_queue q') then (dm_accepted d ++ [p])%list else dm_accepted d) (dm_taken d)
  | EvWorker now =>
      match dm_worker d with
      | WLook =>
          match take now q with
          | Some (p, q') =>
              mkDaemon q' WLook (dm_running d ++ [p])%list (dm_next d) (dm_accepted d)
                (dm_taken d ++ [p])%list
          | None =>
              mkDaemon q WWait (dm_running d) (dm_next d) (dm_accepted d) (dm_taken d)
          end
      | WWait =>
          if q_token q then
            mkDaemon (take_token q) WLook (dm_running d) (dm_next d) (dm_accepted d) (dm_taken d)
          else d
      | WStopped => d
      end
  | EvCancel =>
      mkDaemon q (match dm_worker d with WWait => WStopped | w => w end) (dm_running d) (dm_next d)
        (dm_accepted d) (dm_taken d)
  | EvFinish now i r =>
      match dm_running d !! i with
      | Some p =>
          mkDaemon (complete order now (id_of q p) r q) (dm_worker d) (delete i (dm_running d))
            (dm_next d) (dm_accepted d) (dm_taken d)
      | None => d
      end
  end.

Definition daemon_start (maxSize : Z) : daemon :=
  mkDaemon (NewQueue maxSize) WLook [] 0 [] [].
Definition daemon_run (order : gmap string nat -> list string) (maxSize : Z)
    (evs : list daemon_event) : daemon :=
  foldl (daemon_step order) (daemon_start maxSize) evs.

(** ** The invariant of the daemon *)

(** The tasks that wait or execute. *)
Definition live (d : daemon) : list nat := (q_queue (dm_queue d) ++ dm_running d)%list.

(** A live task is found under its ID with the given status. *)
Definition tracked (q : Queue) (st : string) (p : nat) : Prop :=
  q_statuses q !! id_of q p = Some p /\ tk_Status (deref q p) = st.

Record daemon_inv (d : daemon) : Prop := {
  di_fresh : forall p, (dm_next d <= p)%nat -> q_heap (dm_queue d) !! p = None;
  di_alloc : forall p, p ∈ live d -> is_Some (q_heap (dm_queue d) !! p);
  di_ids : NoDup (id_of (dm_queue d) <$> live d);
  di_active : forall id, id ∈ q_active (dm_queue d) <-> id ∈ (id_of (dm_queue d) <$> dm_running d);
  di_pending : forall p, p ∈ q_queue (dm_queue d) -> tracked (dm_queue d) StatusPending p;
  di_running : forall p, p ∈ dm_running d -> tracked (dm_queue d) StatusRunning p;
  di_wake : dm_worker d = WWait -> q_queue (dm_queue d) <> [] -> q_token (dm_queue d) = true;
  di_order : sublist (dm_taken d ++ q_queue (dm_queue d))%list (dm_accepted d);
  di_all : q_maxSize (dm_queue d) <= 0 -> dm_accepted d = (dm_taken d ++ q_queue (dm_queue d))%list
}.

(** A change of statuses and times keeps every ID. *)
Definition keeps_id (f : Task -> Task) : Prop := forall t, tk_ID (f t) = tk_ID t.

Lemma deref_alter (f : Task -> Task) (p r : nat) (h : gmap nat Task) : is_Some (h !! p) ->
  default zero_task (alter f p h !! r)
  = if decide (p = r) then f (default zero_task (h !! r)) else default zero_task (h !! r).
Proof.
  intros [t Ht]. case_decide as Hpr.
  - subst r. by rewrite lookup_alter_eq, Ht.
  - by rewrite lookup_alter_ne.
Qed.

Lemma id_alter (f : Task -> Task) (p r : nat) (h : gmap nat Task) : keeps_id f ->
  tk_ID (default zero_task (alter f p h !! r)) = tk_ID (default zero_task (h !! r)).
Proof.
  intros Hf. destruct (decide (p = r)) as [->|Hn].
  - rewrite lookup_alter_eq. destruct (h !! r); cbn; [apply Hf|done].
  - by rewrite lookup_alter_ne.
Qed.

Lemma is_Some_alter (f : Task -> Task) (p r : nat) (h : gmap nat Task) :
  is_Some (alter f p h !! r) <-> is_Some (h !! r).
Proof.
  destruct (decide (p = r)) as [->|Hn].
  - by rewrite lookup_alter_eq, fmap_is_Some.
  - by rewrite lookup_alter_ne.
Qed.

Lemma daemon_start_inv maxSize : daemon_inv (daemon_start maxSize).
Proof.
  split; cbn; try done; try (by intros p ?%elem_of_nil); [constructor|].
  intros id. set_solver.
Qed.

(** Pruning forgets only tasks that have finished. *)
Lemma prune_loop_keeps q ids s id p : s !! id = Some p -> finished (deref q p) = false ->
  prune_loop q ids s !! id = Some p.
Proof.
  intros Hs Hf. revert s Hs. induction ids as [|i ids IH]; intros s Hs; cbn; [done|].
  set (s' := match s !! i with Some p0 => if finished (deref q p0) then delete i s else s | None => s end).
  assert (s' !! id = Some p) as Hs'.
  { unfold s'. destruct (s !! i) as [p0|] eqn:Ei; [|done].
    destruct (finished (deref q p0)) eqn:Ef; [|done].
    rewrite lookup_delete_ne; [done|]. intros ->. congruence. }
  destruct (table_full s'); [by apply IH|done].
Qed.

Lemma pruneStatuses_frame order q :
  q_heap (pruneStatuses order q) = q_heap q /\ q_queue (pruneStatuses order q) = q_queue q /\
  q_active (pruneStatuses order q) = q_active q /\ q_token (pruneStatuses order q) = q_token q /\
  q_maxSize (pruneStatuses order q) = q_maxSize q.
Proof. unfold pruneStatuses. by destruct (table_full _). Qed.

Lemma pruneStatuses_tracked order q st p : st = StatusPending \/ st = StatusRunning ->
  tracked q st p -> tracked (pruneStatuses order q) st p.
Proof.
  intros Hst [Hs Ht]. destruct (pruneStatuses_frame order q) as (Hh & _).
  unfold tracked, id_of, deref. rewrite Hh. split; [|done].
  unfold pruneStatuses. destruct (table_full _); [|done]. cbn.
  apply prune_loop_keeps; [done|]. unfold finished. rewrite Ht. by destruct Hst as [-> | ->].
Qed.

Definition with_queue (q : Queue) (d : daemon) : daemon :=
  mkDaemon q (dm_worker d) (dm_running d) (dm_next d) (dm_accepted d) (dm_taken d).

Lemma live_allocated d p : daemon_inv d -> p ∈ live d -> (p < dm_next d)%nat.
Proof.
  intros Hd Hp. destruct (decide (dm_next d <= p)%nat) as [Hl|]; [|lia].
  apply (di_alloc _ Hd) in Hp. rewrite (di_fresh _ Hd p Hl) in Hp. by destruct Hp.
Qed.

Lemma same_id_same_task d p r : daemon_inv d -> p ∈ live d -> r ∈ live d ->
  id_of (dm_queue d) p = id_of (dm_queue d) r -> p = r.
Proof.
  intros Hd Hp Hr E. pose proof (di_ids _ Hd) as Hn. revert Hp Hr Hn.
  induction (live d) as [|x l IH]; [by intros ?%elem_of_nil|]. cbn.
  intros [->|Hp]%elem_of_cons [->|Hr]%elem_of_cons [Hx Hn]%NoDup_cons; [done| | |by apply IH].
  - destruct Hx. rewrite E. by apply list_elem_of_fmap_2.
  - destruct Hx. rewrite <- E. by apply list_elem_of_fmap_2.
Qed.

Lemma allocate_inv d t : daemon_inv d ->
  let d' := mkDaemon (allocate (dm_next d) t (dm_queue d)) (dm_worker d) (dm_running d) (S (dm_next d))
    (dm_accepted d) (dm_taken d) in
  daemon_inv d'.
Proof.
  intros Hd d'.
  assert (forall r, r ∈ live d -> deref (dm_queue d') r = deref (dm_queue d) r) as Hr.
  { intros r Hr%live_allocated; [|done]. unfold deref. cbn. rewrite lookup_insert_ne by lia. done. }
  assert (forall l : list nat, (forall r, r ∈ l -> r ∈ live d) ->
    id_of (dm_queue d') <$> l = id_of (dm_queue d) <$> l) as Hids.
  { intros l Hl. apply list_fmap_ext. intros i r Hi%list_elem_of_lookup_2. unfold id_of.
    by rewrite Hr by auto. }
  assert (forall st r, r ∈ live d -> tracked (dm_queue d) st r -> tracked (dm_queue d') st r) as Ht.
  { intros st r Hl [H1 H2]. unfold tracked, id_of. by rewrite (Hr r Hl). }
  destruct Hd as [D1 D2 D3 D4 D5 D6 D7 D8 D9]. split; cbn [dm_queue dm_worker dm_running dm_next].
  - cbn. intros p Hp. rewrite lookup_insert_ne by lia. apply D1. lia.
  - intros p Hp%D2. cbn. destruct (decide (dm_next d = p)) as [->|?].
    + rewrite lookup_insert_eq. eauto.
    + by rewrite lookup_insert_ne.
  - change (live d') with (live d). by rewrite Hids.
  - intros id. rewrite Hids; [apply D4|]. intros r ?. apply elem_of_app. by right.
  - intros p Hp. apply Ht; [apply elem_of_app; by left|by apply D5].
  - intros p Hp. apply Ht; [apply elem_of_app; by right|by apply D6].
  - done.
  - done.
  - done.
Qed.

Lemma make_room_inv d : daemon_inv d -> daemon_inv (with_queue (make_room (dm_queue d)) d).
Proof.
  intros Hd. unfold make_room. set (q := dm_queue d).
  destruct ((0 <? q_maxSize q) && _) eqn:Em; [|by destruct d]. apply andb_true_iff in Em as [Em _].
  apply Z.ltb_lt in Em. destruct (q_queue q) as [|x rest] eqn:Eq; [by destruct d|].
  assert (live d = x :: (rest ++ dm_running d))%list as El by (unfold live; fold q; by rewrite Eq).
  assert (forall r, r ∈ (rest ++ dm_running d)%list -> id_of q x <> id_of q r) as Hx.
  { intros r Hr E. pose proof (di_ids _ Hd) as Hn. rewrite El in Hn. cbn in Hn.
    apply NoDup_cons in Hn as [Hn _]. apply Hn. fold q. rewrite E. by apply list_elem_of_fmap_2. }
  assert (forall st r, r ∈ (rest ++ dm_running d)%list -> tracked q st r ->
    tracked (mkQueue (q_heap q) rest (q_active q) (q_token q) (q_maxSize q)
      (delete (id_of q x) (q_statuses q))) st r) as Ht.
  { intros st r Hr [H1 H2]. split; [|done]. cbn. rewrite lookup_delete_ne; [done|]. by apply Hx. }
  destruct Hd as [D1 D2 D3 D4 D5 D6 D7 D8 D9]. fold q in D1, D2, D3, D4, D5, D6, D7, D8, D9.
  rewrite El in D2, D3. rewrite Eq in D5, D7, D8, D9.
  split; cbn [with_queue dm_queue dm_worker dm_running dm_next dm_accepted dm_taken q_queue q_maxSize].
  - done.
  - intros p Hp. apply D2. apply elem_of_cons. by right.
  - cbn in D3. by apply NoDup_cons in D3 as [_ D3].
  - done.
  - intros p Hp. apply Ht; [apply elem_of_app; by left|]. apply D5. apply elem_of_cons. by right.
  - intros p Hp. apply Ht; [apply elem_of_app; by right|by apply D6].
  - intros Hw _. by apply D7.
  - etrans; [|exact D8]. apply sublist_app; [done|]. by apply sublist_cons.
  - lia.
Qed.

(** A task with an ID of its own joins the queue. *)
Lemma append_inv d p now : daemon_inv d -> is_Some (q_heap (dm_queue d) !! p) ->
  p ∉ live d -> (p < dm_next d)%nat -> id_of (dm_queue d) p ∉ (id_of (dm_queue d) <$> live d) ->
  let q := dm_queue d in
  daemon_inv (mkDaemon (mkQueue (alter (set_pending now) p (q_heap q)) (q_queue q ++ [p])%list (q_active q)
      true (q_maxSize q) (<[id_of q p := p]> (q_statuses q)))
    (dm_worker d) (dm_running d) (dm_next d) (dm_accepted d ++ [p])%list (dm_taken d)).
Proof.
  intros Hd Hh Hp Hnx Hid q. set (q' := mkQueue _ _ _ _ _ _).
  assert (forall r, id_of q' r = id_of q r) as Hids by (intros r; by apply (id_alter (set_pending now))).
  assert (forall l : list nat, id_of q' <$> l = id_of q <$> l) as Hl
    by (intros l; apply list_fmap_ext; auto).
  assert (forall r, deref q' r = if decide (p = r) then set_pending now (deref q r) else deref q r) as Hr
    by (intros r; by apply deref_alter).
  assert (forall st r, r ∈ live d -> tracked q st r -> tracked q' st r) as Ht.
  { intros st r Hr' [H1 H2]. split.
    - rewrite Hids. cbn. rewrite lookup_insert_ne; [done|]. intros E. apply Hid. fold q. rewrite E.
      by apply list_elem_of_fmap_2.
    - rewrite Hr, decide_False; [done|]. by intros ->. }
  destruct Hd as [D1 D2 D3 D4 D5 D6 D7 D8 D9].
  fold q in D1, D2, D3, D4, D5, D6, D7, D8, D9, Hid, Hh.
  split; cbn [dm_queue dm_worker dm_running dm_next dm_accepted dm_taken].
  - intros r Hr'. cbn. rewrite lookup_alter_ne; [by apply D1|]. lia.
  - unfold live. cbn. intros r Hr'. apply is_Some_alter.
    rewrite !elem_of_app, list_elem_of_singleton in Hr'.
    destruct Hr' as [[Hq| ->]|Hrun]; [|done|]; apply D2, elem_of_app; auto.
  - rewrite Hl. unfold live in *. cbn [dm_queue dm_running]. cbn [q' q_queue].
    assert (((q_queue q ++ [p]) ++ dm_running d)%list ≡ₚ p :: (q_queue q ++ dm_running d)%list) as ->.
    { rewrite <- (assoc_L (++)). cbn. by rewrite <- Permutation_middle. }
    cbn. apply NoDup_cons. done.
  - intros id. rewrite Hl. apply D4.
  - intros r [Hq| ->%list_elem_of_singleton]%elem_of_app.
    + apply Ht; [apply elem_of_app; by left|by apply D5].
    + split; [by rewrite Hids; cbn; rewrite lookup_insert_eq|]. by rewrite Hr, decide_True.
  - intros r Hr'. apply Ht; [apply elem_of_app; by right|by apply D6].
  - done.
  - cbn. rewrite (assoc_L (++)). by apply sublist_app.
  - intros Hm. cbn. rewrite (assoc_L (++)). f_equal. by apply D9.
Qed.

Lemma make_room_frame q :
  q_heap (make_room q) = q_heap q /\ q_active (make_room q) = q_active q /\
  sublist (q_queue (make_room q)) (q_queue q).
Proof.
  unfold make_room. destruct (_ && _); [|done]. destruct (q_queue q) as [|x rest] eqn:E; cbn.
  - by rewrite E.
  - split_and!; [done|done|]. by apply sublist_cons.
Qed.

Lemma queued_spec q id : queued q id = true <-> id ∈ (id_of q <$> q_queue q).
Proof.
  unfold queued. rewrite existsb_exists, list_elem_of_fmap. split.
  - intros (p & Hp & E%String.eqb_eq). exists p. split; [done|]. by apply list_elem_of_In.
  - intros (p & -> & Hp). exists p. split; [by apply list_elem_of_In|]. apply String.eqb_refl.
Qed.

Lemma EvEnqueue_inv order d now t : daemon_inv d -> daemon_inv (daemon_step order d (EvEnqueue now t)).
Proof.
  intros Hd. pose proof (allocate_inv d t Hd) as Ha. cbn [daemon_step].
  set (p := dm_next d) in *. set (q0 := allocate p t (dm_queue d)) in *.
  set (d0 := mkDaemon q0 _ _ _ _ _) in Ha.
  assert (p ∉ live d0) as Hp.
  { intros Hp. change (live d0) with (live d) in Hp. apply live_allocated in Hp; [|done]. unfold p in Hp. lia. }
  unfold Enqueue. case_bool_decide as Hact; [|destruct (queued q0 (id_of q0 p)) eqn:Eq].
  - cbn [snd]. rewrite decide_False; [done|]. intros H. apply Hp, elem_of_app. by left.
  - cbn [snd]. rewrite decide_False; [done|]. intros H. apply Hp, elem_of_app. by left.
  - cbn [snd q_queue]. rewrite decide_True by (apply elem_of_app; right; by apply list_elem_of_singleton).
    destruct (make_room_frame q0) as (F1 & F2 & F3).
    assert (id_of (make_room q0) p = id_of q0 p) as Fid by (unfold id_of, deref; by rewrite F1).
    assert (forall r, r ∈ live (with_queue (make_room q0) d0) -> r ∈ live d0) as Fl.
    { intros r Hr. unfold live in *. cbn in *. apply elem_of_app in Hr as [Hr|Hr]; apply elem_of_app; [left|by right].
      by eapply elem_of_sublist. }
    rewrite <- Fid. apply (append_inv (with_queue (make_room q0) d0)).
    + by apply (make_room_inv d0).
    + cbn. rewrite F1. cbn. rewrite lookup_insert_eq. eauto.
    + by intros Hr%Fl.
    + cbn. lia.
    + cbn [with_queue dm_queue]. intros (r & Er & Hr)%list_elem_of_fmap.
      unfold id_of, deref in Er. rewrite F1 in Er. fold (deref q0 p) (deref q0 r) in Er.
      fold (id_of q0 p) (id_of q0 r) in Er. unfold live in Hr. apply elem_of_app in Hr as [Hr|Hr].
      * assert (queued q0 (id_of q0 p) = true) as Hq; [|congruence]. apply queued_spec. rewrite Er.
        apply list_elem_of_fmap_2. by eapply elem_of_sublist.
      * apply Hact. apply (di_active _ Ha). cbn [d0 dm_queue dm_running] in *. rewrite Er.
        by apply list_elem_of_fmap_2.
Qed.

Lemma EvWorker_inv order d now : daemon_inv d -> daemon_inv (daemon_step order d (EvWorker now)).
Proof.
  intros Hd. cbn [daemon_step]. destruct (dm_worker d) eqn:Ew; [| |done].
  2:{ destruct (q_token (dm_queue d)); [|done]. destruct Hd. by split. }
  unfold take. set (q := dm_queue d). destruct (q_queue q) as [|p rest] eqn:Eq.
  { destruct Hd as [D1 D2 D3 D4 D5 D6 D7 D8 D9]. split; try done. }
  set (q' := mkQueue _ _ _ _ _ _).
  assert (live d = p :: (rest ++ dm_running d))%list as El by (unfold live; fold q; by rewrite Eq).
  assert (is_Some (q_heap q !! p)) as Hh by (apply (di_alloc _ Hd); rewrite El; by left).
  assert (forall r, id_of q' r = id_of q r) as Hids by (intros r; by apply (id_alter (set_running now))).
  assert (forall l : list nat, id_of q' <$> l = id_of q <$> l) as Hl
    by (intros l; apply list_fmap_ext; auto).
  assert (forall r, deref q' r = if decide (p = r) then set_running now (deref q r) else deref q r) as Hr
    by (intros r; by apply deref_alter).
  pose proof (di_ids _ Hd) as Hn. fold q in Hn. rewrite El in Hn. cbn in Hn.
  apply NoDup_cons in Hn as [Hp Hn].
  assert (forall st r, r ∈ (rest ++ dm_running d)%list -> tracked q st r -> tracked q' st r) as Ht.
  { intros st r Hr' [H1 H2]. split; [by rewrite Hids|]. rewrite Hr, decide_False; [done|].
    intros ->. apply Hp. by apply list_elem_of_fmap_2. }
  destruct Hd as [D1 D2 D3 D4 D5 D6 D7 D8 D9]. fold q in D1, D2, D3, D4, D5, D6, D7, D8, D9.
  rewrite Eq in D5, D8, D9. rewrite El in D2.
  split; cbn [dm_queue dm_worker dm_running dm_next dm_accepted dm_taken].
  - intros r Hr'. cbn. rewrite lookup_alter_None. by apply D1.
  - unfold live. cbn. intros r Hr'. apply is_Some_alter, D2.
    rewrite !elem_of_app, list_elem_of_singleton in Hr'. rewrite elem_of_cons, elem_of_app. tauto.
  - rewrite Hl. unfold live. cbn [dm_queue dm_running q' q_queue].
    rewrite (assoc_L (++)), (comm (++) _ [p]). cbn. by apply NoDup_cons.
  - intros id. rewrite Hl. cbn. rewrite elem_of_union, elem_of_singleton, D4, fmap_app, elem_of_app. cbn.
    rewrite list_elem_of_singleton. tauto.
  - intros r Hr'. apply Ht; [apply elem_of_app; by left|]. apply D5. by right.
  - intros r [Hr'| ->%list_elem_of_singleton]%elem_of_app.
    + apply Ht; [apply elem_of_app; by right|by apply D6].
    + split; [|by rewrite Hr, decide_True]. rewrite Hids. apply D5. by left.
  - done.
  - cbn. by rewrite <- (assoc_L (++)).
  - intros Hm. cbn. rewrite <- (assoc_L (++)). by apply D9.
Qed.

Lemma EvFinish_inv order d now i r : daemon_inv d -> daemon_inv (daemon_step order d (EvFinish now i r)).
Proof.
  intros Hd. cbn [daemon_step]. destruct (dm_running d !! i) as [p|] eqn:Ei; [|done].
  set (q := dm_queue d). set (f := match tr_Error r with Some m => set_failed m now | None => set_done now end).
  assert (complete order now (id_of q p) r q = finish order f (id_of q p) q) as ->
    by (unfold complete, f; by destruct (tr_Error r)).
  assert (keeps_id f) as Hf by (intros t; unfold f; by destruct (tr_Error r)).
  assert (p ∈ dm_running d) as Hrun by by eapply list_elem_of_lookup_2.
  destruct (di_running _ Hd p Hrun) as [Hs _]. fold q in Hs. unfold finish. rewrite Hs.
  set (q1 := mkQueue _ _ _ _ _ _). destruct (pruneStatuses_frame order q1) as (F1 & F2 & F3 & F4 & F5).
  set (q' := pruneStatuses order q1) in *.
  assert (is_Some (q_heap q !! p)) as Hh by (apply (di_alloc _ Hd), elem_of_app; by right).
  assert (forall x, id_of q' x = id_of q x) as Hids.
  { intros x. unfold id_of, deref. rewrite F1. by apply id_alter. }
  assert (forall l : list nat, id_of q' <$> l = id_of q <$> l) as Hl
    by (intros l; apply list_fmap_ext; auto).
  pose proof (delete_Permutation _ _ _ Ei) as Hperm. set (others := delete i (dm_running d)) in *.
  assert (live d ≡ₚ p :: (q_queue q ++ others))%list as El.
  { unfold live. fold q. rewrite Hperm. by rewrite <- Permutation_middle. }
  pose proof (di_ids _ Hd) as Hn. fold q in Hn. rewrite El in Hn. cbn in Hn.
  apply NoDup_cons in Hn as [Hp Hn].
  assert (forall st x, st = StatusPending \/ st = StatusRunning ->
    x ∈ (q_queue q ++ others)%list -> tracked q st x -> tracked q' st x) as Ht.
  { intros st x Hst Hx [H1 H2]. apply pruneStatuses_tracked; [done|].
    assert (deref q1 x = deref q x) as Hx'.
    { unfold deref. cbn. rewrite (deref_alter _ _ _ _ Hh), decide_False; [done|].
      intros ->. apply Hp. by apply list_elem_of_fmap_2. }
    unfold tracked, id_of. by rewrite Hx'. }
  destruct Hd as [D1 D2 D3 D4 D5 D6 D7 D8 D9]. fold q in D1, D2, D3, D4, D5, D6, D7, D8, D9.
  split; cbn [dm_queue dm_worker dm_running dm_next dm_accepted dm_taken]; rewrite ?F1, ?F2, ?F3, ?F4, ?F5;
    cbn [q1 q_heap q_queue q_active q_token q_maxSize].
  - intros x Hx. rewrite lookup_alter_None. by apply D1.
  - unfold live. cbn [dm_queue dm_running]. rewrite F2. cbn. intros x Hx. apply is_Some_alter, D2.
    rewrite El. by right.
  - rewrite Hl. unfold live. cbn [dm_queue dm_running]. rewrite F2. done.
  - intros id. rewrite Hl, elem_of_difference, D4, elem_of_singleton. rewrite Hperm. cbn.
    rewrite elem_of_cons. split; [tauto|]. intros Hin. split; [by right|]. intros ->. apply Hp.
    rewrite fmap_app. apply elem_of_app. by right.
  - intros x Hx. apply Ht; [by left|apply elem_of_app; by left|by apply D5].
  - intros x Hx. apply Ht; [by right|apply elem_of_app; by right|]. apply D6. rewrite Hperm. by right.
  - done.
  - done.
  - done.
Qed.

Lemma daemon_run_inv order maxSize evs : daemon_inv (daemon_run order maxSize evs).
Proof.
  unfold daemon_run. generalize (daemon_start_inv maxSize). generalize (daemon_start maxSize).
  induction evs as [|e evs IH]; intros d Hd; [done|]. apply IH. destruct e as [now t|now| |now i r].
  - by apply EvEnqueue_inv.
  - by apply EvWorker_inv.
  - destruct Hd. split; try done. cbn. by destruct (dm_worker d).
  - by apply EvFinish_inv.
Qed.

(** Every task is accepted once. *)
Definition accepted_inv (d : daemon) : Prop :=
  NoDup (dm_accepted d) /\ forall p, p ∈ dm_accepted d -> (p < dm_next d)%nat.

Lemma accepted_run order maxSize evs : accepted_inv (daemon_run order maxSize evs).
Proof.
  unfold daemon_run. assert (accepted_inv (daemon_start maxSize)) as H0
    by (split; [constructor|by intros p ?%elem_of_nil]).
  revert H0. generalize (daemon_start maxSize).
  induction evs as [|e evs IH]; intros d [Hn Hl]; [done|]. apply IH.
  destruct e as [now t|now| |now i r]; cbn.
  - case_decide as Hin; split; cbn; [|intros p [Hp| ->%list_elem_of_singleton]%elem_of_app; [apply Hl in Hp|]; lia|done
      |intros p Hp%Hl; lia].
    apply NoDup_app. split_and!; [done| |apply NoDup_singleton].
    intros p Hp%Hl ->%list_elem_of_singleton. lia.
  - by repeat (case_match; try done).
  - done.
  - by case_match.
Qed.

Lemma queue_nodup order maxSize evs :
  let d := daemon_run order maxSize evs in
  NoDup (dm_taken d) /\ NoDup (dm_taken d ++ q_queue (dm_queue d))%list.
Proof.
  intros d. destruct (accepted_run order maxSize evs) as [Hn _].
  eapply sublist_NoDup in Hn; [|exact (di_order _ (daemon_run_inv order maxSize evs))].
  split; [|exact Hn]. by apply NoDup_app in Hn as [Hn _].
Qed.

(** ** What the queue promises *)

(** C22: no task ID runs or waits twice: in every interleaving of callers, the
    worker and the goroutines of tasks, the IDs of the waiting and executing
    tasks are distinct, exactly the executing ones are active, and the status
    table says pending and running of them. *)
Theorem queue_exclusive (order : gmap string nat -> list string) (maxSize : Z) (evs : list daemon_event) :
  let d := daemon_run order maxSize evs in
  let q := dm_queue d in
  NoDup (id_of q <$> (q_queue q ++ dm_running d)%list) /\
  (forall id, id ∈ q_active q <-> id ∈ (id_of q <$> dm_running d)) /\
  (forall p, p ∈ q_queue q -> Status q (id_of q p) = StatusPending) /\
  (forall p, p ∈ dm_running d -> Status q (id_of q p) = StatusRunning).
Proof.
  intros d q. destruct (daemon_run_inv order maxSize evs) as [_ _ D3 D4 D5 D6 _ _ _].
  split_and!; [exact D3|exact D4| |]; intros p Hp; unfold Status; [apply D5 in Hp|apply D6 in Hp];
    destruct Hp as [Hs Ht]; fold d q in Hs; by rewrite Hs.
Qed.

(** tasks are taken in the order in which they were accepted, none twice, and
    an unlimited queue skips none. *)
Theorem queue_fifo (order : gmap string nat -> list string) (maxSize : Z) (evs : list daemon_event) :
  let d := daemon_run order maxSize evs in
  NoDup (dm_taken d) /\ sublist (dm_taken d ++ q_queue (dm_queue d))%list (dm_accepted d) /\
  (q_maxSize (dm_queue d) <= 0 -> dm_accepted d = (dm_taken d ++ q_queue (dm_queue d))%list).
Proof.
  intros d. destruct (daemon_run_inv order maxSize evs) as [_ _ _ _ _ _ _ D8 D9].
  split_and!; [apply (queue_nodup order maxSize evs)|done|done].
Qed.

(** the worker never sleeps through a task: as long as it was not stopped, it
    takes the oldest waiting task within two of its steps, however the calls
    of [Enqueue] and its own looks at the queue interleaved before. *)
Theorem queue_progress (order : gmap string nat -> list string) (maxSize : Z) (evs : list daemon_event)
    (p : nat) (rest : list nat) (now : Z) :
  let d := daemon_run order maxSize evs in
  q_queue (dm_queue d) = p :: rest -> dm_worker d <> WStopped ->
  exists n, (n <= 2)%nat /\
    let d' := Nat.iter n (fun d => daemon_step order d (EvWorker now)) d in
    dm_taken d' = (dm_taken d ++ [p])%list /\ p ∈ dm_running d'.
Proof.
  intros d Hq Hw. pose proof (di_wake _ (daemon_run_inv order maxSize evs)) as Hwake. fold d in Hwake.
  rewrite Hq in Hwake. destruct (dm_worker d) eqn:Ew; [| |done].
  - exists 1%nat. split; [lia|]. cbn. rewrite Ew. unfold take. rewrite Hq. cbn. split; [done|].
    apply elem_of_app. right. by apply list_elem_of_singleton.
  - exists 2%nat. split; [lia|]. cbn. rewrite Ew, Hwake by done. cbn. unfold take. cbn. rewrite Hq. cbn.
    split; [done|]. apply elem_of_app. right. by apply list_elem_of_singleton.
Qed.

Definition job (id : string) : Task := mkTask id "scheduler" "run" 0 "" "" 0 0 None.

Lemma queue_progress_witness :
  let d := daemon_run (fun m => (map_to_list m).*1) 2
    [EvWorker 0; EvEnqueue 1 (job "a"); EvEnqueue 2 (job "a"); EvEnqueue 3 (job "b")] in
  dm_worker d = WWait /\ q_queue (dm_queue d) = [0; 2]%nat /\
  exists n, (n <= 2)%nat /\
    dm_taken (Nat.iter n (fun d => daemon_step (fun m => (map_to_list m).*1) d (EvWorker 9)) d) = [0%nat].
Proof.
  intros d. split; [vm_compute; reflexivity|]. split; [vm_compute; reflexivity|].
  destruct (queue_progress (fun m => (map_to_list m).*1) 2
    [EvWorker 0; EvEnqueue 1 (job "a"); EvEnqueue 2 (job "a"); EvEnqueue 3 (job "b")] 0 [2%nat] 9)
    as (n & Hn & Ht & _); [vm_compute; reflexivity|vm_compute; discriminate|].
  exists n. split; [exact Hn|]. exact Ht.
Defined.

Lemma finish_queue order f id q : q_queue (finish order f id q) = q_queue q.
Proof. unfold finish. set (q1 := mkQueue _ _ _ _ _ _). by destruct (pruneStatuses_frame order q1) as (_ & -> & _). Qed.

(** A task that is gone: accepted once, neither waiting nor taken. *)
Definition gone (p : nat) (d : daemon) : Prop :=
  (p < dm_next d)%nat /\ (p ∉ q_queue (dm_queue d)) /\ p ∉ dm_taken d.

Lemma gone_step order p d e : gone p d -> gone p (daemon_step order d e).
Proof.
  intros (Hn & Hq & Ht). destruct e as [now t|now| |now i r]; cbn [daemon_step].
  - split_and!; cbn [dm_next dm_queue dm_taken]; [lia| |done]. unfold Enqueue.
    case_bool_decide; [done|]. destruct (queued _ _); [done|]. cbn [snd q_queue].
    destruct (make_room_frame (allocate (dm_next d) t (dm_queue d))) as (_ & _ & Hs).
    intros [Hp| ->%list_elem_of_singleton]%elem_of_app; [|lia].
    by apply Hq, (elem_of_sublist _ _ _ Hp Hs).
  - destruct (dm_worker d); [| |done].
    + unfold take. destruct (q_queue (dm_queue d)) as [|x rest] eqn:Eq; [by split_and!; cbn; rewrite ?Eq|].
      apply not_elem_of_cons in Hq as [Hx Hq]. split_and!; cbn; [done|done|].
      by rewrite elem_of_app, list_elem_of_singleton; intros [?|?].
    + destruct (q_token _); by split_and!.
  - by split_and!.
  - destruct (dm_running d !! i) as [x|]; [|by split_and!]. split_and!; [done| |done].
    cbn. unfold complete. destruct (tr_Error r); unfold Done, Failed; by rewrite finish_queue.
Qed.

(** a full queue loses tasks without a word: when a task with a new ID
    arrives, [Enqueue] reports no error, the oldest waiting task leaves the
    queue and the status table, and it is never executed. *)
Theorem full_queue_drops (order : gmap string nat -> list string) (maxSize : Z) (evs more : list daemon_event)
    (now : Z) (t : Task) (x : nat) (rest : list nat) :
  let d := daemon_run order maxSize evs in
  0 < q_maxSize (dm_queue d) -> Z.of_nat (length (q_queue (dm_queue d))) = q_maxSize (dm_queue d) ->
  q_queue (dm_queue d) = x :: rest -> tk_ID t ∉ (id_of (dm_queue d) <$> live d) ->
  let d' := daemon_step order d (EvEnqueue now t) in
  (Enqueue now (dm_next d) (allocate (dm_next d) t (dm_queue d))).1 = None /\
  q_queue (dm_queue d') = (rest ++ [dm_next d])%list /\
  Status (dm_queue d') (id_of (dm_queue d) x) = "" /\
  x ∉ dm_taken (foldl (daemon_step order) d' more).
Proof.
  intros d Hm Hlen Hq Hid d'. pose proof (daemon_run_inv order maxSize evs) as Hd. fold d in Hd.
  assert (x ∈ live d) as Hx by (apply elem_of_app; left; rewrite Hq; by left).
  pose proof (live_allocated _ _ Hd Hx) as Hlt. set (p := dm_next d) in *.
  set (q0 := allocate p t (dm_queue d)).
  assert (forall r, r ∈ live d -> id_of q0 r = id_of (dm_queue d) r) as Hr.
  { intros r Hr%live_allocated; [|done]. unfold id_of, deref, q0. cbn.
    rewrite lookup_insert_ne by (unfold p; lia). done. }
  assert (id_of q0 p = tk_ID t) as Hp by (unfold id_of, deref, q0; cbn; by rewrite lookup_insert_eq).
  assert (make_room q0 = mkQueue (q_heap q0) rest (q_active q0) (q_token q0) (q_maxSize q0)
    (delete (id_of (dm_queue d) x) (q_statuses q0))) as Hroom.
  { unfold make_room. cbn [q0 allocate q_maxSize q_queue]. rewrite Hlen.
    rewrite (proj2 (Z.ltb_lt _ _) Hm), Z.leb_refl. cbn [andb]. rewrite Hq. by rewrite Hr. }
  assert (Enqueue now p q0 = (None, mkQueue (alter (set_pending now) p (q_heap q0)) (rest ++ [p])%list
    (q_active q0) true (q_maxSize q0)
    (<[tk_ID t := p]> (delete (id_of (dm_queue d) x) (q_statuses q0))))) as He.
  { unfold Enqueue. rewrite Hp. rewrite bool_decide_eq_false_2.
    2:{ intros Ha%(di_active _ Hd). apply Hid. unfold live. rewrite fmap_app. apply elem_of_app. by right. }
    destruct (queued q0 (tk_ID t)) eqn:Eq; [|by rewrite Hroom].
    apply queued_spec, list_elem_of_fmap in Eq as (r & Er & Hrq). cbn in Hrq. destruct Hid.
    assert (r ∈ live d) as Hrl by (apply elem_of_app; by left).
    rewrite Er, Hr by done. by apply list_elem_of_fmap_2. }
  assert (dm_queue d' = mkQueue (alter (set_pending now) p (q_heap q0)) (rest ++ [p])%list
    (q_active q0) true (q_maxSize q0)
    (<[tk_ID t := p]> (delete (id_of (dm_queue d) x) (q_statuses q0)))) as Hd'
    by (change (dm_queue d') with (Enqueue now p q0).2; by rewrite He).
  assert (id_of (dm_queue d) x <> tk_ID t) as Hne.
  { intros E. apply Hid. rewrite <- E. by apply list_elem_of_fmap_2. }
  fold q0. rewrite He, Hd'. split_and!; [done|done| |].
  - unfold Status. cbn. rewrite lookup_insert_ne, lookup_delete_eq by done. done.
  - assert (gone x d') as Hg.
    { destruct (queue_nodup order maxSize evs) as [_ Hn]. fold d in Hn. rewrite Hq in Hn.
      apply NoDup_app in Hn as (_ & Ht & Hr').
      apply NoDup_cons in Hr' as [Hxr _]. split_and!.
      - cbn. fold p. lia.
      - rewrite Hd'. cbn. rewrite elem_of_app, list_elem_of_singleton. intros [?|?]; [done|]. lia.
      - cbn. intros Hx'. apply (Ht x Hx'). by left. }
    clear -Hg. revert Hg. generalize d'. induction more as [|e more IH]; intros d'' Hg; [apply Hg|].
    apply IH. by apply gone_step.
Qed.

Lemma full_queue_drops_witness :
  let order := fun m : gmap string nat => (map_to_list m).*1 in
  let d := daemon_run order 1 [EvEnqueue 1 (job "a")] in
  let d' := daemon_step order d (EvEnqueue 2 (job "b")) in
  Status (dm_queue d') "a" = "" /\
  ~ (0%nat ∈ dm_taken (foldl (daemon_step order) d' [EvWorker 3; EvWorker 4; EvWorker 5])).
Proof.
  intros order d d'.
  destruct (full_queue_drops order 1 [EvEnqueue 1 (job "a")] [EvWorker 3; EvWorker 4; EvWorker 5]
    2 (job "b") 0 []) as (_ & _ & Hs & Ht); [reflexivity|reflexivity|reflexivity| |].
  - intros H. vm_compute in H. by apply list_elem_of_singleton in H.
  - split; [exact Hs|exact Ht].
Defined.
