(* ===== verification/LruCache.v ===== *)
(** * The response cache (src/internal/cache/cache.go)

    A map from keys to list elements and a doubly linked list, as the code has
    them: [c_items] points into [c_elems], the elements by address, and
    [c_list] is the list from front to back.  Each method holds the cache's
    mutex, so it is one step; [now] is what the clock says in it.  The cleanup
    goroutine is [cleanupExpired] at any time.  The second half states the
    contract as a list of entries ordered by their last use and proves that
    the pointer version implements it. *)

From S2P Require Import Prelude GoStrings.

#[local] Open Scope string_scope.
#[local] Open Scope Z_scope.

(** ** Definitions *)

Record Config := mkConfig { cf_Enabled : bool; cf_MaxEntries : Z; cf_TTL : Z }.

Definition defaultCacheTTL : Z := 3600 * 10 ^ 9.

Record entry := mkEntry { en_key : string; en_value : string; en_expiresAt : Z }.
Definition zero_entry : entry := mkEntry "" "" 0.

Record Cache := mkCache {
  c_config : Config;
  c_items : gmap string nat;
  c_list : list nat;
  c_elems : gmap nat entry;
  c_next : nat;
  c_hits : Z;
  c_misses : Z
}.

Definition NewCache (c : Config) : Cache :=
  let max := if cf_MaxEntries c <=? 0 then 100 else cf_MaxEntries c in
  let ttl := if cf_Enabled c && (cf_TTL c <=? 0) then defaultCacheTTL else cf_TTL c in
  mkCache (mkConfig (cf_Enabled c) max ttl) ∅ [] ∅ 0 0 0.

Definition elem (c : Cache) (p : nat) : entry := default zero_entry (c_elems c !! p).

Definition miss (c : Cache) : Cache :=
  mkCache (c_config c) (c_items c) (c_list c) (c_elems c) (c_next c) (c_hits c) (c_misses c + 1).

Definition list_Remove (p : nat) (l : list nat) : list nat := filter (fun r => r <> p) l.
Definition list_MoveToFront (p : nat) (l : list nat) : list nat := p :: list_Remove p l.

(** [c.lruList.Remove(elem); delete(c.items, key)] *)
Definition drop_elem (p : nat) (key : string) (c : Cache) : Cache :=
  mkCache (c_config c) (delete key (c_items c)) (list_Remove p (c_list c)) (c_elems c) (c_next c)
    (c_hits c) (c_misses c).

Definition Get (now : Z) (key : string) (c : Cache) : option string * Cache :=
  if negb (cf_Enabled (c_config c)) then (None, miss c) else
  match c_items c !! key with
  | None => (None, miss c)
  | Some p =>
      if en_expiresAt (elem c p) <? now then (None, miss (drop_elem p key c)) else
      (Some (en_value (elem c p)),
       mkCache (c_config c) (c_items c) (list_MoveToFront p (c_list c)) (c_elems c) (c_next c)
         (c_hits c + 1) (c_misses c))
  end.

Definition evict (c : Cache) : Cache :=
  if cf_MaxEntries (c_config c) <=? Z.of_nat (length (c_list c)) then
    match last (c_list c) with
    | Some p => drop_elem p (en_key (elem c p)) c
    | None => c
    end
  else c.

Definition Set_ (now : Z) (key value : string) (c : Cache) : Cache :=
  if negb (cf_Enabled (c_config c)) then c else
  match c_items c !! key with
  | Some p =>
      mkCache (c_config c) (c_items c) (list_MoveToFront p (c_list c))
        (alter (fun e => mkEntry (en_key e) value (now + cf_TTL (c_config c))) p (c_elems c))
        (c_next c) (c_hits c) (c_misses c)
  | None =>
      let c1 := evict c in
      let p := c_next c1 in
      mkCache (c_config c1) (<[key := p]> (c_items c1)) (p :: c_list c1)
        (<[p := mkEntry key value (now + cf_TTL (c_config c))]> (c_elems c1)) (S p)
        (c_hits c1) (c_misses c1)
  end.

Definition Delete (key : string) (c : Cache) : Cache :=
  match c_items c !! key with
  | Some p => drop_elem p key c
  | None => c
  end.

Definition Clear (c : Cache) : Cache :=
  mkCache (c_config c) ∅ [] ∅ (c_next c) 0 0.

Definition cleanup_one (now : Z) (c : Cache) (p : nat) : Cache :=
  if en_expiresAt (elem c p) <? now then drop_elem p (en_key (elem c p)) c else c.
(** From the back of the list to its front. *)
Definition cleanupExpired (now : Z) (c : Cache) : Cache :=
  foldl (cleanup_one now) c (reverse (c_list c)).

Definition Len (c : Cache) : Z := Z.of_nat (length (c_list c)).
(** The counters of [Stats]; the hit rate is their quotient. *)
Definition Stats (c : Cache) : Z * Z * Z := (c_hits c, c_misses c, c_hits c + c_misses c).

(** ** Histories *)

Inductive cache_op :=
  | OpGet (key : string)
  | OpSet (key value : string)
  | OpDelete (key : string)
  | OpClear
  | OpCleanup.

Definition cache_step (c : Cache) (e : Z * cache_op) : Cache :=
  match e.2 with
  | OpGet k => (Get e.1 k c).2
  | OpSet k v => Set_ e.1 k v c
  | OpDelete k => Delete k c
  | OpClear => Clear c
  | OpCleanup => cleanupExpired e.1 c
  end.
Definition cache_run (c : Cache) (evs : list (Z * cache_op)) : Cache := foldl cache_step c evs.

(** ** The contract: entries in the order of their last use *)

Definition of_key (key : string) (l : list entry) : option entry :=
  snd <$> list_find (fun e => en_key e = key) l.
Definition without (key : string) (l : list entry) : list entry :=
  filter (fun e => en_key e <> key) l.

Definition lru_get (now : Z) (key : string) (l : list entry) : option string * list entry :=
  match of_key key l with
  | None => (None, l)
  | Some e =>
      if en_expiresAt e <? now then (None, without key l)
      else (Some (en_value e), e :: without key l)
  end.

Definition lru_set (max ttl now : Z) (key value : string) (l : list entry) : list entry :=
  let e := mkEntry key value (now + ttl) in
  match of_key key l with
  | Some _ => e :: without key l
  | None => e :: (if max <=? Z.of_nat (length l) then removelast l else l)
  end.

Definition lru_step (max ttl : Z) (l : list entry) (e : Z * cache_op) : list entry :=
  match e.2 with
  | OpGet k => (lru_get e.1 k l).2
  | OpSet k v => lru_set max ttl e.1 k v l
  | OpDelete k => without k l
  | OpClear => []
  | OpCleanup => filter (fun x => e.1 <= en_expiresAt x) l
  end.

Definition abs (c : Cache) : list entry := elem c <$> c_list c.

(** ** The invariant of the pointer structure *)

Record cache_inv (c : Cache) : Prop := {
  ci_nodup : NoDup (c_list c);
  ci_items : forall k p, c_items c !! k = Some p <-> p ∈ c_list c /\ en_key (elem c p) = k;
  ci_alloc : forall p, p ∈ c_list c -> is_Some (c_elems c !! p) /\ (p < c_next c)%nat;
  ci_max : 1 <= cf_MaxEntries (c_config c);
  ci_bound : Z.of_nat (length (c_list c)) <= cf_MaxEntries (c_config c)
}.

Lemma filter_in_ext {A} (P Q : A -> Prop) `{!forall x, Decision (P x)} `{!forall x, Decision (Q x)} (l : list A) :
  (forall x, x ∈ l -> P x <-> Q x) -> filter P l = filter Q l.
Proof.
  induction l as [|x l IH]; intros Heq; [done|].
  assert (P x <-> Q x) as Hx by (apply Heq; by left).
  assert (filter P l = filter Q l) as IH' by (apply IH; intros y ?; apply Heq; by right).
  destruct (decide (P x)) as [HP|HP].
  - rewrite !filter_cons_True by tauto. by rewrite IH'.
  - rewrite !filter_cons_False by tauto. done.
Qed.

Lemma fmap_filter {A B} (f : A -> B) (P : B -> Prop) `{!forall x, Decision (P x)} (l : list A) :
  filter P (f <$> l) = f <$> filter (fun x => P (f x)) l.
Proof.
  induction l as [|x l IH]; [done|]. rewrite fmap_cons. destruct (decide (P (f x))).
  - rewrite !filter_cons_True by done. by rewrite IH, fmap_cons.
  - by rewrite !filter_cons_False.
Qed.

Lemma remove_last {A} `{EqDecision A} (l : list A) p : NoDup l -> last l = Some p ->
  filter (fun r => r <> p) l = removelast l.
Proof.
  intros Hn (l' & ->)%last_Some. apply NoDup_app in Hn as (_ & Hp & _).
  rewrite filter_app, removelast_last, (filter_cons_False _ p []) by tauto.
  rewrite list_filter_all; [apply app_nil_r|].
  apply Forall_forall. intros r Hr ->. apply (Hp p Hr). by apply list_elem_of_singleton.
Qed.

Section keys.
Context (c : Cache) (Hc : cache_inv c).

Lemma key_inj p r : p ∈ c_list c -> r ∈ c_list c -> en_key (elem c p) = en_key (elem c r) -> p = r.
Proof using Hc.
  intros Hp Hr E. assert (c_items c !! en_key (elem c p) = Some p) as H1 by (by apply (ci_items _ Hc)).
  assert (c_items c !! en_key (elem c p) = Some r) as H2 by (by apply (ci_items _ Hc)). congruence.
Qed.

Lemma abs_remove k p : c_items c !! k = Some p ->
  elem c <$> list_Remove p (c_list c) = without k (abs c).
Proof using Hc.
  intros [Hp Hk]%(ci_items _ Hc). unfold without, abs, list_Remove. rewrite fmap_filter. f_equal.
  apply filter_in_ext. intros r Hr. split.
  - intros Hne E. apply Hne. apply key_inj; congruence.
  - by intros Hne ->.
Qed.

Lemma of_key_abs k : of_key k (abs c) = elem c <$> c_items c !! k.
Proof using Hc.
  unfold of_key. destruct (c_items c !! k) as [p|] eqn:E.
  - apply (ci_items _ Hc) in E as [Hp Hk].
    destruct (list_find_elem_of (fun e => en_key e = k) (abs c) (elem c p)) as [[i e] He];
      [by apply list_elem_of_fmap_2|done|].
    rewrite He. cbn. f_equal. apply list_find_Some in He as (He & Hke & _).
    apply list_lookup_fmap_Some in He as (r & -> & Hr%list_elem_of_lookup_2).
    f_equal. apply key_inj; congruence.
  - cbn. destruct (list_find _ _) as [[i e]|] eqn:Ef; [|done]. cbn. exfalso.
    apply list_find_Some in Ef as (He & Hke & _).
    apply list_lookup_fmap_Some in He as (r & -> & Hr%list_elem_of_lookup_2).
    assert (c_items c !! k = Some r) by (by apply (ci_items _ Hc)). congruence.
Qed.

Lemma drop_elem_inv k p : c_items c !! k = Some p ->
  cache_inv (drop_elem p k c) /\ abs (drop_elem p k c) = without k (abs c).
Proof using Hc.
  intros Hk. split; [|by apply abs_remove].
  pose proof (proj1 (ci_items _ Hc k p) Hk) as [Hp Hek].
  assert (forall r, r ∈ list_Remove p (c_list c) <-> r ∈ c_list c /\ r <> p) as Hr.
  { intros r. unfold list_Remove. rewrite list_elem_of_filter. tauto. }
  destruct Hc as [C1 C2 C3 C4 C5]. split; cbn [drop_elem c_list c_items c_elems c_next c_config].
  - by apply NoDup_filter.
  - intros k' r. rewrite Hr. change (elem (drop_elem p k c) r) with (elem c r).
    rewrite lookup_delete_Some, C2. split.
    + intros (Hne & Hin & <-). split_and!; [done| |done]. intros ->. congruence.
    + intros ((Hin & Hne) & <-). split_and!; [|done|done]. intros ->. apply Hne, key_inj; congruence.
  - intros r [Hin _]%Hr. by apply C3.
  - done.
  - etrans; [|exact C5]. pose proof (length_filter (fun r => r <> p) (c_list c)). unfold list_Remove. lia.
Qed.
End keys.

(** Moving an element to the front, with a possibly new value for it. *)
Lemma front_inv c k p f hits misses : cache_inv c -> c_items c !! k = Some p ->
  (forall e, en_key (f e) = en_key e) ->
  let c' := mkCache (c_config c) (c_items c) (list_MoveToFront p (c_list c)) (alter f p (c_elems c))
    (c_next c) hits misses in
  cache_inv c' /\ abs c' = f (elem c p) :: without k (abs c).
Proof.
  intros Hc Hk Hf c'. pose proof (proj1 (ci_items _ Hc k p) Hk) as [Hp Hek].
  assert (forall r, r ∈ list_MoveToFront p (c_list c) <-> r ∈ c_list c) as Hr.
  { intros r. unfold list_MoveToFront, list_Remove. rewrite elem_of_cons, list_elem_of_filter.
    destruct (decide (r = p)) as [->|]; tauto. }
  assert (elem c' p = f (elem c p)) as Hep.
  { unfold elem. cbn. rewrite lookup_alter_eq. destruct (ci_alloc _ Hc p Hp) as [[e He] _]. by rewrite He. }
  assert (forall r, r <> p -> elem c' r = elem c r) as Hne
    by (intros r ?; unfold elem; cbn; by rewrite lookup_alter_ne).
  split.
  - assert (forall r, en_key (elem c' r) = en_key (elem c r)) as Hkey.
    { intros r. destruct (decide (r = p)) as [->|?]; [by rewrite Hep|by rewrite Hne]. }
    assert (length (list_MoveToFront p (c_list c)) = length (c_list c)) as Hlen.
    { apply Permutation_length, NoDup_Permutation.
      - apply NoDup_cons. split; [by intros [? _]%list_elem_of_filter|]. apply NoDup_filter, (ci_nodup _ Hc).
      - apply (ci_nodup _ Hc).
      - exact Hr. }
    destruct Hc as [C1 C2 C3 C4 C5]. split; cbn [c' c_list c_items c_elems c_next c_config].
    + apply NoDup_cons. split; [by intros [? _]%list_elem_of_filter|]. by apply NoDup_filter.
    + intros k' r. rewrite Hr. fold c'. rewrite Hkey. apply C2.
    + intros r Hin%Hr. destruct (C3 r Hin) as [Hs Hl]. split; [|done].
      destruct (decide (r = p)) as [->|?].
      * rewrite lookup_alter_eq. by apply fmap_is_Some.
      * by rewrite lookup_alter_ne.
    + done.
    + by rewrite Hlen.
  - unfold abs at 1. cbn [c' c_list]. fold c'. unfold list_MoveToFront. rewrite fmap_cons, Hep. f_equal.
    rewrite <- (abs_remove c Hc k p Hk). apply list_fmap_ext. intros i r Hin%list_elem_of_lookup_2.
    apply Hne. by apply list_elem_of_filter in Hin as [? _].
Qed.

Lemma miss_inv c : cache_inv c -> cache_inv (miss c).
Proof. intros [C1 C2 C3 C4 C5]. by split. Qed.

Lemma Get_refines now k c : cache_inv c -> cf_Enabled (c_config c) = true ->
  cache_inv (Get now k c).2 /\ (Get now k c).1 = (lru_get now k (abs c)).1 /\
  abs (Get now k c).2 = (lru_get now k (abs c)).2.
Proof.
  intros Hc He. unfold Get, lru_get. rewrite He, of_key_abs by done. cbn [negb].
  destruct (c_items c !! k) as [p|] eqn:Ek; cbn [fmap option_fmap option_map]; [|].
  - destruct (en_expiresAt (elem c p) <? now) eqn:Ex.
    + destruct (drop_elem_inv c Hc k p Ek) as [Hi Ha]. split_and!; [by apply miss_inv|done|exact Ha].
    + destruct (front_inv c k p (fun e => e) (c_hits c + 1) (c_misses c) Hc Ek) as [Hi Ha]; [done|].
      assert (alter (fun e : entry => e) p (c_elems c) = c_elems c) as E by apply alter_id, (fun _ _ => eq_refl).
      rewrite E in Hi, Ha. by split_and!.
  - split_and!; [by apply miss_inv|done|done].
Qed.

Lemma evict_inv c : cache_inv c ->
  cache_inv (evict c) /\
  abs (evict c) = (if cf_MaxEntries (c_config c) <=? Z.of_nat (length (abs c)) then removelast (abs c) else abs c) /\
  Z.of_nat (length (c_list (evict c))) < cf_MaxEntries (c_config c) /\
  c_config (evict c) = c_config c /\ c_next (evict c) = c_next c /\
  (forall k, c_items c !! k = None -> c_items (evict c) !! k = None).
Proof.
  intros Hc. unfold evict. assert (length (abs c) = length (c_list c)) as -> by apply length_fmap.
  destruct (Z.leb_spec (cf_MaxEntries (c_config c)) (Z.of_nat (length (c_list c)))) as [Hle|Hlt]; [|by split_and!].
  destruct (last (c_list c)) as [p|] eqn:El.
  2:{ apply last_None in El. pose proof (ci_max _ Hc). rewrite El in Hle. cbn in Hle. lia. }
  assert (c_items c !! en_key (elem c p) = Some p) as Hk.
  { apply (ci_items _ Hc). split; [|done]. apply last_Some in El as (l' & ->).
    apply elem_of_app. right. by apply list_elem_of_singleton. }
  destruct (drop_elem_inv c Hc _ _ Hk) as [Hi Ha]. split_and!; [done| | |done|done|].
  - unfold abs at 1. cbn [drop_elem c_list]. unfold list_Remove.
    rewrite (remove_last _ _ (ci_nodup _ Hc) El). apply last_Some in El as (l' & E).
    unfold abs. change (elem (drop_elem p (en_key (elem c p)) c)) with (elem c).
    rewrite E, removelast_last, fmap_app. symmetry. apply removelast_last.
  - cbn. unfold list_Remove. rewrite (remove_last _ _ (ci_nodup _ Hc) El).
    apply last_Some in El as (l' & E). pose proof (ci_bound _ Hc) as Hb. rewrite E, length_app in Hb.
    rewrite E, removelast_last. cbn in Hb. lia.
  - intros k Hn. cbn. rewrite lookup_delete_None. by right.
Qed.

Lemma Set_refines now k v c : cache_inv c -> cf_Enabled (c_config c) = true ->
  cache_inv (Set_ now k v c) /\
  abs (Set_ now k v c) = lru_set (cf_MaxEntries (c_config c)) (cf_TTL (c_config c)) now k v (abs c).
Proof.
  intros Hc He. unfold Set_, lru_set. rewrite He, of_key_abs by done. cbn [negb].
  destruct (c_items c !! k) as [p|] eqn:Ek; cbn [fmap option_fmap option_map].
  - destruct (front_inv c k p (fun e => mkEntry (en_key e) v (now + cf_TTL (c_config c))) (c_hits c)
      (c_misses c) Hc Ek) as [Hi Ha]; [done|]. split; [exact Hi|]. rewrite Ha.
    cbn. by apply (ci_items _ Hc) in Ek as [_ ->].
  - destruct (evict_inv c Hc) as (Hi & Ha & Hlen & Hcfg & Hnext & Hnone).
    specialize (Hnone k Ek). set (c1 := evict c) in *. set (e := mkEntry k v _).
    set (c' := mkCache _ _ _ _ _ _ _).
    assert (forall r, r ∈ c_list c1 -> elem c' r = elem c1 r) as Hel.
    { intros r Hr. destruct (ci_alloc _ Hi r Hr) as [_ Hl]. unfold elem. cbn.
      rewrite lookup_insert_ne; [done|]. lia. }
    assert (elem c' (c_next c1) = e) as Hnew by (unfold elem; cbn; by rewrite lookup_insert_eq).
    assert (c_next c1 ∉ c_list c1) as Hfresh.
    { intros Hr. destruct (ci_alloc _ Hi _ Hr) as [_ Hl]. lia. }
    assert (forall k' r, <[k := c_next c1]> (c_items c1) !! k' = Some r <->
      r ∈ c_next c1 :: c_list c1 /\ en_key (elem c' r) = k') as Hitems.
    { intros k' r. rewrite elem_of_cons. destruct (decide (r = c_next c1)) as [->|Hne].
      - rewrite Hnew. cbn. split.
        + intros H. split; [by left|]. destruct (decide (k = k')) as [|Hk]; [done|].
          rewrite lookup_insert_ne in H by done. apply (ci_items _ Hi) in H as [? _]. done.
        + intros [_ <-]. by rewrite lookup_insert_eq.
      - rewrite lookup_insert_Some. split.
        + intros [[_ <-]|[Hk Hr]]; [done|]. apply (ci_items _ Hi) in Hr as [Hin <-]. split; [by right|].
          by rewrite Hel.
        + intros [[->|Hin] <-]; [done|]. right. rewrite Hel by done. split; [|by apply (ci_items _ Hi)].
          intros E. assert (c_items c1 !! k = Some r) as Hs by (rewrite E; by apply (ci_items _ Hi)). congruence. }
    split.
    + split; cbn [c' c_list c_items c_elems c_next c_config].
      * apply NoDup_cons. split; [done|apply (ci_nodup _ Hi)].
      * exact Hitems.
      * intros r [->|Hr]%elem_of_cons; [rewrite lookup_insert_eq; split; [eauto|lia]|].
        destruct (ci_alloc _ Hi r Hr) as [Hs Hl]. rewrite lookup_insert_ne by lia. split; [done|lia].
      * apply (ci_max _ Hi).
      * rewrite Hcfg. cbn [length]. lia.
    + unfold abs at 1. cbn [c' c_list]. fold c'. rewrite fmap_cons, Hnew. f_equal. rewrite <- Ha.
      apply list_fmap_ext. intros i r Hr%list_elem_of_lookup_2. by apply Hel.
Qed.

Lemma without_absent k l : of_key k l = None -> without k l = l.
Proof.
  unfold of_key. rewrite fmap_None. intros Hn%list_find_None. apply list_filter_all.
  eapply Forall_impl; [exact Hn|]. done.
Qed.

Lemma Delete_refines k c : cache_inv c -> cache_inv (Delete k c) /\ abs (Delete k c) = without k (abs c).
Proof.
  intros Hc. unfold Delete. destruct (c_items c !! k) as [p|] eqn:Ek; [by apply drop_elem_inv|].
  split; [done|]. rewrite without_absent; [done|]. by rewrite of_key_abs, Ek.
Qed.

Lemma cleanup_loop now ps : forall c, cache_inv c -> NoDup ps -> (forall p, p ∈ ps -> p ∈ c_list c) ->
  let c' := foldl (cleanup_one now) c ps in
  cache_inv c' /\ c_elems c' = c_elems c /\ c_config c' = c_config c /\
  c_list c' = filter (fun p => ~ (p ∈ ps /\ en_expiresAt (elem c p) < now)) (c_list c).
Proof.
  induction ps as [|p ps IH]; intros c Hc Hn Hin; cbn.
  { split_and!; [done|done|done|]. symmetry. apply list_filter_all, Forall_forall.
    by intros r _ [?%elem_of_nil _]. }
  apply NoDup_cons in Hn as [Hp Hn]. unfold cleanup_one at 2 4 6 8.
  destruct (Z.ltb_spec (en_expiresAt (elem c p)) now) as [Hx|Hx].
  - assert (c_items c !! en_key (elem c p) = Some p) as Hk.
    { apply (ci_items _ Hc). split; [apply Hin; by left|done]. }
    destruct (drop_elem_inv c Hc _ _ Hk) as [Hi _]. set (c1 := drop_elem _ _ c) in *.
    destruct (IH c1 Hi Hn) as (I1 & I2 & I3 & I4).
    { intros r Hr. cbn. apply list_elem_of_filter. split; [|apply Hin; by right]. by intros ->. }
    split_and!; [done|done|done|]. rewrite I4. cbn [c1 drop_elem c_list]. unfold list_Remove.
    rewrite list_filter_filter. apply filter_in_ext. intros r _.
    change (elem c1 r) with (elem c r). rewrite elem_of_cons. split.
    + intros [H1 H2] [[->|Hr] Hlt]; [done|]. by apply H1.
    + intros Hnot. split; [|intros ->; apply Hnot; auto]. intros [Hr Hlt]. apply Hnot. auto.
  - destruct (IH c Hc Hn) as (I1 & I2 & I3 & I4); [intros r Hr; apply Hin; by right|].
    split_and!; [done|done|done|]. rewrite I4. apply filter_in_ext. intros r _. rewrite elem_of_cons. split.
    + intros Hnot [[->|Hr] Hlt]; [lia|]. by apply Hnot.
    + intros Hnot [Hr Hlt]. apply Hnot. auto.
Qed.

Lemma cleanup_refines now c : cache_inv c ->
  cache_inv (cleanupExpired now c) /\ c_config (cleanupExpired now c) = c_config c /\
  abs (cleanupExpired now c) = filter (fun e => now <= en_expiresAt e) (abs c).
Proof.
  intros Hc. unfold cleanupExpired.
  destruct (cleanup_loop now (reverse (c_list c)) c Hc) as (I1 & I2 & I3 & I4).
  - rewrite reverse_Permutation. apply (ci_nodup _ Hc).
  - intros p. by rewrite elem_of_reverse.
  - split_and!; [done|done|]. unfold abs. rewrite I4, fmap_filter.
    assert (elem (foldl (cleanup_one now) c (reverse (c_list c))) = elem c) as ->
      by (unfold elem; by rewrite I2).
    f_equal. apply filter_in_ext. intros p Hp. rewrite elem_of_reverse. split; [intros Hnot|lia].
    destruct (Z.le_gt_cases now (en_expiresAt (elem c p))); [done|]. exfalso. apply Hnot. split; [done|lia].
Qed.

(** One operation of the pointer structure is one operation of the list. *)
Lemma cache_step_refines c e : cache_inv c -> cf_Enabled (c_config c) = true ->
  let cfg := c_config c in
  cache_inv (cache_step c e) /\ c_config (cache_step c e) = cfg /\
  abs (cache_step c e) = lru_step (cf_MaxEntries cfg) (cf_TTL cfg) (abs c) e.
Proof.
  intros Hc He cfg. destruct e as [now []]; cbn.
  - destruct (Get_refines now key c Hc He) as (H1 & _ & H3). split_and!; [done| |done].
    unfold Get. by repeat case_match.
  - destruct (Set_refines now key value c Hc He) as [H1 H2]. split_and!; [done| |done].
    unfold Set_. rewrite He. cbn. case_match; [done|]. cbn. apply (evict_inv c Hc).
  - destruct (Delete_refines key c Hc) as [H1 H2]. split_and!; [done| |done].
    unfold Delete. by case_match.
  - split_and!; [|done|done]. destruct Hc as [_ _ _ C4 _]. split; cbn; try done; try lia.
    + constructor.
    + intros k p. rewrite lookup_empty, elem_of_nil. by split; [|intros []].
    + by intros p ?%elem_of_nil.
  - destruct (cleanup_refines now c Hc) as (H1 & H2 & H3). done.
Qed.

Lemma NewCache_inv cfg : cache_inv (NewCache cfg).
Proof.
  assert (1 <= cf_MaxEntries (c_config (NewCache cfg))) as Hm
    by (cbn; destruct (Z.leb_spec (cf_MaxEntries cfg) 0); lia).
  split; [constructor| | |exact Hm|cbn in *; lia].
  - intros k p. cbn. rewrite lookup_empty, elem_of_nil. by split; [|intros []].
  - by intros p ?%elem_of_nil.
Qed.

Lemma cache_run_refines cfg evs : cf_Enabled cfg = true ->
  let c := cache_run (NewCache cfg) evs in
  let cf := c_config (NewCache cfg) in
  cache_inv c /\ c_config c = cf /\
  abs c = foldl (lru_step (cf_MaxEntries cf) (cf_TTL cf)) [] evs.
Proof.
  intros He c cf. unfold c, cache_run.
  assert (forall c0 l, cache_inv c0 -> c_config c0 = cf -> abs c0 = l ->
    cache_inv (foldl cache_step c0 evs) /\ c_config (foldl cache_step c0 evs) = cf /\
    abs (foldl cache_step c0 evs) = foldl (lru_step (cf_MaxEntries cf) (cf_TTL cf)) l evs) as Hrun.
  { induction evs as [|e evs IH]; intros c0 l Hc Hcf Ha; [done|].
    destruct (cache_step_refines c0 e Hc) as (H1 & H2 & H3); [by rewrite Hcf|].
    rewrite Hcf in H2, H3. cbn. apply IH; [done|done|]. by rewrite H3, Ha. }
  apply Hrun; [apply NewCache_inv|done|done].
Qed.

(** C23: the cache is a bounded list of entries in the order of their last use:
    after any history of operations it answers like the list that is kept by
    moving used entries to the front and dropping the last one when it is
    full, and it never holds more than its maximum. *)
Theorem cache_refines_lru (cfg : Config) (evs : list (Z * cache_op)) (now : Z) (key : string) :
  cf_Enabled cfg = true ->
  let c := cache_run (NewCache cfg) evs in
  let max := cf_MaxEntries (c_config (NewCache cfg)) in
  let l := foldl (lru_step max (cf_TTL (c_config (NewCache cfg)))) [] evs in
  (Get now key c).1 = (lru_get now key l).1 /\ Len c = Z.of_nat (length l) /\ Len c <= max.
Proof.
  intros He c max l. destruct (cache_run_refines cfg evs He) as (Hi & Hcf & Ha).
  destruct (Get_refines now key c Hi) as (_ & Hg & _); [by unfold c; rewrite Hcf|].
  fold c in Hi, Hcf, Ha. fold max in Ha. fold l in Ha. split_and!.
  - rewrite Hg. by rewrite Ha.
  - unfold Len. rewrite <- Ha. unfold abs. by rewrite length_fmap.
  - unfold Len, max. rewrite <- Hcf. apply (ci_bound _ Hi).
Qed.

(** ** Hits are fresh *)

(** The last write of each key: its value and when it expires. *)
Definition write_step (ttl : Z) (m : gmap string (string * Z)) (e : Z * cache_op)
    : gmap string (string * Z) :=
  match e.2 with
  | OpSet k v => <[k := (v, e.1 + ttl)]> m
  | OpDelete k => delete k m
  | OpClear => ∅
  | OpGet _ | OpCleanup => m
  end.

Definition written (m : gmap string (string * Z)) (l : list entry) : Prop :=
  forall e, e ∈ l -> m !! en_key e = Some (en_value e, en_expiresAt e).

Lemma of_key_Some k l e : of_key k l = Some e -> e ∈ l /\ en_key e = k.
Proof.
  unfold of_key. intros ([i x] & Hf & ->)%fmap_Some. cbn.
  apply list_find_Some in Hf as (Hl & Hk & _). split; [by eapply list_elem_of_lookup_2|done].
Qed.

Lemma elem_of_without k l e : e ∈ without k l <-> e ∈ l /\ en_key e <> k.
Proof. unfold without. rewrite list_elem_of_filter. tauto. Qed.

Lemma elem_of_removelast {A} (l : list A) x : x ∈ removelast l -> x ∈ l.
Proof.
  destruct (decide (l = [])) as [->|Hn]; [done|]. destruct (exists_last Hn) as (l' & a & ->).
  rewrite removelast_last. intros ?. apply elem_of_app. by left.
Qed.

Lemma lru_get_elems now k l e : e ∈ (lru_get now k l).2 -> e ∈ l.
Proof.
  unfold lru_get. destruct (of_key k l) as [x|] eqn:E; [|done]. apply of_key_Some in E as [Hx _].
  destruct (_ <? _); cbn; [by intros [? _]%elem_of_without|].
  by intros [->|[? _]%elem_of_without]%elem_of_cons.
Qed.

Lemma written_step max ttl m l e : written m l -> written (write_step ttl m e) (lru_step max ttl l e).
Proof.
  intros Hw. destruct e as [now []]; cbn; intros x Hx.
  - by apply Hw, (lru_get_elems now key).
  - assert (x = mkEntry key value (now + ttl) \/ x ∈ l /\ en_key x <> key) as [->|[Hin Hne]].
    { unfold lru_set in Hx. destruct (of_key key l) as [y|] eqn:E.
      - apply elem_of_cons in Hx as [->|Hx]; [by left|]. right. by apply elem_of_without.
      - apply elem_of_cons in Hx as [->|Hx]; [by left|]. right.
        assert (x ∈ l) as Hin by (destruct (_ <=? _); [by apply elem_of_removelast|done]). split; [done|].
        intros Hk. rewrite <- (without_absent key l E), elem_of_without in Hin. tauto. }
    + cbn. by rewrite lookup_insert_eq.
    + rewrite lookup_insert_ne by done. by apply Hw.
  - apply elem_of_without in Hx as [Hx Hne]. rewrite lookup_delete_ne by done. by apply Hw.
  - by apply elem_of_nil in Hx.
  - apply list_elem_of_filter in Hx as [_ Hx]. by apply Hw.
Qed.

(** a hit is never stale: whatever the history, a value that [Get] returns is
    the one of the last [Set] of the key, not deleted since, and its time has
    not run out. *)
Theorem cache_hit_fresh (cfg : Config) (evs : list (Z * cache_op)) (now : Z) (key value : string) :
  cf_Enabled cfg = true ->
  (Get now key (cache_run (NewCache cfg) evs)).1 = Some value ->
  exists expires, foldl (write_step (cf_TTL (c_config (NewCache cfg)))) ∅ evs !! key = Some (value, expires) /\
    now <= expires.
Proof.
  intros He Hg. destruct (cache_run_refines cfg evs He) as (Hi & Hcf & Ha).
  destruct (Get_refines now key _ Hi) as (_ & Hl & _); [by rewrite Hcf|]. rewrite Hg in Hl.
  set (ttl := cf_TTL _) in *. set (max := cf_MaxEntries _) in *.
  assert (forall m l, written m l -> written (foldl (write_step ttl) m evs) (foldl (lru_step max ttl) l evs)) as Hw.
  { clear. induction evs as [|e evs IH]; intros m l H; [done|]. cbn. by apply IH, written_step. }
  specialize (Hw ∅ [] ltac:(by intros e ?%elem_of_nil)). rewrite <- Ha in Hw.
  unfold lru_get in Hl. destruct (of_key key _) as [e|] eqn:E; [|done].
  apply of_key_Some in E as [Hin <-]. destruct (Z.ltb_spec (en_expiresAt e) now); [done|].
  injection Hl as ->. exists (en_expiresAt e). split; [by apply Hw|done].
Qed.

(** ** Recently used entries stay *)

Definition keys_distinct (l : list entry) : Prop := NoDup (en_key <$> l).

(** The entry [e] is in the list and only keys of [U] are in front of it. *)
Definition behind (U : gset string) (e : entry) (l : list entry) : Prop :=
  keys_distinct l /\ exists l1 l2, l = (l1 ++ e :: l2)%list /\ forall x, x ∈ l1 -> en_key x ∈ U.

Lemma keys_filter (P : entry -> Prop) `{!forall x, Decision (P x)} l :
  keys_distinct l -> keys_distinct (filter P l).
Proof.
  unfold keys_distinct. intros Hd. eapply sublist_NoDup; [exact Hd|]. apply fmap_sublist, sublist_filter.
Qed.

Lemma keys_front e l : keys_distinct l -> keys_distinct (e :: without (en_key e) l).
Proof.
  intros Hd. unfold keys_distinct. cbn. apply NoDup_cons. split; [|by apply keys_filter].
  intros (x & Ex & [_ Hne]%elem_of_without)%list_elem_of_fmap. congruence.
Qed.

Lemma behind_filter (P : entry -> Prop) `{!forall x, Decision (P x)} U e l :
  P e -> behind U e l -> behind U e (filter P l).
Proof.
  intros He (Hd & l1 & l2 & -> & HU). split; [by apply keys_filter|].
  exists (filter P l1), (filter P l2). rewrite filter_app, filter_cons_True by done. split; [done|].
  intros x [_ Hx]%list_elem_of_filter. by apply HU.
Qed.

Lemma behind_front U e l x : behind U e l -> en_key x <> en_key e ->
  behind ({[en_key x]} ∪ U) e (x :: without (en_key x) l).
Proof.
  intros Hb Hne. destruct (behind_filter (fun y => en_key y <> en_key x) U e l ltac:(done) Hb)
    as (Hd & l1 & l2 & El & HU).
  split; [apply keys_front, Hb|]. exists (x :: l1), l2. split; [unfold without; by rewrite El|].
  intros y [->|Hy]%elem_of_cons; [set_solver|]. apply HU in Hy. set_solver.
Qed.

Lemma behind_key U e l x : behind U e l -> x ∈ l -> en_key x = en_key e -> x = e.
Proof.
  intros (Hd & l1 & l2 & -> & _) Hx Hk. unfold keys_distinct in Hd. rewrite fmap_app, fmap_cons in Hd.
  apply NoDup_app in Hd as (_ & H1 & H2). apply NoDup_cons in H2 as [H2 _].
  rewrite elem_of_app, elem_of_cons in Hx. destruct Hx as [Hx|[Hx|Hx]]; [|done|].
  - exfalso. apply (H1 (en_key x)); [by apply list_elem_of_fmap_2|]. rewrite Hk. by left.
  - exfalso. apply H2. rewrite <- Hk. by apply list_elem_of_fmap_2.
Qed.

Lemma behind_mono U U' e l : U ⊆ U' -> behind U e l -> behind U' e l.
Proof. intros HU (Hd & l1 & l2 & El & H1). split; [done|]. exists l1, l2. split; [done|]. set_solver. Qed.

(** The keys other than [key] that an operation uses. *)
Definition uses (key : string) (o : cache_op) : gset string :=
  match o with
  | OpGet k | OpSet k _ => if decide (k = key) then ∅ else {[k]}
  | _ => ∅
  end.
Definition used (key : string) (evs : list (Z * cache_op)) : gset string :=
  foldr (fun e U => uses key e.2 ∪ U) ∅ evs.

(** An operation, not after [now], that does not write the key. *)
Definition spares (key : string) (now : Z) (e : Z * cache_op) : Prop :=
  e.1 <= now /\
  match e.2 with
  | OpSet k _ | OpDelete k => k <> key
  | OpClear => False
  | OpGet _ | OpCleanup => True
  end.

Lemma behind_evict U e l x max : behind U e l -> en_key x <> en_key e ->
  of_key (en_key x) l = None -> Z.of_nat (size ({[en_key x]} ∪ U)) < max ->
  behind ({[en_key x]} ∪ U) e (x :: (if max <=? Z.of_nat (length l) then removelast l else l)).
Proof.
  intros Hb Hne Hno Hsize.
  assert (keys_distinct (x :: l)) as Hx.
  { rewrite <- (without_absent _ _ Hno). apply keys_front, Hb. }
  assert (behind ({[en_key x]} ∪ U) e (x :: l)) as Hb'.
  { rewrite <- (without_absent _ _ Hno). by apply behind_front. }
  destruct (Z.leb_spec max (Z.of_nat (length l))) as [Hfull|]; [|done].
  destruct Hb' as (_ & [|y l1] & l2 & El & HU); [by injection El as -> _|].
  injection El as <- ->. destruct (decide (l2 = [])) as [->|Hl2].
  - exfalso. rewrite length_app in Hfull. cbn in Hfull.
    assert (NoDup (en_key <$> (x :: l1))) as Hn.
    { unfold keys_distinct in Hx. rewrite app_comm_cons, fmap_app in Hx. by apply NoDup_app in Hx as [Hx _]. }
    assert ((list_to_set (en_key <$> (x :: l1)) : gset string) ⊆ {[en_key x]} ∪ U) as Hsub.
    { intros k Hk. apply elem_of_list_to_set, list_elem_of_fmap in Hk as (z & -> & Hz). by apply HU. }
    apply subseteq_size in Hsub. rewrite size_list_to_set, length_fmap in Hsub by done. cbn in Hsub. lia.
  - rewrite removelast_app by done. change (removelast (e :: l2)) with (match l2 with [] => [] | _ => e :: removelast l2 end).
    destruct l2 as [|z l2]; [done|]. split.
    + unfold keys_distinct in *. eapply sublist_NoDup; [exact Hx|]. apply fmap_sublist.
      rewrite !app_comm_cons. apply sublist_app; [done|]. apply sublist_skip.
      destruct (exists_last (l := z :: l2)) as (l' & a & ->); [done|]. rewrite removelast_last.
      apply sublist_inserts_r. done.
    + exists (x :: l1), (removelast (z :: l2)). done.
Qed.

Lemma behind_step max ttl U e l now ev : behind U e l -> spares (en_key e) now ev -> now <= en_expiresAt e ->
  Z.of_nat (size (uses (en_key e) ev.2 ∪ U)) < max ->
  behind (uses (en_key e) ev.2 ∪ U) e (lru_step max ttl l ev).
Proof.
  intros Hb [Ht Hs] Hx Hsize. destruct ev as [t []]; cbn in *.
  - unfold lru_get. destruct (of_key key l) as [x|] eqn:E; cbn; [|eapply behind_mono; [|exact Hb]; set_solver].
    apply of_key_Some in E as [Hin Hk]. case_decide as Hd.
    + assert (x = e) as -> by (apply (behind_key U e l x Hb Hin); congruence).
      rewrite (proj2 (Z.ltb_ge _ _)) by lia. cbn. split.
      * rewrite <- Hk. apply keys_front, Hb.
      * exists [], (without key l). split; [done|]. by intros y ?%elem_of_nil.
    + destruct (_ <? _); cbn.
      * eapply behind_mono; [|apply (behind_filter (fun y => en_key y <> key)); [by intros ?|exact Hb]].
        set_solver.
      * rewrite <- Hk. apply behind_front; [done|congruence].
  - rewrite decide_False in * by done. unfold lru_set. destruct (of_key key l) as [x|] eqn:E.
    + by apply (behind_front U e l (mkEntry key value (t + ttl)) Hb).
    + by apply (behind_evict U e l (mkEntry key value (t + ttl)) max Hb).
  - eapply behind_mono; [|apply (behind_filter (fun y => en_key y <> key)); [by intros ?|exact Hb]]. set_solver.
  - done.
  - eapply behind_mono; [|apply (behind_filter (fun y => t <= en_expiresAt y)); [lia|exact Hb]]. set_solver.
Qed.

Lemma behind_run max ttl e now evs : now <= en_expiresAt e -> Forall (spares (en_key e) now) evs ->
  forall U l, behind U e l -> Z.of_nat (size (used (en_key e) evs ∪ U)) < max ->
  exists U', behind U' e (foldl (lru_step max ttl) l evs).
Proof.
  intros Hx. induction 1 as [|ev evs Hev _ IH]; intros U l Hb Hs; [by exists U|]. cbn in *.
  assert (used (en_key e) evs ∪ (uses (en_key e) ev.2 ∪ U)
    = uses (en_key e) ev.2 ∪ used (en_key e) evs ∪ U) as E by set_solver.
  apply (IH (uses (en_key e) ev.2 ∪ U)); [|by rewrite E].
  eapply behind_step; [done|done|done|]. eapply Z.le_lt_trans; [|exact Hs].
  apply inj_le, subseteq_size. set_solver.
Qed.

Lemma keys_distinct_run max ttl evs : forall l, keys_distinct l -> keys_distinct (foldl (lru_step max ttl) l evs).
Proof.
  induction evs as [|[t []] evs IH]; intros l Hl; cbn; [done|..]; apply IH.
  - unfold lru_get. destruct (of_key key l) as [x|] eqn:E; [|done]. apply of_key_Some in E as [_ <-].
    destruct (_ <? _); [by apply keys_filter|by apply keys_front].
  - unfold lru_set. set (x := mkEntry key value (t + ttl)). destruct (of_key key l) eqn:E; [by apply (keys_front x)|].
    assert (keys_distinct (x :: l)) as Hx.
    { rewrite <- (without_absent key l E). by apply (keys_front x). }
    destruct (_ <=? _); [|done]. unfold keys_distinct in *. eapply sublist_NoDup; [exact Hx|].
    apply fmap_sublist, sublist_skip. destruct (decide (l = [])) as [->|Hn]; [done|].
    destruct (exists_last Hn) as (l' & a & ->). rewrite removelast_last. by apply sublist_inserts_r.
  - by apply keys_filter.
  - constructor.
  - by apply keys_filter.
Qed.

(** what was stored stays until it is pushed out: after [Set] of a key, [Get]
    returns its value until its time runs out, as long as nobody wrote the
    key again, deleted it or cleared the cache, and fewer other keys than the
    maximum were used in between. *)
Theorem cache_keeps_recent (cfg : Config) (before evs : list (Z * cache_op)) (t0 now : Z) (key value : string) :
  cf_Enabled cfg = true ->
  let cf := c_config (NewCache cfg) in
  now <= t0 + cf_TTL cf -> Forall (spares key now) evs ->
  Z.of_nat (size (used key evs)) < cf_MaxEntries cf ->
  (Get now key (cache_run (NewCache cfg) (before ++ (t0, OpSet key value) :: evs))).1 = Some value.
Proof.
  intros He cf Hx Hs Hsize. set (max := cf_MaxEntries cf) in *. set (ttl := cf_TTL cf) in *.
  set (all := (before ++ _)%list). destruct (cache_run_refines cfg all He) as (Hi & Hcf & Ha).
  destruct (Get_refines now key _ Hi) as (_ & -> & _); [by rewrite Hcf|]. rewrite Ha. fold cf max ttl.
  unfold all. rewrite foldl_app. cbn [foldl].
  pose proof (keys_distinct_run max ttl before [] ltac:(constructor)) as Hd.
  set (l := foldl _ [] before) in *. set (e := mkEntry key value (t0 + ttl)).
  assert (behind ∅ e (lru_step max ttl l (t0, OpSet key value))) as Hb.
  { split; [apply (keys_distinct_run max ttl [(t0, OpSet key value)] l Hd)|]. cbn. unfold lru_set. fold e.
    destruct (of_key key l); [exists [], (without key l)|eexists [], _]; (split; [done|]);
      by intros x ?%elem_of_nil. }
  destruct (behind_run max ttl e now evs Hx Hs ∅ _ Hb) as (U & Hb'); [by rewrite (right_id_L ∅ (∪))|].
  set (l' := foldl _ _ evs) in *. unfold lru_get.
  assert (e ∈ l') as Hin.
  { destruct Hb' as (_ & l1 & l2 & -> & _). apply elem_of_app. right. by left. }
  destruct (of_key key l') as [x|] eqn:E.
  - apply of_key_Some in E as [Hxl Hxk]. assert (x = e) as -> by (by apply (behind_key U e l' x Hb' Hxl)).
    rewrite (proj2 (Z.ltb_ge _ _)); [done|]. exact Hx.
  - exfalso. rewrite <- (without_absent key l' E), elem_of_without in Hin. by destruct Hin as [_ []].
Qed.

Definition small_cache : Config := mkConfig true 2 0.

Lemma cache_keeps_recent_witness :
  (Get 50 "a" (cache_run (NewCache small_cache)
     [(1, OpSet "z" "0"); (5, OpSet "a" "1"); (10, OpSet "b" "2"); (20, OpGet "b"); (30, OpCleanup)])).1
  = Some "1".
Proof.
  apply (cache_keeps_recent small_cache [(1, OpSet "z" "0")]
    [(10, OpSet "b" "2"); (20, OpGet "b"); (30, OpCleanup)] 5 50 "a" "1"); [done|vm_compute; discriminate| |done].
  repeat constructor; cbn; lia || discriminate.
Defined.

Lemma cache_refines_lru_witness :
  (Get 50 "a" (cache_run (NewCache small_cache)
     [(1, OpSet "a" "1"); (2, OpSet "b" "2"); (3, OpGet "a"); (4, OpSet "c" "3")])).1
  = (lru_get 50 "a" [mkEntry "c" "3" (4 + defaultCacheTTL); mkEntry "a" "1" (1 + defaultCacheTTL)]).1.
Proof.
  apply (cache_refines_lru small_cache
    [(1, OpSet "a" "1"); (2, OpSet "b" "2"); (3, OpGet "a"); (4, OpSet "c" "3")] 50 "a"). done.
Defined.

Lemma cache_hit_fresh_witness :
  exists expires, foldl (write_step defaultCacheTTL) ∅ [(1, OpSet "a" "1"); (2, OpSet "a" "2")] !! "a"
    = Some ("2", expires) /\ 9 <= expires.
Proof.
  apply (cache_hit_fresh small_cache [(1, OpSet "a" "1"); (2, OpSet "a" "2")] 9 "a" "2");
    [done|vm_compute; reflexivity].
Defined.
