(* ===== verification/CircuitBreaker.v ===== *)
(** * The circuit breaker of a provider (src/internal/nodes/router_circuit_breaker.go)

    One state machine per provider; each method holds its mutex and is one
    step, [now] is the clock in it. *)

From S2P Require Import Prelude.

#[local] Open Scope Z_scope.

(** ** Definitions *)

Inductive CircuitState := CircuitClosed | CircuitOpen | CircuitHalfOpen.
#[export] Instance CircuitState_eq_dec : EqDecision CircuitState.
Proof. solve_decision. Defined.

Record CircuitBreakerConfig := mkBreakerConfig {
  FailureThreshold : Z;
  OpenTimeout : Z;
  HalfOpenMaxRequests : Z;
  WindowSize : Z
}.

Definition second : Z := 10 ^ 9.
Definition DefaultCircuitBreakerConfig : CircuitBreakerConfig :=
  mkBreakerConfig 5 (30 * second) 3 (120 * second).

Record CircuitBreaker := mkBreaker {
  cb_config : CircuitBreakerConfig;
  cb_state : CircuitState;
  cb_failures : list Z;
  cb_openedAt : Z;
  cb_inFlight : Z;
  cb_success : Z
}.

Definition positive_or (d x : Z) : Z := if x <=? 0 then d else x.

Definition NewCircuitBreaker (c : CircuitBreakerConfig) : CircuitBreaker :=
  mkBreaker (mkBreakerConfig (positive_or 5 (FailureThreshold c)) (positive_or (30 * second) (OpenTimeout c))
      (positive_or 3 (HalfOpenMaxRequests c)) (positive_or (120 * second) (WindowSize c)))
    CircuitClosed [] 0 0 0.

Definition AllowRequest (now : Z) (b : CircuitBreaker) : bool * CircuitBreaker :=
  match cb_state b with
  | CircuitClosed => (true, b)
  | CircuitOpen =>
      if OpenTimeout (cb_config b) <=? now - cb_openedAt b then
        (true, mkBreaker (cb_config b) CircuitHalfOpen (cb_failures b) (cb_openedAt b) 1 0)
      else (false, b)
  | CircuitHalfOpen =>
      if cb_inFlight b <? HalfOpenMaxRequests (cb_config b) then
        (true, mkBreaker (cb_config b) CircuitHalfOpen (cb_failures b) (cb_openedAt b)
                 (cb_inFlight b + 1) (cb_success b))
      else (false, b)
  end.

Definition RecordSuccess (b : CircuitBreaker) : CircuitBreaker :=
  match cb_state b with
  | CircuitClosed =>
      mkBreaker (cb_config b) CircuitClosed [] (cb_openedAt b) (cb_inFlight b) (cb_success b)
  | CircuitHalfOpen =>
      if HalfOpenMaxRequests (cb_config b) <=? cb_success b + 1 then
        mkBreaker (cb_config b) CircuitClosed [] (cb_openedAt b) 0 0
      else
        mkBreaker (cb_config b) CircuitHalfOpen (cb_failures b) (cb_openedAt b)
          (cb_inFlight b - 1) (cb_success b + 1)
  | CircuitOpen => b
  end.

(** The loop that skips the failures before the cutoff. *)
Fixpoint drop_before (cutoff : Z) (l : list Z) : list Z :=
  match l with
  | [] => []
  | t :: l' => if t <? cutoff then drop_before cutoff l' else l
  end.
Definition pruneFailures (now : Z) (b : CircuitBreaker) : list Z :=
  drop_before (now - WindowSize (cb_config b)) (cb_failures b).

Definition RecordFailure (now : Z) (b : CircuitBreaker) : CircuitBreaker :=
  match cb_state b with
  | CircuitClosed =>
      let fs := drop_before (now - WindowSize (cb_config b)) (cb_failures b ++ [now]) in
      if FailureThreshold (cb_config b) <=? Z.of_nat (length fs) then
        mkBreaker (cb_config b) CircuitOpen fs now (cb_inFlight b) (cb_success b)
      else mkBreaker (cb_config b) CircuitClosed fs (cb_openedAt b) (cb_inFlight b) (cb_success b)
  | CircuitHalfOpen => mkBreaker (cb_config b) CircuitOpen (cb_failures b) now 0 0
  | CircuitOpen => b
  end.

Definition FailureCount (now : Z) (b : CircuitBreaker) : Z := Z.of_nat (length (pruneFailures now b)).

(** ** Events *)

Inductive breaker_event :=
  | BAllow (now : Z)
  | BSuccess
  | BFailure (now : Z).

Definition breaker_step (b : CircuitBreaker) (e : breaker_event) : CircuitBreaker :=
  match e with
  | BAllow now => (AllowRequest now b).2
  | BSuccess => RecordSuccess b
  | BFailure now => RecordFailure now b
  end.

(** ** When the breaker trips *)

(** Outcomes of requests, the newest first: when it finished and whether it
    failed. *)
Definition history : Type := list (Z * bool).

Definition outcome (b : CircuitBreaker) (o : Z * bool) : CircuitBreaker :=
  if o.2 then RecordFailure o.1 b else RecordSuccess b.
Definition after_history (b : CircuitBreaker) (h : history) : CircuitBreaker := foldr (fun o b => outcome b o) b h.

(** The failures since the last success, the newest first. *)
Fixpoint streak (h : history) : list Z :=
  match h with
  | (t, true) :: h' => t :: streak h'
  | _ => []
  end.
Definition in_window (window now : Z) (ts : list Z) : list Z := filter (fun t => now - window <= t) ts.

(** Some failure was the last of [threshold] consecutive ones within the window. *)
Definition tripped (c : CircuitBreakerConfig) (h : history) : Prop :=
  exists newer t older, h = newer ++ (t, true) :: older /\
    FailureThreshold c <= Z.of_nat (length (in_window (WindowSize c) t (streak ((t, true) :: older)))).

(** The clock does not go back. *)
Fixpoint newest_first (h : history) : Prop :=
  match h with
  | [] => True
  | (t, _) :: h' => Forall (fun o => o.1 <= t) h' /\ newest_first h'
  end.

Lemma drop_before_filter cutoff l : Sorted Z.le l ->
  drop_before cutoff l = filter (fun t => cutoff <= t) l.
Proof.
  intros Hs. apply Sorted_StronglySorted in Hs; [|intros x y z; lia].
  induction Hs as [|t l _ IH Hall]; [done|]. cbn [drop_before]. destruct (Z.ltb_spec t cutoff).
  - rewrite filter_cons_False by lia. exact IH.
  - rewrite filter_cons_True by lia. f_equal. symmetry. apply list_filter_all.
    eapply Forall_impl; [exact Hall|]. cbn. lia.
Qed.

Lemma streak_le t h : Forall (fun o => o.1 <= t) h -> Forall (fun x => x <= t) (streak h).
Proof. induction 1 as [|[u []] h Hu _ IH]; cbn; constructor; done. Qed.

Lemma streak_sorted h : newest_first h -> Sorted Z.le (reverse (streak h)).
Proof.
  induction h as [|[t []] h IH]; cbn [streak newest_first]; [constructor| |constructor]. intros [Hle Hn].
  rewrite reverse_cons. apply StronglySorted_Sorted.
  assert (StronglySorted Z.le (reverse (streak h))) as Hs
    by (apply Sorted_StronglySorted; [intros x y z; lia|by apply IH]).
  apply streak_le in Hle. rewrite <- Forall_reverse in Hle. revert Hs Hle.
  generalize (reverse (streak h)). induction l as [|x l IHl]; cbn; intros Hs Hle; [repeat constructor|].
  apply StronglySorted_inv in Hs as [Hs Hx]. apply Forall_cons in Hle as [Hxt Hle].
  constructor; [by apply IHl|]. apply Forall_app. split; [done|]. by constructor.
Qed.

Lemma reverse_in_window w now l : in_window w now (reverse l) = reverse (in_window w now l).
Proof.
  unfold in_window. induction l as [|x l IH]; [done|]. rewrite reverse_cons, filter_app, IH.
  destruct (decide (now - w <= x)).
  - rewrite !filter_cons_True by done. by rewrite reverse_cons.
  - rewrite !filter_cons_False by done. cbn. apply app_nil_r.
Qed.

(** The failures a closed breaker remembers. *)
Definition remembered (c : CircuitBreakerConfig) (h : history) : list Z :=
  match h with
  | (t, true) :: _ => reverse (in_window (WindowSize c) t (streak h))
  | _ => []
  end.

Lemma remembered_cons c t h : newest_first ((t, true) :: h) ->
  drop_before (t - WindowSize c) (remembered c h ++ [t]) = remembered c ((t, true) :: h).
Proof.
  intros Hn. pose proof (streak_sorted _ Hn) as Hs. cbn [newest_first] in Hn. destruct Hn as [Hle _].
  cbn [streak] in Hs. rewrite reverse_cons in Hs.
  assert (exists u, u <= t /\ remembered c h = reverse (in_window (WindowSize c) u (streak h))) as (u & Hu & ->).
  { destruct h as [|[u []] h]; [by exists t|exists u|by exists t].
    apply Forall_cons in Hle as [Hu _]. done. }
  unfold remembered. rewrite <- !reverse_in_window. cbn [streak]. rewrite reverse_cons. unfold in_window.
  rewrite drop_before_filter.
  - rewrite !filter_app. f_equal. rewrite list_filter_filter. apply list_filter_iff. intros x. lia.
  - apply Sorted_StronglySorted in Hs; [|intros x y z; lia]. apply StronglySorted_Sorted.
    revert Hs. generalize (reverse (streak h)). induction l as [|x l IH]; cbn [app]; intros Hs; [exact Hs|].
    apply StronglySorted_inv in Hs as [Hs Hx]. destruct (decide (u - WindowSize c <= x)).
    + rewrite filter_cons_True by done. cbn. constructor; [by apply IH|].
      apply Forall_app in Hx as [H1 H2]. apply Forall_app. split; [|done].
      apply Forall_forall. intros y [_ Hy]%list_elem_of_filter. by apply (proj1 (Forall_forall _ _) H1).
    + rewrite filter_cons_False by done. by apply IH.
Qed.

Lemma tripped_cons c o h : tripped c (o :: h) <-> tripped c h \/
  o.2 = true /\ FailureThreshold c <= Z.of_nat (length (in_window (WindowSize c) o.1 (streak (o :: h)))).
Proof.
  unfold tripped. split.
  - intros ([|o' newer] & t & older & E & Hl); cbn in E; injection E as -> ->; [by right|]. left. eauto.
  - intros [(newer & t & older & -> & Hl)|[Ho Hl]]; [by exists (o :: newer), t, older|].
    destruct o as [t []]; [|done]. by exists [], t, h.
Qed.

Lemma after_history_spec b h : cb_state b = CircuitClosed -> cb_failures b = [] ->
  newest_first h ->
  let c := cb_config b in
  let b' := after_history b h in
  cb_config b' = c /\ cb_state b' <> CircuitHalfOpen /\
  (cb_state b' = CircuitOpen <-> tripped c h) /\
  (cb_state b' = CircuitClosed -> cb_failures b' = remembered c h).
Proof.
  intros Hb Hf Hn c b'. unfold b'. clear b'. induction h as [|[t fail] h IH].
  { cbn. rewrite Hb. split_and!; [done|done| |done]. split; [done|]. by intros ([] & ? & ? & ? & _). }
  assert (newest_first h) as Hn' by (destruct Hn; done). destruct (IH Hn') as (I1 & I2 & I3 & I4).
  cbn [after_history foldr]. fold (after_history b h). set (b1 := after_history b h) in *.
  rewrite tripped_cons. unfold outcome. cbn [fst snd].
  destruct (cb_state b1) eqn:Es; [| |done].
  - assert (~ tripped c h) as Hnt by (intros H; by apply I3 in H). specialize (I4 eq_refl).
    destruct fail.
    + unfold RecordFailure. rewrite Es, I1, I4, remembered_cons by done.
      cbn [remembered]. rewrite length_reverse. destruct (Z.leb_spec (FailureThreshold c)
        (Z.of_nat (length (in_window (WindowSize c) t (streak ((t, true) :: h)))))); cbn [cb_config cb_state cb_failures].
      * split_and!; [done|done| |done]. split; [by right|done].
      * split_and!; [done|done| |done]. split; [done|]. intros [?|[_ ?]]; [done|lia].
    + unfold RecordSuccess. rewrite Es. cbn. split_and!; [done|done| |done].
      split; [done|]. by intros [?|[? _]].
  - assert (outcome b1 (t, fail) = b1) as Hstay by (destruct fail; cbn; unfold RecordFailure, RecordSuccess; by rewrite Es).
    unfold outcome in Hstay. cbn in Hstay. rewrite Hstay. split_and!; [done|by rewrite Es| |by rewrite Es].
    split; [|done]. intros _. left. by apply I3.
Qed.

(** the breaker trips exactly when it should: after any outcomes of requests
    it is open if and only if at some point the last [FailureThreshold]
    requests in a row had failed within the window. *)
Theorem breaker_trips (cfg : CircuitBreakerConfig) (h : history) : newest_first h ->
  let b := NewCircuitBreaker cfg in
  cb_state (after_history b h) = CircuitOpen <-> tripped (cb_config b) h.
Proof. intros Hn b. by apply (after_history_spec b h). Qed.

Lemma breaker_trips_witness :
  let b := NewCircuitBreaker (mkBreakerConfig 2 10 1 100) in
  newest_first [(150, true); (90, true); (50, false); (40, true)] /\
  tripped (cb_config b) [(150, true); (90, true); (50, false); (40, true)].
Proof.
  intros b. assert (newest_first [(150, true); (90, true); (50, false); (40, true)]) as Hn
    by (cbn; repeat split; repeat constructor; cbn; lia).
  split; [exact Hn|]. apply (breaker_trips (mkBreakerConfig 2 10 1 100) _ Hn). vm_compute. reflexivity.
Defined.

(** an open breaker rejects everything until its timeout: whatever requests
    finish in the meantime, it stays as it is. *)
Theorem open_breaker_rejects (b : CircuitBreaker) (evs : list breaker_event) (now : Z) :
  cb_state b = CircuitOpen ->
  Forall (fun e => match e with BAllow t => t < cb_openedAt b + OpenTimeout (cb_config b) | _ => True end) evs ->
  now < cb_openedAt b + OpenTimeout (cb_config b) ->
  foldl breaker_step b evs = b /\ AllowRequest now (foldl breaker_step b evs) = (false, b).
Proof.
  intros Hb HF Hnow.
  assert (forall t, t < cb_openedAt b + OpenTimeout (cb_config b) -> AllowRequest t b = (false, b)) as Hrej.
  { intros t Ht. unfold AllowRequest. rewrite Hb. by rewrite (proj2 (Z.leb_gt _ _)) by lia. }
  assert (foldl breaker_step b evs = b) as ->; [|by split; [|apply Hrej]].
  induction HF as [|e evs He _ IH]; [done|]. cbn.
  assert (breaker_step b e = b) as ->; [|exact IH].
  destruct e; cbn; [by rewrite Hrej| |]; unfold RecordSuccess, RecordFailure; by rewrite Hb.
Qed.

(** ** Probes *)

(** The counters of a reachable breaker. *)
Record breaker_inv (b : CircuitBreaker) : Prop := {
  bi_max : 1 <= HalfOpenMaxRequests (cb_config b);
  bi_flight : cb_state b = CircuitHalfOpen -> cb_inFlight b <= HalfOpenMaxRequests (cb_config b);
  bi_success : cb_state b = CircuitHalfOpen -> 0 <= cb_success b < HalfOpenMaxRequests (cb_config b)
}.

Lemma NewCircuitBreaker_inv cfg : breaker_inv (NewCircuitBreaker cfg).
Proof. split; [|done|done]. cbn. unfold positive_or. destruct (Z.leb_spec (HalfOpenMaxRequests cfg) 0); lia. Qed.

Lemma breaker_step_inv b e : breaker_inv b -> breaker_inv (breaker_step b e).
Proof.
  intros Hb. pose proof Hb as [B1 B2 B3]. destruct e as [now| |now]; cbn.
  - unfold AllowRequest. destruct (cb_state b) eqn:Es; [exact Hb| |].
    + destruct (_ <=? _); [split; cbn; lia|exact Hb].
    + specialize (B2 eq_refl). specialize (B3 eq_refl).
      destruct (Z.ltb_spec (cb_inFlight b) (HalfOpenMaxRequests (cb_config b))); [|exact Hb].
      split; cbn; lia.
  - unfold RecordSuccess. destruct (cb_state b) eqn:Es; [by split|exact Hb|].
    specialize (B2 eq_refl). specialize (B3 eq_refl).
    destruct (Z.leb_spec (HalfOpenMaxRequests (cb_config b)) (cb_success b + 1)); split; cbn; try done; lia.
  - unfold RecordFailure. destruct (cb_state b) eqn:Es; [|exact Hb|by split].
    by destruct (_ <=? _); split.
Qed.

(** a half-open breaker whose probe slots are all taken stays so for ever: it
    has no timeout, so if no outcome is recorded every later request is
    rejected. *)
Theorem half_open_stuck (b : CircuitBreaker) (times : list Z) (now : Z) :
  cb_state b = CircuitHalfOpen -> cb_inFlight b = HalfOpenMaxRequests (cb_config b) ->
  (AllowRequest now (foldl breaker_step b (BAllow <$> times))).1 = false.
Proof.
  intros Hb Hf.
  assert (forall t, AllowRequest t b = (false, b)) as Hrej.
  { intros t. unfold AllowRequest. rewrite Hb, Hf, Z.ltb_irrefl. done. }
  assert (foldl breaker_step b (BAllow <$> times) = b) as ->; [|by rewrite Hrej].
  induction times as [|t times IH]; [done|]. cbn. by rewrite Hrej.
Qed.

(** the limit on concurrent probes can be exceeded: the success of a request
    that was let through before the breaker opened gives a slot free that it
    never took.  Here three probes and a fourth one are in flight at once,
    with a limit of three. *)
Theorem stale_success_extra_probe :
  let b0 := NewCircuitBreaker DefaultCircuitBreakerConfig in
  let open := foldl breaker_step b0 [BAllow 0; BFailure 1; BFailure 2; BFailure 3; BFailure 4; BFailure 5] in
  let t := 5 + 30 * second in
  let probing := foldl breaker_step open [BAllow t; BAllow t; BAllow t] in
  (AllowRequest t probing).1 = false /\
  (AllowRequest t (breaker_step probing BSuccess)).1 = true.
Proof. vm_compute. done. Qed.
