(* ===== verification/QuotaStore.v ===== *)
(** * Persistence of provider quotas (src/internal/nodes/router_quota.go)

    The interface of a quota store, its in-memory implementation and the
    debounced writer in front of a store.  A writer's pending updates are a
    map; its goroutine is [flush] at any time.  The router that uses them is
    in LlmRouter. *)

From S2P Require Import Prelude GoStrings.
From Stdlib Require Import Ascii.

#[local] Open Scope string_scope.
#[local] Open Scope Z_scope.

(** ** Definitions *)

Definition defaultQuotaTenant : string := "default".

(** [QuotaStore]: a missing entry loads as usage 0 of no day. *)
Class QuotaStore (S : Type) := {
  qs_Load : string -> string -> S -> result (Z * string) * S;
  qs_Save : string -> string -> Z -> string -> S -> option error * S;
  qs_Clear : string -> string -> S -> option error * S
}.

Record quotaRecord := mkQuotaRecord {
  qr_Tenant : string;
  qr_Provider : string;
  qr_Usage : Z;
  qr_Day : string
}.

Record MemoryQuotaStore := mkMemoryQuota {
  mq_data : gmap string quotaRecord;
  mq_saveCnt : Z;
  mq_saveErr : option error
}.

Definition NewMemoryQuotaStore : MemoryQuotaStore := mkMemoryQuota ∅ 0 None.

(** [tenant + "\x00" + provider], also the key of the writer. *)
Definition quota_key (tenant provider : string) : string :=
  tenant +:+ String (ascii_of_nat 0) provider.

Definition mq_Load (tenant provider : string) (s : MemoryQuotaStore)
    : result (Z * string) * MemoryQuotaStore :=
  (Ok (match mq_data s !! quota_key tenant provider with
       | Some r => (qr_Usage r, qr_Day r)
       | None => (0, "")
       end), s).

Definition mq_Save (tenant provider : string) (usage : Z) (day : string) (s : MemoryQuotaStore)
    : option error * MemoryQuotaStore :=
  match mq_saveErr s with
  | Some e => (Some e, mkMemoryQuota (mq_data s) (mq_saveCnt s + 1) (mq_saveErr s))
  | None =>
      (None, mkMemoryQuota
         (<[quota_key tenant provider := mkQuotaRecord tenant provider usage day]> (mq_data s))
         (mq_saveCnt s + 1) None)
  end.

Definition mq_Clear (tenant provider : string) (s : MemoryQuotaStore)
    : option error * MemoryQuotaStore :=
  (None, mkMemoryQuota (delete (quota_key tenant provider) (mq_data s)) (mq_saveCnt s) (mq_saveErr s)).

#[export] Instance MemoryQuotaStore_ops : QuotaStore MemoryQuotaStore := {
  qs_Load := mq_Load;
  qs_Save := mq_Save;
  qs_Clear := mq_Clear
}.

(** ** The debounced writer *)

Record quotaUpdate := mkUpdate {
  qu_tenant : string;
  qu_provider : string;
  qu_usage : Z;
  qu_day : string;
  qu_clear : bool
}.

Record quotaSaver := mkSaver {
  sv_pending : gmap string quotaUpdate;
  sv_closed : bool
}.

Definition newQuotaSaver : quotaSaver := mkSaver ∅ false.

Definition enqueue (u : quotaUpdate) (q : quotaSaver) : bool * quotaSaver :=
  if sv_closed q then (false, q) else
  (true, mkSaver (<[quota_key (qu_tenant u) (qu_provider u) := u]> (sv_pending q)) false).

Definition saver_Save (tenant provider : string) (usage : Z) (day : string) (q : quotaSaver)
    : bool * quotaSaver := enqueue (mkUpdate tenant provider usage day false) q.
Definition EnqueueClear (tenant provider : string) (q : quotaSaver) : bool * quotaSaver :=
  enqueue (mkUpdate tenant provider 0 "" true) q.
Definition clearPending (tenant provider : string) (q : quotaSaver) : bool * quotaSaver :=
  let key := quota_key tenant provider in
  match sv_pending q !! key with
  | Some _ => (true, mkSaver (delete key (sv_pending q)) (sv_closed q))
  | None => (false, q)
  end.

Section flush.
Context {S : Type} `{QuotaStore S}.
(** The order in which Go ranges over the pending map. *)
Context (order : gmap string quotaUpdate -> list quotaUpdate).

(** Errors of the store are logged only. *)
Definition write_update (s : S) (u : quotaUpdate) : S :=
  if qu_clear u then (qs_Clear (qu_tenant u) (qu_provider u) s).2
  else (qs_Save (qu_tenant u) (qu_provider u) (qu_usage u) (qu_day u) s).2.

Definition flush (q : quotaSaver) (s : S) : quotaSaver * S :=
  (mkSaver ∅ (sv_closed q), foldl write_update s (order (sv_pending q))).

(** [close]: no more updates, and a last flush. *)
Definition close_saver (q : quotaSaver) (s : S) : quotaSaver * S :=
  if sv_closed q then (q, s) else flush (mkSaver (sv_pending q) true) s.
End flush.

(** ** What a store promises *)

(** Entries of different tenants or providers do not influence each other; an
    entry that was saved without an error is loaded as it was saved.  Stated
    for names without a NUL byte. *)
Definition plain_name (s : string) : Prop := forall a b, s <> a +:+ String (ascii_of_nat 0) b.

Class QuotaLaws (S : Type) `{QuotaStore S} := {
  qs_view : S -> string -> string -> Z * string;
  law_Load : forall t p s r s', qs_Load t p s = (r, s') ->
    (forall v, r = Ok v -> v = qs_view s t p) /\ qs_view s' = qs_view s;
  law_Save : forall t p u d s err s', qs_Save t p u d s = (err, s') ->
    plain_name t -> plain_name p ->
    (err = None -> qs_view s' t p = (u, d)) /\ (err <> None -> qs_view s' t p = qs_view s t p) /\
    forall t' p', plain_name t' -> plain_name p' -> (t', p') <> (t, p) -> qs_view s' t' p' = qs_view s t' p';
  law_Clear : forall t p s err s', qs_Clear t p s = (err, s') ->
    plain_name t -> plain_name p ->
    (err = None -> qs_view s' t p = (0, "")) /\ (err <> None -> qs_view s' t p = qs_view s t p) /\
    forall t' p', plain_name t' -> plain_name p' -> (t', p') <> (t, p) -> qs_view s' t' p' = qs_view s t' p'
}.

Lemma quota_key_inj t p t' p' : plain_name t -> plain_name t' -> quota_key t p = quota_key t' p' ->
  t = t' /\ p = p'.
Proof.
  unfold quota_key. revert t'. induction t as [|c t IH]; intros t' Ht Ht' E.
  - destruct t' as [|c' t']; [by injection E|]. cbn in E. injection E as <- E.
    exfalso. by apply (Ht' "" t').
  - destruct t' as [|c' t']; cbn in E; injection E as Ec E.
    + subst c. exfalso. by apply (Ht "" t).
    + subst c'. destruct (IH t') as [-> ->]; [| |done|done].
      * intros a b ->. by apply (Ht (String c a) b).
      * intros a b ->. by apply (Ht' (String c a) b).
Qed.

Definition mq_view (s : MemoryQuotaStore) (t p : string) : Z * string :=
  match mq_data s !! quota_key t p with Some r => (qr_Usage r, qr_Day r) | None => (0, "") end.

#[export] Instance MemoryQuotaStore_laws : QuotaLaws MemoryQuotaStore.
Proof.
  refine {| qs_view := mq_view |}.
  - intros t p s r s' [= <- <-]. split; [|done]. by intros v [= <-].
  - intros t p u d s err s'. cbn. unfold mq_Save, mq_view. intros E Ht Hp.
    destruct (mq_saveErr s) as [e|]; injection E as <- <-; cbn; [done|].
    split_and!; [by rewrite lookup_insert_eq|done|]. intros t' p' Ht' Hp' Hne.
    rewrite lookup_insert_ne; [done|]. intros E. apply quota_key_inj in E as [-> ->]; done.
  - intros t p s err s'. cbn. unfold mq_Clear, mq_view. intros [= <- <-] Ht Hp. cbn.
    split_and!; [by rewrite lookup_delete_eq|done|]. intros t' p' Ht' Hp' Hne.
    rewrite lookup_delete_ne; [done|]. intros E. apply quota_key_inj in E as [-> ->]; done.
Defined.

(** ** Debouncing *)

Definition plain_update (u : quotaUpdate) : Prop := plain_name (qu_tenant u) /\ plain_name (qu_provider u).
Definition addressed (t p : string) (u : quotaUpdate) : Prop := qu_tenant u = t /\ qu_provider u = p.
#[export] Instance addressed_dec t p u : Decision (addressed t p u).
Proof. unfold addressed. apply _. Defined.

(** What the entry of an update's key is after it. *)
Definition updated (u : quotaUpdate) : Z * string := if qu_clear u then (0, "") else (qu_usage u, qu_day u).

Definition last_for (t p : string) (us : list quotaUpdate) : option quotaUpdate :=
  last (filter (addressed t p) us).

Lemma last_for_app t p us vs :
  last_for t p (us ++ vs)%list = match last_for t p vs with Some u => Some u | None => last_for t p us end.
Proof. unfold last_for. rewrite filter_app. by rewrite last_app. Qed.

Section debounce.
Context {S : Type} `{QuotaLaws S}.
(** States of the store in which nothing fails. *)
Context (healthy : S -> Prop).
Context (reliable_Save : forall t p u d (s : S), healthy s ->
  (qs_Save t p u d s).1 = None /\ healthy (qs_Save t p u d s).2).
Context (reliable_Clear : forall t p (s : S), healthy s ->
  (qs_Clear t p s).1 = None /\ healthy (qs_Clear t p s).2).

Lemma write_update_healthy s u : healthy s -> healthy (write_update s u).
Proof using reliable_Save reliable_Clear.
  intros Hs. unfold write_update. destruct (qu_clear u); [by apply reliable_Clear|by apply reliable_Save].
Qed.

Lemma write_update_view s u t p : healthy s -> plain_update u -> plain_name t -> plain_name p ->
  qs_view (write_update s u) t p = if decide (addressed t p u) then updated u else qs_view s t p.
Proof using reliable_Save reliable_Clear.
  intros Hs [Hut Hup] Ht Hp. unfold write_update, updated.
  destruct (qu_clear u).
  - destruct (qs_Clear (qu_tenant u) (qu_provider u) s) as [err s'] eqn:E.
    destruct (reliable_Clear (qu_tenant u) (qu_provider u) s Hs) as [Hr _]. rewrite E in Hr. cbn in Hr.
    destruct (law_Clear _ _ _ _ _ E Hut Hup) as (H1 & _ & H3). cbn. case_decide as Ha.
    + destruct Ha as [<- <-]. by apply H1.
    + apply H3; [done|done|]. intros [= -> ->]. by apply Ha.
  - destruct (qs_Save (qu_tenant u) (qu_provider u) (qu_usage u) (qu_day u) s) as [err s'] eqn:E.
    destruct (reliable_Save (qu_tenant u) (qu_provider u) (qu_usage u) (qu_day u) s Hs) as [Hr _].
    rewrite E in Hr. cbn in Hr.
    destruct (law_Save _ _ _ _ _ _ _ E Hut Hup) as (H1 & _ & H3). cbn. case_decide as Ha.
    + destruct Ha as [<- <-]. by apply H1.
    + apply H3; [done|done|]. intros [= -> ->]. by apply Ha.
Qed.

Lemma write_all_view us t p : plain_name t -> plain_name p -> forall s : S, healthy s -> Forall plain_update us ->
  qs_view (foldl write_update s us) t p
  = match last_for t p us with Some u => updated u | None => qs_view s t p end.
Proof using reliable_Save reliable_Clear.
  intros Ht Hp. induction us as [|u us IH]; intros s Hs HF; [done|].
  apply Forall_cons in HF as [Hu HF]. cbn [foldl]. rewrite IH by (done || by apply write_update_healthy).
  change (u :: us) with ([u] ++ us)%list. rewrite last_for_app.
  destruct (last_for t p us) as [v|]; [done|]. rewrite write_update_view by done. unfold last_for.
  case_decide.
  - by rewrite filter_cons_True.
  - by rewrite filter_cons_False.
Qed.

Lemma pending_lookup us t p : plain_name t -> plain_name p -> Forall plain_update us ->
  forall q, sv_closed q = false ->
  let q' := foldl (fun q u => (enqueue u q).2) q us in
  sv_closed q' = false /\
  sv_pending q' !! quota_key t p
  = match last_for t p us with Some u => Some u | None => sv_pending q !! quota_key t p end.
Proof.
  intros Ht Hp. induction 1 as [|u us [Hut Hup] _ IH]; intros q Hq; [done|]. cbn [foldl].
  set (q1 := mkSaver (<[quota_key (qu_tenant u) (qu_provider u) := u]> (sv_pending q)) false).
  assert ((enqueue u q).2 = q1) as -> by (unfold enqueue; by rewrite Hq).
  destruct (IH q1 eq_refl) as [I1 I2]. split; [exact I1|]. rewrite I2. change (u :: us) with ([u] ++ us)%list. rewrite last_for_app.
  destruct (last_for t p us) as [v|]; [done|]. unfold last_for. cbn [q1 sv_pending].
  destruct (decide (addressed t p u)) as [[<- <-]|Hn].
  - rewrite filter_cons_True by done. by rewrite lookup_insert_eq.
  - rewrite filter_cons_False by done. rewrite lookup_insert_ne; [done|]. intros E.
    apply quota_key_inj in E as [E1 E2]; [|done|done]. by apply Hn.
Qed.

(** Every pending update is stored under its own key. *)
Definition keyed (m : gmap string quotaUpdate) : Prop :=
  forall k u, m !! k = Some u -> k = quota_key (qu_tenant u) (qu_provider u) /\ plain_update u.

Lemma pending_keyed us : Forall plain_update us -> forall q, keyed (sv_pending q) ->
  keyed (sv_pending (foldl (fun q u => (enqueue u q).2) q us)).
Proof.
  induction 1 as [|u us Hu _ IH]; intros q Hq; [done|]. cbn [foldl]. apply IH. unfold enqueue.
  destruct (sv_closed q); [done|]. cbn. intros k v [[<- <-]|[_ Hv]]%lookup_insert_Some; [done|]. by apply Hq.
Qed.

Lemma last_for_pending m l t p : plain_name t -> plain_name p -> keyed m -> l ≡ₚ (map_to_list m).*2 ->
  last_for t p l = m !! quota_key t p.
Proof.
  intros Ht Hp Hk Hl.
  assert (forall u, u ∈ filter (addressed t p) l <-> m !! quota_key t p = Some u) as Hin.
  { intros u. rewrite list_elem_of_filter, Hl, list_elem_of_fmap. split.
    - intros ([<- <-] & [k v] & -> & Hv%elem_of_map_to_list). cbn in *.
      destruct (Hk _ _ Hv) as [-> _]. done.
    - intros Hu. destruct (Hk _ _ Hu) as [E [Hut _]]. apply quota_key_inj in E as [-> ->]; [|done|done].
      split; [done|]. exists (quota_key (qu_tenant u) (qu_provider u), u). split; [done|].
      by apply elem_of_map_to_list. }
  unfold last_for. destruct (last (filter (addressed t p) l)) as [u|] eqn:E.
  - symmetry. apply Hin. apply last_Some in E as (l' & ->). apply elem_of_app. right.
    by apply list_elem_of_singleton.
  - apply last_None in E. destruct (m !! quota_key t p) as [u|] eqn:Em; [|done].
    pose proof (proj2 (Hin u) eq_refl) as Hu. rewrite E in Hu. by apply elem_of_nil in Hu.
Qed.
End debounce.

(** debouncing changes nothing in the end: with a store that does not fail,
    any updates that are queued and flushed once leave every entry as if each
    had been written when it was made, whatever the order of the flush; in
    particular a clear queued at the change of day is not undone by an older
    save. *)
Theorem debounce_equiv {S : Type} `{QuotaLaws S} (order : gmap string quotaUpdate -> list quotaUpdate)
    (healthy : S -> Prop) (us : list quotaUpdate) (s : S) (t p : string) :
  (forall t p u d s, healthy s -> (qs_Save t p u d s).1 = None /\ healthy (qs_Save t p u d s).2) ->
  (forall t p s, healthy s -> (qs_Clear t p s).1 = None /\ healthy (qs_Clear t p s).2) ->
  healthy s ->
  (forall m, order m ≡ₚ (map_to_list m).*2) ->
  plain_name t -> plain_name p -> Forall plain_update us ->
  qs_view (flush order (foldl (fun q u => (enqueue u q).2) newQuotaSaver us) s).2 t p
  = qs_view (foldl write_update s us) t p.
Proof.
  intros Hs Hc Hh Ho Ht Hp Hus. set (q := foldl _ _ us). cbn [flush snd].
  assert (keyed (sv_pending q)) as Hk by (apply pending_keyed; [done|]; intros k u; cbn; by rewrite lookup_empty).
  rewrite !(write_all_view healthy Hs Hc) by (done || (rewrite Ho; apply Forall_forall;
    intros u ([k v] & -> & Hv%elem_of_map_to_list)%list_elem_of_fmap; by apply (Hk k v))).
  rewrite (last_for_pending _ _ _ _ Ht Hp Hk (Ho _)).
  destruct (pending_lookup us t p Ht Hp Hus newQuotaSaver eq_refl) as [_ Hq]. fold q in Hq.
  rewrite Hq. cbn. rewrite lookup_empty. by destruct (last_for t p us).
Qed.

Fixpoint nul_free (s : string) : bool :=
  match s with
  | EmptyString => true
  | String c s' => negb (bool_decide (c = ascii_of_nat 0)) && nul_free s'
  end.

Lemma nul_free_plain s : nul_free s = true -> plain_name s.
Proof.
  intros Hs a b ->. induction a as [|c a IH]; cbn in Hs; [done|].
  apply andb_true_iff in Hs as [_ Hs]. by apply IH.
Qed.

Lemma debounce_equiv_witness :
  qs_view (flush (fun m => (map_to_list m).*2) (foldl (fun q u => (enqueue u q).2) newQuotaSaver
    [mkUpdate "default" "openai" 900 "2026-01-01" false; mkUpdate "default" "openai" 0 "" true;
     mkUpdate "default" "openai" 12 "2026-01-02" false; mkUpdate "default" "glm" 3 "2026-01-02" false])
    NewMemoryQuotaStore).2 "default" "openai" = (12, "2026-01-02").
Proof.
  rewrite (debounce_equiv (fun m => (map_to_list m).*2) (fun s => mq_saveErr s = None)).
  - vm_compute. reflexivity.
  - intros t p u d s Hs. cbn. unfold mq_Save. by rewrite Hs.
  - intros t p s Hs. done.
  - done.
  - done.
  - by apply nul_free_plain.
  - by apply nul_free_plain.
  - repeat constructor; by apply nul_free_plain.
Defined.
