(* ===== verification/LlmRouter.v ===== *)
(** * The LLM router (src/internal/nodes/llm_router.go, router_ewma.go)

    Per call, the router selects the providers that are enabled, below their
    daily quota and admitted by their circuit breaker, orders them by a
    strategy and tries them one after the other.  The router is shared by all
    workflows of the process: its state is threaded through [M (W * R)], every
    critical section is one step, and the operations of [RouterEnv] (the
    clock, the provider call) may change the router as well, which is how
    other goroutines appear. *)

From S2P Require Import Prelude GoStrings GoTime WorkflowTypes JsonPath ExprEngine Effects.
From S2P Require Import CircuitBreaker QuotaStore.
From Stdlib Require Import Ascii SpecFloat.

#[local] Open Scope string_scope.
#[local] Open Scope Z_scope.

(** ** Definitions *)

(** *** The latency predictor *)

Record EWMAPredictor := mkEwma {
  ew_alpha : float64;
  ew_ewma : float64;
  ew_var : float64;
  ew_count : Z;
  ew_initialized : bool
}.

Definition f64_sub : float64 -> float64 -> float64 := SFsub 53 1024.
Definition f64_zero : float64 := f64_of_Z 0.
Definition f64_one : float64 := f64_of_Z 1.
Definition f64_0_3 : float64 := f64_div (f64_of_Z 3) (f64_of_Z 10).

Definition NewEWMAPredictor (alpha : float64) : EWMAPredictor :=
  let a := if SFleb alpha f64_zero || SFltb f64_one alpha then f64_0_3 else alpha in
  mkEwma a f64_zero f64_zero 0 false.

Definition Observe (latencyMs : float64) (p : EWMAPredictor) : EWMAPredictor :=
  if ew_initialized p then
    let delta := f64_sub latencyMs (ew_ewma p) in
    mkEwma (ew_alpha p) (f64_add (ew_ewma p) (f64_mul (ew_alpha p) delta))
      (f64_mul (f64_sub f64_one (ew_alpha p))
         (f64_add (ew_var p) (f64_mul (f64_mul (ew_alpha p) delta) delta)))
      (ew_count p + 1) true
  else mkEwma (ew_alpha p) latencyMs f64_zero (ew_count p + 1) true.

Definition Predict (p : EWMAPredictor) : float64 := ew_ewma p.

(** *** Providers and their statistics *)

Record RouterProvider := mkProvider {
  rp_Name : string;
  rp_Model : string;
  rp_Endpoint : string;
  rp_APIKey : string;
  rp_Priority : Z;
  rp_CostPer1K : float64;
  rp_QuotaDaily : Z;
  rp_Enabled : bool;
  rp_AvgLatencyMs : Z;
  rp_SuccessRate : float64
}.

Record ProviderStats := mkStats {
  ps_TotalCalls : Z;
  ps_SuccessCalls : Z;
  ps_FailedCalls : Z;
  ps_ConsecutiveFailures : Z;
  ps_TotalLatency : Z;
  ps_TokensUsed : Z;
  ps_DailyUsage : Z;
  ps_LastUsed : Z;
  ps_LastResetDate : string;
  ps_EwmaLatency : EWMAPredictor;
  ps_Breaker : CircuitBreaker
}.

Definition newProviderStats (today : string) : ProviderStats :=
  mkStats 0 0 0 0 0 0 0 0 today (NewEWMAPredictor f64_0_3) (NewCircuitBreaker DefaultCircuitBreakerConfig).

Definition RouterStrategyPriority : string := "priority".
Definition RouterStrategyCost : string := "cost".
Definition RouterStrategyLatency : string := "latency".
Definition RouterStrategyPareto : string := "pareto".
Definition RouterStrategyRoundRobin : string := "round_robin".
Definition RouterStrategyRandom : string := "random".

(** [lr_store] is the quota store, [lr_saver] its debounced writer. *)
Record LLMRouter (S : Type) := mkRouter {
  lr_providers : list RouterProvider;
  lr_stats : gmap string ProviderStats;
  lr_rrCounter : Z;
  lr_strategy : string;
  lr_maxRetry : Z;
  lr_tenantID : string;
  lr_tenantQuota : gmap string Z;
  lr_store : option S;
  lr_saver : option quotaSaver
}.
Arguments mkRouter {S} _ _ _ _ _ _ _ _ _.
Arguments lr_providers {S} _.
Arguments lr_stats {S} _.
Arguments lr_rrCounter {S} _.
Arguments lr_strategy {S} _.
Arguments lr_maxRetry {S} _.
Arguments lr_tenantID {S} _.
Arguments lr_tenantQuota {S} _.
Arguments lr_store {S} _.
Arguments lr_saver {S} _.

(** *** Sorting: sort.SliceStable *)

Fixpoint insert_stable {A} (less : A -> A -> bool) (x : A) (l : list A) : list A :=
  match l with
  | [] => [x]
  | y :: l' => if less x y then x :: l else y :: insert_stable less x l'
  end.
Definition SliceStable {A} (less : A -> A -> bool) (l : list A) : list A :=
  foldl (fun acc x => insert_stable less x acc) [] l.

Section router.
Context {S : Type} `{QuotaStore S}.

Definition set_providers (ps : list RouterProvider) (r : LLMRouter S) : LLMRouter S :=
  mkRouter ps (lr_stats r) (lr_rrCounter r) (lr_strategy r) (lr_maxRetry r) (lr_tenantID r)
    (lr_tenantQuota r) (lr_store r) (lr_saver r).
Definition set_stats (st : gmap string ProviderStats) (r : LLMRouter S) : LLMRouter S :=
  mkRouter (lr_providers r) st (lr_rrCounter r) (lr_strategy r) (lr_maxRetry r) (lr_tenantID r)
    (lr_tenantQuota r) (lr_store r) (lr_saver r).
Definition set_counter (n : Z) (r : LLMRouter S) : LLMRouter S :=
  mkRouter (lr_providers r) (lr_stats r) n (lr_strategy r) (lr_maxRetry r) (lr_tenantID r)
    (lr_tenantQuota r) (lr_store r) (lr_saver r).
Definition set_quota (st : option S) (sv : option quotaSaver) (r : LLMRouter S) : LLMRouter S :=
  mkRouter (lr_providers r) (lr_stats r) (lr_rrCounter r) (lr_strategy r) (lr_maxRetry r) (lr_tenantID r)
    (lr_tenantQuota r) st sv.

Definition set_usage (usage : Z) (day : string) (s : ProviderStats) : ProviderStats :=
  mkStats (ps_TotalCalls s) (ps_SuccessCalls s) (ps_FailedCalls s) (ps_ConsecutiveFailures s)
    (ps_TotalLatency s) (ps_TokensUsed s) usage (ps_LastUsed s) day (ps_EwmaLatency s) (ps_Breaker s).
Definition set_breaker (b : CircuitBreaker) (s : ProviderStats) : ProviderStats :=
  mkStats (ps_TotalCalls s) (ps_SuccessCalls s) (ps_FailedCalls s) (ps_ConsecutiveFailures s)
    (ps_TotalLatency s) (ps_TokensUsed s) (ps_DailyUsage s) (ps_LastUsed s) (ps_LastResetDate s)
    (ps_EwmaLatency s) b.

(** *** Quotas *)

Definition effectiveTenant (r : LLMRouter S) : string :=
  if decide (lr_tenantID r = "") then defaultQuotaTenant else lr_tenantID r.

Definition quotaFor (r : LLMRouter S) (p : RouterProvider) : Z :=
  default (rp_QuotaDaily p) (lr_tenantQuota r !! rp_Name p).

Definition loadQuotaLocked (today name : string) (stats : ProviderStats) (r : LLMRouter S)
    : ProviderStats * LLMRouter S :=
  match lr_store r with
  | None => (stats, r)
  | Some s =>
      match qs_Load (effectiveTenant r) name s with
      | (Err _, s1) => (stats, set_quota (Some s1) (lr_saver r) r)
      | (Ok (usage, day), s1) =>
          if decide (day = today) then (set_usage usage day stats, set_quota (Some s1) (lr_saver r) r) else
          if decide (day = "") then (stats, set_quota (Some s1) (lr_saver r) r) else
          (stats, set_quota (Some (qs_Clear (effectiveTenant r) name s1).2) (lr_saver r) r)
      end
  end.

Definition scheduleQuotaClearLocked (name : string) (r : LLMRouter S) : LLMRouter S :=
  match lr_store r with
  | None => r
  | Some s =>
      match lr_saver r with
      | None => set_quota (Some (qs_Clear (effectiveTenant r) name s).2) None r
      | Some q =>
          let q1 := (clearPending (effectiveTenant r) name q).2 in
          set_quota (Some s) (Some (EnqueueClear (effectiveTenant r) name q1).2) r
      end
  end.

Definition scheduleQuotaSaveLocked (name : string) (stats : ProviderStats) (r : LLMRouter S) : LLMRouter S :=
  match lr_saver r with
  | None => r
  | Some q =>
      set_quota (lr_store r)
        (Some (saver_Save (effectiveTenant r) name (ps_DailyUsage stats) (ps_LastResetDate stats) q).2) r
  end.

Definition FlushQuota (order : gmap string quotaUpdate -> list quotaUpdate) (r : LLMRouter S) : LLMRouter S :=
  match lr_saver r, lr_store r with
  | Some q, Some s => let '(q', s') := flush order q s in set_quota (Some s') (Some q') r
  | _, _ => r
  end.

Definition CloseQuota (order : gmap string quotaUpdate -> list quotaUpdate) (r : LLMRouter S) : LLMRouter S :=
  match lr_saver r, lr_store r with
  | Some q, Some s => let '(q', s') := close_saver order q s in set_quota (Some s') (Some q') r
  | _, _ => r
  end.

(** Statistics of a provider, made and loaded on first use. *)
Definition getOrCreateStatsLocked (today name : string) (r : LLMRouter S) : ProviderStats * LLMRouter S :=
  match lr_stats r !! name with
  | Some stats => (stats, r)
  | None =>
      let '(stats, r1) := loadQuotaLocked today name (newProviderStats today) r in
      (stats, set_stats (<[name := stats]> (lr_stats r1)) r1)
  end.

(** [initQuotaPersistence]: the writer is started and the usage of every
    enabled provider loaded. *)
Definition init_provider (today : string) (r : LLMRouter S) (p : RouterProvider) : LLMRouter S :=
  if rp_Enabled p then (getOrCreateStatsLocked today (rp_Name p) r).2 else r.
Definition initQuotaPersistence (today : string) (r : LLMRouter S) : LLMRouter S :=
  match lr_store r with
  | None => r
  | Some s => foldl (init_provider today) (set_quota (Some s) (Some newQuotaSaver) r) (lr_providers r)
  end.

(** *** Selection *)

(** A new day starts with no usage. *)
Definition reset_day (today name : string) (stats : ProviderStats) (r : LLMRouter S)
    : ProviderStats * LLMRouter S :=
  if decide (ps_LastResetDate stats = today) then (stats, r)
  else
    let stats1 := set_usage 0 today stats in
    (stats1, scheduleQuotaClearLocked name (set_stats (<[name := stats1]> (lr_stats r)) r)).

Definition exhausted (r : LLMRouter S) (p : RouterProvider) (stats : ProviderStats) : bool :=
  (0 <? quotaFor r p) && (quotaFor r p <=? ps_DailyUsage stats).

(** The body of the loop of [getActiveProviders]. *)
Definition consider (now : Z) (today : string) (acc : list RouterProvider * LLMRouter S) (p : RouterProvider)
    : list RouterProvider * LLMRouter S :=
  let '(active, r) := acc in
  if negb (rp_Enabled p) then (active, r) else
  let '(stats, r1) := getOrCreateStatsLocked today (rp_Name p) r in
  let '(stats1, r2) := reset_day today (rp_Name p) stats r1 in
  if exhausted r2 p stats1 then (active, r2) else
  let '(ok, b) := AllowRequest now (ps_Breaker stats1) in
  let r3 := set_stats (<[rp_Name p := set_breaker b stats1]> (lr_stats r2)) r2 in
  if ok then ((active ++ [p])%list, r3) else (active, r3).

Definition getActiveProviders (now : Z) (today : string) (r : LLMRouter S) : list RouterProvider * LLMRouter S :=
  foldl (consider now today) ([], r) (lr_providers r).

Definition f64_neq (a b : float64) : bool := negb (SFeqb a b).

Definition by_priority (p q : RouterProvider) : bool :=
  if decide (rp_Priority p = rp_Priority q) then SFltb (rp_SuccessRate q) (rp_SuccessRate p)
  else rp_Priority q <? rp_Priority p.
Definition by_cost (p q : RouterProvider) : bool :=
  if f64_neq (rp_CostPer1K p) (rp_CostPer1K q) then SFltb (rp_CostPer1K p) (rp_CostPer1K q)
  else SFltb (rp_SuccessRate q) (rp_SuccessRate p).

(** The prediction when there is one, else the mean. *)
Definition latencyFor (st : gmap string ProviderStats) (p : RouterProvider) : float64 :=
  match st !! rp_Name p with
  | Some s =>
      if SFltb f64_zero (Predict (ps_EwmaLatency s)) then Predict (ps_EwmaLatency s)
      else f64_of_Z (rp_AvgLatencyMs p)
  | None => f64_of_Z (rp_AvgLatencyMs p)
  end.
Definition by_latency (st : gmap string ProviderStats) (p q : RouterProvider) : bool :=
  if f64_neq (latencyFor st p) (latencyFor st q) then SFltb (latencyFor st p) (latencyFor st q)
  else SFltb (rp_SuccessRate q) (rp_SuccessRate p).

Record provCost := mkProvCost { pc_idx : nat; pc_cost : float64; pc_latency : float64; pc_optimal : bool }.
Definition prov_cost (st : gmap string ProviderStats) (i : nat) (p : RouterProvider) : provCost :=
  mkProvCost i (rp_CostPer1K p) (latencyFor st p) true.
Definition dominates (c d : provCost) : bool :=
  SFltb (pc_cost c) (pc_cost d) && SFltb (pc_latency c) (pc_latency d).
Definition mark_optimal (costs : list provCost) : list provCost :=
  (fun c => mkProvCost (pc_idx c) (pc_cost c) (pc_latency c)
     (negb (existsb (fun d => negb (Nat.eqb (pc_idx d) (pc_idx c)) && dominates d c) costs))) <$> costs.
Definition by_pareto (c d : provCost) : bool :=
  if negb (Bool.eqb (pc_optimal c) (pc_optimal d)) then pc_optimal c
  else if f64_neq (pc_cost c) (pc_cost d) then SFltb (pc_cost c) (pc_cost d)
  else SFltb (pc_latency c) (pc_latency d).
Definition sortByPareto (st : gmap string ProviderStats) (ps : list RouterProvider) : list RouterProvider :=
  omap (fun c => ps !! pc_idx c) (SliceStable by_pareto (mark_optimal (imap (prov_cost st) ps))).

Definition rotate_at {A} (start : nat) (l : list A) : list A := (drop start l ++ take start l)%list.

(** The counter is an unsigned 64-bit integer. *)
Definition roundRobin (ps : list RouterProvider) (r : LLMRouter S) : list RouterProvider * LLMRouter S :=
  match ps with
  | [] => ([], r)
  | _ :: _ =>
      let c := (lr_rrCounter r + 1) mod 2 ^ 64 in
      (rotate_at (Z.to_nat (c mod Z.of_nat (length ps))) ps, set_counter c r)
  end.

Definition resolveStrategy (params : gmap string string) (r : LLMRouter S) : string :=
  let override := default "" (params !! "strategy") in
  if bool_decide (override ∈ [RouterStrategyPriority; RouterStrategyCost; RouterStrategyLatency;
    RouterStrategyPareto; RouterStrategyRoundRobin; RouterStrategyRandom]) then override else lr_strategy r.

Definition order_providers (strategy : string) (shuffle : list RouterProvider -> list RouterProvider)
    (ps : list RouterProvider) (r : LLMRouter S) : list RouterProvider * LLMRouter S :=
  if decide (strategy = RouterStrategyCost) then (SliceStable by_cost ps, r) else
  if decide (strategy = RouterStrategyLatency) then (SliceStable (by_latency (lr_stats r)) ps, r) else
  if decide (strategy = RouterStrategyPareto) then (sortByPareto (lr_stats r) ps, r) else
  if decide (strategy = RouterStrategyRoundRobin) then roundRobin ps r else
  if decide (strategy = RouterStrategyRandom) then (shuffle ps, r) else
  (SliceStable by_priority ps, r).

Definition selectProviders (strategy : string) (shuffle : list RouterProvider -> list RouterProvider)
    (now : Z) (today : string) (r : LLMRouter S) : list RouterProvider * LLMRouter S :=
  let '(ps, r1) := getActiveProviders now today r in order_providers strategy shuffle ps r1.

(** *** Outcomes *)

(** The averages that the strategies look at; the first provider of the name. *)
Fixpoint update_first (name : string) (f : RouterProvider -> RouterProvider) (ps : list RouterProvider)
    : list RouterProvider :=
  match ps with
  | [] => []
  | p :: ps' => if decide (rp_Name p = name) then f p :: ps' else p :: update_first name f ps'
  end.
Definition set_averages (latency : option Z) (rate : float64) (p : RouterProvider) : RouterProvider :=
  mkProvider (rp_Name p) (rp_Model p) (rp_Endpoint p) (rp_APIKey p) (rp_Priority p) (rp_CostPer1K p)
    (rp_QuotaDaily p) (rp_Enabled p) (default (rp_AvgLatencyMs p) latency) rate.
Definition success_rate (s : ProviderStats) : float64 :=
  f64_div (f64_of_Z (ps_SuccessCalls s)) (f64_of_Z (ps_TotalCalls s)).

Definition recordSuccess (now : Z) (today name : string) (latencyMs tokensUsed : Z) (r : LLMRouter S)
    : LLMRouter S :=
  let '(stats, r1) := getOrCreateStatsLocked today name r in
  let '(s, r2) := reset_day today name stats r1 in
  let s' := mkStats (ps_TotalCalls s + 1) (ps_SuccessCalls s + 1) (ps_FailedCalls s) 0
    (ps_TotalLatency s + latencyMs) (ps_TokensUsed s + tokensUsed) (ps_DailyUsage s + tokensUsed) now
    (ps_LastResetDate s) (Observe (f64_of_Z latencyMs) (ps_EwmaLatency s)) (RecordSuccess (ps_Breaker s)) in
  let r3 := scheduleQuotaSaveLocked name s' (set_stats (<[name := s']> (lr_stats r2)) r2) in
  if 0 <? ps_TotalCalls s' then
    set_providers (update_first name
      (set_averages (Some (Z.quot (ps_TotalLatency s') (ps_TotalCalls s'))) (success_rate s')) (lr_providers r3)) r3
  else r3.

Definition recordFailure (now : Z) (today name : string) (latencyMs : Z) (r : LLMRouter S) : LLMRouter S :=
  let '(s, r1) := getOrCreateStatsLocked today name r in
  let s' := mkStats (ps_TotalCalls s + 1) (ps_SuccessCalls s) (ps_FailedCalls s + 1)
    (ps_ConsecutiveFailures s + 1) (if 0 <? latencyMs then ps_TotalLatency s + latencyMs else ps_TotalLatency s)
    (ps_TokensUsed s) (ps_DailyUsage s) now (ps_LastResetDate s) (ps_EwmaLatency s)
    (RecordFailure now (ps_Breaker s)) in
  let r2 := set_stats (<[name := s']> (lr_stats r1)) r1 in
  if 0 <? ps_TotalCalls s' then
    set_providers (update_first name
      (set_averages (if 0 <? latencyMs then Some (Z.quot (ps_TotalLatency s') (ps_TotalCalls s')) else None)
         (success_rate s')) (lr_providers r2)) r2
  else r2.

(** *** router_Execute *)

Record RouterAttempt := mkAttempt {
  ra_Provider : string;
  ra_Success : bool;
  ra_Error : string;
  ra_LatencyMs : Z
}.
Record RouterDecision := mkDecision {
  rd_Strategy : string;
  rd_Candidates : list string;
  rd_Selected : string;
  rd_Attempts : list RouterAttempt;
  rd_FinalError : string
}.

(** [AllFailed] is [ProviderMultiError], with its providers and errors in pairs. *)
Inductive router_error :=
  | NoProviders
  | Cancelled (e : error)
  | AllFailed (tried : list (string * error)).

(** The part of an error message that is shown.  [router_error_text] is the text of the published
    decision. *)
Definition clip (msg : string) : string :=
  if (200 <? String.length msg)%nat then str_take 197 msg +:+ "..." else msg.

Definition router_error_text (e : router_error) : string :=
  match e with
  | NoProviders => "no active LLM providers available"
  | Cancelled e => e
  | AllFailed tried =>
      "all LLM providers failed (tried: " +:+ Join (fst <$> tried) ", " +:+ ")" +:+
      String.concat "" ((fun t => newline +:+ "  - " +:+ fst t +:+ ": " +:+ clip (snd t)) <$> tried)
  end.

Section execute.
Context {W : Type}.

(** [re_call] is the request of the OpenAI-compatible node with the given
    parameters: the answer, an error and the latency in milliseconds. *)
Record RouterEnv := mkRouterEnv {
  re_now : M (W * LLMRouter S) Z;
  re_today : M (W * LLMRouter S) string;
  re_shuffle : M (W * LLMRouter S) (list RouterProvider -> list RouterProvider);
  re_done : M (W * LLMRouter S) (option error);
  re_call : RouterProvider -> string -> gmap string string -> M (W * LLMRouter S) (string * option error * Z);
  re_sink : RouterDecision -> M (W * LLMRouter S) unit
}.
Context (env : RouterEnv).

(** A critical section. *)
Definition locked {A} (f : LLMRouter S -> A * LLMRouter S) : M (W * LLMRouter S) A := fun wr =>
  let '(a, r') := f wr.2 in ((wr.1, r'), Ret a).
Definition update (f : LLMRouter S -> LLMRouter S) : M (W * LLMRouter S) unit := locked (fun r => (tt, f r)).

(** The base URL of ollama's OpenAI-compatible interface. *)
Fixpoint trim_slashes (s : string) : string :=
  match s with
  | EmptyString => ""
  | String c s' =>
      let t := trim_slashes s' in
      if bool_decide (t = "" /\ c = "/"%char) then "" else String c t
  end.
Definition call_endpoint (p : RouterProvider) : string :=
  if bool_decide (rp_Name p = "ollama") && negb (HasSuffix (rp_Endpoint p) "/v1")
  then trim_slashes (rp_Endpoint p) +:+ "/v1" else rp_Endpoint p.

Definition call_params (p : RouterProvider) (systemPrompt : string) (params : gmap string string)
    : gmap string string :=
  let c1 := <["endpoint" := call_endpoint p]> (<["model" := rp_Model p]> params) in
  let c2 := if bool_decide (rp_Name p = "ollama" /\ rp_APIKey p = "")
    then <["api_key" := "ollama-router-placeholder"]> c1
    else if decide (rp_APIKey p = "") then c1 else <["api_key" := rp_APIKey p]> c1 in
  if decide (systemPrompt = "") then c2 else <["system" := systemPrompt]> c2.

Definition callProvider (p : RouterProvider) (input systemPrompt : string) (params : gmap string string) :=
  re_call env p input (call_params p systemPrompt params).

Definition no_key (p : RouterProvider) : bool :=
  bool_decide (rp_APIKey p = "" /\ rp_Name p <> "ollama").

Definition fail_with (p : RouterProvider) (latency : Z) : M (W * LLMRouter S) unit :=
  now ← re_now env; today ← re_today env;
  update (recordFailure now today (rp_Name p) latency).

(** What the caller gets: the answer, the provider and an error. *)
Definition routed : Type := string * string * option router_error.

(** The loop over the providers; [tried] and [attempts] are what was tried so
    far. *)
Fixpoint try_providers (decision : string -> list RouterAttempt -> string -> RouterDecision)
    (ps : list RouterProvider) (input systemPrompt : string) (params : gmap string string)
    (tried : list (string * error)) (attempts : list RouterAttempt) : M (W * LLMRouter S) routed :=
  match ps with
  | [] =>
      let e := AllFailed tried in
      re_sink env (decision "" attempts (router_error_text e)) ;; mret ("", "", Some e)
  | p :: ps' =>
      done ← re_done env;
      match done with
      | Some e =>
          re_sink env (decision "" attempts e) ;; mret ("", "", Some (Cancelled e))
      | None =>
          if no_key p then
            let err := "provider " +:+ rp_Name p +:+ " has no API key configured" in
            fail_with p 0 ;;
            try_providers decision ps' input systemPrompt params (tried ++ [(rp_Name p, err)])%list
              (attempts ++ [mkAttempt (rp_Name p) false err 0])%list
          else
            res ← callProvider p input systemPrompt params;
            match res with
            | (result, None, latency) =>
                now ← re_now env; today ← re_today env;
                update (recordSuccess now today (rp_Name p) latency
                  ((Z.of_nat (String.length input) + Z.of_nat (String.length result)) / 4)) ;;
                re_sink env (decision (rp_Name p) (attempts ++ [mkAttempt (rp_Name p) true "" latency])%list "") ;;
                mret (result, rp_Name p, None)
            | (_, Some err, latency) =>
                fail_with p latency ;;
                try_providers decision ps' input systemPrompt params (tried ++ [(rp_Name p, err)])%list
                  (attempts ++ [mkAttempt (rp_Name p) false err latency])%list
            end
      end
  end.

Definition max_attempts (params : gmap string string) (r : LLMRouter S) : Z :=
  match Atoi (TrimSpace (default "" (params !! "max_retries"))) with
  | Some n => if 0 <? n then n else lr_maxRetry r
  | None => lr_maxRetry r
  end.

Definition router_Execute (input : string) (params : gmap string string) : M (W * LLMRouter S) routed :=
  strategy ← locked (fun r => (resolveStrategy params r, r));
  now ← re_now env; today ← re_today env; shuffle ← re_shuffle env;
  ps ← locked (selectProviders strategy shuffle now today);
  match ps with
  | [] =>
      re_sink env (mkDecision strategy [] "" [] (router_error_text NoProviders)) ;;
      mret ("", "", Some NoProviders)
  | _ =>
      tries ← locked (fun r => (max_attempts params r, r));
      try_providers (fun selected attempts e => mkDecision strategy (rp_Name <$> ps) selected attempts e)
        (firstn (Z.to_nat tries) ps) input (default "" (params !! "system")) params [] []
  end.
End execute.
End router.
