(* ===== verification/LlmRouterProofs.v ===== *)
(** * What the LLM router guarantees

    Which providers are tried and in what order, fallback, quotas across
    restarts, and a provider that is locked out for ever. *)

From S2P Require Import Prelude GoStrings GoTime WorkflowTypes JsonPath ExprEngine Effects.
From S2P Require Import CircuitBreaker QuotaStore LlmRouter.
From Stdlib Require Import SpecFloat.

#[local] Open Scope string_scope.
#[local] Open Scope Z_scope.

(** ** Sorting *)

Lemma insert_stable_perm {A} less (x : A) l : insert_stable less x l ≡ₚ x :: l.
Proof.
  induction l as [|y l IH]; cbn; [done|]. destruct (less x y); [done|].
  rewrite IH. apply Permutation_swap.
Qed.

Lemma SliceStable_perm {A} less (l : list A) : SliceStable less l ≡ₚ l.
Proof.
  unfold SliceStable. enough (forall acc, foldl (fun acc x => insert_stable less x acc) acc l ≡ₚ acc ++ l) as E
    by (by rewrite E).
  induction l as [|x l IH]; intros acc; cbn; [by rewrite app_nil_r|].
  rewrite IH, insert_stable_perm. apply Permutation_middle.
Qed.

(** A comparison that respects a key sorts by it, larger keys first. *)
Definition respects {A} (less : A -> A -> bool) (key : A -> Z) : Prop :=
  forall x y, if less x y then key y <= key x else key x <= key y.

Lemma insert_stable_sorted {A} less (key : A -> Z) x l : respects less key ->
  StronglySorted (fun a b => key b <= key a) l ->
  StronglySorted (fun a b => key b <= key a) (insert_stable less x l).
Proof.
  intros Hr. induction 1 as [|y l Hs IH Hy]; cbn; [repeat constructor|].
  pose proof (Hr x y) as Hxy. destruct (less x y).
  - constructor; [by constructor|]. constructor; [done|]. eapply Forall_impl; [exact Hy|]. cbn. lia.
  - constructor; [done|]. apply Forall_forall. intros z Hz. rewrite insert_stable_perm in Hz.
    apply elem_of_cons in Hz as [->|Hz]; [done|]. by apply (proj1 (Forall_forall _ _) Hy).
Qed.

Lemma SliceStable_sorted {A} less (key : A -> Z) l : respects less key ->
  StronglySorted (fun a b => key b <= key a) (SliceStable less l).
Proof.
  intros Hr. unfold SliceStable.
  enough (forall acc, StronglySorted (fun a b => key b <= key a) acc ->
    StronglySorted (fun a b => key b <= key a) (foldl (fun acc x => insert_stable less x acc) acc l)) as E
    by (apply E; constructor).
  induction l as [|x l IH]; intros acc Hacc; cbn; [done|]. by apply IH, insert_stable_sorted.
Qed.

Lemma by_priority_respects : respects by_priority rp_Priority.
Proof.
  intros p q. unfold by_priority. case_decide as E.
  - destruct (SFltb _ _); lia.
  - destruct (Z.ltb_spec (rp_Priority q) (rp_Priority p)); lia.
Qed.

Definition optimal_key (c : provCost) : Z := if pc_optimal c then 1 else 0.
Lemma by_pareto_respects : respects by_pareto optimal_key.
Proof.
  intros c d. unfold by_pareto, optimal_key.
  destruct (pc_optimal c), (pc_optimal d); cbn; try done; destruct (f64_neq _ _); destruct (SFltb _ _); done.
Qed.

(** ** Orders keep the providers *)

Lemma rotate_at_perm {A} n (l : list A) : rotate_at n l ≡ₚ l.
Proof. unfold rotate_at. rewrite (comm (++)). by rewrite take_drop. Qed.

Lemma omap_idx {A} (l : list A) :
  omap (fun i => l !! i) (seq 0 (length l)) = l.
Proof.
  enough (forall k, omap (fun i => l !! (i - k)%nat) (seq k (length l)) = l) as E.
  { specialize (E 0%nat). erewrite list_omap_ext; [exact E|]. apply Forall_Forall2_diag.
    apply Forall_forall. intros i _. by rewrite Nat.sub_0_r. }
  induction l as [|x l IH]; intros k; [done|]. cbn. rewrite Nat.sub_diag. cbn. f_equal.
  rewrite <- (IH (S k)) at 2. apply list_omap_ext. apply Forall_Forall2_diag, Forall_forall.
  intros i Hi%elem_of_seq. replace (i - k)%nat with (S (i - S k)) by lia. done.
Qed.

Lemma sortByPareto_perm st ps : sortByPareto st ps ≡ₚ ps.
Proof.
  unfold sortByPareto. rewrite SliceStable_perm. set (L := mark_optimal _).
  assert (pc_idx <$> L = seq 0 (length ps)) as HL.
  { unfold L, mark_optimal. rewrite <- list_fmap_compose.
    transitivity (pc_idx <$> imap (prov_cost st) ps); [by apply list_fmap_ext|].
    rewrite fmap_imap. transitivity (imap (fun j (_ : RouterProvider) => (fun i : nat => i) j) ps); [done|].
    rewrite imap_seq_0. apply list_fmap_id. }
  assert (omap (fun c => ps !! pc_idx c) L = omap (fun i => ps !! i) (pc_idx <$> L)) as ->.
  { apply list_omap_ext. apply Forall2_fmap_r, Forall_Forall2_diag, Forall_forall. done. }
  by rewrite HL, omap_idx.
Qed.

Section selection.
Context {S : Type} `{QuotaStore S}.

Lemma order_perm strategy shuffle ps (r : LLMRouter S) : (forall l, shuffle l ≡ₚ l) ->
  (order_providers strategy shuffle ps r).1 ≡ₚ ps.
Proof.
  intros Hsh. unfold order_providers. repeat case_decide; cbn.
  - apply SliceStable_perm.
  - apply SliceStable_perm.
  - apply sortByPareto_perm.
  - unfold roundRobin. destruct ps as [|p ps]; [done|]. cbn [fst]. apply rotate_at_perm.
  - apply Hsh.
  - apply SliceStable_perm.
Qed.

Lemma order_frame strategy shuffle ps (r : LLMRouter S) :
  lr_stats (order_providers strategy shuffle ps r).2 = lr_stats r /\
  lr_tenantQuota (order_providers strategy shuffle ps r).2 = lr_tenantQuota r.
Proof. unfold order_providers. repeat case_decide; cbn; try done. unfold roundRobin. by destruct ps. Qed.

(** What the operations on one provider leave alone. *)
Definition same_router (name : string) (r r' : LLMRouter S) : Prop :=
  lr_providers r' = lr_providers r /\ lr_tenantQuota r' = lr_tenantQuota r /\
  lr_tenantID r' = lr_tenantID r /\
  forall n, n <> name -> lr_stats r' !! n = lr_stats r !! n.

Lemma same_router_refl name r : same_router name r r.
Proof. by split_and!. Qed.
Lemma same_router_trans name r1 r2 r3 :
  same_router name r1 r2 -> same_router name r2 r3 -> same_router name r1 r3.
Proof.
  intros (A1 & A2 & A3 & A4) (B1 & B2 & B3 & B4). split_and!; [congruence..|].
  intros n Hn. rewrite B4 by done. by apply A4.
Qed.
Lemma same_router_insert name s r : same_router name r (set_stats (<[name := s]> (lr_stats r)) r).
Proof. split_and!; [done..|]. intros n Hn. cbn. by rewrite lookup_insert_ne. Qed.

Lemma loadQuota_frame today name stats r :
  let '(stats', r') := loadQuotaLocked today name stats r in
  same_router name r r' /\ lr_stats r' = lr_stats r /\ ps_Breaker stats' = ps_Breaker stats /\
  (ps_LastResetDate stats = today -> ps_LastResetDate stats' = today).
Proof.
  unfold loadQuotaLocked. destruct (lr_store r) as [s|]; [|done].
  destruct (qs_Load _ _ s) as [[[u d]|e] s1]; [|done].
  repeat case_decide; try done.
Qed.

Lemma getOrCreate_frame today name r :
  let '(stats, r') := getOrCreateStatsLocked today name r in
  same_router name r r' /\ lr_stats r' !! name = Some stats /\
  match lr_stats r !! name with
  | Some s => stats = s
  | None => ps_Breaker stats = NewCircuitBreaker DefaultCircuitBreakerConfig /\ ps_LastResetDate stats = today
  end.
Proof.
  unfold getOrCreateStatsLocked. destruct (lr_stats r !! name) as [s|] eqn:E; [done|].
  pose proof (loadQuota_frame today name (newProviderStats today) r) as Hl.
  destruct (loadQuotaLocked _ _ _ r) as [stats r1]. destruct Hl as (H1 & H2 & H3 & H4). split_and!.
  - eapply same_router_trans; [exact H1|]. apply same_router_insert.
  - cbn. by rewrite lookup_insert_eq.
  - done.
  - by apply H4.
Qed.

Lemma scheduleClear_frame name r :
  same_router name r (scheduleQuotaClearLocked name r) /\ lr_stats (scheduleQuotaClearLocked name r) = lr_stats r.
Proof.
  unfold scheduleQuotaClearLocked. destruct (lr_store r) as [s|]; [|done]. by destruct (lr_saver r).
Qed.

Lemma reset_day_frame today name stats r : lr_stats r !! name = Some stats ->
  let '(stats', r') := reset_day today name stats r in
  same_router name r r' /\ lr_stats r' !! name = Some stats' /\ ps_Breaker stats' = ps_Breaker stats /\
  ps_LastResetDate stats' = today /\ (ps_LastResetDate stats = today -> stats' = stats).
Proof.
  intros Hs. unfold reset_day. case_decide as E; [done|].
  destruct (scheduleClear_frame name (set_stats (<[name := set_usage 0 today stats]> (lr_stats r)) r)) as [H1 H2].
  split_and!; [| |done|done|done].
  - eapply same_router_trans; [apply same_router_insert|exact H1].
  - rewrite H2. cbn. by rewrite lookup_insert_eq.
Qed.

(** A provider that may be tried: it has statistics of the day and its quota
    is not used up. *)
Definition eligible (today : string) (r : LLMRouter S) (p : RouterProvider) : Prop :=
  rp_Enabled p = true /\ exists stats, lr_stats r !! rp_Name p = Some stats /\
    ps_LastResetDate stats = today /\ exhausted r p stats = false.

(** One provider in the loop of [getActiveProviders]. *)
Lemma consider_spec now today active r p :
  let '(active', r') := consider now today (active, r) p in
  same_router (rp_Name p) r r' /\
  (forall s, lr_stats r !! rp_Name p = Some s -> ps_LastResetDate s = today ->
     exists s', lr_stats r' !! rp_Name p = Some s' /\ ps_LastResetDate s' = today /\
       ps_DailyUsage s' = ps_DailyUsage s) /\
  (active' = active \/ active' = (active ++ [p])%list /\ eligible today r' p).
Proof.
  unfold consider. destruct (rp_Enabled p) eqn:Ee; cbn [negb];
    [|split_and!; [apply same_router_refl|intros s Hs Ht; by exists s|by left]].
  pose proof (getOrCreate_frame today (rp_Name p) r) as Hg.
  destruct (getOrCreateStatsLocked _ _ r) as [stats r1]. destruct Hg as (G1 & G2 & G3).
  pose proof (reset_day_frame today (rp_Name p) stats r1 G2) as Hd.
  destruct (reset_day _ _ stats r1) as [stats1 r2]. destruct Hd as (D1 & D2 & D3 & D4 & D5).
  assert (same_router (rp_Name p) r r2) as F by (by eapply same_router_trans).
  assert (forall s, lr_stats r !! rp_Name p = Some s -> ps_LastResetDate s = today -> stats1 = s) as Hsame.
  { intros s Hs Ht. rewrite Hs in G3. subst s. by apply D5. }
  destruct (exhausted r2 p stats1) eqn:Ex.
  { split_and!; [done| |by left]. intros s Hs Ht. pose proof (Hsame s Hs Ht) as <-. by exists stats1. }
  destruct (AllowRequest now (ps_Breaker stats1)) as [ok b].
  set (r3 := set_stats _ r2).
  assert (same_router (rp_Name p) r r3) as F3 by (eapply same_router_trans; [exact F|apply same_router_insert]).
  assert (lr_stats r3 !! rp_Name p = Some (set_breaker b stats1)) as H3 by (cbn; by rewrite lookup_insert_eq).
  destruct ok; (split_and!; [done| |]).
  - intros s Hs Ht. exists (set_breaker b stats1). by rewrite <- (Hsame s Hs Ht).
  - right. split; [done|]. split; [done|]. exists (set_breaker b stats1). done.
  - intros s Hs Ht. exists (set_breaker b stats1). by rewrite <- (Hsame s Hs Ht).
  - by left.
Qed.

Lemma eligible_keep now today active r p q : eligible today r q ->
  eligible today (consider now today (active, r) p).2 q.
Proof.
  intros (He & s & Hs & Ht & Hx). pose proof (consider_spec now today active r p) as Hc.
  destruct (consider _ _ _ p) as [active' r']. destruct Hc as ((_ & Hq & _ & Ho) & Hp & _). cbn.
  split; [done|]. unfold exhausted, quotaFor in *. rewrite Hq.
  destruct (decide (rp_Name q = rp_Name p)) as [E|Hne].
  - rewrite E in *. destruct (Hp s Hs Ht) as (s' & Hs' & Ht' & Hu). exists s'. by rewrite Hu.
  - exists s. by rewrite Ho.
Qed.

Lemma active_spec now today ps : forall active r,
  (forall q, q ∈ active -> eligible today r q) ->
  let '(active', r') := foldl (consider now today) (active, r) ps in
  (forall q, q ∈ active' -> (q ∈ active \/ q ∈ ps) /\ eligible today r' q) /\
  lr_tenantQuota r' = lr_tenantQuota r.
Proof.
  induction ps as [|p ps IH]; intros active r Ha; cbn [foldl]; [split; [|done]; intros q Hq; split; [by left|by apply Ha]|].
  pose proof (consider_spec now today active r p) as Hc.
  pose proof (fun q => eligible_keep now today active r p q) as Hk.
  destruct (consider now today (active, r) p) as [active1 r1]. cbn [snd] in Hk.
  destruct Hc as ((_ & Hq & _) & _ & Hact).
  assert (forall q, q ∈ active1 -> (q ∈ active \/ q = p) /\ eligible today r1 q) as Ha1.
  { intros q Hin. destruct Hact as [->|[-> Hel]]; [by split; [left|apply Hk, Ha]|].
    apply elem_of_app in Hin as [Hin| ->%list_elem_of_singleton]; [by split; [left|apply Hk, Ha]|].
    split; [by right|done]. }
  specialize (IH active1 r1 (fun q Hin => proj2 (Ha1 q Hin))).
  destruct (foldl _ _ ps) as [active' r']. destruct IH as [I1 I2]. split; [|congruence].
  intros q Hin. destruct (I1 q Hin) as [[H1|H1] Hel]; (split; [|done]).
  - destruct (Ha1 q H1) as [[?| ->] _]; [by left|]. right. by left.
  - right. by right.
Qed.
End selection.

(** only eligible providers are tried: whatever the strategy, the selection
    holds enabled providers of the router's list whose usage of the day is
    below their quota, and it leaves out none of those that the breakers
    admitted; the priority strategy puts higher priorities first. *)
Theorem selectProviders_eligible {S : Type} `{QuotaStore S} (strategy today : string)
    (shuffle : list RouterProvider -> list RouterProvider) (now : Z) (r : LLMRouter S) :
  (forall l, shuffle l ≡ₚ l) ->
  let '(ps, r') := selectProviders strategy shuffle now today r in
  (forall p, p ∈ ps -> p ∈ lr_providers r /\ eligible today r' p) /\
  ps ≡ₚ (getActiveProviders now today r).1 /\
  (strategy = RouterStrategyPriority -> StronglySorted (fun p q => rp_Priority q <= rp_Priority p) ps).
Proof.
  intros Hsh. unfold selectProviders, getActiveProviders.
  pose proof (active_spec now today (lr_providers r) [] r ltac:(by intros q ?%elem_of_nil)) as Ha.
  destruct (foldl _ _ (lr_providers r)) as [active r1]. destruct Ha as [Ha Hq].
  pose proof (order_perm strategy shuffle active r1 Hsh) as Hp.
  destruct (order_frame strategy shuffle active r1) as [F1 F2].
  assert (strategy = RouterStrategyPriority ->
    (order_providers strategy shuffle active r1).1 = SliceStable by_priority active) as Hpr by (by intros ->).
  destruct (order_providers strategy shuffle active r1) as [ps r']. cbn [fst snd] in *. split_and!.
  - intros p Hin. rewrite Hp in Hin. destruct (Ha p Hin) as [[?%elem_of_nil|Hl] (He & s & Hs & Ht & Hx)]; [done|].
    split; [done|]. split; [done|]. exists s. rewrite F1. unfold exhausted, quotaFor in *. by rewrite F2.
  - done.
  - intros ->. rewrite Hpr by done. apply SliceStable_sorted, by_priority_respects.
Qed.

Definition provider (name : string) (priority quota : Z) : RouterProvider :=
  mkProvider name "m" "" "key" priority f64_zero quota true 0 f64_one.
Definition demo_router {S} (ps : list RouterProvider) (store : option S) : LLMRouter S :=
  mkRouter ps ∅ 0 RouterStrategyPriority 3 "" ∅ store None.

Lemma selectProviders_eligible_witness :
  let r := demo_router (S:=MemoryQuotaStore) [provider "glm" 1 10; provider "openai" 5 0] None in
  rp_Name <$> (selectProviders RouterStrategyPriority (fun l => l) 0 "2026-01-01" r).1 = ["openai"; "glm"] /\
  forall p, p ∈ (selectProviders RouterStrategyPriority (fun l => l) 0 "2026-01-01" r).1 -> p ∈ lr_providers r.
Proof.
  intros r. split; [vm_compute; reflexivity|].
  pose proof (selectProviders_eligible RouterStrategyPriority "2026-01-01" (fun l => l) 0 r (fun l => Permutation_refl l)) as Hs.
  destruct (selectProviders _ _ _ _ r) as [ps r']. destruct Hs as [Hs _]. intros p Hp. by apply Hs.
Defined.

(** ** Fallback *)

Lemma bind_Ret {W A B} (m : M W A) (k : A -> M W B) w w' b :
  (m ≫= k) w = (w', Ret b) -> exists w1 a, m w = (w1, Ret a) /\ k a w1 = (w', Ret b).
Proof. unfold mbind, M_bind. destruct (m w) as [w1 [a|msg]] eqn:E; [|done]. intros Hk. eauto. Qed.

Section fallback.
Context {S W : Type} `{QuotaStore S} (env : RouterEnv (S:=S) (W:=W)).

(** How a list of providers was answered: the first one that succeeded, after
    failures of those before it. *)
Definition answered (ps : list RouterProvider) (input system : string) (params : gmap string string)
    (tried : list (string * error)) (res : routed) : Prop :=
  match res with
  | (out, name, None) =>
      exists before p after wr wr' latency, ps = (before ++ p :: after)%list /\ name = rp_Name p /\
        no_key p = false /\ callProvider env p input system params wr = (wr', Ret (out, None, latency))
  | (out, name, Some (AllFailed all)) =>
      out = "" /\ name = "" /\ all.*1 = (tried.*1 ++ (rp_Name <$> ps))%list
  | (out, name, Some (Cancelled _)) => out = "" /\ name = ""
  | (out, name, Some NoProviders) => False
  end.

Lemma answered_cons p ps input system params tried err res :
  answered ps input system params (tried ++ [(rp_Name p, err)])%list res ->
  answered (p :: ps) input system params tried res.
Proof.
  destruct res as [[out name] [[| e|all]|]]; cbn; [done|done| |].
  - intros (-> & -> & ->). split_and!; [done..|]. by rewrite fmap_app, <- (assoc_L (++)).
  - intros (before & q & after & wr & wr' & lat & -> & H1). by exists (p :: before), q, after, wr, wr', lat.
Qed.

Lemma try_providers_answered decision ps input system params : forall tried attempts wr wr' res,
  try_providers env decision ps input system params tried attempts wr = (wr', Ret res) ->
  answered ps input system params tried res.
Proof.
  induction ps as [|p ps IH]; intros tried attempts wr wr' res; cbn [try_providers].
  - intros (w1 & [] & _ & [= _ <-])%bind_Ret. cbn. by rewrite app_nil_r.
  - intros (w1 & d & _ & Hk)%bind_Ret. destruct d as [e|].
    { apply bind_Ret in Hk as (w2 & [] & _ & [= _ <-]). done. }
    destruct (no_key p) eqn:Ek.
    { apply bind_Ret in Hk as (w2 & [] & _ & Hk). by eapply answered_cons, IH. }
    apply bind_Ret in Hk as (w2 & [[out [err|]] lat] & Hc & Hk).
    + apply bind_Ret in Hk as (w3 & [] & _ & Hk). by eapply answered_cons, IH.
    + apply bind_Ret in Hk as (w3 & now & _ & Hk). apply bind_Ret in Hk as (w4 & today & _ & Hk).
      apply bind_Ret in Hk as (w5 & [] & _ & Hk). apply bind_Ret in Hk as (w6 & [] & _ & [= _ <-]).
      exists [], p, ps, w1, w2, lat. done.
Qed.
End fallback.

(** fallback in order: a call selects providers, tries at most the allowed
    number of them one after the other, and returns the answer of the first
    that succeeds; when it reports that all failed, the error names exactly
    the ones that were allowed, in their order.  This holds whatever other
    calls do to the router in the meantime. *)
Theorem Execute_fallback {S W : Type} `{QuotaStore S} (env : RouterEnv (S:=S) (W:=W)) (input : string)
    (params : gmap string string) wr wr' (res : routed) :
  router_Execute env input params wr = (wr', Ret res) ->
  exists strategy shuffle now today (r0 r1 : LLMRouter S),
    let ps := (selectProviders strategy shuffle now today r0).1 in
    let allowed := firstn (Z.to_nat (max_attempts params r1)) ps in
    match res with
    | (out, name, Some NoProviders) => out = "" /\ name = "" /\ ps = []
    | _ => answered env allowed input (default "" (params !! "system")) params [] res
    end.
Proof.
  unfold router_Execute. intros (w1 & strategy & _ & Hk)%bind_Ret. apply bind_Ret in Hk as (w2 & now & _ & Hk).
  apply bind_Ret in Hk as (w3 & today & _ & Hk). apply bind_Ret in Hk as (w4 & shuffle & _ & Hk).
  apply bind_Ret in Hk as (w5 & ps & Hsel & Hk).
  assert (ps = (selectProviders strategy shuffle now today w4.2).1) as ->.
  { unfold locked in Hsel. destruct (selectProviders strategy shuffle now today w4.2). by injection Hsel as _ <-. }
  set (ps := (selectProviders _ _ _ _ _).1) in *. exists strategy, shuffle, now, today, w4.2.
  destruct ps as [|p ps'] eqn:Eps; fold ps; rewrite Eps.
  - apply bind_Ret in Hk as (w6 & [] & _ & [= _ <-]). exists w4.2. done.
  - apply bind_Ret in Hk as (w6 & tries & Ht & Hk). injection Ht as _ <-. exists w5.2.
    apply try_providers_answered in Hk. by destruct res as [[out name] [[]|]].
Qed.

(** ** A provider that is locked out *)

Section lockout.
Context {S W : Type} `{QuotaStore S} (env : RouterEnv (S:=S) (W:=W)) (name : string).

(** The breaker of the provider is half-open and has no probe left. *)
Definition stuck (r : LLMRouter S) : Prop :=
  exists s, lr_stats r !! name = Some s /\ cb_state (ps_Breaker s) = CircuitHalfOpen /\
    cb_inFlight (ps_Breaker s) = HalfOpenMaxRequests (cb_config (ps_Breaker s)).

Definition keeps_stuck {A} (m : M (W * LLMRouter S) A) : Prop :=
  forall wr, stuck wr.2 -> stuck (m wr).1.2.

Lemma keeps_stuck_bind {A B} (m : M (W * LLMRouter S) A) (k : A -> M (W * LLMRouter S) B) :
  keeps_stuck m -> (forall a, keeps_stuck (k a)) -> keeps_stuck (m ≫= k).
Proof.
  intros Hm Hk wr Hs. unfold mbind, M_bind. specialize (Hm wr Hs).
  destruct (m wr) as [w1 [a|msg]]; [by apply Hk|done].
Qed.
Lemma keeps_stuck_ret {A} (a : A) : keeps_stuck (mret a).
Proof. by intros wr. Qed.

Lemma stuck_other n r r' : n <> name -> same_router n r r' -> stuck r -> stuck r'.
Proof. intros Hn (_ & _ & _ & Ho) (s & Hs & H1). exists s. by rewrite Ho. Qed.

Lemma consider_stuck now today active r p : stuck r ->
  stuck (consider now today (active, r) p).2 /\
  (forall q, q ∈ (consider now today (active, r) p).1 -> q ∈ active \/ rp_Name q <> name).
Proof.
  intros Hst. destruct (decide (rp_Name p = name)) as [Hn|Hn].
  - unfold consider. destruct (rp_Enabled p); cbn [negb]; [|by split; [|left]].
    pose proof (getOrCreate_frame today (rp_Name p) r) as Hg.
    destruct (getOrCreateStatsLocked _ _ r) as [stats r1]. destruct Hg as (G1 & G2 & G3).
    destruct Hst as (s & Hs & Hb & Hf). rewrite <- Hn in Hs. rewrite Hs in G3. subst s.
    pose proof (reset_day_frame today (rp_Name p) stats r1 G2) as Hd.
    destruct (reset_day _ _ stats r1) as [stats1 r2]. destruct Hd as (D1 & D2 & D3 & D4 & D5).
    rewrite <- D3 in Hb, Hf. rewrite Hn in D2.
    destruct (exhausted r2 p stats1); [split; [by exists stats1|by left]|].
    unfold AllowRequest. rewrite Hb, Hf, Z.ltb_irrefl. split; [|by left].
    exists (set_breaker (ps_Breaker stats1) stats1). split; [|done]. cbn. rewrite Hn. by rewrite lookup_insert_eq.
  - pose proof (consider_spec now today active r p) as Hc.
    destruct (consider _ _ _ p) as [active' r']. destruct Hc as (H1 & _ & H3). cbn. split; [by eapply stuck_other|].
    intros q Hq. destruct H3 as [->|[-> _]]; [by left|].
    apply elem_of_app in Hq as [Hq| ->%list_elem_of_singleton]; [by left|by right].
Qed.

Lemma select_stuck strategy shuffle now today r : (forall l, shuffle l ≡ₚ l) -> stuck r ->
  let '(ps, r') := selectProviders strategy shuffle now today r in
  stuck r' /\ forall q, q ∈ ps -> rp_Name q <> name.
Proof.
  intros Hsh Hst. unfold selectProviders, getActiveProviders.
  assert (forall ps active r, stuck r -> (forall q, q ∈ active -> rp_Name q <> name) ->
    stuck (foldl (consider now today) (active, r) ps).2 /\
    (forall q, q ∈ (foldl (consider now today) (active, r) ps).1 -> rp_Name q <> name)) as Hl.
  { clear Hst r. induction ps as [|p ps IH]; intros active r Hst Ha; [done|]. cbn [foldl].
    destruct (consider_stuck now today active r p Hst) as [H1 H2].
    destruct (consider now today (active, r) p) as [a1 r1]. cbn in H1, H2. apply IH; [done|].
    intros q Hq. destruct (H2 q Hq); auto. }
  destruct (Hl (lr_providers r) [] r Hst ltac:(by intros q ?%elem_of_nil)) as [L1 L2].
  destruct (foldl _ _ (lr_providers r)) as [active r1]. cbn in L1, L2.
  pose proof (order_perm strategy shuffle active r1 Hsh) as Hp.
  destruct (order_frame strategy shuffle active r1) as [F1 _].
  destruct (order_providers strategy shuffle active r1) as [ps r']. cbn in Hp, F1. split.
  - destruct L1 as (s & Hs & H1). exists s. by rewrite F1.
  - intros q Hq. apply L2. by rewrite <- Hp.
Qed.

Lemma scheduleSave_stats n s (r : LLMRouter S) : lr_stats (scheduleQuotaSaveLocked n s r) = lr_stats r.
Proof. unfold scheduleQuotaSaveLocked. by destruct (lr_saver r). Qed.

Lemma recordSuccess_stuck now today n lat tok r : n <> name -> stuck r ->
  stuck (recordSuccess now today n lat tok r).
Proof.
  intros Hn Hst. unfold recordSuccess. pose proof (getOrCreate_frame today n r) as Hg.
  destruct (getOrCreateStatsLocked _ _ r) as [stats r1]. destruct Hg as (G1 & G2 & _).
  pose proof (reset_day_frame today n stats r1 G2) as Hd.
  destruct (reset_day _ _ stats r1) as [s r2]. destruct Hd as (D1 & _).
  assert (stuck r2) as (x & Hx & Hb) by (eapply stuck_other, stuck_other; eauto).
  set (s' := mkStats _ _ _ _ _ _ _ _ _ _ _).
  assert (stuck (scheduleQuotaSaveLocked n s' (set_stats (<[n := s']> (lr_stats r2)) r2))) as H3.
  { exists x. split; [|done]. rewrite scheduleSave_stats. cbn. by rewrite lookup_insert_ne. }
  destruct (0 <? ps_TotalCalls s'); [|exact H3]. destruct H3 as (y & Hy). by exists y.
Qed.

Lemma recordFailure_stuck now today n lat r : n <> name -> stuck r ->
  stuck (recordFailure now today n lat r).
Proof.
  intros Hn Hst. unfold recordFailure. pose proof (getOrCreate_frame today n r) as Hg.
  destruct (getOrCreateStatsLocked _ _ r) as [s r1]. destruct Hg as (G1 & G2 & _).
  assert (stuck r1) as (x & Hx & Hb) by (by eapply stuck_other). set (s' := mkStats _ _ _ _ _ _ _ _ _ _ _).
  assert (stuck (set_stats (<[n := s']> (lr_stats r1)) r1)) as H3.
  { exists x. split; [|done]. cbn. by rewrite lookup_insert_ne. }
  destruct (0 <? ps_TotalCalls s'); [|exact H3]. destruct H3 as (y & Hy). by exists y.
Qed.

(** The clock, the calls and the other goroutines do not touch the provider. *)
Record spares_provider : Prop := {
  sp_now : keeps_stuck (re_now env);
  sp_today : keeps_stuck (re_today env);
  sp_shuffle : keeps_stuck (re_shuffle env);
  sp_perm : yields (re_shuffle env) (fun f => forall l, f l ≡ₚ l);
  sp_done : keeps_stuck (re_done env);
  sp_call : forall p i c, keeps_stuck (re_call env p i c);
  sp_sink : forall d, keeps_stuck (re_sink env d)
}.
Context (Henv : spares_provider).

#[local] Hint Resolve keeps_stuck_bind keeps_stuck_ret sp_now sp_today sp_shuffle sp_done sp_call sp_sink : core.

Lemma keeps_stuck_update f : (forall r, stuck r -> stuck (f r)) -> keeps_stuck (update f).
Proof. intros Hf wr Hs. by apply Hf. Qed.

Lemma try_providers_stuck decision ps input system params : (forall p, p ∈ ps -> rp_Name p <> name) ->
  forall tried attempts, keeps_stuck (try_providers env decision ps input system params tried attempts).
Proof using Henv.
  induction ps as [|p ps IH]; intros Hps tried attempts; cbn [try_providers].
  { apply keeps_stuck_bind; [by apply sp_sink|auto]. }
  assert (rp_Name p <> name) as Hp by (apply Hps; by left).
  assert (forall tried attempts, keeps_stuck (try_providers env decision ps input system params tried attempts)) as IH'
    by (apply IH; intros q Hq; apply Hps; by right).
  assert (forall lat, keeps_stuck (fail_with env p lat)) as Hf.
  { intros lat. apply keeps_stuck_bind; [by apply sp_now|intros now].
    apply keeps_stuck_bind; [by apply sp_today|intros today].
    apply keeps_stuck_update. intros r. by apply recordFailure_stuck. }
  apply keeps_stuck_bind; [by apply sp_done|]. intros [e|].
  { apply keeps_stuck_bind; [by apply sp_sink|auto]. }
  destruct (no_key p); [by apply keeps_stuck_bind|].
  apply keeps_stuck_bind; [by apply sp_call|]. intros [[out [err|]] lat]; [by apply keeps_stuck_bind|].
  apply keeps_stuck_bind; [by apply sp_now|intros now].
  apply keeps_stuck_bind; [by apply sp_today|intros today].
  apply keeps_stuck_bind; [|intros ?; apply keeps_stuck_bind; [by apply sp_sink|auto]].
  apply keeps_stuck_update. intros r. by apply recordSuccess_stuck.
Qed.

(** The provider stays stuck and the value satisfies [Q]. *)
Definition stuck_post {A} (m : M (W * LLMRouter S) A) (Q : A -> Prop) : Prop :=
  forall wr, stuck wr.2 -> stuck (m wr).1.2 /\ forall a, (m wr).2 = Ret a -> Q a.

Lemma stuck_post_bind {A B} (m : M (W * LLMRouter S) A) (k : A -> M (W * LLMRouter S) B) Q Q' :
  stuck_post m Q -> (forall a, Q a -> stuck_post (k a) Q') -> stuck_post (m ≫= k) Q'.
Proof.
  intros Hm Hk wr Hs. unfold mbind, M_bind. destruct (Hm wr Hs) as [H1 H2].
  destruct (m wr) as [w1 [a|msg]]; [apply Hk; [by apply H2|done]|done].
Qed.

Lemma stuck_post_yields {A} (m : M (W * LLMRouter S) A) Q : keeps_stuck m -> yields m Q -> stuck_post m Q.
Proof.
  intros Hk Hy wr Hs. split; [by apply Hk|]. intros a Ha. destruct (m wr) as [w' o] eqn:E. cbn in Ha. subst o.
  by apply (Hy _ _ _ E).
Qed.

Lemma stuck_post_any {A} (m : M (W * LLMRouter S) A) : keeps_stuck m -> stuck_post m (fun _ => True).
Proof. intros Hk. by apply stuck_post_yields. Qed.

Lemma Execute_stuck input params :
  stuck_post (router_Execute env input params) (fun res => forall out n, res = (out, n, None) -> n <> name).
Proof using Henv.
  unfold router_Execute. eapply stuck_post_bind; [apply stuck_post_any; by intros wr|]. intros strategy _.
  eapply stuck_post_bind; [apply stuck_post_any, (sp_now Henv)|]. intros now _.
  eapply stuck_post_bind; [apply stuck_post_any, (sp_today Henv)|]. intros today _.
  eapply stuck_post_bind; [apply stuck_post_yields; [apply (sp_shuffle Henv)|apply (sp_perm Henv)]|].
  intros shuffle Hperm.
  eapply (stuck_post_bind _ _ (fun ps => forall q, q ∈ ps -> rp_Name q <> name)).
  { intros wr Hst. unfold locked. pose proof (select_stuck strategy shuffle now today wr.2 Hperm Hst) as Hsel.
    destruct (selectProviders strategy shuffle now today wr.2) as [ps r4]. destruct Hsel as [H4 Hps].
    split; [exact H4|]. by intros a [= <-]. }
  intros ps Hps. destruct ps as [|p ps'].
  { eapply stuck_post_bind; [apply stuck_post_any, (sp_sink Henv)|]. intros _ _.
    apply stuck_post_yields; [apply keeps_stuck_ret|]. by apply yields_ret. }
  eapply stuck_post_bind; [apply stuck_post_any; by intros wr|]. intros tries _.
  set (lim := firstn _ (p :: ps')).
  assert (forall q, q ∈ lim -> rp_Name q <> name) as Hlim.
  { intros q Hq. apply Hps. by eapply elem_of_take in Hq as (i & Hi%list_elem_of_lookup_2 & _). }
  apply stuck_post_yields; [by apply try_providers_stuck|].
  intros wr wr' res Hr out n ->. apply try_providers_answered in Hr.
  destruct Hr as (before & q & after & ? & ? & ? & E & -> & _). apply Hlim. rewrite E.
  apply elem_of_app. right. by left.
Qed.
End lockout.

(** a half-open provider without probes left is lost for good: nothing that
    calls of the router do, on any input and at any time, changes its
    breaker, and no call is answered by it again. *)
Theorem provider_locked_out {S W : Type} `{QuotaStore S} (env : RouterEnv (S:=S) (W:=W)) (name : string)
    (calls : list (string * gmap string string)) input params wr :
  spares_provider env name -> stuck name wr.2 ->
  let wr' := foldl (fun wr c => (router_Execute env c.1 c.2 wr).1) wr calls in
  stuck name wr'.2 /\
  forall out n, (router_Execute env input params wr').2 = Ret (out, n, None) -> n <> name.
Proof.
  intros Henv Hst wr'.
  assert (stuck name wr'.2) as Hst'.
  { unfold wr'. clear wr'. revert wr Hst. induction calls as [|c calls IH]; intros wr Hst; [done|]. cbn [foldl].
    apply IH. by apply (Execute_stuck env name Henv c.1 c.2). }
  split; [done|]. intros out n Hr.
  by apply (proj2 (Execute_stuck env name Henv input params wr' Hst') _ Hr out n).
Qed.

(** How it comes to that: every selection takes a probe of each half-open
    provider, but only the providers that are tried give theirs back. *)
Definition answering (now : Z) : RouterEnv (S:=MemoryQuotaStore) (W:=unit) :=
  mkRouterEnv (mret now) (mret "2026-01-01") (mret (fun l => l)) (mret None)
    (fun p _ _ => mret ("answer of " +:+ rp_Name p, None, 1)) (fun _ => mret tt).

Definition opened_at (t : Z) : ProviderStats :=
  set_breaker (mkBreaker (cb_config (NewCircuitBreaker DefaultCircuitBreakerConfig)) CircuitOpen [] t 0 0)
    (newProviderStats "2026-01-01").

Definition two_providers : LLMRouter MemoryQuotaStore :=
  set_stats {["glm" := opened_at 0]} (demo_router [provider "openai" 2 0; provider "glm" 1 0] None).

(** [n] calls of the router at the same time. *)
Definition calls_at (now : Z) (n : nat) (wr : unit * LLMRouter MemoryQuotaStore) : unit * LLMRouter MemoryQuotaStore :=
  Nat.iter n (fun wr => (router_Execute (answering now) "hi" ∅ wr).1) wr.

Definition stuckb (name : string) (r : LLMRouter MemoryQuotaStore) : bool :=
  match lr_stats r !! name with
  | Some s => bool_decide (cb_state (ps_Breaker s) = CircuitHalfOpen) &&
              (cb_inFlight (ps_Breaker s) =? HalfOpenMaxRequests (cb_config (ps_Breaker s)))
  | None => false
  end.
Lemma stuckb_stuck name r : stuckb name r = true -> stuck name r.
Proof.
  unfold stuckb, stuck. destruct (lr_stats r !! name) as [s|]; [|done].
  intros [H1%bool_decide_eq_true H2%Z.eqb_eq]%andb_true_iff. by exists s.
Qed.

Lemma answering_spares now name : spares_provider (answering now) name.
Proof.
  split; try (by intros wr); try (by intros ? wr); try (by intros ? ? ? wr).
  intros w w' f [= _ <-]. done.
Qed.

Lemma provider_locked_out_witness :
  let wr := calls_at (31 * second) 3 (tt, two_providers) in
  let wr' := foldl (fun wr c => (router_Execute (answering (1000 * second)) c.1 c.2 wr).1) wr [("a", ∅); ("b", ∅)] in
  stuck "glm" wr.2 /\ stuck "glm" wr'.2.
Proof.
  intros wr wr'. assert (stuck "glm" wr.2) as Hs by (apply stuckb_stuck; vm_compute; reflexivity).
  split; [exact Hs|].
  apply (provider_locked_out (answering (1000 * second)) "glm" [("a", ∅); ("b", ∅)] "x" ∅ wr
    (answering_spares _ _) Hs).
Defined.

(** the lock-out happens to a healthy provider: with two providers that always
    answer, three calls after the cool-down of the second one, all answered
    by the first, take all probes of the second, and then it is not even
    tried when it is the only one left. *)
Theorem untried_probes_lock_out :
  let wr := calls_at (31 * second) 3 (tt, two_providers) in
  (router_Execute (answering (31 * second)) "hi" ∅ (tt, two_providers)).2 = Ret ("answer of openai", "openai", None) /\
  stuck "glm" wr.2 /\
  let only := set_providers [provider "glm" 1 0] wr.2 in
  (router_Execute (answering (10 ^ 6 * second)) "hi" ∅ (tt, only)).2 = Ret ("", "", Some NoProviders).
Proof.
  split; [vm_compute; reflexivity|]. split; [apply stuckb_stuck; vm_compute; reflexivity|].
  vm_compute. reflexivity.
Qed.

(** ** Quotas survive a restart *)

Section restart.
Context {S : Type} `{QuotaLaws S} (healthy : S -> Prop).

(** A store in which nothing fails. *)
Record reliable : Prop := {
  rl_Load : forall t p s, healthy s -> (exists v, (qs_Load t p s).1 = Ok v) /\ healthy (qs_Load t p s).2;
  rl_Save : forall t p u d s, healthy s -> (qs_Save t p u d s).1 = None /\ healthy (qs_Save t p u d s).2;
  rl_Clear : forall t p s, healthy s -> (qs_Clear t p s).1 = None /\ healthy (qs_Clear t p s).2
}.
Context (Hrel : reliable).

(** The router has a healthy store and an open writer in front of it. *)
Definition persistent (r : LLMRouter S) : Prop :=
  exists s q, lr_store r = Some s /\ healthy s /\ lr_saver r = Some q /\ sv_closed q = false /\
    keyed (sv_pending q).

Lemma enqueue_open u q : sv_closed q = false -> keyed (sv_pending q) -> plain_update u ->
  sv_closed (enqueue u q).2 = false /\ keyed (sv_pending (enqueue u q).2) /\
  sv_pending (enqueue u q).2 !! quota_key (qu_tenant u) (qu_provider u) = Some u.
Proof.
  intros Hq Hk Hu. unfold enqueue. rewrite Hq. cbn. split_and!; [done| |by rewrite lookup_insert_eq].
  intros k v [[<- <-]|[_ Hv]]%lookup_insert_Some; [done|]. by apply Hk.
Qed.

Lemma loadQuota_persistent today name stats r : persistent r ->
  persistent (loadQuotaLocked today name stats r).2.
Proof using Hrel.
  intros (s & q & Hs & Hh & Hq & Hc & Hk). unfold loadQuotaLocked. rewrite Hs.
  destruct (rl_Load Hrel (effectiveTenant r) name s Hh) as [(v & Hv) Hh1].
  destruct (qs_Load _ _ s) as [res s1]. cbn in Hv, Hh1. subst res. destruct v as [u d].
  repeat case_decide; cbn.
  - exists s1, q. by rewrite Hq.
  - exists s1, q. by rewrite Hq.
  - eexists _, q. rewrite Hq. split_and!; [done| |done..]. by apply (rl_Clear Hrel).
Qed.

Lemma getOrCreate_persistent today name r : persistent r ->
  persistent (getOrCreateStatsLocked today name r).2.
Proof using Hrel.
  intros Hp. unfold getOrCreateStatsLocked. destruct (lr_stats r !! name); [done|].
  pose proof (loadQuota_persistent today name (newProviderStats today) r Hp) as Hl.
  destruct (loadQuotaLocked _ _ _ r) as [stats r1]. exact Hl.
Qed.

Lemma reset_day_persistent today name stats r : plain_name name -> plain_name (effectiveTenant r) ->
  persistent r -> persistent (reset_day today name stats r).2.
Proof.
  intros Hn Ht (s & q & Hs & Hh & Hq & Hc & Hk). unfold reset_day. case_decide; [by exists s, q|].
  cbn. unfold scheduleQuotaClearLocked. cbn. rewrite Hs, Hq. cbn.
  change (effectiveTenant (set_stats _ r)) with (effectiveTenant r).
  assert (sv_closed (clearPending (effectiveTenant r) name q).2 = false /\
    keyed (sv_pending (clearPending (effectiveTenant r) name q).2)) as [Hc1 Hk1].
  { unfold clearPending. destruct (sv_pending q !! _); [|done]. cbn. split; [done|].
    intros k v [_ Hv]%lookup_delete_Some. by apply Hk. }
  destruct (enqueue_open (mkUpdate (effectiveTenant r) name 0 "" true) _ Hc1 Hk1) as (E1 & E2 & _); [done|].
  by exists s, (EnqueueClear (effectiveTenant r) name (clearPending (effectiveTenant r) name q).2).2.
Qed.

Lemma effectiveTenant_eq (r r' : LLMRouter S) : lr_tenantID r' = lr_tenantID r ->
  effectiveTenant r' = effectiveTenant r.
Proof. unfold effectiveTenant. by intros ->. Qed.

(** After a success the writer holds the new usage. *)
Lemma recordSuccess_pending now today name lat tok r : persistent r ->
  plain_name name -> plain_name (effectiveTenant r) ->
  let r' := recordSuccess now today name lat tok r in
  exists s q stats, lr_store r' = Some s /\ healthy s /\ lr_saver r' = Some q /\ keyed (sv_pending q) /\
    lr_tenantID r' = lr_tenantID r /\ lr_stats r' !! name = Some stats /\ ps_LastResetDate stats = today /\
    sv_pending q !! quota_key (effectiveTenant r) name
      = Some (mkUpdate (effectiveTenant r) name (ps_DailyUsage stats) today false).
Proof using Hrel.
  intros Hp Hn Ht r'. unfold r', recordSuccess.
  pose proof (getOrCreate_frame today name r) as Hg. pose proof (getOrCreate_persistent today name r Hp) as Hp1.
  destruct (getOrCreateStatsLocked _ _ r) as [stats r1]. destruct Hg as ((_ & _ & T1 & _) & G2 & _).
  pose proof (reset_day_frame today name stats r1 G2) as Hd.
  pose proof (reset_day_persistent today name stats r1 Hn) as Hp2.
  rewrite (effectiveTenant_eq r r1 T1) in Hp2. specialize (Hp2 Ht Hp1).
  destruct (reset_day _ _ stats r1) as [s r2]. destruct Hd as ((_ & _ & T2 & _) & _ & _ & D4 & _).
  cbn [snd] in *. destruct Hp2 as (st & q & Hs & Hh & Hq & Hc & Hk).
  set (s' := mkStats _ _ _ _ _ _ _ _ _ _ _).
  assert (effectiveTenant (set_stats (<[name := s']> (lr_stats r2)) r2) = effectiveTenant r) as Et
    by (apply effectiveTenant_eq; cbn; congruence).
  set (u := mkUpdate (effectiveTenant r) name (ps_DailyUsage s') (ps_LastResetDate s') false).
  destruct (enqueue_open u q Hc Hk) as (E1 & E2 & E3); [done|].
  assert (exists r3, scheduleQuotaSaveLocked name s' (set_stats (<[name := s']> (lr_stats r2)) r2) = r3 /\
    lr_store r3 = Some st /\ lr_saver r3 = Some (enqueue u q).2 /\ lr_tenantID r3 = lr_tenantID r /\
    lr_stats r3 !! name = Some s') as (r3 & -> & S1 & S2 & S3 & S4).
  { eexists. split; [reflexivity|]. unfold scheduleQuotaSaveLocked. cbn [set_stats lr_saver]. rewrite Hq, Et.
    cbn. split_and!; [done|done|congruence|by rewrite lookup_insert_eq]. }
  assert (sv_pending (enqueue u q).2 !! quota_key (effectiveTenant r) name
    = Some (mkUpdate (effectiveTenant r) name (ps_DailyUsage s') today false)) as E4
    by (rewrite <- D4; exact E3).
  exists st, (enqueue u q).2, s'. destruct (0 <? ps_TotalCalls s');
    cbn [set_providers lr_store lr_saver lr_tenantID lr_stats]; by split_and!.
Qed.

Lemma flush_view order q s t p : (forall m, order m ≡ₚ (map_to_list m).*2) -> healthy s -> keyed (sv_pending q) ->
  plain_name t -> plain_name p ->
  healthy (flush order q s).2 /\
  forall u, sv_pending q !! quota_key t p = Some u -> qs_view (flush order q s).2 t p = updated u.
Proof using Hrel.
  intros Ho Hh Hk Ht Hp. cbn [flush snd].
  assert (Forall plain_update (order (sv_pending q))) as HF.
  { rewrite Ho. apply Forall_forall. intros u ([k v] & -> & Hv%elem_of_map_to_list)%list_elem_of_fmap.
    by apply (Hk k v). }
  split.
  - revert s Hh. clear -Hrel. induction (order (sv_pending q)) as [|u us IH]; intros s Hh; [done|]. cbn.
    apply IH. unfold write_update. destruct (qu_clear u); [by apply (rl_Clear Hrel)|by apply (rl_Save Hrel)].
  - intros u Hu. rewrite (write_all_view healthy (rl_Save Hrel) (rl_Clear Hrel)) by done.
    by rewrite (last_for_pending _ _ _ _ Ht Hp Hk (Ho _)), Hu.
Qed.
End restart.

(** usage is not forgotten by a restart: after a success and a flush, a new
    router of the same tenant on the same store starts the day with the usage
    that the old one had. *)
Theorem quota_survives_restart {S : Type} `{QuotaLaws S} (healthy : S -> Prop)
    (order : gmap string quotaUpdate -> list quotaUpdate) (now : Z) (today name : string) (lat tok : Z)
    (r fresh : LLMRouter S) :
  reliable healthy -> (forall m, order m ≡ₚ (map_to_list m).*2) -> persistent healthy r ->
  plain_name name -> plain_name (effectiveTenant r) ->
  let r' := recordSuccess now today name lat tok r in
  lr_tenantID fresh = lr_tenantID r -> lr_stats fresh = ∅ -> lr_store fresh = lr_store (FlushQuota order r') ->
  ps_DailyUsage <$> lr_stats r' !! name
  = Some (ps_DailyUsage (getOrCreateStatsLocked today name fresh).1).
Proof.
  intros Hrel Ho Hp Hn Ht r' Htf Hsf Hst.
  destruct (recordSuccess_pending healthy Hrel now today name lat tok r Hp Hn Ht)
    as (s & q & stats & Hs & Hh & Hq & Hk & Ht' & Hstats & Hday & Hpend). fold r' in Hs, Hq, Ht', Hstats.
  destruct (flush_view healthy Hrel order q s (effectiveTenant r) name Ho Hh Hk Ht Hn) as [Hh' Hv].
  specialize (Hv _ Hpend). unfold FlushQuota in Hst. rewrite Hs, Hq in Hst.
  destruct (flush order q s) as [q' s'] eqn:Ef. cbn in Hst, Hv, Hh'.
  rewrite Hstats. cbn. f_equal. unfold getOrCreateStatsLocked. rewrite Hsf, lookup_empty.
  unfold loadQuotaLocked. rewrite Hst, (effectiveTenant_eq r fresh Htf).
  destruct (rl_Load _ Hrel (effectiveTenant r) name s' Hh') as [(v & Hload) _].
  destruct (qs_Load (effectiveTenant r) name s') as [res s1] eqn:El. cbn in Hload. subst res.
  destruct (law_Load _ _ _ _ _ El) as [Hview _]. rewrite Hv in Hview. specialize (Hview v eq_refl).
  subst v. unfold updated. cbn. by rewrite decide_True.
Qed.

Definition saved_router : LLMRouter MemoryQuotaStore :=
  initQuotaPersistence "2026-01-01" (demo_router [provider "glm" 1 1000] (Some NewMemoryQuotaStore)).

Lemma memory_reliable : reliable (fun s : MemoryQuotaStore => mq_saveErr s = None).
Proof.
  split.
  - intros t p s Hs. split; [by eexists|done].
  - intros t p u d s Hs. cbn. unfold mq_Save. by rewrite Hs.
  - done.
Qed.

Lemma quota_survives_restart_witness :
  let r' := recordSuccess 5 "2026-01-01" "glm" 20 130 saved_router in
  let fresh := demo_router [provider "glm" 1 1000] (lr_store (FlushQuota (fun m => (map_to_list m).*2) r')) in
  Some 130 = Some (ps_DailyUsage (getOrCreateStatsLocked "2026-01-01" "glm" fresh).1).
Proof.
  intros r' fresh. change (Some 130) with (ps_DailyUsage <$> lr_stats r' !! "glm").
  apply (quota_survives_restart (fun s : MemoryQuotaStore => mq_saveErr s = None) (fun m => (map_to_list m).*2)
    5 "2026-01-01" "glm" 20 130 saved_router fresh).
  - exact memory_reliable.
  - done.
  - exists NewMemoryQuotaStore, newQuotaSaver. split_and!; [vm_compute; reflexivity|done|vm_compute; reflexivity|done|].
    intros k u. cbn. by rewrite lookup_empty.
  - by apply nul_free_plain.
  - by apply nul_free_plain.
  - done.
  - done.
  - done.
Defined.

(** ** Round robin *)

Lemma head_rotate {A} (l : list A) (k : nat) : (k < length l)%nat -> head (rotate_at k l) = l !! k.
Proof.
  intros Hk. unfold rotate_at. destruct (drop k l) as [|x l'] eqn:E.
  - apply (f_equal length) in E. rewrite length_drop in E. cbn in E. lia.
  - cbn. rewrite <- (Nat.add_0_r k), <- lookup_drop, E. done.
Qed.

(** round robin is fair: as long as the list stays the same, each of its n
    providers comes first in one of n consecutive calls. *)
Theorem roundRobin_fair {S : Type} `{QuotaStore S} (ps : list RouterProvider) (r : LLMRouter S) (j : nat) :
  (j < length ps)%nat -> 0 <= lr_rrCounter r -> lr_rrCounter r + Z.of_nat (length ps) < 2 ^ 64 ->
  exists i, (i < length ps)%nat /\
    head (roundRobin ps (Nat.iter i (fun r => (roundRobin ps r).2) r)).1 = ps !! j.
Proof.
  intros Hj Hc Hmax. set (n := Z.of_nat (length ps)).
  set (i := Z.to_nat ((Z.of_nat j - (lr_rrCounter r + 1)) mod n)).
  assert (0 < n) as Hn by lia. pose proof (Z.mod_pos_bound (Z.of_nat j - (lr_rrCounter r + 1)) n Hn) as Hi.
  assert (Z.of_nat i = (Z.of_nat j - (lr_rrCounter r + 1)) mod n) as Ei by (unfold i; lia).
  exists i. split; [lia|]. destruct ps as [|p ps']; [cbn in Hj; lia|]. set (ps := p :: ps') in *.
  assert (forall k, (k <= i)%nat ->
    lr_rrCounter (Nat.iter k (fun r => (roundRobin ps r).2) r) = lr_rrCounter r + Z.of_nat k) as Hk.
  { induction k as [|k IH]; intros Hle; [cbn; lia|]. cbn [Nat.iter nat_rect]. unfold roundRobin at 1. cbn [ps snd].
    fold ps. cbn [set_counter lr_rrCounter]. change (nat_rect _ _ _ k) with (Nat.iter k (fun r => (roundRobin ps r).2) r).
    rewrite IH by lia. rewrite Z.mod_small by lia. lia. }
  unfold roundRobin at 1. cbn [ps fst]. fold ps n. rewrite Hk by done.
  rewrite (Z.mod_small _ (2 ^ 64)) by lia.
  assert ((lr_rrCounter r + Z.of_nat i + 1) mod n = Z.of_nat j) as ->.
  { rewrite Ei. replace (lr_rrCounter r + (Z.of_nat j - (lr_rrCounter r + 1)) mod n + 1)
      with ((Z.of_nat j - (lr_rrCounter r + 1)) mod n + (lr_rrCounter r + 1)) by lia.
    rewrite Zplus_mod_idemp_l. replace (Z.of_nat j - (lr_rrCounter r + 1) + (lr_rrCounter r + 1)) with (Z.of_nat j) by lia.
    apply Z.mod_small. lia. }
  rewrite Nat2Z.id. by apply head_rotate.
Qed.

Lemma roundRobin_fair_witness :
  let ps := [provider "a" 1 0; provider "b" 1 0; provider "c" 1 0] in
  let r := demo_router (S:=MemoryQuotaStore) ps None in
  exists i, (i < 3)%nat /\ head (roundRobin ps (Nat.iter i (fun r => (roundRobin ps r).2) r)).1 = Some (provider "c" 1 0).
Proof.
  intros ps r. destruct (roundRobin_fair ps r 2) as (i & Hi & Hh); [cbn; lia|done|done|].
  exists i. split; [exact Hi|exact Hh].
Defined.
