(* ===== verification/Cron.v ===== *)
(** * Cron expressions and the next run (src/internal/scheduler/scheduler.go)

    Times are civil times in a location without changes of its offset, to the
    minute: [Truncate] drops the rest, and every field of a schedule is a
    field of the date.  The search for the next run is written with the loops
    of the code and the variable [t] that they share; its outermost loop has
    fuel.  Years are unbounded here: the model follows the code up to
    [last_year], behind which the 64-bit arithmetic of the time package may
    wrap. *)

From S2P Require Import Prelude GoStrings GoTime GoText.

#[local] Open Scope string_scope.
#[local] Open Scope Z_scope.

(** ** Definitions *)

(** *** Parsing *)

Record cronSchedule := mkCron {
  cs_minute : list Z;
  cs_hour : list Z;
  cs_dayOfMonth : list Z;
  cs_month : list Z;
  cs_dayOfWeek : list Z
}.

(** [strings.SplitN(s, sep, 2)] for a text that contains [sep]. *)
Definition split2 (s sep : string) : option (string * string) :=
  i ← Index s sep; Some (str_take i s, str_drop (i + String.length sep) s).

Definition atoi (what s : string) : result Z :=
  match Atoi s with Some n => Ok n | None => Err ("invalid " +:+ what +:+ " " +:+ s) end.

(** [for i := start; i <= end; i += step], on 64-bit integers. *)
Fixpoint progression (fuel : nat) (i stop step : Z) : list Z :=
  match fuel with
  | O => []
  | S fuel => if stop <? i then [] else i :: progression fuel (wrap64 (i + step)) stop step
  end.

Definition part_step (part : string) : result (string * Z) :=
  match split2 part "/" with
  | Some (p, s) =>
      n ← atoi "step value" s;
      if n <=? 0 then Err "step must be positive" else Ok (p, n)
  | None => Ok (part, 1)
  end.

Definition part_range (part : string) (min max : Z) : result (Z * Z) :=
  if decide (part = "*") then Ok (min, max) else
  match split2 part "-" with
  | Some (a, b) => s ← atoi "range start" a; e ← atoi "range end" b; Ok (s, e)
  | None => v ← atoi "value" part; Ok (v, v)
  end.

Definition out_of_range (v min max : Z) : bool := (v <? min) || (max <? v).

Definition parsePart (part : string) (min max : Z) : result (list Z) :=
  '(p, step) ← part_step part;
  '(start, stop) ← part_range p min max;
  if out_of_range start min max then Err "value out of range" else
  if out_of_range stop min max then Err "value out of range" else
  if stop <? start then Err "start greater than end" else
  Ok (progression 256 start stop step).

Definition add_new (acc : list Z) (v : Z) : list Z :=
  if bool_decide (v ∈ acc) then acc else (acc ++ [v])%list.

Fixpoint parse_parts (parts : list string) (min max : Z) (acc : list Z) : result (list Z) :=
  match parts with
  | [] => Ok acc
  | p :: ps => vs ← parsePart p min max; parse_parts ps min max (foldl add_new acc vs)
  end.

Definition parseField (field : string) (min max : Z) : result (list Z) :=
  vs ← parse_parts (Split field ",") min max [];
  if decide (vs = []) then Err "no valid values in field" else Ok vs.

Definition parseCronExpr (expr : string) : result cronSchedule :=
  match Fields expr with
  | [f1; f2; f3; f4; f5] =>
      minute ← wrap_err "minute field: " (parseField f1 0 59);
      hour ← wrap_err "hour field: " (parseField f2 0 23);
      dayOfMonth ← wrap_err "day of month field: " (parseField f3 1 31);
      month ← wrap_err "month field: " (parseField f4 1 12);
      dayOfWeek ← wrap_err "day of week field: " (parseField f5 0 6);
      Ok (mkCron minute hour dayOfMonth month dayOfWeek)
  | _ => Err "expected 5 fields"
  end.

(** *** Dates *)

Record civil := mkCivil { cv_year : Z; cv_month : Z; cv_day : Z; cv_hour : Z; cv_minute : Z }.
#[export] Instance civil_eq_dec : EqDecision civil.
Proof. solve_decision. Defined.

Definition leap (year : Z) : bool :=
  (year mod 4 =? 0) && (negb (year mod 100 =? 0) || (year mod 400 =? 0)).
Definition daysInMonth (year month : Z) : Z :=
  if month =? 2 then if leap year then 29 else 28
  else if bool_decide (month ∈ [4; 6; 9; 11]) then 30 else 31.

(** Days since 1970-01-01 of the proleptic Gregorian calendar. *)
Definition days_from_civil (year month day : Z) : Z :=
  let y := if month <=? 2 then year - 1 else year in
  let era := y / 400 in
  let yoe := y - era * 400 in
  let doy := (153 * (if 2 <? month then month - 3 else month + 9) + 2) / 5 + day - 1 in
  let doe := yoe * 365 + yoe / 4 - yoe / 100 + doy in
  era * 146097 + doe - 719468.
(** [Weekday]: Sunday is 0; 1970-01-01 was a Thursday. *)
Definition weekday (year month day : Z) : Z := (days_from_civil year month day + 4) mod 7.

(** [t.Add(time.Minute)]. *)
Definition next_minute (t : civil) : civil :=
  if cv_minute t <? 59 then mkCivil (cv_year t) (cv_month t) (cv_day t) (cv_hour t) (cv_minute t + 1) else
  if cv_hour t <? 23 then mkCivil (cv_year t) (cv_month t) (cv_day t) (cv_hour t + 1) 0 else
  if cv_day t <? daysInMonth (cv_year t) (cv_month t)
  then mkCivil (cv_year t) (cv_month t) (cv_day t + 1) 0 0 else
  if cv_month t <? 12 then mkCivil (cv_year t) (cv_month t + 1) 1 0 0
  else mkCivil (cv_year t + 1) 1 1 0 0.

(** *** The search *)

Definition contains (l : list Z) (v : Z) : bool := existsb (Z.eqb v) l.

(** A loop [for i := lo; i <= hi; i++] over a state, which ends early with a
    result. *)
Fixpoint count_loop {A B} (n : nat) (i : Z) (body : Z -> A -> B + A) (a : A) : B + A :=
  match n with
  | O => inr a
  | S n => match body i a with
           | inl b => inl b
           | inr a' => count_loop n (i + 1) body a'
           end
  end.
Definition for_upto {A B} (lo hi : Z) (body : Z -> A -> B + A) (a : A) : B + A :=
  count_loop (Z.to_nat (hi - lo + 1)) lo body a.

Section search.
Context (s : cronSchedule).

(** The variable [t] is the state of all loops. *)
Definition minute_body (year month day hour minute : Z) (t : civil) : civil + civil :=
  if contains (cs_minute s) minute then inl (mkCivil year month day hour minute) else inr t.

Definition hour_body (year month day hour : Z) (t : civil) : civil + civil :=
  if contains (cs_hour s) hour then
    match for_upto (cv_minute t) 59 (minute_body year month day hour) t with
    | inl c => inl c
    | inr _ => inr (mkCivil year month day 0 0)
    end
  else inr t.

Definition day_body (year month day : Z) (t : civil) : civil + civil :=
  if contains (cs_dayOfMonth s) day && contains (cs_dayOfWeek s) (weekday year month day) then
    match for_upto (cv_hour t) 23 (hour_body year month day) t with
    | inl c => inl c
    | inr _ => inr (mkCivil year month 1 0 0)
    end
  else inr t.

Definition month_body (year month : Z) (t : civil) : civil + civil :=
  if contains (cs_month s) month then
    match for_upto (cv_day t) (daysInMonth year month) (day_body year month) t with
    | inl c => inl c
    | inr _ => inr (mkCivil year 1 1 0 0)
    end
  else inr t.

(** What the search comes to: a time, the zero time after the last year, or
    it is still running. *)
Inductive searched := Found (c : civil) | ZeroTime | Running.

Fixpoint year_loop (fuel : nat) (year : Z) (t : civil) : searched :=
  match fuel with
  | O => Running
  | S fuel =>
      if cv_year t + 5 <? year then ZeroTime else
      match for_upto (cv_month t) 12 (month_body year) t with
      | inl c => Found c
      | inr _ => year_loop fuel (year + 1) (mkCivil (year + 1) 1 1 0 0)
      end
  end.

(** A time holds 64 bits of seconds; up to this year they do not overflow. *)
Definition last_year : Z := 292277022399.

Definition nextRunTime (fuel : nat) (from : civil) : searched :=
  let t := next_minute from in year_loop fuel (cv_year t) t.
End search.

(** Today at 10:30: the schedule of 11:00 each day. *)
Definition at_11 : cronSchedule := mkCron [0] [11] (progression 256 1 31 1) (progression 256 1 12 1) [0; 1; 2; 3; 4; 5; 6].
Example parse_at_11 : parseCronExpr "0 11 * * *" = Ok at_11.
Proof. vm_compute. reflexivity. Qed.
Example next_at_11 : nextRunTime at_11 3 (mkCivil 2026 7 1 10 30) = Found (mkCivil 2026 7 2 11 0).
Proof. vm_compute. reflexivity. Qed.
Example weekday_2026 : weekday 2026 7 25 = 6.
Proof. vm_compute. reflexivity. Qed.

(** ** What the search for the next run finds (Cron)

    The reference is a predicate on dates: [matches] holds of the dates that
    exist in the calendar and have every field in the schedule.  The loops
    are followed with one invariant, at the position they have reached: no
    date that matches lies between the start and the position.  It needs the
    start to be [aligned] with the schedule; without that the search skips
    dates. *)

(** ** Definitions *)

Definition valid (c : civil) : Prop :=
  1 <= cv_month c <= 12 /\ 1 <= cv_day c <= daysInMonth (cv_year c) (cv_month c) /\
  0 <= cv_hour c <= 23 /\ 0 <= cv_minute c <= 59.

Definition day_matches (s : cronSchedule) (year month day : Z) : bool :=
  contains (cs_dayOfMonth s) day && contains (cs_dayOfWeek s) (weekday year month day).

Definition matches (s : cronSchedule) (c : civil) : Prop :=
  valid c /\ contains (cs_month s) (cv_month c) = true /\
  day_matches s (cv_year c) (cv_month c) (cv_day c) = true /\
  contains (cs_hour s) (cv_hour c) = true /\ contains (cs_minute s) (cv_minute c) = true.

(** The order of dates. *)
Definition earlier (a b : civil) : Prop :=
  cv_year a < cv_year b \/ cv_year a = cv_year b /\ (
  cv_month a < cv_month b \/ cv_month a = cv_month b /\ (
  cv_day a < cv_day b \/ cv_day a = cv_day b /\ (
  cv_hour a < cv_hour b \/ cv_hour a = cv_hour b /\ cv_minute a < cv_minute b))).
Definition no_later (a b : civil) : Prop := earlier a b \/ a = b.

(** The start of a search is aligned when every field that the schedule does
    not have is followed by fields at their lowest. *)
Definition hour_aligned (s : cronSchedule) (t : civil) : Prop :=
  contains (cs_hour s) (cv_hour t) = true \/ cv_minute t = 0.
Definition day_aligned (s : cronSchedule) (t : civil) : Prop :=
  day_matches s (cv_year t) (cv_month t) (cv_day t) = true \/ cv_hour t = 0 /\ cv_minute t = 0.
Definition aligned (s : cronSchedule) (t : civil) : Prop :=
  (contains (cs_month s) (cv_month t) = true \/ cv_day t = 1 /\ cv_hour t = 0 /\ cv_minute t = 0) /\
  day_aligned s t /\ hour_aligned s t.

(** ** Lemmas *)

(** A loop with an invariant of its counter and its state. *)
Lemma count_loop_inv {A B} (I : Z -> A -> Prop) (Q : B -> Prop) (body : Z -> A -> B + A) n i a :
  I i a ->
  (forall j a, i <= j < i + Z.of_nat n -> I j a ->
     match body j a with inl b => Q b | inr a' => I (j + 1) a' end) ->
  match count_loop n i body a with inl b => Q b | inr a' => I (i + Z.of_nat n) a' end.
Proof.
  revert i a. induction n as [|n IH]; intros i a Ha Hb; cbn [count_loop].
  - by replace (i + Z.of_nat 0) with i by lia.
  - pose proof (Hb i a ltac:(lia) Ha) as H. destruct (body i a) as [b|a']; [done|].
    replace (i + Z.of_nat (S n)) with (i + 1 + Z.of_nat n) by lia.
    apply IH; [done|]. intros j x Hj. apply Hb. lia.
Qed.

Lemma for_upto_inv {A B} (I : Z -> A -> Prop) (Q : B -> Prop) (body : Z -> A -> B + A) lo hi a :
  lo <= hi + 1 -> I lo a ->
  (forall j a, lo <= j <= hi -> I j a ->
     match body j a with inl b => Q b | inr a' => I (j + 1) a' end) ->
  match for_upto lo hi body a with inl b => Q b | inr a' => I (hi + 1) a' end.
Proof.
  intros Hlo Ha Hb. unfold for_upto.
  replace (hi + 1) with (lo + Z.of_nat (Z.to_nat (hi - lo + 1))) by lia.
  apply count_loop_inv; [done|]. intros j x Hj. apply Hb. lia.
Qed.

Section follow.
Context (s : cronSchedule) (t0 : civil) (A : Prop).

(** No date at or after the start that matches is before the position. *)
Definition clear (pos : civil) : Prop := forall c, matches s c -> no_later t0 c -> ~ earlier c pos.
Definition reached (pos : civil) (al : Prop) : Prop :=
  (earlier t0 pos \/ t0 = pos) /\ (A -> clear pos /\ al).
Definition found (c : civil) : Prop := matches s c /\ no_later t0 c /\ (A -> clear c).

(** The position moves on past dates that do not match. *)
Lemma reached_skip pos pos' (al al' : Prop) :
  reached pos al -> earlier pos pos' ->
  (A -> al -> al' /\ forall c, matches s c -> earlier c pos' -> ~ earlier c pos -> False) ->
  reached pos' al'.
Proof.
  intros [Hle Hc] Hp Hs. split; [left; unfold earlier in *; destruct Hle as [?| ->]; lia|].
  intros HA. destruct (Hc HA) as [Hcl Hal]. destruct (Hs HA Hal) as [? Hn]. split; [|done].
  intros c Hm Ht He. apply (Hn c Hm He). by apply Hcl.
Qed.
Lemma reached_weaken pos (al al' : Prop) : reached pos al -> (A -> al -> al') -> reached pos al'.
Proof. intros [H1 H2] H. split; [done|]. intros HA. destruct (H2 HA). auto. Qed.

Lemma minutes_inv y m d h t :
  1 <= m <= 12 -> 1 <= d <= daysInMonth y m -> 0 <= h <= 23 -> 0 <= cv_minute t <= 59 ->
  contains (cs_month s) m = true -> day_matches s y m d = true -> contains (cs_hour s) h = true ->
  reached (mkCivil y m d h (cv_minute t)) True ->
  match for_upto (cv_minute t) 59 (minute_body s y m d h) t with
  | inl c => found c
  | inr _ => reached (mkCivil y m d h 60) True
  end.
Proof.
  intros Hm Hd Hh Hmi H1 H2 H3 Hr.
  apply (for_upto_inv (fun i _ => reached (mkCivil y m d h i) True) found); [lia|done|].
  intros j a Hj Hr'. unfold minute_body. destruct (contains (cs_minute s) j) eqn:E.
  - destruct Hr' as [Hle' Hc']. split; [|split; [exact Hle'|intros HA; apply Hc', HA]].
    repeat split; cbn; try done; lia.
  - apply (reached_skip _ _ _ _ Hr'); [unfold earlier; cbn; lia|]. intros _ _. split; [done|].
    intros c (_ & _ & _ & _ & Hmin). unfold earlier; cbn.
    destruct (decide (cv_minute c = j)) as [Hj'|]; [rewrite Hj' in Hmin; congruence|lia].
Qed.

Lemma hours_inv y m d t :
  1 <= m <= 12 -> 1 <= d <= daysInMonth y m -> 0 <= cv_hour t <= 23 -> 0 <= cv_minute t <= 59 ->
  contains (cs_month s) m = true -> day_matches s y m d = true ->
  reached (mkCivil y m d (cv_hour t) (cv_minute t)) (hour_aligned s t) ->
  match for_upto (cv_hour t) 23 (hour_body s y m d) t with
  | inl c => found c
  | inr _ => reached (mkCivil y m (d + 1) 0 0) True
  end.
Proof.
  intros Hm Hd Hh Hmi H1 H2 Hr.
  pose (I := fun i a => 0 <= cv_minute a <= 59 /\
    reached (mkCivil y m d i (cv_minute a)) (contains (cs_hour s) i = true \/ cv_minute a = 0)).
  assert (L : match for_upto (cv_hour t) 23 (hour_body s y m d) t with
              | inl c => found c | inr a => I 24 a end).
  { apply (for_upto_inv I found); [lia|by split|].
    intros j a Hj [Ha Hr']. unfold hour_body. destruct (contains (cs_hour s) j) eqn:E.
    - pose proof (minutes_inv y m d j a ltac:(lia) ltac:(lia) ltac:(lia) Ha H1 H2 E
                    (reached_weaken _ _ _ Hr' (fun _ _ => Logic.I))) as L.
      destruct (for_upto _ _ _ _); [done|]. split; [cbn; lia|]. cbn [cv_minute].
      apply (reached_skip _ _ _ _ L); [unfold earlier; cbn; lia|]. intros _ _. split; [by right|].
      intros x [(_ & _ & _ & ?) _]. unfold earlier; cbn. lia.
    - split; [done|]. apply (reached_skip _ _ _ _ Hr'); [unfold earlier; cbn; lia|].
      intros _ [?|Hz]; [congruence|]. split; [by right|].
      intros c (? & _ & _ & Hho & _). unfold valid, earlier in *; cbn.
      destruct (decide (cv_hour c = j)) as [Hj'|]; [rewrite Hj' in Hho; congruence|lia]. }
  destruct (for_upto _ _ _ _) as [c|a]; [done|]. destruct L as [Ha Hr'].
  apply (reached_skip _ _ _ _ Hr'); [unfold earlier; cbn; lia|]. intros _ _. split; [done|].
  intros c [Hv _]. unfold valid, earlier in *; cbn. lia.
Qed.

Lemma days_inv y m t :
  1 <= m <= 12 -> 1 <= cv_day t -> 0 <= cv_hour t <= 23 -> 0 <= cv_minute t <= 59 ->
  contains (cs_month s) m = true ->
  reached (mkCivil y m (cv_day t) (cv_hour t) (cv_minute t))
    ((day_matches s y m (cv_day t) = true \/ cv_hour t = 0 /\ cv_minute t = 0) /\ hour_aligned s t) ->
  match for_upto (cv_day t) (daysInMonth y m) (day_body s y m) t with
  | inl c => found c
  | inr _ => reached (mkCivil y (m + 1) 1 0 0) True
  end.
Proof.
  intros Hm Hd Hh Hmi H1 Hr.
  pose (I := fun i a => 0 <= cv_hour a <= 23 /\ 0 <= cv_minute a <= 59 /\
    reached (mkCivil y m i (cv_hour a) (cv_minute a))
      ((day_matches s y m i = true \/ cv_hour a = 0 /\ cv_minute a = 0) /\ hour_aligned s a)).
  assert (L : match for_upto (cv_day t) (daysInMonth y m) (day_body s y m) t with
              | inl c => found c | inr a => exists i, daysInMonth y m < i /\ I i a end).
  { destruct (decide (cv_day t <= daysInMonth y m + 1)).
    2: { unfold for_upto. replace (Z.to_nat _) with 0%nat by lia. exists (cv_day t). split; [lia|done]. }
    enough (L : match for_upto (cv_day t) (daysInMonth y m) (day_body s y m) t with
              | inl c => found c | inr a => I (daysInMonth y m + 1) a end).
    { destruct (for_upto _ _ _ _); [done|]. eexists. split; [|exact L]. lia. }
    apply (for_upto_inv I found); [lia|done|].
    intros j a Hj (Ha & Ha' & Hr'). unfold day_body. fold (day_matches s y m j).
    destruct (day_matches s y m j) eqn:E.
    - pose proof (hours_inv y m j a ltac:(lia) ltac:(lia) Ha Ha' H1 E
                    (reached_weaken _ _ _ Hr' (fun _ H => proj2 H))) as L.
      destruct (for_upto _ _ _ _); [done|]. split; [cbn; lia|]. split; [cbn; lia|].
      apply (reached_weaken _ _ _ L). intros _ _. split; [by right|by right].
    - split; [done|split; [done|]]. apply (reached_skip _ _ _ _ Hr'); [unfold earlier; cbn; lia|].
      intros _ [[?|[Hz1 Hz2]] Hal]; [congruence|]. split; [by split; [right|]|].
      intros c (? & _ & Hdm & _). unfold valid, earlier in *; cbn. intros He Hn.
      assert (Hc : cv_year c = y /\ cv_month c = m /\ cv_day c = j) by lia.
      destruct Hc as (Hc1 & Hc2 & Hc3). rewrite Hc1, Hc2, Hc3 in Hdm. congruence. }
  destruct (for_upto _ _ _ _) as [c|a]; [done|]. destruct L as (i & Hi & Ha & Ha' & Hr').
  apply (reached_skip _ _ _ _ Hr'); [unfold earlier; cbn; lia|]. intros _ _. split; [done|].
  intros c [Hv _]. unfold valid, earlier in *; cbn. intros He Hn.
  assert (Hc : cv_year c = y /\ cv_month c = m) by lia.
  destruct Hc as (Hc1 & Hc2). rewrite Hc1, Hc2 in Hv. lia.
Qed.

Lemma months_inv y t :
  1 <= cv_month t <= 12 -> 1 <= cv_day t -> 0 <= cv_hour t <= 23 -> 0 <= cv_minute t <= 59 ->
  cv_year t = y -> reached t (aligned s t) ->
  match for_upto (cv_month t) 12 (month_body s y) t with
  | inl c => found c
  | inr _ => reached (mkCivil (y + 1) 1 1 0 0) True
  end.
Proof.
  intros Hm Hd Hh Hmi Hy Hr.
  pose (I := fun i a => 1 <= cv_day a /\ 0 <= cv_hour a <= 23 /\ 0 <= cv_minute a <= 59 /\
    reached (mkCivil y i (cv_day a) (cv_hour a) (cv_minute a))
      ((contains (cs_month s) i = true \/ cv_day a = 1 /\ cv_hour a = 0 /\ cv_minute a = 0) /\
       (day_matches s y i (cv_day a) = true \/ cv_hour a = 0 /\ cv_minute a = 0) /\ hour_aligned s a)).
  assert (L : match for_upto (cv_month t) 12 (month_body s y) t with
              | inl c => found c | inr a => I 13 a end).
  { apply (for_upto_inv I found); [lia| |].
    { split; [lia|split; [lia|split; [lia|]]]. subst y. by destruct t. }
    intros j a Hj (Ha & Hb & Hc & Hr'). unfold month_body.
    destruct (contains (cs_month s) j) eqn:E.
    - pose proof (days_inv y j a ltac:(lia) Ha Hb Hc E
                    (reached_weaken _ _ _ Hr' (fun _ H => proj2 H))) as L.
      destruct (for_upto _ _ _ _); [done|]. split; [cbn; lia|]. split; [cbn; lia|].
      split; [cbn; lia|]. apply (reached_weaken _ _ _ L). intros _ _. by split_and!; right.
    - split; [lia|split; [lia|split; [lia|]]]. apply (reached_skip _ _ _ _ Hr'); [unfold earlier; cbn; lia|].
      intros _ [[?|(Hz1 & Hz2 & Hz3)] Hal]; [congruence|]. split; [by split_and!; right|].
      intros c (? & Hmo & _). unfold valid, earlier in *; cbn. intros He Hn.
      assert (Hj' : cv_month c = j) by lia. rewrite Hj' in Hmo. congruence. }
  destruct (for_upto _ _ _ _) as [c|a]; [done|]. destruct L as (Ha & Hb & Hc & Hr').
  apply (reached_skip _ _ _ _ Hr'); [unfold earlier; cbn; lia|]. intros _ _. split; [done|].
  intros c [Hv _]. unfold valid, earlier in *; cbn. lia.
Qed.
End follow.

(** *** The search over the years *)

Lemma next_minute_valid t : valid t -> valid (next_minute t).
Proof.
  unfold valid, next_minute. intros H.
  assert (forall y m, 28 <= daysInMonth y m) as Hd.
  { intros y m. unfold daysInMonth. repeat break_match; lia. }
  pose proof (Hd (cv_year t + 1) 1). pose proof (Hd (cv_year t) (cv_month t + 1)).
  repeat break_match; cbn [cv_year cv_month cv_day cv_hour cv_minute]; lia.
Qed.
Lemma next_minute_later t : earlier t (next_minute t).
Proof. unfold earlier, next_minute. repeat break_match; cbn; lia. Qed.

Lemma january_aligned s y : aligned s (mkCivil y 1 1 0 0).
Proof. by split_and!; right. Qed.
Lemma reached_start s t A al : (A -> al) -> reached s t A t al.
Proof. intros H. split; [by right|]. intros HA. split; [|by apply H]. intros c _ Ht. unfold no_later, earlier in *.
  destruct Ht as [Ht| ->]; lia.
Qed.

Lemma searched_year s t A : valid t -> (A -> aligned s t) ->
  match for_upto (cv_month t) 12 (month_body s (cv_year t)) t with
  | inl c => found s t A c
  | inr _ => A -> forall c, matches s c -> no_later t c -> cv_year t < cv_year c
  end.
Proof.
  intros (Hm & Hd & Hh & Hmi) HA.
  pose proof (months_inv s t A (cv_year t) t Hm ltac:(lia) Hh Hmi eq_refl (reached_start _ _ _ _ HA)) as L.
  destruct (for_upto _ _ _ _) as [c|a]; [done|]. intros HA' c Hc Ht.
  destruct L as [_ [Hcl _]%(fun H => H HA')]. specialize (Hcl c Hc Ht). destruct Hc as [Hv _].
  unfold valid, earlier in *; cbn in *. lia.
Qed.

Lemma jan_valid y : valid (mkCivil y 1 1 0 0).
Proof. unfold valid, daysInMonth; cbn. destruct (bool_decide _); lia. Qed.
Lemma no_later_trans a b c : no_later a b -> no_later b c -> no_later a c.
Proof. unfold no_later, earlier. intros [H1| ->] [H2| ->]; try tauto. left. lia. Qed.
Lemma no_later_antisym a b : no_later a b -> no_later b a -> a = b.
Proof. unfold no_later, earlier. intros [H1|] [H2|]; try done. lia. Qed.
Lemma not_earlier a b : ~ earlier b a -> no_later a b.
Proof.
  unfold no_later, earlier. intros H.
  destruct (decide (a = b)); [by right|left]. destruct a as [y m d h mi], b as [y' m' d' h' mi']; cbn in *.
  assert (~ (y = y' /\ m = m' /\ d = d' /\ h = h' /\ mi = mi')) by naive_solver. lia.
Qed.
Lemma jan_no_later y c : valid c -> y <= cv_year c -> no_later (mkCivil y 1 1 0 0) c.
Proof. intros Hv Hy. apply not_earlier. unfold valid, earlier in *; cbn. lia. Qed.
Lemma later_year t c : cv_year t < cv_year c -> no_later t c.
Proof. intros. left. unfold earlier. lia. Qed.

(** A search that starts aligned: what it finds is the first match, and it
    goes on only past years without one. *)
Lemma year_loop_spec s fuel : forall t, valid t -> aligned s t ->
  match year_loop s fuel (cv_year t) t with
  | Found c => found s t True c
  | ZeroTime => False
  | Running => forall c, matches s c -> no_later t c -> cv_year t + Z.of_nat fuel <= cv_year c
  end.
Proof.
  induction fuel as [|fuel IH]; intros t Hv Hal; cbn [year_loop].
  { intros c _ [?| ->]; unfold earlier in *; lia. }
  rewrite (proj2 (Z.ltb_ge _ _)) by lia.
  pose proof (searched_year s t True Hv (fun _ => Hal)) as L.
  destruct (for_upto _ _ _ _) as [c|a]; [done|]. specialize (L Logic.I).
  specialize (IH _ (jan_valid (cv_year t + 1)) (january_aligned s _)). cbn [cv_year] in IH.
  destruct (year_loop s fuel _ _) as [c| |]; [|done|].
  - destruct IH as (Hm & Hle & Hcl). split; [done|]. split.
    { eapply no_later_trans; [|exact Hle]. apply later_year. cbn. lia. }
    intros _ c' Hm' Ht'. apply Hcl; [done|done|]. apply jan_no_later; [apply Hm'|].
    pose proof (L c' Hm' Ht'). lia.
  - intros c Hm Ht. pose proof (L c Hm Ht) as Hy. specialize (IH c Hm).
    rewrite Nat2Z.inj_succ. assert (no_later (mkCivil (cv_year t + 1) 1 1 0 0) c).
    { apply jan_no_later; [apply Hm|lia]. }
    specialize (IH ltac:(done)). lia.
Qed.

(** A search from anywhere. *)
Lemma nextRunTime_spec s fuel from : valid from ->
  match nextRunTime s fuel from with
  | Found c => found s (next_minute from) (aligned s (next_minute from)) c
  | ZeroTime => False
  | Running => forall c, matches s c -> cv_year (next_minute from) < cv_year c ->
                 cv_year (next_minute from) + Z.of_nat fuel <= cv_year c
  end.
Proof.
  intros Hf. unfold nextRunTime. set (t := next_minute from).
  assert (Hv : valid t) by by apply next_minute_valid.
  destruct fuel as [|fuel]; cbn [year_loop]; [intros; lia|].
  rewrite (proj2 (Z.ltb_ge _ _)) by lia.
  pose proof (searched_year s t (aligned s t) Hv (fun H => H)) as L.
  destruct (for_upto _ _ _ _) as [c|a]; [done|].
  pose proof (year_loop_spec s fuel _ (jan_valid (cv_year t + 1)) (january_aligned s _)) as IH.
  cbn [cv_year] in IH. destruct (year_loop s fuel _ _) as [c| |]; [|done|].
  - destruct IH as (Hm & Hle & Hcl). split; [done|]. split.
    { eapply no_later_trans; [|exact Hle]. apply later_year. cbn. lia. }
    intros HA c' Hm' Ht'. apply Hcl; [done|done|]. apply jan_no_later; [apply Hm'|].
    pose proof (L HA c' Hm' Ht'). lia.
  - intros c Hm Hy. rewrite Nat2Z.inj_succ.
    pose proof (IH c Hm (jan_no_later (cv_year t + 1) c (proj1 Hm) ltac:(lia))). lia.
Qed.

(** The minute after is the next date. *)
Lemma next_minute_next t c : valid t -> valid c -> earlier t c -> no_later (next_minute t) c.
Proof.
  intros Ht Hc He. apply not_earlier. intros Hn. unfold valid, earlier, next_minute in *.
  assert (cv_year c = cv_year t -> cv_month c = cv_month t ->
    cv_day c <= daysInMonth (cv_year t) (cv_month t)) as Hd.
  { intros Hy Hm. rewrite <- Hy, <- Hm. lia. }
  repeat break_match; cbn in *; lia.
Qed.

(** The calendar repeats after 400 years. *)
Lemma daysInMonth_400 y m k : daysInMonth (y + 400 * k) m = daysInMonth y m.
Proof.
  unfold daysInMonth, leap.
  replace ((y + 400 * k) mod 4) with (y mod 4) by (rewrite <- (Z.mod_add y (100 * k) 4) by lia; f_equal; lia).
  replace ((y + 400 * k) mod 100) with (y mod 100) by (rewrite <- (Z.mod_add y (4 * k) 100) by lia; f_equal; lia).
  replace ((y + 400 * k) mod 400) with (y mod 400) by (rewrite <- (Z.mod_add y k 400) by lia; f_equal; lia).
  done.
Qed.
Lemma days_400 y m d k : days_from_civil (y + 400 * k) m d = days_from_civil y m d + 146097 * k.
Proof.
  unfold days_from_civil. set (y0 := if m <=? 2 then y - 1 else y).
  replace (if m <=? 2 then y + 400 * k - 1 else y + 400 * k) with (y0 + k * 400)
    by (subst y0; destruct (m <=? 2); lia).
  rewrite Z.div_add by lia.
  replace (y0 + k * 400 - (y0 / 400 + k) * 400) with (y0 - y0 / 400 * 400) by lia. lia.
Qed.
Lemma weekday_400 y m d k : weekday (y + 400 * k) m d = weekday y m d.
Proof.
  unfold weekday. rewrite days_400, <- (Z.mod_add (days_from_civil y m d + 4) (20871 * k) 7) by lia.
  f_equal. lia.
Qed.
(** The last day of a month and the first of the next are consecutive days:
    checked over the 400 years after which the calendar repeats. *)
Lemma days_month_end y m : 1 <= m <= 12 ->
  (if m <? 12 then days_from_civil y (m + 1) 1 else days_from_civil (y + 1) 1 1)
  = days_from_civil y m (daysInMonth y m) + 1.
Proof.
  intros Hm. rewrite (Z.div_mod y 400) by lia. set (k := y / 400). set (r := y mod 400).
  replace (400 * k + r + 1) with (r + 1 + 400 * k) by lia. rewrite (Z.add_comm (400 * k) r).
  rewrite daysInMonth_400, !days_400.
  assert (Hr : r ∈ seqZ 0 400) by (apply elem_of_seqZ; subst r; pose proof (Z.mod_pos_bound y 400); lia).
  assert (Hm' : m ∈ seqZ 1 12) by (apply elem_of_seqZ; lia).
  assert (C : Forall (fun r => Forall (fun m =>
    (if m <? 12 then days_from_civil r (m + 1) 1 else days_from_civil (r + 1) 1 1)
    = days_from_civil r m (daysInMonth r m) + 1) (seqZ 1 12)) (seqZ 0 400)).
  { apply (bool_decide_unpack _). vm_compute. exact Logic.I. }
  rewrite Forall_forall in C. specialize (C r Hr). rewrite Forall_forall in C. specialize (C m Hm').
  cbn beta in C. destruct (m <? 12); lia.
Qed.

(** So days are counted one by one, and weekdays go round. *)
Lemma weekday_next t : valid t -> cv_hour t = 23 -> cv_minute t = 59 ->
  let n := next_minute t in
  weekday (cv_year n) (cv_month n) (cv_day n) = (weekday (cv_year t) (cv_month t) (cv_day t) + 1) mod 7.
Proof.
  intros (Hm & Hd & _) Hh Hmi. unfold weekday, next_minute. rewrite Hh, Hmi. cbn [Z.ltb Z.compare Pos.compare Pos.compare_cont].
  rewrite Zplus_mod_idemp_l. f_equal.
  pose proof (days_month_end (cv_year t) (cv_month t) Hm) as E.
  destruct (Z.ltb_spec (cv_day t) (daysInMonth (cv_year t) (cv_month t))).
  - cbn. unfold days_from_civil. lia.
  - replace (cv_day t) with (daysInMonth (cv_year t) (cv_month t)) by lia.
    destruct (cv_month t <? 12); cbn; lia.
Qed.

Lemma matches_400 s c k :
  matches s c -> matches s (mkCivil (cv_year c + 400 * k) (cv_month c) (cv_day c) (cv_hour c) (cv_minute c)).
Proof.
  unfold matches, valid, day_matches. cbn [cv_year cv_month cv_day cv_hour cv_minute].
  by rewrite daysInMonth_400, weekday_400.
Qed.

(** With a match in some year there is one in a later year, which the search
    comes to. *)
Lemma nextRunTime_finds s from c : valid from -> matches s c ->
  exists fuel c', nextRunTime s fuel from = Found c'.
Proof.
  intros Hv Hm. set (y := cv_year (next_minute from)).
  assert (exists c', matches s c' /\ y < cv_year c') as (c' & Hm' & Hy).
  { exists (mkCivil (cv_year c + 400 * (Z.abs (y - cv_year c) + 1)) (cv_month c) (cv_day c) (cv_hour c) (cv_minute c)).
    split; [by apply matches_400|cbn; lia]. }
  exists (Z.to_nat (cv_year c' - y + 1)).
  pose proof (nextRunTime_spec s (Z.to_nat (cv_year c' - y + 1)) from Hv) as L.
  destruct (nextRunTime _ _ _) as [d| |]; [by exists d|done|].
  specialize (L c' Hm' Hy). subst y. lia.
Qed.

(** *** The values of a field *)

Lemma wrap64_small z : int64_min <= z <= int64_max -> wrap64 z = z.
Proof. unfold int64_min, int64_max, wrap64. intros. rewrite Z.mod_small; lia. Qed.

Lemma progression_values fuel i stop step v :
  0 <= i -> 0 < step -> stop + step <= int64_max -> stop - i < Z.of_nat fuel ->
  v ∈ progression fuel i stop step <-> i <= v <= stop /\ (v - i) mod step = 0.
Proof.
  revert i. induction fuel as [|fuel IH]; intros i Hi Hs Ho Hf; cbn [progression].
  { split; [by intros ?%elem_of_nil|lia]. }
  destruct (Z.ltb_spec stop i); [split; [by intros ?%elem_of_nil|lia]|].
  rewrite wrap64_small by (unfold int64_min, int64_max in *; lia).
  rewrite elem_of_cons, IH by lia. clear IH.
  replace (v - (i + step)) with (v - i + -1 * step) by lia. rewrite Z.mod_add by lia.
  split.
  - intros [->|[? ?]]; [rewrite Z.sub_diag, Z.mod_0_l; lia|lia].
  - intros [Hv Hz]. destruct (decide (v = i)); [by left|right].
    split; [|done]. apply Z.mod_divide in Hz as [k Hk]; [|lia].
    assert (1 <= k) by nia. nia.
Qed.

Lemma add_new_elem acc vs v : v ∈ foldl add_new acc vs <-> v ∈ acc \/ v ∈ vs.
Proof.
  revert acc. induction vs as [|w vs IH]; intros acc; cbn [foldl]; [set_solver|].
  rewrite IH. unfold add_new. case_bool_decide; set_solver.
Qed.
Lemma add_new_NoDup acc vs : NoDup acc -> NoDup (foldl add_new acc vs).
Proof.
  revert acc. induction vs as [|w vs IH]; intros acc Ha; cbn [foldl]; [done|].
  apply IH. unfold add_new. case_bool_decide; [done|].
  apply NoDup_app. split_and!; [done|set_solver|apply NoDup_singleton].
Qed.

(** ** Properties *)

(** C20: The search for the next run finds the first date after [from] whose
    fields are all in the schedule, when its start is aligned: the minute,
    hour, day and month after which it looks are in the schedule, or the
    finer fields are at their lowest.  The search does come to that date
    whenever there is one. *)
Theorem nextRunTime_first s from c : valid from -> aligned s (next_minute from) ->
  (exists fuel, nextRunTime s fuel from = Found c) <->
  (matches s c /\ earlier from c /\ forall c', matches s c' -> earlier from c' -> no_later c c').
Proof.
  intros Hv Hal. pose proof (next_minute_later from) as Hn. split.
  - intros [fuel E]. pose proof (nextRunTime_spec s fuel from Hv) as L. rewrite E in L.
    destruct L as (Hm & Hle & Hc). split_and!; [done| |].
    { destruct Hle as [?| <-]; [|done]. unfold earlier in *. lia. }
    intros c' Hm' He. apply not_earlier, Hc; [done..|]. apply next_minute_next; [done|apply Hm'|done].
  - intros (Hm & He & Hmin). destruct (nextRunTime_finds s from c Hv Hm) as (fuel & c' & E).
    exists fuel. rewrite E. f_equal. pose proof (nextRunTime_spec s fuel from Hv) as L. rewrite E in L.
    destruct L as (Hm' & Hle & Hc). apply no_later_antisym.
    + apply not_earlier. apply Hc; [done|done|]. apply next_minute_next; [done|apply Hm|done].
    + apply Hmin; [done|]. destruct Hle as [?| <-]; [|done]. unfold earlier in *. lia.
Qed.

(** Every half hour, from 10:15. *)
Definition half_hours : cronSchedule :=
  mkCron [0; 30] (progression 256 0 23 1) (progression 256 1 31 1) (progression 256 1 12 1) [0; 1; 2; 3; 4; 5; 6].
Example parse_half_hours : parseCronExpr "*/30 * * * *" = Ok half_hours.
Proof. vm_compute. reflexivity. Qed.

Lemma nextRunTime_first_witness :
  exists c, nextRunTime half_hours 1 (mkCivil 2026 7 1 10 15) = Found c /\
  forall c', matches half_hours c' -> earlier (mkCivil 2026 7 1 10 15) c' -> no_later c c'.
Proof.
  exists (mkCivil 2026 7 1 10 30). split; [vm_compute; reflexivity|].
  refine (proj2 (proj2 (proj1 (nextRunTime_first half_hours (mkCivil 2026 7 1 10 15) (mkCivil 2026 7 1 10 30) _ _) _))).
  - unfold valid. vm_compute. repeat split; discriminate.
  - split; [left; reflexivity|split; left; reflexivity].
  - exists 1%nat. vm_compute. reflexivity.
Defined.

(** What the search returns is always a date of the calendar with every
    field in the schedule, after [from]; up to [last_year] it never returns the
    zero time that its last line gives, because the bound of the loop over the
    years moves with it; and it finds a date exactly when some date matches. *)
Theorem nextRunTime_sound s from : valid from ->
  (forall fuel c, nextRunTime s fuel from = Found c -> matches s c /\ earlier from c) /\
  (forall fuel, nextRunTime s fuel from <> ZeroTime) /\
  ((exists fuel c, nextRunTime s fuel from = Found c) <-> exists c, matches s c).
Proof.
  intros Hv.
  assert (H : forall fuel c, nextRunTime s fuel from = Found c -> matches s c /\ earlier from c).
  { intros fuel c E. pose proof (nextRunTime_spec s fuel from Hv) as L. rewrite E in L.
    destruct L as (Hm & Hle & _). split; [done|]. pose proof (next_minute_later from).
    destruct Hle as [?| <-]; [|done]. unfold earlier in *. lia. }
  split_and!; [done| |].
  - intros fuel E. pose proof (nextRunTime_spec s fuel from Hv) as L. by rewrite E in L.
  - split; [intros (fuel & c & [? _]%H); eauto|]. intros [c Hc]. by eapply nextRunTime_finds.
Qed.
Lemma nextRunTime_sound_witness :
  exists c, nextRunTime at_11 1 (mkCivil 2026 7 1 10 30) = Found c /\ matches at_11 c.
Proof.
  exists (mkCivil 2026 7 2 11 0). split; [vm_compute; reflexivity|].
  refine (proj1 (proj1 (nextRunTime_sound at_11 (mkCivil 2026 7 1 10 30) _) 1%nat _ _)).
  - unfold valid. vm_compute. repeat split; discriminate.
  - vm_compute. reflexivity.
Defined.

(** C40: A schedule of a date that no year has (30 February) passes the parser,
    and the search for its next run, whose limit is written as five years,
    is not over before the last year that the time package holds, some 292
    billion years on: after any number of rounds up to there it has neither
    found a date nor come to the zero time.  [AddTask] makes the search with
    the lock of the scheduler held. *)
Theorem impossible_date_searched : exists s, parseCronExpr "0 0 30 2 *" = Ok s /\
  forall from rounds, valid from -> cv_year from + Z.of_nat rounds < last_year ->
    nextRunTime s rounds from = Running.
Proof.
  eexists. split; [vm_compute; reflexivity|]. intros from fuel Hv _.
  match goal with |- nextRunTime ?s _ _ = _ => pose proof (nextRunTime_spec s fuel from Hv) as L end.
  destruct (nextRunTime _ _ _) as [c| |]; [|done|done]. exfalso.
  destruct L as [(Hc & Hmo & Hda & _) _]. unfold valid, day_matches in *. cbn in Hmo, Hda.
  apply orb_true_iff in Hmo as [Hmo|?]; [|done].
  rewrite andb_true_iff, orb_true_iff in Hda. destruct Hda as [[Hda|?] _]; [|done].
  apply Z.eqb_eq in Hmo, Hda. rewrite Hmo, Hda in Hc. unfold daysInMonth in Hc. cbn in Hc.
  destruct (leap _); lia.
Qed.

(** Where the start is not aligned the search skips dates: at 10:30 a task of
    11:00 each day is put off to the next day; on a Monday at 10:30 one of
    Tuesday 9:00 to the next week; on 15 January one of 1 March to the next
    year. *)
Theorem unaligned_start_skips :
  (exists s, parseCronExpr "0 11 * * *" = Ok s /\
     nextRunTime s 1 (mkCivil 2026 7 1 10 30) = Found (mkCivil 2026 7 2 11 0) /\
     matches s (mkCivil 2026 7 1 11 0)) /\
  (exists s, parseCronExpr "0 9 * * 2" = Ok s /\
     nextRunTime s 1 (mkCivil 2026 7 6 10 30) = Found (mkCivil 2026 7 14 9 0) /\
     matches s (mkCivil 2026 7 7 9 0)) /\
  (exists s, parseCronExpr "0 0 1 3 *" = Ok s /\
     nextRunTime s 2 (mkCivil 2026 1 15 0 0) = Found (mkCivil 2027 3 1 0 0) /\
     matches s (mkCivil 2026 3 1 0 0)).
Proof.
  split_and!; (eexists; split; [vm_compute; reflexivity|]);
    (split; [vm_compute; reflexivity|]); vm_compute; repeat split; discriminate.
Qed.

(** A part of a field is refused, or its values are the numbers of its range,
    which lies in the range of the field, at distances of its step, as long
    as the step cannot overflow the counter. *)
Theorem parsePart_values part p step start stop min max :
  part_step part = Ok (p, step) -> part_range p min max = Ok (start, stop) ->
  0 <= min -> max <= 59 -> step <= int64_max - 59 ->
  match parsePart part min max with
  | Ok vs => min <= start /\ start <= stop /\ stop <= max /\
      forall v, v ∈ vs <-> start <= v <= stop /\ (v - start) mod step = 0
  | Err _ => ~ (min <= start /\ start <= stop /\ stop <= max)
  end.
Proof.
  intros Hp Hr Hmin Hmax Hstep. unfold parsePart. rewrite Hp. cbn [mbind result_bind]. rewrite Hr.
  cbn [mbind result_bind].
  assert (0 < step).
  { unfold part_step in Hp. destruct (split2 _ _) as [[a b]|]; [|by simplify_eq].
    destruct (atoi _ _) as [n|]; cbn [mbind result_bind] in Hp; [|done].
    destruct (Z.leb_spec n 0); simplify_eq; lia. }
  unfold out_of_range.
  destruct (Z.ltb_spec start min); cbn [orb]; [lia|]. destruct (Z.ltb_spec max start); [lia|].
  destruct (Z.ltb_spec stop min); cbn [orb]; [lia|]. destruct (Z.ltb_spec max stop); [lia|].
  destruct (Z.ltb_spec stop start); [lia|].
  split_and!; [lia..|]. intros v. apply progression_values; lia.
Qed.
Lemma parsePart_values_witness : exists vs, parsePart "10-40/15" 0 59 = Ok vs /\
  forall v, v ∈ vs <-> 10 <= v <= 40 /\ (v - 10) mod 15 = 0.
Proof.
  exists [10; 25; 40]. split; [vm_compute; reflexivity|].
  refine (proj2 (proj2 (proj2 (parsePart_values "10-40/15" "10-40" 15 10 40 0 59 _ _ _ _ _))));
    [reflexivity|reflexivity|lia|lia|unfold int64_max; lia].
Defined.

(** A step near the top of the 64-bit range wraps the counter of the loop,
    and the field gets values below its range. *)
Theorem huge_step_wraps :
  parseField "1/9223372036854775807" 1 31 = Ok [1; - 2 ^ 63; -1].
Proof. vm_compute. reflexivity. Qed.
