(* ===== verification/Scheduler.v ===== *)
(** * The cron scheduler (src/internal/scheduler/scheduler.go, lastrun_store.go)

    A moment is a date to the minute and the nanoseconds since; the times of
    runs have none.  The methods run under the scheduler's lock and are one
    step each.  [checkAndRunTasks] is not: it collects the tasks that are due
    under the lock, and then takes the lock again for each of them, so
    [sched_step] interleaves the other methods with it.  [AddTask] and the
    check call the search for the next run, which need not end, with fuel:
    no step is taken while it runs. *)

From S2P Require Import Prelude GoStrings GoTime GoText Cron.

#[local] Open Scope string_scope.
#[local] Open Scope Z_scope.

(** ** Definitions *)

Record RetryPolicy := mkRetryPolicy { rp_MaxRetries : Z; rp_Delay : Z }.
Definition MaxTaskRetries : Z := 10.
Definition MaxTaskRetryDelay : Z := 5 * Minute.
Definition DefaultTaskRetryDelay : Z := 30 * Second.

Record moment := mkMoment { mo_civil : civil; mo_rest : Z }.
#[export] Instance moment_eq_dec : EqDecision moment.
Proof. solve_decision. Defined.

(** [Before] and [After], and [now.Add(time.Minute)]. *)
Definition earlier_b (a b : civil) : bool :=
  (cv_year a <? cv_year b) || ((cv_year a =? cv_year b) && (
  (cv_month a <? cv_month b) || ((cv_month a =? cv_month b) && (
  (cv_day a <? cv_day b) || ((cv_day a =? cv_day b) && (
  (cv_hour a <? cv_hour b) || ((cv_hour a =? cv_hour b) && (cv_minute a <? cv_minute b)))))))).
Definition Before (a b : moment) : bool :=
  earlier_b (mo_civil a) (mo_civil b) ||
  (bool_decide (mo_civil a = mo_civil b) && (mo_rest a <? mo_rest b)).
Definition at_minute (c : civil) : moment := mkMoment c 0.
Definition add_minute (m : moment) : moment := mkMoment (next_minute (mo_civil m)) (mo_rest m).

(** The body of a task is one of the two functions; [ta_body] names it. *)
Inductive task_body := Plain (f : nat) | Failing (f : nat).
Record Task := mkTask {
  ta_ID : string;
  ta_Expr : string;
  ta_body : task_body;
  ta_Retry : RetryPolicy;
  ta_schedule : cronSchedule;
  ta_nextRun : civil;
  ta_lastRun : option moment;
  ta_missedRuns : Z
}.

Record TaskInfo := mkTaskInfo {
  ti_ID : string; ti_Expr : string; ti_NextRun : civil; ti_LastRun : option moment; ti_MissedRuns : Z
}.

(** The tasks and the callback of each run. *)
Record Scheduler := mkScheduler { sc_tasks : gmap string Task; sc_onFire : bool }.
Definition NewScheduler : Scheduler := mkScheduler ∅ false.

Definition set_task (id : string) (t : Task) (s : Scheduler) : Scheduler :=
  mkScheduler (<[id := t]> (sc_tasks s)) (sc_onFire s).

(** What a method that searches comes to: the new state, an error, or it is
    still searching with the lock held. *)
Inductive outcome := Returned (s : Scheduler) | Refused (e : error) | Searching.

(** The part that both methods share. *)
Definition register (fuel : nat) (now : moment) (id expr : string) (body : task_body)
    (policy : RetryPolicy) (s : Scheduler) : outcome :=
  match parseCronExpr expr with
  | Err e => Refused ("invalid cron expression: " +:+ e)
  | Ok schedule =>
      match sc_tasks s !! id with
      | Some _ => Refused ("task with id " +:+ id +:+ " already exists")
      | None =>
          match nextRunTime schedule fuel (mo_civil now) with
          | Found c => Returned (set_task id (mkTask id expr body policy schedule c None 0) s)
          | _ => Searching
          end
      end
  end.

Definition AddTask (fuel : nat) (now : moment) (id expr : string) (fn : nat) (s : Scheduler) : outcome :=
  register fuel now id expr (Plain fn) (mkRetryPolicy 0 0) s.

Definition clamp_policy (p : RetryPolicy) : RetryPolicy :=
  let r := if rp_MaxRetries p <? 0 then 0 else rp_MaxRetries p in
  mkRetryPolicy (if MaxTaskRetries <? r then MaxTaskRetries else r)
                (if rp_Delay p <=? 0 then DefaultTaskRetryDelay else rp_Delay p).
Definition AddRetryingTask (fuel : nat) (now : moment) (id expr : string) (fn : option nat)
    (policy : RetryPolicy) (s : Scheduler) : outcome :=
  match fn with
  | None => Refused ("task " +:+ id +:+ ": retry task function must not be nil")
  | Some f => register fuel now id expr (Failing f) (clamp_policy policy) s
  end.

Definition RemoveTask (id : string) (s : Scheduler) : result Scheduler :=
  match sc_tasks s !! id with
  | None => Err ("task with id " +:+ id +:+ " not found")
  | Some _ => Ok (mkScheduler (delete id (sc_tasks s)) (sc_onFire s))
  end.

Definition SetOnFire (on : bool) (s : Scheduler) : Scheduler := mkScheduler (sc_tasks s) on.

(** *** Listing *)

(** The insertion sort: element [i] is swapped down over the greater ones. *)
Definition str_gtb (a b : string) : bool := match String.compare a b with Gt => true | _ => false end.
(** [sink x l]: [x] goes down over the greater elements at the end of the
    sorted part, which [l] lists from its end. *)
Fixpoint sink {A} (key : A -> string) (x : A) (l : list A) : list A :=
  match l with
  | [] => [x]
  | y :: l' => if str_gtb (key y) (key x) then y :: sink key x l' else x :: l
  end.
Definition sort_by_key {A} (key : A -> string) (l : list A) : list A :=
  reverse (foldl (fun sorted x => sink key x sorted) [] l).
Definition sortTasksByID (l : list TaskInfo) : list TaskInfo := sort_by_key ti_ID l.

Definition task_info (t : Task) : TaskInfo :=
  mkTaskInfo (ta_ID t) (ta_Expr t) (ta_nextRun t) (ta_lastRun t) (ta_missedRuns t).
Definition ListTasks (s : Scheduler) : list TaskInfo :=
  sortTasksByID (task_info <$> (map_to_list (sc_tasks s)).*2).

(** *** Missed runs *)

Definition MaxMissedRunCount : nat := 1000.
(** [None] while a search runs. *)
Fixpoint count_missed (n : nat) (fuel : nat) (sch : cronSchedule) (t : civil) (now : moment) : option Z :=
  match n with
  | O => Some 0
  | S n =>
      match nextRunTime sch fuel t with
      | Found nxt => if Before (at_minute nxt) now
                     then k ← count_missed n fuel sch nxt now; Some (k + 1) else Some 0
      | ZeroTime => Some 0
      | Running => None
      end
  end.
Definition countMissedRuns (fuel : nat) (sch : cronSchedule) (lastRun now : moment) : option Z :=
  if Before lastRun now then count_missed MaxMissedRunCount fuel sch (mo_civil lastRun) now else Some 0.

Definition set_last_run (lastRun : moment) (missed : Z) (t : Task) : Task :=
  mkTask (ta_ID t) (ta_Expr t) (ta_body t) (ta_Retry t) (ta_schedule t) (ta_nextRun t) (Some lastRun) missed.
(** [lastRun] is [None] for the zero time. *)
Definition RestoreLastRun (fuel : nat) (now : moment) (id : string) (lastRun : option moment)
    (s : Scheduler) : outcome :=
  match lastRun with
  | None => Returned s
  | Some l =>
      match sc_tasks s !! id with
      | None => Refused ("task with id " +:+ id +:+ " not found")
      | Some t =>
          match countMissedRuns fuel (ta_schedule t) l now with
          | Some missed => Returned (set_task id (set_last_run l missed t) s)
          | None => Searching
          end
      end
  end.

(** *** Dispatch *)

Definition due (now : moment) (t : Task) : bool := negb (Before now (at_minute (ta_nextRun t))).
(** The tasks that are due, in the order in which the map is visited. *)
Definition tasksToRun (now : moment) (order : list string) (s : Scheduler) : list Task :=
  filter (fun t => due now t = true) (omap (fun id => sc_tasks s !! id) order).

Definition fired_at (now : moment) (next : civil) (t : Task) : Task :=
  mkTask (ta_ID t) (ta_Expr t) (ta_body t) (ta_Retry t) (ta_schedule t) next (Some now) (ta_missedRuns t).
(** The section under the lock after the goroutine of a task is started. *)
Definition reschedule (fuel : nat) (now : moment) (id : string) (s : Scheduler) : option Scheduler :=
  match sc_tasks s !! id with
  | None => Some s
  | Some t =>
      match nextRunTime (ta_schedule t) fuel (mo_civil (add_minute now)) with
      | Found c => Some (set_task id (fired_at now c t) s)
      | _ => None
      end
  end.

(** A run that was started: the task, the run that was due, the moment of
    its dispatch and whether the callback was told. *)
Record firing := mkFiring { fi_task : Task; fi_at : moment; fi_reported : bool }.

(** A whole check without other callers. *)
Fixpoint dispatch_all (fuel : nat) (now : moment) (onFire : bool) (ts : list Task) (s : Scheduler)
    : option (Scheduler * list firing) :=
  match ts with
  | [] => Some (s, [])
  | t :: ts =>
      s' ← reschedule fuel now (ta_ID t) s;
      '(s'', fs) ← dispatch_all fuel now onFire ts s';
      Some (s'', mkFiring t now onFire :: fs)
  end.
Definition checkAndRunTasks (fuel : nat) (now : moment) (order : list string) (s : Scheduler)
    : option (Scheduler * list firing) :=
  dispatch_all fuel now (sc_onFire s) (tasksToRun now order s) s.

(** *** Retries of one run *)

Definition mul_duration (d k : Z) : Z := wrap64 (d * k).
Fixpoint retryDelay_loop (n : nat) (d : Z) : Z :=
  match n with
  | O => d
  | S n => if d <? MaxTaskRetryDelay then retryDelay_loop n (mul_duration d 2) else d
  end.
Definition retryDelay (base : Z) (attempt : nat) : Z :=
  let d := retryDelay_loop attempt base in
  if MaxTaskRetryDelay <? d then MaxTaskRetryDelay else d.

(** What a call of the task's function comes to; a panic is made an error. *)
Inductive task_result := TaskOk | TaskErr (e : error) | TaskPanic (what : string).
Definition callTaskFunc (r : task_result) : option error :=
  match r with
  | TaskOk => None
  | TaskErr e => Some e
  | TaskPanic w => Some ("task panicked: " +:+ w)
  end.

Inductive run_event := Attempted (n : nat) | Waited (d : Z) | GaveUp (attempts : nat) | Cancelled.
(** [call] gives the result of each attempt, [cancelled] whether the context
    ends during the wait after it.  The retries that remain are the fuel. *)
Fixpoint run_attempts (left_ : nat) (attempt : nat) (delay : Z) (call : nat -> task_result)
    (cancelled : nat -> bool) : list run_event :=
  Attempted attempt ::
  match callTaskFunc (call attempt) with
  | None => []
  | Some _ =>
      match left_ with
      | O => [GaveUp (attempt + 1)]
      | S left_ =>
          if cancelled attempt then [Cancelled]
          else Waited (retryDelay delay attempt) :: run_attempts left_ (S attempt) delay call cancelled
      end
  end.
Definition runTaskWithRetry (t : Task) (call : nat -> task_result) (cancelled : nat -> bool) : list run_event :=
  run_attempts (Z.to_nat (rp_MaxRetries (ta_Retry t))) 0 (rp_Delay (ta_Retry t)) call cancelled.

(** *** The store of last runs (lastrun_store.go) *)

Record LastRunEntry := mkLastRunEntry { lr_TaskID : string; lr_LastRun : option moment }.
Definition sortLastRunEntries (l : list LastRunEntry) : list LastRunEntry := sort_by_key lr_TaskID l.
(** The entries that [SaveLastRuns] writes, and the map that [LoadLastRuns]
    makes of the entries it reads. *)
Definition entries_of (runs : gmap string moment) : list LastRunEntry :=
  sortLastRunEntries ((fun p => mkLastRunEntry p.1 (Some p.2)) <$> map_to_list runs).
Definition add_entry (runs : gmap string moment) (e : LastRunEntry) : gmap string moment :=
  if decide (lr_TaskID e = "") then runs else
  match lr_LastRun e with None => runs | Some m => <[lr_TaskID e := m]> runs end.
Definition runs_of (entries : list LastRunEntry) : gmap string moment := foldl add_entry ∅ entries.

(** *** The daemon: the tick loop and the callers *)

(** [dm_batch] is the rest of a check that is under way, [dm_tick] the time of
    the last tick: a tick waits in the channel of the ticker, so its time can
    be behind the clock. *)
Record daemon := mkDaemon {
  dm_sched : Scheduler;
  dm_now : moment;
  dm_tick : moment;
  dm_batch : option (moment * bool * list Task);
  dm_fired : list firing
}.
Definition start_daemon (now : moment) : daemon := mkDaemon NewScheduler now now None [].

Definition no_before (a b : moment) : Prop := Before b a = false.

Inductive sched_step (d : daemon) : daemon -> Prop :=
| step_clock now : no_before (dm_now d) now -> valid (mo_civil now) ->
    sched_step d (mkDaemon (dm_sched d) now (dm_tick d) (dm_batch d) (dm_fired d))
| step_add fuel id expr fn s' : AddTask fuel (dm_now d) id expr fn (dm_sched d) = Returned s' ->
    sched_step d (mkDaemon s' (dm_now d) (dm_tick d) (dm_batch d) (dm_fired d))
| step_add_retrying fuel id expr fn policy s' :
    AddRetryingTask fuel (dm_now d) id expr fn policy (dm_sched d) = Returned s' ->
    sched_step d (mkDaemon s' (dm_now d) (dm_tick d) (dm_batch d) (dm_fired d))
| step_remove id s' : RemoveTask id (dm_sched d) = Ok s' ->
    sched_step d (mkDaemon s' (dm_now d) (dm_tick d) (dm_batch d) (dm_fired d))
| step_restore fuel id last s' : RestoreLastRun fuel (dm_now d) id last (dm_sched d) = Returned s' ->
    sched_step d (mkDaemon s' (dm_now d) (dm_tick d) (dm_batch d) (dm_fired d))
| step_on_fire on : sched_step d (mkDaemon (SetOnFire on (dm_sched d)) (dm_now d) (dm_tick d) (dm_batch d) (dm_fired d))
| step_collect now order : dm_batch d = None -> order ≡ₚ (map_to_list (sc_tasks (dm_sched d))).*1 ->
    no_before (dm_tick d) now -> no_before now (dm_now d) -> valid (mo_civil now) ->
    sched_step d (mkDaemon (dm_sched d) (dm_now d) now
      (Some (now, sc_onFire (dm_sched d), tasksToRun now order (dm_sched d))) (dm_fired d))
| step_dispatch fuel now on t ts s' : dm_batch d = Some (now, on, t :: ts) ->
    reschedule fuel now (ta_ID t) (dm_sched d) = Some s' ->
    sched_step d (mkDaemon s' (dm_now d) (dm_tick d) (Some (now, on, ts)) (dm_fired d ++ [mkFiring t now on])%list)
| step_finish now on : dm_batch d = Some (now, on, []) ->
    sched_step d (mkDaemon (dm_sched d) (dm_now d) (dm_tick d) None (dm_fired d)).

Definition reachable (now : moment) : daemon -> Prop := rtc sched_step (start_daemon now).

(** ** Lemmas *)

Lemma earlier_b_spec a b : earlier_b a b = true <-> earlier a b.
Proof. unfold earlier_b, earlier. rewrite !orb_true_iff, !andb_true_iff, !orb_true_iff, !andb_true_iff,
  !orb_true_iff, !andb_true_iff, !orb_true_iff, !andb_true_iff. rewrite !Z.ltb_lt, !Z.eqb_eq. done. Qed.
Lemma no_before_civil a b : no_before a b -> no_later (mo_civil a) (mo_civil b).
Proof.
  unfold no_before, Before. rewrite orb_false_iff. intros [H _]. apply not_earlier.
  intros He%earlier_b_spec. congruence.
Qed.
Lemma due_no_later now t : due now t = true -> no_later (ta_nextRun t) (mo_civil now).
Proof.
  unfold due. rewrite negb_true_iff. intros H. exact (no_before_civil (at_minute (ta_nextRun t)) now H).
Qed.
Lemma earlier_le a b c : no_later a b -> earlier b c -> earlier a c.
Proof. intros [H| ->]; [|done]. unfold earlier in *. lia. Qed.
Lemma earlier_trans a b c : earlier a b -> earlier b c -> earlier a c.
Proof. intros H. apply earlier_le. by left. Qed.

Lemma found_next sch fuel from c : valid from -> nextRunTime sch fuel from = Found c ->
  matches sch c /\ earlier from c.
Proof.
  intros Hv E. pose proof (nextRunTime_spec sch fuel from Hv) as L. rewrite E in L.
  destruct L as (Hm & Hle & _). split; [done|]. pose proof (next_minute_later from).
  destruct Hle as [?| <-]; [|done]. by eapply earlier_trans.
Qed.

Lemma register_found fuel now id expr body p s s' : valid (mo_civil now) ->
  register fuel now id expr body p s = Returned s' ->
  sc_tasks s !! id = None /\
  exists t, s' = set_task id t s /\ ta_ID t = id /\ matches (ta_schedule t) (ta_nextRun t) /\
    earlier (mo_civil now) (ta_nextRun t).
Proof.
  unfold register. intros Hv H. destruct (parseCronExpr expr) as [sch|]; [|done].
  destruct (sc_tasks s !! id) eqn:E; [done|]. split; [done|].
  destruct (nextRunTime sch fuel _) as [c| |] eqn:En; simplify_eq.
  destruct (found_next _ _ _ _ Hv En). eexists. split; [done|]. by split_and!.
Qed.
Lemma reschedule_spec fuel now id s s' : valid (mo_civil now) -> reschedule fuel now id s = Some s' ->
  (sc_tasks s !! id = None /\ s' = s) \/
  exists t c, sc_tasks s !! id = Some t /\ s' = set_task id (fired_at now c t) s /\
    matches (ta_schedule t) c /\ earlier (next_minute (mo_civil now)) c.
Proof.
  unfold reschedule. intros Hv H. destruct (sc_tasks s !! id) as [t|]; [|by left; simplify_eq].
  right. destruct (nextRunTime _ _ _) as [c| |] eqn:En; simplify_eq.
  destruct (found_next _ _ _ _ (next_minute_valid _ Hv) En). by exists t, c.
Qed.

(** ** What the scheduler promises (Scheduler)

    The invariant of the daemon relates the runs that were started to the
    next runs of the tasks; [sched_step] preserves it through every
    interleaving of the callers with a check. *)

(** ** Lemmas *)

(** Every run of this name started so far was due before [c]. *)
Definition runs_before (fs : list firing) (id : string) (c : civil) : Prop :=
  forall f, f ∈ fs -> ta_ID (fi_task f) = id -> earlier (ta_nextRun (fi_task f)) c.
Definition planned (fs : list firing) (t : Task) : Prop :=
  matches (ta_schedule t) (ta_nextRun t) /\ runs_before fs (ta_ID t) (ta_nextRun t).
Definition ordered (fs : list firing) : Prop :=
  forall i j f g, (i < j)%nat -> fs !! i = Some f -> fs !! j = Some g ->
    ta_ID (fi_task f) = ta_ID (fi_task g) -> earlier (ta_nextRun (fi_task f)) (ta_nextRun (fi_task g)).
Definition on_time (tick : moment) (f : firing) : Prop :=
  matches (ta_schedule (fi_task f)) (ta_nextRun (fi_task f)) /\
  no_later (ta_nextRun (fi_task f)) (mo_civil (fi_at f)) /\
  no_later (mo_civil (fi_at f)) (mo_civil tick).

Record inv (d : daemon) : Prop := {
  inv_now : valid (mo_civil (dm_now d));
  inv_tick : valid (mo_civil (dm_tick d)) /\ no_later (mo_civil (dm_tick d)) (mo_civil (dm_now d));
  inv_tasks : forall id t, sc_tasks (dm_sched d) !! id = Some t -> ta_ID t = id /\ planned (dm_fired d) t;
  inv_batch : forall now on ts, dm_batch d = Some (now, on, ts) -> now = dm_tick d /\ NoDup (ta_ID <$> ts) /\
    Forall (fun t => planned (dm_fired d) t /\ no_later (ta_nextRun t) (mo_civil now)) ts;
  inv_fired : Forall (on_time (dm_tick d)) (dm_fired d);
  inv_ordered : ordered (dm_fired d)
}.

Lemma on_time_mono tick tick' f : no_later (mo_civil tick) (mo_civil tick') -> on_time tick f -> on_time tick' f.
Proof. intros H (? & ? & ?). split_and!; [done..|]. by eapply no_later_trans. Qed.

(** A date after the last tick is after every run that was started. *)
Lemma runs_before_tick d c id : inv d -> earlier (mo_civil (dm_tick d)) c -> runs_before (dm_fired d) id c.
Proof.
  intros H Hc f Hf _. pose proof (inv_fired _ H) as Hon. rewrite Forall_forall in Hon.
  destruct (Hon f Hf) as (_ & H1 & H2). eapply earlier_le; [|exact Hc]. by eapply no_later_trans.
Qed.

Lemma tasksToRun_in now order s t : t ∈ tasksToRun now order s ->
  due now t = true /\ exists id, id ∈ order /\ sc_tasks s !! id = Some t.
Proof. intros [? (id & ? & ?)%list_elem_of_omap]%list_elem_of_filter. eauto. Qed.
Lemma tasksToRun_NoDup now order s : NoDup order ->
  (forall id t, sc_tasks s !! id = Some t -> ta_ID t = id) -> NoDup (ta_ID <$> tasksToRun now order s).
Proof.
  intros Hn Hid. unfold tasksToRun. induction Hn as [|id l Hni Hn IH]; [constructor|]. cbn [omap list_omap].
  destruct (sc_tasks s !! id) as [t|] eqn:E; [|done].
  destruct (decide (due now t = true)) as [Hd|]; [|by rewrite filter_cons_False].
  rewrite filter_cons_True by done. rewrite fmap_cons. constructor; [|done].
  rewrite (Hid _ _ E). intros (x & Hx & Hin)%list_elem_of_fmap.
  apply list_elem_of_filter in Hin as [_ (id' & Hid' & E')%list_elem_of_omap].
  apply Hid in E'. congruence.
Qed.

(** The methods that set a task keep the invariant when the task is planned. *)
Lemma inv_set_task d id t : inv d -> ta_ID t = id -> planned (dm_fired d) t ->
  inv (mkDaemon (set_task id t (dm_sched d)) (dm_now d) (dm_tick d) (dm_batch d) (dm_fired d)).
Proof.
  intros H Hid Hp. split; cbn; try apply H.
  intros id' t' Ht. apply lookup_insert_Some in Ht as [[<- <-]|[_ Ht]]; [done|by apply (inv_tasks _ H)].
Qed.
Lemma inv_register d fuel id expr body p s' : inv d ->
  register fuel (dm_now d) id expr body p (dm_sched d) = Returned s' ->
  inv (mkDaemon s' (dm_now d) (dm_tick d) (dm_batch d) (dm_fired d)).
Proof.
  intros H E. apply register_found in E as (_ & t & -> & Hid & Hm & He); [|apply H].
  apply inv_set_task; [done..|]. split; [done|]. apply runs_before_tick; [done|].
  eapply earlier_le; [apply H|done].
Qed.

Lemma runs_before_app fs f id c :
  runs_before fs id c -> (ta_ID (fi_task f) = id -> earlier (ta_nextRun (fi_task f)) c) ->
  runs_before (fs ++ [f]) id c.
Proof. intros H1 H2 g [Hg|Hg%list_elem_of_singleton]%elem_of_app; [by apply H1|subst; auto]. Qed.
Lemma planned_app fs f t :
  planned fs t -> (ta_ID (fi_task f) = ta_ID t -> earlier (ta_nextRun (fi_task f)) (ta_nextRun t)) ->
  planned (fs ++ [f]) t.
Proof. intros [? ?] ?. split; [done|]. by apply runs_before_app. Qed.
Lemma ordered_app fs f : ordered fs -> runs_before fs (ta_ID (fi_task f)) (ta_nextRun (fi_task f)) ->
  ordered (fs ++ [f]).
Proof.
  intros Ho Hr i j g h Hij Hi Hj Hid. apply lookup_snoc_Some in Hj as [[Hl Hj]|[Hl <-]].
  - rewrite lookup_app_l in Hi by lia. exact (Ho i j g h Hij Hi Hj Hid).
  - rewrite lookup_app_l in Hi by lia. apply Hr; [by eapply list_elem_of_lookup_2|done].
Qed.

Lemma inv_dispatch d fuel now on t ts s' : inv d -> dm_batch d = Some (now, on, t :: ts) ->
  reschedule fuel now (ta_ID t) (dm_sched d) = Some s' ->
  inv (mkDaemon s' (dm_now d) (dm_tick d) (Some (now, on, ts)) (dm_fired d ++ [mkFiring t now on])).
Proof.
  intros H Hb Hr. destruct (inv_batch _ H _ _ _ Hb) as (-> & Hnd & [[[Hm Hrb] Hle] Hts]%Forall_cons).
  rewrite fmap_cons in Hnd. apply NoDup_cons in Hnd as [Hni Hnd].
  assert (Hbefore : forall c, earlier (mo_civil (dm_tick d)) c -> runs_before (dm_fired d ++ [mkFiring t (dm_tick d) on]) (ta_ID t) c).
  { intros c Hc. apply runs_before_app; [by apply runs_before_tick|]. intros _. by eapply earlier_le. }
  pose proof (inv_tick _ H) as [Hvt _].
  split; cbn; try apply H.
  - intros id t' Ht. destruct (reschedule_spec _ _ _ _ _ Hvt Hr) as [[Hn ->]|(t0 & c & Ht0 & -> & Hmc & Hc)].
    + destruct (inv_tasks _ H _ _ Ht) as [<- Hp]. split; [done|]. apply planned_app; [done|].
      cbn. congruence.
    + cbn in Ht. apply lookup_insert_Some in Ht as [[<- <-]|[Hne Ht]].
      * destruct (inv_tasks _ H _ _ Ht0) as [Hid _]. cbn. split; [done|]. split; [done|]. cbn. rewrite Hid.
        apply Hbefore. eapply earlier_trans; [apply next_minute_later|done].
      * destruct (inv_tasks _ H _ _ Ht) as [<- Hp]. split; [done|]. apply planned_app; [done|]. cbn. congruence.
  - intros now' on' ts' [= <- <- <-]. split_and!; [done..|].
    apply Forall_forall. intros x Hx. rewrite Forall_forall in Hts. destruct (Hts x Hx) as [Hp Hx'].
    split; [|done]. apply planned_app; [done|]. cbn. intros E. destruct Hni. rewrite E.
    by apply list_elem_of_fmap_2.
  - apply Forall_app. split; [apply H|]. apply Forall_singleton. split_and!; [done..|by right].
  - apply ordered_app; [apply H|done].
Qed.

Lemma inv_collect d now order : inv d -> order ≡ₚ (map_to_list (sc_tasks (dm_sched d))).*1 ->
  no_before (dm_tick d) now -> no_before now (dm_now d) -> valid (mo_civil now) ->
  inv (mkDaemon (dm_sched d) (dm_now d) now
    (Some (now, sc_onFire (dm_sched d), tasksToRun now order (dm_sched d))) (dm_fired d)).
Proof.
  intros H Ho H1%no_before_civil H2%no_before_civil Hv. split; cbn; try apply H; [done| |].
  - intros now' on' ts [= <- <- <-]. split; [done|]. split.
    + apply tasksToRun_NoDup; [|intros; by apply (inv_tasks _ H)]. rewrite Ho. apply NoDup_fst_map_to_list.
    + apply Forall_forall. intros t (Hd & id & _ & Ht)%tasksToRun_in.
      split; [by apply (inv_tasks _ H _ _ Ht)|by apply due_no_later].
  - eapply Forall_impl; [apply H|]. intros f. by apply on_time_mono.
Qed.

Lemma inv_step d d' : sched_step d d' -> inv d -> inv d'.
Proof.
  intros Hs H. destruct Hs; cbn.
  - split; cbn; try apply H; [done|]. split; [apply H|]. eapply no_later_trans; [apply H|by apply no_before_civil].
  - by eapply inv_register.
  - unfold AddRetryingTask in *. destruct fn; [|done]. by eapply inv_register.
  - unfold RemoveTask in *. repeat break_match; simplify_eq. split; cbn; try apply H.
    intros id' x [_ Ht]%lookup_delete_Some. by apply (inv_tasks _ H).
  - unfold RestoreLastRun in *. destruct last0 as [l|]; [|simplify_eq; by split; apply H].
    repeat break_match; simplify_eq. apply inv_set_task; [done| |].
    all: by destruct (inv_tasks _ H _ _ ltac:(eassumption)).
  - by split; try apply H.
  - by apply inv_collect.
  - by eapply inv_dispatch.
  - by split; try apply H.
Qed.
Lemma reachable_inv now d : valid (mo_civil now) -> reachable now d -> inv d.
Proof.
  intros Hv H. assert (H0 : inv (start_daemon now)).
    { split; cbn; try done. by split; [|right]. }
  revert H0. induction H as [|x y z Hxy _ IH]; [done|]. intros Hx. by eapply IH, inv_step.
Qed.

(** *** Sorting *)

Definition key_le {A} (key : A -> string) (x y : A) : Prop := str_gtb (key x) (key y) = false.
Lemma sink_perm {A} (key : A -> string) x l : sink key x l ≡ₚ x :: l.
Proof.
  induction l as [|y l IH]; cbn [sink]; [done|]. destruct (str_gtb _ _); [|done].
  rewrite IH. apply Permutation_swap.
Qed.
Lemma sort_by_key_perm {A} (key : A -> string) l : sort_by_key key l ≡ₚ l.
Proof.
  unfold sort_by_key. rewrite reverse_Permutation.
  assert (H : forall acc, foldl (fun sorted x => sink key x sorted) acc l ≡ₚ acc ++ l).
  { induction l as [|x l IH]; intros acc; cbn [foldl]; [by rewrite app_nil_r|].
    rewrite IH, sink_perm. by rewrite <- Permutation_middle. }
  by rewrite H.
Qed.

(** *** Searches that end *)

(** A schedule with a match has one in each span of 400 years, so 402 rounds
    of the search are enough. *)
Definition enough : nat := 402.
Lemma nextRunTime_enough s from c : valid from -> matches s c ->
  exists c', nextRunTime s enough from = Found c'.
Proof.
  intros Hv Hm. set (y := cv_year (next_minute from)).
  assert (exists c', matches s c' /\ y < cv_year c' <= y + 400) as (c' & Hm' & Hy).
  { exists (mkCivil (cv_year c + 400 * ((y + 400 - cv_year c) / 400)) (cv_month c) (cv_day c) (cv_hour c) (cv_minute c)).
    split; [by apply matches_400|cbn].
    pose proof (Z.div_mod (y + 400 - cv_year c) 400 ltac:(lia)).
    pose proof (Z.mod_pos_bound (y + 400 - cv_year c) 400 ltac:(lia)). lia. }
  pose proof (nextRunTime_spec s enough from Hv) as L.
  destruct (nextRunTime _ _ _) as [d| |]; [by exists d|done|].
  specialize (L c' Hm' (proj1 Hy)). unfold enough in L. subst y. lia.
Qed.

Definition satisfiable (s : Scheduler) : Prop :=
  forall id t, sc_tasks s !! id = Some t -> exists c, matches (ta_schedule t) c.
Lemma reschedule_returns now id s : valid (mo_civil now) -> satisfiable s ->
  exists s', reschedule enough now id s = Some s' /\ satisfiable s' /\ sc_onFire s' = sc_onFire s.
Proof.
  intros Hv Hs. unfold reschedule. destruct (sc_tasks s !! id) as [t|] eqn:E; [|by exists s].
  destruct (Hs _ _ E) as [c Hc]. cbn [mo_civil add_minute].
  destruct (nextRunTime_enough _ _ _ (next_minute_valid _ Hv) Hc) as [c' ->].
  eexists. split; [done|]. split; [|done]. intros id' t' Ht. cbn in Ht.
  apply lookup_insert_Some in Ht as [[<- <-]|[_ Ht]]; [by exists c|by apply (Hs id')].
Qed.
Lemma dispatch_all_returns now on ts : forall s, valid (mo_civil now) -> satisfiable s ->
  exists s', dispatch_all enough now on ts s = Some (s', (fun t => mkFiring t now on) <$> ts) /\ satisfiable s'.
Proof.
  induction ts as [|t ts IH]; intros s Hv Hs; cbn [dispatch_all]; [by exists s|].
  destruct (reschedule_returns now (ta_ID t) s Hv Hs) as (s1 & -> & Hs1 & _). cbn [mbind option_bind].
  destruct (IH s1 Hv Hs1) as (s2 & -> & Hs2). cbn [mbind option_bind]. by exists s2.
Qed.

(** *** Retries *)

Lemma retryDelay_loop_min n d : 0 < d ->
  Z.min (retryDelay_loop n d) MaxTaskRetryDelay = Z.min (d * 2 ^ Z.of_nat n) MaxTaskRetryDelay.
Proof.
  revert d. induction n as [|n IH]; intros d Hd; cbn [retryDelay_loop]; [by rewrite Z.mul_1_r|].
  rewrite Nat2Z.inj_succ, Z.pow_succ_r by lia. pose proof (Z.pow_pos_nonneg 2 (Z.of_nat n)).
  destruct (Z.ltb_spec d MaxTaskRetryDelay) as [Hlt|Hge].
  - unfold mul_duration. rewrite wrap64_small.
    2: { unfold int64_min, int64_max, MaxTaskRetryDelay, Minute, Second, Millisecond, Microsecond, Nanosecond in *. lia. }
    rewrite IH by lia. f_equal. lia.
  - rewrite !Z.min_r; nia.
Qed.
Lemma retryDelay_min n d : 0 < d -> retryDelay d n = Z.min (d * 2 ^ Z.of_nat n) MaxTaskRetryDelay.
Proof.
  intros Hd. rewrite <- retryDelay_loop_min by done. unfold retryDelay.
  destruct (Z.ltb_spec MaxTaskRetryDelay (retryDelay_loop n d)); lia.
Qed.

(** The failed attempts from [i] on, each with the wait after it. *)
Definition failed_rounds (delay : Z) (i k : nat) : list run_event :=
  mjoin ((fun j => [Attempted j; Waited (Z.min (delay * 2 ^ Z.of_nat j) MaxTaskRetryDelay)]) <$> seq i k).
Definition fails (r : task_result) : bool := negb (bool_decide (callTaskFunc r = None)).
(** How a run ends after [k] failed attempts of at most [n] retries. *)
Definition run_ends (n k : nat) (call : nat -> task_result) (cancelled : nat -> bool) (evs : list run_event) : Prop :=
  (fails (call k) = false /\ evs = []) \/
  (fails (call k) = true /\ k = n /\ evs = [GaveUp (k + 1)]) \/
  (fails (call k) = true /\ (k < n)%nat /\ cancelled k = true /\ evs = [Cancelled]).

Lemma run_attempts_trace delay call cancelled : 0 < delay -> forall n i,
  exists k evs, (k <= n)%nat /\
    (forall j, (i <= j < i + k)%nat -> fails (call j) = true /\ cancelled j = false) /\
    run_attempts n i delay call cancelled = (failed_rounds delay i k ++ Attempted (i + k) :: evs)%list /\
    run_ends (i + n) (i + k) call cancelled evs.
Proof.
  intros Hd. induction n as [|n IH]; intros i; cbn [run_attempts].
  - exists 0%nat. rewrite Nat.add_0_r. unfold run_ends, fails.
    destruct (callTaskFunc (call i)) eqn:E; eexists; (split; [lia|]); (split; [intros; lia|]);
      (split; [reflexivity|]).
    + right. left. by rewrite bool_decide_eq_false_2.
    + left. by rewrite bool_decide_eq_true_2.
  - destruct (callTaskFunc (call i)) eqn:E.
    2: { exists 0%nat, []. rewrite !Nat.add_0_r. split; [lia|]. split; [intros; lia|]. split; [done|].
         left. unfold fails. by rewrite E. }
    assert (Hf : fails (call i) = true) by (unfold fails; by rewrite E).
    destruct (cancelled i) eqn:Ec.
    { exists 0%nat. eexists. rewrite !Nat.add_0_r. split; [lia|]. split; [intros; lia|]. split; [done|].
      right. right. split_and!; [done|lia|done|done]. }
    destruct (IH (S i)) as (k & evs & Hk & Hall & Hev & Hend). exists (S k), evs.
    split; [lia|]. split.
    { intros j Hj. destruct (decide (j = i)) as [->|]; [done|apply Hall; lia]. }
    replace (i + S k)%nat with (S i + k)%nat by lia. replace (i + S n)%nat with (S i + n)%nat by lia.
    split; [|done]. unfold failed_rounds. cbn [seq]. rewrite fmap_cons. cbn [mjoin list_join app].
    rewrite retryDelay_min by done. by rewrite Hev.
Qed.

(** *** The store *)

Lemma runs_of_lookup (l : list LastRunEntry) id m : NoDup (lr_TaskID <$> l) ->
  runs_of l !! id = Some m <-> id <> "" /\ mkLastRunEntry id (Some m) ∈ l.
Proof.
  induction l as [|e l IH] using rev_ind; intros Hnd.
  { split; [done|by intros [_ ?%elem_of_nil]]. }
  rewrite fmap_app in Hnd. apply NoDup_app in Hnd as (Hnd & Hdis & _).
  assert (Hni : forall o, mkLastRunEntry (lr_TaskID e) o ∉ l).
  { intros o Ho. apply (Hdis (lr_TaskID e)); [|by apply list_elem_of_singleton].
    by apply (list_elem_of_fmap_2 lr_TaskID) in Ho. }
  unfold runs_of. rewrite foldl_app. cbn [foldl]. fold (runs_of l). unfold add_entry.
  rewrite elem_of_app, list_elem_of_singleton. specialize (IH Hnd). destruct e as [k o]; cbn in *.
  destruct (decide (k = "")) as [->|Hk]; [rewrite IH; naive_solver|].
  destruct o as [m'|]; [|rewrite IH; naive_solver].
  rewrite lookup_insert_Some. destruct (decide (k = id)) as [<-|Hne].
  - split; [intros [[_ <-]|[? _]]; [by split; [|right]|done]|].
    intros [_ [Hin|[= <-]]]; [by destruct (Hni (Some m))|by left].
  - rewrite IH. naive_solver.
Qed.

(** *** Missed runs *)

(** [n] dates of the schedule, one after another, after [a] and before [now]. *)
Inductive missed_chain (sch : cronSchedule) (now : moment) : civil -> Z -> Prop :=
| chain_end a : missed_chain sch now a 0
| chain_next a c n : matches sch c -> earlier a c -> Before (at_minute c) now = true ->
    missed_chain sch now c n -> missed_chain sch now a (n + 1).
Lemma count_missed_chain n fuel sch now : forall t k, valid t -> count_missed n fuel sch t now = Some k ->
  missed_chain sch now t k /\ 0 <= k <= Z.of_nat n.
Proof.
  induction n as [|n IH]; intros t k Hv H; cbn [count_missed] in H.
  { simplify_eq. split; [constructor|lia]. }
  destruct (nextRunTime sch fuel t) as [c| |] eqn:E; [|simplify_eq; split; [constructor|lia]|done].
  destruct (found_next _ _ _ _ Hv E) as [Hm He].
  destruct (Before (at_minute c) now) eqn:Eb; [|simplify_eq; split; [constructor|lia]].
  destruct (count_missed n fuel sch c now) as [j|] eqn:Ec; cbn in H; simplify_eq.
  destruct (IH _ _ (proj1 Hm) Ec). split; [by econstructor|lia].
Qed.
Lemma count_missed_returns n sch now c : forall t, valid t -> matches sch c ->
  exists k, count_missed n enough sch t now = Some k.
Proof.
  induction n as [|n IH]; intros t Hv Hm; cbn [count_missed]; [eauto|].
  destruct (nextRunTime_enough _ _ _ Hv Hm) as [c' E]. rewrite E.
  destruct (Before _ _); [|eauto]. destruct (found_next _ _ _ _ Hv E) as [Hm' _].
  destruct (IH c' (proj1 Hm') Hm) as [k ->]. cbn. eauto.
Qed.

(** ** Properties *)

(** C19: Through every interleaving of [AddTask], [AddRetryingTask], [RemoveTask],
    [RestoreLastRun] and [SetOnFire] with the checks of the tick loop, a run
    that is started was due (its date is one of its schedule, and no later
    than the tick), and the runs of a task have dates that only go up: no
    date is run twice, also for a task that is removed during a check and
    added again. *)
Theorem scheduler_runs_once now d : valid (mo_civil now) -> rtc sched_step (start_daemon now) d ->
  Forall (fun f => matches (ta_schedule (fi_task f)) (ta_nextRun (fi_task f)) /\
    no_later (ta_nextRun (fi_task f)) (mo_civil (fi_at f))) (dm_fired d) /\
  forall i j f g, (i < j)%nat -> dm_fired d !! i = Some f -> dm_fired d !! j = Some g ->
    ta_ID (fi_task f) = ta_ID (fi_task g) -> earlier (ta_nextRun (fi_task f)) (ta_nextRun (fi_task g)).
Proof.
  intros Hv H%reachable_inv; [|done]. split; [|apply H].
  eapply Forall_impl; [apply H|]. by intros f (? & ? & _).
Qed.

Definition noon : moment := mkMoment (mkCivil 2026 7 1 12 0) 0.
Definition every_minute : cronSchedule :=
  mkCron (progression 256 0 59 1) (progression 256 0 23 1) (progression 256 1 31 1) (progression 256 1 12 1)
    [0; 1; 2; 3; 4; 5; 6].
Definition minutely : Task :=
  mkTask "m" "* * * * *" (Plain 0) (mkRetryPolicy 0 0) every_minute (mkCivil 2026 7 1 12 1) None 0.
Definition with_minutely : Scheduler := set_task "m" minutely NewScheduler.
Definition noon_1 : moment := mkMoment (mkCivil 2026 7 1 12 1) 0.

Lemma scheduler_runs_once_witness : exists d, dm_fired d = [mkFiring minutely noon_1 false] /\
  Forall (fun f => matches (ta_schedule (fi_task f)) (ta_nextRun (fi_task f)) /\
    no_later (ta_nextRun (fi_task f)) (mo_civil (fi_at f))) (dm_fired d).
Proof.
  eexists. split; [|refine (proj1 (scheduler_runs_once noon _ _ _))].
  2: { unfold valid. vm_compute. repeat split; discriminate. }
  2: { eapply rtc_l. { apply (step_add (start_daemon noon) 1 "m" "* * * * *" 0 with_minutely). vm_compute. reflexivity. }
       eapply rtc_l. { apply (step_clock _ noon_1); [vm_compute; reflexivity|]. unfold valid. vm_compute. repeat split; discriminate. }
       eapply rtc_l. { apply (step_collect _ noon_1 ["m"]); [reflexivity|vm_compute; constructor; constructor|vm_compute; reflexivity..|].
         unfold valid. vm_compute. repeat split; discriminate. }
       eapply rtc_l. { eapply (step_dispatch _ 1 noon_1 false minutely []); [reflexivity|vm_compute; reflexivity]. }
       apply rtc_refl. }
  reflexivity.
Defined.

(** A check returns, with every task that is due dispatched once: the
    searches in it end because the tasks have dates to find, which every
    task that [AddTask] lets in has; 402 rounds of the search are enough. *)
Theorem checkAndRunTasks_returns now start d order : valid (mo_civil start) -> reachable start d ->
  valid (mo_civil now) ->
  exists s', checkAndRunTasks enough now order (dm_sched d) =
    Some (s', (fun t => mkFiring t now (sc_onFire (dm_sched d))) <$> tasksToRun now order (dm_sched d)).
Proof.
  intros Hv0 H%reachable_inv Hv; [|done]. unfold checkAndRunTasks.
  destruct (dispatch_all_returns now (sc_onFire (dm_sched d)) (tasksToRun now order (dm_sched d))
              (dm_sched d) Hv) as (s' & -> & _); [|by exists s'].
  intros id t Ht. exists (ta_nextRun t). by destruct (inv_tasks _ H _ _ Ht) as [_ [? _]].
Qed.
Lemma checkAndRunTasks_returns_witness : exists s',
  checkAndRunTasks enough noon_1 [] NewScheduler = Some (s', []).
Proof.
  refine (checkAndRunTasks_returns noon_1 noon (start_daemon noon) [] _ _ _);
    [|apply rtc_refl|]; unfold valid; vm_compute; repeat split; discriminate.
Defined.

(** The minute after a dispatch is skipped: a task that is dispatched at
    [now] is next due after the minute that follows [now], although that
    minute may match.  The task of every minute ("* * * * *"), added at noon
    and ticked at each minute from 12:01 to 12:06, runs at 12:01, 12:03 and
    12:05 only. *)
Theorem dispatch_skips_a_minute :
  (forall fuel now id s s' t', valid (mo_civil now) -> reschedule fuel now id s = Some s' ->
     sc_tasks s' !! id = Some t' -> earlier (next_minute (mo_civil now)) (ta_nextRun t')) /\
  (exists s, AddTask 1 noon "m" "* * * * *" 0 NewScheduler = Returned s /\
     let tick acc k :=
       '(s, runs) ← acc;
       '(s', fs) ← checkAndRunTasks 1 (mkMoment (mkCivil 2026 7 1 12 k) 0) ["m"] s;
       Some (s', (runs ++ ((fun f => cv_minute (ta_nextRun (fi_task f))) <$> fs))%list) in
     (snd <$> foldl tick (Some (s, [])) [1; 2; 3; 4; 5; 6]) = Some [1; 3; 5]).
Proof.
  split.
  - intros fuel now id s s' t' Hv Hr Ht.
    destruct (reschedule_spec _ _ _ _ _ Hv Hr) as [[Hn ->]|(t & c & _ & -> & _ & Hc)]; [congruence|].
    cbn in Ht. rewrite lookup_insert_eq in Ht. by simplify_eq.
  - eexists. split; [vm_compute; reflexivity|]. vm_compute. reflexivity.
Qed.

(** A run with retries makes its attempts in order, waits after each failed
    one for the base delay doubled each time, up to five minutes, and stops
    at the first that succeeds, at the end of the context, or with the
    failure of the last retry; there are no more attempts than
    [MaxRetries + 1]. *)
Theorem runTaskWithRetry_trace t call cancelled : 0 < rp_Delay (ta_Retry t) ->
  exists k evs, (k <= Z.to_nat (rp_MaxRetries (ta_Retry t)))%nat /\
    (forall j, (j < k)%nat -> fails (call j) = true /\ cancelled j = false) /\
    runTaskWithRetry t call cancelled =
      (failed_rounds (rp_Delay (ta_Retry t)) 0 k ++ Attempted k :: evs)%list /\
    run_ends (Z.to_nat (rp_MaxRetries (ta_Retry t))) k call cancelled evs.
Proof.
  intros Hd. destruct (run_attempts_trace _ call cancelled Hd (Z.to_nat (rp_MaxRetries (ta_Retry t))) 0)
    as (k & evs & Hk & Hall & Hev & Hend).
  exists k, evs. split_and!; [done| |done|done]. intros j Hj. apply Hall. lia.
Qed.
Definition retrying : Task :=
  mkTask "r" "* * * * *" (Failing 0) (clamp_policy (mkRetryPolicy 2 0)) every_minute (mkCivil 2026 7 1 12 1) None 0.
Lemma runTaskWithRetry_trace_witness : exists k evs,
  runTaskWithRetry retrying (fun _ => TaskPanic "boom") (fun _ => false) =
    (failed_rounds (30 * Second) 0 k ++ Attempted k :: evs)%list /\ (k <= 2)%nat.
Proof.
  destruct (runTaskWithRetry_trace retrying (fun _ => TaskPanic "boom") (fun _ => false) eq_refl)
    as (k & evs & Hk & _ & Hev & _). exists k, evs. split; [exact Hev|exact Hk].
Defined.

(** Restoring the last run of a task counts dates of its schedule that follow
    one another after the last run and before now, at most 1000 of them; it
    returns for every task whose schedule has a date, and sets nothing but
    the last run and the count. *)
Theorem RestoreLastRun_counts now id l s t : valid (mo_civil l) -> sc_tasks s !! id = Some t ->
  matches (ta_schedule t) (ta_nextRun t) ->
  exists k, RestoreLastRun enough now id (Some l) s = Returned (set_task id (set_last_run l k t) s) /\
    0 <= k <= 1000 /\ missed_chain (ta_schedule t) now (mo_civil l) k.
Proof.
  intros Hv Ht Hm. unfold RestoreLastRun. rewrite Ht. unfold countMissedRuns.
  destruct (Before l now); [|exists 0; split_and!; [done|lia|lia|constructor]].
  destruct (count_missed_returns MaxMissedRunCount (ta_schedule t) now _ _ Hv Hm) as [k E]. rewrite E.
  destruct (count_missed_chain _ _ _ _ _ _ Hv E) as [Hc Hk]. exists k. split; [done|]. split; [|done].
  unfold MaxMissedRunCount in Hk. lia.
Qed.
Lemma RestoreLastRun_counts_witness : exists k,
  RestoreLastRun enough noon_1 "m" (Some noon) with_minutely =
    Returned (set_task "m" (set_last_run noon k minutely) with_minutely) /\ 0 <= k <= 1000.
Proof.
  destruct (RestoreLastRun_counts noon_1 "m" noon with_minutely minutely) as (k & Hr & Hk & _).
  - unfold valid. vm_compute. repeat split; discriminate.
  - reflexivity.
  - unfold matches, valid. vm_compute. repeat split; discriminate.
  - exists k. split; [exact Hr|exact Hk].
Defined.

(** The last runs that are saved are the ones that are loaded, those of the
    empty name apart. *)
Theorem lastruns_roundtrip runs id m :
  runs_of (entries_of runs) !! id = Some m <-> id <> "" /\ runs !! id = Some m.
Proof.
  unfold entries_of, sortLastRunEntries. rewrite runs_of_lookup.
  - rewrite sort_by_key_perm, list_elem_of_fmap. split.
    + intros (Hid & [k m'] & [= -> ->] & H%elem_of_map_to_list). done.
    + intros [Hid H]. split; [done|]. exists (id, m). by rewrite elem_of_map_to_list.
  - rewrite sort_by_key_perm, <- list_fmap_compose. apply (NoDup_fst_map_to_list runs).
Qed.
