(* ===== verification/Pipeline.v ===== *)
(** * Pipelines of workflows (src/internal/workflow/pipeline.go)

    A pipeline runs the workflow of each of its stages, batch by batch of the
    dependency graph.  [resolveDAG] is Kahn's algorithm with its maps; the
    order in which Go ranges over the in-degrees is a parameter.  The stages
    of a batch run in goroutines: [batch_step] interleaves the loop that
    launches them with the goroutines, which take a slot of the semaphore,
    run and deliver their result under the lock.  A stage's workflow is run
    by [ExecuteWorkflow] of Interpreter. *)

From S2P Require Import Prelude GoStrings GoTime WorkflowTypes Dag ExprEngine WalState Effects.
From S2P Require Import Helpers Compound DagScheduler Sequential Interpreter.

#[local] Open Scope string_scope.
#[local] Open Scope Z_scope.

(** ** Definitions *)

Definition MaxPipelineStages : Z := 100.
Definition MaxPipelineConcurrency : Z := 50.
Definition MaxPipelineRetries : Z := 10.
Definition MaxPipelineTimeout : Z := 30 * Minute.

Definition OnFailureStop : string := "stop".
Definition OnFailureContinue : string := "continue".
Definition OnFailureRetry : string := "retry".

Record PipelineStage := mkStage {
  pg_Name : string;
  pg_Workflow : Workflow;
  pg_DependsOn : list string;
  pg_Condition : string;
  pg_InputExpr : string;
  pg_OnFailure : string;
  pg_MaxRetries : Z;
  pg_OnRetryExhausted : string;
  pg_Timeout : string
}.
Record Pipeline := mkPipeline {
  pl_Name : string;
  pl_Stages : list PipelineStage;
  pl_DefaultTimeout : string;
  pl_MaxConcurrency : Z
}.
Record StageResult := mkStageResult {
  gr_StageName : string;
  gr_Output : string;
  gr_StepResults : list StepResult;
  gr_Error : option error;
  gr_Skipped : bool
}.
Record PipelineResult := mkPipelineResult {
  pr_Name : string;
  pr_StageResults : gmap string StageResult;
  pr_Success : bool;
  pr_Error : option error
}.

(** *** resolveDAG *)

Abbreviation degrees := (gmap string Z).
Definition degree_of (deg : degrees) (name : string) : Z := default 0 (deg !! name).

Definition count_deps (deg : degrees) (stage : PipelineStage) : degrees :=
  let deg := match deg !! pg_Name stage with Some _ => deg | None => <[pg_Name stage := 0]> deg end in
  foldl (fun deg _ => <[pg_Name stage := degree_of deg (pg_Name stage) + 1]> deg) deg (pg_DependsOn stage).
Definition inDegrees (p : Pipeline) : degrees := foldl count_deps ∅ (pl_Stages p).

(** One dependency of a stage on the name that was processed. *)
Definition relax_dep (name sname : string) (acc : degrees * list string) (dep : string)
    : degrees * list string :=
  let '(deg, next) := acc in
  if decide (dep = name) then
    let d := degree_of deg sname - 1 in
    (<[sname := d]> deg, if d =? 0 then (next ++ [sname])%list else next)
  else acc.
Definition relax_stage (name : string) (acc : degrees * list string) (stage : PipelineStage)
    : degrees * list string :=
  foldl (relax_dep name (pg_Name stage)) acc (pg_DependsOn stage).
Definition relax (stages : list PipelineStage) (acc : degrees * list string) (name : string)
    : degrees * list string :=
  foldl (relax_stage name) acc stages.

Fixpoint kahn (fuel : nat) (stages : list PipelineStage) (deg : degrees) (queue : list string)
    (processed : Z) (batches : list (list string)) : Z * list (list string) :=
  match fuel, queue with
  | S fuel, _ :: _ =>
      let '(deg', next) := foldl (relax stages) (deg, []) queue in
      kahn fuel stages deg' next (processed + Z.of_nat (length queue)) (batches ++ [queue])%list
  | _, _ => (processed, batches)
  end.

(** [order] is the order of the range over the in-degrees. *)
Definition resolveDAG (order : degrees -> list string) (p : Pipeline) : result (list (list string)) :=
  let deg := inDegrees p in
  let queue := filter (fun n => degree_of deg n = 0) (order deg) in
  let '(processed, batches) := kahn (S (length (pl_Stages p))) (pl_Stages p) deg queue 0 [] in
  if processed =? Z.of_nat (length (pl_Stages p)) then Ok batches
  else Err "circular dependency detected in pipeline stages".

Fixpoint duplicate_name (seen : gset string) (stages : list PipelineStage) : option string :=
  match stages with
  | [] => None
  | s :: stages => if decide (pg_Name s ∈ seen) then Some (pg_Name s)
                   else duplicate_name ({[pg_Name s]} ∪ seen) stages
  end.
Definition names (p : Pipeline) : list string := pg_Name <$> pl_Stages p.
Definition unknown_dep (p : Pipeline) : option (string * string) :=
  head (s ← pl_Stages p; d ← filter (fun d => d ∉ names p) (pg_DependsOn s); [(pg_Name s, d)]).

Definition check_pipeline (order : degrees -> list string) (p : Pipeline) : result (list (list string)) :=
  if MaxPipelineStages <? Z.of_nat (length (pl_Stages p)) then Err "too many stages" else
  match duplicate_name ∅ (pl_Stages p) with
  | Some n => Err ("duplicate stage name: " +:+ n)
  | None =>
      match unknown_dep p with
      | Some (s, d) => Err ("stage " +:+ s +:+ " depends on unknown stage " +:+ d)
      | None => wrap_err "pipeline DAG resolution failed: " (resolveDAG order p)
      end
  end.

(** *** executeStage *)

Section stage.
Context {W : Type} (env : Env W) (store : Store W).
(** [time.Sleep]. *)
Context (Sleep : Z -> M W unit).

Definition stage_retries (s : PipelineStage) : Z :=
  let r := if pg_MaxRetries s <=? 0 then 3 else pg_MaxRetries s in
  if MaxPipelineRetries <? r then MaxPipelineRetries else r.
Definition or_default (s d : string) : string := if decide (s = "") then d else s.
Definition stage_timeout (s : PipelineStage) (defaultTimeout : string) : Z :=
  let t := or_default (or_default (pg_Timeout s) defaultTimeout) "5m" in
  let d := match ParseDuration t with Some d => d | None => 5 * Minute end in
  if MaxPipelineTimeout <? d then MaxPipelineTimeout else d.

(** The attempts from number [attempt] on, [left_] of them after the next:
    the result, or the last error. *)
Fixpoint stage_attempts (left_ : nat) (attempt : Z) (ctx : Ctx) (s : PipelineStage) (timeout : Z)
    : M W (StageResult + error) :=
  _ ← (if 0 <? attempt then Sleep (attempt * Second) else mret tt);
  '(output, results, err) ← run_workflow env store (WithTimeout ctx timeout) (pg_Workflow s);
  match err with
  | None => mret (inl (mkStageResult (pg_Name s) output results None false))
  | Some e =>
      match left_ with
      | S left_ => if decide (or_default (pg_OnFailure s) OnFailureStop = OnFailureRetry)
                   then stage_attempts left_ (attempt + 1) ctx s timeout else mret (inr e)
      | O => mret (inr e)
      end
  end.

(** [input] is the stage's input; nothing reads it. *)
Definition executeStage (ctx : Ctx) (s : PipelineStage) (input defaultTimeout : string)
    : M W (StageResult * option error) :=
  r ← stage_attempts (Z.to_nat (stage_retries s)) 0 ctx s (stage_timeout s defaultTimeout);
  match r with
  | inl sr => mret (sr, None)
  | inr e =>
      let sr := mkStageResult (pg_Name s) "" [] (Some e) false in
      if decide (or_default (pg_OnRetryExhausted s) OnFailureStop = OnFailureContinue \/
                 or_default (pg_OnFailure s) OnFailureStop = OnFailureContinue)
      then mret (sr, None) else mret (sr, Some e)
  end.

(** *** Execute *)

Definition stage_concurrency (p : Pipeline) : Z :=
  if 1 <? pl_MaxConcurrency p then
    if MaxPipelineConcurrency <? pl_MaxConcurrency p then MaxPipelineConcurrency else pl_MaxConcurrency p
  else 1.

(** The engine of a condition or an input expression; [range] is the order in
    which the map of results is visited, which does not matter. *)
Definition stage_engine (completed : gmap string StageResult) : ExpressionEngine :=
  map_fold (fun name sr e => SetVariable ("stage." +:+ name +:+ ".output") (gr_Output sr) e)
    NewExpressionEngine completed.
Definition last_dep_output (s : PipelineStage) (completed : gmap string StageResult) : string :=
  match last (pg_DependsOn s) with
  | Some d => match completed !! d with Some sr => gr_Output sr | None => "" end
  | None => ""
  end.
(** A condition that cannot be evaluated does not skip the stage. *)
Definition skipped (s : PipelineStage) (completed : gmap string StageResult) : bool :=
  if decide (pg_Condition s = "") then false else
  match evaluateCondition env (pg_Condition s) (last_dep_output s completed) (stage_engine completed) with
  | Ok pass => negb pass
  | Err _ => false
  end.
Definition stage_input (s : PipelineStage) (completed : gmap string StageResult) : string :=
  if decide (pg_InputExpr s <> "")
  then (Evaluate (env_host env) (stage_engine completed) (pg_InputExpr s) "").1
  else last_dep_output s completed.

(** A batch under way: the names to launch, the goroutines that wait for a
    slot, those that hold one, and what they have delivered. *)
Record batch := mkBatch {
  bt_todo : list string;
  bt_waiting : list (PipelineStage * string);
  bt_executing : list (PipelineStage * string);
  bt_remaining : gmap string PipelineStage;
  bt_completed : gmap string StageResult;
  bt_results : gmap string StageResult;
  bt_errors : list error
}.

(** The loop's round for one stage.  The code writes the result of a skipped
    stage without the lock that the goroutines take for theirs; here that write
    is one step. *)
Definition launch (b : batch) (name : string) (rest : list string) : batch :=
  match bt_remaining b !! name with
  | None => mkBatch rest (bt_waiting b) (bt_executing b) (bt_remaining b) (bt_completed b) (bt_results b) (bt_errors b)
  | Some s =>
      if skipped s (bt_completed b) then
        mkBatch rest (bt_waiting b) (bt_executing b) (delete name (bt_remaining b)) (bt_completed b)
          (<[pg_Name s := mkStageResult (pg_Name s) "" [] None true]> (bt_results b)) (bt_errors b)
      else
        mkBatch rest (bt_waiting b ++ [(s, stage_input s (bt_completed b))])%list (bt_executing b)
          (bt_remaining b) (bt_completed b) (bt_results b) (bt_errors b)
  end.
(** What a goroutine does under the lock. *)
Definition deliver (s : PipelineStage) (sr : StageResult) (err : option error)
    (executing : list (PipelineStage * string)) (b : batch) : batch :=
  mkBatch (bt_todo b) (bt_waiting b) executing (bt_remaining b)
    (<[pg_Name s := sr]> (bt_completed b)) (<[pg_Name s := sr]> (bt_results b))
    (match err with Some e => bt_errors b ++ [e] | None => bt_errors b end)%list.

Context (ctx : Ctx) (p : Pipeline).

Inductive batch_step : batch * W -> batch * W -> Prop :=
| bs_launch b w name rest : bt_todo b = name :: rest -> batch_step (b, w) (launch b name rest, w)
| bs_acquire b w s l1 l2 : bt_waiting b = (l1 ++ s :: l2)%list ->
    Z.of_nat (length (bt_executing b)) < stage_concurrency p ->
    batch_step (b, w) (mkBatch (bt_todo b) (l1 ++ l2)%list (bt_executing b ++ [s])%list (bt_remaining b)
      (bt_completed b) (bt_results b) (bt_errors b), w)
| bs_finish b w s input l1 l2 w' sr err : bt_executing b = (l1 ++ (s, input) :: l2)%list ->
    executeStage ctx s input (pl_DefaultTimeout p) w = (w', Ret (sr, err)) ->
    batch_step (b, w) (deliver s sr err (l1 ++ l2)%list b, w').

Definition batch_done (b : batch) : Prop := bt_todo b = [] /\ bt_waiting b = [] /\ bt_executing b = [].

(** The loop over the batches: after each, the first error ends it. *)
Inductive run_batches : list (list string) -> batch * W -> option error -> batch * W -> Prop :=
| rb_nil b w : run_batches [] (b, w) None (b, w)
| rb_error names rest b w b' w' e es :
    rtc batch_step (mkBatch names [] [] (bt_remaining b) (bt_completed b) (bt_results b) [], w) (b', w') ->
    batch_done b' -> bt_errors b' = e :: es ->
    run_batches (names :: rest) (b, w) (Some e) (b', w')
| rb_next names rest b w b' w' err b'' w'' :
    rtc batch_step (mkBatch names [] [] (bt_remaining b) (bt_completed b) (bt_results b) [], w) (b', w') ->
    batch_done b' -> bt_errors b' = [] -> run_batches rest (b', w') err (b'', w'') ->
    run_batches (names :: rest) (b, w) err (b'', w'').

Definition start_batch : batch :=
  mkBatch [] [] [] (list_to_map ((fun s => (pg_Name s, s)) <$> pl_Stages p)) ∅ ∅ [].

(** [Execute]: refused, or run to the end or to the first batch with an error. *)
Inductive pipeline_Execute (order : degrees -> list string) : W -> result PipelineResult -> W -> Prop :=
| pe_refused w e : check_pipeline order p = Err e -> pipeline_Execute order w (Err e) w
| pe_ran w batches err b w' : check_pipeline order p = Ok batches ->
    run_batches batches (start_batch, w) err (b, w') ->
    pipeline_Execute order w
      (Ok (mkPipelineResult (pl_Name p) (bt_results b) (bool_decide (err = None)) err)) w'.
End stage.
