(* ===== verification/PipelineProofs.v ===== *)
(** * Pipelines run their stages in the order of their dependencies (Pipeline)

    Kahn's algorithm is followed with the number of dependencies of a stage
    that are not processed yet.  The invariant of a batch says where each of
    its stages is. *)

From S2P Require Import Prelude GoStrings GoTime WorkflowTypes Dag ExprEngine WalState Effects.
From S2P Require Import Helpers Compound DagScheduler Sequential Interpreter Pipeline.

#[local] Open Scope string_scope.
#[local] Open Scope Z_scope.

(** ** Kahn's algorithm *)

(** How many of the dependencies [ds] are outside [D]; how many are [n]. *)
Definition pending (D : gset string) (ds : list string) : Z := Z.of_nat (length (filter (fun d => d ∉ D) ds)).
Definition occurrences (n : string) (ds : list string) : Z := Z.of_nat (length (filter (fun d => d = n) ds)).

Lemma pending_cons D d ds : pending D (d :: ds) = (if decide (d ∈ D) then 0 else 1) + pending D ds.
Proof.
  unfold pending. destruct (decide (d ∈ D)); [rewrite filter_cons_False by auto; lia|].
  rewrite filter_cons_True by done. cbn [length]. lia.
Qed.
Lemma occurrences_cons n d ds : occurrences n (d :: ds) = (if decide (d = n) then 1 else 0) + occurrences n ds.
Proof.
  unfold occurrences. destruct (decide (d = n)); [rewrite filter_cons_True by done; cbn [length]; lia|].
  rewrite filter_cons_False by done. lia.
Qed.
Lemma pending_insert D n ds : n ∉ D -> pending ({[n]} ∪ D) ds = pending D ds - occurrences n ds.
Proof.
  intros Hn. induction ds as [|d ds IH]; [done|]. rewrite !pending_cons, occurrences_cons, IH.
  destruct (decide (d = n)) as [->|]; [rewrite decide_True, decide_False by set_solver; lia|].
  destruct (decide (d ∈ D)); [rewrite decide_True by set_solver|rewrite decide_False by set_solver]; lia.
Qed.
Lemma pending_nonneg D ds : 0 <= pending D ds.
Proof. unfold pending. lia. Qed.
Lemma occurrences_nonneg n ds : 0 <= occurrences n ds.
Proof. unfold occurrences. lia. Qed.
Lemma pending_zero D ds : pending D ds = 0 <-> (forall d, d ∈ ds -> d ∈ D).
Proof.
  induction ds as [|d ds IH]; [split; [by intros _ ? ?%elem_of_nil|done]|].
  rewrite pending_cons. pose proof (pending_nonneg D ds). destruct (decide (d ∈ D)).
  - rewrite Z.add_0_l, IH. set_solver.
  - split; [lia|]. intros Hd. destruct n. apply Hd. set_solver.
Qed.

Lemma degree_insert deg s d s' :
  degree_of (<[s := d]> deg) s' = if decide (s' = s) then d else degree_of deg s'.
Proof.
  unfold degree_of. destruct (decide (s' = s)) as [->|]; [by rewrite lookup_insert_eq|].
  by rewrite lookup_insert_ne.
Qed.

(** The dependencies of one stage on the processed name: its degree goes down
    by their number, and it is queued when that makes it zero. *)
Lemma relax_deps_spec name s ds : forall deg next,
  occurrences name ds <= degree_of deg s ->
  exists deg', foldl (relax_dep name s) (deg, next) ds =
      (deg', next ++ (if decide (0 < occurrences name ds /\ degree_of deg s = occurrences name ds)
                      then [s] else []))%list /\
    forall s', degree_of deg' s' = degree_of deg s' - (if decide (s' = s) then occurrences name ds else 0).
Proof.
  induction ds as [|d ds IH]; intros deg next Hle.
  { exists deg. cbn. rewrite app_nil_r. split; [done|]. intros s'.
    change (occurrences name []) with 0. destruct (decide _); lia. }
  cbn [foldl relax_dep]. rewrite occurrences_cons in *. pose proof (occurrences_nonneg name ds) as Hnn.
  destruct (decide (d = name)) as [->|Hd].
  - assert (Hs : degree_of (<[s:=degree_of deg s - 1]> deg) s = degree_of deg s - 1)
      by (rewrite degree_insert; by rewrite decide_True).
    destruct (IH (<[s := degree_of deg s - 1]> deg)
                (if degree_of deg s - 1 =? 0 then (next ++ [s])%list else next)) as (deg' & -> & Hdeg); [lia|].
    exists deg'. split.
    + f_equal. rewrite Hs. destruct (Z.eqb_spec (degree_of deg s - 1) 0).
      * rewrite decide_False by lia. rewrite decide_True by lia. by rewrite app_nil_r.
      * destruct (decide (0 < occurrences name ds /\ degree_of deg s - 1 = occurrences name ds));
          [rewrite decide_True by lia|rewrite decide_False by lia]; done.
    + intros s'. rewrite Hdeg, degree_insert. destruct (decide (s' = s)) as [->|]; lia.
  - destruct (IH deg next) as (deg' & -> & Hdeg); [lia|]. exists deg'. split.
    + done.
    + intros s'. rewrite Hdeg. destruct (decide (s' = s)); lia.
Qed.

Definition deps_in (stages : list PipelineStage) (s : string) : list string :=
  match list_find (fun g => pg_Name g = s) stages with Some (_, g) => pg_DependsOn g | None => [] end.
Lemma deps_in_cons g stages s :
  deps_in (g :: stages) s = if decide (pg_Name g = s) then pg_DependsOn g else deps_in stages s.
Proof.
  unfold deps_in. cbn [list_find]. destruct (decide (pg_Name g = s)); [done|].
  by destruct (list_find _ stages) as [[]|].
Qed.
Lemma deps_in_out stages s : s ∉ (pg_Name <$> stages) -> deps_in stages s = [].
Proof.
  induction stages as [|g stages IH]; intros Hs; [done|]. rewrite fmap_cons in Hs.
  rewrite deps_in_cons, decide_False by set_solver. apply IH. set_solver.
Qed.

(** All stages: every degree goes down by its dependencies on the name, and
    the stages whose degree becomes zero are queued, each once. *)
Lemma relax_spec name stages : NoDup (pg_Name <$> stages) -> forall deg next,
  (forall s, occurrences name (deps_in stages s) <= degree_of deg s) ->
  exists deg' new, relax stages (deg, next) name = (deg', next ++ new)%list /\ NoDup new /\
    (forall s, s ∈ new <-> 0 < occurrences name (deps_in stages s) /\
       degree_of deg s = occurrences name (deps_in stages s)) /\
    forall s, degree_of deg' s = degree_of deg s - occurrences name (deps_in stages s).
Proof.
  unfold relax. induction stages as [|g stages IH]; intros Hnd deg next Hle.
  { exists deg, []. cbn [foldl]. rewrite app_nil_r. split_and!; [done|constructor| |].
    - intros s. assert (occurrences name (deps_in [] s) = 0) as -> by done.
      split; [by intros ?%elem_of_nil|intros [? _]; lia].
    - intros s. assert (occurrences name (deps_in [] s) = 0) as -> by done. lia. }
  rewrite fmap_cons in Hnd. apply NoDup_cons in Hnd as [Hni Hnd]. cbn [foldl]. unfold relax_stage at 2.
  assert (Hg : deps_in (g :: stages) (pg_Name g) = pg_DependsOn g) by (by rewrite deps_in_cons, decide_True).
  destruct (relax_deps_spec name (pg_Name g) (pg_DependsOn g) deg next) as (deg1 & -> & Hdeg1).
  { rewrite <- Hg. apply Hle. }
  pose proof (deps_in_out stages _ Hni) as Hout.
  destruct (IH Hnd deg1 (next ++ (if decide (0 < occurrences name (pg_DependsOn g) /\ degree_of deg (pg_Name g) = occurrences name (pg_DependsOn g)) then [pg_Name g] else []))%list)
    as (deg' & new & -> & Hnew & Hin & Hdeg').
  { intros s. rewrite Hdeg1. specialize (Hle s). rewrite deps_in_cons in Hle.
    destruct (decide (s = pg_Name g)) as [->|].
    - rewrite decide_True in Hle by done. rewrite Hout. change (occurrences name []) with 0. lia.
    - rewrite decide_False in Hle by congruence. lia. }
  exists deg', ((if decide (0 < occurrences name (pg_DependsOn g) /\ degree_of deg (pg_Name g) = occurrences name (pg_DependsOn g)) then [pg_Name g] else []) ++ new)%list.
  assert (Hnot : pg_Name g ∉ new).
  { rewrite Hin, Hout. change (occurrences name []) with 0. lia. }
  split; [by rewrite <- (assoc_L (++)%list)|]. split; [|split].
  - destruct (decide _); [|done]. cbn. by constructor.
  - intros s. rewrite elem_of_app, Hin, Hdeg1, deps_in_cons. destruct (decide (pg_Name g = s)) as [<-|Hne].
    + destruct (decide (pg_Name g = pg_Name g)); [|done]. rewrite Hout. change (occurrences name []) with 0.
      destruct (decide (0 < occurrences name (pg_DependsOn g) /\ _)) as [Hd|Hd].
      * rewrite list_elem_of_singleton. naive_solver.
      * rewrite elem_of_nil. naive_solver lia.
    + destruct (decide (s = pg_Name g)); [congruence|].
      destruct (decide (0 < occurrences name (pg_DependsOn g) /\ _));
        rewrite ?list_elem_of_singleton, ?elem_of_nil, Z.sub_0_r; naive_solver.
  - intros s. rewrite Hdeg', Hdeg1, deps_in_cons. destruct (decide (pg_Name g = s)) as [<-|Hne].
    + destruct (decide (pg_Name g = pg_Name g)); [|done]. rewrite Hout. change (occurrences name []) with 0. lia.
    + destruct (decide (s = pg_Name g)); [congruence|]. lia.
Qed.

Lemma pending_mono D D' ds : D ⊆ D' -> pending D ds = 0 -> pending D' ds = 0.
Proof. rewrite !pending_zero. set_solver. Qed.

(** A whole queue: afterwards the degrees count the dependencies outside the
    processed names, and the next queue has the stages that became ready. *)
Lemma relax_queue stages : NoDup (pg_Name <$> stages) -> forall q D deg next,
  NoDup q -> (forall n, n ∈ q -> n ∉ D) ->
  (forall s, degree_of deg s = pending D (deps_in stages s)) ->
  exists deg' new, foldl (relax stages) (deg, next) q = (deg', next ++ new)%list /\ NoDup new /\
    (forall s, s ∈ new <-> 0 < pending D (deps_in stages s) /\
       pending (list_to_set q ∪ D) (deps_in stages s) = 0) /\
    forall s, degree_of deg' s = pending (list_to_set q ∪ D) (deps_in stages s).
Proof.
  intros Hst. induction q as [|n q IH]; intros D deg next Hq Hdis Hdeg; cbn [foldl].
  { exists deg, []. rewrite app_nil_r. split_and!; [done|constructor| |]; intros s.
    - replace (list_to_set [] ∪ D) with D by set_solver. rewrite elem_of_nil. split; [done|lia].
    - by replace (list_to_set [] ∪ D) with D by set_solver. }
  apply NoDup_cons in Hq as [Hnq Hq].
  assert (HnD : n ∉ D) by (apply Hdis; set_solver).
  assert (Hle : forall s, occurrences n (deps_in stages s) <= degree_of deg s).
  { intros s. rewrite Hdeg. pose proof (pending_nonneg ({[n]} ∪ D) (deps_in stages s)) as Hp.
    rewrite pending_insert in Hp by done. lia. }
  destruct (relax_spec n stages Hst deg next Hle) as (deg1 & new1 & -> & Hnd1 & Hin1 & Hdeg1).
  destruct (IH ({[n]} ∪ D) deg1 (next ++ new1)%list) as (deg' & new2 & -> & Hnd2 & Hin2 & Hdeg'); [done| | |].
  { intros x Hx. specialize (Hdis x). set_solver. }
  { intros s. rewrite Hdeg1, Hdeg, pending_insert by done. done. }
  replace (list_to_set q ∪ ({[n]} ∪ D)) with (list_to_set (n :: q) ∪ D) in * by set_solver.
  assert (Hin1' : forall s, s ∈ new1 <-> 0 < pending D (deps_in stages s) /\ pending ({[n]} ∪ D) (deps_in stages s) = 0).
  { intros s. rewrite Hin1, Hdeg, pending_insert by done.
    pose proof (occurrences_nonneg n (deps_in stages s)). lia. }
  exists deg', (new1 ++ new2)%list. split_and!; [by rewrite (assoc_L (++)%list)| | |done].
  - apply NoDup_app. split_and!; [done| |done]. intros s [_ H0]%Hin1' [Hp _]%Hin2. lia.
  - intros s. rewrite elem_of_app, Hin1', Hin2.
    pose proof (pending_nonneg ({[n]} ∪ D) (deps_in stages s)). pose proof (pending_nonneg D (deps_in stages s)).
    assert (pending ({[n]} ∪ D) (deps_in stages s) = 0 ->
            pending (list_to_set (n :: q) ∪ D) (deps_in stages s) = 0) as Hm by (apply pending_mono; set_solver).
    assert (pending D (deps_in stages s) = 0 -> pending ({[n]} ∪ D) (deps_in stages s) = 0) as Hm'
      by (apply pending_mono; set_solver).
    destruct (decide (pending ({[n]} ∪ D) (deps_in stages s) = 0)); lia.
Qed.

(** The batches so far: each name once, each after its dependencies. *)
Record batched (stages : list PipelineStage) (batches : list (list string)) (D : gset string) : Prop := {
  bd_nodup : NoDup (mjoin batches);
  bd_elems : forall s, s ∈ mjoin batches <-> s ∈ D;
  bd_after : forall k b s d, batches !! k = Some b -> s ∈ b -> d ∈ deps_in stages s ->
    exists j c, (j < k)%nat /\ batches !! j = Some c /\ d ∈ c
}.
Record kahn_inv (stages : list PipelineStage) (deg : degrees) (q : list string) (D : gset string) : Prop := {
  ki_deg : forall s, degree_of deg s = pending D (deps_in stages s);
  ki_nodup : NoDup q;
  ki_queue : forall s, s ∈ q <-> s ∈ (pg_Name <$> stages) /\ (s ∉ D) /\ pending D (deps_in stages s) = 0;
  ki_range : forall s, s ∈ D -> s ∈ (pg_Name <$> stages);
  ki_closed : forall s, s ∈ D -> pending D (deps_in stages s) = 0
}.

Lemma mjoin_app {A} (l k : list (list A)) : mjoin (l ++ k)%list = (mjoin l ++ mjoin k)%list.
Proof.
  induction l as [|y l IH]; [done|].
  change (y ++ mjoin (l ++ k) = (y ++ mjoin l) ++ mjoin k)%list. by rewrite IH, (assoc_L (++)%list).
Qed.
Lemma mjoin_snoc {A} (l : list (list A)) x : mjoin (l ++ [x])%list = (mjoin l ++ x)%list.
Proof. rewrite mjoin_app. cbn. by rewrite app_nil_r. Qed.
Lemma elem_of_mjoin_lookup {A} (l : list (list A)) x : x ∈ mjoin l <-> exists k b, l !! k = Some b /\ x ∈ b.
Proof.
  rewrite list_elem_of_join. split.
  - intros (b & Hx & [k Hk]%list_elem_of_lookup). eauto.
  - intros (k & b & Hk & Hx). exists b. split; [done|]. by eapply list_elem_of_lookup_2.
Qed.

Lemma batched_snoc stages batches D deg q : batched stages batches D -> kahn_inv stages deg q D ->
  batched stages (batches ++ [q])%list (list_to_set q ∪ D).
Proof.
  intros HB HK. split.
  - rewrite mjoin_snoc. apply NoDup_app. split_and!; [apply HB| |apply HK].
    intros s Hs%(bd_elems _ _ _ HB) Hq%(ki_queue _ _ _ _ HK). by destruct Hq as (_ & ? & _).
  - intros s. rewrite mjoin_snoc, elem_of_app, (bd_elems _ _ _ HB). set_solver.
  - intros k b s d Hk Hs Hd. apply lookup_snoc_Some in Hk as [[Hl Hk]|[-> ->]].
    + destruct (bd_after _ _ _ HB _ _ _ _ Hk Hs Hd) as (j & c & Hj & Hc & Hdc).
      exists j, c. rewrite lookup_app_l by lia. done.
    + apply (ki_queue _ _ _ _ HK) in Hs as (_ & _ & Hp). rewrite pending_zero in Hp.
      specialize (Hp d Hd). apply (bd_elems _ _ _ HB), elem_of_mjoin_lookup in Hp as (j & c & Hj & Hdc).
      exists j, c. pose proof (lookup_lt_Some _ _ _ Hj). rewrite lookup_app_l by lia. done.
Qed.

Lemma kahn_inv_next stages deg q D deg' next : NoDup (pg_Name <$> stages) -> kahn_inv stages deg q D ->
  foldl (relax stages) (deg, []) q = (deg', next) -> kahn_inv stages deg' next (list_to_set q ∪ D).
Proof.
  intros Hnd HK E. destruct (relax_queue stages Hnd q D deg []) as (deg1 & new & E1 & Hn & Hin & Hdeg).
  { apply HK. } { intros n Hn. by apply (ki_queue _ _ _ _ HK) in Hn as (_ & ? & _). } { apply HK. }
  rewrite E1 in E. cbn [app] in E. simplify_eq.
  assert (Hq0 : forall s, s ∈ q -> pending D (deps_in stages s) = 0)
    by (intros s Hs; by apply (ki_queue _ _ _ _ HK) in Hs as (_ & _ & ?)).
  split; [done|done| | |].
  - intros s. rewrite Hin. split.
    + intros [Hp H0]. split_and!; [|intros [Hs%elem_of_list_to_set|Hs]%elem_of_union|done].
      * destruct (decide (s ∈ (pg_Name <$> stages))) as [?|Ho]; [done|]. rewrite deps_in_out in Hp by done. done.
      * apply Hq0 in Hs. lia.
      * apply (ki_closed _ _ _ _ HK) in Hs. lia.
    + intros (Hs & Hni & H0). split; [|done]. pose proof (pending_nonneg D (deps_in stages s)).
      destruct (decide (pending D (deps_in stages s) = 0)) as [Hz|]; [|lia].
      exfalso. apply Hni, elem_of_union_l, elem_of_list_to_set, (ki_queue _ _ _ _ HK).
      split_and!; [done|set_solver|done].
  - intros s [Hs%elem_of_list_to_set|Hs]%elem_of_union; [by apply (ki_queue _ _ _ _ HK) in Hs as [? _]|by apply (ki_range _ _ _ _ HK)].
  - intros s [Hs%elem_of_list_to_set|Hs]%elem_of_union; apply (pending_mono D); [set_solver| |set_solver|].
    + by apply Hq0.
    + by apply (ki_closed _ _ _ _ HK).
Qed.

(** The loop ends with no stage ready, within one round per stage. *)
Lemma kahn_spec stages fuel : NoDup (pg_Name <$> stages) -> forall deg q D processed batches,
  kahn_inv stages deg q D -> batched stages batches D -> processed = Z.of_nat (size D) ->
  (length stages < size D + fuel)%nat ->
  exists D' batches', kahn fuel stages deg q processed batches = (Z.of_nat (size D'), batches') /\
    batched stages batches' D' /\ (forall s, s ∈ D' -> s ∈ (pg_Name <$> stages)) /\
    (forall s, s ∈ (pg_Name <$> stages) -> s ∉ D' -> 0 < pending D' (deps_in stages s)).
Proof.
  intros Hnd. induction fuel as [|fuel IH]; intros deg q D processed batches HK HB -> Hf.
  { assert (size D <= length (pg_Name <$> stages))%nat; [|rewrite length_fmap in *; lia].
    rewrite <- (size_list_to_set (C:=gset string)) by done. apply subseteq_size.
    intros s Hs%(ki_range _ _ _ _ HK). by apply elem_of_list_to_set. }
  destruct q as [|n q]; cbn [kahn].
  { exists D, batches. split_and!; [done|done|apply HK|]. intros s Hs Hni.
    pose proof (pending_nonneg D (deps_in stages s)).
    destruct (decide (pending D (deps_in stages s) = 0)) as [Hz|]; [|lia].
    assert (s ∈ @nil string) by (apply (ki_queue _ _ _ _ HK); auto). set_solver. }
  destruct (foldl (relax stages) (deg, []) (n :: q)) as [deg' next] eqn:E.
  assert (Hdis : (list_to_set (n :: q) : gset string) ## D).
  { intros s Hs%elem_of_list_to_set Hs'. by apply (ki_queue _ _ _ _ HK) in Hs as (_ & ? & _). }
  assert (Hsz : size (list_to_set (n :: q) ∪ D) = (length (n :: q) + size D)%nat).
  { rewrite size_union by done. rewrite size_list_to_set by apply HK. done. }
  apply (IH _ _ (list_to_set (n :: q) ∪ D)); [by eapply kahn_inv_next|by eapply batched_snoc| |].
  - rewrite Hsz. lia.
  - rewrite Hsz. cbn [length]. lia.
Qed.

Lemma count_deps_spec deg g s : deg !! pg_Name g = None ->
  degree_of (count_deps deg g) s = (if decide (s = pg_Name g) then Z.of_nat (length (pg_DependsOn g)) else degree_of deg s).
Proof.
  intros Hn. unfold count_deps. rewrite Hn.
  assert (H : forall ds deg, degree_of (foldl (fun deg (_ : string) => <[pg_Name g := degree_of deg (pg_Name g) + 1]> deg) deg ds) s
    = degree_of deg s + (if decide (s = pg_Name g) then Z.of_nat (length ds) else 0)).
  { induction ds as [|d ds IH]; intros deg0; cbn [foldl length].
    - destruct (decide _); lia.
    - rewrite IH, degree_insert. destruct (decide (s = pg_Name g)) as [->|]; lia. }
  rewrite H, degree_insert. destruct (decide (s = pg_Name g)); lia.
Qed.
Lemma count_deps_dom deg g : dom (count_deps deg g) = {[pg_Name g]} ∪ dom deg.
Proof.
  unfold count_deps.
  assert (H : forall ds (deg : degrees), pg_Name g ∈ dom deg ->
    dom (foldl (fun deg (_ : string) => <[pg_Name g := degree_of deg (pg_Name g) + 1]> deg) deg ds) = dom deg).
  { induction ds as [|d ds IH]; intros deg0 Hg; cbn [foldl]; [done|].
    rewrite IH by (rewrite dom_insert_L; set_solver). rewrite dom_insert_L. set_solver. }
  destruct (deg !! pg_Name g) eqn:E.
  - assert (pg_Name g ∈ dom deg) by (apply elem_of_dom; eauto). rewrite H by done. set_solver.
  - rewrite H by (rewrite dom_insert_L; set_solver). by rewrite dom_insert_L.
Qed.

Lemma inDegrees_spec p : NoDup (names p) ->
  dom (inDegrees p) = list_to_set (names p) /\
  forall s, degree_of (inDegrees p) s = pending ∅ (deps_in (pl_Stages p) s).
Proof.
  unfold inDegrees, names. intros Hnd.
  assert (H : forall stages (deg : degrees), NoDup (pg_Name <$> stages) ->
    (forall g, g ∈ stages -> deg !! pg_Name g = None) ->
    dom (foldl count_deps deg stages) = dom deg ∪ list_to_set (pg_Name <$> stages) /\
    forall s, degree_of (foldl count_deps deg stages) s =
      if decide (s ∈ (pg_Name <$> stages)) then Z.of_nat (length (deps_in stages s)) else degree_of deg s).
  { induction stages as [|g stages IH]; intros deg Hn Hd; cbn [foldl]; [split; [set_solver|done]|].
    rewrite fmap_cons in Hn. apply NoDup_cons in Hn as [Hni Hn].
    assert (Hg : deg !! pg_Name g = None) by (apply Hd; set_solver).
    destruct (IH (count_deps deg g)) as [H1 H2]; [done| |].
    { intros g' Hg'. apply not_elem_of_dom. rewrite count_deps_dom.
      assert (pg_Name g' ∉ dom deg) by (apply not_elem_of_dom, Hd; set_solver).
      assert (pg_Name g' <> pg_Name g); [|set_solver].
      intros E. apply Hni. rewrite <- E. by apply list_elem_of_fmap_2. }
    split; [rewrite H1, count_deps_dom; rewrite fmap_cons; set_solver|].
    intros s. rewrite H2, count_deps_spec, deps_in_cons by done. rewrite fmap_cons.
    destruct (decide (s ∈ (pg_Name <$> stages))) as [Hs|Hs].
    - rewrite (decide_True (P:=s ∈ pg_Name g :: (pg_Name <$> stages))) by set_solver.
      rewrite (decide_False (P:=pg_Name g = s)); [done|]. intros <-. done.
    - destruct (decide (s = pg_Name g)) as [->|Hne].
      + rewrite (decide_True (P:=pg_Name g ∈ pg_Name g :: _)) by set_solver. by rewrite decide_True.
      + rewrite (decide_False (P:=s ∈ pg_Name g :: _)) by set_solver. done. }
  destruct (H (pl_Stages p) ∅ Hnd) as [H1 H2]; [done|]. split; [rewrite H1, dom_empty_L; set_solver|].
  intros s. rewrite H2. assert (forall ds, pending ∅ ds = Z.of_nat (length ds)) as ->.
  { induction ds as [|d ds IHd]; [done|]. rewrite pending_cons, decide_False by set_solver. cbn [length]. lia. }
  destruct (decide _) as [|Hs]; [done|]. by rewrite deps_in_out.
Qed.

Lemma deps_in_stage p g : NoDup (names p) -> g ∈ pl_Stages p -> deps_in (pl_Stages p) (pg_Name g) = pg_DependsOn g.
Proof.
  unfold names. induction (pl_Stages p) as [|h l IH]; intros Hnd Hg; [by apply elem_of_nil in Hg|].
  rewrite fmap_cons in Hnd. apply NoDup_cons in Hnd as [Hni Hnd]. rewrite deps_in_cons.
  apply elem_of_cons in Hg as [->|Hg]; [by rewrite decide_True|].
  rewrite decide_False; [by apply IH|]. intros E. apply Hni. rewrite E. by apply list_elem_of_fmap_2.
Qed.

Definition range_law (order : degrees -> list string) : Prop := forall deg, order deg ≡ₚ (map_to_list deg).*1.

Lemma resolveDAG_batched order p : NoDup (names p) -> range_law order ->
  exists D batches, batched (pl_Stages p) batches D /\ (forall s, s ∈ D -> s ∈ names p) /\
    (forall s, s ∈ names p -> s ∉ D -> 0 < pending D (deps_in (pl_Stages p) s)) /\
    resolveDAG order p = if (size D =? length (pl_Stages p))%nat then Ok batches
                         else Err "circular dependency detected in pipeline stages".
Proof.
  intros Hnd Hord. destruct (inDegrees_spec p Hnd) as [Hdom Hdeg]. unfold resolveDAG.
  unfold range_law in Hord. set (q := filter _ _).
  assert (HK : kahn_inv (pl_Stages p) (inDegrees p) q ∅).
  { split; [done| | |set_solver|set_solver].
    - apply NoDup_filter. rewrite Hord. apply NoDup_fst_map_to_list.
    - intros s. unfold q. rewrite list_elem_of_filter, Hdeg, Hord.
      assert (s ∈ (map_to_list (inDegrees p)).*1 <-> s ∈ names p) as ->.
      { rewrite <- (elem_of_list_to_set (C:=gset string) s (names p)), <- Hdom, elem_of_dom, list_elem_of_fmap. split.
        - intros ([k v] & -> & H%elem_of_map_to_list). eauto.
        - intros [v H]. exists (s, v). by rewrite elem_of_map_to_list. }
      set_solver. }
  destruct (kahn_spec (pl_Stages p) (S (length (pl_Stages p))) Hnd (inDegrees p) q ∅ 0 [] HK)
    as (D & batches & -> & HB & Hr & Hp).
  { split; [constructor|set_solver|]. intros k b s d Hk. done. } { done. } { rewrite size_empty. lia. }
  exists D, batches. split_and!; [done..|].
  destruct (Nat.eqb_spec (size D) (length (pl_Stages p))); destruct (Z.eqb_spec (Z.of_nat (size D)) (Z.of_nat (length (pl_Stages p)))); done || lia.
Qed.

Lemma full_names p (D : gset string) : NoDup (names p) -> (forall s, s ∈ D -> s ∈ names p) ->
  size D = length (pl_Stages p) <-> forall s, s ∈ names p -> s ∈ D.
Proof.
  intros Hnd Hsub. assert (length (pl_Stages p) = size (list_to_set (names p) : gset string)) as ->.
  { rewrite size_list_to_set by done. unfold names. by rewrite length_fmap. }
  split.
  - intros E s Hs. assert (D = list_to_set (names p)) as ->; [|by apply elem_of_list_to_set].
    apply set_eq. intros x. split; [intros Hx%Hsub; by apply elem_of_list_to_set|].
    intros Hx. assert (D ⊆ list_to_set (names p)) as Hs' by (intros y Hy%Hsub; by apply elem_of_list_to_set).
    destruct (decide (x ∈ D)) as [|Hni]; [done|]. exfalso.
    assert (D ⊂ list_to_set (names p)) as Hlt%subset_size by set_solver. lia.
  - intros H. f_equal. apply set_eq. intros x. rewrite elem_of_list_to_set. naive_solver.
Qed.

(** ** Batches *)

Definition in_batches (batches : list (list string)) (p : Pipeline) : Prop :=
  forall k b g d, batches !! k = Some b -> g ∈ pl_Stages p -> pg_Name g ∈ b -> d ∈ pg_DependsOn g ->
    exists j c, (j < k)%nat /\ batches !! j = Some c /\ d ∈ c.

Lemma check_pipeline_names order p batches : check_pipeline order p = Ok batches ->
  NoDup (names p) /\ (forall g d, g ∈ pl_Stages p -> d ∈ pg_DependsOn g -> d ∈ names p) /\
  resolveDAG order p = Ok batches.
Proof.
  unfold check_pipeline. intros H. destruct (_ <? _); [done|].
  destruct (duplicate_name ∅ (pl_Stages p)) eqn:Ed; [done|].
  destruct (unknown_dep p) as [[s d]|] eqn:Eu; [done|].
  split_and!.
  - unfold names. assert (forall stages (seen : gset string), duplicate_name seen stages = None ->
      NoDup (pg_Name <$> stages) /\ forall s, s ∈ (pg_Name <$> stages) -> s ∉ seen) as G; [|by destruct (G _ _ Ed)].
    clear. induction stages as [|g stages IH]; intros seen Hd; [split; [constructor|set_solver]|].
    cbn [duplicate_name] in Hd. destruct (decide (pg_Name g ∈ seen)); [done|].
    destruct (IH _ Hd) as [H1 H2]. rewrite fmap_cons. split; [constructor; [|done]|set_solver].
    intros Hg%H2. set_solver.
  - intros g d Hg Hd. destruct (decide (d ∈ names p)) as [|Hni]; [done|]. exfalso.
    unfold unknown_dep in Eu. assert ((pg_Name g, d) ∈ (s ← pl_Stages p; d ← filter (fun d => d ∉ names p) (pg_DependsOn s); [(pg_Name s, d)])) as Hin.
    { apply list_elem_of_bind. exists g. split; [|done]. apply list_elem_of_bind. exists d.
      split; [by apply list_elem_of_singleton|]. by apply list_elem_of_filter. }
    destruct (mbind _ _); [by apply elem_of_nil in Hin|done].
  - destruct (resolveDAG order p); cbn in H; by simplify_eq.
Qed.

Lemma check_pipeline_batches order p batches : range_law order -> check_pipeline order p = Ok batches ->
  NoDup (mjoin batches) /\ (forall s, s ∈ mjoin batches <-> s ∈ names p) /\ in_batches batches p.
Proof.
  intros Hord H. destruct (check_pipeline_names _ _ _ H) as (Hnd & Hk & Hr).
  destruct (resolveDAG_batched order p Hnd Hord) as (D & bs & HB & Hsub & _ & E).
  rewrite Hr in E. destruct (Nat.eqb_spec (size D) (length (pl_Stages p))) as [Hsz|]; simplify_eq.
  split_and!; [apply HB| |].
  - intros s. rewrite (bd_elems _ _ _ HB). split; [apply Hsub|by apply full_names].
  - intros k b g d Hk' Hg Hs Hd. eapply (bd_after _ _ _ HB); [done..|]. by rewrite deps_in_stage.
Qed.

Section run.
Context {W : Type} (env : Env W) (store : Store W) (Sleep : Z -> M W unit) (ctx : Ctx) (p : Pipeline).

Definition first_state (b : batch) (ns : list string) : batch :=
  mkBatch ns [] [] (bt_remaining b) (bt_completed b) (bt_results b) [].

(** The states of a run: [k] batches are behind it. *)
Inductive reached (batches : list (list string)) (w0 : W) : nat -> batch * W -> Prop :=
| reached_start ns : batches !! 0%nat = Some ns ->
    reached batches w0 0 (first_state (start_batch p) ns, w0)
| reached_step k c c' : reached batches w0 k c -> batch_step env store Sleep ctx p c c' -> reached batches w0 k c'
| reached_next k b w ns : reached batches w0 k (b, w) -> batch_done b -> bt_errors b = [] ->
    batches !! S k = Some ns -> reached batches w0 (S k) (first_state b ns, w).

Definition open_names (b : batch) : list string :=
  (bt_todo b ++ (pg_Name <$> (bt_waiting b).*1) ++ (pg_Name <$> (bt_executing b).*1))%list.

(** Where the stages of a batch are: still open, or with a result, like those
    of the batches before. *)
Record batch_inv (done batch_names : list string) (b : batch) : Prop := {
  bi_nodup : NoDup (open_names b);
  bi_open : forall s, s ∈ open_names b -> s ∈ batch_names;
  bi_results : forall s, s ∈ dom (bt_results b) <-> s ∈ done \/ (s ∈ batch_names /\ s ∉ open_names b);
  bi_stages : forall g, g ∈ ((bt_waiting b).*1 ++ (bt_executing b).*1)%list -> g ∈ pl_Stages p;
  bi_remaining : forall n g, bt_remaining b !! n = Some g -> g ∈ pl_Stages p /\ pg_Name g = n;
  bi_kept : forall g, g ∈ pl_Stages p -> pg_Name g ∉ dom (bt_results b) -> bt_remaining b !! pg_Name g = Some g;
  bi_slots : Z.of_nat (length (bt_executing b)) <= stage_concurrency p
}.

Lemma stage_concurrency_range : 1 <= stage_concurrency p <= 50.
Proof. unfold stage_concurrency, MaxPipelineConcurrency. repeat case_match; lia. Qed.

(** The open names of a batch in which a stage moved on. *)
Lemma batch_inv_move done bn b b' :
  batch_inv done bn b -> open_names b' ≡ₚ open_names b ->
  bt_remaining b' = bt_remaining b -> bt_results b' = bt_results b ->
  (forall g, g ∈ ((bt_waiting b').*1 ++ (bt_executing b').*1)%list -> g ∈ pl_Stages p) ->
  Z.of_nat (length (bt_executing b')) <= stage_concurrency p -> batch_inv done bn b'.
Proof.
  intros [H1 H2 H3 H4 H5 H6 H7] Ho Hr Hs Hg Hn.
  split; rewrite ?Hr, ?Hs; try done; [by rewrite Ho|intros s; rewrite Ho; apply H2|].
  intros s. rewrite H3. by setoid_rewrite Ho.
Qed.
(** ... and of one in which a stage got its result. *)
Lemma batch_inv_settle done bn b b' n sr :
  batch_inv done bn b -> n ∈ bn -> n ∉ done -> open_names b ≡ₚ n :: open_names b' ->
  bt_results b' = <[n := sr]> (bt_results b) ->
  (forall m, m <> n -> bt_remaining b' !! m = bt_remaining b !! m) ->
  (forall g, bt_remaining b' !! n = Some g -> bt_remaining b !! n = Some g) ->
  (forall g, g ∈ ((bt_waiting b').*1 ++ (bt_executing b').*1)%list -> g ∈ pl_Stages p) ->
  Z.of_nat (length (bt_executing b')) <= stage_concurrency p -> batch_inv done bn b'.
Proof.
  intros [H1 H2 H3 H4 H5 H6 H7] Hn Hnd Ho Hs Hr Hr' Hg Hlen.
  rewrite Ho in H1. apply NoDup_cons in H1 as [Hni H1]. split; [done| | |done| | |done].
  - intros s Hin. apply H2. rewrite Ho. set_solver.
  - intros s. rewrite Hs, dom_insert_L, elem_of_union, elem_of_singleton, H3. rewrite Ho.
    destruct (decide (s = n)) as [->|]; [naive_solver|]. rewrite not_elem_of_cons. naive_solver.
  - intros m g E. destruct (decide (m = n)) as [->|]; [by apply H5, Hr'|]. apply H5. by rewrite <- Hr.
  - intros g Hg' Hd. rewrite Hs, dom_insert_L in Hd. rewrite Hr by set_solver. apply H6; set_solver.
Qed.

Lemma batch_inv_step done bn c c' :
  (forall n, n ∈ bn -> (n ∉ done) /\ n ∈ names p) -> batch_inv done bn c.1 ->
  batch_step env store Sleep ctx p c c' -> batch_inv done bn c'.1.
Proof.
  intros Hbn HI Hs. destruct Hs as [b w name rest Ht|b w s l1 l2 Hw Hlt|b w s input l1 l2 w' sr err He _]; cbn in *.
  - assert (Hop : open_names b = name :: open_names (mkBatch rest (bt_waiting b) (bt_executing b) (bt_remaining b) (bt_completed b) (bt_results b) (bt_errors b)))
      by (unfold open_names; by rewrite Ht).
    assert (Hin : name ∈ open_names b) by (rewrite Hop; set_solver).
    pose proof (bi_open _ _ _ HI _ Hin) as Hb. destruct (Hbn _ Hb) as [Hnd Hnm].
    assert (Hnr : name ∉ dom (bt_results b)) by (rewrite (bi_results _ _ _ HI); naive_solver).
    unfold names in Hnm. apply list_elem_of_fmap in Hnm as (g & -> & Hg).
    pose proof (bi_kept _ _ _ HI _ Hg Hnr) as Hrem. unfold launch. rewrite Hrem.
    destruct (skipped env g (bt_completed b)).
    + eapply (batch_inv_settle done bn b _ (pg_Name g)); [done|done|done|by rewrite Hop|done| | | |]; cbn.
      * intros m Hm. by rewrite lookup_delete_ne.
      * by rewrite lookup_delete_eq.
      * apply HI.
      * apply HI.
    + eapply (batch_inv_move done bn b); [done| |done|done| |]; cbn.
      * rewrite Hop. unfold open_names. cbn [bt_todo bt_waiting bt_executing]. rewrite !fmap_app. cbn.
        rewrite <- (assoc_L (++)%list). cbn. by rewrite (assoc_L (++)%list), <- Permutation_middle, <- (assoc_L (++)%list).
      * intros h Hh. rewrite fmap_app in Hh. cbn in Hh.
        pose proof (bi_stages _ _ _ HI h) as Hst. set_solver.
      * apply HI.
  - eapply (batch_inv_move done bn b); [done| |done|done| |]; cbn.
    + unfold open_names. cbn [bt_todo bt_waiting bt_executing]. rewrite Hw, !fmap_app, !fmap_cons. cbn [fmap list_fmap fst].
      solve_Permutation.
    + intros h Hh. pose proof (bi_stages _ _ _ HI h) as Hst. rewrite Hw in Hst.
      rewrite !fmap_app, ?fmap_cons in Hh. rewrite !fmap_app, fmap_cons in Hst. cbn in *. set_solver.
    + rewrite length_app. cbn [length]. lia.
  - assert (Hop : open_names b ≡ₚ pg_Name s :: open_names (deliver s sr err (l1 ++ l2)%list b)).
    { unfold open_names, deliver. cbn [bt_todo bt_waiting bt_executing]. rewrite He, !fmap_app, !fmap_cons. cbn.
      rewrite !(assoc_L (++)%list). by rewrite <- Permutation_middle. }
    assert (Hin : pg_Name s ∈ open_names b) by (rewrite Hop; set_solver).
    pose proof (bi_open _ _ _ HI _ Hin) as Hb. destruct (Hbn _ Hb) as [Hnd _].
    eapply (batch_inv_settle done bn b _ (pg_Name s)); [done|done|done|exact Hop|done|done|done| |]; cbn.
    + intros h Hh. pose proof (bi_stages _ _ _ HI h) as Hst. rewrite He in Hst.
      rewrite !fmap_app in Hh. rewrite !fmap_app, fmap_cons in Hst. cbn in *. set_solver.
    + pose proof (bi_slots _ _ _ HI) as Hl. rewrite He, length_app in Hl. rewrite length_app. cbn [length] in Hl. lia.
Qed.

Lemma reached_inv order batches w0 k c : range_law order -> check_pipeline order p = Ok batches ->
  reached batches w0 k c ->
  exists bn, batches !! k = Some bn /\ batch_inv (mjoin (take k batches)) bn c.1.
Proof.
  intros Hord Hc Hr. destruct (check_pipeline_batches _ _ _ Hord Hc) as (Hnd & Hel & _).
  assert (Hbn : forall k bn, batches !! k = Some bn -> forall n, n ∈ bn -> (n ∉ mjoin (take k batches)) /\ n ∈ names p).
  { intros j bn Hj n Hn. split.
    - rewrite <- (take_drop_middle _ _ _ Hj) in Hnd. rewrite mjoin_app in Hnd. apply NoDup_app in Hnd as (_ & Hd & _).
      intros Hin. apply (Hd n Hin). set_solver.
    - apply Hel, elem_of_mjoin_lookup. eauto. }
  assert (Hnodup : forall k bn, batches !! k = Some bn -> NoDup bn).
  { intros j bn Hj. rewrite <- (take_drop_middle _ _ _ Hj), mjoin_app in Hnd.
    apply NoDup_app in Hnd as (_ & _ & Hd). cbn in Hd. by apply NoDup_app in Hd as (? & _ & _). }
  induction Hr as [ns H0|k c c' _ (bn & Hk & HI) Hs|k b w ns _ (bn & Hk & HI) (Ht & Hw & He) _ HS].
  - exists ns. split; [done|]. rewrite take_0. cbn [mjoin list_join fst].
    assert (Hnames : NoDup (names p)) by (by destruct (check_pipeline_names _ _ _ Hc)).
    split; unfold open_names, first_state, start_batch; cbn; rewrite ?app_nil_r.
    + by eapply Hnodup.
    + done.
    + intros s. rewrite dom_empty_L. set_solver.
    + set_solver.
    + intros n g E. apply elem_of_list_to_map_2 in E. apply list_elem_of_fmap in E as (h & [= -> ->] & Hh). done.
    + intros g Hg _. apply elem_of_list_to_map_1; [by rewrite <- list_fmap_compose|].
      by apply (list_elem_of_fmap_2 (fun s => (pg_Name s, s))).
    + pose proof stage_concurrency_range. lia.
  - exists bn. split; [done|]. by eapply (batch_inv_step _ _ c); [apply Hbn|..].
  - exists ns. split; [done|]. cbn [fst] in *.
    assert (Hop : open_names b = []) by (unfold open_names; by rewrite Ht, Hw, He).
    assert (Hdom : forall s, s ∈ dom (bt_results b) <-> s ∈ mjoin (take (S k) batches)).
    { intros s. rewrite (bi_results _ _ _ HI), Hop. rewrite (take_S_r _ _ _ Hk), mjoin_snoc, elem_of_app.
      rewrite elem_of_nil. naive_solver. }
    split; unfold open_names, first_state; cbn; rewrite ?app_nil_r; try apply HI.
    + by eapply Hnodup.
    + done.
    + intros s. rewrite Hdom. naive_solver.
    + set_solver.
    + pose proof stage_concurrency_range. lia.
Qed.

(** *** Batches end *)

Definition batch_measure (b : batch) : nat :=
  3 * length (bt_todo b) + 2 * length (bt_waiting b) + length (bt_executing b).

Lemma batch_step_measure c c' : batch_step env store Sleep ctx p c c' -> (batch_measure c'.1 < batch_measure c.1)%nat.
Proof.
  intros Hs. unfold batch_measure. destruct Hs as [b w name rest Ht|b w s l1 l2 Hw Hlt|b w s input l1 l2 w' sr err He _]; cbn [fst].
  - rewrite Ht. unfold launch. destruct (bt_remaining b !! name); [destruct (skipped _ _ _)|];
      cbn; rewrite ?length_app; cbn; lia.
  - cbn. rewrite Hw, !length_app. cbn. lia.
  - cbn. rewrite He, !length_app. cbn. lia.
Qed.

Definition no_panic : Prop := forall s input w, s ∈ pl_Stages p ->
  exists w' r, executeStage env store Sleep ctx s input (pl_DefaultTimeout p) w = (w', Ret r).

(** The stages of a batch are the pipeline's. *)
Definition batch_ok (b : batch) : Prop :=
  (forall g, g ∈ ((bt_waiting b).*1 ++ (bt_executing b).*1)%list -> g ∈ pl_Stages p) /\
  (forall n g, bt_remaining b !! n = Some g -> g ∈ pl_Stages p).
Lemma batch_ok_step c c' : batch_ok c.1 -> batch_step env store Sleep ctx p c c' -> batch_ok c'.1.
Proof.
  intros [H1 H2] Hs. destruct Hs as [b w name rest Ht|b w s l1 l2 Hw Hlt|b w s input l1 l2 w' sr err He _]; cbn in *.
  - unfold launch. destruct (bt_remaining b !! name) as [g|] eqn:Eg; [|done].
    destruct (skipped env g (bt_completed b)); (split; cbn; [|done || (intros n h [_ ?]%lookup_delete_Some; eauto)]); [done|].
    apply H2 in Eg. intros h Hh. specialize (H1 h). rewrite fmap_app in Hh. cbn in Hh. set_solver.
  - split; cbn; [|done]. intros h Hh. specialize (H1 h). rewrite Hw in H1.
    rewrite !fmap_app in Hh. rewrite !fmap_app, fmap_cons in H1. cbn in *. set_solver.
  - split; cbn; [|done]. intros h Hh. specialize (H1 h). rewrite He in H1.
    rewrite !fmap_app in Hh. rewrite !fmap_app, fmap_cons in H1. cbn in *. set_solver.
Qed.

(** A batch that is not done can take a step. *)
Lemma batch_progress : no_panic -> forall b w, batch_ok b ->
  batch_done b \/ exists c, batch_step env store Sleep ctx p (b, w) c.
Proof.
  intros Hnp b w Hok. destruct (bt_todo b) as [|n rest] eqn:Et; [|right; eexists; by apply bs_launch].
  destruct (bt_executing b) as [|[s input] l] eqn:Ee.
  - destruct (bt_waiting b) as [|s l] eqn:Ew; [left; by split_and!|right].
    eexists. eapply (bs_acquire _ _ _ _ _ _ _ s [] l); [done|]. rewrite Ee.
    pose proof stage_concurrency_range. cbn. lia.
  - right. destruct (Hnp s input w) as (w' & [sr err] & Hx).
    { apply (proj1 Hok). rewrite Ee. cbn. set_solver. }
    eexists. by eapply (bs_finish _ _ _ _ _ _ _ s input [] l).
Qed.
Lemma batch_finishes : no_panic -> forall b w, batch_ok b ->
  exists b' w', rtc (batch_step env store Sleep ctx p) (b, w) (b', w') /\ batch_done b' /\ batch_ok b'.
Proof.
  intros Hnp b w. remember (batch_measure b) as n eqn:En. revert b w En.
  induction (lt_wf n) as [n _ IH]. intros b w -> Hok.
  destruct (batch_progress Hnp b w Hok) as [Hd|[[b1 w1] Hs]].
  - exists b, w. split; [apply rtc_refl|done].
  - pose proof (batch_step_measure _ _ Hs) as Hm. pose proof (batch_ok_step (b, w) (b1, w1) Hok Hs) as Hok1.
    destruct (IH _ Hm b1 w1 eq_refl Hok1) as (b' & w' & Hr & Hd). exists b', w'. split; [by eapply rtc_l|done].
Qed.
Lemma started_ok names : batch_ok (first_state (start_batch p) names).
Proof.
  split; [by intros g ?%elem_of_nil|]. intros n g H%elem_of_list_to_map_2.
  by apply list_elem_of_fmap in H as (h & [= -> ->] & Hh).
Qed.
Lemma reached_ok all w0 k c : reached all w0 k c -> batch_ok c.1.
Proof.
  induction 1 as [ns Hns|k c c' _ IH Hs|k b w ns _ [_ IH] _ _ _].
  - apply started_ok.
  - by eapply batch_ok_step.
  - split; [by intros g ?%elem_of_nil|exact IH].
Qed.
Lemma run_batches_exists : no_panic -> forall batches c, batch_ok c.1 ->
  exists err c', run_batches env store Sleep ctx p batches c err c'.
Proof.
  intros Hnp. induction batches as [|ns rest IH]; intros [b w] [_ Hok]; [eexists _, _; constructor|].
  destruct (batch_finishes Hnp (mkBatch ns [] [] (bt_remaining b) (bt_completed b) (bt_results b) []) w)
    as (b' & w' & Hr & Hd & Hok'); [split; [by intros g ?%elem_of_nil|done]|].
  destruct (bt_errors b') as [|e es] eqn:Ee.
  - destruct (IH (b', w') Hok') as (err & [b'' w''] & Hx). exists err, (b'', w''). by eapply rb_next.
  - exists (Some e), (b', w'). by eapply rb_error.
Qed.

Lemma reached_rtc all w0 k c c' :
  rtc (batch_step env store Sleep ctx p) c c' -> reached all w0 k c -> reached all w0 k c'.
Proof. induction 1 as [|x y z Hxy _ IH]; [done|]. intros Hx. apply IH. by eapply reached_step. Qed.

(** A run to the end goes through states that are reached, and a run without
    an error ends with a result of every stage. *)
Lemma run_batches_reached all w0 batches c err c' :
  run_batches env store Sleep ctx p batches c err c' -> forall k, batches = drop k all ->
  (forall ns, all !! k = Some ns -> reached all w0 k (first_state c.1 ns, c.2)) -> err = None ->
  batches <> [] -> reached all w0 (pred (length all)) c' /\ batch_done c'.1.
Proof.
  induction 1 as [b w|ns rest b w b' w' e es|ns rest b w b' w' err b'' w'' Hr Hd He Hrun IH]; intros k Hk Hreach Herr Hne.
  - done.
  - done.
  - assert (Hns : all !! k = Some ns) by (rewrite <- (Nat.add_0_r k), <- lookup_drop, <- Hk; done).
    assert (Hrest : rest = drop (S k) all).
    { rewrite <- Nat.add_1_r, <- drop_drop, <- Hk. done. }
    assert (Hb' : reached all w0 k (b', w')).
    { eapply reached_rtc; [exact Hr|]. exact (Hreach ns Hns). }
    destruct rest as [|r rest'].
    + inversion Hrun; subst; (split; [|done]). assert (length all = S k) as ->; [|done].
      assert (length (drop k all) = 1%nat) as Hl by (by rewrite <- Hk). rewrite length_drop in Hl. lia.
    + apply (IH (S k)); [done| |done|done]. intros ns' Hns'. by apply (reached_next all w0 k b' w').
Qed.
End run.

(** *** Expressions of a stage *)

Lemma stage_name_inj a b : "stage." +:+ a +:+ ".output" = "stage." +:+ b +:+ ".output" -> a = b.
Proof. intros H. repeat (injection H as H). by apply string_app_inj_r in H. Qed.

Lemma stage_engine_var completed n :
  variables (stage_engine completed) !! ("stage." +:+ n +:+ ".output") = gr_Output <$> completed !! n.
Proof.
  unfold stage_engine.
  apply (map_fold_weak_ind (fun e (m : gmap string StageResult) =>
    variables e !! ("stage." +:+ n +:+ ".output") = gr_Output <$> m !! n)); [done|].
  intros k sr m e Hk IH. unfold SetVariable. cbn [variables].
  destruct (decide (n = k)) as [->|Hne].
  - by rewrite lookup_insert_eq, (lookup_insert_eq m).
  - rewrite lookup_insert_ne by (intros H%stage_name_inj; done). by rewrite (lookup_insert_ne m).
Qed.

(** ** Properties *)

(** The batches of a pipeline hold each of its stages once, and every stage
    in a later batch than all of its dependencies, whatever the order in
    which Go visits its maps; and a pipeline is refused as circular only when
    no order of its stages respects the dependencies. *)
Theorem resolveDAG_correct order p : NoDup (names p) -> range_law order ->
  (forall g d, g ∈ pl_Stages p -> d ∈ pg_DependsOn g -> d ∈ names p) ->
  match resolveDAG order p with
  | Ok batches => mjoin batches ≡ₚ names p /\ in_batches batches p
  | Err _ => ~ exists rank : string -> nat,
      forall g d, g ∈ pl_Stages p -> d ∈ pg_DependsOn g -> (rank d < rank (pg_Name g))%nat
  end.
Proof.
  intros Hnd Hord Hk. destruct (resolveDAG_batched order p Hnd Hord) as (D & bs & HB & Hsub & Hpend & ->).
  destruct (Nat.eqb_spec (size D) (length (pl_Stages p))) as [Hsz|Hsz].
  - split.
    + apply NoDup_Permutation; [apply HB|done|]. intros s. rewrite (bd_elems _ _ _ HB).
      split; [apply Hsub|by apply full_names].
    + intros k b g d Hb Hg Hs Hd. eapply (bd_after _ _ _ HB); [done..|]. by rewrite deps_in_stage.
  - intros [rank Hrank]. apply Hsz, full_names; [done|done|]. intros s.
    remember (rank s) as r eqn:Er. revert s Er. induction (lt_wf r) as [r _ IH]. intros s -> Hs.
    destruct (decide (s ∈ D)) as [|Hni]; [done|]. exfalso. specialize (Hpend s Hs Hni).
    unfold names in Hs. apply list_elem_of_fmap in Hs as (g & -> & Hg). rewrite deps_in_stage in Hpend by done.
    assert (pending D (pg_DependsOn g) = 0); [|lia]. apply pending_zero. intros d Hd.
    by apply (IH (rank d)); [apply Hrank| |apply (Hk g)].
Qed.
Definition two_stages (deps_a deps_b : list string) : Pipeline :=
  let wf := mkWorkflow "w" "" ∅ [] "" [] 0 None in
  mkPipeline "p" [mkStage "a" wf deps_a "" "" "" 0 "" ""; mkStage "b" wf deps_b "" "" "" 0 "" ""] "" 0.
Lemma resolveDAG_correct_witness :
  resolveDAG (fun deg => (map_to_list deg).*1) (two_stages [] ["a"]) = Ok [["a"]; ["b"]] /\
  in_batches [["a"]; ["b"]] (two_stages [] ["a"]) /\
  ~ exists rank : string -> nat, forall g d, g ∈ pl_Stages (two_stages ["b"] ["a"]) ->
      d ∈ pg_DependsOn g -> (rank d < rank (pg_Name g))%nat.
Proof.
  split; [vm_compute; reflexivity|]. split.
  - refine (proj2 (resolveDAG_correct (fun deg => (map_to_list deg).*1) (two_stages [] ["a"]) _ _ _)).
    + apply (bool_decide_unpack _). vm_compute. exact Logic.I.
    + intros deg. reflexivity.
    + intros g d [->|[->|?%elem_of_nil]%elem_of_cons]%elem_of_cons Hd; cbn in *; set_solver.
  - refine (resolveDAG_correct (fun deg => (map_to_list deg).*1) (two_stages ["b"] ["a"]) _ _ _).
    + apply (bool_decide_unpack _). vm_compute. exact Logic.I.
    + intros deg. reflexivity.
    + intros g d [->|[->|?%elem_of_nil]%elem_of_cons]%elem_of_cons Hd; cbn in *; set_solver.
Defined.

(** C18: In every interleaving of the launching loop with the goroutines of the
    stages, a stage that waits for a slot or holds one has no result yet and
    all of its dependencies have theirs, no stage is there twice, and no more
    of them execute than the pipeline's concurrency, at most 50. *)
Theorem pipeline_order {W} (env : Env W) (store : Store W) (Sleep : Z -> M W unit) (ctx : Ctx)
    (p : Pipeline) order batches w0 k b w :
  range_law order -> check_pipeline order p = Ok batches ->
  reached env store Sleep ctx p batches w0 k (b, w) ->
  let running := ((bt_waiting b).*1 ++ (bt_executing b).*1)%list in
  NoDup (pg_Name <$> running) /\
  (forall g, g ∈ running -> g ∈ pl_Stages p /\ (pg_Name g ∉ dom (bt_results b)) /\
     forall d, d ∈ pg_DependsOn g -> d ∈ dom (bt_results b)) /\
  Z.of_nat (length (bt_executing b)) <= stage_concurrency p <= 50.
Proof.
  intros Hord Hc Hr running. destruct (reached_inv env store Sleep ctx p order batches w0 k _ Hord Hc Hr) as (bn & Hk & HI).
  destruct (check_pipeline_batches _ _ _ Hord Hc) as (Hnd & Hel & Hin). cbn [fst] in HI.
  pose proof (bi_nodup _ _ _ _ HI) as Hn. unfold open_names in Hn. rewrite <- fmap_app in Hn.
  apply NoDup_app in Hn as (_ & _ & Hn). split; [done|]. split.
  2: { split; [apply HI|apply stage_concurrency_range]. }
  intros g Hg. pose proof (bi_stages _ _ _ _ HI g Hg) as Hst.
  assert (Hop : pg_Name g ∈ open_names b).
  { unfold open_names. rewrite <- fmap_app. apply elem_of_app. right. by apply list_elem_of_fmap_2. }
  pose proof (bi_open _ _ _ _ HI _ Hop) as Hbn. split; [done|]. split.
  - rewrite (bi_results _ _ _ _ HI). intros [Hd|[_ Hd]]; [|done].
    rewrite <- (take_drop_middle _ _ _ Hk), mjoin_app in Hnd. apply NoDup_app in Hnd as (_ & Hdis & _).
    apply (Hdis _ Hd). set_solver.
  - intros d Hd. rewrite (bi_results _ _ _ _ HI). left.
    destruct (Hin k bn g d Hk Hst Hbn Hd) as (j & c & Hj & Hcj & Hdc).
    apply elem_of_mjoin_lookup. exists j, c. split; [|done]. by rewrite lookup_take_lt.
Qed.

Definition calm : Env nat := quiet_env empty_host (fun _ => None).
Definition chained : Pipeline := two_stages [] ["a"].
Definition launched : batch :=
  launch calm (first_state (start_batch chained) ["a"]) "a" [].
Lemma pipeline_order_witness :
  (pg_Name <$> ((bt_waiting launched).*1 ++ (bt_executing launched).*1)%list) = ["a"] /\
  Z.of_nat (length (bt_executing launched)) <= stage_concurrency chained <= 50.
Proof.
  split; [vm_compute; reflexivity|].
  refine (proj2 (proj2 (pipeline_order calm no_files (fun _ => mret tt) Background chained
    (fun deg => (map_to_list deg).*1) [["a"]; ["b"]] 0%nat 0 launched 0%nat _ _ _))).
  - intros deg. reflexivity.
  - vm_compute. reflexivity.
  - eapply reached_step; [apply (reached_start _ _ _ _ _ _ _ ["a"]); reflexivity|].
    apply bs_launch. reflexivity.
Defined.

(** C32: Unless a workflow panics or does not return, a pipeline comes to a
    result, whatever its stages return, and no interleaving is stuck: in every
    state that its goroutines reach the batch is done or some goroutine can
    take a step, each step takes a stage closer to its result, so that from
    there the batch comes to its end, and without an error of a stage all
    later batches too. *)
Theorem pipeline_finishes {W} (env : Env W) (store : Store W) (Sleep : Z -> M W unit) (ctx : Ctx)
    (p : Pipeline) order w :
  no_panic env store Sleep ctx p ->
  (exists res w', pipeline_Execute env store Sleep ctx p order w res w') /\
  (forall batches k b w', check_pipeline order p = Ok batches -> reached env store Sleep ctx p batches w k (b, w') ->
     (batch_done b \/ exists c, batch_step env store Sleep ctx p (b, w') c) /\
  exists b1 w1, rtc (batch_step env store Sleep ctx p) (b, w') (b1, w1) /\ batch_done b1 /\
  (bt_errors b1 <> [] \/
        exists err c, run_batches env store Sleep ctx p (drop (S k) batches) (b1, w1) err c)) /\
  forall c c', batch_step env store Sleep ctx p c c' -> (batch_measure c'.1 < batch_measure c.1)%nat.
Proof.
  intros Hnp. split_and!; [| |apply batch_step_measure].
  - destruct (check_pipeline order p) as [batches|e] eqn:E; [|eexists _, _; by apply pe_refused].
    destruct (run_batches_exists env store Sleep ctx p Hnp batches (start_batch p, w)) as (err & [b w'] & Hr).
    { apply (started_ok p []). }
    eexists _, _. by eapply pe_ran.
  - intros batches k b w' _ Hr%reached_ok. split; [by apply batch_progress|].
    destruct (batch_finishes env store Sleep ctx p Hnp b w' Hr) as (b1 & w1 & H1 & Hd & Hok).
    exists b1, w1. split_and!; [done|apply Hd..|]. right. by apply run_batches_exists.
Qed.
Lemma pipeline_finishes_witness : exists res w',
  pipeline_Execute calm no_files (fun _ => mret tt) Background chained (fun deg => (map_to_list deg).*1) 0%nat res w'.
Proof.
  refine (proj1 (pipeline_finishes calm no_files (fun _ => mret tt) Background chained (fun deg => (map_to_list deg).*1) 0%nat _)).
  intros s input w [->|[->|?%elem_of_nil]%elem_of_cons]%elem_of_cons; [eexists _, _; vm_compute; reflexivity..|done].
Defined.

(** A pipeline that ends without an error has a result of every stage: its
    workflow was run, or its condition skipped it. *)
Theorem pipeline_complete {W} (env : Env W) (store : Store W) (Sleep : Z -> M W unit) (ctx : Ctx)
    (p : Pipeline) order w res w' :
  range_law order -> pipeline_Execute env store Sleep ctx p order w (Ok res) w' -> pr_Success res = true ->
  forall n, n ∈ dom (pr_StageResults res) <-> n ∈ names p.
Proof.
  intros Hord H Hs n. inversion H as [|? batches err b ? Hc Hrun]; subst.
  cbn [pr_Success pr_StageResults] in *. apply bool_decide_eq_true in Hs as ->.
  destruct (check_pipeline_batches _ _ _ Hord Hc) as (_ & Hel & _). rewrite <- Hel.
  destruct (decide (batches = [])) as [->|Hne].
  { inversion Hrun; subst. cbn. rewrite dom_empty_L. set_solver. }
  destruct (run_batches_reached env store Sleep ctx p batches w _ _ _ _ Hrun 0) as [Hr (Ht & Hw & He)]; [done| |done|done|].
  { intros ns Hns. by apply reached_start. }
  destruct (reached_inv env store Sleep ctx p order batches w _ _ Hord Hc Hr) as (bn & Hk & HI).
  cbn [fst] in *. rewrite (bi_results _ _ _ _ HI).
  assert (open_names b = []) as -> by (unfold open_names; by rewrite Ht, Hw, He).
  assert (mjoin batches = (mjoin (take (pred (length batches)) batches) ++ bn)%list) as ->.
  { rewrite <- (take_drop_middle _ _ _ Hk) at 1. rewrite drop_ge by lia. by rewrite mjoin_snoc. }
  rewrite elem_of_app, elem_of_nil. naive_solver.
Qed.
Definition lone_stage : PipelineStage :=
  mkStage "a" (mkWorkflow "w" "" ∅ [] "" [] 0 None) [] "" "" "continue" 0 "" "".
Definition single : Pipeline := mkPipeline "p" [lone_stage] "" 0.
Lemma pipeline_complete_witness : exists res w',
  pipeline_Execute calm no_files (fun _ => mret tt) Background single (fun deg => (map_to_list deg).*1) 0%nat (Ok res) w' /\
  forall n, n ∈ dom (pr_StageResults res) <-> n ∈ names single.
Proof.
  assert (exists res w', pipeline_Execute calm no_files (fun _ => mret tt) Background single
    (fun deg => (map_to_list deg).*1) 0%nat (Ok res) w' /\ pr_Success res = true) as (res & w' & Hx & Hs).
  { eexists _, _. split.
    - eapply pe_ran; [vm_compute; reflexivity|]. eapply rb_next; [| | |apply rb_nil].
      + eapply rtc_l; [eapply bs_launch; reflexivity|].
        eapply rtc_l; [eapply (bs_acquire _ _ _ _ _ _ _ (lone_stage, "") [] []); [reflexivity|vm_compute; reflexivity]|].
        eapply rtc_l; [eapply (bs_finish _ _ _ _ _ _ _ lone_stage "" [] []); [reflexivity|vm_compute; reflexivity]|].
        apply rtc_refl.
      + vm_compute. repeat split.
      + vm_compute. reflexivity.
    - reflexivity. }
  exists res, w'. split; [exact Hx|].
  refine (pipeline_complete calm no_files (fun _ => mret tt) Background single _ _ _ _ _ Hx Hs).
  intros deg. reflexivity.
Defined.

(** A stage whose condition is written as the documentation shows,
    comparing {{stage.validate.output}} with 'pass', is never skipped: the expression engine does
    not know the prefix, the text is no condition, and a condition that
    cannot be evaluated lets the stage run. *)
Theorem documented_condition_ignored {W} (env : Env W) (s : PipelineStage) (completed : gmap string StageResult) :
  pg_Condition s = "{{stage.validate.output}} == 'pass'" -> skipped env s completed = false.
Proof. intros H. unfold skipped. rewrite H. vm_compute. reflexivity. Qed.
