(* ===== verification/NetGuard.v ===== *)
(** * Outbound addresses: SSRF protection
    (src/internal/httpclient/client.go, and the URL and IP validators of
    src/internal/nodes/core/security.go)

    A [net.IP] is the list of its 4 or 16 bytes; the classes of addresses are
    those of Go's [net] package.  Parsing URLs and IP texts, the resolver and
    the dialer are parameters: the theorems hold for any of them. *)

From S2P Require Import Prelude GoStrings GoText.
From Stdlib Require Import Ascii.

#[local] Open Scope string_scope.
#[local] Open Scope Z_scope.

(** ** Definitions *)

Abbreviation IP := (list Z).
Definition byte_at (ip : IP) (i : nat) : Z := nth i ip 0.

Definition To4 (ip : IP) : option IP :=
  if (length ip =? 4)%nat then Some ip
  else if ((length ip =? 16)%nat && forallb (Z.eqb 0) (firstn 10 ip) &&
           (byte_at ip 10 =? 255) && (byte_at ip 11 =? 255))
  then Some (skipn 12 ip) else None.

Definition IPv6loopback : IP := [0;0;0;0;0;0;0;0;0;0;0;0;0;0;0;1].
Definition IPv6unspecified : IP := [0;0;0;0;0;0;0;0;0;0;0;0;0;0;0;0].

Definition IsLoopback (ip : IP) : bool :=
  match To4 ip with
  | Some v4 => byte_at v4 0 =? 127
  | None => bool_decide (ip = IPv6loopback)
  end.
Definition IsPrivate (ip : IP) : bool :=
  match To4 ip with
  | Some v4 => (byte_at v4 0 =? 10) ||
      ((byte_at v4 0 =? 172) && (Z.land (byte_at v4 1) 240 =? 16)) ||
      ((byte_at v4 0 =? 192) && (byte_at v4 1 =? 168))
  | None => (length ip =? 16)%nat && (Z.land (byte_at ip 0) 254 =? 252)
  end.
Definition IsLinkLocalUnicast (ip : IP) : bool :=
  match To4 ip with
  | Some v4 => (byte_at v4 0 =? 169) && (byte_at v4 1 =? 254)
  | None => (length ip =? 16)%nat && (byte_at ip 0 =? 254) && (Z.land (byte_at ip 1) 192 =? 128)
  end.
Definition IsLinkLocalMulticast (ip : IP) : bool :=
  match To4 ip with
  | Some v4 => (byte_at v4 0 =? 224) && (byte_at v4 1 =? 0) && (byte_at v4 2 =? 0)
  | None => (length ip =? 16)%nat && (byte_at ip 0 =? 255) && (Z.land (byte_at ip 1) 15 =? 2)
  end.
Definition IsUnspecified (ip : IP) : bool :=
  match To4 ip with
  | Some v4 => bool_decide (v4 = [0; 0; 0; 0])
  | None => bool_decide (ip = IPv6unspecified)
  end.
Definition IsMulticast (ip : IP) : bool :=
  match To4 ip with
  | Some v4 => Z.land (byte_at v4 0) 240 =? 224
  | None => (length ip =? 16)%nat && (byte_at ip 0 =? 255)
  end.

Definition IsReservedIP (ip : IP) : bool :=
  match To4 ip with
  | None => (length ip =? 16)%nat && (Z.land (byte_at ip 0) 254 =? 252)
  | Some v4 =>
      let a := byte_at v4 0 in let b := byte_at v4 1 in let c := byte_at v4 2 in
      (a =? 0) ||
      ((a =? 169) && (b =? 254)) ||
      ((a =? 192) && (b =? 0) && (c =? 2)) ||
      ((a =? 198) && (b =? 51) && (c =? 100)) ||
      ((a =? 203) && (b =? 0) && (c =? 113)) ||
      ((a =? 100) && (64 <=? b) && (b <=? 127))
  end.

(** Why an address is refused, or [None]. *)
Definition Validator : Type := IP -> string -> option error.

Definition refuse (kind host : string) : option error :=
  Some ("access to " +:+ kind +:+ " address " +:+ host +:+ " is not allowed").

Definition validateNonLoopback : Validator := fun ip host =>
  if IsPrivate ip then refuse "private" host else
  if IsLinkLocalUnicast ip || IsLinkLocalMulticast ip then refuse "link-local" host else
  if IsUnspecified ip then refuse "unspecified" host else
  if IsMulticast ip then refuse "multicast" host else
  if IsReservedIP ip then refuse "reserved" host else None.
Definition ValidatePublic : Validator := fun ip host =>
  if IsLoopback ip then refuse "loopback" host else validateNonLoopback ip host.
Definition ValidateAllowLoopback : Validator := fun ip host =>
  if IsLoopback ip then None else validateNonLoopback ip host.
Definition ValidateAllowAll : Validator := fun _ _ => None.

(** *** nodes/core/security.go *)

Definition ValidateIP : Validator := ValidatePublic.
Definition ValidateLMLEndpointIPAllowLoopback : Validator := fun ip host =>
  if IsLinkLocalUnicast ip || IsLinkLocalMulticast ip then refuse "link-local" host else
  if IsUnspecified ip then refuse "unspecified" host else
  if IsMulticast ip then refuse "multicast" host else
  if IsReservedIP ip then refuse "reserved" host else None.
Definition ValidateLMLEndpointIP : Validator := fun ip host =>
  if IsLoopback ip then None else
  if IsPrivate ip then refuse "private" host else
  if IsLinkLocalUnicast ip || IsLinkLocalMulticast ip then refuse "link-local" host else
  if IsUnspecified ip then refuse "unspecified" host else
  if IsMulticast ip then refuse "multicast" host else
  if IsReservedIP ip then refuse "reserved" host else None.

Record URL := mkURL { u_Scheme : string; u_User : bool; u_Hostname : string }.

(** The operating system as the validators see it at one moment. *)
Record NetEnv := mkNetEnv {
  ne_Parse : string -> result URL;
  ne_ParseIP : string -> option IP;
  ne_lookupIP : string -> result (list IP);
  ne_Getenv : string -> string;
  ne_unicode_lower : string -> string
}.

Definition loopbackAllowed (ne : NetEnv) : bool :=
  let v := ToLower (ne_unicode_lower ne) (TrimSpace (ne_Getenv ne "AFLARE_ALLOW_LOOPBACK")) in
  bool_decide (v = "1" \/ v = "true" \/ v = "yes").

Definition localhostVariants : list string :=
  ["localhost"; "localhost.localdomain"; "ip6-localhost"; "ip6-loopback"].

(** The first address that the validator refuses. *)
Fixpoint first_refused (v : Validator) (ips : list IP) (host : string) : option error :=
  match ips with
  | [] => None
  | ip :: ips => match v ip host with Some e => Some e | None => first_refused v ips host end
  end.
Definition validate_host (ne : NetEnv) (v : Validator) (host : string) : option error :=
  match ne_ParseIP ne host with
  | Some ip => v ip host
  | None =>
      match ne_lookupIP ne host with
      | Err e => Some ("failed to resolve host " +:+ host +:+ ": " +:+ e)
      | Ok ips => first_refused v ips host
      end
  end.
(** The checks of both URL validators before the host. *)
Definition url_host (ne : NetEnv) (rawURL : string) : result string :=
  match ne_Parse ne rawURL with
  | Err e => Err ("invalid URL: " +:+ e)
  | Ok u =>
      if decide (u_Scheme u <> "http" /\ u_Scheme u <> "https")
      then Err ("only http and https URLs are allowed, got: " +:+ u_Scheme u) else
      if u_User u then Err "URLs with userinfo (credentials) are not allowed" else
      if decide (u_Hostname u = "") then Err "URL has no host" else Ok (u_Hostname u)
  end.
Definition ValidateURL (ne : NetEnv) (rawURL : string) : option error :=
  match url_host ne rawURL with
  | Err e => Some e
  | Ok host =>
      if bool_decide (ToLower (ne_unicode_lower ne) host ∈ localhostVariants) && negb (loopbackAllowed ne)
      then Some "access to localhost is not allowed"
      else validate_host ne (if loopbackAllowed ne then ValidateLMLEndpointIP else ValidateIP) host
  end.
Definition ValidateLMLEndpoint (ne : NetEnv) (rawURL : string) : option error :=
  match url_host ne rawURL with
  | Err e => Some e
  | Ok host =>
      if bool_decide (ToLower (ne_unicode_lower ne) host ∈ localhostVariants) then None
      else validate_host ne ValidateLMLEndpointIP host
  end.
(** [via] is the number of requests before. *)
Definition HTTPRedirectValidator (validator : string -> option error) (url : string) (via : nat) : option error :=
  if (10 <=? via)%nat then Some "too many redirects" else validator url.

(** *** The dialer *)

(** [strings.Trim(s, "[]")]. *)
Definition bracket (c : ascii) : bool := bool_decide (c = "["%char \/ c = "]"%char).
Fixpoint trim_left (s : string) : string :=
  match s with String c s' => if bracket c then trim_left s' else s | "" => "" end.
Definition trim_brackets (s : string) : string := string_rev (trim_left (string_rev (trim_left s))).

(** The parsed host of a proxy URL, the resolver, and comparison of host
    names up to case. *)
Record DialEnv := mkDialEnv {
  de_net : NetEnv;
  de_URLHost : string -> option string;
  de_LookupIPAddr : string -> result (list IP);
  de_EqualFold : string -> string -> bool
}.

Fixpoint proxy_from (de : DialEnv) (keys : list string) : string * string :=
  match keys with
  | [] => ("", "")
  | key :: keys =>
      let v := TrimSpace (ne_Getenv (de_net de) key) in
      if decide (v = "") then proxy_from de keys else
      match de_URLHost de v with
      | None => proxy_from de keys
      | Some h => if decide (h = "") then proxy_from de keys else
          match SplitHostPort h with
          | None => (trim_brackets h, "")
          | Some (h', p) => (trim_brackets h', p)
          end
      end
  end.
Definition proxyHostPort (de : DialEnv) : string * string :=
  proxy_from de ["HTTPS_PROXY"; "https_proxy"; "HTTP_PROXY"; "http_proxy"].

(** What a dial connects to: the address text of the proxy or of a host that
    resolved to nothing, or a resolved address. *)
Inductive target := ByName (addr : string) | ByIP (ip : IP) (port : string).

Definition is_proxy (de : DialEnv) (host port : string) : bool :=
  let '(ph, pp) := proxyHostPort de in
  negb (bool_decide (ph = "")) && de_EqualFold de host ph &&
  bool_decide (pp = "" \/ pp = port).
Definition DialContext (de : DialEnv) (validator : Validator) (addr : string) : result target :=
  match SplitHostPort addr with
  | None => Err "missing port in address"
  | Some (host, port) =>
      if is_proxy de host port then Ok (ByName addr) else
      match de_LookupIPAddr de host with
      | Err e => Err e
      | Ok ips =>
          match first_refused validator ips host with
          | Some e => Err e
          | None => match ips with ip :: _ => Ok (ByIP ip port) | [] => Ok (ByName addr) end
          end
      end
  end.
(** The validators of the two shared clients. *)
Definition SafeHTTPClient_validator (ne : NetEnv) : Validator :=
  if loopbackAllowed ne then ValidateLMLEndpointIPAllowLoopback else ValidateIP.
Definition SafeLLMHTTPClient_validator : Validator := ValidateLMLEndpointIPAllowLoopback.

(** ** Address ranges *)

Definition is_byte (b : Z) : Prop := 0 <= b < 256.
Definition well_formed (ip : IP) : Prop := Forall is_byte ip /\ (length ip = 4%nat \/ length ip = 16%nat).

(** The number of an address, and the ranges in CIDR notation. *)
Definition number (ip : IP) : Z := foldl (fun n b => n * 256 + b) 0 ip.
Definition in_cidr (ip : IP) (range : IP * Z) : Prop :=
  let host := 8 * Z.of_nat (length ip) - range.2 in number ip / 2 ^ host = number range.1 / 2 ^ host.

Definition forbidden_v4 : list (IP * Z) :=
  [([0;0;0;0], 8); ([10;0;0;0], 8); ([100;64;0;0], 10); ([127;0;0;0], 8); ([169;254;0;0], 16);
   ([172;16;0;0], 12); ([192;0;2;0], 24); ([192;168;0;0], 16); ([198;51;100;0], 24);
   ([203;0;113;0], 24); ([224;0;0;0], 4)].
Definition forbidden_v6 : list (IP * Z) :=
  [(IPv6unspecified, 128); (IPv6loopback, 128);
   ([252;0;0;0;0;0;0;0;0;0;0;0;0;0;0;0], 7); ([254;128;0;0;0;0;0;0;0;0;0;0;0;0;0;0], 10);
   ([255;0;0;0;0;0;0;0;0;0;0;0;0;0;0;0], 8)].

(** The table of an address: an IPv6 address that maps an IPv4 address is
    judged as that. *)
Definition forbidden (ip : IP) : Prop :=
  match To4 ip with
  | Some v4 => exists r, r ∈ forbidden_v4 /\ in_cidr v4 r
  | None => exists r, r ∈ forbidden_v6 /\ in_cidr ip r
  end.

Lemma number_app a b : number (a ++ b) = number a * 256 ^ Z.of_nat (length b) + number b.
Proof.
  unfold number. rewrite foldl_app. generalize (foldl (fun n b => n * 256 + b) 0 a) as m.
  induction b as [|x b IH]; intros m; cbn [foldl length]; [cbn; lia|].
  rewrite IH, (IH (0 * 256 + x)). rewrite Nat2Z.inj_succ, Z.pow_succ_r by lia. lia.
Qed.
Lemma number_bound l : Forall is_byte l -> 0 <= number l < 256 ^ Z.of_nat (length l).
Proof.
  induction l as [|x l IH] using rev_ind; intros H; [cbn; lia|].
  apply Forall_app in H as [H Hx]. rewrite Forall_singleton in Hx. unfold is_byte in Hx.
  rewrite number_app, length_app. cbn [length]. rewrite Nat2Z.inj_add, Z.pow_add_r by lia.
  specialize (IH H). assert (number [x] = x) as -> by (unfold number; cbn [foldl]; lia).
  change (256 ^ Z.of_nat 1) with 256.
  lia.
Qed.

(** The bits of a prefix are those of the first bytes. *)
Lemma prefix_bits m j r ip : Forall is_byte ip -> length ip = (m + r)%nat -> 0 <= j ->
  number ip / 2 ^ (8 * Z.of_nat r + j) = number (firstn m ip) / 2 ^ j.
Proof.
  intros Hb Hl Hj. rewrite <- (firstn_skipn m ip) at 1. rewrite number_app.
  assert (Hr : length (skipn m ip) = r) by (rewrite length_skipn; lia). rewrite Hr.
  assert (Hs : 0 <= number (skipn m ip) < 256 ^ Z.of_nat r).
  { rewrite <- Hr. apply number_bound. by apply Forall_drop. }
  rewrite Z.pow_add_r, Z.pow_mul_r by lia. change (2 ^ 8) with 256.
  rewrite <- Z.div_div by lia. rewrite Z.div_add_l by lia. rewrite (Z.div_small (number (skipn m ip))) by done.
  f_equal. lia.
Qed.

(** The masks of the tests are divisions of bytes. *)
Lemma byte_check (P : Z -> bool) : forallb P (seqZ 0 256) = true -> forall b, is_byte b -> P b = true.
Proof.
  intros H b Hb. rewrite forallb_forall in H. apply H. apply list_elem_of_In, elem_of_seqZ.
  unfold is_byte in Hb. lia.
Qed.
Lemma land_240 b v : is_byte b -> (Z.land b 240 =? 16 * v) = (b / 16 =? v).
Proof.
  intros Hb. assert (Z.land b 240 = 16 * (b / 16)) as ->.
  { apply Z.eqb_eq. revert b Hb. apply byte_check. vm_compute. reflexivity. }
  destruct (Z.eqb_spec (16 * (b / 16)) (16 * v)), (Z.eqb_spec (b / 16) v); lia.
Qed.
Lemma land_254 b : is_byte b -> Z.land b 254 = 2 * (b / 2).
Proof. revert b. intros b Hb. apply Z.eqb_eq. revert b Hb. apply byte_check. vm_compute. reflexivity. Qed.
Lemma land_192 b : is_byte b -> Z.land b 192 = 64 * (b / 64).
Proof. intros Hb. apply Z.eqb_eq. revert b Hb. apply byte_check. vm_compute. reflexivity. Qed.

Lemma exists_cons {A} (P : A -> Prop) x l : (exists r, r ∈ x :: l /\ P r) <-> P x \/ exists r, r ∈ l /\ P r.
Proof. split; [intros (r & [->|H]%elem_of_cons & Hp); eauto|]. intros [H|(r & Hr & H)]; set_solver. Qed.
Lemma exists_nil {A} (P : A -> Prop) : (exists r, r ∈ @nil A /\ P r) <-> False.
Proof. set_solver. Qed.

Lemma cidr_prefix m j ip base k : Forall is_byte ip -> Forall is_byte base -> (m <= length ip)%nat ->
  length base = length ip -> 0 <= j -> k = 8 * Z.of_nat m - j ->
  in_cidr ip (base, k) <-> number (firstn m ip) / 2 ^ j = number (firstn m base) / 2 ^ j.
Proof.
  intros Hi Hb Hm Hl Hj ->. unfold in_cidr. cbn [fst snd].
  replace (8 * Z.of_nat (length ip) - (8 * Z.of_nat m - j)) with (8 * Z.of_nat (length ip - m) + j) by lia.
  rewrite (prefix_bits m j (length ip - m) ip), (prefix_bits m j (length ip - m) base) by (done || lia). done.
Qed.

Lemma or_compat (A B C D : Prop) : (A <-> B) -> (C <-> D) -> (A \/ C) <-> (B \/ D).
Proof. tauto. Qed.
Lemma or_comm_false (A : Prop) : A \/ False <-> A.
Proof. tauto. Qed.
Ltac bytes_ok := repeat (apply Forall_cons; split; [unfold is_byte; lia|]); apply Forall_nil; exact Logic.I.
Ltac cidr m j := rewrite (cidr_prefix m j) by first [reflexivity | assumption | (cbn [length]; lia) | bytes_ok].

Lemma forbidden_v4_bytes a b c d : is_byte a -> is_byte b -> is_byte c -> is_byte d ->
  (exists r, r ∈ forbidden_v4 /\ in_cidr [a; b; c; d] r) <->
  a = 0 \/ a = 10 \/ (a = 100 /\ b / 64 = 1) \/ a = 127 \/ (a = 169 /\ b = 254) \/ (a = 172 /\ b / 16 = 1) \/
  (a = 192 /\ b = 0 /\ c = 2) \/ (a = 192 /\ b = 168) \/ (a = 198 /\ b = 51 /\ c = 100) \/
  (a = 203 /\ b = 0 /\ c = 113) \/ a / 16 = 14.
Proof.
  unfold is_byte. intros Ha Hb Hc Hd. unfold forbidden_v4. rewrite !exists_cons, exists_nil.
  assert (Hf : Forall is_byte [a; b; c; d]) by bytes_ok.
  cidr 1%nat 0. cidr 1%nat 0. cidr 2%nat 6. cidr 1%nat 0. cidr 2%nat 0. cidr 2%nat 4.
  cidr 3%nat 0. cidr 2%nat 0. cidr 3%nat 0. cidr 3%nat 0. cidr 1%nat 4.
  cbn [firstn number foldl]. unfold number. cbn [foldl].
  rewrite ?Z.div_1_r. change (2 ^ 0) with 1. rewrite ?Z.div_1_r.
  change (2 ^ 6) with 64. change (2 ^ 4) with 16.
  rewrite or_comm_false. do 10 (apply or_compat; [Z.to_euclidean_division_equations; lia|]).
  Z.to_euclidean_division_equations; lia.
Qed.

Lemma validateNonLoopback_none ip host : validateNonLoopback ip host = None <->
  IsPrivate ip = false /\ IsLinkLocalUnicast ip = false /\ IsLinkLocalMulticast ip = false /\
  IsUnspecified ip = false /\ IsMulticast ip = false /\ IsReservedIP ip = false.
Proof.
  unfold validateNonLoopback, refuse.
  destruct (IsPrivate ip), (IsLinkLocalUnicast ip), (IsLinkLocalMulticast ip), (IsUnspecified ip),
    (IsMulticast ip), (IsReservedIP ip); cbn; naive_solver.
Qed.
Lemma ValidatePublic_none ip host : ValidatePublic ip host = None <->
  IsLoopback ip = false /\ validateNonLoopback ip host = None.
Proof. unfold ValidatePublic, refuse. destruct (IsLoopback ip); naive_solver. Qed.

Lemma length_4 (l : IP) : length l = 4%nat -> exists a b c d, l = [a; b; c; d].
Proof. destruct l as [|a [|b [|c [|d [|]]]]]; try done. eauto 6. Qed.
Lemma To4_bytes ip v4 : Forall is_byte ip -> To4 ip = Some v4 ->
  exists a b c d, v4 = [a; b; c; d] /\ is_byte a /\ is_byte b /\ is_byte c /\ is_byte d.
Proof.
  intros Hb H. assert (length v4 = 4%nat /\ Forall is_byte v4) as [Hl Hf].
  { unfold To4 in H. destruct (Nat.eqb_spec (length ip) 4); [by simplify_eq|].
    destruct (Nat.eqb_spec (length ip) 16) as [E|]; [|done]. cbn [andb] in H.
    destruct (_ && _ && _); [|done]. simplify_eq. rewrite length_skipn, E. split; [done|by apply Forall_drop]. }
  apply length_4 in Hl as (a & b & c & d & ->). rewrite !Forall_cons in Hf. naive_solver.
Qed.

Lemma public_v4 ip v4 host : Forall is_byte ip -> To4 ip = Some v4 ->
  ValidatePublic ip host = None <-> ~ exists r, r ∈ forbidden_v4 /\ in_cidr v4 r.
Proof.
  intros Hb H4. destruct (To4_bytes _ _ Hb H4) as (a & b & c & d & -> & Ha & Hb' & Hc & Hd).
  rewrite forbidden_v4_bytes by done. rewrite ValidatePublic_none, validateNonLoopback_none.
  unfold IsLoopback, IsPrivate, IsLinkLocalUnicast, IsLinkLocalMulticast, IsUnspecified, IsMulticast, IsReservedIP.
  rewrite H4. unfold byte_at. cbn [nth].
  rewrite (land_240 a 14 Ha : (Z.land a 240 =? 224) = _), (land_240 b 1 Hb' : (Z.land b 240 =? 16) = _).
  unfold is_byte in *.
  assert ((64 <=? b) && (b <=? 127) = (b / 64 =? 1)) as Hcg.
  { destruct (Z.eqb_spec (b / 64) 1); rewrite ?andb_true_iff, ?andb_false_iff; Z.to_euclidean_division_equations; lia. }
  replace ((a =? 100) && (64 <=? b) && (b <=? 127)) with ((a =? 100) && (b / 64 =? 1))
    by (rewrite <- Hcg; apply andb_assoc).
  rewrite bool_decide_eq_false.
  assert ([a; b; c; d] <> [0; 0; 0; 0] <-> ~ (a = 0 /\ b = 0 /\ c = 0 /\ d = 0)) as -> by naive_solver.
  clear Hcg H4 Hb. generalize (b / 64) (b / 16). intros y z.
  assert (Hv : forall v, v = a -> a ∈ [0; 10; 100; 127; 169; 172; 192; 198; 203; 224] \/ a ∉ [0; 10; 100; 127; 169; 172; 192; 198; 203; 224])
    by (intros; destruct (decide (a ∈ [0; 10; 100; 127; 169; 172; 192; 198; 203; 224])); auto).
  destruct (Hv a eq_refl) as [Hin|Hout]; clear Hv.
  - repeat (apply elem_of_cons in Hin as [->|Hin]); [..|by apply elem_of_nil in Hin].
    all: match goal with |- context [?n / 16] => let v := eval vm_compute in (n / 16) in change (n / 16) with v end.
    all: cbn; rewrite ?orb_false_iff, ?andb_false_iff, ?Z.eqb_neq.
    all: lia.
  - rewrite !not_elem_of_cons in Hout. destruct Hout as (? & ? & ? & ? & ? & ? & ? & ? & ? & ? & _).
    repeat match goal with |- context [a =? ?v] => rewrite (proj2 (Z.eqb_neq a v)) by done end.
    cbn -[Z.div]. rewrite Z.eqb_neq. generalize (a / 16). intros x. split; intros; naive_solver.
Qed.

Lemma number_inj a b : Forall is_byte a -> Forall is_byte b -> length a = length b -> number a = number b -> a = b.
Proof.
  revert b. induction a as [|x a IH] using rev_ind; intros b Ha Hb Hl Hn.
  { by destruct b. }
  destruct b as [|y b _] using rev_ind; [rewrite length_app in Hl; cbn in Hl; lia|].
  rewrite !length_app in Hl. cbn in Hl. apply Forall_app in Ha as [Ha Hx], Hb as [Hb Hy].
  rewrite Forall_singleton in Hx, Hy. unfold is_byte in Hx, Hy.
  rewrite !number_app in Hn. cbn [length] in Hn. change (256 ^ Z.of_nat 1) with 256 in Hn.
  assert (forall z, number [z] = z) as Hz by (intros; unfold number; cbn [foldl]; lia). rewrite !Hz in Hn.
  assert (number a = number b /\ x = y) as [Hab ->] by lia. f_equal. apply IH; [done..|lia|done].
Qed.
Lemma in_cidr_full ip base : Forall is_byte ip -> Forall is_byte base -> length base = length ip ->
  in_cidr ip (base, 8 * Z.of_nat (length ip)) <-> ip = base.
Proof.
  intros Hi Hb Hl. unfold in_cidr. cbn [fst snd]. rewrite Z.sub_diag, !Z.div_1_r.
  split; [|by intros ->]. intros. by apply number_inj.
Qed.

Lemma public_v6 ip host : Forall is_byte ip -> length ip = 16%nat -> To4 ip = None ->
  ValidatePublic ip host = None <-> ~ exists r, r ∈ forbidden_v6 /\ in_cidr ip r.
Proof.
  intros Hb Hl H4. rewrite ValidatePublic_none, validateNonLoopback_none.
  unfold forbidden_v6. rewrite !exists_cons, exists_nil, or_comm_false.
  change 128 with (8 * Z.of_nat 16). rewrite <- Hl, !in_cidr_full.
  all: try (done || bytes_ok || by rewrite Hl).
  rewrite (cidr_prefix 1 1), (cidr_prefix 2 6), (cidr_prefix 1 0).
  all: try (done || bytes_ok || (rewrite Hl; done) || lia).
  destruct ip as [|a [|b ip]]; [done|done|].
  unfold IsLoopback, IsPrivate, IsLinkLocalUnicast, IsLinkLocalMulticast, IsUnspecified, IsMulticast, IsReservedIP.
  rewrite H4, Hl. unfold byte_at. cbn [nth firstn]. rewrite !Nat.eqb_refl. cbn [andb].
  rewrite !Forall_cons in Hb. destruct Hb as (Ha & Hb & _). rewrite (land_254 a Ha), (land_192 b Hb).
  unfold is_byte in *. rewrite ?andb_false_iff, ?Z.eqb_neq, ?bool_decide_eq_false.
  unfold number. cbn [foldl]. change (2 ^ 1) with 2. change (2 ^ 6) with 64. change (2 ^ 0) with 1.
  rewrite !Z.div_1_r.
  change ((0 * 256 + 252) / 2) with 126. change (((0 * 256 + 254) * 256 + 128) / 64) with 1018.
  assert (((0 * 256 + a) * 256 + b) / 64 = 1018 <-> a = 254 /\ b / 64 = 2) as ->.
  { Z.to_euclidean_division_equations; lia. }
  replace (0 * 256 + a) with a by lia.
  generalize (a :: b :: ip = IPv6loopback) (a :: b :: ip = IPv6unspecified) (a / 2) (b / 64) (Z.land b 15).
  intros P Q x y z. split.
  - intros (? & ? & ? & ? & ? & ? & ?). intros [?|[?|[?|[?|?]]]]; try tauto; lia.
  - intros Hn. split_and!; try tauto; try (intros Hx; apply Hn; lia); lia.
Qed.

Lemma first_refused_none v ips host : first_refused v ips host = None <-> Forall (fun ip => v ip host = None) ips.
Proof.
  induction ips as [|ip ips IH]; cbn [first_refused]; [by split|]. rewrite Forall_cons, <- IH.
  destruct (v ip host); naive_solver.
Qed.

(** ** Properties *)

(** C30: The public validator accepts exactly the addresses outside the table of
    ranges, IPv4 addresses in their IPv6 form included: loopback, private,
    carrier-grade NAT, link-local, documentation, unspecified and multicast
    ranges are refused and nothing else is. *)
Theorem ValidatePublic_exact ip host : well_formed ip ->
  ValidatePublic ip host = None <-> ~ forbidden ip.
Proof.
  intros [Hb Hl]. unfold forbidden. destruct (To4 ip) as [v4|] eqn:E; [by apply public_v4|].
  destruct Hl as [Hl|Hl]; [|by apply public_v6].
  unfold To4 in E. rewrite Hl in E. done.
Qed.
Lemma ValidatePublic_exact_witness : ~ forbidden [8; 8; 8; 8] /\ ~ ~ forbidden [0;0;0;0;0;0;0;0;0;0;255;255;10;0;0;5].
Proof.
  split.
  - refine (proj1 (ValidatePublic_exact [8; 8; 8; 8] "dns.google" _) _); [|vm_compute; reflexivity].
    split; [bytes_ok|left; reflexivity].
  - intros H. cut (ValidatePublic [0;0;0;0;0;0;0;0;0;0;255;255;10;0;0;5] "h" = None); [vm_compute; discriminate|].
    refine (proj2 (ValidatePublic_exact [0;0;0;0;0;0;0;0;0;0;255;255;10;0;0;5] "h" _) H).
    split; [bytes_ok|right; reflexivity].
Defined.

(** A URL that passes validation is http or https, carries no credentials,
    and its host is not a name of this machine and is, or resolves to, public
    addresses only; unless loopback was allowed in the environment. *)
Theorem ValidateURL_safe ne raw : ValidateURL ne raw = None -> loopbackAllowed ne = false ->
  exists u, ne_Parse ne raw = Ok u /\ (u_Scheme u = "http" \/ u_Scheme u = "https") /\ u_User u = false /\
    u_Hostname u <> "" /\ (ToLower (ne_unicode_lower ne) (u_Hostname u) ∉ localhostVariants) /\
    match ne_ParseIP ne (u_Hostname u) with
    | Some ip => ValidatePublic ip (u_Hostname u) = None
    | None => exists ips, ne_lookupIP ne (u_Hostname u) = Ok ips /\
                Forall (fun ip => ValidatePublic ip (u_Hostname u) = None) ips
    end.
Proof.
  unfold ValidateURL, url_host. intros H Hl. rewrite Hl in H.
  destruct (ne_Parse ne raw) as [u|]; [|done]. case_decide as Hs; [done|]. destruct (u_User u) eqn:Hu; [done|].
  case_decide as Hh; [done|]. cbn [negb] in H. rewrite andb_true_r in H. case_bool_decide as Hv; [done|].
  exists u. split_and!; [done| |done|done|done|].
  - destruct (decide (u_Scheme u = "http")), (decide (u_Scheme u = "https")); tauto.
  - unfold validate_host in H. destruct (ne_ParseIP ne (u_Hostname u)); [done|].
    destruct (ne_lookupIP ne (u_Hostname u)) as [ips|]; [|done]. exists ips. split; [done|].
    by apply first_refused_none in H.
Qed.
Definition one_host : NetEnv :=
  mkNetEnv (fun _ => Ok (mkURL "https" false "example.com")) (fun _ => None)
    (fun _ => Ok [[93; 184; 216; 34]]) (fun _ => "") (fun s => s).
Lemma ValidateURL_safe_witness : exists u, ne_Parse one_host "https://example.com" = Ok u /\ u_User u = false.
Proof.
  destruct (ValidateURL_safe one_host "https://example.com") as (u & H1 & _ & H2 & _);
    [vm_compute; reflexivity|vm_compute; reflexivity|]. exists u. split; [exact H1|exact H2].
Defined.



Definition direct_dial (ips : list IP) (ne : NetEnv) : DialEnv :=
  mkDialEnv ne (fun _ => None) (fun _ => Ok ips) (fun a b => bool_decide (a = b)).

(** AFLARE_ALLOW_LOOPBACK=1, meant for mock services on this machine, also
    lets the shared client dial private networks: a URL whose host is a
    private address is refused when it is checked, but a name that is public
    then and resolves to that address at the dial is connected to. *)
Theorem loopback_flag_opens_private :
  let flag := mkNetEnv (fun _ => Ok (mkURL "http" false "h")) (fun _ => None) (fun _ => Ok [[8; 8; 8; 8]])
                (fun k => if bool_decide (k = "AFLARE_ALLOW_LOOPBACK") then "1" else "") (fun s => s) in
  ValidateURL flag "http://h/" = None /\
  DialContext (direct_dial [[10; 0; 0; 5]] flag) (SafeHTTPClient_validator flag) "h:443" = Ok (ByIP [10; 0; 0; 5] "443") /\
  ValidateLMLEndpointIP [10; 0; 0; 5] "h" <> None.
Proof. split_and!; vm_compute; [reflexivity|reflexivity|discriminate]. Qed.
