(* ===== verification/GoPathProofs.v ===== *)
(** * Cleaned paths

    What [filepath.Clean] and [filepath.Abs] do to the last element of a path:
    a file name joined to a directory is the last element of the cleaned path,
    whatever the directory looks like. *)

From S2P Require Import Prelude GoStrings GoText GoPath.
From Stdlib Require Import Ascii.

#[local] Open Scope string_scope.
#[local] Open Scope nat_scope.

(** An element that cleaning keeps. *)
Definition file_name (n : string) : Prop := n <> "" /\ n <> "." /\ n <> ".." /\ str_has "/"%char n = false.

Lemma Split_snoc d n : str_has "/"%char n = false -> Split (d +:+ "/" +:+ n) "/" = (Split d "/" ++ [n])%list.
Proof.
  intros Hn. rewrite !Split_char. change (d +:+ "/" +:+ n) with (d +:+ String "/" n).
  by rewrite split_char_app, (split_char_none _ n).
Qed.
Lemma IsAbs_snoc d s : d <> "" -> IsAbs (d +:+ s) = IsAbs d.
Proof.
  destruct d as [|c d]; [done|]. intros _. unfold IsAbs.
  change (String c d +:+ s) with (String c (d +:+ s)). rewrite !HasPrefix_cons. f_equal.
  unfold HasPrefix. by destruct d, s.
Qed.
Lemma clean_step_name r st n : file_name n -> clean_step r st n = n :: st.
Proof. intros (? & ? & ? & _). unfold clean_step. rewrite decide_False, decide_False; naive_solver. Qed.
Lemma clean_step_up r d st : d <> ".." -> clean_step r (d :: st) ".." = st.
Proof. intros Hd. unfold clean_step. repeat case_decide; naive_solver. Qed.

Lemma clean_elems_snoc d n : d <> "" -> file_name n ->
  clean_elems (d +:+ "/" +:+ n) = (clean_elems d ++ [n])%list.
Proof.
  intros Hd Hn. unfold clean_elems. rewrite IsAbs_snoc, Split_snoc by (done || apply Hn).
  rewrite fold_left_app. cbn [fold_left]. rewrite (clean_step_name _ _ _ Hn). apply reverse_cons.
Qed.

(** The elements of a cleaned path are file names or parent references. *)
Definition kept (el : string) : Prop := file_name el \/ el = "..".
Lemma clean_step_kept r st el : str_has "/"%char el = false -> Forall kept st -> Forall kept (clean_step r st el).
Proof.
  intros He Hst. unfold clean_step. case_decide as H1; [done|]. case_decide as H2; subst.
  - destruct st as [|d st].
    + destruct r; [done|]. constructor; [by right|done].
    + case_decide; [constructor; [by right|done]|by inversion Hst].
  - constructor; [left; split_and!; tauto|done].
Qed.
Lemma clean_fold_kept r l : forall st, Forall (fun el => str_has "/"%char el = false) l -> Forall kept st ->
  Forall kept (fold_left (clean_step r) l st).
Proof.
  induction l as [|el l IH]; intros st Hl Hst; [done|]. apply Forall_cons in Hl as [H1 H2].
  apply IH; [done|]. by apply clean_step_kept.
Qed.
Lemma Split_no_slash p : Forall (fun el => str_has "/"%char el = false) (Split p "/").
Proof. apply Forall_forall. intros el. rewrite Split_char. apply split_char_clean. Qed.
Lemma clean_elems_kept p : Forall kept (clean_elems p).
Proof. apply Forall_reverse, clean_fold_kept; [apply Split_no_slash|constructor]. Qed.

(** Cleaning the elements first changes nothing below a root. *)
Lemma clean_norm st l : Forall (fun el => str_has "/"%char el = false) l ->
  fold_left (clean_step true) (reverse (fold_left (clean_step false) l [])) st = fold_left (clean_step true) l st.
Proof.
  induction l as [|el l IH] using rev_ind; [done|]. intros [Hl _]%Forall_app. specialize (IH Hl).
  pose proof (clean_fold_kept false l [] Hl (Forall_nil_2 _)) as Hq.
  rewrite !fold_left_app. cbn [fold_left]. set (q := fold_left (clean_step false) l []) in *.
  unfold clean_step at 2. case_decide as H1.
  { rewrite IH. unfold clean_step at 2. by rewrite decide_True. }
  case_decide as H2; subst.
  - rewrite <- IH. destruct q as [|d q']; [done|]. case_decide as Hd.
    + by rewrite reverse_cons, fold_left_app.
    + apply Forall_cons in Hq as [[Hd'|?] _]; [|done].
      rewrite reverse_cons, fold_left_app. cbn [fold_left]. rewrite (clean_step_name _ _ d) by done.
      by rewrite clean_step_up.
  - by rewrite reverse_cons, fold_left_app, IH.
Qed.

Lemma split_joined_path l : l <> [] -> Forall (fun el => str_has "/"%char el = false) l -> Split (Join l "/") "/" = l.
Proof.
  intros Hne Hl. rewrite Split_char. induction l as [|x l IH]; [done|]. apply Forall_cons in Hl as [Hx Hl].
  destruct l as [|y l]; [by apply split_char_none|].
  change (Join (x :: y :: l) "/") with (x +:+ String "/" (Join (y :: l) "/")).
  rewrite split_char_app, (split_char_none _ x) by done. by rewrite IH.
Qed.
Lemma kept_no_slash l : Forall kept l -> Forall (fun el => str_has "/"%char el = false) l.
Proof. intros H. eapply Forall_impl; [exact H|]. by intros el [(_ & _ & _ & ?)| ->]. Qed.

(** A relative path may be cleaned before it is joined to a rooted one. *)
Lemma clean_elems_join wd p : IsAbs wd = true -> IsAbs p = false -> 
  clean_elems (wd +:+ "/" +:+ Clean p) = clean_elems (wd +:+ "/" +:+ p).
Proof.
  intros Hw Hp. assert (wd <> "") by (by intros ->). unfold clean_elems at 1 2. rewrite !IsAbs_snoc, Hw by done. f_equal.
  assert (forall x, Split (wd +:+ "/" +:+ x) "/" = (Split wd "/" ++ Split x "/")%list) as Hs.
  { intros x. rewrite !Split_char. apply split_char_app. }
  rewrite !Hs, !fold_left_app. generalize (fold_left (clean_step true) (Split wd "/") []) as st. intros st.
  rewrite <- (clean_norm st (Split p "/")) by apply Split_no_slash.
  unfold Clean. rewrite Hp. pose proof (clean_elems_kept p) as Hk.
  destruct (clean_elems p) as [|x l] eqn:E.
  - cbn [Join]. rewrite decide_True by done. unfold clean_elems in E. rewrite Hp in E. by rewrite E.
  - rewrite decide_False, split_joined_path; [|done|by apply kept_no_slash|].
    + unfold clean_elems in E. rewrite Hp in E. by rewrite E.
    + apply Forall_cons in Hk as [Hx _]. assert (x <> "") by (destruct Hx as [[? _]| ->]; done).
      destruct x as [|c x]; [done|]. by destruct l.
Qed.

(** The elements of a cleaned rooted path are those of the path. *)
Lemma clean_fold_names r l : forall st, Forall file_name l ->
  fold_left (clean_step r) l st = (reverse l ++ st)%list.
Proof.
  induction l as [|x l IH]; intros st Hl; [done|]. apply Forall_cons in Hl as [Hx Hl]. cbn [fold_left].
  by rewrite clean_step_name, IH, reverse_cons, <- app_assoc.
Qed.
Lemma IsAbs_Clean p : IsAbs (Clean p) = IsAbs p.
Proof.
  unfold Clean. destruct (IsAbs p) eqn:E; [apply HasPrefix_app|]. case_decide as Hd; [done|].
  pose proof (clean_elems_kept p) as Hk. destruct (clean_elems p) as [|x l]; [done|].
  apply Forall_cons in Hk as [Hx _].
  assert (x <> "" /\ str_has "/"%char x = false) as [Hx1 Hx2] by (destruct Hx as [(? & ? & ? & ?)| ->]; done).
  destruct x as [|c x]; [done|]. assert (c <> "/"%char) as Hc.
  { intros ->. cbn in Hx2. by destruct (str_has _ x). }
  unfold IsAbs, HasPrefix. destruct l; cbn -[ascii_dec]; by destruct (ascii_dec "/" c) as [<-|].
Qed.
Lemma clean_elems_Clean p : IsAbs p = true -> clean_elems (Clean p) = clean_elems p.
Proof.
  intros Hp. unfold clean_elems at 1. rewrite IsAbs_Clean, Hp. unfold Clean. rewrite Hp.
  assert (Forall file_name (clean_elems p)) as Hf.
  { apply Forall_forall. intros x Hx. pose proof (clean_elems_kept p) as Hk. rewrite Forall_forall in Hk.
    destruct (Hk x Hx) as [?| ->]; [done|]. by apply clean_abs_no_up in Hp. }
  assert (forall s, Split ("/" +:+ s) "/" = ("" :: Split s "/")) as Hs.
  { intros s. rewrite !Split_char. apply (split_char_app "/"%char "" s). }
  rewrite Hs. cbn [fold_left]. unfold clean_step at 2. rewrite decide_True by (by left).
  destruct (clean_elems p) as [|x l]; [done|].
  rewrite split_joined_path, clean_fold_names, app_nil_r, reverse_involutive; [done|done|done|].
  eapply Forall_impl; [exact Hf|]. by intros ? (_ & _ & _ & ?).
Qed.

(** Joining a file name to a directory and making it absolute gives the file
    of that name in the absolute directory. *)
Lemma Abs_file wd dir n d p : IsAbs wd = true -> dir <> "" -> file_name n ->
  Abs (Ok wd) dir = Ok d -> Abs (Ok wd) (JoinPath dir n) = Ok p ->
  clean_elems p = (clean_elems d ++ [n])%list.
Proof.
  intros Hw Hdir Hn Hd Hp. unfold Abs in *. assert (wd <> "") by (by intros ->).
  assert (IsAbs (JoinPath dir n) = IsAbs dir) as E by (unfold JoinPath; by rewrite IsAbs_Clean, IsAbs_snoc).
  rewrite E in Hp. destruct (IsAbs dir) eqn:Ed.
  - simplify_eq. rewrite !clean_elems_Clean by done. unfold JoinPath.
    rewrite clean_elems_Clean by (by rewrite IsAbs_snoc). by apply clean_elems_snoc.
  - cbn in Hd, Hp. simplify_eq. unfold JoinPath at 1 3.
    rewrite !clean_elems_Clean by (by rewrite IsAbs_snoc). unfold JoinPath.
    rewrite clean_elems_join by (done || by rewrite IsAbs_snoc).
    rewrite <- clean_elems_snoc; [by rewrite !string_app_assoc|by destruct wd|done].
Qed.
