(* ===== verification/Webhook.v ===== *)
(** * The webhook server (src/internal/webhook/webhook.go)

    A POST to /webhook/NAME runs the workflow NAME with the body as input.
    Handlers run concurrently: [handle_phase] is the code between two accesses
    to the server's shared state, and [server_step] interleaves the handlers,
    the goroutines of the tasks and the cleaner.  Time is in nanoseconds; a
    step reads the clock once.  The MAC is a parameter, hex decoding is
    written out.  The workflow itself runs under the policy executor. *)

From S2P Require Import Prelude GoStrings GoText GoTime GoPath WorkflowTypes Errors Effects Policy PolicyExecutor.
From S2P Require Import Compound DagScheduler Sequential Interpreter Idempotency IdempotencyProofs AuditRecorder Executor.
From Stdlib Require Import Ascii.

#[local] Open Scope string_scope.
#[local] Open Scope Z_scope.

(** ** Definitions *)

Definition maxBodySize : Z := 1 * 1024 * 1024.
Definition rateLimitPerMin : Z := 60.
Definition taskMaxAge : Z := 1 * Hour.
Definition maxConcurrentTasks : Z := 100.
Definition signatureMaxAge : Z := 5 * Minute.
Definition deliveryDedupWindow : Z := 24 * Hour.
Definition deliveryCacheLimit : Z := 8192.

(** *** Rate limiter *)

Record ipLimiter := mkLimiter { lm_count : Z; lm_windowStart : Z }.
Record RateLimiter := mkRateLimiter {
  rl_limiters : gmap string ipLimiter;
  rl_maxReq : Z;
  rl_window : Z
}.
Definition NewRateLimiter (maxReq window : Z) : RateLimiter := mkRateLimiter ∅ maxReq window.

Definition Allow (now : Z) (ip : string) (rl : RateLimiter) : bool * RateLimiter :=
  let l := default (mkLimiter 0 now) (rl_limiters rl !! ip) in
  let l := if rl_window rl <? Sub now (lm_windowStart l) then mkLimiter 0 now else l in
  if rl_maxReq rl <=? lm_count l
  then (false, mkRateLimiter (<[ip := l]> (rl_limiters rl)) (rl_maxReq rl) (rl_window rl))
  else (true, mkRateLimiter (<[ip := mkLimiter (lm_count l + 1) (lm_windowStart l)]> (rl_limiters rl))
                (rl_maxReq rl) (rl_window rl)).

(** *** Delivery cache *)

Record deliveryCache := mkDeliveries { dc_seen : gmap string Z; dc_window : Z; dc_limit : Z }.
Definition newDeliveryCache (window limit : Z) : deliveryCache := mkDeliveries ∅ window limit.

Definition sweepLocked (now : Z) (c : deliveryCache) : deliveryCache :=
  mkDeliveries (filter (fun e : string * Z => ~ dc_window c <= Sub now e.2) (dc_seen c)) (dc_window c) (dc_limit c).
Definition remember (id : string) (now : Z) (c : deliveryCache) : deliveryCache :=
  mkDeliveries (<[id := now]> (dc_seen c)) (dc_window c) (dc_limit c).
Definition is_replay (now : Z) (id : string) (c : deliveryCache) : bool :=
  match dc_seen c !! id with Some ts => Sub now ts <? dc_window c | None => false end.
Definition Record_ (now : Z) (id : string) (c : deliveryCache) : bool * deliveryCache :=
  if is_replay now id c then (false, remember id now c) else
  let c := if dc_limit c <=? Z.of_nat (size (dc_seen c)) then sweepLocked now c else c in
  (true, remember id now c).

(** *** Requests *)

(** [rq_Body] is what can be read of the body, [rq_BodyErr] the error that
    ends it, if it does not end well. *)
Record Request := mkRequest {
  rq_Method : string;
  rq_Path : string;
  rq_Header : string -> string;
  rq_Query : list (string * list string);
  rq_Body : string;
  rq_BodyErr : option error;
  rq_RemoteAddr : string
}.

(** [io.ReadAll] of an [io.LimitReader]. *)
Definition read_limited (r : Request) (n : Z) : result string :=
  if n <=? Z.of_nat (String.length (rq_Body r)) then Ok (str_take (Z.to_nat n) (rq_Body r)) else
  match rq_BodyErr r with Some e => Err e | None => Ok (rq_Body r) end.

Definition name_char (c : ascii) : bool :=
  let n := N_of_ascii c in
  ((97 <=? n) && (n <=? 122) || (65 <=? n) && (n <=? 90) || (48 <=? n) && (n <=? 57) || (n =? 45) || (n =? 95))%N.
Definition isValidWorkflowName (name : string) : bool :=
  negb (bool_decide (name = "")) && (Z.of_nat (String.length name) <=? 100) && str_forall name_char name.

Definition getClientIP (trustProxy : bool) (r : Request) : string :=
  let direct := match SplitHostPort (rq_RemoteAddr r) with Some (host, _) => host | None => rq_RemoteAddr r end in
  if trustProxy then
    let first := TrimSpace (default "" (head (Split (rq_Header r "X-Forwarded-For") ","))) in
    if bool_decide (rq_Header r "X-Forwarded-For" = "") || bool_decide (first = "") then
      if decide (rq_Header r "X-Real-Ip" = "") then direct else rq_Header r "X-Real-Ip"
    else first
  else direct.

(** *** Signatures *)

Definition hex_val (c : ascii) : option N :=
  let n := N_of_ascii c in
  if ((48 <=? n) && (n <=? 57))%N then Some (n - 48)%N else
  if ((97 <=? n) && (n <=? 102))%N then Some (n - 87)%N else
  if ((65 <=? n) && (n <=? 70))%N then Some (n - 55)%N else None.
Fixpoint hex_decode (s : string) : option string :=
  match s with
  | "" => Some ""
  | String a (String b s) =>
      match hex_val a, hex_val b, hex_decode s with
      | Some x, Some y, Some t => Some (String (ascii_of_N (16 * x + y)) t)
      | _, _, _ => None
      end
  | String _ "" => None
  end.
Definition parseSignatureHeader (header : string) : option string :=
  if HasPrefix header "sha256=" then
    match hex_decode (TrimPrefix header "sha256=") with
    | Some got => if decide (got = "") then None else Some got
    | None => None
    end
  else None.

(** *** Tasks *)

Inductive TaskStatus := TaskPending | TaskRunning | TaskCompleted | TaskFailed.
Record Task := mkTask {
  tk_ID : string;
  tk_WorkflowName : string;
  tk_Input : string;
  tk_Status : TaskStatus;
  tk_Output : string;
  tk_Error : string;
  tk_CreatedAt : Z;
  tk_StartedAt : option Z;
  tk_CompletedAt : option Z
}.
Abbreviation task_table := (gmap string Task).

Definition addTask (t : Task) (tasks : task_table) : task_table := <[tk_ID t := t]> tasks.
Definition getTask (id : string) (tasks : task_table) : option Task := tasks !! id.
Definition updateTask (id : string) (fn : Task -> Task) (tasks : task_table) : task_table := alter fn id tasks.
Definition set_started (now : Z) (t : Task) : Task :=
  mkTask (tk_ID t) (tk_WorkflowName t) (tk_Input t) TaskRunning (tk_Output t) (tk_Error t) (tk_CreatedAt t)
    (Some now) (tk_CompletedAt t).
Definition set_completed (now : Z) (status : TaskStatus) (output errStr : string) (t : Task) : Task :=
  mkTask (tk_ID t) (tk_WorkflowName t) (tk_Input t) status output errStr (tk_CreatedAt t)
    (tk_StartedAt t) (Some now).
Definition completeTask (now : Z) (id : string) (status : TaskStatus) (output errStr : string)
    (tasks : task_table) : task_table :=
  updateTask id (set_completed now status output errStr) tasks.

Definition finished (t : Task) : bool :=
  match tk_Status t with TaskCompleted | TaskFailed => true | _ => false end.
Definition too_old (now : Z) (t : Task) : bool :=
  finished t && match tk_CompletedAt t with Some c => taskMaxAge <? Sub now c | None => false end.
(** A round of the cleaner. *)
Definition cleanupTasks (now : Z) (tasks : task_table) : task_table :=
  filter (fun e : string * Task => too_old now e.2 = false) tasks.

(** *** Workflow files *)

(** What the file system answers at one moment. *)
Record Files := mkFiles { fl_Getwd : result string; fl_Stat : string -> bool }.

(** [%q] of a name without special characters. *)
Definition quoted (name : string) : string :=
  String (ascii_of_nat 34) (name +:+ String (ascii_of_nat 34) "").
Fixpoint first_file (fl : Files) (dir name : string) (exts : list string) : result string :=
  match exts with
  | [] => Err ("workflow " +:+ quoted name +:+ " not found")
  | ext :: exts =>
      match Abs (fl_Getwd fl) (JoinPath dir (name +:+ ext)), Abs (fl_Getwd fl) dir with
      | Ok absPath, Ok absDir =>
          match Rel absDir absPath with
          | Ok rel => if HasPrefix rel ".." then first_file fl dir name exts else
                      if fl_Stat fl absPath then Ok absPath else first_file fl dir name exts
          | Err _ => first_file fl dir name exts
          end
      | _, _ => first_file fl dir name exts
      end
  end.
Definition search_dir (fl : Files) (workflowsDir : string) : string :=
  if decide (workflowsDir = "") then match fl_Getwd fl with Ok d => d | Err _ => "." end else workflowsDir.
Definition findWorkflowPath (fl : Files) (workflowsDir name : string) : result string :=
  if isValidWorkflowName name then first_file fl (search_dir fl workflowsDir) name [".yaml"; ".yml"]
  else Err "invalid workflow name".

(** *** Authentication *)

Inductive Response :=
  | Refuse (code : Z) (msg : string)
  | AcceptedTask (id : string)
  | Healthy
  | TaskState (t : Task).

Section server.
(** HMAC-SHA256: key, text. *)
Context (hmac : string -> string -> string).
(** The secret; AFLARE_TRUST_PROXY_HEADERS=1. *)
Context (secret : string) (trustProxy : bool).

Definition verifyWebhookSignature (body header : string) : bool :=
  match parseSignatureHeader header with
  | Some got => bool_decide (got = hmac secret body)
  | None => false
  end.

Definition drift_of (now ts : Z) : Z :=
  let drift := wrap64 (Unix now - ts) in
  if drift <? 0 then wrap64 (- drift) else drift.
Definition verifyTimestampedSignature (now : Z) (body header tsHeader : string) : option error :=
  match Atoi (TrimSpace tsHeader) with
  | None => Some "invalid X-Timestamp"
  | Some ts =>
      if signatureMaxAge / Second <? drift_of now ts then Some "timestamp is too far from server time" else
      match parseSignatureHeader header with
      | None => Some "malformed X-Hub-Signature-256"
      | Some got => if decide (got = hmac secret (Itoa ts +:+ "." +:+ body)) then None
                    else Some "signature mismatch"
      end
  end.

Definition delivery_headers : list string := ["X-GitHub-Delivery"; "X-Gitea-Delivery"; "X-Gogs-Delivery"].
Definition platformDeliveryID (r : Request) : string :=
  default "" (head (filter (fun v => v <> "") ((fun h => TrimSpace (rq_Header r h)) <$> delivery_headers))).

Definition Unauthorized : Response := Refuse 401 "unauthorized".
Definition requireSecret (r : Request) : option Response :=
  if decide (secret = "") then None else
  if decide (rq_Header r "X-Webhook-Secret" = secret) then None else Some Unauthorized.

Definition verifySignature (now : Z) (r : Request) (body sig : string) (c : deliveryCache)
    : option Response * deliveryCache :=
  let ts := rq_Header r "X-Timestamp" in
  if decide (ts <> "") then
    match verifyTimestampedSignature now body sig ts with
    | Some _ => (Some Unauthorized, c)
    | None => (None, c)
    end
  else
  let delivery := platformDeliveryID r in
  if decide (delivery <> "") then
    if verifyWebhookSignature body sig then
      let '(first, c) := Record_ now delivery c in
      (if first then None else Some (Refuse 401 "replayed delivery"), c)
    else (Some Unauthorized, c)
  else (Some (Refuse 401 "unauthorized: signature requires X-Timestamp (or platform delivery headers)"), c).

Definition requireAuth (now : Z) (r : Request) (body : string) (c : deliveryCache)
    : option Response * deliveryCache :=
  if decide (secret = "") then (None, c) else
  let sig := rq_Header r "X-Hub-Signature-256" in
  if decide (sig <> "") then verifySignature now r body sig c else (requireSecret r, c).

(** *** Handlers *)

Context (workflowsDir : string).
Record Server := mkServer {
  sv_rateLimiter : RateLimiter;
  sv_deliveries : deliveryCache;
  sv_tasks : task_table;
  sv_sem : Z
}.
Definition NewWebhookServer : Server :=
  mkServer (NewRateLimiter rateLimitPerMin Minute) (newDeliveryCache deliveryDedupWindow deliveryCacheLimit) ∅ 0.

Definition workflow_name (r : Request) : string := TrimPrefix (rq_Path r) "/webhook/".
(** The request's name and body, checked. *)
Definition read_request (r : Request) : string + Response :=
  if bool_decide (workflow_name r = "") || negb (isValidWorkflowName (workflow_name r))
  then inr (Refuse 400 "invalid workflow name") else
  match read_limited r (maxBodySize + 1) with
  | Err _ => inr (Refuse 400 "failed to read request body")
  | Ok body => if maxBodySize <? Z.of_nat (String.length body)
               then inr (Refuse 413 "request body too large") else inl body
  end.

(** Where a handler stands: it comes to the rate limiter, to authentication,
    to the look-up of the workflow, to the semaphore, to the table. *)
Inductive phase :=
  | PhArrived
  | PhAllowed (body : string)
  | PhAuthorized (body : string)
  | PhFound (body : string)
  | PhSlot (body : string).

(** What a handler sees of the outside: the clock, the files, a random id. *)
Record Observed := mkObserved { ob_now : Z; ob_files : Files; ob_id : string }.

Definition handle_phase (ob : Observed) (r : Request) (ph : phase) (s : Server) : Server * (phase + Response) :=
  match ph with
  | PhArrived =>
      let '(ok, rl) := Allow (ob_now ob) (getClientIP trustProxy r) (sv_rateLimiter s) in
      let s := mkServer rl (sv_deliveries s) (sv_tasks s) (sv_sem s) in
      (s, if ok then match read_request r with inl body => inl (PhAllowed body) | inr e => inr e end
          else inr (Refuse 429 "rate limit exceeded"))
  | PhAllowed body =>
      let '(refused, c) := requireAuth (ob_now ob) r body (sv_deliveries s) in
      (mkServer (sv_rateLimiter s) c (sv_tasks s) (sv_sem s),
       match refused with Some e => inr e | None => inl (PhAuthorized body) end)
  | PhAuthorized body =>
      (s, match findWorkflowPath (ob_files ob) workflowsDir (workflow_name r) with
          | Ok _ => inl (PhFound body) | Err e => inr (Refuse 404 e)
          end)
  | PhFound body =>
      if sv_sem s <? maxConcurrentTasks
      then (mkServer (sv_rateLimiter s) (sv_deliveries s) (sv_tasks s) (sv_sem s + 1), inl (PhSlot body))
      else (s, inr (Refuse 503 "server too busy, try again later"))
  | PhSlot body =>
      let task := mkTask (ob_id ob) (workflow_name r) body TaskPending "" "" (ob_now ob) None None in
      (mkServer (sv_rateLimiter s) (sv_deliveries s) (addTask task (sv_tasks s)) (sv_sem s),
       inr (AcceptedTask (ob_id ob)))
  end.

Definition handleStatus (r : Request) (s : Server) : Response :=
  let taskID := TrimPrefix (rq_Path r) "/webhook/status/" in
  if decide (taskID = "") then Refuse 400 "missing task id" else
  match getTask taskID (sv_tasks s) with Some t => TaskState t | None => Refuse 404 "task not found" end.

(** [None]: the request goes to [handleWebhook]. *)
Definition routeWebhook (r : Request) (s : Server) : option Response :=
  if decide (rq_Path r = "/webhook/health") then
    Some (if decide (rq_Method r = "GET") then Healthy else Refuse 405 "method not allowed")
  else if HasPrefix (rq_Path r) "/webhook/status/" then
    Some (if decide (rq_Method r = "GET") then
            match requireSecret r with Some e => e | None => handleStatus r s end
          else Refuse 405 "method not allowed")
  else if decide (rq_Method r = "POST") then None else Some (Refuse 405 "method not allowed").

(** *** Running a task *)

Context {W S : Type} `{HS : IdempotencyStore S}.
Context (xe : ExecEnv W) (ae : auditEnv W) (env : Env W) (store : Store W) (te : TextEnv).
(** The file system, and [workflow.ParseWorkflow]. *)
Context (files : M W Files) (ParseWorkflow : string -> M W (result Workflow)).

Definition request_vars (body : string) (query : list (string * list string)) (vars : gmap string string)
    : gmap string string :=
  foldl (fun vars kv => match kv with
         | (k, v :: _) => if decide (k <> "") then <[k := v]> vars else vars
         | (_, []) => vars
         end) (<["input" := body]> vars) query.
Definition set_vars (vars : gmap string string) (wf : Workflow) : Workflow :=
  mkWorkflow (wf_Name wf) (wf_Description wf) vars (wf_Steps wf) (wf_Output wf) (wf_InputSchema wf)
    (wf_MaxConcurrency wf) (wf_Schedule wf).

Definition task_failed (msg : string) : TaskStatus * string * string := (TaskFailed, "", msg).
(** What [runTask] does between marking the task running and completing it;
    the goroutine turns a panic into a failure. *)
Definition task_outcome (name body : string) (query : list (string * list string))
    : M (W * S) (TaskStatus * string * string) :=
  recover (
    fl ← lift files;
    match findWorkflowPath fl workflowsDir name with
    | Err e => mret (task_failed e)
    | Ok path =>
        parsed ← lift (ParseWorkflow path);
        match parsed with
        | Err _ => mret (task_failed "workflow parse failed")
        | Ok wf =>
            let wf := set_vars (request_vars body query (wf_Vars wf)) wf in
            let ctx := Effects.WithTimeout Background DefaultWorkflowTimeout in
            verr ← lift (ValidateWorkflow te (Some (NewEngine (Some DefaultPolicy) None)) ctx wf);
            match verr with
            | Some _ => mret (task_failed "workflow blocked by policy")
            | None =>
                '(output, _, err) ← Execute xe ae env store (WithAuditLog true "" NewExecutor) ctx wf;
                match err with
                | Some _ => mret (task_failed "workflow execution failed")
                | None => mret (TaskCompleted, output, "")
                end
            end
        end
    end) (fun p => mret (task_failed ("panic: " +:+ p))).

(** *** The server at work *)

(** A task's goroutine: it marks the task running, runs the workflow,
    completes the task and gives its slot back. *)
Inductive tphase :=
  | TStart
  | TBody
  | TEnd (outcome : TaskStatus * string * string)
  | TRelease.
Record trun := mkRun {
  tr_id : string;
  tr_name : string;
  tr_body : string;
  tr_query : list (string * list string);
  tr_phase : tphase
}.
Definition at_phase (ph : tphase) (t : trun) : trun :=
  mkRun (tr_id t) (tr_name t) (tr_body t) (tr_query t) ph.

(** What has happened, for the theorems: a request was let through or held
    back by the limiter, was authenticated, was accepted as a task. *)
Inductive event :=
  | EvAllow (t : Z) (ip : string) (ok : bool)
  | EvAuth (t : Z) (r : Request) (body : string)
  | EvAccept (t : Z) (r : Request) (body id : string).

Record machine := mkMachine {
  mc_clock : Z;
  mc_server : Server;
  mc_handlers : list (Request * phase);
  mc_runs : list trun;
  mc_world : W * S;
  mc_log : list event
}.
Definition start_machine (t : Z) (ws : W * S) : machine := mkMachine t NewWebhookServer [] [] ws [].

Definition events_of (ob : Observed) (r : Request) (ph : phase) (s : Server) : list event :=
  match ph, (handle_phase ob r ph s).2 with
  | PhArrived, _ => [EvAllow (ob_now ob) (getClientIP trustProxy r)
                      (Allow (ob_now ob) (getClientIP trustProxy r) (sv_rateLimiter s)).1]
  | PhAllowed body, inl _ => [EvAuth (ob_now ob) r body]
  | PhSlot body, _ => [EvAccept (ob_now ob) r body (ob_id ob)]
  | _, _ => []
  end.
Definition spawned (ob : Observed) (r : Request) (ph : phase) : list trun :=
  match ph with
  | PhSlot body => [mkRun (ob_id ob) (workflow_name r) body (rq_Query r) TStart]
  | _ => []
  end.

(** The server after its table changed. *)
Definition with_tasks (tasks : task_table) (s : Server) : Server :=
  mkServer (sv_rateLimiter s) (sv_deliveries s) tasks (sv_sem s).
Definition release_slot (s : Server) : Server :=
  mkServer (sv_rateLimiter s) (sv_deliveries s) (sv_tasks s) (sv_sem s - 1).

(** The step of one task's goroutine. *)
Definition run_step (now : Z) (t : trun) (s : Server) (ws : W * S) : Server * option trun * (W * S) :=
  match tr_phase t with
  | TStart => (with_tasks (updateTask (tr_id t) (set_started now) (sv_tasks s)) s, Some (at_phase TBody t), ws)
  | TBody =>
      let '(ws, o) := task_outcome (tr_name t) (tr_body t) (tr_query t) ws in
      (s, Some (at_phase (TEnd match o with Ret o => o | Panic p => task_failed ("panic: " +:+ p) end) t), ws)
  | TEnd (status, output, errStr) =>
      (with_tasks (completeTask now (tr_id t) status output errStr (sv_tasks s)) s, Some (at_phase TRelease t), ws)
  | TRelease => (release_slot s, None, ws)
  end.

Inductive server_step : machine -> machine -> Prop :=
| ss_tick m t : mc_clock m <= t <= int64_max ->
    server_step m (mkMachine t (mc_server m) (mc_handlers m) (mc_runs m) (mc_world m) (mc_log m))
| ss_others m ws :
    server_step m (mkMachine (mc_clock m) (mc_server m) (mc_handlers m) (mc_runs m) ws (mc_log m))
| ss_arrive m r : routeWebhook r (mc_server m) = None ->
    server_step m (mkMachine (mc_clock m) (mc_server m) (mc_handlers m ++ [(r, PhArrived)])%list (mc_runs m)
      (mc_world m) (mc_log m))
| ss_handle m ob l1 r ph l2 s next :
    mc_handlers m = (l1 ++ (r, ph) :: l2)%list -> ob_now ob = mc_clock m ->
    handle_phase ob r ph (mc_server m) = (s, next) ->
    server_step m (mkMachine (mc_clock m) s
      (l1 ++ match next with inl ph' => [(r, ph')] | inr _ => [] end ++ l2)%list
      (mc_runs m ++ spawned ob r ph)%list (mc_world m) (events_of ob r ph (mc_server m) ++ mc_log m)%list)
| ss_run m l1 t l2 s next ws :
    mc_runs m = (l1 ++ t :: l2)%list ->
    run_step (mc_clock m) t (mc_server m) (mc_world m) = (s, next, ws) ->
    server_step m (mkMachine (mc_clock m) s (mc_handlers m)
      (l1 ++ match next with Some t' => [t'] | None => [] end ++ l2)%list ws (mc_log m))
| ss_clean m :
    server_step m (mkMachine (mc_clock m)
      (with_tasks (cleanupTasks (mc_clock m) (sv_tasks (mc_server m))) (mc_server m))
      (mc_handlers m) (mc_runs m) (mc_world m) (mc_log m)).
End server.
