(* ===== verification/WebhookProofs.v ===== *)
(** * Properties of the webhook server

    Invariants of [server_step]: what an accepted request has proved about
    itself, how many requests the limiter lets through, and that the table
    follows the goroutines of the tasks. *)

From S2P Require Import Prelude GoStrings GoText GoTime GoPath GoPathProofs WorkflowTypes Errors Effects Policy.
From S2P Require Import PolicyExecutor Compound DagScheduler Sequential Interpreter Idempotency IdempotencyProofs.
From S2P Require Import AuditRecorder Executor Webhook.
From Stdlib Require Import Ascii.

#[local] Open Scope string_scope.
#[local] Open Scope Z_scope.

(** ** Time *)

(** A timestamp passes exactly when it is within five minutes of the server's
    clock; one more passes because the difference overflows. *)
Definition fresh (now ts : Z) : Prop :=
  Z.abs (Unix now - ts) <= 300 \/ ts = Unix now - 2 ^ 63.
Lemma Unix_range t : on_clock t -> 0 <= Unix t < 2 ^ 34.
Proof.
  unfold on_clock, Unix, int64_max, Second, Millisecond, Microsecond, Nanosecond. intros.
  split; [apply Z.div_pos; lia|apply Z.div_lt_upper_bound; lia].
Qed.
Lemma drift_fresh now ts : on_clock now -> in_int64 ts = true ->
  (signatureMaxAge / Second <? drift_of now ts) = false <-> fresh now ts.
Proof.
  intros Hn Ht. pose proof (Unix_range now Hn). apply in_int64_spec in Ht. unfold int64_min, int64_max in Ht.
  change (signatureMaxAge / Second) with 300. unfold fresh, drift_of. rewrite Z.ltb_ge.
  destruct (decide (Unix now - ts <= 2 ^ 63 - 1)) as [Hs|Hs].
  - rewrite (wrap64_id (Unix now - ts)) by (unfold int64_min, int64_max; lia).
    destruct (Z.ltb_spec (Unix now - ts) 0); [|lia].
    rewrite wrap64_id by (unfold int64_min, int64_max; lia). lia.
  - assert (wrap64 (Unix now - ts) = Unix now - ts - 2 ^ 64) as ->.
    { unfold wrap64. rewrite <- (Z.mod_unique_pos _ (2 ^ 64) 1 (Unix now - ts + 2 ^ 63 - 2 ^ 64)); lia. }
    destruct (Z.ltb_spec (Unix now - ts - 2 ^ 64) 0); [|lia].
    destruct (decide (ts = Unix now - 2 ^ 63)) as [->|Hne].
    + replace (- (Unix now - (Unix now - 2 ^ 63) - 2 ^ 64)) with (2 ^ 63) by lia. 
      split; [intros _; by right|]. intros _. by vm_compute.
    + rewrite wrap64_id by (unfold int64_min, int64_max; lia). lia.
Qed.

(** ** Workflow files *)

Lemma valid_name_file name ext : isValidWorkflowName name = true -> ext ∈ [".yaml"; ".yml"] ->
  file_name (name +:+ ext).
Proof.
  unfold isValidWorkflowName. rewrite !andb_true_iff. intros [[Hne _] Hc] Hext.
  apply negb_true_iff, bool_decide_eq_false in Hne. destruct name as [|c name]; [done|].
  assert (name_char c = true) as Hcc by (cbn in Hc; by apply andb_true_iff in Hc as [? _]).
  assert (c <> "."%char) by (by intros ->).
  split_and!; try (cbn; congruence).
  rewrite str_has_app, (str_forall_has name_char "/"%char) by done.
  repeat (apply elem_of_cons in Hext as [->|Hext]; [done|]). by apply not_elem_of_nil in Hext.
Qed.

Lemma strip_common_app l t : strip_common l (l ++ t)%list = ([], t).
Proof. induction l as [|x l IH]; [by destruct t|]. cbn. by rewrite decide_True. Qed.
Lemma Rel_file d p n : IsAbs d = true -> IsAbs p = true -> clean_elems p = (clean_elems d ++ [n])%list ->
  Rel d p = Ok n.
Proof.
  intros Hd Hp E. unfold Rel. rewrite Hd, Hp, E. cbn [Bool.eqb negb].
  rewrite decide_False by (intros H%(f_equal length); rewrite length_app in H; cbn in H; lia).
  rewrite decide_False by (by destruct (clean_elems d)). by rewrite strip_common_app.
Qed.
Lemma IsAbs_Abs wd p q : IsAbs wd = true -> Abs (Ok wd) p = Ok q -> IsAbs q = true.
Proof.
  intros Hw. unfold Abs. destruct (IsAbs p) eqn:E; cbn; intros [= <-].
  - by rewrite IsAbs_Clean.
  - unfold JoinPath. rewrite IsAbs_Clean, IsAbs_snoc; [done|by intros ->].
Qed.
Lemma Abs_total wd p : exists q, Abs (Ok wd) p = Ok q.
Proof. unfold Abs. destruct (IsAbs p); cbn; eauto. Qed.

Section files.
Context (fl : Files) (dir name wd d : string).
Hypothesis (Hwd : fl_Getwd fl = Ok wd) (Hroot : IsAbs wd = true) (Hdir : dir <> "").
Hypothesis (Hd : Abs (Ok wd) dir = Ok d) (Hname : isValidWorkflowName name = true).

Lemma valid_name_no_dots n : str_forall name_char name = true -> HasPrefix (name +:+ n) ".." = false.
Proof using Hname.
  intros Hc. revert Hname. unfold isValidWorkflowName. destruct name as [|c s]; [done|]. intros _.
  change (String c s +:+ n) with (String c (s +:+ n)). rewrite HasPrefix_cons.
  rewrite bool_decide_eq_false_2; [done|]. intros <-. done.
Qed.

(** One extension: the file in the directory, if it is there. *)
Lemma first_file_step ext exts : ext ∈ [".yaml"; ".yml"] -> exists p,
  Abs (Ok wd) (JoinPath dir (name +:+ ext)) = Ok p /\ clean_elems p = (clean_elems d ++ [name +:+ ext])%list /\
  first_file fl dir name (ext :: exts) = if fl_Stat fl p then Ok p else first_file fl dir name exts.
Proof using All.
  intros Hext. pose proof (valid_name_file _ _ Hname Hext) as Hf.
  destruct (Abs_total wd (JoinPath dir (name +:+ ext))) as [p Hp]. exists p.
  pose proof (Abs_file _ _ _ _ _ Hroot Hdir Hf Hd Hp) as E. split_and!; [done..|].
  cbn [first_file]. rewrite Hwd, Hp, Hd.
  rewrite (Rel_file d p (name +:+ ext)) by (done || eauto using IsAbs_Abs).
  rewrite valid_name_no_dots; [done|]. unfold isValidWorkflowName in Hname. by apply andb_true_iff in Hname as [_ ?].
Qed.
End files.

(** The workflow of a valid name is the file of that name in the workflows
    directory, with the extension .yaml or .yml, and it is found exactly when
    one of the two exists; another name is refused. *)
Theorem findWorkflowPath_exact fl workflowsDir name wd d :
  fl_Getwd fl = Ok wd -> IsAbs wd = true -> Abs (Ok wd) (search_dir fl workflowsDir) = Ok d ->
  match findWorkflowPath fl workflowsDir name with
  | Ok p => isValidWorkflowName name = true /\ fl_Stat fl p = true /\
      exists ext, ext ∈ [".yaml"; ".yml"] /\ clean_elems p = (clean_elems d ++ [name +:+ ext])%list
  | Err _ => isValidWorkflowName name = false \/ forall ext p, ext ∈ [".yaml"; ".yml"] ->
      Abs (Ok wd) (JoinPath (search_dir fl workflowsDir) (name +:+ ext)) = Ok p -> fl_Stat fl p = false
  end.
Proof.
  intros Hwd Hroot Hd. unfold findWorkflowPath. destruct (isValidWorkflowName name) eqn:Hn; [|by left].
  assert (search_dir fl workflowsDir <> "") as Hne.
  { unfold search_dir. case_decide; [|done]. rewrite Hwd. by intros ->. }
  assert (forall exts, exts ⊆ [".yaml"; ".yml"] ->
    match first_file fl (search_dir fl workflowsDir) name exts with
    | Ok p => fl_Stat fl p = true /\
        exists ext, ext ∈ [".yaml"; ".yml"] /\ clean_elems p = (clean_elems d ++ [name +:+ ext])%list
    | Err _ => forall ext p, ext ∈ exts ->
        Abs (Ok wd) (JoinPath (search_dir fl workflowsDir) (name +:+ ext)) = Ok p -> fl_Stat fl p = false
    end) as H.
  { induction exts as [|ext exts IH]; intros Hs; [by intros ? ? []%not_elem_of_nil|].
    assert (ext ∈ [".yaml"; ".yml"]) as Hext by (apply Hs; by left).
    destruct (first_file_step fl _ name wd d Hwd Hroot Hne Hd Hn ext exts Hext) as (p & Hp & E & ->).
    destruct (fl_Stat fl p) eqn:Es; [by eauto|].
    assert (exts ⊆ [".yaml"; ".yml"]) as Hs' by (intros x ?; apply Hs; by right).
    specialize (IH Hs'). destruct (first_file _ _ _ exts); [done|].
    intros ext' p' [->|?]%elem_of_cons ?; [congruence|eauto]. }
  specialize (H _ ltac:(reflexivity)). destruct (first_file _ _ _ _); naive_solver.
Qed.

(** ** The rate limiter *)

(** How many of the times lie in a window that starts at [t0]. *)
Definition in_window (w t0 : Z) (ts : list Z) : nat := length (filter (fun t => t0 <= t <= t0 + w) ts).

Lemma in_window_app w t0 l1 l2 : in_window w t0 (l1 ++ l2)%list = (in_window w t0 l1 + in_window w t0 l2)%nat.
Proof. unfold in_window. by rewrite filter_app, length_app. Qed.
Lemma in_window_length w t0 l : (in_window w t0 l <= length l)%nat.
Proof. apply length_filter. Qed.
Lemma in_window_none w t0 l : Forall (fun t => t < t0) l -> in_window w t0 l = 0%nat.
Proof.
  intros H. unfold in_window. rewrite list_filter_none; [done|].
  eapply Forall_impl; [exact H|]. cbn. lia.
Qed.

(** A client's limiter and the times at which it let the client through,
    newest first: those of the window under way, at most as many of the
    window before, and others that are more than a window older. *)
Record window_inv (w : Z) (max : nat) (clock : Z) (l : ipLimiter) (ts : list Z) : Prop := {
  wi_range : 0 <= lm_windowStart l <= clock;
  wi_split : exists cur prev old, ts = (cur ++ prev ++ old)%list /\
    lm_count l = Z.of_nat (length cur) /\ (length cur <= max)%nat /\ (length prev <= max)%nat /\
    Forall (fun t => lm_windowStart l <= t <= clock /\ t <= lm_windowStart l + w) cur /\
    Forall (fun t => t < lm_windowStart l) prev /\ Forall (fun t => t + w < lm_windowStart l) old;
  wi_bound : forall t0, (in_window w t0 ts <= 2 * max)%nat
}.

Lemma window_later w max c c' l ts : c <= c' -> window_inv w max c l ts -> window_inv w max c' l ts.
Proof.
  intros Hc [H1 (cur & prev & old & H2 & H3 & H4 & H5 & H6 & H7 & H8) H9].
  split; [lia| |done]. exists cur, prev, old. split_and!; try done.
  eapply Forall_impl; [exact H6|]. cbn. lia.
Qed.
Lemma window_start w max c : 0 <= c -> window_inv w max c (mkLimiter 0 c) [].
Proof. intros Hc. split; [cbn; lia| |cbn; lia]. exists [], [], []. by split_and!; try constructor; cbn; lia. Qed.
(** The window has passed: a new one starts. *)
Lemma window_reset w max c l ts : 0 <= w -> lm_windowStart l + w < c ->
  window_inv w max c l ts -> window_inv w max c (mkLimiter 0 c) ts.
Proof.
  intros Hw Hs [H1 (cur & prev & old & H2 & H3 & H4 & H5 & H6 & H7 & H8) H9].
  split; [cbn; lia| |done]. exists [], cur, (prev ++ old)%list. cbn. split_and!; try done; try lia.
  - eapply Forall_impl; [exact H6|]. cbn. lia.
  - apply Forall_app. split; (eapply Forall_impl; [eassumption|]; cbn; lia).
Qed.
(** One more request in the window under way. *)
Lemma window_count w max c l ts : 0 <= w -> c <= lm_windowStart l + w -> lm_count l < Z.of_nat max ->
  window_inv w max c l ts -> window_inv w max c (mkLimiter (lm_count l + 1) (lm_windowStart l)) (c :: ts).
Proof.
  intros Hw Hc Hlt [H1 (cur & prev & old & H2 & H3 & H4 & H5 & H6 & H7 & H8) H9].
  split; [done| |].
  - exists (c :: cur), prev, old. cbn. rewrite H2. split_and!; try done; try lia. constructor; [lia|done].
  - intros t0. destruct (decide (t0 <= c <= t0 + w)) as [Hin|Hout].
    + change (c :: ts) with ([c] ++ ts)%list. rewrite H2, !in_window_app.
      rewrite (in_window_none w t0 old) by (eapply Forall_impl; [exact H8|]; cbn; lia).
      pose proof (in_window_length w t0 [c]). pose proof (in_window_length w t0 cur).
      pose proof (in_window_length w t0 prev). cbn in *. lia.
    + unfold in_window. rewrite filter_cons_False by done. apply H9.
Qed.

Definition client_inv (w : Z) (max : nat) (clock : Z) (l : option ipLimiter) (ts : list Z) : Prop :=
  match l with Some l => window_inv w max clock l ts | None => ts = [] end.

Lemma Allow_client w max now ip rl ts ok rl' : on_clock now -> 0 <= w ->
  rl_window rl = w -> rl_maxReq rl = Z.of_nat max ->
  client_inv w max now (rl_limiters rl !! ip) ts -> Allow now ip rl = (ok, rl') ->
  client_inv w max now (rl_limiters rl' !! ip) (if ok then now :: ts else ts) /\
  rl_window rl' = w /\ rl_maxReq rl' = Z.of_nat max /\
  forall ip', ip' <> ip -> rl_limiters rl' !! ip' = rl_limiters rl !! ip'.
Proof.
  intros Hn Hw Ew Em Hi Ha. unfold Allow in Ha. rewrite Ew, Em in Ha.
  set (l := default (mkLimiter 0 now) (rl_limiters rl !! ip)) in Ha.
  assert (window_inv w max now l ts) as Hl.
  { subst l. destruct (rl_limiters rl !! ip); cbn in *; [done|]. subst ts. apply window_start. apply Hn. }
  set (l' := if w <? Sub now (lm_windowStart l) then mkLimiter 0 now else l) in Ha.
  assert (window_inv w max now l' ts /\ now <= lm_windowStart l' + w) as [Hl' Hc].
  { subst l'. pose proof (wi_range _ _ _ _ _ Hl). destruct Hn as [Hn1 Hn2].
    rewrite Sub_exact by (split; lia). destruct (Z.ltb_spec w (now - lm_windowStart l)).
    - split; [|cbn; lia]. eapply window_reset; [done| |done]. lia.
    - split; [done|lia]. }
  destruct (Z.leb_spec (Z.of_nat max) (lm_count l')); injection Ha as <- <-; cbn [rl_limiters rl_window rl_maxReq].
  all: rewrite lookup_insert_eq; split_and!; try done; try (intros; by rewrite lookup_insert_ne).
  by apply window_count.
Qed.

(** ** The server *)

(** The times at which a client was let through, newest first. *)
Definition let_through (ip : string) (log : list event) : list Z :=
  omap (fun e => match e with EvAllow t ip' true => if decide (ip' = ip) then Some t else None | _ => None end) log.
Lemma let_through_app ip l1 l2 : let_through ip (l1 ++ l2)%list = (let_through ip l1 ++ let_through ip l2)%list.
Proof. apply omap_app. Qed.

(** The requests that were authenticated and those that became a task, with
    their bodies; handlers that are past authentication. *)
Definition auths (log : list event) : list (Request * string) :=
  omap (fun e => match e with EvAuth _ r body => Some (r, body) | _ => None end) log.
Definition accepts (log : list event) : list (Request * string) :=
  omap (fun e => match e with EvAccept _ r body _ => Some (r, body) | _ => None end) log.
Definition past_auth (hs : list (Request * phase)) : list (Request * string) :=
  omap (fun h : Request * phase => match h with
    | (r, PhAuthorized body) | (r, PhFound body) | (r, PhSlot body) => Some (r, body) | _ => None end) hs.
Lemma auths_app l1 l2 : auths (l1 ++ l2)%list = (auths l1 ++ auths l2)%list.
Proof. apply omap_app. Qed.
Lemma accepts_app l1 l2 : accepts (l1 ++ l2)%list = (accepts l1 ++ accepts l2)%list.
Proof. apply omap_app. Qed.
Lemma past_auth_app l1 l2 : past_auth (l1 ++ l2)%list = (past_auth l1 ++ past_auth l2)%list.
Proof. apply omap_app. Qed.

(** The delivery a signature without a timestamp is bound to. *)
Definition by_delivery (r : Request) : option string :=
  if decide (rq_Header r "X-Hub-Signature-256" <> "" /\ rq_Header r "X-Timestamp" = "" /\ platformDeliveryID r <> "")
  then Some (platformDeliveryID r) else None.

Section credentials.
Context (hmac : string -> string -> string) (secret : string).

(** *** Authentication *)

(** What a request can prove at time [now]. *)
Inductive credential (now : Z) (r : Request) (body : string) : Prop :=
| cr_open : secret = "" -> credential now r body
| cr_secret : rq_Header r "X-Hub-Signature-256" = "" -> rq_Header r "X-Webhook-Secret" = secret ->
    credential now r body
| cr_timed ts : rq_Header r "X-Timestamp" <> "" -> Atoi (TrimSpace (rq_Header r "X-Timestamp")) = Some ts ->
    fresh now ts ->
    parseSignatureHeader (rq_Header r "X-Hub-Signature-256") = Some (hmac secret (Itoa ts +:+ "." +:+ body)) ->
    credential now r body
| cr_delivery id : by_delivery r = Some id ->
    parseSignatureHeader (rq_Header r "X-Hub-Signature-256") = Some (hmac secret body) ->
    credential now r body.

(** The delivery id that is recorded for a request, if one is. *)
Definition recorded (r : Request) : option string := if decide (secret = "") then None else by_delivery r.

Lemma parse_empty : parseSignatureHeader "" = None.
Proof. done. Qed.
Lemma verifyTimestamped_iff now body sig tsh : on_clock now ->
  verifyTimestampedSignature hmac secret now body sig tsh = None <->
  exists ts, Atoi (TrimSpace tsh) = Some ts /\ fresh now ts /\
    parseSignatureHeader sig = Some (hmac secret (Itoa ts +:+ "." +:+ body)).
Proof.
  intros Hn. unfold verifyTimestampedSignature. destruct (Atoi (TrimSpace tsh)) as [ts|] eqn:Ea; [|naive_solver].
  pose proof (drift_fresh now ts Hn (Atoi_in_int64 _ _ Ea)) as Hf.
  destruct (_ <? _); [naive_solver|]. assert (fresh now ts) by (by apply Hf).
  destruct (parseSignatureHeader sig) as [got|]; [|naive_solver].
  case_decide; naive_solver.
Qed.

(** Authentication lets a request through exactly when it has a credential,
    and not twice for a delivery. *)
Lemma requireAuth_iff now r body c : on_clock now ->
  (requireAuth hmac secret now r body c).1 = None <->
  credential now r body /\ forall id, recorded r = Some id -> is_replay now id c = false.
Proof.
  intros Hn. unfold requireAuth, recorded, by_delivery.
  case_decide as Hs; [split; [split; [by apply cr_open|done]|done]|].
  destruct (decide (rq_Header r "X-Hub-Signature-256" <> "")) as [Hsig|Hsig].
  - unfold verifySignature. destruct (decide (rq_Header r "X-Timestamp" <> "")) as [Ht|Ht].
    + pose proof (verifyTimestamped_iff now body (rq_Header r "X-Hub-Signature-256") (rq_Header r "X-Timestamp") Hn) as Hv.
      rewrite decide_False by tauto. destruct (verifyTimestampedSignature _ _ _ _ _ _); cbn.
      * split; [done|]. intros [[?|?|ts ???|id Hid] _]; [done..| |]; [by destruct Hv as [_ Hv]; discriminate Hv; eauto|].
        unfold by_delivery in Hid. rewrite decide_False in Hid by tauto. done.
      * split; [|done]. intros _. destruct Hv as [(ts & ? & ? & ?) _]; [done|]. split; [by eapply cr_timed|done].
    + apply dec_stable in Ht. destruct (decide (platformDeliveryID r <> "")) as [Hd|Hd].
      * rewrite decide_True by tauto. unfold verifyWebhookSignature.
        assert (by_delivery r = Some (platformDeliveryID r)) as Hby by (unfold by_delivery; rewrite decide_True; tauto).
        destruct (parseSignatureHeader _) as [got|] eqn:Ep.
        -- case_bool_decide as Eg; [|split; [done|]; intros [[]]; naive_solver].
           subst got. unfold Record_. destruct (is_replay now (platformDeliveryID r) c) eqn:Er; cbn.
           ++ split; [done|]. intros [_ H]. specialize (H _ eq_refl). congruence.
           ++ split; [|done]. intros _. split; [by eapply cr_delivery|]. by intros id [= <-].
        -- split; [done|]. intros [[]]; naive_solver.
      * split; [done|]. intros [[?|?|ts ???|id Hid] _]; [done..|].
        unfold by_delivery in Hid. rewrite decide_False in Hid by tauto. done.
  - pose proof (dec_stable Hsig) as E. rewrite decide_False by tauto. unfold requireSecret. rewrite decide_False by done. case_decide as Hk; cbn.
    + split; [|done]. intros _. split; [by apply cr_secret|done].
    + split; [done|]. intros [[?|?|ts ??? Hp|id ? Hp] _]; [done..| |]; rewrite E in Hp; done.
Qed.

(** What authentication does to the cache. *)
Lemma requireAuth_cache now r body c :
  match requireAuth hmac secret now r body c with
  | (None, c') => c' = match recorded r with Some id => (Record_ now id c).2 | None => c end
  | (Some _, c') => c' = c \/ exists id, is_replay now id c = true /\ c' = remember id now c
  end.
Proof.
  unfold requireAuth, recorded, by_delivery. case_decide as Hs; [done|].
  destruct (decide (rq_Header r "X-Hub-Signature-256" <> "")) as [Hsig|Hsig].
  - unfold verifySignature. destruct (decide (rq_Header r "X-Timestamp" <> "")) as [Ht|Ht].
    + rewrite decide_False by tauto. destruct (verifyTimestampedSignature _ _ _ _ _ _); by try left.
    + apply dec_stable in Ht. destruct (decide (platformDeliveryID r <> "")) as [Hd|Hd]; [|by left].
      destruct (verifyWebhookSignature _ _ _ _); [|by left]. rewrite decide_True by tauto.
      unfold Record_. destruct (is_replay _ _ _) eqn:E; [|done]. right. by eexists.
  - rewrite decide_False by tauto. destruct (requireSecret _ _); by try left.
Qed.

(** The delivery that an event authenticated, with its time. *)
Definition delivery_of (e : event) : option (string * Z) :=
  match e with EvAuth t r _ => (fun id => (id, t)) <$> recorded r | _ => None end.
(** No delivery is authenticated again within the window. *)
Fixpoint spaced (log : list event) : Prop :=
  match log with
  | [] => True
  | e :: log => (forall id t, delivery_of e = Some (id, t) -> forall e' t', e' ∈ log ->
                   delivery_of e' = Some (id, t') -> t' + deliveryDedupWindow <= t) /\ spaced log
  end.

(** The cache remembers every delivery of the log that is not a window old. *)
Record cache_inv (clock : Z) (c : deliveryCache) (log : list event) : Prop := {
  ci_window : dc_window c = deliveryDedupWindow;
  ci_seen : forall id u, dc_seen c !! id = Some u -> 0 <= u <= clock;
  ci_known : forall e id t, e ∈ log -> delivery_of e = Some (id, t) ->
    t + deliveryDedupWindow <= clock \/ exists u, dc_seen c !! id = Some u /\ t <= u;
  ci_past : forall e id t, e ∈ log -> delivery_of e = Some (id, t) -> t <= clock;
  ci_spaced : spaced log
}.

Lemma cache_later c1 c2 c log : c1 <= c2 -> cache_inv c1 c log -> cache_inv c2 c log.
Proof.
  intros Hc [H1 H2 H3 H4 H5]. split; try done.
  - intros id u Hu. specialize (H2 id u Hu). lia.
  - intros e id t He Hd. destruct (H3 e id t He Hd) as [?|?]; [left; lia|by right].
  - intros e id t He Hd. specialize (H4 e id t He Hd). lia.
Qed.
Lemma cache_remember clock c log id : 0 <= clock -> cache_inv clock c log -> cache_inv clock (remember id clock c) log.
Proof.
  intros Hc [H1 H2 H3 H4 H5]. split; try done; cbn.
  - intros id' u. rewrite lookup_insert_Some. intros [[_ <-]|[_ ?]]; [lia|eauto].
  - intros e id' t He Hd. destruct (H3 e id' t He Hd) as [?|(u & Hu & Ht)]; [by left|right].
    destruct (decide (id = id')) as [->|Hne].
    + exists clock. rewrite lookup_insert_eq. split; [done|]. eauto.
    + exists u. by rewrite lookup_insert_ne.
Qed.
Lemma cache_sweep clock c log : on_clock clock -> cache_inv clock c log -> cache_inv clock (sweepLocked clock c) log.
Proof.
  intros Hc [H1 H2 H3 H4 H5]. split; try done; cbn.
  - intros id u [Hu _]%map_lookup_filter_Some. eauto.
  - intros e id t He Hd. destruct (H3 e id t He Hd) as [?|(u & Hu & Ht)]; [by left|].
    specialize (H2 _ _ Hu). destruct (decide (deliveryDedupWindow <= Sub clock u)) as [Hw|Hw].
    + left. rewrite Sub_exact in Hw by (destruct Hc; split; lia). lia.
    + right. exists u. split; [|done]. apply map_lookup_filter_Some. by rewrite H1.
Qed.
(** An event that authenticates no delivery. *)
Lemma cache_other clock c log e : delivery_of e = None -> cache_inv clock c log -> cache_inv clock c (e :: log).
Proof.
  intros He [H1 H2 H3 H4 H5]. split; try done.
  1,2: intros e' id t [->|?]%elem_of_cons ?; [congruence|eauto].
  split; [|done]. intros; congruence.
Qed.
Lemma cache_others clock c log evs : Forall (fun e => delivery_of e = None) evs ->
  cache_inv clock c log -> cache_inv clock c (evs ++ log)%list.
Proof. intros He Hi. induction He; [done|]. by apply cache_other. Qed.
Lemma cache_record clock c log id e : on_clock clock -> is_replay clock id c = false ->
  delivery_of e = Some (id, clock) -> cache_inv clock c log -> cache_inv clock (Record_ clock id c).2 (e :: log).
Proof.
  intros Hc Hr He Hi.
  assert (forall e' t', e' ∈ log -> delivery_of e' = Some (id, t') -> t' + deliveryDedupWindow <= clock) as Hgap.
  { intros e' t' Hin Hd. destruct (ci_known _ _ _ Hi e' id t' Hin Hd) as [?|(u & Hu & ?)]; [done|].
    unfold is_replay in Hr. rewrite Hu, (ci_window _ _ _ Hi) in Hr. apply Z.ltb_ge in Hr.
    pose proof (ci_seen _ _ _ Hi _ _ Hu). rewrite Sub_exact in Hr by (destruct Hc; split; lia). lia. }
  unfold Record_. rewrite Hr. cbn [snd].
  set (c1 := if _ <=? _ then _ else _). assert (cache_inv clock c1 log) as H1.
  { subst c1. destruct (_ <=? _); [by apply cache_sweep|done]. }
  apply (cache_remember _ _ _ id) in H1; [|apply Hc]. destruct H1 as [H1 H2 H3 H4 H5]. split; try done.
  - intros e' id' t [->|?]%elem_of_cons Hd; [|by eauto]. rewrite He in Hd. injection Hd as <- <-. right. exists clock.
    cbn. by rewrite lookup_insert_eq.
  - intros e' id' t [->|?]%elem_of_cons Hd; [|by eauto]. rewrite He in Hd. injection Hd as <- <-. lia.
  - split; [|done]. intros id' t Hd. rewrite He in Hd. injection Hd as <- <-. exact Hgap.
Qed.
End credentials.

Section handlers.
Context (hmac : string -> string -> string) (secret : string) (trustProxy : bool) (workflowsDir : string).
Context {W S : Type}.

(** *** Who is served *)

Record auth_inv (m : @machine W S) : Prop := {
  ha_clock : on_clock (mc_clock m);
  ha_cache : cache_inv secret (mc_clock m) (sv_deliveries (mc_server m)) (mc_log m);
  ha_flow : (accepts (mc_log m) ++ past_auth (mc_handlers m))%list ⊆+ auths (mc_log m);
  ha_cred : forall t r body, EvAuth t r body ∈ mc_log m ->
    credential hmac secret t r body /\ read_request r = inl body;
  ha_body : forall r body, (r, PhAllowed body) ∈ mc_handlers m -> read_request r = inl body
}.

(** A handler's phase that leaves the cache alone and logs no
    authentication. *)
Lemma auth_inv_quiet m s l1 r ph l2 next runs evs :
  auth_inv m -> mc_handlers m = (l1 ++ (r, ph) :: l2)%list -> sv_deliveries s = sv_deliveries (mc_server m) ->
  Forall (fun e => match e with EvAuth _ _ _ => False | _ => True end) evs ->
  (forall r body, (r, PhAllowed body) ∈ next -> read_request r = inl body) ->
  (accepts evs ++ past_auth next)%list ⊆+ past_auth [(r, ph)] ->
  auth_inv (mkMachine (mc_clock m) s (l1 ++ next ++ l2)%list runs (mc_world m) (evs ++ mc_log m)%list).
Proof.
  intros [H1 H2 H3 H4 H5] Hh Hd Hq Hb Hf.
  assert (auths evs = []) as Ha.
  { clear Hf. unfold auths. induction Hq as [|e evs He _ IH]; [done|]. cbn. destruct e; [exact IH|done|exact IH]. }
  split; cbn [mc_clock mc_server mc_handlers mc_log]; try done.
  - rewrite Hd. apply cache_others; [|done]. eapply Forall_impl; [exact Hq|]. by intros [].
  - rewrite accepts_app, auths_app, Ha, !past_auth_app. rewrite Hh, past_auth_app in H3.
    etransitivity; [|exact H3]. change ((r, ph) :: l2) with ([(r, ph)] ++ l2)%list. rewrite past_auth_app.
    transitivity ((accepts evs ++ past_auth next) ++ (accepts (mc_log m) ++ past_auth l1 ++ past_auth l2))%list.
    { apply Permutation_submseteq. solve_Permutation. }
    transitivity (past_auth [(r, ph)] ++ (accepts (mc_log m) ++ past_auth l1 ++ past_auth l2))%list.
    { by apply submseteq_app. }
    apply Permutation_submseteq. solve_Permutation.
  - intros t r' body [Hin|Hin]%elem_of_app; [|by eauto]. rewrite Forall_forall in Hq. by apply Hq in Hin.
  - intros r' body. rewrite !elem_of_app. intros [?|[?|?]]; [|by eauto|];
      apply H5; rewrite Hh; set_solver.
Qed.

(** Authentication itself. *)
Lemma auth_inv_check m ob l1 r body l2 s next runs :
  auth_inv m -> mc_handlers m = (l1 ++ (r, PhAllowed body) :: l2)%list -> ob_now ob = mc_clock m ->
  handle_phase hmac secret trustProxy workflowsDir ob r (PhAllowed body) (mc_server m) = (s, next) ->
  auth_inv (mkMachine (mc_clock m) s
    (l1 ++ match next with inl ph' => [(r, ph')] | inr _ => [] end ++ l2)%list runs (mc_world m)
    (events_of hmac secret trustProxy workflowsDir ob r (PhAllowed body) (mc_server m) ++ mc_log m)%list).
Proof.
  intros Hinv Hh Ho Hp. pose proof Hinv as [H1 H2 H3 H4 H5]. unfold events_of. rewrite Hp. cbn [snd].
  cbn [handle_phase] in Hp. rewrite Ho in *.
  pose proof (requireAuth_iff hmac secret (mc_clock m) r body (sv_deliveries (mc_server m)) H1) as Hi.
  pose proof (requireAuth_cache hmac secret (mc_clock m) r body (sv_deliveries (mc_server m))) as Hc.
  assert (forall r' b' l, (r', PhAllowed b') ∈ (l1 ++ l ++ l2)%list ->
    ((r', PhAllowed b') ∉ l) -> read_request r' = inl b') as Hbody.
  { intros r' b' l. rewrite !elem_of_app. intros ??. apply H5. rewrite Hh. set_solver. }
  destruct (requireAuth _ _ _ _ _ _) as [refused c]. cbn [fst] in Hi. simplify_eq.
  destruct refused as [e|]; cbn [app].
  - split; cbn [mc_clock mc_server mc_handlers mc_log sv_deliveries]; try done.
    + destruct Hc as [->|(id & _ & ->)]; [done|]. apply cache_remember; [apply H1|done].
    + rewrite Hh, !past_auth_app in H3. by rewrite past_auth_app.
    + intros r' b' Hin. apply (Hbody r' b' []); [done|]. apply not_elem_of_nil.
  - destruct Hi as [[Hcred Hrep] _]; [done|].
    split; cbn [mc_clock mc_server mc_handlers mc_log sv_deliveries]; try done.
    + rewrite Hc. destruct (recorded secret r) as [id|] eqn:Er.
      * apply cache_record; [done|by apply Hrep| |done]. cbn. by rewrite Er.
      * apply cache_other; [|done]. cbn. by rewrite Er.
    + rewrite Hh, !past_auth_app in H3. rewrite past_auth_app.
      change (accepts (EvAuth (mc_clock m) r body :: mc_log m)) with (accepts (mc_log m)).
      change (auths (EvAuth (mc_clock m) r body :: mc_log m)) with ((r, body) :: auths (mc_log m)).
      change (past_auth ((r, PhAuthorized body) :: l2)) with ((r, body) :: past_auth l2).
      transitivity ((r, body) :: (accepts (mc_log m) ++ past_auth l1 ++ past_auth l2))%list;
        [apply Permutation_submseteq; solve_Permutation|by apply submseteq_skip].
    + intros t r' b' [E|?]%elem_of_cons; [|by eauto]. simplify_eq. split; [done|]. apply H5. rewrite Hh. set_solver.
    + intros r' b' Hin. apply (Hbody r' b' [(r, PhAuthorized body)]); [done|]. by intros [=]%list_elem_of_singleton.
Qed.

Lemma auth_inv_handle m ob l1 r ph l2 s next :
  auth_inv m -> mc_handlers m = (l1 ++ (r, ph) :: l2)%list -> ob_now ob = mc_clock m ->
  handle_phase hmac secret trustProxy workflowsDir ob r ph (mc_server m) = (s, next) ->
  auth_inv (mkMachine (mc_clock m) s
    (l1 ++ match next with inl ph' => [(r, ph')] | inr _ => [] end ++ l2)%list (mc_runs m ++ spawned ob r ph)%list
    (mc_world m) (events_of hmac secret trustProxy workflowsDir ob r ph (mc_server m) ++ mc_log m)%list).
Proof.
  intros Hinv Hh Ho Hp. destruct ph; [|by apply auth_inv_check|..];
    eapply auth_inv_quiet; try done; cbn [handle_phase] in Hp; unfold events_of; cbn [handle_phase];
    try (by repeat constructor); clear Hinv Hh Ho; repeat case_match; simplify_eq; try done; cbn [sv_deliveries];
    try (intros ? ? [=]%list_elem_of_singleton; by simplify_eq);
    try (intros ? ? []%not_elem_of_nil); try apply submseteq_nil_l; reflexivity.
Qed.
End handlers.

(** ** The task table *)

Definition accepted_ids (log : list event) : list string :=
  omap (fun e => match e with EvAccept _ _ _ id => Some id | _ => None end) log.
Definition terminal (st : TaskStatus) : Prop := st = TaskCompleted \/ st = TaskFailed.

(** What the table says of a task whose goroutine is at a phase. *)
Definition tracked (ph : tphase) (k : option Task) : Prop :=
  match ph, k with
  | TStart, Some k => tk_Status k = TaskPending /\ tk_StartedAt k = None
  | TBody, Some k => tk_Status k = TaskRunning /\ is_Some (tk_StartedAt k)
  | TEnd (st, _, _), Some k => terminal st /\ tk_Status k = TaskRunning /\ is_Some (tk_StartedAt k)
  | TRelease, Some k => terminal (tk_Status k) /\ is_Some (tk_StartedAt k)
  | TRelease, None => True
  | _, None => False
  end.
Record table_inv (tasks : task_table) (runs : list trun) (ids : list string) : Prop := {
  tb_nodup : NoDup (tr_id <$> runs);
  tb_known : forall t, t ∈ runs -> tr_id t ∈ ids;
  tb_dom : forall id k, tasks !! id = Some k -> id ∈ ids;
  tb_run : forall t, t ∈ runs -> tracked (tr_phase t) (tasks !! tr_id t);
  tb_task : forall id k, tasks !! id = Some k -> ~ terminal (tk_Status k) -> exists t, t ∈ runs /\ tr_id t = id;
  tb_done : forall id k, tasks !! id = Some k -> tk_ID k = id /\ (terminal (tk_Status k) <-> is_Some (tk_CompletedAt k))
}.

Lemma table_accept tasks runs ids name body query now id : table_inv tasks runs ids -> id ∉ ids ->
  table_inv (addTask (mkTask id name body TaskPending "" "" now None None) tasks)
    (runs ++ [mkRun id name body query TStart])%list (id :: ids).
Proof.
  intros [H1 H2 H3 H4 H5 H6] Hid. unfold addTask. cbn [tk_ID].
  assert (forall t, t ∈ runs -> tr_id t <> id) as Hne by (intros t Ht E; apply Hid; rewrite <- E; auto).
  split.
  - rewrite fmap_app. apply NoDup_app. split_and!; [done| |apply NoDup_singleton].
    intros x (t & -> & Ht)%list_elem_of_fmap Hx%list_elem_of_singleton. by eapply Hne.
  - intros t [?|E%list_elem_of_singleton]%elem_of_app; [right; eauto|subst t; left].
  - intros id' k. rewrite lookup_insert_Some. intros [[<- _]|[_ ?]]; [left|right; eauto].
  - intros t [Ht|E%list_elem_of_singleton]%elem_of_app; [|subst t].
    + rewrite lookup_insert_ne by (by apply not_eq_sym, Hne). eauto.
    + cbn. by rewrite lookup_insert_eq.
  - intros id' k. rewrite lookup_insert_Some. intros [[<- <-]|[_ Hk]] Ht.
    + eexists. split; [apply elem_of_app; right; by apply list_elem_of_singleton|done].
    + destruct (H5 id' k Hk Ht) as (t & ? & ?). exists t. set_solver.
  - intros id' k. rewrite lookup_insert_Some. intros [[<- <-]|[_ Hk]]; [|eauto]. cbn.
    split; [done|]. unfold terminal. split; [naive_solver|by intros []].
Qed.

(** A goroutine's step changes its own task. *)
Lemma table_move tasks tasks' l1 l2 t t' ids : table_inv tasks (l1 ++ t :: l2)%list ids -> tr_id t' = tr_id t ->
  (forall id, id <> tr_id t -> tasks' !! id = tasks !! id) -> tracked (tr_phase t') (tasks' !! tr_id t) ->
  (forall k, tasks' !! tr_id t = Some k ->
     tk_ID k = tr_id t /\ (terminal (tk_Status k) <-> is_Some (tk_CompletedAt k))) ->
  table_inv tasks' (l1 ++ t' :: l2)%list ids.
Proof.
  intros [H1 H2 H3 H4 H5 H6] Hid Hout Htr Hk.
  assert (forall u, u ∈ l1 \/ u ∈ l2 -> tr_id u <> tr_id t) as Hne.
  { rewrite fmap_app, fmap_cons in H1. apply NoDup_app in H1 as (_ & Hd & [Hd2 _]%NoDup_cons).
    intros u [Hu|Hu] E; [apply (Hd (tr_id u))|apply Hd2; rewrite <- E]; rewrite ?E; set_solver. }
  split.
  - rewrite fmap_app, fmap_cons, Hid. by rewrite fmap_app, fmap_cons in H1.
  - intros u [?|[->|?]%elem_of_cons]%elem_of_app; [|rewrite Hid|]; apply H2; set_solver.
  - intros id k Hl. destruct (decide (id = tr_id t)) as [->|]; [apply H2; set_solver|]. rewrite Hout in Hl by done. eauto.
  - intros u Hu. assert (u = t' \/ u ∈ l1 \/ u ∈ l2) as [->|Hu'] by set_solver; [by rewrite Hid|].
    rewrite Hout by auto. apply H4. set_solver.
  - intros id k Hl Hterm. destruct (decide (id = tr_id t)) as [->|Hn]; [exists t'; set_solver|].
    rewrite Hout in Hl by done. destruct (H5 id k Hl Hterm) as (u & Hu & <-). exists u. split; [|done].
    assert (u <> t) by congruence. set_solver.
  - intros id k Hl. destruct (decide (id = tr_id t)) as [->|Hn]; [auto|]. rewrite Hout in Hl by done. eauto.
Qed.
Lemma table_release tasks l1 l2 t ids : table_inv tasks (l1 ++ t :: l2)%list ids -> tr_phase t = TRelease ->
  table_inv tasks (l1 ++ l2)%list ids.
Proof.
  intros [H1 H2 H3 H4 H5 H6] Hp. split; try done.
  - rewrite fmap_app in *. rewrite fmap_cons in H1. apply NoDup_app in H1 as (? & Hd & [? ?]%NoDup_cons).
    apply NoDup_app. split_and!; try done. intros x Hx ?. apply (Hd x Hx). by right.
  - intros u Hu. apply H2. set_solver.
  - intros u Hu. apply H4. set_solver.
  - intros id k Hl Hterm. destruct (H5 id k Hl Hterm) as (u & Hu & <-). exists u. split; [|done].
    assert (u <> t); [|set_solver]. intros ->. assert (t ∈ (l1 ++ t :: l2)%list) as Ht by set_solver.
    apply H4 in Ht. rewrite Hp, Hl in Ht. by destruct Ht.
Qed.
Lemma table_clean now tasks runs ids : table_inv tasks runs ids -> table_inv (cleanupTasks now tasks) runs ids.
Proof.
  intros [H1 H2 H3 H4 H5 H6].
  assert (forall id k, cleanupTasks now tasks !! id = Some k -> tasks !! id = Some k) as Hsub
    by (by intros id k [? _]%map_lookup_filter_Some).
  split; try done; [by eauto| |by eauto|by eauto].
  intros t Ht. specialize (H4 t Ht). destruct (tasks !! tr_id t) as [k|] eqn:Ek.
  - destruct (too_old now k) eqn:Eo.
    + assert (cleanupTasks now tasks !! tr_id t = None) as ->.
      { apply map_lookup_filter_None. right. intros k' Hk'. cbn. congruence. }
      unfold too_old, finished in Eo. apply andb_true_iff in Eo as [Eo _].
      destruct (tr_phase t) as [| |[[? ?] ?]|]; cbn in *; destruct (tk_Status k); naive_solver.
    + assert (cleanupTasks now tasks !! tr_id t = Some k) as -> by (by apply map_lookup_filter_Some). done.
  - destruct (cleanupTasks now tasks !! tr_id t) eqn:E; [|done]. apply Hsub in E. congruence.
Qed.

(** ** Outcomes of tasks *)

(** What a client may read about a failed task. *)
Definition public_error (name msg : string) : Prop :=
  msg ∈ ["workflow parse failed"; "workflow blocked by policy"; "workflow execution failed"; "invalid workflow name";
         "workflow " +:+ quoted name +:+ " not found"] \/ HasPrefix msg "panic: " = true.
Definition sound_outcome (name : string) (o : TaskStatus * string * string) : Prop :=
  match o with
  | (TaskCompleted, _, msg) => msg = ""
  | (TaskFailed, output, msg) => output = "" /\ public_error name msg
  | _ => False
  end.

Lemma findWorkflowPath_error fl workflowsDir name e : findWorkflowPath fl workflowsDir name = Err e -> public_error name e.
Proof.
  unfold findWorkflowPath. destruct (isValidWorkflowName name); [|intros [= <-]; left; set_solver].
  set (exts := [".yaml"; ".yml"]). clearbody exts. induction exts as [|ext exts IH]; cbn [first_file].
  - intros [= <-]. left. set_solver.
  - repeat case_match; try done.
Qed.

Lemma sound_terminal name st output msg : sound_outcome name (st, output, msg) -> terminal st.
Proof. unfold terminal. destruct st; cbn; naive_solver. Qed.
Lemma public_parse name : public_error name "workflow parse failed".
Proof. left. set_solver. Qed.
Lemma public_policy name : public_error name "workflow blocked by policy".
Proof. left. set_solver. Qed.
Lemma public_failed name : public_error name "workflow execution failed".
Proof. left. set_solver. Qed.
Lemma public_panic name p : public_error name ("panic: " +:+ p).
Proof. right. apply HasPrefix_app. Qed.

(** The two updates of a goroutine. *)
Lemma table_update tasks l1 l2 t ph f ids : table_inv tasks (l1 ++ t :: l2)%list ids ->
  (forall k, tasks !! tr_id t = Some k -> tracked (tr_phase t) (Some k) -> tracked ph (Some (f k)) /\
     tk_ID (f k) = tk_ID k /\ (terminal (tk_Status (f k)) <-> is_Some (tk_CompletedAt (f k)))) ->
  (tr_phase t <> TRelease) ->
  table_inv (updateTask (tr_id t) f tasks) (l1 ++ at_phase ph t :: l2)%list ids.
Proof.
  intros Hi Hf Hp. assert (t ∈ (l1 ++ t :: l2)%list) as Ht by set_solver.
  pose proof (tb_run _ _ _ Hi t Ht) as Htr. pose proof (tb_done _ _ _ Hi (tr_id t)) as Hd.
  destruct (tasks !! tr_id t) as [k|] eqn:Ek; [|by destruct (tr_phase t) as [| |[[? ?] ?]|]].
  destruct (Hf k eq_refl Htr) as (H1 & H2 & H3). destruct (Hd k eq_refl) as [Hd1 _].
  assert (updateTask (tr_id t) f tasks !! tr_id t = Some (f k)) as E
    by (unfold updateTask; by rewrite lookup_alter_eq, Ek).
  eapply table_move; [exact Hi|done| | |].
  - intros id Hid. by apply lookup_alter_ne.
  - by rewrite E.
  - intros k'. rewrite E. intros [= <-]. by rewrite H2.
Qed.

(** Handlers that hold a slot of the semaphore. *)
Definition holding (hs : list (Request * phase)) : nat :=
  length (omap (fun h : Request * phase => match h with (_, PhSlot _) => Some () | _ => None end) hs).
Lemma holding_app l1 l2 : holding (l1 ++ l2)%list = (holding l1 + holding l2)%nat.
Proof. unfold holding. by rewrite omap_app, length_app. Qed.
Lemma accepted_ids_app l1 l2 : accepted_ids (l1 ++ l2)%list = (accepted_ids l1 ++ accepted_ids l2)%list.
Proof. apply omap_app. Qed.

Section machine.
Context (hmac : string -> string -> string) (secret : string) (trustProxy : bool) (workflowsDir : string).
Context {W S : Type} `{HS : IdempotencyStore S}.
Context (xe : ExecEnv W) (ae : auditEnv W) (env : Env W) (store : Store W) (te : TextEnv).
Context (files : M W Files) (ParseWorkflow : string -> M W (result Workflow)).

Abbreviation step := (server_step hmac secret trustProxy workflowsDir xe ae env store te files ParseWorkflow).
(** A server that was started at some time and has run since. *)
Definition served (m : machine) : Prop :=
  exists t ws, on_clock t /\ rtc step (start_machine t ws) m.

Lemma served_ind (I : machine -> Prop) :
  (forall t ws, on_clock t -> I (start_machine t ws)) -> (forall m m', I m -> step m m' -> I m') ->
  forall m, served m -> I m.
Proof.
  intros H0 Hs m (t & ws & Ht & Hr). specialize (H0 t ws Ht). revert H0.
  induction Hr as [|m1 m2 m3 Hstep _ IH]; [done|]. intros Hi. apply IH. eauto.
Qed.

Record rate_inv (m : @machine W S) : Prop := {
  ri_clock : on_clock (mc_clock m);
  ri_window : rl_window (sv_rateLimiter (mc_server m)) = Minute;
  ri_max : rl_maxReq (sv_rateLimiter (mc_server m)) = Z.of_nat 60;
  ri_client : forall ip, client_inv Minute 60 (mc_clock m) (rl_limiters (sv_rateLimiter (mc_server m)) !! ip)
                           (let_through ip (mc_log m))
}.

(** Only the first phase of a handler touches the limiter. *)
Lemma handle_limiter ob r ph s s' next : handle_phase hmac secret trustProxy workflowsDir ob r ph s = (s', next) ->
  match ph with
  | PhArrived => exists ok, Allow (ob_now ob) (getClientIP trustProxy r) (sv_rateLimiter s) = (ok, sv_rateLimiter s') /\
      events_of hmac secret trustProxy workflowsDir ob r ph s = [EvAllow (ob_now ob) (getClientIP trustProxy r) ok]
  | _ => sv_rateLimiter s' = sv_rateLimiter s /\
      forall ip, let_through ip (events_of hmac secret trustProxy workflowsDir ob r ph s) = []
  end.
Proof.
  intros H. destruct ph; cbn [handle_phase] in H.
  - unfold events_of. cbn [handle_phase]. destruct (Allow _ _ _) as [ok rl]. simplify_eq. by exists ok.
  - unfold events_of. cbn [handle_phase]. destruct (requireAuth _ _ _ _ _ _) as [refused c]. simplify_eq.
    by destruct refused.
  - unfold events_of. cbn [handle_phase]. simplify_eq. done.
  - unfold events_of. cbn [handle_phase]. destruct (_ <? _); by simplify_eq.
  - by simplify_eq.
Qed.
Lemma run_step_limiter now t s ws s' next ws' :
  run_step workflowsDir xe ae env store te files ParseWorkflow now t s ws = (s', next, ws') ->
  sv_rateLimiter s' = sv_rateLimiter s /\ sv_deliveries s' = sv_deliveries s.
Proof.
  unfold run_step. intros H. destruct (tr_phase t) as [| |[[? ?] ?]|]; [by simplify_eq| |by simplify_eq..].
  destruct (task_outcome _ _ _ _ _ _ _ _ _ _ _ _) as [? ?]. by simplify_eq.
Qed.

Lemma client_later w max c c' l ts : c <= c' -> client_inv w max c l ts -> client_inv w max c' l ts.
Proof. destruct l; [apply window_later|done]. Qed.

Lemma rate_inv_step m m' : rate_inv m -> step m m' -> rate_inv m'.
Proof.
  intros [H1 H2 H3 H4] Hs. destruct Hs as [m t Ht|m ws|m r Hr|m ob l1 r ph l2 s next Hh Ho Hp|m l1 t l2 s next ws Hr Hst|m].
  - split; cbn; try done; [destruct H1; split; lia|]. intros ip. eapply client_later; [|apply H4]. lia.
  - by split.
  - by split.
  - pose proof (handle_limiter _ _ _ _ _ _ Hp) as Hl. destruct ph.
    2-5: destruct Hl as [Hl Hev]; split; cbn [mc_clock mc_server mc_log]; rewrite ?Hl; try done;
         intros ip; rewrite let_through_app, Hev; apply H4.
    destruct Hl as (ok & Ha & Hev). rewrite Hev, Ho in *.
    destruct (Allow_client Minute 60 _ _ _ _ _ _ H1 ltac:(done) H2 H3 (H4 _) Ha) as (Hc & E1 & E2 & E3).
    split; cbn [mc_clock mc_server mc_log]; try done. intros ip. cbn [app].
    destruct (decide (getClientIP trustProxy r = ip)) as [<-|Hne].
    + unfold let_through. cbn [omap list_omap]. destruct ok; [rewrite decide_True by done|]; exact Hc.
    + rewrite E3 by done. unfold let_through. cbn [omap list_omap].
      destruct ok; [rewrite decide_False by done|]; apply H4.
  - apply run_step_limiter in Hst as [E _]. split; cbn; rewrite ?E; done.
  - by split.
Qed.
Lemma served_rate m : served m -> rate_inv m.
Proof.
  apply served_ind; [|apply rate_inv_step]. intros t ws Ht. split; try done.
Qed.

(** *** Tasks *)

Abbreviation outcome_of := (task_outcome workflowsDir xe ae env store te files ParseWorkflow).
Lemma task_outcome_sound name body query ws :
  exists ws' o, outcome_of name body query ws = (ws', Ret o) /\ sound_outcome name o.
Proof.
  unfold task_outcome, recover. match goal with |- context [match ?m ws with _ => _ end] => set (body' := m) end.
  assert (yields body' (sound_outcome name)) as Hy.
  { subst body'. eapply yields_bind; [apply yields_any|]. intros fl _.
    destruct (findWorkflowPath fl workflowsDir name) as [path|e] eqn:E.
    2: { apply yields_ret. split; [done|]. by eapply findWorkflowPath_error. }
    eapply yields_bind; [apply yields_any|]. intros [wf|] _; [|apply yields_ret; split; [done|apply public_parse]].
    eapply yields_bind; [apply yields_any|]. intros [g|] _; [apply yields_ret; split; [done|apply public_policy]|].
    eapply yields_bind; [apply yields_any|]. intros [[output ?] [err|]] _; apply yields_ret;
      [split; [done|apply public_failed]|done]. }
  destruct (body' ws) as [ws' [o|p]] eqn:E.
  - exists ws', o. split; [done|]. by eapply Hy.
  - exists ws', (task_failed ("panic: " +:+ p)). split; [done|]. split; [done|]. apply public_panic.
Qed.

Lemma run_step_sem now t s ws s' next ws' :
  run_step workflowsDir xe ae env store te files ParseWorkflow now t s ws = (s', next, ws') ->
  sv_sem s' = sv_sem s - match next with Some _ => 0 | None => 1 end.
Proof.
  unfold run_step. intros H. destruct (tr_phase t) as [| |[[? ?] ?]|].
  2: destruct (task_outcome _ _ _ _ _ _ _ _ _ _ _ _) as [? ?].
  all: injection H as <- <- <-; cbn; lia.
Qed.
Lemma table_run now l1 t l2 s ws s' next ws' ids : table_inv (sv_tasks s) (l1 ++ t :: l2)%list ids ->
  run_step workflowsDir xe ae env store te files ParseWorkflow now t s ws = (s', next, ws') ->
  table_inv (sv_tasks s') (l1 ++ match next with Some t' => [t'] | None => [] end ++ l2)%list ids.
Proof.
  intros Hi Hs. unfold run_step in Hs. destruct (tr_phase t) as [| |[[st output] errStr]|] eqn:Ep.
  - injection Hs as <- <- <-. cbn [sv_tasks with_tasks app].
    apply table_update; [done| |by rewrite Ep]. intros k Hk Htr. rewrite Ep in Htr. destruct Htr as [E1 E2].
    cbn. split_and!; [done|by eauto|done|]. unfold terminal.
    destruct (tb_done _ _ _ Hi _ _ Hk) as [_ [_ Hd]]. split; [by intros [|]|]. intros Hc%Hd. rewrite E1 in Hc. by destruct Hc.
  - destruct (task_outcome_sound (tr_name t) (tr_body t) (tr_query t) ws) as (ws1 & [[st output] msg] & E & Ho).
    rewrite E in Hs. injection Hs as <- <- <-. cbn [app].
    assert (t ∈ (l1 ++ t :: l2)%list) as Ht by (apply elem_of_app; right; left).
    pose proof (tb_run _ _ _ Hi t Ht) as Htr. rewrite Ep in Htr.
    eapply table_move; [exact Hi|done|done| |].
    + destruct (sv_tasks s !! tr_id t) as [k|]; [|done]. destruct Htr. split_and!; [by eapply sound_terminal|done|done].
    + intros k Hk. eapply tb_done; done.
  - injection Hs as <- <- <-. cbn [sv_tasks with_tasks app].
    apply table_update; [done| |by rewrite Ep]. intros k Hk Htr. rewrite Ep in Htr. destruct Htr as (E1 & E2 & E3).
    cbn. split_and!; [done|done|done|]. split; [by eauto|done].
  - injection Hs as <- <- <-. by eapply table_release.
Qed.

Record work_inv (m : @machine W S) : Prop := {
  wk_sem : sv_sem (mc_server m) = Z.of_nat (length (mc_runs m) + holding (mc_handlers m));
  wk_max : sv_sem (mc_server m) <= maxConcurrentTasks;
  wk_table : NoDup (accepted_ids (mc_log m)) ->
    table_inv (sv_tasks (mc_server m)) (mc_runs m) (accepted_ids (mc_log m))
}.

Lemma work_inv_handle m ob l1 r ph l2 s next :
  work_inv m -> mc_handlers m = (l1 ++ (r, ph) :: l2)%list ->
  handle_phase hmac secret trustProxy workflowsDir ob r ph (mc_server m) = (s, next) ->
  work_inv (mkMachine (mc_clock m) s
    (l1 ++ match next with inl ph' => [(r, ph')] | inr _ => [] end ++ l2)%list (mc_runs m ++ spawned ob r ph)%list
    (mc_world m) (events_of hmac secret trustProxy workflowsDir ob r ph (mc_server m) ++ mc_log m)%list).
Proof.
  intros [H1 H2 H3] Hh Hp. rewrite Hh in H1. change ((r, ph) :: l2) with ([(r, ph)] ++ l2)%list in H1.
  rewrite !holding_app in H1.
  assert (sv_tasks s = match ph with PhSlot body => addTask (mkTask (ob_id ob) (workflow_name r) body TaskPending "" ""
            (ob_now ob) None None) (sv_tasks (mc_server m)) | _ => sv_tasks (mc_server m) end /\
          sv_sem s = sv_sem (mc_server m) - Z.of_nat (holding [(r, ph)]) +
            Z.of_nat (length (spawned ob r ph) + holding match next with inl ph' => [(r, ph')] | inr _ => [] end) /\
          sv_sem s <= maxConcurrentTasks /\
          accepted_ids (events_of hmac secret trustProxy workflowsDir ob r ph (mc_server m)) =
            match ph with PhSlot _ => [ob_id ob] | _ => [] end) as (E1 & E2 & E3 & E4).
  { unfold events_of. destruct ph; cbn [handle_phase] in *.
    - destruct (Allow _ _ _) as [[] ?]; [destruct (read_request r)|]; injection Hp as <- <-; cbn; split_and!; try done; lia.
    - destruct (requireAuth _ _ _ _ _ _) as [[]]; injection Hp as <- <-; cbn; split_and!; try done; lia.
    - destruct (findWorkflowPath _ _ _); injection Hp as <- <-; cbn; split_and!; try done; lia.
    - destruct (Z.ltb_spec (sv_sem (mc_server m)) maxConcurrentTasks); injection Hp as <- <-; cbn; split_and!; try done; lia.
    - injection Hp as <- <-; cbn; split_and!; try done; lia. }
  split; cbn [mc_server mc_runs mc_handlers mc_log]; [rewrite E2, length_app, !holding_app; lia|done|].
  rewrite E1, accepted_ids_app, E4. destruct ph; cbn [app spawned]; rewrite ?app_nil_r; try exact H3.
  intros [Hn Hd]%NoDup_cons. by apply table_accept; [apply H3|].
Qed.
Lemma work_inv_step m m' : work_inv m -> step m m' -> work_inv m'.
Proof.
  intros Hinv Hs. destruct Hs as [m t Ht|m ws|m r Hr|m ob l1 r ph l2 s next Hh Ho Hp|m l1 t l2 s next ws Hr Hst|m].
  4: by apply work_inv_handle.
  all: destruct Hinv as [H1 H2 H3]; try (by split).
  - split; cbn [mc_server mc_runs mc_handlers mc_log]; try done. rewrite holding_app, H1. f_equal. cbn. lia.
  - pose proof (run_step_sem _ _ _ _ _ _ _ Hst) as E. rewrite Hr, length_app in H1. cbn [length] in H1.
    split; cbn [mc_server mc_runs mc_handlers mc_log].
    + rewrite E, !length_app. destruct next; cbn; lia.
    + rewrite E. destruct next; lia.
    + intros Hd. eapply table_run; [|exact Hst]. rewrite <- Hr. by apply H3.
  - split; cbn; try done. intros Hd. by apply table_clean, H3.
Qed.
Lemma served_work m : served m -> work_inv m.
Proof.
  apply served_ind; [|apply work_inv_step]. intros t ws Ht. split; cbn; [done|done|]. intros _.
  split; cbn; try done; [constructor|by intros ? []%not_elem_of_nil|by intros ? []%not_elem_of_nil].
Qed.

Lemma auth_inv_step m m' : auth_inv hmac secret m -> step m m' -> auth_inv hmac secret m'.
Proof.
  intros Hinv Hs. destruct Hs as [m t Ht|m ws|m r Hr|m ob l1 r ph l2 s next Hh Ho Hp|m l1 t l2 s next ws Hr Hst|m].
  4: by apply auth_inv_handle.
  all: destruct Hinv as [H1 H2 H3 H4 H5]; split; cbn; try done.
  - destruct H1; split; lia.
  - eapply cache_later; [|exact H2]. lia.
  - by rewrite past_auth_app, app_nil_r.
  - intros r' b' [?|[=]%list_elem_of_singleton]%elem_of_app. eauto.
  - apply run_step_limiter in Hst as [_ ->]. done.
Qed.
Lemma served_auth m : served m -> auth_inv hmac secret m.
Proof.
  apply served_ind; [|apply auth_inv_step]. intros t ws Ht.
  split; cbn; try done; [|by intros ? ? ? []%not_elem_of_nil|by intros ? ? []%not_elem_of_nil].
  split; cbn; try done; by intros ? ? ? []%not_elem_of_nil.
Qed.

(** A goroutine takes its next step. *)
Lemma run_moves m l1 t l2 s next ws : mc_runs m = (l1 ++ t :: l2)%list ->
  run_step workflowsDir xe ae env store te files ParseWorkflow (mc_clock m) t (mc_server m) (mc_world m) = (s, next, ws) ->
  step m (mkMachine (mc_clock m) s (mc_handlers m)
    (l1 ++ match next with Some t' => [t'] | None => [] end ++ l2)%list ws (mc_log m)).
Proof. apply ss_run. Qed.
(** Its remaining steps up to the end of the task. *)
Definition left_of (ph : tphase) : nat := match ph with TStart => 3 | TBody => 2 | TEnd _ => 1 | TRelease => 0 end.
Lemma run_finishes n : forall m l1 t l2, left_of (tr_phase t) = n -> n <> 0%nat -> mc_runs m = (l1 ++ t :: l2)%list ->
  table_inv (sv_tasks (mc_server m)) (mc_runs m) (accepted_ids (mc_log m)) ->
  exists m' k, rtc step m m' /\ mc_log m' = mc_log m /\ sv_tasks (mc_server m') !! tr_id t = Some k /\
    terminal (tk_Status k) /\ tk_CompletedAt k = Some (mc_clock m).
Proof.
  induction n as [|n IH]; [done|]. intros m l1 t l2 Hn _ Hr Hi.
  destruct (run_step workflowsDir xe ae env store te files ParseWorkflow (mc_clock m) t (mc_server m) (mc_world m))
    as [[s next] ws] eqn:Es.
  pose proof (run_moves _ _ _ _ _ _ _ Hr Es) as Hstep. rewrite Hr in Hi. pose proof (table_run _ _ _ _ _ _ _ _ _ _ Hi Es) as Hi'.
  assert (t ∈ (l1 ++ t :: l2)%list) as Ht by (apply elem_of_app; right; left).
  pose proof (tb_run _ _ _ Hi t Ht) as Htr.
  unfold run_step in Es. destruct (tr_phase t) as [| |[[st output] errStr]|] eqn:Ep; [| | |done].
  - injection Es as <- <- <-. injection Hn as <-.
    match type of Hstep with ?R m ?m1 =>
      destruct (IH m1 l1 (at_phase TBody t) l2 eq_refl ltac:(done) eq_refl Hi') as (m' & k & H1 & H2) end.
    exists m', k. split; [by eapply rtc_l|exact H2].
  - destruct (task_outcome_sound (tr_name t) (tr_body t) (tr_query t) (mc_world m)) as (ws1 & o & E & Ho).
    rewrite E in Es. injection Es as <- <- <-. injection Hn as <-.
    match type of Hstep with ?R m ?m1 =>
      destruct (IH m1 l1 (at_phase (TEnd o) t) l2 eq_refl ltac:(done) eq_refl Hi') as (m' & k & H1 & H2) end.
    exists m', k. split; [by eapply rtc_l|exact H2].
  - destruct (sv_tasks (mc_server m) !! tr_id t) as [k|] eqn:Ek; [|done]. destruct Htr as (Hst & _ & _).
    injection Es as <- <- <-. eexists _, (set_completed (mc_clock m) st output errStr k).
    split; [by eapply rtc_once|]. split_and!; [done| |exact Hst|done].
    cbn. unfold completeTask, updateTask. by rewrite lookup_alter_eq, Ek.
Qed.
End machine.

(** ** Theorems *)

(** No client is let through more than 120 times within any minute, however
    the handlers interleave: at most 60 requests pass in each window of the
    limiter, and a minute meets at most two windows. *)
Theorem webhook_rate_limited hmac secret trustProxy workflowsDir {W S} `{HS : IdempotencyStore S}
    (xe : ExecEnv W) ae env store te files ParseWorkflow (m : @machine W S) ip t0 :
  served hmac secret trustProxy workflowsDir xe ae env store te files ParseWorkflow m ->
  (in_window Minute t0 (let_through ip (mc_log m)) <= 2 * 60)%nat.
Proof.
  intros Hm. pose proof (ri_client _ (served_rate _ _ _ _ _ _ _ _ _ _ _ _ Hm) ip) as Hc. revert Hc.
  destruct (_ !! ip); cbn [client_inv]; [intros H; apply (wi_bound _ _ _ _ _ H)|]. intros ->. cbn. lia.
Qed.

(** C15: Every task comes from a request that was authenticated for it, each
    authentication is used for one task at most, every authenticated request
    had a credential for its body at that time, and no delivery id passes
    twice within 24 hours. *)
Theorem webhook_authentic hmac secret trustProxy workflowsDir {W S} `{HS : IdempotencyStore S}
    (xe : ExecEnv W) ae env store te files ParseWorkflow (m : @machine W S) :
  served hmac secret trustProxy workflowsDir xe ae env store te files ParseWorkflow m ->
  accepts (mc_log m) ⊆+ auths (mc_log m) /\
  (forall t r body, EvAuth t r body ∈ mc_log m -> credential hmac secret t r body /\ read_request r = inl body) /\
  spaced secret (mc_log m).
Proof.
  intros Hm. destruct (served_auth _ _ _ _ _ _ _ _ _ _ _ _ Hm) as [_ Hc Hf Hcred _].
  split_and!; [|done|apply Hc]. etransitivity; [|exact Hf]. apply submseteq_inserts_r. reflexivity.
Qed.

(** At most 100 tasks hold a slot, each slot belongs to a goroutine or to a
    handler about to start one; and if no task id is drawn twice, the table
    follows the goroutines: a task is pending, running or finished as its
    goroutine is, a task that is not finished has a goroutine, and a task has
    a completion time exactly when it is finished. *)
Theorem webhook_tasks_tracked hmac secret trustProxy workflowsDir {W S} `{HS : IdempotencyStore S}
    (xe : ExecEnv W) ae env store te files ParseWorkflow (m : @machine W S) :
  served hmac secret trustProxy workflowsDir xe ae env store te files ParseWorkflow m ->
  sv_sem (mc_server m) = Z.of_nat (length (mc_runs m) + holding (mc_handlers m)) /\
  sv_sem (mc_server m) <= maxConcurrentTasks /\
  (NoDup (accepted_ids (mc_log m)) -> table_inv (sv_tasks (mc_server m)) (mc_runs m) (accepted_ids (mc_log m))).
Proof. intros Hm. by destruct (served_work _ _ _ _ _ _ _ _ _ _ _ _ Hm). Qed.

(** An accepted task can always finish: its goroutine reaches a finished
    status in at most three steps of its own, whatever the workflow does. *)
Theorem webhook_task_finishes hmac secret trustProxy workflowsDir {W S} `{HS : IdempotencyStore S}
    (xe : ExecEnv W) ae env store te files ParseWorkflow (m : @machine W S) t :
  served hmac secret trustProxy workflowsDir xe ae env store te files ParseWorkflow m ->
  NoDup (accepted_ids (mc_log m)) -> t ∈ mc_runs m -> tr_phase t <> TRelease ->
  exists m' k,
    rtc (server_step hmac secret trustProxy workflowsDir xe ae env store te files ParseWorkflow) m m' /\
    mc_log m' = mc_log m /\ sv_tasks (mc_server m') !! tr_id t = Some k /\
    terminal (tk_Status k) /\ tk_CompletedAt k = Some (mc_clock m).
Proof.
  intros Hm Hn Ht Hp. destruct (served_work _ _ _ _ _ _ _ _ _ _ _ _ Hm) as [_ _ Htab].
  apply list_elem_of_split in Ht as (l1 & l2 & E).
  eapply run_finishes; [reflexivity| |exact E|auto]. by destruct (tr_phase t).
Qed.

(** Whatever happens to a task, it ends completed without an error text or
    failed with an empty output and one of the generic messages or a panic. *)
Theorem task_outcome_public workflowsDir {W S} `{HS : IdempotencyStore S}
    (xe : ExecEnv W) ae env store te files ParseWorkflow name body query (ws : W * S) :
  exists ws' o, task_outcome workflowsDir xe ae env store te files ParseWorkflow name body query ws = (ws', Ret o) /\
    sound_outcome name o.
Proof. apply task_outcome_sound. Qed.

(** *** A server for examples *)

(** The MAC of a text is the text; one workflow file; the node counts. *)
Definition toy_mac (key text : string) : string := text.
Definition one_file : Files := mkFiles (Ok "/srv") (fun p => bool_decide (p = "/srv/wf/pay.yaml")).
Definition demo_parse (path : string) : M Z (result Workflow) := mret (Ok pay_wf).
Definition post (body query delivery : string) : Request :=
  mkRequest "POST" "/webhook/pay" (fun h => if decide (h = "X-Hub-Signature-256") then "sha256=41" else
    if decide (h = "X-GitHub-Delivery") then delivery else "")
    (if decide (query = "") then [] else [("input", [query])]) body None "192.0.2.7:999".
Definition look (t : Z) (id : string) : Observed := mkObserved t one_file id.

Abbreviation demo_ledger := (@MemoryStore_ops demo_mac).
Abbreviation demo_handle := (handle_phase toy_mac "k" false "wf").
Abbreviation demo_step := (@server_step toy_mac "k" false "wf" Z MemoryStore demo_ledger pay_world silent_audit pay_env
  no_files ascii_text (mret one_file) demo_parse).
Abbreviation demo_served := (@served toy_mac "k" false "wf" Z MemoryStore demo_ledger pay_world silent_audit pay_env
  no_files ascii_text (mret one_file) demo_parse).

(** The first handler takes its next phase. *)
Definition advance (id : string) (m : @machine Z MemoryStore) : machine :=
  let ob := look (mc_clock m) id in
  match mc_handlers m with
  | [] => m
  | (r, ph) :: hs =>
      let '(s, next) := demo_handle ob r ph (mc_server m) in
      mkMachine (mc_clock m) s (match next with inl ph' => [(r, ph')] | inr _ => [] end ++ hs)%list
        (mc_runs m ++ spawned ob r ph)%list (mc_world m) (events_of toy_mac "k" false "wf" ob r ph (mc_server m) ++ mc_log m)%list
  end.
Definition arrive (r : Request) (m : @machine Z MemoryStore) : machine :=
  mkMachine (mc_clock m) (mc_server m) (mc_handlers m ++ [(r, PhArrived)])%list (mc_runs m) (mc_world m) (mc_log m).
Lemma advance_served id m : demo_served m -> demo_served (advance id m).
Proof.
  intros (t & ws & Ht & Hr). exists t, ws. split; [done|]. unfold advance.
  destruct (mc_handlers m) as [|[r ph] hs] eqn:Eh; [done|].
  destruct (demo_handle _ _ _ _) as [s next] eqn:Es. eapply rtc_r; [exact Hr|].
  by apply (ss_handle _ _ _ _ _ _ _ _ _ _ _ m (look (mc_clock m) id) [] r ph hs).
Qed.
Lemma arrive_served r m : routeWebhook "k" r (mc_server m) = None -> demo_served m -> demo_served (arrive r m).
Proof. intros H (t & ws & Ht & Hr). exists t, ws. split; [done|]. eapply rtc_r; [exact Hr|]. by apply ss_arrive. Qed.

Definition demo_start : @machine Z MemoryStore := start_machine (100 * Second) (0, NewMemoryIdempotencyStore 100).
Definition handled (r : Request) (id : string) (m : @machine Z MemoryStore) : machine :=
  Nat.iter 5 (advance id) (arrive r m).
Lemma handled_served r id m : routeWebhook "k" r (mc_server m) = None -> demo_served m -> demo_served (handled r id m).
Proof. intros Hr Hm. unfold handled. cbn. do 5 apply advance_served. by apply arrive_served. Qed.
Lemma demo_start_served : demo_served demo_start.
Proof. exists (100 * Second), (0, NewMemoryIdempotencyStore 100). split; [by vm_compute|reflexivity]. Qed.
(** One signed delivery was handled: its task is about to start. *)
Definition one_task : @machine Z MemoryStore := handled (post "A" "" "d1") "t1" demo_start.
Lemma one_task_served : demo_served one_task.
Proof. apply handled_served; [done|apply demo_start_served]. Qed.

Lemma findWorkflowPath_exact_witness :
  findWorkflowPath one_file "wf" "pay" = Ok "/srv/wf/pay.yaml" /\
  exists ext, ext ∈ [".yaml"; ".yml"] /\ clean_elems "/srv/wf/pay.yaml" = (clean_elems "/srv/wf" ++ ["pay" +:+ ext])%list.
Proof.
  assert (findWorkflowPath one_file "wf" "pay" = Ok "/srv/wf/pay.yaml") as E by (by vm_compute).
  pose proof (findWorkflowPath_exact one_file "wf" "pay" "/srv" "/srv/wf" eq_refl eq_refl ltac:(by vm_compute)) as H.
  rewrite E in H. destruct H as (_ & _ & H). split; [exact E|exact H].
Defined.
Lemma webhook_rate_limited_witness :
  let_through "192.0.2.7" (mc_log one_task) = [100 * Second] /\
  (in_window Minute 0 (let_through "192.0.2.7" (mc_log one_task)) <= 2 * 60)%nat.
Proof.
  split; [by vm_compute|]. exact (webhook_rate_limited _ _ _ _ _ _ _ _ _ _ _ one_task "192.0.2.7" 0 one_task_served).
Defined.
Lemma webhook_authentic_witness : length (accepts (mc_log one_task)) = 1%nat /\ spaced "k" (mc_log one_task).
Proof.
  split; [by vm_compute|]. exact (proj2 (proj2 (webhook_authentic _ _ _ _ _ _ _ _ _ _ _ one_task one_task_served))).
Defined.
Lemma one_task_ids : accepted_ids (mc_log one_task) = ["t1"].
Proof. by vm_compute. Qed.
Lemma webhook_tasks_tracked_witness :
  sv_sem (mc_server one_task) = 1 /\ table_inv (sv_tasks (mc_server one_task)) (mc_runs one_task) ["t1"].
Proof.
  split; [by vm_compute|].
  pose proof (proj2 (proj2 (webhook_tasks_tracked _ _ _ _ _ _ _ _ _ _ _ one_task one_task_served))) as H.
  rewrite one_task_ids in H. apply H, NoDup_singleton.
Defined.
Lemma webhook_task_finishes_witness :
  exists m' k, rtc demo_step one_task m' /\ sv_tasks (mc_server m') !! "t1" = Some k /\ terminal (tk_Status k).
Proof.
  destruct (webhook_task_finishes _ _ _ _ _ _ _ _ _ _ _ one_task (mkRun "t1" "pay" "A" [] TStart) one_task_served)
    as (m' & k & H1 & _ & H2 & H3 & _).
  - rewrite one_task_ids. apply NoDup_singleton.
  - assert (mc_runs one_task = [mkRun "t1" "pay" "A" [] TStart]) as -> by (by vm_compute). left.
  - done.
  - exists m', k. split; [exact H1|split; [exact H2|exact H3]].
Defined.

(** *** What the signature does not cover *)

(** The delivery id is not covered by the MAC: a captured delivery, sent again
    under another id, is authenticated and starts a second task, though the
    comment says that the replay hole is closed. *)
Theorem captured_delivery_replays :
  let twice := handled (post "A" "" "forged-id") "t2" one_task in
  demo_served twice /\ (tk_Input <$> sv_tasks (mc_server twice) !! "t1") = Some "A" /\
  (tk_Input <$> sv_tasks (mc_server twice) !! "t2") = Some "A".
Proof.
  intros twice. split; [apply handled_served; [done|apply one_task_served]|]. split; by vm_compute.
Qed.

(** Neither is the query: a parameter named input replaces the signed body as
    the workflow's input. *)
Theorem unsigned_query_wins body v vars c :
  request_vars body [("input", [v])] vars !! "input" = Some v /\
  (requireAuth toy_mac "k" (100 * Second) (post "A" v "d1") "A" (newDeliveryCache deliveryDedupWindow c)).1 = None.
Proof.
  split; [apply lookup_insert_eq|]. apply requireAuth_iff; [by vm_compute|]. split; [|by intros].
  eapply (cr_delivery _ _ _ _ _ "d1"); by vm_compute.
Qed.

(** A delivery that was answered 503 is recorded all the same, so the forge's
    redelivery of it is refused as a replay. *)
Theorem busy_delivery_lost :
  let busy := mkServer (NewRateLimiter 60 Minute) (newDeliveryCache deliveryDedupWindow 10) ∅ 100 in
  let r := post "A" "" "d1" in
  let s1 := (demo_handle (look Second "t1") r (PhAllowed "A") busy).1 in
  (demo_handle (look Second "t1") r (PhAllowed "A") busy).2 = inl (PhAuthorized "A") /\
  (demo_handle (look Second "t1") r (PhFound "A") s1).2 = inr (Refuse 503 "server too busy, try again later") /\
  (demo_handle (look Hour "t2") r (PhAllowed "A") s1).2 = inr (Refuse 401 "replayed delivery").
Proof. by vm_compute. Qed.

(** The difference to a timestamp 2^63 seconds in the past overflows, so the
    timestamp is taken for a fresh one. *)
Theorem ancient_timestamp_passes :
  verifyTimestampedSignature (fun _ _ => "A") "k" (100 * Second) "body" "sha256=41" "-9223372036854775708" = None.
Proof. by vm_compute. Qed.
