(* ===== verification/HealthMonitor.v ===== *)
(** * The health monitor (src/internal/scheduler/health.go)

    Workers register and send heartbeats; a check of the monitor declares a
    worker dead when its timeout has passed and restarts it while its restart
    limit lasts.  Each method holds the lock from beginning to end, so a run
    is a list of calls at increasing times, and the calls of the callbacks are
    what it makes visible. *)

From S2P Require Import Prelude GoStrings GoTime.

#[local] Open Scope string_scope.
#[local] Open Scope Z_scope.

(** ** Definitions *)

Inductive WorkerStatus := WorkerHealthy | WorkerUnhealthy | WorkerDead.
#[export] Instance WorkerStatus_eq_dec : EqDecision WorkerStatus.
Proof. solve_decision. Defined.
Definition WorkerStatus_String (s : WorkerStatus) : string :=
  match s with WorkerHealthy => "healthy" | WorkerUnhealthy => "unhealthy" | WorkerDead => "dead" end.

(** [wk_OnDead] and [wk_OnRestart] tell whether the callback is set. *)
Record WorkerInfo := mkWorker {
  wk_ID : string;
  wk_LastHeartbeat : Z;
  wk_Timeout : Z;
  wk_OnDead : bool;
  wk_OnRestart : bool;
  wk_MaxRestarts : Z;
  wk_restartCount : Z;
  wk_Status : WorkerStatus
}.
Abbreviation workers := (gmap string WorkerInfo).

Definition checkInterval_of (d : Z) : Z := if d <=? 0 then 5 * Second else d.

Definition Register (now : Z) (id : string) (timeout : Z) (onDead onRestart : bool) (maxRestarts : Z)
    (m : workers) : workers :=
  <[id := mkWorker id now timeout onDead onRestart maxRestarts 0 WorkerHealthy]> m.
Definition Unregister (id : string) (m : workers) : workers := delete id m.
Definition beat (now : Z) (w : WorkerInfo) : WorkerInfo :=
  mkWorker (wk_ID w) now (wk_Timeout w) (wk_OnDead w) (wk_OnRestart w) (wk_MaxRestarts w) (wk_restartCount w)
    WorkerHealthy.
Definition Heartbeat (now : Z) (id : string) (m : workers) : workers := alter (beat now) id m.
Definition GetStatus (id : string) (m : workers) : WorkerStatus * bool :=
  match m !! id with Some w => (wk_Status w, true) | None => (WorkerDead, false) end.
(** In the order of Go's range over the map, which [map_to_list] stands for. *)
Definition ListWorkers (m : workers) : list WorkerInfo := (map_to_list m).*2.

(** A worker the check declares dead: whether [onDead] and [restart] are called. *)
Record deadWorker := mkDead { dw_id : string; dw_onDead : bool; dw_restart : bool }.

Definition set_status (s : WorkerStatus) (w : WorkerInfo) : WorkerInfo :=
  mkWorker (wk_ID w) (wk_LastHeartbeat w) (wk_Timeout w) (wk_OnDead w) (wk_OnRestart w) (wk_MaxRestarts w)
    (wk_restartCount w) s.
Definition restarted (now : Z) (w : WorkerInfo) : WorkerInfo :=
  mkWorker (wk_ID w) now (wk_Timeout w) (wk_OnDead w) (wk_OnRestart w) (wk_MaxRestarts w)
    (wk_restartCount w + 1) WorkerHealthy.
Definition may_restart (w : WorkerInfo) : bool :=
  wk_OnRestart w && ((wk_MaxRestarts w =? 0) || (wk_restartCount w <? wk_MaxRestarts w)).

(** One worker of the loop. *)
Definition check_worker (now : Z) (id : string) (w : WorkerInfo) : WorkerInfo * option deadWorker :=
  let elapsed := Sub now (wk_LastHeartbeat w) in
  if (wk_Timeout w <? elapsed) && negb (bool_decide (wk_Status w = WorkerDead)) then
    if may_restart w then (restarted now w, Some (mkDead id (wk_OnDead w) true))
    else (set_status WorkerDead w, Some (mkDead id (wk_OnDead w) false))
  else if (Z.quot (wk_Timeout w) 2 <? elapsed) && bool_decide (wk_Status w = WorkerHealthy) then
    (set_status WorkerUnhealthy w, None)
  else (w, None).

(** The callbacks that a check calls. *)
Inductive call := CallOnDead (id : string) | CallRestart (id : string).
Definition calls_of (dw : deadWorker) : list call :=
  ((if dw_onDead dw then [CallOnDead (dw_id dw)] else []) ++
   (if dw_restart dw then [CallRestart (dw_id dw)] else []))%list.
Definition checkHealth (now : Z) (m : workers) : workers * list call :=
  let dead := omap (fun e : string * WorkerInfo => (check_worker now e.1 e.2).2) (map_to_list m) in
  (map_imap (fun id w => Some (check_worker now id w).1) m, mjoin (calls_of <$> dead)).

Definition WorkerCount (m : workers) : Z := Z.of_nat (size m).
Definition count_status (s : WorkerStatus) (m : workers) : Z :=
  Z.of_nat (size (filter (fun e : string * WorkerInfo => wk_Status e.2 = s) m)).
Definition HealthyCount (m : workers) : Z := count_status WorkerHealthy m.
Definition StatusSummary (m : workers) : string :=
  Itoa (count_status WorkerHealthy m) +:+ " healthy, " +:+ Itoa (count_status WorkerUnhealthy m) +:+
  " unhealthy, " +:+ Itoa (count_status WorkerDead m) +:+ " dead".

(** *** Runs *)

Inductive hm_event :=
  | HmRegister (id : string) (timeout : Z) (onDead onRestart : bool) (maxRestarts : Z)
  | HmUnregister (id : string)
  | HmHeartbeat (id : string)
  | HmCheck.
Definition hm_step (now : Z) (e : hm_event) (m : workers) : workers * list call :=
  match e with
  | HmRegister id timeout od onr max => (Register now id timeout od onr max m, [])
  | HmUnregister id => (Unregister id m, [])
  | HmHeartbeat id => (Heartbeat now id m, [])
  | HmCheck => checkHealth now m
  end.
(** The state and the calls with their times, the latest first. *)
Fixpoint hm_run (evs : list (Z * hm_event)) : workers * list (Z * call) :=
  match evs with
  | [] => (∅, [])
  | (now, e) :: evs =>
      let '(m, log) := hm_run evs in
      let '(m', calls) := hm_step now e m in (m', ((fun c => (now, c)) <$> reverse calls) ++ log)%list
  end.
(** Runs are lists with the latest event first, at times that do not go back. *)
Fixpoint in_order (evs : list (Z * hm_event)) : Prop :=
  match evs with
  | [] => True
  | (now, _) :: evs => on_clock now /\ Forall (fun e => e.1 <= now) evs /\ in_order evs
  end.

(** ** Counting *)

#[export] Instance call_eq_dec : EqDecision call.
Proof. solve_decision. Defined.
#[export] Instance hm_event_eq_dec : EqDecision hm_event.
Proof. solve_decision. Defined.

(** What a check calls for a worker. *)
Definition check_calls (now : Z) (id : string) (w : WorkerInfo) : list call :=
  match (check_worker now id w).2 with Some dw => calls_of dw | None => [] end.
Definition call_id (c : call) : string := match c with CallOnDead id | CallRestart id => id end.
Lemma check_calls_id now id w c : c ∈ check_calls now id w -> call_id c = id.
Proof.
  unfold check_calls, check_worker, calls_of. repeat case_match; simplify_eq; cbn; set_solver.
Qed.

Lemma checkHealth_calls now m c :
  c ∈ (checkHealth now m).2 <-> exists w, m !! call_id c = Some w /\ c ∈ check_calls now (call_id c) w.
Proof.
  unfold checkHealth. cbn [snd]. rewrite list_elem_of_join. split.
  - intros (l & Hc & (dw & -> & Hd)%list_elem_of_fmap). apply list_elem_of_omap in Hd as ([id w] & Hm & Hd).
    apply elem_of_map_to_list in Hm. cbn in Hd. assert (c ∈ check_calls now id w) as H by (unfold check_calls; by rewrite Hd).
    rewrite (check_calls_id _ _ _ _ H). eauto.
  - intros (w & Hm & Hc). unfold check_calls in Hc. destruct (check_worker now (call_id c) w).2 as [dw|] eqn:E.
    + exists (calls_of dw). split; [done|]. apply list_elem_of_fmap. exists dw. split; [done|].
      apply list_elem_of_omap. exists (call_id c, w). split; [by apply elem_of_map_to_list|done].
    + by apply not_elem_of_nil in Hc.
Qed.
Lemma checkHealth_lookup now m id :
  (checkHealth now m).1 !! id = (fun w => (check_worker now id w).1) <$> m !! id.
Proof. unfold checkHealth. cbn [fst]. rewrite map_lookup_imap. by destruct (m !! id). Qed.

(** A check calls each callback of a worker at most once. *)
Lemma checkHealth_nodup now m : NoDup (checkHealth now m).2.
Proof.
  unfold checkHealth. cbn [snd]. pose proof (NoDup_fst_map_to_list m) as Hn.
  induction (map_to_list m) as [|[id w] l IH]; [constructor|]. cbn [fmap list_fmap fst] in Hn.
  apply NoDup_cons in Hn as [Hid Hn]. cbn [omap list_omap fst snd].
  destruct (check_worker now id w).2 as [dw|] eqn:E; [|by apply IH]. cbn [fmap list_fmap mjoin list_join].
  assert (check_calls now id w = calls_of dw) as Ec by (unfold check_calls; by rewrite E).
  apply NoDup_app. split_and!.
  - unfold calls_of. destruct (dw_onDead dw), (dw_restart dw); repeat constructor; set_solver.
  - intros c Hc Hin. rewrite <- Ec in Hc. apply check_calls_id in Hc. apply Hid.
    apply list_elem_of_join in Hin as (l' & Hc' & (dw' & -> & Hd)%list_elem_of_fmap).
    apply list_elem_of_omap in Hd as ([id' w'] & Hm & Hd). cbn in Hd.
    assert (call_id c = id') as <- by (apply (check_calls_id now id' w'); unfold check_calls; by rewrite Hd).
    rewrite Hc in Hm. apply list_elem_of_fmap. by exists (id, w').
  - by apply IH.
Qed.

(** Events since a worker was last registered. *)
Fixpoint since (id : string) (f : Z -> hm_event -> workers -> Z) (evs : list (Z * hm_event)) : Z :=
  match evs with
  | [] => 0
  | (now, e) :: evs =>
      match e with
      | HmRegister id' _ _ _ _ => if decide (id' = id) then 0 else since id f evs
      | _ => f now e (hm_run evs).1 + since id f evs
      end
  end.
Definition called (c : call) (now : Z) (e : hm_event) (m : workers) : Z :=
  if decide (c ∈ (hm_step now e m).2) then 1 else 0.
Definition beats (id : string) : list (Z * hm_event) -> Z :=
  since id (fun _ e _ => if decide (e = HmHeartbeat id) then 1 else 0).
Definition restarts (id : string) : list (Z * hm_event) -> Z := since id (called (CallRestart id)).
Definition deaths (id : string) : list (Z * hm_event) -> Z := since id (called (CallOnDead id)).

Lemma hm_run_cons now e evs : (hm_run ((now, e) :: evs)).1 = (hm_step now e (hm_run evs).1).1.
Proof. cbn [hm_run]. destruct (hm_run evs) as [m log]. cbn [fst]. by destruct (hm_step now e m). Qed.
Lemma called_check c now m w : m !! call_id c = Some w ->
  called c now HmCheck m = if decide (c ∈ check_calls now (call_id c) w) then 1 else 0.
Proof.
  intros Hw. unfold called. cbn [hm_step]. apply decide_ext. rewrite checkHealth_calls. naive_solver.
Qed.
Lemma called_other c now e m : e <> HmCheck -> called c now e m = 0.
Proof. intros He. unfold called. rewrite decide_False; [done|]. destruct e; try done; apply not_elem_of_nil. Qed.

(** One check of a worker, in terms of the counters. *)
Definition counts_ok (w : WorkerInfo) (r d b : Z) : Prop :=
  r = wk_restartCount w /\ 0 <= r /\ (wk_MaxRestarts w <> 0 -> r <= Z.max 0 (wk_MaxRestarts w)) /\
  d <= r + b + (if decide (wk_Status w = WorkerDead) then 1 else 0).
Lemma check_counts now id w r d b : counts_ok w r d b ->
  counts_ok (check_worker now id w).1 ((if decide (CallRestart id ∈ check_calls now id w) then 1 else 0) + r)
    ((if decide (CallOnDead id ∈ check_calls now id w) then 1 else 0) + d) b.
Proof.
  intros (H1 & H2 & H3 & H4). unfold check_calls, check_worker.
  destruct ((_ <? _) && _) eqn:Ed.
  - apply andb_true_iff in Ed as [_ Ed%negb_true_iff%bool_decide_eq_false]. rewrite decide_False in H4 by done.
    destruct (may_restart w) eqn:Er; cbn [fst snd]; unfold calls_of; cbn [dw_onDead dw_restart dw_id].
    + rewrite (decide_True (P := CallRestart id ∈ _)) by set_solver.
      unfold may_restart in Er. apply andb_true_iff in Er as [_ Er].
      unfold counts_ok. cbn [restarted wk_restartCount wk_MaxRestarts wk_Status].
      rewrite (decide_False (P := WorkerHealthy = _)) by done.
      split_and!; [lia|lia| |case_decide; lia]. intros Hz. apply orb_true_iff in Er as [?%Z.eqb_eq|?%Z.ltb_lt]; lia.
    + rewrite (decide_False (P := CallRestart id ∈ _)) by (destruct (wk_OnDead w); set_solver).
      unfold counts_ok. cbn [set_status wk_restartCount wk_MaxRestarts wk_Status].
      rewrite (decide_True (P := WorkerDead = _)) by done. split_and!; [lia|lia|lia|case_decide; lia].
  - clear Ed. destruct ((_ <? _) && _) eqn:Eu; cbn [fst snd]; rewrite !decide_False by apply not_elem_of_nil; [|done].
    apply andb_true_iff in Eu as [_ Eu%bool_decide_eq_true]. rewrite Eu in H4. split_and!; try done; try lia.
Qed.
Lemma counts_inv evs : forall id w, (hm_run evs).1 !! id = Some w ->
  counts_ok w (restarts id evs) (deaths id evs) (beats id evs).
Proof.
  induction evs as [|[now e] evs IH]; intros id w; [done|]. rewrite hm_run_cons.
  unfold restarts, deaths, beats. cbn [since]. fold (restarts id) (deaths id) (beats id).
  destruct e as [id' timeout od onr max|id'|id'|]; cbn [hm_step fst].
  - unfold Register. destruct (decide (id' = id)) as [->|Hne].
    + rewrite lookup_insert_eq. intros [= <-]. unfold counts_ok. cbn [wk_restartCount wk_MaxRestarts wk_Status].
      rewrite decide_False by done. lia.
    + rewrite lookup_insert_ne by done. apply IH.
  - unfold Unregister. intros [_ Hw]%lookup_delete_Some. rewrite !called_other, (decide_False (P := HmUnregister id' = _)) by done. by apply IH.
  - unfold Heartbeat. rewrite !called_other by done. destruct (decide (id' = id)) as [->|Hne].
    + rewrite lookup_alter_eq, decide_True by done. intros (w0 & Hw & ->)%fmap_Some.
      destruct (IH _ _ Hw) as (H1 & H2 & H3 & H4). unfold counts_ok. cbn [beat wk_restartCount wk_MaxRestarts wk_Status].
      rewrite (decide_False (P := WorkerHealthy = _)) by done. split_and!; [lia|lia|done|]. case_decide; lia.
    + rewrite lookup_alter_ne by done. rewrite decide_False by (by intros [=]). apply IH.
  - rewrite checkHealth_lookup. intros (w0 & Hw & ->)%fmap_Some.
    rewrite (called_check (CallRestart id) now _ w0), (called_check (CallOnDead id) now _ w0) by done.
    rewrite (decide_False (P := HmCheck = _)) by done. cbn [call_id Z.add]. by apply check_counts, IH.
Qed.

(** ** Detection *)

(** The last sign of life of a worker: its registration, a heartbeat or a
    restart. *)
Fixpoint last_life (id : string) (evs : list (Z * hm_event)) : option Z :=
  match evs with
  | [] => None
  | (now, e) :: evs =>
      match e with
      | HmRegister id' _ _ _ _ => if decide (id' = id) then Some now else last_life id evs
      | HmUnregister id' => if decide (id' = id) then None else last_life id evs
      | HmHeartbeat id' => if decide (id' = id) then (fun _ => now) <$> last_life id evs else last_life id evs
      | HmCheck => if decide (CallRestart id ∈ (checkHealth now (hm_run evs).1).2) then Some now else last_life id evs
      end
  end.
Lemma check_life now id w : wk_LastHeartbeat (check_worker now id w).1 =
  if decide (CallRestart id ∈ check_calls now id w) then now else wk_LastHeartbeat w.
Proof.
  unfold check_calls, check_worker. destruct ((_ <? _) && _); [destruct (may_restart w)|destruct ((_ <? _) && _)]; cbn [fst snd].
  - rewrite decide_True; [done|]. unfold calls_of. cbn. destruct (wk_OnDead w); set_solver.
  - rewrite decide_False; [done|]. unfold calls_of. cbn. destruct (wk_OnDead w); set_solver.
  - by rewrite decide_False by apply not_elem_of_nil.
  - by rewrite decide_False by apply not_elem_of_nil.
Qed.
Lemma last_life_spec evs : forall id, last_life id evs = wk_LastHeartbeat <$> (hm_run evs).1 !! id.
Proof.
  induction evs as [|[now e] evs IH]; intros id; [done|]. rewrite hm_run_cons. cbn [last_life].
  destruct e as [id' timeout od onr max|id'|id'|]; cbn [hm_step fst].
  - unfold Register. case_decide as E; [subst; by rewrite lookup_insert_eq|]. by rewrite lookup_insert_ne.
  - unfold Unregister. case_decide as E; [subst; by rewrite lookup_delete_eq|]. by rewrite lookup_delete_ne.
  - unfold Heartbeat. case_decide as E; [subst|by rewrite lookup_alter_ne].
    rewrite lookup_alter_eq, IH. by destruct (_ !! id).
  - rewrite checkHealth_lookup, IH. pose proof (checkHealth_calls now (hm_run evs).1 (CallRestart id)) as Hc. cbn [call_id] in Hc.
    destruct ((hm_run evs).1 !! id) as [w|] eqn:Ew; cbn [fmap option_fmap option_map].
    + rewrite check_life. case_decide as E1; case_decide as E2; try done; exfalso; naive_solver.
    + case_decide as E; [|done]. apply Hc in E as (w & ? & _). done.
Qed.
Lemma last_life_past evs id u : in_order evs -> last_life id evs = Some u -> on_clock u /\ forall now, Forall (fun e => e.1 <= now) evs -> u <= now.
Proof.
  revert u. induction evs as [|[now e] evs IH]; intros u; [done|]. intros (Hn & Hp & Ho) Hl.
  assert (u = now \/ last_life id evs = Some u) as [->|Hl'].
  { cbn [last_life] in Hl. destruct e; repeat case_decide; simplify_eq; auto. destruct (last_life id evs); simplify_eq/=. auto. }
  - split; [done|]. intros now' [? _]%Forall_cons. done.
  - destruct (IH u Ho Hl') as [? Hf]. split; [done|]. intros now' [_ ?]%Forall_cons. auto.
Qed.

(** ** Theorems *)

(** Since a worker was registered it has been restarted as often as its
    counter says, at most [MaxRestarts] times unless that is zero, and
    declared dead at most once more than it was restarted or sent heartbeats:
    one silence is reported once. *)
Theorem restarts_bounded evs id w : (hm_run evs).1 !! id = Some w ->
  restarts id evs = wk_restartCount w /\
  (wk_MaxRestarts w <> 0 -> restarts id evs <= Z.max 0 (wk_MaxRestarts w)) /\
  deaths id evs <= restarts id evs + beats id evs + 1.
Proof. intros Hw. destruct (counts_inv evs id w Hw) as (H1 & _ & H3 & H4). split_and!; [done|done|]. case_decide; lia. Qed.

(** A check calls nothing for a worker that showed a sign of life within its
    timeout; a worker that has been silent for longer is dead after the check
    or has been restarted by it, and its callback is called if it was not dead
    before. *)
Theorem monitor_detects evs t id w : in_order ((t, HmCheck) :: evs) -> (hm_run evs).1 !! id = Some w ->
  let calls := (checkHealth t (hm_run evs).1).2 in
  exists u, last_life id evs = Some u /\
  (t - u <= wk_Timeout w -> (CallOnDead id ∉ calls) /\ (CallRestart id ∉ calls)) /\
  (wk_Timeout w < t - u -> exists w', (checkHealth t (hm_run evs).1).1 !! id = Some w' /\
     (wk_Status w' = WorkerDead \/ CallRestart id ∈ calls /\ wk_LastHeartbeat w' = t) /\
     (wk_Status w <> WorkerDead -> wk_OnDead w = true -> CallOnDead id ∈ calls)).
Proof.
  intros Ho Hw calls. pose proof (last_life_spec evs id) as Hl. rewrite Hw in Hl. cbn in Hl.
  exists (wk_LastHeartbeat w). split; [done|]. destruct Ho as (Ht & Hp & Ho).
  destruct (last_life_past _ _ _ Ho Hl) as [Hu _].
  assert (forall c, call_id c = id -> c ∈ calls <-> c ∈ check_calls t id w) as Hc.
  { intros c <-. unfold calls. rewrite checkHealth_calls. naive_solver. }
  rewrite checkHealth_lookup, Hw. cbn [fmap option_fmap option_map].
  split; intros Hd.
  - rewrite !Hc by done. unfold check_calls, check_worker. rewrite (Sub_exact t _ Ht Hu).
    rewrite (proj2 (Z.ltb_ge _ _)) by lia. cbn [andb]. destruct (_ && _); cbn [snd]; split; apply not_elem_of_nil.
  - eexists. split; [done|]. rewrite !Hc by done. unfold check_calls, check_worker.
    rewrite (Sub_exact t _ Ht Hu), (proj2 (Z.ltb_lt _ _)) by lia. cbn [andb].
    case_bool_decide as E; cbn [negb].
    + split; [|done]. rewrite E. destruct (_ && _) eqn:Eu; [|by left].
      apply andb_true_iff in Eu as [_ Eu]. by apply bool_decide_eq_true in Eu.
    + destruct (may_restart w); cbn [fst snd]; unfold calls_of; cbn [dw_onDead dw_restart dw_id].
      * split; [right; split; [set_solver|done]|]. intros _ ->. set_solver.
      * split; [by left|]. intros _ ->. set_solver.
Qed.

(** A worker that is silent for eleven seconds of a timeout of ten, twice. *)
Definition silent_worker : list (Z * hm_event) :=
  [(22 * Second, HmCheck); (11 * Second, HmCheck); (0, HmRegister "w" (10 * Second) true true 1)].
Lemma restarts_bounded_witness : restarts "w" silent_worker = 1 /\ deaths "w" silent_worker = 2 /\ 2 <= 1 + 0 + 1.
Proof.
  split; [by vm_compute|]. split; [by vm_compute|].
  exact (proj2 (proj2 (restarts_bounded silent_worker "w"
    (mkWorker "w" (11 * Second) (10 * Second) true true 1 1 WorkerDead) ltac:(by vm_compute)))).
Defined.
Lemma monitor_detects_witness : last_life "w" (tail silent_worker) = Some (11 * Second) /\
  CallOnDead "w" ∈ (checkHealth (22 * Second) (hm_run (tail silent_worker)).1).2.
Proof.
  destruct (monitor_detects (tail silent_worker) (22 * Second) "w"
    (mkWorker "w" (11 * Second) (10 * Second) true true 1 1 WorkerHealthy)) as (u & Hu & _ & Hd).
  - repeat (split || constructor); vm_compute; congruence.
  - by vm_compute.
  - assert (last_life "w" (tail silent_worker) = Some (11 * Second)) as E by (by vm_compute).
    split; [exact E|]. assert (u = 11 * Second) as -> by congruence.
    destruct Hd as (w' & _ & _ & Hc); [by vm_compute|]. apply Hc; done.
Defined.

(** Registering a worker again, which the comment calls an update of its
    configuration, clears its restart counter: a worker that registers when
    it is restarted is restarted without end, whatever its limit. *)
Definition reregistering (n : nat) : list (Z * hm_event) :=
  foldr (fun i evs => (Z.of_nat i * 20 * Second, HmRegister "w" (10 * Second) true true 1) ::
                      (Z.of_nat i * 20 * Second, HmCheck) :: evs)
    [(0, HmRegister "w" (10 * Second) true true 1)] (reverse (seq 1 n)).
Theorem reregistration_lifts_limit :
  length (filter (fun c => c.2 = CallRestart "w") (hm_run (reregistering 5)).2) = 5%nat.
Proof. by vm_compute. Qed.
