(* ===== verification/Watermark.v ===== *)
(** * Invisible watermarks (src/internal/watermark/watermark.go)

    A payload of 21 bytes with a checksum is split into three shards and a
    parity shard, and each shard is written as zero-width characters into a
    segment of the text; source files carry the whole payload in one comment
    line.  Texts are valid UTF-8, given by their code points, and bytes are
    integers below 256.  SHA-256 is a parameter. *)

From S2P Require Import Prelude GoStrings GoTime.
From Stdlib Require Import Ascii.

#[local] Open Scope Z_scope.
#[local] Open Scope list_scope.

(** ** Definitions *)

Abbreviation text := (list Z).
Abbreviation bytes := (list Z).
(** The code points of an ASCII literal. *)
Fixpoint runes (s : string) : text :=
  match s with EmptyString => [] | String c s => Z.of_N (N_of_ascii c) :: runes s end.

Definition zwBit0 : Z := 0x200B.
Definition zwBit1 : Z := 0x200C.
Definition zwStart : Z := 0x200D.
Definition zwEnd : Z := 0x2060.
Definition zwEndLegacy : Z := 0xFEFF.
Definition wsBit0 : Z := 32.
Definition wsBit1 : Z := 0xA0.
Definition magicBytes : bytes := runes "AFLR".
Definition wmVersion : Z := 2.
Definition wmVersionV1 : Z := 1.
Definition payloadSize : nat := 21.
Definition numShards : nat := 4.
Definition minShardsForRecovery : nat := 3.
Definition checksumSize : nat := 2.

Record Payload := mkPayload {
  py_Version : Z;
  py_Timestamp : Z;
  py_Hash : bytes;
  py_DeployID : Z
}.

(** *** Bits *)

Definition bits_of (b : Z) : text :=
  (fun i => if Z.land (Z.shiftr b i) 1 =? 0 then zwBit0 else zwBit1) <$> [7; 6; 5; 4; 3; 2; 1; 0].
Definition encodeZeroWidth (data : bytes) : text := [zwStart] ++ mjoin (bits_of <$> data) ++ [zwEnd].

(** [currentByte] is a byte: it is shifted modulo 256. *)
Fixpoint decode_bits (acc : bytes) (currentByte : Z) (bitCount : nat) (bits : text) : option bytes :=
  match bits with
  | [] => match bitCount with O => Some acc | _ => None end
  | r :: bits =>
      if decide (r = zwBit0 \/ r = zwBit1) then
        let cur := Z.lor (Z.shiftl currentByte 1 mod 256) (if decide (r = zwBit1) then 1 else 0) in
        match bitCount with
        | 7%nat => decode_bits (acc ++ [cur]) 0 0 bits
        | n => decode_bits acc cur (S n) bits
        end
      else None
  end.
(** A nil slice is empty. *)
Definition decodeBitsToBytes (bits : text) : bytes := default [] (decode_bits [] 0 0 bits).

(** What precedes and what follows the first occurrence of a rune. *)
Fixpoint cut_at (p : Z -> bool) (s : text) : option (text * text) :=
  match s with
  | [] => None
  | r :: s => if p r then Some ([], s) else '(a, b) ← cut_at p s; Some (r :: a, b)
  end.
Definition is_start (r : Z) : bool := r =? zwStart.
(** The first of the two end markers, as [indexZeroWidthEnd] finds it. *)
Definition is_end (r : Z) : bool := (r =? zwEnd) || (r =? zwEndLegacy).
Definition next_block (s : text) : option (text * text) :=
  '(_, rest) ← cut_at is_start s; cut_at is_end rest.

(** The loop drops at least two runes a round. *)
Fixpoint extract_loop (fuel : nat) (s : text) : list bytes :=
  match fuel with
  | O => []
  | S fuel =>
      match next_block s with
      | None => []
      | Some (bits, rest) =>
          let shard := decodeBitsToBytes bits in
          (if decide (length shard = 8%nat) then [shard] else []) ++ extract_loop fuel rest
      end
  end.
Definition extractAllShards (s : text) : list bytes := extract_loop (length s) s.

(** *** Shards *)

Definition xor_bytes (a b : bytes) : bytes := zip_with Z.lxor a b.
Definition pad8 (p : bytes) : bytes := p ++ replicate ((length p + 7) / 8 * 8 - length p) 0.
Fixpoint chunks8 (n : nat) (p : bytes) : list bytes :=
  match n with O => [] | S n => take 8 p :: chunks8 n (drop 8 p) end.
Definition buildShards (payload : bytes) : list bytes :=
  let padded := pad8 payload in
  let data := chunks8 (length padded / 8) padded in
  data ++ [foldl xor_bytes (replicate 8 0) data].

(** The bytes of a text. *)
Definition utf8_rune (r : Z) : bytes :=
  if r <? 0x80 then [r] else
  if r <? 0x800 then [0xC0 + r / 2 ^ 6; 0x80 + r mod 2 ^ 6] else
  if r <? 0x10000 then [0xE0 + r / 2 ^ 12; 0x80 + r / 2 ^ 6 mod 2 ^ 6; 0x80 + r mod 2 ^ 6] else
  [0xF0 + r / 2 ^ 18; 0x80 + r / 2 ^ 12 mod 2 ^ 6; 0x80 + r / 2 ^ 6 mod 2 ^ 6; 0x80 + r mod 2 ^ 6].
Definition utf8 (s : text) : bytes := mjoin (utf8_rune <$> s).

Section hash.
(** [sha256.Sum256]. *)
Context (sha256 : bytes -> bytes).

Definition checksum16 (data : bytes) : Z :=
  let h := sha256 data in Z.lor (Z.shiftl (nth 0 h 0) 8) (nth 1 h 0).
Definition verifyChecksum (payload : bytes) : bool :=
  if (length payload <? checksumSize + 1)%nat then false else
  let data := take (length payload - checksumSize) payload in
  checksum16 data =? Z.lor (Z.shiftl (nth (length payload - 2) payload 0) 8) (nth (length payload - 1) payload 0).

Definition concat3Shards (a b c : bytes) : bytes := a ++ b ++ c.

(** The order in which the loops try the shards. *)
Definition triplets (n : nat) : list (nat * nat * nat) :=
  i ← seq 0 n; j ← seq (i + 1) (n - (i + 1)); k ← seq (j + 1) (n - (j + 1)); [(i, j, k)].
Definition orders : list (nat * nat * nat) :=
  a ← seq 0 4; b ← filter (fun b => b <> a) (seq 0 4); c ← filter (fun c => c <> a /\ c <> b) (seq 0 4); [(a, b, c)].
Definition shard_at (shards : list bytes) (i : nat) : bytes := nth i shards [].
Definition candidates (shards : list bytes) : list bytes :=
  '(i, j, k) ← triplets (length shards);
  let x := shard_at shards i in let y := shard_at shards j in let z := shard_at shards k in
  let all4 := [x; y; z; xor_bytes (xor_bytes x y) z] in
  '(a, b, c) ← orders;
  [take (payloadSize + checksumSize) (concat3Shards (shard_at all4 a) (shard_at all4 b) (shard_at all4 c))].
Definition tryRecoverFromShards (shards : list bytes) : option bytes :=
  if (length shards <? 3)%nat then None else head (filter (fun p => verifyChecksum p = true) (candidates shards)).
Definition recoverPayload (shards : list bytes) : option bytes :=
  if (length shards <? minShardsForRecovery)%nat then None else tryRecoverFromShards shards.

(** *** Payload *)

Fixpoint be_bytes (n : nat) (z : Z) : bytes :=
  match n with O => [] | S n => Z.shiftr z (8 * Z.of_nat n) mod 256 :: be_bytes n z end.
Definition be_value (l : bytes) : Z := foldl (fun acc b => acc * 256 + b) 0 l.

(** [now] is [time.Now().Unix()]. *)
Definition buildPayload (now : Z) (content : text) (deployID : Z) : bytes :=
  magicBytes ++ [wmVersion] ++ be_bytes 8 (now mod 2 ^ 64) ++ take 6 (sha256 (utf8 content)) ++ be_bytes 2 deployID.
Definition parsePayload (payload : bytes) : option Payload :=
  if (length payload <? payloadSize)%nat then None else
  if decide (take 4 payload = magicBytes) then
    let version := nth 4 payload 0 in
    let ts := wrap64 (be_value (take 8 (drop 5 payload))) in
    if decide (version = wmVersionV1) then Some (mkPayload version ts (take 8 (drop 13 payload)) 0) else
    if decide (version = wmVersion)
    then Some (mkPayload version ts (take 6 (drop 13 payload)) (be_value (take 2 (drop 19 payload))))
    else None
  else None.
Definition with_checksum (payload : bytes) : bytes :=
  let chk := checksum16 payload in payload ++ [Z.shiftr chk 8 mod 256; Z.land chk 255].

(** *** Text *)

(** Positions [i] with their rune and the rune behind. *)
Fixpoint sentence_breaks (i : nat) (s : text) : list nat :=
  match s with
  | r :: ((r' :: _) as s') =>
      (if decide (r ∈ runes ".!?" \/ r = 10) then if decide (r' = 32 \/ r' = 10) then [(i + 1)%nat] else [] else [])
      ++ sentence_breaks (S i) s'
  | _ => []
  end.
Definition findSentenceBreaks (s : text) : list nat := sentence_breaks 0 s.
Fixpoint word_breaks (i : nat) (s : text) : list nat :=
  match s with
  | [] => []
  | r :: s => (if decide (r = 32 /\ (0 < i)%nat) then [(i + 1)%nat] else []) ++ word_breaks (S i) s
  end.
Definition findWordBreaks (s : text) : list nat := word_breaks 0 s.
(** The index of the [i]-th of [k] picks among [n]. *)
Definition pick_index (n k i : nat) : nat :=
  let step := f64_div (f64_of_Z (Z.of_nat n - 1)) (f64_of_Z (Z.of_nat k - 1)) in
  let idx := Z.to_nat (f64_trunc (f64_mul (f64_of_Z (Z.of_nat i)) step)) in
  if (n <=? idx)%nat then (n - 1)%nat else idx.
Definition pickEvenlySpaced (indices : list nat) (k : nat) : list nat :=
  if (length indices <=? k)%nat then indices
  else (fun i => nth (pick_index (length indices) k i) indices 0%nat) <$> seq 0 k.

Fixpoint split_from (prev : nat) (s : text) (indices : list nat) : list text :=
  match indices with
  | [] => if (prev <? length s)%nat then [drop prev s] else []
  | idx :: indices =>
      if (prev <? idx)%nat && (idx <=? length s)%nat
      then take (idx - prev) (drop prev s) :: split_from idx s indices
      else split_from prev s indices
  end.
Definition splitAtIndices (s : text) (indices : list nat) : list text := split_from 0 s indices.
Definition splitEvenly (s : text) (n : nat) : list text :=
  if (length s <? n)%nat then [s] else
  let chunk := (length s / n)%nat in
  (fun i => if decide (i = (n - 1)%nat) then drop (i * chunk) s else take chunk (drop (i * chunk) s)) <$> seq 0 n.
Definition splitContentIntoSegments (s : text) (n : nat) : list text :=
  if (n <=? 1)%nat then [s] else
  if (n - 1 <=? length (findSentenceBreaks s))%nat
  then splitAtIndices s (pickEvenlySpaced (findSentenceBreaks s) (n - 1)) else
  if (n - 1 <=? length (findWordBreaks s))%nat
  then splitAtIndices s (pickEvenlySpaced (findWordBreaks s) (n - 1)) else
  splitEvenly s n.

Fixpoint first_space (i : nat) (s : text) : option nat :=
  match s with [] => None | r :: s => if decide (r = 32) then Some i else first_space (S i) s end.
Definition findInsertionPoint (s : text) : nat :=
  if (length s <? 4)%nat then (length s / 2)%nat else
  match first_space 2 (drop 2 s) with Some i => S i | None => (length s / 3)%nat end.

Fixpoint fingerprint_spaces (fingerprint : Z) (count : nat) (s : text) : text :=
  match s with
  | [] => []
  | r :: s =>
      if decide (r = 32 /\ (count < 4)%nat) then
        (if Z.land (Z.shiftr fingerprint (3 - Z.of_nat count)) 1 =? 0 then wsBit0 else wsBit1)
        :: fingerprint_spaces fingerprint (S count) s
      else r :: fingerprint_spaces fingerprint count s
  end.
Definition fingerprint_of (shardIndex : nat) : Z :=
  Z.lor (Z.shiftl (Z.land (Z.of_nat shardIndex) 3) 2) (Z.land (Z.of_nat (numShards - 1)) 3).
Definition encodeWhitespaceFingerprint (s : text) (shardIndex : nat) : text :=
  fingerprint_spaces (fingerprint_of shardIndex) 0 s.
(** The loop ends with the fourth space. *)
Fixpoint read_fingerprint (fingerprint : Z) (count : nat) (s : text) : Z * nat :=
  if (4 <=? count)%nat then (fingerprint, count) else
  match s with
  | [] => (fingerprint, count)
  | r :: s => if decide (r = wsBit0) then read_fingerprint (Z.shiftl fingerprint 1 mod 256) (S count) s else
              if decide (r = wsBit1) then read_fingerprint (Z.lor (Z.shiftl fingerprint 1 mod 256) 1) (S count) s else
              read_fingerprint fingerprint count s
  end.
Definition decodeWhitespaceFingerprint (s : text) : Z :=
  let '(fingerprint, count) := read_fingerprint 0 0 s in
  if (count <? 4)%nat then -1 else Z.land (Z.shiftr fingerprint 2) 3.

Definition embedShardInSegment (segment : text) (shard : bytes) (shardIndex : nat) : text :=
  let p := findInsertionPoint segment in
  let p := if (length segment <? p)%nat then length segment else p in
  take p segment ++ encodeZeroWidth shard ++ encodeWhitespaceFingerprint (drop p segment) shardIndex.

Fixpoint embed_all (i : nat) (segments : list text) (shards : list bytes) : text :=
  match segments, shards with
  | seg :: segments, shard :: shards => embedShardInSegment seg shard i ++ embed_all (S i) segments shards
  | _, _ => mjoin segments
  end.
Definition EncodeTextWithSuffix (now deployID : Z) (content : text) : text :=
  if decide (content = []) then content else
  let payload := with_checksum (buildPayload now content deployID) in
  let segments := splitContentIntoSegments content numShards in
  if decide (segments = []) then content ++ encodeZeroWidth (take payloadSize payload)
  else embed_all 0 segments (buildShards payload).

Definition decodeLegacy (s : text) : option Payload :=
  '(bits, _) ← next_block s;
  let bs := decodeBitsToBytes bits in
  if (length bs <? payloadSize)%nat then None else parsePayload (take payloadSize bs).
Definition DecodeText (s : text) : option Payload :=
  let shards := extractAllShards s in
  if (minShardsForRecovery <=? length shards)%nat then
    match recoverPayload shards with
    | Some payload => if verifyChecksum payload then parsePayload (take payloadSize payload) else decodeLegacy s
    | None => decodeLegacy s
    end
  else decodeLegacy s.
Definition HasWatermark (s : text) : bool := bool_decide (is_Some (DecodeText s)).

(** *** Source files *)

Definition zwPrefix : text := runes "// aflare".
Definition nl : Z := 10.
Fixpoint split_lines (s : text) : list text :=
  match s with
  | [] => [[]]
  | r :: s => if decide (r = nl) then [] :: split_lines s else
              match split_lines s with l :: ls => (r :: l) :: ls | [] => [[r]] end
  end.
Fixpoint join_lines (ls : list text) : text :=
  match ls with [] => [] | [l] => l | l :: ls => l ++ [nl] ++ join_lines ls end.

Fixpoint has_prefix (p s : text) : bool :=
  match p, s with [], _ => true | x :: p, y :: s => (x =? y) && has_prefix p s | _, [] => false end.
(** What follows the first occurrence of [p], and what precedes it. *)
Fixpoint find_text (p s : text) : option (text * text) :=
  if has_prefix p s then Some ([], drop (length p) s) else
  match s with [] => None | r :: s => '(a, b) ← find_text p s; Some (r :: a, b) end.
Definition contains_text (s p : text) : bool := bool_decide (is_Some (find_text p s)).

Definition is_zero_width (r : Z) : bool := bool_decide (r ∈ [zwBit0; zwBit1; zwStart; zwEnd; zwEndLegacy]).
Definition ascii_blank (r : Z) : bool := bool_decide (r ∈ [32; 9; 13]).
Fixpoint trim_right (s : text) : text :=
  match s with
  | [] => []
  | r :: s => match trim_right s with [] => if ascii_blank r then [] else [r] | t => r :: t end
  end.
Definition isSourceWatermarkLine (line : text) : bool :=
  has_prefix zwPrefix line &&
  let rest := trim_right (drop (length zwPrefix) line) in
  negb (bool_decide (rest = [])) && forallb is_zero_width rest.
Definition stripAllSourceWatermarkLines (src : text) : text :=
  join_lines (filter (fun l => isSourceWatermarkLine l = false) (split_lines src)).

Definition is_copyright (line : text) : bool :=
  has_prefix (runes "// Copyright") line && contains_text line (runes "aflare").
(** The lines, with the watermark after the first bare comment line that
    follows a copyright line; whether it was put in. *)
Fixpoint insert_mark (mark : text) (inCopyright : bool) (lines : list text) : text * bool :=
  match lines with
  | [] => ([], false)
  | line :: rest =>
      let here := line ++ match rest with [] => [] | _ => [nl] end in
      if is_copyright line then let '(t, b) := insert_mark mark true rest in (here ++ t, b) else
      if inCopyright && bool_decide (line = runes "//") then (here ++ mark ++ [nl] ++ join_lines rest, true)
      else let '(t, b) := insert_mark mark inCopyright rest in (here ++ t, b)
  end.
Definition EncodeSource (now deployID : Z) (src : text) : text :=
  if decide (src = []) then src else
  let src := stripAllSourceWatermarkLines src in
  let mark := zwPrefix ++ encodeZeroWidth (with_checksum (buildPayload now src deployID)) in
  let '(t, inserted) := insert_mark mark false (split_lines src) in
  if inserted then t else mark ++ [nl] ++ src.
Definition DecodeSource (src : text) : option Payload :=
  '(_, rest) ← find_text zwPrefix src;
  '(bits, _) ← next_block rest;
  let bs := decodeBitsToBytes bits in
  if (length bs <? payloadSize + checksumSize)%nat then None else
  if verifyChecksum bs then parsePayload (take payloadSize bs) else None.
(** The text up to its last line break. *)
Fixpoint full_lines (s : text) : text :=
  match s with
  | [] => []
  | r :: s => match full_lines s with [] => if decide (r = nl) then [r] else [] | t => r :: t end
  end.
Definition StripSourceWatermark (src : text) : text :=
  match find_text zwPrefix src with
  | None => src
  | Some (before, rest) =>
      match next_block rest with
      | None => src
      | Some (_, rest) =>
          full_lines before ++ match cut_at (fun r => r =? nl) rest with Some (_, r) => r | None => rest end
      end
  end.
Definition HasSourceWatermark (src : text) : bool := bool_decide (is_Some (DecodeSource src)).
End hash.
