(* ===== verification/WatermarkProofs.v ===== *)
(** * Properties of watermarks

    What is embedded is what is read back: from a text all of whose shards are
    there, from any three of the four, and from a source file; and marking a
    source file again replaces its mark. *)

From S2P Require Import Prelude GoStrings GoTime Watermark.

#[local] Open Scope Z_scope.
#[local] Open Scope list_scope.

(** ** Bits *)

Definition is_byte (b : Z) : Prop := 0 <= b < 256.
(** A text without markers. *)
Definition clean (s : text) : Prop := Forall (fun r => is_zero_width r = false) s.

Lemma decode_bits_byte b : is_byte b -> forall acc rest,
  decode_bits acc 0 0 (bits_of b ++ rest) = decode_bits (acc ++ [b]) 0 0 rest.
Proof.
  intros Hb. assert (b ∈ seqZ 0 256) as H by (apply elem_of_seqZ; unfold is_byte in Hb; lia).
  cbv in H. repeat (apply elem_of_cons in H as [->|H]; [intros; reflexivity|]). by apply not_elem_of_nil in H.
Qed.
Lemma decode_bits_data data : Forall is_byte data -> forall acc,
  decode_bits acc 0 0 (mjoin (bits_of <$> data)) = Some (acc ++ data).
Proof.
  induction 1 as [|b data Hb _ IH]; intros acc; [by rewrite app_nil_r|]. cbn [fmap list_fmap mjoin list_join].
  rewrite decode_bits_byte by done. by rewrite IH, <- app_assoc.
Qed.
Lemma decodeBits_encoded data : Forall is_byte data -> decodeBitsToBytes (mjoin (bits_of <$> data)) = data.
Proof. intros H. unfold decodeBitsToBytes. by rewrite decode_bits_data. Qed.

Lemma bits_plain data r : r ∈ mjoin (bits_of <$> data) -> r = zwBit0 \/ r = zwBit1.
Proof.
  rewrite list_elem_of_join. intros (l & Hr & (b & -> & _)%list_elem_of_fmap).
  unfold bits_of in Hr. apply list_elem_of_fmap in Hr as (i & -> & _). destruct (_ =? _); auto.
Qed.

Lemma cut_at_first p s x rest : Forall (fun r => p r = false) s -> p x = true ->
  cut_at p (s ++ x :: rest) = Some (s, rest).
Proof. induction 1 as [|r s Hr _ IH]; intros Hx; cbn; [by rewrite Hx|]. by rewrite Hr, IH. Qed.
Lemma cut_at_none p s : Forall (fun r => p r = false) s -> cut_at p s = None.
Proof. induction 1 as [|r s Hr _ IH]; [done|]. cbn. by rewrite Hr, IH. Qed.

Lemma clean_start s : clean s -> Forall (fun r => is_start r = false) s.
Proof.
  intros H. eapply Forall_impl; [exact H|]. intros r Hr. unfold is_start. apply Z.eqb_neq. intros ->. done.
Qed.
Lemma next_block_encoded a d rest : clean a ->
  next_block (a ++ encodeZeroWidth d ++ rest) = Some (mjoin (bits_of <$> d), rest).
Proof.
  intros Ha. unfold next_block, encodeZeroWidth.
  replace (a ++ ([zwStart] ++ mjoin (bits_of <$> d) ++ [zwEnd]) ++ rest)
    with (a ++ zwStart :: (mjoin (bits_of <$> d) ++ zwEnd :: rest)) by (cbn; by rewrite <- app_assoc).
  rewrite cut_at_first; [|by apply clean_start|done]. cbn. apply cut_at_first; [|done].
  apply Forall_forall. intros r [->| ->]%bits_plain; done.
Qed.
Lemma next_block_clean s : clean s -> next_block s = None.
Proof. intros H. unfold next_block. by rewrite cut_at_none by (by apply clean_start). Qed.

(** ** Embedding *)

Lemma clean_app s t : clean (s ++ t) <-> clean s /\ clean t.
Proof. apply Forall_app. Qed.
Lemma clean_take n s : clean s -> clean (take n s).
Proof. apply Forall_take. Qed.
Lemma clean_drop n s : clean s -> clean (drop n s).
Proof. apply Forall_drop. Qed.
Lemma clean_fingerprint f n s : clean s -> clean (fingerprint_spaces f n s).
Proof.
  intros H. revert n. induction H as [|r s Hr _ IH]; intros n; [constructor|]. cbn [fingerprint_spaces].
  case_decide; constructor; try apply IH; try done. by destruct (_ =? _).
Qed.
Create HintDb clean_db.
#[export] Hint Resolve clean_take clean_drop clean_fingerprint : clean_db.

Definition shard_ok (s : bytes) : Prop := Forall is_byte s /\ length s = 8%nat.

Lemma extract_embedded segs : forall fuel i shards c, clean c -> Forall clean segs -> Forall shard_ok shards ->
  (length segs < fuel)%nat ->
  extract_loop fuel (c ++ embed_all i segs shards) = take (length segs) shards.
Proof.
  induction segs as [|seg segs IH]; intros [|fuel] i shards c Hc Hs Hsh Hf; cbn [length] in Hf; try lia.
  - cbn [embed_all mjoin list_join extract_loop]. rewrite app_nil_r, next_block_clean by done. by destruct shards.
  - apply Forall_cons in Hs as [Hseg Hs]. destruct shards as [|sh shards].
    + cbn [embed_all extract_loop length take]. rewrite next_block_clean; [done|]. apply clean_app. split; [done|].
      apply Forall_join. by constructor.
    + apply Forall_cons in Hsh as [[Hb Hl] Hsh]. cbn [embed_all extract_loop length take].
      unfold embedShardInSegment. set (p := if _ : bool then _ else _).
      rewrite <- !app_assoc, (app_assoc c), next_block_encoded by (apply clean_app; auto with clean_db).
      rewrite decodeBits_encoded, decide_True by done. cbn [app]. f_equal.
      apply IH; [|done|done|lia]. unfold encodeWhitespaceFingerprint. auto with clean_db.
Qed.
Lemma embed_length segs : forall i shards, (length segs <= length shards)%nat ->
  (2 * length segs <= length (embed_all i segs shards))%nat.
Proof.
  induction segs as [|seg segs IH]; intros i shards Hl; cbn [length] in *; [lia|].
  destruct shards as [|sh shards]; cbn [length] in Hl; [lia|]. cbn [embed_all].
  unfold embedShardInSegment, encodeZeroWidth. rewrite !length_app. specialize (IH (S i) shards ltac:(lia)). cbn [length]. lia.
Qed.
Lemma split_from_length s indices : forall prev, (length (split_from prev s indices) <= S (length indices))%nat.
Proof.
  induction indices as [|idx indices IH]; intros prev; cbn [split_from]; [destruct (_ <? _)%nat; cbn; lia|].
  destruct (_ && _); cbn [length]; [specialize (IH idx)|specialize (IH prev)]; lia.
Qed.
Lemma pick_length indices k : (k <= length indices)%nat -> length (pickEvenlySpaced indices k) = k.
Proof.
  intros Hk. unfold pickEvenlySpaced. destruct (Nat.leb_spec (length indices) k); [lia|].
  by rewrite length_fmap, length_seq.
Qed.
Lemma segments_length s : (length (splitContentIntoSegments s numShards) <= numShards)%nat.
Proof.
  unfold splitContentIntoSegments. change (numShards <=? 1)%nat with false. cbv iota.
  destruct (Nat.leb_spec (numShards - 1) (length (findSentenceBreaks s)));
    [|destruct (Nat.leb_spec (numShards - 1) (length (findWordBreaks s)))]; unfold splitAtIndices.
  1,2: etransitivity; [apply split_from_length|]; rewrite pick_length by done; unfold numShards; lia.
  unfold splitEvenly. destruct (Nat.ltb_spec (length s) numShards); [cbn; unfold numShards; lia|].
  by rewrite length_fmap, length_seq.
Qed.

(** Every way of splitting keeps the text. *)
Lemma split_from_join s indices : forall prev, mjoin (split_from prev s indices) = drop prev s.
Proof.
  induction indices as [|idx indices IH]; intros prev; cbn [split_from].
  - destruct (Nat.ltb_spec prev (length s)); cbn; [by rewrite app_nil_r|]. by rewrite drop_ge.
  - destruct (Nat.ltb_spec prev idx); destruct (Nat.leb_spec idx (length s)); cbn [andb mjoin list_join]; try apply IH.
    rewrite IH. rewrite <- (take_drop (idx - prev) (drop prev s)) at 2. rewrite drop_drop. do 3 f_equal. lia.
Qed.
Lemma splitEvenly_join s n : (0 < n)%nat -> mjoin (splitEvenly s n) = s.
Proof.
  intros Hn. unfold splitEvenly. destruct (Nat.ltb_spec (length s) n); [apply app_nil_r|].
  set (c := (length s / n)%nat).
  assert (forall k m, (k + m = n)%nat -> (0 < m)%nat -> mjoin ((fun i => if decide (i = (n - 1)%nat) then drop (i * c) s
    else take c (drop (i * c) s)) <$> seq k m) = drop (k * c) s) as Hind.
  { intros k m. revert k. induction m as [|m IH]; intros k Hk Hm; [lia|]. cbn [seq fmap list_fmap mjoin list_join].
    case_decide as Hd.
    - assert (m = 0%nat) as -> by lia. apply app_nil_r.
    - rewrite IH by lia. replace (S k * c)%nat with (k * c + c)%nat by lia. by rewrite <- drop_drop, take_drop. }
  apply (Hind 0%nat n); lia.
Qed.
Lemma segments_join s n : (0 < n)%nat -> mjoin (splitContentIntoSegments s n) = s.
Proof.
  intros Hn. unfold splitContentIntoSegments. destruct (n <=? 1)%nat; [apply app_nil_r|].
  repeat destruct (_ <=? _)%nat; try apply split_from_join. by apply splitEvenly_join.
Qed.
Lemma segments_clean s n : (0 < n)%nat -> clean s -> Forall clean (splitContentIntoSegments s n).
Proof.
  intros Hn Hs. rewrite <- (segments_join s n Hn) in Hs. unfold clean in *.
  rewrite Forall_forall in Hs. apply Forall_forall. intros seg Hseg. apply Forall_forall. intros r Hr.
  apply Hs, list_elem_of_join. eauto.
Qed.

Lemma extractAll_embedded s shards : clean s -> s <> [] -> Forall shard_ok shards -> length shards = numShards ->
  extractAllShards (embed_all 0 (splitContentIntoSegments s numShards) shards)
  = take (length (splitContentIntoSegments s numShards)) shards.
Proof.
  intros Hs Hne Hsh Hl. unfold extractAllShards. pose proof (segments_length s) as Hlen.
  pose proof (segments_join s numShards ltac:(unfold numShards; lia)) as Hj.
  pose proof (embed_length (splitContentIntoSegments s numShards) 0 shards ltac:(lia)).
  assert (length (splitContentIntoSegments s numShards) <> 0%nat) as Hnz.
  { intros E%nil_length_inv. rewrite E in Hj. by apply Hne. }
  apply (extract_embedded _ _ 0 shards []); [constructor|apply segments_clean; [unfold numShards; lia|done]|done|lia].
Qed.

(** ** Shards *)

Lemma xor_length a b : length a = 8%nat -> length b = 8%nat -> length (xor_bytes a b) = 8%nat.
Proof. unfold xor_bytes. rewrite length_zip_with. lia. Qed.
Lemma xor_comm a b : xor_bytes a b = xor_bytes b a.
Proof. unfold xor_bytes. revert b. induction a as [|x a IH]; intros [|y b]; cbn; [done..|]. by rewrite Z.lxor_comm, IH. Qed.
Lemma xor_assoc a b c : xor_bytes (xor_bytes a b) c = xor_bytes a (xor_bytes b c).
Proof.
  unfold xor_bytes. revert b c. induction a as [|x a IH]; intros [|y b] [|z c]; cbn; [done..|]. by rewrite Z.lxor_assoc, IH.
Qed.
Lemma xor_cancel a b : length a = length b -> xor_bytes a (xor_bytes a b) = b.
Proof.
  unfold xor_bytes. revert b. induction a as [|x a IH]; intros [|y b] Hl; cbn in *; try done.
  rewrite IH by lia. by rewrite <- Z.lxor_assoc, Z.lxor_nilpotent, Z.lxor_0_l.
Qed.
Lemma xor_zero a n : length a = n -> xor_bytes (replicate n 0) a = a.
Proof. unfold xor_bytes. intros <-. induction a as [|x a IH]; [done|]. cbn. by rewrite IH. Qed.

(** A payload with its checksum, cut into its shards. *)
Lemma shards_of p : Forall is_byte p -> length p = 23%nat -> exists s0 s1 s2,
  buildShards p = [s0; s1; s2; xor_bytes (xor_bytes s0 s1) s2] /\
  shard_ok s0 /\ shard_ok s1 /\ shard_ok s2 /\ take 23 (s0 ++ s1 ++ s2) = p.
Proof.
  intros Hp Hl. set (q := p ++ [0]).
  assert (length q = 24%nat) as Hq by (unfold q; rewrite length_app, Hl; done).
  assert (Forall is_byte q) as Hqb.
  { apply Forall_app. split; [done|]. repeat constructor; unfold is_byte; lia. }
  assert (length (take 8 q) = 8%nat) as L0 by (rewrite length_take; lia).
  assert (length (take 8 (drop 8 q)) = 8%nat) as L1 by (rewrite length_take, length_drop; lia).
  assert (length (take 8 (drop 8 (drop 8 q))) = 8%nat) as L2 by (rewrite length_take, !length_drop; lia).
  exists (take 8 q), (take 8 (drop 8 q)), (take 8 (drop 8 (drop 8 q))). split_and!.
  - unfold buildShards, pad8. rewrite Hl. change ((23 + 7) / 8 * 8 - 23)%nat with 1%nat. change (replicate 1 0) with [0].
    fold q. rewrite Hq. change (24 / 8)%nat with 3%nat. cbn [chunks8 app foldl].
    by rewrite (xor_zero (take 8 q) 8 L0).
  - split; [by apply Forall_take|done].
  - split; [by apply Forall_take, Forall_drop|done].
  - split; [by apply Forall_take, Forall_drop, Forall_drop|done].
  - rewrite (take_ge (drop 8 (drop 8 q))) by (rewrite !length_drop; lia). rewrite !take_drop.
    unfold q. by rewrite take_app_length'.
Qed.
Lemma xor_ok a b : shard_ok a -> shard_ok b -> shard_ok (xor_bytes a b).
Proof.
  intros [Ha La] [Hb Lb]. split; [|by apply xor_length]. clear La Lb. revert b Hb. unfold xor_bytes.
  induction Ha as [|x a Hx _ IH]; intros [|y b] Hb; cbn; try constructor.
  - apply Forall_cons in Hb as [Hy _]. unfold is_byte in *. split; [apply Z.lxor_nonneg; lia|].
    assert (Z.lxor x y / 2 ^ 8 = 0) as E.
    { rewrite <- Z.shiftr_div_pow2, Z.shiftr_lxor, !Z.shiftr_div_pow2 by lia. by rewrite !Z.div_small by lia. }
    apply Z.div_small_iff in E; lia.
  - apply Forall_cons in Hb as [_ ?]. by apply IH.
Qed.
Lemma buildShards_ok p : Forall is_byte p -> length p = 23%nat ->
  Forall shard_ok (buildShards p) /\ length (buildShards p) = numShards.
Proof.
  intros Hp Hl. destruct (shards_of p Hp Hl) as (s0 & s1 & s2 & -> & ? & ? & ? & _). split; [|done].
  rewrite !Forall_cons. eauto 8 using xor_ok, Forall_nil_2.
Qed.

(** What three shards and an order of them and of the fourth give. *)
Lemma cand3 x y z a b c : (a, b, c) ∈ orders ->
  let all4 := [x; y; z; xor_bytes (xor_bytes x y) z] in
  take 23 (concat3Shards (shard_at all4 a) (shard_at all4 b) (shard_at all4 c)) ∈ candidates [x; y; z].
Proof.
  intros Ho all4. unfold candidates. apply list_elem_of_bind. exists (0, 1, 2)%nat. split; [|by vm_compute; left].
  apply list_elem_of_bind. exists (a, b, c). split; [by left|done].
Qed.

Section recovery.
Context (sha256 : bytes -> bytes) (p : bytes).
Hypothesis (Hp : Forall is_byte p) (Hl : length p = 23%nat) (Hv : verifyChecksum sha256 p = true).

(** With the shards in order the payload is the first candidate. *)
Lemma recover_all n : (3 <= n)%nat -> recoverPayload sha256 (take n (buildShards p)) = Some p.
Proof using All.
  intros Hn. destruct (shards_of p Hp Hl) as (s0 & s1 & s2 & -> & _ & _ & _ & E).
  assert (forall rest, exists cs, candidates (s0 :: s1 :: s2 :: rest) = p :: cs) as Hc.
  { intros rest. unfold candidates. change (length (s0 :: s1 :: s2 :: rest)) with (3 + length rest)%nat.
    eexists. rewrite <- E at 1. reflexivity. }
  assert (forall rest, recoverPayload sha256 (s0 :: s1 :: s2 :: rest) = Some p) as Hr.
  { intros rest. unfold recoverPayload, tryRecoverFromShards. cbn [length Nat.ltb Nat.leb minShardsForRecovery].
    destruct (Hc rest) as [cs ->]. by rewrite filter_cons_True. }
  destruct n as [|[|[|[|n]]]]; try lia; apply Hr.
Qed.

(** Any three shards have the payload among their candidates. *)
Lemma recover_three i : (i < 4)%nat -> p ∈ candidates (delete i (buildShards p)).
Proof using Hl Hp.
  intros Hi. destruct (shards_of p Hp Hl) as (s0 & s1 & s2 & -> & [_ L0] & [_ L1] & [_ L2] & E).
  assert (xor_bytes (xor_bytes s0 s1) (xor_bytes (xor_bytes s0 s1) s2) = s2) as X2
    by (apply xor_cancel; rewrite xor_length; done).
  assert (xor_bytes (xor_bytes s0 s2) (xor_bytes (xor_bytes s0 s1) s2) = s1) as X1.
  { rewrite (xor_assoc s0 s1 s2), (xor_comm s1 s2), <- (xor_assoc s0 s2 s1).
    apply xor_cancel; rewrite xor_length; done. }
  assert (xor_bytes (xor_bytes s1 s2) (xor_bytes (xor_bytes s0 s1) s2) = s0) as X0.
  { rewrite (xor_assoc s0 s1 s2), (xor_comm s0). apply xor_cancel; rewrite xor_length; done. }
  rewrite <- E. destruct i as [|[|[|[|i]]]]; [| | | |lia]; cbn [delete list_delete].
  - replace (take 23 (s0 ++ s1 ++ s2)) with (take 23 (concat3Shards (xor_bytes (xor_bytes s1 s2) (xor_bytes (xor_bytes s0 s1) s2)) s1 s2))
      by (by rewrite X0).
    apply (cand3 s1 s2 _ 3 0 1). eapply bool_decide_eq_true_1; by vm_compute.
  - replace (take 23 (s0 ++ s1 ++ s2)) with (take 23 (concat3Shards s0 (xor_bytes (xor_bytes s0 s2) (xor_bytes (xor_bytes s0 s1) s2)) s2))
      by (by rewrite X1).
    apply (cand3 s0 s2 _ 0 3 1). eapply bool_decide_eq_true_1; by vm_compute.
  - replace (take 23 (s0 ++ s1 ++ s2)) with (take 23 (concat3Shards s0 s1 (xor_bytes (xor_bytes s0 s1) (xor_bytes (xor_bytes s0 s1) s2))))
      by (by rewrite X2).
    apply (cand3 s0 s1 _ 0 1 3). eapply bool_decide_eq_true_1; by vm_compute.
  - apply (cand3 s0 s1 s2 0 1 2). eapply bool_decide_eq_true_1; by vm_compute.
Qed.
End recovery.

(** ** The payload *)

Lemma be_value_app l b : be_value (l ++ [b]) = be_value l * 256 + b.
Proof. unfold be_value. by rewrite foldl_app. Qed.
Lemma be_bytes_length n z : length (be_bytes n z) = n.
Proof. induction n as [|n IH]; [done|]. cbn. by rewrite IH. Qed.
Lemma be_bytes_ok n z : Forall is_byte (be_bytes n z).
Proof. induction n as [|n IH]; [constructor|]. constructor; [|done]. unfold is_byte. apply Z.mod_pos_bound. lia. Qed.
Lemma foldl_be l : forall acc, foldl (fun acc b => acc * 256 + b) acc l = acc * 256 ^ Z.of_nat (length l) + be_value l.
Proof.
  unfold be_value. induction l as [|b l IH]; intros acc; cbn [foldl length]; [cbn; lia|].
  rewrite IH, (IH (0 * 256 + b)), Nat2Z.inj_succ, Z.pow_succ_r by lia. ring.
Qed.
Lemma be_roundtrip n z : be_value (be_bytes n z) = z mod 256 ^ Z.of_nat n.
Proof.
  induction n as [|n IH]; [cbn; by rewrite Z.mod_1_r|]. unfold be_value. cbn [be_bytes foldl].
  rewrite foldl_be, IH, be_bytes_length, Z.shiftr_div_pow2 by lia.
  rewrite Nat2Z.inj_succ, Z.pow_succ_r by lia.
  replace (2 ^ (8 * Z.of_nat n)) with (256 ^ Z.of_nat n) by (rewrite Z.pow_mul_r by lia; done).
  rewrite (Z.mul_comm 256 (256 ^ Z.of_nat n)), Z.rem_mul_r by lia. ring.
Qed.

Definition hash_ok (sha256 : bytes -> bytes) : Prop := forall d, Forall is_byte (sha256 d) /\ length (sha256 d) = 32%nat.

Section payload.
Context (sha256 : bytes -> bytes) (Hsha : hash_ok sha256).

Lemma two_bytes h0 h1 : is_byte h0 -> is_byte h1 -> let c := Z.lor (Z.shiftl h0 8) h1 in
  Z.shiftr c 8 mod 256 = h0 /\ Z.land c 255 = h1.
Proof.
  intros H0 H1 c. unfold is_byte in *. assert (c = h0 * 2 ^ 8 + h1) as Ec.
  { unfold c. rewrite Z.shiftl_mul_pow2 by lia. rewrite <- Z.lxor_lor, <- Z.add_nocarry_lxor; [done| |].
    all: apply Z.bits_inj_0; intros i; rewrite Z.land_spec; destruct (decide (i < 8)) as [Hi|Hi].
    1,3: by rewrite Z.mul_pow2_bits_low.
    all: rewrite andb_comm, (Z.bits_above_log2 h1 i); [done|lia|];
         destruct (decide (h1 = 0)) as [->|]; [cbn; lia|]; apply Z.log2_lt_pow2; [lia|];
         apply (Z.lt_le_trans _ (2 ^ 8)); [lia|]; apply Z.pow_le_mono_r; lia. }
  clearbody c. subst c. split.
  - rewrite Z.shiftr_div_pow2, Z.div_add_l, (Z.div_small h1) by lia. rewrite Z.mod_small; lia.
  - change 255 with (Z.ones 8). rewrite Z.land_ones by lia. rewrite Z.add_comm, Z.mod_add by lia. apply Z.mod_small. lia.
Qed.

Lemma with_checksum_spec p : length p = 21%nat -> Forall is_byte p ->
  exists h0 h1, with_checksum sha256 p = p ++ [h0; h1] /\ is_byte h0 /\ is_byte h1 /\
    checksum16 sha256 p = Z.lor (Z.shiftl h0 8) h1.
Proof using Hsha.
  intros Hl Hp. unfold with_checksum, checksum16. destruct (Hsha p) as [Hb Hlen].
  destruct (sha256 p) as [|h0 [|h1 h]]; try (cbn in Hlen; lia). apply Forall_cons in Hb as [H0 [H1 _]%Forall_cons].
  cbn [nth]. destruct (two_bytes h0 h1 H0 H1) as [E0 E1]. exists h0, h1. by rewrite E0, E1.
Qed.
Lemma with_checksum_verifies p : length p = 21%nat -> Forall is_byte p ->
  verifyChecksum sha256 (with_checksum sha256 p) = true /\ take payloadSize (with_checksum sha256 p) = p /\
  Forall is_byte (with_checksum sha256 p) /\ length (with_checksum sha256 p) = 23%nat.
Proof using Hsha.
  intros Hl Hp. destruct (with_checksum_spec p Hl Hp) as (h0 & h1 & E & H0 & H1 & Ec).
  assert (length (with_checksum sha256 p) = 23%nat) as Hlen by (rewrite E, length_app, Hl; done).
  rewrite E in *. split_and!; [|by rewrite take_app_length'|apply Forall_app; split; [done|rewrite !Forall_cons; eauto using Forall_nil_2]|done].
  unfold verifyChecksum. rewrite Hlen. cbn [checksumSize Nat.add Nat.ltb Nat.leb Nat.sub].
  rewrite take_app_length' by done. rewrite Ec, !app_nth2 by (rewrite Hl; lia). rewrite Hl. apply Z.eqb_refl.
Qed.

Lemma payload_ok now content deployID :
  length (buildPayload sha256 now content deployID) = 21%nat /\ Forall is_byte (buildPayload sha256 now content deployID).
Proof using Hsha.
  destruct (Hsha (utf8 content)) as [Hb Hlen]. unfold buildPayload. split.
  - rewrite !length_app, !be_bytes_length, length_take, Hlen. done.
  - repeat (apply Forall_app; split); try apply be_bytes_ok; [| |by apply Forall_take];
      cbn; rewrite ?Forall_cons; split_and!; try apply Forall_nil_2; unfold is_byte, wmVersion; lia.
Qed.
Definition marked_payload (now : Z) (content : text) (deployID : Z) : Payload :=
  mkPayload wmVersion now (take 6 (sha256 (utf8 content))) deployID.
Lemma parse_built now content deployID : in_int64 now = true -> 0 <= deployID < 65536 ->
  parsePayload (buildPayload sha256 now content deployID) = Some (marked_payload now content deployID).
Proof using Hsha.
  intros Hn Hd. destruct (payload_ok now content deployID) as [Hl _]. unfold parsePayload. rewrite Hl.
  cbn [payloadSize Nat.ltb Nat.leb]. unfold buildPayload. destruct (Hsha (utf8 content)) as [_ Hlen].
  assert (length (take 6 (sha256 (utf8 content))) = 6%nat) as L6 by (rewrite length_take; lia).
  set (h := take 6 (sha256 (utf8 content))) in *. set (t := be_bytes 8 (now mod 2 ^ 64)). set (d := be_bytes 2 deployID).
  assert (length t = 8%nat) as Lt by apply be_bytes_length. assert (length d = 2%nat) as Ld by apply be_bytes_length.
  rewrite decide_True by done.
  change (nth 4 (magicBytes ++ [wmVersion] ++ t ++ h ++ d) 0) with wmVersion.
  change (drop 5 (magicBytes ++ [wmVersion] ++ t ++ h ++ d)) with (t ++ h ++ d).
  change (drop 13 (magicBytes ++ [wmVersion] ++ t ++ h ++ d)) with (drop 8 (t ++ h ++ d)).
  change (drop 19 (magicBytes ++ [wmVersion] ++ t ++ h ++ d)) with (drop (8 + 6) (t ++ h ++ d)).
  rewrite decide_False, decide_True by done. rewrite <- drop_drop.
  rewrite (drop_app_length' t), (take_app_length' t), (drop_app_length' h), (take_app_length' h), (take_ge d) by (done || lia).
  unfold t, d, marked_payload. rewrite !be_roundtrip.
  change (256 ^ Z.of_nat 8) with (2 ^ 64). change (256 ^ Z.of_nat 2) with 65536.
  rewrite Zmod_mod. rewrite (Z.mod_small deployID 65536) by exact Hd.
  do 2 f_equal. apply in_int64_spec in Hn. unfold wrap64, int64_min, int64_max in *.
  rewrite Zplus_mod_idemp_l, Z.mod_small; lia.
Qed.
End payload.

(** ** Source files *)

Lemma join_split s : join_lines (split_lines s) = s.
Proof.
  induction s as [|r s IH]; [done|]. cbn [split_lines]. case_decide as E.
  - subst r. destruct (split_lines s) as [|l ls] eqn:El; [by destruct s as [|? s]; cbn in El; repeat case_match|].
    change (join_lines ([] :: l :: ls)) with ([nl] ++ join_lines (l :: ls)). by rewrite IH.
  - destruct (split_lines s) as [|l ls]; [by rewrite <- IH|]. rewrite <- IH. by destruct ls.
Qed.
Lemma split_lines_ne s : split_lines s <> [].
Proof. destruct s as [|r s]; cbn; [done|]. case_decide; [done|]. by destruct (split_lines s). Qed.
Definition one_line (l : text) : Prop := nl ∉ l.
Lemma split_line l s : one_line l -> split_lines (l ++ [nl] ++ s) = l :: split_lines s.
Proof.
  unfold one_line. induction l as [|r l IH]; intros Hl; cbn [app split_lines]; [by rewrite decide_True|].
  rewrite decide_False by set_solver. cbn [app] in IH. by rewrite IH by set_solver.
Qed.
Lemma split_lines_one s : Forall one_line (split_lines s).
Proof.
  induction s as [|r s IH]; cbn [split_lines]; [repeat constructor; apply not_elem_of_nil|].
  case_decide; [constructor; [apply not_elem_of_nil|done]|].
  destruct (split_lines s) as [|l ls]; [constructor; [|constructor]|]; [unfold one_line; set_solver|].
  apply Forall_cons in IH as [H1 H2]. constructor; [unfold one_line in *; set_solver|done].
Qed.
Lemma split_join ls : ls <> [] -> Forall one_line ls -> split_lines (join_lines ls) = ls.
Proof.
  intros Hne H. induction H as [|l ls Hl Hls IH]; [done|]. destruct ls as [|l' ls].
  - cbn. clear -Hl. unfold one_line in Hl. induction l as [|r l IH]; [done|]. cbn [split_lines].
    rewrite decide_False by set_solver. by rewrite IH by set_solver.
  - change (join_lines (l :: l' :: ls)) with (l ++ [nl] ++ join_lines (l' :: ls)). by rewrite split_line, IH.
Qed.

Lemma clean_split s : clean s -> Forall clean (split_lines s).
Proof.
  induction 1 as [|r s Hr _ IH]; cbn [split_lines]; [repeat constructor|]. case_decide; [constructor; [constructor|done]|].
  destruct (split_lines s) as [|l ls]; [repeat constructor; done|]. apply Forall_cons in IH as [? ?].
  constructor; [by constructor|done].
Qed.
Lemma trim_right_sub s r : r ∈ trim_right s -> r ∈ s.
Proof.
  induction s as [|x s IH]; cbn [trim_right]; [done|]. destruct (trim_right s) as [|y t].
  - destruct (ascii_blank x); set_solver.
  - intros [->|?]%elem_of_cons; [left|right; auto].
Qed.
Lemma clean_not_mark l : clean l -> isSourceWatermarkLine l = false.
Proof.
  intros Hl. unfold isSourceWatermarkLine. destruct (has_prefix _ _); [cbn [andb]|done].
  destruct (trim_right (drop (length zwPrefix) l)) as [|r t] eqn:E; [done|]. cbn [forallb].
  assert (r ∈ l) as Hr.
  { assert (r ∈ drop (length zwPrefix) l) as H by (apply trim_right_sub; rewrite E; left).
    rewrite <- (take_drop (length zwPrefix) l). apply elem_of_app. by right. }
  unfold clean in Hl. rewrite Forall_forall in Hl. by rewrite (Hl r Hr), andb_false_r.
Qed.
Lemma strip_clean src : clean src -> stripAllSourceWatermarkLines src = src.
Proof.
  intros H. unfold stripAllSourceWatermarkLines. rewrite list_filter_all; [apply join_split|].
  eapply Forall_impl; [by apply clean_split|]. apply clean_not_mark.
Qed.

(** Where the mark is put: between two parts of the source, on a line of its
    own unless the comment line before it is the last line. *)
Lemma insert_mark_spec mark lines : forall inC t b, insert_mark mark inC lines = (t, b) ->
  if b then exists before after, t = join_lines before ++ match after with [] => [] | _ => [nl] end ++ mark ++ [nl] ++ join_lines after
    /\ lines = before ++ after /\ before <> [] /\ last before = Some (runes "//")
  else t = join_lines lines.
Proof.
  induction lines as [|line rest IH]; intros inC t b; cbn [insert_mark]; [by intros [= <- <-]|].
  destruct (is_copyright line).
  - destruct (insert_mark mark true rest) as [t' b'] eqn:E. intros [= <- <-]. specialize (IH _ _ _ E).
    destruct b'.
    + destruct IH as (before & after & -> & -> & Hne & Hlast). exists (line :: before), after.
      destruct before as [|l0 before]; [done|]. split_and!; [|done|done|done].
      change (join_lines (line :: l0 :: before)) with (line ++ [nl] ++ join_lines (l0 :: before)). cbn [app]. by rewrite <- !app_assoc.
    + subst t'. by destruct rest; [rewrite !app_nil_r|rewrite <- app_assoc].
  - destruct (inC && _) eqn:Ei.
    + intros [= <- <-]. apply andb_true_iff in Ei as [_ Ei%bool_decide_eq_true]. exists [line], rest.
      split_and!; [|done|done|by cbn; rewrite Ei]. cbn [join_lines]. by rewrite <- app_assoc.
    + destruct (insert_mark mark inC rest) as [t' b'] eqn:E. intros [= <- <-]. specialize (IH _ _ _ E). destruct b'.
      * destruct IH as (before & after & -> & -> & Hne & Hlast). exists (line :: before), after.
        destruct before as [|l0 before]; [done|]. split_and!; [|done|done|done].
        change (join_lines (line :: l0 :: before)) with (line ++ [nl] ++ join_lines (l0 :: before)). cbn [app]. by rewrite <- !app_assoc.
      * subst t'. by destruct rest; [rewrite !app_nil_r|rewrite <- app_assoc].
Qed.

Lemma clean_join ls : Forall clean ls -> clean (join_lines ls).
Proof.
  induction 1 as [|l ls Hl Hls IH]; [constructor|]. destruct ls as [|l' ls]; [done|].
  change (join_lines (l :: l' :: ls)) with (l ++ [nl] ++ join_lines (l' :: ls)).
  apply clean_app. split; [done|]. apply clean_app. split; [by repeat constructor|done].
Qed.

(** A marked source is the mark between two clean parts. *)
Lemma EncodeSource_shape sha256 now deployID src : src <> [] -> clean src ->
  let mark := zwPrefix ++ encodeZeroWidth (with_checksum sha256 (buildPayload sha256 now src deployID)) in
  exists pre post, EncodeSource sha256 now deployID src = pre ++ mark ++ [nl] ++ post /\ clean pre /\ clean post /\
    (last (split_lines src) <> Some (runes "//") -> split_lines src = removelast (split_lines pre) ++ split_lines post /\
       (pre = [] \/ exists q, pre = q ++ [nl])).
Proof.
  intros Hne Hc mark. unfold EncodeSource. rewrite decide_False, strip_clean by done. fold mark.
  destruct (insert_mark mark false (split_lines src)) as [t b] eqn:E. pose proof (insert_mark_spec _ _ _ _ _ E) as Hs.
  destruct b; [|exists [], src; split_and!; [done|constructor|done|]; intros _; split; [done|by left]].
  destruct Hs as (before & after & -> & Hl & Hb & Hlast).
  pose proof (clean_split src Hc) as Hcl. rewrite Hl in Hcl. apply Forall_app in Hcl as [Hcb Hca].
  exists (join_lines before ++ match after with [] => [] | _ => [nl] end), (join_lines after).
  split_and!; [by rewrite <- app_assoc| |by apply clean_join|].
  { apply clean_app. split; [by apply clean_join|]. destruct after; by repeat constructor. }
  intros Hlast'. rewrite Hl in Hlast'. destruct after as [|l after]; [by rewrite app_nil_r in Hlast'|].
  split; [|right; eauto]. pose proof (split_lines_one src) as Hone. rewrite Hl in Hone.
  apply Forall_app in Hone as [Ho1 Ho2]. rewrite Hl, (split_join (l :: after)) by done. f_equal.
  clear -Ho1 Hb. induction before as [|l0 before IH]; [done|]. apply Forall_cons in Ho1 as [H0 Ho1].
  destruct before as [|l1 before].
  - cbn [join_lines]. change (l0 ++ [nl]) with (l0 ++ [nl] ++ []). by rewrite split_line.
  - change (join_lines (l0 :: l1 :: before)) with (l0 ++ [nl] ++ join_lines (l1 :: before)).
    rewrite <- !app_assoc, split_line by done. rewrite IH at 1 by done.
    pose proof (split_lines_ne (join_lines (l1 :: before) ++ [nl])). by destruct (split_lines (join_lines (l1 :: before) ++ [nl])).
Qed.

Lemma has_prefix_spec p s : has_prefix p s = true <-> exists t, s = p ++ t.
Proof.
  revert s. induction p as [|x p IH]; intros s; [split; [eauto|done]|]. destruct s as [|y s]; [split; [done|by intros [? ?]]|].
  cbn. rewrite andb_true_iff, Z.eqb_eq, IH. split; [intros [-> [t ->]]; by exists t|intros [t [= -> ->]]; eauto].
Qed.
Lemma find_text_first p pre rest : p <> [] -> exists a b, find_text p (pre ++ p ++ rest) = Some (a, b) /\
  a ++ p ++ b = pre ++ p ++ rest /\ (length a <= length pre)%nat.
Proof.
  intros Hp. induction pre as [|r pre IH].
  - exists [], rest. split_and!; [|done|done]. cbn [app]. destruct (p ++ rest) eqn:E; [by destruct p|].
    cbn [find_text]. rewrite <- E. rewrite (proj2 (has_prefix_spec p (p ++ rest))) by eauto. by rewrite drop_app_length.
  - destruct (has_prefix p ((r :: pre) ++ p ++ rest)) eqn:Eh.
    + pose proof Eh as [t Et]%has_prefix_spec. exists [], t. split_and!; [|by rewrite Et|cbn; lia].
      cbn [app find_text]. cbn [app] in Eh, Et. rewrite Eh, Et. by rewrite drop_app_length.
    + destruct IH as (a & b & E & Es & Hl). exists (r :: a), b. split_and!; [|cbn; by f_equal|cbn; lia].
      cbn [app find_text]. cbn [app] in Eh. by rewrite Eh, E.
Qed.

Lemma split_after q s : split_lines ((q ++ [nl]) ++ s) = removelast (split_lines (q ++ [nl])) ++ split_lines s.
Proof.
  induction q as [|r q IH]; [done|]. cbn [app split_lines].
  pose proof (split_lines_ne (q ++ [nl])) as Hne. case_decide.
  - rewrite IH. by destruct (split_lines (q ++ [nl])).
  - rewrite IH. destruct (split_lines (q ++ [nl])) as [|l [|l' ls]] eqn:E; [done| |done]. exfalso.
    pose proof (join_split (q ++ [nl])) as Ej. pose proof (split_lines_one (q ++ [nl])) as Ho.
    rewrite E in Ej, Ho. cbn in Ej. subst l. apply Forall_cons in Ho as [Ho _]. unfold one_line in Ho. set_solver.
Qed.
Lemma trim_right_snoc s r : ascii_blank r = false -> trim_right (s ++ [r]) = s ++ [r].
Proof.
  intros Hr. induction s as [|x s IH]; cbn [app trim_right]; [by rewrite Hr|]. rewrite IH. by destruct s.
Qed.
Lemma zero_width_encoded w r : r ∈ encodeZeroWidth w -> is_zero_width r = true.
Proof.
  unfold encodeZeroWidth. rewrite !elem_of_app, !list_elem_of_singleton. intros [->|[Hr| ->]]; [done| |done].
  by apply bits_plain in Hr as [->| ->].
Qed.
Lemma mark_is_line w : isSourceWatermarkLine (zwPrefix ++ encodeZeroWidth w) = true /\ one_line (zwPrefix ++ encodeZeroWidth w).
Proof.
  split.
  - unfold isSourceWatermarkLine. rewrite (proj2 (has_prefix_spec _ _)) by eauto. rewrite drop_app_length. cbn [andb].
    assert (trim_right (encodeZeroWidth w) = encodeZeroWidth w) as ->.
    { unfold encodeZeroWidth. rewrite app_assoc. by apply trim_right_snoc. }
    rewrite bool_decide_eq_false_2 by done. cbn [negb andb]. apply forallb_forall. intros r Hr.
    by apply (zero_width_encoded w), list_elem_of_In.
  - unfold one_line. rewrite elem_of_app. intros [H|H%zero_width_encoded]; [|done].
    revert H. apply (bool_decide_eq_false_1 (nl ∈ zwPrefix)). by vm_compute.
Qed.

(** ** Theorems *)

(** C35: A watermark is read back from the text it was put into, whenever the text
    has no zero-width characters of its own and splits into three segments or
    more. *)
Theorem watermark_roundtrip sha256 now deployID content :
  hash_ok sha256 -> in_int64 now = true -> 0 <= deployID < 65536 -> clean content ->
  (3 <= length (splitContentIntoSegments content numShards))%nat ->
  DecodeText sha256 (EncodeTextWithSuffix sha256 now deployID content) = Some (marked_payload sha256 now content deployID).
Proof.
  intros Hsha Hn Hd Hc H3. assert (content <> []) as Hne by (intros ->; vm_compute in H3; lia).
  destruct (payload_ok sha256 Hsha now content deployID) as [Hl Hb].
  destruct (with_checksum_verifies sha256 Hsha _ Hl Hb) as (Hv & Ht & Hwb & Hwl).
  destruct (buildShards_ok _ Hwb Hwl) as [Hso Hsl].
  unfold EncodeTextWithSuffix. rewrite decide_False by done.
  destruct (decide (splitContentIntoSegments content numShards = [])) as [E|_]; [rewrite E in H3; cbn in H3; lia|].
  unfold DecodeText. rewrite extractAll_embedded by done.
  rewrite (proj2 (Nat.leb_le _ _)) by (rewrite length_take, Hsl; apply Nat.min_glb; [exact H3|by vm_compute; lia]).
  rewrite (recover_all sha256 _ Hwb Hwl Hv) by done. rewrite Hv, Ht. by apply parse_built.
Qed.

(** Any three of the four shards give a payload with a valid checksum, and it
    is the one that was cut, unless the checksum of another arrangement of the
    shards happens to be valid as well. *)
Theorem three_shards_suffice sha256 p i :
  Forall is_byte p -> length p = 23%nat -> verifyChecksum sha256 p = true -> (i < 4)%nat ->
  exists q, recoverPayload sha256 (delete i (buildShards p)) = Some q /\ verifyChecksum sha256 q = true /\
    ((forall c, c ∈ candidates (delete i (buildShards p)) -> verifyChecksum sha256 c = true -> c = p) -> q = p).
Proof.
  intros Hp Hl Hv Hi. pose proof (recover_three p Hp Hl i Hi) as Hin.
  assert (length (delete i (buildShards p)) = 3%nat) as H3.
  { destruct (buildShards_ok p Hp Hl) as [_ Hn]. rewrite length_delete; [by rewrite Hn|].
    apply lookup_lt_is_Some. rewrite Hn. done. }
  unfold recoverPayload, tryRecoverFromShards. rewrite H3. cbn [Nat.ltb Nat.leb minShardsForRecovery].
  assert (p ∈ filter (fun c => verifyChecksum sha256 c = true) (candidates (delete i (buildShards p)))) as Hf
    by (by apply list_elem_of_filter).
  destruct (filter _ _) as [|q qs] eqn:E; [by apply not_elem_of_nil in Hf|]. exists q. split; [done|].
  assert (q ∈ filter (fun c => verifyChecksum sha256 c = true) (candidates (delete i (buildShards p)))) as Hq
    by (rewrite E; left).
  apply list_elem_of_filter in Hq as [Hq1 Hq2]. split; [done|]. intros Ho. by apply Ho.
Qed.

(** A source file gives back the watermark that was put into it. *)
Theorem source_roundtrip sha256 now deployID src :
  hash_ok sha256 -> in_int64 now = true -> 0 <= deployID < 65536 -> src <> [] -> clean src ->
  DecodeSource sha256 (EncodeSource sha256 now deployID src) = Some (marked_payload sha256 now src deployID).
Proof.
  intros Hsha Hn Hd Hne Hc. destruct (EncodeSource_shape sha256 now deployID src Hne Hc) as (pre & post & -> & Hpre & _ & _).
  destruct (payload_ok sha256 Hsha now src deployID) as [Hl Hb].
  destruct (with_checksum_verifies sha256 Hsha _ Hl Hb) as (Hv & Ht & Hwb & Hwl).
  set (w := with_checksum sha256 (buildPayload sha256 now src deployID)) in *.
  unfold DecodeSource. rewrite <- !app_assoc.
  destruct (find_text_first zwPrefix pre (encodeZeroWidth w ++ [nl] ++ post) ltac:(done)) as (a & b & -> & E & Hla).
  cbn [mbind option_bind].
  assert (b = drop (length a + length zwPrefix) (pre ++ zwPrefix) ++ encodeZeroWidth w ++ [nl] ++ post) as ->.
  { rewrite (app_assoc pre) in E. apply (f_equal (drop (length a + length zwPrefix))) in E.
    rewrite (drop_app_le (pre ++ zwPrefix)) in E by (rewrite length_app; lia). rewrite <- E, <- drop_drop, drop_app_length. by rewrite drop_app_length. }
  rewrite next_block_encoded by (apply clean_drop, clean_app; split; [done|by repeat constructor]).
  cbn [mbind option_bind]. rewrite decodeBits_encoded, Hwl by done. cbn [payloadSize checksumSize Nat.add Nat.ltb Nat.leb].
  rewrite Hv. change 21%nat with payloadSize. rewrite Ht. by apply parse_built.
Qed.

(** Marking a source file again with the same clock changes nothing: the old
    mark is taken out first. *)
Theorem source_mark_idempotent sha256 now deployID src :
  hash_ok sha256 -> src <> [] -> clean src -> last (split_lines src) <> Some (runes "//") ->
  stripAllSourceWatermarkLines (EncodeSource sha256 now deployID src) = src /\
  EncodeSource sha256 now deployID (EncodeSource sha256 now deployID src) = EncodeSource sha256 now deployID src.
Proof.
  intros Hsha Hne Hc Hlast.
  assert (stripAllSourceWatermarkLines (EncodeSource sha256 now deployID src) = src) as Hs.
  { destruct (EncodeSource_shape sha256 now deployID src Hne Hc) as (pre & post & -> & Hpre & Hpost & Hsp).
    destruct (Hsp Hlast) as [El Hend].
    set (mark := zwPrefix ++ encodeZeroWidth _). unfold stripAllSourceWatermarkLines.
    assert (split_lines (pre ++ mark ++ [nl] ++ post) = removelast (split_lines pre) ++ mark :: split_lines post) as ->.
    { destruct Hend as [->|[q ->]]; [by apply split_line, mark_is_line|]. by rewrite split_after, split_line by apply mark_is_line. }
    assert (Forall clean (removelast (split_lines pre) ++ split_lines post)) as Hk by (rewrite <- El; by apply clean_split).
    apply Forall_app in Hk as [Hk1 Hk2].
    rewrite filter_app, filter_cons_False by (unfold mark; by rewrite (proj1 (mark_is_line _))).
    rewrite !list_filter_all by (eapply Forall_impl; [eassumption|apply clean_not_mark]). rewrite <- El. apply join_split. }
  split; [done|]. unfold EncodeSource at 1. rewrite decide_False, Hs.
  - unfold EncodeSource. rewrite decide_False, strip_clean by done. done.
  - destruct (EncodeSource_shape sha256 now deployID src Hne Hc) as (pre & post & -> & _). by destruct pre.
Qed.

(** *** Examples and limits *)

Definition toy_hash (d : bytes) : bytes := replicate 30 0 ++ [Z.of_nat (length d) mod 256; 7].
Lemma toy_hash_ok : hash_ok toy_hash.
Proof.
  intros d. unfold toy_hash. split; [|done]. apply Forall_app. split.
  - apply Forall_replicate. unfold is_byte. lia.
  - rewrite !Forall_cons. split_and!; [apply Z.mod_pos_bound; lia|unfold is_byte; lia|constructor].
Qed.
Lemma clean_by (s : text) : forallb (fun r => negb (is_zero_width r)) s = true -> clean s.
Proof.
  intros H. rewrite forallb_forall in H. apply Forall_forall. intros r Hr%list_elem_of_In. by apply negb_true_iff, H.
Qed.
Definition sample : text := runes "It rains. It pours! Who knows why? Nobody does.".
Lemma watermark_roundtrip_witness :
  DecodeText toy_hash (EncodeTextWithSuffix toy_hash 1700000000 258 sample)
  = Some (marked_payload toy_hash 1700000000 sample 258).
Proof.
  apply watermark_roundtrip; [exact toy_hash_ok|by vm_compute|lia|apply clean_by; by vm_compute|].
  apply Nat.leb_le. by vm_compute.
Defined.
Lemma three_shards_suffice_witness : exists q,
  recoverPayload toy_hash (delete 1%nat (buildShards (with_checksum toy_hash (buildPayload toy_hash 5 sample 0)))) = Some q /\
  verifyChecksum toy_hash q = true.
Proof.
  destruct (payload_ok toy_hash toy_hash_ok 5 sample 0) as [Hl Hb].
  destruct (with_checksum_verifies toy_hash toy_hash_ok _ Hl Hb) as (Hv & _ & Hwb & Hwl).
  destruct (three_shards_suffice toy_hash _ 1 Hwb Hwl Hv ltac:(lia)) as (q & H1 & H2 & _). exists q. split; [exact H1|exact H2].
Defined.
Definition go_file : text :=
  join_lines [runes "// Copyright (c) 2026 aflare Contributors"; runes "//"; runes "package main"; []].
Lemma source_roundtrip_witness :
  DecodeSource toy_hash (EncodeSource toy_hash 5 0 go_file) = Some (marked_payload toy_hash 5 go_file 0).
Proof. apply source_roundtrip; [exact toy_hash_ok|by vm_compute|lia|done|apply clean_by; by vm_compute]. Defined.
Lemma source_mark_idempotent_witness :
  EncodeSource toy_hash 5 0 (EncodeSource toy_hash 5 0 go_file) = EncodeSource toy_hash 5 0 go_file.
Proof. apply source_mark_idempotent; [exact toy_hash_ok|done|apply clean_by; by vm_compute|done]. Defined.

(** A text of two characters keeps one shard, which nothing can be read from;
    the fallback for very short content is never taken. *)
Theorem short_text_lost :
  EncodeTextWithSuffix toy_hash 5 0 (runes "ok") <> runes "ok" /\
  DecodeText toy_hash (EncodeTextWithSuffix toy_hash 5 0 (runes "ok")) = None.
Proof. split; by vm_compute. Qed.

(** Stripping starts at the first comment that begins like the mark: the code
    between such a comment and the mark is deleted with it. *)
Theorem strip_deletes_code :
  let body := join_lines [runes "// aflare is a tool"; runes "func f() {}"] in
  let marked := body ++ [nl] ++ zwPrefix ++ encodeZeroWidth [1] ++ [nl] in
  StripSourceWatermark marked = [] /\ stripAllSourceWatermarkLines marked = body ++ [nl].
Proof. split; by vm_compute. Qed.
