(* ===== verification/AtomicWrite.v ===== *)
(** * Atomic replacement of a file (src/internal/fsutil/fsutil.go)

    A disk with what the system has cached and what has reached the medium:
    a crash keeps the synced contents and, of a directory entry that was
    changed and not synced, the old or the new one.  Every call can fail. *)

From S2P Require Import Prelude GoStrings.

#[local] Open Scope string_scope.

(** ** Definitions *)

(** A file's bytes, and whether they have been synced since they changed. *)
Record inode := mkInode { in_data : string; in_synced : bool }.
(** [dk_dir] are the directory entries, [dk_old] the durable ones. *)
Record disk := mkDisk {
  dk_inodes : gmap nat inode;
  dk_dir : gmap string nat;
  dk_old : gmap string nat
}.

(** What a program reads. *)
Definition read_file (d : disk) (path : string) : option string :=
  i ← dk_dir d !! path; in_data <$> dk_inodes d !! i.
(** What may be read after a crash. *)
Inductive after_crash (d : disk) (path : string) : option string -> Prop :=
| ac_none dir : dir = dk_dir d \/ dir = dk_old d -> dir !! path = None -> after_crash d path None
| ac_synced dir i n : dir = dk_dir d \/ dir = dk_old d -> dir !! path = Some i -> dk_inodes d !! i = Some n ->
    in_synced n = true -> after_crash d path (Some (in_data n))
| ac_torn dir i n s : dir = dk_dir d \/ dir = dk_old d -> dir !! path = Some i -> dk_inodes d !! i = Some n ->
    in_synced n = false -> after_crash d path (Some s).

(** Which calls fail, and how much a failed write has written. *)
Record faults := mkFaults {
  fa_create : bool; fa_write : option string; fa_sync : bool; fa_close : bool; fa_chmod : bool;
  fa_rename : bool; fa_dirsync : bool
}.

Definition set_inode (i : nat) (n : inode) (d : disk) : disk := mkDisk (<[i := n]> (dk_inodes d)) (dk_dir d) (dk_old d).
Definition create_temp (tmp : string) (i : nat) (d : disk) : disk :=
  mkDisk (<[i := mkInode "" false]> (dk_inodes d)) (<[tmp := i]> (dk_dir d)) (dk_old d).
Definition remove (path : string) (d : disk) : disk := mkDisk (dk_inodes d) (delete path (dk_dir d)) (dk_old d).
Definition rename (from to : string) (d : disk) : disk :=
  match dk_dir d !! from with
  | Some i => mkDisk (dk_inodes d) (<[to := i]> (delete from (dk_dir d))) (dk_old d)
  | None => d
  end.
Definition sync_dir (d : disk) : disk := mkDisk (dk_inodes d) (dk_dir d) (dk_dir d).

(** The disk after each call, and the result.  [tmp] and [i] are the name and
    the inode that [os.CreateTemp] chose. *)
Definition WriteFileAtomic (f : faults) (tmp : string) (i : nat) (path data : string) (d : disk)
    : list disk * option error :=
  if fa_create f then ([d], Some "failed to create temp file") else
  let d1 := create_temp tmp i d in
  let abandon (d : disk) (e : error) (trace : list disk) := ((trace ++ [remove tmp d])%list, Some e) in
  match fa_write f with
  | Some part =>
      let d2 := set_inode i (mkInode part false) d1 in abandon d2 "failed to write temp file" [d1; d2]
  | None =>
      let d2 := set_inode i (mkInode data false) d1 in
      if fa_sync f then abandon d2 "failed to sync temp file" [d1; d2] else
      let d3 := set_inode i (mkInode data true) d2 in
      if fa_close f then abandon d3 "failed to close temp file" [d1; d2; d3] else
      if fa_chmod f then abandon d3 "failed to chmod temp file" [d1; d2; d3] else
      if fa_rename f then abandon d3 "failed to rename" [d1; d2; d3] else
      let d4 := rename tmp path d3 in
      (* the deferred removal finds no file of that name *)
      ([d1; d2; d3; d4] ++ (if fa_dirsync f then [] else [sync_dir d4]) ++ [remove tmp (if fa_dirsync f then d4 else sync_dir d4)], None)%list
  end.

(** ** Lemmas *)

(** The file [path] is settled with content [old]: its entry and its bytes
    have reached the medium. *)
Definition settled (d : disk) (path : string) (old : option string) : Prop :=
  dk_old d !! path = dk_dir d !! path /\
  match dk_dir d !! path with
  | None => old = None
  | Some j => exists n, dk_inodes d !! j = Some n /\ in_synced n = true /\ old = Some (in_data n)
  end.
(** The temporary file is new. *)
Record fresh_temp (d : disk) (path tmp : string) (i : nat) : Prop := {
  ft_name : dk_dir d !! tmp = None;
  ft_other : tmp <> path;
  ft_inode : dk_inodes d !! i = None
}.

Lemma settled_crash d path old c : settled d path old -> after_crash d path c -> c = old.
Proof.
  intros [Ho Hd] Hc. destruct Hc as [dir Hdir Hp|dir j n Hdir Hp Hn Hs|dir j n s Hdir Hp Hn Hs].
  all: assert (dk_dir d !! path = dir !! path) as E by (destruct Hdir as [-> | ->]; congruence); rewrite E, Hp in Hd.
  - done.
  - destruct Hd as (n' & ? & ? & ->). congruence.
  - destruct Hd as (n' & ? & ? & ->). congruence.
Qed.
Lemma settled_read d path old : settled d path old -> read_file d path = old.
Proof.
  intros [_ Hd]. unfold read_file. destruct (dk_dir d !! path) as [j|]; cbn; [|done]. destruct Hd as (n & -> & _ & ->). done.
Qed.

(** Work on the temporary file leaves the file as it is. *)
Lemma settled_inode d path old i n tmp : fresh_temp d path tmp i -> settled d path old ->
  settled (set_inode i n (create_temp tmp i d)) path old /\ settled (create_temp tmp i d) path old.
Proof.
  intros [H1 H2 H3] [Ho Hd]. unfold settled, set_inode, create_temp. cbn.
  rewrite lookup_insert_ne by done. split; split; try done.
  all: destruct (dk_dir d !! path) as [j|]; [|done]; destruct Hd as (m & Hm & ? & ->); exists m;
    assert (j <> i) by congruence; by rewrite ?lookup_insert_ne by done.
Qed.
Lemma settled_remove d path old tmp : tmp <> path -> settled d path old -> settled (remove tmp d) path old.
Proof. intros Hne [Ho Hd]. unfold settled, remove. cbn. by rewrite lookup_delete_ne. Qed.

(** The temporary file when its bytes are synced, and after the renaming. *)
Definition prepared (d : disk) (tmp : string) (i : nat) (data : string) : disk :=
  set_inode i (mkInode data true) (set_inode i (mkInode data false) (create_temp tmp i d)).
Lemma prepared_rename d path tmp i data : fresh_temp d path tmp i ->
  let d' := rename tmp path (prepared d tmp i data) in
  dk_dir d' !! path = Some i /\ dk_inodes d' !! i = Some (mkInode data true) /\ dk_old d' = dk_old d /\
  dk_dir d' !! tmp = None /\ (forall j, j <> i -> dk_inodes d' !! j = dk_inodes d !! j).
Proof.
  intros [H1 H2 H3] d'. unfold d', rename, prepared, set_inode, create_temp. cbn. rewrite lookup_insert_eq. cbn.
  rewrite !lookup_insert_eq. split_and!; [done..| |].
  - rewrite lookup_insert_ne by done. apply lookup_delete_eq.
  - intros j Hj. by rewrite !lookup_insert_ne.
Qed.
Lemma renamed_crash d path tmp i data old c : fresh_temp d path tmp i -> settled d path old ->
  after_crash (rename tmp path (prepared d tmp i data)) path c -> c = old \/ c = Some data.
Proof.
  intros Hf [Ho Hd] Hc. destruct (prepared_rename d path tmp i data Hf) as (E1 & E2 & E3 & _ & E5).
  set (d' := rename tmp path (prepared d tmp i data)) in *.
  destruct Hc as [dir [-> | ->] Hp|dir j n [-> | ->] Hp Hn Hs|dir j n s [-> | ->] Hp Hn Hs].
  1,3,5: rewrite E1 in Hp; simplify_eq/=; auto.
  all: rewrite E3, Ho in Hp; rewrite Hp in Hd.
  - by left.
  - destruct Hd as (n' & Hn' & Hs' & ->). assert (j <> i) as Hji by (intros ->; by rewrite (ft_inode _ _ _ _ Hf) in Hn').
    rewrite (E5 j Hji) in Hn. simplify_eq. by left.
  - destruct Hd as (n' & Hn' & Hs' & ->). assert (j <> i) as Hji by (intros ->; by rewrite (ft_inode _ _ _ _ Hf) in Hn').
    rewrite (E5 j Hji) in Hn. congruence.
Qed.

Lemma crash_remove d path tmp c : tmp <> path -> after_crash (remove tmp d) path c -> after_crash d path c.
Proof.
  intros Hne Hc.
  assert (forall dir, dir = dk_dir (remove tmp d) \/ dir = dk_old (remove tmp d) ->
    exists dir', (dir' = dk_dir d \/ dir' = dk_old d) /\ dir' !! path = dir !! path) as Hdir.
  { intros dir [-> | ->]; [exists (dk_dir d)|exists (dk_old d)]; cbn; [|by auto]. rewrite lookup_delete_ne by done. auto. }
  destruct Hc as [dir Hd Hp|dir j n Hd Hp Hn Hs|dir j n s Hd Hp Hn Hs]; destruct (Hdir dir Hd) as (dir' & Hd' & E); rewrite Hp in E.
  - by eapply ac_none.
  - by eapply ac_synced.
  - by eapply ac_torn.
Qed.

(** What the theorem asks of a run. *)
Definition atomic_run (path data tmp : string) (old : option string) (f : faults) (trace : list disk) (err : option error) : Prop :=
  (forall d' c, d' ∈ trace -> after_crash d' path c -> c = old \/ c = Some data) /\
  exists d', last trace = Some d' /\ read_file d' path = (match err with Some _ => old | None => Some data end) /\
    dk_dir d' !! tmp = None /\ (err = None -> fa_dirsync f = false -> settled d' path (Some data)).

(** A run that gives up. *)
Lemma atomic_stopped path data tmp old f l dn e : tmp <> path -> Forall (fun d' => settled d' path old) (dn :: l) ->
  atomic_run path data tmp old f (l ++ [remove tmp dn])%list (Some e).
Proof.
  intros Hne [Hdn Hl]%Forall_cons. rewrite Forall_forall in Hl.
  pose proof (settled_remove _ _ _ _ Hne Hdn) as Hr. split.
  - intros d' c [Hin|E%list_elem_of_singleton]%elem_of_app Hc; left; [|subst d'];
      (eapply settled_crash; [|exact Hc]); auto.
  - exists (remove tmp dn). rewrite last_snoc. split_and!; [done|by apply settled_read|apply lookup_delete_eq|done].
Qed.
(** A run that succeeds. *)
Lemma atomic_renamed d path data tmp i old f : fresh_temp d path tmp i -> settled d path old ->
  let d4 := rename tmp path (prepared d tmp i data) in
  forall l, Forall (fun d' => settled d' path old) l ->
  atomic_run path data tmp old f (l ++ [d4] ++ (if fa_dirsync f then [] else [sync_dir d4]) ++
    [remove tmp (if fa_dirsync f then d4 else sync_dir d4)])%list None.
Proof.
  intros Hf Hs d4 l Hl. rewrite Forall_forall in Hl.
  destruct (prepared_rename d path tmp i data Hf) as (E1 & E2 & E3 & E4 & _). fold d4 in E1, E2, E3, E4.
  assert (settled (sync_dir d4) path (Some data)) as Hd.
  { split; [done|]. cbn. rewrite E1. exists (mkInode data true). by rewrite E2. }
  assert (forall dn, dn = d4 \/ dn = sync_dir d4 -> read_file (remove tmp dn) path = Some data) as Hread.
  { intros dn Hdn. unfold read_file, remove. cbn. rewrite lookup_delete_ne by apply Hf.
    destruct Hdn as [-> | ->]; cbn; rewrite E1; cbn; by rewrite E2. }
  assert (forall c, after_crash d4 path c -> c = old \/ c = Some data) as Hc4 by (intros c; by apply renamed_crash with (i := i) (tmp := tmp) (d := d)).
  split.
  - intros d' c. rewrite !elem_of_app, list_elem_of_singleton. intros [Hin|[-> |[Hin|Hin]]] Hc.
    + left. eapply settled_crash; [|exact Hc]. auto.
    + auto.
    + destruct (fa_dirsync f); [by apply not_elem_of_nil in Hin|]. apply list_elem_of_singleton in Hin as ->.
      right. by eapply settled_crash.
    + apply list_elem_of_singleton in Hin as ->. destruct (fa_dirsync f).
      * apply Hc4. by eapply crash_remove; [apply Hf|].
      * right. eapply settled_crash; [|exact Hc]. by apply settled_remove; [apply Hf|].
  - eexists. rewrite !app_assoc, last_snoc. split_and!; [done|by apply Hread; destruct (fa_dirsync f); auto|by apply lookup_delete_eq|].
    intros _ ->. by apply settled_remove; [apply Hf|].
Qed.

Lemma WriteFileAtomic_run f tmp i path data d old trace err :
  fresh_temp d path tmp i -> settled d path old -> WriteFileAtomic f tmp i path data d = (trace, err) ->
  atomic_run path data tmp old f trace err.
Proof.
  intros Hf Hs Hw. unfold WriteFileAtomic in Hw. destruct (fa_create f).
  { injection Hw as <- <-. split; [intros d' c ->%list_elem_of_singleton Hc; left; by eapply settled_crash|].
    exists d. split_and!; [done|by apply settled_read|apply Hf|done]. }
  fold (prepared d tmp i data) in Hw. pose proof (ft_other _ _ _ _ Hf) as Hne.
  assert (forall n, settled (set_inode i n (create_temp tmp i d)) path old) as H2 by (intros n; by eapply settled_inode).
  assert (settled (create_temp tmp i d) path old) as H1 by (by apply (settled_inode d path old i (mkInode "" true) tmp)).
  assert (settled (prepared d tmp i data) path old) as H3
    by (unfold prepared, set_inode at 1, settled; cbn; rewrite insert_insert_eq; apply H2).
  destruct (fa_write f) as [part|], (fa_sync f), (fa_close f), (fa_chmod f), (fa_rename f); injection Hw as <- <-.
  all: try (apply (atomic_stopped path data tmp old f [_; _] _ _ Hne); rewrite !Forall_cons; auto using Forall_nil_2).
  all: try (apply (atomic_stopped path data tmp old f [_; _; _] _ _ Hne); rewrite !Forall_cons; auto using Forall_nil_2).
  apply (atomic_renamed d path data tmp i old f Hf Hs [_; _; _]). rewrite !Forall_cons; auto using Forall_nil_2.
Qed.

(** ** Theorem *)

(** Whichever call fails and wherever the system crashes, the file holds its
    old content or the new one in full.  Without an error the new content is
    there, and after a crash as well if the directory was synced; with an
    error the old one is, and no temporary file is left. *)
Theorem WriteFileAtomic_atomic f tmp i path data d old trace err :
  fresh_temp d path tmp i -> settled d path old -> WriteFileAtomic f tmp i path data d = (trace, err) ->
  (forall d' c, d' ∈ trace -> after_crash d' path c -> c = old \/ c = Some data) /\
  exists d', last trace = Some d' /\ read_file d' path = (match err with Some _ => old | None => Some data end) /\
    dk_dir d' !! tmp = None /\ (err = None -> fa_dirsync f = false -> settled d' path (Some data)).
Proof. apply WriteFileAtomic_run. Qed.

Definition old_disk : disk := mkDisk {[1%nat := mkInode "old" true]} {["store" := 1%nat]} {["store" := 1%nat]}.
Definition no_faults : faults := mkFaults false None false false false false false.
Lemma WriteFileAtomic_atomic_witness :
  let r := WriteFileAtomic no_faults "store.tmp-1" 2 "store" "new" old_disk in
  length r.1 = 6%nat /\ forall d' c, d' ∈ r.1 -> after_crash d' "store" c -> c = Some "old" \/ c = Some "new".
Proof.
  intros r. split; [by vm_compute|].
  refine (proj1 (WriteFileAtomic_atomic no_faults "store.tmp-1" 2 "store" "new" old_disk (Some "old") r.1 r.2 _ _ _)).
  - split; [by vm_compute|done|by vm_compute].
  - split; [by vm_compute|]. exists (mkInode "old" true). split_and!; by vm_compute.
  - by vm_compute.
Defined.
