(* ===== verification/Secrets.v ===== *)
(** * The encrypted secrets store (src/internal/secrets/secrets.go)

    Groups of secrets, kept in memory and saved as one file: a header that
    names cipher and key derivation, the salt, the nonce and the ciphertext
    of the groups' JSON.  Bytes are characters of a string.  Key derivation,
    ciphers, GCM, JSON and randomness are parameters; the file is replaced
    by [WriteFileAtomic].  Group pointers are not shared between groups, so a
    group is a value of the map. *)

From S2P Require Import Prelude GoStrings GoText GoTime AtomicWrite.
From Stdlib Require Import Ascii.

#[local] Open Scope string_scope.

(** ** Definitions *)

Definition CipherAESGCM : string := "aes-gcm".
Definition CipherSM4GCM : string := "sm4-gcm".
Definition KDFArgon2id : string := "argon2id".
Definition KDFPBKDF2 : string := "pbkdf2".

Definition secretsMagic : string := "AFLSEC".
Definition secretsVersion1 : ascii := byte_of 1.
Definition secretsVersion2 : ascii := byte_of 2.
Definition secretsHdrSizeV1 : nat := 8.
Definition secretsHdrSizeV2 : nat := 9.
Definition cipherIDAESGCM : ascii := byte_of 1.
Definition cipherIDSM4GCM : ascii := byte_of 2.
Definition kdfIDPBKDF2 : ascii := byte_of 1.
Definition kdfIDArgon2id : ascii := byte_of 2.
Definition pbkdf2SaltSize : nat := 16.

Definition SecretTypeNormal : string := "normal".
Definition SecretTypeSecret : string := "secret".

Record Secret := mkSecret {
  sc_Key : string;
  sc_Value : string;
  sc_Type : string;
  sc_Description : string;
  sc_CreatedAt : Z;
  sc_UpdatedAt : Z
}.
Record SecretGroup := mkGroup { sg_Name : string; sg_Secrets : gmap string Secret }.

(** A [cipher.AEAD]; [Open] fails when authentication does. *)
Record AEAD := mkAEAD {
  NonceSize : nat;
  Seal : string -> string -> string;
  Open : string -> string -> result string
}.

Record SecretManager := mkManager {
  sm_groups : gmap string SecretGroup;
  sm_aead : AEAD;
  sm_salt : string;
  sm_masterPassword : string;
  sm_cipherName : string;
  sm_kdfName : string
}.

(** The code outside the store; [cy_rand n] is [io.ReadFull] of n random
    bytes, [cy_Unmarshal] gives no groups for a document without them. *)
Record CryptoEnv (Block : Type) := mkCrypto {
  cy_argon2 : string -> string -> nat -> string;
  cy_pbkdf2 : string -> string -> nat -> string;
  cy_aes : string -> result Block;
  cy_sm4 : string -> result Block;
  cy_gcm : Block -> result AEAD;
  cy_Marshal : gmap string SecretGroup -> result string;
  cy_Unmarshal : string -> result (option (gmap string SecretGroup));
  cy_rand : nat -> result string;
  cy_lower : string -> string
}.
Arguments mkCrypto {Block}.
Arguments cy_argon2 {Block}.
Arguments cy_pbkdf2 {Block}.
Arguments cy_aes {Block}.
Arguments cy_sm4 {Block}.
Arguments cy_gcm {Block}.
Arguments cy_Marshal {Block}.
Arguments cy_Unmarshal {Block}.
Arguments cy_rand {Block}.
Arguments cy_lower {Block}.

(** AFLARE_SECRETS_CIPHER and AFLARE_SECRETS_KDF, empty when not set. *)
Record SecretsVars := mkSecretsVars { sv_cipher : string; sv_kdf : string }.

(** What [os.ReadFile] gives. *)
Inductive file_read := FileMissing | FileError (e : error) | FileData (data : string).
Definition file_read_of (c : option string) : file_read :=
  match c with None => FileMissing | Some s => FileData s end.

(** *** Ciphers, key derivation and the header *)

Definition cipherKeySize (cipherName : string) : result nat :=
  if decide (cipherName = CipherAESGCM) then Ok 32 else
  if decide (cipherName = CipherSM4GCM) then Ok 16 else Err ("unsupported secrets cipher: " +:+ cipherName).

Definition kdfNameByID (id : ascii) : result string :=
  if decide (id = kdfIDPBKDF2) then Ok KDFPBKDF2 else
  if decide (id = kdfIDArgon2id) then Ok KDFArgon2id else
  Err ("unknown kdf id " +:+ Itoa (Z.of_N (N_of_ascii id)) +:+ " in secrets file header").
Definition cipherIDByName (cipherName : string) : result ascii :=
  if decide (cipherName = CipherAESGCM) then Ok cipherIDAESGCM else
  if decide (cipherName = CipherSM4GCM) then Ok cipherIDSM4GCM else Err ("unsupported secrets cipher: " +:+ cipherName).
Definition cipherNameByID (id : ascii) : result string :=
  if decide (id = cipherIDAESGCM) then Ok CipherAESGCM else
  if decide (id = cipherIDSM4GCM) then Ok CipherSM4GCM else
  Err ("unknown cipher id " +:+ Itoa (Z.of_N (N_of_ascii id)) +:+ " in secrets file header").

Definition hasSecretsHeader (data : string) : bool :=
  (secretsHdrSizeV1 <=? String.length data)%nat && bool_decide (str_take (String.length secretsMagic) data = secretsMagic).

(** The byte at a position that is in range. *)
Definition byte_at (data : string) (i : nat) : ascii := default "000"%char (String.get i data).

(** The header as both readers take it: cipher, key derivation, header size. *)
Definition read_header (data : string) : result (string * string * nat) :=
  let version := byte_at data (String.length secretsMagic) in
  if decide (version = secretsVersion1) then
    name ← cipherNameByID (byte_at data (String.length secretsMagic + 1));
    Ok (name, KDFPBKDF2, secretsHdrSizeV1)
  else if decide (version = secretsVersion2) then
    if (String.length data <? secretsHdrSizeV2)%nat then Err "secrets file header truncated" else
    name ← cipherNameByID (byte_at data (String.length secretsMagic + 1));
    kdf ← kdfNameByID (byte_at data (String.length secretsMagic + 2));
    Ok (name, kdf, secretsHdrSizeV2)
  else Err ("unsupported secrets file version " +:+ Itoa (Z.of_N (N_of_ascii version))).

Definition InspectFile (f : file_read) : result (string * string * bool) :=
  match f with
  | FileMissing => Ok ("", "", false)
  | FileError e => Err ("failed to read file: " +:+ e)
  | FileData data =>
      if negb (hasSecretsHeader data) then Ok (CipherAESGCM, KDFPBKDF2, true) else
      '(name, kdf, _) ← read_header data;
      Ok (name, kdf, false)
  end.

Section crypto.
Context {Block : Type} (cy : CryptoEnv Block).

Definition resolveSecretsCipher (value : string) : result string :=
  let v := ToLower (cy_lower cy) (TrimSpace value) in
  if decide (v = "" \/ v = CipherAESGCM) then Ok CipherAESGCM else
  if decide (v = CipherSM4GCM) then Ok CipherSM4GCM else Err "invalid AFLARE_SECRETS_CIPHER value".
Definition resolveSecretsKDF (value : string) : result string :=
  let v := ToLower (cy_lower cy) (TrimSpace value) in
  if decide (v = "" \/ v = KDFArgon2id) then Ok KDFArgon2id else
  if decide (v = KDFPBKDF2) then Ok KDFPBKDF2 else Err "invalid AFLARE_SECRETS_KDF value".

Definition deriveKey (masterPassword salt : string) (keyLen : nat) (kdfName : string) : result string :=
  if decide (kdfName = KDFArgon2id) then Ok (cy_argon2 cy masterPassword salt keyLen) else
  if decide (kdfName = KDFPBKDF2) then Ok (cy_pbkdf2 cy masterPassword salt keyLen) else
  Err ("unsupported secrets kdf: " +:+ kdfName).

Definition newAEAD (cipherName key : string) : result AEAD :=
  block ← (if decide (cipherName = CipherAESGCM) then wrap_err "failed to create cipher: " (cy_aes cy key) else
           if decide (cipherName = CipherSM4GCM) then wrap_err "failed to create cipher: " (cy_sm4 cy key) else
           Err ("unsupported secrets cipher: " +:+ cipherName));
  wrap_err "failed to create GCM: " (cy_gcm cy block).

Definition derive_aead (masterPassword salt cipherName kdfName : string) : result AEAD :=
  keyLen ← cipherKeySize cipherName;
  key ← deriveKey masterPassword salt keyLen kdfName;
  newAEAD cipherName key.

Definition newSecretManagerWithSalt (masterPassword salt cipherName kdfName : string) : result SecretManager :=
  aead ← derive_aead masterPassword salt cipherName kdfName;
  Ok (mkManager ∅ aead salt masterPassword cipherName kdfName).

Definition NewSecretManager (vars : SecretsVars) (masterPassword : string) : result SecretManager :=
  cipherName ← resolveSecretsCipher (sv_cipher vars);
  kdfName ← resolveSecretsKDF (sv_kdf vars);
  salt ← wrap_err "failed to generate salt: " (cy_rand cy pbkdf2SaltSize);
  newSecretManagerWithSalt masterPassword salt cipherName kdfName.

(** *** Loading and saving *)

Definition decrypt (aead : AEAD) (ciphertext : string) : result string :=
  if (String.length ciphertext <? NonceSize aead)%nat then Err "ciphertext too short" else
  Open aead (str_take (NonceSize aead) ciphertext) (str_drop (NonceSize aead) ciphertext).

Definition set_groups (sm : SecretManager) (gs : gmap string SecretGroup) : SecretManager :=
  mkManager gs (sm_aead sm) (sm_salt sm) (sm_masterPassword sm) (sm_cipherName sm) (sm_kdfName sm).

Definition LoadFromFile (vars : SecretsVars) (f : file_read) (masterPassword : string) : result SecretManager :=
  match f with
  | FileMissing => NewSecretManager vars masterPassword
  | FileError e => Err ("failed to read file: " +:+ e)
  | FileData data =>
      '(cipherName, kdfName, hdr) ← (if hasSecretsHeader data then read_header data else Ok (CipherAESGCM, KDFPBKDF2, 0));
      let payload := str_drop hdr data in
      if (String.length payload <? pbkdf2SaltSize)%nat then Err "file too short: invalid format" else
      let salt := str_take pbkdf2SaltSize payload in
      let ciphertext := str_drop pbkdf2SaltSize payload in
      sm ← newSecretManagerWithSalt masterPassword salt cipherName kdfName;
      plaintext ← wrap_err "failed to decrypt data: " (decrypt (sm_aead sm) ciphertext);
      stored ← wrap_err "failed to unmarshal data: " (cy_Unmarshal cy plaintext);
      Ok (match stored with Some gs => set_groups sm gs | None => sm end)
  end.

(** The header for the chosen cipher and key derivation. *)
Definition write_header (cipherName kdfName : string) : result string :=
  if decide (kdfName = KDFArgon2id) then
    id ← cipherIDByName cipherName;
    Ok (secretsMagic +:+ String secretsVersion2 (String id (String kdfIDArgon2id "")))
  else if decide (cipherName <> CipherAESGCM) then
    id ← cipherIDByName cipherName;
    Ok (secretsMagic +:+ String secretsVersion1 (String id ""))
  else Ok "".

(** The bytes that [SaveToFile] writes. *)
Definition store_bytes (vars : SecretsVars) (sm : SecretManager) : result string :=
  cipherName ← resolveSecretsCipher (sv_cipher vars);
  kdfName ← resolveSecretsKDF (sv_kdf vars);
  aead ← (if decide (cipherName <> sm_cipherName sm \/ kdfName <> sm_kdfName sm)
          then derive_aead (sm_masterPassword sm) (sm_salt sm) cipherName kdfName
          else Ok (sm_aead sm));
  plaintext ← wrap_err "failed to marshal data: " (cy_Marshal cy (sm_groups sm));
  nonce ← wrap_err "failed to generate nonce: " (cy_rand cy (NonceSize aead));
  let ciphertext := nonce +:+ Seal aead nonce plaintext in
  header ← write_header cipherName kdfName;
  Ok (header +:+ sm_salt sm +:+ ciphertext).

(** [mkdir] is the outcome of [os.MkdirAll]; the disks are those the write
    passes through. *)
Definition SaveToFile (vars : SecretsVars) (mkdir : option error) (f : faults) (tmp : string) (i : nat)
    (path : string) (sm : SecretManager) (d : disk) : list disk * option error :=
  match store_bytes vars sm, mkdir with
  | Err e, _ => ([d], Some e)
  | Ok _, Some e => ([d], Some ("failed to create directory: " +:+ e))
  | Ok output, None => WriteFileAtomic f tmp i path output d
  end.
End crypto.

(** *** Groups and secrets *)

Inductive store_error :=
  | EmptyGroupName | GroupExists (group : string) | NoGroup (group : string)
  | EmptyKey | InvalidType (t : string) | SecretExists (key group : string) | NoSecret (key group : string).
Definition store_result (A : Type) : Type := A + store_error.

Section operations.
Context (sm : SecretManager).

Definition AddGroup (groupName : string) : store_result SecretManager :=
  if decide (groupName = "") then inr EmptyGroupName else
  match sm_groups sm !! groupName with
  | Some _ => inr (GroupExists groupName)
  | None => inl (set_groups sm (<[groupName := mkGroup groupName ∅]> (sm_groups sm)))
  end.

Definition RemoveGroup (groupName : string) : store_result SecretManager :=
  match sm_groups sm !! groupName with
  | None => inr (NoGroup groupName)
  | Some _ => inl (set_groups sm (delete groupName (sm_groups sm)))
  end.

(** The groups with the secrets of one of them replaced. *)
Definition put_secrets (group : string) (g : SecretGroup) (m : gmap string Secret) : SecretManager :=
  set_groups sm (<[group := mkGroup (sg_Name g) m]> (sm_groups sm)).

Definition AddSecret (now : Z) (group key value secretType description : string) : store_result SecretManager :=
  if decide (key = "") then inr EmptyKey else
  if decide (secretType <> SecretTypeNormal /\ secretType <> SecretTypeSecret) then inr (InvalidType secretType) else
  match sm_groups sm !! group with
  | None => inr (NoGroup group)
  | Some g =>
      match sg_Secrets g !! key with
      | Some _ => inr (SecretExists key group)
      | None => inl (put_secrets group g (<[key := mkSecret key value secretType description now now]> (sg_Secrets g)))
      end
  end.

(** The common lookup of the operations on one secret. *)
Definition find_secret (group key : string) : store_result (SecretGroup * Secret) :=
  match sm_groups sm !! group with
  | None => inr (NoGroup group)
  | Some g => match sg_Secrets g !! key with None => inr (NoSecret key group) | Some s => inl (g, s) end
  end.

Definition RemoveSecret (group key : string) : store_result SecretManager :=
  match find_secret group key with
  | inr e => inr e
  | inl (g, _) => inl (put_secrets group g (delete key (sg_Secrets g)))
  end.

Definition UpdateSecret (now : Z) (group key newValue : string) : store_result SecretManager :=
  match find_secret group key with
  | inr e => inr e
  | inl (g, s) =>
      inl (put_secrets group g
        (<[key := mkSecret (sc_Key s) newValue (sc_Type s) (sc_Description s) (sc_CreatedAt s) now]> (sg_Secrets g)))
  end.

Definition GetSecret (group key : string) : store_result string :=
  match find_secret group key with inr e => inr e | inl (_, s) => inl (sc_Value s) end.
End operations.

Fixpoint Repeat (s : string) (n : nat) : string :=
  match n with O => "" | S n => s +:+ Repeat s n end.
Definition maskValue (value : string) : string :=
  let n := String.length value in
  if (n <=? 4)%nat then Repeat "*" n else str_take 2 value +:+ Repeat "*" (n - 4) +:+ str_drop (n - 2) value.

Definition shown_value (s : Secret) : string :=
  if decide (sc_Type s = SecretTypeSecret) then maskValue (sc_Value s) else sc_Value s.
Definition GetSecretMasked (sm : SecretManager) (group key : string) : store_result string :=
  match find_secret sm group key with inr e => inr e | inl (_, s) => inl (shown_value s) end.

(** [ListSecrets] gives [SecretInfo]s, which have the fields of [Secret]. *)
Abbreviation SecretInfo := Secret.
Definition info_of (s : Secret) : SecretInfo :=
  mkSecret (sc_Key s) (shown_value s) (sc_Type s) (sc_Description s) (sc_CreatedAt s) (sc_UpdatedAt s).

(** The order of [sort.Slice] by key. *)
Definition key_le (a b : SecretInfo) : Prop := String.le (sc_Key a) (sc_Key b).
#[export] Instance key_le_dec : RelDecision key_le := fun a b => String.le_dec (sc_Key a) (sc_Key b).

Section listing.
(** The order in which [range] visits a map. *)
Context (range : forall V : Type, gmap string V -> list (string * V)).

Definition ListGroups (sm : SecretManager) : list string := merge_sort String.le ((range _ (sm_groups sm)).*1).

Definition ListSecrets (sm : SecretManager) (group : string) : store_result (list SecretInfo) :=
  match sm_groups sm !! group with
  | None => inr (NoGroup group)
  | Some g => inl (merge_sort key_le (info_of <$> (range _ (sg_Secrets g)).*2))
  end.

Definition GetAllVars (sm : SecretManager) : gmap string string :=
  fold_left (fun vars e =>
    fold_left (fun vars e' => <[e.1 +:+ "_" +:+ e'.1 := sc_Value e'.2]> vars) (range _ (sg_Secrets e.2)) vars)
    (range _ (sm_groups sm)) ∅.
End listing.

(** *** The master password *)

(** Keyring, environment and terminal: [pe_prompt] is [None] when the input
    is not a terminal. *)
Record PasswordEnv := mkPasswordEnv {
  pe_keyring : option string;
  pe_variable : string;
  pe_prompt : option (result string)
}.
(** The password and what the keyring is asked to keep. *)
Definition GetMasterPassword (pe : PasswordEnv) : result string * option string :=
  match pe_keyring pe with
  | Some password => (Ok password, None)
  | None =>
      if decide (pe_variable pe <> "") then (Ok (pe_variable pe), Some (pe_variable pe)) else
      match pe_prompt pe with
      | Some (Err e) => (Err ("failed to read password: " +:+ e), None)
      | Some (Ok password) =>
          if decide (password = "") then (Err "master password cannot be empty", None) else (Ok password, Some password)
      | None => (Err "secrets password not set - set AFLARE_SECRETS_PASSWORD environment variable or run in a terminal for interactive input", None)
      end
  end.
Definition GetSecretManager {Block} (cy : CryptoEnv Block) (vars : SecretsVars) (pe : PasswordEnv) (f : file_read) : result SecretManager :=
  password ← (GetMasterPassword pe).1;
  LoadFromFile cy vars f password.

(** ** Theorems on the secrets store (src/internal/secrets/secrets.go)

    Saving and loading for every choice of cipher and key derivation, through
    crashes; the operations against a flat map of (group, key) pairs; what
    the masked views and the variables of a workflow show. *)

(** ** What the store asks of its libraries *)

Definition aead_ok (a : AEAD) : Prop :=
  forall nonce plaintext, String.length nonce = NonceSize a -> Open a nonce (Seal a nonce plaintext) = Ok plaintext.

(** JSON keeps valid UTF-8 only, and dates of four-digit years. *)
Definition secret_plain (s : Secret) : Prop :=
  Forall (fun t => ValidString t = true) [sc_Key s; sc_Value s; sc_Type s; sc_Description s] /\
  on_clock (sc_CreatedAt s) /\ on_clock (sc_UpdatedAt s).
Definition groups_plain (gs : gmap string SecretGroup) : Prop :=
  map_Forall (fun name g => ValidString name = true /\ ValidString (sg_Name g) = true /\
    map_Forall (fun key s => ValidString key = true /\ secret_plain s) (sg_Secrets g)) gs.

Class CryptoLaws {Block} (cy : CryptoEnv Block) : Prop := {
  cl_argon2 p s n : String.length (cy_argon2 cy p s n) = n;
  cl_pbkdf2 p s n : String.length (cy_pbkdf2 cy p s n) = n;
  cl_aes key : String.length key = 32 -> exists b, cy_aes cy key = Ok b;
  cl_sm4 key : String.length key = 16 -> exists b, cy_sm4 cy key = Ok b;
  cl_gcm key b : cy_aes cy key = Ok b \/ cy_sm4 cy key = Ok b -> exists a, cy_gcm cy b = Ok a /\ aead_ok a;
  cl_rand n s : cy_rand cy n = Ok s -> String.length s = n;
  cl_json gs : groups_plain gs -> exists t, cy_Marshal cy gs = Ok t /\ cy_Unmarshal cy t = Ok (Some gs)
}.

(** ** Files *)

Definition known_cipher (c : string) : Prop := c = CipherAESGCM \/ c = CipherSM4GCM.
Definition known_kdf (k : string) : Prop := k = KDFArgon2id \/ k = KDFPBKDF2.
Definition legacy_format (c k : string) : Prop := c = CipherAESGCM /\ k = KDFPBKDF2.

(** A manager as the constructors leave it. *)
Record manager_wf {Block} (cy : CryptoEnv Block) (sm : SecretManager) : Prop := {
  mw_salt : String.length (sm_salt sm) = pbkdf2SaltSize;
  mw_aead : derive_aead cy (sm_masterPassword sm) (sm_salt sm) (sm_cipherName sm) (sm_kdfName sm) = Ok (sm_aead sm);
  mw_cipher : known_cipher (sm_cipherName sm);
  mw_kdf : known_kdf (sm_kdfName sm)
}.

Section files.
Context {Block : Type} (cy : CryptoEnv Block) `{HL : !CryptoLaws cy}.

Lemma resolve_cipher_known v c : resolveSecretsCipher cy v = Ok c -> known_cipher c.
Proof. unfold resolveSecretsCipher, known_cipher. intros H. repeat case_decide; simplify_eq; auto. Qed.
Lemma resolve_kdf_known v k : resolveSecretsKDF cy v = Ok k -> known_kdf k.
Proof. unfold resolveSecretsKDF, known_kdf. intros H. repeat case_decide; simplify_eq; auto. Qed.

Lemma derive_known pw salt c k : known_cipher c -> known_kdf k ->
  exists a, derive_aead cy pw salt c k = Ok a /\ aead_ok a.
Proof using HL.
  intros Hc Hk.
  assert (forall n, exists key, deriveKey cy pw salt n k = Ok key /\ String.length key = n) as Hkey.
  { intros n. destruct Hk as [-> | ->]; eexists; (split; [reflexivity|]); [apply cl_argon2|apply cl_pbkdf2]. }
  unfold derive_aead. destruct Hc as [-> | ->].
  - change (cipherKeySize CipherAESGCM) with (Ok 32%nat). cbn [mbind result_bind].
    destruct (Hkey 32) as (key & -> & Hlen). unfold newAEAD. cbn [mbind result_bind].
    destruct (cl_aes key Hlen) as [b Hb]. destruct (cl_gcm key b (or_introl Hb)) as (a & Ha & Hok).
    rewrite decide_True, Hb by done. cbn [wrap_err mbind result_bind]. rewrite Ha. by exists a.
  - change (cipherKeySize CipherSM4GCM) with (Ok 16%nat). cbn [mbind result_bind].
    destruct (Hkey 16) as (key & -> & Hlen). unfold newAEAD. cbn [mbind result_bind].
    destruct (cl_sm4 key Hlen) as [b Hb]. destruct (cl_gcm key b (or_intror Hb)) as (a & Ha & Hok).
    rewrite decide_False, decide_True, Hb by done. cbn [wrap_err mbind result_bind]. rewrite Ha. by exists a.
Qed.

(** A header is read back as it was written. *)
Lemma header_roundtrip c k hdr rest : known_cipher c -> known_kdf k -> ~ legacy_format c k ->
  write_header c k = Ok hdr ->
  hasSecretsHeader (hdr +:+ rest) = true /\ read_header (hdr +:+ rest) = Ok (c, k, String.length hdr).
Proof.
  intros [-> | ->] [-> | ->] Hn; cbn; intros [= <-]; (try by destruct Hn); by destruct rest.
Qed.

Definition loads_as (bytes : string) (sm : SecretManager) (c k : string) : Prop := forall vars',
  exists sm', LoadFromFile cy vars' (FileData bytes) (sm_masterPassword sm) = Ok sm' /\
    sm_groups sm' = sm_groups sm /\ sm_salt sm' = sm_salt sm /\ sm_cipherName sm' = c /\ sm_kdfName sm' = k /\
    manager_wf cy sm'.

(** The bytes that are written, when randomness does not fail. *)
Lemma store_bytes_shape vars sm c k : manager_wf cy sm -> groups_plain (sm_groups sm) ->
  resolveSecretsCipher cy (sv_cipher vars) = Ok c -> resolveSecretsKDF cy (sv_kdf vars) = Ok k ->
  (forall n, is_ok (cy_rand cy n) = true) ->
  exists hdr a nonce text, write_header c k = Ok hdr /\ derive_aead cy (sm_masterPassword sm) (sm_salt sm) c k = Ok a /\
    aead_ok a /\ String.length nonce = NonceSize a /\ cy_Unmarshal cy text = Ok (Some (sm_groups sm)) /\
    store_bytes cy vars sm = Ok (hdr +:+ sm_salt sm +:+ nonce +:+ Seal a nonce text).
Proof using HL.
  intros Hw Hp Hc Hk Hr. pose proof (resolve_cipher_known _ _ Hc) as Kc. pose proof (resolve_kdf_known _ _ Hk) as Kk.
  destruct (derive_known (sm_masterPassword sm) (sm_salt sm) c k Kc Kk) as (a & Ha & Hok).
  destruct (cl_json _ Hp) as (text & Ht & Hu). specialize (Hr (NonceSize a)).
  destruct (cy_rand cy (NonceSize a)) as [nonce|] eqn:Hn; [|done].
  assert (exists hdr, write_header c k = Ok hdr) as [hdr Hh] by (destruct Kc as [-> | ->], Kk as [-> | ->]; by eexists).
  exists hdr, a, nonce, text. split_and!; [done..|by apply cl_rand|done|].
  unfold store_bytes. rewrite Hc, Hk. cbn.
  assert ((if decide (c <> sm_cipherName sm \/ k <> sm_kdfName sm)
    then derive_aead cy (sm_masterPassword sm) (sm_salt sm) c k else Ok (sm_aead sm)) = Ok a) as ->.
  { case_decide as Hd; [done|]. rewrite <- (mw_aead _ _ Hw), <- Ha.
    destruct (decide (c = sm_cipherName sm)) as [<-|]; [|tauto].
    destruct (decide (k = sm_kdfName sm)) as [<-|]; [done|tauto]. }
  cbn. rewrite Ht. cbn. rewrite Hn. cbn. rewrite Hh. done.
Qed.

Lemma take_app_len n s t : String.length s = n -> str_take n (s +:+ t) = s.
Proof. intros <-. apply str_take_app. Qed.
Lemma drop_app_len n s t : String.length s = n -> str_drop n (s +:+ t) = t.
Proof. intros <-. apply str_drop_app. Qed.

(** A file's header, or its absence, is recognised. *)
Lemma header_seen c k hdr salt rest : known_cipher c -> known_kdf k -> write_header c k = Ok hdr ->
  String.length salt = pbkdf2SaltSize -> (legacy_format c k -> HasPrefix salt secretsMagic = false) ->
  let data := hdr +:+ salt +:+ rest in
  (if hasSecretsHeader data then read_header data else Ok (CipherAESGCM, KDFPBKDF2, 0)) = Ok (c, k, String.length hdr) /\
  (hasSecretsHeader data = false <-> legacy_format c k).
Proof.
  intros Kc Kk Hh Hs Hm data. destruct (decide (c = CipherAESGCM /\ k = KDFPBKDF2)) as [[-> ->]|Hn].
  - cbn in Hh. injection Hh as <-. unfold data. cbn [String.append].
    assert (hasSecretsHeader (salt +:+ rest) = false) as ->; [|done].
    specialize (Hm (conj eq_refl eq_refl)). unfold hasSecretsHeader. apply andb_false_iff. right.
    apply bool_decide_eq_false. intros E. apply not_true_iff_false in Hm. apply Hm. apply prefix_app.
    assert (str_take (String.length secretsMagic) salt = secretsMagic) as E'.
    { revert E. unfold pbkdf2SaltSize in Hs. cbn [String.length secretsMagic].
      do 6 (destruct salt as [|? salt]; [done|]). done. }
    exists (str_drop (String.length secretsMagic) salt).
    pose proof (str_take_drop (String.length secretsMagic) salt) as Hsalt. by rewrite E' in Hsalt.
  - destruct (header_roundtrip c k hdr (salt +:+ rest) Kc Kk Hn Hh) as [E1 E2]. unfold data. by rewrite E1, E2.
Qed.

Lemma load_store vars sm c k : manager_wf cy sm -> groups_plain (sm_groups sm) ->
  resolveSecretsCipher cy (sv_cipher vars) = Ok c -> resolveSecretsKDF cy (sv_kdf vars) = Ok k ->
  (forall n, is_ok (cy_rand cy n) = true) -> (legacy_format c k -> HasPrefix (sm_salt sm) secretsMagic = false) ->
  exists bytes, store_bytes cy vars sm = Ok bytes /\ loads_as bytes sm c k /\
    InspectFile (FileData bytes) = Ok (c, k, bool_decide (c = CipherAESGCM /\ k = KDFPBKDF2)).
Proof using HL.
  intros Hw Hp Hc Hk Hr Hm. pose proof (resolve_cipher_known _ _ Hc) as Kc. pose proof (resolve_kdf_known _ _ Hk) as Kk.
  destruct (store_bytes_shape vars sm c k Hw Hp Hc Hk Hr) as (hdr & a & nonce & text & Hh & Ha & Hok & Hn & Hu & ->).
  eexists. split; [done|]. destruct (header_seen c k hdr (sm_salt sm) (nonce +:+ Seal a nonce text) Kc Kk Hh) as [E1 E2];
    [apply Hw|done|]. set (data := hdr +:+ sm_salt sm +:+ nonce +:+ Seal a nonce text) in *. split.
  - intros vars'. exists (set_groups (mkManager ∅ a (sm_salt sm) (sm_masterPassword sm) c k) (sm_groups sm)).
    unfold LoadFromFile. rewrite E1. cbn [mbind result_bind]. unfold data. rewrite (drop_app_len _ hdr) by done.
    pose proof (mw_salt _ _ Hw) as Hs. rewrite string_length_app, Hs.
    rewrite (proj2 (Nat.ltb_ge _ _)) by lia. rewrite take_app_len, drop_app_len by done.
    unfold newSecretManagerWithSalt. rewrite Ha. cbn [mbind result_bind sm_aead]. unfold decrypt.
    rewrite string_length_app, (proj2 (Nat.ltb_ge _ _)) by lia.
    rewrite take_app_len, drop_app_len, Hok by done. cbn. rewrite Hu. cbn. split_and!; [done..|]. by split.
  - unfold InspectFile. destruct (hasSecretsHeader data) eqn:Eh; cbn.
    + rewrite E1. cbn. rewrite bool_decide_false; [done|]. intros Hl. by apply E2 in Hl.
    + rewrite bool_decide_true by (by apply E2). destruct (proj1 E2 eq_refl) as [-> ->]. done.
Qed.
End files.

(** a store that is saved, with whatever cipher and key derivation the
    environment selects, is loaded again by its password under any later
    selection, with the same groups, and the file names the cipher and key
    derivation it was written with.  The headerless format needs a salt that
    does not start with the magic. *)
Theorem secrets_roundtrip {Block} (cy : CryptoEnv Block) vars sm c k : CryptoLaws cy ->
  manager_wf cy sm -> groups_plain (sm_groups sm) ->
  resolveSecretsCipher cy (sv_cipher vars) = Ok c -> resolveSecretsKDF cy (sv_kdf vars) = Ok k ->
  (forall n, is_ok (cy_rand cy n) = true) -> (legacy_format c k -> HasPrefix (sm_salt sm) secretsMagic = false) ->
  exists bytes, store_bytes cy vars sm = Ok bytes /\ loads_as cy bytes sm c k /\
    InspectFile (FileData bytes) = Ok (c, k, bool_decide (c = CipherAESGCM /\ k = KDFPBKDF2)).
Proof. intros HL. by apply (load_store cy vars sm c k). Qed.

(** *** A concrete instance of the libraries *)

#[export] Instance Secret_eq_dec : EqDecision Secret.
Proof. solve_decision. Defined.
#[export] Instance Secret_countable : Countable Secret.
Proof.
  refine (inj_countable' (fun s => (sc_Key s, sc_Value s, sc_Type s, sc_Description s, sc_CreatedAt s, sc_UpdatedAt s))
    (fun '(a, b, c, d, e, f) => mkSecret a b c d e f) _).
  by intros [].
Defined.
#[export] Instance SecretGroup_eq_dec : EqDecision SecretGroup.
Proof. solve_decision. Defined.
#[export] Instance SecretGroup_countable : Countable SecretGroup.
Proof. refine (inj_countable' (fun g => (sg_Name g, sg_Secrets g)) (fun '(a, b) => mkGroup a b) _). by intros []. Defined.

Definition toy_marshal (gs : gmap string SecretGroup) : result string := Ok (pretty (N.pos (encode gs))).
Definition toy_unmarshal (t : string) : result (option (gmap string SecretGroup)) :=
  match parse_digits 0 t with Some (N.pos p) => Ok (decode p) | _ => Err "invalid JSON" end.
(** A stream cipher whose tag is the key. *)
Definition toy_aead (key : string) : AEAD :=
  mkAEAD 12 (fun nonce text => key +:+ text)
    (fun nonce c => if HasPrefix c key then Ok (TrimPrefix c key) else Err "message authentication failed").
Definition toy_gcm (key : string) : result AEAD := Ok (toy_aead key).
Definition toy_block (n : nat) (key : string) : result string :=
  if decide (String.length key = n) then Ok key else Err "invalid key size".
Definition toy_rand (n : nat) : result string := Ok (Repeat "r" n).
Definition toy_kdf (c : string) (pw salt : string) (n : nat) : string := Repeat c n.
Definition toy_crypto : CryptoEnv string :=
  mkCrypto (toy_kdf "a") (toy_kdf "p") (toy_block 32) (toy_block 16) toy_gcm toy_marshal toy_unmarshal toy_rand (fun s => s).

Lemma length_Repeat c n : String.length (Repeat (String c "") n) = n.
Proof. induction n as [|n IH]; [done|]. cbn. by rewrite IH. Qed.

Lemma toy_aead_ok key : aead_ok (toy_aead key).
Proof. intros nonce text _. cbn [toy_aead Open Seal]. by rewrite HasPrefix_app, TrimPrefix_app. Qed.

#[export] Instance toy_laws : CryptoLaws toy_crypto.
Proof.
  split; cbn; intros.
  - apply length_Repeat.
  - apply length_Repeat.
  - exists key. unfold toy_block. by rewrite decide_True.
  - exists key. unfold toy_block. by rewrite decide_True.
  - exists (toy_aead b). split; [done|apply toy_aead_ok].
  - unfold toy_rand in *. simplify_eq. apply length_Repeat.
  - eexists. split; [reflexivity|]. unfold toy_unmarshal. by rewrite parse_digits_pretty, decode_encode.
Qed.

Definition demo_secret : Secret := mkSecret "API_KEY" "sk-12345678" SecretTypeSecret "" 1000 1000.
Definition demo_groups : gmap string SecretGroup := {["prod" := mkGroup "prod" {["API_KEY" := demo_secret]}]}.
Definition demo_manager (c k : string) : SecretManager :=
  match newSecretManagerWithSalt toy_crypto "hunter2" (Repeat "s" 16) c k with
  | Ok sm => set_groups sm demo_groups
  | Err _ => mkManager ∅ (mkAEAD 0 (fun _ s => s) (fun _ _ => Err "")) "" "" "" ""
  end.
Lemma demo_plain : groups_plain demo_groups.
Proof.
  intros name g Hg. unfold demo_groups in Hg. apply lookup_singleton_Some in Hg as [<- <-]. split_and!; [done..|].
  intros key s Hs. cbn in Hs. apply lookup_singleton_Some in Hs as [<- <-].
  split; [done|]. split; [by repeat constructor|]. unfold on_clock, int64_max. cbn. lia.
Qed.
Lemma demo_wf : manager_wf toy_crypto (demo_manager CipherAESGCM KDFPBKDF2).
Proof. split; [done|done|by left|by right]. Qed.

(** A legacy store that is moved to SM4 and Argon2id. *)
Lemma secrets_roundtrip_witness : exists bytes,
  store_bytes toy_crypto (mkSecretsVars " SM4-GCM" "") (demo_manager CipherAESGCM KDFPBKDF2) = Ok bytes /\
  loads_as toy_crypto bytes (demo_manager CipherAESGCM KDFPBKDF2) CipherSM4GCM KDFArgon2id /\
  InspectFile (FileData bytes) = Ok (CipherSM4GCM, KDFArgon2id, false).
Proof.
  refine (secrets_roundtrip toy_crypto (mkSecretsVars " SM4-GCM" "") (demo_manager CipherAESGCM KDFPBKDF2)
    CipherSM4GCM KDFArgon2id toy_laws demo_wf demo_plain eq_refl eq_refl _ _).
  - done.
  - by intros [? ?].
Defined.

(** ** Crashes *)

(** C25: whichever call fails and wherever the system crashes while the store
    is saved, the file is the old one or loads as the saved store; without an
    error it loads as the saved store, with one it is unchanged. *)
Theorem secrets_crash_safe {Block} (cy : CryptoEnv Block) vars mkdir f tmp i path sm d c k old trace err :
  CryptoLaws cy -> manager_wf cy sm -> groups_plain (sm_groups sm) ->
  resolveSecretsCipher cy (sv_cipher vars) = Ok c -> resolveSecretsKDF cy (sv_kdf vars) = Ok k ->
  (forall n, is_ok (cy_rand cy n) = true) -> (legacy_format c k -> HasPrefix (sm_salt sm) secretsMagic = false) ->
  fresh_temp d path tmp i -> settled d path old ->
  SaveToFile cy vars mkdir f tmp i path sm d = (trace, err) ->
  (forall d' content, d' ∈ trace -> after_crash d' path content ->
     content = old \/ exists bytes, content = Some bytes /\ loads_as cy bytes sm c k) /\
  exists d', last trace = Some d' /\
    match err with
    | Some _ => read_file d' path = old
    | None => exists bytes, read_file d' path = Some bytes /\ loads_as cy bytes sm c k
    end.
Proof.
  intros HL Hw Hp Hc Hk Hr Hm Hf Hs. destruct (load_store cy vars sm c k Hw Hp Hc Hk Hr Hm) as (bytes & Hb & Hload & _).
  unfold SaveToFile. rewrite Hb. destruct mkdir as [e|]; intros Hrun.
  - injection Hrun as <- <-. split.
    + intros d' content ->%list_elem_of_singleton Hcr. left. by eapply settled_crash.
    + exists d. split; [done|]. by apply settled_read.
  - destruct (WriteFileAtomic_run _ _ _ _ _ _ _ _ _ Hf Hs Hrun) as [H1 (d' & H2 & H3 & _)]. split.
    + intros d'' content Hin Hcr. destruct (H1 d'' content Hin Hcr) as [-> | ->]; [by left|right]. by exists bytes.
    + exists d'. split; [done|]. destruct err; [done|]. by exists bytes.
Qed.

Definition demo_path : string := "/home/u/.config/aflare/secrets.dat".
Definition demo_disk : disk := mkDisk {[1%nat := mkInode "old" true]} {[demo_path := 1%nat]} {[demo_path := 1%nat]}.
Definition demo_tmp : string := "/home/u/.config/aflare/.tmp-7".
Lemma secrets_crash_safe_witness :
  length (SaveToFile toy_crypto (mkSecretsVars "" "") None no_faults demo_tmp 2 demo_path
    (demo_manager CipherAESGCM KDFPBKDF2) demo_disk).1 = 6%nat /\
  forall d' content,
    d' ∈ (SaveToFile toy_crypto (mkSecretsVars "" "") None no_faults demo_tmp 2 demo_path
           (demo_manager CipherAESGCM KDFPBKDF2) demo_disk).1 -> after_crash d' demo_path content ->
    content = Some "old" \/ exists bytes, content = Some bytes /\
      loads_as toy_crypto bytes (demo_manager CipherAESGCM KDFPBKDF2) CipherAESGCM KDFArgon2id.
Proof.
  split; [reflexivity|].
  refine (proj1 (secrets_crash_safe toy_crypto (mkSecretsVars "" "") None no_faults demo_tmp 2 demo_path
    (demo_manager CipherAESGCM KDFPBKDF2) demo_disk CipherAESGCM KDFArgon2id (Some "old") _ _ toy_laws demo_wf demo_plain
    eq_refl eq_refl _ _ _ _ (surjective_pairing _))).
  - done.
  - by intros [_ ?].
  - split; [by vm_compute|done|by vm_compute].
  - split; [by vm_compute|]. exists (mkInode "old" true). split_and!; by vm_compute.
Defined.
