(* ===== verification/SecretsStoreProofs.v ===== *)
(** * Theorems on the operations of the secrets store
    (src/internal/secrets/secrets.go)

    The nested maps against a flat map of (group, key) pairs; the listings;
    what masked views reveal; the variables given to workflows. *)

From S2P Require Import Prelude GoStrings GoText GoTime Secrets.
From Stdlib Require Import Ascii.

#[local] Open Scope string_scope.

(** ** Specification *)

Record vault := mkVault { v_groups : gset string; v_items : gmap (string * string) Secret }.

Inductive store_op :=
  | OpAddGroup (g : string) | OpRemoveGroup (g : string)
  | OpAddSecret (now : Z) (g k v t d : string)
  | OpRemoveSecret (g k : string)
  | OpUpdateSecret (now : Z) (g k v : string).

Definition vault_find (vt : vault) (g k : string) : store_result Secret :=
  if decide (g ∈ v_groups vt) then
    match v_items vt !! (g, k) with Some s => inl s | None => inr (NoSecret k g) end
  else inr (NoGroup g).

Definition vault_op (vt : vault) (op : store_op) : store_result vault :=
  match op with
  | OpAddGroup g =>
      if decide (g = "") then inr EmptyGroupName else
      if decide (g ∈ v_groups vt) then inr (GroupExists g) else inl (mkVault ({[g]} ∪ v_groups vt) (v_items vt))
  | OpRemoveGroup g =>
      if decide (g ∈ v_groups vt)
      then inl (mkVault (v_groups vt ∖ {[g]}) (filter (fun e : string * string * Secret => e.1.1 <> g) (v_items vt)))
      else inr (NoGroup g)
  | OpAddSecret now g k v t d =>
      if decide (k = "") then inr EmptyKey else
      if decide (t = SecretTypeNormal \/ t = SecretTypeSecret) then
        match vault_find vt g k with
        | inl _ => inr (SecretExists k g)
        | inr (NoSecret _ _) => inl (mkVault (v_groups vt) (<[(g, k) := mkSecret k v t d now now]> (v_items vt)))
        | inr e => inr e
        end
      else inr (InvalidType t)
  | OpRemoveSecret g k =>
      match vault_find vt g k with
      | inl _ => inl (mkVault (v_groups vt) (delete (g, k) (v_items vt)))
      | inr e => inr e
      end
  | OpUpdateSecret now g k v =>
      match vault_find vt g k with
      | inl s => inl (mkVault (v_groups vt) (<[(g, k) := mkSecret (sc_Key s) v (sc_Type s) (sc_Description s) (sc_CreatedAt s) now]> (v_items vt)))
      | inr e => inr e
      end
  end.

Definition store_exec (sm : SecretManager) (op : store_op) : store_result SecretManager :=
  match op with
  | OpAddGroup g => AddGroup sm g
  | OpRemoveGroup g => RemoveGroup sm g
  | OpAddSecret now g k v t d => AddSecret sm now g k v t d
  | OpRemoveSecret g k => RemoveSecret sm g k
  | OpUpdateSecret now g k v => UpdateSecret sm now g k v
  end.

(** A sequence of operations; one that fails changes nothing. *)
Definition seq_exec {S : Type} (step : S -> store_op -> store_result S) : S -> list store_op -> S * list (option store_error) :=
  fix go s ops :=
    match ops with
    | [] => (s, [])
    | op :: ops =>
        match step s op with
        | inl s' => let r := go s' ops in (r.1, None :: r.2)
        | inr e => let r := go s ops in (r.1, Some e :: r.2)
        end
    end.

(** ** Abstraction *)

Definition vault_of (sm : SecretManager) : vault :=
  mkVault (dom (sm_groups sm)) (map_uncurry (sg_Secrets <$> sm_groups sm)).

Lemma vault_item sm g k : v_items (vault_of sm) !! (g, k) = (x ← sm_groups sm !! g; sg_Secrets x !! k).
Proof. cbn. rewrite lookup_map_uncurry, lookup_fmap. by destruct (sm_groups sm !! g). Qed.

Lemma find_refines sm g k : vault_find (vault_of sm) g k =
  match find_secret sm g k with inl (_, s) => inl s | inr e => inr e end.
Proof.
  unfold vault_find, find_secret. rewrite vault_item. destruct (sm_groups sm !! g) as [x|] eqn:E; cbn [mbind option_bind].
  - rewrite decide_True by (by apply elem_of_dom_2 in E). by destruct (sg_Secrets x !! k).
  - by rewrite decide_False by (by apply not_elem_of_dom).
Qed.

Lemma vault_eq a b : v_groups a = v_groups b -> (forall g k, v_items a !! (g, k) = v_items b !! (g, k)) -> a = b.
Proof. destruct a, b. cbn. intros -> H. f_equal. apply map_eq. intros [g k]. apply H. Qed.

(** Replacing the secrets of one group. *)
Lemma vault_put sm g x m : sm_groups sm !! g = Some x ->
  v_groups (vault_of (put_secrets sm g x m)) = v_groups (vault_of sm) /\
  forall g' k, v_items (vault_of (put_secrets sm g x m)) !! (g', k) =
    if decide (g' = g) then m !! k else v_items (vault_of sm) !! (g', k).
Proof.
  intros E. split.
  - cbn. rewrite dom_insert_L. apply elem_of_dom_2 in E. set_solver.
  - intros g' k. rewrite !vault_item. cbn. destruct (decide (g' = g)) as [->|Hne].
    + by rewrite lookup_insert_eq.
    + by rewrite lookup_insert_ne by done.
Qed.
Lemma vault_put_alter sm g x k o : sm_groups sm !! g = Some x ->
  vault_of (put_secrets sm g x (partial_alter (fun _ => o) k (sg_Secrets x))) =
  mkVault (v_groups (vault_of sm)) (partial_alter (fun _ => o) (g, k) (v_items (vault_of sm))).
Proof.
  intros E. destruct (vault_put sm g x (partial_alter (fun _ => o) k (sg_Secrets x)) E) as [H1 H2].
  apply vault_eq; [done|]. intros g' k'. rewrite H2. cbn [v_items]. case_decide as Hg; [subst g'|].
  - destruct (decide (k' = k)) as [->|Hk].
    + by rewrite !lookup_partial_alter_eq.
    + rewrite !lookup_partial_alter_ne by congruence. rewrite vault_item, E. done.
  - rewrite lookup_partial_alter_ne by congruence. done.
Qed.

Lemma find_secret_Some sm g k x s : find_secret sm g k = inl (x, s) -> sm_groups sm !! g = Some x /\ sg_Secrets x !! k = Some s.
Proof. unfold find_secret. intros H. repeat case_match; by simplify_eq. Qed.

Lemma exec_refines sm op : vault_op (vault_of sm) op =
  match store_exec sm op with inl sm' => inl (vault_of sm') | inr e => inr e end.
Proof.
  destruct op as [g|g|now g k v t d|g k|now g k v]; cbn [vault_op store_exec].
  - unfold AddGroup. case_decide; [done|]. destruct (sm_groups sm !! g) as [x|] eqn:E.
    + by rewrite decide_True by (by apply elem_of_dom_2 in E).
    + rewrite decide_False by (by apply not_elem_of_dom). f_equal. apply vault_eq; [cbn; by rewrite dom_insert_L|].
      intros g' k. cbn [v_items]. rewrite !vault_item. cbn. destruct (decide (g' = g)) as [->|].
      * by rewrite lookup_insert_eq, E.
      * by rewrite lookup_insert_ne.
  - unfold RemoveGroup. destruct (sm_groups sm !! g) as [x|] eqn:E.
    + rewrite decide_True by (by apply elem_of_dom_2 in E). f_equal. apply vault_eq; [cbn; by rewrite dom_delete_L|].
      intros g' k. cbn [v_items]. rewrite map_lookup_filter, !vault_item. cbn. destruct (decide (g' = g)) as [->|].
      * rewrite lookup_delete_eq, E. cbn. destruct (sg_Secrets x !! k); cbn; [|done]. case_guard; done.
      * rewrite lookup_delete_ne by done. destruct (sm_groups sm !! g') as [y|]; cbn; [|done].
        destruct (sg_Secrets y !! k); cbn; [|done]. by case_guard.
    + by rewrite decide_False by (by apply not_elem_of_dom).
  - unfold AddSecret. case_decide; [done|]. rewrite find_refines. unfold find_secret.
    destruct (decide (t = SecretTypeNormal \/ t = SecretTypeSecret)) as [Ht|Ht].
    + rewrite decide_False by tauto. destruct (sm_groups sm !! g) as [x|] eqn:E; [|done].
      destruct (sg_Secrets x !! k) eqn:Ek; [done|]. f_equal. symmetry. by apply vault_put_alter.
    + by rewrite decide_True by tauto.
  - unfold RemoveSecret. rewrite find_refines. destruct (find_secret sm g k) as [[x s]|] eqn:E; [|done].
    apply find_secret_Some in E as [E _]. f_equal. symmetry. by apply vault_put_alter.
  - unfold UpdateSecret. rewrite find_refines. destruct (find_secret sm g k) as [[x s]|] eqn:E; [|done].
    apply find_secret_Some in E as [E _]. f_equal. symmetry. by apply vault_put_alter.
Qed.

(** ** Invariant *)

Definition secret_wf (key : string) (s : Secret) : Prop :=
  key <> "" /\ sc_Key s = key /\ (sc_Type s = SecretTypeNormal \/ sc_Type s = SecretTypeSecret).
Definition store_wf (sm : SecretManager) : Prop :=
  map_Forall (fun name g => name <> "" /\ sg_Name g = name /\ map_Forall secret_wf (sg_Secrets g)) (sm_groups sm).

Lemma put_secrets_wf sm g x m : store_wf sm -> sm_groups sm !! g = Some x -> map_Forall secret_wf m -> store_wf (put_secrets sm g x m).
Proof. intros H E Hm. apply map_Forall_insert_2; [|done]. destruct (H g x E) as (? & ? & _). done. Qed.

Lemma exec_wf sm op sm' : store_wf sm -> store_exec sm op = inl sm' -> store_wf sm'.
Proof.
  intros H. destruct op as [g|g|now g k v t d|g k|now g k v]; cbn [store_exec].
  - unfold AddGroup. intros E. repeat case_match; simplify_eq. apply map_Forall_insert_2; [|done]. by split_and!.
  - unfold RemoveGroup. intros E. repeat case_match; simplify_eq. by apply map_Forall_delete.
  - unfold AddSecret. intros E. do 2 (case_decide; [done|]). destruct (sm_groups sm !! g) as [x|] eqn:Ex; [|done].
    destruct (sg_Secrets x !! k); [done|]. injection E as <-. apply put_secrets_wf; [done..|].
    apply map_Forall_insert_2; [|by apply (H g x Ex)]. split_and!; [done..|]. cbn.
    destruct (decide (t = SecretTypeNormal)); [by left|]. destruct (decide (t = SecretTypeSecret)); [by right|tauto].
  - unfold RemoveSecret. intros E. destruct (find_secret sm g k) as [[x s]|] eqn:Ex; [|done]. injection E as <-.
    apply find_secret_Some in Ex as [Ex _]. apply put_secrets_wf; [done..|]. apply map_Forall_delete. by apply (H g x Ex).
  - unfold UpdateSecret. intros E. destruct (find_secret sm g k) as [[x s]|] eqn:Ex; [|done]. injection E as <-.
    apply find_secret_Some in Ex as [Ex Es]. apply put_secrets_wf; [done..|]. destruct (H g x Ex) as (_ & _ & Hx).
    apply map_Forall_insert_2; [|done]. apply (Hx k s Es).
Qed.

Lemma seq_refines sm ops : store_wf sm ->
  seq_exec vault_op (vault_of sm) ops = (vault_of (seq_exec store_exec sm ops).1, (seq_exec store_exec sm ops).2) /\
  store_wf (seq_exec store_exec sm ops).1.
Proof.
  revert sm. induction ops as [|op ops IH]; intros sm Hwf; [done|]. cbn [seq_exec]. rewrite exec_refines.
  destruct (store_exec sm op) as [sm'|e] eqn:E.
  - destruct (IH sm' (exec_wf _ _ _ Hwf E)) as [-> ?]. done.
  - destruct (IH sm Hwf) as [-> ?]. done.
Qed.

(** C26: every sequence of operations on the store of nested maps gives the
    results of the same operations on a flat map of (group, key) pairs, errors
    included, and keeps the store well formed; reading a secret afterwards
    reads the flat map. *)
Theorem secrets_refine_vault sm ops : store_wf sm ->
  let r := seq_exec store_exec sm ops in
  seq_exec vault_op (vault_of sm) ops = (vault_of r.1, r.2) /\ store_wf r.1 /\
  forall g k, GetSecret r.1 g k = match vault_find (vault_of r.1) g k with inl s => inl (sc_Value s) | inr e => inr e end.
Proof.
  intros Hwf. destruct (seq_refines sm ops Hwf) as [H1 H2]. split_and!; [done..|]. intros g k. rewrite find_refines.
  unfold GetSecret. by destruct (find_secret _ g k) as [[]|].
Qed.

Definition empty_manager : SecretManager := mkManager ∅ (mkAEAD 12 (fun _ s => s) (fun _ s => Ok s)) "" "" CipherAESGCM KDFArgon2id.
Definition demo_ops : list store_op :=
  [OpAddGroup "prod"; OpAddGroup "prod"; OpAddSecret 1 "prod" "API_KEY" "sk-12345678" "secret" "";
   OpAddSecret 2 "prod" "HOST" "db.local" "normal" ""; OpUpdateSecret 3 "prod" "HOST" "db.prod"; OpAddSecret 4 "dev" "K" "v" "normal" "";
   OpAddSecret 5 "prod" "X" "v" "other" ""; OpRemoveSecret "prod" "NONE"].
Lemma secrets_refine_vault_witness :
  (seq_exec store_exec empty_manager demo_ops).2 =
    [None; Some (GroupExists "prod"); None; None; None; Some (NoGroup "dev"); Some (InvalidType "other"); Some (NoSecret "NONE" "prod")] /\
  GetSecret (seq_exec store_exec empty_manager demo_ops).1 "prod" "HOST" = inl "db.prod" /\
  store_wf (seq_exec store_exec empty_manager demo_ops).1.
Proof.
  assert (store_wf empty_manager) as H by apply map_Forall_empty.
  split_and!; [by vm_compute|by vm_compute|]. apply (secrets_refine_vault empty_manager demo_ops H).
Defined.

(** ** Listings *)

Section listings.
Context (range : forall V : Type, gmap string V -> list (string * V)).
Context (range_perm : forall V (m : gmap string V), range V m ≡ₚ map_to_list m).

Lemma key_sort_unique (l1 l2 : list SecretInfo) : NoDup (sc_Key <$> l1) -> l1 ≡ₚ l2 -> merge_sort key_le l1 = merge_sort key_le l2.
Proof.
  intros Hnd Hp. assert (Transitive key_le) by (intros a b c; unfold key_le; by trans (sc_Key b)).
  assert (Total key_le) by (intros a b; apply (total String.le)).
  apply (Sorted_unique_strong key_le); [|by apply Sorted_merge_sort..|by rewrite !merge_sort_Permutation].
  intros a b Ha Hb Hab Hba. rewrite merge_sort_Permutation in Ha. rewrite merge_sort_Permutation, <- Hp in Hb.
  assert (sc_Key a = sc_Key b) as E by (by apply (anti_symm String.le)).
  apply list_elem_of_lookup in Ha as [i Hi]. apply list_elem_of_lookup in Hb as [j Hj].
  assert (i = j) as ->; [|congruence]. apply (NoDup_lookup (sc_Key <$> l1) i j (sc_Key a) Hnd).
  - rewrite list_lookup_fmap, Hi. done.
  - rewrite list_lookup_fmap, Hj. cbn. by rewrite E.
Qed.

(** What a group shows, whatever the order of the iteration. *)
Definition group_infos (m : gmap string Secret) : list SecretInfo := (map_to_list (info_of <$> m)).*2.
Lemma infos_perm m : info_of <$> (range _ m).*2 ≡ₚ group_infos m.
Proof using range_perm.
  unfold group_infos. rewrite map_to_list_fmap, range_perm, <- !list_fmap_compose.
  apply Permutation_refl', list_fmap_ext. by intros _ [] _.
Qed.
Lemma infos_keys m : map_Forall secret_wf m -> sc_Key <$> group_infos m = (map_to_list m).*1.
Proof.
  intros Hm. unfold group_infos. rewrite map_to_list_fmap, <- !list_fmap_compose.
  apply list_fmap_ext. intros i [k s] Hi. cbn. apply list_elem_of_lookup_2, elem_of_map_to_list in Hi. by apply (Hm k s Hi).
Qed.

Lemma ListSecrets_eq sm g x : store_wf sm -> sm_groups sm !! g = Some x ->
  ListSecrets range sm g = inl (merge_sort key_le (group_infos (sg_Secrets x))).
Proof using range_perm.
  intros Hwf E. unfold ListSecrets. rewrite E. f_equal. symmetry. apply key_sort_unique; [|symmetry; apply infos_perm].
  rewrite infos_keys by (by apply (Hwf g x E)). apply NoDup_fst_map_to_list.
Qed.
End listings.

(** a listing of a group shows each of its secrets once, by increasing
    key, whatever the order in which the map is visited. *)
Theorem ListSecrets_exact range sm g x :
  (forall V (m : gmap string V), range V m ≡ₚ map_to_list m) -> store_wf sm -> sm_groups sm !! g = Some x ->
  exists l, ListSecrets range sm g = inl l /\ StronglySorted key_le l /\ NoDup (sc_Key <$> l) /\
    forall info, info ∈ l <-> exists k s, v_items (vault_of sm) !! (g, k) = Some s /\ info = info_of s.
Proof.
  intros Hr Hwf E. rewrite (ListSecrets_eq range Hr sm g x Hwf E). eexists. split; [done|].
  assert (Transitive key_le) by (intros a b c; unfold key_le; by trans (sc_Key b)).
  assert (Total key_le) by (intros a b; apply (total String.le)).
  split_and!.
  - apply Sorted_StronglySorted; [done|]. by apply Sorted_merge_sort.
  - rewrite merge_sort_Permutation, infos_keys by (by apply (Hwf g x E)). apply NoDup_fst_map_to_list.
  - intros info. rewrite merge_sort_Permutation. unfold group_infos. rewrite list_elem_of_fmap.
    setoid_rewrite vault_item. rewrite E. cbn. split.
    + intros ([k i] & -> & Hin). apply elem_of_map_to_list in Hin. rewrite lookup_fmap in Hin.
      apply fmap_Some in Hin as (s & Hs & ->). by exists k, s.
    + intros (k & s & Hs & ->). exists (k, info_of s). split; [done|]. apply elem_of_map_to_list.
      rewrite lookup_fmap, Hs. done.
Qed.

Definition visit (V : Type) (m : gmap string V) : list (string * V) := map_to_list m.
Definition visit_back (V : Type) (m : gmap string V) : list (string * V) := reverse (map_to_list m).
Definition demo_store : SecretManager := (seq_exec store_exec empty_manager demo_ops).1.
Lemma ListSecrets_exact_witness :
  ListSecrets visit_back demo_store "prod" =
    inl [mkSecret "API_KEY" "sk*******78" "secret" "" 1 1; mkSecret "HOST" "db.prod" "normal" "" 2 3] /\
  exists l, ListSecrets visit_back demo_store "prod" = inl l /\ StronglySorted key_le l.
Proof.
  split; [by vm_compute|].
  assert (store_wf demo_store) as Hwf by (apply (seq_refines empty_manager demo_ops); by apply map_Forall_empty).
  destruct (sm_groups demo_store !! "prod") as [x|] eqn:E; [|by vm_compute in E].
  destruct (ListSecrets_exact visit_back demo_store "prod" x
    (fun V m => reverse_Permutation (map_to_list m)) Hwf E) as (l & H1 & H2 & _).
  exists l. exact (conj H1 H2).
Defined.

(** ** Masking *)

Lemma mask_length v : String.length (maskValue v) = String.length v.
Proof.
  unfold maskValue. assert (forall n, String.length (Repeat "*" n) = n) as Hr by (induction n; cbn; auto).
  destruct (Nat.leb_spec (String.length v) 4) as [H|H]; [apply Hr|].
  rewrite !string_length_app, Hr, length_str_drop. do 2 (destruct v as [|? v]; [cbn in H; lia|]). cbn [str_take String.length].
  cbn in H. lia.
Qed.

(** Two secrets that differ at most inside a masked value. *)
Definition same_shape (s s' : Secret) : Prop :=
  sc_Key s = sc_Key s' /\ sc_Type s = sc_Type s' /\ sc_Description s = sc_Description s' /\
  sc_CreatedAt s = sc_CreatedAt s' /\ sc_UpdatedAt s = sc_UpdatedAt s' /\
  if decide (sc_Type s = SecretTypeSecret) then
    String.length (sc_Value s) = String.length (sc_Value s') /\
    (4 < String.length (sc_Value s) -> str_take 2 (sc_Value s) = str_take 2 (sc_Value s') /\
      str_drop (String.length (sc_Value s) - 2) (sc_Value s) = str_drop (String.length (sc_Value s) - 2) (sc_Value s'))%nat
  else sc_Value s = sc_Value s'.
Definition looks_alike (sm sm' : SecretManager) : Prop := forall g,
  option_Forall2 (fun x x' => forall k, option_Forall2 same_shape (sg_Secrets x !! k) (sg_Secrets x' !! k))
    (sm_groups sm !! g) (sm_groups sm' !! g).

Lemma same_shape_info s s' : same_shape s s' -> info_of s = info_of s'.
Proof.
  intros (E1 & E2 & E3 & E4 & E5 & E6). unfold info_of, shown_value. rewrite E1, E2, E3, E4, E5 in *. f_equal.
  case_decide; [|done]. destruct E6 as [El Ev]. unfold maskValue. rewrite <- El.
  destruct (Nat.leb_spec (String.length (sc_Value s)) 4); [done|]. by destruct Ev as [-> ->].
Qed.
Lemma looks_alike_infos x x' : (forall k, option_Forall2 same_shape (sg_Secrets x !! k) (sg_Secrets x' !! k)) ->
  group_infos (sg_Secrets x) = group_infos (sg_Secrets x').
Proof.
  intros H. unfold group_infos. do 2 f_equal. apply map_eq. intros k. rewrite !lookup_fmap.
  destruct (H k) as [s s' Hs|]; [|done]. cbn. by rewrite (same_shape_info s s' Hs).
Qed.

(** of a value of type secret the masked views show at most its length
    and its first and last two bytes: stores that agree on these and on
    everything else give the same listings and masked values, in whatever
    order their maps are visited. *)
Theorem masked_views_hide range range' sm sm' g k :
  (forall V (m : gmap string V), range V m ≡ₚ map_to_list m) -> (forall V (m : gmap string V), range' V m ≡ₚ map_to_list m) ->
  store_wf sm -> store_wf sm' -> looks_alike sm sm' ->
  ListSecrets range sm g = ListSecrets range' sm' g /\ GetSecretMasked sm g k = GetSecretMasked sm' g k.
Proof.
  intros Hr Hr' Hwf Hwf' Ha. specialize (Ha g).
  destruct (sm_groups sm !! g) as [x|] eqn:E, (sm_groups sm' !! g) as [x'|] eqn:E'; inversion Ha as [? ? Hx|]; subst.
  - rewrite (ListSecrets_eq range Hr sm g x Hwf E), (ListSecrets_eq range' Hr' sm' g x' Hwf' E').
    rewrite (looks_alike_infos x x' Hx). split; [done|]. unfold GetSecretMasked, find_secret. rewrite E, E'.
    destruct (Hx k) as [s s' Hs|]; [|done]. f_equal. apply (f_equal sc_Value (same_shape_info s s' Hs)).
  - unfold ListSecrets, GetSecretMasked, find_secret. by rewrite E, E'.
Qed.

Definition keyed_store (v : string) : SecretManager :=
  set_groups empty_manager {["prod" := mkGroup "prod" {["API_KEY" := mkSecret "API_KEY" v "secret" "" 1 1]}]}.
Lemma keyed_store_wf v : store_wf (keyed_store v).
Proof.
  apply map_Forall_singleton. split_and!; [done..|]. apply map_Forall_singleton. split_and!; [done..|]. by right.
Qed.
Lemma masked_views_hide_witness :
  ListSecrets visit (keyed_store "sk-12345678") "prod" = ListSecrets visit_back (keyed_store "sk-abcdef78") "prod" /\
  GetSecretMasked (keyed_store "sk-12345678") "prod" "API_KEY" = GetSecretMasked (keyed_store "sk-abcdef78") "prod" "API_KEY".
Proof.
  refine (masked_views_hide visit visit_back (keyed_store "sk-12345678") (keyed_store "sk-abcdef78") "prod" "API_KEY" _ _
    (keyed_store_wf _) (keyed_store_wf _) _).
  - by intros V m.
  - intros V m. apply reverse_Permutation.
  - intros g. unfold keyed_store. cbn [sm_groups set_groups]. destruct (decide (g = "prod")) as [->|].
    + rewrite !lookup_singleton_eq. constructor. intros k. cbn [sg_Secrets]. destruct (decide (k = "API_KEY")) as [->|].
      * rewrite !lookup_singleton_eq. constructor. by vm_compute.
      * rewrite !lookup_singleton_ne by done. constructor.
    + rewrite !lookup_singleton_ne by done. constructor.
Defined.

(** ** Variables for workflows *)

Section vars.
Context (range : forall V : Type, gmap string V -> list (string * V)).
Context (range_perm : forall V (m : gmap string V), range V m ≡ₚ map_to_list m).

(** The assignments that [GetAllVars] makes, in order. *)
Definition assignments (sm : SecretManager) : list (string * string) :=
  e ← range _ (sm_groups sm); (fun e' => (e.1 +:+ "_" +:+ e'.1, sc_Value e'.2)) <$> range _ (sg_Secrets e.2).
Definition assign (vars : gmap string string) (a : string * string) : gmap string string := <[a.1 := a.2]> vars.

Lemma GetAllVars_assign sm : GetAllVars range sm = fold_left assign (assignments sm) ∅.
Proof.
  unfold GetAllVars, assignments. generalize (∅ : gmap string string) as m.
  induction (range _ (sm_groups sm)) as [|e l IH]; intros m; [done|]. rewrite bind_cons, fold_left_app. cbn [fold_left].
  rewrite IH. f_equal. generalize (range _ (sg_Secrets e.2)) as l'. intros l'. revert m.
  induction l' as [|e' l' IH']; intros m; [done|]. cbn. apply IH'.
Qed.

Lemma assign_lookup l m x v : fold_left assign l m !! x = Some v -> (x, v) ∈ l \/ m !! x = Some v.
Proof.
  revert m. induction l as [|[y w] l IH]; intros m H; [by right|]. cbn in H. rewrite elem_of_cons.
  destruct (IH _ H) as [|E]; [tauto|]. unfold assign in E. apply lookup_insert_Some in E as [[-> ->]|[_ ?]]; auto.
Qed.
Lemma assign_dom l m x v : (x, v) ∈ l \/ is_Some (m !! x) -> is_Some (fold_left assign l m !! x).
Proof.
  revert m. induction l as [|[y w] l IH]; intros m H; cbn.
  - destruct H as [H|]; [by apply not_elem_of_nil in H|done].
  - apply IH. rewrite elem_of_cons in H. destruct (decide (x = y)) as [->|Hne].
    + right. cbn. rewrite lookup_insert_eq. eauto.
    + destruct H as [[H|]|]; [by simplify_eq|by left|right]. cbn. by rewrite lookup_insert_ne.
Qed.

Lemma assignments_elem sm x v : (x, v) ∈ assignments sm <->
  exists g k s, v_items (vault_of sm) !! (g, k) = Some s /\ x = g +:+ "_" +:+ k /\ v = sc_Value s.
Proof using range_perm.
  unfold assignments. rewrite list_elem_of_bind. setoid_rewrite list_elem_of_fmap. setoid_rewrite vault_item. split.
  - intros ([g y] & ([k s] & [= -> ->] & Hk) & Hg). rewrite range_perm in Hg, Hk. apply elem_of_map_to_list in Hg, Hk.
    exists g, k, s. rewrite Hg. done.
  - intros (g & k & s & H & -> & ->). apply bind_Some in H as (y & Hg & Hk). exists (g, y). split.
    + exists (k, s). split; [done|]. rewrite range_perm. by apply elem_of_map_to_list.
    + rewrite range_perm. by apply elem_of_map_to_list.
Qed.
End vars.

Lemma underscore_inj g k g' k' : str_has "_" g = false -> str_has "_" g' = false ->
  g +:+ "_" +:+ k = g' +:+ "_" +:+ k' -> g = g' /\ k = k'.
Proof.
  revert g'. induction g as [|c g IH]; intros [|c' g'] H H' E; cbn in H, H', E.
  - by injection E as ->.
  - by injection E as <- _.
  - by injection E as -> _.
  - injection E as -> E. apply orb_false_iff in H as [_ H], H' as [_ H']. destruct (IH g' H H' E) as [-> ->]. done.
Qed.

(** when no group name has an underscore, the variables given to a
    workflow are exactly the secrets, each under its group and key,
    whatever the order in which the maps are visited. *)
Theorem GetAllVars_exact range sm x v :
  (forall V (m : gmap string V), range V m ≡ₚ map_to_list m) -> (forall g, g ∈ v_groups (vault_of sm) -> str_has "_" g = false) ->
  GetAllVars range sm !! x = Some v <->
  exists g k s, v_items (vault_of sm) !! (g, k) = Some s /\ x = g +:+ "_" +:+ k /\ v = sc_Value s.
Proof.
  intros Hr Hu. rewrite GetAllVars_assign. split.
  - intros H. apply assign_lookup in H as [H|H]; [|by rewrite lookup_empty in H]. by apply assignments_elem in H.
  - intros H. assert ((x, v) ∈ assignments range sm) as Hin by (by apply assignments_elem).
    destruct (assign_dom (assignments range sm) ∅ x v (or_introl Hin)) as [v' Hv']. rewrite Hv'.
    apply assign_lookup in Hv' as [Hv'|Hv']; [|by rewrite lookup_empty in Hv'].
    apply assignments_elem in Hv' as (g' & k' & s' & Hs' & Hx' & ->); [|done].
    destruct H as (g & k & s & Hs & Hx & ->). subst x.
    assert (forall g k s, v_items (vault_of sm) !! (g, k) = Some s -> str_has "_" g = false) as Hg.
    { intros ? ? ? Hi. apply Hu. rewrite vault_item in Hi. apply bind_Some in Hi as (? & ? & _). by eapply elem_of_dom_2. }
    destruct (underscore_inj g k g' k') as [-> ->]; [by eapply Hg..|done|]. congruence.
Qed.
Lemma GetAllVars_exact_witness : GetAllVars visit_back (keyed_store "v") !! "prod_API_KEY" = Some "v".
Proof.
  apply (GetAllVars_exact visit_back (keyed_store "v") "prod_API_KEY" "v" (fun V m => reverse_Permutation (map_to_list m))).
  - intros g Hg. cbn in Hg. rewrite dom_singleton_L in Hg. apply elem_of_singleton in Hg as ->. done.
  - exists "prod", "API_KEY", (mkSecret "API_KEY" "v" "secret" "" 1 1). by vm_compute.
Defined.

(** With underscores two secrets share a name, and the order of the visit
    decides which of them a workflow sees. *)
Definition clash_store : SecretManager :=
  (seq_exec store_exec empty_manager
    [OpAddGroup "db"; OpAddGroup "db_prod"; OpAddSecret 1 "db" "prod_PASS" "one" "secret" "";
     OpAddSecret 1 "db_prod" "PASS" "two" "secret" ""]).1.
Theorem variables_clash :
  GetAllVars visit clash_store <> GetAllVars visit_back clash_store /\
  GetSecret clash_store "db" "prod_PASS" = inl "one" /\ GetSecret clash_store "db_prod" "PASS" = inl "two".
Proof.
  split_and!; [|by vm_compute..]. intros E. apply (f_equal (lookup "db_prod_PASS")) in E. vm_compute in E. congruence.
Qed.

(** A password that the environment sets is not used once the keyring has
    one, and one typed at the prompt is put into the keyring. *)
Theorem keyring_wins (pw typed : string) : pw <> "" -> typed <> "" ->
  (forall old prompt, (GetMasterPassword (mkPasswordEnv (Some old) pw prompt)) = (Ok old, None)) /\
  GetMasterPassword (mkPasswordEnv None "" (Some (Ok typed))) = (Ok typed, Some typed).
Proof. intros H1 H2. split; [done|]. unfold GetMasterPassword. cbn [pe_keyring pe_variable pe_prompt].
  by rewrite decide_False, decide_False by auto.
Qed.
