(* ===== verification/VectorIndex.v ===== *)
(** * The vector index of a memory session (src/internal/memory/vector.go)

    Three slices in step, with swap-deletion, and a search by cosine
    similarity.  A float32 of a vector is the float64 it is widened to; the
    arithmetic is binary64 without fused operations.  Embedders are
    parameters of the session. *)

From S2P Require Import Prelude GoStrings GoTime GoFloat.
From Stdlib Require Import SpecFloat.

#[local] Open Scope string_scope.
#[local] Open Scope Z_scope.

(** ** Definitions *)

Abbreviation Vector := (list float64).
Abbreviation metadata := (gmap string string).

Definition f64_sqrt : float64 -> float64 := SFsqrt 53 1024.
Definition f64_nil : float64 := S754_zero false.

Record VectorIndex := mkIndex {
  vi_keys : list string;
  vi_vectors : list Vector;
  vi_meta : list metadata
}.
Record VectorHit := mkHit { vh_Key : string; vh_Score : float64; vh_Vector : Vector; vh_Metadata : metadata }.

Definition NewVectorIndex : VectorIndex := mkIndex [] [] [].

(** The position of a key, as the loops find it. *)
Definition key_position (idx : VectorIndex) (key : string) : option nat := fst <$> list_find (fun k => k = key) (vi_keys idx).

Definition Add (key : string) (v : Vector) (meta : metadata) (idx : VectorIndex) : bool * VectorIndex :=
  if decide (v = []) then (false, idx) else
  match key_position idx key with
  | Some i => (true, mkIndex (vi_keys idx) (<[i := v]> (vi_vectors idx)) (<[i := meta]> (vi_meta idx)))
  | None => (true, mkIndex (vi_keys idx ++ [key])%list (vi_vectors idx ++ [v])%list (vi_meta idx ++ [meta])%list)
  end.

(** The last element moves to position i, the slice loses its last element. *)
Definition swap_delete {A} (i : nat) (l : list A) : list A :=
  match last l with
  | Some x => take (length l - 1) (<[i := x]> l)
  | None => l
  end.
Definition Remove (key : string) (idx : VectorIndex) : bool * VectorIndex :=
  match key_position idx key with
  | Some i => (true, mkIndex (swap_delete i (vi_keys idx)) (swap_delete i (vi_vectors idx)) (swap_delete i (vi_meta idx)))
  | None => (false, idx)
  end.

Definition Len (idx : VectorIndex) : nat := length (vi_keys idx).

(** Dot product and squared norms, summed in order. *)
Definition cosine_sums (a b : Vector) : float64 * float64 * float64 :=
  fold_left (fun s p =>
    let '(dot, na, nb) := s in
    (f64_add dot (f64_mul p.1 p.2), f64_add na (f64_mul p.1 p.1), f64_add nb (f64_mul p.2 p.2)))
    (zip a b) (f64_nil, f64_nil, f64_nil).
Definition CosineSimilarity (a b : Vector) : float64 :=
  if decide (a = [] \/ b = [] \/ length a <> length b) then f64_nil else
  let '(dot, na, nb) := cosine_sums a b in
  if SFeqb na f64_nil || SFeqb nb f64_nil then f64_nil else f64_div dot (f64_mul (f64_sqrt na) (f64_sqrt nb)).

(** The order of the results: by decreasing score, ties by key. *)
Definition ranked_before (s1 : float64) (k1 : string) (s2 : float64) (k2 : string) : bool :=
  if negb (SFeqb s1 s2) then SFltb s2 s1 else String.ltb k1 k2.
Definition hit_le (a b : VectorHit) : Prop := ranked_before (vh_Score b) (vh_Key b) (vh_Score a) (vh_Key a) = false.
#[export] Instance hit_le_dec : RelDecision hit_le := fun a b => bool_eq_dec _ _.

(** The hits in the order of the slices. *)
Definition index_hits (query : Vector) (threshold : float64) (idx : VectorIndex) : list VectorHit :=
  filter (fun h => SFleb threshold (vh_Score h) = true)
    ((fun e => mkHit e.1 (CosineSimilarity query e.2.1) e.2.1 e.2.2) <$> zip (vi_keys idx) (zip (vi_vectors idx) (vi_meta idx))).
Definition Search (query : Vector) (topK : Z) (threshold : float64) (idx : VectorIndex) : list VectorHit :=
  if decide (vi_keys idx = [] \/ query = []) then [] else
  let topK := if topK <=? 0 then 10 else topK in
  take (Z.to_nat topK) (merge_sort hit_le (index_hits query threshold idx)).

(** ** Lemmas *)

Lemma swap_delete_fmap {A B} (f : A -> B) i (l : list A) : swap_delete i (f <$> l) = f <$> swap_delete i l.
Proof.
  unfold swap_delete. rewrite fmap_last. destruct (last l) as [x|]; cbn; [|done].
  by rewrite length_fmap, <- list_fmap_insert, fmap_take.
Qed.
Lemma swap_delete_perm {A} i (l : list A) x : l !! i = Some x -> x :: swap_delete i l ≡ₚ l.
Proof.
  intros Hi. unfold swap_delete. destruct (last l) as [y|] eqn:Hl; [|by apply last_None in Hl as ->].
  apply last_Some in Hl as [l' ->]. rewrite length_app. cbn [length].
  replace (length l' + 1 - 1)%nat with (length l') by lia.
  destruct (decide (i = length l')) as [->|Hne].
  - rewrite list_lookup_middle in Hi by done. injection Hi as ->.
    rewrite insert_app_r_alt, Nat.sub_diag by done. cbn. rewrite take_app_length. by rewrite Permutation_app_comm.
  - assert (i < length l')%nat as Hlt by (apply lookup_lt_Some in Hi; rewrite length_app in Hi; cbn in Hi; lia).
    rewrite lookup_app_l in Hi by done. rewrite insert_app_l by done.
    rewrite take_app_length' by (by rewrite length_insert).
    rewrite insert_take_drop by done. rewrite <- (take_drop_middle l' i x) at 3 by done.
    rewrite <- app_assoc. cbn. rewrite !(Permutation_middle (take i l')). apply Permutation_app_head.
    rewrite (Permutation_cons_append (drop (S i) l') y). done.
Qed.

(** An index as a list of its columns. *)
Abbreviation column := (string * (Vector * metadata))%type.
Definition index_of (l : list column) : VectorIndex := mkIndex l.*1 l.*2.*1 l.*2.*2.
Record index_wf (idx : VectorIndex) : Prop := {
  iw_vectors : length (vi_vectors idx) = length (vi_keys idx);
  iw_meta : length (vi_meta idx) = length (vi_keys idx);
  iw_nodup : NoDup (vi_keys idx)
}.
Definition index_columns (idx : VectorIndex) : list column := zip (vi_keys idx) (zip (vi_vectors idx) (vi_meta idx)).
Definition index_map (idx : VectorIndex) : gmap string (Vector * metadata) := list_to_map (index_columns idx).

Lemma columns_index_of l : index_columns (index_of l) = l.
Proof. unfold index_columns, index_of. cbn. by rewrite (zip_fst_snd l.*2), zip_fst_snd. Qed.
Lemma index_wf_of idx : index_wf idx -> exists l, idx = index_of l /\ NoDup l.*1.
Proof.
  intros [H1 H2 H3]. exists (index_columns idx). unfold index_of, index_columns. assert (length (zip (vi_vectors idx) (vi_meta idx)) = length (vi_keys idx)) as E
    by (rewrite length_zip_with; lia).
  rewrite fst_zip, snd_zip, fst_zip, snd_zip by lia. by destruct idx.
Qed.
Lemma index_of_wf l : NoDup l.*1 -> index_wf (index_of l).
Proof. intros H. split; cbn; [by rewrite !length_fmap..|done]. Qed.

Lemma key_position_Some l key i : key_position (index_of l) key = Some i -> exists x, l !! i = Some (key, x).
Proof.
  unfold key_position. cbn. intros H. apply fmap_Some in H as ([j k] & H & ->).
  apply list_find_Some in H as (H & -> & _). rewrite list_lookup_fmap in H. apply fmap_Some in H as ([k' x] & H & ->).
  by exists x.
Qed.
Lemma key_position_None l key : key_position (index_of l) key = None -> key ∉ l.*1.
Proof.
  unfold key_position. cbn. intros H%fmap_None. apply list_find_None in H. rewrite Forall_forall in H. intros Hin. by apply (H key Hin).
Qed.

Lemma Add_column l key v meta : NoDup l.*1 -> v <> [] ->
  exists l', Add key v meta (index_of l) = (true, index_of l') /\ NoDup l'.*1 /\
    list_to_map l' = <[key := (v, meta)]> (list_to_map l : gmap _ _).
Proof.
  intros Hnd Hv. unfold Add. rewrite decide_False by done. destruct (key_position (index_of l) key) as [i|] eqn:E.
  - apply key_position_Some in E as [x Hx]. exists (<[i := (key, (v, meta))]> l). unfold index_of. cbn.
    rewrite !list_fmap_insert. cbn.
    assert (<[i := key]> l.*1 = l.*1) as Hk by (apply list_insert_id; by rewrite list_lookup_fmap, Hx).
    rewrite Hk. split_and!; [done..|].
    rewrite <- (take_drop_middle l i (key, x) Hx) at 2. rewrite insert_take_drop by (by eapply lookup_lt_Some).
    pose proof Hnd as Hnd'. rewrite <- (take_drop_middle l i (key, x) Hx), fmap_app, fmap_cons in Hnd'.
    apply NoDup_app in Hnd' as (_ & Hd & _). assert (key ∉ (take i l).*1) as Hni by (intros Hin; apply (Hd key Hin); by left).
    rewrite !list_to_map_app. cbn. apply not_elem_of_list_to_map_1 in Hni.
    apply map_eq. intros k. rewrite lookup_union, !lookup_insert, lookup_union, lookup_insert.
    case_decide; [subst k; by rewrite Hni|done].
  - apply key_position_None in E. exists (l ++ [(key, (v, meta))])%list. unfold index_of. cbn.
    rewrite !fmap_app. cbn. split_and!; [done| |].
    + apply NoDup_app. split_and!; [done| |apply NoDup_singleton]. intros k Hk ->%list_elem_of_singleton. done.
    + rewrite list_to_map_snoc by done. done.
Qed.
Lemma Remove_column l key : NoDup l.*1 ->
  exists l', (Remove key (index_of l)).2 = index_of l' /\ NoDup l'.*1 /\
    list_to_map l' = delete key (list_to_map l : gmap _ _) /\ (Remove key (index_of l)).1 = bool_decide (key ∈ l.*1).
Proof.
  intros Hnd. unfold Remove. destruct (key_position (index_of l) key) as [i|] eqn:E.
  - apply key_position_Some in E as [x Hx]. pose proof (swap_delete_perm i l _ Hx) as Hp. exists (swap_delete i l).
    cbn. unfold index_of. cbn. rewrite !swap_delete_fmap.
    assert (NoDup ((key, x) :: swap_delete i l).*1) as Hn by (by rewrite Hp). apply NoDup_cons in Hn as [Hn1 Hn2].
    split_and!; [done..| |].
    + assert (list_to_map l = (list_to_map ((key, x) :: swap_delete i l) : gmap _ _)) as ->.
      { apply list_to_map_proper; [done|by symmetry]. }
      cbn. rewrite delete_insert_id; [done|]. by apply not_elem_of_list_to_map_1.
    + symmetry. apply bool_decide_eq_true. rewrite <- Hp. by left.
  - apply key_position_None in E. exists l. split_and!; [done..| |].
    + rewrite delete_id; [done|]. by apply not_elem_of_list_to_map_1.
    + symmetry. by apply bool_decide_eq_false.
Qed.

(** The index refines a finite map. *)
Lemma Add_refines key v meta idx : index_wf idx -> v <> [] ->
  index_wf (Add key v meta idx).2 /\ index_map (Add key v meta idx).2 = <[key := (v, meta)]> (index_map idx).
Proof.
  intros (l & -> & Hnd)%index_wf_of Hv. destruct (Add_column l key v meta Hnd Hv) as (l' & -> & Hnd' & Hm). cbn [snd].
  split; [by apply index_of_wf|]. unfold index_map. by rewrite !columns_index_of.
Qed.
Lemma Remove_refines key idx : index_wf idx ->
  index_wf (Remove key idx).2 /\ index_map (Remove key idx).2 = delete key (index_map idx).
Proof.
  intros (l & -> & Hnd)%index_wf_of. destruct (Remove_column l key Hnd) as (l' & -> & Hnd' & Hm & _).
  split; [by apply index_of_wf|]. unfold index_map. by rewrite !columns_index_of.
Qed.
Lemma NewVectorIndex_wf : index_wf NewVectorIndex.
Proof. split; [done..|apply NoDup_nil_2]. Qed.

(** ** Ranking *)

Lemma ltb_leb a b : String.ltb a b = negb (String.leb b a).
Proof. unfold String.ltb, String.leb. rewrite (String.compare_antisym a b). by destruct (String.compare b a). Qed.

(** The ranking of results with a score. *)
Lemma ranked_before_spec s1 k1 s2 k2 : f64_is_nan s1 = false -> f64_is_nan s2 = false ->
  ranked_before s2 k2 s1 k1 = false <->
  match rank_compare (f64_rank s1) (f64_rank s2) with Gt => True | Eq => String.le k1 k2 | Lt => False end.
Proof.
  intros H1 H2. unfold ranked_before. rewrite SFeqb_rank, SFltb_rank, (rank_compare_antisym (f64_rank s1)) by done.
  destruct (rank_compare (f64_rank s1) (f64_rank s2)); cbn; [|done..].
  rewrite ltb_leb, negb_false_iff. unfold String.le. symmetry. apply Is_true_true.
Qed.
Lemma ranked_trans s1 k1 s2 k2 s3 k3 :
  f64_is_nan s1 = false -> f64_is_nan s2 = false -> f64_is_nan s3 = false ->
  ranked_before s2 k2 s1 k1 = false -> ranked_before s3 k3 s2 k2 = false -> ranked_before s3 k3 s1 k1 = false.
Proof.
  intros N1 N2 N3. rewrite !ranked_before_spec by done. intros H1 H2.
  assert (rank_compare (f64_rank s3) (f64_rank s2) <> Gt /\ rank_compare (f64_rank s2) (f64_rank s1) <> Gt) as [G1 G2].
  { rewrite (rank_compare_antisym (f64_rank s2)), (rank_compare_antisym (f64_rank s1)).
    destruct (rank_compare (f64_rank s1) (f64_rank s2)), (rank_compare (f64_rank s2) (f64_rank s3)); done. }
  destruct (rank_compare_le _ _ _ G1 G2) as [G3 G4].
  rewrite (rank_compare_antisym (f64_rank s1) (f64_rank s3)) in G3, G4.
  destruct (rank_compare (f64_rank s1) (f64_rank s3)); cbn in *; [|done..].
  destruct G4 as [E1 E2]; [done|]. rewrite (rank_compare_antisym (f64_rank s2)) in E1. rewrite (rank_compare_antisym (f64_rank s1)) in E2.
  destruct (rank_compare (f64_rank s1) (f64_rank s2)), (rank_compare (f64_rank s2) (f64_rank s3)); try done. by trans k2.
Qed.
(** No two results are each before the other. *)
Lemma ranked_total s1 k1 s2 k2 : ranked_before s1 k1 s2 k2 = false \/ ranked_before s2 k2 s1 k1 = false.
Proof.
  destruct (f64_is_nan s1) eqn:N1; [destruct s1; try done; left; by destruct s2|].
  destruct (f64_is_nan s2) eqn:N2; [destruct s2; try done; left; by destruct s1 as [|[]| |[]]|].
  rewrite !ranked_before_spec by done. rewrite (rank_compare_antisym (f64_rank s1)).
  destruct (rank_compare (f64_rank s1) (f64_rank s2)); cbn; [|auto..]. destruct (total String.le k1 k2); auto.
Qed.
#[export] Instance hit_le_total : Total hit_le.
Proof. intros a b. apply ranked_total. Qed.

(** A prefix of a sorted list ranks before the rest. *)
Lemma take_sorted_best {A} (R : A -> A -> Prop) n l x : StronglySorted R l -> x ∈ l ->
  x ∈ take n l \/ (length (take n l) = n /\ forall y, y ∈ take n l -> R y x).
Proof.
  intros HS Hx. destruct (decide (n < length l)%nat) as [Hn|Hn]; [|left; by rewrite take_ge by lia].
  rewrite <- (take_drop n l) in Hx. apply elem_of_app in Hx as [|Hx]; [by left|]. right.
  split; [rewrite length_take; lia|]. intros y Hy. rewrite <- (take_drop n l) in HS.
  apply StronglySorted_app in HS as (HS & _ & _). by apply HS.
Qed.

(** ** Theorem *)

Definition hit_of (query : Vector) (k : string) (v : Vector) (m : metadata) : VectorHit := mkHit k (CosineSimilarity query v) v m.

Lemma index_hits_elem query threshold idx h : index_wf idx -> h ∈ index_hits query threshold idx <->
  SFleb threshold (vh_Score h) = true /\ exists k v m, index_map idx !! k = Some (v, m) /\ h = hit_of query k v m.
Proof.
  intros (l & -> & Hnd)%index_wf_of. unfold index_hits, index_map.
  change (zip _ _) with (index_columns (index_of l)). rewrite columns_index_of, list_elem_of_filter, list_elem_of_fmap.
  apply and_iff_compat_l. split.
  - intros ([k [v m]] & -> & Hin). exists k, v, m. split; [|done]. by apply elem_of_list_to_map_1.
  - intros (k & v & m & Hin & ->). exists (k, (v, m)). split; [done|]. by apply elem_of_list_to_map_2.
Qed.
Lemma sorted_hits query threshold idx : index_wf idx -> StronglySorted hit_le (merge_sort hit_le (index_hits query threshold idx)).
Proof.
  intros Hwf. apply (Sorted_strong_on _ (fun h => f64_is_nan (vh_Score h) = false)).
  - intros a b c Ha Hb Hc. apply (ranked_trans _ _ (vh_Score b) (vh_Key b) _ _ Ha Hb Hc).
  - rewrite merge_sort_Permutation. apply Forall_forall. intros h Hh. apply index_hits_elem in Hh as [Hh _]; [|done].
    by apply SFleb_not_nan in Hh as [_ ?].
  - apply (Sorted_merge_sort _).
Qed.

(** a search of the index returns, best first and at most topK of them,
    the entries that reach the threshold: what it leaves out does not reach
    the threshold or ranks behind everything it returns. *)
Theorem index_search_top query topK threshold idx : index_wf idx -> query <> [] -> 0 < topK ->
  let r := Search query topK threshold idx in
  StronglySorted hit_le r /\ Z.of_nat (length r) <= topK /\
  (forall h, h ∈ r -> SFleb threshold (vh_Score h) = true /\
     exists k v m, index_map idx !! k = Some (v, m) /\ h = hit_of query k v m) /\
  (forall k v m, index_map idx !! k = Some (v, m) -> SFleb threshold (CosineSimilarity query v) = true ->
     hit_of query k v m ∈ r \/
     (Z.of_nat (length r) = topK /\ forall h, h ∈ r -> hit_le h (hit_of query k v m))).
Proof.
  intros Hwf Hq HK. unfold Search. rewrite (proj2 (Z.leb_gt topK 0)) by done.
  destruct (decide (vi_keys idx = [] \/ query = [])) as [[E|]|_]; [|done|]; cbn zeta.
  - split_and!; [constructor|cbn; lia|by intros h ?%not_elem_of_nil|]. intros k v m Hk. exfalso.
    unfold index_map, index_columns in Hk. by rewrite E in Hk.
  - pose proof (sorted_hits query threshold idx Hwf) as HS. split_and!.
    + rewrite <- (take_drop (Z.to_nat topK)) in HS. by apply StronglySorted_app in HS as (_ & ? & _).
    + rewrite length_take. lia.
    + intros h Hh. apply elem_of_take in Hh as (i & Hh & _). apply list_elem_of_lookup_2 in Hh. rewrite merge_sort_Permutation in Hh.
      by apply index_hits_elem in Hh.
    + intros k v m Hk Ht. assert (hit_of query k v m ∈ merge_sort hit_le (index_hits query threshold idx)) as Hin.
      { rewrite merge_sort_Permutation. apply index_hits_elem; [done|]. split; [done|]. by exists k, v, m. }
      destruct (take_sorted_best _ (Z.to_nat topK) _ _ HS Hin) as [|[E ?]]; [by left|right]. rewrite E. split; [lia|done].
Qed.

Definition unit_vec (i : nat) : Vector := (fun j => if decide (i = j) then f64_of_Z 1 else f64_nil) <$> seq 0 3.
Definition demo_index : VectorIndex :=
  (Add "b" (unit_vec 1) ∅ (Remove "x" (Add "a" (unit_vec 0) ∅ (Add "x" (unit_vec 2) ∅ NewVectorIndex).2).2).2).2.
Lemma index_search_top_witness :
  vi_keys demo_index = ["a"; "b"] /\ StronglySorted hit_le (Search (unit_vec 1) 1 (f64_of_Z 0) demo_index) /\
  vh_Key <$> Search (unit_vec 1) 1 (f64_of_Z 0) demo_index = ["b"].
Proof.
  split_and!; [by vm_compute| |by vm_compute].
  refine (proj1 (index_search_top (unit_vec 1) 1 (f64_of_Z 0) demo_index _ _ _)); [|done|done].
  unfold demo_index. apply Add_refines; [|done]. apply Remove_refines. apply Add_refines; [|done].
  apply Add_refines; [apply NewVectorIndex_wf|done].
Defined.
