(* ===== verification/SessionMemory.v ===== *)
(** * Memory sessions (src/internal/memory/session.go, session_lru.go,
    session_ttl.go, session_search.go)

    A session's entries, its vector index and its links to the knowledge
    graph.  Every method holds the session's lock, so it is a function of the
    state; the embedding that [StoreCtx] computes before it takes the lock is
    an argument, and [ReindexVectors] is given in its two parts.  Time is in
    nanoseconds since 1970; a method reads the clock once. *)

From S2P Require Import Prelude GoStrings GoText GoTime GoFloat VectorIndex.
From Stdlib Require Import Ascii SpecFloat.

#[local] Open Scope string_scope.
#[local] Open Scope Z_scope.

(** ** Definitions *)

(** [time.Time{}], 1 January of year 1. *)
Definition zero_time : Z := - 62135596800 * Second.

Record MemoryEntry := mkEntry {
  me_ID : string;
  me_Key : string;
  me_Value : string;
  me_Type : string;
  me_Level : string;
  me_Score : float64;
  me_ExpiresAt : Z;
  me_AccessedAt : Z;
  me_CreatedAt : Z;
  me_Tags : list string;
  me_Source : string;
  me_Confidence : float64
}.
Record MemoryEdge := mkMemoryEdge { ge_Source : string; ge_Target : string; ge_Relation : string; ge_Weight : float64; ge_CreatedAt : Z }.
Record MemoryGraph := mkGraph { mg_Nodes : list MemoryEntry; mg_Edges : list MemoryEdge }.

Record SessionMemory := mkSession {
  ss_SessionID : string;
  ss_entries : gmap string MemoryEntry;
  ss_graph : MemoryGraph;
  ss_accessCount : Z;
  ss_maxEntries : Z;
  ss_createdAt : Z;
  ss_updatedAt : Z;
  ss_lastUsedAt : Z;
  ss_vectors : VectorIndex;
  ss_KGNodeRefs : gmap string (list string)
}.

Definition NewSessionMemory (now : Z) (sessionID : string) (maxEntries : Z) : SessionMemory :=
  mkSession sessionID ∅ (mkGraph [] []) 0 (if maxEntries <=? 0 then 5000 else maxEntries) now now now NewVectorIndex ∅.

Definition Touch (now : Z) (s : SessionMemory) : SessionMemory :=
  mkSession (ss_SessionID s) (ss_entries s) (ss_graph s) (ss_accessCount s) (ss_maxEntries s) (ss_createdAt s) (ss_updatedAt s)
    now (ss_vectors s) (ss_KGNodeRefs s).

Definition set_entries (es : gmap string MemoryEntry) (s : SessionMemory) : SessionMemory :=
  mkSession (ss_SessionID s) es (ss_graph s) (ss_accessCount s) (ss_maxEntries s) (ss_createdAt s) (ss_updatedAt s)
    (ss_lastUsedAt s) (ss_vectors s) (ss_KGNodeRefs s).
Definition set_updated (now : Z) (s : SessionMemory) : SessionMemory :=
  mkSession (ss_SessionID s) (ss_entries s) (ss_graph s) (ss_accessCount s) (ss_maxEntries s) (ss_createdAt s) now
    (ss_lastUsedAt s) (ss_vectors s) (ss_KGNodeRefs s).
Definition count_access (s : SessionMemory) : SessionMemory :=
  mkSession (ss_SessionID s) (ss_entries s) (ss_graph s) (ss_accessCount s + 1) (ss_maxEntries s) (ss_createdAt s) (ss_updatedAt s)
    (ss_lastUsedAt s) (ss_vectors s) (ss_KGNodeRefs s).
Definition set_vectors (v : VectorIndex) (s : SessionMemory) : SessionMemory :=
  mkSession (ss_SessionID s) (ss_entries s) (ss_graph s) (ss_accessCount s) (ss_maxEntries s) (ss_createdAt s) (ss_updatedAt s)
    (ss_lastUsedAt s) v (ss_KGNodeRefs s).
Definition set_refs (r : gmap string (list string)) (s : SessionMemory) : SessionMemory :=
  mkSession (ss_SessionID s) (ss_entries s) (ss_graph s) (ss_accessCount s) (ss_maxEntries s) (ss_createdAt s) (ss_updatedAt s)
    (ss_lastUsedAt s) (ss_vectors s) r.

(** An entry leaves all three indices. *)
Definition drop_key (key : string) (s : SessionMemory) : SessionMemory :=
  mkSession (ss_SessionID s) (delete key (ss_entries s)) (ss_graph s) (ss_accessCount s) (ss_maxEntries s) (ss_createdAt s)
    (ss_updatedAt s) (ss_lastUsedAt s) (VectorIndex.Remove key (ss_vectors s)).2 (delete key (ss_KGNodeRefs s)).

Definition expired (now : Z) (e : MemoryEntry) : bool := me_ExpiresAt e <? now.

Section session.
(** The order in which [range] visits the entries. *)
Context (range : gmap string MemoryEntry -> list (string * MemoryEntry)).

Definition cleanupExpiredLocked (now : Z) (s : SessionMemory) : SessionMemory :=
  fold_left (fun s e => if expired now e.2 then drop_key e.1 s else s) (range (ss_entries s)) s.

(** The loop's candidate: empty means none yet. *)
Definition older (best : string * Z) (e : string * MemoryEntry) : string * Z :=
  if bool_decide (best.1 = "") || (me_AccessedAt e.2 <? best.2) then (e.1, me_AccessedAt e.2) else best.
Definition evictLRULocked (s : SessionMemory) : SessionMemory :=
  let oldest := fold_left older (range (ss_entries s)) ("", zero_time) in
  if decide (oldest.1 <> "") then drop_key oldest.1 s else s.

Definition make_room (now : Z) (s : SessionMemory) : SessionMemory :=
  if ss_maxEntries s <=? Z.of_nat (size (ss_entries s)) then
    let s := cleanupExpiredLocked now s in
    if ss_maxEntries s <=? Z.of_nat (size (ss_entries s)) then evictLRULocked s else s
  else s.

Definition vector_meta (level memType sessionID : string) : metadata :=
  <["level" := level]> (<["type" := memType]> {["session_id" := sessionID]}).

Definition expiry (now : Z) (level : string) (ttlHours : Z) : Z :=
  if decide (level = "long") then now + 365 * 24 * Hour else now + wrap64 (ttlHours * Hour).

(** [vec] is the embedding, empty when there is no embedder or it failed. *)
Definition StoreCtx (now : Z) (vec : Vector) (key value level memType : string) (tags : list string) (ttlHours : Z)
    (confidence : float64) (source : string) (s : SessionMemory) : string * Z * SessionMemory :=
  let s := make_room now s in
  let expiresAt := expiry now level ttlHours in
  let entry := mkEntry ("entry_" +:+ Itoa now) key value memType level (f64_mul confidence (f64_of_Z 100)) expiresAt now now tags
    source confidence in
  let s := set_updated now (set_entries (<[key := entry]> (ss_entries s)) s) in
  let s := if decide (vec = []) then s
           else set_vectors (VectorIndex.Add key vec (vector_meta level memType (ss_SessionID s)) (ss_vectors s)).2 s in
  (me_ID entry, expiresAt, s).

Definition accessed (now : Z) (e : MemoryEntry) : MemoryEntry :=
  mkEntry (me_ID e) (me_Key e) (me_Value e) (me_Type e) (me_Level e) (me_Score e) (me_ExpiresAt e) now (me_CreatedAt e) (me_Tags e)
    (me_Source e) (me_Confidence e).
Definition Retrieve (now : Z) (key : string) (s : SessionMemory) : result MemoryEntry * SessionMemory :=
  match ss_entries s !! key with
  | None => (Err ("memory not found: " +:+ key), s)
  | Some entry =>
      if expired now entry then (Err ("memory expired: " +:+ key), drop_key key s) else
      let entry := accessed now entry in
      (Ok entry, set_updated now (count_access (set_entries (<[key := entry]> (ss_entries s)) s)))
  end.

Definition Delete (now : Z) (key : string) (s : SessionMemory) : option error * SessionMemory :=
  match ss_entries s !! key with
  | None => (Some ("memory not found: " +:+ key), s)
  | Some _ => (None, set_updated now (drop_key key s))
  end.

Definition forgets (level : string) (e : MemoryEntry) : bool := bool_decide (level = "") || bool_decide (me_Level e = level).
Definition Forget (now : Z) (level : string) (s : SessionMemory) : Z * SessionMemory :=
  let r := fold_left (fun (r : Z * SessionMemory) e => if forgets level e.2 then (r.1 + 1, drop_key e.1 r.2) else r)
    (range (ss_entries s)) (0, s) in
  (r.1, if 0 <? r.1 then set_updated now r.2 else r.2).

(** *** Statistics *)

Record MemoryStats := mkStats {
  mt_TotalEntries : Z; mt_ShortTermCount : Z; mt_MediumTermCount : Z; mt_LongTermCount : Z; mt_AvgConfidence : float64;
  mt_TotalAccesses : Z; mt_RetentionRate : float64; mt_EstimatedBytes : Z
}.
Definition str_len (s : string) : Z := Z.of_nat (String.length s).
Definition entry_bytes (e : MemoryEntry) : Z :=
  str_len (me_Key e) + str_len (me_Value e) + str_len (me_ID e) + str_len (me_Type e) + str_len (me_Level e) + str_len (me_Source e) +
  256 + fold_left (fun n t => n + str_len t) (me_Tags e) 0.
Definition count_level (level : string) (l : list MemoryEntry) : Z := Z.of_nat (length (filter (fun e => me_Level e = level) l)).
Definition GetStats (now : Z) (s : SessionMemory) : MemoryStats :=
  let live := filter (fun e => expired now e = false) (range (ss_entries s)).*2 in
  let count := Z.of_nat (length live) in
  let totalConfidence := fold_left (fun t e => f64_add t (me_Confidence e)) live f64_nil in
  mkStats count (count_level "short" live) (count_level "medium" live) (count_level "long" live)
    (if 0 <? count then f64_div totalConfidence (f64_of_Z count) else f64_nil)
    (ss_accessCount s) (f64_div (f64_of_Z count) (f64_of_Z (Z.of_nat (size (ss_entries s)) + 1)))
    (fold_left (fun n e => n + entry_bytes e) live 0).

(** *** Links to the knowledge graph *)

(** Names not seen yet, trimmed, in order. *)
Fixpoint new_names (seen : list string) (names : list string) : list string :=
  match names with
  | [] => []
  | n :: names =>
      let n := TrimSpace n in
      if decide (n = "" \/ n ∈ seen) then new_names seen names else n :: new_names (n :: seen) names
  end.
Definition LinkKGNode (key : string) (entityNames : list string) (s : SessionMemory) : option error * SessionMemory :=
  if decide (entityNames = []) then (None, s) else
  match ss_entries s !! key with
  | None => (Some ("cannot link KG node: memory not found: " +:+ key), s)
  | Some _ =>
      let existing := default [] (ss_KGNodeRefs s !! key) in
      match new_names existing entityNames with
      | [] => (None, s)
      | names => (None, set_refs (<[key := (existing ++ names)%list]> (ss_KGNodeRefs s)) s)
      end
  end.
Definition GetKGLinks (key : string) (s : SessionMemory) : list string := default [] (ss_KGNodeRefs s !! key).
Fixpoint dedup_from (seen : list string) (names : list string) : list string :=
  match names with
  | [] => []
  | n :: names => if decide (n ∈ seen) then dedup_from seen names else n :: dedup_from (n :: seen) names
  end.
Definition ExpandKGSubgraph (keys : list string) (s : SessionMemory) : list string :=
  dedup_from [] (k ← keys; GetKGLinks k s).

(** *** Search *)

Context (unicode_lower : string -> string).

Definition word_matches (textWords : list string) (qw : string) : bool :=
  existsb (fun tw => Contains tw qw || Contains qw tw) textWords.
Definition calculateSimilarity (query text : string) : float64 :=
  let queryWords := Fields (ToLower unicode_lower query) in
  let textWords := Fields (ToLower unicode_lower text) in
  if decide (queryWords = []) then f64_nil else
  let matches := Z.of_nat (length (filter (fun qw => word_matches textWords qw = true) queryWords)) in
  f64_div (f64_of_Z matches) (f64_of_Z (Z.of_nat (length queryWords))).

Definition with_score (score : float64) (e : MemoryEntry) : MemoryEntry :=
  mkEntry (me_ID e) (me_Key e) (me_Value e) (me_Type e) (me_Level e) score (me_ExpiresAt e) (me_AccessedAt e) (me_CreatedAt e)
    (me_Tags e) (me_Source e) (me_Confidence e).
Definition searchable (now : Z) (level : string) (e : MemoryEntry) : bool :=
  (bool_decide (level = "") || bool_decide (me_Level e = level)) && negb (expired now e).

(** The inner loop: position i takes each later element that is better. *)
Fixpoint exchange (x : MemoryEntry) (l : list MemoryEntry) : MemoryEntry * list MemoryEntry :=
  match l with
  | [] => (x, [])
  | y :: l =>
      if SFltb (me_Score x) (me_Score y)
      then let r := exchange y l in (r.1, x :: r.2)
      else let r := exchange x l in (r.1, y :: r.2)
  end.
Fixpoint exchange_sort (fuel : nat) (l : list MemoryEntry) : list MemoryEntry :=
  match fuel, l with
  | S fuel, x :: l => let r := exchange x l in r.1 :: exchange_sort fuel r.2
  | _, l => l
  end.

(** [l[:topK]] when the slice is longer; a negative bound panics. *)
Definition cut {A} (topK : Z) (l : list A) : option (list A) :=
  if topK <? Z.of_nat (length l) then (if topK <? 0 then None else Some (take (Z.to_nat topK) l)) else Some l.

Definition bag_matches (now : Z) (query level : string) (threshold : float64) (l : list MemoryEntry) : list MemoryEntry :=
  filter (fun e => searchable now level e = true /\ SFleb threshold (calculateSimilarity query (me_Value e)) = true) l.
Definition searchBagOfWords (now : Z) (query level : string) (topK : Z) (threshold : float64) (s : SessionMemory) : option (list MemoryEntry) :=
  let results := (fun e => with_score (f64_mul (calculateSimilarity query (me_Value e)) (f64_of_Z 100)) e) <$>
    bag_matches now query level threshold (range (ss_entries s)).*2 in
  cut topK (exchange_sort (length results) results).

Abbreviation scored := (MemoryEntry * float64)%type.
Definition scored_le (a b : scored) : Prop := ranked_before b.2 (me_Key b.1) a.2 (me_Key a.1) = false.
#[export] Instance scored_le_dec : RelDecision scored_le := fun a b => bool_eq_dec _ _.

(** Hits of the index that are entries still, with their keys. *)
Definition vector_matches (now : Z) (level : string) (hits : list VectorHit) (s : SessionMemory) : list (string * scored) :=
  omap (fun h => e ← ss_entries s !! vh_Key h;
    if searchable now level e then Some (vh_Key h, (with_score (f64_mul (vh_Score h) (f64_of_Z 100)) e, vh_Score h)) else None) hits.
(** Words for the entries without a hit. *)
Definition word_fallback (now : Z) (query level : string) (threshold : float64) (seen : list string) (l : list (string * MemoryEntry)) : list scored :=
  (fun e => let sim := calculateSimilarity query (me_Value e) in (with_score (f64_mul sim (f64_of_Z 100)) e, sim)) <$>
  bag_matches now query level threshold (filter (fun e => (e.1 ∉ seen)) l).*2.
Definition searchVector (now : Z) (qv : Vector) (query level : string) (topK : Z) (threshold : float64) (s : SessionMemory) : option (list MemoryEntry) :=
  let hits := VectorIndex.Search qv (wrap64 (topK * 2)) threshold (ss_vectors s) in
  let found := vector_matches now level hits s in
  let merged := (found.*2 ++ word_fallback now query level threshold found.*1 (range (ss_entries s)))%list in
  (fun l => l.*1) <$> cut topK (merge_sort scored_le merged).

(** [qv] is the embedding of the query, empty as for [StoreCtx]. *)
Definition SearchCtx (now : Z) (qv : Vector) (query level : string) (topK : Z) (threshold : float64) (s : SessionMemory) : option (list MemoryEntry) :=
  if decide (qv = []) then searchBagOfWords now query level topK threshold s
  else searchVector now qv query level topK threshold s.
End session.

(** [ReindexVectors]: the entries are copied under the lock, the vectors are
    added later, one by one, under the lock of the index only. *)
Definition reindex_snapshot (range : gmap string MemoryEntry -> list (string * MemoryEntry)) (s : SessionMemory) : list MemoryEntry :=
  (range (ss_entries s)).*2.
Definition reindex_add (embed : string -> Vector) (e : MemoryEntry) (s : SessionMemory) : SessionMemory :=
  let v := embed (me_Value e) in
  if decide (v = []) then s else set_vectors (VectorIndex.Add (me_Key e) v (vector_meta (me_Level e) (me_Type e) (ss_SessionID s)) (ss_vectors s)).2 s.

(** ** Theorems on memory sessions (src/internal/memory/session.go,
    session_lru.go, session_ttl.go, session_search.go) *)

(** ** Invariant *)

Record session_wf (s : SessionMemory) : Prop := {
  sw_index : index_wf (ss_vectors s);
  sw_vectors : dom (index_map (ss_vectors s)) ⊆ dom (ss_entries s);
  sw_refs : dom (ss_KGNodeRefs s) ⊆ dom (ss_entries s);
  sw_names : map_Forall (fun _ l => NoDup l /\ Forall (fun n => n <> "") l) (ss_KGNodeRefs s);
  sw_keys : map_Forall (fun k e => me_Key e = k) (ss_entries s);
  sw_max : 0 < ss_maxEntries s
}.
(** No entry has the empty key. *)
Definition named (s : SessionMemory) : Prop := ss_entries s !! "" = None.
Definition bounded (s : SessionMemory) : Prop := Z.of_nat (size (ss_entries s)) <= ss_maxEntries s.

Inductive session_op :=
  | SoTouch
  | SoStore (vec : Vector) (key value level memType : string) (tags : list string) (ttl : Z) (conf : float64) (source : string)
  | SoRetrieve (key : string) | SoDelete (key : string) | SoForget (level : string)
  | SoLink (key : string) (names : list string).

Definition op_named (op : session_op) : Prop :=
  match op with SoStore _ key _ _ _ _ _ _ _ => key <> "" | _ => True end.

Section session.
Context (range : gmap string MemoryEntry -> list (string * MemoryEntry)).

Definition session_exec (now : Z) (op : session_op) (s : SessionMemory) : SessionMemory :=
  match op with
  | SoTouch => Touch now s
  | SoStore vec key value level memType tags ttl conf source => (StoreCtx range now vec key value level memType tags ttl conf source s).2
  | SoRetrieve key => (Retrieve now key s).2
  | SoDelete key => (Delete now key s).2
  | SoForget level => (Forget range now level s).2
  | SoLink key names => (LinkKGNode key names s).2
  end.
(** Operations at the times of the clock. *)
Definition session_run (ops : list (Z * session_op)) (s : SessionMemory) : SessionMemory :=
  fold_left (fun s o => session_exec o.1 o.2 s) ops s.
End session.

Lemma drop_key_wf k s : session_wf s -> session_wf (drop_key k s).
Proof.
  intros [H1 H2 H3 H4 H5 H6]. destruct (Remove_refines k (ss_vectors s) H1) as [Hw Hm]. split; cbn; [done| | | | |done].
  - rewrite Hm, !dom_delete_L. set_solver.
  - rewrite !dom_delete_L. set_solver.
  - by apply map_Forall_delete.
  - by apply map_Forall_delete.
Qed.

(** Removing the entries of a visit that satisfy a test. *)
Definition drop_where (p : MemoryEntry -> bool) (l : list (string * MemoryEntry)) (s : SessionMemory) : SessionMemory :=
  fold_left (fun s e => if p e.2 then drop_key e.1 s else s) l s.
Lemma drop_where_cons p e l s : drop_where p (e :: l) s = drop_where p l (if p e.2 then drop_key e.1 s else s).
Proof. done. Qed.
Lemma drop_where_wf p l s : session_wf s -> session_wf (drop_where p l s).
Proof.
  revert s. induction l as [|e l IH]; intros s H; [done|]. rewrite drop_where_cons. apply IH. destruct (p e.2); [by apply drop_key_wf|done].
Qed.
Lemma drop_where_max p l s : ss_maxEntries (drop_where p l s) = ss_maxEntries s.
Proof. revert s. induction l as [|e l IH]; intros s; [done|]. rewrite drop_where_cons, IH. by destruct (p e.2). Qed.
Lemma drop_where_entries p l s k : ss_entries (drop_where p l s) !! k =
  if existsb (fun x => bool_decide (x.1 = k) && p x.2) l then None else ss_entries s !! k.
Proof.
  revert s. induction l as [|[k' e'] l IH]; intros s; [done|]. rewrite drop_where_cons, IH. cbn [fst snd existsb].
  destruct (existsb _ l); [by rewrite orb_true_r|]. rewrite orb_false_r. destruct (p e'); [|by rewrite andb_false_r].
  rewrite andb_true_r. cbn. case_bool_decide as E; [subst; by rewrite lookup_delete_eq|by rewrite lookup_delete_ne].
Qed.

Section ops.
Context (range : gmap string MemoryEntry -> list (string * MemoryEntry)).
Context (range_perm : forall m, range m ≡ₚ map_to_list m).

Lemma entries_visit m k e : (k, e) ∈ range m <-> m !! k = Some e.
Proof using range_perm. rewrite range_perm. apply elem_of_map_to_list. Qed.

(** A visit of all entries removes those that satisfy the test. *)
Lemma drop_all_entries p s k : ss_entries (drop_where p (range (ss_entries s)) s) !! k =
  match ss_entries s !! k with Some e => if p e then None else Some e | None => None end.
Proof using range_perm.
  rewrite drop_where_entries. destruct (existsb _ (range (ss_entries s))) eqn:Hd.
  - apply existsb_exists in Hd as ([k' e] & He%list_elem_of_In & Hp). apply entries_visit in He. cbn in Hp.
    apply andb_true_iff in Hp as [->%bool_decide_eq_true Hp]. by rewrite He, Hp.
  - destruct (ss_entries s !! k) as [e|] eqn:E; [|done]. destruct (p e) eqn:Hp; [|done].
    apply not_true_iff_false in Hd as []. apply existsb_exists. exists (k, e).
    rewrite <- list_elem_of_In, entries_visit. cbn. by rewrite bool_decide_true.
Qed.

(** *** Eviction *)

(** The choice of the least time, generic in where the time comes from. *)
Definition older_by {A} (t : string * A -> Z) (best : string * Z) (e : string * A) : string * Z :=
  if bool_decide (best.1 = "") || (t e <? best.2) then (e.1, t e) else best.
Lemma older_by_min {A} (t : string * A -> Z) l b : Forall (fun e => e.1 <> "") l -> b.1 <> "" ->
  let r := fold_left (older_by t) l b in
  (r = b \/ exists e, e ∈ l /\ r = (e.1, t e)) /\ r.2 <= b.2 /\ (forall e, e ∈ l -> r.2 <= t e).
Proof.
  revert b. induction l as [|e l IH]; intros b Hl Hb; cbn zeta.
  - cbn. split_and!; [by left|lia|]. intros e He. by apply not_elem_of_nil in He.
  - apply Forall_cons in Hl as [He Hl]. cbn [fold_left].
    assert (exists b', older_by t b e = b' /\ b'.1 <> "" /\ b'.2 <= b.2 /\ b'.2 <= t e /\ (b' = b \/ b' = (e.1, t e)))
      as (b' & -> & Hb' & L1 & L2 & Hc).
    { unfold older_by. rewrite bool_decide_false by done. cbn [orb]. destruct (Z.ltb_spec (t e) b.2); eexists;
        (split; [reflexivity|]); cbn; split_and!; auto; lia. }
    destruct (IH b' Hl Hb') as (G1 & G2 & G3). split_and!; [|lia|].
    + destruct G1 as [-> |(x & Hx & ->)]; [destruct Hc as [-> | ->]|]; [by left| |].
      * right. exists e. split; [by left|done].
      * right. exists x. split; [by right|done].
    + intros x [-> |Hx]%elem_of_cons; [lia|by apply G3].
Qed.
(** From no candidate: a least one of a list that is not empty. *)
Lemma older_by_first {A} (t : string * A -> Z) l z : Forall (fun e => e.1 <> "") l -> l <> [] ->
  exists e, e ∈ l /\ fold_left (older_by t) l ("", z) = (e.1, t e) /\ forall e', e' ∈ l -> t e <= t e'.
Proof.
  intros Hl Hne. destruct l as [|x l]; [done|]. apply Forall_cons in Hl as [Hx Hl]. cbn [fold_left].
  change (older_by t ("", z) x) with (x.1, t x). destruct (older_by_min t l (x.1, t x) Hl Hx) as (G1 & G2 & G3).
  cbn zeta in G1, G2, G3. destruct G1 as [E|(y & Hy & E)]; rewrite E in *.
  - exists x. split_and!; [by left|done|]. intros e' [-> |He']%elem_of_cons; [lia|by apply G3].
  - exists y. split_and!; [by right|done|]. intros e' [-> |He']%elem_of_cons; [done|by apply G3].
Qed.
(** The victim is an entry that was not accessed after any other. *)
Lemma evict_victim s : named s -> ss_entries s <> ∅ ->
  exists k e, ss_entries s !! k = Some e /\ evictLRULocked range s = drop_key k s /\
    forall k' e', ss_entries s !! k' = Some e' -> me_AccessedAt e <= me_AccessedAt e'.
Proof using range_perm.
  intros Hn Hne. unfold evictLRULocked.
  assert (Forall (fun e => e.1 <> "") (range (ss_entries s))) as Hl.
  { apply Forall_forall. intros [k e] He E. cbn in E. subst k. apply entries_visit in He. unfold named in Hn. congruence. }
  destruct (older_by_first (fun e : string * MemoryEntry => me_AccessedAt e.2) (range (ss_entries s)) zero_time Hl) as ([k e] & He & Er & Hmin).
  { intros E. apply Hne. apply map_eq. intros k. rewrite lookup_empty. apply eq_None_not_Some. intros [e He].
    apply entries_visit in He. rewrite E in He. by apply not_elem_of_nil in He. }
  change older with (older_by (fun e : string * MemoryEntry => me_AccessedAt e.2)). rewrite Er. cbn [fst].
  exists k, e. split; [by apply entries_visit|]. split.
  - rewrite decide_True; [done|]. rewrite Forall_forall in Hl. apply (Hl _ He).
  - intros k' e' He'. apply entries_visit in He'. apply (Hmin _ He').
Qed.
Lemma evict_wf s : session_wf s -> session_wf (evictLRULocked range s).
Proof. intros H. unfold evictLRULocked. case_decide; [by apply drop_key_wf|done]. Qed.
Lemma evict_max s : ss_maxEntries (evictLRULocked range s) = ss_maxEntries s.
Proof. unfold evictLRULocked. by case_decide. Qed.

Lemma cleanup_eq now s : cleanupExpiredLocked range now s = drop_where (expired now) (range (ss_entries s)) s.
Proof. done. Qed.
Lemma make_room_wf now s : session_wf s -> session_wf (make_room range now s).
Proof. intros H. unfold make_room. rewrite cleanup_eq. repeat case_match; auto using evict_wf, drop_where_wf. Qed.
Lemma make_room_max now s : ss_maxEntries (make_room range now s) = ss_maxEntries s.
Proof. unfold make_room. rewrite cleanup_eq. repeat case_match; rewrite ?evict_max; auto using drop_where_max. Qed.

(** What [make_room] removes. *)
Lemma make_room_cases now s : session_wf s -> named s -> bounded s ->
  let s' := make_room range now s in
  Z.of_nat (size (ss_entries s')) < ss_maxEntries s /\
  forall k, ss_entries s' !! k = ss_entries s !! k \/
    exists e, ss_entries s !! k = Some e /\ ss_entries s' !! k = None /\ Z.of_nat (size (ss_entries s)) = ss_maxEntries s /\
      (expired now e = true \/
       forall k' e', ss_entries s !! k' = Some e' -> expired now e' = false /\ me_AccessedAt e <= me_AccessedAt e').
Proof using range_perm.
  intros Hwf Hn Hb. unfold make_room. destruct (Z.leb_spec (ss_maxEntries s) (Z.of_nat (size (ss_entries s)))) as [Hf|Hf]; cbn zeta.
  2:{ split; [done|]. intros k. by left. }
  rewrite cleanup_eq, drop_where_max. set (s1 := drop_where _ _ s). unfold bounded in Hb.
  assert (forall k, ss_entries s1 !! k = match ss_entries s !! k with Some e => if expired now e then None else Some e | None => None end) as E1
    by (intros k; apply drop_all_entries).
  assert (ss_entries s1 ⊆ ss_entries s) as Hsub.
  { apply map_subseteq_spec. intros k e He. rewrite E1 in He. destruct (ss_entries s !! k); [|done]. by case_match. }
  destruct (Z.leb_spec (ss_maxEntries s) (Z.of_nat (size (ss_entries s1)))) as [Hf1|Hf1].
  - pose proof (map_subseteq_size _ _ Hsub) as Hle. assert (ss_entries s1 = ss_entries s) as Es.
    { apply map_subseteq_size_eq; [done|lia]. }
    destruct (evict_victim s1) as (k & e & Hk & -> & Hmin).
    { unfold named. by rewrite Es. }
    { intros E0. rewrite E0, map_size_empty in Hf1. pose proof (sw_max _ Hwf). lia. }
    rewrite Es in *. cbn [drop_key ss_entries]. rewrite Es. split.
    + rewrite map_size_delete, Hk. assert (size (ss_entries s) <> 0%nat); [|lia].
      intros E0%map_size_empty_inv. rewrite E0 in Hk. by rewrite lookup_empty in Hk.
    + intros k'. destruct (decide (k' = k)) as [->|Hne]; [right|left; by rewrite lookup_delete_ne].
      exists e. rewrite lookup_delete_eq. split_and!; [done..|lia|]. right. intros k' e' He'. split; [|by eapply Hmin].
      specialize (E1 k'). rewrite He' in E1. by destruct (expired now e').
  - split; [done|]. intros k. rewrite E1. destruct (ss_entries s !! k) as [e|]; [|by left].
    destruct (expired now e) eqn:Ee; [right|by left]. exists e. split_and!; [done..|lia|by left].
Qed.
(** What it removes from any session: what has expired, and one entry more. *)
Lemma make_room_loses now s : exists victim, forall k, ss_entries (make_room range now s) !! k = ss_entries s !! k \/
  exists e, ss_entries s !! k = Some e /\ ss_entries (make_room range now s) !! k = None /\
    ss_maxEntries s <= Z.of_nat (size (ss_entries s)) /\ (expired now e = true \/ k = victim).
Proof using range_perm.
  unfold make_room. destruct (Z.leb_spec (ss_maxEntries s) (Z.of_nat (size (ss_entries s)))) as [Hf|Hf]; [|exists ""; by left].
  cbn zeta. rewrite cleanup_eq. set (s1 := drop_where _ _ s).
  assert (forall k, ss_entries s1 !! k = match ss_entries s !! k with Some e => if expired now e then None else Some e | None => None end) as E1
    by (intros k; apply drop_all_entries).
  assert (exists victim, forall s2, s2 = s1 \/ s2 = evictLRULocked range s1 ->
    forall k, k <> victim -> ss_entries s2 !! k = ss_entries s1 !! k) as [victim Hv].
  { unfold evictLRULocked. case_decide as Hd; [|exists ""; by intros s2 [-> | ->]]. eexists. intros s2 [-> | ->] k Hk; [done|].
    by apply lookup_delete_ne. }
  exists victim. intros k. match goal with |- context [if ?c then _ else _] => set (s2 := if c then _ else _) end.
  assert (s2 = s1 \/ s2 = evictLRULocked range s1) as Hs2 by (unfold s2; destruct (_ <=? _); auto).
  specialize (Hv s2 Hs2 k). specialize (E1 k). destruct (decide (k = victim)) as [->|Hne].
  - assert (ss_entries s2 !! victim = None \/ ss_entries s2 !! victim = ss_entries s1 !! victim) as [E|E].
    { destruct Hs2 as [-> | ->]; [by right|]. unfold evictLRULocked. case_decide; [|by right]. cbn.
      destruct (decide (victim = (fold_left older (range (ss_entries s1)) ("", zero_time)).1)) as [->|]; [left; apply lookup_delete_eq|right; by apply lookup_delete_ne]. }
    + destruct (ss_entries s !! victim) as [e|]; [|by left]. right. exists e. auto.
    + rewrite E, E1. destruct (ss_entries s !! victim) as [e|]; [|by left]. destruct (expired now e) eqn:Ee; [|by left]. right. exists e. auto.
  - rewrite Hv, E1 by done. destruct (ss_entries s !! k) as [e|]; [|by left]. destruct (expired now e) eqn:Ee; [|by left]. right. exists e. auto.
Qed.
Lemma make_room_named now s : session_wf s -> named s -> bounded s -> named (make_room range now s).
Proof using range_perm.
  intros Hwf Hn Hb. destruct (make_room_cases now s Hwf Hn Hb) as [_ H]. unfold named in *.
  destruct (H "") as [-> |(e & _ & ? & _)]; done.
Qed.

(** *** Every operation *)

Lemma store_entries now vec key value level memType tags ttl conf source s :
  ss_entries (StoreCtx range now vec key value level memType tags ttl conf source s).2 =
  <[key := mkEntry ("entry_" +:+ Itoa now) key value memType level (f64_mul conf (f64_of_Z 100)) (expiry now level ttl) now now tags source conf]>
    (ss_entries (make_room range now s)).
Proof. unfold StoreCtx. cbn [snd]. by case_decide. Qed.
Lemma store_max now vec key value level memType tags ttl conf source s :
  ss_maxEntries (StoreCtx range now vec key value level memType tags ttl conf source s).2 = ss_maxEntries s.
Proof. unfold StoreCtx. cbn [snd]. rewrite <- (make_room_max now s). by case_decide. Qed.

Lemma store_wf now vec key value level memType tags ttl conf source s : session_wf s ->
  session_wf (StoreCtx range now vec key value level memType tags ttl conf source s).2.
Proof.
  clear range_perm. intros Hwf. unfold StoreCtx. cbn [snd]. apply (make_room_wf now) in Hwf as [H1 H2 H3 H4 H5 H6].
  assert (forall es, dom (make_room range now s).(ss_entries) ⊆ dom es -> map_Forall (fun k e => me_Key e = k) es ->
    session_wf (set_updated now (set_entries es (make_room range now s)))) as Hset.
  { intros es Hd Hk. split; cbn; [done|set_solver|set_solver|done..]. }
  match goal with |- context [set_entries ?x _] => set (es := x) end. specialize (Hset es).
  destruct Hset as [G1 G2 G3 G4 G5 G6].
  { unfold es. rewrite dom_insert_L. set_solver. }
  { by apply map_Forall_insert_2. }
  case_decide as Hv; [by split|]. set (s' := set_updated now (set_entries es (make_room range now s))) in *.
  destruct (Add_refines key vec (vector_meta level memType (ss_SessionID s')) (ss_vectors s') G1 Hv) as [W M].
  split; cbn [set_vectors ss_vectors ss_entries ss_KGNodeRefs ss_maxEntries]; [done| |done..].
  rewrite M, dom_insert_L. assert (key ∈ dom (ss_entries s')) by (apply elem_of_dom; cbn; unfold es; by rewrite lookup_insert_eq).
  set_solver.
Qed.

Lemma retrieve_wf now key s : session_wf s -> session_wf (Retrieve now key s).2.
Proof.
  clear range_perm. intros Hwf. unfold Retrieve. destruct (ss_entries s !! key) as [e|] eqn:E; [|done].
  destruct (expired now e); [by apply drop_key_wf|]. destruct Hwf as [H1 H2 H3 H4 H5 H6].
  split; cbn; [done|rewrite dom_insert_L; set_solver..|done| |done].
  apply map_Forall_insert_2; [|done]. apply (H5 key e E).
Qed.
Lemma new_names_ok seen names : NoDup seen -> Forall (fun n => n <> "") seen ->
  NoDup (seen ++ new_names seen names) /\ Forall (fun n => n <> "") (seen ++ new_names seen names).
Proof.
  clear range_perm. revert seen. induction names as [|n names IH]; intros seen Hn Hf; cbn; [by rewrite app_nil_r|].
  case_decide as Hd; [by apply IH|]. apply Decidable.not_or in Hd as [Hne Hni].
  destruct (IH (TrimSpace n :: seen)) as [G1 G2]; [by constructor..|].
  assert ((seen ++ TrimSpace n :: new_names (TrimSpace n :: seen) names)%list ≡ₚ
          ((TrimSpace n :: seen) ++ new_names (TrimSpace n :: seen) names)%list) as Hp by (cbn; by rewrite Permutation_middle).
  by rewrite Hp.
Qed.
Lemma link_wf key names s : session_wf s -> session_wf (LinkKGNode key names s).2.
Proof.
  clear range_perm. intros Hwf. unfold LinkKGNode. case_decide; [done|]. destruct (ss_entries s !! key) as [e|] eqn:E; [|done].
  destruct Hwf as [H1 H2 H3 H4 H5 H6].
  assert (NoDup (default [] (ss_KGNodeRefs s !! key)) /\ Forall (fun n => n <> "") (default [] (ss_KGNodeRefs s !! key))) as [N1 N2].
  { destruct (ss_KGNodeRefs s !! key) as [l|] eqn:El; cbn; [by apply (H4 key l El)|]. split; constructor. }
  pose proof (new_names_ok _ names N1 N2) as [G1 G2].
  destruct (new_names (default [] (ss_KGNodeRefs s !! key)) names) as [|n l]; [done|]. apply elem_of_dom_2 in E.
  split; cbn; [done|done|rewrite dom_insert_L; set_solver|by apply map_Forall_insert_2|done|done].
Qed.
Lemma forget_eq level s : (fold_left (fun (r : Z * SessionMemory) e => if forgets level e.2 then (r.1 + 1, drop_key e.1 r.2) else r)
    (range (ss_entries s)) (0, s)).2 = drop_where (forgets level) (range (ss_entries s)) s.
Proof.
  clear range_perm. generalize (range (ss_entries s)) as l, 0 as n. intros l. revert s. induction l as [|e l IH]; intros s n; [done|].
  rewrite drop_where_cons. cbn [fold_left]. by destruct (forgets level e.2); apply IH.
Qed.
Lemma updated_wf now s : session_wf s -> session_wf (set_updated now s).
Proof. intros [? ? ? ? ? ?]. by split. Qed.

Lemma exec_session_wf now op s : session_wf s -> session_wf (session_exec range now op s) /\
  ss_maxEntries (session_exec range now op s) = ss_maxEntries s.
Proof.
  intros Hwf. destruct op as [|vec key value level memType tags ttl conf source|key|key|level|key names]; cbn [session_exec].
  - split; [|done]. destruct Hwf. by split.
  - split; [by apply store_wf|apply store_max].
  - split; [by apply retrieve_wf|]. unfold Retrieve. by repeat case_match.
  - split; [unfold Delete; case_match; [by apply updated_wf, drop_key_wf|done]|]. unfold Delete. by case_match.
  - unfold Forget. cbn [snd]. rewrite forget_eq. split; [|case_match; apply drop_where_max].
    case_match; [apply updated_wf|]; by apply drop_where_wf.
  - split; [by apply link_wf|]. unfold LinkKGNode. by repeat case_match.
Qed.

(** Apart from storing, no operation adds an entry. *)
Lemma exec_no_growth now op s : (match op with SoStore _ _ _ _ _ _ _ _ _ => False | _ => True end) ->
  dom (ss_entries (session_exec range now op s)) ⊆ dom (ss_entries s).
Proof.
  clear range_perm. intros Hop. destruct op as [| |key|key|level|key names]; cbn [session_exec]; [done|done|..].
  - unfold Retrieve. destruct (ss_entries s !! key) as [e|] eqn:E; [|done]. apply elem_of_dom_2 in E.
    case_match; cbn; [rewrite dom_delete_L|rewrite dom_insert_L]; set_solver.
  - unfold Delete. case_match; cbn; [rewrite dom_delete_L|]; set_solver.
  - unfold Forget. cbn [snd]. rewrite forget_eq. assert (forall k, ss_entries (drop_where (forgets level) (range (ss_entries s)) s) !! k = None \/
      ss_entries (drop_where (forgets level) (range (ss_entries s)) s) !! k = ss_entries s !! k) as Hk.
    { intros k. rewrite drop_where_entries. case_match; auto. }
    assert (dom (ss_entries (drop_where (forgets level) (range (ss_entries s)) s)) ⊆ dom (ss_entries s)) as Hd.
    { intros k Hin. apply elem_of_dom in Hin as [e He]. destruct (Hk k) as [E|E]; rewrite E in He; [done|]. by apply elem_of_dom_2 in He. }
    by case_match.
  - unfold LinkKGNode. by repeat case_match.
Qed.
Lemma exec_bounded now op s : session_wf s -> named s -> bounded s -> op_named op ->
  named (session_exec range now op s) /\ bounded (session_exec range now op s).
Proof using range_perm.
  intros Hwf Hn Hb Hop. destruct (exec_session_wf now op s Hwf) as [_ Hm]. unfold bounded in *. rewrite Hm.
  assert ((exists vec key value level memType tags ttl conf source, op = SoStore vec key value level memType tags ttl conf source) \/
    dom (ss_entries (session_exec range now op s)) ⊆ dom (ss_entries s)) as [(vec & key & value & level & memType & tags & ttl & conf & source & ->)|Hd].
  { destruct op; try (right; by apply exec_no_growth). left. by repeat eexists. }
  - cbn [session_exec]. rewrite store_entries. destruct (make_room_cases now s Hwf Hn Hb) as [Hs _]. cbn in Hop. split.
    + unfold named. rewrite store_entries, lookup_insert_ne by done. by apply make_room_named.
    + rewrite map_size_insert. destruct (_ !! key); cbn zeta in Hs; unfold id; lia.
  - split.
    + unfold named in *. apply not_elem_of_dom. apply not_elem_of_dom in Hn. auto.
    + apply subseteq_size in Hd. rewrite !size_dom in Hd. lia.
Qed.
End ops.

Lemma new_session_ok now id max : session_wf (NewSessionMemory now id max) /\ named (NewSessionMemory now id max) /\ bounded (NewSessionMemory now id max).
Proof.
  assert (0 < ss_maxEntries (NewSessionMemory now id max)) as Hm by (cbn; destruct (Z.leb_spec max 0); lia).
  split_and!; [|done|].
  - split; [apply NewVectorIndex_wf|by cbn; rewrite !dom_empty_L|by cbn; rewrite !dom_empty_L|apply map_Forall_empty..|done].
  - unfold bounded. cbn in Hm |- *. rewrite map_size_empty. lia.
Qed.
Lemma session_run_ok range ops s : (forall m, range m ≡ₚ map_to_list m) -> Forall (fun o => op_named o.2) ops ->
  session_wf s /\ named s /\ bounded s -> let s' := session_run range ops s in session_wf s' /\ named s' /\ bounded s'.
Proof.
  intros Hr Hops. revert s. induction Hops as [|[t op] ops Hop Hops IH]; intros s (H1 & H2 & H3); [done|].
  cbn [session_run fold_left fst snd]. apply IH. split; [by apply exec_session_wf|]. by apply exec_bounded.
Qed.

(** whatever operations a session goes through, its vector index and its
    links to the knowledge graph name entries only, and as long as no entry
    has an empty key it never holds more entries than its limit. *)
Theorem session_invariant range now id max ops :
  (forall m, range m ≡ₚ map_to_list m) -> Forall (fun o => op_named o.2) ops ->
  let s := session_run range ops (NewSessionMemory now id max) in
  session_wf s /\ bounded s.
Proof.
  intros Hr Hops. destruct (session_run_ok range ops _ Hr Hops (new_session_ok now id max)) as (? & _ & ?). done.
Qed.
Definition visit_entries (m : gmap string MemoryEntry) : list (string * MemoryEntry) := map_to_list m.
Definition half : float64 := f64_div (f64_of_Z 1) (f64_of_Z 2).
Definition note (now ttl : Z) (vec : Vector) (key value : string) : Z * session_op :=
  (now, SoStore vec key value "short" "fact" [] ttl half "agent").
Definition demo_session_ops : list (Z * session_op) :=
  [note 10 1 (unit_vec 0) "a" "the sky is blue"; note 20 1 (unit_vec 1) "b" "grass is green"; (30, SoLink "a" ["sky"; " sky "]);
   (40, SoRetrieve "a"); note 50 1 [] "c" "snow is white"].
Lemma session_invariant_witness :
  session_wf (session_run visit_entries demo_session_ops (NewSessionMemory 0 "s" 2)) /\
  dom (ss_entries (session_run visit_entries demo_session_ops (NewSessionMemory 0 "s" 2))) = {["a"; "c"]}.
Proof.
  split; [|by vm_compute].
  refine (proj1 (session_invariant visit_entries 0 "s" 2 demo_session_ops _ _)); [by intros m|].
  by repeat (constructor; [done|]).
Defined.

(** ** Storing *)

(** C28: storing a value keeps it under its key.  Another entry is only lost
    when the session is full, and then it has expired or is the only one of
    those lost that has not.  In a session without an entry of the empty key,
    which the code takes for no entry, the limit is kept, and when none has
    expired the lost entry is the one that was accessed before all others; the
    session stays one of these unless the empty key is stored
    ([empty_key_exceeds_limit], [empty_key_evicts_recent]). *)
Theorem store_evicts_lru range now vec key value level memType tags ttl conf source s :
  (forall m, range m ≡ₚ map_to_list m) ->
  let s' := (StoreCtx range now vec key value level memType tags ttl conf source s).2 in
  (exists e, ss_entries s' !! key = Some e /\ me_Value e = value /\ me_ExpiresAt e = expiry now level ttl) /\
  (exists victim, forall k, k <> key -> ss_entries s' !! k = ss_entries s !! k \/
    exists e, ss_entries s !! k = Some e /\ ss_entries s' !! k = None /\ ss_maxEntries s <= Z.of_nat (size (ss_entries s)) /\
      (expired now e = true \/ k = victim)) /\
  (session_wf s -> named s -> bounded s -> bounded s' /\ (key <> "" -> named s') /\
   forall k, k <> key -> ss_entries s' !! k = ss_entries s !! k \/
    exists e, ss_entries s !! k = Some e /\ ss_entries s' !! k = None /\ Z.of_nat (size (ss_entries s)) = ss_maxEntries s /\
      (expired now e = true \/
       forall k' e', ss_entries s !! k' = Some e' -> expired now e' = false /\ me_AccessedAt e <= me_AccessedAt e')).
Proof.
  intros Hr. cbn zeta. split_and!.
  - eexists. rewrite store_entries, lookup_insert_eq. by split_and!.
  - destruct (make_room_loses range Hr now s) as [victim H]. exists victim. intros k Hne. rewrite store_entries, lookup_insert_ne by done. apply H.
  - intros Hwf Hn Hb. destruct (make_room_cases range Hr now s Hwf Hn Hb) as [Hs Hc]. cbn zeta in Hs. split_and!.
    + unfold bounded in *. rewrite store_max, store_entries, map_size_insert. destruct (_ !! key); unfold id; lia.
    + intros Hk. unfold named. rewrite store_entries, lookup_insert_ne by done. by apply make_room_named.
    + intros k Hne. rewrite store_entries, lookup_insert_ne by done. apply Hc.
Qed.
Definition full_session : SessionMemory :=
  session_run visit_entries [note 10 1 [] "a" "x"; note 20 1 [] "b" "y"; (30, SoRetrieve "a")] (NewSessionMemory 0 "s" 2).
Lemma store_evicts_lru_witness :
  (exists e, ss_entries (StoreCtx visit_entries 40 [] "c" "z" "short" "fact" [] 1 half "agent" full_session).2 !! "c" = Some e /\ me_Value e = "z") /\
  bounded (StoreCtx visit_entries 40 [] "c" "z" "short" "fact" [] 1 half "agent" full_session).2 /\
  ss_entries (StoreCtx visit_entries 40 [] "c" "z" "short" "fact" [] 1 half "agent" full_session).2 !! "b" = None.
Proof.
  destruct (store_evicts_lru visit_entries 40 [] "c" "z" "short" "fact" [] 1 half "agent" full_session ltac:(done))
    as ((e & He & Hv & _) & _ & Hlru).
  split; [by exists e|]. split; [|by vm_compute].
  refine (proj1 (Hlru _ _ _)).
  - apply (session_run_ok visit_entries); [done| |apply new_session_ok]. by repeat (constructor; [done|]).
  - by vm_compute.
  - by vm_compute.
Defined.

(** ** Search *)

Lemma exchange_perm x l : (exchange x l).1 :: (exchange x l).2 ≡ₚ x :: l.
Proof.
  revert x. induction l as [|y l IH]; intros x; [done|]. cbn. destruct (SFltb _ _); cbn.
  - by rewrite Permutation_swap, IH.
  - by rewrite Permutation_swap, IH, Permutation_swap.
Qed.
Lemma exchange_sort_perm n l : exchange_sort n l ≡ₚ l.
Proof.
  revert l. induction n as [|n IH]; intros [|x l]; try done. cbn. by rewrite IH, exchange_perm.
Qed.

(** Scores in decreasing order. *)
Definition score_ge (a b : MemoryEntry) : Prop := SFltb (me_Score a) (me_Score b) = false.
Definition has_score (e : MemoryEntry) : Prop := f64_is_nan (me_Score e) = false.
Lemma score_ge_trans a b c : has_score a -> has_score b -> has_score c -> score_ge a b -> score_ge b c -> score_ge a c.
Proof.
  unfold has_score, score_ge. intros Ha Hb Hc. rewrite !SFltb_rank by done. intros H1 H2.
  assert (rank_compare (f64_rank (me_Score c)) (f64_rank (me_Score b)) <> Gt /\
          rank_compare (f64_rank (me_Score b)) (f64_rank (me_Score a)) <> Gt) as [G1 G2].
  { rewrite (rank_compare_antisym (f64_rank (me_Score b))), (rank_compare_antisym (f64_rank (me_Score a))).
    by destruct (rank_compare (f64_rank (me_Score a)) _), (rank_compare (f64_rank (me_Score b)) _). }
  destruct (rank_compare_le _ _ _ G1 G2) as [G _]. rewrite rank_compare_antisym in G.
  by destruct (rank_compare (f64_rank (me_Score a)) (f64_rank (me_Score c))).
Qed.
Lemma score_ge_refl a : score_ge a a.
Proof.
  unfold score_ge, SFltb. destruct (f64_is_nan (me_Score a)) eqn:E; [by destruct (me_Score a)|].
  by rewrite SFcompare_rank, rank_compare_refl.
Qed.
Lemma score_lt_ge a b : SFltb (me_Score a) (me_Score b) = true -> has_score a -> has_score b -> score_ge b a.
Proof.
  unfold has_score, score_ge. intros H Ha Hb. rewrite SFltb_rank in H |- * by done. rewrite rank_compare_antisym.
  by destruct (rank_compare _ _).
Qed.
(** The inner loop leaves a best element in front. *)
Lemma exchange_best x l : has_score x -> Forall has_score l ->
  score_ge (exchange x l).1 x /\ Forall (score_ge (exchange x l).1) (exchange x l).2.
Proof.
  revert x. induction l as [|y l IH]; intros x Hx Hl; cbn; [split; [apply score_ge_refl|constructor]|].
  apply Forall_cons in Hl as [Hy Hl].
  assert (forall z, has_score z -> has_score (exchange z l).1) as Hs.
  { intros z Hz. assert (Forall has_score ((exchange z l).1 :: (exchange z l).2)) as Hf by (rewrite exchange_perm; by constructor).
    by apply Forall_cons in Hf as [? _]. }
  destruct (SFltb _ _) eqn:E; cbn.
  - destruct (IH y Hy Hl) as [G1 G2]. assert (score_ge (exchange y l).1 x) as G
      by (apply (score_ge_trans _ y); auto using score_lt_ge). split; [done|]. by constructor.
  - destruct (IH x Hx Hl) as [G1 G2]. split; [done|]. constructor; [|done]. apply (score_ge_trans _ x); auto.
Qed.
Lemma exchange_sort_sorted n l : (length l <= n)%nat -> Forall has_score l -> StronglySorted score_ge (exchange_sort n l).
Proof.
  revert l. induction n as [|n IH]; intros [|x l] Hn Hl; cbn in *; try constructor; try lia.
  - apply IH.
    + pose proof (Permutation_length (exchange_perm x l)) as Hp. cbn in Hp. lia.
    + rewrite <- exchange_perm in Hl. by apply Forall_cons in Hl as [_ ?].
  - apply Forall_cons in Hl as [Hx Hl]. rewrite exchange_sort_perm. by apply exchange_best.
Qed.

(** An entry as a search by words shows it. *)
Definition word_result (lower : string -> string) (query : string) (e : MemoryEntry) : MemoryEntry :=
  with_score (f64_mul (calculateSimilarity lower query (me_Value e)) (f64_of_Z 100)) e.
Definition word_hit (lower : string -> string) (now : Z) (query level : string) (threshold : float64) (e : MemoryEntry) : Prop :=
  searchable now level e = true /\ SFleb threshold (calculateSimilarity lower query (me_Value e)) = true.

Lemma words_have_scores lower now query level threshold l :
  Forall has_score (word_result lower query <$> bag_matches lower now query level threshold l).
Proof.
  apply Forall_forall. intros e He. apply list_elem_of_fmap in He as (e' & -> & He'). apply list_elem_of_filter in He' as [[_ Ht] _].
  apply SFleb_not_nan in Ht as [_ Ht]. unfold has_score, word_result. cbn [with_score me_Score].
  assert (exists m e, f64_of_Z 100 = S754_finite false m e) as (m & x & ->) by (vm_compute; eauto). by apply f64_mul_not_nan.
Qed.

(** a search by words that asks for topK results returns, best first, the
    entries of the level that have not expired and reach the threshold; what
    it leaves out scores no better than anything it returns. *)
Theorem search_words_top range lower now query level topK threshold s :
  (forall m, range m ≡ₚ map_to_list m) -> 0 <= topK ->
  exists r, searchBagOfWords range lower now query level topK threshold s = Some r /\
    StronglySorted score_ge r /\ Z.of_nat (length r) <= topK /\
    (forall x, x ∈ r -> exists k e, ss_entries s !! k = Some e /\ word_hit lower now query level threshold e /\ x = word_result lower query e) /\
    (forall k e, ss_entries s !! k = Some e -> word_hit lower now query level threshold e ->
       word_result lower query e ∈ r \/ (Z.of_nat (length r) = topK /\ forall x, x ∈ r -> score_ge x (word_result lower query e))).
Proof.
  intros Hr HK. unfold searchBagOfWords. change (fun e => with_score _ e) with (word_result lower query).
  set (l := word_result lower query <$> _). set (sorted := exchange_sort (length l) l).
  assert (StronglySorted score_ge sorted) as HS by (apply exchange_sort_sorted; [done|apply words_have_scores]).
  assert (forall x, x ∈ sorted <-> exists k e, ss_entries s !! k = Some e /\ word_hit lower now query level threshold e /\ x = word_result lower query e) as Hin.
  { intros x. unfold sorted, l. rewrite exchange_sort_perm, list_elem_of_fmap. unfold bag_matches, word_hit. setoid_rewrite list_elem_of_filter.
    setoid_rewrite list_elem_of_fmap. setoid_rewrite Hr. split.
    - intros (e & -> & Hh & [k e'] & -> & He). apply elem_of_map_to_list in He. by exists k, e'.
    - intros (k & e & He & Hh & ->). exists e. split; [done|]. split; [done|]. exists (k, e). split; [done|]. by apply elem_of_map_to_list. }
  assert (cut topK sorted = Some (take (Z.to_nat topK) sorted)) as ->.
  { unfold cut. destruct (Z.ltb_spec topK (Z.of_nat (length sorted))); [by rewrite (proj2 (Z.ltb_ge topK 0)) by lia|].
    by rewrite take_ge by lia. }
  eexists. split_and!; [done| |rewrite length_take; lia| |].
  - rewrite <- (take_drop (Z.to_nat topK)) in HS. by apply StronglySorted_app in HS as (_ & ? & _).
  - intros x Hx. apply elem_of_take in Hx as (i & Hx & _). apply list_elem_of_lookup_2 in Hx. by apply Hin.
  - intros k e He Hh. assert (word_result lower query e ∈ sorted) as Hx by (apply Hin; eauto).
    destruct (take_sorted_best _ (Z.to_nat topK) _ _ HS Hx) as [|[E ?]]; [by left|right]. rewrite E. split; [lia|done].
Qed.
Lemma search_words_top_witness : exists r,
  searchBagOfWords visit_entries (fun s => s) 60 "sky blue" "" 1 half
    (session_run visit_entries demo_session_ops (NewSessionMemory 0 "s" 5)) = Some r /\ StronglySorted score_ge r.
Proof.
  destruct (search_words_top visit_entries (fun s => s) 60 "sky blue" "" 1 half
    (session_run visit_entries demo_session_ops (NewSessionMemory 0 "s" 5)) (fun m => Permutation_refl _) (Z.le_0_1)) as (r & H1 & H2 & _).
  exists r. exact (conj H1 H2).
Defined.

(** *** With vectors *)

Lemma NoDup_fmap_filter {A B} (f : A -> B) (P : A -> Prop) `{!forall x, Decision (P x)} l : NoDup (f <$> l) -> NoDup (f <$> filter P l).
Proof.
  induction l as [|x l IH]; [done|]. rewrite fmap_cons, NoDup_cons. intros [Hx Hl]. rewrite filter_cons. case_decide; [|by apply IH].
  rewrite fmap_cons, NoDup_cons. split; [|by apply IH]. intros (y & Ey & [_ Hy]%list_elem_of_filter)%list_elem_of_fmap.
  apply Hx. rewrite Ey. by apply list_elem_of_fmap_2.
Qed.
Lemma NoDup_fmap_take {A B} (f : A -> B) n l : NoDup (f <$> l) -> NoDup (f <$> take n l).
Proof. rewrite <- (take_drop n l) at 1. rewrite fmap_app. by intros (? & _)%NoDup_app. Qed.

Lemma hits_nodup qv topK threshold idx : index_wf idx -> NoDup (vh_Key <$> VectorIndex.Search qv topK threshold idx).
Proof.
  intros Hwf. unfold VectorIndex.Search. case_decide; [constructor|]. apply NoDup_fmap_take. rewrite merge_sort_Permutation.
  apply index_wf_of in Hwf as (l & -> & Hnd). unfold index_hits. apply NoDup_fmap_filter.
  change (zip _ _) with (index_columns (index_of l)). rewrite columns_index_of, <- list_fmap_compose. done.
Qed.

Section vector_search.
Context (range : gmap string MemoryEntry -> list (string * MemoryEntry)) (lower : string -> string).
Context (now : Z) (query level : string) (threshold : float64) (s : SessionMemory).

Lemma vector_matches_elem hits k x sc : (k, (x, sc)) ∈ vector_matches now level hits s <->
  exists h e, h ∈ hits /\ vh_Key h = k /\ ss_entries s !! k = Some e /\ searchable now level e = true /\
    x = with_score (f64_mul (vh_Score h) (f64_of_Z 100)) e /\ sc = vh_Score h.
Proof.
  unfold vector_matches. rewrite list_elem_of_omap. split.
  - intros (h & Hh & H). destruct (ss_entries s !! vh_Key h) as [e|] eqn:E; cbn in H; [|done].
    destruct (searchable now level e) eqn:Es; [|done]. injection H as <- <- <-. by exists h, e.
  - intros (h & e & Hh & <- & He & Hs & -> & ->). exists h. rewrite He. cbn. by rewrite Hs.
Qed.
Lemma vector_matches_keys hits : NoDup (vh_Key <$> hits) -> NoDup (vector_matches now level hits s).*1.
Proof.
  induction hits as [|h hits IH]; [done|]. rewrite fmap_cons, NoDup_cons. intros [Hh Hnd]. unfold vector_matches in *. cbn.
  destruct (ss_entries s !! vh_Key h) as [e|]; cbn; [|by apply IH]. destruct (searchable now level e); cbn; [|by apply IH].
  apply NoDup_cons. split; [|by apply IH]. intros ([k [x sc]] & Ek' & Hin)%list_elem_of_fmap. cbn in Ek'.
  apply vector_matches_elem in Hin as (h' & e' & Hh' & Ek & _). apply Hh. rewrite Ek', <- Ek. by apply list_elem_of_fmap_2.
Qed.

Context (range_perm : forall m, range m ≡ₚ map_to_list m) (Hwf : session_wf s).

(** Everything that is merged comes from an entry, and no key comes twice. *)
Lemma merged_entries hits : NoDup (vh_Key <$> hits) ->
  let found := vector_matches now level hits s in
  let merged := (found.*2 ++ word_fallback lower now query level threshold found.*1 (range (ss_entries s)))%list in
  NoDup ((fun m => me_Key m.1) <$> merged) /\
  forall x sc, (x, sc) ∈ merged -> exists k e score, ss_entries s !! k = Some e /\ searchable now level e = true /\ x = with_score score e.
Proof using range_perm Hwf.
  intros Hnd found merged.
  assert ((fun m => me_Key m.1) <$> found.*2 = found.*1) as E1.
  { rewrite <- list_fmap_compose. apply list_fmap_ext. intros i [k [x sc]] Hi. apply list_elem_of_lookup_2 in Hi.
    apply vector_matches_elem in Hi as (h & e & _ & _ & He & _ & -> & _). cbn. apply (sw_keys _ Hwf k e He). }
  set (rest := filter (fun e : string * MemoryEntry => (e.1 ∉ found.*1)) (range (ss_entries s))).
  assert (me_Key <$> rest.*2 = rest.*1) as E2.
  { rewrite <- list_fmap_compose. apply list_fmap_ext. intros i [k e] Hi. apply list_elem_of_lookup_2, list_elem_of_filter in Hi as [_ Hi].
    rewrite range_perm in Hi. apply elem_of_map_to_list in Hi. apply (sw_keys _ Hwf k e Hi). }
  split.
  - unfold merged. rewrite fmap_app, E1. apply NoDup_app. split_and!; [by apply vector_matches_keys| |].
    + intros k Hk Hin. unfold word_fallback in Hin. fold rest in Hin. rewrite <- list_fmap_compose in Hin.
      apply list_elem_of_fmap in Hin as (e & -> & He). cbn in Hk. apply list_elem_of_filter in He as [_ He].
      assert (me_Key e ∈ rest.*1) as Hr by (rewrite <- E2; by apply list_elem_of_fmap_2).
      apply list_elem_of_fmap in Hr as ([k e'] & Ek & Hr). apply list_elem_of_filter in Hr as [Hr _]. cbn in Hr, Ek. by rewrite Ek in Hk.
    + unfold word_fallback. fold rest. rewrite <- list_fmap_compose. change (NoDup (me_Key <$> bag_matches lower now query level threshold rest.*2)).
      apply NoDup_fmap_filter. rewrite E2. unfold rest. apply NoDup_fmap_filter. rewrite range_perm. apply NoDup_fst_map_to_list.
  - intros x sc [H|H]%elem_of_app.
    + apply list_elem_of_fmap in H as ([k [x' sc']] & [= -> ->] & H). apply vector_matches_elem in H as (h & e & _ & _ & He & Hs & -> & _).
      by exists k, e, (f64_mul (vh_Score h) (f64_of_Z 100)).
    + unfold word_fallback in H. apply list_elem_of_fmap in H as (e & [= -> ->] & He). apply list_elem_of_filter in He as [[Hs _] He].
      apply list_elem_of_fmap in He as ([k e'] & -> & He). apply list_elem_of_filter in He as [_ He]. rewrite range_perm in He.
      apply elem_of_map_to_list in He. by eexists k, e', _.
Qed.
End vector_search.

(** a search with an embedding returns at most topK results, each an
    entry of the level that has not expired, none of them twice. *)
Theorem search_vector_sound range lower now qv query level topK threshold s :
  (forall m, range m ≡ₚ map_to_list m) -> session_wf s -> 0 <= topK ->
  exists r, searchVector range lower now qv query level topK threshold s = Some r /\ Z.of_nat (length r) <= topK /\
    NoDup (me_Key <$> r) /\
    forall x, x ∈ r -> exists k e score, ss_entries s !! k = Some e /\ searchable now level e = true /\ x = with_score score e.
Proof.
  intros Hr Hwf HK. unfold searchVector.
  destruct (merged_entries range lower now query level threshold s Hr Hwf (VectorIndex.Search qv (wrap64 (topK * 2)) threshold (ss_vectors s)))
    as [Hnd Hin]; [by apply hits_nodup, Hwf|]. cbn zeta in Hnd, Hin |- *.
  match type of Hnd with NoDup (_ <$> ?m) => set (merged := m) in * end.
  assert (cut topK (merge_sort scored_le merged) = Some (take (Z.to_nat topK) (merge_sort scored_le merged))) as ->.
  { unfold cut. destruct (Z.ltb_spec topK (Z.of_nat (length (merge_sort scored_le merged)))); [by rewrite (proj2 (Z.ltb_ge topK 0)) by lia|].
    by rewrite take_ge by lia. }
  eexists. split; [done|]. rewrite length_fmap, length_take. split_and!; [lia| |].
  - rewrite <- list_fmap_compose. change (NoDup ((fun m : MemoryEntry * float64 => me_Key m.1) <$> take (Z.to_nat topK) (merge_sort scored_le merged))).
    apply NoDup_fmap_take. by rewrite merge_sort_Permutation.
  - intros x Hx. apply list_elem_of_fmap in Hx as ([x' sc] & -> & Hx). apply elem_of_take in Hx as (i & Hx & _).
    apply list_elem_of_lookup_2 in Hx. rewrite merge_sort_Permutation in Hx. by apply (Hin x' sc).
Qed.
Lemma search_vector_sound_witness : exists r,
  searchVector visit_entries (fun s => s) 60 (unit_vec 0) "snow" "" 5 half
    (session_run visit_entries demo_session_ops (NewSessionMemory 0 "s" 5)) = Some r /\ NoDup (me_Key <$> r).
Proof.
  assert (session_wf (session_run visit_entries demo_session_ops (NewSessionMemory 0 "s" 5))) as Hwf.
  { apply (session_run_ok visit_entries); [done| |apply new_session_ok]. by repeat (constructor; [done|]). }
  destruct (search_vector_sound visit_entries (fun s => s) 60 (unit_vec 0) "snow" "" 5 half _ (fun m => Permutation_refl _) Hwf)
    as (r & H1 & _ & H2 & _); [done|]. exists r. exact (conj H1 H2).
Defined.

(** ** Where the code does not keep its word *)

(** Writing to a key that is there evicts another entry of a full session. *)
Theorem overwrite_evicts :
  dom (ss_entries full_session) = {["a"; "b"]} /\
  dom (ss_entries (StoreCtx visit_entries 40 [] "a" "x2" "short" "fact" [] 1 half "agent" full_session).2) = {["a"]}.
Proof. by vm_compute. Qed.

(** A value stored while the embedder fails is found under the vector of the
    value it replaced. *)
Definition stale_session : SessionMemory :=
  session_run visit_entries [note 10 1 (unit_vec 0) "k" "old text"; note 20 1 [] "k" "new words"] (NewSessionMemory 0 "s" 5).
Theorem stale_vector_found :
  (fun l : list MemoryEntry => (fun e => (me_Value e, SFeqb (me_Score e) (f64_of_Z 100))) <$> l) <$>
    searchVector visit_entries (fun s => s) 30 (unit_vec 0) "" "" 5 half stale_session = Some [("new words", true)].
Proof. by vm_compute. Qed.

(** A reindexing that overlaps with a deletion leaves a vector without an
    entry, and deleting the key again does not remove it. *)
Theorem reindex_leaves_vector :
  let s0 := session_run visit_entries [note 10 1 [] "k" "text"] (NewSessionMemory 0 "s" 5) in
  let copied := reindex_snapshot visit_entries s0 in
  let s1 := fold_left (fun s e => reindex_add (fun _ => unit_vec 0) e s) copied (session_exec visit_entries 20 (SoDelete "k") s0) in
  ss_entries s1 = ∅ /\ vi_keys (ss_vectors s1) = ["k"] /\ vi_keys (ss_vectors (session_exec visit_entries 30 (SoDelete "k") s1)) = ["k"].
Proof. by vm_compute. Qed.

(** An entry with the empty key is taken for no candidate: a session of one
    entry grows past its limit. *)
Theorem empty_key_exceeds_limit :
  let s := session_run visit_entries [note 10 1 [] "" "x"; note 20 1 [] "a" "y"] (NewSessionMemory 0 "s" 1) in
  ss_maxEntries s = 1 /\ size (ss_entries s) = 2%nat.
Proof. by vm_compute. Qed.

(** Visited in the middle it makes the loop start again: the entry that was
    accessed last of all is evicted. *)
Definition visit_a_first (m : gmap string MemoryEntry) : list (string * MemoryEntry) :=
  let l := map_to_list m in
  (filter (fun e => e.1 = "a") l ++ filter (fun e => e.1 = "") l ++ filter (fun e => e.1 <> "a" /\ e.1 <> "") l)%list.
Theorem empty_key_evicts_recent :
  let s := session_run visit_a_first [note 5 1 [] "" "x"; note 10 1 [] "a" "y"; note 20 1 [] "b" "z"] (NewSessionMemory 0 "s" 3) in
  dom (ss_entries (session_exec visit_a_first 30 (note 30 1 [] "c" "w").2 s)) = {[""; "a"; "c"]}.
Proof. by vm_compute. Qed.

(** An entry whose vector does not match is returned for its words. *)
Theorem words_override_vector :
  (fun l : list MemoryEntry => me_Value <$> l) <$> searchVector visit_entries (fun s => s) 30 (unit_vec 0) "blue" "" 5 half
    (session_run visit_entries [note 10 1 (unit_vec 1) "k" "blue"] (NewSessionMemory 0 "s" 5)) = Some ["blue"].
Proof. by vm_compute. Qed.
