(* ===== verification/SessionManager.v ===== *)
(** * The managers of memory sessions (src/internal/memory/session.go,
    session_lru.go, session_persist.go, session_sanitize.go,
    session_manager.go)

    A session is an object that callers keep pointers to: the store maps
    pointers to sessions and the manager maps names to pointers, so an evicted
    session can still be written through an old pointer.  Files hold JSON,
    whose encoding is a parameter; [io_ok] says which writes succeed.  The
    locks make every method of the memory manager a function of the state; the
    copying loops of [fork] and [Merge] are given without interleaving. *)

From S2P Require Import Prelude GoStrings GoText GoTime GoPath Idempotency GoFloat VectorIndex SessionMemory.
From Stdlib Require Import Ascii SpecFloat.

#[local] Open Scope string_scope.
#[local] Open Scope Z_scope.

(** ** Definitions *)

(** *** Session names *)

Definition id_char (c : ascii) : bool :=
  let n := N_of_ascii c in
  ((97 <=? n) && (n <=? 122) || (65 <=? n) && (n <=? 90) || (48 <=? n) && (n <=? 57) || (n =? 45) || (n =? 95))%N.
Definition sessionIDPattern (s : string) : bool :=
  (1 <=? String.length s)%nat && (String.length s <=? 128)%nat && str_forall id_char s.

(** FNV-1a with 128 bits, as [hash/fnv] has it. *)
Definition fnv_offset : Z := 0x6c62272e07bb014262b821756295c58d.
Definition fnv_prime : Z := 0x0000000001000000000000000000013B.
Fixpoint fnv1a (h : Z) (s : string) : Z :=
  match s with
  | "" => h
  | String c s => fnv1a ((Z.lxor h (Z.of_N (N_of_ascii c)) * fnv_prime) mod 2 ^ 128) s
  end.
(** The sum's bytes, the highest first. *)
Definition fnv_bytes (h : Z) : list Z := (fun i => (Z.shiftr h (8 * (15 - Z.of_nat i))) mod 256) <$> seq 0 16.

Definition sanitizeSessionID (sessionID : string) : string :=
  if sessionIDPattern sessionID then sessionID else "s_" +:+ hex (fnv_bytes (fnv1a fnv_offset sessionID)).

(** *** The memory manager *)

Record sessionData := mkSessionData {
  sd_SessionID : string;
  sd_Entries : option (gmap string MemoryEntry);
  sd_Graph : MemoryGraph;
  sd_AccessCount : Z;
  sd_MaxEntries : Z;
  sd_CreatedAt : Z;
  sd_UpdatedAt : Z;
  sd_LastUsedAt : Z;
  sd_KGNodeRefs : option (gmap string (list string))
}.

Record MemEnv := mkMemEnv {
  en_Marshal : sessionData -> result string;
  en_Unmarshal : string -> result sessionData;
  en_io_ok : string -> bool;
  en_range_sessions : gmap string nat -> list (string * nat);
  en_range_entries : gmap string MemoryEntry -> list (string * MemoryEntry);
  en_lower : string -> string
}.

Record Manager := mkMemManager {
  mm_store : gmap nat SessionMemory;
  mm_next : nat;
  mm_sessions : gmap string nat;
  mm_maxSessions : Z;
  mm_maxPerSession : Z;
  mm_storageDir : string;
  mm_globalAccess : Z;
  mm_files : gmap string string
}.

Definition NewSessionMemoryManager (storageDir : string) (maxSessions maxPerSession : Z) (files : gmap string string) : Manager :=
  mkMemManager ∅ 0 ∅ (if maxSessions <=? 0 then 100 else maxSessions) (if maxPerSession <=? 0 then 5000 else maxPerSession) storageDir 0 files.

Definition upd_session (p : nat) (s : SessionMemory) (m : Manager) : Manager :=
  mkMemManager (<[p := s]> (mm_store m)) (mm_next m) (mm_sessions m) (mm_maxSessions m) (mm_maxPerSession m) (mm_storageDir m)
    (mm_globalAccess m) (mm_files m).
Definition set_sessions (ss : gmap string nat) (m : Manager) : Manager :=
  mkMemManager (mm_store m) (mm_next m) ss (mm_maxSessions m) (mm_maxPerSession m) (mm_storageDir m) (mm_globalAccess m) (mm_files m).
Definition set_files (fs : gmap string string) (m : Manager) : Manager :=
  mkMemManager (mm_store m) (mm_next m) (mm_sessions m) (mm_maxSessions m) (mm_maxPerSession m) (mm_storageDir m) (mm_globalAccess m) fs.
(** A new session object under a name. *)
Definition alloc_session (id : string) (s : SessionMemory) (m : Manager) : nat * Manager :=
  (mm_next m, mkMemManager (<[mm_next m := s]> (mm_store m)) (S (mm_next m)) (<[id := mm_next m]> (mm_sessions m))
     (mm_maxSessions m) (mm_maxPerSession m) (mm_storageDir m) (mm_globalAccess m) (mm_files m)).

Definition sessionFilePath (m : Manager) (sessionID : string) : string := JoinPath (mm_storageDir m) ("session-" +:+ sessionID +:+ ".json").

Section manager.
Context (env : MemEnv).

Definition session_data (s : SessionMemory) : sessionData :=
  mkSessionData (ss_SessionID s) (Some (ss_entries s)) (ss_graph s) (ss_accessCount s) (ss_maxEntries s) (ss_createdAt s)
    (ss_updatedAt s) (ss_lastUsedAt s) (Some (ss_KGNodeRefs s)).

(** Errors are dropped; a failed write leaves the old file. *)
Definition saveSessionLocked (s : SessionMemory) (m : Manager) : Manager :=
  if decide (mm_storageDir m = "") then m else
  let path := sessionFilePath m (ss_SessionID s) in
  match en_Marshal env (session_data s) with
  | Err _ => m
  | Ok text => if en_io_ok env path then set_files (<[path := text]> (mm_files m)) m else m
  end.
Definition SaveAll (m : Manager) : Manager :=
  fold_left (fun m e => match mm_store m !! e.2 with Some s => saveSessionLocked s m | None => m end)
    (en_range_sessions env (mm_sessions m)) m.

Definition restore_session (sd : sessionData) (s : SessionMemory) : SessionMemory :=
  mkSession (ss_SessionID s) (default ∅ (sd_Entries sd)) (sd_Graph sd) (sd_AccessCount sd) (sd_MaxEntries sd) (sd_CreatedAt sd)
    (sd_UpdatedAt sd) (sd_LastUsedAt sd) (ss_vectors s) (default ∅ (sd_KGNodeRefs sd)).
Definition loadSessionLocked (m : Manager) (s : SessionMemory) : SessionMemory :=
  match mm_files m !! sessionFilePath m (ss_SessionID s) with
  | None => s
  | Some text => match en_Unmarshal env text with Err _ => s | Ok sd => restore_session sd s end
  end.

(** The loop's candidate: empty means none yet. *)
Definition older_session (st : gmap nat SessionMemory) (best : string * Z) (e : string * nat) : string * Z :=
  let lu := from_option ss_lastUsedAt 0 (st !! e.2) in
  if bool_decide (best.1 = "") || (lu <? best.2) then (e.1, lu) else best.
Definition oldest_session (m : Manager) : string :=
  (fold_left (older_session (mm_store m)) (en_range_sessions env (mm_sessions m)) ("", zero_time)).1.
Definition evictOldestLocked (m : Manager) : Manager :=
  let oldest := oldest_session m in
  if decide (oldest = "") then m else
  let m := match mm_sessions m !! oldest ≫= (mm_store m !!.) with Some s => saveSessionLocked s m | None => m end in
  set_sessions (delete oldest (mm_sessions m)) m.

Definition session_key (sessionID : string) : string := sanitizeSessionID (if decide (sessionID = "") then "default" else sessionID).

Definition GetSession (now : Z) (sessionID : string) (m : Manager) : nat * Manager :=
  let id := session_key sessionID in
  match mm_sessions m !! id with
  | Some p => (p, match mm_store m !! p with Some s => upd_session p (Touch now s) m | None => m end)
  | None =>
      let m := if mm_maxSessions m <=? Z.of_nat (size (mm_sessions m)) then evictOldestLocked m else m in
      let s := NewSessionMemory now id (mm_maxPerSession m) in
      let s := if decide (mm_storageDir m = "") then s else loadSessionLocked m s in
      alloc_session id s m
  end.

Definition DeleteSession (sessionID : string) (m : Manager) : Manager :=
  let id := session_key sessionID in
  let m := set_sessions (delete id (mm_sessions m)) m in
  if decide (mm_storageDir m = "") then m else
  let path := sessionFilePath m id in
  if en_io_ok env path then set_files (delete path (mm_files m)) m else m.

Definition ListSessions (m : Manager) : list string := (en_range_sessions env (mm_sessions m)).*1.

(** *** Across sessions *)

Record CrossManager := mkCross {
  cm_memMgr : Manager;
  cm_active : string;
  cm_parentLinks : gmap string string
}.
Definition sharedID : string := "__shared__".
Definition NewSessionManager (m : Manager) : CrossManager := mkCross m "" ∅.
Definition set_mem (m : Manager) (c : CrossManager) : CrossManager := mkCross m (cm_active c) (cm_parentLinks c).
Definition set_active (id : string) (c : CrossManager) : CrossManager := mkCross (cm_memMgr c) id (cm_parentLinks c).
Definition get_session (now : Z) (id : string) (c : CrossManager) : nat * CrossManager :=
  let r := GetSession now id (cm_memMgr c) in (r.1, set_mem r.2 c).

(** [time.Until(t).Hours()]. *)
Definition hours_until (now t : Z) : float64 :=
  let d := Sub t now in
  f64_add (f64_of_Z (Z.quot d Hour)) (f64_div (f64_of_Z (Z.rem d Hour)) (f64_of_Z Hour)).
Definition remaining_ttl (now : Z) (e : MemoryEntry) : Z :=
  if decide (me_ExpiresAt e = zero_time) then 24 else
  let remaining := hours_until now (me_ExpiresAt e) in
  if SFltb (f64_of_Z 1) remaining then f64_trunc remaining else 24.
Definition live_entries (now : Z) (s : SessionMemory) : list MemoryEntry :=
  filter (fun e => me_ExpiresAt e = zero_time \/ now < me_ExpiresAt e) (en_range_entries env (ss_entries s)).*2.

(** [embed] is the embedder of the target, empty results when it has none. *)
Definition store_copy (now : Z) (embed : string -> Vector) (s : SessionMemory) (e : MemoryEntry) : SessionMemory :=
  (StoreCtx (en_range_entries env) now (embed (me_Value e)) (me_Key e) (me_Value e) (me_Level e) (me_Type e) (me_Tags e)
    (remaining_ttl now e) (me_Confidence e) (me_Source e) s).2.
Definition copy_entries (now : Z) (embed : string -> Vector) (src : list MemoryEntry) (p : nat) (m : Manager) : Manager :=
  match mm_store m !! p with
  | Some s => upd_session p (fold_left (store_copy now embed) src s) m
  | None => m
  end.
(** What is live in the session at a pointer. *)
Definition live_at (now : Z) (p : nat) (m : Manager) : list MemoryEntry := from_option (live_entries now) [] (mm_store m !! p).

Definition fork (now : Z) (embed : string -> Vector) (parent child : string) (c : CrossManager) : CrossManager :=
  let '(p, c) := get_session now parent c in
  let '(q, c) := get_session now child c in
  let m := copy_entries now embed (live_at now p (cm_memMgr c)) q (cm_memMgr c) in
  mkCross m (cm_active c) (<[child := parent]> (cm_parentLinks c)).

Definition Create (now : Z) (embed : string -> Vector) (sessionID parent : string) (c : CrossManager) : result nat * CrossManager :=
  if decide (sessionID = "") then (Err "sessionID is required", c) else
  if decide (sessionID = sharedID) then (Err "sessionID is reserved", c) else
  let c := if decide (parent <> "" /\ parent <> sessionID) then fork now embed parent sessionID c else c in
  let r := get_session now sessionID (set_active sessionID c) in
  (Ok r.1, r.2).

Definition Switch (now : Z) (sessionID : string) (c : CrossManager) : result nat * CrossManager :=
  if decide (sessionID = "") then (Err "sessionID is required", c) else
  match mm_sessions (cm_memMgr c) !! sessionID with
  | None => (Err "session not found", c)
  | Some _ => let r := get_session now sessionID (set_active sessionID c) in (Ok r.1, r.2)
  end.

Definition List_ (c : CrossManager) : list string := filter (fun id => id <> sharedID) (ListSessions (cm_memMgr c)).

Definition Delete_ (sessionID : string) (c : CrossManager) : option error * CrossManager :=
  if decide (sessionID = sharedID) then (Some "cannot delete the shared namespace", c) else
  (None, mkCross (DeleteSession sessionID (cm_memMgr c)) (if decide (cm_active c = sessionID) then "" else cm_active c)
           (delete sessionID (cm_parentLinks c))).

Definition default_ttl (level : string) : Z :=
  if decide (level = "long") then 365 * 24 else if decide (level = "medium") then 24 * 7 else 24.
Definition StoreShared (now : Z) (embed : string -> Vector) (key value level memType : string) (tags : list string) (ttlHours : Z)
    (confidence : float64) (source : string) (c : CrossManager) : option (string * Z) * CrossManager :=
  let ttl := if ttlHours <=? 0 then default_ttl level else ttlHours in
  let '(p, c) := get_session now sharedID c in
  match mm_store (cm_memMgr c) !! p with
  | Some s =>
      let r := StoreCtx (en_range_entries env) now (embed value) key value level memType tags ttl confidence source s in
      (Some r.1, set_mem (upd_session p r.2 (cm_memMgr c)) c)
  | None => (None, c)
  end.

(** [GetSession(id).Retrieve(key)]. *)
Definition retrieve_in (now : Z) (id key : string) (c : CrossManager) : result MemoryEntry * CrossManager :=
  let '(p, c) := get_session now id c in
  match mm_store (cm_memMgr c) !! p with
  | Some s => let r := Retrieve now key s in (r.1, set_mem (upd_session p r.2 (cm_memMgr c)) c)
  | None => (Err ("memory not found: " +:+ key), c)
  end.
Definition RetrieveShared (now : Z) (key : string) (c : CrossManager) : result MemoryEntry * CrossManager := retrieve_in now sharedID key c.
Definition RetrieveWithFallback (now : Z) (sessionID key : string) (c : CrossManager) : result MemoryEntry * CrossManager :=
  if decide (sessionID = "") then RetrieveShared now key c else
  match retrieve_in now sessionID key c with
  | (Ok e, c) => (Ok e, c)
  | (Err _, c) => RetrieveShared now key c
  end.

Definition Merge (now : Z) (embed : string -> Vector) (src dst : string) (c : CrossManager) : result Z * CrossManager :=
  if decide (src = "" \/ dst = "") then (Err "src and dst are required", c) else
  if decide (src = dst) then (Err "src and dst must differ", c) else
  let '(p, c) := get_session now src c in
  let '(q, c) := get_session now dst c in
  let entries := live_at now p (cm_memMgr c) in
  (Ok (Z.of_nat (length entries)), set_mem (copy_entries now embed entries q (cm_memMgr c)) c).

Definition Parent (sessionID : string) (c : CrossManager) : string := default "" (cm_parentLinks c !! sessionID).

(** Results of the session first, then the shared ones, each key once. *)
Fixpoint first_of_key (seen : list string) (l : list MemoryEntry) : list MemoryEntry :=
  match l with
  | [] => []
  | e :: l => if decide (me_Key e ∈ seen) then first_of_key seen l else e :: first_of_key (me_Key e :: seen) l
  end.
Definition search_in (now : Z) (qv : Vector) (id query level : string) (topK : Z) (threshold : float64) (c : CrossManager)
    : option (list MemoryEntry) * CrossManager :=
  let '(p, c) := get_session now id c in
  (match mm_store (cm_memMgr c) !! p with
   | Some s => SearchCtx (en_range_entries env) (en_lower env) now qv query level topK threshold s
   | None => Some []
   end, c).
Definition SearchAcross (now : Z) (qv qv' : Vector) (sessionID query level : string) (topK : Z) (threshold : float64) (c : CrossManager)
    : option (list MemoryEntry) * CrossManager :=
  let '(own, c) := if decide (sessionID = "") then (Some [], c) else search_in now qv sessionID query level topK threshold c in
  let '(shared, c) := search_in now qv' sharedID query level topK threshold c in
  (a ← own; b ← shared; cut topK (first_of_key [] (a ++ b)), c).
End manager.
