(* ===== verification/SessionManagerProofs.v ===== *)
(** * Theorems on the managers of memory sessions (src/internal/memory:
    session.go, session_lru.go, session_persist.go, session_sanitize.go,
    session_manager.go) *)

From S2P Require Import Prelude GoStrings GoText GoTime GoPath GoPathProofs Idempotency GoFloat VectorIndex.
From S2P Require Import SessionMemory SessionManager.
From Stdlib Require Import Ascii SpecFloat.

#[local] Open Scope string_scope.
#[local] Open Scope Z_scope.

(** ** Names and files *)

Lemma hex_byte_ok b : 0 <= b < 256 -> str_forall id_char (hex_byte b) = true /\ String.length (hex_byte b) = 2%nat.
Proof.
  intros Hb. split; [|done].
  assert (forallb (fun b => str_forall id_char (hex_byte (Z.of_nat b))) (seq 0 256) = true) as H by (by vm_compute).
  rewrite forallb_forall in H. rewrite <- (Z2Nat.id b) by lia. apply H. apply in_seq. lia.
Qed.
Lemma hex_ok l : Forall (fun b => 0 <= b < 256) l ->
  str_forall id_char (hex l) = true /\ String.length (hex l) = (2 * length l)%nat.
Proof.
  unfold hex. induction 1 as [|b l Hb Hl [IH1 IH2]]; [done|]. destruct (hex_byte_ok b Hb) as [H1 H2].
  assert (String.concat "" (map hex_byte (b :: l)) = hex_byte b +:+ String.concat "" (map hex_byte l)) as ->
    by (cbn; destruct (map hex_byte l); cbn; by rewrite ?string_app_nil_r).
  rewrite str_forall_app, string_length_app, H1, H2, IH1, IH2. split; [done|]. cbn. lia.
Qed.
Lemma fnv_bytes_range h : Forall (fun b => 0 <= b < 256) (fnv_bytes h).
Proof. apply Forall_fmap, Forall_forall. intros i _. cbn. apply Z.mod_pos_bound. lia. Qed.

Lemma sanitize_ok id : sessionIDPattern (sanitizeSessionID id) = true.
Proof.
  unfold sanitizeSessionID. destruct (sessionIDPattern id) eqn:E; [done|].
  destruct (hex_ok _ (fnv_bytes_range (fnv1a fnv_offset id))) as [H1 H2]. unfold sessionIDPattern.
  rewrite str_forall_app, string_length_app, H1, H2. by cbn.
Qed.
Lemma sanitize_id id : sessionIDPattern id = true -> sanitizeSessionID id = id.
Proof. unfold sanitizeSessionID. by intros ->. Qed.
Lemma pattern_not_empty id : sessionIDPattern id = true -> id <> "".
Proof. by intros H ->. Qed.

Lemma id_char_no_slash s : str_forall id_char s = true -> str_has "/" s = false.
Proof. intros H. by apply (str_forall_has id_char). Qed.

Definition session_file (id : string) : string := "session-" +:+ id +:+ ".json".
Lemma session_file_name id : sessionIDPattern id = true -> file_name (session_file id).
Proof.
  intros H. unfold sessionIDPattern in H. apply andb_true_iff in H as [_ H]. split_and!; try done.
  unfold session_file. rewrite !str_has_app, (id_char_no_slash id H). done.
Qed.
Lemma session_path_elems m id : IsAbs (mm_storageDir m) = true -> sessionIDPattern id = true ->
  clean_elems (sessionFilePath m id) = (clean_elems (mm_storageDir m) ++ [session_file id])%list.
Proof.
  intros Ha Hp. assert (mm_storageDir m <> "") as Hne by (intros E; by rewrite E in Ha).
  unfold sessionFilePath, JoinPath. change ("session-" +:+ id +:+ ".json") with (session_file id).
  rewrite clean_elems_Clean by (by rewrite IsAbs_snoc). apply clean_elems_snoc; [done|by apply session_file_name].
Qed.
Lemma session_path_inj m m' id id' : mm_storageDir m = mm_storageDir m' -> IsAbs (mm_storageDir m) = true ->
  sessionIDPattern id = true -> sessionIDPattern id' = true -> sessionFilePath m id = sessionFilePath m' id' -> id = id'.
Proof.
  intros Hd Ha H H' E. apply (f_equal clean_elems) in E. rewrite !session_path_elems, <- Hd in E by (done || by rewrite <- Hd).
  apply app_inv_head in E. injection E as E. by apply string_app_inj_r in E.
Qed.

(** whatever identifier a caller gives, the session's file lies directly
    in the storage directory under a name without separators, and two
    identifiers share a file only if they name the same session. *)
Theorem session_files_confined m x y : IsAbs (mm_storageDir m) = true ->
  clean_elems (sessionFilePath m (session_key x)) = (clean_elems (mm_storageDir m) ++ [session_file (session_key x)])%list /\
  file_name (session_file (session_key x)) /\
  (sessionFilePath m (session_key x) = sessionFilePath m (session_key y) -> session_key x = session_key y).
Proof.
  intros Ha. pose proof (sanitize_ok (if decide (x = "") then "default" else x)) as Hx.
  pose proof (sanitize_ok (if decide (y = "") then "default" else y)) as Hy.
  split_and!; [by apply session_path_elems|apply session_file_name, Hx|apply session_file_name, Hx..|].
  by apply session_path_inj.
Qed.
Definition demo_manager_at (dir : string) : Manager := NewSessionMemoryManager dir 2 10 ∅.
Lemma session_files_confined_witness :
  session_key "x/../../victim" = "s_" +:+ hex (fnv_bytes (fnv1a fnv_offset "x/../../victim")) /\
  clean_elems (sessionFilePath (demo_manager_at "/var/mem") (session_key "x/../../victim")) =
    ["var"; "mem"; session_file (session_key "x/../../victim")].
Proof.
  split; [by vm_compute|].
  refine (proj1 (session_files_confined (demo_manager_at "/var/mem") "x/../../victim" "y" _)). by vm_compute.
Defined.

(** ** Invariant of the memory manager *)

Record manager_ok (m : Manager) : Prop := {
  mk_max : 0 < mm_maxSessions m;
  mk_size : Z.of_nat (size (mm_sessions m)) <= mm_maxSessions m;
  mk_fresh : forall p s, mm_store m !! p = Some s -> (p < mm_next m)%nat;
  mk_names : forall id p, mm_sessions m !! id = Some p ->
    sessionIDPattern id = true /\ exists s, mm_store m !! p = Some s /\ ss_SessionID s = id
}.

(** Steps of callers: they hold pointers, to evicted sessions as well. *)
Inductive mem_step (env : MemEnv) : Manager -> Manager -> Prop :=
| ms_get now id m : mem_step env m (GetSession env now id m).2
| ms_delete id m : mem_step env m (DeleteSession env id m)
| ms_save m : mem_step env m (SaveAll env m)
| ms_session now p s op m : mm_store m !! p = Some s ->
    mem_step env m (upd_session p (session_exec (en_range_entries env) now op s) m).

Class RangeLaws (env : MemEnv) : Prop := {
  rl_sessions m : en_range_sessions env m ≡ₚ map_to_list m;
  rl_entries m : en_range_entries env m ≡ₚ map_to_list m
}.

(** Operations of a session keep its name. *)
Lemma drop_where_id p l s : ss_SessionID (drop_where p l s) = ss_SessionID s.
Proof. revert s. induction l as [|e l IH]; intros s; [done|]. rewrite drop_where_cons, IH. by destruct (p e.2). Qed.
Lemma exec_session_id range now op s : ss_SessionID (session_exec range now op s) = ss_SessionID s.
Proof.
  destruct op as [|vec key value level memType tags ttl conf source|key|key|level|key names]; cbn [session_exec]; [done| | | | |].
  - unfold StoreCtx. cbn [snd]. assert (ss_SessionID (make_room range now s) = ss_SessionID s) as E.
    { unfold make_room, evictLRULocked. rewrite cleanup_eq. repeat case_match; cbn; by rewrite ?drop_where_id. }
    case_decide; cbn; exact E.
  - unfold Retrieve. by repeat case_match.
  - unfold Delete. by case_match.
  - unfold Forget. cbn [snd]. rewrite forget_eq. case_match; cbn; apply drop_where_id.
  - unfold LinkKGNode. by repeat case_match.
Qed.

Section manager.
Context (env : MemEnv) `{HR : !RangeLaws env}.

(** Saving changes files only. *)
Definition same_but_files (m m' : Manager) : Prop := m' = set_files (mm_files m') m.
Lemma save_files s m : same_but_files m (saveSessionLocked env s m).
Proof. unfold saveSessionLocked, same_but_files. repeat case_match; by destruct m. Qed.
Lemma same_files_ok m m' : same_but_files m m' -> manager_ok m -> manager_ok m'.
Proof. intros -> [? ? ? ?]. by split. Qed.
Lemma save_all_files m : same_but_files m (SaveAll env m).
Proof.
  unfold SaveAll. generalize (en_range_sessions env (mm_sessions m)) as l. intros l.
  assert (forall m0 : Manager, same_but_files m m0 -> same_but_files m (fold_left (fun m e => match mm_store m !! e.2 with
    Some s => saveSessionLocked env s m | None => m end) l m0)) as H; [|apply H; by destruct m].
  induction l as [|e l IH]; intros m0 H0; [done|]. cbn [fold_left]. apply IH. case_match; [|done].
  pose proof (save_files s m0) as Hs. unfold same_but_files in *. rewrite Hs. by rewrite H0.
Qed.

Lemma upd_ok p s s' m : mm_store m !! p = Some s -> ss_SessionID s' = ss_SessionID s -> manager_ok m -> manager_ok (upd_session p s' m).
Proof.
  intros Hp Hid [H1 H2 H3 H4]. split; cbn; [done..| |].
  - intros q t Hq. apply lookup_insert_Some in Hq as [[<- _]|[_ Hq]]; eauto.
  - intros id q Hq. destruct (H4 id q Hq) as (Hn & t & Ht & E). split; [done|]. destruct (decide (q = p)) as [->|].
    + exists s'. rewrite lookup_insert_eq. split; [done|]. congruence.
    + exists t. by rewrite lookup_insert_ne.
Qed.
Lemma drop_session_ok x m : manager_ok m -> manager_ok (set_sessions (delete x (mm_sessions m)) m).
Proof.
  intros [H1 H2 H3 H4]. split; cbn; [done| |done|].
  - rewrite map_size_delete. destruct (_ !! x); unfold id; lia.
  - intros i p Hp. apply lookup_delete_Some in Hp as [_ Hp]. eauto.
Qed.

(** The victim of an eviction was not used after any other session. *)
Lemma oldest_is_least m : manager_ok m -> mm_sessions m <> ∅ ->
  exists p s, mm_sessions m !! oldest_session env m = Some p /\ mm_store m !! p = Some s /\ oldest_session env m <> "" /\
    forall id q t, mm_sessions m !! id = Some q -> mm_store m !! q = Some t -> ss_lastUsedAt s <= ss_lastUsedAt t.
Proof using HR.
  intros [H1 H2 H3 H4] Hne. unfold oldest_session.
  set (t := fun e : string * nat => from_option ss_lastUsedAt 0 (mm_store m !! e.2)).
  assert (Forall (fun e => e.1 <> "") (en_range_sessions env (mm_sessions m))) as Hl.
  { rewrite rl_sessions. apply Forall_forall. intros [id p] He. apply elem_of_map_to_list in He. destruct (H4 id p He) as [Hp _].
    by apply pattern_not_empty. }
  destruct (older_by_first t (en_range_sessions env (mm_sessions m)) zero_time Hl) as ([id p] & He & Er & Hmin).
  { intros E. apply Hne. apply map_to_list_empty_iff. apply Permutation_nil_r. by rewrite <- rl_sessions, E. }
  change (older_session (mm_store m)) with (older_by t). rewrite Er. cbn [fst].
  rewrite Forall_forall in Hl. pose proof (Hl _ He) as Hid. rewrite rl_sessions in He. apply elem_of_map_to_list in He.
  destruct (H4 id p He) as (_ & s & Hs & _). exists p, s. split_and!; [done..|]. intros id' q u Hq Hu.
  assert ((id', q) ∈ en_range_sessions env (mm_sessions m)) as Hin by (rewrite rl_sessions; by apply elem_of_map_to_list).
  specialize (Hmin _ Hin). unfold t in Hmin. cbn in Hmin. by rewrite Hs, Hu in Hmin.
Qed.

(** What eviction does. *)
Lemma evict_spec m : manager_ok m -> mm_sessions m <> ∅ ->
  exists p s, mm_sessions m !! oldest_session env m = Some p /\ mm_store m !! p = Some s /\
    evictOldestLocked env m = set_sessions (delete (oldest_session env m) (mm_sessions m)) (saveSessionLocked env s m).
Proof using HR.
  intros Hm Hne. destruct (oldest_is_least m Hm Hne) as (p & s & Hp & Hs & Ho & _). exists p, s. split_and!; [done..|].
  unfold evictOldestLocked. rewrite decide_False by done. rewrite Hp. cbn. rewrite Hs.
  f_equal. pose proof (save_files s m) as E. by rewrite E.
Qed.
Lemma evict_ok m : manager_ok m -> manager_ok (evictOldestLocked env m) /\
  (mm_sessions m <> ∅ -> (size (mm_sessions (evictOldestLocked env m)) < size (mm_sessions m))%nat) /\
  mm_maxSessions (evictOldestLocked env m) = mm_maxSessions m /\ mm_maxPerSession (evictOldestLocked env m) = mm_maxPerSession m /\
  mm_storageDir (evictOldestLocked env m) = mm_storageDir m /\ mm_store (evictOldestLocked env m) = mm_store m /\
  mm_next (evictOldestLocked env m) = mm_next m /\ mm_sessions (evictOldestLocked env m) ⊆ mm_sessions m.
Proof using HR.
  intros Hm. destruct (decide (mm_sessions m = ∅)) as [E|Hne].
  - assert (evictOldestLocked env m = m) as ->.
    { unfold evictOldestLocked, oldest_session. rewrite E. assert (en_range_sessions env ∅ = []) as ->; [|done].
      apply Permutation_nil_r. by rewrite rl_sessions, map_to_list_empty. }
    split_and!; done.
  - destruct (evict_spec m Hm Hne) as (p & s & Hp & Hs & ->). pose proof (save_files s m) as Ef. rewrite Ef. cbn.
    split_and!; try done.
    + apply (drop_session_ok (oldest_session env m) (set_files (mm_files (saveSessionLocked env s m)) m)). destruct Hm. by split.
    + intros _. rewrite map_size_delete, Hp. assert (size (mm_sessions m) <> 0%nat) by (by intros ?%map_size_empty_inv). lia.
    + apply delete_subseteq.
Qed.

Lemma session_key_pattern x : sessionIDPattern (session_key x) = true.
Proof. apply sanitize_ok. Qed.
Lemma session_key_id x : sessionIDPattern x = true -> session_key x = x.
Proof. intros H. unfold session_key. rewrite decide_False by (by apply pattern_not_empty). by apply sanitize_id. Qed.

Lemma alloc_ok x s m : manager_ok m -> sessionIDPattern x = true -> mm_sessions m !! x = None ->
  Z.of_nat (size (mm_sessions m)) < mm_maxSessions m -> ss_SessionID s = x -> manager_ok (alloc_session x s m).2.
Proof.
  intros [H1 H2 H3 H4] Hx Hn Hlt Hid. split; cbn; [done| | |].
  - rewrite map_size_insert_None by done. lia.
  - intros p t Hp. apply lookup_insert_Some in Hp as [[<- _]|[_ Hp]]; [lia|]. apply H3 in Hp. lia.
  - intros i p Hi. apply lookup_insert_Some in Hi as [[<- <-]|[_ Hi]].
    + split; [done|]. exists s. by rewrite lookup_insert_eq.
    + destruct (H4 i p Hi) as (Hp & t & Ht & E). split; [done|]. exists t. split; [|done].
      rewrite lookup_insert_ne; [done|]. intros <-. apply H3 in Ht. lia.
Qed.
Lemma load_id m s : ss_SessionID (loadSessionLocked env m s) = ss_SessionID s.
Proof. unfold loadSessionLocked. by repeat case_match. Qed.

(** The manager in which a missing session is put. *)
Definition roomy (m : Manager) : Manager := if mm_maxSessions m <=? Z.of_nat (size (mm_sessions m)) then evictOldestLocked env m else m.
Lemma roomy_ok m : manager_ok m -> manager_ok (roomy m) /\ Z.of_nat (size (mm_sessions (roomy m))) < mm_maxSessions (roomy m) /\
  mm_sessions (roomy m) ⊆ mm_sessions m /\ mm_storageDir (roomy m) = mm_storageDir m /\ mm_store (roomy m) = mm_store m.
Proof using HR.
  intros Hm. unfold roomy. destruct (Z.leb_spec (mm_maxSessions m) (Z.of_nat (size (mm_sessions m)))) as [Hf|Hf]; [|by split_and!].
  destruct (evict_ok m Hm) as (E1 & E2 & E3 & E4 & E5 & E6 & E7 & E8). split_and!; try done.
  rewrite E3. assert (mm_sessions m <> ∅) as Hne.
  { intros E. rewrite E, map_size_empty in Hf. pose proof (mk_max _ Hm). lia. }
  pose proof (mk_size _ Hm). specialize (E2 Hne). lia.
Qed.
Lemma GetSession_new now x m : mm_sessions m !! session_key x = None ->
  GetSession env now x m = alloc_session (session_key x)
    (let s := NewSessionMemory now (session_key x) (mm_maxPerSession (roomy m)) in
     if decide (mm_storageDir (roomy m) = "") then s else loadSessionLocked env (roomy m) s) (roomy m).
Proof. intros E. unfold GetSession. by rewrite E. Qed.

Lemma GetSession_ok now x m : manager_ok m -> manager_ok (GetSession env now x m).2.
Proof using HR.
  intros Hm. destruct (mm_sessions m !! session_key x) as [p|] eqn:E.
  - unfold GetSession. rewrite E. cbn [snd]. destruct (mm_store m !! p) as [s|] eqn:Es; [|done]. by eapply upd_ok.
  - rewrite GetSession_new by done. destruct (roomy_ok m Hm) as (H1 & H2 & H3 & _ & _).
    apply alloc_ok; [done|apply session_key_pattern| |done|].
    + by apply (lookup_weaken_None _ (mm_sessions m)).
    + cbn zeta. case_decide; [done|]. by rewrite load_id.
Qed.
Lemma DeleteSession_ok x m : manager_ok m -> manager_ok (DeleteSession env x m).
Proof.
  intros Hm. apply (drop_session_ok (session_key x)) in Hm. unfold DeleteSession. repeat case_match; [done| |done].
  destruct Hm. by split.
Qed.

Lemma mem_step_ok m m' : mem_step env m m' -> manager_ok m -> manager_ok m'.
Proof using HR.
  intros [now x m0|x m0|m0|now p s op m0 Hp] Hm.
  - by apply GetSession_ok.
  - by apply DeleteSession_ok.
  - eapply same_files_ok; [apply save_all_files|done].
  - eapply upd_ok; [done|apply exec_session_id|done].
Qed.
End manager.

Lemma new_manager_ok dir maxSessions maxPerSession files : manager_ok (NewSessionMemoryManager dir maxSessions maxPerSession files).
Proof.
  assert (0 < mm_maxSessions (NewSessionMemoryManager dir maxSessions maxPerSession files)) as Hm
    by (cbn; destruct (Z.leb_spec maxSessions 0); lia).
  cbn in Hm. split; cbn; [done|rewrite map_size_empty; lia|by intros ? ? ?%lookup_empty_Some|by intros ? ? ?%lookup_empty_Some].
Qed.

(** however callers create, use, delete and save sessions, through old
    pointers as well, the manager never holds more sessions than its limit,
    every name in it is safe for the file system, and each name stands for
    one session of its own. *)
Theorem session_manager_invariant env dir maxSessions maxPerSession files m : RangeLaws env ->
  rtc (mem_step env) (NewSessionMemoryManager dir maxSessions maxPerSession files) m ->
  Z.of_nat (size (mm_sessions m)) <= mm_maxSessions m /\
  (forall id p, mm_sessions m !! id = Some p -> sessionIDPattern id = true /\ exists s, mm_store m !! p = Some s /\ ss_SessionID s = id) /\
  (forall id id' p, mm_sessions m !! id = Some p -> mm_sessions m !! id' = Some p -> id = id').
Proof.
  intros HR Hrun. assert (manager_ok m) as [H1 H2 H3 H4].
  { pose proof (new_manager_ok dir maxSessions maxPerSession files) as H0.
    induction Hrun as [m|m m' m'' Hs Hrun IH]; [done|]. apply IH. by eapply mem_step_ok. }
  split_and!; [done..|]. intros x y p Hx Hy. destruct (H4 x p Hx) as (_ & s & Hs & <-), (H4 y p Hy) as (_ & t & Ht & <-). congruence.
Qed.

(** *** A concrete environment *)

Definition no_graph : MemoryGraph := mkGraph [] [].
Definition demo_env (marshal : sessionData -> result string) (unmarshal : string -> result sessionData) : MemEnv :=
  mkMemEnv marshal unmarshal (fun _ => true) map_to_list map_to_list (fun s => s).
Definition mute_env : MemEnv := demo_env (fun _ => Err "not here") (fun _ => Err "not here").
#[export] Instance demo_range_laws f g : RangeLaws (demo_env f g).
Proof. by split. Qed.

Lemma session_manager_invariant_witness :
  let m := (GetSession mute_env 3 "c" (GetSession mute_env 2 "b" (GetSession mute_env 1 "a" (demo_manager_at "")).2).2).2 in
  dom (mm_sessions m) = {["b"; "c"]} /\ Z.of_nat (size (mm_sessions m)) <= mm_maxSessions m.
Proof.
  intros m. split; [by vm_compute|].
  refine (proj1 (session_manager_invariant mute_env "" 2 10 ∅ m _ _)).
  eapply rtc_l; [apply (ms_get mute_env 1 "a")|]. eapply rtc_l; [apply (ms_get mute_env 2 "b")|].
  apply rtc_once. apply (ms_get mute_env 3 "c").
Defined.

(** ** Eviction to a file and back *)

(** A session as JSON keeps it: an empty table of links is left out. *)
Definition decoded (s : SessionMemory) : sessionData :=
  mkSessionData (ss_SessionID s) (Some (ss_entries s)) (ss_graph s) (ss_accessCount s) (ss_maxEntries s) (ss_createdAt s)
    (ss_updatedAt s) (ss_lastUsedAt s) (if decide (ss_KGNodeRefs s = ∅) then None else Some (ss_KGNodeRefs s)).
Lemma restore_decoded s s0 : ss_SessionID s0 = ss_SessionID s -> ss_vectors s0 = NewVectorIndex ->
  restore_session (decoded s) s0 = set_vectors NewVectorIndex s.
Proof.
  intros E1 E2. unfold restore_session, decoded, set_vectors. cbn. rewrite E1, E2. f_equal. case_decide as H; cbn; [by rewrite H|done].
Qed.

Section return_trip.
Context (env : MemEnv) `{HR : !RangeLaws env} (dir : string) (Hdir : IsAbs dir = true).

(** Making room does not touch the file of a session that is out. *)
Lemma roomy_file m x : manager_ok m -> mm_storageDir m = dir -> sessionIDPattern x = true -> mm_sessions m !! x = None ->
  mm_files (roomy env m) !! sessionFilePath m x = mm_files m !! sessionFilePath m x.
Proof using HR Hdir.
  intros Hm Hd Hx Hn. unfold roomy. case_match; [|done]. destruct (decide (mm_sessions m = ∅)) as [E|Hne].
  { pose proof (mk_max _ Hm). assert (evictOldestLocked env m = m) as ->; [|done].
    unfold evictOldestLocked, oldest_session. rewrite E. assert (en_range_sessions env ∅ = []) as ->; [|done].
    apply Permutation_nil_r. by rewrite rl_sessions, map_to_list_empty. }
  destruct (evict_spec env m Hm Hne) as (p & s & Hp & Hs & ->). cbn. unfold saveSessionLocked.
  repeat case_match; try done. cbn. rewrite lookup_insert_ne; [done|]. intros E.
  destruct (mk_names _ Hm _ _ Hp) as (Hpat & t & Ht & Hid). assert (t = s) as -> by congruence.
  apply session_path_inj in E; [|done|by rewrite Hd|by rewrite Hid|done]. rewrite Hid in E. congruence.
Qed.
Lemma evicted_file m x p s text now y :
  manager_ok m -> mm_storageDir m = dir -> mm_sessions m !! x = Some p -> mm_store m !! p = Some s ->
  mm_sessions (GetSession env now y m).2 !! x = None -> en_Marshal env (session_data s) = Ok text ->
  en_io_ok env (sessionFilePath m x) = true ->
  mm_files (GetSession env now y m).2 !! sessionFilePath m x = Some text /\ mm_storageDir (GetSession env now y m).2 = dir.
Proof using HR Hdir.
  intros Hm Hd Hx Hp Hout Hj Hio.
  destruct (mm_sessions m !! session_key y) as [q|] eqn:Ey.
  { exfalso. unfold GetSession in Hout. rewrite Ey in Hout. cbn in Hout. case_match; cbn in Hout; congruence. }
  rewrite GetSession_new in * by done. cbn in Hout |- *. apply lookup_insert_None in Hout as [Hout Hyx].
  destruct (roomy_ok env m Hm) as (_ & _ & _ & Hdr & _). split; [|congruence].
  unfold roomy in Hout |- *. case_match; [|congruence].
  assert (mm_sessions m <> ∅) as Hne by (intros E; by rewrite E in Hx).
  destruct (evict_spec env m Hm Hne) as (p' & s' & Hp' & Hs' & E). rewrite E in Hout |- *. cbn in Hout |- *.
  assert (oldest_session env m = x) as Eo.
  { apply lookup_delete_None in Hout as [?|?]; [done|congruence]. }
  rewrite Eo in Hp'. assert (s' = s) as -> by congruence. unfold saveSessionLocked. rewrite Hd.
  rewrite decide_False by (intros E'; by rewrite E' in Hdir). rewrite Hj.
  destruct (mk_names _ Hm _ _ Hx) as (_ & t & Ht & Hid). assert (t = s) as -> by congruence. rewrite Hid, Hio. cbn.
  by rewrite lookup_insert_eq.
Qed.
End return_trip.

(** C27: a session that was evicted because another one was asked for comes
    back, when it is asked for again, with the entries, links, graph and
    counters it had; only its vectors are gone. *)
Theorem evicted_session_returns env m x p s text now y now' :
  RangeLaws env -> manager_ok m -> IsAbs (mm_storageDir m) = true ->
  mm_sessions m !! x = Some p -> mm_store m !! p = Some s -> mm_sessions (GetSession env now y m).2 !! x = None ->
  en_io_ok env (sessionFilePath m x) = true -> en_Marshal env (session_data s) = Ok text -> en_Unmarshal env text = Ok (decoded s) ->
  let r := GetSession env now' x (GetSession env now y m).2 in
  mm_store r.2 !! r.1 = Some (set_vectors NewVectorIndex s).
Proof.
  intros HR Hm Hdir Hx Hp Hout Hio Hj Hu. cbn zeta.
  destruct (evicted_file env _ Hdir m x p s text now y Hm eq_refl Hx Hp Hout Hj Hio) as [Hf Hd].
  destruct (mk_names _ Hm _ _ Hx) as (Hpat & t & Ht & Hid). assert (t = s) as -> by congruence.
  pose proof (GetSession_ok env now y m Hm) as Hm1. set (m1 := (GetSession env now y m).2) in *.
  rewrite GetSession_new by (by rewrite session_key_id). rewrite session_key_id by done. cbn.
  rewrite lookup_insert_eq. destruct (roomy_ok env m1 Hm1) as (_ & _ & _ & Hdr & _). rewrite Hdr, Hd.
  rewrite decide_False by (intros E; by rewrite E in Hdir). unfold loadSessionLocked. cbn [ss_SessionID NewSessionMemory].
  assert (forall m' : Manager, mm_storageDir m' = mm_storageDir m -> sessionFilePath m' x = sessionFilePath m x) as Hpath
    by (intros m' E; unfold sessionFilePath; by rewrite E).
  rewrite (Hpath (roomy env m1)) by congruence. rewrite <- (Hpath m1 Hd).
  rewrite (roomy_file env _ Hdir m1 x Hm1 Hd Hpat Hout), (Hpath m1 Hd), Hf, Hu. f_equal. by apply restore_decoded.
Qed.

Definition two_sessions (env : MemEnv) : Manager :=
  (GetSession env 2 "b" (upd_session 0 (session_run visit_entries demo_session_ops (NewSessionMemory 1 "a" 10))
    (GetSession env 1 "a" (demo_manager_at "/mem")).2)).2.
Definition session_a : SessionMemory := session_run visit_entries demo_session_ops (NewSessionMemory 1 "a" 10).
(** JSON for this one session. *)
Definition a_env : MemEnv := demo_env (fun sd => if decide (sd_SessionID sd = "a") then Ok "{a}" else Err "not here") (fun _ => Ok (decoded session_a)).
Lemma two_sessions_ok : manager_ok (two_sessions a_env).
Proof.
  apply (GetSession_ok a_env). apply (upd_ok 0 (NewSessionMemory 1 "a" 10)); [by vm_compute|by vm_compute|]. apply (GetSession_ok a_env).
  apply new_manager_ok.
Qed.
Lemma evicted_session_returns_witness :
  mm_sessions (GetSession a_env 3 "c" (two_sessions a_env)).2 !! "a" = None /\
  mm_store (GetSession a_env 4 "a" (GetSession a_env 3 "c" (two_sessions a_env)).2).2 !!
    (GetSession a_env 4 "a" (GetSession a_env 3 "c" (two_sessions a_env)).2).1 = Some (set_vectors NewVectorIndex session_a).
Proof.
  split; [by vm_compute|].
  refine (evicted_session_returns a_env (two_sessions a_env) "a" 0 session_a "{a}" 3 "c" 4 _ two_sessions_ok _ _ _ _ _ _ _);
    by vm_compute.
Defined.

(** ** Reading with the shared namespace behind *)

Section cross.
Context (env : MemEnv) `{HR : !RangeLaws env}.

(** A session that is there is touched, and nothing else happens. *)
Lemma get_present now x p s c : mm_sessions (cm_memMgr c) !! session_key x = Some p -> mm_store (cm_memMgr c) !! p = Some s ->
  get_session env now x c = (p, set_mem (upd_session p (Touch now s) (cm_memMgr c)) c).
Proof. intros Hx Hp. unfold get_session, GetSession. rewrite Hx. cbn. by rewrite Hp. Qed.

Definition live (now : Z) (s : SessionMemory) (k : string) : option MemoryEntry :=
  e ← ss_entries s !! k; if expired now e then None else Some e.
Lemma retrieve_present now x p s k c : mm_sessions (cm_memMgr c) !! session_key x = Some p -> mm_store (cm_memMgr c) !! p = Some s ->
  (is_ok (retrieve_in env now x k c).1 = true <-> is_Some (live now s k)) /\
  (forall e, live now s k = Some e -> (retrieve_in env now x k c).1 = Ok (accessed now e)) /\
  mm_sessions (cm_memMgr (retrieve_in env now x k c).2) = mm_sessions (cm_memMgr c) /\
  forall q, q <> p -> mm_store (cm_memMgr (retrieve_in env now x k c).2) !! q = mm_store (cm_memMgr c) !! q.
Proof.
  intros Hx Hp. unfold retrieve_in. rewrite (get_present now x p s) by done. cbn. rewrite lookup_insert_eq. cbn.
  unfold Retrieve, live. cbn [Touch ss_entries]. destruct (ss_entries s !! k) as [e|]; cbn [mbind option_bind].
  - destruct (expired now e); cbn; (split_and!; [by split; [|intros [? ?]]|by intros e' [= <-]||done|done|]);
      intros q Hq; by rewrite !lookup_insert_ne.
  - split_and!; [by split; [|intros [? ?]]|done|done|]. intros q Hq. by rewrite !lookup_insert_ne.
Qed.
End cross.

(** reading with the shared namespace behind gives the session's own entry
    while it has one that has not expired, otherwise the shared one, and an
    error only when neither has one. *)
Theorem fallback_reads env now x k p q s t c :
  mm_sessions (cm_memMgr c) !! session_key x = Some p -> mm_store (cm_memMgr c) !! p = Some s ->
  mm_sessions (cm_memMgr c) !! sharedID = Some q -> mm_store (cm_memMgr c) !! q = Some t -> p <> q -> x <> "" ->
  match live now s k, live now t k with
  | Some e, _ | None, Some e => (RetrieveWithFallback env now x k c).1 = Ok (accessed now e)
  | None, None => is_ok (RetrieveWithFallback env now x k c).1 = false
  end.
Proof.
  intros Hx Hp Hq Ht Hne Hx0. unfold RetrieveWithFallback, RetrieveShared. rewrite decide_False by done.
  destruct (retrieve_present env now x p s k c Hx Hp) as (H1 & H2 & H3 & H4).
  destruct (retrieve_in env now x k c) as [res c'] eqn:Er. cbn [fst snd] in *.
  destruct (live now s k) as [e|] eqn:El.
  - rewrite (H2 e eq_refl). by destruct (live now t k).
  - destruct res as [e|msg]; [exfalso; destruct (proj1 H1 eq_refl) as [? ?]; done|].
    destruct (retrieve_present env now sharedID q t k c') as (G1 & G2 & _ & _); [by rewrite H3|by rewrite H4|].
    destruct (live now t k) as [e|]; [by apply G2|].
    apply not_true_iff_false. by intros [? ?]%G1.
Qed.
Definition shared_store : CrossManager :=
  (StoreShared mute_env 5 (fun _ => []) "lang" "Go" "long" "fact" [] 0 half "agent" (NewSessionManager (GetSession mute_env 1 "a" (demo_manager_at "")).2)).2.
Definition session_at (p : nat) (c : CrossManager) : SessionMemory := default (NewSessionMemory 0 "" 0) (mm_store (cm_memMgr c) !! p).
Lemma fallback_reads_witness :
  (RetrieveWithFallback mute_env 10 "a" "lang" shared_store).1 =
  Ok (mkEntry "entry_5" "lang" "Go" "fact" "long" (f64_mul half (f64_of_Z 100)) (5 + 365 * 24 * Hour) 10 5 [] "agent" half).
Proof.
  refine (fallback_reads mute_env 10 "a" "lang" 0 1 (session_at 0 shared_store) (session_at 1 shared_store) shared_store _ _ _ _ _ _);
    [by vm_compute..|done|done].
Defined.

(** ** Merging *)

Lemma make_room_fits range now s : Z.of_nat (size (ss_entries s)) < ss_maxEntries s -> make_room range now s = s.
Proof. intros H. unfold make_room. by rewrite (proj2 (Z.leb_gt _ _)). Qed.

(** An entry as it is stored in the target. *)
Definition copied (now : Z) (e : MemoryEntry) : MemoryEntry :=
  mkEntry ("entry_" +:+ Itoa now) (me_Key e) (me_Value e) (me_Type e) (me_Level e) (f64_mul (me_Confidence e) (f64_of_Z 100))
    (expiry now (me_Level e) (remaining_ttl now e)) now now (me_Tags e) (me_Source e) (me_Confidence e).

Lemma copy_fits env now embed l s : NoDup (me_Key <$> l) ->
  Z.of_nat (size (ss_entries s)) + Z.of_nat (length l) <= ss_maxEntries s ->
  let s' := fold_left (store_copy env now embed) l s in
  (forall e, e ∈ l -> ss_entries s' !! me_Key e = Some (copied now e)) /\
  (forall k, k ∉ me_Key <$> l -> ss_entries s' !! k = ss_entries s !! k).
Proof.
  revert s. induction l as [|e l IH]; intros s Hnd Hsz; cbn zeta.
  - split; [intros e He; by apply not_elem_of_nil in He|done].
  - rewrite fmap_cons, NoDup_cons in Hnd. destruct Hnd as [Hni Hnd]. cbn [fold_left length] in *.
    assert (ss_entries (store_copy env now embed s e) = <[me_Key e := copied now e]> (ss_entries s)) as E.
    { unfold store_copy. rewrite store_entries, make_room_fits by lia. done. }
    assert (ss_maxEntries (store_copy env now embed s e) = ss_maxEntries s) as Em by apply store_max.
    destruct (IH (store_copy env now embed s e) Hnd) as [G1 G2].
    { rewrite Em, E. pose proof (map_size_insert (me_Key e) (copied now e) (ss_entries s)) as Hs.
      destruct (ss_entries s !! me_Key e); unfold id in Hs; lia. }
    split.
    + intros x [-> |Hx]%elem_of_cons; [|by apply G1]. rewrite G2 by done. by rewrite E, lookup_insert_eq.
    + intros k. rewrite fmap_cons, not_elem_of_cons. intros [Hk1 Hk2]. rewrite G2 by done. by rewrite E, lookup_insert_ne.
Qed.

Definition lives (now : Z) (e : MemoryEntry) : Prop := me_ExpiresAt e = zero_time \/ now < me_ExpiresAt e.
Lemma live_entries_elem env now s e : RangeLaws env -> session_wf s ->
  e ∈ live_entries env now s <-> lives now e /\ ss_entries s !! me_Key e = Some e.
Proof.
  intros HR Hwf. unfold live_entries. rewrite list_elem_of_filter, list_elem_of_fmap. apply and_iff_compat_l. setoid_rewrite rl_entries. split.
  - intros ([k x] & -> & Hx). apply elem_of_map_to_list in Hx. cbn. by rewrite (sw_keys _ Hwf k x Hx).
  - intros He. exists (me_Key e, e). split; [done|]. by apply elem_of_map_to_list.
Qed.
Lemma live_entries_keys env now s : RangeLaws env -> session_wf s -> NoDup (me_Key <$> live_entries env now s).
Proof.
  intros HR Hwf. unfold live_entries. apply NoDup_fmap_filter.
  assert (me_Key <$> (en_range_entries env (ss_entries s)).*2 = (en_range_entries env (ss_entries s)).*1) as ->.
  { rewrite <- list_fmap_compose. apply list_fmap_ext. intros i [k e] Hi. apply list_elem_of_lookup_2 in Hi. rewrite rl_entries in Hi.
    apply elem_of_map_to_list in Hi. apply (sw_keys _ Hwf k e Hi). }
  rewrite rl_entries. apply NoDup_fst_map_to_list.
Qed.

(** a merge puts every entry of the source that has not expired into the
    target with its value, over an entry of the same key, and keeps the
    target's other entries and the source, when the target has room. *)
Theorem merge_copies env now embed src dst p q s t c :
  RangeLaws env -> session_wf s -> src <> "" -> dst <> "" -> src <> dst -> p <> q ->
  mm_sessions (cm_memMgr c) !! session_key src = Some p -> mm_store (cm_memMgr c) !! p = Some s ->
  mm_sessions (cm_memMgr c) !! session_key dst = Some q -> mm_store (cm_memMgr c) !! q = Some t ->
  Z.of_nat (size (ss_entries t)) + Z.of_nat (length (live_entries env now s)) <= ss_maxEntries t ->
  let r := Merge env now embed src dst c in
  r.1 = Ok (Z.of_nat (length (live_entries env now s))) /\
  exists t', mm_store (cm_memMgr r.2) !! q = Some t' /\ mm_store (cm_memMgr r.2) !! p = Some (Touch now s) /\
    (forall k e, ss_entries s !! k = Some e -> lives now e -> ss_entries t' !! k = Some (copied now e)) /\
    (forall k, (forall e, ss_entries s !! k = Some e -> ~ lives now e) -> ss_entries t' !! k = ss_entries t !! k).
Proof.
  intros HR Hwf H1 H2 Hne Hpq Hp Hs Hq Ht Hroom. cbn zeta. unfold Merge. rewrite decide_False by tauto. rewrite decide_False by done.
  rewrite (get_present env now src p s) by done. cbn beta iota.
  rewrite (get_present env now dst q t); cbn [set_mem cm_memMgr upd_session mm_sessions mm_store]; [|done|by rewrite lookup_insert_ne].
  unfold live_at. cbn [set_mem cm_memMgr upd_session mm_sessions mm_store].
  rewrite lookup_insert_ne, lookup_insert_eq by done. cbn [from_option fst snd]. change (live_entries env now (Touch now s)) with (live_entries env now s).
  split; [done|]. unfold copy_entries. cbn [set_mem cm_memMgr upd_session mm_sessions mm_store]. rewrite lookup_insert_eq.
  destruct (copy_fits env now embed (live_entries env now s) (Touch now t) (live_entries_keys env now s HR Hwf) Hroom) as [G1 G2].
  eexists. cbn [set_mem cm_memMgr upd_session mm_sessions mm_store]. rewrite lookup_insert_eq. split; [done|]. split_and!.
  - by rewrite !lookup_insert_ne, lookup_insert_eq by done.
  - intros k e He Hl. pose proof (sw_keys _ Hwf k e He) as <-. apply G1. by apply live_entries_elem.
  - intros k Hk. change (ss_entries t !! k) with (ss_entries (Touch now t) !! k). apply G2.
    intros (e & -> & He)%list_elem_of_fmap. apply live_entries_elem in He as [Hl He]; [|done..]. by apply (Hk e).
Qed.
Definition merge_start : CrossManager := NewSessionManager (two_sessions a_env).
Lemma merge_copies_witness :
  (Merge a_env 100 (fun _ => []) "a" "b" merge_start).1 = Ok 3 /\
  exists t', mm_store (cm_memMgr (Merge a_env 100 (fun _ => []) "a" "b" merge_start).2) !! 1%nat = Some t' /\
    from_option me_Value "" (ss_entries t' !! "a") = "the sky is blue".
Proof.
  assert (session_wf session_a) as Hwf.
  { apply (session_run_ok visit_entries); [done| |apply new_session_ok]. by repeat (constructor; [done|]). }
  destruct (merge_copies a_env 100 (fun _ => []) "a" "b" 0 1 session_a (NewSessionMemory 2 "b" 10) merge_start _ Hwf) as (H1 & t' & H2 & _ & H3 & _);
    [done|done|done|done|by vm_compute|by vm_compute|by vm_compute|by vm_compute|by vm_compute|].
  split; [exact H1|]. exists t'. split; [exact H2|].
  destruct (ss_entries session_a !! "a") as [e|] eqn:E; [|by vm_compute in E].
  rewrite (H3 "a" e E); vm_compute in E; injection E as <-; [done|]. right. by vm_compute.
Defined.

(** ** Where the code does not keep its word *)

(** A session whose name was replaced cannot be switched to. *)
Theorem switch_misses_session :
  let c := (Create mute_env 1 (fun _ => []) "team notes" "" (NewSessionManager (demo_manager_at ""))).2 in
  is_ok (Switch mute_env 2 "team notes" c).1 = false /\ size (mm_sessions (cm_memMgr c)) = 1%nat.
Proof. by vm_compute. Qed.

(** The copy of an entry with half an hour left lives for a day. *)
Definition short_lived : MemoryEntry := mkEntry "entry_1" "k" "v" "fact" "short" half (Hour / 2) 0 0 [] "agent" half.
Theorem fork_extends_lifetime : me_ExpiresAt (copied 0 short_lived) = 24 * Hour /\ me_ExpiresAt short_lived = Hour / 2.
Proof. by vm_compute. Qed.

(** Forking from a session that does not exist makes it. *)
Theorem fork_creates_parent :
  let r := Create mute_env 1 (fun _ => []) "child" "ghost" (NewSessionManager (demo_manager_at "")) in
  is_ok r.1 = true /\ dom (mm_sessions (cm_memMgr r.2)) = {["child"; "ghost"]} /\ Parent "child" r.2 = "ghost".
Proof. by vm_compute. Qed.

(** What is stored through a pointer to an evicted session is lost. *)
Theorem evicted_writes_lost :
  let m1 := (GetSession a_env 3 "c" (two_sessions a_env)).2 in
  let write := SoStore [] "new" "value" "short" "fact" [] 1 half "agent" in
  let m2 := match mm_store m1 !! 0%nat with Some s => upd_session 0 (session_exec visit_entries 4 write s) m1 | None => m1 end in
  let r := GetSession a_env 5 "a" (SaveAll a_env m2) in
  from_option (fun s => ss_entries s !! "new") None (mm_store m2 !! 0%nat) <> None /\
  from_option (fun s => ss_entries s !! "new") None (mm_store r.2 !! r.1) = None.
Proof. split; vm_compute; congruence. Qed.

(** A session that was just loaded still has its old time of use and is the
    next to be evicted. *)
Theorem loaded_is_oldest :
  let m := (GetSession a_env 4 "a" (GetSession a_env 3 "c" (two_sessions a_env)).2).2 in
  dom (mm_sessions m) = {["a"; "c"]} /\ oldest_session a_env m = "a".
Proof. by vm_compute. Qed.

(** Results of the shared namespace come last, whatever their scores. *)
Definition scored_own_and_shared : CrossManager :=
  let c := (StoreShared mute_env 5 (fun _ => []) "s" "red blue" "short" "fact" [] 0 half "agent" (NewSessionManager (GetSession mute_env 1 "a" (demo_manager_at "")).2)).2 in
  set_mem (upd_session 0 (session_run visit_entries [note 6 1 [] "own" "red"] (NewSessionMemory 1 "a" 10)) (cm_memMgr c)) c.
Theorem across_not_sorted :
  (fun l : list MemoryEntry => (fun e => (me_Key e, f64_trunc (me_Score e))) <$> l) <$>
    (SearchAcross mute_env 10 [] [] "a" "red blue" "" 5 half scored_own_and_shared).1 = Some [("own", 50); ("s", 100)].
Proof. by vm_compute. Qed.
