(* ===== verification/Analysis.v ===== *)
(** * Static analysis of workflows (src/internal/workflow/analysis.go)

    Before a run the command line asks three questions about a workflow: does
    it need an LLM ([RequiresLLM]), can it pause ([HasResumableSteps]), and
    which parameters do its templates refer to ([ExtractReferencedVars]).  The
    theorems say exactly which steps and texts are looked at. *)

From S2P Require Import Prelude GoStrings GoText WorkflowTypes ExprEngine Policy PolicyExecutor.
From Stdlib Require Import Ascii.

#[local] Open Scope string_scope.

(** ** LLM nodes *)

Definition llmNodeNames : list string :=
  ["ollama"; "openai"; "deepseek"; "glm"; "kimi"; "qwen"; "mistral"; "yi"; "anthropic"; "gemini";
   "ascend"; "cambricon"; "hygon"; "baichuan"; "internlm"; "xverse"; "minimax"; "coze"; "ima"; "mimo";
   "llm_router"].

Section llm.
Context (lower : string -> string).

Definition IsLLMNode (name : string) : bool :=
  bool_decide (ToLower lower (TrimSpace name) ∈ llmNodeNames).

(** The range loops of the source return at the first hit: [existsb]. *)
Fixpoint stepRequiresLLM (s : WorkflowStep) : bool :=
  match s with
  | mkWorkflowStep node _ _ _ _ _ _ _ par _ _ oe loop _ ifc mapc _ red saga cap _ _ _ _ _ _ _ _ =>
      IsLLMNode node
      || existsb (fun p => IsLLMNode (st_Node p)) par
      || match oe with Some o => IsLLMNode (st_Node o) | None => false end
      || match loop with Some _ => IsLLMNode node | None => false end
      || match ifc with
         | Some c => existsb stepRequiresLLM (if_Then c) || existsb stepRequiresLLM (if_Else c)
         | None => false
         end
      || match mapc with Some c => existsb stepRequiresLLM (map_Steps c) | None => false end
      || match red with Some c => existsb stepRequiresLLM (red_Steps c) | None => false end
      || match saga with
         | Some c => existsb (fun sg => stepRequiresLLM (sg_Forward sg) ||
             match sg_Compensate sg with Some cs => stepRequiresLLM cs | None => false end) (sg_Steps c)
         | None => false
         end
      || existsb stepRequiresLLM cap
  end.

Definition RequiresLLM (wf : option Workflow) : bool :=
  match wf with None => false | Some wf => existsb stepRequiresLLM (wf_Steps wf) end.
End llm.

Definition HasResumableSteps (wf : option Workflow) : bool :=
  match wf with None => false | Some wf => existsb IsResumable (wf_Steps wf) end.

(** ** References to parameters

    The matcher of [paramRefRegex].  Each of its pieces is determined by the
    first character of the rest of the text, so it needs no backtracking; each
    function returns what it matched and what is left. *)

(** [\s] *)
Definition re_space (c : ascii) : bool :=
  let n := N_of_ascii c in
  ((n =? 9) || (n =? 10) || (n =? 12) || (n =? 13) || (n =? 32))%N.
(** [[a-zA-Z_]] and [[a-zA-Z0-9_]] *)
Definition ident_start (c : ascii) : bool :=
  let n := N_of_ascii c in
  ((65 <=? n) && (n <=? 90) || (97 <=? n) && (n <=? 122) || (n =? 95))%N.
Definition ident_char (c : ascii) : bool :=
  let n := N_of_ascii c in ident_start c || ((48 <=? n) && (n <=? 57))%N.

(** The longest prefix whose characters satisfy [p], and the rest. *)
Fixpoint span (p : ascii -> bool) (s : string) : string * string :=
  match s with
  | "" => ("", "")
  | String c s' => if p c then let '(a, b) := span p s' in (String c a, b) else ("", s)
  end.

Definition skip_spaces (s : string) : string := (span re_space s).2.

(** What follows [p]. *)
Definition eat (p s : string) : option string :=
  if HasPrefix s p then Some (str_drop (String.length p) s) else None.

(** A match at the start of [s]: the submatch, and what follows the match. *)
Definition match_ref (s : string) : option (string * string) :=
  s ← eat "{{" s;
  let s := skip_spaces s in
  let s := skip_spaces (default s (eat "." s)) in
  s ← match eat "var" s with Some s => Some s | None => eat "params" s end;
  s ← eat "." (skip_spaces s);
  let '(name, s) := span ident_char (skip_spaces s) in
  match name with
  | "" => None
  | String c _ =>
      if ident_start c then s ← eat "}}" (skip_spaces s); Some (name, s) else None
  end.

(** [FindAllStringSubmatch]: the submatches of the leftmost matches that do
    not overlap. *)
Fixpoint find_refs (fuel : nat) (s : string) : list string :=
  match fuel with
  | O => []
  | S fuel =>
      match match_ref s with
      | Some (name, rest) => name :: find_refs fuel rest
      | None => match s with "" => [] | String _ s => find_refs fuel s end
      end
  end.
Definition FindAllRefs (s : string) : list string := find_refs (S (String.length s)) s.

(** The texts that [collectStepRefs] hands to [collect].  The order in which a
    parameter map is visited plays no role, see [ExtractReferencedVars]. *)
Definition param_texts (params : gmap string string) : list string := (map_to_list params).*2.
Definition simple_texts (s : Step) : list string :=
  (param_texts (st_Params s) ++ [st_Condition s])%list.

Fixpoint collectStepRefs (s : WorkflowStep) : list string :=
  match s with
  | mkWorkflowStep _ _ _ params cond _ _ _ par _ _ oe loop _ ifc mapc _ red saga cap _ _ _ _ _ _ _ _ =>
      param_texts params ++ [cond] ++
      flat_map simple_texts par ++
      match oe with Some o => simple_texts o | None => [] end ++
      match ifc with
      | Some c => if_Condition c :: flat_map collectStepRefs (if_Then c) ++
                  flat_map collectStepRefs (if_Else c)
      | None => []
      end ++
      match mapc with Some c => map_Over c :: flat_map collectStepRefs (map_Steps c) | None => [] end ++
      match red with
      | Some c => [red_Over c; red_Initial c] ++ flat_map collectStepRefs (red_Steps c)
      | None => []
      end ++
      match loop with Some c => [loop_Items c] | None => [] end ++
      match saga with
      | Some c => flat_map (fun sg => collectStepRefs (sg_Forward sg) ++
          match sg_Compensate sg with Some cs => collectStepRefs cs | None => [] end) (sg_Steps c)
      | None => []
      end ++
      flat_map collectStepRefs cap
  end%list.

(** The insertion sort of the names: each one moves left past the larger ones
    of the sorted prefix (kept reversed). *)
Fixpoint sift_name (x : string) (sorted_rev : list string) : list string :=
  match sorted_rev with
  | [] => [x]
  | y :: r => if String.ltb x y then y :: sift_name x r else x :: sorted_rev
  end.
Definition sort_names (l : list string) : list string :=
  reverse (foldl (fun acc x => sift_name x acc) [] l).

Section refs.
(** The order in which [range] visits the keys of the set [seen]. *)
Context (range : gset string -> list string).

Definition seen_refs (texts : list string) : gset string :=
  list_to_set (flat_map FindAllRefs texts).

(** A nil slice when nothing is referenced. *)
Definition ExtractReferencedVars (wf : option Workflow) : list string :=
  match wf with
  | None => []
  | Some wf =>
      let seen := seen_refs (flat_map collectStepRefs (wf_Steps wf)) in
      if decide (size seen = 0) then [] else sort_names (range seen)
  end.
End refs.

(** The sources' tests. *)
Example find_var : FindAllRefs "a {{var.api_url}} b{{{ .params . t1 }} {{step.x}} {{var.9}}" = ["api_url"; "t1"].
Proof. reflexivity. Qed.

(** ** Nested steps *)

(** [t] is [s] or a step nested in [s], at any depth. *)
Inductive nested (s : WorkflowStep) : WorkflowStep -> Prop :=
| nested_refl : nested s s
| nested_child c t : In c (step_children s) -> nested c t -> nested s t.

(** A list collected from a step is collected from the nested steps if one
    level of it is. *)
Lemma nested_collect {A} (collect own : WorkflowStep -> list A) :
  (forall s a, a ∈ collect s <-> a ∈ own s \/ exists c, In c (step_children s) /\ a ∈ collect c) ->
  forall s a, a ∈ collect s <-> exists t, nested s t /\ a ∈ own t.
Proof.
  intros Hown s. induction s as [s IH] using WorkflowStep_nested_ind. intros a. rewrite Hown. split.
  - intros [H|(c & Hc & (t & Ht & Ha)%(IH c Hc))]; [exists s; split; [constructor|done]|].
    exists t. split; [by apply (nested_child s c)|done].
  - intros (t & Ht & Ha). destruct Ht as [|c t Hc Ht]; [by left|]. right. exists c. split; [done|].
    apply (IH c Hc). by exists t.
Qed.

Lemma in_flat_map_iff {A B} (f : A -> list B) l b : b ∈ flat_map f l <-> exists a, In a l /\ b ∈ f a.
Proof. rewrite list_elem_of_In, in_flat_map. by setoid_rewrite list_elem_of_In. Qed.

(** The sub-steps of a saga, one by one. *)
Lemma saga_collect {A} (f : WorkflowStep -> list A) (l : list (SagaStep WorkflowStep)) a :
  a ∈ flat_map (fun sg => f (sg_Forward sg) ++
        match sg_Compensate sg with Some cs => f cs | None => [] end)%list l <->
  exists c, In c (flat_map (fun sg => sg_Forward sg ::
        match sg_Compensate sg with Some cs => [cs] | None => [] end) l) /\ a ∈ f c.
Proof.
  rewrite <- in_flat_map_iff. induction l as [|[x [y|]] l IH]; [done|..]; cbn [flat_map sg_Forward sg_Compensate app].
  - rewrite !elem_of_app, IH. tauto.
  - rewrite !elem_of_app, IH. set_solver.
Qed.

(** ** Which nodes are looked at *)

(** The nodes a step calls itself: its own, those of its parallel block and
    its [on_error] step. *)
Definition called_nodes (s : WorkflowStep) : list string :=
  (ws_Node s :: map st_Node (ws_Parallel s) ++
   match ws_OnError s with Some o => [st_Node o] | None => [] end)%list.

Section llm_proofs.
Context (lower : string -> string).

Lemma existsb_saga (f : WorkflowStep -> bool) (l : list (SagaStep WorkflowStep)) :
  existsb (fun sg => f (sg_Forward sg) ||
    match sg_Compensate sg with Some cs => f cs | None => false end) l =
  existsb f (flat_map (fun sg => sg_Forward sg ::
    match sg_Compensate sg with Some cs => [cs] | None => [] end) l).
Proof. induction l as [|[x [y|]] l IH]; cbn; [done|..]; by rewrite IH, ?orb_false_r, ?orb_assoc. Qed.

Lemma stepRequiresLLM_eq s : stepRequiresLLM lower s =
  existsb (IsLLMNode lower) (called_nodes s) || existsb (stepRequiresLLM lower) (step_children s).
Proof.
  destruct s as [node ? ? ? ? ? ? ? par ? ? oe loop ? ifc mapc ? red saga cap].
  unfold called_nodes, step_children. cbn [stepRequiresLLM ws_Node ws_Parallel ws_OnError ws_If ws_Map ws_Reduce ws_Saga ws_CaptureError].
  cbn [existsb]. rewrite !existsb_app.
  assert (existsb (IsLLMNode lower) (map st_Node par) = existsb (fun p => IsLLMNode lower (st_Node p)) par) as ->
    by (induction par as [|p par IH]; cbn; congruence).
  assert (match loop with Some _ => IsLLMNode lower node | None => false end
          = IsLLMNode lower node && match loop with Some _ => true | None => false end) as ->
    by (destruct loop; by rewrite ?andb_true_r, ?andb_false_r).
  destruct (IsLLMNode lower node); [done|]. cbn [orb andb]. rewrite !orb_false_r, <- !orb_assoc.
  f_equal. f_equal; [destruct oe; cbn; by rewrite ?orb_false_r|].
  f_equal; [destruct ifc; by rewrite ?existsb_app|]. f_equal; [by destruct mapc|].
  f_equal; [by destruct red|]. f_equal. destruct saga as [c|]; [|done]. apply existsb_saga.
Qed.

Lemma stepRequiresLLM_spec s : stepRequiresLLM lower s = true <->
  exists t node, nested s t /\ node ∈ called_nodes t /\ IsLLMNode lower node = true.
Proof.
  induction s as [s IH] using WorkflowStep_nested_ind.
  rewrite stepRequiresLLM_eq, orb_true_iff, !existsb_exists. split.
  - intros [(n & Hn & Hl)|(c & Hc & (t & n & Ht & Hn & Hl)%(IH c Hc))].
    + exists s, n. split; [constructor|]. by rewrite list_elem_of_In.
    + exists t, n. split; [by apply (nested_child s c)|done].
  - intros (t & n & Ht & Hn & Hl). destruct Ht as [|c t Hc Ht].
    + left. exists n. by rewrite <- list_elem_of_In.
    + right. exists c. split; [done|]. apply (IH c Hc). by exists t, n.
Qed.

(** a workflow is said to require an LLM exactly when one of its steps, or
    a step nested in one of them at any depth - in a branch, a loop body, a
    saga's step or compensation, an error handler - calls an LLM node. *)
Theorem RequiresLLM_spec wf : RequiresLLM lower (Some wf) = true <->
  exists s t node, s ∈ wf_Steps wf /\ nested s t /\ node ∈ called_nodes t /\ IsLLMNode lower node = true.
Proof.
  cbn [RequiresLLM]. rewrite existsb_exists. split.
  - intros (s & Hs & (t & n & H)%stepRequiresLLM_spec). exists s, t, n. by rewrite list_elem_of_In.
  - intros (s & t & n & Hs & H). exists s. rewrite <- list_elem_of_In. split; [done|].
    apply stepRequiresLLM_spec. by exists t, n.
Qed.

(** The list differs from the one of the policy executor in one provider: a
    workflow that calls only [fastgpt] is not said to require an LLM. *)
Theorem fastgpt_is_missed node : isLLMProviderNode node = true ->
  (IsLLMNode lower node = true <-> node <> "fastgpt").
Proof.
  unfold isLLMProviderNode. rewrite bool_decide_eq_true. intros H. revert node H.
  apply Forall_forall. unfold llmProviderNodes. repeat constructor; done.
Qed.

(** A provider under any case and with spaces around it is still found. *)
Example IsLLMNode_folds : IsLLMNode lower "  OpenAI " = true /\ IsLLMNode lower "groq" = false.
Proof. done. Qed.
End llm_proofs.

(** ** The matcher *)

Definition is_spaces (w : string) : Prop := str_forall re_space w = true.
Definition is_name (n : string) : Prop :=
  exists c n', n = String c n' /\ ident_start c = true /\ str_forall ident_char n' = true.

(** The regular expression, read as a grammar: [m] matches it with the
    submatch [name]. *)
Definition is_ref (m name : string) : Prop :=
  exists w1 d w2 k w3 w4 w5,
    m = "{{" +:+ w1 +:+ d +:+ w2 +:+ k +:+ w3 +:+ "." +:+ w4 +:+ name +:+ w5 +:+ "}}" /\
    Forall is_spaces [w1; w2; w3; w4; w5] /\ d ∈ [""; "."] /\ k ∈ ["var"; "params"] /\ is_name name.

(** A text whose first character, if any, does not satisfy [p]. *)
Definition stops (p : ascii -> bool) (s : string) : Prop :=
  match s with "" => True | String c _ => p c = false end.

Lemma span_spec p s a b : span p s = (a, b) <-> s = a +:+ b /\ str_forall p a = true /\ stops p b.
Proof.
  revert a b. induction s as [|c s IH]; intros a b; cbn [span].
  - split; [by intros [= <- <-]|]. by intros (H & _); destruct a, b.
  - destruct (p c) eqn:E.
    + destruct (span p s) as [a' b'] eqn:Es. split.
      * intros [= <- <-]. destruct (proj1 (IH a' b') eq_refl) as (-> & Ha & Hb). cbn. by rewrite E.
      * intros (H & Ha & Hb). destruct a as [|c' a]; cbn in H.
        { subst b. cbn in Hb. congruence. }
        injection H as <- Hs. cbn in Ha. rewrite E in Ha. cbn in Ha.
        assert ((a', b') = (a, b)) as [= -> ->]; [|done]. by apply IH.
    + split; [by intros [= <- <-]|]. intros (H & Ha & Hb). destruct a as [|c' a]; cbn in H; [by subst b|].
      injection H as <- Hs. cbn in Ha. by rewrite E in Ha.
Qed.

Lemma skip_spaces_app w s : is_spaces w -> stops re_space s -> skip_spaces (w +:+ s) = s.
Proof. intros Hw Hs. unfold skip_spaces. by rewrite (proj2 (span_spec re_space (w +:+ s) w s)). Qed.
Lemma skip_spaces_split s : exists w, is_spaces w /\ s = w +:+ skip_spaces s /\ stops re_space (skip_spaces s).
Proof.
  unfold skip_spaces. destruct (span re_space s) as [w r] eqn:E. apply span_spec in E as (-> & Hw & Hr).
  by exists w.
Qed.

Lemma eat_spec p s r : eat p s = Some r <-> s = p +:+ r.
Proof.
  unfold eat. destruct (HasPrefix s p) eqn:E.
  - apply prefix_app in E as (t & ->). rewrite str_drop_app. split; [by intros [= ->]|].
    by intros ->%string_app_inj_l.
  - split; [done|]. intros ->. by rewrite HasPrefix_app in E.
Qed.

Lemma ident_start_char c : ident_start c = true -> ident_char c = true.
Proof. unfold ident_char. by intros ->. Qed.

(** Classes of characters that exclude one another. *)
Lemma name_no_space c : ident_char c = true -> re_space c = false.
Proof.
  unfold ident_char, ident_start, re_space. intros H. apply not_true_is_false.
  rewrite !orb_true_iff, !andb_true_iff in H. rewrite !orb_true_iff, !N.eqb_eq, !N.leb_le in *. lia.
Qed.
Lemma space_no_name c : re_space c = true -> ident_char c = false.
Proof.
  intros H. apply not_true_is_false. intros Hn. apply name_no_space in Hn. congruence.
Qed.

Lemma stops_name n s : is_name n -> stops re_space (n +:+ s).
Proof.
  intros (c & n' & -> & Hc & _). cbn. by apply name_no_space, ident_start_char.
Qed.
Lemma ident_chars n : is_name n -> str_forall ident_char n = true.
Proof. intros (c & n' & -> & Hc & Hn). cbn. by rewrite ident_start_char, Hn. Qed.

Lemma match_ref_complete m name rest : is_ref m name -> match_ref (m +:+ rest) = Some (name, rest).
Proof.
  intros (w1 & d & w2 & k & w3 & w4 & w5 & -> & Hw & Hd & Hk & Hn).
  rewrite !Forall_cons in Hw. destruct Hw as (H1 & H2 & H3 & H4 & H5 & _).
  rewrite !string_app_assoc. unfold match_ref.
  rewrite (proj2 (eat_spec _ _ _) eq_refl). cbn [mbind option_bind].
  set (tl := (k +:+ _)%string). assert (stops re_space tl) as Htl.
  { unfold tl. apply elem_of_cons in Hk as [->|Hk%list_elem_of_singleton]; [done|by subst k]. }
  assert (skip_spaces (default (skip_spaces (w1 +:+ d +:+ w2 +:+ tl)) (eat "." (skip_spaces (w1 +:+ d +:+ w2 +:+ tl)))) = tl) as ->.
  { apply elem_of_cons in Hd as [->|Hd%list_elem_of_singleton]; [|subst d].
    - cbn [String.app]. rewrite <- string_app_assoc, skip_spaces_app; [|unfold is_spaces; by rewrite str_forall_app, H1|done].
      assert (eat "." tl = None) as ->.
      { unfold tl. apply elem_of_cons in Hk as [->|Hk%list_elem_of_singleton]; [done|by subst k]. }
      cbn. by apply (skip_spaces_app "").
    - rewrite skip_spaces_app by done. rewrite (proj2 (eat_spec "." _ _) eq_refl). cbn [default].
      by apply skip_spaces_app. }
  assert (match eat "var" tl with Some s => Some s | None => eat "params" tl end
          = Some (w3 +:+ "." +:+ w4 +:+ name +:+ w5 +:+ "}}" +:+ rest)) as ->.
  { unfold tl. apply elem_of_cons in Hk as [->|Hk%list_elem_of_singleton]; [|subst k].
    - by rewrite (proj2 (eat_spec "var" _ _) eq_refl).
    - rewrite (proj2 (eat_spec "params" _ _) eq_refl). done. }
  cbn [mbind option_bind]. rewrite skip_spaces_app by done.
  rewrite (proj2 (eat_spec "." _ _) eq_refl). cbn [mbind option_bind].
  rewrite skip_spaces_app by (done || by apply stops_name).
  rewrite (proj2 (span_spec ident_char _ name (w5 +:+ "}}" +:+ rest))).
  - destruct Hn as (c & n' & -> & Hc & _). rewrite Hc, skip_spaces_app by done.
    by rewrite (proj2 (eat_spec "}}" _ _) eq_refl).
  - split_and!; [done|by apply ident_chars|]. destruct w5 as [|c w5]; [done|].
    cbn. unfold is_spaces in H5. cbn in H5. apply andb_true_iff in H5 as [H5 _]. by apply space_no_name.
Qed.

Lemma match_ref_sound s name rest : match_ref s = Some (name, rest) ->
  exists m, is_ref m name /\ s = m +:+ rest.
Proof.
  unfold match_ref. intros H.
  apply bind_Some in H as (s1 & ->%eat_spec & H).
  destruct (skip_spaces_split s1) as (w1 & Hw1 & E1 & _). set (s2 := skip_spaces s1) in *.
  destruct (skip_spaces_split (default s2 (eat "." s2))) as (w2 & Hw2 & E2 & _).
  set (s3 := skip_spaces (default s2 (eat "." s2))) in *.
  assert (exists d, d ∈ [""; "."] /\ s2 = d +:+ default s2 (eat "." s2)) as (d & Hd & E3).
  { destruct (eat "." s2) as [r|] eqn:E; cbn; [|exists ""; split; [by left|done]].
    exists ".". apply eat_spec in E. split; [by right; left|done]. }
  apply bind_Some in H as (s4 & E4 & H).
  assert (exists k, k ∈ ["var"; "params"] /\ s3 = k +:+ s4) as (k & Hk & Ek).
  { destruct (eat "var" s3) as [r|] eqn:E; [exists "var"|exists "params"].
    - injection E4 as ->. apply eat_spec in E. split; [by left|done].
    - apply eat_spec in E4. split; [by right; left|done]. }
  apply bind_Some in H as (s5 & E5%eat_spec & H).
  destruct (skip_spaces_split s4) as (w3 & Hw3 & E6 & _). rewrite E5 in E6.
  destruct (skip_spaces_split s5) as (w4 & Hw4 & E7 & _).
  destruct (span ident_char (skip_spaces s5)) as [n r] eqn:En.
  apply span_spec in En as (E8 & Hn & _). destruct n as [|c n']; [done|].
  destruct (ident_start c) eqn:Hc; [|done].
  apply bind_Some in H as (s6 & E9%eat_spec & [= <- <-]).
  destruct (skip_spaces_split r) as (w5 & Hw5 & E10 & _).
  exists ("{{" +:+ w1 +:+ d +:+ w2 +:+ k +:+ w3 +:+ "." +:+ w4 +:+ String c n' +:+ w5 +:+ "}}"). split.
  - exists w1, d, w2, k, w3, w4, w5. split; [done|]. rewrite !Forall_cons.
    split_and!; try done. exists c, n'. cbn in Hn. by apply andb_true_iff in Hn as [_ Hn].
  - rewrite !string_app_assoc. do 2 f_equal. rewrite E1. f_equal. rewrite E3. f_equal. rewrite E2. f_equal.
    rewrite Ek. f_equal. rewrite E6. f_equal. f_equal. rewrite E7. f_equal. rewrite E8. f_equal. rewrite E10. by f_equal.
Qed.

(** [match_ref] decides the grammar at the start of a text. *)
Lemma match_ref_spec s name rest :
  match_ref s = Some (name, rest) <-> exists m, is_ref m name /\ s = m +:+ rest.
Proof.
  split; [apply match_ref_sound|]. intros (m & Hm & ->). by apply match_ref_complete.
Qed.

(** ** All matches *)

(** A match opens with the only two braces of their kind in it. *)
Lemma is_ref_shape m name : is_ref m name ->
  exists c t, m = "{{" +:+ String c t /\ str_has "{" (String c t) = false.
Proof.
  intros (w1 & d & w2 & k & w3 & w4 & w5 & -> & Hw & Hd & Hk & Hn).
  rewrite !Forall_cons in Hw. destruct Hw as (H1 & H2 & H3 & H4 & H5 & _).
  assert (str_has "{" (w1 +:+ d +:+ w2 +:+ k +:+ w3 +:+ "." +:+ w4 +:+ name +:+ w5 +:+ "}}") = false) as H.
  { apply ident_chars in Hn. rewrite !str_has_app.
    assert (forall w, is_spaces w -> str_has "{" w = false) as Hsp by (intros w Hw; by apply (str_forall_has re_space)).
    rewrite (Hsp w1), (Hsp w2), (Hsp w3), (Hsp w4), (Hsp w5) by done.
    rewrite (str_forall_has ident_char "{" name) by done.
    apply elem_of_cons in Hd as [->|Hd%list_elem_of_singleton]; [|subst d];
      (apply elem_of_cons in Hk as [->|Hk%list_elem_of_singleton]; [|subst k]); done. }
  destruct (w1 +:+ d +:+ w2 +:+ k +:+ w3 +:+ "." +:+ w4 +:+ name +:+ w5 +:+ "}}") as [|c t] eqn:E.
  - exfalso. apply (f_equal String.length) in E. rewrite !string_length_app in E. cbn in E. lia.
  - by exists c, t.
Qed.

Lemma skip_clean t rest a z : str_has "{" t = false -> t +:+ rest = a +:+ String "{" z ->
  exists a', a = t +:+ a' /\ rest = a' +:+ String "{" z.
Proof.
  revert a. induction t as [|c t IH]; intros a Ht H; [by exists a|].
  cbn [str_has] in Ht. apply orb_false_iff in Ht as [Hc Ht]. apply bool_decide_eq_false in Hc.
  destruct a as [|c' a]; cbn in H; injection H; [congruence|].
  intros H' <-. destruct (IH a Ht H') as (a' & -> & ->). by exists a'.
Qed.

(** The next occurrence after a match starts behind it. *)
Lemma next_ref m n rest a m' n' rest' : is_ref m n -> is_ref m' n' -> a <> "" ->
  m +:+ rest = a +:+ m' +:+ rest' -> exists a', rest = a' +:+ m' +:+ rest'.
Proof.
  intros (c & t & -> & Ht)%is_ref_shape (c' & t' & -> & _)%is_ref_shape Ha H.
  destruct a as [|x a]; [done|]. cbn in H. injection H as <- H.
  destruct a as [|y a]; cbn in H.
  { injection H as -> H. by cbn in Ht. }
  injection H as <- H.
  destruct (skip_clean (String c t) rest a _ Ht H) as (a' & _ & ->). by exists a'.
Qed.

Lemma find_refs_spec fuel s x : String.length s < fuel ->
  x ∈ find_refs fuel s <-> exists a m rest, s = a +:+ m +:+ rest /\ is_ref m x.
Proof.
  revert s. induction fuel as [|fuel IH]; intros s Hf; [lia|]. cbn [find_refs].
  destruct (match_ref s) as [[n r]|] eqn:E.
  - apply match_ref_spec in E as (m & Hm & ->).
    assert (String.length r < fuel) as Hr.
    { rewrite string_length_app in Hf. destruct (is_ref_shape m n Hm) as (c & t & -> & _). cbn in Hf. lia. }
    rewrite elem_of_cons, (IH r Hr). split.
    + intros [->|(a & m' & rest & -> & Hx)]; [by exists "", m, r|].
      exists (m +:+ a), m', rest. by rewrite string_app_assoc.
    + intros (a & m' & rest & H & Hx). destruct (decide (a = "")) as [->|Ha].
      * left. cbn in H. pose proof (match_ref_complete m n r Hm) as E1.
        rewrite H, (match_ref_complete m' x rest Hx) in E1. congruence.
      * right. destruct (next_ref m n r a m' x rest Hm Hx Ha H) as (a' & ->). by exists a', m', rest.
  - assert (forall m rest, s = m +:+ rest -> ~ is_ref m x) as Hno.
    { intros m rest -> Hm. by rewrite (match_ref_complete m x rest Hm) in E. }
    destruct s as [|c s].
    + split; [by intros ?%elem_of_nil|]. intros (a & m & rest & H & Hm).
      destruct a; [|done]. by destruct (Hno m rest).
    + rewrite IH by (cbn in Hf; lia). split.
      * intros (a & m & rest & -> & Hm). by exists (String c a), m, rest.
      * intros (a & m & rest & H & Hm). destruct a as [|c' a]; [by destruct (Hno m rest)|].
        injection H as <- H. by exists a, m, rest.
Qed.

(** the scan for references finds exactly the names at which the regular
    expression matches somewhere in the text: skipping over a match loses
    none. *)
Theorem FindAllRefs_spec s x : x ∈ FindAllRefs s <-> exists a m rest, s = a +:+ m +:+ rest /\ is_ref m x.
Proof. apply find_refs_spec. lia. Qed.

(** ** The sort *)

Lemma ltb_false_le x y : String.ltb x y = false -> String.le y x.
Proof.
  unfold String.le, String.ltb, String.leb. rewrite (String.compare_antisym x y). by destruct (String.compare y x).
Qed.
Lemma ltb_true_le x y : String.ltb x y = true -> String.le x y.
Proof. unfold String.le, String.ltb, String.leb. by destruct (String.compare x y). Qed.

Lemma sift_name_spec x l : StronglySorted (flip String.le) l ->
  StronglySorted (flip String.le) (sift_name x l) /\ sift_name x l ≡ₚ x :: l.
Proof.
  induction l as [|y l IH]; intros Hs; cbn [sift_name]; [split; by repeat constructor|].
  apply StronglySorted_inv in Hs as [Hs Hy]. destruct (IH Hs) as [IH1 IH2].
  destruct (String.ltb x y) eqn:E; split.
  - constructor; [done|]. rewrite IH2. constructor; [by apply ltb_true_le|exact Hy].
  - rewrite IH2. apply Permutation_swap.
  - apply ltb_false_le in E. constructor; [by constructor|]. constructor; [done|].
    eapply Forall_impl; [exact Hy|]. intros z Hz. unfold flip in *. by trans y.
  - done.
Qed.

Lemma sift_names_spec l acc : StronglySorted (flip String.le) acc ->
  StronglySorted (flip String.le) (foldl (fun acc x => sift_name x acc) acc l) /\
  foldl (fun acc x => sift_name x acc) acc l ≡ₚ acc ++ l.
Proof.
  revert acc. induction l as [|x l IH]; intros acc Ha; cbn [foldl]; [by rewrite app_nil_r|].
  destruct (sift_name_spec x acc Ha) as [H1 H2]. destruct (IH _ H1) as [H3 H4]. split; [done|].
  rewrite H4, H2. apply Permutation_middle.
Qed.

Lemma StronglySorted_reverse {A} (R : relation A) l : StronglySorted (flip R) l -> StronglySorted R (reverse l).
Proof.
  induction 1 as [|x l Hs IH Hx]; [constructor|]. rewrite reverse_cons.
  apply StronglySorted_app_2; [|done|by repeat constructor].
  intros y z Hy ->%list_elem_of_singleton. rewrite Forall_forall in Hx.
  apply Hx. by apply elem_of_reverse.
Qed.

(** The exchange loop sorts. *)
Lemma sort_names_spec l : StronglySorted String.le (sort_names l) /\ sort_names l ≡ₚ l.
Proof.
  destruct (sift_names_spec l [] ltac:(constructor)) as [H1 H2]. unfold sort_names.
  split; [by apply StronglySorted_reverse|]. by rewrite reverse_Permutation, H2.
Qed.

(** ** The parameters of a workflow *)

(** The texts of a step itself: not those of the steps nested in it. *)
Definition own_texts (s : WorkflowStep) : list string :=
  (param_texts (ws_Params s) ++ [ws_Condition s] ++ flat_map simple_texts (ws_Parallel s) ++
   match ws_OnError s with Some o => simple_texts o | None => [] end ++
   match ws_If s with Some c => [if_Condition c] | None => [] end ++
   match ws_Map s with Some c => [map_Over c] | None => [] end ++
   match ws_Reduce s with Some c => [red_Over c; red_Initial c] | None => [] end ++
   match ws_Loop s with Some c => [loop_Items c] | None => [] end)%list.

Lemma collectStepRefs_eq s t : t ∈ collectStepRefs s <->
  t ∈ own_texts s \/ exists c, In c (step_children s) /\ t ∈ collectStepRefs c.
Proof.
  rewrite <- in_flat_map_iff.
  destruct s as [? ? ? params cond ? ? ? par ? ? oe loop ? ifc mapc ? red saga cap].
  unfold own_texts, step_children. cbn [collectStepRefs ws_Params ws_Condition ws_Parallel ws_OnError ws_If ws_Map ws_Reduce ws_Loop ws_Saga ws_CaptureError].
  rewrite !flat_map_app, !elem_of_app.
  assert (t ∈ match ifc with Some c => if_Condition c :: flat_map collectStepRefs (if_Then c) ++
                flat_map collectStepRefs (if_Else c) | None => [] end%list <->
          t ∈ match ifc with Some c => [if_Condition c] | None => [] end \/
          t ∈ flat_map collectStepRefs match ifc with Some c => if_Then c ++ if_Else c | None => [] end%list) as ->
    by (destruct ifc; rewrite ?flat_map_app; set_solver).
  assert (t ∈ match mapc with Some c => map_Over c :: flat_map collectStepRefs (map_Steps c) | None => [] end <->
          t ∈ match mapc with Some c => [map_Over c] | None => [] end \/
          t ∈ flat_map collectStepRefs match mapc with Some c => map_Steps c | None => [] end) as ->
    by (destruct mapc; set_solver).
  assert (t ∈ match red with Some c => [red_Over c; red_Initial c] ++ flat_map collectStepRefs (red_Steps c) | None => [] end%list <->
          t ∈ match red with Some c => [red_Over c; red_Initial c] | None => [] end \/
          t ∈ flat_map collectStepRefs match red with Some c => red_Steps c | None => [] end) as ->
    by (destruct red; set_solver).
  assert (t ∈ match saga with Some c => flat_map (fun sg => collectStepRefs (sg_Forward sg) ++
              match sg_Compensate sg with Some cs => collectStepRefs cs | None => [] end) (sg_Steps c) | None => [] end%list <->
          t ∈ flat_map collectStepRefs match saga with Some c => flat_map (fun sg => sg_Forward sg ::
              match sg_Compensate sg with Some cs => [cs] | None => [] end) (sg_Steps c) | None => [] end) as ->
    by (destruct saga as [c|]; [rewrite saga_collect, <- in_flat_map_iff|]; done).
  tauto.
Qed.

Lemma collectStepRefs_spec s t : t ∈ collectStepRefs s <-> exists u, nested s u /\ t ∈ own_texts u.
Proof. revert s t. apply nested_collect, collectStepRefs_eq. Qed.

(** The name is referred to in a text of a step, or of a nested one. *)
Definition referenced (wf : Workflow) (x : string) : Prop :=
  exists s u t, s ∈ wf_Steps wf /\ nested s u /\ t ∈ own_texts u /\
    exists a m rest, t = a +:+ m +:+ rest /\ is_ref m x.

Lemma elem_of_seen wf x : x ∈ seen_refs (flat_map collectStepRefs (wf_Steps wf)) <-> referenced wf x.
Proof.
  unfold seen_refs, referenced. rewrite elem_of_list_to_set, in_flat_map_iff.
  setoid_rewrite <- list_elem_of_In. setoid_rewrite in_flat_map_iff.
  setoid_rewrite <- list_elem_of_In. setoid_rewrite collectStepRefs_spec. setoid_rewrite FindAllRefs_spec.
  naive_solver.
Qed.

Section params.
Context (range : gset string -> list string).
Hypothesis range_keys : forall s, range s ≡ₚ elements s.

(** the parameters reported for a workflow are exactly the names that a
    template in one of the texts looked at refers to, in increasing order,
    each of them once, whatever the order in which the set is visited. *)
Theorem ExtractReferencedVars_spec wf :
  let out := ExtractReferencedVars range (Some wf) in
  StronglySorted String.le out /\ NoDup out /\ (forall x, x ∈ out <-> referenced wf x).
Proof using range_keys.
  cbn. case_decide as Hs.
  - apply size_empty_inv in Hs. split_and!; [constructor|constructor|].
    intros x. rewrite <- elem_of_seen, Hs. set_solver.
  - destruct (sort_names_spec (range (seen_refs (flat_map collectStepRefs (wf_Steps wf))))) as [H1 H2].
    assert (sort_names (range (seen_refs (flat_map collectStepRefs (wf_Steps wf)))) ≡ₚ
            elements (seen_refs (flat_map collectStepRefs (wf_Steps wf)))) as H3 by (by etrans).
    split_and!; [done|by rewrite H3; apply NoDup_elements|].
    intros x. by rewrite H3, elem_of_elements, elem_of_seen.
Qed.

(** The order of visiting makes no difference. *)
Lemma ExtractReferencedVars_order range' wf : (forall s, range' s ≡ₚ elements s) ->
  ExtractReferencedVars range' wf = ExtractReferencedVars range wf.
Proof using range_keys.
  intros H'. destruct wf as [wf|]; [|done]. cbn. case_decide; [done|].
  apply (StronglySorted_unique String.le); [apply sort_names_spec..|].
  etrans; [apply sort_names_spec|]. rewrite H', <- range_keys. symmetry. apply sort_names_spec.
Qed.

(** the template of a step's [input:] is not looked at: a workflow whose
    only reference is there reports no parameter. *)
Theorem input_refs_missed : exists s,
  ws_Input s = Some (mkStepInput ["{{var.city}}"]) /\ is_ref "{{var.city}}" "city" /\
  forall name desc vars out schema conc sched,
    ExtractReferencedVars range (Some (mkWorkflow name desc vars [s] out schema conc sched)) = [].
Proof.
  exists (mkWorkflowStep "combine" "" "" ∅ "" 0 "" None [] false "" None None 0 None None
    (Some (mkStepInput ["{{var.city}}"])) None None [] "" [] false "" "" "" "" false).
  split; [done|]. split; [|done].
  exists "", "", "", "var", "", "", "". split; [done|]. split_and!; [by repeat constructor|by left|by left|].
  by eexists _, _.
Qed.
End params.

Definition town_workflow : Workflow :=
  mkWorkflow "town" "" ∅
    [mkWorkflowStep "combine" "" "" {["a" := "{{var.zone}} {{ .params.area }}"]} "" 0 "" None []
      false "" None None 0 None
      (Some (mkMapConfig "{{var.items}}" [node_step "openai" "inner"] "" 0 None 0 "" 0))
      None None None [] "" [] false "" "" "" "" false] "" [] 0 None.

(** at a workflow with three references and a nested LLM node. *)
Lemma ExtractReferencedVars_witness :
  (forall s : gset string, elements s ≡ₚ elements s) /\
  ExtractReferencedVars elements (Some town_workflow) = ["area"; "items"; "zone"] /\
  RequiresLLM id (Some town_workflow) = true /\
  StronglySorted String.le (ExtractReferencedVars elements (Some town_workflow)).
Proof.
  split; [reflexivity|]. split; [vm_compute; reflexivity|]. split; [vm_compute; reflexivity|].
  apply (ExtractReferencedVars_spec elements ltac:(reflexivity) town_workflow).
Defined.
