(* ===== verification/Agents.v ===== *)
(** * External agents: registry, command lines and output
    (src/internal/agentx/agentx.go, registry.go, cli.go)

    aflare delegates work to other agents, which it starts as command line
    programs or calls over HTTP.  This file has their definitions with the
    overlay of the configuration over the presets, the validation of a
    definition, the argument vector of a command line agent, and the removal
    of escape sequences from its output.  The calls are in AgentClient. *)

From S2P Require Import Prelude GoStrings GoText GoTime GoPath.
From Stdlib Require Import Ascii.

#[local] Open Scope string_scope.

(** ** Data *)

Definition DriverCLI : string := "cli".
Definition DriverA2A : string := "a2a".

(** A delegated task; the audit hook belongs to the environment of a call. *)
Record AgentTask := mkAgentTask {
  at_Prompt : string;
  at_Model : string;
  at_Sandbox : string;
  at_Approval : string;
  at_Cwd : string;
  at_MaxTurns : Z;
  at_Timeout : Z;
  at_Audit : bool
}.

Definition DefaultTimeout : Z := 10 * Minute.
Definition MaxTimeout : Z := 60 * Minute.
Definition resolveTimeout (t : AgentTask) : Z :=
  (if at_Timeout t <=? 0 then DefaultTimeout
   else if MaxTimeout <? at_Timeout t then MaxTimeout else at_Timeout t)%Z.

Record AgentDef := mkAgentDef {
  ad_Name : string;
  ad_Driver : string;
  ad_Description : string;
  ad_Profile : string;
  ad_Binary : string;
  ad_Args : list string;
  ad_URL : string;
  ad_APIKeyEnv : string;
  ad_Model : string;
  ad_Sandbox : string;
  ad_Approval : string;
  ad_Enabled : option bool
}.
#[export] Instance AgentDef_eq_dec : EqDecision AgentDef.
Proof. solve_decision. Defined.

(** ** Registry *)

Definition preset (name description sandbox approval : string) : AgentDef :=
  mkAgentDef name DriverCLI description name name [] "" "" "" sandbox approval (Some true).

Definition builtinPresets : gmap string AgentDef :=
  {["codex" := preset "codex" "OpenAI Codex CLI agent (codex exec, non-interactive)" "strict" "never";
    "claude" := preset "claude" "Anthropic Claude Code CLI agent (headless -p mode)" "default" "never";
    "gemini" := preset "gemini" "Google Gemini CLI agent (non-interactive -p mode)" "" ""]}.

Definition if_empty (a b : string) : string := if decide (a = "") then b else a.

(** The fields of a preset that an override leaves unset. *)
Definition inherit (p def : AgentDef) : AgentDef :=
  mkAgentDef (ad_Name def) (if_empty (ad_Driver def) (ad_Driver p))
    (if_empty (ad_Description def) (ad_Description p)) (if_empty (ad_Profile def) (ad_Profile p))
    (if_empty (ad_Binary def) (ad_Binary p)) (ad_Args def) (ad_URL def) (ad_APIKeyEnv def) (ad_Model def)
    (if_empty (ad_Sandbox def) (ad_Sandbox p)) (if_empty (ad_Approval def) (ad_Approval p)) (ad_Enabled def).

Definition set_name_driver (name : string) (def : AgentDef) : AgentDef :=
  mkAgentDef name (if_empty (ad_Driver def) DriverCLI) (ad_Description def) (ad_Profile def) (ad_Binary def)
    (ad_Args def) (ad_URL def) (ad_APIKeyEnv def) (ad_Model def) (ad_Sandbox def) (ad_Approval def)
    (ad_Enabled def).

(** One iteration of the loop over the configured agents. *)
Definition overlay_one (agents : gmap string AgentDef) (nd : string * AgentDef) : gmap string AgentDef :=
  let '(name, def) := nd in
  if decide (name = "") then agents else
  let def := match agents !! name with Some p => inherit p def | None => def end in
  <[name := set_name_driver name def]> agents.

Record Registry := mkRegistry {
  rg_agents : gmap string AgentDef;
  rg_loaded : bool;
  rg_loader : bool
}.

(** At the start the agents are nil and the loader returns nil. *)
Definition globalRegistry : Registry := mkRegistry ∅ false true.
Definition SetLoader (hasLoader : bool) (r : Registry) : Registry := mkRegistry (rg_agents r) false hasLoader.

(** [config] is what a call of the loader returns, in the order in which
    [range] visits it. *)
Definition ensureLoaded (config : list (string * AgentDef)) (r : Registry) : Registry :=
  if rg_loaded r then r else
  mkRegistry (if rg_loader r then foldl overlay_one builtinPresets config else builtinPresets) true (rg_loader r).

Definition agents_Get (config : list (string * AgentDef)) (name : string) (r : Registry)
    : option AgentDef * Registry :=
  let r := ensureLoaded config r in (rg_agents r !! name, r).

Definition agent_le (a b : AgentDef) : Prop := String.le (ad_Name a) (ad_Name b).
#[export] Instance agent_le_dec : RelDecision agent_le := fun a b => _.
Definition agents_List (config : list (string * AgentDef)) (r : Registry) : list AgentDef * Registry :=
  let r := ensureLoaded config r in (merge_sort agent_le (map_to_list (rg_agents r)).*2, r).

Definition IsBuiltinAgentName (name : string) : bool := bool_decide (is_Some (builtinPresets !! name)).

(** ** Validation *)

Definition validProfiles : list string := ["codex"; "claude"; "gemini"; "generic"].

Definition set_profile (p : string) (def : AgentDef) : AgentDef :=
  mkAgentDef (ad_Name def) (ad_Driver def) (ad_Description def) p (ad_Binary def) (ad_Args def) (ad_URL def)
    (ad_APIKeyEnv def) (ad_Model def) (ad_Sandbox def) (ad_Approval def) (ad_Enabled def).

Definition Resolve (def : AgentDef) : result AgentDef :=
  if decide (ad_Name def = "") then Err "agent definition has no name" else
  if decide (ad_Enabled def = Some false) then Err "agent is disabled" else
  if decide (ad_Driver def = DriverCLI) then
    if decide (ad_Binary def = "") then Err "cli driver requires binary" else
    let def := set_profile (if_empty (ad_Profile def) "generic") def in
    if decide (ad_Profile def ∉ validProfiles) then Err "unknown cli profile" else
    if existsb (fun arg => Contains arg "{prompt}") (ad_Args def)
    then Err "args must not contain the {prompt} placeholder; the prompt is appended automatically"
    else Ok def
  else if decide (ad_Driver def = DriverA2A) then
    if decide (ad_URL def = "") then Err "a2a driver requires url" else Ok def
  else Err "unknown driver (want cli or a2a)".

(** ** Command lines *)

Definition maxPromptChars : Z := 100000.
Definition maxOutputBytes : Z := 10 * 1024 * 1024.

Definition orDefault (value fallback : string) : string :=
  if decide (TrimSpace value <> "") then TrimSpace value else fallback.

Definition clampTurns (maxTurns : Z) : Z :=
  (if maxTurns <? 0 then 0 else if 1000 <? maxTurns then 1000 else maxTurns)%Z.

(** A rune outside of ASCII has only bytes above 127, none of them allowed. *)
Definition model_char (c : ascii) : bool :=
  let n := N_of_ascii c in
  ((97 <=? n) && (n <=? 122) || (65 <=? n) && (n <=? 90) || (48 <=? n) && (n <=? 57)
   || (n =? 46) || (n =? 45) || (n =? 95) || (n =? 47))%N.
Definition isValidModelName (s : string) : bool :=
  bool_decide (s <> "" /\ (String.length s <= 128)%nat) && negb (HasPrefix s "-") && str_forall model_char s.

Definition validCodexSandboxes : list string := ["strict"; "permissive"; "danger-full-access"].
Definition validCodexApprovals : list string := ["never"; "on-failure"; "on-request"; "untrusted"].

Definition model_args (model : string) : list string :=
  if decide (model = "") then [] else ["--model"; model].
Definition turn_args (maxTurns : Z) : list string :=
  if decide (0 < maxTurns)%Z then ["--max-turns"; Itoa (clampTurns maxTurns)] else [].

Definition buildProfileArgs (def : AgentDef) (prompt model sandbox approval : string) (maxTurns : Z)
    (cwd : string) : result (list string) :=
  if decide (ad_Profile def = "codex") then
    let sandbox := orDefault sandbox "strict" in
    let approval := orDefault approval "never" in
    if decide (sandbox ∉ validCodexSandboxes) then Err "invalid codex sandbox" else
    if decide (approval ∉ validCodexApprovals) then Err "invalid codex approval_policy" else
    Ok (["exec"; "--sandbox"; sandbox; "--approval-policy"; approval] ++ model_args model ++
        turn_args maxTurns ++ (if decide (cwd = "") then [] else ["--cwd"; cwd]) ++ ["--"; prompt])%list
  else if decide (ad_Profile def = "claude") then
    if decide (orDefault approval "never" <> "never")
    then Err "claude profile only supports approval_policy=never in non-interactive runs"
    else Ok (["-p"; prompt; "--output-format"; "text"] ++ model_args model ++ turn_args maxTurns)%list
  else if decide (ad_Profile def = "gemini") then Ok (["-p"; prompt] ++ model_args model)%list
  else if decide (ad_Profile def = "generic") then Ok (ad_Args def ++ ["--"; prompt])%list
  else Err "unknown cli profile".

(** ** Escape sequences *)

Definition ESC : ascii := ascii_of_nat 27.
Definition BEL : ascii := ascii_of_nat 7.
Definition byte_in (lo hi : N) (c : ascii) : bool := ((lo <=? N_of_ascii c) && (N_of_ascii c <=? hi))%N.
(** [[0-9;?]], [[ -/]], [[@-~]] and [[^\x07\x1b]] *)
Definition csi_param (c : ascii) : bool := byte_in 48 57 c || byte_in 59 59 c || byte_in 63 63 c.
Definition csi_inter : ascii -> bool := byte_in 32 47.
Definition csi_final : ascii -> bool := byte_in 64 126.
Definition osc_body (c : ascii) : bool := bool_decide (c <> BEL /\ c <> ESC).

Fixpoint skip_while (p : ascii -> bool) (s : string) : string :=
  match s with
  | "" => ""
  | String c s' => if p c then skip_while p s' else s
  end.

(** What follows a match of [ansiPattern] at the start of a text.  The classes
    of a sequence are disjoint, so the greedy choice is the only one. *)
Definition match_ansi (s : string) : option string :=
  match s with
  | String e (String b s) =>
      if negb (bool_decide (e = ESC)) then None else
      if bool_decide (b = "["%char) then
        match skip_while csi_inter (skip_while csi_param s) with
        | String f r => if csi_final f then Some r else None
        | "" => None
        end
      else if bool_decide (b = "]"%char) then
        match skip_while osc_body s with
        | String x r =>
            if bool_decide (x = BEL) then Some r else
            match r with
            | String y r' => if bool_decide (y = "\"%char) then Some r' else None
            | "" => None
            end
        | "" => None
        end
      else None
  | _ => None
  end.

Fixpoint strip_matches (fuel : nat) (s : string) : string :=
  match fuel with
  | O => s
  | S fuel =>
      match match_ansi s with
      | Some rest => strip_matches fuel rest
      | None => match s with "" => "" | String c s' => String c (strip_matches fuel s') end
      end
  end.
Definition stripANSI (s : string) : string :=
  if negb (str_has ESC s) then s else strip_matches (String.length s) s.

(** ** The registry *)

Section overlay.
Context (config : list (string * AgentDef)) (cfg : gmap string AgentDef).
(** [range] visits every key of the configuration once. *)
Hypothesis config_range : config ≡ₚ map_to_list cfg.

(** What the registry has for a name. *)
Definition agent_of (name : string) : option AgentDef :=
  match cfg !! name with
  | Some def =>
      if decide (name = "") then None else
      Some (set_name_driver name
              match builtinPresets !! name with Some p => inherit p def | None => def end)
  | None => builtinPresets !! name
  end.

Lemma overlay_other l agents name : name ∉ l.*1 -> foldl overlay_one agents l !! name = agents !! name.
Proof using.
  revert agents. induction l as [|[n d] l IH]; intros agents Hn; [done|]. cbn [foldl fmap list_fmap fst] in *.
  apply not_elem_of_cons in Hn as [Hn Hl]. rewrite IH by done. unfold overlay_one.
  case_decide; [done|]. by rewrite lookup_insert_ne by congruence.
Qed.

Lemma overlay_lookup l agents name def : NoDup l.*1 -> (name, def) ∈ l -> name <> "" ->
  foldl overlay_one agents l !! name =
  Some (set_name_driver name match agents !! name with Some p => inherit p def | None => def end).
Proof using.
  revert agents. induction l as [|[n d] l IH]; intros agents Hd Hin Hne; [by apply elem_of_nil in Hin|].
  cbn [foldl fmap list_fmap fst] in *. apply NoDup_cons in Hd as [Hn Hd].
  apply elem_of_cons in Hin as [[= -> ->]|Hin].
  - rewrite overlay_other by done. unfold overlay_one. rewrite decide_False by done. by rewrite lookup_insert_eq.
  - rewrite IH by done. assert (n <> name) as Hnn.
    { intros ->. apply Hn, list_elem_of_fmap. by exists (name, def). }
    unfold overlay_one. case_decide; [done|]. by rewrite lookup_insert_ne.
Qed.

Lemma overlay_agent_of name : foldl overlay_one builtinPresets config !! name = agent_of name.
Proof using config_range.
  assert (NoDup config.*1) as Hd by (rewrite config_range; apply NoDup_fst_map_to_list).
  unfold agent_of. destruct (cfg !! name) as [def|] eqn:E.
  - assert ((name, def) ∈ config) as Hin by (by rewrite config_range, elem_of_map_to_list).
    case_decide as Hn; [|by apply overlay_lookup]. subst name.
    clear - Hd. enough (forall agents, agents !! "" = None -> foldl overlay_one agents config !! "" = None) as H by (by apply H).
    clear Hd. induction config as [|[n d] l IH]; intros agents Ha; [done|]. cbn [foldl]. apply IH.
    unfold overlay_one. case_decide; [done|]. by rewrite lookup_insert_ne.
  - apply overlay_other. rewrite config_range. rewrite list_elem_of_fmap.
    intros ([n d] & -> & Hin%elem_of_map_to_list). cbn in E. congruence.
Qed.

(** an agent is looked up in the configuration first and among the presets
    otherwise; an override of a preset takes the unset driver, profile,
    binary, description, sandbox and approval from it.  The order in which
    the configuration is visited makes no difference, the first access after
    [SetLoader] reads it, and later accesses do not. *)
Theorem registry_overlay name name' config' r : rg_loader r = true -> rg_loaded r = false ->
  let '(a, r1) := agents_Get config name r in
  let '(a', r2) := agents_Get config' name' r1 in
  a = agent_of name /\ a' = agent_of name' /\ r2 = r1.
Proof using config_range.
  intros Hl Hr. unfold agents_Get, ensureLoaded. rewrite Hr, Hl. cbn. by rewrite !overlay_agent_of.
Qed.

(** The listing has every agent once, by name. *)
Lemma agents_List_sorted r : let l := (agents_List config r).1 in
  Sorted agent_le l /\ l ≡ₚ (map_to_list (rg_agents (ensureLoaded config r))).*2.
Proof using.
  cbn. split; [|apply merge_sort_Permutation]. apply Sorted_merge_sort. intros a b. unfold agent_le. apply String.le_total.
Qed.
End overlay.

(** Every registered agent carries its key as its name. *)
Lemma overlay_names config agents : (forall n d, agents !! n = Some d -> ad_Name d = n) ->
  forall n d, foldl overlay_one agents config !! n = Some d -> ad_Name d = n.
Proof.
  revert agents. induction config as [|[m e] l IH]; intros agents Ha n d; [apply Ha|]. cbn [foldl]. apply IH.
  intros k f. unfold overlay_one. case_decide; [apply Ha|].
  intros [[-> <-]|[_ Hk]]%lookup_insert_Some; [done|by apply Ha].
Qed.

(** ** Validation *)

(** What the drivers rely on. *)
Definition usable (d : AgentDef) : Prop :=
  ad_Name d <> "" /\ ad_Enabled d <> Some false /\
  (ad_Driver d = DriverCLI /\ ad_Binary d <> "" /\ ad_Profile d ∈ validProfiles /\
     Forall (fun arg => ~ occurs_in "{prompt}" arg) (ad_Args d) \/
   ad_Driver d = DriverA2A /\ ad_URL d <> "").

Lemma existsb_Contains sub l :
  existsb (fun arg => Contains arg sub) l = false <-> Forall (fun arg => ~ occurs_in sub arg) l.
Proof.
  induction l as [|a l IH]; cbn; [by rewrite Forall_nil|].
  rewrite orb_false_iff, Forall_cons, IH, <- Contains_spec. by rewrite not_true_iff_false.
Qed.

Lemma empty_profile : "" ∉ validProfiles.
Proof. by apply (bool_decide_eq_true_1 ("" ∉ validProfiles)). Qed.

(** a definition that is resolved is usable by its driver, with the
    profile [generic] when a command line agent has none and otherwise
    unchanged; and every usable definition is resolved, to itself. *)
Theorem Resolve_exact def d : Resolve def = Ok d <->
  usable d /\ (d = def \/ ad_Driver def = DriverCLI /\ ad_Profile def = "" /\ d = set_profile "generic" def).
Proof.
  unfold Resolve, usable. destruct def as [name drv desc prof bin args url key model sb ap en]; cbn.
  case_decide as Hn; [split; [done|naive_solver]|]. case_decide as He; [split; [done|naive_solver]|].
  case_decide as Hd; [|case_decide as Hd'; [case_decide as Hu|]].
  - rewrite Hd. clear drv Hd. case_decide as Hb; [split; [done|naive_solver]|].
    case_decide as Hp; [split; [done|]|].
    { intros [(_ & _ & [(_ & _ & H & _)|[H _]]) Hdef]; [|naive_solver]. exfalso. apply Hp. unfold if_empty.
      case_decide; [by repeat constructor|]. destruct Hdef as [->|(_ & Hf & _)]; [done|by cbn in Hf]. }
    cbn.
    destruct (existsb (fun arg => Contains arg "{prompt}") args) eqn:E.
    { split; [done|]. intros [(_ & _ & H) Hdef]. exfalso. enough (existsb (fun arg => Contains arg "{prompt}") args = false) by congruence.
      apply existsb_Contains. naive_solver. }
    apply existsb_Contains in E. unfold if_empty in *. case_decide as Hprof.
    + subst prof. split; [intros [= <-]; cbn; naive_solver|]. intros [(_ & _ & H) [->|(_ & _ & ->)]]; [|done].
      exfalso. destruct H as [(_ & _ & H & _)|[H _]]; [|done]. by apply empty_profile.
    + split; [intros [= <-]; cbn; naive_solver|naive_solver].
  - split; [done|naive_solver].
  - split; [intros [= <-]; cbn; naive_solver|naive_solver].
  - split; [done|naive_solver].
Qed.

(** The presets are usable. *)
Lemma presets_resolve : map_Forall (fun _ d => Resolve d = Ok d) builtinPresets.
Proof. apply (bool_decide_eq_true_1 _). by vm_compute. Qed.

(** the arguments of a definition may look like flags, and a second [--]
    ends the options early. *)
Theorem Resolve_accepts_flags : exists d,
  Resolve d = Ok d /\ ad_Profile d = "generic" /\ ad_Args d = ["--dangerously-skip-permissions"; "--"].
Proof.
  by exists (mkAgentDef "a" DriverCLI "" "generic" "bin" ["--dangerously-skip-permissions"; "--"] "" "" "" "" "" None).
Qed.

(** ** Command lines *)

Lemma isValidModelName_no_flag m : isValidModelName m = true -> m <> "" /\ HasPrefix m "-" = false.
Proof.
  unfold isValidModelName. rewrite !andb_true_iff, bool_decide_eq_true, negb_true_iff. tauto.
Qed.

(** The flags of the codex profile. *)
Definition codex_flags : list string := ["--sandbox"; "--approval-policy"; "--model"; "--max-turns"; "--cwd"].

Lemma flag_in a : bool_decide (a ∈ codex_flags) = true -> a ∈ codex_flags.
Proof. apply bool_decide_eq_true_1. Qed.

Definition no_flag (a : string) : Prop := HasPrefix a "-" = false.

Lemma Itoa_turns_no_flag n : no_flag (Itoa (clampTurns n)).
Proof.
  unfold no_flag, clampTurns, Itoa.
  assert (exists k : N, (if n <? 0 then 0 else if 1000 <? n then 1000 else n)%Z = Z.of_N k) as (k & ->).
  { exists (Z.to_N (if n <? 0 then 0 else if 1000 <? n then 1000 else n)%Z).
    destruct (Z.ltb_spec n 0); [done|]. destruct (Z.ltb_spec 1000 n); lia. }
  assert (pretty (Z.of_N k) = pretty k) as -> by (by destruct k).
  destruct (pretty_N_head k) as (c & s & d & -> & Hc). rewrite HasPrefix_cons.
  case_bool_decide; [by subst c|done].
Qed.

Lemma codex_front def prompt model sandbox approval turns cwd args :
  ad_Profile def = "codex" -> (model = "" \/ isValidModelName model = true) -> (cwd = "" \/ IsAbs cwd = true) ->
  buildProfileArgs def prompt model sandbox approval turns cwd = Ok args ->
  exists front, args = (front ++ ["--"; prompt])%list /\ ~ ("--" ∈ front) /\
    Forall (fun a => no_flag a \/ a ∈ codex_flags) front.
Proof.
  intros Hp Hm Hc. unfold buildProfileArgs. rewrite decide_True by done.
  case_decide as Hs; [done|]. case_decide as Ha; [done|]. intros [= <-].
  exists (["exec"; "--sandbox"; orDefault sandbox "strict"; "--approval-policy"; orDefault approval "never"] ++
    model_args model ++ turn_args turns ++ (if decide (cwd = "") then [] else ["--cwd"; cwd]))%list.
  split; [by rewrite <- !app_assoc|].
  set (front := (_ ++ _)%list). assert (Forall (fun a => no_flag a \/ a ∈ codex_flags) front) as HF.
  { unfold front, model_args, turn_args. rewrite !Forall_app.
    assert (Forall no_flag validCodexSandboxes /\ Forall no_flag validCodexApprovals) as [V1 V2]
      by (split; repeat constructor).
    rewrite Forall_forall in V1, V2.
    split_and!.
    - rewrite !Forall_cons. split_and!; try (by left); [by right; apply flag_in|by left; apply V1|by right; apply flag_in|by left; apply V2].
    - case_decide; [done|]. destruct Hm as [?|[_ Hm]%isValidModelName_no_flag]; [done|].
      rewrite !Forall_cons. split_and!; [by right; apply flag_in|by left|done].
    - case_decide; [|done]. rewrite !Forall_cons. split_and!; [by right; apply flag_in|left; apply Itoa_turns_no_flag|done].
    - case_decide; [done|]. destruct Hc as [?|Hc]; [done|]. rewrite !Forall_cons.
      split_and!; [by right; apply flag_in| |done]. left. unfold no_flag. destruct cwd as [|c s]; [done|].
      unfold IsAbs in Hc. rewrite HasPrefix_cons in Hc |- *. apply andb_true_iff in Hc as [Hc _].
      apply bool_decide_eq_true in Hc. by subst c. }
  split; [|done]. intros Hin. rewrite Forall_forall in HF. destruct (HF _ Hin) as [H|H]; [done|].
  by apply (bool_decide_eq_true_1 ("--" ∉ codex_flags)) in H.
Qed.

(** what the codex agent gets in front of the separator [--] are its
    subcommand, the fixed flags and values that cannot be read as flags; the
    prompt is the one element behind it, whatever it begins with. *)
Theorem codex_args_safe def prompt model sandbox approval turns cwd args :
  ad_Profile def = "codex" -> (model = "" \/ isValidModelName model = true) -> (cwd = "" \/ IsAbs cwd = true) ->
  buildProfileArgs def prompt model sandbox approval turns cwd = Ok args ->
  exists front, args = (front ++ ["--"; prompt])%list /\ ~ ("--" ∈ front) /\
    Forall (fun a => no_flag a \/ a ∈ codex_flags) front.
Proof. apply codex_front. Qed.

(** the claude profile has no separator: a prompt that begins with a dash
    is an option like any other. *)
Theorem claude_prompt_is_a_flag def prompt : ad_Profile def = "claude" ->
  buildProfileArgs def prompt "" "" "" 0 "" = Ok ["-p"; prompt; "--output-format"; "text"].
Proof. intros Hp. unfold buildProfileArgs. by rewrite Hp. Qed.

(** a negative or missing turn count gives no flag, and the flag's value
    is at most 1000. *)
Lemma turn_args_bounds n : turn_args n = [] \/
  exists k, (1 <= k <= 1000)%Z /\ turn_args n = ["--max-turns"; Itoa k].
Proof.
  unfold turn_args. case_decide; [|by left]. right. exists (clampTurns n). split; [|done].
  unfold clampTurns. destruct (Z.ltb_spec n 0); [lia|]. destruct (Z.ltb_spec 1000 n); lia.
Qed.

(** A delegation has a timeout of at most an hour. *)
Lemma resolveTimeout_bounds t : (0 < resolveTimeout t <= MaxTimeout)%Z.
Proof.
  assert (0 < DefaultTimeout <= MaxTimeout)%Z as HD by (by vm_compute). unfold resolveTimeout.
  destruct (Z.leb_spec (at_Timeout t) 0); [done|]. destruct (Z.ltb_spec MaxTimeout (at_Timeout t)); lia.
Qed.

(** ** Escape sequences *)

Definition all_chars (p : ascii -> bool) (s : string) : Prop := str_forall p s = true.

(** The two kinds of sequences of [ansiPattern]. *)
Inductive ansi_sequence : string -> Prop :=
| csi_sequence params inters f : all_chars csi_param params -> all_chars csi_inter inters -> csi_final f = true ->
    ansi_sequence (String ESC "[" +:+ params +:+ inters +:+ String f "")
| osc_bel body : all_chars osc_body body -> ansi_sequence (String ESC "]" +:+ body +:+ String BEL "")
| osc_st body : all_chars osc_body body -> ansi_sequence (String ESC "]" +:+ body +:+ String ESC "\").

Lemma skip_while_app p a b : all_chars p a ->
  match b with "" => True | String c _ => p c = false end -> skip_while p (a +:+ b) = b.
Proof.
  intros Ha Hb. induction a as [|c a IH]; cbn.
  - destruct b as [|c b]; [done|]. cbn. by rewrite Hb.
  - unfold all_chars in Ha. cbn in Ha. apply andb_true_iff in Ha as [-> Ha]. by apply IH.
Qed.
Lemma skip_while_split p s : exists a, all_chars p a /\ s = a +:+ skip_while p s.
Proof.
  induction s as [|c s (a & Ha & Hs)]; [by exists ""|]. cbn. destruct (p c) eqn:E; [|by exists ""].
  exists (String c a). unfold all_chars in *. cbn. rewrite E, Ha. split; [done|]. by rewrite Hs at 1.
Qed.

Ltac byte_classes := unfold csi_param, csi_inter, csi_final, byte_in;
  rewrite ?orb_true_iff, ?orb_false_iff, ?andb_true_iff, ?andb_false_iff, ?N.leb_le, ?N.leb_gt; lia.

Lemma final_not_inter c : csi_final c = true -> csi_inter c = false.
Proof. byte_classes. Qed.
Lemma final_not_param c : csi_final c = true -> csi_param c = false.
Proof. byte_classes. Qed.
Lemma inter_not_param c : csi_inter c = true -> csi_param c = false.
Proof. byte_classes. Qed.

(** the matcher recognises exactly the sequences of the pattern. *)
Theorem match_ansi_spec s rest : match_ansi s = Some rest <-> exists m, ansi_sequence m /\ s = m +:+ rest.
Proof.
  split.
  - destruct s as [|e [|b s]]; [done..|]. cbn. case_bool_decide as He; [subst e|done]. cbn.
    case_bool_decide as Hb; [|case_bool_decide as Hb2; [|done]]; subst b.
    + destruct (skip_while_split csi_param s) as (ps & Hps & E1).
      destruct (skip_while_split csi_inter (skip_while csi_param s)) as (ins & His & E2).
      destruct (skip_while csi_inter (skip_while csi_param s)) as [|f r]; [done|].
      destruct (csi_final f) eqn:Ef; [|done]. intros [= <-].
      eexists. split; [by apply (csi_sequence ps ins f)|]. cbn. by rewrite E1, E2, !string_app_assoc.
    + destruct (skip_while_split osc_body s) as (bd & Hbd & E1).
      destruct (skip_while osc_body s) as [|x r] eqn:Es; [done|].
      case_bool_decide as Hx; [subst x|].
      { intros [= <-]. eexists. split; [by apply (osc_bel bd)|]. cbn. by rewrite E1, !string_app_assoc. }
      destruct r as [|y r]; [done|]. case_bool_decide as Hy; [|done]. subst y. intros [= <-].
      assert (x = ESC) as ->.
      { assert (osc_body x = false) as Ho.
        { clear -Es. induction s as [|c s IH]; cbn in Es; [done|]. destruct (osc_body c) eqn:E; [by apply IH|]. by injection Es as -> _. }
        unfold osc_body in Ho. apply bool_decide_eq_false in Ho. destruct (decide (x = ESC)); tauto. }
      eexists. split; [by apply (osc_st bd)|]. cbn. by rewrite E1, !string_app_assoc.
  - intros (m & Hm & ->). destruct Hm as [ps ins f Hps His Hf|bd Hbd|bd Hbd]; rewrite !string_app_assoc; cbn [String.app match_ansi].
    + cbn. rewrite (skip_while_app csi_param ps), (skip_while_app csi_inter ins); [by cbn; rewrite Hf|done| |done|].
      * by apply final_not_inter.
      * destruct ins as [|c ins]; cbn; [by apply final_not_param|]. unfold all_chars in His. cbn in His.
        apply andb_true_iff in His as [Hc _]. by apply inter_not_param.
    + cbn. by rewrite (skip_while_app osc_body bd).
    + cbn. by rewrite (skip_while_app osc_body bd).
Qed.

Lemma match_ansi_text c s : c <> ESC -> match_ansi (String c s) = None.
Proof. intros Hc. destruct s; [done|]. cbn. by rewrite bool_decide_eq_false_2. Qed.
Lemma ansi_length m : ansi_sequence m -> (2 <= String.length m)%nat.
Proof. destruct 1; rewrite string_length_app; cbn; lia. Qed.

Lemma strip_text fuel t s : str_has ESC t = false -> (String.length (t +:+ s) <= fuel)%nat ->
  strip_matches fuel (t +:+ s) = t +:+ strip_matches (fuel - String.length t) s.
Proof.
  revert fuel. induction t as [|c t IH]; intros fuel Ht Hf; cbn [String.app String.length] in *; [by rewrite Nat.sub_0_r|].
  cbn [str_has] in Ht. apply orb_false_iff in Ht as [Hc%bool_decide_eq_false Ht].
  destruct fuel as [|fuel]; [lia|]. cbn [strip_matches]. rewrite match_ansi_text by congruence.
  by rewrite IH by (done || lia).
Qed.

Lemma strip_sequence fuel m s : ansi_sequence m -> (String.length (m +:+ s) <= fuel)%nat ->
  strip_matches fuel (m +:+ s) = strip_matches (fuel - 1) s.
Proof.
  intros Hm Hf. pose proof (ansi_length m Hm). rewrite string_length_app in Hf. destruct fuel as [|fuel]; [lia|].
  cbn [strip_matches]. rewrite (proj2 (match_ansi_spec _ s)) by (by exists m). by rewrite Nat.sub_succ, Nat.sub_0_r.
Qed.

(** Texts, each followed by a sequence. *)
Fixpoint with_sequences (l : list (string * string)) (last : string) : string :=
  match l with [] => last | (t, m) :: l => t +:+ m +:+ with_sequences l last end.
Fixpoint texts_of (l : list (string * string)) (last : string) : string :=
  match l with [] => last | (t, _) :: l => t +:+ texts_of l last end.

Lemma strip_with_sequences l last fuel :
  Forall (fun p => str_has ESC p.1 = false /\ ansi_sequence p.2) l -> str_has ESC last = false ->
  (String.length (with_sequences l last) <= fuel)%nat ->
  strip_matches fuel (with_sequences l last) = texts_of l last.
Proof.
  intros Hl Hlast. revert fuel. induction Hl as [|[t m] l [Ht Hm] Hl IH]; intros fuel Hf; cbn [with_sequences texts_of fst snd] in *.
  - rewrite <- (string_app_nil_r last) at 1. rewrite strip_text by (done || by rewrite string_app_nil_r).
    destruct (fuel - String.length last)%nat; cbn; by rewrite string_app_nil_r.
  - rewrite strip_text by done. f_equal. pose proof (ansi_length m Hm). rewrite !string_length_app in Hf.
    rewrite strip_sequence by (done || rewrite string_length_app; lia). apply IH. lia.
Qed.

Lemma str_has_strip s : str_has ESC s = false -> stripANSI s = s.
Proof. intros H. unfold stripANSI. by rewrite H. Qed.

(** from texts without escape bytes that are mixed with whole sequences,
    as a terminal program writes them, exactly the sequences are removed. *)
Theorem stripANSI_clean l last :
  Forall (fun p => str_has ESC p.1 = false /\ ansi_sequence p.2) l -> str_has ESC last = false ->
  stripANSI (with_sequences l last) = texts_of l last /\ str_has ESC (stripANSI (with_sequences l last)) = false.
Proof.
  intros Hl Hlast. assert (stripANSI (with_sequences l last) = texts_of l last) as E.
  - destruct l as [|p l]; [by apply str_has_strip|].
    unfold stripANSI. assert (str_has ESC (with_sequences (p :: l) last) = true) as ->.
    { apply Forall_cons in Hl as [[_ Hm] _]. destruct p as [t m]. cbn [snd] in Hm. cbn [with_sequences]. rewrite !str_has_app.
      assert (str_has ESC m = true) as -> by (destruct Hm; reflexivity). by rewrite orb_true_r. }
    by apply strip_with_sequences.
  - split; [done|]. rewrite E. clear E. induction Hl as [|[t m] l [Ht Hm] Hl IH]; [done|].
    cbn [texts_of fst] in *. by rewrite str_has_app, Ht, IH.
Qed.

Definition red : string := String ESC "[31m".
Definition plain : string := String ESC "[0m".

(** a sequence inside of another one: the removal of the inner one makes a
    new one of what is around it, which stays. *)
Theorem stripANSI_leaves_sequence :
  ansi_sequence red /\ stripANSI (String ESC plain +:+ "[31m") = red.
Proof. split; [|reflexivity]. by apply (csi_sequence "31" "" "m"). Qed.

Lemma stripANSI_clean_witness : Forall (fun p => str_has ESC p.1 = false /\ ansi_sequence p.2) [("", red); ("error", plain)] /\
  stripANSI (red +:+ "error" +:+ plain +:+ ": no such file") = "error: no such file".
Proof.
  assert (Forall (fun p => str_has ESC p.1 = false /\ ansi_sequence p.2) [("", red); ("error", plain)]) as H.
  { repeat constructor; [by apply (csi_sequence "31" "" "m")|by apply (csi_sequence "0" "" "m")]. }
  split; [exact H|]. exact (proj1 (stripANSI_clean _ ": no such file" H eq_refl)).
Defined.

Definition codex_agent : AgentDef := preset "codex" "" "strict" "never".
Lemma codex_args_safe_witness : exists front,
  (["exec"; "--sandbox"; "strict"; "--approval-policy"; "never"; "--model"; "o4-mini"; "--"; "--yolo"] = front ++ ["--"; "--yolo"])%list /\
  ~ ("--" ∈ front) /\ Forall (fun a => no_flag a \/ a ∈ codex_flags) front.
Proof.
  apply (codex_args_safe codex_agent "--yolo" "o4-mini" "" "never" 0 ""); [reflexivity|by right|by left|reflexivity].
Defined.
