(* ===== verification/AgentBreaker.v ===== *)
(** * The circuit breakers of external agents (src/internal/agentx/breaker.go)

    One circuit per agent name behind one mutex.  [allow] gives the mutex back
    while it probes an agent, so its two halves are separate operations; the
    callers, their probes and their delegations interleave by [breaker_run].
    The theorems say when a circuit is closed, in terms of what was recorded,
    and what an open one keeps out. *)

From S2P Require Import Prelude GoStrings GoTime Agents.

#[local] Open Scope Z_scope.

(** ** Definitions *)

Definition defaultBreakerThreshold : Z := 3.
Definition defaultBreakerOpenTime : Z := 60 * Second.
Definition breakerProbeTimeout : Z := 10 * Second.

Inductive breakerState := breakerClosed | breakerOpen | breakerHalfOpen.
#[export] Instance breakerState_eq_dec : EqDecision breakerState.
Proof. solve_decision. Defined.

Record CircuitOpenError := mkCircuitOpen {
  co_Agent : string;
  co_Failures : Z;
  co_LastError : string;
  co_ProbeErr : option error
}.

Definition CircuitOpenError_text (e : CircuitOpenError) : string :=
  match co_ProbeErr e with
  | Some perr => "circuit-open (half-open health check failed: " +:+ perr +:+ ")"
  | None => "circuit-open after " +:+ Itoa (co_Failures e) +:+ " consecutive failures (last error: " +:+ co_LastError e +:+ ")"
  end.

Record agentBreakerEntry := mkBreakerEntry {
  be_state : breakerState;
  be_failures : Z;
  be_lastErr : string;
  be_openedAt : Z
}.
Definition closed_entry : agentBreakerEntry := mkBreakerEntry breakerClosed 0 "" 0.

Record agentBreakerSet := mkBreakerSet {
  bs_threshold : Z;
  bs_openFor : Z;
  bs_entries : gmap string agentBreakerEntry
}.
Definition newAgentBreakerSet (threshold openFor : Z) : agentBreakerSet :=
  mkBreakerSet (if threshold <? 1 then 1 else threshold) openFor ∅.
Definition globalAgentBreakers : agentBreakerSet :=
  newAgentBreakerSet defaultBreakerThreshold defaultBreakerOpenTime.

Definition set_entry (name : string) (e : agentBreakerEntry) (b : agentBreakerSet) : agentBreakerSet :=
  mkBreakerSet (bs_threshold b) (bs_openFor b) (<[name := e]> (bs_entries b)).

(** [record] at time [now]; no error is a success. *)
Definition record (now : Z) (name : string) (err : option error) (b : agentBreakerSet) : agentBreakerSet :=
  let e := default closed_entry (bs_entries b !! name) in
  set_entry name
    match err with
    | None => mkBreakerEntry breakerClosed 0 "" (be_openedAt e)
    | Some msg =>
        match be_state e with
        | breakerClosed =>
            if bs_threshold b <=? be_failures e + 1
            then mkBreakerEntry breakerOpen (be_failures e + 1) msg now
            else mkBreakerEntry breakerClosed (be_failures e + 1) msg (be_openedAt e)
        | breakerHalfOpen => mkBreakerEntry breakerOpen (be_failures e) msg now
        | breakerOpen => e
        end
    end b.

(** The first half of [allow]: the delegation may proceed, is refused, or has
    to wait for the health check of the agent. *)
Inductive allowance :=
| Pass
| Refused (err : CircuitOpenError)
| Probe.

Definition allow (now : Z) (def : AgentDef) (b : agentBreakerSet) : allowance * agentBreakerSet :=
  let name := ad_Name def in
  match bs_entries b !! name with
  | None => (Pass, set_entry name closed_entry b)
  | Some e =>
      match be_state e with
      | breakerClosed => (Pass, b)
      | breakerOpen =>
          if now - be_openedAt e <? bs_openFor b then
            (Refused (mkCircuitOpen name (be_failures e) (be_lastErr e) None), b)
          else
            (if decide (ad_Driver def = DriverA2A) then Probe else Pass,
             set_entry name (mkBreakerEntry breakerHalfOpen (be_failures e) (be_lastErr e) (be_openedAt e)) b)
      | breakerHalfOpen => (Pass, b)
      end
  end.

(** The second half, after the fetch of the agent card. *)
Definition probed (now : Z) (name : string) (perr : option error) (b : agentBreakerSet)
    : allowance * agentBreakerSet :=
  match perr with
  | None => (Pass, record now name None b)
  | Some msg =>
      let e := default closed_entry (bs_entries b !! name) in
      (Refused (mkCircuitOpen name (be_failures e) "" (Some msg)),
       set_entry name (mkBreakerEntry breakerOpen (be_failures e) msg now) b)
  end.

(** ** Interleavings *)

(** What became of the calls to one agent. *)
Inductive report := Succeeded | Failed | ProbeFailed.
#[export] Instance report_eq_dec : EqDecision report.
Proof. solve_decision. Defined.

Inductive caller := Probing (def : AgentDef) | Delegating (name : string).

Record breakers := mkBreakers {
  br_set : agentBreakerSet;
  br_now : Z;
  br_callers : gmap nat caller;
  br_log : list (string * report)         (* the newest first *)
}.
Definition start_breakers (threshold openFor now : Z) : breakers :=
  mkBreakers (newAgentBreakerSet threshold openFor) now ∅ [].

Definition report_of (err : option error) : report := match err with None => Succeeded | Some _ => Failed end.

(** A caller asks, waits for its probe if it has to, and delegates; it records
    how that ended, or gives up in between without a record, as it does when
    the audit hook refuses. *)
Inductive breaker_run (s : breakers) : breakers -> Prop :=
| run_clock now : br_now s <= now ->
    breaker_run s (mkBreakers (br_set s) now (br_callers s) (br_log s))
| run_pass id def b : br_callers s !! id = None -> allow (br_now s) def (br_set s) = (Pass, b) ->
    breaker_run s (mkBreakers b (br_now s) (<[id := Delegating (ad_Name def)]> (br_callers s)) (br_log s))
| run_refused def err b : allow (br_now s) def (br_set s) = (Refused err, b) ->
    breaker_run s (mkBreakers b (br_now s) (br_callers s) (br_log s))
| run_probe id def b : br_callers s !! id = None -> allow (br_now s) def (br_set s) = (Probe, b) ->
    breaker_run s (mkBreakers b (br_now s) (<[id := Probing def]> (br_callers s)) (br_log s))
| run_alive id def b : br_callers s !! id = Some (Probing def) ->
    probed (br_now s) (ad_Name def) None (br_set s) = (Pass, b) ->
    breaker_run s (mkBreakers b (br_now s) (<[id := Delegating (ad_Name def)]> (br_callers s))
      ((ad_Name def, Succeeded) :: br_log s))
| run_dead id def msg err b : br_callers s !! id = Some (Probing def) ->
    probed (br_now s) (ad_Name def) (Some msg) (br_set s) = (Refused err, b) ->
    breaker_run s (mkBreakers b (br_now s) (delete id (br_callers s)) ((ad_Name def, ProbeFailed) :: br_log s))
| run_finish id name err : br_callers s !! id = Some (Delegating name) ->
    breaker_run s (mkBreakers (record (br_now s) name err (br_set s)) (br_now s) (delete id (br_callers s))
      ((name, report_of err) :: br_log s))
| run_give_up id : breaker_run s (mkBreakers (br_set s) (br_now s) (delete id (br_callers s)) (br_log s)).

(** ** The specification of a circuit *)

(** The reports on one agent. *)
Definition reports (name : string) (log : list (string * report)) : list report :=
  (filter (fun r => r.1 = name) log).*2.

(** Those since the last success. *)
Fixpoint recent (l : list report) : list report :=
  match l with [] => [] | Succeeded :: _ => [] | r :: l => r :: recent l end.

Definition failures_of (l : list report) : Z := Z.of_nat (length (filter (fun r => r = Failed) l)).

(** Since the last success a health check failed, or [threshold] delegations
    did. *)
Definition tripped (threshold : Z) (l : list report) : bool :=
  bool_decide (ProbeFailed ∈ recent l) || (threshold <=? failures_of (recent l)).

Definition state_of (name : string) (b : agentBreakerSet) : breakerState :=
  match bs_entries b !! name with None => breakerClosed | Some e => be_state e end.

(** ** Lemmas *)

Definition entry_of (name : string) (b : agentBreakerSet) : agentBreakerEntry :=
  default closed_entry (bs_entries b !! name).

Lemma state_of_entry name b : state_of name b = be_state (entry_of name b).
Proof. unfold state_of, entry_of. by destruct (bs_entries b !! name). Qed.

Lemma entry_of_set name name' e b :
  entry_of name (set_entry name' e b) = if decide (name = name') then e else entry_of name b.
Proof.
  unfold entry_of. cbn. case_decide as H; [subst; by rewrite lookup_insert_eq|].
  by rewrite lookup_insert_ne by congruence.
Qed.

Lemma reports_cons name n r log :
  reports name ((n, r) :: log) = if decide (n = name) then r :: reports name log else reports name log.
Proof. unfold reports. rewrite filter_cons. cbn. by case_decide. Qed.

Lemma failures_of_cons r l : failures_of (r :: l) = (if decide (r = Failed) then 1 else 0) + failures_of l.
Proof. unfold failures_of. rewrite filter_cons. case_decide; cbn [length]; lia. Qed.

Lemma tripped_failed t l : tripped t (Failed :: l) = bool_decide (ProbeFailed ∈ recent l) || (t <=? failures_of (recent l) + 1).
Proof.
  unfold tripped. cbn [recent]. rewrite failures_of_cons. cbn. rewrite Z.add_comm. f_equal.
  apply bool_decide_ext. rewrite elem_of_cons. naive_solver.
Qed.
Lemma tripped_stays t r l : tripped t l = true -> r <> Succeeded -> tripped t (r :: l) = true.
Proof.
  unfold tripped. rewrite !orb_true_iff, !bool_decide_eq_true, !Z.leb_le. intros H Hr.
  assert (recent (r :: l) = r :: recent l) as -> by (by destruct r). rewrite failures_of_cons.
  destruct H; [left; by right|right]. case_decide; lia.
Qed.

(** What an entry says about the reports on its agent. *)
Record entry_ok (threshold now : Z) (l : list report) (e : agentBreakerEntry) : Prop := {
  eo_state : be_state e = breakerClosed <-> tripped threshold l = false;
  eo_count : be_state e = breakerClosed -> be_failures e = failures_of (recent l);
  eo_opened : be_state e = breakerOpen -> be_openedAt e <= now
}.

Lemma entry_ok_later threshold now now' l e : now <= now' -> entry_ok threshold now l e -> entry_ok threshold now' l e.
Proof. intros Hn [H1 H2 H3]. split; [done..|]. intros H. specialize (H3 H). lia. Qed.

Lemma entry_ok_closed threshold now l : 1 <= threshold ->
  entry_ok threshold now (Succeeded :: l) closed_entry.
Proof.
  intros Ht. split; cbn; [|done..]. split; [|done]. intros _. unfold tripped. cbn.
  apply orb_false_iff. split; [done|]. apply Z.leb_gt. unfold failures_of. cbn. lia.
Qed.

Lemma entry_ok_failed b now name msg l : entry_ok (bs_threshold b) now l (entry_of name b) ->
  entry_ok (bs_threshold b) now (Failed :: l) (entry_of name (record now name (Some msg) b)).
Proof.
  intros [H1 H2 H3]. unfold record. rewrite entry_of_set, decide_True by done. fold (entry_of name b).
  destruct (be_state (entry_of name b)) eqn:E.
  - pose proof (proj1 H1 eq_refl) as Ht. rewrite (H2 eq_refl).
    unfold tripped in Ht. apply orb_false_iff in Ht as [Hp Ht%Z.leb_gt].
    destruct (Z.leb_spec (bs_threshold b) (failures_of (recent l) + 1)); split; cbn [be_state be_failures be_openedAt]; try done.
    + split; [done|]. rewrite tripped_failed, Hp. by rewrite (proj2 (Z.leb_le _ _)).
    + rewrite tripped_failed, Hp. split; [|done]. intros _. by apply Z.leb_gt.
    + intros _. cbn [recent]. rewrite failures_of_cons, decide_True by done. lia.
  - assert (tripped (bs_threshold b) l = true) as Ht by (apply not_false_iff_true; rewrite <- H1; congruence).
    split; [|congruence|intros _; by apply H3]. rewrite (tripped_stays _ Failed _ Ht) by done. split; congruence.
  - assert (tripped (bs_threshold b) l = true) as Ht by (apply not_false_iff_true; rewrite <- H1; congruence).
    split; cbn; [|done|done]. rewrite (tripped_stays _ Failed _ Ht) by done. done.
Qed.

Lemma entry_ok_probe_failed threshold now l f msg :
  entry_ok threshold now (ProbeFailed :: l) (mkBreakerEntry breakerOpen f msg now).
Proof.
  split; cbn; [|done|done]. split; [done|]. unfold tripped. cbn [recent].
  rewrite bool_decide_eq_true_2; [done|by left].
Qed.

(** [allow] keeps every entry true to the same reports. *)
Lemma allow_ok now def b a b' l name : allow now def b = (a, b') ->
  entry_ok (bs_threshold b) now l (entry_of name b) -> entry_ok (bs_threshold b) now l (entry_of name b').
Proof.
  unfold allow. destruct (bs_entries b !! ad_Name def) as [e|] eqn:E.
  - destruct (be_state e) eqn:Es; [by intros [= _ <-]| |by intros [= _ <-]].
    case_match; [by intros [= _ <-]|]. intros [= _ <-]. rewrite entry_of_set. case_decide as Hn; [|done]. subst name.
    unfold entry_of. rewrite E. cbn. intros [H1 H2 H3]. rewrite Es in *.
    split; cbn; [|done|done]. rewrite <- H1. done.
  - intros [= _ <-]. rewrite entry_of_set. case_decide as Hn; [|done]. subst name. unfold entry_of. by rewrite E.
Qed.

Lemma allow_params now def b a b' : allow now def b = (a, b') ->
  bs_threshold b' = bs_threshold b /\ bs_openFor b' = bs_openFor b.
Proof. unfold allow. repeat (case_match; try by intros [= _ <-]). Qed.

Lemma record_params now name err b : bs_threshold (record now name err b) = bs_threshold b.
Proof. done. Qed.

(** Other agents' entries are left alone. *)
Lemma record_other now name name' err b : name <> name' -> entry_of name (record now name' err b) = entry_of name b.
Proof. intros H. unfold record. by rewrite entry_of_set, decide_False. Qed.

(** ** Invariant *)

Record breakers_ok (s : breakers) : Prop := {
  bo_threshold : 1 <= bs_threshold (br_set s);
  bo_entries : forall name, entry_ok (bs_threshold (br_set s)) (br_now s) (reports name (br_log s)) (entry_of name (br_set s))
}.

Lemma start_ok threshold openFor now : breakers_ok (start_breakers threshold openFor now).
Proof.
  split; cbn; [destruct (Z.ltb_spec threshold 1); lia|]. intros name.
  split; cbn; [|done..]. split; [|done]. intros _. unfold tripped. cbn. apply Z.leb_gt. unfold failures_of. cbn.
  destruct (Z.ltb_spec threshold 1); lia.
Qed.

Lemma breaker_run_ok s s' : breakers_ok s -> breaker_run s s' -> breakers_ok s'.
Proof.
  intros [Ht He] H. destruct H as [now Hn|id def b _ Ha|def err b Ha|id def b _ Ha|id def b _ [= <-]|id def msg err b _ [= <- <-]|id name err _|id];
    try (destruct (allow_params _ _ _ _ _ Ha) as [Hp _]; split; cbn; rewrite Hp; [done|intros name; exact (allow_ok _ _ _ _ _ _ name Ha (He name))]).
  - split; cbn; [done|]. intros name. eapply entry_ok_later; [exact Hn|apply He].
  - split; [done|]. intros name. cbn [br_set br_now br_log]. rewrite reports_cons, record_params. case_decide as Hd; [subst name|by rewrite record_other by congruence].
    unfold record. rewrite entry_of_set, decide_True by done. destruct (entry_ok_closed (bs_threshold (br_set s)) (br_now s) (reports (ad_Name def) (br_log s)) Ht) as [H1 H2 H3].
    by split.
  - split; [done|]. intros name. cbn [br_set br_now br_log]. rewrite reports_cons, entry_of_set.
    case_decide as Hd; [subst name; rewrite decide_True by done; apply entry_ok_probe_failed|].
    rewrite decide_False by congruence. apply He.
  - split; [done|]. intros name'. cbn [br_set br_now br_log]. rewrite reports_cons, record_params.
    case_decide as Hd; [subst name'|by rewrite record_other by congruence].
    destruct err as [msg|]; [by apply entry_ok_failed|].
    unfold record. rewrite entry_of_set, decide_True by done. destruct (entry_ok_closed (bs_threshold (br_set s)) (br_now s) (reports name (br_log s)) Ht) as [H1 H2 H3].
    by split.
  - by split.
Qed.

Lemma breaker_runs_ok s s' : rtc breaker_run s s' -> breakers_ok s -> breakers_ok s'.
Proof. induction 1; [done|]. intros. by eapply IHrtc, breaker_run_ok. Qed.

(** ** Properties *)

(** in every interleaving of the callers, an agent's circuit is closed
    exactly when, since its last success, no health check failed and fewer
    delegations failed than the threshold; while it is closed its counter is
    that number of failures. *)
Theorem circuit_exact threshold openFor now s name :
  rtc breaker_run (start_breakers threshold openFor now) s ->
  (state_of name (br_set s) = breakerClosed <->
   tripped (Z.max 1 threshold) (reports name (br_log s)) = false) /\
  (state_of name (br_set s) = breakerClosed ->
   be_failures (entry_of name (br_set s)) = failures_of (recent (reports name (br_log s)))).
Proof.
  intros H. destruct (breaker_runs_ok _ _ H (start_ok threshold openFor now)) as [_ He].
  assert (bs_threshold (br_set s) = Z.max 1 threshold) as Ht.
  { clear He. revert s H. apply (rtc_ind_r (fun s => bs_threshold (br_set s) = Z.max 1 threshold)).
    - cbn. destruct (Z.ltb_spec threshold 1); lia.
    - intros s s' _ H2 IH. rewrite <- IH. destruct H2 as [| ? ? ? ? Ha|? ? ? Ha|? ? ? ? Ha|? ? ? ? [= <-]|? ? ? ? ? ? [= <- <-]| |]; try done;
        cbn; by apply allow_params in Ha as [-> _]. }
  destruct (He name) as [H1 H2 H3]. rewrite state_of_entry, <- Ht. done.
Qed.

(** A step that reports no success of the agent. *)
Definition quiet_run (name : string) (s s' : breakers) : Prop :=
  breaker_run s s' /\ br_log s' <> (name, Succeeded) :: br_log s.

(** The circuit was opened at [since] or later. *)
Definition open_since (name : string) (since : Z) (b : agentBreakerSet) : Prop :=
  exists e, bs_entries b !! name = Some e /\ be_state e = breakerOpen /\ since <= be_openedAt e.

Lemma open_since_other name name' since e b : name <> name' -> open_since name since b ->
  open_since name since (set_entry name' e b).
Proof. intros Hn (e' & He & H). exists e'. cbn. by rewrite lookup_insert_ne by congruence. Qed.

Lemma allow_open now def b since : open_since (ad_Name def) since b -> now < since + bs_openFor b ->
  exists err, allow now def b = (Refused err, b) /\ co_ProbeErr err = None.
Proof.
  intros (e & He & Ho & Hs) Hn. unfold allow. rewrite He, Ho, (proj2 (Z.ltb_lt _ _)) by lia. by eexists.
Qed.

Lemma allow_open_since now name since def b a b' : open_since name since b -> now < since + bs_openFor b ->
  allow now def b = (a, b') -> open_since name since b'.
Proof.
  intros Ho Hn. destruct (decide (name = ad_Name def)) as [->|Hd].
  { destruct (allow_open now def b since Ho Hn) as (err & -> & _). by intros [= _ <-]. }
  unfold allow. repeat (case_match; try by intros [= _ <-]); intros [= _ <-]; by apply open_since_other.
Qed.

Lemma record_open_since now name since name' err b : open_since name since b -> (name' = name -> err <> None) ->
  open_since name since (record now name' err b).
Proof.
  intros Ho Hn. destruct (decide (name = name')) as [->|Hd]; [|by apply open_since_other].
  destruct Ho as (e & He & Hopen & Hs). destruct err as [msg|]; [|by destruct (Hn eq_refl)].
  exists e. unfold record. rewrite He. cbn. rewrite Hopen, lookup_insert_eq. done.
Qed.

Lemma quiet_run_open name since s s' : open_since name since (br_set s) -> since <= br_now s ->
  br_now s < since + bs_openFor (br_set s) -> quiet_run name s s' ->
  open_since name since (br_set s') /\ bs_openFor (br_set s') = bs_openFor (br_set s) /\ br_now s <= br_now s'.
Proof.
  intros Ho Hs Hn [H Hq].
  destruct H as [now Hc|id def b _ Ha|def err b Ha|id def b _ Ha|id def b _ [= <-]|id def msg err b _ [= <- <-]|id nm err _|id]; cbn in *;
    try (split_and!; [by eapply allow_open_since|by eapply allow_params|done]).
  - by split_and!.
  - split_and!; [|done|done]. apply record_open_since; [done|]. intros E. by rewrite E in Hq.
  - split_and!; [|done|done]. destruct (decide (name = ad_Name def)) as [->|Hd]; [|by apply open_since_other].
    eexists. cbn. rewrite lookup_insert_eq. split; [done|]. by cbn.
  - split_and!; [|done|done]. apply record_open_since; [done|]. intros -> ->. by cbn in Hq.
  - by split_and!.
Qed.

(** an open circuit keeps everything out: from the moment it was opened,
    and until the cool-down has passed, whatever the other callers do, every
    delegation to the agent is refused at once - unless a success of the
    agent is reported in between. *)
Theorem open_circuit_refuses name since s s' def :
  open_since name since (br_set s) -> since <= br_now s ->
  rtc (quiet_run name) s s' -> br_now s' < since + bs_openFor (br_set s) -> ad_Name def = name ->
  exists err, allow (br_now s') def (br_set s') = (Refused err, br_set s') /\ co_ProbeErr err = None.
Proof.
  intros Ho Hs H Hn Hd.
  assert (br_now s <= br_now s' /\ open_since name since (br_set s') /\ bs_openFor (br_set s') = bs_openFor (br_set s)) as (_ & Ho' & Hf).
  { clear Hd. revert s' H Hn. apply (rtc_ind_r (fun s' => br_now s' < since + bs_openFor (br_set s) ->
      br_now s <= br_now s' /\ open_since name since (br_set s') /\ bs_openFor (br_set s') = bs_openFor (br_set s))); [done|].
    intros s1 s2 H1 H2 IH Hn.
    assert (br_now s1 <= br_now s2) as H12 by (destruct H2 as [[] _]; cbn; lia).
    destruct (IH ltac:(lia)) as (H3 & H4 & H5).
    destruct (quiet_run_open name since s1 s2 H4 ltac:(lia) ltac:(lia) H2) as (H6 & H7 & H8).
    split_and!; [lia|done|congruence]. }
  rewrite <- Hd in Ho'. apply (allow_open _ _ _ since); [done|]. by rewrite Hf.
Qed.

(** nobody is locked out: once the cool-down of an open circuit has passed,
    a delegation proceeds or the agent is probed, and a probe that succeeds
    closes the circuit. *)
Theorem circuit_reopens now def b e : bs_entries b !! ad_Name def = Some e ->
  be_openedAt e + bs_openFor b <= now ->
  let '(a, b') := allow now def b in
  match a with
  | Pass => True
  | Refused _ => False
  | Probe => forall later, (probed later (ad_Name def) None b').1 = Pass /\
      state_of (ad_Name def) (probed later (ad_Name def) None b').2 = breakerClosed
  end.
Proof.
  intros He Hn. unfold allow. rewrite He. destruct (be_state e); [done| |done].
  rewrite (proj2 (Z.ltb_ge _ _)) by lia. case_decide; [|done]. intros later. split; [done|].
  unfold state_of. cbn. by rewrite lookup_insert_eq.
Qed.

(** ** Behaviours the comments do not describe *)

Definition cli_agent (name : string) : AgentDef :=
  mkAgentDef name DriverCLI "" "generic" "agent" [] "" "" "" "" "" None.
Definition a2a_agent (name : string) : AgentDef :=
  mkAgentDef name DriverA2A "" "" "" [] "http://agent" "" "" "" "" None.

(** One step of a concrete run; the state it leads to is computed. *)
Ltac run_step tac := eapply rtc_l; [tac; first [reflexivity|cbn; lia]|];
  match goal with |- rtc _ ?a _ => let a' := eval vm_compute in a in change a with a' end.

(** while the health check of an agent is under way, other callers are let
    through to it without any check. *)
Theorem unproven_agent_gets_delegations : exists s id id',
  rtc breaker_run (start_breakers 1 100 0) s /\ id <> id' /\
  br_callers s !! id = Some (Probing (a2a_agent "a")) /\ br_callers s !! id' = Some (Delegating "a") /\
  reports "a" (br_log s) = [Failed].
Proof.
  eexists _, 2%nat, 3%nat. split.
  - run_step ltac:(eapply (run_pass _ 1%nat (a2a_agent "a"))).
    run_step ltac:(eapply (run_finish _ 1%nat "a" (Some "down"))).
    run_step ltac:(eapply (run_clock _ 100)).
    run_step ltac:(eapply (run_probe _ 2%nat (a2a_agent "a"))).
    run_step ltac:(eapply (run_pass _ 3%nat (a2a_agent "a"))). apply rtc_refl.
  - by split_and!.
Qed.

(** the success of a delegation from before the circuit opened closes it at
    once, without cool-down or health check. *)
Theorem stale_success_closes : exists s s',
  rtc breaker_run (start_breakers 1 100 0) s /\ open_since "a" 0 (br_set s) /\ br_now s = 0 /\
  breaker_run s s' /\ br_now s' = 0 /\ state_of "a" (br_set s') = breakerClosed.
Proof.
  eexists _, _. split.
  - run_step ltac:(eapply (run_pass _ 1%nat (a2a_agent "a"))).
    run_step ltac:(eapply (run_pass _ 2%nat (a2a_agent "a"))).
    run_step ltac:(eapply (run_finish _ 1%nat "a" (Some "down"))). apply rtc_refl.
  - split_and!; [by eexists|done|eapply (run_finish _ 2%nat "a" None); reflexivity|done|done].
Qed.

(** a failed health check opens the circuit again even when a delegation
    has succeeded meanwhile: it is open after no failure at all. *)
Theorem stale_probe_opens : exists s,
  rtc breaker_run (start_breakers 1 100 0) s /\ state_of "a" (br_set s) = breakerOpen /\
  be_failures (entry_of "a" (br_set s)) = 0 /\ reports "a" (br_log s) = [ProbeFailed; Succeeded; Failed].
Proof.
  eexists. split.
  - run_step ltac:(eapply (run_pass _ 1%nat (a2a_agent "a"))).
    run_step ltac:(eapply (run_pass _ 2%nat (a2a_agent "a"))).
    run_step ltac:(eapply (run_finish _ 1%nat "a" (Some "down"))).
    run_step ltac:(eapply (run_clock _ 100)).
    run_step ltac:(eapply (run_probe _ 3%nat (a2a_agent "a"))).
    run_step ltac:(eapply (run_finish _ 2%nat "a" None)).
    run_step ltac:(eapply (run_dead _ 3%nat (a2a_agent "a") "timeout")). apply rtc_refl.
  - by split_and!.
Qed.

(** ** Witnesses *)

Lemma open_circuit_refuses_witness : exists s s',
  rtc (quiet_run "a") s s' /\ br_now s' = 99 /\
  exists err, allow 99 (cli_agent "a") (br_set s') = (Refused err, br_set s') /\ co_ProbeErr err = None.
Proof.
  set (b := record 0 "a" (Some "down") (newAgentBreakerSet 1 100)).
  exists (mkBreakers b 0 ∅ []), (mkBreakers b 99 ∅ []).
  assert (rtc (quiet_run "a") (mkBreakers b 0 ∅ []) (mkBreakers b 99 ∅ [])) as H.
  { apply rtc_once. split; [|done]. exact (run_clock (mkBreakers b 0 ∅ []) 99 ltac:(cbn; lia)). }
  split; [exact H|]. split; [reflexivity|].
  refine (open_circuit_refuses "a" 0 _ _ (cli_agent "a") _ _ H _ _); [|cbn; lia|cbn; lia|reflexivity].
  by eexists.
Defined.

Lemma circuit_exact_witness : state_of "a" (br_set (start_breakers 3 60 0)) = breakerClosed <->
  tripped 3 (reports "a" (br_log (start_breakers 3 60 0))) = false.
Proof. apply (circuit_exact 3 60 0 (start_breakers 3 60 0) "a"). apply rtc_refl. Defined.

Lemma circuit_reopens_witness : let b := record 0 "a" (Some "down") (newAgentBreakerSet 1 100) in
  let '(a, b') := allow 100 (a2a_agent "a") b in
  match a with
  | Pass => True
  | Refused _ => False
  | Probe => forall later, (probed later "a" None b').1 = Pass /\
      state_of "a" (probed later "a" None b').2 = breakerClosed
  end.
Proof. apply (circuit_reopens 100 (a2a_agent "a") _ (mkBreakerEntry breakerOpen 1 "down" 0)); [reflexivity|cbn; lia]. Defined.
