(* ===== verification/AgentClient.v ===== *)
(** * Delegations to external agents (src/internal/agentx/a2a.go, cli.go)

    A delegation talks to the breaker, the audit hook, the clock, HTTP servers
    and programs.  It is written as a tree of questions to that environment
    ([prog]); what happens in a run is one of its [traces], for any answers at
    all.  The theorems speak about every trace: the task is submitted at most
    once, nothing is done before the audit hook agrees, the breaker gets
    exactly one report, an abandoned task is cancelled. *)

From S2P Require Import Prelude GoStrings GoText GoTime GoPath GoPathProofs Agents AgentBreaker.
From Stdlib Require Import Ascii.

#[local] Open Scope string_scope.

(** ** The environment *)

Inductive rpc_params := SendParams (prompt : string) | TaskParams (id : string).

(** A request of the shared HTTP client; [hr_background] tells the requests on
    a fresh context from those on the delegation's. *)
Record http_request := mkRequest {
  hr_Post : bool;
  hr_URL : string;
  hr_method : string;                    (* of the JSON-RPC call *)
  hr_body : string;
  hr_Authorization : option string;
  hr_background : bool
}.

(** A failed exchange with the [Op] of the [net.OpError] in its chain, if
    there is one; a response with its status and the reading of its body. *)
Record net_error := mkNetError { ne_Op : option string; ne_text : string }.
Inductive http_outcome :=
| NoResponse (err : net_error)
| Responded (status : Z) (body : net_error + string).

(** What [cmd.Run] and the files of its output say. *)
Record run_outcome := mkRun {
  ro_Err : option error;
  ro_deadline : bool;
  ro_stdout : string;
  ro_stderr : string
}.

Inductive query :=
| QAllow (def : AgentDef)
| QRecord (name : string) (err : option error)
| QAudit (entry : string)
| QGetenv (name : string)
| QHttp (req : http_request)
| QWait (d : Z)                          (* whether the timer came before the end of the context *)
| QLookPath (binary : string)
| QTempFile (pattern : string)
| QRun (binary : string) (args : list string) (timeout : Z).

Definition answer (q : query) : Type :=
  match q with
  | QAllow _ => option error
  | QRecord _ _ => unit
  | QAudit _ => option error
  | QGetenv _ => string
  | QHttp _ => http_outcome
  | QWait _ => bool
  | QLookPath _ => result string
  | QTempFile _ => option error
  | QRun _ _ _ => run_outcome
  end.

Inductive prog (A : Type) :=
| Return (a : A)
| Ask (q : query) (k : answer q -> prog A).
Arguments Return {A} a.
Arguments Ask {A} q k.

#[export] Instance prog_ret : MRet prog := @Return.
#[export] Instance prog_bind : MBind prog := fun A B (f : A -> prog B) =>
  fix go m := match m with Return a => f a | Ask q k => Ask q (fun x => go (k x)) end.
Definition ask (q : query) : prog (answer q) := Ask q Return.

Definition event : Type := {q : query & answer q}.
Definition Ev (q : query) (x : answer q) : event := existT q x.

(** [m] ends with the value, after the questions and answers of the trace. *)
Fixpoint traces {A} (m : prog A) (t : list event) (a : A) : Prop :=
  match m with
  | Return b => t = [] /\ a = b
  | Ask q k => exists x t', t = Ev q x :: t' /\ traces (k x) t' a
  end.

(** JSON, URLs, the file system and the printing of durations. *)
Record rpc_response := mkRpc { rr_Result : string; rr_Error : option (Z * string) }.
Record url_parts := mkURL {
  up_Scheme : string; up_Host : string; up_User : bool; up_Fragment : string; up_String : string
}.
Record a2aPart := mkPart { pa_Kind : string; pa_Text : string }.
Record a2aMessage := mkMessage { ms_Role : string; ms_Parts : list a2aPart }.
Record a2aArtifact := mkArtifact { af_Name : string; af_Parts : list a2aPart }.
Record a2aStatus := mkStatus { ss_State : string; ss_Message : option a2aMessage }.
Record a2aTask := mkTask {
  tk_ID : string;
  tk_ContextID : string;
  tk_Status : a2aStatus;
  tk_Artifacts : list a2aArtifact
}.
Record AgentSkill := mkSkill { sk_ID : string; sk_Name : string; sk_Description : string; sk_Tags : list string }.
Record AgentCard := mkCard {
  cd_Name : string;
  cd_Description : string;
  cd_URL : string;
  cd_Version : string;
  cd_Skills : list AgentSkill
}.

Record AgentEnv := mkAgentEnv {
  ae_marshal : string -> rpc_params -> result string;     (* the JSON-RPC body of a call *)
  ae_request : string -> option error;                    (* http.NewRequest on a URL *)
  ae_parse_rpc : string -> result rpc_response;
  ae_parse_task : string -> result a2aTask;
  ae_parse_card : string -> result AgentCard;
  ae_parse_url : string -> result url_parts;
  ae_duration : Z -> string;
  ae_lower : string -> string;
  ae_Getwd : result string;
  ae_EvalSymlinks : string -> result string;
  ae_IsDir : string -> result bool
}.

(** ** The JSON-RPC client *)

Definition maxA2AResponseSize : Z := 10 * 1024 * 1024.
Definition a2aPollInterval : Z := 2 * Second.
Definition a2aRetryDelays : list Z := [200 * Millisecond; 400 * Millisecond]%Z.

Definition limited (max : Z) (s : string) : string :=
  if (max <? Z.of_nat (String.length s))%Z then str_take (Z.to_nat max) s else s.

(** The errors of a call, as far as the code looks into them. *)
Inductive callErr :=
| ENet (op : option string) (text : string)
| EStatus (method : string) (status : Z) (body : string)
| EMethodNotFound (text : string)
| EPlain (text : string).

Definition callErr_text (e : callErr) : string :=
  match e with
  | ENet _ text | EMethodNotFound text | EPlain text => text
  | EStatus method status body => method +:+ " returned HTTP " +:+ Itoa status +:+ ": " +:+ body
  end.

Definition isA2ADialError (e : callErr) : bool :=
  match e with ENet (Some op) _ => bool_decide (op = "dial") | _ => false end.
Definition isA2ARetryableReadError (e : callErr) : bool :=
  isA2ADialError e ||
  match e with ENet (Some _) _ => true | EStatus _ status _ => (500 <=? status)%Z | _ => false end.
Definition isMethodNotFoundError (e : callErr) : bool :=
  match e with EMethodNotFound _ => true | _ => false end.

Definition truncateForError (b : string) : string :=
  let s := TrimSpace b in
  if (200 <? Z.of_nat (String.length s))%Z then str_take 200 s +:+ "…" else s.

Section client.
Context (env : AgentEnv).

Definition isA2AMethodNotFound (code : Z) (message : string) : bool :=
  bool_decide (code = -32601)%Z || Contains (ToLower (ae_lower env) message) "method not found".

(** What a call makes of an exchange. *)
Definition decode_response (method : string) (o : http_outcome) : callErr + a2aTask :=
  match o with
  | NoResponse e => inl (ENet (ne_Op e) (method +:+ " request failed: " +:+ ne_text e))
  | Responded status body =>
      match body with
      | inl e => inl (ENet (ne_Op e) ("read " +:+ method +:+ " response: " +:+ ne_text e))
      | inr body =>
          let body := limited maxA2AResponseSize body in
          if decide (status <> 200)%Z then inl (EStatus method status (truncateForError body)) else
          match ae_parse_rpc env body with
          | Err e => inl (EPlain ("decode " +:+ method +:+ " response: " +:+ e))
          | Ok r =>
              match rr_Error r with
              | Some (code, msg) =>
                  let text := "jsonrpc error " +:+ Itoa code +:+ ": " +:+ msg in
                  inl (if isA2AMethodNotFound code msg then EMethodNotFound text else EPlain text)
              | None =>
                  if decide (rr_Result r = "") then inl (EPlain (method +:+ " returned no result")) else
                  match ae_parse_task env (rr_Result r) with
                  | Err e => inl (EPlain ("decode " +:+ method +:+ " result: " +:+ e))
                  | Ok t => inr t
                  end
              end
          end
      end
  end.

Definition authorization (def : AgentDef) : prog (option string) :=
  if decide (ad_APIKeyEnv def = "") then mret None else
  v ← ask (QGetenv (ad_APIKeyEnv def));
  let key := TrimSpace v in
  mret (if decide (key = "") then None else Some ("Bearer " +:+ key)).

Definition a2aCall (background : bool) (def : AgentDef) (base method : string) (params : rpc_params)
    : prog (callErr + a2aTask) :=
  match ae_marshal env method params with
  | Err e => mret (inl (EPlain ("marshal " +:+ method +:+ " request: " +:+ e)))
  | Ok data =>
      match ae_request env base with
      | Some e => mret (inl (EPlain ("build " +:+ method +:+ " request: " +:+ e)))
      | None =>
          auth ← authorization def;
          o ← ask (QHttp (mkRequest true base method data auth background));
          mret (decode_response method o)
      end
  end.

(** The remaining delays bound the loop. *)
Fixpoint a2aCallRetried (delays : list Z) (background : bool) (def : AgentDef) (base method : string)
    (params : rpc_params) (retryable : callErr -> bool) : prog (callErr + a2aTask) :=
  r ← a2aCall background def base method params;
  match r with
  | inr resp => mret (inr resp)
  | inl err =>
      match delays with
      | [] => mret (inl err)
      | d :: delays =>
          if retryable err then
            fired ← ask (QWait d);
            if (fired : bool) then a2aCallRetried delays background def base method params retryable
            else mret (inl err)
          else mret (inl err)
      end
  end.

(** The path of methods is tried in order; [lastErr] is the error of the last
    one. *)
Fixpoint send_methods (methods : list string) (lastErr : callErr) (def : AgentDef) (base prompt : string)
    : prog (callErr + a2aTask) :=
  match methods with
  | [] => mret (inl lastErr)
  | method :: methods =>
      r ← a2aCallRetried a2aRetryDelays false def base method (SendParams prompt) isA2ADialError;
      match r with
      | inr task =>
          mret (if decide (tk_ID task = "") then inl (EPlain (method +:+ " returned a task without id")) else inr task)
      | inl err => if isMethodNotFoundError err then send_methods methods err def base prompt else mret (inl err)
      end
  end.
Definition a2aSendTask (def : AgentDef) (base prompt : string) : prog (callErr + a2aTask) :=
  send_methods ["message/send"; "tasks/send"] (EPlain "") def base prompt.

Definition a2aTerminalStates : list string := ["completed"; "failed"; "canceled"; "rejected"].

Definition set_ID (id : string) (t : a2aTask) : a2aTask := mkTask id (tk_ContextID t) (tk_Status t) (tk_Artifacts t).

(** The polls; [None] when the fuel is used up.  An error comes with the last
    known task. *)
Fixpoint a2aAwaitTerminal (fuel : nat) (def : AgentDef) (base : string) (task : a2aTask)
    : prog (option (a2aTask * option error)) :=
  match fuel with
  | O => mret None
  | S fuel =>
      if decide (ss_State (tk_Status task) ∈ a2aTerminalStates) then mret (Some (task, None)) else
      fired ← ask (QWait a2aPollInterval);
      if negb fired then
        mret (Some (task, Some ("timed out waiting for task " +:+ tk_ID task +:+ " (last state " +:+
                                ss_State (tk_Status task) +:+ ")")))
      else
        r ← a2aCallRetried a2aRetryDelays false def base "tasks/get" (TaskParams (tk_ID task)) isA2ARetryableReadError;
        match r with
        | inl err => mret (Some (task, Some ("tasks/get for " +:+ tk_ID task +:+ " failed: " +:+ callErr_text err)))
        | inr updated =>
            a2aAwaitTerminal fuel def base
              (if decide (tk_ID updated = "") then set_ID (tk_ID task) updated else updated)
        end
  end.

Definition a2aCancelTaskBestEffort (def : AgentDef) (base taskID : string) : prog string :=
  r ← a2aCallRetried a2aRetryDelays true def base "tasks/cancel" (TaskParams taskID) isA2ADialError;
  mret match r with
       | inr _ => "remote task canceled"
       | inl err => "best-effort cancel failed: " +:+ callErr_text err
       end.

(** ** Results *)

Fixpoint extractPartsText_from (acc : string) (parts : list a2aPart) : string :=
  match parts with
  | [] => acc
  | p :: parts =>
      extractPartsText_from
        (if decide (pa_Kind p = "text" /\ pa_Text p <> "")
         then (if decide (acc = "") then acc else acc +:+ newline) +:+ pa_Text p else acc) parts
  end.
Definition extractPartsText (parts : list a2aPart) : string := extractPartsText_from "" parts.
Definition extractMessageText (m : a2aMessage) : string := extractPartsText (ms_Parts m).

Definition artifact_text (a : a2aArtifact) : option string :=
  let s := TrimSpace (extractPartsText (af_Parts a)) in
  if decide (s = "") then None
  else Some (if decide (af_Name a = "") then s else "[" +:+ af_Name a +:+ "]" +:+ newline +:+ s).
Definition extractTaskText (t : a2aTask) : string :=
  match omap artifact_text (tk_Artifacts t) with
  | [] => match ss_Message (tk_Status t) with Some m => TrimSpace (extractMessageText m) | None => "" end
  | texts => Join texts (newline +:+ newline)
  end.

(** ** Delegations *)

(** [strings.TrimRight(s, "/")] *)
Definition trim_right_slashes (s : string) : string := string_rev (skip_while (fun c => bool_decide (c = "/"%char)) (string_rev s)).

Definition parseA2AURL (raw : string) : result string :=
  u ← wrap_err "invalid a2a url: " (ae_parse_url env (TrimSpace raw));
  if decide (up_Scheme u <> "http" /\ up_Scheme u <> "https") then Err "invalid a2a url: scheme must be http or https" else
  if decide (up_Host u = "") then Err "invalid a2a url: host is required" else
  if up_User u || bool_decide (up_Fragment u <> "")
  then Err "invalid a2a url: userinfo and fragments are not allowed"
  else Ok (trim_right_slashes (up_String u)).

(** The outcome of a terminal task. *)
Definition terminal_result (task : a2aTask) : result string :=
  let state := ss_State (tk_Status task) in
  if decide (state = "completed") then Ok (extractTaskText task) else
  if decide (state = "canceled") then Err ("task " +:+ tk_ID task +:+ " was canceled") else
  if decide (state = "rejected") then Err ("task " +:+ tk_ID task +:+ " was rejected") else
  let msg := match ss_Message (tk_Status task) with Some m => extractMessageText m | None => "" end in
  if decide (msg = "") then Err ("task " +:+ tk_ID task +:+ " failed (state " +:+ state +:+ ")")
  else Err ("task " +:+ tk_ID task +:+ " failed: " +:+ msg).

(** A report to the breaker, and the result it is about. *)
Definition error_of {A} (r : result A) : option error := match r with Ok _ => None | Err e => Some e end.
Definition report_result (name : string) (r : result string) : prog (option (result string)) :=
  _ ← ask (QRecord name (error_of r));
  mret (Some r).

(** The prompt as it is sent. *)
Definition checked_prompt (t : AgentTask) : result string :=
  let prompt := TrimSpace (at_Prompt t) in
  if decide (prompt = "") then Err "agent requires a non-empty prompt" else
  if (maxPromptChars <? Z.of_nat (String.length prompt))%Z then Err "prompt too long" else Ok prompt.

(** The fail-closed audit hook. *)
Definition audited (t : AgentTask) (entry : string) : prog (option error) :=
  if at_Audit t then ask (QAudit entry) else mret None.

(** The polls that fit into the timeout. *)
Definition poll_fuel (t : AgentTask) : nat := S (Z.to_nat (resolveTimeout t / a2aPollInterval)).

(** From the submission on; [None] when the fuel of the polls is used up. *)
Definition delegate (t : AgentTask) (def : AgentDef) (base prompt : string) : prog (option (result string)) :=
  r ← a2aSendTask def base prompt;
  match r with
  | inl err => report_result (ad_Name def) (Err (callErr_text err))
  | inr task =>
      w ← a2aAwaitTerminal (poll_fuel t) def base task;
      match w with
      | None => mret None
      | Some (task, Some err) =>
          if decide (tk_ID task = "") then report_result (ad_Name def) (Err err) else
          note ← a2aCancelTaskBestEffort def base (tk_ID task);
          report_result (ad_Name def) (Err (err +:+ " (" +:+ note +:+ ")"))
      | Some (task, None) => report_result (ad_Name def) (terminal_result task)
      end
  end.

Definition SendMessage (def : AgentDef) (t : AgentTask) : prog (option (result string)) :=
  match (def ← Resolve def; prompt ← checked_prompt t; base ← parseA2AURL (ad_URL def); mret (def, prompt, base)) with
  | Err e => mret (Some (Err e))
  | Ok (def, prompt, base) =>
      refused ← ask (QAllow def);
      match refused with
      | Some e => mret (Some (Err e))
      | None =>
          let key := if_empty (ad_APIKeyEnv def) "(none)" in
          verdict ← audited t ("agentx a2a agent=" +:+ ad_Name def +:+ " url=" +:+ base +:+ " api_key_env=" +:+ key +:+
                               " timeout=" +:+ ae_duration env (resolveTimeout t));
          match verdict with
          | Some e => mret (Some (Err ("failed to write audit log: " +:+ e)))
          | None => delegate t def base prompt
          end
      end
  end.

(** The agent card, from the newer or the older well-known path. *)
Definition decode_card (o : http_outcome) : result AgentCard :=
  match o with
  | NoResponse e => Err (ne_text e)
  | Responded status body =>
      match body with
      | inl e => Err (ne_text e)
      | inr body =>
          if decide (status <> 200)%Z then Err ("HTTP " +:+ Itoa status)
          else wrap_err "invalid agent card JSON: " (ae_parse_card env (limited maxA2AResponseSize body))
      end
  end.
Definition a2aGetJSON (def : AgentDef) (url : string) : prog (result AgentCard) :=
  match ae_request env url with
  | Some e => mret (Err e)
  | None =>
      auth ← authorization def;
      o ← ask (QHttp (mkRequest false url "" "" auth false));
      mret (decode_card o)
  end.
Fixpoint card_paths (paths : list string) (lastErr : error) (def : AgentDef) (base : string) : prog (result AgentCard) :=
  match paths with
  | [] => mret (Err ("no agent card found: " +:+ lastErr))
  | path :: paths =>
      r ← a2aGetJSON def (base +:+ path);
      match r with Ok card => mret (Ok card) | Err e => card_paths paths e def base end
  end.
Definition FetchAgentCard (def : AgentDef) : prog (result AgentCard) :=
  match (def ← Resolve def; base ← parseA2AURL (ad_URL def); mret (def, base)) with
  | Err e => mret (Err e)
  | Ok (def, base) => card_paths ["/.well-known/agent-card.json"; "/.well-known/agent.json"] "" def base
  end.

(** The whole of [allow]: the probe of the breaker is the fetch of the card. *)
Definition allow_agent (now later : Z) (def : AgentDef) (b : agentBreakerSet)
    : prog (option CircuitOpenError * agentBreakerSet) :=
  match allow now def b with
  | (Pass, b) => mret (None, b)
  | (Refused err, b) => mret (Some err, b)
  | (Probe, b) =>
      r ← FetchAgentCard def;
      mret match probed later (ad_Name def) (error_of r) b with
           | (Refused err, b) => (Some err, b)
           | (_, b) => (None, b)
           end
  end.

(** ** Command line agents *)

Definition canonicalWorkdir (dir : string) : result string :=
  abs ← wrap_err "invalid cwd: " (Abs (ae_Getwd env) dir);
  resolved ← wrap_err "cwd does not resolve: " (ae_EvalSymlinks env (Clean abs));
  isDir ← wrap_err "cwd not accessible: " (ae_IsDir env resolved);
  if isDir : bool then Ok resolved else Err "cwd is not a directory".

(** A bare name, or an absolute path. *)
Definition binary_ok (binary : string) : bool :=
  negb ((str_has "/" binary || str_has "\" binary) && negb (IsAbs binary)).

Record cli_plan := mkPlan {
  pl_def : AgentDef;
  pl_model : string;
  pl_sandbox : string;
  pl_approval : string;
  pl_cwd : string;
  pl_args : list string
}.

(** The checks before anything is done. *)
Definition plan_cli (def : AgentDef) (t : AgentTask) : result cli_plan :=
  def ← Resolve def;
  prompt ← checked_prompt t;
  let model := orDefault (at_Model t) (ad_Model def) in
  let sandbox := orDefault (at_Sandbox t) (ad_Sandbox def) in
  let approval := orDefault (at_Approval t) (ad_Approval def) in
  if bool_decide (model <> "") && negb (isValidModelName model) then Err "invalid model" else
  if negb (binary_ok (ad_Binary def)) then Err "binary must be a bare command name or an absolute path" else
  let cwd := TrimSpace (at_Cwd t) in
  cwd ← (if decide (cwd = "") then Ok "" else canonicalWorkdir cwd);
  args ← buildProfileArgs def prompt model sandbox approval (at_MaxTurns t) cwd;
  mret (mkPlan def model sandbox approval cwd args).

(** What the output of a program that ended is worth. *)
Definition run_result (timeoutStr : string) (o : run_outcome) : option error * result string :=
  let stdout := limited maxOutputBytes (ro_stdout o) in
  let stderr := limited maxOutputBytes (ro_stderr o) in
  match ro_Err o with
  | Some e =>
      (Some e, Err (if ro_deadline o then "timed out after " +:+ timeoutStr
                    else "failed: " +:+ e +:+ newline +:+ "stderr: " +:+ stripANSI (TrimSpace stderr)))
  | None =>
      let out := stripANSI (TrimSpace stdout) in
      if decide (out = "") then
        let fb := stripANSI (TrimSpace stderr) in
        if decide (fb = "") then (Some "produced no output", Err "produced no output") else (None, Ok fb)
      else (None, Ok out)
  end.

(** The files for its output, the run and the report. *)
Definition start_program (name binary : string) (args : list string) (timeout : Z) : prog (result string) :=
  e1 ← ask (QTempFile "aflare-agentx-out-*");
  match e1 with
  | Some e => mret (Err ("failed to create temp output file: " +:+ e))
  | None =>
      e2 ← ask (QTempFile "aflare-agentx-err-*");
      match e2 with
      | Some e => mret (Err ("failed to create temp error file: " +:+ e))
      | None =>
          o ← ask (QRun binary args timeout);
          let '(report, r) := run_result (ae_duration env timeout) o in
          _ ← ask (QRecord name report);
          mret r
      end
  end.

Definition cli_audit_entry (p : cli_plan) (binary : string) (timeout : Z) : string :=
  "agentx cli agent=" +:+ ad_Name (pl_def p) +:+ " binary=" +:+ binary +:+ " profile=" +:+ ad_Profile (pl_def p) +:+
  " sandbox=" +:+ pl_sandbox p +:+ " approval=" +:+ pl_approval p +:+ " model=" +:+ pl_model p +:+
  " cwd=" +:+ pl_cwd p +:+ " timeout=" +:+ ae_duration env timeout.

Definition RunCLI (def : AgentDef) (t : AgentTask) : prog (result string) :=
  match plan_cli def t with
  | Err e => mret (Err e)
  | Ok p =>
      let def := pl_def p in
      refused ← ask (QAllow def);
      match refused with
      | Some e => mret (Err e)
      | None =>
          found ← ask (QLookPath (ad_Binary def));
          match found with
          | Err e =>
              let e := "binary not found: " +:+ e in
              _ ← ask (QRecord (ad_Name def) (Some e));
              mret (Err e)
          | Ok binary =>
              let timeout := resolveTimeout t in
              verdict ← audited t (cli_audit_entry p binary timeout);
              match verdict with
              | Some e => mret (Err ("failed to write audit log: " +:+ e))
              | None => start_program (ad_Name def) binary (pl_args p) timeout
              end
          end
      end
  end.
End client.

(** ** Reasoning about traces *)

(** Every trace of [m], with its value, satisfies [Q]. *)
Definition runs {A} (m : prog A) (Q : list event -> A -> Prop) : Prop := forall t a, traces m t a -> Q t a.

Lemma runs_ret {A} (a : A) (Q : list event -> A -> Prop) : Q [] a -> runs (mret a) Q.
Proof. intros H t b [-> ->]. done. Qed.

Lemma runs_ask q (Q : list event -> answer q -> Prop) : (forall x, Q [Ev q x] x) -> runs (ask q) Q.
Proof. intros H t a (x & t' & -> & -> & ->). apply H. Qed.

Lemma runs_mono {A} (m : prog A) (Q Q' : list event -> A -> Prop) :
  runs m Q -> (forall t a, Q t a -> Q' t a) -> runs m Q'.
Proof. intros H HQ t a Ht. by apply HQ, H. Qed.

Lemma runs_bind {A B} (m : prog A) (k : A -> prog B) Q1 (Q : list event -> B -> Prop) :
  runs m Q1 -> (forall t1 a, Q1 t1 a -> runs (k a) (fun t2 b => Q (t1 ++ t2)%list b)) -> runs (m ≫= k) Q.
Proof.
  intros Hm Hk t b Ht.
  assert (exists t1 t2 a, t = (t1 ++ t2)%list /\ traces m t1 a /\ traces (k a) t2 b) as (t1 & t2 & a & -> & H1 & H2).
  { clear Hm Hk. revert t Ht. induction m as [a|q f IH]; intros t Ht; [by exists [], t, a|].
    destruct Ht as (x & t' & -> & Ht). destruct (IH x t' Ht) as (t1 & t2 & a & -> & H1 & H2).
    exists (Ev q x :: t1), t2, a. split; [done|]. split; [|done]. by exists x, t1. }
  exact (Hk t1 a (Hm t1 a H1) t2 b H2).
Qed.

Lemma runs_ask_bind {B} q (k : answer q -> prog B) (Q : list event -> B -> Prop) :
  (forall x, runs (k x) (fun t b => Q (Ev q x :: t) b)) -> runs (ask q ≫= k) Q.
Proof. intros H t b (x & t' & -> & Ht). exact (H x t' b Ht). Qed.

(** What a trace shows: requests with their outcomes, reports, programs. *)
Definition request_of (e : event) : option (http_request * http_outcome) :=
  match e with existT (QHttp req) o => Some (req, o) | _ => None end.
Definition record_of (e : event) : option (string * option error) :=
  match projT1 e with QRecord name err => Some (name, err) | _ => None end.
Definition program_of (e : event) : option (string * list string * Z) :=
  match projT1 e with QRun binary args timeout => Some (binary, args, timeout) | _ => None end.
Definition tick_of (e : event) : option unit :=
  match e with existT (QWait d) true => if decide (d = a2aPollInterval) then Some tt else None | _ => None end.

Definition requests (t : list event) := omap request_of t.
Definition records (t : list event) := omap record_of t.
Definition programs (t : list event) := omap program_of t.
Definition ticks (t : list event) : nat := length (omap tick_of t).

Lemma ticks_app t1 t2 : ticks (t1 ++ t2) = (ticks t1 + ticks t2)%nat.
Proof. unfold ticks. by rewrite omap_app, length_app. Qed.
Lemma requests_app t1 t2 : requests (t1 ++ t2) = (requests t1 ++ requests t2)%list.
Proof. apply omap_app. Qed.
Lemma records_app t1 t2 : records (t1 ++ t2) = (records t1 ++ records t2)%list.
Proof. apply omap_app. Qed.

(** Splits the conjunctions in sight, and not those inside of definitions. *)
Ltac conjuncts := repeat match goal with |- _ /\ _ => split end.

Section client_proofs.
Context (env : AgentEnv).

(** *** One call *)

(** A call reports nothing and is at most one exchange, whose decoding is its
    result. *)
Definition one_call (background : bool) (base method : string) (t : list event) (r : callErr + a2aTask) : Prop :=
  records t = [] /\ ticks t = 0%nat /\
  ((requests t = [] /\ exists text, r = inl (EPlain text)) \/
   exists req o, requests t = [(req, o)] /\ r = decode_response env method o /\
     hr_Post req = true /\ hr_URL req = base /\ hr_method req = method /\ hr_background req = background).

Lemma runs_authorization def : runs (authorization def) (fun t _ => records t = [] /\ ticks t = 0%nat /\ requests t = []).
Proof.
  unfold authorization. case_decide; [by apply runs_ret|]. apply runs_ask_bind. intros v. by apply runs_ret.
Qed.

Lemma runs_a2aCall background def base method params :
  runs (a2aCall env background def base method params) (one_call background base method).
Proof.
  unfold a2aCall. destruct (ae_marshal env method params) as [data|e].
  2: { apply runs_ret. split_and!; [done..|]. left. split; [done|by eexists]. }
  destruct (ae_request env base) as [e|].
  { apply runs_ret. split_and!; [done..|]. left. split; [done|by eexists]. }
  eapply runs_bind; [apply runs_authorization|]. cbn. intros t1 auth (H1 & H2 & H3). apply runs_ask_bind. intros o.
  apply runs_ret. split_and!; [by rewrite records_app, H1|by rewrite ticks_app, H2|].
  right. eexists _, o. rewrite requests_app, H3. by split_and!.
Qed.

(** *** Retries *)

(** The requests of several exchanges of one method. *)
Definition calls (background : bool) (base method : string) (t : list event) : Prop :=
  records t = [] /\ ticks t = 0%nat /\
  Forall (fun ro => hr_Post ro.1 = true /\ hr_URL ro.1 = base /\ hr_method ro.1 = method /\
                    hr_background ro.1 = background) (requests t).

Lemma one_call_calls background base method t r : one_call background base method t r -> calls background base method t.
Proof.
  intros (H1 & H2 & [[H3 _]|(req & o & H3 & _ & H)]); split_and!; try done; rewrite H3; [done|].
  apply Forall_singleton. naive_solver.
Qed.

Lemma calls_app background base method t1 t2 : calls background base method t1 -> calls background base method t2 ->
  calls background base method (t1 ++ t2).
Proof.
  intros (H1 & H2 & H3) (H4 & H5 & H6). split_and!; [by rewrite records_app, H1, H4|by rewrite ticks_app, H2, H5|].
  rewrite requests_app. by apply Forall_app.
Qed.

(** The delays of retries are none of the polls. *)
Definition retry_delay (d : Z) : Prop := d <> a2aPollInterval.
Lemma retry_delays : Forall retry_delay a2aRetryDelays.
Proof. by repeat constructor. Qed.

Lemma calls_wait background base method d fired : retry_delay d -> calls background base method [Ev (QWait d) fired].
Proof.
  intros Hd. split_and!; [done| |done]. unfold ticks. cbn. destruct fired; [|done]. by rewrite decide_False.
Qed.

(** Whether a request may have started the task on the other side: it may not
    when no connection was made or the server does not know the method. *)
Definition sent_result (r : callErr + a2aTask) : bool :=
  match r with inl e => negb (isA2ADialError e || isMethodNotFoundError e) | inr _ => true end.
Definition submit_methods : list string := ["message/send"; "tasks/send"].
Definition submitted (ro : http_request * http_outcome) : Prop :=
  hr_method ro.1 ∈ submit_methods /\ sent_result (decode_response env (hr_method ro.1) ro.2) = true.
#[export] Instance submitted_dec ro : Decision (submitted ro).
Proof. unfold submitted. apply _. Defined.

Definition submissions (t : list event) : nat := length (filter submitted (requests t)).

Lemma submissions_app t1 t2 : submissions (t1 ++ t2) = (submissions t1 + submissions t2)%nat.
Proof. unfold submissions. by rewrite requests_app, filter_app, length_app. Qed.

Lemma submissions_other background base method t : method ∉ submit_methods -> calls background base method t ->
  submissions t = 0%nat.
Proof.
  intros Hm (_ & _ & H). unfold submissions. rewrite list_filter_none; [done|].
  eapply Forall_impl; [exact H|]. intros [req o] (_ & _ & Hr & _) [H1 _]. cbn in *. congruence.
Qed.

Lemma one_call_submissions background base method t r : one_call background base method t r ->
  (submissions t <= 1)%nat /\ (sent_result r = false -> submissions t = 0%nat).
Proof.
  intros (_ & _ & [[H [text ->]]|(req & o & H & -> & _ & _ & Hm & _)]); unfold submissions; rewrite H.
  - split; [cbn; lia|done].
  - rewrite filter_cons. case_decide as Hs; cbn; [|lia]. split; [lia|]. intros Hf.
    destruct Hs as [_ Hs]. cbn in Hs. rewrite Hm in Hs. congruence.
Qed.

Lemma dial_not_sent e : isA2ADialError e = true -> sent_result (inl e) = false.
Proof. cbn. by intros ->. Qed.

(** Retries after failed dials submit at most once. *)
Lemma runs_submit delays background def base method params : Forall retry_delay delays ->
  runs (a2aCallRetried env delays background def base method params isA2ADialError) (fun t r =>
    calls background base method t /\ (submissions t <= 1)%nat /\ (sent_result r = false -> submissions t = 0%nat)).
Proof.
  induction 1 as [|d delays Hd Hds IH]; cbn [a2aCallRetried];
    (eapply runs_bind; [apply runs_a2aCall|]; cbn; intros t1 [err|task] Hc;
     pose proof (one_call_calls _ _ _ _ _ Hc) as Hcs; pose proof (one_call_submissions _ _ _ _ _ Hc) as Hsub;
     try (apply runs_ret; by rewrite app_nil_r)).
  destruct (isA2ADialError err) eqn:Hdial; [|apply runs_ret; by rewrite app_nil_r].
  pose proof (proj2 Hsub (dial_not_sent err Hdial)) as H0.
  apply runs_ask_bind. intros fired. pose proof (calls_wait background base method d fired Hd) as Hw.
  assert (submissions (t1 ++ [Ev (QWait d) fired]) = 0%nat) as Hs1 by (by rewrite submissions_app, H0).
  destruct fired.
  - eapply runs_mono; [apply IH|]. cbn. intros t2 r (H2 & H3 & H4).
    rewrite (cons_middle _ t1 t2), (app_assoc t1). split_and!; [by apply calls_app; [apply calls_app|]|rewrite submissions_app; lia|].
    intros Hr. rewrite submissions_app, Hs1. by apply H4.
  - apply runs_ret. split; [by apply calls_app|]. lia.
Qed.

(** Retries of any kind. *)
Lemma runs_retried delays background def base method params retryable : Forall retry_delay delays ->
  runs (a2aCallRetried env delays background def base method params retryable) (fun t _ => calls background base method t).
Proof.
  induction 1 as [|d delays Hd Hds IH]; cbn [a2aCallRetried];
    (eapply runs_bind; [apply runs_a2aCall|]; cbn; intros t1 [err|task] Hc%one_call_calls;
     try (apply runs_ret; by rewrite app_nil_r)).
  destruct (retryable err); [|apply runs_ret; by rewrite app_nil_r].
  apply runs_ask_bind. intros fired. pose proof (calls_wait background base method d fired Hd) as Hw. destruct fired.
  - eapply runs_mono; [apply IH|]. cbn. intros t2 r H2. rewrite (cons_middle _ t1 t2), (app_assoc t1). by apply calls_app; [apply calls_app|].
  - apply runs_ret. by apply calls_app.
Qed.

(** *** The tasks that the agent answers with *)

Definition answer_of (ro : http_request * http_outcome) : option a2aTask :=
  if hr_background ro.1 then None
  else match decode_response env (hr_method ro.1) ro.2 with inr task => Some task | inl _ => None end.
Definition answered (t : list event) : list a2aTask := omap answer_of (requests t).

Lemma answered_app t1 t2 : answered (t1 ++ t2) = (answered t1 ++ answered t2)%list.
Proof. unfold answered. by rewrite requests_app, omap_app. Qed.

Definition task_of (r : callErr + a2aTask) : list a2aTask := match r with inr task => [task] | inl _ => [] end.

Lemma one_call_answered base method t r : one_call false base method t r -> answered t = task_of r.
Proof.
  intros (_ & _ & [[H [text ->]]|(req & o & H & -> & _ & _ & Hm & Hb)]); unfold answered; rewrite H; [done|].
  cbn. unfold answer_of. cbn. rewrite Hb, Hm. by destruct (decode_response env method o).
Qed.

Lemma calls_background base method t : calls true base method t -> answered t = [].
Proof.
  intros (_ & _ & H). unfold answered. induction H as [|[req o] l (_ & _ & _ & Hb) _ IH]; [done|].
  cbn. unfold answer_of at 1. cbn in *. by rewrite Hb.
Qed.

Lemma runs_retried_answered delays def base method params retryable :
  runs (a2aCallRetried env delays false def base method params retryable) (fun t r => answered t = task_of r).
Proof.
  induction delays as [|d delays IH]; cbn [a2aCallRetried];
    (eapply runs_bind; [apply runs_a2aCall|]; cbn; intros t1 [err|task] Hc%one_call_answered;
     try (apply runs_ret; by rewrite app_nil_r)).
  destruct (retryable err); [|apply runs_ret; by rewrite app_nil_r].
  apply runs_ask_bind. intros [].
  - eapply runs_mono; [apply IH|]. cbn. intros t2 r H2. by rewrite answered_app, Hc.
  - apply runs_ret. by rewrite answered_app, Hc.
Qed.

(** Both facts about a program at once. *)
Lemma runs_and {A} (m : prog A) Q1 Q2 : runs m Q1 -> runs m Q2 -> runs m (fun t a => Q1 t a /\ Q2 t a).
Proof. intros H1 H2 t a H. split; [by apply H1|by apply H2]. Qed.

(** *** Submission and polls *)

(** Requests of a delegation, without a report. *)
Definition exchanges (base : string) (t : list event) : Prop :=
  records t = [] /\ Forall (fun ro => hr_Post ro.1 = true /\ hr_URL ro.1 = base) (requests t).

Lemma calls_exchanges background base method t : calls background base method t -> exchanges base t.
Proof. intros (H1 & _ & H2). split; [done|]. eapply Forall_impl; [exact H2|]. naive_solver. Qed.
Lemma exchanges_app base t1 t2 : exchanges base t1 -> exchanges base t2 -> exchanges base (t1 ++ t2).
Proof.
  intros [H1 H2] [H3 H4]. split; [by rewrite records_app, H1, H3|]. rewrite requests_app. by apply Forall_app.
Qed.

Lemma runs_send_methods methods lastErr def base prompt : Forall (fun m => m ∈ submit_methods) methods ->
  runs (send_methods env methods lastErr def base prompt) (fun t r =>
    exchanges base t /\ ticks t = 0%nat /\ (submissions t <= 1)%nat /\
    match r with
    | inr task => answered t = [task] /\ tk_ID task <> ""
    | inl _ => answered t = [] \/ exists task, answered t = [task] /\ tk_ID task = ""
    end).
Proof.
  intros Hm. revert lastErr. induction Hm as [|method methods Hmethod Hms IH]; intros lastErr; cbn [send_methods].
  { apply runs_ret. conjuncts; [by split|done|cbn; lia|by left]. }
  eapply runs_bind; [apply runs_and; [apply runs_submit, retry_delays|apply runs_retried_answered]|].
  cbn. intros t1 [err|task] [(Hc & Hs & Hz) Ha].
  - pose proof Hc as (_ & Ht & _). apply calls_exchanges in Hc.
    destruct (isMethodNotFoundError err) eqn:En; [|apply runs_ret; rewrite app_nil_r; conjuncts; [done..|by left]].
    eapply runs_mono; [apply IH|]. cbn. intros t2 r (H1 & H2 & H3 & H4).
    rewrite ticks_app, submissions_app, answered_app, Ha, Ht, H2, Hz by (cbn; by rewrite En, orb_true_r).
    conjuncts; [by apply exchanges_app|done..].
  - pose proof Hc as (_ & Ht & _). apply calls_exchanges in Hc. apply runs_ret. rewrite app_nil_r.
    conjuncts; [done..|]. case_decide as Hid; [right; by exists task|done].
Qed.

(** Waiting shows in the ticks only. *)
Lemma answered_wait d x t : answered (Ev (QWait d) x :: t) = answered t.
Proof. done. Qed.
Lemma submissions_wait d x t : submissions (Ev (QWait d) x :: t) = submissions t.
Proof. done. Qed.
Lemma exchanges_wait base d x t : exchanges base (Ev (QWait d) x :: t) <-> exchanges base t.
Proof. done. Qed.
Lemma ticks_poll t : ticks (Ev (QWait a2aPollInterval) true :: t) = S (ticks t).
Proof. unfold ticks. cbn. by rewrite decide_True. Qed.

Definition terminal (task : a2aTask) : Prop := ss_State (tk_Status task) ∈ a2aTerminalStates.

Lemma runs_await fuel def base task :
  runs (a2aAwaitTerminal env fuel def base task) (fun t w =>
    exchanges base t /\ submissions t = 0%nat /\
    match w with
    | None => (fuel <= ticks t)%nat
    | Some (task', err) =>
        tk_Status task' = tk_Status (default task (last (answered t))) /\ (tk_ID task <> "" -> tk_ID task' <> "") /\
        match err with None => terminal task' | Some _ => True end
    end).
Proof.
  revert task. induction fuel as [|fuel IH]; intros task; cbn [a2aAwaitTerminal].
  { apply runs_ret. conjuncts; [by split|done|cbn; lia]. }
  case_decide as Hterm; [apply runs_ret; conjuncts; [by split|done..]|].
  apply runs_ask_bind. intros [].
  2: { apply runs_ret. conjuncts; [by split|done..]. }
  cbn [negb]. eapply runs_bind; [apply runs_and; [apply runs_retried, retry_delays|apply runs_retried_answered]|].
  cbn beta. intros t1 [err|updated] [Hc Ha]; pose proof (submissions_other _ _ "tasks/get" _ ltac:(by apply (bool_decide_eq_true_1 ("tasks/get" ∉ submit_methods))) Hc) as Hs;
    apply calls_exchanges in Hc; cbn in Ha.
  - apply runs_ret. rewrite app_nil_r. conjuncts; [exact Hc|exact Hs| |done|done].
    by rewrite answered_wait, Ha.
  - set (next := if decide (tk_ID updated = "") then set_ID (tk_ID task) updated else updated).
    assert (tk_Status next = tk_Status updated) as Hst by (unfold next; by case_decide).
    assert (tk_ID task <> "" -> tk_ID next <> "") as Hid by (unfold next; by case_decide).
    eapply runs_mono; [apply IH|]. cbn beta. intros t2 w (H1 & H2 & H3).
    rewrite exchanges_wait, submissions_wait, answered_wait, ticks_poll, answered_app, submissions_app, Ha, Hs, H2.
    conjuncts; [by apply exchanges_app|done|].
    destruct w as [[task' err]|]; [|rewrite ticks_app; lia].
    destruct H3 as (H3 & H4 & H5). conjuncts; [|by intros ?%Hid%H4|done]. rewrite H3. cbn [app].
    destruct (answered t2) as [|x l]; [done|]. rewrite last_cons_cons.
    destruct (last (x :: l)) eqn:E; [done|by apply last_None in E].
Qed.

(** *** Cancelling *)

(** [tasks/cancel] was tried, outside of the delegation's context. *)
Definition cancel_tried (base : string) (t : list event) : Prop :=
  exists req o, (req, o) ∈ requests t /\ hr_method req = "tasks/cancel" /\ hr_URL req = base /\ hr_background req = true.

Lemma cancel_tried_app base t1 t2 : cancel_tried base t1 \/ cancel_tried base t2 -> cancel_tried base (t1 ++ t2).
Proof.
  intros [(req & o & H)|(req & o & H)]; exists req, o; rewrite requests_app, elem_of_app; tauto.
Qed.

Lemma runs_cancel def base id : (forall method params, is_ok (ae_marshal env method params) = true) -> ae_request env base = None ->
  runs (a2aCancelTaskBestEffort env def base id) (fun t _ =>
    exchanges base t /\ submissions t = 0%nat /\ ticks t = 0%nat /\ answered t = [] /\ cancel_tried base t).
Proof.
  intros Hok Hreq. unfold a2aCancelTaskBestEffort.
  eapply runs_bind; [apply runs_and; [apply runs_retried, retry_delays|]|].
  { instantiate (1 := fun t _ => cancel_tried base t). cbn [a2aCallRetried a2aRetryDelays]. eapply runs_bind.
    - unfold a2aCall. specialize (Hok "tasks/cancel" (TaskParams id)).
      destruct (ae_marshal env "tasks/cancel" (TaskParams id)) as [data|]; [|done]. rewrite Hreq.
      eapply runs_bind; [apply runs_authorization|]. intros t1 auth _. apply runs_ask_bind. intros o. apply runs_ret.
      instantiate (1 := fun t _ => cancel_tried base t). cbn beta. apply cancel_tried_app. right.
      eexists _, o. cbn. split; [by left|done].
    - cbn beta. intros t1 r H1 t2 r' _. apply cancel_tried_app. by left. }
  cbn beta. intros t1 r [Hc Hcancel]. apply runs_ret. rewrite app_nil_r.
  pose proof (submissions_other _ _ _ _ ltac:(by apply (bool_decide_eq_true_1 ("tasks/cancel" ∉ submit_methods))) Hc).
  pose proof Hc as (_ & Ht & _). conjuncts; [by eapply calls_exchanges|done|done|by eapply calls_background|done].
Qed.

(** *** Whole delegations *)

(** Requests can be built for a validated endpoint: [http.NewRequest] fails on
    bad URLs only, and [json.Marshal] does not fail on strings. *)
Definition requests_build : Prop :=
  (forall method params, is_ok (ae_marshal env method params) = true) /\
  (forall raw base, parseA2AURL env raw = Ok base -> ae_request env base = None).

Lemma Resolve_keeps def d : Resolve def = Ok d ->
  ad_Name d = ad_Name def /\ ad_URL d = ad_URL def /\ ad_Binary d = ad_Binary def.
Proof. intros [_ [->|(_ & _ & ->)]]%Resolve_exact; done. Qed.
End client_proofs.

Section delegations.
Context (env : AgentEnv).

Lemma runs_report_result name r : runs (report_result name r) (fun t w => requests t = [] /\ ticks t = 0%nat /\ w = Some r /\ records t = [(name, error_of r)]).
Proof. apply runs_ask_bind. intros x. by apply runs_ret. Qed.

(** What [delegate] adds to a trace. *)
Definition delegation (t : AgentTask) (def : AgentDef) (base : string) (tr : list event) (w : option (result string)) : Prop :=
  (submissions env tr <= 1)%nat /\
  Forall (fun ro => hr_Post ro.1 = true /\ hr_URL ro.1 = base) (requests tr) /\
  match w with
  | None => records tr = [] /\ (poll_fuel t <= ticks tr)%nat
  | Some r => records tr = [(ad_Name def, error_of r)]
  end.

Lemma delegation_reports t def base tr1 r : exchanges base tr1 -> (submissions env tr1 <= 1)%nat ->
  runs (report_result (ad_Name def) r) (fun tr w => delegation t def base (tr1 ++ tr) w).
Proof.
  intros [H1 H2] Hs. eapply runs_mono; [apply runs_report_result|]. cbn beta. intros t2 w (R1 & R2 & -> & R4).
  unfold delegation. rewrite submissions_app, requests_app, records_app, R1, H1, R4, app_nil_r.
  conjuncts; [|done|done]. unfold submissions at 2. rewrite R1. cbn. lia.
Qed.

Lemma runs_delegate t def base prompt : requests_build env -> ae_request env base = None ->
  runs (delegate env t def base prompt) (delegation t def base).
Proof.
  intros [Hmar _] Hreq. unfold delegate, a2aSendTask. eapply runs_bind; [apply runs_send_methods; by repeat constructor; set_solver|].
  cbn beta. intros t1 [err|task] (H1 & H2 & H3 & H4); [by apply delegation_reports|]. destruct H4 as [Ha Hid].
  eapply runs_bind; [apply runs_await|]. cbn beta. intros t2 [[task' err]|] (G1 & G2 & G3).
  2: { apply runs_ret. unfold delegation. rewrite app_nil_r, submissions_app, ticks_app, G2, H2.
       destruct (exchanges_app base t1 t2 H1 G1) as [E1 E2]. conjuncts; [lia|done|done|lia]. }
  destruct G3 as (G3 & G4 & G5). specialize (G4 Hid).
  assert (exchanges base (t1 ++ t2) /\ (submissions env (t1 ++ t2) <= 1)%nat) as [E1 E2]
    by (split; [by apply exchanges_app|rewrite submissions_app, G2; lia]).
  destruct err as [err|].
  - rewrite decide_False by done. eapply runs_bind; [apply (runs_cancel env def base (tk_ID task') Hmar Hreq)|].
    cbn beta. intros t3 note (C1 & C2 & _ & _ & _).
    eapply runs_mono; [apply (delegation_reports t def base ((t1 ++ t2) ++ t3) _)|].
    + by apply exchanges_app.
    + rewrite submissions_app, C2. lia.
    + cbn beta. intros t4 w. by rewrite <- !app_assoc.
  - eapply runs_mono; [by apply (delegation_reports t def base (t1 ++ t2) _)|].
    cbn beta. intros t3 w. by rewrite <- app_assoc.
Qed.

(** The first questions of a delegation: the breaker, then the audit hook. *)
Definition cleared (t : AgentTask) (tr rest : list event) : Prop :=
  exists d, if at_Audit t
    then exists entry, tr = Ev (QAllow d) None :: Ev (QAudit entry) None :: rest
    else tr = Ev (QAllow d) None :: rest.

Lemma cleared_same t tr rest : cleared t tr rest ->
  requests tr = requests rest /\ records tr = records rest /\ ticks tr = ticks rest /\
  programs tr = programs rest /\ submissions env tr = submissions env rest.
Proof. intros (d & H). destruct (at_Audit t); [destruct H as (entry & ->)|subst tr]; done. Qed.

Lemma runs_SendMessage def t : requests_build env -> runs (SendMessage env def t) (fun tr w =>
  (requests tr = [] /\ records tr = [] /\ exists e, w = Some (Err e)) \/
  exists d base rest, Resolve def = Ok d /\ parseA2AURL env (ad_URL def) = Ok base /\
    cleared t tr rest /\ delegation t d base rest w).
Proof.
  intros Hb. unfold SendMessage. destruct (Resolve def) as [d|e] eqn:Er.
  2: { cbn. apply runs_ret. left. by eauto. }
  cbn [mbind result_bind]. destruct (checked_prompt t) as [prompt|e]; cbn [mbind result_bind].
  2: { apply runs_ret. left. by eauto. }
  destruct (Resolve_keeps def d Er) as (_ & Hu & _). rewrite Hu.
  destruct (parseA2AURL env (ad_URL def)) as [base|e] eqn:Eu; cbn [mbind result_bind mret result_ret].
  2: { apply runs_ret. left. by eauto. }
  apply runs_ask_bind. intros [e|]; [apply runs_ret; left; by eauto|].
  assert (ae_request env base = None) as Hreq by (by eapply Hb).
  unfold audited. destruct (at_Audit t) eqn:Ea.
  - apply runs_ask_bind. intros [e|]; [apply runs_ret; left; by eauto|].
    eapply runs_mono; [by apply runs_delegate|]. intros rest w H. right. exists d, base, rest.
    conjuncts; [done|done| |done]. exists d. rewrite Ea. by eexists.
  - cbn. eapply runs_mono; [by apply runs_delegate|]. intros rest w H. right. exists d, base, rest.
    conjuncts; [done|done| |done]. exists d. by rewrite Ea.
Qed.

(** C29: in every run of a delegation the task is submitted at most once, not
    counting dials that failed and answers that are read as an unknown method; all
    requests go to the validated endpoint; and none is made before the breaker
    and, where there is one, the audit hook have agreed. *)
Theorem SendMessage_submits_once def t tr w : requests_build env -> traces (SendMessage env def t) tr w ->
  (submissions env tr <= 1)%nat /\
  (requests tr <> [] -> exists base rest, parseA2AURL env (ad_URL def) = Ok base /\ cleared t tr rest /\
     Forall (fun ro => hr_URL ro.1 = base) (requests tr)).
Proof.
  intros Hb [(Hr & _)|(d & base & rest & _ & Hu & Hc & H1 & H2 & _)]%(runs_SendMessage def t Hb).
  - unfold submissions. rewrite Hr. split; [cbn; lia|done].
  - destruct (cleared_same t tr rest Hc) as (Q1 & _ & _ & _ & Q5). rewrite Q1, Q5. split; [done|].
    intros _. exists base, rest. conjuncts; [done|done|]. eapply Forall_impl; [exact H2|]. naive_solver.
Qed.

(** the breaker gets exactly one report about a delegation that it let
    through and the audit hook agreed to, a failure if the delegation fails
    and a success if not, and no report about any other. *)
Theorem SendMessage_reports_once def t tr r : requests_build env -> traces (SendMessage env def t) tr (Some r) ->
  (requests tr = [] /\ records tr = [] /\ is_ok r = false) \/
  (exists rest, cleared t tr rest /\ records tr = [(ad_Name def, error_of r)]).
Proof.
  intros Hb [(Hr & Hc & e & [= ->])|(d & base & rest & He & _ & Hc & _ & _ & H3)]%(runs_SendMessage def t Hb); [by left|].
  right. exists rest. split; [done|]. destruct (cleared_same t tr rest Hc) as (_ & -> & _).
  cbn in H3. by rewrite H3, (proj1 (Resolve_keeps def d He)).
Qed.

(** a delegation ends: its context's timeout leaves time for fewer polls
    than the fuel allows. *)
Theorem SendMessage_ends def t tr w : requests_build env -> traces (SendMessage env def t) tr w ->
  (Z.of_nat (ticks tr) * a2aPollInterval <= resolveTimeout t)%Z -> exists r, w = Some r.
Proof.
  intros Hb [(_ & _ & e & ->)|(d & base & rest & _ & _ & Hc & _ & _ & H3)]%(runs_SendMessage def t Hb) Ht; [by eexists|].
  destruct w as [r|]; [by eexists|]. exfalso. destruct H3 as [_ H3].
  destruct (cleared_same t tr rest Hc) as (_ & _ & Hticks & _). rewrite Hticks in Ht. unfold poll_fuel in H3.
  assert (0 < a2aPollInterval)%Z as Hp by done. pose proof (resolveTimeout_bounds t) as Hres.
  apply (Nat2Z.inj_le (S _)) in H3. rewrite Nat2Z.inj_succ, Z2Nat.id in H3 by (apply Z.div_pos; lia).
  pose proof (Z.mul_succ_div_gt (resolveTimeout t) a2aPollInterval Hp). nia.
Qed.

(** *** Abandoned tasks *)

Lemma runs_delegate_cancel t def base prompt : requests_build env -> ae_request env base = None ->
  runs (delegate env t def base prompt) (fun tr w => w = None \/ cancel_tried base tr \/
    (forall task, last (answered env tr) = Some task -> terminal task \/ answered env tr = [task] /\ tk_ID task = "")).
Proof.
  intros [Hmar _] Hreq. unfold delegate, a2aSendTask. eapply runs_bind; [apply runs_send_methods; by repeat constructor; set_solver|].
  assert (forall name r tr, runs (report_result name r) (fun t2 _ => answered env (tr ++ t2) = answered env tr)) as Hfin.
  { intros name r tr. eapply runs_mono; [apply runs_report_result|]. cbn beta. intros t2 w (R & _).
    rewrite answered_app. unfold answered at 2. by rewrite R, app_nil_r. }
  cbn beta. intros t1 [err|task] (_ & _ & _ & Ha).
  { eapply runs_mono; [apply (Hfin _ _ t1)|]. cbn beta. intros t2 w ->. right; right.
    intros task Hl. destruct Ha as [Ha|(x & Ha & Hx)]; rewrite Ha in Hl |- *; [done|]. injection Hl as <-. by right. }
  destruct Ha as [Ha Hid]. eapply runs_bind; [apply runs_await|]. cbn beta. intros t2 [[task' err]|] (_ & _ & G3).
  2: { apply runs_ret. by left. }
  destruct G3 as (G3 & G4 & G5). specialize (G4 Hid). destruct err as [err|].
  - rewrite decide_False by done. eapply runs_bind; [apply (runs_cancel env def base (tk_ID task') Hmar Hreq)|].
    cbn beta. intros t3 note (_ & _ & _ & _ & C). intros t4 w _. right; left.
    apply cancel_tried_app. right. apply cancel_tried_app. right. apply cancel_tried_app. by left.
  - eapply runs_mono; [apply (Hfin _ _ (t1 ++ t2)%list)|]. cbn beta. intros t3 w E. rewrite <- app_assoc in E. rewrite E. right; right.
    intros x Hx. left. rewrite answered_app, Ha in Hx. cbn [app] in Hx. unfold terminal in *. rewrite G3 in G5.
    rewrite last_cons in Hx. destruct (last (answered env t2)) as [y|]; cbn in G5; by injection Hx as <-.
Qed.

(** an abandoned task is cancelled: when the last state that the agent gave
    of a task with an identifier is no terminal one, the delegation has asked
    the agent, in a context of its own, to cancel it. *)
Theorem abandoned_task_cancelled def t tr r first task : requests_build env ->
  traces (SendMessage env def t) tr (Some r) ->
  head (answered env tr) = Some first -> tk_ID first <> "" ->
  last (answered env tr) = Some task -> ~ terminal task ->
  exists base, parseA2AURL env (ad_URL def) = Ok base /\ cancel_tried base tr.
Proof.
  intros Hb Ht Hf Hid Hl Hterm.
  assert (runs (SendMessage env def t) (fun tr w => requests tr = [] \/ exists base, parseA2AURL env (ad_URL def) = Ok base /\
    (w = None \/ cancel_tried base tr \/
     (forall task, last (answered env tr) = Some task -> terminal task \/ answered env tr = [task] /\ tk_ID task = "")))) as H.
  { unfold SendMessage. destruct (Resolve def) as [d|e] eqn:Er; cbn [mbind result_bind]; [|apply runs_ret; by left].
    destruct (checked_prompt t) as [prompt|e]; cbn [mbind result_bind]; [|apply runs_ret; by left].
    destruct (Resolve_keeps def d Er) as (_ & Hu & _). rewrite Hu.
    destruct (parseA2AURL env (ad_URL def)) as [base|e] eqn:Eu; cbn [mbind result_bind mret result_ret]; [|apply runs_ret; by left].
    pose proof (proj2 Hb _ _ Eu) as Hreq.
    apply runs_ask_bind. intros [e|]; [apply runs_ret; by left|]. unfold audited. destruct (at_Audit t).
    - apply runs_ask_bind. intros [e|]; [apply runs_ret; by left|].
      eapply runs_mono; [by apply runs_delegate_cancel|]. intros rest w Hd. right. by exists base.
    - eapply runs_mono; [by apply runs_delegate_cancel|]. intros rest w Hd. right. by exists base. }
  destruct (H tr (Some r) Ht) as [H0|(base & Hu & [?|[Hc|Hlast]])]; [|done|by exists base|].
  - unfold answered in Hl. by rewrite H0 in Hl.
  - destruct (Hlast task Hl) as [?|[E Hn]]; [done|]. rewrite E in Hf. injection Hf as <-. done.
Qed.

End delegations.

(** *** Health checks *)

Section probes.
Context (env : AgentEnv).

Lemma runs_card_paths paths lastErr def base : runs (card_paths env paths lastErr def base) (fun tr r =>
  records tr = [] /\ Forall (fun ro => hr_Post ro.1 = false /\ exists path, path ∈ paths /\ hr_URL ro.1 = base +:+ path) (requests tr)).
Proof.
  revert lastErr. induction paths as [|path paths IH]; intros lastErr; cbn [card_paths]; [by apply runs_ret|].
  eapply (runs_bind _ _ (fun tr _ => records tr = [] /\ Forall (fun ro => hr_Post ro.1 = false /\ hr_URL ro.1 = base +:+ path) (requests tr))).
  { unfold a2aGetJSON. destruct (ae_request env (base +:+ path)); [by apply runs_ret|].
    eapply runs_bind; [apply runs_authorization|]. cbn beta. intros t1 auth (H1 & _ & H3). apply runs_ask_bind. intros o.
    apply runs_ret. rewrite records_app, requests_app, H1, H3. split; [done|]. by apply Forall_singleton. }
  cbn beta. intros t1 [card|e] [H1 H2].
  - apply runs_ret. rewrite app_nil_r. split; [done|]. eapply Forall_impl; [exact H2|]. intros ro [Hp Hu].
    split; [done|]. exists path. split; [by left|done].
  - eapply runs_mono; [apply IH|]. cbn beta. intros t2 r [H3 H4]. rewrite records_app, requests_app, H1, H3.
    split; [done|]. apply Forall_app. split; (eapply Forall_impl; [eassumption|]); intros ro [Hp Hu].
    + split; [done|]. exists path. split; [by left|done].
    + split; [done|]. destruct Hu as (q & Hq & Hu). exists q. split; [by right|done].
Qed.

(** the admission of a delegation touches nothing but the breaker, apart
    from the fetch of the agent card when a cool-down has passed; what it
    answers and the state it leaves agree: after a health check the circuit is
    closed if the delegation may proceed, and open if not. *)
Theorem allow_agent_decides now later def b tr refused b' : traces (allow_agent env now later def b) tr (refused, b') ->
  records tr = [] /\ Forall (fun ro => hr_Post ro.1 = false) (requests tr) /\
  (requests tr <> [] -> (allow now def b).1 = Probe /\
     state_of (ad_Name def) b' = match refused with None => breakerClosed | Some _ => breakerOpen end).
Proof.
  intros H. unfold allow_agent in H. destruct (allow now def b) as [[|err|] b1]; [by destruct H as [-> [= -> ->]]..|].
  assert (runs (FetchAgentCard env def) (fun tr _ => records tr = [] /\ Forall (fun ro => hr_Post ro.1 = false) (requests tr))) as HF.
  { unfold FetchAgentCard. destruct (Resolve def) as [d|e]; cbn [mbind result_bind]; [|by apply runs_ret].
    destruct (parseA2AURL env (ad_URL d)) as [base|e]; cbn [mbind result_bind mret result_ret]; [|by apply runs_ret].
    eapply runs_mono; [apply runs_card_paths|]. cbn beta. intros t1 r [H1 H2]. split; [done|].
    eapply Forall_impl; [exact H2|]. by intros ro [Hp _]. }
  revert tr refused b' H.
  enough (runs (r ← FetchAgentCard env def; mret match probed later (ad_Name def) (error_of r) b1 with
           | (Refused err, b) => (Some err, b) | (_, b) => (None, b) end) (fun tr out =>
    records tr = [] /\ Forall (fun ro => hr_Post ro.1 = false) (requests tr) /\
    (requests tr <> [] -> Probe = Probe /\
      state_of (ad_Name def) out.2 = match out.1 with None => breakerClosed | Some _ => breakerOpen end))) as HR
    by (intros tr refused b' H; exact (HR tr (refused, b') H)).
  eapply runs_bind; [exact HF|]. cbn beta. intros t1 r [H1 H2]. apply runs_ret. rewrite app_nil_r.
  conjuncts; [done|done|]. intros _. split; [done|]. unfold state_of.
  destruct r as [card|e]; cbn; by rewrite lookup_insert_eq.
Qed.
End probes.

(** *** Command line agents *)

Section cli.
Context (env : AgentEnv).

(** The working directory is absolute, and resolving symbolic links keeps a
    path absolute. *)
Definition paths_absolute : Prop :=
  (forall wd, ae_Getwd env = Ok wd -> IsAbs wd = true) /\
  (forall p r, ae_EvalSymlinks env p = Ok r -> IsAbs p = true -> IsAbs r = true).

Lemma canonicalWorkdir_abs dir r : paths_absolute -> canonicalWorkdir env dir = Ok r -> IsAbs r = true.
Proof.
  intros [Hwd Hsym]. unfold canonicalWorkdir. destruct (Abs (ae_Getwd env) dir) as [abs|] eqn:Ea; [|done]. cbn.
  destruct (ae_EvalSymlinks env (Clean abs)) as [p|] eqn:Es; [|done]. cbn.
  destruct (ae_IsDir env p) as [[]|]; [|done..]. intros [= <-]. apply (Hsym _ _ Es). rewrite IsAbs_Clean.
  unfold Abs in Ea. destruct (IsAbs dir) eqn:Ed; [injection Ea as <-; by rewrite IsAbs_Clean|].
  destruct (ae_Getwd env) as [wd|]; [|done]. injection Ea as <-. unfold JoinPath. rewrite IsAbs_Clean.
  specialize (Hwd wd eq_refl). rewrite IsAbs_snoc; [done|]. by intros ->.
Qed.

(** A plan is made of validated parts. *)
Record plan_ok (def : AgentDef) (t : AgentTask) (p : cli_plan) : Prop := {
  po_def : Resolve def = Ok (pl_def p);
  po_model : pl_model p = "" \/ isValidModelName (pl_model p) = true;
  po_cwd : pl_cwd p = "" \/ canonicalWorkdir env (TrimSpace (at_Cwd t)) = Ok (pl_cwd p);
  po_binary : binary_ok (ad_Binary (pl_def p)) = true;
  po_args : exists prompt, checked_prompt t = Ok prompt /\
    buildProfileArgs (pl_def p) prompt (pl_model p) (pl_sandbox p) (pl_approval p) (at_MaxTurns t) (pl_cwd p) = Ok (pl_args p)
}.

Lemma plan_cli_ok def t p : plan_cli env def t = Ok p -> plan_ok def t p.
Proof.
  unfold plan_cli. destruct (Resolve def) as [d|] eqn:Er; [|done]. cbn [mbind result_bind].
  destruct (checked_prompt t) as [prompt|] eqn:Ep; [|done]. cbn [mbind result_bind].
  set (model := orDefault (at_Model t) (ad_Model d)).
  destruct (bool_decide (model <> "") && negb (isValidModelName model)) eqn:Em; [done|].
  destruct (binary_ok (ad_Binary d)) eqn:Eb; [|done]. cbn [negb].
  assert (model = "" \/ isValidModelName model = true) as Hm.
  { destruct (decide (model = "")) as [|Hne]; [by left|right]. rewrite bool_decide_eq_true_2 in Em by done.
    by apply negb_false_iff in Em. }
  destruct (if decide (TrimSpace (at_Cwd t) = "") then Ok "" else canonicalWorkdir env (TrimSpace (at_Cwd t))) as [cwd|] eqn:Ec; [|done].
  cbn [mbind result_bind].
  destruct (buildProfileArgs _ _ _ _ _ _ _) as [args|] eqn:Ea; [|done]. intros [= <-].
  split; [done|done| |done|by exists prompt]. cbn. case_decide; [left; congruence|by right].
Qed.

Lemma run_result_report s o : (run_result s o).1 = None <-> is_ok (run_result s o).2 = true.
Proof. unfold run_result. destruct (ro_Err o); [done|]. repeat case_decide; done. Qed.

Definition not_started (name : string) (tr : list event) (r : result string) : Prop :=
  programs tr = [] /\ is_ok r = false /\ (records tr = [] \/ exists e, records tr = [(name, Some e)]).
Definition started_once (name binary : string) (args : list string) (timeout : Z) (tr : list event) (r : result string) : Prop :=
  programs tr = [(binary, args, timeout)] /\
  exists report, records tr = [(name, report)] /\ (report = None <-> is_ok r = true).

Lemma not_started_err name tr e : programs tr = [] -> records tr = [] -> not_started name tr (Err e).
Proof. intros H1 H2. unfold not_started. conjuncts; [done..|by left]. Qed.

Lemma runs_start_program name binary args timeout : runs (start_program env name binary args timeout) (fun tr r =>
  not_started name tr r \/ started_once name binary args timeout tr r).
Proof.
  unfold start_program. apply runs_ask_bind. intros [e|]; [apply runs_ret; left; by apply not_started_err|].
  apply runs_ask_bind. intros [e|]; [apply runs_ret; left; by apply not_started_err|].
  apply runs_ask_bind. intros o. pose proof (run_result_report (ae_duration env timeout) o) as Hrep.
  destruct (run_result (ae_duration env timeout) o) as [report res]. apply runs_ask_bind. intros u. apply runs_ret.
  right. split; [done|]. by exists report.
Qed.

(** a run of a command line agent: either no program is started, the result
    is an error and the breaker hears at most of a missing binary; or exactly
    one program is started, with the planned arguments and the task's timeout,
    after the breaker and, where there is one, the audit hook have agreed, and
    the breaker gets exactly one report, which is a success exactly if the
    delegation succeeds. *)
Theorem RunCLI_runs_once def t tr r : traces (RunCLI env def t) tr r ->
  not_started (ad_Name def) tr r \/
  exists p binary rest, plan_cli env def t = Ok p /\
    (if at_Audit t then exists entry, tr = Ev (QAllow (pl_def p)) None ::
       Ev (QLookPath (ad_Binary (pl_def p))) (Ok binary) :: Ev (QAudit entry) None :: rest
     else tr = Ev (QAllow (pl_def p)) None :: Ev (QLookPath (ad_Binary (pl_def p))) (Ok binary) :: rest) /\
    started_once (ad_Name def) binary (pl_args p) (resolveTimeout t) tr r.
Proof.
  revert tr r. match goal with |- forall tr r, traces ?m tr r -> @?Q tr r => change (runs m Q) end.
  unfold RunCLI. destruct (plan_cli env def t) as [p|e] eqn:Ep.
  2: { apply runs_ret. left. by apply not_started_err. }
  destruct (Resolve_keeps def (pl_def p) (po_def _ _ _ (plan_cli_ok def t p Ep))) as (Hname & _ & _).
  apply runs_ask_bind. intros [e|]; [apply runs_ret; left; by apply not_started_err|].
  apply runs_ask_bind. intros [binary|e].
  2: { apply runs_ask_bind. intros u. apply runs_ret. left. unfold not_started. conjuncts; [done..|]. right.
       rewrite <- Hname. by eexists. }
  unfold audited. destruct (at_Audit t).
  - apply runs_ask_bind. intros [e|]; [apply runs_ret; left; by apply not_started_err|].
    eapply runs_mono; [apply runs_start_program|]. rewrite Hname. intros rest r [H|H]; [by left|right].
    exists p, binary, rest. conjuncts; [done|by eexists|done].
  - eapply runs_mono; [apply runs_start_program|]. rewrite Hname. intros rest r [H|H]; [by left|right].
    by exists p, binary, rest.
Qed.

(** when a codex agent is run, its prompt is the one argument behind the
    separator, and what is in front of it cannot be mistaken for other options
    than the ones the profile sets, whatever the task says. *)
Theorem RunCLI_codex_safe def t tr r : paths_absolute -> ad_Profile def = "codex" -> traces (RunCLI env def t) tr r ->
  Forall (fun run => exists front prompt, checked_prompt t = Ok prompt /\ run.1.2 = (front ++ ["--"; prompt])%list /\
    ~ ("--" ∈ front) /\ Forall (fun a => no_flag a \/ a ∈ codex_flags) front) (programs tr).
Proof.
  intros Habs Hprof H.
  assert ((programs tr = []) \/ exists p binary, plan_cli env def t = Ok p /\ programs tr = [(binary, pl_args p, resolveTimeout t)]) as Hrun.
  { revert tr r H. match goal with |- forall tr r, traces ?m tr r -> @?Q tr r => change (runs m Q) end.
    unfold RunCLI. destruct (plan_cli env def t) as [p|e] eqn:Ep; [|apply runs_ret; by left].
    apply runs_ask_bind. intros [e|]; [apply runs_ret; by left|].
    apply runs_ask_bind. intros [binary|e]; [|apply runs_ask_bind; intros u; apply runs_ret; by left].
    unfold audited. destruct (at_Audit t); [apply runs_ask_bind; intros [e|]; [apply runs_ret; by left|]|];
      (eapply runs_mono; [apply runs_start_program|]; intros rest r [[H _]|[H _]]; [by left|right; by exists p, binary]). }
  destruct Hrun as [->|(p & binary & Hp%plan_cli_ok & ->)]; [done|]. apply Forall_singleton. cbn.
  destruct Hp as [Hdef Hm Hc _ (prompt & Hprompt & Hargs)].
  assert (ad_Profile (pl_def p) = "codex") as Hprof'.
  { apply Resolve_exact in Hdef as [_ [->|(_ & He & _)]]; [done|congruence]. }
  assert (pl_cwd p = "" \/ IsAbs (pl_cwd p) = true) as Hc' by (destruct Hc; [by left|right; by eapply canonicalWorkdir_abs]).
  destruct (codex_front (pl_def p) prompt (pl_model p) (pl_sandbox p) (pl_approval p) (at_MaxTurns t) (pl_cwd p) (pl_args p) Hprof' Hm Hc' Hargs) as (front & H1 & H2 & H3).
  by exists front, prompt.
Qed.
End cli.

(** ** An environment *)

Definition working : a2aTask := mkTask "t1" "" (mkStatus "working" None) [].
Definition completed : a2aTask :=
  mkTask "t1" "" (mkStatus "completed" None) [mkArtifact "" [mkPart "text" "done"]].

Definition demo_env : AgentEnv := mkAgentEnv
  (fun _ _ => Ok "{}") (fun _ => None)
  (fun body => if decide (body = "error") then Ok (mkRpc "" (Some ((-32000)%Z, "tool failed: method not found in Foo")))
               else Ok (mkRpc body None))
  (fun r => Ok (if decide (r = "working") then working else completed))
  (fun _ => Err "no card") (fun u => Ok (mkURL "http" "agent" false "" u)) (fun _ => "10m0s") id
  (Ok "/work") (fun p => Ok p) (fun _ => Ok true).

Lemma demo_builds : requests_build demo_env.
Proof. done. Qed.

Definition remote : AgentDef := mkAgentDef "a" DriverA2A "" "" "" [] "http://agent/rpc" "" "" "" "" None.
Definition errand : AgentTask := mkAgentTask "do it" "" "" "" "" 0 0 true.
Definition entry : string := "agentx a2a agent=a url=http://agent/rpc api_key_env=(none) timeout=10m0s".
Definition post (method : string) (background : bool) (o : http_outcome) : event :=
  Ev (QHttp (mkRequest true "http://agent/rpc" method "{}" None background)) o.
Definition says (body : string) : http_outcome := Responded 200 (inr body).
Definition unreachable : http_outcome := NoResponse (mkNetError (Some "dial") "connection refused").

Ltac replay := repeat (hnf; eexists _, _; split; [reflexivity|]); hnf; split; reflexivity.

(** A dial fails, the second one gets through, one poll, and the deadline. *)
Definition abandoned_run : list event :=
  [Ev (QAllow remote) None; Ev (QAudit entry) None;
   post "message/send" false unreachable; Ev (QWait (200 * Millisecond)) true;
   post "message/send" false (says "working"); Ev (QWait a2aPollInterval) true;
   post "tasks/get" false (says "working"); Ev (QWait a2aPollInterval) false;
   post "tasks/cancel" true (says "working")].
Definition abandoned_error : string := "timed out waiting for task t1 (last state working) (remote task canceled)".

Lemma abandoned_traces : traces (SendMessage demo_env remote errand)
  (abandoned_run ++ [Ev (QRecord "a" (Some abandoned_error)) tt]) (Some (Err abandoned_error)).
Proof. replay. Qed.

(** an error of the task itself whose text mentions an unknown method is
    taken for an unknown method of the protocol: the task is submitted again,
    although the agent has accepted and run the first one. *)
Theorem error_text_resubmits : exists tr,
  traces (SendMessage demo_env remote errand) tr (Some (Ok "done")) /\
  filter (fun ro => hr_method ro.1 ∈ submit_methods) (requests tr) =
    [(mkRequest true "http://agent/rpc" "message/send" "{}" None false, says "error");
     (mkRequest true "http://agent/rpc" "tasks/send" "{}" None false, says "completed")].
Proof.
  exists [Ev (QAllow remote) None; Ev (QAudit entry) None; post "message/send" false (says "error");
          post "tasks/send" false (says "completed"); Ev (QRecord "a" None) tt].
  split; [replay|reflexivity].
Qed.

Lemma SendMessage_submits_once_witness :
  (submissions demo_env (abandoned_run ++ [Ev (QRecord "a" (Some abandoned_error)) tt]) <= 1)%nat /\
  length (requests abandoned_run) = 4%nat.
Proof. split; [|reflexivity]. exact (proj1 (SendMessage_submits_once demo_env remote errand _ _ demo_builds abandoned_traces)). Defined.

Lemma SendMessage_reports_once_witness : traces (SendMessage demo_env remote errand)
    (abandoned_run ++ [Ev (QRecord "a" (Some abandoned_error)) tt]) (Some (Err abandoned_error)) /\
  exists rest, cleared errand (abandoned_run ++ [Ev (QRecord "a" (Some abandoned_error)) tt]) rest.
Proof.
  split; [exact abandoned_traces|].
  destruct (SendMessage_reports_once demo_env remote errand _ _ demo_builds abandoned_traces) as [(H & _)|(rest & H & _)]; [discriminate H|].
  exact (ex_intro _ rest H).
Defined.

Lemma SendMessage_ends_witness : exists r : result string, Some (Err abandoned_error) = Some r.
Proof. apply (SendMessage_ends demo_env remote errand _ _ demo_builds abandoned_traces). by vm_compute. Defined.

Lemma abandoned_task_cancelled_witness :
  exists base, parseA2AURL demo_env "http://agent/rpc" = Ok base /\
    cancel_tried base (abandoned_run ++ [Ev (QRecord "a" (Some abandoned_error)) tt]).
Proof.
  apply (abandoned_task_cancelled demo_env remote errand _ _ working working demo_builds abandoned_traces);
    [reflexivity|done|reflexivity|by apply (bool_decide_eq_true_1 (~ terminal working))].
Defined.

Definition local : AgentDef := preset "codex" "" "strict" "never".
Definition bold_errand : AgentTask := mkAgentTask " --yolo " "" "" "" "" 0 0 false.
Definition local_run : list event :=
  [Ev (QAllow local) None; Ev (QLookPath "codex") (Ok "/usr/bin/codex");
   Ev (QTempFile "aflare-agentx-out-*") None; Ev (QTempFile "aflare-agentx-err-*") None;
   Ev (QRun "/usr/bin/codex" ["exec"; "--sandbox"; "strict"; "--approval-policy"; "never"; "--"; "--yolo"] (10 * Minute))
      (mkRun None false " ok " ""); Ev (QRecord "codex" None) tt].
Lemma local_traces : traces (RunCLI demo_env local bold_errand) local_run (Ok "ok").
Proof. replay. Qed.

Lemma RunCLI_runs_once_witness : programs local_run <> [] /\
  (not_started "codex" local_run (Ok "ok") \/ exists p, plan_cli demo_env local bold_errand = Ok p).
Proof.
  split; [done|]. destruct (RunCLI_runs_once demo_env local bold_errand _ _ local_traces) as [H|(p & binary & rest & H & _)];
    [left; exact H|right; exact (ex_intro _ p H)].
Defined.

Lemma RunCLI_codex_safe_witness : paths_absolute demo_env /\
  Forall (fun run => exists front prompt, checked_prompt bold_errand = Ok prompt /\ run.1.2 = (front ++ ["--"; prompt])%list /\
    ~ ("--" ∈ front) /\ Forall (fun a => no_flag a \/ a ∈ codex_flags) front) (programs local_run).
Proof.
  assert (paths_absolute demo_env) as H by (split; [by intros wd [= <-]|by intros p r [= <-]]).
  split; [exact H|]. exact (RunCLI_codex_safe demo_env local bold_errand _ _ H eq_refl local_traces).
Defined.

Lemma allow_agent_decides_witness :
  let b := record 0 "a" (Some "down") (newAgentBreakerSet 1 100) in
  let tr := [Ev (QHttp (mkRequest false "http://agent/rpc/.well-known/agent-card.json" "" "" None false)) unreachable;
             Ev (QHttp (mkRequest false "http://agent/rpc/.well-known/agent.json" "" "" None false)) unreachable] in
  exists refused b', traces (allow_agent demo_env 100 101 remote b) tr (refused, b') /\
    records tr = [] /\ Forall (fun ro => hr_Post ro.1 = false) (requests tr).
Proof.
  cbv zeta. eexists _, _. split; [replay|].
  match goal with |- ?A /\ ?B => refine ((fun H => conj (proj1 H) (proj1 (proj2 H))) (allow_agent_decides demo_env 100 101 remote (record 0 "a" (Some "down") (newAgentBreakerSet 1 100)) _ _ _ _)) end.
  replay.
Defined.
