(* ===== verification/SelfUpdate.v ===== *)
(** * Self-update (src/internal/meta/version.go, src/internal/autoupgrade/engine.go)

    aflare replaces its own executable by the asset of the latest release.
    The file system is a map from paths to files; every system call and every
    exchange can fail, and each change of the file system is recorded, so the
    theorems also speak about what is left when the process stops, and, with
    the bytes of files that were not synced lost, when the power fails. *)

From S2P Require Import Prelude GoStrings GoText GoTime.

#[local] Open Scope string_scope.

(** ** Releases *)

Record ReleaseAsset := mkAsset { as_Name : string; as_URL : string; as_Size : Z }.
Record GitHubRelease := mkRelease {
  rl_TagName : string;
  rl_Name : string;
  rl_PublishedAt : Z;
  rl_Body : string;
  rl_Assets : list ReleaseAsset
}.

(** No release, or one without a tag, is no update. *)
Definition HasUpdate (currentVersion : string) (latest : option GitHubRelease) : bool :=
  match latest with
  | None => false
  | Some r =>
      if decide (rl_TagName r = "") then false
      else negb (bool_decide (TrimPrefix currentVersion "v" = TrimPrefix (rl_TagName r) "v"))
  end.

Definition asset_suffix (goos goarch : string) : string :=
  goos +:+ "-" +:+ goarch +:+ (if decide (goos = "windows") then ".exe" else "").
Fixpoint first_asset (p : string -> bool) (l : list ReleaseAsset) : string * string :=
  match l with
  | [] => ("", "")
  | a :: l => if p (as_Name a) then (as_URL a, as_Name a) else first_asset p l
  end.
Definition FindAsset (r : GitHubRelease) (goos goarch : string) : string * string :=
  first_asset (fun name => Contains name (asset_suffix goos goarch)) (rl_Assets r).
Definition findChecksumsURL (r : GitHubRelease) : string :=
  (first_asset (fun name => Contains name "checksums" || Contains name "sha256") (rl_Assets r)).1.

(** The lines of a checksums file: the sum, the name; later lines win. *)
Definition checksum_line (m : gmap string string) (line : string) : gmap string string :=
  let line := TrimSpace line in
  if decide (line = "") then m else
  match Fields line with
  | sum :: name :: _ => <[TrimSpace name := TrimSpace sum]> m
  | _ => m
  end.
Definition parse_checksums (data : string) : gmap string string :=
  foldl checksum_line ∅ (Split data newline).

(** ** The environment *)

Record url_info := mkUrlInfo { ui_Scheme : string; ui_User : bool; ui_Hostname : string }.
Record UpdateEnv := mkUpdateEnv {
  ue_Version : string;                             (* a linker flag sets it *)
  ue_parse_url : string -> result url_info;
  ue_get : string -> option string -> result http_response;
  ue_decode : string -> option error -> result GitHubRelease;   (* of what comes before the error *)
  ue_token : string;                               (* GITHUB_TOKEN *)
  ue_sha256 : string -> string;                    (* in hexadecimal *)
  ue_goos : string;
  ue_goarch : string;
  ue_Executable : result string;
  (* which calls succeed *)
  ue_create : string -> bool;
  ue_write : string -> option nat;                 (* how much a failing write has written *)
  ue_close : string -> bool;
  ue_read : string -> bool;
  ue_rename : string -> string -> bool;
  ue_remove : string -> bool;
  ue_now : string;                                 (* the time in a backup's name *)
  ue_time : Z                                      (* the same time, in nanoseconds *)
}.

(** A file's bytes, whether its mode allows to execute it, and whether the
    bytes are on stable storage: the update never syncs what it writes. *)
Record file := mkFile { fl_data : string; fl_exec : bool; fl_synced : bool }.
Abbreviation fs := (gmap string file).

(** The file system, the earlier ones, and the requests that were made. *)
Record host := mkHost { h_fs : fs; h_past : list fs; h_requests : list (string * option string) }.

Definition UM (A : Type) : Type := host -> host * result A.
#[export] Instance UM_ret : MRet UM := fun A a h => (h, Ok a).
#[export] Instance UM_bind : MBind UM := fun A B k m h =>
  match m h with (h', Ok a) => k a h' | (h', Err e) => (h', Err e) end.
Definition fail {A} (e : error) : UM A := fun h => (h, Err e).
Definition lift {A} (r : result A) : UM A := fun h => (h, r).

Definition change (f : fs -> fs) : UM () := fun h => (mkHost (f (h_fs h)) (h_fs h :: h_past h) (h_requests h), Ok ()).
Definition read_fs : UM fs := fun h => (h, Ok (h_fs h)).

Section update.
Context (e : UpdateEnv).

Definition get (url : string) (auth : option string) : UM http_response := fun h =>
  (mkHost (h_fs h) (h_past h) ((url, auth) :: h_requests h), ue_get e url auth).

(** [os.Rename]: fails when it is told to or when there is no such file. *)
Definition rename (from to : string) (msg : error) : UM () :=
  d ← read_fs;
  match d !! from with
  | Some f => if ue_rename e from to then change (fun d => <[to := f]> (delete from d)) else fail msg
  | None => fail msg
  end.
Definition removeBestEffort (path : string) : UM () :=
  if ue_remove e path then change (delete path) else mret ().

(** Clean up the temporary file and fail. *)
Definition abandon {A} (tmp : string) (msg : error) : UM A := _ ← removeBestEffort tmp; fail msg.

(** ** Definitions *)

Definition maxAPIResponseSize : Z := Z.shiftl 1 20.
Definition maxChecksumsSize : Z := Z.shiftl 1 20.
Definition maxBinaryDownloadSize : Z := Z.shiftl 200 20.
Definition allowedGitHubHosts : list string := ["api.github.com"; "github.com"; "objects.githubusercontent.com"].

Definition validateGitHubURL (url : string) : result () :=
  u ← wrap_err "invalid URL: " (ue_parse_url e url);
  if decide (ui_Scheme u <> "https") then Err "only https URLs are allowed for self-update" else
  if ui_User u then Err "URLs with userinfo are not allowed for self-update" else
  if decide (ui_Hostname u = "") then Err "URL has no host" else
  if decide (ui_Hostname u ∈ allowedGitHubHosts) then Ok () else Err "host is not allowed for self-update".

Definition bearer : option string := if decide (ue_token e = "") then None else Some ("Bearer " +:+ ue_token e).

Definition CheckLatestRelease (repo : string) : UM GitHubRelease :=
  let url := "https://api.github.com/repos/" +:+ repo +:+ "/releases/latest" in
  _ ← lift (wrap_err "invalid release URL: " (validateGitHubURL url));
  resp ← (fun h => let '(h, r) := get url bearer h in (h, wrap_err "failed to fetch latest release: " r));
  if decide (rp_Status resp <> 200)%Z then
    fail ("github API returned " +:+ Itoa (rp_Status resp) +:+ ": " +:+
    match read_error maxAPIResponseSize resp with
    | Some err => "(failed to read response body: " +:+ err +:+ ")"
    | None => limit_bytes maxAPIResponseSize (rp_Body resp)
    end)
  else lift (wrap_err "failed to decode release: "
    (ue_decode e (limit_bytes maxAPIResponseSize (rp_Body resp)) (read_error maxAPIResponseSize resp))).

Definition downloadChecksums (url : string) : UM (gmap string string) :=
  _ ← lift (wrap_err "invalid checksums URL: " (validateGitHubURL url));
  resp ← get url bearer;
  if decide (rp_Status resp <> 200)%Z then fail ("checksums download returned " +:+ Itoa (rp_Status resp))
  else match read_error maxChecksumsSize resp with
       | Some err => fail err
       | None => mret (parse_checksums (limit_bytes maxChecksumsSize (rp_Body resp)))
       end.

Definition verifyChecksum (path expected : string) : UM () :=
  d ← read_fs;
  match d !! path with
  | Some f =>
      if negb (ue_read e path) then fail "failed to read file for checksum" else
      if decide (ue_sha256 e (fl_data f) = expected) then mret () else fail "checksum mismatch"
  | None => fail "failed to read file for checksum"
  end.

(** The download into the temporary file, with mode 0600.  The file is closed
    without being synced. *)
Definition download (url tmp : string) : UM () :=
  resp ← (fun h => let '(h, r) := get url None h in (h, wrap_err "failed to download update: " r));
  if decide (rp_Status resp <> 200)%Z then fail ("download returned " +:+ Itoa (rp_Status resp)) else
  if negb (ue_create e tmp) then fail "failed to create temp file" else
  d ← read_fs;
  let mode := match d !! tmp with Some f => fl_exec f | None => false end in
  _ ← change <[tmp := mkFile "" mode false]>;
  let body := limit_bytes (maxBinaryDownloadSize + 1) (rp_Body resp) in
  let written := match ue_write e tmp with Some n => str_take n body | None => body end in
  _ ← change <[tmp := mkFile written mode false]>;
  if bool_decide (is_Some (ue_write e tmp) \/ is_Some (read_error (maxBinaryDownloadSize + 1) resp))
  then abandon tmp "failed to write temp file" else
  if (maxBinaryDownloadSize <? Z.of_nat (String.length written))%Z
  then abandon tmp ("downloaded binary exceeds max size of " +:+ Itoa maxBinaryDownloadSize +:+ " bytes") else
  if negb (ue_close e tmp) then abandon tmp "failed to close temp file" else mret ().

(** [m], and when it fails the cleanup and the error with its message. *)
Definition or_abandon {A} (tmp prefix suffix : string) (m : UM A) : UM A := fun h =>
  match m h with
  | (h', Ok a) => (h', Ok a)
  | (h', Err err) => abandon tmp (prefix +:+ err +:+ suffix) h'
  end.

Definition check_sum (r : GitHubRelease) (asset tmp : string) : UM () :=
  let url := findChecksumsURL r in
  if decide (url = "") then abandon tmp "release has no checksums file (refusing to install without verification)" else
  sums ← or_abandon tmp "failed to download checksums: " " (refusing to install without verification)" (downloadChecksums url);
  if decide (size sums = 0) then abandon tmp "checksums file is empty (refusing to install without verification)" else
  match sums !! asset with
  | None => abandon tmp "no checksum found for asset (refusing to install without verification)"
  | Some expected => or_abandon tmp "checksum verification failed: " "" (verifyChecksum tmp expected)
  end.

(** The exchange of the executables; neither the files nor their directory are
    synced. *)
Definition install (exe : string) : UM () :=
  let tmp := exe +:+ ".tmp" in
  let bak := exe +:+ ".bak" in
  _ ← rename exe bak "failed to back up current binary";
  _ ← (fun h => match rename tmp exe "failed to replace binary" h with
                | (h', Ok u) => (h', Ok u)
                | (h', Err err) => let '(h'', _) := rename bak exe "" h' in (h'', Err err)
                end);
  removeBestEffort bak.

Definition SelfUpdate (repo : string) : UM string :=
  release ← (fun h => let '(h, r) := CheckLatestRelease repo h in (h, wrap_err "failed to check latest release: " r));
  if negb (HasUpdate (ue_Version e) (Some release)) then mret ("Already up to date (" +:+ ue_Version e +:+ ")") else
  let '(downloadURL, assetName) := FindAsset release (ue_goos e) (ue_goarch e) in
  if decide (downloadURL = "") then fail ("no binary found for " +:+ ue_goos e +:+ "/" +:+ ue_goarch e) else
  _ ← lift (wrap_err "invalid download URL: " (validateGitHubURL downloadURL));
  exe ← lift (wrap_err "failed to get executable path: " (ue_Executable e));
  let tmp := exe +:+ ".tmp" in
  _ ← download downloadURL tmp;
  _ ← check_sum release assetName tmp;
  _ ← install exe;
  mret ("Updated to " +:+ rl_TagName release +:+ " (was " +:+ ue_Version e +:+ ")").
End update.

(** ** Reasoning about runs *)

(** From a host with [P], [m] ends with a value and [Q] or with an error and
    [E]. *)
Definition triple {A} (P : host -> Prop) (m : UM A) (Q : A -> host -> Prop) (E : host -> Prop) : Prop :=
  forall h, P h -> match m h with (h', Ok a) => Q a h' | (h', Err _) => E h' end.

Lemma um_triple_bind {A B} P (m : UM A) (k : A -> UM B) Q R E :
  triple P m Q E -> (forall a, triple (Q a) (k a) R E) -> triple P (m ≫= k) R E.
Proof.
  intros Hm Hk h HP. specialize (Hm h HP). unfold mbind, UM_bind. destruct (m h) as [h' [a|err]]; [|done].
  by apply Hk.
Qed.
Lemma triple_weaken {A} (P P' : host -> Prop) (m : UM A) (Q Q' : A -> host -> Prop) (E E' : host -> Prop) :
  triple P' m Q' E' -> (forall h, P h -> P' h) -> (forall a h, Q' a h -> Q a h) -> (forall h, E' h -> E h) -> triple P m Q E.
Proof.
  intros H HP HQ HE h Hh. specialize (H h (HP h Hh)). destruct (m h) as [h' [a|err]]; auto.
Qed.
Lemma um_triple_ret {A} (a : A) P Q E : (forall h, P h -> Q a h) -> triple P (mret a) Q E.
Proof. intros H h. apply H. Qed.
Lemma triple_fail {A} msg P (Q : A -> host -> Prop) (E : host -> Prop) : (forall h, P h -> E h) -> triple P (fail msg) Q E.
Proof. intros H h. apply H. Qed.
Lemma um_triple_lift {A} (r : result A) P (Q : A -> host -> Prop) (E : host -> Prop) :
  (forall a h, r = Ok a -> P h -> Q a h) -> (forall h, P h -> E h) -> triple P (lift r) Q E.
Proof. intros HQ HE h HP. unfold lift. destruct r; auto. Qed.
Lemma triple_pre {A} (P : host -> Prop) (phi : Prop) (m : UM A) Q E :
  (phi -> triple P m Q E) -> triple (fun h => P h /\ phi) m Q E.
Proof. intros H h [HP Hphi]. by apply (H Hphi). Qed.

(** A fact that [m] keeps, whatever its result. *)
Definition keeps {A} (I : host -> Prop) (m : UM A) : Prop := triple I m (fun _ => I) I.

Lemma um_keeps_bind {A B} I (m : UM A) (k : A -> UM B) : keeps I m -> (forall a, keeps I (k a)) -> keeps I (m ≫= k).
Proof. intros Hm Hk. eapply um_triple_bind; [exact Hm|apply Hk]. Qed.
Lemma keeps_wrap {A} I (m : UM A) (f : result A -> result A) : (forall r, is_ok (f r) = is_ok r) -> keeps I m ->
  keeps I (fun h => let '(h, r) := m h in (h, f r)).
Proof.
  intros Hf Hm h Hh. specialize (Hm h Hh). destruct (m h) as [h' r]. pose proof (Hf r). destruct r, (f _); done.
Qed.
Lemma wrap_is_ok {A} p (r : result A) : is_ok (wrap_err p r) = is_ok r.
Proof. by destruct r. Qed.

Create HintDb allowed.

(** *** What the requests are *)

Section requests.
Context (e : UpdateEnv).

Definition only_allowed (h : host) : Prop := Forall (fun r => validateGitHubURL e r.1 = Ok ()) (h_requests h).

(** A request to a validated URL. *)
Lemma allowed_get url auth : validateGitHubURL e url = Ok () -> keeps only_allowed (get e url auth).
Proof.
  intros Hu h Hh. unfold get. assert (only_allowed (mkHost (h_fs h) (h_past h) ((url, auth) :: h_requests h))) as H
    by (by apply Forall_cons). by destruct (ue_get e url auth).
Qed.
Lemma allowed_change f : keeps only_allowed (change f).
Proof. by intros h Hh. Qed.
Lemma allowed_ret {A} (a : A) : keeps only_allowed (mret a).
Proof. by intros h Hh. Qed.
Lemma allowed_fail {A} msg : keeps only_allowed (@fail A msg).
Proof. by intros h Hh. Qed.
Lemma allowed_lift {A} (r : result A) : keeps only_allowed (lift r).
Proof. intros h Hh. unfold lift. by destruct r. Qed.
Lemma allowed_read {A} (k : fs -> UM A) : (forall d, keeps only_allowed (k d)) -> keeps only_allowed (d ← read_fs; k d).
Proof. intros Hk. apply um_keeps_bind; [by intros h Hh|done]. Qed.
Lemma allowed_validated {A} p url (k : () -> UM A) :
  (validateGitHubURL e url = Ok () -> keeps only_allowed (k ())) ->
  keeps only_allowed (u ← lift (wrap_err p (validateGitHubURL e url)); k u).
Proof.
  intros Hk h Hh. unfold mbind, UM_bind, lift. destruct (validateGitHubURL e url) as [[]|err] eqn:E; cbn; [|done].
  by apply Hk.
Qed.
Lemma allowed_remove path : keeps only_allowed (removeBestEffort e path).
Proof. unfold removeBestEffort. destruct (ue_remove e path); [apply allowed_change|apply allowed_ret]. Qed.
Lemma allowed_abandon {A} tmp msg : keeps only_allowed (@abandon e A tmp msg).
Proof. apply um_keeps_bind; [apply allowed_remove|intros u; apply allowed_fail]. Qed.
Lemma allowed_or_abandon {A} tmp p q (m : UM A) : keeps only_allowed m -> keeps only_allowed (or_abandon e tmp p q m).
Proof.
  intros Hm h Hh. specialize (Hm h Hh). unfold or_abandon. destruct (m h) as [h' [a|err]]; [done|].
  exact (@allowed_abandon A tmp _ h' Hm).
Qed.
Lemma allowed_rename from to msg : keeps only_allowed (rename e from to msg).
Proof.
  apply allowed_read. intros d. destruct (d !! from); [|apply allowed_fail].
  destruct (ue_rename e from to); [apply allowed_change|apply allowed_fail].
Qed.
Lemma allowed_install exe : keeps only_allowed (install e exe).
Proof.
  apply um_keeps_bind; [apply allowed_rename|]. intros u. apply um_keeps_bind; [|intros u'; apply allowed_remove].
  intros h Hh. pose proof (allowed_rename (exe +:+ ".tmp") exe "failed to replace binary" h Hh) as H.
  destruct (rename e (exe +:+ ".tmp") exe "failed to replace binary" h) as [h' [a|err]]; [done|].
  pose proof (allowed_rename (exe +:+ ".bak") exe "" h' H) as H2.
  by destruct (rename e (exe +:+ ".bak") exe "" h') as [h'' [a|err']].
Qed.

#[local] Hint Resolve allowed_ret allowed_fail allowed_lift allowed_change allowed_remove allowed_abandon allowed_install : allowed.

Lemma allowed_release repo : keeps only_allowed (CheckLatestRelease e repo).
Proof.
  unfold CheckLatestRelease. apply allowed_validated. intros Hu. apply um_keeps_bind.
  - apply (keeps_wrap _ (get e _ _)); [apply wrap_is_ok|by apply allowed_get].
  - intros r. case_decide; auto with allowed.
Qed.
Lemma allowed_checksums url : keeps only_allowed (downloadChecksums e url).
Proof.
  unfold downloadChecksums. apply allowed_validated. intros Hu. apply um_keeps_bind; [by apply allowed_get|].
  intros r. case_decide; [auto with allowed|]. destruct (read_error _ r); auto with allowed.
Qed.
Lemma allowed_download url tmp : validateGitHubURL e url = Ok () -> keeps only_allowed (download e url tmp).
Proof.
  intros Hu. unfold download. apply um_keeps_bind.
  { apply (keeps_wrap _ (get e _ _)); [apply wrap_is_ok|by apply allowed_get]. }
  intros r. case_decide; [auto with allowed|]. destruct (ue_create e tmp); cbn [negb]; [|auto with allowed].
  apply allowed_read. intros d. apply um_keeps_bind; [auto with allowed|]. intros u.
  apply um_keeps_bind; [auto with allowed|]. intros u'. case_bool_decide; [auto with allowed|].
  destruct (Z.ltb _ _); [auto with allowed|]. destruct (ue_close e tmp); cbn [negb]; auto with allowed.
Qed.
Lemma allowed_check_sum r asset tmp : keeps only_allowed (check_sum e r asset tmp).
Proof.
  unfold check_sum. case_decide; [auto with allowed|]. apply um_keeps_bind; [apply allowed_or_abandon, allowed_checksums|].
  intros sums. case_decide; [auto with allowed|]. destruct (sums !! asset) as [x|]; [|auto with allowed].
  apply allowed_or_abandon. apply allowed_read. intros d. destruct (d !! tmp); [|auto with allowed].
  destruct (ue_read e tmp); cbn [negb]; [|auto with allowed]. case_decide; auto with allowed.
Qed.

(** all requests of an update go to one of the three GitHub hosts, over
    https and without user information in the URL, whatever the release
    names. *)
Theorem SelfUpdate_hosts repo h : h_requests h = [] ->
  Forall (fun r => exists u, ue_parse_url e r.1 = Ok u /\ ui_Scheme u = "https" /\ ui_User u = false /\
    ui_Hostname u ∈ allowedGitHubHosts) (h_requests (SelfUpdate e repo h).1).
Proof.
  intros H0. assert (keeps only_allowed (SelfUpdate e repo)) as H.
  { unfold SelfUpdate. apply um_keeps_bind; [apply (keeps_wrap _ (CheckLatestRelease e repo)); [apply wrap_is_ok|apply allowed_release]|].
    intros r. destruct (HasUpdate (ue_Version e) (Some r)); cbn [negb]; [|auto with allowed].
    destruct (FindAsset r (ue_goos e) (ue_goarch e)) as [url name]. case_decide; [auto with allowed|].
    apply allowed_validated. intros Hu. apply um_keeps_bind; [auto with allowed|]. intros exe.
    apply um_keeps_bind; [by apply allowed_download|]. intros u. apply um_keeps_bind; [apply allowed_check_sum|]. intros u'.
    apply um_keeps_bind; auto with allowed. }
  specialize (H h). unfold only_allowed in H. rewrite H0 in H. specialize (H (Forall_nil_2 _)).
  destruct (SelfUpdate e repo h) as [h' r]. cbn. assert (Forall (fun r => validateGitHubURL e r.1 = Ok ()) (h_requests h')) as HF by (by destruct r).
  eapply Forall_impl; [exact HF|]. intros [url auth] Hv. cbn in *. unfold validateGitHubURL in Hv.
  destruct (ue_parse_url e url) as [u|]; [|done]. cbn in Hv. clear HF H.
  case_decide as Hs; [done|]. destruct (ui_User u) eqn:Eu; [done|]. case_decide; [done|]. case_decide as Hin; [|done].
  exists u. by split_and!.
Qed.
End requests.

(** *** What the file system is *)

Lemma suffix_ne exe s : s <> "" -> exe +:+ s <> exe.
Proof.
  intros Hs H. apply (f_equal String.length) in H. rewrite string_length_app in H. destruct s; [done|]. cbn in H. lia.
Qed.

(** Every state since those of [base] satisfies [I]. *)
Definition always (base : list fs) (I : fs -> Prop) (h : host) : Prop :=
  I (h_fs h) /\ Forall (fun d => I d \/ d ∈ base) (h_past h).

Lemma always_cons (base : list fs) (I : fs -> Prop) f d h r : I f -> I d -> Forall (fun d => I d \/ d ∈ base) h ->
  always base I (mkHost f (d :: h) r).
Proof. intros Hf Hd Hh. split; [done|]. apply Forall_cons. by split; [left|]. Qed.
Lemma always_all (I : fs -> Prop) h : always [] I h <-> Forall I (h_fs h :: h_past h).
Proof.
  rewrite Forall_cons. unfold always. apply and_iff_compat_l, Forall_iff. intros d.
  split; [by intros [?|?%not_elem_of_nil]|by left].
Qed.

Section files.
Context (e : UpdateEnv) (base : list fs).

Lemma always_mono (I I' : fs -> Prop) h : (forall d, I d -> I' d) -> always base I h -> always base I' h.
Proof. intros H [H1 H2]. split; [by apply H|]. eapply Forall_impl; [exact H2|]. intros d [?|?]; [left; by apply H|by right]. Qed.

Lemma always_get I url auth : keeps (always base I) (get e url auth).
Proof. intros h Hh. unfold get. by destruct (ue_get e url auth). Qed.
Lemma always_change I f : (forall d, I d -> I (f d)) -> keeps (always base I) (change f).
Proof. intros Hf h [H1 H2]. split; [by apply Hf|]. apply Forall_cons. by split; [left|]. Qed.
Lemma always_ret {A} I (a : A) : keeps (always base I) (mret a).
Proof. by intros h Hh. Qed.
Lemma always_fail {A} I msg : keeps (always base I) (@fail A msg).
Proof. by intros h Hh. Qed.
Lemma always_lift {A} I (r : result A) : keeps (always base I) (lift r).
Proof. intros h Hh. unfold lift. by destruct r. Qed.
#[local] Hint Resolve always_get always_ret always_fail always_lift : allowed.

(** A file that is left as it is, or absent. *)
Context (p : string) (x : option file).
Definition untouched (d : fs) : Prop := d !! p = x.

Lemma untouched_other path f : path <> p -> keeps (always base untouched) (change <[path := f]>).
Proof. intros Hp. apply always_change. intros d Hd. unfold untouched. by rewrite lookup_insert_ne. Qed.
Lemma untouched_remove path : path <> p -> keeps (always base untouched) (removeBestEffort e path).
Proof.
  intros Hp. unfold removeBestEffort. destruct (ue_remove e path); [|apply always_ret].
  apply always_change. intros d Hd. unfold untouched. by rewrite lookup_delete_ne.
Qed.
Lemma untouched_abandon {A} tmp msg : tmp <> p -> keeps (always base untouched) (@abandon e A tmp msg).
Proof. intros Hp. apply um_keeps_bind; [by apply untouched_remove|auto with allowed]. Qed.

Lemma untouched_release repo : keeps (always base untouched) (CheckLatestRelease e repo).
Proof.
  unfold CheckLatestRelease. apply um_keeps_bind; [auto with allowed|]. intros u. apply um_keeps_bind.
  - apply (keeps_wrap _ (get e _ _)); [apply wrap_is_ok|auto with allowed].
  - intros r. case_decide; auto with allowed.
Qed.

Lemma untouched_download url tmp : tmp <> p -> keeps (always base untouched) (download e url tmp).
Proof.
  intros Ht. unfold download. apply um_keeps_bind.
  { apply (keeps_wrap _ (get e _ _)); [apply wrap_is_ok|auto with allowed]. }
  intros r. case_decide; [auto with allowed|]. destruct (ue_create e tmp); cbn [negb]; [|auto with allowed].
  apply um_keeps_bind; [by intros h Hh|]. intros d. apply um_keeps_bind; [by apply untouched_other|]. intros u.
  apply um_keeps_bind; [by apply untouched_other|]. intros u'. case_bool_decide; [by apply untouched_abandon|].
  destruct (Z.ltb _ _); [by apply untouched_abandon|].
  destruct (ue_close e tmp); cbn [negb]; [auto with allowed|by apply untouched_abandon].
Qed.

(** *** Verified bytes *)

(** The bytes have the checksum that the checksums file of the latest release
    has for the asset of this platform, both from allowed URLs. *)
Definition verified (repo data : string) : Prop := exists r resp,
  (exists answer, ue_get e ("https://api.github.com/repos/" +:+ repo +:+ "/releases/latest") (bearer e) = Ok answer /\
     rp_Status answer = 200%Z /\
     ue_decode e (limit_bytes maxAPIResponseSize (rp_Body answer)) (read_error maxAPIResponseSize answer) = Ok r) /\
  HasUpdate (ue_Version e) (Some r) = true /\
  validateGitHubURL e (FindAsset r (ue_goos e) (ue_goarch e)).1 = Ok () /\
  validateGitHubURL e (findChecksumsURL r) = Ok () /\
  ue_get e (findChecksumsURL r) (bearer e) = Ok resp /\ rp_Status resp = 200%Z /\
  parse_checksums (limit_bytes maxChecksumsSize (rp_Body resp)) !! (FindAsset r (ue_goos e) (ue_goarch e)).2 =
    Some (ue_sha256 e data).

Lemma release_answer repo h h' r : CheckLatestRelease e repo h = (h', Ok r) ->
  exists answer, ue_get e ("https://api.github.com/repos/" +:+ repo +:+ "/releases/latest") (bearer e) = Ok answer /\
    rp_Status answer = 200%Z /\
    ue_decode e (limit_bytes maxAPIResponseSize (rp_Body answer)) (read_error maxAPIResponseSize answer) = Ok r.
Proof.
  unfold CheckLatestRelease, mbind, UM_bind, lift. destruct (validateGitHubURL e _) as [u|]; [|done]. cbn.
  destruct (ue_get e _ _) as [answer|] eqn:E; [|done]. cbn. case_decide as Hs; [done|].
  destruct (ue_decode e _ _) as [r'|] eqn:Ed; [|done]. cbn. intros [= _ <-]. by exists answer.
Qed.

Lemma triple_or_abandon {A} tmp pre suf (m : UM A) P Q : tmp <> p ->
  triple P m Q (always base untouched) -> triple P (or_abandon e tmp pre suf m) Q (always base untouched).
Proof.
  intros Ht Hm h Hh. specialize (Hm h Hh). unfold or_abandon. destruct (m h) as [h' [a|err]]; [done|].
  unfold abandon, mbind, UM_bind, fail. pose proof (untouched_remove tmp Ht h' Hm) as H.
  destruct (removeBestEffort e tmp h') as [h'' [[]|err']]; done.
Qed.
Lemma triple_abandon {A} tmp msg (Q : A -> host -> Prop) : tmp <> p ->
  triple (always base untouched) (@abandon e A tmp msg) Q (always base untouched).
Proof.
  intros Ht h Hh. unfold abandon, mbind, UM_bind, fail. pose proof (untouched_remove tmp Ht h Hh) as H.
  destruct (removeBestEffort e tmp h) as [h' [[]|err]]; done.
Qed.

(** The checksums of a release. *)
Definition listed (url : string) (sums : gmap string string) : Prop := exists resp,
  validateGitHubURL e url = Ok () /\ ue_get e url (bearer e) = Ok resp /\ rp_Status resp = 200%Z /\
  sums = parse_checksums (limit_bytes maxChecksumsSize (rp_Body resp)).

Lemma triple_checksums url : triple (always base untouched) (downloadChecksums e url)
  (fun sums h => always base untouched h /\ listed url sums) (always base untouched).
Proof.
  intros h Hh. unfold downloadChecksums, mbind, UM_bind, lift.
  destruct (validateGitHubURL e url) as [[]|err] eqn:Ev; cbn [wrap_err]; [|done].
  unfold get. destruct (ue_get e url (bearer e)) as [resp|err] eqn:Eg; [|done].
  case_decide as Hs; [done|]. destruct (read_error maxChecksumsSize resp); [done|].
  split; [done|]. by exists resp.
Qed.
Lemma triple_verify tmp expected : triple (always base untouched) (verifyChecksum e tmp expected)
  (fun _ h => always base untouched h /\ exists f, h_fs h !! tmp = Some f /\ ue_sha256 e (fl_data f) = expected) (always base untouched).
Proof.
  intros h Hh. unfold verifyChecksum, mbind, UM_bind, read_fs. destruct (h_fs h !! tmp) as [f|] eqn:Ef; [|done].
  destruct (ue_read e tmp); cbn [negb]; [|done]. case_decide; [|done]. split; [done|]. by exists f.
Qed.

(** The temporary file holds what the checksums file lists. *)
Lemma triple_check_sum r asset tmp : tmp <> p -> triple (always base untouched) (check_sum e r asset tmp)
  (fun _ h => always base untouched h /\ exists f sums, h_fs h !! tmp = Some f /\ listed (findChecksumsURL r) sums /\
     sums !! asset = Some (ue_sha256 e (fl_data f))) (always base untouched).
Proof.
  intros Ht. unfold check_sum. case_decide; [by apply triple_abandon|].
  eapply um_triple_bind; [by apply triple_or_abandon, triple_checksums|]. intros sums. apply triple_pre. intros Hl.
  case_decide; [by apply triple_abandon|]. destruct (sums !! asset) as [expected|] eqn:Ea; [|by apply triple_abandon].
  apply triple_or_abandon; [done|]. eapply triple_weaken; [apply triple_verify|done| |done].
  cbn beta. intros u h [Hh (f & Hf & Hsum)]. split; [done|]. exists f, sums. by rewrite Ea, Hsum.
Qed.

Lemma keeps_check_sum r asset tmp : tmp <> p -> keeps (always base untouched) (check_sum e r asset tmp).
Proof. intros Ht. eapply triple_weaken; [by apply triple_check_sum|done| |done]. by intros u h [Hh _]. Qed.

Lemma untouched_rename from to msg : from <> p -> to <> p -> keeps (always base untouched) (rename e from to msg).
Proof.
  intros Hf Ht. apply um_keeps_bind; [by intros h Hh|]. intros d. destruct (d !! from) as [f|]; [|auto with allowed].
  destruct (ue_rename e from to); [|auto with allowed]. apply always_change. intros d' Hd. unfold untouched.
  by rewrite lookup_insert_ne, lookup_delete_ne.
Qed.
End files.

Lemma keeps_lift_ok {A B} I (a : A) (k : A -> UM B) : keeps I (k a) -> keeps I (b ← lift (Ok a); k b).
Proof. intros H h. exact (H h). Qed.

(** *** Other files *)

Section frame.
Context (e : UpdateEnv) (base : list fs) (exe p : string) (x : option file).
Hypothesis p_other : exe <> p /\ exe +:+ ".tmp" <> p /\ exe +:+ ".bak" <> p.

Lemma untouched_install : keeps (always base (untouched p x)) (install e exe).
Proof using p_other.
  destruct p_other as (H1 & H2 & H3). apply um_keeps_bind; [by apply untouched_rename|]. intros u.
  apply um_keeps_bind; [|intros u'; by apply untouched_remove].
  intros h Hh. pose proof (untouched_rename e base p x (exe +:+ ".tmp") exe "failed to replace binary" H2 H1 h Hh) as H.
  destruct (rename e (exe +:+ ".tmp") exe "failed to replace binary" h) as [h' [a|err]]; [done|].
  pose proof (untouched_rename e base p x (exe +:+ ".bak") exe "" H3 H1 h' H) as H4.
  by destruct (rename e (exe +:+ ".bak") exe "" h') as [h'' [a|err']].
Qed.

(** An update changes no other file than the executable and the two next to
    it. *)
Lemma SelfUpdate_frame repo : ue_Executable e = Ok exe -> keeps (always base (untouched p x)) (SelfUpdate e repo).
Proof using p_other.
  intros Hexe. destruct p_other as (H1 & H2 & H3). unfold SelfUpdate.
  apply um_keeps_bind; [apply (keeps_wrap _ (CheckLatestRelease e repo)); [apply wrap_is_ok|apply untouched_release]|].
  intros r. destruct (HasUpdate (ue_Version e) (Some r)); cbn [negb]; [|by apply always_ret].
  destruct (FindAsset r (ue_goos e) (ue_goarch e)) as [url name]. case_decide; [by apply always_fail|].
  apply um_keeps_bind; [by apply always_lift|]. intros u. rewrite Hexe. cbn [wrap_err]. apply keeps_lift_ok.
  apply um_keeps_bind; [by apply untouched_download|]. intros u'. apply um_keeps_bind; [by apply keeps_check_sum|]. intros u''.
  apply um_keeps_bind; [apply untouched_install|]. intros u3. by apply always_ret.
Qed.
End frame.

(** *** The exchange *)

Section exchange.
Context (e : UpdateEnv) (exe : string) (old : file).

Definition tmp : string := exe +:+ ".tmp".
Definition bak : string := exe +:+ ".bak".

(** The old executable is in its place or under its backup name. *)
Definition kept (d : fs) : Prop := d !! exe = Some old \/ d !! exe = None /\ d !! bak = Some old.
(** Where the executables are, in any state of an update. *)
Definition placed (repo : string) (d : fs) : Prop :=
  kept d \/
  exists f, d !! exe = Some f /\ verified e repo (fl_data f) /\ (d !! bak = Some old \/ d !! bak = None).

Lemma names_differ : tmp <> exe /\ bak <> exe /\ tmp <> bak.
Proof.
  split_and!; [by apply suffix_ne|by apply suffix_ne|]. unfold tmp, bak. intros H. by apply string_app_inj_l in H.
Qed.

Lemma untouched_kept h : always [] (untouched exe (Some old)) h -> always [] kept h.
Proof. apply always_mono. intros d Hd. by left. Qed.
Lemma kept_placed repo h : always [] kept h -> always [] (placed repo) h.
Proof. apply always_mono. intros d Hd. by left. Qed.

Lemma triple_install repo f : verified e repo (fl_data f) ->
  triple (fun h => always [] (untouched exe (Some old)) h /\ h_fs h !! tmp = Some f) (install e exe)
    (fun _ h => always [] (placed repo) h /\ h_fs h !! exe = Some f) (always [] kept).
Proof.
  intros Hv h [Hh Hf]. destruct names_differ as (N1 & N2 & N3). pose proof (untouched_kept h Hh) as Hp.
  destruct Hh as [Hexe Hpast]. unfold untouched in Hexe.
  unfold install, mbind, UM_bind, rename at 1. unfold mbind, UM_bind, read_fs. rewrite Hexe.
  fold tmp. fold bak. destruct (ue_rename e exe bak); [|done]. cbn [change].
  set (d1 := <[bak := old]> (delete exe (h_fs h))). set (h1 := mkHost d1 (h_fs h :: h_past h) (h_requests h)).
  assert (d1 !! exe = None /\ d1 !! bak = Some old /\ d1 !! tmp = Some f) as (D1 & D2 & D3).
  { unfold d1. rewrite lookup_insert_eq, !lookup_insert_ne, lookup_delete_eq, lookup_delete_ne by done. done. }
  assert (always [] kept h1) as H1 by (apply always_cons; [by right|apply Hp|apply Hp]).
  unfold change. fold d1. fold h1.
  unfold rename at 1, mbind, UM_bind, read_fs. change (h_fs h1) with d1. rewrite D3.
  destruct (ue_rename e tmp exe).
  - apply (kept_placed repo) in H1.
    unfold change. change (h_fs h1) with d1. set (d2 := <[exe := f]> (delete tmp d1)).
    set (h2 := mkHost d2 (d1 :: h_past h1) (h_requests h1)).
    assert (d2 !! exe = Some f /\ d2 !! bak = Some old) as [E2 E3].
    { unfold d2. rewrite lookup_insert_eq, lookup_insert_ne, lookup_delete_ne by done. done. }
    assert (always [] (placed repo) h2) as H2.
    { apply always_cons; [right; exists f; auto|apply H1|apply H1]. }
    unfold removeBestEffort. destruct (ue_remove e bak); [|by split].
    unfold change. cbn [h_fs]. change (h_fs h2) with d2. split; [|cbn; by rewrite lookup_delete_ne].
    apply always_cons; [|apply H2|apply H2]. right. exists f. rewrite lookup_delete_ne, lookup_delete_eq by done. auto.
  - cbn [fail]. unfold fail. unfold rename, mbind, UM_bind, read_fs. change (h_fs h1) with d1. rewrite D2.
    destruct (ue_rename e bak exe); [|done].
    unfold change. change (h_fs h1) with d1.
    apply always_cons; [left; by rewrite lookup_insert_eq|apply H1|apply H1].
Qed.
End exchange.

(** *** Whole updates *)

Section safety.
Context (e : UpdateEnv) (exe : string) (old : file).

Lemma SelfUpdate_triple repo : ue_Executable e = Ok exe ->
  triple (always [] (untouched exe (Some old))) (SelfUpdate e repo)
    (fun _ h' => always [] (placed e exe old repo) h' /\
      (h_fs h' !! exe = Some old \/ exists f, h_fs h' !! exe = Some f /\ verified e repo (fl_data f)))
    (always [] (kept exe old)).
Proof.
  intros Hexe. destruct (names_differ exe) as (N1 & N2 & N3). set (U := always [] (untouched exe (Some old))).
  assert (forall h, U h -> always [] (kept exe old) h) as HE by (intros g; apply untouched_kept).
  assert (forall h, U h -> always [] (placed e exe old repo) h) as HUp by (intros g Hg; by apply kept_placed, HE).
  unfold SelfUpdate. eapply (um_triple_bind _ _ _ (fun r g => U g /\ exists answer,
    ue_get e ("https://api.github.com/repos/" +:+ repo +:+ "/releases/latest") (bearer e) = Ok answer /\ rp_Status answer = 200%Z /\
    ue_decode e (limit_bytes maxAPIResponseSize (rp_Body answer)) (read_error maxAPIResponseSize answer) = Ok r)).
  { intros h Hh. pose proof (untouched_release e [] exe (Some old) repo h Hh) as H.
    destruct (CheckLatestRelease e repo h) as [h' [r|err]] eqn:Er; cbn; [|by apply HE].
    split; [done|]. by eapply release_answer. }
  intros r. apply triple_pre. intros Hanswer. destruct (HasUpdate (ue_Version e) (Some r)) eqn:Hup; cbn [negb].
  2: { apply um_triple_ret. intros g Hg. split; [by apply HUp|left; apply Hg]. }
  destruct (FindAsset r (ue_goos e) (ue_goarch e)) as [url name] eqn:Ef. case_decide; [by apply triple_fail|].
  eapply (um_triple_bind _ _ _ (fun _ g => U g /\ validateGitHubURL e url = Ok ())).
  { apply um_triple_lift; [|done]. intros [] g Hv Hg. split; [done|]. by destruct (validateGitHubURL e url) as [[]|]. }
  intros u. apply triple_pre. intros Hv. rewrite Hexe. cbn [wrap_err].
  eapply (um_triple_bind _ _ _ (fun x g => U g /\ x = exe)); [by apply um_triple_lift; [intros x g [= <-] Hg|]|].
  intros x. apply triple_pre. intros ->. fold (tmp exe). eapply (um_triple_bind _ _ _ (fun _ => U)).
  { eapply triple_weaken; [by apply (untouched_download e [] exe (Some old) url (tmp exe))|done|done|done]. }
  intros u'. eapply um_triple_bind.
  { eapply triple_weaken; [by apply (triple_check_sum e [] exe (Some old) r name (tmp exe))|done| |exact HE].
    intros a g Hg. exact Hg. }
  intros u''. cbn beta. intros g [Hg (f & sums & Hf & (resp & L1 & L2 & L3 & ->) & Hsum)].
  assert (verified e repo (fl_data f)) as Hver.
  { exists r, resp. rewrite Ef. by split_and!. }
  pose proof (triple_install e exe old repo f Hver g (conj Hg Hf)) as Hi.
  unfold mbind, UM_bind. destruct (install e exe g) as [g' [[]|err]]; cbn; [|exact Hi].
  destruct Hi as [I1 I2]. split; [done|]. right. by exists f.
Qed.

(** What a power failure leaves of some earlier state: its files, of which
    those that were not synced may hold any bytes.  (The changes of the
    directory are durable in order, as journaling file systems have it.) *)
Definition survives (f f' : file) : Prop :=
  fl_exec f' = fl_exec f /\ (fl_synced f = true -> fl_data f' = fl_data f).
Definition power_loss (states : list fs) (d' : fs) : Prop := exists d, d ∈ states /\
  forall p, match d !! p, d' !! p with
            | Some f, Some f' => survives f f'
            | None, None => True
            | _, _ => False
            end.

(** Some file in one of the two places has the old executable's bytes. *)
Definition old_survives (d' : fs) : Prop := exists f,
  (d' !! exe = Some f \/ d' !! bak exe = Some f) /\ fl_data f = fl_data old /\ fl_exec f = fl_exec old.

Lemma power_loss_survives (d d' : fs) (p : string) : fl_synced old = true ->
  (forall p, match d !! p, d' !! p with
             | Some f, Some f' => survives f f' | None, None => True | _, _ => False end) ->
  d !! p = Some old -> exists f, d' !! p = Some f /\ fl_data f = fl_data old /\ fl_exec f = fl_exec old.
Proof.
  intros Hs H Hp. specialize (H p). rewrite Hp in H. destruct (d' !! p) as [f|]; [|done].
  destruct H as [H1 H2]. exists f. auto.
Qed.

(** C37: whatever fails, and whenever the process stops: the executable is the
    old one, or it has been moved to its backup name, or its bytes have the
    checksum that the latest release lists for the asset of this platform.
    An update that reports an error has not installed anything; one that
    reports success has, or there was none to install.  When the power fails,
    which takes bytes that were not synced, the old executable survives in its
    place or under its backup name, unless the update had removed the backup,
    which it does only when it succeeds. *)
Theorem SelfUpdate_safe repo h : ue_Executable e = Ok exe -> h_fs h !! exe = Some old -> h_past h = [] ->
  let '(h', r) := SelfUpdate e repo h in
  Forall (placed e exe old repo) (h_fs h' :: h_past h') /\
  match r with
  | Ok _ => h_fs h' !! exe = Some old \/ exists f, h_fs h' !! exe = Some f /\ verified e repo (fl_data f)
  | Err _ => h_fs h' !! exe = Some old \/ h_fs h' !! exe = None /\ h_fs h' !! bak exe = Some old
  end /\
  (fl_synced old = true -> forall d', power_loss (h_fs h' :: h_past h') d' ->
   old_survives d' \/ is_ok r = true /\ d' !! bak exe = None).
Proof.
  intros Hexe Hold Hpast. pose proof (SelfUpdate_triple repo Hexe h) as H.
  assert (always [] (untouched exe (Some old)) h) as HU by (by split; [|rewrite Hpast]).
  specialize (H HU). assert (forall d d' : fs, fl_synced old = true ->
    (forall p, match d !! p, d' !! p with
               | Some f, Some f' => survives f f' | None, None => True | _, _ => False end) ->
    kept exe old d -> old_survives d') as Hk.
  { intros d d' Hs Hd [Hp|[_ Hp]]; eapply power_loss_survives in Hp as (f & Hf & H1 & H2); eauto; exists f; auto. }
  destruct (SelfUpdate e repo h) as [h' [msg|err]]; [destruct H as [H%always_all H']|].
  - split_and!; [done|done|]. intros Hs d' (d & Hin & Hd). rewrite Forall_forall in H.
    destruct (H d Hin) as [Hp|(f & _ & _ & [Hb|Hb])]; [left; by eapply Hk|left|right].
    + eapply power_loss_survives in Hb as (f' & Hf' & H1 & H2); eauto. exists f'. auto.
    + split; [done|]. specialize (Hd (bak exe)). rewrite Hb in Hd. by destruct (d' !! bak exe).
  - split; [by apply (proj1 (always_all _ _)), kept_placed|]. split; [apply H|]. intros Hs d' (d & Hin & Hd). left.
    apply always_all in H. rewrite Forall_forall in H. by eapply Hk; eauto.
Qed.
End safety.

(** ** The upgrade engine *)

Inductive UpgradeMode := ModeAuto | ModeMonitor | ModeManual.
#[export] Instance UpgradeMode_eq_dec : EqDecision UpgradeMode.
Proof. solve_decision. Defined.

Record UpgradeConfig := mkUpgradeConfig {
  uc_Mode : UpgradeMode;
  uc_AutoUpdateEnabled : bool;
  uc_AutoMergeEnabled : bool;
  uc_CheckInterval : string;
  uc_BackupBeforeUpgrade : bool;
  uc_RollbackOnFailure : bool;
  uc_RepositoryURL : string;
  uc_Channel : string
}.
Record UpgradeState := mkUpgradeState {
  us_LastCheck : option Z;
  us_LastUpgrade : option Z;
  us_CurrentVersion : string;
  us_LatestVersion : string;
  us_UpgradeInProgress : bool;
  us_UpgradeStatus : string
}.

Definition ChannelStable : string := "stable".
Definition ChannelBeta : string := "beta".
Definition ChannelNightly : string := "nightly".

Definition SetChannel (lower : string -> string) (channel : string) (c : UpgradeConfig) : result UpgradeConfig :=
  let set ch := mkUpgradeConfig (uc_Mode c) (uc_AutoUpdateEnabled c) (uc_AutoMergeEnabled c)
    (uc_CheckInterval c) (uc_BackupBeforeUpgrade c) (uc_RollbackOnFailure c) (uc_RepositoryURL c) ch in
  let ch := ToLower lower channel in
  if decide (ch = ChannelStable \/ ch = "") then Ok (set ChannelStable) else
  if decide (ch = ChannelBeta) then Ok (set ChannelBeta) else
  if decide (ch = ChannelNightly) then Ok (set ChannelNightly) else Err ("unknown channel: " +:+ channel +:+ " (supported: stable, beta, nightly)").
Definition GetChannelTag (lower : string -> string) (channel : string) : string :=
  let ch := ToLower lower channel in
  if decide (ch = ChannelBeta) then "beta" else if decide (ch = ChannelNightly) then "nightly" else "latest".

Section engine.
Context (e : UpdateEnv).

(** The copy has mode 0755 if it is new. *)
Definition copyFile (src dst : string) : UM () :=
  d ← read_fs;
  match d !! src with
  | Some f =>
      if negb (ue_read e src) then fail "read" else
      if negb (ue_create e dst) then fail "open" else
      let mode := match d !! dst with Some f => fl_exec f | None => true end in
      match ue_write e dst with
      | Some n => _ ← change <[dst := mkFile (str_take n (fl_data f)) mode false]>; fail "write"
      | None => change <[dst := mkFile (fl_data f) mode false]>
      end
  | None => fail "read"
  end.

Definition rollback (backupPath : string) : UM () :=
  exe ← lift (ue_Executable e);
  rename e backupPath exe "rollback".

(** A step whose error is only logged. *)
Definition attempt {A} (m : UM A) : UM bool := fun h => let '(h', r) := m h in (h', Ok (is_ok r)).

(** The path of the backup, empty when there is none. *)
Definition make_backup : UM string :=
  match ue_Executable e with
  | Err _ => mret ""
  | Ok exe =>
      let path := exe +:+ ".backup." +:+ ue_now e in
      ok ← attempt (copyFile exe path);
      mret (if ok : bool then path else "")
  end.

Definition in_progress (s : UpgradeState) : UpgradeState := 
  mkUpgradeState (us_LastCheck s) (us_LastUpgrade s) (us_CurrentVersion s) (us_LatestVersion s) true "in_progress".

Definition PerformUpgrade (c : UpgradeConfig) (release : GitHubRelease) (s : UpgradeState) : UM UpgradeState :=
  let s := in_progress s in
  backup ← (if uc_BackupBeforeUpgrade c then make_backup else mret "");
  ok ← attempt (SelfUpdate e "alib8b8/aflare");
  if negb ok then
    _ ← (if uc_RollbackOnFailure c && bool_decide (backup <> "") then attempt (rollback backup) else mret false);
    mret (mkUpgradeState (us_LastCheck s) (us_LastUpgrade s) (us_CurrentVersion s) (us_LatestVersion s) false "failed")
  else mret (mkUpgradeState (us_LastCheck s) (Some (ue_time e)) (rl_TagName release) (us_LatestVersion s) false "success").

Definition CheckAndUpgrade (c : UpgradeConfig) (s : UpgradeState) : UM UpgradeState :=
  if us_UpgradeInProgress s then mret s else fun h =>
  match CheckLatestRelease e "alib8b8/aflare" h with
  | (h', Err _) => (h', Ok s)
  | (h', Ok release) =>
      let s := mkUpgradeState (Some (ue_time e)) (us_LastUpgrade s) (us_CurrentVersion s) (rl_TagName release)
        (us_UpgradeInProgress s) (us_UpgradeStatus s) in
      if negb (HasUpdate (ue_Version e) (Some release)) || bool_decide (uc_Mode c = ModeMonitor) || negb (uc_AutoUpdateEnabled c)
      then (h', Ok s) else PerformUpgrade c release s h'
  end.

Definition RunSelfUpdate : UM string :=
  release ← (fun h => let '(h, r) := CheckLatestRelease e "alib8b8/aflare" h in (h, wrap_err "failed to check latest release: " r));
  if negb (HasUpdate (ue_Version e) (Some release)) then mret ("Already up to date (" +:+ ue_Version e +:+ ")")
  else SelfUpdate e "alib8b8/aflare".

(** with a backup and the rollback on failure, an upgrade that fails leaves
    the old executable in place, even if the update lost it, as long as the
    backup could be made and moved back. *)
Theorem PerformUpgrade_recovers c release s exe old h : ue_Executable e = Ok exe -> h_fs h !! exe = Some old ->
  uc_BackupBeforeUpgrade c = true -> uc_RollbackOnFailure c = true ->
  let backup := exe +:+ ".backup." +:+ ue_now e in
  h_fs h !! backup = None -> ue_read e exe = true -> ue_create e backup = true -> ue_write e backup = None ->
  ue_rename e backup exe = true ->
  match PerformUpgrade c release s h with
  | (h', Ok s') => us_UpgradeStatus s' = "failed" -> h_fs h' !! exe = Some (mkFile (fl_data old) true false)
  | (_, Err _) => False
  end.
Proof.
  intros Hexe Hold Hb Hr backup Hno Hread Hcreate Hwrite Hrename.
  assert (exe <> backup /\ exe +:+ ".tmp" <> backup /\ exe +:+ ".bak" <> backup) as Hother.
  { unfold backup. split_and!; intros E.
    - apply (f_equal String.length) in E. rewrite !string_length_app in E. cbn in E. lia.
    - by apply string_app_inj_l in E.
    - by apply string_app_inj_l in E. }
  set (copy := mkFile (fl_data old) true false). set (h1 := mkHost (<[backup := copy]> (h_fs h)) (h_fs h :: h_past h) (h_requests h)).
  assert (make_backup h = (h1, Ok backup)) as Hbackup.
  { unfold make_backup. rewrite Hexe. fold backup. unfold mbind, UM_bind, attempt, copyFile, mbind, UM_bind, read_fs.
    rewrite Hold, Hread, Hcreate, Hwrite, Hno. done. }
  unfold PerformUpgrade. rewrite Hb, Hr. unfold mbind at 1, UM_bind at 1. rewrite Hbackup.
  unfold mbind at 1, UM_bind at 1, attempt at 1.
  assert (match SelfUpdate e "alib8b8/aflare" h1 with (h2, _) => h_fs h2 !! backup = Some copy end) as Hkeep.
  { pose proof (SelfUpdate_frame e (h_past h1) exe backup (Some copy) Hother "alib8b8/aflare" Hexe h1) as H.
    assert (always (h_past h1) (untouched backup (Some copy)) h1) as H1.
    { split; [apply lookup_insert_eq|]. apply Forall_forall. by right. }
    specialize (H H1). by destruct (SelfUpdate e "alib8b8/aflare" h1) as [h2 [msg|err]]; destruct H. }
  destruct (SelfUpdate e "alib8b8/aflare" h1) as [h2 [msg|err]]; cbn [is_ok negb]; [done|].
  assert (backup <> "") as Hne by (unfold backup; by destruct exe).
  rewrite bool_decide_eq_true_2 by done. cbn [andb]. unfold mbind, UM_bind, attempt, rollback, mbind, UM_bind, lift.
  rewrite Hexe. unfold rename, mbind, UM_bind, read_fs. rewrite Hkeep, Hrename. cbn. intros _. by rewrite lookup_insert_eq.
Qed.
End engine.

(** ** A release as the project publishes it *)


Definition demo_parse (url : string) : result url_info :=
  match Split url "/" with
  | scheme :: _ :: host :: _ => Ok (mkUrlInfo (SplitN2 scheme ":").1 (Contains host "@") host)
  | _ => Err "no URL"
  end.
Definition demo_asset (name : string) : ReleaseAsset := mkAsset name ("https://github.com/dl/" +:+ name) 9.
Definition demo_release (names : list string) : GitHubRelease := mkRelease "v0.13.0" "" 0 "" (demo_asset <$> names).
Definition demo_get (url : string) (auth : option string) : result http_response :=
  Ok (mkResponse 200 (if Contains url "checksums" then "=archive aflare-linux-amd64.tar.gz" else "archive") None).

(** [fails from to]: which renaming fails. *)
Definition demo_env (goos : string) (names : list string) (fails : string -> string -> bool) : UpdateEnv :=
  mkUpdateEnv "v0.12.0" demo_parse demo_get (fun _ _ => Ok (demo_release names)) "token" (fun s => "=" +:+ s) goos "amd64" (Ok "/a")
    (fun _ => true) (fun _ => None) (fun _ => true) (fun _ => true) (fun x y => negb (fails x y)) (fun _ => true) "now" 1.
Definition demo_names : list string := ["checksums.txt"; "aflare-linux-amd64.tar.gz"; "aflare-windows-amd64.zip"].
Definition demo_host : host := mkHost {["/a" := mkFile "old" true true]} [] [].
Definition demo_config : UpgradeConfig := mkUpgradeConfig ModeAuto true false "24h" true true "" ChannelStable.
Definition demo_state : UpgradeState := mkUpgradeState None None "v0.12.0" "" false "".


(** An update that succeeds, and a power failure during one that cannot move
    the new executable in place. *)
Lemma SelfUpdate_safe_witness :
  (let '(h', r) := SelfUpdate (demo_env "linux" demo_names (fun _ _ => false)) "o/r" demo_host in
   is_ok r = true /\ h_fs h' !! "/a" <> Some (mkFile "old" true true) /\
   Forall (placed (demo_env "linux" demo_names (fun _ _ => false)) "/a" (mkFile "old" true true) "o/r") (h_fs h' :: h_past h')) /\
  (let '(h', r) := SelfUpdate (demo_env "linux" demo_names (fun from _ => bool_decide (from = "/a.tmp"))) "o/r" demo_host in
   is_ok r = false /\ forall d', power_loss (h_fs h' :: h_past h') d' -> old_survives "/a" (mkFile "old" true true) d').
Proof.
  split.
  - pose proof (SelfUpdate_safe (demo_env "linux" demo_names (fun _ _ => false)) "/a" (mkFile "old" true true) "o/r" demo_host
      eq_refl eq_refl eq_refl) as H.
    destruct (SelfUpdate (demo_env "linux" demo_names (fun _ _ => false)) "o/r" demo_host) as [h' r] eqn:E.
    vm_compute in E. injection E as <- <-. destruct H as [H _]. split; [reflexivity|]. split; [discriminate|exact H].
  - pose proof (SelfUpdate_safe (demo_env "linux" demo_names (fun from _ => bool_decide (from = "/a.tmp"))) "/a"
      (mkFile "old" true true) "o/r" demo_host eq_refl eq_refl eq_refl) as H.
    destruct (SelfUpdate (demo_env "linux" demo_names (fun from _ => bool_decide (from = "/a.tmp"))) "o/r" demo_host)
      as [h' r] eqn:E.
    assert (is_ok r = false) as Hr.
    { replace r with (SelfUpdate (demo_env "linux" demo_names (fun from _ => bool_decide (from = "/a.tmp"))) "o/r" demo_host).2
        by (by rewrite E). vm_compute. reflexivity. }
    split; [exact Hr|]. intros d' Hd. destruct H as (_ & _ & H). destruct (H eq_refl d' Hd) as [?|[Hok _]]; [done|].
    by rewrite Hr in Hok.
Defined.

Lemma SelfUpdate_hosts_witness :
  Forall (fun r => exists u, demo_parse r.1 = Ok u /\ ui_Scheme u = "https" /\ ui_User u = false /\
    ui_Hostname u ∈ allowedGitHubHosts) (h_requests (SelfUpdate (demo_env "linux" demo_names (fun _ _ => false)) "o/r" demo_host).1) /\
  length (h_requests (SelfUpdate (demo_env "linux" demo_names (fun _ _ => false)) "o/r" demo_host).1) = 3.
Proof.
  split; [exact (SelfUpdate_hosts (demo_env "linux" demo_names (fun _ _ => false)) "o/r" demo_host eq_refl)|reflexivity].
Defined.

(** The new executable cannot be moved in place, nor can the old one back. *)
Definition demo_stuck (from to : string) : bool := bool_decide (from = "/a.tmp" \/ from = "/a.bak").

Lemma PerformUpgrade_recovers_witness :
  match PerformUpgrade (demo_env "linux" demo_names demo_stuck) demo_config (demo_release []) demo_state demo_host with
  | (h', Ok s') => us_UpgradeStatus s' = "failed" /\ h_fs h' !! "/a" = Some (mkFile "old" true false)
  | (_, Err _) => False
  end.
Proof.
  pose proof (PerformUpgrade_recovers (demo_env "linux" demo_names demo_stuck) demo_config (demo_release []) demo_state "/a"
    (mkFile "old" true true) demo_host eq_refl eq_refl eq_refl eq_refl eq_refl eq_refl eq_refl eq_refl eq_refl) as H.
  destruct (PerformUpgrade _ _ _ _ _) as [h' [s'|err]] eqn:E; vm_compute in E; [|discriminate].
  injection E as <- <-. split; [reflexivity|]. apply H. reflexivity.
Defined.

(** ** Published releases hold archives *)

(** The update puts the archive itself in the executable's place, without the
    permission to execute it, and reports success. *)
Theorem installs_the_archive :
  let '(h', r) := SelfUpdate (demo_env "linux" demo_names (fun _ _ => false)) "o/r" demo_host in
  r = Ok "Updated to v0.13.0 (was v0.12.0)" /\ h_fs h' !! "/a" = Some (mkFile "archive" false false).
Proof. by vm_compute. Qed.

(** No asset of the release is found on Windows. *)
Theorem no_windows_asset : FindAsset (demo_release demo_names) "windows" "amd64" = ("", "").
Proof. reflexivity. Qed.

(** A name that extends the architecture's is taken for it. *)
Theorem longer_architecture :
  (FindAsset (demo_release ["aflare-linux-arm64"; "aflare-linux-arm"]) "linux" "arm").2 = "aflare-linux-arm64".
Proof. reflexivity. Qed.

(** Between the two renamings there is no executable. *)
Theorem no_executable_between :
  Exists (fun d : fs => d !! "/a" = None) (h_past (SelfUpdate (demo_env "linux" demo_names (fun _ _ => false)) "o/r" demo_host).1).
Proof. vm_compute. repeat first [apply Exists_cons_hd; reflexivity|apply Exists_cons_tl]. Qed.

(** The engine compares with the version of the running process, so every
    check of it installs the same release again. *)
Theorem installs_again :
  let e := demo_env "linux" demo_names (fun _ _ => false) in
  match CheckAndUpgrade e demo_config demo_state demo_host with
  | (h1, Ok s1) => us_CurrentVersion s1 = "v0.13.0" /\
      match CheckAndUpgrade e demo_config s1 h1 with
      | (h2, Ok s2) => length (h_requests h1) = 4 /\ length (h_requests h2) = 8
      | _ => False
      end
  | _ => False
  end.
Proof. by vm_compute. Qed.

(** a power failure after an update that reported success can leave an empty
    executable and no backup: the download was closed without a sync, and the
    backup is removed right after the renaming. *)
Theorem power_loss_tears_update :
  let '(h', r) := SelfUpdate (demo_env "linux" demo_names (fun _ _ => false)) "o/r" demo_host in
  r = Ok "Updated to v0.13.0 (was v0.12.0)" /\
  exists d', power_loss (h_fs h' :: h_past h') d' /\ d' !! "/a" = Some (mkFile "" false false) /\ d' !! "/a.bak" = None.
Proof.
  destruct (SelfUpdate _ _ _) as [h' r] eqn:E. vm_compute in E. injection E as <- <-. split; [done|].
  exists {["/a" := mkFile "" false false]}. split_and!; [|done|done].
  eexists. split; [left|]. intros p. cbn [h_fs].
  change (match ({["/a" := mkFile "archive" false false]} : fs) !! p, ({["/a" := mkFile "" false false]} : fs) !! p with
          | Some f, Some f' => survives f f' | None, None => True | _, _ => False end).
  destruct (decide (p = "/a")) as [->|Hp]; [by rewrite !lookup_singleton_eq|by rewrite !lookup_singleton_ne].
Qed.
