(* ===== verification/NodeParams.v ===== *)
(** * The parameters of nodes (src/internal/nodes/core/params.go) *)

From S2P Require Import Prelude GoStrings GoText GoTime.
From Stdlib Require Import Ascii SpecFloat.

#[local] Open Scope string_scope.

Definition GetParam (params : gmap string string) (key defaultVal : string) : string :=
  match params !! key with Some v => if decide (v = "") then defaultVal else v | None => defaultVal end.

Definition is_digit (c : ascii) : bool := match digit_val c with Some _ => true | None => false end.

(** [fmt.Sscanf(s, "%d", &v)]: blanks, a sign, digits; what follows is not
    looked at. *)
Fixpoint span_digits (s : string) : string * string :=
  match s with
  | String c s' => if is_digit c then let '(a, b) := span_digits s' in (String c a, b) else ("", s)
  | "" => ("", "")
  end.
(** White space that may precede a number; a line may not end there. *)
Definition skip_space (s : string) : option string :=
  let t := trim_lead false s in
  if str_has (ascii_of_nat 10) (str_take (String.length s - String.length t) s) then None else Some t.
Definition Sscanf_d (s : string) : option Z :=
  s ← skip_space s;
  let '(sign, s) := match s with
    | String c s' => if decide (c = "-"%char) then ("-", s') else if decide (c = "+"%char) then ("", s') else ("", s)
    | "" => ("", "") end in
  let '(ds, _) := span_digits s in
  if decide (ds = "") then None else Atoi (sign +:+ ds).

Definition clamp (min max v : Z) : Z := if (v <? min)%Z then min else if (max <? v)%Z then max else v.
Definition ParamInt (params : gmap string string) (key : string) (defaultVal min max : Z) : Z :=
  let s := GetParam params key "" in
  if decide (s = "") then defaultVal else
  match Sscanf_d s with
  | None => defaultVal
  | Some v => if (min <=? max)%Z then clamp min max v else v
  end.

Section floats.
(** [fmt.Sscanf(s, "%f", &v)] *)
Context (Sscanf_f : string -> option float64).
Definition ParamFloat (params : gmap string string) (key : string) (defaultVal min max : float64) : float64 :=
  let s := GetParam params key "" in
  if decide (s = "") then defaultVal else
  match Sscanf_f s with
  | None => defaultVal
  | Some v => if SFleb min max then if SFltb v min then min else if SFltb max v then max else v else v
  end.
End floats.

(** A parameter with bounds stays in them. *)
Lemma ParamInt_range params key d min max : (min <= max)%Z -> (min <= d <= max)%Z -> (min <= ParamInt params key d min max <= max)%Z.
Proof.
  intros Hm Hd. unfold ParamInt. case_decide; [done|]. destruct (Sscanf_d _); [|done].
  rewrite (proj2 (Z.leb_le min max)) by done. unfold clamp.
  repeat match goal with |- context [(?a <? ?b)%Z] => destruct (Z.ltb_spec a b) end; lia.
Qed.
