(* ===== verification/Execute.v ===== *)
(** * Shell commands of a workflow (src/internal/nodes/execute.go,
    src/internal/nodes/command_whitelist.go)

    The node that runs shell commands: its checks, the redaction and the
    escaping of the audit log, and the order of logging and running.  A state
    holds the text of the log and what happened; the shell, the clock and the
    file system answer through a record.  Paths are those of Unix. *)

From S2P Require Import Prelude GoStrings GoText GoTime GoPath PathGuard NodeParams.
From Stdlib Require Import Ascii.

#[local] Open Scope string_scope.

(** ** Definitions *)

Definition SafeCommandWhitelist : list string :=
  ["ls"; "cat"; "head"; "tail"; "wc"; "grep"; "awk"; "sed"; "find"; "sort"; "uniq"; "cut"; "tr"; "echo"; "date"; "pwd";
   "whoami"; "uname"; "df"; "du"].

Definition dquote : ascii := ascii_of_nat 34.
Definition LF : ascii := ascii_of_nat 10.
Definition CR : ascii := ascii_of_nat 13.

(** The character class of [shellMetachars]. *)
Definition metachars : list ascii :=
  [";"; "|"; "&"; "$"; "`"; "("; ")"; "{"; "}"; "<"; ">"; "\"; "*"; "?"; "!"; "~"; "="; "'"; dquote; LF; CR]%char.
Definition shellMetachars (c : ascii) : bool := bool_decide (c ∈ metachars).
Fixpoint find_byte (p : ascii -> bool) (s : string) : option (nat * ascii) :=
  match s with
  | "" => None
  | String c s => if p c then Some (0, c) else (fun ic => (S ic.1, ic.2)) <$> find_byte p s
  end.

Definition getParam (params : gmap string string) (key defaultVal : string) : string := GetParam params key defaultVal.

(** [sed] and [awk] may not edit in place or load a script. *)
Definition script_flag (arg : string) : option error :=
  if HasPrefix arg "-i" then Some "in-place edit (-i) is not allowed under allowlist mode" else
  if bool_decide (arg = "--file") || HasPrefix arg "-f" then Some "script file loading (-f) is not allowed under allowlist mode"
  else None.
Fixpoint first_some {A B} (f : A -> option B) (l : list A) : option B :=
  match l with [] => None | x :: l => match f x with Some y => Some y | None => first_some f l end end.

Definition check_command (command : string) : result () :=
  match find_byte shellMetachars command with
  | Some (i, c) => Err ("shell metacharacter " +:+ String c "" +:+ " at position " +:+ Itoa (Z.of_nat i) +:+ " is not allowed")
  | None =>
      match Fields command with
      | [] => Ok ()
      | first :: args =>
          let cmdName := Base first in
          if decide (cmdName ∉ SafeCommandWhitelist) then Err ("command " +:+ cmdName +:+ " is not in the allowed list") else
          if decide (cmdName = "sed" \/ cmdName = "awk") then
            match first_some script_flag args with Some err => Err err | None => Ok () end
          else Ok ()
      end
  end.

(** ** The audit log *)

Section matching.
(** [m s]: what replaces a match at the start of [s], and what follows it. *)
Context (m : string -> option (string * string)).

Fixpoint replace_matches (fuel : nat) (s : string) : string :=
  match fuel with
  | O => s
  | S fuel =>
      match m s with
      | Some (new, rest) => new +:+ replace_matches fuel rest
      | None => match s with "" => "" | String c s' => String c (replace_matches fuel s') end
      end
  end.
(** Every match takes a byte, so that the length is enough rounds. *)
Definition ReplaceAllMatches (s : string) : string := replace_matches (String.length s) s.
End matching.

Fixpoint span_chars (p : ascii -> bool) (s : string) : string * string :=
  match s with
  | "" => ("", "")
  | String c s' => if p c then let '(a, b) := span_chars p s' in (String c a, b) else ("", s)
  end.

(** [\s] of a regular expression. *)
Definition re_blank (c : ascii) : bool :=
  let n := N_of_ascii c in ((n =? 9) || (n =? 10) || (n =? 12) || (n =? 13) || (n =? 32))%N.

(** A literal without regard to case, which folds the Kelvin sign to [k] and
    the long s to [s]. *)
Definition ci_char (c : ascii) (s : string) : option string :=
  match s with
  | "" => None
  | String x s1 =>
      if bool_decide (lower_byte x = c) then Some s1 else
      match s1 with
      | "" => None
      | String y s2 =>
          if bool_decide (c = "s"%char) && bool_decide (N_of_ascii x = 0xC5%N) && bool_decide (N_of_ascii y = 0xBF%N) then Some s2 else
          match s2 with
          | "" => None
          | String z s3 =>
              if bool_decide (c = "k"%char) && bool_decide (N_of_ascii x = 0xE2%N) && bool_decide (N_of_ascii y = 0x84%N) &&
                 bool_decide (N_of_ascii z = 0xAA%N) then Some s3 else None
          end
      end
  end.
Fixpoint ci_lit (lit s : string) : option string :=
  match lit with "" => Some s | String c lit => s ← ci_char c s; ci_lit lit s end.
(** The text that a match has consumed. *)
Definition consumed (s rest : string) : string := str_take (String.length s - String.length rest) s.

(** [(bearer\s+)([^\s]+)] *)
Definition match_bearer (s : string) : option (string * string) :=
  r ← ci_lit "bearer" s;
  let '(blanks, r) := span_chars re_blank r in
  if decide (blanks = "") then None else
  let '(secret, r') := span_chars (fun c => negb (re_blank c)) r in
  if decide (secret = "") then None else Some (consumed s r +:+ "****", r').

(** The word authorization, separators and a value, which ends at a blank or a
    quote: the separators are as long as they can be while something is left
    for the value. *)
Definition sep_char (c : ascii) : bool := bool_decide (c = ":"%char) || re_blank c.
Definition value_char (c : ascii) : bool := negb (re_blank c) && bool_decide (c <> "'"%char) && bool_decide (c <> dquote).
Fixpoint last_sep (s : string) : option string :=
  match s with
  | "" => None
  | String c s' =>
      if negb (sep_char c) then None else
      match last_sep s' with
      | Some r => Some r
      | None => match s' with String d _ => if value_char d then Some s' else None | "" => None end
      end
  end.
Definition match_authorization (s : string) : option (string * string) :=
  r ← ci_lit "authorization" s;
  r ← last_sep r;
  Some (consumed s r +:+ "****", (span_chars value_char r).2).

(** [(api[_-]?key=|password=|passwd=|token=|secret=)([^\s]+)] *)
Definition match_api_key (s : string) : option string :=
  r ← ci_lit "api" s;
  match r with
  | String c r' => if bool_decide (c = "_"%char \/ c = "-"%char) then ci_lit "key=" r' else ci_lit "key=" r
  | "" => None
  end.
Definition match_name (s : string) : option string :=
  first_some (fun f => f s) [match_api_key; ci_lit "password="; ci_lit "passwd="; ci_lit "token="; ci_lit "secret="].
Definition match_assignment (s : string) : option (string * string) :=
  r ← match_name s;
  let '(secret, r') := span_chars (fun c => negb (re_blank c)) r in
  if decide (secret = "") then None else Some (consumed s r +:+ "****", r').

(** [(https?://[^/\s:@]+:)[^@\s/@]+(@)] *)
Definition match_url (s : string) : option (string * string) :=
  let after p := if HasPrefix s p then Some (str_drop (String.length p) s) else None in
  r ← (match after "https://" with Some r => Some r | None => after "http://" end);
  let '(user, r) := span_chars (fun c => negb (re_blank c) && bool_decide (c ∉ ["/"; ":"; "@"]%char)) r in
  if decide (user = "") then None else
  match r with
  | String c r =>
      if decide (c <> ":"%char) then None else
      let '(pass, r') := span_chars (fun c => negb (re_blank c) && bool_decide (c ∉ ["/"; "@"]%char)) r in
      if decide (pass = "") then None else
      match r' with
      | String d r' => if decide (d = "@"%char) then Some (consumed s r +:+ "****@", r') else None
      | "" => None
      end
  | "" => None
  end.

Definition redactCommandForLog (command : string) : string :=
  foldl (fun s m => ReplaceAllMatches m s) command [match_bearer; match_authorization; match_assignment; match_url].

Definition hex_char (n : N) : ascii := ascii_of_N (if (n <? 10)%N then 48 + n else 87 + n).
Definition hex2 (n : N) : string := String (hex_char (n / 16)) (String (hex_char (n mod 16)) "").
(** [string(rune(n))] below U+0100. *)
Definition rune (n : N) : string :=
  if (n <? 128)%N then String (ascii_of_N n) "" else String (ascii_of_N (192 + n / 64)) (String (ascii_of_N (128 + n mod 64)) "").
Definition numbers (from len : nat) : list N := N.of_nat <$> seq from len.
Definition escapes : list (string * string) :=
  ([(String LF "", "\n"); (String CR "", "\r"); (rune 9, "\t"); (rune 0, "\0")] ++
   ((fun n => (rune n, "\x" +:+ hex2 n)) <$> numbers 1 31) ++
   ((fun n => (rune n, "\x" +:+ hex2 n)) <$> numbers 127 33))%list.
Definition escapeLogContent (s : string) : string := foldl (fun s on => ReplaceAll s on.1 on.2) s escapes.

(** ** Runs *)

Inductive exec_event :=
  | Logged (line : string)
  | Started (command : string) (timeout : Z).

Record exec_state := mkExec { es_log : string; es_events : list exec_event }.

(** The output of a command, its error, and whether the time was up. *)
Record sh_result := mkRun { rr_output : string; rr_err : option error; rr_deadline : bool }.

Record ExecEnv := mkExecEnv {
  ee_safe : bool;                                  (* [IsSafeMode] *)
  ee_allowlist : bool;                             (* AFLARE_EXECUTE_UNSAFE is not 1 *)
  ee_audit_file : string;
  ee_mkdir : option error;
  ee_open : option error;
  ee_write : option (nat * error);                 (* how much a failing write has written *)
  ee_now : string;                                 (* in RFC 3339 *)
  ee_run : string -> Z -> sh_result
}.

Section exec.
Context (e : ExecEnv).

Definition log_line (command : string) : string :=
  "[" +:+ ee_now e +:+ "] " +:+ escapeLogContent (redactCommandForLog command) +:+ newline.

Definition auditLog (command : string) (s : exec_state) : option error * exec_state :=
  if decide (ee_audit_file e = "") then (None, s) else
  match ee_mkdir e, ee_open e with
  | Some err, _ => (Some ("failed to create audit log directory: " +:+ err), s)
  | None, Some err => (Some ("failed to open audit log: " +:+ err), s)
  | None, None =>
      let line := log_line command in
      match ee_write e with
      | Some (n, err) => (Some ("failed to write audit log: " +:+ err), mkExec (es_log s +:+ str_take n line) (es_events s))
      | None => (None, mkExec (es_log s +:+ line) (Logged line :: es_events s))
      end
  end.

Definition maxTimeout : Z := 30 * Minute.
Definition run_timeout (timeoutStr : string) : Z :=
  let timeout := match ParseDuration timeoutStr with Some t => t | None => 5 * Minute end%Z in
  if (maxTimeout <? timeout)%Z then maxTimeout else timeout.

Definition slen (s : string) : Z := Z.of_nat (String.length s).
Definition long_param (kv : string * string) : bool := (50 <? slen kv.1)%Z || (1000 <? slen kv.2)%Z.

Definition ExecuteNode_Execute (params : gmap string string) (s : exec_state) : result string * exec_state :=
  if ee_safe e then (Err "execute node is disabled in safe mode", s) else
  let command := default "" (params !! "command") in
  if decide (command = "") then (Err "command parameter is required", s) else
  if (4096 <? slen command)%Z then (Err "command too long (max 4096 characters)", s) else
  let dryRun := bool_decide (getParam params "dry_run" "false" = "true") in
  let timeoutStr := getParam params "timeout" "5m" in
  if (10 <? size params)%nat then (Err "too many parameters (max 10)", s) else
  if existsb long_param (map_to_list params) then (Err "parameter too long", s) else
  match (if ee_allowlist e then check_command command else Ok ()) with
  | Err err => (Err err, s)
  | Ok _ =>
      match auditLog command s with
      | (Some err, s) => (Err ("failed to write audit log: " +:+ err), s)
      | (None, s) =>
          if dryRun then
            (Ok ("[DRY RUN] Command that would execute:" +:+ newline +:+ command +:+ newline +:+ newline +:+
                 "To execute, set dry_run=false"), s)
          else
          let timeout := run_timeout timeoutStr in
          let s := mkExec (es_log s) (Started command timeout :: es_events s) in
          let r := ee_run e command timeout in
          match rr_err r with
          | Some err =>
              if rr_deadline r then (Err ("command timed out after " +:+ timeoutStr), s)
              else (Err ("command failed: " +:+ err +:+ newline +:+ "Output: " +:+ rr_output r), s)
          | None => (Ok (TrimSpace (rr_output r)), s)
          end
      end
  end.
End exec.

(** ** Theorems *)

Lemma find_byte_None p s : find_byte p s = None <-> str_forall (fun c => negb (p c)) s = true.
Proof. induction s as [|c s IH]; [done|]. cbn. destruct (p c); [done|]. cbn. by rewrite fmap_None. Qed.
Lemma first_some_None {A B} (f : A -> option B) l : first_some f l = None <-> Forall (fun x => f x = None) l.
Proof.
  induction l as [|x l IH]; [done|]. cbn. rewrite Forall_cons. destruct (f x); [|by rewrite IH; intuition].
  split; [done|]. by intros [? _].
Qed.

(** What the allowlist lets through. *)
Definition allowed (c : string) : Prop :=
  str_forall (fun b => negb (shellMetachars b)) c = true /\
  match Fields c with
  | [] => True
  | first :: args => Base first ∈ SafeCommandWhitelist /\
      (Base first = "sed" \/ Base first = "awk" -> Forall (fun a => HasPrefix a "-i" = false /\ HasPrefix a "-f" = false /\ a <> "--file") args)
  end.

Lemma script_flag_None a : script_flag a = None <-> HasPrefix a "-i" = false /\ HasPrefix a "-f" = false /\ a <> "--file".
Proof.
  unfold script_flag. destruct (HasPrefix a "-i"); [naive_solver|]. destruct (HasPrefix a "-f").
  - rewrite orb_true_r. naive_solver.
  - rewrite orb_false_r. case_bool_decide; naive_solver.
Qed.

Lemma check_command_exact c : check_command c = Ok () <-> allowed c.
Proof.
  unfold check_command, allowed. rewrite <-find_byte_None. destruct (find_byte shellMetachars c) as [[i b]|].
  { split; [done|]. by intros [? _]. }
  destruct (Fields c) as [|first args]; [naive_solver|]. case_decide as Hw; [naive_solver|].
  case_decide as Hs; [|naive_solver]. destruct (first_some script_flag args) eqn:E.
  - split; [done|]. intros (_ & _ & H). apply H in Hs. assert (first_some script_flag args = None) as E'; [|congruence].
    apply first_some_None. eapply Forall_impl; [exact Hs|]. intros a. apply script_flag_None.
  - split; [|done]. intros _. split_and!; [done|destruct (decide (Base first ∈ SafeCommandWhitelist)); done|].
    intros _. apply first_some_None in E. eapply Forall_impl; [exact E|]. intros a. apply script_flag_None.
Qed.

(** What the shell may be given: the command of the parameters, outside of
    safe mode and dry runs, with the bounds that hold for it. *)
Definition permitted (e : ExecEnv) (params : gmap string string) (c : string) (t : Z) : Prop :=
  params !! "command" = Some c /\ c <> "" /\ ee_safe e = false /\ (slen c <= 1000)%Z /\ (t <= 30 * Minute)%Z /\
  getParam params "dry_run" "false" <> "true" /\ (ee_allowlist e = true -> allowed c).

Lemma run_timeout_le s : (run_timeout s <= 30 * Minute)%Z.
Proof. unfold run_timeout, maxTimeout. destruct (_ <? _)%Z eqn:E; [done|]. by apply Z.ltb_ge in E. Qed.

Lemma long_param_false params k v : existsb long_param (map_to_list params) = false -> params !! k = Some v ->
  (slen v <= 1000)%Z.
Proof.
  intros H Hk. apply elem_of_map_to_list in Hk. assert (long_param (k, v) = false) as Hl.
  { destruct (long_param (k, v)) eqn:E; [|done]. rewrite <-H. symmetry. apply existsb_exists. exists (k, v).
    by rewrite <-list_elem_of_In. }
  apply orb_false_iff in Hl as [_ Hl]. by apply Z.ltb_ge in Hl.
Qed.

(** A call does nothing, writes a line to the audit log, or writes a line
    and then starts a permitted command (without a line if there is no log);
    if the line cannot be written nothing is started. *)
Lemma Execute_steps e params s : let s' := (ExecuteNode_Execute e params s).2 in let c := default "" (params !! "command") in
  let line := if decide (ee_audit_file e = "") then [] else [Logged (log_line e c)] in
  es_events s' = es_events s \/ es_events s' = (line ++ es_events s)%list \/
  exists t, es_events s' = Started c t :: line ++ es_events s /\ permitted e params c t /\
    (ee_audit_file e = "" \/ ee_mkdir e = None /\ ee_open e = None /\ ee_write e = None).
Proof.
  cbn zeta. unfold ExecuteNode_Execute. destruct (ee_safe e) eqn:Hsafe; [by left|]. case_decide as Hc; [by left|].
  destruct (4096 <? _)%Z; [by left|]. destruct (10 <? _)%nat; [by left|].
  destruct (existsb long_param _) eqn:Hl; [by left|].
  destruct (if ee_allowlist e then check_command _ else Ok ()) as [[]|err] eqn:Hk; [|by left].
  assert (exists c, params !! "command" = Some c) as [c Ec].
  { destruct (params !! "command"); [by eexists|]. by destruct Hc. }
  rewrite Ec in *. change (default "" (Some c)) with c in *. unfold auditLog. set (t := run_timeout _).
  assert (getParam params "dry_run" "false" <> "true" -> permitted e params c t) as Hp.
  { intros Hd. split_and!; [done..|by eapply long_param_false|apply run_timeout_le|done|].
    intros Ha. rewrite Ha in Hk. by apply check_command_exact. }
  case_decide as Hf.
  - cbn [app]. case_bool_decide as Hd; [by left|]. right; right. exists t. split_and!; [|by apply Hp|by left].
    destruct (rr_err _); [by destruct (rr_deadline _)|done].
  - destruct (ee_mkdir e) eqn:H1; [by left|]. destruct (ee_open e) eqn:H2; [by left|].
    destruct (ee_write e) as [[n err]|] eqn:H3; [by left|]. cbn [app]. case_bool_decide as Hd; [by right; left|].
    right; right. exists t. split_and!; [|by apply Hp|by right].
    destruct (rr_err _); [by destruct (rr_deadline _)|done].
Qed.

(** *** The words of a command *)

(** The blanks that separate the words of a simple command. *)
Definition blank (c : ascii) : bool := bool_decide (c = " "%char \/ N_of_ascii c = 9%N).
(** The words of a line without quotes and expansions. *)
Fixpoint sh_words (s : string) : list string :=
  match s with
  | "" => []
  | String c s' =>
      if blank c then sh_words s' else
      match s' with
      | String d _ => if blank d then String c "" :: sh_words s' else
          match sh_words s' with w :: ws => String c w :: ws | [] => [String c ""] end
      | "" => [String c ""]
      end
  end.

(** Printable ASCII characters and tabs. *)
Definition plain_char (c : ascii) : bool := (N_of_ascii c =? 9)%N || ((32 <=? N_of_ascii c)%N && (N_of_ascii c <=? 126)%N).

Ltac each_byte c := destruct c as [[] [] [] [] [] [] [] []]; by vm_compute.
Lemma plain_space c : plain_char c = true -> ascii_space c = blank c.
Proof. each_byte c. Qed.
Lemma plain_space2 c d : plain_char c = true -> space2 c d = false.
Proof. intros H. unfold space2. apply andb_false_intro1. apply N.eqb_neq. intros E. unfold plain_char in H. by rewrite E in H. Qed.
Lemma plain_space3 c d b : plain_char c = true -> space3 c d b = false.
Proof.
  intros H. unfold space3. assert (forall n, plain_char (ascii_of_N n) = false -> (N_of_ascii c =? n)%N = false) as Hn.
  { intros n Hn. apply N.eqb_neq. intros <-. rewrite ascii_N_embedding in Hn. congruence. }
  by rewrite !Hn.
Qed.

Fixpoint skip_blanks (s : string) : string :=
  match s with String c s' => if blank c then skip_blanks s' else s | "" => "" end.
Definition plain (s : string) : Prop := str_forall plain_char s = true.

Lemma trim_plain s : plain s -> trim_lead false s = skip_blanks s.
Proof.
  induction s as [|c s IH]; [done|]. unfold plain. cbn [str_forall]. intros [Hc Hs]%andb_prop. cbn [trim_lead skip_blanks].
  rewrite (plain_space c Hc). destruct (blank c); [by apply IH|]. destruct s as [|d s]; [done|].
  rewrite plain_space2 by done. destruct s as [|b s]; [done|]. by rewrite plain_space3.
Qed.
Lemma skip_blanks_plain s : plain s -> plain (skip_blanks s).
Proof.
  induction s as [|c s IH]; [done|]. unfold plain. cbn [str_forall skip_blanks]. intros H. destruct (blank c); [|done].
  apply andb_prop in H as [_ H]. by apply IH.
Qed.
Lemma skip_blanks_words s : sh_words (skip_blanks s) = sh_words s.
Proof. induction s as [|c s IH]; [done|]. cbn [skip_blanks]. destruct (blank c) eqn:E; [|done]. cbn [sh_words]. by rewrite E. Qed.
Lemma skip_blanks_head s c t : skip_blanks s = String c t -> blank c = false.
Proof. induction s as [|x s IH]; [done|]. cbn. destruct (blank x) eqn:E; [done|]. by intros [= <- _]. Qed.
Lemma skip_blanks_length s : (String.length (skip_blanks s) <= String.length s)%nat.
Proof. induction s as [|c s IH]; [done|]. cbn. destruct (blank c); cbn; lia. Qed.
Lemma blank_moves c s : blank c = true -> skip_blanks (String c s) <> String c s.
Proof.
  intros H E. apply (f_equal String.length) in E. cbn in E. rewrite H in E.
  pose proof (skip_blanks_length s). lia.
Qed.

(** The first word of a text that starts with one. *)
Lemma span_word_plain c s : plain (String c s) -> blank c = false -> exists w r,
  span_word (String c s) = (String c w, r) /\ sh_words (String c s) = String c w :: sh_words r /\ plain r /\
  (String.length r <= String.length s)%nat.
Proof.
  revert c. induction s as [|d s IH]; intros c Hp Hc.
  - exists "", "". cbn [span_word]. rewrite trim_plain by done. cbn [skip_blanks]. rewrite Hc, decide_True by done.
    cbn [sh_words]. by rewrite Hc.
  - assert (plain (String d s)) as Hp' by (unfold plain in *; cbn [str_forall] in *; apply andb_prop in Hp as [_ ?]; done).
    cbn [span_word]. rewrite trim_plain by done. cbn [skip_blanks]. rewrite Hc, decide_True by done.
    rewrite trim_plain by done. cbn [sh_words]. rewrite Hc. destruct (blank d) eqn:Hd.
    + rewrite decide_False by (by apply blank_moves). exists "", (String d s).
      split_and!; [done| |done|done]. cbn [sh_words]. by rewrite Hd.
    + destruct (IH d Hp' Hd) as (w & r & E1 & E2 & H1 & H2). cbn [skip_blanks]. rewrite Hd, decide_True by done.
      cbn [span_word] in E1. rewrite trim_plain in E1 by done. cbn [skip_blanks] in E1. rewrite Hd, decide_True in E1 by done.
      destruct (span_word s) as [w' r'] eqn:Es. injection E1 as <- <-. exists (String d w'), r'.
      cbn [sh_words] in E2. rewrite Hd in E2. rewrite E2. split_and!; [done|done|done|cbn; lia].
Qed.

Lemma fields_go_plain fuel s : plain s -> (String.length s <= fuel)%nat -> fields_go fuel s = sh_words s.
Proof.
  revert s. induction fuel as [|fuel IH]; intros s Hp Hl.
  - destruct s; [done|]. cbn in Hl. lia.
  - cbn [fields_go]. rewrite trim_plain by done. pose proof (skip_blanks_length s). rewrite <-(skip_blanks_words s).
    destruct (skip_blanks s) as [|c t] eqn:E; [done|]. pose proof (skip_blanks_plain s Hp) as Ht. rewrite E in Ht.
    destruct (span_word_plain c t Ht (skip_blanks_head s c t E)) as (w & r & E1 & E2 & H1 & H2). rewrite E1, E2.
    f_equal. apply IH; [done|]. cbn in *. lia.
Qed.

(** for a command of printable ASCII characters the words that are checked
    are the words that the shell gets. *)
Theorem checked_words c : plain c -> Fields c = sh_words c.
Proof. intros H. by apply fields_go_plain. Qed.

(** Other commands can contain white space that the shell does not know: the
    checked command is not the one that runs. *)
Definition nbsp : string := String (ascii_of_nat 194) (String (ascii_of_nat 160) "").
Theorem unchecked_word : let c := "cat" +:+ nbsp +:+ "/etc/passwd" in
  check_command c = Ok () /\ Fields c = ["cat"; "/etc/passwd"] /\ sh_words c = [c].
Proof. by vm_compute. Qed.

(** *** Ways around the allowlist *)

(** A program of any directory, a sed script that runs a command, editing in
    place with a long or grouped option, deleting and writing files. *)
Theorem allowlist_gaps : Forall (fun c => check_command c = Ok ())
  ["/tmp/upload/ls"; "sed 1eid /etc/passwd"; "sed --in-place s/a/b/ f"; "sed -ni s/a/b/ f"; "find . -delete"; "sort -o f g"].
Proof. repeat constructor. Qed.

(** The limit of 4096 characters is never reached. *)
Theorem command_limit e params s c : params !! "command" = Some c -> (1000 < slen c)%Z ->
  is_ok (ExecuteNode_Execute e params s).1 = false.
Proof.
  intros Hc Hl. unfold ExecuteNode_Execute. rewrite Hc. change (default "" (Some c)) with c. destruct (ee_safe e); [done|]. case_decide; [done|].
  destruct (4096 <? _)%Z; [done|]. destruct (10 <? _)%nat; [done|]. destruct (existsb long_param _) eqn:E; [done|].
  pose proof (long_param_false _ _ _ E Hc). lia.
Qed.

(** *** The audit log *)

Lemma str_has_occurs d s : str_has d s = true <-> occurs_in (String d "") s.
Proof.
  induction s as [|c s IH]; cbn.
  - split; [done|]. intros (a & b & E). by destruct a.
  - rewrite orb_true_iff, bool_decide_eq_true, IH. split.
    + intros [->|(a & b & ->)]; [by exists "", s|by exists (String c a), b].
    + intros ([|x a] & b & E); cbn in E; injection E as -> E; [by left|right; by exists a, b].
Qed.
Lemma str_has_false d s : str_has d s = false <-> ~ occurs_in (String d "") s.
Proof. rewrite <-str_has_occurs. by destruct (str_has d s). Qed.

Lemma str_has_Join d l sep : Forall (fun p => str_has d p = false) l -> str_has d sep = false -> str_has d (Join l sep) = false.
Proof.
  intros H Hs. induction H as [|p l Hp _ IH]; [done|]. cbn. destruct l; [done|]. by rewrite !str_has_app, Hp, Hs, IH.
Qed.
Lemma ReplaceAll_keeps_out d s old new : str_has d s = false -> str_has d new = false -> str_has d (ReplaceAll s old new) = false.
Proof.
  intros Hs Hn. apply str_has_Join; [|done]. apply Forall_forall. intros p Hp. apply str_has_false. intros Ho.
  apply str_has_false in Hs. apply Hs. by eapply Split_pieces.
Qed.
Lemma ReplaceAll_takes_out d s new : str_has d new = false -> str_has d (ReplaceAll s (String d "") new) = false.
Proof.
  intros Hn. apply str_has_Join; [|done]. apply Forall_forall. intros p Hp. apply str_has_false. by apply Split_clean in Hp.
Qed.

Lemma fold_escapes d l s : Forall (fun on => str_has d on.2 = false) l -> (str_has d s = false \/ String d "" ∈ l.*1) ->
  str_has d (foldl (fun s on => ReplaceAll s on.1 on.2) s l) = false.
Proof.
  intros Hl. revert s. induction Hl as [|[old new] l Hn _ IH]; intros s Hs; cbn.
  - by destruct Hs as [Hs|Hs%not_elem_of_nil].
  - apply IH. cbn in Hs. rewrite elem_of_cons in Hs. destruct Hs as [Hs|[Hs|Hs]]; [left; by apply ReplaceAll_keeps_out| |by right].
    left. rewrite <-Hs. by apply ReplaceAll_takes_out.
Qed.

Definition control (c : ascii) : bool := (N_of_ascii c <? 32)%N || (N_of_ascii c =? 127)%N.
Lemma escapes_control c : control c = true ->
  forallb (fun on => negb (str_has c on.2)) escapes && existsb (fun on => bool_decide (on.1 = String c "")) escapes = true.
Proof. each_byte c. Qed.

Lemma clean_control c s : control c = true -> str_has c (escapeLogContent s) = false.
Proof.
  intros [H1 H2]%escapes_control%andb_prop. apply fold_escapes.
  - apply Forall_forall. intros on Hin. rewrite forallb_forall in H1. apply list_elem_of_In in Hin.
    specialize (H1 on Hin). by destruct (str_has c on.2).
  - right. apply existsb_exists in H2 as (on & Hin & E). apply bool_decide_eq_true in E. rewrite <-E.
    apply list_elem_of_fmap. exists on. by rewrite list_elem_of_In.
Qed.

(** Calls, each with its own environment. *)
Definition run_calls (calls : list (ExecEnv * gmap string string)) : exec_state :=
  foldl (fun s ec => (ExecuteNode_Execute ec.1 ec.2 s).2) (mkExec "" []) calls.
Definition logged (ev : exec_event) : option string := match ev with Logged line => Some line | Started _ _ => None end.

(** The line behind which a command of [calls] starts, and the commands of
    calls that have no log: the process found no home directory. *)
Definition started_by (calls : list (ExecEnv * gmap string string)) (c : string) (t : Z) (line : string) : Prop :=
  exists e params, (e, params) ∈ calls /\ ee_audit_file e <> "" /\ permitted e params c t /\ line = log_line e c.
Definition unlogged_by (calls : list (ExecEnv * gmap string string)) (c : string) (t : Z) : Prop :=
  exists e params, (e, params) ∈ calls /\ ee_audit_file e = "" /\ permitted e params c t.

(** The history, newest first: every start follows its line, or is of a call
    without a log. *)
Fixpoint audited_history (started : string -> Z -> string -> Prop) (unlogged : string -> Z -> Prop) (evs : list exec_event) : Prop :=
  match evs with
  | [] => True
  | Logged _ :: evs => audited_history started unlogged evs
  | Started c t :: evs =>
      match evs with Logged line :: evs' => started c t line /\ audited_history started unlogged evs' | _ => False end \/
      unlogged c t /\ audited_history started unlogged evs
  end.
Lemma audited_history_mono (P Q : string -> Z -> string -> Prop) (U V : string -> Z -> Prop) evs :
  (forall c t l, P c t l -> Q c t l) -> (forall c t, U c t -> V c t) -> audited_history P U evs -> audited_history Q V evs.
Proof.
  intros H HU. induction evs as [evs IH] using (induction_ltof1 _ length). unfold ltof in IH. destruct evs as [|[l|c t] evs]; [done|..].
  - cbn. apply IH. cbn. lia.
  - cbn [audited_history]. intros [Hl|[Hu Hr]].
    + left. destruct evs as [|[l|c' t'] evs]; [done| |done]. destruct Hl as [H1 H2]. split; [by apply H|]. apply IH; [cbn; lia|done].
    + right. split; [by apply HU|]. apply IH; [cbn; lia|done].
Qed.

(** C34: no command starts that is not permitted, and none whose line has not
    been written to the audit log directly before, unless its call has no log
    at all: the code leaves the name of the file empty when it finds no home
    directory, and then writes nothing ([unlogged_without_home]). *)
Theorem started_after_log calls :
  audited_history (started_by calls) (unlogged_by calls) (es_events (run_calls calls)).
Proof.
  unfold run_calls. induction calls as [|[e params] calls IH] using rev_ind; [done|].
  rewrite foldl_app. cbn [foldl fst snd]. set (s := foldl _ _ _) in *.
  assert (audited_history (started_by (calls ++ [(e, params)])%list) (unlogged_by (calls ++ [(e, params)])%list) (es_events s)) as Hs.
  { eapply audited_history_mono; [| |exact IH].
    - intros c t l (e' & p' & Hin & Hp). exists e', p'. rewrite elem_of_app. tauto.
    - intros c t (e' & p' & Hin & Hp). exists e', p'. rewrite elem_of_app. tauto. }
  destruct (Execute_steps e params s) as [->|[->|(t & -> & Hp & _)]]; [done|by case_decide|].
  case_decide as Hf; cbn [app audited_history]; [right|left]; (split; [|done]); exists e, params;
    rewrite elem_of_app, list_elem_of_singleton; auto.
Qed.

Definition line_text (e : ExecEnv) (command : string) : string :=
  "[" +:+ ee_now e +:+ "] " +:+ escapeLogContent (redactCommandForLog command).
Lemma log_line_text e c : log_line e c = line_text e c +:+ newline.
Proof. unfold log_line, line_text. by rewrite <-!string_app_assoc. Qed.
Lemma line_text_clean e c : str_has LF (ee_now e) = false -> str_has LF (line_text e c) = false.
Proof. intros H. unfold line_text. rewrite !str_has_app, H. cbn [str_has orb]. rewrite clean_control; [done|by vm_compute]. Qed.

Definition join_lines (texts : list string) : string := foldr (fun t rest => t +:+ newline +:+ rest) "" texts.
Lemma join_lines_snoc texts t : join_lines (texts ++ [t]) = join_lines texts +:+ t +:+ newline.
Proof. induction texts as [|u texts IH]; [done|].
  change (u +:+ newline +:+ join_lines (texts ++ [t])%list = (u +:+ newline +:+ join_lines texts) +:+ t +:+ newline).
  by rewrite IH, <-!string_app_assoc. Qed.
Lemma split_join_lines texts : Forall (fun t => str_has LF t = false) texts ->
  split_char LF (join_lines texts) = (texts ++ [""])%list.
Proof.
  induction 1 as [|t texts Ht _ IH]; [done|]. cbn [join_lines foldr]. fold (join_lines texts).
  change (newline +:+ join_lines texts) with (String LF (join_lines texts)).
  by rewrite split_char_app, split_char_none, IH.
Qed.

(** With a log that can be written, a call writes nothing or one line. *)
Lemma Execute_log e params s : ee_audit_file e <> "" -> ee_write e = None ->
  let s' := (ExecuteNode_Execute e params s).2 in let c := default "" (params !! "command") in
  es_log s' = es_log s /\ es_events s' = es_events s \/
  es_log s' = es_log s +:+ log_line e c /\
    (es_events s' = Logged (log_line e c) :: es_events s \/ exists t, es_events s' = Started c t :: Logged (log_line e c) :: es_events s).
Proof.
  intros Hf Hw. cbn zeta. unfold ExecuteNode_Execute. destruct (ee_safe e) eqn:Hsafe; [by left|]. case_decide as Hc; [by left|].
  destruct (4096 <? _)%Z; [by left|]. destruct (10 <? _)%nat; [by left|].
  destruct (existsb long_param _) eqn:Hl; [by left|].
  destruct (if ee_allowlist e then check_command _ else Ok ()) as [[]|err] eqn:Hk; [|by left].
  unfold auditLog. rewrite decide_False by done. destruct (ee_mkdir e); [by left|]. destruct (ee_open e); [by left|]. rewrite Hw.
  right. case_bool_decide as Hd; [split; [done|by left]|]. set (t := run_timeout _).
  destruct (rr_err _); [destruct (rr_deadline _)|]; (split; [done|right; by exists t]).
Qed.

Lemma entries_logged l evs : omap logged (rev (Logged l :: evs)) = (omap logged (rev evs) ++ [l])%list.
Proof. cbn [rev]. by rewrite omap_app. Qed.
Lemma entries_started c t evs : omap logged (rev (Started c t :: evs)) = omap logged (rev evs).
Proof. cbn [rev]. rewrite omap_app. apply app_nil_r. Qed.

(** the log holds one line for every entry, in order, whatever the commands
    contain. *)
Theorem audit_log_lines calls :
  Forall (fun ec => ee_audit_file ec.1 <> "" /\ ee_write ec.1 = None /\ str_has LF (ee_now ec.1) = false) calls ->
  let s := run_calls calls in exists texts,
  omap logged (rev (es_events s)) = (fun t => t +:+ newline) <$> texts /\ split_char LF (es_log s) = (texts ++ [""])%list.
Proof.
  intros H. cbn zeta. cut (exists texts, Forall (fun t => str_has LF t = false) texts /\
    omap logged (rev (es_events (run_calls calls))) = (fun t => t +:+ newline) <$> texts /\ es_log (run_calls calls) = join_lines texts).
  { intros (texts & Ht & E1 & E2). exists texts. rewrite E2. by rewrite split_join_lines. }
  unfold run_calls. induction calls as [|[e params] calls IH] using rev_ind; [by exists []|].
  rewrite Forall_app, Forall_singleton in H. destruct H as [H (Hf & Hw & Hn)]. specialize (IH H) as (texts & Ht & E1 & E2).
  rewrite foldl_app. cbn [foldl fst snd] in *. set (s := foldl _ _ _) in *. set (c := default "" (params !! "command")).
  destruct (Execute_log e params s Hf Hw) as [[Hl He]|[Hl He]].
  { rewrite Hl, He. by exists texts. }
  exists (texts ++ [line_text e c])%list. split_and!.
  - apply Forall_app. split; [done|]. apply Forall_singleton. by apply line_text_clean.
  - rewrite fmap_app, <-E1. destruct He as [->|[t ->]]; rewrite ?entries_started, entries_logged, log_line_text; reflexivity.
  - rewrite Hl, E2, join_lines_snoc. fold c. by rewrite log_line_text.
Qed.

(** *** Redacted assignments *)

Lemma span_chars_spec p s : let '(a, b) := span_chars p s in
  s = a +:+ b /\ str_forall p a = true /\ match b with String c _ => p c = false | "" => True end.
Proof.
  induction s as [|c s IH]; [done|]. cbn. destruct (p c) eqn:E; [|by rewrite E].
  destruct (span_chars p s) as [a b]. destruct IH as (-> & H1 & H2). cbn. by rewrite E.
Qed.
Lemma span_chars_app p a b : str_forall p a = true -> span_chars p (a +:+ b) = (a +:+ (span_chars p b).1, (span_chars p b).2).
Proof.
  induction a as [|c a IH]; cbn; [by destruct (span_chars p b)|]. intros [Hc Ha]%andb_prop. by rewrite Hc, IH.
Qed.
Lemma span_chars_stop p b : match b with String c _ => p c = false | "" => True end -> span_chars p b = ("", b).
Proof. destruct b as [|c b]; [done|]. cbn. by intros ->. Qed.

(** The end of an assigned name. *)
Definition eq_char : ascii := "="%char.
Lemma lower_eq c : (lower_byte c = eq_char <-> c = eq_char) /\ (N_of_ascii eq_char <> 0xBF /\ N_of_ascii eq_char <> 0x84 /\ N_of_ascii eq_char <> 0xAA /\ N_of_ascii eq_char <> 0xC5 /\ N_of_ascii eq_char <> 0xE2)%N.
Proof. split; [|done]. split; [|by intros ->]. intros H. destruct c as [[] [] [] [] [] [] [] []]; vm_compute in H; try discriminate; done. Qed.

(** What a matcher does with a text whose first [=] follows [x] does not
    depend on what comes behind it. *)
Definition decided (m : string -> option string) (x : string) : Prop :=
  (forall r, m (x +:+ String eq_char r) = None) \/
  exists x', str_has eq_char x' = false /\ forall r, m (x +:+ String eq_char r) = Some (x' +:+ String eq_char r).

Lemma str_has_cons_false c s x : str_has c (String x s) = false -> x <> c /\ str_has c s = false.
Proof. cbn. intros [H1 H2]%orb_false_iff. by apply bool_decide_eq_false in H1. Qed.

Lemma ci_char_decided c x : c <> eq_char -> str_has eq_char x = false -> decided (ci_char c) x.
Proof.
  intros Hc Hx. destruct (lower_eq c) as [_ (N1 & N2 & N3 & N4 & N5)].
  assert (forall n, N_of_ascii eq_char <> n -> bool_decide (N_of_ascii eq_char = n) = false) as Hn by (intros n ?; by apply bool_decide_eq_false).
  destruct x as [|y x].
  { left. intros r. cbn [String.append ci_char]. rewrite bool_decide_eq_false_2 by (intros E; apply Hc; by rewrite <-E).
    destruct r as [|y r]; [done|]. rewrite (Hn _ N4), andb_false_r. cbn [andb]. destruct r as [|z r]; [done|].
    by rewrite (Hn _ N5), andb_false_r. }
  apply str_has_cons_false in Hx as [Hy Hx]. unfold decided. cbn [String.append ci_char].
  destruct (bool_decide (lower_byte y = c)); [right; by exists x|].
  destruct x as [|z x].
  { left. intros r. cbn [String.append]. rewrite (Hn _ N1), andb_false_r. destruct r; [done|]. by rewrite (Hn _ N2), andb_false_r. }
  apply str_has_cons_false in Hx as [Hz Hx]. cbn [String.append].
  destruct (_ && _ && _); [right; by exists x|]. destruct x as [|w x].
  { left. intros r. cbn [String.append]. by rewrite (Hn _ N3), andb_false_r. }
  apply str_has_cons_false in Hx as [Hw Hx]. cbn [String.append]. destruct (_ && _ && _ && _); [right; by exists x|by left].
Qed.

Lemma ci_lit_decided l x : str_has eq_char l = false -> str_has eq_char x = false -> decided (ci_lit l) x.
Proof.
  revert x. induction l as [|c l IH]; intros x Hl Hx; [right; by exists x|].
  apply str_has_cons_false in Hl as [Hc Hl]. cbn [ci_lit]. destruct (ci_char_decided c x Hc Hx) as [H|(x' & Hx' & H)].
  - left. intros r. by rewrite H.
  - destruct (IH x' Hl Hx') as [H2|(x'' & Hx'' & H2)]; [left|right; exists x''; split; [done|]]; intros r; rewrite H; apply H2.
Qed.

(** A name is found, or not, whatever is assigned. *)
Definition named (m : string -> option string) (x : string) : Prop :=
  (forall r, m (x +:+ String eq_char r) = None) \/ (forall r, m (x +:+ String eq_char r) = Some r).

Lemma ci_lit_app l l' s : ci_lit (l +:+ l') s = ci_lit l s ≫= ci_lit l'.
Proof. revert s. induction l as [|c l IH]; intros s; [done|]. cbn. destruct (ci_char c s); [apply IH|done]. Qed.
Lemma ci_eq_found x r : str_has eq_char x = false ->
  ci_lit "=" (x +:+ String eq_char r) = if decide (x = "") then Some r else None.
Proof.
  intros Hx. destruct x as [|y x]; [done|]. apply str_has_cons_false in Hx as [Hy Hx]. cbn [String.append ci_lit ci_char].
  rewrite bool_decide_eq_false_2 by (intros E; by apply (proj1 (lower_eq y)) in E). destruct x as [|z x]; cbn [String.append].
  - cbn. by destruct r.
  - assert (bool_decide ("="%char = "s"%char) = false /\ bool_decide ("="%char = "k"%char) = false) as [-> H] by done.
    cbn [andb]. destruct x as [|w x]; cbn [String.append]; by rewrite H.
Qed.
Lemma ci_lit_named l x : str_has eq_char l = false -> str_has eq_char x = false -> named (ci_lit (l +:+ "=")) x.
Proof.
  intros Hl Hx. destruct (ci_lit_decided l x Hl Hx) as [H|(x' & Hx' & H)].
  - left. intros r. by rewrite ci_lit_app, H.
  - destruct (decide (x' = "")) as [->|Hne]; [right|left]; intros r; rewrite ci_lit_app, H; cbn [mbind option_bind].
    + by rewrite ci_eq_found.
    + by rewrite ci_eq_found, decide_False.
Qed.
Lemma api_key_named x : str_has eq_char x = false -> named match_api_key x.
Proof.
  intros Hx. unfold named, match_api_key. destruct (ci_lit_decided "api" x eq_refl Hx) as [H|(x' & Hx' & H)].
  { left. intros r. by rewrite H. }
  destruct x' as [|c x'].
  - left. intros r. rewrite H. cbn [mbind option_bind String.append]. by destruct r as [|[[] [] [] [] [] [] [] []] []].
  - apply str_has_cons_false in Hx' as [Hc Hx']. case_eq (bool_decide (c = "_"%char \/ c = "-"%char)); intros Ec.
    + destruct (ci_lit_named "key" x' eq_refl Hx') as [H2|H2]; [left|right]; intros r; rewrite H; cbn [mbind option_bind String.append]; rewrite Ec; apply H2.
    + assert (str_has eq_char (String c x') = false) as Hx'' by (cbn; by rewrite bool_decide_eq_false_2).
      destruct (ci_lit_named "key" _ eq_refl Hx'') as [H2|H2]; [left|right]; intros r; rewrite H; cbn [mbind option_bind String.append]; rewrite Ec; apply H2.
Qed.
Lemma first_some_named (fs : list (string -> option string)) x : Forall (fun f => named f x) fs -> named (fun s => first_some (fun f => f s) fs) x.
Proof.
  induction 1 as [|f fs [H|H] _ IH]; [by left| |right; intros r; cbn; by rewrite H].
  destruct IH as [IH|IH]; [left|right]; intros r; cbn; rewrite H; apply IH.
Qed.
Lemma match_name_named x : str_has eq_char x = false -> named match_name x.
Proof.
  intros Hx. apply (first_some_named [match_api_key; ci_lit ("password" +:+ "="); ci_lit ("passwd" +:+ "="); ci_lit ("token" +:+ "="); ci_lit ("secret" +:+ "=")]).
  repeat (apply Forall_cons_2; [first [by apply api_key_named|by apply ci_lit_named]|]). apply Forall_nil_2.
Qed.

(** Not a blank. *)
Definition nonblank (c : ascii) : bool := negb (re_blank c).

Lemma consumed_app a b : consumed (a +:+ b) b = a.
Proof. unfold consumed. rewrite string_length_app, Nat.add_sub. apply str_take_app. Qed.

Section replacing.
Context (m : string -> option (string * string)).
Hypothesis m_shorter : forall s new rest, m s = Some (new, rest) -> (String.length rest < String.length s)%nat.

Lemma replace_matches_fuel f f' s : (String.length s <= f)%nat -> (String.length s <= f')%nat ->
  replace_matches m f s = replace_matches m f' s.
Proof using m_shorter.
  revert f' s. induction f as [|f IH]; intros f' s H H'.
  - destruct s; [|cbn in H; lia]. destruct f'; [done|]. cbn. destruct (m "") as [[new rest]|] eqn:E; [|done].
    apply m_shorter in E. cbn in E. lia.
  - destruct f' as [|f'].
    + destruct s; [|cbn in H'; lia]. cbn. destruct (m "") as [[new rest]|] eqn:E; [|done]. apply m_shorter in E. cbn in E. lia.
    + cbn. destruct (m s) as [[new rest]|] eqn:E; [f_equal; apply m_shorter in E; apply IH; lia|].
      destruct s as [|c s]; [done|]. f_equal. cbn in H, H'. apply IH; lia.
Qed.
Lemma ReplaceAllMatches_match s new rest : m s = Some (new, rest) -> ReplaceAllMatches m s = new +:+ ReplaceAllMatches m rest.
Proof using m_shorter.
  intros H. unfold ReplaceAllMatches. pose proof (m_shorter _ _ _ H). destruct (String.length s) as [|n] eqn:E; [lia|].
  cbn. rewrite H. f_equal. apply replace_matches_fuel; lia.
Qed.
Lemma ReplaceAllMatches_skip c s : m (String c s) = None -> ReplaceAllMatches m (String c s) = String c (ReplaceAllMatches m s).
Proof. intros H. unfold ReplaceAllMatches. cbn. by rewrite H. Qed.
End replacing.

Lemma ci_char_shorter c s r : ci_char c s = Some r -> (String.length r < String.length s)%nat.
Proof.
  destruct s as [|x s]; [done|]. cbn [ci_char]. destruct (bool_decide _); [intros [= <-]; cbn; lia|].
  destruct s as [|y s]; [done|]. destruct (_ && _ && _); [intros [= <-]; cbn; lia|].
  destruct s as [|z s]; [done|]. destruct (_ && _ && _ && _); [|done]. intros [= <-]. cbn. lia.
Qed.
Lemma ci_lit_shorter l s r : ci_lit l s = Some r -> (String.length r <= String.length s)%nat.
Proof.
  revert s. induction l as [|c l IH]; intros s; cbn; [intros [= <-]; lia|]. destruct (ci_char c s) as [t|] eqn:E; [|done].
  intros H%IH. apply ci_char_shorter in E. lia.
Qed.
Lemma first_some_Some {A B} (f : A -> option B) l y : first_some f l = Some y -> exists x, x ∈ l /\ f x = Some y.
Proof.
  induction l as [|x l IH]; [done|]. cbn. destruct (f x) as [z|] eqn:E.
  - intros [= ->]. exists x. split; [by left|done].
  - intros H. destruct (IH H) as (x' & Hx & Hf). exists x'. split; [by right|done].
Qed.
Lemma match_name_shorter s r : match_name s = Some r -> (String.length r <= String.length s)%nat.
Proof.
  intros (f & Hf & H)%first_some_Some. rewrite !elem_of_cons in Hf. destruct Hf as [->|Hf].
  - unfold match_api_key in H. destruct (ci_lit "api" s) as [t|] eqn:E; [|done]. apply ci_lit_shorter in E. cbn [mbind option_bind] in H.
    destruct t as [|c t]; [done|]. destruct (bool_decide _); apply ci_lit_shorter in H; cbn in *; lia.
  - destruct Hf as [->|[->|[->|[->|Hf%not_elem_of_nil]]]]; [by eapply ci_lit_shorter..|done].
Qed.
Lemma assignment_shorter s new rest : match_assignment s = Some (new, rest) -> (String.length rest < String.length s)%nat.
Proof.
  unfold match_assignment. destruct (match_name s) as [r|] eqn:E; [|done]. cbn [mbind option_bind].
  pose proof (span_chars_spec (fun c => negb (re_blank c)) r) as Hs. destruct (span_chars _ r) as [secret r'].
  destruct Hs as (-> & _ & _). case_decide as Hn; [done|]. intros [= _ <-]. apply match_name_shorter in E.
  rewrite string_length_app in E. destruct secret; [done|]. cbn in E. lia.
Qed.

(** At an assignment: nothing, if no name ends there; and otherwise the value
    is replaced. *)
Lemma assignment_at x : str_has eq_char x = false ->
  (forall r, match_assignment (x +:+ String eq_char r) = None) \/
  forall r, match_assignment (x +:+ String eq_char r) =
    let '(secret, r') := span_chars nonblank r in if decide (secret = "") then None else Some (x +:+ "=****", r').
Proof.
  intros Hx. unfold match_assignment. destruct (match_name_named x Hx) as [H|H]; [left|right]; intros r; rewrite H; [done|].
  cbn [mbind option_bind]. change (String eq_char r) with ("=" +:+ r). rewrite <-string_app_assoc, consumed_app.
  fold nonblank. destruct (span_chars nonblank r) as [secret r']. by rewrite string_app_assoc.
Qed.

Definition ends_value (post : string) : Prop := match post with String c _ => re_blank c = true | "" => True end.

Lemma span_value a b : str_forall nonblank a = true -> ends_value b -> span_chars nonblank (a +:+ b) = (a, b).
Proof.
  intros Ha Hb. rewrite span_chars_app, span_chars_stop by (done || (destruct b; [done|]; cbn in *; unfold nonblank; by rewrite Hb)).
  cbn. by rewrite string_app_nil_r.
Qed.

Lemma str_has_split c s : str_has c s = true -> exists x q, s = x +:+ String c q /\ str_has c x = false.
Proof.
  induction s as [|d s IH]; [done|]. cbn. case_bool_decide as Hd; [intros _; subst d; by exists "", s|].
  intros H%IH. destruct H as (x & q & -> & Hx). exists (String d x), q. split; [done|]. cbn. by rewrite bool_decide_eq_false_2.
Qed.

Lemma last_blank q : str_forall nonblank q = true \/ exists u v, q = u +:+ v /\ v <> "" /\ ends_value v /\ str_forall nonblank u = true.
Proof.
  pose proof (span_chars_spec nonblank q) as H. destruct (span_chars nonblank q) as [u v]. destruct H as (-> & Hu & Hv).
  destruct v as [|c v]; [left; by rewrite string_app_nil_r|]. right. exists u, (String c v). split_and!; [done..| |done].
  cbn. unfold nonblank in Hv. by destruct (re_blank c).
Qed.

(** the redaction of assignments hides the value: whatever stands around
    it, the result is the same for two values. *)
Theorem assignments_hidden pre name value value' post :
  str_has eq_char name = false -> str_forall nonblank name = true -> match_name (name +:+ "=") = Some "" ->
  value <> "" -> value' <> "" -> str_forall nonblank value = true -> str_forall nonblank value' = true -> ends_value post ->
  ReplaceAllMatches match_assignment (pre +:+ name +:+ "=" +:+ value +:+ post) =
  ReplaceAllMatches match_assignment (pre +:+ name +:+ "=" +:+ value' +:+ post).
Proof.
  intros Hname Hnb Hm Hv Hv' Hb Hb' Hpost.
  assert (forall r, match_name (name +:+ String eq_char r) = Some r) as Hn.
  { destruct (match_name_named name Hname) as [H|H]; [|done]. specialize (H ""). change (String eq_char "") with "=" in H. congruence. }
  set (text p v := p +:+ name +:+ "=" +:+ v +:+ post). change (ReplaceAllMatches match_assignment (text pre value) =
    ReplaceAllMatches match_assignment (text pre value')).
  induction pre as [pre IH] using (induction_ltof1 _ String.length). unfold ltof in IH.
  (* the same match at both texts *)
  assert (forall new rest rest', match_assignment (text pre value) = Some (new, rest) -> match_assignment (text pre value') = Some (new, rest') ->
    ReplaceAllMatches match_assignment rest = ReplaceAllMatches match_assignment rest' ->
    ReplaceAllMatches match_assignment (text pre value) = ReplaceAllMatches match_assignment (text pre value')) as Hsame.
  { intros new rest rest' E E' H. rewrite (ReplaceAllMatches_match _ assignment_shorter _ _ _ E).
    by rewrite (ReplaceAllMatches_match _ assignment_shorter _ _ _ E'), H. }
  (* no match at either *)
  assert (match_assignment (text pre value) = None -> match_assignment (text pre value') = None -> pre <> "" ->
    ReplaceAllMatches match_assignment (text pre value) = ReplaceAllMatches match_assignment (text pre value')) as Hskip.
  { intros E E' Hne. destruct pre as [|c p]; [done|]. unfold text in *. cbn [String.append] in *.
    rewrite !ReplaceAllMatches_skip by done. f_equal. apply IH. cbn. lia. }
  destruct (str_has eq_char pre) eqn:Hp.
  - apply str_has_split in Hp as (x & q & -> & Hx).
    assert (forall v, text (x +:+ String eq_char q) v = x +:+ String eq_char (q +:+ name +:+ "=" +:+ v +:+ post)) as Ht
      by (intros v; unfold text; by rewrite string_app_assoc).
    assert (x +:+ String eq_char q <> "") as Hne by (by destruct x).
    destruct (assignment_at x Hx) as [H|H]; [apply Hskip; [by rewrite Ht, H..|done]|].
    destruct (last_blank q) as [Hq|(u & w & -> & Hw & Hw' & Hu)].
    + assert (forall v, v <> "" -> str_forall nonblank v = true -> match_assignment (text (x +:+ String eq_char q) v) = Some (x +:+ "=****", post)) as Hmatch.
      { intros v Hvne Hvb. rewrite Ht, H. rewrite <-!string_app_assoc. rewrite span_value; [|by rewrite !str_forall_app, Hq, Hnb|done].
        rewrite decide_False; [done|]. by destruct q, name, v. }
      by eapply Hsame; [by apply Hmatch..|].
    + assert (forall v, match_assignment (text (x +:+ String eq_char (u +:+ w)) v) =
        if decide (u = "") then None else Some (x +:+ "=****", text w v)) as Hmatch.
      { intros v. rewrite Ht, H, string_app_assoc, span_value; [done|done|]. destruct w; [done|]. exact Hw'. }
      destruct (decide (u = "")) as [->|Hune]; [by apply Hskip|].
      eapply Hsame; [by apply Hmatch..|]. apply IH. rewrite !string_length_app. cbn. rewrite string_length_app. destruct u; [done|cbn; lia].
  - assert (str_has eq_char (pre +:+ name) = false) as Hx by (by rewrite str_has_app, Hp, Hname).
    assert (forall v, text pre v = (pre +:+ name) +:+ String eq_char (v +:+ post)) as Ht by (intros v; unfold text; by rewrite string_app_assoc).
    destruct (assignment_at _ Hx) as [H|H].
    + apply Hskip; [by rewrite Ht, H..|]. intros ->. specialize (H value). change ("" +:+ name) with name in H.
      unfold match_assignment in H. rewrite Hn in H. cbn [mbind option_bind] in H. fold nonblank in H.
      pose proof (span_value value "" Hb I) as Hs. rewrite string_app_nil_r in Hs. rewrite Hs, decide_False in H; done.
    + assert (forall v, v <> "" -> str_forall nonblank v = true -> match_assignment (text pre v) = Some ((pre +:+ name) +:+ "=****", post)) as Hmatch.
      { intros v Hvne Hvb. rewrite Ht, H, span_value by done. by rewrite decide_False. }
      by eapply Hsame; [by apply Hmatch..|].
Qed.

(** *** Gaps of the redaction *)

(** Of a header with basic authentication only the scheme is replaced. *)
Theorem basic_credentials_logged :
  redactCommandForLog "curl -H Authorization: Basic dXNlcjpwYXNz" = "curl -H Authorization: **** dXNlcjpwYXNz".
Proof. reflexivity. Qed.
(** So is only the first word of a quoted value. *)
Theorem quoted_secret_logged : redactCommandForLog "x --password='correct horse'" = "x --password=**** horse'".
Proof. reflexivity. Qed.

(** ** Concrete runs *)

Definition demo_env : ExecEnv :=
  mkExecEnv false true "/home/u/.config/aflare/audit.log" None None None "2026-08-30T00:00:00Z" (fun c _ => mkRun c None false).
Definition demo_params : gmap string string := {["command" := "echo token=abc"; "timeout" := "2h"]}.
Definition demo_unsafe : ExecEnv := mkExecEnv false false "/log" None None None "now" (fun c _ => mkRun c None false).
Definition demo_newline : gmap string string := {["command" := "echo a" +:+ newline +:+ "echo b"]}.

Example demo_run : (run_calls [(demo_env, {["command" := "ls -l"]}); (demo_env, {["command" := "rm -r x"]})]).(es_events) =
  [Started "ls -l" (5 * Minute); Logged ("[2026-08-30T00:00:00Z] ls -l" +:+ newline)].
Proof. by vm_compute. Qed.

Lemma started_after_log_witness : let calls := [(demo_env, {["command" := "ls -l"; "timeout" := "2h"]})] in
  audited_history (started_by calls) (unlogged_by calls)
    [Started "ls -l" (30 * Minute); Logged ("[2026-08-30T00:00:00Z] ls -l" +:+ newline)].
Proof. exact (started_after_log [(demo_env, {["command" := "ls -l"; "timeout" := "2h"]})]). Defined.

(** Without a home directory the name of the log is empty, and a command runs
    with no line written, where the code says that commands cannot run without
    an audit trail. *)
Theorem unlogged_without_home :
  es_events (run_calls [(mkExecEnv false true "" None None None "now" (fun c _ => mkRun c None false), {["command" := "ls -l"]})]) =
    [Started "ls -l" (5 * Minute)].
Proof. by vm_compute. Qed.

Lemma audit_log_lines_witness : exists texts, length texts = 1 /\
  split_char LF (es_log (run_calls [(demo_unsafe, demo_newline)])) = (texts ++ [""])%list.
Proof.
  destruct (audit_log_lines [(demo_unsafe, demo_newline)] ltac:(repeat constructor; discriminate)) as (texts & E1 & E2).
  exists texts. split; [|exact E2]. apply (f_equal length) in E1. rewrite length_fmap in E1. rewrite <-E1. reflexivity.
Defined.

Lemma checked_words_witness : Fields "grep -r  foo" = ["grep"; "-r"; "foo"].
Proof. exact (checked_words "grep -r  foo" eq_refl). Defined.

Lemma assignments_hidden_witness :
  ReplaceAllMatches match_assignment "call api_key=abc now" = ReplaceAllMatches match_assignment "call api_key=something now" /\
  ReplaceAllMatches match_assignment "call api_key=abc now" = "call api_key=**** now".
Proof.
  split; [|reflexivity].
  exact (assignments_hidden "call " "api_key" "abc" "something" " now" eq_refl eq_refl eq_refl
    ltac:(discriminate) ltac:(discriminate) eq_refl eq_refl eq_refl).
Defined.
