(* ===== verification/Condition.v ===== *)
(** * Conditions (src/internal/nodes/condition.go)

    The condition node, the cache of compiled patterns and the pool of
    matching goroutines.  The regexp library is a parameter: a pattern compiles
    or not, and a compiled one ends with an answer, panics, or runs on.  Calls,
    their goroutines and the timers are interleaved by a step relation. *)

From S2P Require Import Prelude GoStrings.
From Stdlib Require Import Ascii.

#[local] Open Scope string_scope.

(** ** Definitions *)

Definition maxRegexPatternLength : Z := 512.
Definition maxRegexInputLength : Z := 1024 * 1024.
Definition maxRegexCacheSize : nat := 1000.
Definition maxConcurrentRegex : nat := 100.

Section conditions.
Context (SafeRegexMatch : string -> string -> result bool).

Definition evalPositive (expr input : string) : result bool :=
  if decide (expr = "empty") then Ok (bool_decide (input = "")) else
  if decide (expr = "not_empty") then Ok (bool_decide (input <> "")) else
  if decide (expr = "true") then Ok true else
  if decide (expr = "false") then Ok false else
  match SplitN2 expr ":" with
  | (_, None) => Err ("invalid condition format: " +:+ expr)
  | (op, Some value) =>
      if decide (op = "contains") then Ok (Contains input value) else
      if decide (op = "equals") then Ok (bool_decide (input = value)) else
      if decide (op = "starts_with") then Ok (HasPrefix input value) else
      if decide (op = "ends_with") then Ok (HasSuffix input value) else
      if decide (op = "regex") then wrap_err "regex evaluation failed: " (SafeRegexMatch value input) else
      Err ("unsupported operator: " +:+ op)
  end.

Definition node_evaluateCondition (expr input : string) : result bool :=
  let expr := TrimSpace expr in
  let input := TrimSpace input in
  if HasPrefix expr "not " then b ← evalPositive (TrimSpace (str_drop 4 expr)) input; Ok (negb b)
  else evalPositive expr input.

Definition ConditionNode_Execute (input : string) (params : gmap string string) : result string :=
  let expr := default "" (params !! "expr") in
  let expr := if decide (expr = "") then default "" (params !! "condition") else expr in
  if decide (expr = "") then Err "expr or condition parameter is required" else
  b ← wrap_err "condition evaluation failed: " (node_evaluateCondition expr input);
  Ok (if b : bool then "true" else "false").
End conditions.

(** ** The pool *)

Section pool.
(** Compiled patterns; [re_run r s] is the answer of a match that ends,
    [None] in it a panic. *)
Context {regexp : Type} (re_compile : string -> result regexp) (re_run : regexp -> string -> option (option bool)).

(** A call of [SafeRegexMatch]. *)
Inductive call_state :=
  | Called                                         (* before the lookup in the cache *)
  | Missed                                         (* before the compilation *)
  | Compiled (r : regexp)                          (* before the insertion *)
  | Queued (r : regexp)                            (* at the first select *)
  | Selecting                                      (* at the second select *)
  | Returned (res : result bool).

(** The goroutine of a call; it holds its slot until [Released]. *)
Inductive match_state :=
  | Running (r : regexp)
  | Ended (matched : bool)
  | Released (matched : bool)
  | Signalled (matched : bool).

Record call := mkCall { cl_pattern : string; cl_input : string; cl_state : call_state; cl_match : option match_state }.
Record pool := mkPool { pl_cache : gmap string regexp; pl_slots : nat; pl_calls : gmap nat call }.

(** Insertion under the lock: a full cache first loses some entry. *)
Definition cache_insert (victim p : string) (r : regexp) (cache : gmap string regexp) : gmap string regexp :=
  <[p := r]> (if (maxRegexCacheSize <=? size cache)%nat then delete victim cache else cache).

Definition slen (s : string) : Z := Z.of_nat (String.length s).
Definition too_long (pattern input : string) : option error :=
  if (maxRegexPatternLength <? slen pattern)%Z then Some "regex pattern too long" else
  if (maxRegexInputLength <? slen input)%Z then Some "regex input too long" else None.

Definition set_state (c : call) (st : call_state) : call := mkCall (cl_pattern c) (cl_input c) st (cl_match c).
Definition set_match (c : call) (m : match_state) : call := mkCall (cl_pattern c) (cl_input c) (cl_state c) (Some m).
Definition with_call (s : pool) (i : nat) (c : call) : pool := mkPool (pl_cache s) (pl_slots s) (<[i := c]> (pl_calls s)).

Inductive pool_step : pool -> pool -> Prop :=
  | step_call s i p x : pl_calls s !! i = None ->
      pool_step s (with_call s i (mkCall p x (match too_long p x with Some err => Returned (Err err) | None => Called end) None))
  | step_hit s i c r : pl_calls s !! i = Some c -> cl_state c = Called -> pl_cache s !! cl_pattern c = Some r ->
      pool_step s (with_call s i (set_state c (Queued r)))
  | step_miss s i c : pl_calls s !! i = Some c -> cl_state c = Called -> pl_cache s !! cl_pattern c = None ->
      pool_step s (with_call s i (set_state c Missed))
  | step_compile s i c : pl_calls s !! i = Some c -> cl_state c = Missed ->
      pool_step s (with_call s i (set_state c (match re_compile (cl_pattern c) with
        | Ok r => Compiled r | Err err => Returned (Err ("invalid regex: " +:+ err)) end)))
  | step_insert s i c r victim : pl_calls s !! i = Some c -> cl_state c = Compiled r ->
      ((maxRegexCacheSize <= size (pl_cache s))%nat -> is_Some (pl_cache s !! victim)) ->
      pool_step s (mkPool (cache_insert victim (cl_pattern c) r (pl_cache s)) (pl_slots s) (<[i := set_state c (Queued r)]> (pl_calls s)))
  | step_acquire s i c r : pl_calls s !! i = Some c -> cl_state c = Queued r -> (pl_slots s < maxConcurrentRegex)%nat ->
      pool_step s (mkPool (pl_cache s) (S (pl_slots s)) (<[i := set_match (set_state c Selecting) (Running r)]> (pl_calls s)))
  | step_refuse s i c r : pl_calls s !! i = Some c -> cl_state c = Queued r ->                     (* 3 seconds *)
      pool_step s (with_call s i (set_state c (Returned (Err "regex concurrency limit reached, try again later"))))
  | step_end s i c r res : pl_calls s !! i = Some c -> cl_match c = Some (Running r) -> re_run r (cl_input c) = Some res ->
      pool_step s (with_call s i (set_match c (Ended (default false res))))
  | step_release s i c b : pl_calls s !! i = Some c -> cl_match c = Some (Ended b) ->
      pool_step s (mkPool (pl_cache s) (pred (pl_slots s)) (<[i := set_match c (Released b)]> (pl_calls s)))
  | step_signal s i c b : pl_calls s !! i = Some c -> cl_match c = Some (Released b) ->
      pool_step s (with_call s i (set_match c (Signalled b)))
  | step_return s i c b : pl_calls s !! i = Some c -> cl_state c = Selecting -> cl_match c = Some (Signalled b) ->
      pool_step s (with_call s i (set_state c (Returned (Ok b))))
  | step_timeout s i c : pl_calls s !! i = Some c -> cl_state c = Selecting ->                     (* 2 seconds *)
      pool_step s (with_call s i (set_state c (Returned (Err "regex execution timed out")))).

Definition pool_init : pool := mkPool ∅ 0 ∅.
Definition reachable (s : pool) : Prop := rtc pool_step pool_init s.

(** ** Theorems *)

Definition holds_slot (c : call) : bool :=
  match cl_match c with Some (Running _) | Some (Ended _) => true | _ => false end.
Definition held (m : gmap nat call) : nat := size (filter (fun ic => holds_slot ic.2 = true) m).
Definition holders (s : pool) : nat := held (pl_calls s).

(** What holds of a call, whatever the others do. *)
Definition call_ok (c : call) : Prop :=
  match cl_state c with
  | Compiled r | Queued r => re_compile (cl_pattern c) = Ok r /\ cl_match c = None
  | Called | Missed => cl_match c = None
  | Selecting => is_Some (cl_match c)
  | Returned (Ok b) => exists r res, re_compile (cl_pattern c) = Ok r /\ re_run r (cl_input c) = Some res /\ b = default false res
  | Returned (Err _) => True
  end /\
  match cl_match c with
  | Some (Running r) => re_compile (cl_pattern c) = Ok r
  | Some (Ended b) | Some (Released b) | Some (Signalled b) =>
      exists r res, re_compile (cl_pattern c) = Ok r /\ re_run r (cl_input c) = Some res /\ b = default false res
  | None => True
  end.

Definition pool_inv (s : pool) : Prop :=
  pl_slots s = holders s /\ (pl_slots s <= maxConcurrentRegex)%nat /\ (size (pl_cache s) <= maxRegexCacheSize)%nat /\
  (forall p r, pl_cache s !! p = Some r -> re_compile p = Ok r) /\ map_Forall (fun _ => call_ok) (pl_calls s).

Definition bit (b : bool) : nat := if b then 1 else 0.

Lemma size_delete_S {A} (m : gmap nat A) i x : m !! i = Some x -> size m = S (size (delete i m)).
Proof. intros H. rewrite <-(insert_delete_id m i x H) at 1. apply map_size_insert_None, lookup_delete_eq. Qed.
Lemma size_insert_le {K} `{Countable K} {A} (m : gmap K A) i x : (size (<[i := x]> m) <= S (size m))%nat.
Proof. rewrite map_size_insert. destruct (m !! i); unfold id; lia. Qed.
Lemma held_insert m i c c' : m !! i = Some c -> held (<[i := c']> m) + bit (holds_slot c) = held m + bit (holds_slot c').
Proof.
  intros H. unfold held. set (P := fun ic : nat * call => holds_slot ic.2 = true).
  assert (filter P m !! i = if holds_slot c then Some c else None) as Hf.
  { destruct (holds_slot c) eqn:E; [by apply map_lookup_filter_Some|]. apply map_lookup_filter_None. right. intros x Hx.
    rewrite H in Hx. injection Hx as <-. unfold P. cbn. by rewrite E. }
  destruct (holds_slot c') eqn:E'.
  - rewrite map_filter_insert_True by done. destruct (holds_slot c); cbn [bit].
    + rewrite (map_size_insert_Some _ _ _ ltac:(by rewrite Hf)). lia.
    + rewrite map_size_insert_None by done. lia.
  - rewrite map_filter_insert_False by (unfold P; cbn; by rewrite E'). rewrite map_filter_delete. destruct (holds_slot c); cbn [bit].
    + pose proof (size_delete_S _ _ _ Hf). lia.
    + rewrite map_size_delete_None by done. lia.
Qed.
Lemma held_fresh m i c : m !! i = None -> holds_slot c = false -> held (<[i := c]> m) = held m.
Proof.
  intros H E. unfold held. rewrite map_filter_insert_False by (cbn; by rewrite E). by rewrite delete_id.
Qed.

Lemma cache_insert_size victim p r cache : (size cache <= maxRegexCacheSize)%nat ->
  ((maxRegexCacheSize <= size cache)%nat -> is_Some (cache !! victim)) -> (size (cache_insert victim p r cache) <= maxRegexCacheSize)%nat.
Proof.
  intros Hs Hv. unfold cache_insert. destruct (Nat.leb_spec maxRegexCacheSize (size cache)) as [Hf|Hf].
  - pose proof (size_insert_le (delete victim cache) p r). destruct (Hv Hf) as [x Hx].
    rewrite map_size_delete_Some in H by (by exists x). unfold maxRegexCacheSize in *. lia.
  - pose proof (size_insert_le cache p r). lia.
Qed.

(** A step changes the calls at one place. *)
Lemma call_ok_insert (m : gmap nat call) i c : map_Forall (fun _ => call_ok) m -> call_ok c -> map_Forall (fun _ => call_ok) (<[i := c]> m).
Proof. intros Hm Hc. by apply map_Forall_insert_2. Qed.

(** A step that leaves the slots and the goroutine alone, or moves it on
    without the slot. *)
Lemma inv_with_call s i c c' : pool_inv s -> pl_calls s !! i = Some c -> holds_slot c' = holds_slot c -> call_ok c' ->
  pool_inv (with_call s i c').
Proof.
  intros (H1 & H2 & H3 & H4 & H5) Hi Hh Hok. split_and!; [|done..|by apply call_ok_insert]. cbn. rewrite H1.
  unfold holders. cbn. pose proof (held_insert _ i c c' Hi) as H. rewrite Hh in H. lia.
Qed.

Lemma inv_call s i c : pool_inv s -> pl_calls s !! i = Some c -> call_ok c.
Proof. intros (_ & _ & _ & _ & H) Hi. by apply (H i). Qed.

(** The goroutine of a call has an answer of its match. *)
Definition answer_of (c : call) (b : bool) : Prop :=
  exists r res, re_compile (cl_pattern c) = Ok r /\ re_run r (cl_input c) = Some res /\ b = default false res.
Lemma set_match_ok c m b m' : call_ok c -> cl_match c = Some m -> answer_of c b ->
  m' = Ended b \/ m' = Released b \/ m' = Signalled b -> call_ok (set_match c m').
Proof.
  intros [Hs _] Hm Hb Hm'. split.
  - rewrite Hm in Hs. cbn. destruct (cl_state c) as [| |r|r| |[b'|err]]; first [done|by destruct Hs|by eexists].
  - cbn. by destruct Hm' as [->|[->| ->]].
Qed.

Lemma step_inv s s' : pool_inv s -> pool_step s s' -> pool_inv s'.
Proof.
  intros Hinv Hstep. pose proof Hinv as (H1 & H2 & H3 & H4 & H5).
  destruct Hstep as [s i p x Hi|s i c r Hi Hs Hc|s i c Hi Hs Hc|s i c Hi Hs|s i c r victim Hi Hs Hv|s i c r Hi Hs Hlt|s i c r Hi Hs
    |s i c r res Hi Hm Hr|s i c b Hi Hm|s i c b Hi Hm|s i c b Hi Hs Hm|s i c Hi Hs];
    try pose proof (inv_call s i c Hinv Hi) as [Hst Hmt]; try rewrite Hs in Hst; try rewrite Hm in Hmt.
  - split_and!; [|done..|]; cbn.
    + rewrite H1. unfold holders. cbn. symmetry. by apply held_fresh.
    + apply call_ok_insert; [done|]. by destruct (too_long p x).
  - eapply inv_with_call; [done..|]. split; [|done]. split; [by apply H4|done].
  - by eapply inv_with_call.
  - eapply inv_with_call; [done..|]. unfold call_ok. cbn. rewrite Hst. by destruct (re_compile (cl_pattern c)).
  - split_and!; cbn.
    + rewrite H1. unfold holders. cbn. pose proof (held_insert _ i c (set_state c (Queued r)) Hi). unfold holds_slot in *. cbn in *. lia.
    + done.
    + by apply cache_insert_size.
    + intros p r' Hp. unfold cache_insert in Hp. apply lookup_insert_Some in Hp as [[<- <-]|[_ Hp]]; [by destruct Hst|].
      destruct (_ <=? _)%nat; [apply lookup_delete_Some in Hp as [_ Hp]|]; by apply H4.
    + by apply call_ok_insert.
  - destruct Hst as [Hr Hm]. split_and!; cbn; [|unfold maxConcurrentRegex in *; lia|done..|].
    + rewrite H1. unfold holders. cbn. pose proof (held_insert _ i c (set_match (set_state c Selecting) (Running r)) Hi) as H.
      unfold holds_slot in H. rewrite Hm in H. cbn in H. lia.
    + apply call_ok_insert; [done|]. split; [by eexists|done].
  - eapply inv_with_call; [done..|]. by split.
  - eapply inv_with_call; [done|done|unfold holds_slot; cbn; by rewrite Hm|].
    eapply set_match_ok; [by eapply inv_call|done|by exists r, res|by left].
  - pose proof (held_insert _ i c (set_match c (Released b)) Hi) as H. unfold holds_slot in H. rewrite Hm in H. cbn in H.
    unfold holders in H1. split_and!; cbn; [unfold holders; cbn; lia|lia|done..|]. apply call_ok_insert; [done|].
    eapply set_match_ok; [by eapply inv_call|done|done|by right; left].
  - eapply inv_with_call; [done|done|unfold holds_slot; cbn; by rewrite Hm|].
    eapply set_match_ok; [by eapply inv_call|done|done|by right; right].
  - eapply inv_with_call; [done..|]. split; cbn; by rewrite ?Hm.
  - eapply inv_with_call; [done..|]. by split.
Qed.

Lemma pool_reachable_inv s : reachable s -> pool_inv s.
Proof.
  unfold reachable. intros H. remember pool_init as s0 eqn:E. assert (pool_inv s0) as H0.
  { subst s0. split_and!; [done|unfold maxConcurrentRegex; cbn; lia|cbn [pl_cache pool_init]; rewrite map_size_empty; lia|done|apply map_Forall_empty]. }
  clear E. induction H; [done|]. by eapply IHrtc, step_inv.
Qed.

(** C33: at any time at most 100 goroutines match, those of calls that have
    given up included, and at most 1000 patterns are cached. *)
Theorem pool_bounded s : reachable s -> (holders s <= maxConcurrentRegex)%nat /\ (size (pl_cache s) <= maxRegexCacheSize)%nat.
Proof. intros H. destruct (pool_reachable_inv s H) as (H1 & H2 & H3 & _). split; [lia|done]. Qed.

(** a call that returns an answer returns that of its own pattern and
    input, whoever compiled the pattern; a match that panicked is no match. *)
Theorem pool_answers s i c b : reachable s -> pl_calls s !! i = Some c -> cl_state c = Returned (Ok b) -> answer_of c b.
Proof. intros H Hi Hs. pose proof (inv_call s i c (pool_reachable_inv s H) Hi) as [Hst _]. by rewrite Hs in Hst. Qed.

(** while the slots are held by matches that do not end, no new match
    begins, so every later call fails. *)
Definition stuck (c : call) : Prop := exists r, cl_match c = Some (Running r) /\ re_run r (cl_input c) = None.
Definition stuck_pool (s : pool) : Prop :=
  pl_slots s = maxConcurrentRegex /\ map_Forall (fun _ c => holds_slot c = true -> stuck c) (pl_calls s).

Lemma stuck_insert s i c c' n : stuck_pool s -> pl_calls s !! i = Some c -> holds_slot c' = holds_slot c ->
  (stuck c -> stuck c') -> n = pl_slots s -> forall cache, stuck_pool (mkPool cache n (<[i := c']> (pl_calls s))).
Proof.
  intros [Hn Hs] Hi Hh Hc -> cache. split; [done|]. cbn. apply map_Forall_insert_2; [|done]. rewrite Hh. intros Hhold. by apply Hc, (Hs i).
Qed.
Theorem pool_stays_stuck s s' : stuck_pool s -> rtc pool_step s s' -> stuck_pool s'.
Proof.
  intros H Hr. induction Hr as [s|s s1 s2 Hstep _ IH]; [done|]. apply IH. clear IH s2. pose proof H as [Hn Hs].
  destruct Hstep as [s i p x Hi|s i c r Hi Hst Hc|s i c Hi Hst Hc|s i c Hi Hst|s i c r victim Hi Hst Hv|s i c r Hi Hst Hlt|s i c r Hi Hst
    |s i c r res Hi Hm Hr|s i c b Hi Hm|s i c b Hi Hm|s i c b Hi Hst Hm|s i c Hi Hst]; try by eapply stuck_insert.
  - split; [done|]. cbn. by apply map_Forall_insert_2.
  - lia.
  - destruct (Hs i c Hi) as (r' & Hm' & Hr'); [unfold holds_slot; by rewrite Hm|]. congruence.
  - destruct (Hs i c Hi) as (r' & Hm' & Hr'); [unfold holds_slot; by rewrite Hm|]. congruence.
  - eapply stuck_insert; [done|done|unfold holds_slot; cbn; by rewrite Hm| |done]. intros (r' & Hm' & _). congruence.
Qed.
End pool.

(** ** Concrete runs *)

(** A library whose only pattern panics. *)
Definition demo_compile (p : string) : result () := if decide (p = "p") then Ok () else Err "missing argument".
Definition demo_run (r : ()) (s : string) : option (option bool) := if decide (s = "loop") then None else Some None.
Definition demo_reachable : pool -> Prop := reachable demo_compile demo_run.

Tactic Notation "demo_step" uconstr(lem) := eapply rtc_l; [eapply lem; first [reflexivity|vm_compute; lia]|]; cbn [with_call pl_cache pl_slots pl_calls].

Lemma panicking_run : exists s c, demo_reachable s /\ pl_calls s !! 0 = Some c /\ cl_input c = "x" /\ cl_state c = Returned (Ok false).
Proof.
  eexists _, _. split.
  - unfold demo_reachable, reachable, pool_init. demo_step (step_call demo_compile demo_run _ 0 "p" "x").
    demo_step (step_miss demo_compile demo_run _ 0). demo_step (step_compile demo_compile demo_run _ 0).
    eapply rtc_l; [eapply (step_insert demo_compile demo_run _ 0 _ _ ""); [reflexivity|reflexivity|vm_compute; lia]|].
    demo_step (step_acquire demo_compile demo_run _ 0). demo_step (step_end demo_compile demo_run _ 0).
    demo_step (step_release demo_compile demo_run _ 0). demo_step (step_signal demo_compile demo_run _ 0).
    demo_step (step_return demo_compile demo_run _ 0). apply rtc_refl.
  - split; [reflexivity|by split].
Qed.

(** A call whose match panics returns that there is no match. *)
Theorem panic_is_no_match : exists s c, demo_reachable s /\ pl_calls s !! 0 = Some c /\ cl_state c = Returned (Ok false) /\
  demo_run () (cl_input c) = Some None.
Proof. destruct panicking_run as (s & c & H1 & H2 & H3 & H4). exists s, c. by rewrite H3. Qed.

Lemma pool_bounded_witness : exists s : @pool (), pl_calls s !! 0 <> None /\ (holders s <= maxConcurrentRegex)%nat.
Proof.
  destruct panicking_run as (s & c & H1 & H2 & _). exists s. split; [by rewrite H2|].
  exact (proj1 (pool_bounded demo_compile demo_run s H1)).
Defined.

Lemma pool_answers_witness : exists c : @call (), cl_state c = Returned (Ok false) /\ answer_of demo_compile demo_run c false.
Proof.
  destruct panicking_run as (s & c & H1 & H2 & _ & H4). exists c. split; [exact H4|].
  exact (pool_answers demo_compile demo_run s 0 c false H1 H2 H4).
Defined.

Definition demo_condition : string -> string -> result bool := node_evaluateCondition (fun p s => Ok (Contains s p)).
Example demo_conditions :
  demo_condition " not contains:b " "abc" = Ok false /\ demo_condition "not not empty" "" = Err "invalid condition format: not empty" /\
  demo_condition "equals: a" "a" = Ok false /\ demo_condition "starts_with:a:b" "a:bc" = Ok true.
Proof. by vm_compute. Qed.
