(* ===== verification/Connector.v ===== *)
(** * Connectors (src/internal/connector)

    Named data sources: the validation of a specification (spec.go), the
    registry with its file (registry.go), the resolution of credentials
    (credential.go) and the data source names of databases (dsn.go).  The
    parser of URLs, glob patterns, YAML and the rendering of a postgres URL are
    parameters. *)

From S2P Require Import Prelude GoStrings GoText GoPath.
From Stdlib Require Import Ascii.

#[local] Open Scope string_scope.

(** ** Definitions *)

Definition TypePostgres : string := "postgres".
Definition TypeMySQL : string := "mysql".
Definition TypeSQLite : string := "sqlite".
Definition TypeFiles : string := "files".
Definition TypeNotes : string := "notes".
Definition TypeHTTP : string := "http".
Definition typeNames : list string := [TypePostgres; TypeMySQL; TypeSQLite; TypeFiles; TypeNotes; TypeHTTP].

Definition AuthTypeBearer : string := "bearer".
Definition AuthTypeBasic : string := "basic".
Definition AuthTypeHeader : string := "header".

Definition DefaultMaxRows : Z := 1000.
Definition DefaultTimeoutSec : Z := 30.
Definition DefaultMaxFileBytes : Z := 10 * 1024 * 1024.
Definition notesDefaultInclude : list string := ["*.md"; "*.markdown"].
Definition CredentialKindSecret : string := "secret".
Definition CredentialKindEnv : string := "env".

Definition forbiddenAuthHeaders : list string :=
  ["host"; "content-length"; "transfer-encoding"; "connection"; "keep-alive"; "proxy-authorization"; "te"; "upgrade"].

Definition in_range (lo hi : N) (c : ascii) : bool := ((lo <=? N_of_ascii c) && (N_of_ascii c <=? hi))%N.
Definition lower_letter : ascii -> bool := in_range 97 122.
Definition digit : ascii -> bool := in_range 48 57.
Definition label_char (c : ascii) : bool := lower_letter c || digit c || bool_decide (c = "-"%char).
(** [^[a-z][a-z0-9-]{0,63}$] *)
Definition namePattern (s : string) : bool :=
  match s with
  | "" => false
  | String c s' => lower_letter c && str_forall label_char s' && (Z.of_nat (String.length s') <=? 63)%Z
  end.
(** [^[A-Za-z0-9-]+$] *)
Definition header_char (c : ascii) : bool := in_range 65 90 c || label_char c.
Definition headerNamePattern (s : string) : bool := bool_decide (s <> "") && str_forall header_char s.

Record CredentialRef := mkCredential { cr_Kind : string; cr_Group : string; cr_Key : string }.

Record Spec := mkSpec {
  sp_Name : string;
  sp_Type : string;
  sp_Host : string;
  sp_Port : Z;
  sp_Database : string;
  sp_Username : string;
  sp_Root : string;
  sp_BaseURL : string;
  sp_AuthType : string;
  sp_AuthHeader : string;
  sp_Credential : option CredentialRef;
  sp_ReadOnly : option bool;
  sp_MaxRows : Z;
  sp_TimeoutSec : Z;
  sp_MaxBytes : Z;
  sp_Include : list string
}.

Definition IsFileConnector (s : Spec) : bool := bool_decide (sp_Type s = TypeFiles \/ sp_Type s = TypeNotes).
Definition IsHTTPConnector (s : Spec) : bool := bool_decide (sp_Type s = TypeHTTP).
Definition IsReadOnly (s : Spec) : bool := default true (sp_ReadOnly s).
Definition EffectiveMaxRows (s : Spec) : Z := if (sp_MaxRows s <=? 0)%Z then DefaultMaxRows else sp_MaxRows s.
Definition EffectiveTimeoutSec (s : Spec) : Z := if (sp_TimeoutSec s <=? 0)%Z then DefaultTimeoutSec else sp_TimeoutSec s.
Definition EffectiveMaxBytes (s : Spec) : Z := if (sp_MaxBytes s <=? 0)%Z then DefaultMaxFileBytes else sp_MaxBytes s.
Definition EffectiveInclude (s : Spec) : list string :=
  if bool_decide (sp_Type s = TypeNotes /\ sp_Include s = []) then notesDefaultInclude else sp_Include s.

Record base_url_parts := mkUrlParts { up_Scheme : string; up_Host : string; up_User : bool; up_RawQuery : string; up_Fragment : string }.

Section specs.
(** [url.Parse] and [filepath.Match]. *)
Context (parse_url : string -> option base_url_parts) (glob : string -> string -> result bool).

Definition MatchInclude (s : Spec) (name : string) : bool :=
  match EffectiveInclude s with
  | [] => true
  | include => existsb (fun pattern => match glob pattern name with Ok ok => ok | Err _ => false end) include
  end.

Definition NUL : ascii := ascii_of_nat 0.
Definition validateNoNullBytes (s : Spec) : result () :=
  let fields := [sp_Name s; sp_Type s; sp_Host s; sp_Database s; sp_Username s; sp_Root s; sp_BaseURL s; sp_AuthType s;
                 sp_AuthHeader s; match sp_Credential s with Some c => cr_Key c | None => "" end] in
  if existsb (str_has NUL) fields then Err "contains null byte" else Ok ().

(** A check that fails with its message when its condition holds. *)
Definition reject_if (b : bool) (msg : error) : result () := if b then Err msg else Ok ().
Definition given (s : string) : bool := bool_decide (s <> "").
Definition is_set {A} (o : option A) : bool := match o with Some _ => true | None => false end.

Definition validate_auth (s : Spec) : result () :=
  let cred := is_set (sp_Credential s) in
  if decide (sp_AuthType s = "") then
    _ ← reject_if cred "credential requires auth_type";
    _ ← reject_if (given (sp_AuthHeader s)) "auth_header requires auth_type=header";
    reject_if (given (sp_Username s)) "username is only valid with auth_type=basic"
  else if decide (sp_AuthType s = AuthTypeBearer) then
    _ ← reject_if (negb cred) "auth_type=bearer requires a credential";
    reject_if (given (sp_Username s) || given (sp_AuthHeader s)) "username/auth_header are not valid for auth_type=bearer"
  else if decide (sp_AuthType s = AuthTypeBasic) then
    _ ← reject_if (negb cred) "auth_type=basic requires a credential";
    _ ← reject_if (negb (given (sp_Username s))) "auth_type=basic requires a username";
    reject_if (given (sp_AuthHeader s)) "auth_header is not valid for auth_type=basic"
  else if decide (sp_AuthType s = AuthTypeHeader) then
    _ ← reject_if (negb cred) "auth_type=header requires a credential";
    _ ← reject_if (given (sp_Username s)) "username is not valid for auth_type=header";
    _ ← reject_if (negb (given (sp_AuthHeader s))) "auth_header is required for auth_type=header";
    _ ← reject_if (negb (headerNamePattern (sp_AuthHeader s))) "auth_header must contain only letters, digits and hyphens";
    reject_if (bool_decide (str_map lower_byte (sp_AuthHeader s) ∈ forbiddenAuthHeaders)) "auth_header may not be set by a connector"
  else Err "unknown auth_type".

Definition validateHTTP (s : Spec) : result () :=
  _ ← reject_if (negb (given (sp_BaseURL s))) "base_url is required for type http";
  match parse_url (sp_BaseURL s) with
  | None => Err "base_url must be an absolute http(s) URL"
  | Some u =>
      _ ← reject_if (negb (given (up_Scheme u)) || negb (given (up_Host u))) "base_url must be an absolute http(s) URL";
      _ ← reject_if (negb (bool_decide (up_Scheme u = "http" \/ up_Scheme u = "https"))) "base_url scheme must be http or https";
      _ ← reject_if (up_User u) "base_url must not contain userinfo";
      _ ← reject_if (given (up_RawQuery u) || given (up_Fragment u)) "base_url must not contain a query or fragment";
      _ ← reject_if (given (sp_Host s) || bool_decide (sp_Port s <> 0%Z) || given (sp_Database s))
            "host/port/database are not valid for type http";
      _ ← reject_if (bool_decide (sp_MaxRows s <> 0%Z)) "max_rows is not valid for type http";
      validate_auth s
  end.

Definition validate_endpoint (s : Spec) : result () :=
  if decide (sp_Type s = TypePostgres \/ sp_Type s = TypeMySQL) then
    _ ← reject_if (negb (given (sp_Host s))) "host is required";
    reject_if (negb (given (sp_Database s))) "database is required"
  else if decide (sp_Type s = TypeHTTP) then validateHTTP s
  else if decide (sp_Type s = TypeSQLite) then
    _ ← reject_if (negb (given (sp_Database s))) "database (file path) is required for type sqlite";
    _ ← reject_if (HasPrefix (sp_Database s) "file:") "database must be a plain file path, not a file: URI";
    reject_if (str_has "?" (sp_Database s) || str_has "#" (sp_Database s)) "database must not contain URI parameters"
  else Ok ().

Definition validate_files (s : Spec) : result () :=
  if negb (IsFileConnector s) then
    _ ← reject_if (given (sp_Root s)) "root is only valid for files/notes";
    _ ← reject_if (bool_decide (sp_Include s <> [])) "include is only valid for files/notes";
    reject_if (bool_decide (sp_MaxBytes s <> 0%Z)) "max_bytes is only valid for files/notes"
  else
    _ ← reject_if (negb (given (sp_Root s))) "root is required";
    _ ← reject_if (negb (IsAbs (sp_Root s))) "root must be an absolute path";
    _ ← reject_if (given (sp_Host s) || bool_decide (sp_Port s <> 0%Z) || given (sp_Database s) || given (sp_Username s))
          "host/port/database/username are not valid";
    _ ← reject_if (is_set (sp_Credential s)) "credential is not supported";
    _ ← reject_if (existsb (fun pattern => negb (is_ok (glob pattern "x"))) (sp_Include s)) "bad include pattern";
    _ ← reject_if (bool_decide (sp_MaxRows s <> 0%Z)) "max_rows is not valid";
    reject_if (bool_decide (sp_TimeoutSec s <> 0%Z)) "timeout is not valid".

Definition validate_credential (c : CredentialRef) : result () :=
  if decide (cr_Kind c = CredentialKindSecret) then
    _ ← reject_if (negb (given (cr_Group c))) "credential.group is required";
    reject_if (negb (given (cr_Key c))) "credential.key is required"
  else if decide (cr_Kind c = CredentialKindEnv) then reject_if (negb (given (cr_Key c))) "credential.key (env var name) is required"
  else Err "unknown credential.kind".

Definition Validate (s : Spec) : result () :=
  _ ← reject_if (negb (namePattern (sp_Name s))) "connector name must match";
  _ ← reject_if (negb (bool_decide (sp_Type s ∈ typeNames))) "unsupported type";
  _ ← validateNoNullBytes s;
  _ ← reject_if ((sp_Port s <? 0) || (65535 <? sp_Port s))%Z "port out of range";
  _ ← validate_endpoint s;
  _ ← validate_files s;
  _ ← (match sp_Credential s with Some c => validate_credential c | None => Ok () end);
  _ ← reject_if (sp_MaxRows s <? 0)%Z "max_rows must be >= 0";
  _ ← reject_if (sp_TimeoutSec s <? 0)%Z "timeout must be >= 0";
  reject_if (sp_MaxBytes s <? 0)%Z "max_bytes must be >= 0".

(** ** Data source names *)

Definition DriverName (connType : string) : result string :=
  if decide (connType = TypePostgres) then Ok "postgres" else
  if decide (connType = TypeMySQL) then Ok "mysql" else
  if decide (connType = TypeSQLite) then Ok "sqlite3" else Err "unsupported connector type".

Definition defaultPostgresPort : Z := 5432.
Definition defaultMySQLPort : Z := 3306.
(** [net.JoinHostPort] *)
Definition JoinHostPort (host port : string) : string :=
  if str_has ":" host then "[" +:+ host +:+ "]:" +:+ port else host +:+ ":" +:+ port.
Definition port_or (p : Z) (s : Spec) : string := Itoa (if decide (sp_Port s = 0%Z) then p else sp_Port s).

(** [url.URL.String] of a postgres URL: the user and its password if there
    are, the host and the path. *)
Context (pg_url : option (string * option string) -> string -> string -> string).

Definition buildSQLiteDSN (s : Spec) : string :=
  if negb (IsReadOnly s) then sp_Database s else "file:" +:+ sp_Database s +:+ "?mode=ro".
Definition buildPostgresDSN (s : Spec) (password : string) : string :=
  pg_url (if given (sp_Username s) then Some (sp_Username s, if given password then Some password else None) else None)
    (JoinHostPort (sp_Host s) (port_or defaultPostgresPort s)) ("/" +:+ sp_Database s).
Definition buildMySQLDSN (s : Spec) (password : string) : string :=
  let auth := if given (sp_Username s) then
                if given password then sp_Username s +:+ ":" +:+ password +:+ "@" else sp_Username s +:+ "@"
              else "" in
  auth +:+ "tcp(" +:+ JoinHostPort (sp_Host s) (port_or defaultMySQLPort s) +:+ ")/" +:+ sp_Database s.
Definition BuildDSN (s : Spec) (password : string) : result (string * string) :=
  _ ← wrap_err "invalid connector spec: " (Validate s);
  if decide (sp_Type s = TypePostgres) then Ok ("postgres", buildPostgresDSN s password) else
  if decide (sp_Type s = TypeMySQL) then Ok ("mysql", buildMySQLDSN s password) else
  if decide (sp_Type s = TypeSQLite) then Ok ("sqlite3", buildSQLiteDSN s) else Err "unsupported connector type".

(** ** Credentials *)

(** [os.Getenv] and the global secrets store, which may fail to open. *)
Context (getenv : string -> string) (store : result (string -> string -> result string)).

Definition ResolveCredential (ref : CredentialRef) : result string :=
  if decide (cr_Kind ref = CredentialKindEnv) then
    let value := getenv (cr_Key ref) in
    if decide (value = "") then Err ("environment variable " +:+ cr_Key ref +:+ " is not set") else Ok value
  else if decide (cr_Kind ref = CredentialKindSecret) then
    get ← wrap_err "failed to open secrets store: " store;
    wrap_err ("secret " +:+ cr_Group ref +:+ "/" +:+ cr_Key ref +:+ ": ") (get (cr_Group ref) (cr_Key ref))
  else Err ("unknown credential kind " +:+ cr_Kind ref).
End specs.

(** ** The registry *)

(** What is at a path. *)
Inductive fs_entry := RegFile (data : string) | Dir | Link (target : string).
#[export] Instance fs_entry_eq_dec : EqDecision fs_entry.
Proof. solve_decision. Defined.
Abbreviation dir_tree := (gmap string fs_entry).

Record ConnRegistry := mkRegistry { rg_path : string; rg_specs : gmap string Spec }.

Record ConnEnv := mkConnEnv {
  ce_marshal : list Spec -> result string;         (* of the file with version 1 *)
  ce_unmarshal : string -> result (list Spec);
  (* which system calls succeed *)
  ce_read : bool;
  ce_mkdir : bool;
  ce_remove : bool;
  ce_write : option nat;                           (* how much a failing write has written *)
  ce_rename : bool
}.

Section registry.
Context (parse_url : string -> option base_url_parts) (glob : string -> string -> result bool) (e : ConnEnv).
Let Validate := Validate parse_url glob.

(** Reading and writing through a symbolic link, renaming and removing do not. *)
Definition through (path : string) (t : dir_tree) : string := match t !! path with Some (Link target) => target | _ => path end.
Definition read_through (path : string) (t : dir_tree) : option string :=
  match t !! through path t with Some (RegFile data) => Some data | _ => None end.

Fixpoint load_specs (specs : list Spec) (m : gmap string Spec) : result (gmap string Spec) :=
  match specs with
  | [] => Ok m
  | s :: specs => _ ← Validate s; load_specs specs (<[sp_Name s := s]> m)
  end.

(** A file that does not exist is an empty registry. *)
Definition LoadRegistry (path : string) (t : dir_tree) : result ConnRegistry :=
  match t !! through path t with
  | None => Ok (mkRegistry path ∅)
  | Some (RegFile data) =>
      if negb (ce_read e) then Err "failed to read connectors file" else
      specs ← wrap_err "failed to parse connectors file: " (ce_unmarshal e data);
      m ← wrap_err "connectors file: " (load_specs specs ∅);
      Ok (mkRegistry path m)
  | Some _ => Err "failed to read connectors file"
  end.

Definition name_le (a b : Spec) : Prop := String.le (sp_Name a) (sp_Name b).
#[export] Instance name_le_dec a b : Decision (name_le a b) := _.
Definition RegistryList (r : ConnRegistry) : list Spec := merge_sort name_le (snd <$> map_to_list (rg_specs r)).

Definition tmpPath (r : ConnRegistry) : string := rg_path r +:+ ".tmp".

(** The temporary file is written and renamed; [past] are the trees after
    each system call that changed something, the newest first. *)
Definition write_renamed (r : ConnRegistry) (data : string) (t : dir_tree) (past : list dir_tree) : list dir_tree * option error :=
  let tmp := tmpPath r in
  let at_ := through tmp t in
  match t !! at_ with
  | Some Dir | Some (Link _) => (past, Some "failed to write temporary file")
  | _ =>
      match ce_write e with
      | Some n => (<[at_ := RegFile (str_take n data)]> t :: past, Some "failed to write temporary file")
      | None =>
          let t := <[at_ := RegFile data]> t in
          let failed := (t :: past, Some "failed to rename temporary file") in
          if bool_decide (t !! rg_path r = Some Dir) || negb (ce_rename e) then failed else
          match t !! tmp with
          | Some f => (<[rg_path r := f]> (delete tmp t) :: t :: past, None)
          | None => failed
          end
      end
  end.

Definition RegistrySave (r : ConnRegistry) (t : dir_tree) : list dir_tree * option error :=
  match ce_marshal e (RegistryList r) with
  | Ok data =>
      if negb (ce_mkdir e) then ([], Some "failed to create directory") else
      let tmp := tmpPath r in
      match t !! tmp with
      | Some Dir => ([], Some "refusing to write temporary file: a directory already exists there")
      | Some _ =>
          if negb (ce_remove e) then ([], Some "failed to clear stale temporary file")
          else write_renamed r data (delete tmp t) [delete tmp t]
      | None => write_renamed r data t []
      end
  | Err err => ([], Some ("failed to marshal connectors: " +:+ err))
  end.

Definition RegistryGet (r : ConnRegistry) (name : string) : option Spec := rg_specs r !! name.
Definition RegistryUpsert (s : Spec) (r : ConnRegistry) : result ConnRegistry :=
  _ ← Validate s; Ok (mkRegistry (rg_path r) (<[sp_Name s := s]> (rg_specs r))).
Definition RegistryRemove (name : string) (r : ConnRegistry) : result ConnRegistry :=
  match rg_specs r !! name with
  | Some _ => Ok (mkRegistry (rg_path r) (delete name (rg_specs r)))
  | None => Err ("connector " +:+ name +:+ " does not exist")
  end.
End registry.

(** ** Theorems *)

Lemma reject_ok {A} b msg (k : () -> result A) a : (u ← reject_if b msg; k u) = Ok a <-> b = false /\ k () = Ok a.
Proof. destruct b; cbn; naive_solver. Qed.
Lemma reject_ok_1 b msg u : reject_if b msg = Ok u <-> b = false.
Proof. destruct b, u; cbn; naive_solver. Qed.
Lemma bind_ok {A B} (r : result A) (k : A -> result B) b : (a ← r; k a) = Ok b <-> exists a, r = Ok a /\ k a = Ok b.
Proof. destruct r; cbn; naive_solver. Qed.
Lemma given_true s : given s = true <-> s <> "".
Proof. apply bool_decide_eq_true. Qed.
Lemma given_false s : given s = false <-> s = "".
Proof. unfold given. rewrite bool_decide_eq_false. split; [apply dec_stable|naive_solver]. Qed.

(** Turns a successful chain of checks into the facts it has checked. *)
Ltac checked H :=
  repeat first [rewrite reject_ok in H | rewrite reject_ok_1 in H | rewrite negb_false_iff in H | rewrite given_true in H
    | rewrite given_false in H | rewrite orb_false_iff in H | rewrite bool_decide_eq_true in H | rewrite bool_decide_eq_false in H];
  destruct_and? H.

Lemma SplitN2_char c a b : str_has c a = false -> SplitN2 (a +:+ String c b) (String c "") = (a, Some b).
Proof.
  intros Ha. unfold SplitN2. assert (Index (a +:+ String c b) (String c "") = Some (String.length a)) as ->.
  { induction a as [|d a IH]; cbn [String.append]; rewrite Index_char; [by rewrite decide_True|].
    cbn in Ha. apply orb_false_iff in Ha as [Hd%bool_decide_eq_false Ha]. rewrite decide_False by done. by rewrite IH. }
  rewrite str_take_app. f_equal. f_equal. change (String c b) with (String c "" +:+ b). rewrite <-string_app_assoc.
  replace (_ + _) with (String.length (a +:+ String c "")) by (by rewrite string_length_app). apply str_drop_app.
Qed.

Section validation.
Context (parse_url : string -> option base_url_parts) (glob : string -> string -> result bool).
#[local] Abbreviation Valid s := (Validate parse_url glob s = Ok ()).

Lemma Validate_parts s : Valid s -> namePattern (sp_Name s) = true /\ sp_Type s ∈ typeNames /\ (0 <= sp_Port s <= 65535)%Z /\
  validate_endpoint parse_url s = Ok () /\ validate_files glob s = Ok () /\
  (forall c, sp_Credential s = Some c -> validate_credential c = Ok ()) /\
  (0 <= sp_MaxRows s)%Z /\ (0 <= sp_TimeoutSec s)%Z /\ (0 <= sp_MaxBytes s)%Z.
Proof.
  unfold Validate. intros H. rewrite !reject_ok in H. destruct H as (H1 & H2 & H). rewrite bind_ok in H.
  destruct H as (u1 & _ & H). rewrite reject_ok, bind_ok in H. destruct H as (H3 & u2 & H4 & H). rewrite bind_ok in H.
  destruct H as (u3 & H5 & H). rewrite bind_ok in H. destruct H as (u4 & H6 & H). rewrite !reject_ok in H.
  destruct H as (H7 & H8 & H9). rewrite reject_ok_1 in H9. apply negb_false_iff in H1, H2. apply bool_decide_eq_true in H2.
  apply orb_false_iff in H3 as [? ?]. destruct u2, u3, u4. split_and!; try done; try lia.
  intros c Hc. by rewrite Hc in H6.
Qed.

(** a read-only sqlite connector opens its file in read-only mode: the
    query of the URI is mode=ro and nothing else, whatever the path. *)
Theorem sqlite_read_only pg_url s password driver dsn : BuildDSN parse_url glob pg_url s password = Ok (driver, dsn) ->
  sp_Type s = TypeSQLite -> IsReadOnly s = true ->
  driver = "sqlite3" /\ SplitN2 dsn "?" = ("file:" +:+ sp_Database s, Some "mode=ro") /\ str_has "#" dsn = false.
Proof.
  unfold BuildDSN. rewrite bind_ok. intros (u & Hv & H) Ht Hr. rewrite Ht in H. rewrite !decide_False, decide_True in H by done. injection H as <- <-.
  destruct u. assert (Valid s) as Hok by (by destruct (Validate parse_url glob s) as [[]|]).
  apply Validate_parts in Hok as (_ & _ & _ & He & _). unfold validate_endpoint in He. rewrite Ht in He.
  rewrite !decide_False, decide_True, !reject_ok, reject_ok_1 in He by naive_solver. destruct He as (_ & _ & [Hq Hh]%orb_false_iff).
  unfold buildSQLiteDSN. rewrite Hr. cbn [negb]. split; [done|]. split; [|by rewrite !str_has_app, Hh].
  rewrite <-string_app_assoc. change "?mode=ro" with (String "?" "mode=ro"). apply SplitN2_char. by rewrite str_has_app, Hq.
Qed.

(** a valid http connector has a base URL of a host without credentials,
    query and fragment, a credential exactly if it says how to use it, and a
    header of its own that is no framing or routing header. *)
Theorem http_connector_valid s : Valid s -> IsHTTPConnector s = true ->
  (exists u, parse_url (sp_BaseURL s) = Some u /\ (up_Scheme u = "http" \/ up_Scheme u = "https") /\ up_Host u <> "" /\
     up_User u = false /\ up_RawQuery u = "" /\ up_Fragment u = "") /\
  (is_Some (sp_Credential s) <-> sp_AuthType s <> "") /\
  sp_AuthType s ∈ [""; AuthTypeBearer; AuthTypeBasic; AuthTypeHeader] /\
  (sp_AuthType s = AuthTypeHeader -> str_forall header_char (sp_AuthHeader s) = true /\
     str_map lower_byte (sp_AuthHeader s) ∉ forbiddenAuthHeaders).
Proof.
  intros (_ & _ & _ & He & _)%Validate_parts Ht. apply bool_decide_eq_true in Ht. unfold validate_endpoint in He. rewrite Ht in He.
  rewrite decide_False, decide_True in He by naive_solver. unfold validateHTTP in He. rewrite reject_ok in He. destruct He as [_ He].
  destruct (parse_url (sp_BaseURL s)) as [u|] eqn:Eu; [|done]. rewrite !reject_ok in He.
  destruct He as ([H1 H2]%orb_false_iff & H3 & H4 & [H5 H6]%orb_false_iff & _ & _ & Ha).
  apply negb_false_iff, bool_decide_eq_true in H3. apply negb_false_iff, given_true in H2. apply given_false in H5, H6.
  split; [by exists u|]. clear H1 H2 H3 H4 H5 H6 Eu. unfold validate_auth in Ha.
  assert (is_Some (sp_Credential s) <-> is_set (sp_Credential s) = true) as ->.
  { destruct (sp_Credential s); cbn; split; try done; by intros [? ?]. }
  set (cred := is_set (sp_Credential s)) in *. rewrite !elem_of_cons.
  case_decide as A0; [|case_decide as A1; [|case_decide as A2; [|case_decide as A3; [|done]]]]; rewrite ?reject_ok, ?reject_ok_1 in Ha.
  - destruct Ha as [-> _]. rewrite A0. split_and!; [naive_solver|by left|done].
  - destruct Ha as [->%negb_false_iff _]. rewrite A1. split_and!; [naive_solver|tauto|done].
  - destruct Ha as [->%negb_false_iff _]. rewrite A2. split_and!; [naive_solver|tauto|done].
  - destruct Ha as (->%negb_false_iff & _ & _ & Hp%negb_false_iff & Hf%bool_decide_eq_false). rewrite A3.
    split_and!; [naive_solver|tauto|]. intros _. split; [|done]. unfold headerNamePattern in Hp. by apply andb_prop in Hp as [_ ?].
Qed.

(** The limits that a connector imposes are positive. *)
Lemma effective_limits s : (0 < EffectiveMaxRows s /\ 0 < EffectiveTimeoutSec s /\ 0 < EffectiveMaxBytes s)%Z.
Proof.
  unfold EffectiveMaxRows, EffectiveTimeoutSec, EffectiveMaxBytes, DefaultMaxRows, DefaultTimeoutSec, DefaultMaxFileBytes.
  repeat match goal with |- context [(?a <=? 0)%Z] => destruct (Z.leb_spec a 0) end; lia.
Qed.
End validation.

Section keeping.
Context (parse_url : string -> option base_url_parts) (glob : string -> string -> result bool) (e : ConnEnv).
#[local] Abbreviation Valid s := (Validate parse_url glob s = Ok ()).

(** Every specification of a registry is valid and stands under its name. *)
Definition well_kept (r : ConnRegistry) : Prop := map_Forall (fun n s => sp_Name s = n /\ Valid s) (rg_specs r).

Lemma load_specs_kept specs m m' : map_Forall (fun n s => sp_Name s = n /\ Valid s) m -> load_specs parse_url glob specs m = Ok m' ->
  map_Forall (fun n s => sp_Name s = n /\ Valid s) m'.
Proof.
  revert m. induction specs as [|s specs IH]; intros m Hm; cbn; [by intros [= <-]|].
  destruct (Validate parse_url glob s) as [[]|] eqn:Hv; [|done]. cbn. apply IH. by apply map_Forall_insert_2.
Qed.

(** What a program does with a registry. *)
Inductive registry_step : ConnRegistry -> ConnRegistry -> Prop :=
  | step_upsert r r' s : RegistryUpsert parse_url glob s r = Ok r' -> registry_step r r'
  | step_remove r r' n : RegistryRemove n r = Ok r' -> registry_step r r'.

(** from any file, whatever it holds, and with any further operations, a
    registry only has valid specifications under their names. *)
Theorem registry_valid path t r r' : LoadRegistry parse_url glob e path t = Ok r -> rtc registry_step r r' -> well_kept r'.
Proof.
  intros Hl Hr. assert (well_kept r) as H.
  { unfold LoadRegistry in Hl. destruct (t !! through path t) as [[data| |]|]; [|done..|injection Hl as <-; apply map_Forall_empty].
    destruct (negb (ce_read e)); [done|]. rewrite bind_ok in Hl. destruct Hl as (specs & _ & Hl). rewrite bind_ok in Hl.
    destruct Hl as (m & Hm & Hl). injection Hl as <-. destruct (load_specs parse_url glob specs ∅) as [m'|] eqn:Em; [|done].
    injection Hm as <-. by eapply load_specs_kept; [apply map_Forall_empty|]. }
  clear Hl. induction Hr as [r|r r1 r' Hstep _ IH]; [done|]. apply IH. clear IH. destruct Hstep as [r r1 s Hs|r r1 n Hs].
  - unfold RegistryUpsert in Hs. rewrite bind_ok in Hs. destruct Hs as ([] & Hv & [= <-]). by apply map_Forall_insert_2.
  - unfold RegistryRemove in Hs. destruct (rg_specs r !! n); [|done]. injection Hs as <-. by apply map_Forall_delete.
Qed.

(** *** The file *)

Lemma tmp_ne r : tmpPath r <> rg_path r.
Proof.
  unfold tmpPath. intros H. apply (f_equal String.length) in H. rewrite string_length_app in H. cbn in H. lia.
Qed.

(** The trees of a run of [RegistrySave] from [t]: only its file and the
    temporary file change, the former at once, at the end. *)
Definition saves_only (r : ConnRegistry) (data : string) (t t' : dir_tree) : Prop :=
  (forall p, p <> rg_path r -> p <> tmpPath r -> t' !! p = t !! p) /\
  (t' !! rg_path r = t !! rg_path r \/ t' !! rg_path r = Some (RegFile data)).
Definition before (r : ConnRegistry) (t t' : dir_tree) : Prop := forall p, p <> tmpPath r -> t' !! p = t !! p.
Definition saved (r : ConnRegistry) (data : string) (t : dir_tree) (run : list dir_tree * option error) : Prop :=
  Forall (saves_only r data t) run.1 /\
  match run.2 with
  | Some _ => Forall (fun t' => t' !! rg_path r = t !! rg_path r) run.1
  | None => exists t' past', run.1 = t' :: past' /\ t' !! rg_path r = Some (RegFile data)
  end.

Lemma before_saves r data t l : Forall (before r t) l -> Forall (saves_only r data t) l /\ Forall (fun t' => t' !! rg_path r = t !! rg_path r) l.
Proof.
  pose proof (tmp_ne r). intros Hl. split; (eapply Forall_impl; [exact Hl|]); intros t' Ht'; [split|]; [|left|];
    try (intros p Hp1 Hp2); by apply Ht'.
Qed.
Lemma before_failed r data t l err : Forall (before r t) l -> saved r data t (l, Some err).
Proof. intros H. by apply before_saves. Qed.
Lemma before_write r t t1 x : before r t t1 -> before r t (<[tmpPath r := RegFile x]> t1).
Proof. intros H p Hp. rewrite lookup_insert_ne by done. by apply H. Qed.

Lemma write_renamed_saved r data t t1 past : t1 !! tmpPath r = None -> before r t t1 -> Forall (before r t) past ->
  saved r data t (write_renamed e r data t1 past).
Proof.
  intros Hnone H1 Hpast. unfold write_renamed, through. rewrite Hnone. cbn zeta. rewrite Hnone.
  destruct (ce_write e) as [n|]; [apply before_failed, Forall_cons; split; [by apply before_write|done]|].
  assert (Forall (before r t) (<[tmpPath r := RegFile data]> t1 :: past)) as H2 by (apply Forall_cons; split; [by apply before_write|done]).
  destruct (_ || _); [by apply before_failed|]. rewrite lookup_insert_eq. pose proof (tmp_ne r) as Hne.
  destruct (before_saves r data t _ H2) as [H3 H4]. split; cbn [fst snd].
  - apply Forall_cons. split; [|exact H3]. split; [|right; apply lookup_insert_eq].
    intros p Hp Hpt. rewrite lookup_insert_ne, lookup_delete_ne, lookup_insert_ne by done. by apply H1.
  - eexists _, _. split; [done|]. apply lookup_insert_eq.
Qed.

Lemma RegistrySave_saved r t data : ce_marshal e (RegistryList r) = Ok data -> saved r data t (RegistrySave e r t).
Proof.
  intros Hm. unfold RegistrySave. rewrite Hm. destruct (negb (ce_mkdir e)); [by apply before_failed, Forall_nil_2|].
  assert (before r t (delete (tmpPath r) t)) as Hd by (intros p Hp; by rewrite lookup_delete_ne).
  destruct (t !! tmpPath r) as [[x| |l]|] eqn:Et; try (destruct (negb (ce_remove e))); try (by apply before_failed, Forall_nil_2).
  1, 2: apply write_renamed_saved; [apply lookup_delete_eq|done|by apply Forall_singleton].
  all: by apply write_renamed_saved; [done|..|apply Forall_nil_2].
Qed.

(** saving a registry changes nothing but its file and the temporary file,
    even if a symbolic link has been planted at the latter, and at any time
    the file is the old one or complete; without an error it is complete. *)
Theorem RegistrySave_safe r t data : ce_marshal e (RegistryList r) = Ok data -> saved r data t (RegistrySave e r t).
Proof. apply RegistrySave_saved. Qed.
End keeping.

(** *** Saving and loading *)

Section roundtrip.
Context (parse_url : string -> option base_url_parts) (glob : string -> string -> result bool) (e : ConnEnv).
(** Decoding gives back what was encoded. *)
Hypothesis yaml_roundtrip : forall specs data, ce_marshal e specs = Ok data -> ce_unmarshal e data = Ok specs.

Lemma load_specs_all specs : forall m, Forall (fun s => Validate parse_url glob s = Ok ()) specs -> NoDup (sp_Name <$> specs) ->
  (forall s, s ∈ specs -> m !! sp_Name s = None) ->
  load_specs parse_url glob specs m = Ok (list_to_map ((fun s => (sp_Name s, s)) <$> specs) ∪ m).
Proof.
  induction specs as [|s specs IH]; intros m Hv Hn Hm; cbn; [by rewrite left_id_L by apply _|].
  apply Forall_cons in Hv as [-> Hv]. apply NoDup_cons in Hn as [Hs Hn]. cbn. rewrite IH; [|done..|].
  - rewrite <-insert_union_r, insert_union_l; [done|]. apply not_elem_of_list_to_map_1. by rewrite <-list_fmap_compose.
  - intros s' Hs'. rewrite lookup_insert_ne; [apply Hm; by right|]. intros E. apply Hs. rewrite E. by apply list_elem_of_fmap_2.
Qed.

Lemma list_names r : well_kept parse_url glob r ->
  NoDup (sp_Name <$> RegistryList r) /\ Forall (fun s => Validate parse_url glob s = Ok ()) (RegistryList r) /\
  list_to_map ((fun s => (sp_Name s, s)) <$> RegistryList r) = rg_specs r.
Proof.
  intros Hk. unfold RegistryList. set (l := snd <$> map_to_list (rg_specs r)).
  assert ((fun s => (sp_Name s, s)) <$> l = map_to_list (rg_specs r)) as Hl.
  { unfold l. rewrite <-list_fmap_compose. rewrite <-(list_fmap_id (map_to_list _)) at 2. apply list_fmap_ext.
    intros i [n s] Hi. cbn. apply list_elem_of_lookup_2, elem_of_map_to_list in Hi. by destruct (Hk n s Hi) as [-> _]. }
  pose proof (merge_sort_Permutation name_le l) as Hp.
  assert (sp_Name <$> l = (map_to_list (rg_specs r)).*1) as Hnames by (by rewrite <-Hl, <-list_fmap_compose).
  assert (NoDup (sp_Name <$> merge_sort name_le l)) as Hnd by (rewrite Hp, Hnames; apply NoDup_fst_map_to_list).
  split_and!; [done| |].
  - rewrite Hp. apply Forall_forall. intros s Hs. unfold l in Hs. apply list_elem_of_fmap in Hs as ([n s'] & -> & Hs).
    apply elem_of_map_to_list in Hs. by destruct (Hk n s' Hs).
  - rewrite <-(list_to_map_to_list (rg_specs r)), <-Hl. apply list_to_map_proper.
    + rewrite <-list_fmap_compose. exact Hnd.
    + by rewrite Hp.
Qed.

(** a registry that has been saved is loaded again. *)
Theorem Save_Load r t t' past : well_kept parse_url glob r -> ce_read e = true -> RegistrySave e r t = (t' :: past, None) ->
  LoadRegistry parse_url glob e (rg_path r) t' = Ok r.
Proof using yaml_roundtrip.
  intros Hk Hread Hs. destruct (ce_marshal e (RegistryList r)) as [data|err] eqn:Hm.
  2: { unfold RegistrySave in Hs. by rewrite Hm in Hs. }
  pose proof (RegistrySave_saved e r t data Hm) as [_ H]. rewrite Hs in H. destruct H as (t2 & past2 & [= <- <-] & Ht).
  unfold LoadRegistry, through. rewrite Ht. rewrite Ht, Hread. cbn [negb]. rewrite (yaml_roundtrip _ _ Hm). cbn.
  destruct (list_names r Hk) as (H1 & H2 & H3). rewrite load_specs_all; [|done..|by intros]. cbn. rewrite H3, right_id_L by apply _.
  by destruct r.
Qed.
End roundtrip.

(** ** Concrete connectors *)

Definition demo_parse_url (u : string) : option base_url_parts :=
  match Split u "/" with
  | scheme :: "" :: host :: _ => Some (mkUrlParts (SplitN2 scheme ":").1 host (Contains host "@") "" "")
  | _ => None
  end.
Definition demo_glob (pattern name : string) : result bool := Ok (bool_decide (pattern = name)).
Definition blank_spec (name type : string) : Spec :=
  mkSpec name type "" 0 "" "" "" "" "" "" None None 0 0 0 [].
Definition demo_sqlite (path : string) : Spec := mkSpec "db" TypeSQLite "" 0 path "" "" "" "" "" None None 0 0 0 [].
Definition demo_mysql (database : string) (cred : CredentialRef) : Spec :=
  mkSpec "my" TypeMySQL "h" 0 database "u" "" "" "" "" (Some cred) None 0 0 0 [].
Definition demo_api : Spec :=
  mkSpec "api" TypeHTTP "" 0 "" "" "" "https://api.example.com/v1" AuthTypeBearer "" (Some (mkCredential CredentialKindEnv "" "TOKEN")) None 0 10 0 [].
(** The encoding of two registries. *)
Definition demo_yaml : ConnEnv :=
  mkConnEnv (fun specs => if decide (specs = []) then Ok "none" else Err "too many")
    (fun data => Ok []) true true true None true.

Lemma sqlite_read_only_witness :
  SplitN2 "file:/data/a b.db?mode=ro" "?" = ("file:/data/a b.db", Some "mode=ro") /\ str_has "#" "file:/data/a b.db?mode=ro" = false.
Proof.
  exact (proj2 (sqlite_read_only demo_parse_url demo_glob (fun _ h p => h +:+ p) (demo_sqlite "/data/a b.db") "" "sqlite3" "file:/data/a b.db?mode=ro"
    eq_refl eq_refl eq_refl)).
Defined.

Lemma http_connector_valid_witness : exists u, demo_parse_url "https://api.example.com/v1" = Some u /\ up_Host u = "api.example.com" /\
  (up_Scheme u = "http" \/ up_Scheme u = "https").
Proof.
  destruct (http_connector_valid demo_parse_url demo_glob demo_api eq_refl eq_refl) as [(u & H1 & H2 & _) _].
  exists u. split; [exact H1|]. split; [|exact H2]. vm_compute in H1. injection H1 as <-. reflexivity.
Defined.

Lemma registry_valid_witness : exists r, RegistryGet r "api" = Some demo_api /\ well_kept demo_parse_url demo_glob r.
Proof.
  exists (mkRegistry "/c.yaml" {["api" := demo_api]}). split; [reflexivity|].
  apply (registry_valid demo_parse_url demo_glob demo_yaml "/c.yaml" ∅ (mkRegistry "/c.yaml" ∅)); [reflexivity|].
  eapply rtc_l; [|apply rtc_refl]. apply (step_upsert demo_parse_url demo_glob _ _ demo_api). reflexivity.
Defined.

(** A symbolic link at the temporary path is not followed. *)
Definition planted : dir_tree := {["/c.yaml.tmp" := Link "/etc/passwd"; "/etc/passwd" := RegFile "root"]}.
Lemma RegistrySave_safe_witness : Forall (fun t' : dir_tree => t' !! "/etc/passwd" = Some (RegFile "root"))
  (RegistrySave demo_yaml (mkRegistry "/c.yaml" ∅) planted).1 /\ length (RegistrySave demo_yaml (mkRegistry "/c.yaml" ∅) planted).1 = 3.
Proof.
  pose proof (RegistrySave_safe demo_yaml (mkRegistry "/c.yaml" ∅) planted "none" eq_refl) as [H _]. split; [|reflexivity].
  eapply Forall_impl; [exact H|]. intros t' [Ht' _]. rewrite Ht' by discriminate. reflexivity.
Defined.

Lemma Save_Load_witness : exists t', LoadRegistry demo_parse_url demo_glob demo_yaml "/c.yaml" t' = Ok (mkRegistry "/c.yaml" ∅).
Proof.
  eexists. refine (Save_Load demo_parse_url demo_glob demo_yaml _ (mkRegistry "/c.yaml" ∅) planted _ _ (map_Forall_empty _) eq_refl eq_refl).
  intros specs data. cbn. case_decide as H; [by subst specs|discriminate].
Defined.

(** *** What the validation lets through *)

(** The database of mysql may bring parameters of the connection. *)
Theorem mysql_parameters : BuildDSN demo_parse_url demo_glob (fun _ h p => h +:+ p)
    (demo_mysql "db?allowAllFiles=true" (mkCredential CredentialKindEnv "" "PW")) "pw" =
  Ok ("mysql", "u:pw@tcp(h:3306)/db?allowAllFiles=true").
Proof. by vm_compute. Qed.
(** Null bytes pass in the group of a credential. *)
Theorem null_byte_in_group : Validate demo_parse_url demo_glob
  (demo_mysql "db" (mkCredential CredentialKindSecret (String NUL "g") "k")) = Ok ().
Proof. by vm_compute. Qed.
(** A percent sign of the path stands unescaped in the URI. *)
Theorem percent_in_uri : BuildDSN demo_parse_url demo_glob (fun _ h p => h +:+ p) (demo_sqlite "/data/100%41.db") "" =
  Ok ("sqlite3", "file:/data/100%41.db?mode=ro").
Proof. by vm_compute. Qed.
