(* ===== verification/HttpRequest.v ===== *)
(** * HTTP requests of a workflow (src/internal/nodes/http_request.go,
    src/internal/nodes/http_request_ratelimit.go)

    The http_request node: connectors and their credentials, headers, the
    parameters of the rate limit and the retries, the pool of limiters and the
    loop of attempts.  URLs, base64, floating-point parsing, the limiters'
    clock and the exchange itself are parameters. *)

From S2P Require Import Prelude GoStrings GoText GoTime GoFloat ExprEngine NodeParams Connector.
From Stdlib Require Import Ascii SpecFloat.

#[local] Open Scope string_scope.

(** ** Limits and retries *)

Definition f64_zero : float64 := f64_of_Z 0.
(** [int(math.Ceil(f))] of a positive float64. *)
Definition f64_ceil (f : float64) : Z := let t := f64_trunc f in if SFltb (f64_of_Z t) f then (t + 1)%Z else t.

Record httpRateLimitConfig := mkRateConfig {
  rc_rps : float64;
  rc_burst : Z;
  rc_maxRetries : Z;
  rc_backoff : Z;
  rc_maxBackoff : Z;
  rc_retryStatus : gset Z;
  rc_rateLimitKey : string
}.

Definition defaultRetryStatuses : list Z := [429; 500; 502; 503; 504]%Z.
Definition add_status (out : gset Z) (part : string) : gset Z :=
  let part := TrimSpace part in
  if decide (part = "") then out else
  match Atoi part with
  | Some code => if ((code <? 100) || (599 <? code))%Z then out else {[code]} ∪ out
  | None => out
  end.
Definition parseRetryStatuses (raw : string) : gset Z :=
  let raw := TrimSpace raw in
  if decide (raw = "") then list_to_set defaultRetryStatuses else foldl add_status ∅ (Split raw ",").

Definition parseRateLimitConfig (Sscanf_f : string -> option float64) (params : gmap string string) : httpRateLimitConfig :=
  let rps := ParamFloat Sscanf_f params "rate_limit_rps" f64_zero f64_zero (f64_of_Z 100000) in
  let burst := ParamInt params "rate_limit_burst" 0 0 (2 ^ 30) in
  let burst := if SFltb f64_zero rps && (burst <=? 0)%Z then Z.max 1 (f64_ceil rps) else burst in
  let maxRetries := ParamInt params "max_retries" 0 0 100 in
  let v := ParamInt params "retry_backoff_ms" 0 0 60000 in
  let backoff := if (0 <? v)%Z then (v * Millisecond)%Z else (100 * Millisecond)%Z in
  let v := ParamInt params "retry_max_backoff_ms" 0 0 60000 in
  let maxBackoff := if (0 <? v)%Z then (v * Millisecond)%Z else (5 * Second)%Z in
  let backoff := if (maxBackoff <? backoff)%Z then maxBackoff else backoff in
  mkRateConfig rps burst maxRetries backoff maxBackoff (parseRetryStatuses (default "" (params !! "retry_on_status")))
    (TrimSpace (default "" (params !! "rate_limit_key"))).

(** The rounds of the doubling loop. *)
Fixpoint double_backoff (n : nat) (max delay : Z) : Z :=
  match n with
  | O => delay
  | S n => if (max / 2 <? delay)%Z then max else let delay := (delay * 2)%Z in if (max <=? delay)%Z then max else double_backoff n max delay
  end.
Definition backoffForAttempt (c : httpRateLimitConfig) (attempt : Z) : Z :=
  if (attempt <=? 0)%Z then 0%Z else if (rc_backoff c <=? 0)%Z then 0%Z
  else double_backoff (Z.to_nat (attempt - 1)) (rc_maxBackoff c) (rc_backoff c).
Definition shouldRetryStatus (c : httpRateLimitConfig) (code : Z) : bool := bool_decide (code ∈ rc_retryStatus c).

(** *** The pool of limiters *)

Definition maxHTTPRateLimiters : Z := 10000.
(** A limiter with an identity; the library keeps its tokens. *)
Record limiter := mkLimiter { lm_id : nat; lm_rate : float64; lm_burst : Z }.
Record limiters := mkLimiters { ls_pool : gmap string limiter; ls_count : Z; ls_next : nat }.

Definition limiter_key (host url keyOverride : string) : string :=
  if decide (keyOverride <> "") then keyOverride else if decide (host <> "") then host else url.
Definition clearHTTPRateLimiters (ls : limiters) : limiters := mkLimiters ∅ (ls_count ls) (ls_next ls).
Definition getHTTPRateLimiter (host url : string) (rps : float64) (burst : Z) (keyOverride : string) (ls : limiters) :
    option limiter * limiters :=
  if SFleb rps f64_zero then (None, ls) else
  let key := limiter_key host url keyOverride in
  match ls_pool ls !! key with
  | Some lim => (Some lim, ls)
  | None =>
      let lim := mkLimiter (ls_next ls) rps burst in
      let ls := mkLimiters (<[key := lim]> (ls_pool ls)) (ls_count ls + 1) (S (ls_next ls)) in
      (Some lim, if (maxHTTPRateLimiters <? ls_count ls)%Z
                 then let ls := clearHTTPRateLimiters ls in mkLimiters (ls_pool ls) 0 (ls_next ls) else ls)
  end.

(** ** Headers *)

(** [http.Header]: the keys are in canonical form. *)
Abbreviation header := (gmap string (list string)).

Definition token_char (c : ascii) : bool :=
  digit c || lower_letter c || in_range 65 90 c ||
  bool_decide (c ∈ ["!"; "#"; "$"; "%"; "&"; "'"; "*"; "+"; "-"; "."; "^"; "_"; "`"; "|"; "~"]%char).
Definition upper_byte (c : ascii) : ascii := if lower_letter c then ascii_of_N (N_of_ascii c - 32) else c.
Fixpoint canonical_from (upper : bool) (s : string) : string :=
  match s with
  | "" => ""
  | String c s => String (if upper then upper_byte c else lower_byte c) (canonical_from (bool_decide (c = "-"%char)) s)
  end.
(** [textproto.CanonicalMIMEHeaderKey] *)
Definition canonical_key (key : string) : string := if str_forall token_char key then canonical_from true key else key.
Definition header_set (key value : string) (h : header) : header := <[canonical_key key := [value]]> h.
Definition header_get (key : string) (h : header) : string :=
  match h !! canonical_key key with Some (v :: _) => v | _ => "" end.

Definition sensitiveHeaders : list string := ["host"].
Definition LF : ascii := ascii_of_nat 10.
Definition CR : ascii := ascii_of_nat 13.
Definition has_newline (s : string) : bool := str_has CR s || str_has LF s.

Definition header_line (h : header) (line : string) : result header :=
  let line := TrimSpace line in
  if decide (line = "") then Ok h else
  match SplitN2 line ":" with
  | (_, None) => Ok h
  | (key, Some value) =>
      let key := TrimSpace key in
      let value := TrimSpace value in
      if has_newline key || has_newline value then Err "CRLF characters are not allowed in headers" else
      if bool_decide (str_map lower_byte key ∈ sensitiveHeaders) then Err ("setting sensitive header " +:+ key +:+ " is not allowed")
      else Ok (header_set key value h)
  end.
Fixpoint header_lines (h : header) (lines : list string) : result header :=
  match lines with [] => Ok h | line :: lines => h ← header_line h line; header_lines h lines end.

Definition with_body (method : string) : bool := bool_decide (method ∈ ["POST"; "PUT"; "PATCH"]).
Definition buildRequestHeaders (params : gmap string string) (method body : string) : result header :=
  let content_type := default "" (params !! "content_type") in
  let h := if decide (content_type <> "") then header_set "Content-Type" content_type ∅
           else if bool_decide (body <> "") && with_body method then header_set "Content-Type" "application/json" ∅ else ∅ in
  let raw := default "" (params !! "headers") in
  if decide (raw = "") then Ok h else header_lines h (Split raw newline).

(** ** Connectors *)

Definition TrimSlash (s : string) : string := if HasSuffix s "/" then str_take (String.length s - 1) s else s.
Definition joinBaseURL (baseURL path : string) : result string :=
  if decide (path = "") then Ok baseURL else
  if Contains path "://" || HasPrefix path "//" then Err "connector mode requires a relative path" else
  let path := if HasPrefix path "/" then path else "/" +:+ path in
  Ok (TrimSlash baseURL +:+ path).

Definition httpAuthHeaders (base64 : string -> string) (s : Spec) (secret : string) : result header :=
  if decide (sp_AuthType s = AuthTypeBearer) then Ok (header_set "Authorization" ("Bearer " +:+ secret) ∅) else
  if decide (sp_AuthType s = AuthTypeBasic)
  then Ok (header_set "Authorization" ("Basic " +:+ base64 (sp_Username s +:+ ":" +:+ secret)) ∅) else
  if decide (sp_AuthType s = AuthTypeHeader) then Ok (header_set (sp_AuthHeader s) secret ∅)
  else Err "spec carries a credential but no auth_type".

(** ** Requests *)

Record request := mkRequest {
  rq_method : string;
  rq_url : string;
  rq_header : header;
  rq_body : option string;
  rq_timeout : Z
}.

Inductive http_event := Sent (rq : request) | Slept (d : Z).

Record HttpEnv := mkHttpEnv {
  he_registry : result ConnRegistry;               (* [LoadDefaultRegistry] *)
  he_resolve : CredentialRef -> result string;
  he_base64 : string -> string;
  he_validate : string -> option error;            (* [validateURL] *)
  he_parse : string -> result (string * string);   (* the host and the URL's text *)
  he_scan : string -> option float64;
  he_wait : limiter -> nat -> option error;        (* the wait before an attempt *)
  he_do : nat -> request -> result http_response;
  he_sleep : nat -> option error                   (* the context's error after an attempt *)
}.

Section node.
Context (e : HttpEnv).

Definition resolveHTTPConnectorSpec (name : string) : result Spec :=
  reg ← wrap_err "failed to load connectors registry: " (he_registry e);
  match RegistryGet reg name with
  | None => Err ("connector " +:+ name +:+ " is not registered")
  | Some s => if IsHTTPConnector s then Ok s else Err ("http_request expects an http connector, " +:+ name +:+ " is none")
  end.

(** The URL, the headers and the ceiling of the timeout that a connector
    gives. *)
Definition use_connector (name method url : string) : result (string * header * Z) :=
  if decide (name = "") then Ok (url, ∅, 0%Z) else
  s ← resolveHTTPConnectorSpec name;
  if IsReadOnly s && negb (bool_decide (method = "GET" \/ method = "HEAD")) then Err ("connector " +:+ name +:+ " is read-only") else
  url ← wrap_err ("connector " +:+ name +:+ ": ") (joinBaseURL (sp_BaseURL s) url);
  h ← (match sp_Credential s with
       | None => Ok ∅
       | Some c =>
           secret ← wrap_err ("connector " +:+ name +:+ " credential: ") (he_resolve e c);
           wrap_err ("connector " +:+ name +:+ ": ") (httpAuthHeaders (he_base64 e) s secret)
       end);
  Ok (url, h, wrap64 (EffectiveTimeoutSec s * Second)).

Definition allowedMethods : list string := ["GET"; "POST"; "PUT"; "DELETE"; "PATCH"; "HEAD"].
Definition request_timeout (timeoutStr : string) (ceiling : Z) : Z :=
  let timeout := if decide (timeoutStr = "") then (30 * Second)%Z else
    match ParseDuration timeoutStr with
    | Some t => if ((0 <? t) && (t <=? 5 * Minute))%Z then t else (30 * Second)%Z
    | None => (30 * Second)%Z
    end in
  if ((0 <? ceiling) && (ceiling <? timeout))%Z then ceiling else timeout.

(** Everything that is decided before the first attempt. *)
Definition prepare (input : string) (params : gmap string string) : result request :=
  let url := default "" (params !! "url") in
  if decide (url = "") then Err "url parameter is required" else
  let method := default "" (params !! "method") in
  let method := ToUpper (if decide (method = "") then "GET" else method) in
  if decide (method ∉ allowedMethods) then Err ("HTTP method " +:+ method +:+ " is not allowed") else
  let body := GetParam params "body" input in
  '(url, connHeaders, ceiling) ← use_connector (default "" (params !! "connector")) method url;
  match he_validate e url with
  | Some err => Err ("URL validation failed: " +:+ err)
  | None =>
      headers ← buildRequestHeaders params method body;
      if existsb (fun kv : string * list string => negb (bool_decide (header_get kv.1 headers = ""))) (map_to_list connHeaders)
      then Err "workflow headers set what the connector injects" else
      Ok (mkRequest method url (connHeaders ∪ headers) (if negb (bool_decide (body = "")) && with_body method then Some body else None)
            (request_timeout (default "" (params !! "timeout")) ceiling))
  end.

Definition readHTTPResponse (resp : http_response) : result string :=
  if ((rp_Status resp <? 200) || (300 <=? rp_Status resp))%Z then Err ("HTTP request failed with status " +:+ Itoa (rp_Status resp)) else
  match read_error (10 * 1024 * 1024) resp with
  | Some err => Err ("failed to read response: " +:+ err)
  | None => Ok ("HTTP " +:+ Itoa (rp_Status resp) +:+ newline +:+ limit_bytes (10 * 1024 * 1024) (rp_Body resp))
  end.

Definition rateLimitedWait (lim : option limiter) (attempt : nat) : option error :=
  match lim with None => None | Some lim => he_wait e lim attempt end.

(** [more] attempts after this one; what happened, the newest first. *)
Fixpoint http_attempts (c : httpRateLimitConfig) (lim : option limiter) (rq : request) (more attempt : nat) (past : list http_event) :
    list http_event * result string :=
  match rateLimitedWait lim attempt with
  | Some err => (past, Err ("rate limit wait interrupted: " +:+ err))
  | None =>
      let past := Sent rq :: past in
      let again (failed : error) :=
        match more with
        | O => (past, Err failed)
        | S more =>
            let backoff := backoffForAttempt c (Z.of_nat attempt + 1) in
            if (0 <? backoff)%Z then
              match he_sleep e attempt with
              | Some err => (past, Err ("retry interrupted: " +:+ err))
              | None => http_attempts c lim rq more (S attempt) (Slept backoff :: past)
              end
            else http_attempts c lim rq more (S attempt) past
        end in
      match he_do e attempt rq with
      | Err err => again ("HTTP request failed: " +:+ err)
      | Ok resp =>
          if (0 <? rc_maxRetries c)%Z && shouldRetryStatus c (rp_Status resp)
          then again ("HTTP request failed with status " +:+ Itoa (rp_Status resp) +:+ " (after " +:+ Itoa (rc_maxRetries c) +:+ " retries)")
          else (past, readHTTPResponse resp)
      end
  end.

Definition HTTPRequest (input : string) (params : gmap string string) (ls : limiters) : list http_event * result string * limiters :=
  match prepare input params with
  | Err err => ([], Err err, ls)
  | Ok rq =>
      let c := parseRateLimitConfig (he_scan e) params in
      match he_parse e (rq_url rq) with
      | Err err => ([], Err ("failed to parse URL: " +:+ err), ls)
      | Ok (host, text) =>
          let '(lim, ls) := getHTTPRateLimiter host text (rc_rps c) (rc_burst c) (rc_rateLimitKey c) ls in
          (http_attempts c lim rq (Z.to_nat (rc_maxRetries c)) 0 [], ls)
      end
  end.
End node.

(** ** Theorems *)

(** *** The schedule of retries *)

Lemma double_backoff_exact max n : forall delay, (0 < delay <= max)%Z -> double_backoff n max delay = Z.min max (delay * 2 ^ Z.of_nat n).
Proof.
  induction n as [|n IH]; intros delay Hd; cbn [double_backoff]; [change (2 ^ Z.of_nat 0)%Z with 1%Z; lia|].
  replace (2 ^ Z.of_nat (S n))%Z with (2 * 2 ^ Z.of_nat n)%Z by (rewrite Nat2Z.inj_succ, Z.pow_succ_r; lia).
  assert (1 <= 2 ^ Z.of_nat n)%Z by (pose proof (Z.pow_pos_nonneg 2 (Z.of_nat n)); lia).
  destruct (Z.ltb_spec (max / 2) delay) as [H1|H1].
  - rewrite Z.min_l; [done|]. assert (max < delay * 2)%Z by (pose proof (Z.mul_succ_div_gt max 2); lia). nia.
  - assert (delay * 2 <= max)%Z by (pose proof (Z.mul_div_le max 2); lia). destruct (Z.leb_spec max (delay * 2)) as [H2|H2].
    + rewrite Z.min_l; [done|]. nia.
    + rewrite IH by lia. f_equal. lia.
Qed.

Lemma config_range f params : let c := parseRateLimitConfig f params in
  (0 <= rc_maxRetries c <= 100 /\ 0 < rc_backoff c <= rc_maxBackoff c /\ rc_maxBackoff c <= 60 * Second)%Z.
Proof.
  cbn zeta. unfold parseRateLimitConfig. cbn [rc_maxRetries rc_backoff rc_maxBackoff].
  pose proof (ParamInt_range params "max_retries" 0 0 100 ltac:(lia) ltac:(lia)).
  pose proof (ParamInt_range params "retry_backoff_ms" 0 0 60000 ltac:(lia) ltac:(lia)).
  pose proof (ParamInt_range params "retry_max_backoff_ms" 0 0 60000 ltac:(lia) ltac:(lia)).
  set (v1 := ParamInt params "retry_backoff_ms" 0 0 60000) in *. set (v2 := ParamInt params "retry_max_backoff_ms" 0 0 60000) in *.
  unfold Second, Millisecond, Microsecond, Nanosecond in *.
  destruct (Z.ltb_spec 0 v1), (Z.ltb_spec 0 v2); repeat match goal with |- context [(?a <? ?b)%Z] => destruct (Z.ltb_spec a b) end; lia.
Qed.

Lemma backoff_bounds f params n : let c := parseRateLimitConfig f params in (1 <= n)%Z ->
  backoffForAttempt c n = Z.min (rc_maxBackoff c) (rc_backoff c * 2 ^ (n - 1)) /\ (0 < backoffForAttempt c n <= 60 * Second)%Z.
Proof.
  cbn zeta. pose proof (config_range f params) as (_ & H1 & H2). set (c := parseRateLimitConfig f params) in *. intros Hn.
  assert (backoffForAttempt c n = Z.min (rc_maxBackoff c) (rc_backoff c * 2 ^ (n - 1))) as E.
  { unfold backoffForAttempt. destruct (Z.leb_spec n 0); [lia|]. destruct (Z.leb_spec (rc_backoff c) 0); [lia|].
    rewrite double_backoff_exact by lia. by rewrite Z2Nat.id by lia. }
  split; [done|]. rewrite E. assert (1 <= 2 ^ (n - 1))%Z by (pose proof (Z.pow_pos_nonneg 2 (n - 1)); lia). nia.
Qed.

(** the delay before the n-th retry is the first delay doubled n-1 times, up
    to the cap; nothing overflows. *)
Theorem backoff_exact f params n : let c := parseRateLimitConfig f params in (1 <= n)%Z ->
  backoffForAttempt c n = Z.min (rc_maxBackoff c) (rc_backoff c * 2 ^ (n - 1)) /\ (0 < backoffForAttempt c n <= 60 * Second)%Z.
Proof. apply backoff_bounds. Qed.

Lemma backoff_pos f params n : (1 <= n)%Z -> (0 < backoffForAttempt (parseRateLimitConfig f params) n)%Z.
Proof. intros Hn. by apply backoff_bounds. Qed.

Lemma add_status_range out part : (forall c, c ∈ out -> (100 <= c <= 599)%Z) -> forall c, c ∈ add_status out part -> (100 <= c <= 599)%Z.
Proof.
  intros H c. unfold add_status. case_decide; [apply H|]. destruct (Atoi _) as [code|]; [|apply H].
  destruct (orb _ _) eqn:E; [apply H|]. apply orb_false_iff in E as [E1%Z.ltb_ge E2%Z.ltb_ge]. rewrite elem_of_union, elem_of_singleton.
  intros [->|Hc]; [done|by apply H].
Qed.
Lemma foldl_keeps {A B} (P : A -> Prop) (f : A -> B -> A) l a : (forall a b, P a -> P (f a b)) -> P a -> P (foldl f a l).
Proof. intros Hf. revert a. induction l as [|b l IH]; intros a Ha; [done|]. cbn. by apply IH, Hf. Qed.
Lemma retry_statuses_range raw c : c ∈ parseRetryStatuses raw -> (100 <= c <= 599)%Z.
Proof.
  unfold parseRetryStatuses. case_decide.
  - rewrite elem_of_list_to_set. unfold defaultRetryStatuses. rewrite !elem_of_cons. intros H'.
    destruct H' as [->|[->|[->|[->|[->|H'%not_elem_of_nil]]]]]; done || lia.
  - revert c. apply (foldl_keeps (fun out => forall c, c ∈ out -> (100 <= c <= 599)%Z)); [|by intros c ?%not_elem_of_empty].
    intros out part. apply add_status_range.
Qed.

(** *** The attempts *)

(** The sends and delays of [n] failed attempts, the newest first. *)
Fixpoint retried (c : httpRateLimitConfig) (rq : request) (n : nat) : list http_event :=
  match n with
  | O => []
  | S n => Slept (backoffForAttempt c (Z.of_nat (S n))) :: Sent rq :: retried c rq n
  end.

Section theorems.
Context (e : HttpEnv).

(** An attempt that is tried again while attempts are left. *)
Definition failed (c : httpRateLimitConfig) (rq : request) (i : nat) : Prop :=
  match he_do e i rq with
  | Err _ => True
  | Ok resp => (0 < rc_maxRetries c)%Z /\ rp_Status resp ∈ rc_retryStatus c
  end.

Lemma attempts_exact c lim rq more k : (forall n, (1 <= n)%Z -> (0 < backoffForAttempt c n)%Z) ->
  let '(evs, r) := http_attempts e c lim rq more k (retried c rq k) in
  exists n, k <= n <= k + more /\ (forall i, k <= i < n -> failed c rq i) /\
    (evs = retried c rq n /\ is_ok r = false \/
     evs = Sent rq :: retried c rq n /\
       (forall text, r = Ok text -> exists resp, he_do e n rq = Ok resp /\ readHTTPResponse resp = Ok text /\ ~ failed c rq n)).
Proof.
  intros Hb. revert k. induction more as [|more IH]; intros k; cbn [http_attempts];
    (destruct (rateLimitedWait e lim k) as [err|]; [exists k; split_and!; [lia|lia|intros; lia|by left]|]).
  - destruct (he_do e k rq) as [resp|err] eqn:E; [destruct (_ && _) eqn:Er|]; (exists k; split_and!; [lia|lia|intros; lia|right; split; [done|]]); [done| |done].
    intros text Ht. exists resp. split_and!; [done..|]. unfold failed. rewrite E. intros [F1 F2].
    apply andb_false_iff in Er as [Er%Z.ltb_ge|Er%bool_decide_eq_false]; [lia|done].
  - assert (failed c rq k -> let '(evs, r) := (if (0 <? backoffForAttempt c (Z.of_nat k + 1))%Z then
        match he_sleep e k with
        | Some err => (Sent rq :: retried c rq k, Err ("retry interrupted: " +:+ err))
        | None => http_attempts e c lim rq more (S k) (Slept (backoffForAttempt c (Z.of_nat k + 1)) :: Sent rq :: retried c rq k)
        end else http_attempts e c lim rq more (S k) (Sent rq :: retried c rq k)) in
      exists n, k <= n <= k + S more /\ (forall i, k <= i < n -> failed c rq i) /\
        (evs = retried c rq n /\ is_ok r = false \/
         evs = Sent rq :: retried c rq n /\
           (forall text, r = Ok text -> exists resp, he_do e n rq = Ok resp /\ readHTTPResponse resp = Ok text /\ ~ failed c rq n))) as Hagain.
    { intros Hf. rewrite (proj2 (Z.ltb_lt _ _) (Hb (Z.of_nat k + 1)%Z ltac:(lia))). destruct (he_sleep e k) as [err|].
      - exists k. split_and!; [lia|lia|intros; lia|by right].
      - specialize (IH (S k)). cbn [retried] in IH. replace (Z.of_nat (S k)) with (Z.of_nat k + 1)%Z in IH by lia.
        destruct (http_attempts e c lim rq more (S k) _) as [evs r]. destruct IH as (n & Hn & Hi & H). exists n. split_and!; [lia|lia| |done].
        intros i Hin. destruct (decide (i = k)) as [->|]; [done|]. apply Hi. lia. }
    destruct (he_do e k rq) as [resp|err] eqn:E; [destruct (_ && _) eqn:Er|].
    + apply Hagain. unfold failed. rewrite E. by apply andb_prop in Er as [?%Z.ltb_lt ?%bool_decide_eq_true].
    + exists k. split_and!; [lia|lia|intros; lia|]. right. split; [done|].
      intros text Ht. exists resp. split_and!; [done..|]. unfold failed. rewrite E. intros [F1 F2].
      apply andb_false_iff in Er as [Er%Z.ltb_ge|Er%bool_decide_eq_false]; [lia|done].
    + apply Hagain. unfold failed. by rewrite E.
Qed.

(** a node sends the same request again only after failures, with the
    growing delays between, at most max_retries (at most 100) times; the text
    it returns is that of the last answer, which is no failure. *)
Theorem HTTPRequest_retries input params ls : let '(evs, r, _) := HTTPRequest e input params ls in
  let c := parseRateLimitConfig (he_scan e) params in
  evs = [] /\ is_ok r = false \/
  exists rq n, prepare e input params = Ok rq /\ (Z.of_nat n <= rc_maxRetries c <= 100)%Z /\ (forall i, i < n -> failed c rq i) /\
    (evs = retried c rq n /\ is_ok r = false \/
     evs = Sent rq :: retried c rq n /\
       forall text, r = Ok text -> exists resp, he_do e n rq = Ok resp /\ readHTTPResponse resp = Ok text /\ ~ failed c rq n).
Proof.
  unfold HTTPRequest. destruct (prepare e input params) as [rq|err]; [|by left].
  destruct (he_parse e (rq_url rq)) as [[host text]|err]; [|by left].
  pose proof (config_range (he_scan e) params) as (Hm & Hb & Hx). pose proof (backoff_pos (he_scan e) params) as Hpos.
  set (c := parseRateLimitConfig (he_scan e) params) in *. destruct (getHTTPRateLimiter _ _ _ _ _ _) as [lim ls'].
  pose proof (attempts_exact c lim rq (Z.to_nat (rc_maxRetries c)) 0 Hpos) as H. cbn [retried] in H.
  destruct (http_attempts e c lim rq (Z.to_nat (rc_maxRetries c)) 0 []) as [evs r]. destruct H as (n & Hn & Hi & H).
  right. exists rq, n. split_and!; [done|lia|lia| |done]. intros i Hin. apply Hi. lia.
Qed.

(** *** Connectors *)

Lemma union_headers (h1 h2 : header) k v : h1 !! k = Some v -> (h1 ∪ h2) !! k = Some v.
Proof. apply lookup_union_Some_l. Qed.

Lemma request_timeout_range str ceiling : (0 < request_timeout str ceiling <= 5 * Minute)%Z /\
  ((0 < ceiling)%Z -> (request_timeout str ceiling <= ceiling)%Z).
Proof.
  unfold request_timeout, Minute, Second, Millisecond, Microsecond, Nanosecond.
  assert (forall t, (0 < t <= 5 * (60 * (1000 * (1000 * (1000 * 1)))))%Z ->
    let r := (if (0 <? ceiling) && (ceiling <? t) then ceiling else t)%Z in
    (0 < r <= 5 * (60 * (1000 * (1000 * (1000 * 1)))))%Z /\ ((0 < ceiling)%Z -> (r <= ceiling)%Z)) as H.
  { intros t Ht. cbn zeta. destruct (Z.ltb_spec 0 ceiling), (Z.ltb_spec ceiling t); cbn [andb]; lia. }
  apply H. case_decide; [lia|]. destruct (ParseDuration str) as [t|]; [|lia].
  destruct ((0 <? t)%Z && _) eqn:E; [|lia]. apply andb_prop in E as [?%Z.ltb_lt ?%Z.leb_le]. lia.
Qed.

(** The origin and path of a request through a connector. *)
Definition below (base url : string) : Prop := url = base \/ exists path, url = TrimSlash base +:+ "/" +:+ path.

Lemma joinBaseURL_below base path url : joinBaseURL base path = Ok url -> below base url.
Proof.
  unfold joinBaseURL. case_decide; [intros [= <-]; by left|]. destruct (_ || _); [done|]. intros [= <-]. right.
  destruct (HasPrefix path "/") eqn:E; [|by exists path]. apply prefix_app in E as [t ->]. by exists t.
Qed.

(** C36: a request through a connector goes below the connector's base URL, only
    reads if the connector is read-only, stays within its timeout and carries
    its credential, which no header of the workflow replaces. *)
Theorem connector_pinned input params rq name : prepare e input params = Ok rq ->
  params !! "connector" = Some name -> name <> "" -> exists s, resolveHTTPConnectorSpec e name = Ok s /\
    below (sp_BaseURL s) (rq_url rq) /\ he_validate e (rq_url rq) = None /\
    (IsReadOnly s = true -> rq_method rq = "GET" \/ rq_method rq = "HEAD") /\
    (0 < rq_timeout rq <= 5 * Minute)%Z /\ (EffectiveTimeoutSec s <= 10 ^ 9 -> rq_timeout rq <= EffectiveTimeoutSec s * Second)%Z /\
    (forall cred, sp_Credential s = Some cred -> exists secret h, he_resolve e cred = Ok secret /\
       httpAuthHeaders (he_base64 e) s secret = Ok h /\ h ⊆ rq_header rq).
Proof.
  intros Hp Hn Hne. unfold prepare in Hp. rewrite Hn in Hp. change (default "" (Some name)) with name in Hp.
  case_decide; [done|]. case_decide; [done|]. set (method := ToUpper _) in *. rewrite bind_ok in Hp.
  destruct Hp as ([[url h] ceiling] & Hc & Hp). unfold use_connector in Hc. rewrite decide_False in Hc by done.
  rewrite bind_ok in Hc. destruct Hc as (s & Hs & Hc). destruct (IsReadOnly s && _) eqn:Hro; [done|].
  rewrite bind_ok in Hc. destruct Hc as (url' & Hu & Hc). rewrite bind_ok in Hc. destruct Hc as (h' & Hh & [= -> -> <-]).
  destruct (he_validate e url) eqn:Hv; [done|]. rewrite bind_ok in Hp. destruct Hp as (headers & _ & Hp).
  destruct (existsb _ _); [done|]. injection Hp as <-. cbn [rq_url rq_method rq_timeout rq_header].
  pose proof (request_timeout_range (default "" (params !! "timeout")) (wrap64 (EffectiveTimeoutSec s * Second))) as [T1 T2].
  exists s. split_and!; [done| |done| |apply T1|apply T1| |].
  - destruct (joinBaseURL (sp_BaseURL s) _) as [u|] eqn:Ej; [|done]. injection Hu as <-. by eapply joinBaseURL_below.
  - intros Hr. rewrite Hr in Hro. cbn [andb] in Hro. apply negb_false_iff, bool_decide_eq_true in Hro. exact Hro.
  - intros Ht. pose proof (effective_limits s) as (_ & H1 & _). assert (wrap64 (EffectiveTimeoutSec s * Second) = EffectiveTimeoutSec s * Second)%Z as Hw.
    { apply wrap64_id. unfold int64_min, int64_max, Second, Millisecond, Microsecond, Nanosecond. lia. }
    rewrite Hw in T2 |- *. apply T2. unfold Second, Millisecond, Microsecond, Nanosecond. lia.
  - intros cred Hcred. rewrite Hcred in Hh. rewrite bind_ok in Hh. destruct Hh as (secret & H1 & H2).
    exists secret, h. destruct (he_resolve e cred); [|done]. injection H1 as ->. split_and!; [done| |apply map_union_subseteq_l].
    destruct (httpAuthHeaders _ s secret); [|done]. by injection H2 as ->.
Qed.
End theorems.

(** *** Headers *)

Lemma lower_upper c : lower_byte (upper_byte c) = lower_byte c.
Proof. destruct c as [[] [] [] [] [] [] [] []]; by vm_compute. Qed.
Lemma lower_lower c : lower_byte (lower_byte c) = lower_byte c.
Proof. destruct c as [[] [] [] [] [] [] [] []]; by vm_compute. Qed.
Lemma canonical_lower key : str_map lower_byte (canonical_key key) = str_map lower_byte key.
Proof.
  unfold canonical_key. destruct (str_forall token_char key); [|done]. generalize true. induction key as [|c key IH]; intros b; [done|].
  cbn. rewrite IH. destruct b; by rewrite ?lower_upper, ?lower_lower.
Qed.
Lemma canonical_from_no d b key : d = CR \/ d = LF -> str_has d key = false -> str_has d (canonical_from b key) = false.
Proof.
  intros Hd. revert b. induction key as [|c key IH]; intros b; [done|]. cbn [str_has canonical_from].
  intros [H1%bool_decide_eq_false H2]%orb_false_iff. rewrite IH, orb_false_r by done. apply bool_decide_eq_false. intros E. apply H1.
  clear -E Hd. destruct b, Hd as [->| ->]; destruct c as [[] [] [] [] [] [] [] []]; vm_compute in E; discriminate || done.
Qed.
Lemma canonical_no_newline key : has_newline key = false -> has_newline (canonical_key key) = false.
Proof.
  unfold canonical_key. destruct (str_forall token_char key); [|done]. unfold has_newline. rewrite !orb_false_iff.
  intros [H1 H2]. split; apply canonical_from_no; auto.
Qed.

(** A header that a workflow may set. *)
Definition header_ok (k : string) (vs : list string) : Prop :=
  k = "Content-Type" \/
  exists v, vs = [v] /\ has_newline k = false /\ has_newline v = false /\ str_map lower_byte k ∉ sensitiveHeaders.

Lemma header_line_ok h line h' : map_Forall header_ok h -> header_line h line = Ok h' -> map_Forall header_ok h'.
Proof.
  intros Hh. unfold header_line. case_decide; [by intros [= <-]|]. destruct (SplitN2 _ ":") as [key [value|]]; [|by intros [= <-]].
  destruct (has_newline (TrimSpace key)) eqn:Hk; [done|]. destruct (has_newline (TrimSpace value)) eqn:Hv; [done|]. cbn [orb].
  case_bool_decide as Hs; [done|]. intros [= <-]. apply map_Forall_insert_2; [|done]. right. exists (TrimSpace value).
  split_and!; [done|by apply canonical_no_newline|done|]. by rewrite canonical_lower.
Qed.

(** no header line of a workflow breaks out of its line or sets the host. *)
Theorem workflow_headers params method body h : buildRequestHeaders params method body = Ok h -> map_Forall header_ok h.
Proof.
  unfold buildRequestHeaders. set (h0 := if decide (default "" (params !! "content_type") <> "") then _ else _).
  assert (map_Forall header_ok h0) as H0.
  { unfold h0. case_decide; [|destruct (_ && _)]; [..|apply map_Forall_empty];
      (apply map_Forall_insert_2; [by left|apply map_Forall_empty]). }
  case_decide; [by intros [= <-]|]. revert H0. generalize h0. clear h0. induction (Split _ newline) as [|line lines IH]; intros h0 H0; cbn.
  - by intros [= <-].
  - destruct (header_line h0 line) as [h1|] eqn:E; [|done]. cbn. apply IH. by eapply header_line_ok.
Qed.

(** *** The pool of limiters *)

Definition pool_ok (ls : limiters) : Prop := ls_count ls = Z.of_nat (size (ls_pool ls)) /\ (ls_count ls <= maxHTTPRateLimiters)%Z.

Lemma pool_get_ok host url rps burst key ls : pool_ok ls -> pool_ok (getHTTPRateLimiter host url rps burst key ls).2.
Proof.
  intros [H1 H2]. unfold getHTTPRateLimiter. destruct (SFleb rps f64_zero); [done|].
  destruct (ls_pool ls !! limiter_key host url key) eqn:E; [done|]. cbn [snd ls_count].
  destruct (Z.ltb_spec maxHTTPRateLimiters (ls_count ls + 1)) as [H|H].
  - split; [|done]. cbn [ls_pool ls_count clearHTTPRateLimiters]. by rewrite map_size_empty.
  - split; cbn [ls_pool ls_count]; [|lia]. rewrite map_size_insert_None by done. lia.
Qed.

Lemma pool_get_shared host url rps burst key lim ls : ls_pool ls !! limiter_key host url key = Some lim -> SFleb rps f64_zero = false ->
  getHTTPRateLimiter host url rps burst key ls = (Some lim, ls).
Proof. intros Hl Hr. unfold getHTTPRateLimiter. rewrite Hr. cbn zeta. by rewrite Hl. Qed.

(** with calls one after the other, the count is that of the pool and never
    more than 10000; all calls with a key share one limiter until then, the
    one of the first call's rate. *)
Theorem limiters_bounded calls : let ls := foldl (fun ls '(host, url, rps, burst, key) => (getHTTPRateLimiter host url rps burst key ls).2)
    (mkLimiters ∅ 0 0) calls in
  (Z.of_nat (size (ls_pool ls)) <= maxHTTPRateLimiters)%Z /\
  forall host url rps burst key lim, ls_pool ls !! limiter_key host url key = Some lim -> SFleb rps f64_zero = false ->
    getHTTPRateLimiter host url rps burst key ls = (Some lim, ls).
Proof.
  cbn zeta. assert (pool_ok (foldl (fun ls '(host, url, rps, burst, key) => (getHTTPRateLimiter host url rps burst key ls).2)
    (mkLimiters ∅ 0 0) calls)) as [H1 H2].
  { apply foldl_keeps; [|split; [cbn; by rewrite map_size_empty|done]]. intros ls [[[[host url] rps] burst] key]. apply pool_get_ok. }
  split; [by rewrite <-H1|]. intros host url rps burst key lim. apply pool_get_shared.
Qed.

(** ** Concrete requests *)

Definition demo_scan (s : string) : option float64 := if decide (s = "nan") then Some S754_nan else f64_of_Z <$> Atoi s.
Definition demo_http (reg : gmap string Spec) (status : nat -> Z) : HttpEnv :=
  mkHttpEnv (Ok (mkRegistry "" reg)) (fun c => Ok (cr_Key c)) (fun s => s) (fun _ => None) (fun u => Ok ("api.example.com", u)) demo_scan
    (fun lim _ => if (lm_burst lim <? 1)%Z then Some "rate: Wait(n=1) exceeds limiter's burst 0" else None)
    (fun i rq => Ok (mkResponse (status i) "body" None)) (fun _ => None).
Definition demo_flaky : nat -> Z := fun i => if decide (i < 2) then 503%Z else 200%Z.

Example demo_retry : (HTTPRequest (demo_http ∅ demo_flaky) "" {["url" := "https://api.example.com/x"; "max_retries" := "5"]} (mkLimiters ∅ 0 0)).1 =
  let rq := mkRequest "GET" "https://api.example.com/x" ∅ None (30 * Second) in
  ([Sent rq; Slept (200 * Millisecond); Sent rq; Slept (100 * Millisecond); Sent rq], Ok ("HTTP 200" +:+ newline +:+ "body")).
Proof. by vm_compute. Qed.

Lemma backoff_exact_witness : backoffForAttempt (parseRateLimitConfig demo_scan ∅) 7 = (5 * Second)%Z.
Proof. exact (proj1 (backoff_exact demo_scan ∅ 7 ltac:(lia))). Defined.

Definition demo_connected : gmap string string := {["url" := "users"; "connector" := "api"; "timeout" := "1m"]}.
Lemma connector_pinned_witness : exists rq, prepare (demo_http {["api" := demo_api]} demo_flaky) "" demo_connected = Ok rq /\
  rq_url rq = "https://api.example.com/v1/users" /\ rq_header rq !! "Authorization" = Some ["Bearer TOKEN"] /\ rq_timeout rq = (10 * Second)%Z /\
  (rq_method rq = "GET" \/ rq_method rq = "HEAD").
Proof.
  destruct (prepare (demo_http {["api" := demo_api]} demo_flaky) "" demo_connected) as [rq|err] eqn:E; [|exfalso; vm_compute in E; discriminate].
  exists rq. split; [reflexivity|].
  destruct (connector_pinned (demo_http {["api" := demo_api]} demo_flaky) "" demo_connected rq "api" E eq_refl ltac:(discriminate))
    as (s & Hs & _ & _ & Hro & _). vm_compute in Hs. injection Hs as <-. specialize (Hro eq_refl).
  vm_compute in E. injection E as <-. repeat split. exact Hro.
Defined.

Lemma workflow_headers_witness : exists h, buildRequestHeaders {["headers" := "X-A: b" +:+ newline +:+ "accept:c"]} "GET" "" = Ok h /\
  h !! "Accept" = Some ["c"] /\ map_Forall header_ok h.
Proof.
  destruct (buildRequestHeaders {["headers" := "X-A: b" +:+ newline +:+ "accept:c"]} "GET" "") as [h|err] eqn:E; [|exfalso; vm_compute in E; discriminate].
  exists h. split; [reflexivity|]. split; [vm_compute in E; injection E as <-; reflexivity|exact (workflow_headers _ _ _ _ E)].
Defined.

(** *** Divergences *)

(** A timeout in seconds is ignored. *)
Theorem seconds_ignored : request_timeout "5" 0 = (30 * Second)%Z /\ request_timeout "5s" 0 = (5 * Second)%Z.
Proof. by vm_compute. Qed.
(** The body parameter wins over the input. *)
Theorem body_overrides_input : match prepare (demo_http ∅ demo_flaky) "input" {["url" := "u"; "method" := "post"; "body" := "param"]} with
  | Ok rq => rq_body rq = Some "param"
  | Err _ => False
  end.
Proof. by vm_compute. Qed.
(** Headers in JSON are read as one line of text. *)
Theorem json_headers : match buildRequestHeaders {["headers" := "{'A':'b'}"]} "GET" "" with
  | Ok h => map_to_list h = [("{'A'", ["'b'}"])]
  | Err _ => False
  end.
Proof. by vm_compute. Qed.
(** The content type is not checked for line breaks. *)
Theorem content_type_unchecked : match buildRequestHeaders {["content_type" := "a" +:+ newline +:+ "Host: b"]} "GET" "" with
  | Ok h => header_get "content-type" h = "a" +:+ newline +:+ "Host: b"
  | Err _ => False
  end.
Proof. by vm_compute. Qed.
(** A rate that is not a number makes a limiter without tokens, and every later
    request with a rate to the host fails with it. *)
Theorem nan_blocks_host : let e := demo_http ∅ (fun _ => 200%Z) in
  let url := "https://api.example.com/x" in
  let '(_, ls) := HTTPRequest e "" {["url" := url; "rate_limit_rps" := "nan"]} (mkLimiters ∅ 0 0) in
  (HTTPRequest e "" {["url" := url; "rate_limit_rps" := "10"]} ls).1 =
    ([], Err "rate limit wait interrupted: rate: Wait(n=1) exceeds limiter's burst 0").
Proof. by vm_compute. Qed.
(** The user name and the password of basic authentication are not told apart. *)
Theorem basic_ambiguous base64 s s' : sp_AuthType s = AuthTypeBasic -> sp_AuthType s' = AuthTypeBasic ->
  sp_Username s = "a:b" -> sp_Username s' = "a" -> httpAuthHeaders base64 s "c" = httpAuthHeaders base64 s' "b:c".
Proof. intros H H' E E'. unfold httpAuthHeaders. by rewrite H, H', E, E'. Qed.
(** A base URL that ends with a question mark takes the path as a query. *)
Theorem empty_query_base : joinBaseURL "https://h/?" "users" = Ok "https://h/?/users".
Proof. reflexivity. Qed.
