(* ===== verification/StrUtil.v ===== *)
(** * Truncating text (src/internal/strutil/truncate.go) *)

From S2P Require Import Prelude GoStrings GoText.
From Stdlib Require Import Ascii.

#[local] Open Scope string_scope.
#[local] Open Scope nat_scope.

(** ** Definitions *)

(** The last [n] bytes. *)
Definition suffix (n : nat) (s : string) : string := str_drop (String.length s - n) s.

(** [utf8.RuneStart]: not a continuation byte. *)
Definition RuneStart (c : ascii) : bool := negb ((128 <=? N_of_ascii c) && (N_of_ascii c <=? 191))%N.
Definition starts_rune (s : string) : bool := match s with String c _ => RuneStart c | "" => false end.

(** Whether the text is the encoding of one rune. *)
Definition one_rune (s : string) : bool :=
  match s with String c s' => match utf8_start c with Some p => (String.length s' =? length p)%nat && utf8_from p s' | None => false end | "" => false end.

(** [utf8.DecodeLastRuneInString] finds a rune, and not an error of size 1: it
    goes back to the start of a rune, at most four bytes in all. *)
Definition last_rune_ok (s : string) : bool :=
  if starts_rune (suffix 1 s) && one_rune (suffix 1 s) then true else
  let n := if starts_rune (suffix 2 s) then 2 else if starts_rune (suffix 3 s) then 3 else 4 in
  (n <=? String.length s) && one_rune (suffix n s).

Definition drop_last (s : string) : string := str_take (String.length s - 1) s.
Fixpoint strip (fuel : nat) (cut : string) : string :=
  match fuel with
  | O => cut
  | S fuel => if decide (cut = "") then cut else if last_rune_ok cut then cut else strip fuel (drop_last cut)
  end.
Definition Truncate (s : string) (max : Z) : string :=
  if (max <=? 0)%Z then "" else
  if (Z.of_nat (String.length s) <=? max)%Z then s else
  let cut := str_take (Z.to_nat max) s in strip (String.length cut) cut.

(** ** Theorems *)

Lemma suffix_app x u : suffix (String.length u) (x +:+ u) = u.
Proof. unfold suffix. rewrite string_length_app. replace (_ - _) with (String.length x) by lia. apply str_drop_app. Qed.
Lemma suffix_cons x y a u : suffix (String.length u) (x +:+ String a (y +:+ u)) = u.
Proof.
  replace (x +:+ String a (y +:+ u)) with ((x +:+ String a y) +:+ u) by (by rewrite string_app_assoc). apply suffix_app.
Qed.
Lemma suffix_split n s : exists x, s = x +:+ suffix n s.
Proof. exists (str_take (String.length s - n) s). unfold suffix. by rewrite str_take_drop. Qed.

Lemma one_rune_shape r : one_rune r = true -> exists c p, utf8_start c = Some p /\
  match p, r with
  | [], String c' "" => c' = c
  | [r1], String c' (String a1 "") => c' = c /\ (r1.1 <= N_of_ascii a1 <= r1.2)%N
  | [r1; r2], String c' (String a1 (String a2 "")) => c' = c /\ (r1.1 <= N_of_ascii a1 <= r1.2)%N /\ (r2.1 <= N_of_ascii a2 <= r2.2)%N
  | [r1; r2; r3], String c' (String a1 (String a2 (String a3 ""))) => c' = c /\ (r1.1 <= N_of_ascii a1 <= r1.2)%N /\
      (r2.1 <= N_of_ascii a2 <= r2.2)%N /\ (r3.1 <= N_of_ascii a3 <= r3.2)%N
  | _, _ => False
  end.
Proof.
  destruct r as [|c r]; [done|]. cbn [one_rune]. destruct (utf8_start c) as [p|] eqn:E; [|done]. intros [Hl H]%andb_prop.
  apply Nat.eqb_eq in Hl. exists c, p. split; [done|].
  assert (length p <= 3)%nat as Hp by (unfold utf8_start in E; repeat case_match; simplify_eq; cbn; lia). clear E.
  destruct p as [|[l1 h1] [|[l2 h2] [|[l3 h3] [|]]]]; cbn [length] in Hp; try lia;
    destruct r as [|a1 [|a2 [|a3 [|]]]]; cbn [length String.length] in Hl; try lia; [done|..];
    cbn [utf8_from] in H; rewrite ?andb_true_iff, ?N.leb_le in H; cbn [fst snd]; tauto.
Qed.
Lemma start_RuneStart c p : utf8_start c = Some p -> RuneStart c = true.
Proof.
  unfold utf8_start, RuneStart. intros H. apply negb_true_iff, andb_false_iff. rewrite N.leb_gt, N.leb_gt.
  destruct (N.ltb_spec (N_of_ascii c) 128); [by left|]. destruct (N.ltb_spec (N_of_ascii c) 194); [done|]. right. lia.
Qed.
Lemma cont_RuneStart a r : cont_range r -> (r.1 <= N_of_ascii a <= r.2)%N -> RuneStart a = false.
Proof. intros [H1 H2] H. unfold RuneStart. rewrite !(proj2 (N.leb_le _ _)) by lia. done. Qed.

Lemma last_rune_app x r : one_rune r = true -> last_rune_ok (x +:+ r) = true.
Proof.
  intros H. destruct (one_rune_shape r H) as (c & p & Hc & Hr). pose proof (start_RuneStart c p Hc) as Hs.
  pose proof (utf8_start_ranges c p Hc) as Hp. unfold last_rune_ok.
  destruct p as [|r1 [|r2 [|r3 [|]]]]; destruct r as [|c' [|a1 [|a2 [|a3 [|]]]]]; try done.
  - subst c'. pose proof (suffix_app x (String c "")) as E. cbn [String.length] in E. rewrite E. cbn [starts_rune]. by rewrite Hs, H.
  - destruct Hr as [-> H1]. apply Forall_cons in Hp as [Hp1 _]. pose proof (cont_RuneStart a1 r1 Hp1 H1) as N1.
    pose proof (suffix_cons x "" c (String a1 "")) as E1. pose proof (suffix_app x (String c (String a1 ""))) as E2.
    cbn [String.length String.append] in E1, E2. rewrite E1, E2. cbn [starts_rune]. rewrite N1, Hs. cbn [andb].
    rewrite E2, H, string_length_app. cbn [String.length]. by rewrite (proj2 (Nat.leb_le _ _)) by lia.
  - destruct Hr as (-> & H1 & H2). apply Forall_cons in Hp as [Hp1 [Hp2 _]%Forall_cons].
    pose proof (cont_RuneStart a1 r1 Hp1 H1) as N1. pose proof (cont_RuneStart a2 r2 Hp2 H2) as N2.
    pose proof (suffix_cons x (String a1 "") c (String a2 "")) as E1. pose proof (suffix_cons x "" c (String a1 (String a2 ""))) as E2.
    pose proof (suffix_app x (String c (String a1 (String a2 "")))) as E3.
    cbn [String.length String.append] in E1, E2, E3. rewrite E1, E2, E3. cbn [starts_rune]. rewrite N1, N2, Hs. cbn [andb].
    rewrite E3, H, string_length_app. cbn [String.length]. by rewrite (proj2 (Nat.leb_le _ _)) by lia.
  - destruct Hr as (-> & H1 & H2 & H3). apply Forall_cons in Hp as [Hp1 [Hp2 [Hp3 _]%Forall_cons]%Forall_cons].
    pose proof (cont_RuneStart a1 r1 Hp1 H1) as N1. pose proof (cont_RuneStart a2 r2 Hp2 H2) as N2. pose proof (cont_RuneStart a3 r3 Hp3 H3) as N3.
    pose proof (suffix_cons x (String a1 (String a2 "")) c (String a3 "")) as E1.
    pose proof (suffix_cons x (String a1 "") c (String a2 (String a3 ""))) as E2.
    pose proof (suffix_cons x "" c (String a1 (String a2 (String a3 "")))) as E3.
    pose proof (suffix_app x (String c (String a1 (String a2 (String a3 ""))))) as E4.
    cbn [String.length String.append] in E1, E2, E3, E4. rewrite E1, E2, E3. cbn [starts_rune]. rewrite N1, N2, N3. cbn [andb].
    rewrite E4, H, string_length_app. cbn [String.length]. by rewrite (proj2 (Nat.leb_le _ _)) by lia.
Qed.
Lemma last_rune_spec s : last_rune_ok s = true -> exists x r, s = x +:+ r /\ one_rune r = true.
Proof.
  unfold last_rune_ok. destruct (starts_rune (suffix 1 s) && _) eqn:E.
  - intros _. apply andb_prop in E as [_ E]. destruct (suffix_split 1 s) as [x Hx]. by exists x, (suffix 1 s).
  - set (n := if starts_rune (suffix 2 s) then _ else _). intros [_ H]%andb_prop. destruct (suffix_split n s) as [x Hx]. by exists x, (suffix n s).
Qed.

Lemma str_take_begins n s : exists u, s = str_take n s +:+ u.
Proof. exists (str_drop n s). by rewrite str_take_drop. Qed.
Lemma str_take_length n s : String.length (str_take n s) = Nat.min n (String.length s).
Proof. revert s. induction n as [|n IH]; intros [|c s]; cbn; [done..|]. by rewrite IH. Qed.
Lemma app_nonempty_length (x : string) : x <> "" -> String.length x <> 0.
Proof. by destruct x. Qed.
Lemma drop_last_snoc x c : drop_last (x +:+ String c "") = x.
Proof. unfold drop_last. rewrite string_length_app. cbn [String.length]. rewrite Nat.add_sub. apply str_take_app. Qed.
Lemma snoc_cases s : s = "" \/ exists x c, s = x +:+ String c "".
Proof.
  induction s as [|c s IH]; [by left|]. right. destruct IH as [->|(x & d & ->)]; [by exists "", c|by exists (String c x), d].
Qed.

(** [strip] takes bytes off the end, up to the last complete rune. *)
Lemma strip_spec fuel s : String.length s <= fuel -> exists u, s = strip fuel s +:+ u /\
  (strip fuel s = "" \/ last_rune_ok (strip fuel s) = true) /\
  forall t v, s = t +:+ v -> last_rune_ok t = true -> String.length t <= String.length (strip fuel s).
Proof.
  revert s. induction fuel as [|fuel IH]; intros s Hl.
  - destruct s; [|cbn in Hl; lia]. exists "". split_and!; [done|by left|]. intros t v E _.
    apply (f_equal String.length) in E. rewrite string_length_app in E. cbn in *. lia.
  - cbn [strip]. case_decide as He.
    { subst s. exists "". split_and!; [done|by left|]. intros t v E _. apply (f_equal String.length) in E. rewrite string_length_app in E. cbn in *. lia. }
    destruct (last_rune_ok s) eqn:Hs.
    { exists "". rewrite string_app_nil_r. split_and!; [done|by right|]. intros t v -> _. rewrite string_length_app. lia. }
    destruct (snoc_cases s) as [->|(x & c & ->)]; [done|]. rewrite drop_last_snoc. rewrite string_length_app in Hl. cbn in Hl.
    destruct (IH x ltac:(lia)) as (u & Hu & H1 & H2). exists (u +:+ String c ""). split_and!; [by rewrite <-string_app_assoc, <-Hu|done|].
    intros t v E Ht. destruct (snoc_cases v) as [->|(v' & d & ->)].
    + rewrite string_app_nil_r in E. subst t. congruence.
    + rewrite <-string_app_assoc in E. apply string_app_same_length in E as [E _]; [by eapply H2|].
      apply (f_equal String.length) in E. rewrite !string_length_app in *. cbn in E. lia.
Qed.

(** The state behind a part of a text. *)
Lemma utf8_app x : forall p s, Forall cont_range p -> utf8_from p (x +:+ s) = true -> exists q, Forall cont_range q /\ utf8_from q s = true /\
  forall t, utf8_from p (x +:+ t) = utf8_from q t.
Proof.
  induction x as [|c x IH]; intros p s Hp H; [by exists p|]. cbn [String.append utf8_from] in *. destruct p as [|[lo hi] p].
  - destruct (utf8_start c) as [p|] eqn:E; [|done]. by apply (IH p s (utf8_start_ranges c p E)).
  - apply Forall_cons in Hp as [_ Hp]. apply andb_prop in H as [Hc H]. rewrite Hc. by apply IH.
Qed.

(** What a valid text begins with is valid if it ends with a complete rune. *)
Lemma valid_part t u : ValidString (t +:+ u) = true -> last_rune_ok t = true -> ValidString t = true.
Proof.
  unfold ValidString. intros H (x & r & -> & Hr)%last_rune_spec. rewrite string_app_assoc in H.
  destruct (utf8_app x [] (r +:+ u) (Forall_nil_2 _) H) as (q & Hq & Hs & ->). destruct r as [|c r]; [done|].
  cbn [one_rune] in Hr. destruct (utf8_start c) as [p|] eqn:E; [|done]. apply andb_prop in Hr as [_ Hr]. destruct q as [|r1 q].
  - cbn [utf8_from]. by rewrite E.
  - apply Forall_cons in Hq as [Hq _]. cbn [String.append utf8_from] in Hs. destruct r1 as [lo hi].
    apply andb_prop in Hs as [[H1%N.leb_le H2%N.leb_le]%andb_prop _]. pose proof (cont_RuneStart c (lo, hi) Hq (conj H1 H2)).
    pose proof (start_RuneStart c p E). congruence.
Qed.
Lemma valid_ends t : ValidString t = true -> t = "" \/ last_rune_ok t = true.
Proof.
  unfold ValidString. remember (String.length t) as n eqn:Hn. revert t Hn. induction n as [n IH] using lt_wf_ind. intros t Hn H.
  destruct t as [|c t]; [by left|]. right. cbn [utf8_from] in H. destruct (utf8_start c) as [p|] eqn:E; [|done].
  assert (exists r u, t = r +:+ u /\ String.length r = length p /\ utf8_from p r = true /\ utf8_from [] u = true) as (r & u & -> & Hl & Hr & Hu).
  { clear -H. revert t H. induction p as [|[lo hi] p IHp]; intros t H; [by exists "", t|]. destruct t as [|d t]; [done|].
    cbn [utf8_from] in H. apply andb_prop in H as [Hd H]. destruct (IHp t H) as (r & u & -> & H1 & H2 & H3).
    exists (String d r), u. split_and!; [done|cbn; by rewrite H1|cbn [utf8_from]; by rewrite Hd|done]. }
  assert (one_rune (String c r) = true) as H1 by (cbn [one_rune]; by rewrite E, Hl, Nat.eqb_refl).
  destruct (IH (String.length u) ltac:(subst n; cbn; rewrite string_length_app; lia) u eq_refl Hu) as [->|Hlast].
  - rewrite string_app_nil_r. by apply (last_rune_app "").
  - apply last_rune_spec in Hlast as (x & r' & -> & Hr'). change (String c (r +:+ x +:+ r')) with (String c (r +:+ (x +:+ r'))).
    rewrite <-string_app_assoc. by apply (last_rune_app (String c (r +:+ x))).
Qed.

(** the result begins the text, has at most [max] bytes, is valid UTF-8 if
    the text is, and is the longest such part of it. *)
Theorem Truncate_exact s max : let t := Truncate s max in
  (exists u, s = t +:+ u) /\ (Z.of_nat (String.length t) <= Z.max 0 max)%Z /\ (ValidString s = true -> ValidString t = true) /\
  forall t' u', s = t' +:+ u' -> ValidString t' = true -> (Z.of_nat (String.length t') <= max)%Z -> (String.length t' <= String.length t)%nat.
Proof.
  cbn zeta. unfold Truncate. destruct (Z.leb_spec max 0) as [Hm|Hm].
  { split_and!; [by exists s|cbn; lia|done|]. intros t' u' -> _ Hl. cbn. lia. }
  destruct (Z.leb_spec (Z.of_nat (String.length s)) max) as [Hl|Hl].
  { split_and!; [exists ""; by rewrite string_app_nil_r|lia|done|]. intros t' u' -> _ _. rewrite string_length_app. lia. }
  set (cut := str_take (Z.to_nat max) s). destruct (strip_spec (String.length cut) cut ltac:(lia)) as (u & Hu & Hend & Hmax).
  set (t := strip (String.length cut) cut) in *. destruct (str_take_begins (Z.to_nat max) s) as [v Hv]. fold cut in Hv.
  assert (String.length cut = Z.to_nat max) as Hc by (unfold cut; rewrite str_take_length; lia).
  assert (s = t +:+ (u +:+ v)) as Hs by (rewrite <-string_app_assoc, <-Hu; exact Hv).
  split_and!.
  - by exists (u +:+ v).
  - apply (f_equal String.length) in Hu. rewrite string_length_app in Hu. lia.
  - rewrite Hs at 1. intros Hvalid. destruct Hend as [->|Hend]; [done|]. by eapply valid_part.
  - intros t' u' E Ht' Hlen. destruct (valid_ends t' Ht') as [->|Hr]; [cbn; lia|].
    assert (exists w, cut = t' +:+ w) as [w Hw]; [|by eapply Hmax].
    rewrite Hv in E. apply app_cut in E as [(w & E & _)|(w & E & _)]; [|by exists w].
    exists "". rewrite string_app_nil_r, E. rewrite E, string_length_app in Hlen.
    destruct w; [by rewrite string_app_nil_r|cbn in Hlen; lia].
Qed.

(** A text that is not valid need not become valid. *)
Theorem Truncate_invalid : ValidString (Truncate (String (ascii_of_nat 255) "abc") 2) = false.
Proof. reflexivity. Qed.
