(* ===== verification/CallNode.v ===== *)
(** * Calls of other workflows (src/internal/nodes/call.go)

    The call node reads a workflow file, adds variables to it and runs it; the
    run may call again.  The engine is a parameter that is given the call node
    of the next depth, so that the recursion and its limit are those of the
    code.  YAML, JSON and files are parameters. *)

From S2P Require Import Prelude GoStrings GoText GoPath PathGuard.
From Stdlib Require Import Ascii.

#[local] Open Scope string_scope.

(** ** Definitions *)

Definition MaxCallDepth : nat := 10.

(** [strings.SplitN(s, "=", 2)] gave a key and a value. *)
Definition add_pair (m : gmap string string) (part : string) : gmap string string :=
  match SplitN2 part "=" with
  | (key, Some val) => if decide (TrimSpace key = "") then m else <[TrimSpace key := TrimSpace val]> m
  | (_, None) => m
  end.

(** What a node ends with. *)
Inductive outcome :=
  | Finished (r : result string)
  | Panicked (msg : string).
Definition after {A} (r : result A) (k : A -> outcome) : outcome :=
  match r with Ok a => k a | Err err => Finished (Err err) end.

Section calls.
(** Values of YAML, those of [map[string]interface{}] and strings among them;
    documents decode to a map, or to none if they are empty. *)
Context {val : Type} (as_map : val -> option (gmap string val)) (of_map : gmap string val -> val) (of_str : string -> val).
Context (yaml_decode : string -> result (option (gmap string val))) (yaml_encode : gmap string val -> result string).
Context (json_decode : string -> result (gmap string string)).
(** The verb [%q]. *)
Context (quote : string -> string).

Definition parseVarsParam (s : string) : gmap string string :=
  let s := TrimSpace s in
  if decide (s = "") then ∅ else
  if (1024 * 1024 <? Z.of_nat (String.length s))%Z then ∅ else
  let pairs := foldl add_pair ∅ (Split s ",") in
  if HasPrefix s "{" then
    match json_decode s with Ok m => if decide (m = ∅) then pairs else m | Err _ => pairs end
  else pairs.

(** Storing into the map of an empty document panics. *)
Definition injectVarsIntoWorkflow (content : string) (newVars : gmap string string) (k : result string -> outcome) : outcome :=
  match yaml_decode content with
  | Err err => k (Err ("failed to parse workflow YAML: " +:+ err))
  | Ok wf =>
      let existing := default ∅ (w ← wf; v ← w !! "vars"; as_map v) in
      let vars := (of_str <$> newVars) ∪ existing in
      match wf with
      | None => Panicked "assignment to entry in nil map"
      | Some wf => k (wrap_err "failed to re-marshal workflow: " (yaml_encode (<["vars" := of_map vars]> wf)))
      end
  end.

(** The guard of paths with its working directory, and the files. *)
Context (ge : GuardEnv) (workDir : string) (read_file : string -> result string).

(** [ExecuteWorkflowFunc], which is registered; the nodes it runs call with the depth of their
    context, so it is given the node of that depth. *)
Context (run : (string -> gmap string string -> outcome) -> string -> outcome).

Definition call_step (next : option (string -> gmap string string -> outcome)) (input : string) (params : gmap string string) : outcome :=
  let path := default "" (params !! "workflow") in
  if decide (path = "") then Finished (Err "workflow parameter is required") else
  match ValidateReadPathIn ge workDir path with
  | Err err =>
      Finished (Err ((if IsAbs path then "absolute paths not allowed for workflow calls, use relative paths: " else "invalid workflow path: ") +:+ err))
  | Ok path =>
      match next with
      | None => Finished (Err "maximum workflow call depth (10) exceeded - possible circular call detected")
      | Some next =>
          after (wrap_err ("failed to read workflow file " +:+ quote path +:+ ": ") (read_file path)) (fun data =>
          if (10 * 1024 * 1024 <? Z.of_nat (String.length data))%Z then Finished (Err "workflow file too large (max 10MB)") else
          let start (content : result string) :=
            after (wrap_err "failed to inject vars into workflow: " content) (fun content =>
            match run next content with
            | Finished r => Finished (wrap_err ("failed to execute workflow " +:+ quote path +:+ ": ") r)
            | Panicked msg => Panicked msg
            end) in
          let vars := parseVarsParam (default "" (params !! "vars")) in
          if decide (vars = ∅) then start (Ok data) else injectVarsIntoWorkflow data vars start)
      end
  end.

(** The node when [left] more calls may be nested in this one. *)
Fixpoint call_at (left_calls : nat) (input : string) (params : gmap string string) : outcome :=
  call_step (match left_calls with O => None | S n => Some (call_at n) end) input params.

(** The node at a depth of the context. *)
Definition CallNode (depth : nat) : string -> gmap string string -> outcome := call_at (MaxCallDepth - depth).

(** ** Theorems *)

(** The node is the recursion of the code: at the limit it refuses, and
    below it runs the workflow with the node of the next depth. *)
Lemma CallNode_unfold depth input params : CallNode depth input params =
  call_step (if (MaxCallDepth <=? depth)%nat then None else Some (CallNode (S depth))) input params.
Proof.
  unfold CallNode. destruct (Nat.leb_spec MaxCallDepth depth) as [H|H].
  - replace (MaxCallDepth - depth) with 0 by lia. done.
  - replace (MaxCallDepth - depth) with (S (MaxCallDepth - S depth)) by lia. done.
Qed.

(** every other solution of that recursion is the same one: the code, which is
    one, ends with what [CallNode] gives. *)
Theorem CallNode_unique (node : nat -> string -> gmap string string -> outcome) :
  (forall next next' content, (forall i p, next i p = next' i p) -> run next content = run next' content) ->
  (forall depth input params, node depth input params =
     call_step (if (MaxCallDepth <=? depth)%nat then None else Some (node (S depth))) input params) ->
  forall depth input params, node depth input params = CallNode depth input params.
Proof.
  intros Hrun Hnode. assert (forall n depth, n = MaxCallDepth - depth -> forall input params, node depth input params = CallNode depth input params) as H.
  { induction n as [|n IH]; intros depth Hn input params; rewrite Hnode, CallNode_unfold.
    - by rewrite (proj2 (Nat.leb_le _ _)) by lia.
    - rewrite (proj2 (Nat.leb_gt _ _)) by lia. specialize (IH (S depth) ltac:(lia)). unfold call_step.
      case_decide; [done|]. destruct (ValidateReadPathIn ge workDir _) as [path|err]; [|done].
      destruct (wrap_err _ (read_file path)) as [data|err]; [|done]. cbn [after]. destruct (_ <? _)%Z; [done|].
      assert (forall content, after (wrap_err "failed to inject vars into workflow: " content) (fun content =>
          match run (node (S depth)) content with Finished r => Finished (wrap_err ("failed to execute workflow " +:+ quote path +:+ ": ") r) | Panicked msg => Panicked msg end) =
        after (wrap_err "failed to inject vars into workflow: " content) (fun content =>
          match run (CallNode (S depth)) content with Finished r => Finished (wrap_err ("failed to execute workflow " +:+ quote path +:+ ": ") r) | Panicked msg => Panicked msg end)) as Hs.
      { intros [content|err]; [|done]. cbn. by rewrite (Hrun _ _ content IH). }
      case_decide; [apply Hs|]. unfold injectVarsIntoWorkflow. destruct (yaml_decode data) as [[wf|]|err]; [apply Hs|done|apply Hs]. }
  intros depth input params. by eapply H.
Qed.

(** the variables of the call replace those of the file, and nothing else of
    it changes. *)
Theorem inject_exact content newVars wf (k : result string -> outcome) : yaml_decode content = Ok (Some wf) ->
  (forall m, as_map (of_map m) = Some m) ->
  exists wf', injectVarsIntoWorkflow content newVars k = k (wrap_err "failed to re-marshal workflow: " (yaml_encode wf')) /\
    (forall key, key <> "vars" -> wf' !! key = wf !! key) /\
    exists vars, (v ← wf' !! "vars"; as_map v) = Some vars /\
      (forall x v, newVars !! x = Some v -> vars !! x = Some (of_str v)) /\
      (forall x, newVars !! x = None -> vars !! x = (m ← v ← wf !! "vars"; as_map v; m !! x)).
Proof.
  intros Hd Hm. unfold injectVarsIntoWorkflow. rewrite Hd. set (existing := default ∅ _). eexists. split; [done|]. split.
  - intros key Hkey. by apply lookup_insert_ne.
  - exists ((of_str <$> newVars) ∪ existing). rewrite lookup_insert_eq. cbn. split; [apply Hm|]. split.
    + intros x v Hx. apply lookup_union_Some_l. by rewrite lookup_fmap, Hx.
    + intros x Hx. rewrite lookup_union_r by (by rewrite lookup_fmap, Hx). unfold existing. cbn.
      destruct (wf !! "vars") as [v|]; [|done]. cbn. by destruct (as_map v).
Qed.
End calls.

(** ** Concrete calls *)

(** Documents that decode to one map of strings: a file whose text is its
    variable [x], or empty. *)
Inductive value := Text (s : string) | Map (m : list (string * string)).
Definition value_map (v : value) : option (gmap string value) :=
  match v with Map m => Some (Text <$> list_to_map m) | Text _ => None end.
Definition value_of (m : gmap string value) : value :=
  Map (omap (fun kv => match kv.2 with Text s => Some (kv.1, s) | Map _ => None end) (map_to_list m)).
Definition doc_decode (s : string) : result (option (gmap string value)) :=
  Ok (if decide (s = "") then None else Some {["vars" := Map [("x", s)]]}).
Definition doc_encode (m : gmap string value) : result string :=
  match m !! "vars" with Some (Map kvs) => Ok (default "" (list_to_map (M := gmap string string) kvs !! "x")) | _ => Err "not a document" end.
Definition demo_files (p : string) : result string :=
  if decide (p = "/work/empty.yaml") then Ok "" else if decide (p = "/work/loop.yaml") then Ok "loop" else if decide (p = "/work/a.yaml") then Ok "a" else Err "no such file".
(** A workflow that calls [loop.yaml], or ends with its text. *)
Definition demo_run (next : string -> gmap string string -> outcome) (content : string) : outcome :=
  if decide (content = "loop") then next "" {["workflow" := "loop.yaml"]} else Finished (Ok content).
Definition demo_call : nat -> string -> gmap string string -> outcome :=
  CallNode value_map value_of Text doc_decode doc_encode (fun _ => Err "invalid") (fun s => s) (guard "L1" Err) "/work" demo_files demo_run.

(** The variable of the call reaches the workflow. *)
Lemma demo_vars : demo_call 0 "" {["workflow" := "a.yaml"; "vars" := " x = 1=2 ,y"]} = Finished (Ok "1=2").
Proof. vm_compute. reflexivity. Qed.

Fixpoint ends_with_depth (fuel : nat) (s : string) : bool :=
  HasPrefix s "maximum workflow call depth (10) exceeded" ||
  match fuel, s with S n, String _ s' => ends_with_depth n s' | _, _ => false end.

(** A workflow that calls itself ends with the error of the limit. *)
Theorem circular_call : match demo_call 0 "" {["workflow" := "loop.yaml"]} with
  Finished (Err e) => ends_with_depth 1000 e = true | _ => False end.
Proof. vm_compute. reflexivity. Qed.

(** Variables for an empty workflow file panic. *)
Theorem empty_workflow_panics :
  demo_call 0 "" {["workflow" := "empty.yaml"]} = Finished (Ok "") /\
  demo_call 0 "" {["workflow" := "empty.yaml"; "vars" := "x=1"]} = Panicked "assignment to entry in nil map".
Proof. split; vm_compute; reflexivity. Qed.
